(* ===== verification/_CoqProject ===== *)
-Q . S2P
Prelude.v
Varint.v
GoText.v
GoSort.v
Base32.v
Base64.v
Base36.v
Base58.v
Multibase.v
Multihash.v
Cid.v
Hashing.v
PeerID.v
Transcoders.v
OnionGarlic.v
Multiaddr.v
MultiaddrSpec.v
MultiaddrText.v
MultiaddrParse.v
Multistream.v
Heap.v
AddrBook.v
AddrBookFacts.v
AddrBookTheorems.v
Limits.v
Resources.v
Scope.v
ScopeFacts.v
ScopeInv.v
ScopeAccount.v
ScopeLedger.v
ScopeSpans.v
ConnLimiter.v
Rcmgr.v
Allowlist.v
PublicAddr.v
DialLimiter.v
DialRanker.v
BlackHole.v
Asn.v
Relay.v
Yamux.v
YamuxSession.v
YamuxBounds.v
YamuxNet.v
YamuxPeers.v
YamuxConn.v
YamuxRecv.v
YamuxTheorems.v
ConnMgr.v
ConnMgrInv.v
ConnMgrTheorems.v
DsKey.v
DsQuery.v
DsMap.v
DsLift.v
DsMount.v
DsTransform.v
ConnGater.v
RcmgrInv.v
RcmgrOps.v
RcmgrStreams.v
RcmgrSafety.v
RcmgrTheorems.v
