(* ===== verification/Prelude.v ===== *)
(** * Verification of the dep2p libp2p stack

    The development models parts of the sources under src/ as executable definitions
    and proves what makes them correct.  Stateful code is a function on an explicit
    state; an error is a value ([result], or an option where the code keeps no error
    apart); a Go panic is an outer [None].  Go integers are [Z] with their wrap-around
    written out, bytes and Go strings are lists of [Z] below 256.

    ** Foundations

    - Prelude.v: integers of machine width, bytes and bits, sums over finite maps, and
      the tactics used everywhere.
    - GoText.v: what the code uses of strings, strconv and net (texts of numbers and of
      IP addresses, the order of strings).  GoSort.v: sort.Slice, which is not stable, as an
      interface ([SortSlice]) with insertion sort as an instance.
    - Varint.v: src/multiformats/varint.

    ** Encodings and identifiers

    - Base32.v, Base36.v: src/multiformats/base32 and base36; Base64.v: encoding/base64.
      Base58.v: the base58 package, which is not part of the sources, as an interface
      ([Base58], [Base58Laws]) with a reference instance.
    - Multibase.v: src/multiformats/multibase, all its bases.
    - Multihash.v: src/multiformats/multihash/multihash.go.  Hashing.v: the registry of
      hash functions, [Sum], [ReadMultihash], and the builders of CIDs; hash functions
      are parameters known by the size of their digests.
    - Cid.v: src/cid: CIDs of both versions, their texts, prefixes and streams.
    - PeerID.v: src/core/peer/peer.go; public keys are an interface.

    The theorems are round trips (texts are read back, in every base), exactness (what a
    parser accepts is what a printer produces), and the agreement of the stream readers
    with the slice decoders.

    ** Multiaddrs (src/multiformats/multiaddr)

    - Transcoders.v, OnionGarlic.v: transcoders.go.  [lawful] is what the codec needs of
      a transcoder.
    - Multiaddr.v: protocol.go, protocols.go, codec.go, component.go, multiaddr.go and
      util.go, with the protocol registry as a value.
    - MultiaddrSpec.v: an address as a sequence of protocols and values, and that the
      codec implements it.  MultiaddrText.v: texts, [Encapsulate] and [Decapsulate].
      MultiaddrParse.v: what is parsed validates.

    The loops over the bytes of an address get its length as fuel; every round reads a
    byte, and the theorems say that the result is reached.

    ** The resource manager (src/p2p/host/resource-manager)

    - Limits.v: limit.go and limit_defaults.go (limit records, merging, scaling).
    - Resources.v: the counters of one scope ([resources] of scope.go).
    - Scope.v: the scopes of scope.go as records in a heap, with the edges of the DAG and
      the owners of spans as addresses; every method as a function in a state monad.
      ScopeFacts.v, ScopeInv.v, ScopeAccount.v and ScopeLedger.v prove that reservations
      are atomic, limits hold, and a ghost ledger of what each holder reserved always
      explains the counters; ScopeSpans.v splits it into what spans hold and what was
      reserved on the scopes themselves.  Recursion along the owners of spans is by their
      depth.
    - ConnLimiter.v: conn_limiter.go, as a refinement of counting live connections.
    - Allowlist.v: allowlist.go, with net.IPNet.
    - Rcmgr.v: rcmgr.go, the manager over the heap of scopes: connections, streams, views
      and garbage collection.  RcmgrInv.v states the invariant of the whole state,
      RcmgrOps.v and RcmgrStreams.v prove that every operation keeps it, RcmgrSafety.v
      that every run does, and RcmgrTheorems.v draws the conclusions for runs.

    Operations run one at a time: the locks of the code serialise the steps of the
    model, and interleavings are runs of whole operations.  A run reserves on
    connections, streams, the manager's own scopes and spans of all of these; it calls
    the setters on open connections and streams, and [SetPeer] not on a connection that
    a failed transfer left without parents, where the code releases what it never
    reserved ([orphan_setpeer]).

    ** Protocol negotiation (src/multiformats/multistream)

    - Multistream.v: the delimited tokens, the muxer, both sides of the negotiation as state
      machines, and a network between them that delivers any part of what was sent
      ([net_step]).  Every run of it ends, with both sides agreed on the first protocol the
      server has; the lazy connection agrees with the eager one.

    ** The peerstore (src/p2p/host/peerstore/pstoremem/addr_book.go)

    - Heap.v: container/heap over an interface ([HeapInterface]), its correctness for a weak
      order, and that an implementation of the interface simulates it on lists.
    - AddrBook.v: the address book, with entries in a store because the map and the heap
      share them.  AddrBookFacts.v: map, store and heap agree.  AddrBookTheorems.v: the book
      implements a map of addresses that expire, and collecting garbage removes the expired ones
      only and changes none of the addresses and records read before the next change.

    ** Dialling (src/p2p/net/swarm) and the relay (src/p2p/protocol/circuitv2/relay)

    - PublicAddr.v: src/multiformats/multiaddr/net/private.go: which addresses are public and
      private, as ranges of numbers.
    - DialLimiter.v: limiter.go, as a step relation with the dials that run; tokens are
      accounted for, no dial is lost, and the limiter drains.  The loop of [freeFDToken]
      has the number of waiting dials as fuel; every round removes one.
    - DialRanker.v: dial_ranker.go: the ranking of a group is a permutation with the documented
      schedule, but that addresses other than QUIC and TCP wait even when they are alone.
    - BlackHole.v: black_hole_detector.go: the counter is a window over the last results, and
      a blocked transport is probed again and again.
    - Asn.v: src/p2plib/asn/util: the binary search, on the files the generator writes.
    - Relay.v: constraints.go and the reservations and circuits of relay.go, as a step relation
      with the open circuits; the limits hold, and where they do not is shown by examples.

    ** The stream multiplexer (src/p2plib/yamux)

    - Yamux.v: const.go, util.go and mux.go: frame headers, the frames on the wire, the segmented
      receive buffer ([buf_Read], [GrowTo]), the configuration.  Frames are read back as written,
      and the buffer is a queue of bytes.
    - YamuxSession.v: stream.go and session.go.  Each call of a user and the handling of each
      frame is a function on the session; what a deadline, the round-trip time or the memory
      manager decides is an argument; a call that would wait is [None].  The loop of [Write] has
      the bytes left as fuel, as every round sends one; the one of [recvFrames] has the bytes
      received, as every round consumes a header.
    - YamuxBounds.v: what one session holds is bounded by its configuration, against any peer.
    - YamuxNet.v: the state of one stream ID on both ends and on the wire, and the steps that
      keep the ends consistent; YamuxPeers.v: every call takes such steps; YamuxConn.v: two
      sessions on a connection; YamuxRecv.v: the reception of a frame of the peer.
    - YamuxTheorems.v: for every run of two sessions, their calls and receptions being steps that
      run one at a time, neither side breaks the protocol, what is
      read is a prefix of what was written, an end of file comes after the last byte, and a
      stream never waits for credit nobody will send; where the code falls short of this (lost
      credit, an early end of file, leaked SYN slots, writes on one stream that overlap) is shown
      by runs.

    ** The connection manager (src/p2p/net/connmgr, src/core/connmgr)

    - ConnMgr.v: connmgr.go, decay.go and options.go, and the decay and bump functions of
      presets.go: the segments of peers, tags, protection, notifications, both ways to choose
      connections to close, and the steps of the decayer's loop.
    - ConnMgrInv.v: the states that operations reach, and their invariant: entries list the
      open connections, values are sums of tags, nothing panics.
    - ConnMgrTheorems.v: a trim spares protected and new peers, closes the lowest ranked and as
      many connections as the low watermark asks; the emergency trim, which may fall short; values decay.

    ** Datastores (src/datastore) and the connection gater (src/p2p/net/conngater)

    - DsKey.v: key.go: cleaned keys are paths of words.
    - DsQuery.v: src/datastore/query and the interface of datastores.  [DatastoreLaws] is the
      contract: a datastore is a map, and a query returns the entries of the map below the
      prefix that pass the filters, in the order asked for.
    - DsMap.v: the map datastore, batches, and autobatch; DsMount.v: mount, whose queries merge
      the streams of the mounts with the heap of Heap.v; DsTransform.v: keytransform and
      namespace; DsLift.v: keys moved below a prefix, which the last two share.  Each is shown to
      keep the contract over any children that keep it, so they stack.  The merge has the results
      that are left as fuel, as every round takes one; it is shown to end with all of them.
    - ConnGater.v: conngater.go over any such datastore: decisions follow the rules, across
      restarts.

    Where the code departs from the contract (masked keys in queries of mounts, a failed commit of
    autobatch, filters and prefixes under transforms) is shown by runs.

    ** Not modelled

    Tracing, metrics, logging and JSON (side outputs of the modelled code); the rest of the
    swarm, the security and transport packages, hosts, discovery, NAT, identify, and the
    streams and messages of the relay (goroutines, timers and sockets around libraries); of
    yamux the timers, the keep-alive, memory spans and wake-up channels; floating point;
    of the datastores the maintenance calls, batches of mounts and transforms, the channels behind
    results, and the wrappers that fail, retry, wait or lock; protobuf-generated code;
    cryptography. *)

From stdpp Require Import base gmap list numbers strings fin_maps.
From Stdlib Require Import ZArith Lia.

#[global] Open Scope Z_scope.

(** ** Go integers

    A Go [int]/[int64] is a [Z] kept in [[-2^63, 2^63)] by [wrap64]; a [uint64]
    is a [Z] kept in [[0, 2^64)] by [wrapu64].  [/] on Go integers truncates
    towards zero, i.e. is [Z.quot]. *)
Definition MaxInt64 : Z := 2 ^ 63 - 1.
Definition MinInt64 : Z := - 2 ^ 63.
Definition wrap64 (z : Z) : Z := (z + 2 ^ 63) mod 2 ^ 64 - 2 ^ 63.
Definition wrapu64 (z : Z) : Z := z mod 2 ^ 64.
Definition int64 (z : Z) : Prop := MinInt64 <= z <= MaxInt64.
Definition uint64 (z : Z) : Prop := 0 <= z < 2 ^ 64.

Lemma wrap64_id z : int64 z -> wrap64 z = z.
Proof. unfold int64, wrap64, MinInt64, MaxInt64. intros. rewrite Z.mod_small; lia. Qed.

Lemma wrap64_int64 z : int64 (wrap64 z).
Proof.
  unfold int64, wrap64, MinInt64, MaxInt64.
  pose proof (Z.mod_pos_bound (z + 2 ^ 63) (2 ^ 64)). lia.
Qed.

Lemma wrap64_fixed z : wrap64 z = z <-> int64 z.
Proof. split; [intros <-; apply wrap64_int64 | apply wrap64_id]. Qed.

Lemma wrap64_eqm z : exists k, wrap64 z = z + k * 2 ^ 64.
Proof.
  exists (- ((z + 2 ^ 63) / 2 ^ 64)). unfold wrap64.
  pose proof (Z.div_mod (z + 2 ^ 63) (2 ^ 64)). lia.
Qed.

(** Adding and then subtracting the same amount is the identity, wrap-around
    included. *)
Lemma wrap64_add_sub a b : int64 a -> wrap64 (wrap64 (a + b) - b) = a.
Proof.
  intros Ha. destruct (wrap64_eqm (a + b)) as [k ->].
  destruct (wrap64_eqm (a + b + k * 2 ^ 64 - b)) as [j Hj].
  pose proof (wrap64_int64 (a + b + k * 2 ^ 64 - b)).
  unfold int64, MinInt64, MaxInt64 in *. lia.
Qed.

Lemma wrapu64_id z : uint64 z -> wrapu64 z = z.
Proof. unfold uint64, wrapu64. intros. apply Z.mod_small; lia. Qed.

(** ** Results

    A Go function returning [(T, error)] is a [result]; one returning only
    [error] is an [option] with [None] for the nil error. *)
Inductive result (E A : Type) : Type :=
| Ok (a : A)
| Err (e : E).
Arguments Ok {E A} _.
Arguments Err {E A} _.

(** ** Automation

    [go64] decides goals about values known to be Go integers: it removes every
    [wrap64] whose argument [lia] can bound, then calls [lia]. *)
Ltac unwrap64 :=
  repeat match goal with
  | |- context [wrap64 ?z] => rewrite (wrap64_id z) by (unfold int64, MinInt64, MaxInt64 in *; lia)
  | H : context [wrap64 ?z] |- _ =>
      rewrite (wrap64_id z) in H by (unfold int64, MinInt64, MaxInt64 in *; lia)
  end.
Ltac go64 := unwrap64; unfold int64, MinInt64, MaxInt64 in *; lia.

(** [lia] with division and remainder by constants. *)
Ltac dlia := Z.div_mod_to_equations; lia.

(** [zbool] evaluates an integer comparison. *)
Ltac zbool_eq :=
  match goal with
  | |- (_ <? _) = true => apply Z.ltb_lt; lia
  | |- (_ <? _) = false => apply Z.ltb_ge; lia
  | |- (_ <=? _) = true => apply Z.leb_le; lia
  | |- (_ <=? _) = false => apply Z.leb_gt; lia
  | |- (_ =? _) = true => apply Z.eqb_eq; lia
  | |- (_ =? _) = false => apply Z.eqb_neq; lia
  | |- (_ >? _) = _ => rewrite Z.gtb_ltb; zbool_eq
  | |- (_ >=? _) = _ => rewrite Z.geb_leb; zbool_eq
  end.
Ltac zbool := first [zbool_eq | symmetry; zbool_eq].

(** [case_bool] splits the first boolean test under an [if] of the goal or of a
    hypothesis and turns integer comparisons into propositions. *)
Ltac bool_props :=
  repeat match goal with
  | H : (_ <? _) = true |- _ => apply Z.ltb_lt in H
  | H : (_ <? _) = false |- _ => apply Z.ltb_ge in H
  | H : (_ >? _) = true |- _ => rewrite Z.gtb_ltb in H; apply Z.ltb_lt in H
  | H : (_ >? _) = false |- _ => rewrite Z.gtb_ltb in H; apply Z.ltb_ge in H
  | H : (_ >=? _) = true |- _ => rewrite Z.geb_leb in H; apply Z.leb_le in H
  | H : (_ >=? _) = false |- _ => rewrite Z.geb_leb in H; apply Z.leb_gt in H
  | H : (_ <=? _) = true |- _ => apply Z.leb_le in H
  | H : (_ <=? _) = false |- _ => apply Z.leb_gt in H
  | H : (_ =? _) = true |- _ => apply Z.eqb_eq in H
  | H : (_ =? _) = false |- _ => apply Z.eqb_neq in H
  | H : (_ && _)%bool = true |- _ => apply andb_prop in H; destruct H
  | H : (_ || _)%bool = false |- _ => apply orb_false_elim in H; destruct H
  | H : negb _ = true |- _ => apply negb_true_iff in H
  | H : negb _ = false |- _ => apply negb_false_iff in H
  end.
Ltac case_bool :=
  match goal with
  | |- context [if ?b then _ else _] =>
      match type of b with bool => let E := fresh "Hb" in destruct b eqn:E; bool_props end
  | H : context [if ?b then _ else _] |- _ =>
      match type of b with bool => let E := fresh "Hb" in destruct b eqn:E; bool_props end
  end.

Create HintDb go discriminated.
#[export] Hint Resolve wrap64_int64 : go.

(** ** Sums over finite maps *)
Section map_sum.
Context `{Countable K} {A : Type}.
Implicit Types (f : K -> A -> Z) (m : gmap K A).

Definition msum f m : Z := map_fold (fun k v acc => f k v + acc) 0 m.

Lemma msum_empty f : msum f ∅ = 0.
Proof. apply map_fold_empty. Qed.

Lemma msum_insert f m k v :
  m !! k = None -> msum f (<[k:=v]> m) = f k v + msum f m.
Proof. intros. unfold msum. rewrite map_fold_insert_L; [done | intros; lia | done]. Qed.

Lemma msum_delete f m k v : m !! k = Some v -> msum f m = f k v + msum f (delete k m).
Proof.
  intros Hk. rewrite <- (insert_delete_id m k v Hk) at 1.
  apply msum_insert, lookup_delete_eq.
Qed.

Lemma msum_update f m k v v' :
  m !! k = Some v -> msum f (<[k:=v']> m) = msum f m - f k v + f k v'.
Proof.
  intros Hk. rewrite (msum_delete f m k v Hk).
  rewrite <- insert_delete_eq, msum_insert by apply lookup_delete_eq. lia.
Qed.

Lemma msum_ext f g m :
  (forall k v, m !! k = Some v -> f k v = g k v) -> msum f m = msum g m.
Proof.
  induction m as [|k v m Hk IH] using map_ind; intros Hfg; [done|].
  rewrite !msum_insert by done. rewrite IH, (Hfg k v); [done | by simplify_map_eq |].
  intros k' v' Hk'. apply Hfg. rewrite lookup_insert_ne; [done | congruence].
Qed.

Lemma msum_nonneg f m :
  (forall k v, m !! k = Some v -> 0 <= f k v) -> 0 <= msum f m.
Proof.
  induction m as [|k v m Hk IH] using map_ind; intros Hf; [done|].
  rewrite msum_insert by done.
  assert (0 <= f k v) by (apply Hf; by simplify_map_eq).
  assert (0 <= msum f m); [|lia]. apply IH. intros k' v' Hk'. apply Hf.
  rewrite lookup_insert_ne; [done | congruence].
Qed.

Lemma msum_le_member f m k v :
  (forall k v, m !! k = Some v -> 0 <= f k v) -> m !! k = Some v -> f k v <= msum f m.
Proof.
  intros Hf Hk. rewrite (msum_delete f m k v Hk).
  assert (0 <= msum f (delete k m)); [|lia]. apply msum_nonneg.
  intros k' v' [_ Hk']%lookup_delete_Some. by apply Hf.
Qed.

Lemma msum_zero_members f m :
  (forall k v, m !! k = Some v -> 0 <= f k v) -> msum f m = 0 ->
  forall k v, m !! k = Some v -> f k v = 0.
Proof.
  intros Hf Hs k v Hk. pose proof (msum_le_member f m k v Hf Hk).
  specialize (Hf k v Hk). lia.
Qed.

Lemma msum_alter f m k v g :
  m !! k = Some v -> msum f (alter g k m) = msum f m - f k v + f k (g v).
Proof.
  intros Hk. rewrite <- (msum_update f m k v (g v) Hk). f_equal.
  apply map_eq. intros j. rewrite lookup_alter, lookup_insert.
  case_decide; [subst; by rewrite Hk | done].
Qed.

(** Two summands that differ at one key. *)
Lemma msum_change f g m k v :
  m !! k = Some v -> (forall j w, j <> k -> m !! j = Some w -> g j w = f j w) ->
  msum g m = msum f m - f k v + g k v.
Proof.
  intros Hk Hne. rewrite (msum_delete f m k v Hk), (msum_delete g m k v Hk).
  rewrite (msum_ext g f (delete k m)); [lia|].
  intros j w [? ?]%lookup_delete_Some. auto.
Qed.
End map_sum.

(** Sums over two maps with the same keys and the same summands. *)
Lemma msum_pointwise `{Countable K} {A B} (f : K -> A -> Z) (g : K -> B -> Z) m1 m2 :
  (forall k, f k <$> m1 !! k = g k <$> m2 !! k) -> msum f m1 = msum g m2.
Proof.
  revert m2. induction m1 as [|k v m1 Hk IH] using map_ind; intros m2 Hfg.
  - assert (m2 = ∅) as ->; [|by rewrite !msum_empty]. apply map_eq. intros k.
    specialize (Hfg k). rewrite lookup_empty in *. by destruct (m2 !! k).
  - pose proof (Hfg k) as Hv. rewrite lookup_insert_eq in Hv. simpl in Hv.
    destruct (m2 !! k) as [w|] eqn:Hw; [|done]. injection Hv as Hv.
    rewrite msum_insert, (msum_delete g m2 k w), Hv by done. f_equal. apply IH. intros j.
    specialize (Hfg j). rewrite lookup_insert in Hfg. rewrite lookup_delete.
    case_decide; [subst; by rewrite Hk|done].
Qed.

(** ... that differ at one key. *)
Lemma msum_pointwise_but `{Countable K} {A B} (f : K -> A -> Z) (g : K -> B -> Z) m1 m2 k v w :
  m1 !! k = Some v -> m2 !! k = Some w ->
  (forall j, j <> k -> f j <$> m1 !! j = g j <$> m2 !! j) ->
  msum g m2 = msum f m1 - f k v + g k w.
Proof.
  intros Hv Hw Hfg. rewrite (msum_delete f m1 k v Hv), (msum_delete g m2 k w Hw).
  rewrite (msum_pointwise f g (delete k m1) (delete k m2)); [lia|].
  intros j. rewrite !lookup_delete. case_decide; [done|auto].
Qed.

(** ** Counting list elements *)
Section tally.
Context {A : Type}.
Implicit Types (P Q : A -> bool) (l : list A).

Fixpoint tally P l : Z :=
  match l with
  | [] => 0
  | x :: l => (if P x then 1 else 0) + tally P l
  end.

Lemma tally_bounds P l : 0 <= tally P l <= Z.of_nat (length l).
Proof. induction l as [|x l IH]; simpl; [lia|]. destruct (P x); lia. Qed.

#[export] Instance tally_perm P : Proper ((≡ₚ) ==> (=)) (tally P).
Proof. induction 1; simpl; lia. Qed.

Lemma tally_ext P Q l : (forall x, x ∈ l -> P x = Q x) -> tally P l = tally Q l.
Proof.
  induction l as [|x l IH]; intros H; [done|]. simpl. rewrite (H x) by by left.
  rewrite IH; [done|]. intros y Hy. apply H. by right.
Qed.

Lemma tally_app P l k : tally P (l ++ k) = tally P l + tally P k.
Proof. induction l as [|x l IH]; simpl; [done|]. rewrite IH. lia. Qed.

Lemma tally_cons P x l : tally P (x :: l) = (if P x then 1 else 0) + tally P l.
Proof. done. Qed.

Lemma tally_nonneg P l : 0 <= tally P l.
Proof. apply tally_bounds. Qed.

Lemma tally_zero P l : (forall x, x ∈ l -> P x = false) -> tally P l = 0.
Proof.
  induction l as [|x l IH]; intros H; [done|]. simpl. rewrite (H x) by by left.
  rewrite IH; [done|]. intros y Hy. apply H. by right.
Qed.
End tally.

(** ** Bytes

    A Go [byte] is a [Z] in [[0, 256)], a [[]byte] a list of them. *)
Definition is_byte (b : Z) : Prop := 0 <= b < 256.
Definition bytes_ok (bs : list Z) : Prop := Forall is_byte bs.

#[export] Instance is_byte_dec b : Decision (is_byte b).
Proof. unfold is_byte. apply _. Defined.
#[export] Instance bytes_ok_dec bs : Decision (bytes_ok bs).
Proof. unfold bytes_ok. apply _. Defined.

(** A property of the integers below a bound, by enumeration. *)
Lemma forall_below (n : Z) (P : Z -> bool) :
  forallb P (seqZ 0 n) = true -> forall v, 0 <= v < n -> P v = true.
Proof.
  intros H v Hv. rewrite forallb_forall in H. apply H.
  apply list_elem_of_In, elem_of_seqZ. lia.
Qed.

(** Concatenating disjoint bit fields is addition. *)
Lemma lor_shiftl_add x b s : 0 <= s -> 0 <= x < 2 ^ s -> Z.lor x (Z.shiftl b s) = x + b * 2 ^ s.
Proof.
  intros Hs Hx. rewrite <- Z.shiftl_mul_pow2 by done.
  assert (Z.land x (Z.shiftl b s) = 0) as Hl; [|pose proof (Z.add_lor_land x (Z.shiftl b s)); lia].
  apply Z.bits_inj'. intros i Hi. rewrite Z.land_spec, Z.bits_0, Z.shiftl_spec by done.
  destruct (decide (i < s)) as [Hlt|Hge].
  - rewrite (Z.testbit_neg_r b) by lia. apply andb_false_r.
  - assert (Z.testbit x i = false) as ->; [|done]. rewrite <- (Z.mod_small x (2 ^ s)) by done.
    apply Z.mod_pow2_bits_high. lia.
Qed.

(** ** Bits of bytes

    [byte_bits] proves equations between bytes and shifted, masked and joined bytes by
    evaluating every bit. *)

Definition u8 (x : Z) : Z := Z.land x 255.

Lemma byte_high x i : is_byte x -> 8 <= i -> Z.testbit x i = false.
Proof.
  intros Hx Hi. unfold is_byte in Hx. rewrite <- (Z.mod_small x (2 ^ 8)) by lia.
  apply Z.mod_pow2_bits_high. lia.
Qed.

Lemma u8_byte x : is_byte (u8 x).
Proof. unfold u8, is_byte. change 255 with (Z.ones 8). rewrite Z.land_ones by lia. apply Z.mod_pos_bound. lia. Qed.

Lemma bits_eq k x y :
  0 <= x < 2 ^ k -> 0 <= y < 2 ^ k -> 0 <= k -> (forall i, 0 <= i < k -> Z.testbit x i = Z.testbit y i) -> x = y.
Proof.
  intros Hx Hy Hk H. apply Z.bits_inj'. intros i Hi. destruct (Z.lt_ge_cases i k) as [?|?]; [by apply H|].
  rewrite <- (Z.mod_small x (2 ^ k)), <- (Z.mod_small y (2 ^ k)) by lia. by rewrite !Z.mod_pow2_bits_high by lia.
Qed.

Lemma u8_eq x y : is_byte y -> (forall i, 0 <= i < 8 -> Z.testbit x i = Z.testbit y i) -> u8 x = y.
Proof.
  intros Hy H. apply (bits_eq 8); [apply u8_byte|done|lia|]. intros i Hi. unfold u8. change 255 with (Z.ones 8).
  rewrite Z.land_spec, Z.ones_spec_low, andb_true_r by lia. by apply H.
Qed.

Ltac eval_bit :=
  match goal with
  | |- context [Z.testbit ?a ?e] =>
      let v := eval vm_compute in e in
      lazymatch v with Z0 => idtac | Zpos _ => idtac | Zneg _ => idtac end;
      first
        [ lazymatch v with Zneg _ => rewrite (Z.testbit_neg_r a e) by lia end
        | lazymatch a with
          | Z.lor ?x ?y => rewrite (Z.lor_spec x y e)
          | Z.land ?x ?y => rewrite (Z.land_spec x y e)
          | Z.shiftl ?x ?y => rewrite (Z.shiftl_spec x y e) by lia
          | Z.shiftr ?x ?y => rewrite (Z.shiftr_spec x y e) by lia
          end
        | lazymatch a with
          | Z0 => idtac
          | Zpos _ => idtac
          end;
          let b := eval vm_compute in (Z.testbit a e) in change (Z.testbit a e) with b
        | rewrite (byte_high a e) by (assumption || lia)
        | progress change (Z.testbit a e) with (Z.testbit a v)]
  end.

Ltac below_8 i :=
  match goal with H : 0 <= i < _ |- _ =>
    assert (i = 0 \/ i = 1 \/ i = 2 \/ i = 3 \/ i = 4 \/ i = 5 \/ i = 6 \/ i = 7) as Hi by lia;
    destruct Hi as [-> | [-> | [-> | [-> | [-> | [-> | [-> | ->]]]]]]]; try lia
  end.

Ltac byte_bits :=
  apply u8_eq; [assumption|]; let i := fresh "i" in let Hb := fresh in intros i Hb; below_8 i; clear Hb;
  repeat eval_bit; cbn [andb orb]; repeat first [rewrite andb_true_r | rewrite andb_false_r | rewrite orb_false_r]; try reflexivity.

Lemma lor_range k x y : 0 <= k -> 0 <= x < 2 ^ k -> 0 <= y < 2 ^ k -> 0 <= Z.lor x y < 2 ^ k.
Proof.
  intros Hk Hx Hy. split; [apply Z.lor_nonneg; lia|].
  assert (forall z, 0 <= z < 2 ^ k -> z = Z.land z (Z.ones k)) as Hm by (intros z Hz; by rewrite Z.land_ones, Z.mod_small).
  rewrite (Hm x Hx), (Hm y Hy), <- Z.land_lor_distr_l, Z.land_ones by done. apply Z.mod_pos_bound. lia.
Qed.

Lemma land_range k x : 0 <= k -> 0 <= Z.land x (Z.ones k) < 2 ^ k.
Proof. intros Hk. rewrite Z.land_ones by done. apply Z.mod_pos_bound. lia. Qed.

Lemma shiftr_range k n x : 0 <= k -> 0 <= n -> 0 <= x < 2 ^ (k + n) -> 0 <= Z.shiftr x n < 2 ^ k.
Proof.
  intros Hk Hn Hx. rewrite Z.shiftr_div_pow2 by done. rewrite Z.pow_add_r in Hx by done.
  split; [apply Z.div_pos; lia|apply Z.div_lt_upper_bound; lia].
Qed.

(** Membership in a list of literals. *)
Ltac in_list := apply (bool_decide_unpack _); reflexivity.
