(* ===== verification/Varint.v ===== *)
(** * Unsigned varints (src/multiformats/varint/varint.go)

    [ToUvarint], [UvarintSize], [FromUvarint], [ReadUvarint] and the
    [binary.PutUvarint] of the standard library they use, over lists of bytes;
    [None] is a panic (a write past the end of the buffer).  [uvarint] is the
    reference encoding: the encoder computes it, the decoders accept exactly it. *)

From stdpp Require Import base list numbers.
From Stdlib Require Import ZArith Lia.
From S2P Require Import Prelude.

Inductive varint_error := ErrOverflow | ErrUnderflow | ErrNotMinimal.

Definition MaxLenUvarint63 : Z := 9.
Definition MaxValueUvarint63 : Z := 2 ^ 63 - 1.

(** [bits.Len64] *)
Definition Len64 (x : Z) : Z := if x =? 0 then 0 else Z.log2 x + 1.

Definition UvarintSize (num : Z) : Z :=
  let bits := Len64 num in
  let q := Z.quot bits 7 in
  let r := Z.rem bits 7 in
  let size := q in
  if (r >? 0) || (size =? 0) then size + 1 else size.

(** [binary.PutUvarint]; a [uint64] has at most 10 groups of 7 bits. *)
Fixpoint put_loop (fuel : nat) (buf : list Z) (i : nat) (x : Z) : option (list Z * nat) :=
  match fuel with
  | O => None
  | S fuel =>
      if (length buf <=? i)%nat then None
      else if x >=? 128 then put_loop fuel (<[i := Z.lor (x mod 256) 128]> buf) (S i) (Z.shiftr x 7)
      else Some (<[i := x mod 256]> buf, S i)
  end.
Definition PutUvarint (buf : list Z) (x : Z) : option (list Z * nat) := put_loop 10 buf 0 x.

Definition ToUvarint (num : Z) : option (list Z) :=
  match PutUvarint (replicate (Z.to_nat (UvarintSize num)) 0) num with
  | Some (buf, n) => Some (take n buf)
  | None => None
  end.

(** The loop of [FromUvarint] at index [i], with the accumulator and the shift. *)
Fixpoint from_loop (buf : list Z) (i s x : Z) : result varint_error (Z * Z) :=
  match buf with
  | [] => Err ErrUnderflow
  | b :: buf =>
      if ((i =? 8) && (b >=? 128)) || (i >=? MaxLenUvarint63) then Err ErrOverflow
      else if b <? 128 then
        if (b =? 0) && (s >? 0) then Err ErrNotMinimal
        else Ok (Z.lor x (wrapu64 (Z.shiftl b s)), i + 1)
      else from_loop buf (i + 1) (s + 7) (Z.lor x (wrapu64 (Z.shiftl (Z.land b 127) s)))
  end.
Definition FromUvarint (buf : list Z) : result varint_error (Z * Z) := from_loop buf 0 0 0.

(** [ReadUvarint] on a reader that delivers [r] and then [io.EOF]; the result comes
    with the bytes left in the reader. *)
Inductive read_error := EOF | ErrUnexpectedEOF | ErrVarint (e : varint_error).

Fixpoint read_loop (r : list Z) (s x : Z) : result read_error Z * list Z :=
  match r with
  | [] => (Err (if s =? 0 then EOF else ErrUnexpectedEOF), [])
  | b :: r =>
      if ((s =? 56) && (b >=? 128)) || (s >=? 7 * MaxLenUvarint63) then (Err (ErrVarint ErrOverflow), r)
      else if b <? 128 then
        if (b =? 0) && (s >? 0) then (Err (ErrVarint ErrNotMinimal), r)
        else (Ok (Z.lor x (wrapu64 (Z.shiftl b s))), r)
      else read_loop r (s + 7) (Z.lor x (wrapu64 (Z.shiftl (Z.land b 127) s)))
  end.
Definition ReadUvarint (r : list Z) : result read_error Z * list Z := read_loop r 0 0.

(** ** The encoding *)

(** Little-endian groups of 7 bits, all but the last marked with the high bit. *)
Fixpoint groups (fuel : nat) (n : Z) : list Z :=
  match fuel with
  | O => []
  | S fuel => if n <? 128 then [n] else (n mod 128 + 128) :: groups fuel (n / 128)
  end.
Definition uvarint (n : Z) : list Z := groups 10 n.

Lemma groups_fuel f f' n : (1 <= f <= f')%nat -> 0 <= n < 128 ^ Z.of_nat f -> groups f' n = groups f n.
Proof.
  revert f' n. induction f as [|f IH]; intros f' n Hf Hn; [lia|].
  destruct f' as [|f']; [lia|]. simpl. case_bool; [done|]. f_equal.
  rewrite Nat2Z.inj_succ, Z.pow_succ_r in Hn by lia. destruct f as [|f]; [simpl in Hn; lia|].
  apply IH; [lia|]. split; [apply Z.div_pos; lia|apply Z.div_lt_upper_bound; lia].
Qed.

Lemma groups_short f n : (length (groups f n) <= f)%nat.
Proof. revert n. induction f as [|f IH]; intros n; simpl; [done|]. case_bool; simpl; [lia|]. specialize (IH (n / 128)). lia. Qed.

Lemma groups_length f n k :
  (1 <= k <= f)%nat -> 0 <= n < 128 ^ Z.of_nat k -> (k = 1%nat \/ 128 ^ (Z.of_nat k - 1) <= n) ->
  length (groups f n) = k.
Proof.
  revert n k. induction f as [|f IH]; intros n k Hk Hn Hlow; [lia|]. simpl.
  destruct k as [|k]; [lia|]. rewrite Nat2Z.inj_succ, Z.pow_succ_r in Hn by lia.
  replace (Z.of_nat (S k) - 1) with (Z.of_nat k) in Hlow by lia.
  destruct k as [|k].
  - change (Z.of_nat 0) with 0 in *. case_bool; [done|lia].
  - destruct Hlow as [|Hlow]; [done|]. rewrite Nat2Z.inj_succ, Z.pow_succ_r in Hlow, Hn by lia.
    assert (0 < 128 ^ Z.of_nat k) by (apply Z.pow_pos_nonneg; lia).
    case_bool; [lia|]. simpl. f_equal. apply IH; [lia| |].
    + rewrite Nat2Z.inj_succ, Z.pow_succ_r by lia.
      split; [apply Z.div_pos; lia|apply Z.div_lt_upper_bound; lia].
    + destruct k as [|k]; [by left|right]. replace (Z.of_nat (S (S k)) - 1) with (Z.of_nat (S k)) by lia.
      apply Z.div_le_lower_bound; lia.
Qed.

Lemma pow_128 k : 0 <= k -> 128 ^ k = 2 ^ (7 * k).
Proof. intros Hk. by rewrite Z.pow_mul_r by lia. Qed.

Lemma UvarintSize_length n : uint64 n -> Z.of_nat (length (uvarint n)) = UvarintSize n.
Proof.
  intros Hn. unfold uint64 in Hn. unfold UvarintSize, Len64. destruct (n =? 0) eqn:Hz; bool_props.
  { by subst. }
  assert (0 <= Z.log2 n <= 63) as Hlog.
  { split; [apply Z.log2_nonneg|]. assert (Z.log2 n < 64); [|lia]. apply Z.log2_lt_pow2; lia. }
  set (b := Z.log2 n) in *. rewrite Z.quot_div_nonneg, Z.rem_mod_nonneg by lia.
  set (k := if ((b + 1) mod 7 >? 0) || ((b + 1) / 7 =? 0) then (b + 1) / 7 + 1 else (b + 1) / 7).
  assert (7 * (k - 1) < b + 1 <= 7 * k /\ 1 <= k <= 10) as [Hk Hk'].
  { pose proof (Z.div_mod (b + 1) 7). pose proof (Z.mod_pos_bound (b + 1) 7).
    unfold k. destruct ((b + 1) mod 7 >? 0) eqn:E1, ((b + 1) / 7 =? 0) eqn:E2; simpl; bool_props; lia. }
  unfold uvarint. rewrite (groups_length 10 n (Z.to_nat k)); [lia|lia| |].
  - rewrite Z2Nat.id, pow_128 by lia. split; [lia|].
    apply Z.lt_le_trans with (2 ^ Z.succ b); [apply Z.log2_spec; lia|apply Z.pow_le_mono_r; lia].
  - right. rewrite Z2Nat.id, pow_128 by lia.
    apply Z.le_trans with (2 ^ b); [apply Z.pow_le_mono_r; lia|apply Z.log2_spec; lia].
Qed.

Lemma mark_more x : 0 <= x -> Z.lor (x mod 256) 128 = x mod 128 + 128.
Proof.
  intros Hx. assert (Z.lor (x mod 256) 128 = (x mod 256) mod 128 + 128) as ->.
  { apply Z.eqb_eq. apply (forall_below 256 (fun v => Z.lor v 128 =? v mod 128 + 128)); [by vm_compute|].
    apply Z.mod_pos_bound. lia. }
  rewrite Z.mod_mod_divide; [done|by exists 2].
Qed.

Lemma put_loop_spec f pre suf n :
  (1 <= f)%nat -> 0 <= n < 128 ^ Z.of_nat f -> (length (groups f n) <= length suf)%nat ->
  put_loop f (pre ++ suf) (length pre) n =
    Some (pre ++ groups f n ++ drop (length (groups f n)) suf, (length pre + length (groups f n))%nat).
Proof.
  revert pre suf n. induction f as [|f IH]; intros pre suf n Hf Hn Hlen; [lia|].
  simpl in Hlen |- *. rewrite Nat2Z.inj_succ, Z.pow_succ_r in Hn by lia.
  destruct suf as [|b suf]; [destruct (n <? 128); simpl in Hlen; lia|].
  rewrite length_app. simpl length. destruct (length pre + S (length suf) <=? length pre)%nat eqn:E.
  { apply Nat.leb_le in E. lia. }
  rewrite Z.geb_leb. destruct (n <? 128) eqn:Hlt; bool_props.
  - replace (128 <=? n) with false by (symmetry; apply Z.leb_gt; lia).
    rewrite Z.mod_small by lia. rewrite insert_app_r_alt, Nat.sub_diag by lia. simpl. by rewrite Nat.add_1_r.
  - replace (128 <=? n) with true by (symmetry; apply Z.leb_le; lia).
    rewrite insert_app_r_alt, Nat.sub_diag by lia. simpl. rewrite mark_more by lia.
    rewrite Z.shiftr_div_pow2 by lia. change (2 ^ 7) with 128.
    specialize (IH (pre ++ [n mod 128 + 128]) suf (n / 128)). rewrite length_app in IH. simpl in IH, Hlen.
    rewrite Nat.add_1_r, <- !app_assoc in IH. simpl in IH. rewrite IH; [| |split|lia].
    + do 2 f_equal. lia.
    + destruct f; [simpl in Hn; lia|lia].
    + apply Z.div_pos; lia.
    + apply Z.div_lt_upper_bound; lia.
Qed.

Lemma ToUvarint_spec n : uint64 n -> ToUvarint n = Some (uvarint n).
Proof.
  intros Hn. unfold ToUvarint, PutUvarint. pose proof (UvarintSize_length n Hn) as Hl.
  rewrite <- Hl, Nat2Z.id. set (buf := replicate _ _).
  change (put_loop 10 buf 0 n) with (put_loop 10 ([] ++ buf) (length (A:=Z) []) n).
  rewrite put_loop_spec; [|lia|unfold uint64 in Hn; lia|unfold buf; by rewrite length_replicate].
  simpl app. rewrite Nat.add_0_l. by rewrite take_app_length.
Qed.

Lemma groups_bytes f n : 0 <= n -> bytes_ok (groups f n).
Proof.
  revert n. induction f as [|f IH]; intros n Hn; simpl; [constructor|].
  case_bool; [repeat constructor; unfold is_byte; lia|]. constructor; [|apply IH, Z.div_pos; lia].
  unfold is_byte. pose proof (Z.mod_pos_bound n 128). lia.
Qed.

(** ** The decoder *)

Lemma land_127 b : is_byte b -> 128 <= b -> Z.land b 127 = b - 128.
Proof.
  intros Hb Hge. change 127 with (Z.ones 7). rewrite Z.land_ones by lia. unfold is_byte in Hb.
  symmetry. apply (Z.mod_unique_pos b (2 ^ 7) 1); lia.
Qed.

(** One group of the accumulator. *)
Lemma accumulate i x g :
  0 <= i <= 8 -> 0 <= x < 2 ^ (7 * i) -> 0 <= g < 128 ->
  Z.lor x (wrapu64 (Z.shiftl g (7 * i))) = x + g * 2 ^ (7 * i) /\ 0 <= x + g * 2 ^ (7 * i) < 2 ^ (7 * (i + 1)).
Proof.
  intros Hi Hx Hg. assert (0 < 2 ^ (7 * i)) by (apply Z.pow_pos_nonneg; lia).
  assert (2 ^ (7 * (i + 1)) = 128 * 2 ^ (7 * i)) as E.
  { rewrite Z.mul_add_distr_l, Z.pow_add_r by lia. lia. }
  assert (2 ^ (7 * (i + 1)) <= 2 ^ 63) by (apply Z.pow_le_mono_r; lia).
  rewrite wrapu64_id, lor_shiftl_add by (done || (rewrite ?Z.shiftl_mul_pow2 by lia; unfold uint64; nia) || lia).
  nia.
Qed.

Ltac decoder := unfold MaxLenUvarint63 in *; rewrite ?Z.geb_leb, ?Z.gtb_ltb.

Lemma from_loop_groups f i n x rest :
  (f = Z.to_nat (9 - i)) -> 0 <= i <= 8 -> 0 <= n < 128 ^ Z.of_nat f -> i = 0 \/ 0 < n -> 0 <= x < 2 ^ (7 * i) ->
  from_loop (groups f n ++ rest) i (7 * i) x =
    Ok (x + n * 2 ^ (7 * i), i + Z.of_nat (length (groups f n))).
Proof.
  revert i n x. induction f as [|f IH]; intros i n x Hf Hi Hn Hpos Hx; [lia|].
  rewrite Nat2Z.inj_succ, Z.pow_succ_r in Hn by lia. simpl. destruct (n <? 128) eqn:Hlt; bool_props.
  - simpl. decoder. replace (128 <=? n) with false by (symmetry; apply Z.leb_gt; lia).
    replace (9 <=? i) with false by (symmetry; apply Z.leb_gt; lia). rewrite andb_false_r. simpl.
    replace (n <? 128) with true by (symmetry; apply Z.ltb_lt; lia).
    assert ((n =? 0) && (0 <? 7 * i) = false) as ->.
    { destruct Hpos as [->|?]; [by rewrite andb_false_r|]. replace (n =? 0) with false; [done|]. symmetry. apply Z.eqb_neq. lia. }
    destruct (accumulate i x n Hi Hx) as [-> _]; [lia|done].
  - simpl. decoder. destruct (decide (i = 8)) as [->|Hne].
    { assert (f = 0%nat) as -> by lia. simpl in Hn. lia. }
    replace (i =? 8) with false by (symmetry; apply Z.eqb_neq; lia). simpl.
    replace (9 <=? i) with false by (symmetry; apply Z.leb_gt; lia).
    pose proof (Z.mod_pos_bound n 128). pose proof (Z.div_mod n 128).
    replace (n mod 128 + 128 <? 128) with false by (symmetry; apply Z.ltb_ge; lia).
    rewrite land_127 by (unfold is_byte; lia). replace (n mod 128 + 128 - 128) with (n mod 128) by lia.
    destruct (accumulate i x (n mod 128) Hi Hx) as [-> Hx']; [lia|].
    replace (7 * i + 7) with (7 * (i + 1)) by lia.
    rewrite IH; [|lia|lia| |right; apply Z.div_str_pos; lia|done].
    + f_equal. f_equal; [|lia]. rewrite Z.mul_add_distr_l, Z.pow_add_r by lia. nia.
    + split; [apply Z.div_pos; lia|apply Z.div_lt_upper_bound; lia].
Qed.

Lemma from_loop_sound buf i x v k :
  bytes_ok buf -> 0 <= i -> 0 <= x < 2 ^ (7 * i) -> from_loop buf i (7 * i) x = Ok (v, k) ->
  exists n rest, 0 <= n < 2 ^ (63 - 7 * i) /\ (i = 0 \/ 0 < n) /\ i <= 8 /\
    buf = groups (Z.to_nat (9 - i)) n ++ rest /\ v = x + n * 2 ^ (7 * i) /\ k = i + Z.of_nat (length buf - length rest).
Proof.
  revert i x. induction buf as [|b buf IH]; intros i x Hb Hi Hx; [done|].
  apply Forall_cons_1 in Hb as [Hb Hbs]. unfold is_byte in Hb. simpl. decoder.
  destruct ((i =? 8) && (128 <=? b) || (9 <=? i)) eqn:Hov; [done|].
  apply orb_false_elim in Hov as [Hov H9]. bool_props. destruct (b <? 128) eqn:Hlt; bool_props.
  - destruct ((b =? 0) && (0 <? 7 * i)) eqn:Hmin; [done|]. destruct (accumulate i x b) as [-> _]; [lia..|].
    intros [= <- <-]. exists b, buf. split_and!; [lia| | |lia| |done|lia].
    + apply Z.lt_le_trans with (2 ^ 7); [lia|]. apply Z.pow_le_mono_r; lia.
    + apply andb_false_iff in Hmin. destruct Hmin; bool_props; lia.
    + destruct (Z.to_nat (9 - i)) eqn:E; [lia|]. simpl.
      by replace (b <? 128) with true by (symmetry; apply Z.ltb_lt; lia).
  - assert (i <= 7) as Hi7.
    { apply andb_false_iff in Hov. destruct Hov; bool_props; lia. }
    rewrite land_127 by (unfold is_byte; lia). destruct (accumulate i x (b - 128)) as [-> Hx']; [lia..|].
    replace (7 * i + 7) with (7 * (i + 1)) by lia. intros Heq.
    destruct (IH (i + 1) _ Hbs ltac:(lia) Hx' Heq) as (n & rest & Hn & Hpos & _ & -> & -> & ->).
    assert (2 ^ (63 - 7 * i) = 128 * 2 ^ (63 - 7 * (i + 1))) as E.
    { replace (63 - 7 * i) with (7 + (63 - 7 * (i + 1))) by lia. rewrite Z.pow_add_r by lia. lia. }
    exists (b - 128 + 128 * n), rest. split_and!; [lia|lia|right; lia|lia| | |].
    + destruct (Z.to_nat (9 - i)) as [|f] eqn:Ef; [lia|]. replace (Z.to_nat (9 - (i + 1))) with f by lia. simpl.
      replace (b - 128 + 128 * n <? 128) with false by (symmetry; apply Z.ltb_ge; lia).
      rewrite (Z.mul_comm 128 n), Z.div_add, Z.div_small, Z.add_0_l, Z.mod_add, Z.mod_small by lia.
      simpl. f_equal. lia.
    + rewrite Z.mul_add_distr_l, Z.pow_add_r by lia. nia.
    + simpl. rewrite !length_app. lia.
Qed.

(** ** Correctness *)

Lemma uvarint_63 n : 0 <= n < 2 ^ 63 -> uvarint n = groups 9 n.
Proof. intros Hn. apply (groups_fuel 9 10); [lia|]. rewrite pow_128 by lia. apply Hn. Qed.

Lemma FromUvarint_uvarint n rest :
  0 <= n < 2 ^ 63 -> FromUvarint (uvarint n ++ rest) = Ok (n, UvarintSize n).
Proof.
  intros Hn. rewrite <- UvarintSize_length by (unfold uint64; lia). rewrite uvarint_63 by done.
  unfold FromUvarint. change (from_loop (groups 9 n ++ rest) 0 0 0) with (from_loop (groups 9 n ++ rest) 0 (7 * 0) 0).
  rewrite (from_loop_groups 9 0 n 0 rest); [|done|lia| |by left|by simpl].
  - do 2 f_equal. simpl (2 ^ (7 * 0)). lia.
  - rewrite pow_128 by lia. apply Hn.
Qed.

(** [ToUvarint] never writes past its buffer and produces, for every
    [uint64], the varint encoding, of the length [UvarintSize] announces; below
    [2^63] [FromUvarint] reads the number back from the front of any buffer that
    starts with it, and reports that length. *)
Theorem varint_roundtrip n rest :
  uint64 n ->
  exists bs, ToUvarint n = Some bs /\ bytes_ok bs /\ Z.of_nat (length bs) = UvarintSize n /\
    (n <= MaxValueUvarint63 -> FromUvarint (bs ++ rest) = Ok (n, UvarintSize n)).
Proof.
  intros Hn. exists (uvarint n). split_and!.
  - by apply ToUvarint_spec.
  - apply groups_bytes. unfold uint64 in Hn. lia.
  - by apply UvarintSize_length.
  - intros Hle. apply FromUvarint_uvarint. unfold uint64, MaxValueUvarint63 in *. lia.
Qed.

Lemma varint_roundtrip_witness :
  exists bs, ToUvarint 300 = Some bs /\ FromUvarint (bs ++ [7]) = Ok (300, 2).
Proof.
  destruct (varint_roundtrip 300 [7]) as (bs & H1 & _ & _ & H2); [unfold uint64; lia|].
  exists bs. split; [exact H1|]. apply H2. unfold MaxValueUvarint63. lia.
Defined.

(** The decoder is strict: when [FromUvarint] accepts a buffer, the bytes it
    consumed are exactly the encoding [ToUvarint] produces for the number it
    returns.  No number has two accepted encodings. *)
Theorem FromUvarint_canonical buf n k :
  bytes_ok buf -> FromUvarint buf = Ok (n, k) ->
  0 <= n <= MaxValueUvarint63 /\ 1 <= k <= MaxLenUvarint63 /\ ToUvarint n = Some (take (Z.to_nat k) buf).
Proof.
  intros Hb Heq. apply (from_loop_sound buf 0 0) in Heq as (m & rest & Hm & _ & _ & Hbuf & Hv & Hk); [|done|lia|by simpl].
  simpl in Hv, Hm. assert (n = m) as -> by lia. change (Z.to_nat (9 - 0)) with 9%nat in Hbuf.
  rewrite <- uvarint_63 in Hbuf by lia. subst buf. rewrite length_app, Nat.add_sub in Hk.
  assert (1 <= k <= 9) as Hk9.
  { rewrite Hk, uvarint_63 by lia. clear. simpl. repeat case_bool; simpl; lia. }
  split; [unfold MaxValueUvarint63; lia|]. split; [done|]. rewrite ToUvarint_spec by (unfold uint64; lia).
  by rewrite Hk, Z.add_0_l, Nat2Z.id, take_app_length.
Qed.

Lemma FromUvarint_canonical_witness : ToUvarint 300 = Some (take 2 [172; 2; 7]).
Proof.
  destruct (FromUvarint_canonical [172; 2; 7] 300 2) as (_ & _ & H); [|reflexivity|exact H].
  apply (bool_decide_unpack _). vm_compute. exact I.
Defined.

(** What the reader's outcome is in terms of the slice decoder's. *)
Definition as_read (r : list Z) (o : result varint_error (Z * Z)) : result read_error Z :=
  match o with
  | Ok (v, _) => Ok v
  | Err ErrUnderflow => Err (match r with [] => EOF | _ => ErrUnexpectedEOF end)
  | Err e => Err (ErrVarint e)
  end.

Lemma read_loop_from r i x :
  0 <= i -> (read_loop r (7 * i) x).1 =
    match from_loop r i (7 * i) x with
    | Ok (v, _) => Ok v
    | Err ErrUnderflow => Err (if (i =? 0) && (length r =? 0)%nat then EOF else ErrUnexpectedEOF)
    | Err e => Err (ErrVarint e)
    end.
Proof.
  revert i x. induction r as [|b r IH]; intros i x Hi; simpl.
  - rewrite andb_true_r. replace (7 * i =? 0) with (i =? 0) by lia. done.
  - unfold MaxLenUvarint63. replace (7 * i =? 56) with (i =? 8) by lia.
    replace (7 * i >=? 7 * 9) with (i >=? 9) by lia. rewrite andb_false_r.
    repeat case_bool; try done.
    replace (7 * i + 7) with (7 * (i + 1)) by lia. rewrite IH by lia.
    destruct (from_loop r (i + 1) _ _) as [[? ?]|[]]; try done.
    by replace (i + 1 =? 0) with false by lia.
Qed.

Lemma from_loop_progress r i s x v k : from_loop r i s x = Ok (v, k) -> i < k.
Proof.
  revert i s x. induction r as [|b r IH]; intros i s x; simpl; [done|].
  repeat case_bool; try done; [intros [= <- <-]; lia..|]. intros Heq%IH. lia.
Qed.

Lemma read_loop_rest r i x v k :
  0 <= i -> from_loop r i (7 * i) x = Ok (v, k) -> (read_loop r (7 * i) x).2 = drop (Z.to_nat (k - i)) r.
Proof.
  revert i x. induction r as [|b r IH]; intros i x Hi; simpl; [done|].
  unfold MaxLenUvarint63. replace (7 * i =? 56) with (i =? 8) by lia.
  replace (7 * i >=? 7 * 9) with (i >=? 9) by lia.
  repeat case_bool; try done.
  { intros [= <- <-]. by replace (Z.to_nat (i + 1 - i)) with 1%nat by lia. }
  replace (7 * i + 7) with (7 * (i + 1)) by lia. intros Heq. pose proof (from_loop_progress _ _ _ _ _ _ Heq).
  assert (0 <= i + 1) as Hi1 by lia. rewrite (IH (i + 1) _ Hi1 Heq).
  by replace (Z.to_nat (k - i)) with (S (Z.to_nat (k - (i + 1)))) by lia.
Qed.

Lemma ReadUvarint_ok r v k : FromUvarint r = Ok (v, k) -> ReadUvarint r = (Ok v, drop (Z.to_nat k) r).
Proof.
  intros E. pose proof (read_loop_from r 0 0 ltac:(lia)) as H1. pose proof (read_loop_rest r 0 0 v k ltac:(lia) E) as H2.
  change (7 * 0) with 0 in *. unfold FromUvarint in E. rewrite E in H1. rewrite Z.sub_0_r in H2.
  unfold ReadUvarint. destruct (read_loop r 0 0). simpl in *. by subst.
Qed.

Lemma ReadUvarint_app n rest : 0 <= n < 2 ^ 63 -> ReadUvarint (uvarint n ++ rest) = (Ok n, rest).
Proof.
  intros Hn. rewrite (ReadUvarint_ok _ _ _ (FromUvarint_uvarint n rest Hn)).
  rewrite <- UvarintSize_length by (unfold uint64; lia). by rewrite Nat2Z.id, drop_app_length.
Qed.

Lemma FromUvarint_inv r v k :
  bytes_ok r -> FromUvarint r = Ok (v, k) ->
  0 <= v < 2 ^ 63 /\ exists rest, r = uvarint v ++ rest /\ k = Z.of_nat (length (uvarint v)).
Proof.
  intros Hb E. apply (from_loop_sound r 0 0) in E as (k' & rest & Hk & _ & _ & Hbuf & Hv & Hc); [|done|lia|by simpl].
  simpl in Hk, Hv. assert (v = k') as -> by lia. change (Z.to_nat (9 - 0)) with 9%nat in Hbuf.
  rewrite <- uvarint_63 in Hbuf by lia. split; [lia|]. exists rest. split; [done|]. subst r. rewrite length_app in Hc. lia.
Qed.

Lemma ReadUvarint_inv r v rest :
  bytes_ok r -> ReadUvarint r = (Ok v, rest) -> 0 <= v < 2 ^ 63 /\ r = uvarint v ++ rest.
Proof.
  intros Hb E. pose proof (read_loop_from r 0 0 ltac:(lia)) as H1. change (7 * 0) with 0 in H1.
  unfold ReadUvarint in E. rewrite E in H1. simpl in H1. destruct (FromUvarint r) as [[v' k]|e] eqn:Ef.
  - pose proof (ReadUvarint_ok _ _ _ Ef) as Ho. unfold ReadUvarint in Ho. rewrite E in Ho. injection Ho as <- ->.
    destruct (FromUvarint_inv _ _ _ Hb Ef) as (Hv & rest' & -> & ->). split; [done|]. by rewrite Nat2Z.id, drop_app_length.
  - unfold FromUvarint in Ef. rewrite Ef in H1. by destruct e.
Qed.

(** [ReadUvarint] reads from a stream exactly what [FromUvarint] decodes from
    the slice of its bytes: the same number or the same error, with the end of the
    stream reported as [io.EOF] before the first byte and as
    [io.ErrUnexpectedEOF] after it, and on success it consumes just the
    encoding. *)
Theorem ReadUvarint_equiv r :
  (ReadUvarint r).1 = as_read r (FromUvarint r) /\
  (forall v k, FromUvarint r = Ok (v, k) -> (ReadUvarint r).2 = drop (Z.to_nat k) r).
Proof.
  split.
  - unfold ReadUvarint, FromUvarint. etransitivity; [by apply (read_loop_from r 0 0)|]. change (7 * 0) with 0.
    destruct (from_loop r 0 0 0) as [[? ?]|[]]; try done. by destruct r.
  - intros v k Heq. pose proof (read_loop_rest r 0 0 v k ltac:(lia) Heq) as H. by rewrite Z.sub_0_r in H.
Qed.
