(* ===== verification/GoText.v ===== *)
(** * Text: the parts of Go's [strings], [strconv], [net] and [net/netip] the
    multiaddr code uses

    A Go string is a list of bytes.  Decimal and hexadecimal numbers, the textual
    forms of IPv4 and IPv6 addresses and their parsers, with the theorem that
    every address is read back from its text. *)

From stdpp Require Import base list numbers strings.
From Stdlib Require Import ZArith Lia Ascii.
From S2P Require Import Prelude.

(** The bytes of a literal. *)
Fixpoint str (s : string) : list Z :=
  match s with
  | EmptyString => []
  | String.String c s => Z.of_nat (nat_of_ascii c) :: str s
  end.

Definition slash : Z := 47.
Definition colon : Z := 58.
Definition dot : Z := 46.
Definition percent : Z := 37.

(** ** [strings.Split], [strings.Join] and [strings.TrimRight] for one byte *)

Fixpoint Split (sep : Z) (s : list Z) : list (list Z) :=
  match s with
  | [] => [[]]
  | c :: s =>
      if c =? sep then [] :: Split sep s
      else match Split sep s with
           | w :: ws => (c :: w) :: ws
           | [] => [[c]]
           end
  end.

Fixpoint Join (ws : list (list Z)) (sep : list Z) : list Z :=
  match ws with
  | [] => []
  | [w] => w
  | w :: ws => w ++ sep ++ Join ws sep
  end.

Fixpoint drop_while (c : Z) (s : list Z) : list Z :=
  match s with
  | b :: s' => if b =? c then drop_while c s' else s
  | [] => []
  end.
Definition TrimRight (s : list Z) (c : Z) : list Z := rev (drop_while c (rev s)).

Lemma Split_nonempty sep s : Split sep s <> [].
Proof. destruct s as [|c s]; [done|]. simpl. case_bool; [done|]. by destruct (Split sep s). Qed.

Lemma Split_word sep w : sep ∉ w -> Split sep w = [w].
Proof.
  induction w as [|c w IH]; intros Hw; [done|]. apply not_elem_of_cons in Hw as [Hc Hw]. simpl.
  replace (c =? sep) with false by (symmetry; apply Z.eqb_neq; congruence). by rewrite IH.
Qed.

Lemma Split_sep sep w t : sep ∉ w -> Split sep (w ++ sep :: t) = w :: Split sep t.
Proof.
  induction w as [|c w IH]; intros Hw; [simpl; by rewrite Z.eqb_refl|]. apply not_elem_of_cons in Hw as [Hc Hw]. simpl.
  replace (c =? sep) with false by (symmetry; apply Z.eqb_neq; congruence). by rewrite IH.
Qed.

Lemma Split_bytes sep s : bytes_ok s -> Forall bytes_ok (Split sep s).
Proof.
  induction 1 as [|c s Hc _ IH]; simpl; [repeat constructor|]. case_bool; [by constructor; [constructor|]|].
  destruct (Split sep s) as [|w ws]; [by apply Forall_singleton, Forall_singleton|].
  apply Forall_cons_1 in IH as [Hw Hws]. apply Forall_cons_2; [by apply Forall_cons_2|done].
Qed.

Lemma TrimRight_pads s c n : last s <> Some c -> TrimRight (s ++ replicate n c) c = s.
Proof.
  intros Hl. unfold TrimRight. rewrite rev_app_distr. assert (rev (replicate n c) = replicate n c) as ->.
  { induction n as [|n IH]; [done|]. simpl. rewrite IH. by rewrite <- replicate_cons_app. }
  assert (drop_while c (replicate n c ++ rev s) = drop_while c (rev s)) as ->.
  { induction n as [|n IH]; [done|]. simpl. by rewrite Z.eqb_refl. }
  destruct s as [|b s _] using rev_ind; [done|]. rewrite last_snoc in Hl.
  rewrite rev_app_distr. simpl. replace (b =? c) with false by (symmetry; apply Z.eqb_neq; congruence).
  simpl. by rewrite rev_involutive.
Qed.

Lemma TrimRight_id s c : last s <> Some c -> TrimRight s c = s.
Proof. intros Hl. rewrite <- (TrimRight_pads s c 0) at 2 by done. simpl. by rewrite app_nil_r. Qed.

(** ** Decimal numbers *)

Definition is_digit (c : Z) : bool := (48 <=? c) && (c <=? 57).

(** [strconv.ParseUint(s, 10, bitSize)]; which of its errors is not kept. *)
Fixpoint parse_digits (maxVal n : Z) (s : list Z) : option Z :=
  match s with
  | [] => Some n
  | c :: s =>
      if is_digit c then
        let n1 := n * 10 + (c - 48) in
        if n1 >? maxVal then None else parse_digits maxVal n1 s
      else None
  end.
Definition ParseUint (s : list Z) (bitSize : Z) : option Z :=
  match s with [] => None | _ => parse_digits (2 ^ bitSize - 1) 0 s end.

(** [strconv.FormatUint(n, 10)]: a [uint64] has at most 20 digits. *)
Fixpoint format_digits (fuel : nat) (n : Z) : list Z :=
  match fuel with
  | O => []
  | S fuel => if n <? 10 then [n + 48] else format_digits fuel (n / 10) ++ [n mod 10 + 48]
  end.
Definition FormatUint (n : Z) : list Z := format_digits 20 n.

Lemma parse_digits_app m n s t :
  parse_digits m n (s ++ t) = match parse_digits m n s with Some n' => parse_digits m n' t | None => None end.
Proof.
  revert n. induction s as [|c s IH]; intros n; [done|]. simpl. destruct (is_digit c); [|done].
  case_bool; [done|apply IH].
Qed.

Lemma parse_digits_range m n s v : 0 <= n <= m -> parse_digits m n s = Some v -> 0 <= v <= m.
Proof.
  revert n. induction s as [|c s IH]; intros n Hn; simpl; [by intros [= <-]|]. destruct (is_digit c) eqn:Ed; [|done].
  case_bool; [done|]. apply IH. unfold is_digit in Ed. bool_props. lia.
Qed.

Lemma ParseUint_range s bits v : 0 <= bits -> ParseUint s bits = Some v -> 0 <= v < 2 ^ bits.
Proof.
  intros Hb. unfold ParseUint. destruct s as [|c s]; [done|]. intros E. apply parse_digits_range in E; [lia|].
  pose proof (Z.pow_pos_nonneg 2 bits). lia.
Qed.

Lemma is_digit_spec d : 0 <= d < 10 -> is_digit (d + 48) = true.
Proof. intros Hd. unfold is_digit. apply andb_true_intro. split; apply Z.leb_le; lia. Qed.

Lemma format_digits_ok fuel n :
  0 <= n < 10 ^ Z.of_nat fuel ->
  Forall (fun c => is_digit c = true) (format_digits fuel n) /\
  (forall m, n <= m -> parse_digits m 0 (format_digits fuel n) = Some n) /\
  (fuel <> O -> format_digits fuel n <> []).
Proof.
  revert n. induction fuel as [|fuel IH]; intros n Hn.
  { simpl in *. split_and!; [constructor| |done]. intros m _. f_equal. lia. }
  rewrite Nat2Z.inj_succ, Z.pow_succ_r in Hn by lia. simpl. case_bool.
  - split_and!; [repeat constructor; apply is_digit_spec; lia| |done]. intros m Hm. simpl.
    rewrite is_digit_spec by lia. replace (n + 48 - 48) with n by lia. case_bool; [lia|done].
  - pose proof (Z.mod_pos_bound n 10). pose proof (Z.div_mod n 10).
    destruct (IH (n / 10)) as (H1 & H2 & _).
    { split; [apply Z.div_pos; lia|apply Z.div_lt_upper_bound; lia]. }
    split_and!.
    + apply Forall_app_2; [done|]. repeat constructor. apply is_digit_spec. lia.
    + intros m Hm. rewrite parse_digits_app, H2 by lia. simpl. rewrite is_digit_spec by lia.
      replace (n mod 10 + 48 - 48) with (n mod 10) by lia. replace (n / 10 * 10 + n mod 10) with n by lia.
      case_bool; [lia|done].
    + intros _ E. by apply app_nil in E as [_ ?].
Qed.

Lemma FormatUint_digits n : uint64 n -> Forall (fun c => is_digit c = true) (FormatUint n).
Proof. intros Hn. apply format_digits_ok. unfold uint64 in Hn. lia. Qed.

Lemma FormatUint_nonempty n : uint64 n -> FormatUint n <> [].
Proof. intros Hn. apply format_digits_ok; [unfold uint64 in Hn; lia|done]. Qed.

Lemma ParseUint_FormatUint n bits :
  0 <= n < 2 ^ bits -> 0 <= bits <= 64 -> ParseUint (FormatUint n) bits = Some n.
Proof.
  intros Hn Hb. assert (uint64 n) as Hu.
  { unfold uint64. split; [lia|]. apply Z.lt_le_trans with (2 ^ bits); [lia|]. apply Z.pow_le_mono_r; lia. }
  pose proof (FormatUint_nonempty n Hu) as Hne. unfold ParseUint. destruct (FormatUint n) as [|c s] eqn:E; [done|].
  rewrite <- E. apply format_digits_ok; [unfold uint64 in Hu; lia|lia].
Qed.

(** ** [net.IP] *)

Definition v4InV6Prefix : list Z := [0; 0; 0; 0; 0; 0; 0; 0; 0; 0; 255; 255].

Definition To4 (ip : list Z) : option (list Z) :=
  if (length ip =? 4)%nat then Some ip
  else if (length ip =? 16)%nat && bool_decide (take 12 ip = v4InV6Prefix) then Some (drop 12 ip)
  else None.
Definition To16 (ip : list Z) : option (list Z) :=
  if (length ip =? 4)%nat then Some (v4InV6Prefix ++ ip)
  else if (length ip =? 16)%nat then Some ip
  else None.

(** *** Dotted quads *)

(** [netip.parseIPv4Fields]: [fields] are the complete octets, [val] and [digLen] the
    current one, [ok] that a dot may come next (not first, not after a dot). *)
Fixpoint v4_loop (s fields : list Z) (val digLen : Z) (ok : bool) : option (list Z) :=
  match s with
  | [] => if (length fields <? 3)%nat then None else Some (fields ++ [val])
  | c :: s =>
      if is_digit c then
        if (digLen =? 1) && (val =? 0) then None
        else
          let val := val * 10 + (c - 48) in
          if val >? 255 then None else v4_loop s fields val (digLen + 1) true
      else if c =? dot then
        if negb ok || (length s =? 0)%nat then None
        else if (length fields =? 3)%nat then None
        else v4_loop s (fields ++ [val]) 0 0 false
      else None
  end.
Definition parseIPv4 (s : list Z) : option (list Z) := v4_loop s [] 0 0 false.

Definition format_v4 (ip : list Z) : list Z := Join (map FormatUint ip) [dot].

(** *** IPv6 *)

Definition hex_value (c : Z) : option Z :=
  if (48 <=? c) && (c <=? 57) then Some (c - 48)
  else if (97 <=? c) && (c <=? 102) then Some (c - 97 + 10)
  else if (65 <=? c) && (c <=? 70) then Some (c - 65 + 10)
  else None.

(** The digits of one group: the value, the number of digits and the rest. *)
Fixpoint read_hex (s : list Z) (off acc : Z) : option (Z * Z * list Z) :=
  match s with
  | [] => Some (acc, off, [])
  | c :: s' =>
      match hex_value c with
      | None => Some (acc, off, s)
      | Some d =>
          let acc := Z.shiftl acc 4 + d in
          if off >? 3 then None
          else if acc >? 65535 then None
          else read_hex s' (off + 1) acc
      end
  end.

(** The loop of [netip.parseIPv6]: [ip] are the bytes so far, [ell] where the
    ellipsis was; the result are the bytes, the ellipsis and the text left. *)
Fixpoint v6_loop (fuel : nat) (s ip : list Z) (ell : option nat) : option (list Z * option nat * list Z) :=
  match fuel with
  | O => Some (ip, ell, s)
  | S fuel =>
      match read_hex s 0 0 with
      | None => None
      | Some (acc, off, rest) =>
          if off =? 0 then None
          else match rest with
          | c :: rest' =>
              if c =? dot then
                match ell with
                | None => if (length ip =? 12)%nat then
                            match parseIPv4 s with Some v4 => Some (ip ++ v4, ell, []) | None => None end
                          else None
                | Some _ => if (16 <? length ip + 4)%nat then None
                            else match parseIPv4 s with Some v4 => Some (ip ++ v4, ell, []) | None => None end
                end
              else
                let ip := ip ++ [Z.shiftr acc 8; Z.land acc 255] in
                if negb (c =? colon) then None
                else match rest' with
                | [] => None
                | c' :: rest'' =>
                    if c' =? colon then
                      match ell with
                      | Some _ => None
                      | None =>
                          match rest'' with
                          | [] => Some (ip, Some (length ip), [])
                          | _ => v6_loop fuel rest'' ip (Some (length ip))
                          end
                      end
                    else v6_loop fuel rest' ip ell
                end
          | [] => Some (ip ++ [Z.shiftr acc 8; Z.land acc 255], ell, [])
          end
      end
  end.

(** [netip.parseIPv6] of a text without a zone. *)
Definition v6_finish (x : list Z * option nat * list Z) : option (list Z) :=
  match x with
  | (ip, ell, s) =>
      if negb (length s =? 0)%nat then None
      else if (length ip <? 16)%nat then
        match ell with
        | None => None
        | Some e => Some (take e ip ++ replicate (16 - length ip) 0 ++ drop e ip)
        end
      else match ell with Some _ => None | None => Some ip end
  end.

Definition parseIPv6 (s : list Z) : option (list Z) :=
  match s with
  | c :: c' :: s' =>
      if (c =? colon) && (c' =? colon) then
        match s' with
        | [] => Some (replicate 16 0)
        | _ => match v6_loop 8 s' [] (Some O) with Some x => v6_finish x | None => None end
        end
      else match v6_loop 8 s [] None with Some x => v6_finish x | None => None end
  | _ => match v6_loop 8 s [] None with Some x => v6_finish x | None => None end
  end.

(** [net.ParseIP]: the 16-byte form; a zone makes it fail. *)
Fixpoint family_char (s : list Z) : option Z :=
  match s with
  | [] => None
  | c :: s => if (c =? dot) || (c =? colon) || (c =? percent) then Some c else family_char s
  end.

Definition ParseIP (s : list Z) : option (list Z) :=
  match family_char s with
  | Some c =>
      if c =? dot then match parseIPv4 s with Some ip => To16 ip | None => None end
      else if c =? colon then if bool_decide (percent ∈ s) then None else parseIPv6 s
      else None
  | None => None
  end.

Definition hex_digit (d : Z) : Z := if d <? 10 then d + 48 else d - 10 + 97.

(** [netip.appendHex] *)
Definition appendHex (x : Z) : list Z :=
  (if x >=? 4096 then [hex_digit (Z.shiftr x 12)] else []) ++
  (if x >=? 256 then [hex_digit (Z.land (Z.shiftr x 8) 15)] else []) ++
  (if x >=? 16 then [hex_digit (Z.land (Z.shiftr x 4) 15)] else []) ++
  [hex_digit (Z.land x 15)].

(** The eight groups of an address. *)
Fixpoint v6_groups (ip : list Z) : list Z :=
  match ip with
  | a :: b :: ip => (a * 256 + b) :: v6_groups ip
  | _ => []
  end.

Fixpoint zeros (g : list Z) : nat :=
  match g with
  | x :: g => if x =? 0 then S (zeros g) else O
  | [] => O
  end.

(** The first longest run of at least two zero groups, as start and end. *)
Fixpoint zero_run (i : nat) (g : list Z) (best : option (nat * nat)) : option (nat * nat) :=
  match g with
  | [] => best
  | x :: g' =>
      let l := zeros g in
      let len := match best with Some (s, e) => (e - s)%nat | None => O end in
      zero_run (S i) g' (if (2 <=? l)%nat && (len <? l)%nat then Some (i, (i + l)%nat) else best)
  end.

(** [netip.Addr.String] of an IPv6 address. *)
Definition format_v6 (ip : list Z) : list Z :=
  let g := v6_groups ip in
  match zero_run 0 g None with
  | None => Join (map appendHex g) [colon]
  | Some (s, e) => Join (map appendHex (take s g)) [colon] ++ [colon; colon] ++ Join (map appendHex (drop e g)) [colon]
  end.

(** [net.IP.String] of a 4- or 16-byte address. *)
Definition IP_String (ip : list Z) : list Z :=
  match To4 ip with
  | Some ip4 => format_v4 ip4
  | None => format_v6 ip
  end.

Lemma ip_text_examples :
  ParseIP (str "10.0.255.1") = Some (v4InV6Prefix ++ [10; 0; 255; 1]) /\
  ParseIP (str "2001:db8::1") = Some [32; 1; 13; 184; 0; 0; 0; 0; 0; 0; 0; 0; 0; 0; 0; 1] /\
  IP_String [32; 1; 13; 184; 0; 0; 0; 0; 0; 1; 0; 0; 0; 0; 0; 1] = str "2001:db8::1:0:0:1" /\
  ParseIP (str "::") = Some (replicate 16 0) /\ IP_String (replicate 16 0) = str "::" /\
  ParseIP (str "::ffff:1.2.3.4") = Some (v4InV6Prefix ++ [1; 2; 3; 4]) /\
  ParseIP (str "1.2.3.04") = None /\ ParseIP (str "1:2:3:4:5:6:7::8") = None.
Proof. vm_compute. repeat split. Qed.

(** ** Addresses are read back from their text *)

Lemma digit_not_sep c : is_digit c = true -> c <> dot /\ c <> colon /\ c <> percent /\ c <> slash.
Proof. unfold is_digit, dot, colon, percent, slash. intros H. bool_props. lia. Qed.

(** *** Dotted quads *)

Lemma v4_digits fuel n rest fields ok :
  fuel <> O -> 0 <= n < 10 ^ Z.of_nat fuel -> n <= 255 ->
  v4_loop (format_digits fuel n ++ rest) fields 0 0 ok =
    v4_loop rest fields n (Z.of_nat (length (format_digits fuel n))) true.
Proof.
  revert n rest. induction fuel as [|fuel IH]; intros n rest Hf Hn Hle; [done|].
  rewrite Nat2Z.inj_succ, Z.pow_succ_r in Hn by lia. simpl. destruct (n <? 10) eqn:Hlt; bool_props.
  - simpl. rewrite is_digit_spec by lia. replace (n + 48 - 48) with n by lia. case_bool; [lia|done].
  - pose proof (Z.mod_pos_bound n 10). pose proof (Z.div_mod n 10). rewrite <- app_assoc, IH; [|destruct fuel; [simpl in Hn; lia|done]|split|lia].
    + simpl. rewrite is_digit_spec by lia. replace (n mod 10 + 48 - 48) with (n mod 10) by lia.
      replace (n / 10 =? 0) with false by lia. rewrite andb_false_r.
      replace (n / 10 * 10 + n mod 10) with n by lia. case_bool; [lia|]. f_equal. rewrite length_app. simpl. lia.
    + apply Z.div_pos; lia.
    + apply Z.div_lt_upper_bound; lia.
Qed.

Lemma v4_octet n rest fields ok :
  0 <= n < 256 -> exists k, v4_loop (FormatUint n ++ rest) fields 0 0 ok = v4_loop rest fields n k true.
Proof. intros Hn. eexists. apply v4_digits; [done|lia|lia]. Qed.

Lemma v4_dot n rest fields k :
  rest <> [] -> (length fields < 3)%nat -> v4_loop (dot :: rest) fields n k true = v4_loop rest (fields ++ [n]) 0 0 false.
Proof.
  intros Hr Hf. simpl. destruct rest; [done|]. simpl.
  by replace (length fields =? 3)%nat with false by (symmetry; apply Nat.eqb_neq; lia).
Qed.

Lemma FormatUint_app_nonempty n s : 0 <= n < 256 -> FormatUint n ++ s <> [].
Proof. intros Hn [E _]%app_nil. revert E. apply FormatUint_nonempty. unfold uint64. lia. Qed.

Lemma parseIPv4_format ip : length ip = 4%nat -> bytes_ok ip -> parseIPv4 (format_v4 ip) = Some ip.
Proof.
  intros Hl Hb. destruct ip as [|a [|b [|c [|d [|]]]]]; try done. clear Hl.
  unfold bytes_ok, is_byte in *. repeat match goal with H : Forall _ (_ :: _) |- _ => apply Forall_cons_1 in H as [? H] end.
  unfold parseIPv4, format_v4. simpl.
  edestruct (v4_octet a) as [k1 ->]; [done|]. rewrite v4_dot by (by apply FormatUint_app_nonempty || (simpl; lia)).
  edestruct (v4_octet b) as [k2 ->]; [done|]. rewrite v4_dot by (by apply FormatUint_app_nonempty || (simpl; lia)).
  edestruct (v4_octet c) as [k3 ->]; [done|].
  rewrite v4_dot by ((rewrite <- (app_nil_r (FormatUint d)); by apply FormatUint_app_nonempty) || (simpl; lia)).
  rewrite <- (app_nil_r (FormatUint d)). edestruct (v4_octet d) as [k4 ->]; [done|]. done.
Qed.

(** *** Groups of hexadecimal digits *)

Definition hex_stop (s : list Z) : Prop := match s with [] => True | c :: _ => hex_value c = None end.

Lemma hex_value_digit d : 0 <= d < 16 -> hex_value (hex_digit d) = Some d.
Proof.
  intros Hd. assert (bool_decide (hex_value (hex_digit d) = Some d) = true) as H%bool_decide_eq_true; [|done].
  revert d Hd. apply forall_below. by vm_compute.
Qed.

Lemma read_hex_digit d s off acc :
  0 <= d < 16 -> off <= 3 -> acc * 16 + d <= 65535 ->
  read_hex (hex_digit d :: s) off acc = read_hex s (off + 1) (acc * 16 + d).
Proof.
  intros Hd Ho Ha. simpl. rewrite hex_value_digit by done. rewrite Z.shiftl_mul_pow2 by lia. change (2 ^ 4) with 16.
  repeat case_bool; try lia. done.
Qed.

Lemma read_hex_stop s off acc : hex_stop s -> read_hex s off acc = Some (acc, off, s).
Proof. destruct s as [|c s]; [done|]. simpl. by intros ->. Qed.

Lemma nibble x k : 0 <= k -> Z.land (Z.shiftr x k) 15 = x / 2 ^ k mod 16.
Proof. intros Hk. change 15 with (Z.ones 4). rewrite Z.land_ones, Z.shiftr_div_pow2 by lia. done. Qed.

Lemma read_hex_group x s :
  0 <= x < 65536 -> hex_stop s -> exists k, 0 < k /\ read_hex (appendHex x ++ s) 0 0 = Some (x, k, s).
Proof.
  intros Hx Hs. unfold appendHex. rewrite !nibble by lia. change (Z.land x 15) with (Z.land (Z.shiftr x 0) 15).
  rewrite nibble, Z.shiftr_div_pow2 by lia.
  change (2 ^ 12) with 4096. change (2 ^ 8) with 256. change (2 ^ 4) with 16. change (2 ^ 0) with 1.
  assert (forall y : Z, 0 <= y mod 16 < 16) as Hm by (intros; apply Z.mod_pos_bound; lia).
  repeat case_bool; cbn [app]; try lia.
  all: eexists; split; cycle 1; [|].
  all: try (repeat (rewrite read_hex_digit; [|solve [apply Hm | dlia]|lia|dlia]);
    rewrite read_hex_stop by done; match goal with |- Some (?a, _, _) = _ => replace a with x by dlia; reflexivity end).
  all: lia.
Qed.

Lemma hex_digit_char d : 0 <= d < 16 -> hex_digit d <> dot /\ hex_digit d <> colon /\ hex_digit d <> percent /\ hex_digit d <> slash.
Proof. unfold hex_digit, dot, colon, percent, slash. intros Hd. case_bool; lia. Qed.

Definition plain (c : Z) : Prop := c <> dot /\ c <> colon /\ c <> percent /\ c <> slash.

Lemma appendHex_plain x : 0 <= x < 65536 -> Forall plain (appendHex x) /\ appendHex x <> [].
Proof.
  intros Hx. unfold appendHex. rewrite !nibble by lia. change (Z.land x 15) with (Z.land (Z.shiftr x 0) 15).
  rewrite nibble, Z.shiftr_div_pow2 by lia. split.
  - repeat apply Forall_app_2; repeat case_bool; repeat constructor; apply hex_digit_char;
      (apply Z.mod_pos_bound; lia) || (change (2 ^ 12) with 4096; dlia).
  - repeat case_bool; done.
Qed.

(** *** Eight groups *)

Definition group_bytes (x : Z) : list Z := [Z.shiftr x 8; Z.land x 255].
Definition groups_bytes (gs : list Z) : list Z := concat (map group_bytes gs).
Definition group_ok (x : Z) : Prop := 0 <= x < 65536.

Lemma groups_bytes_length gs : length (groups_bytes gs) = (2 * length gs)%nat.
Proof. induction gs as [|x gs IH]; [done|]. simpl. unfold groups_bytes in IH. lia. Qed.

Lemma groups_bytes_app gs gs' : groups_bytes (gs ++ gs') = groups_bytes gs ++ groups_bytes gs'.
Proof. unfold groups_bytes. by rewrite map_app, concat_app. Qed.

Lemma groups_bytes_zeros n : groups_bytes (replicate n 0) = replicate (2 * n) 0.
Proof.
  induction n as [|n IH]; [done|]. replace (2 * S n)%nat with (S (S (2 * n))) by lia.
  change (groups_bytes (replicate (S n) 0)) with (0 :: 0 :: groups_bytes (replicate n 0)). by rewrite IH.
Qed.

Lemma group_bytes_pair a b : is_byte a -> is_byte b -> group_bytes (a * 256 + b) = [a; b].
Proof.
  unfold is_byte, group_bytes. intros Ha Hb. change 255 with (Z.ones 8).
  rewrite Z.land_ones, Z.shiftr_div_pow2 by lia. change (2 ^ 8) with 256. f_equal; [dlia|]. f_equal. dlia.
Qed.

Lemma v6_groups_spec n ip :
  length ip = (2 * n)%nat -> bytes_ok ip ->
  length (v6_groups ip) = n /\ Forall group_ok (v6_groups ip) /\ groups_bytes (v6_groups ip) = ip.
Proof.
  revert ip. induction n as [|n IH]; intros ip Hl Hb; [by destruct ip|].
  destruct ip as [|a [|b ip]]; simpl in Hl; [lia|lia|]. apply Forall_cons_1 in Hb as [Ha Hb].
  apply Forall_cons_1 in Hb as [Hb' Hb]. destruct (IH ip) as (H1 & H2 & H3); [lia|done|]. unfold is_byte in *.
  split_and!; simpl; [lia|constructor; [unfold group_ok; lia|done]|].
  change (group_bytes (a * 256 + b) ++ groups_bytes (v6_groups ip) = a :: b :: ip). by rewrite H3, group_bytes_pair.
Qed.

Lemma Join_cons w ws sep : ws <> [] -> Join (w :: ws) sep = w ++ sep ++ Join ws sep.
Proof. by destruct ws. Qed.

Definition hex_text (gs : list Z) : list Z := Join (map appendHex gs) [colon].

Lemma hex_text_head gs tail :
  Forall group_ok gs -> gs <> [] -> exists c s, hex_text gs ++ tail = c :: s /\ plain c.
Proof.
  intros Hg Hne. destruct gs as [|x gs]; [done|]. apply Forall_cons_1 in Hg as [Hx _].
  destruct (appendHex_plain x Hx) as [Hp Hn]. unfold hex_text. destruct (appendHex x) as [|c s] eqn:E; [done|].
  apply Forall_cons_1 in Hp as [Hc _]. simpl map. rewrite E. destruct gs; simpl; eauto.
Qed.

(** One group followed by a colon, by two colons or by nothing. *)
Lemma v6_loop_last fuel x ip ell :
  group_ok x -> v6_loop (S fuel) (appendHex x) ip ell = Some (ip ++ group_bytes x, ell, []).
Proof.
  intros Hx. destruct (read_hex_group x [] Hx I) as (k & Hk & Hr). rewrite app_nil_r in Hr.
  simpl. rewrite Hr. by replace (k =? 0) with false by lia.
Qed.

Lemma v6_loop_next fuel x c s ip ell :
  group_ok x -> c <> colon ->
  v6_loop (S fuel) (appendHex x ++ colon :: c :: s) ip ell = v6_loop fuel (c :: s) (ip ++ group_bytes x) ell.
Proof.
  intros Hx Hc. destruct (read_hex_group x (colon :: c :: s) Hx eq_refl) as (k & Hk & Hr).
  simpl. rewrite Hr. replace (k =? 0) with false by lia. simpl. by replace (c =? colon) with false by lia.
Qed.

Lemma v6_loop_ellipsis fuel x s ip :
  group_ok x ->
  v6_loop (S fuel) (appendHex x ++ colon :: colon :: s) ip None =
    let ip := ip ++ group_bytes x in
    match s with [] => Some (ip, Some (length ip), []) | _ => v6_loop fuel s ip (Some (length ip)) end.
Proof.
  intros Hx. destruct (read_hex_group x (colon :: colon :: s) Hx eq_refl) as (k & Hk & Hr).
  simpl. rewrite Hr. by replace (k =? 0) with false by lia.
Qed.

Lemma v6_loop_text fuel gs ip ell :
  Forall group_ok gs -> gs <> [] -> (length gs <= fuel)%nat ->
  v6_loop fuel (hex_text gs) ip ell = Some (ip ++ groups_bytes gs, ell, []).
Proof.
  revert fuel ip. induction gs as [|x gs IH]; intros fuel ip Hg Hne Hf; [done|].
  apply Forall_cons_1 in Hg as [Hx Hg]. destruct fuel as [|fuel]; [simpl in Hf; lia|].
  destruct gs as [|y gs].
  - unfold hex_text, groups_bytes. simpl map. simpl Join. rewrite v6_loop_last by done. done.
  - unfold hex_text in *. simpl map. rewrite Join_cons by done. fold (map appendHex (y :: gs)).
    destruct (hex_text_head (y :: gs) [] Hg) as (c & s & Ht & Hc); [done|]. rewrite app_nil_r in Ht. unfold hex_text in Ht.
    change (appendHex y :: map appendHex gs) with (map appendHex (y :: gs)). cbn [app]. rewrite Ht.
    rewrite v6_loop_next by (done || apply Hc). rewrite <- Ht, IH by (done || (simpl in *; lia)).
    by rewrite <- app_assoc.
Qed.

Lemma v6_loop_text_ellipsis fuel gs s ip :
  Forall group_ok gs -> gs <> [] -> (length gs <= fuel)%nat ->
  v6_loop fuel (hex_text gs ++ colon :: colon :: s) ip None =
    let ip := ip ++ groups_bytes gs in
    match s with [] => Some (ip, Some (length ip), []) | _ => v6_loop (fuel - length gs) s ip (Some (length ip)) end.
Proof.
  revert fuel ip. induction gs as [|x gs IH]; intros fuel ip Hg Hne Hf; [done|].
  apply Forall_cons_1 in Hg as [Hx Hg]. destruct fuel as [|fuel]; [simpl in Hf; lia|].
  destruct gs as [|y gs].
  - unfold hex_text, groups_bytes. simpl map. simpl Join. rewrite v6_loop_ellipsis by done.
    simpl concat. simpl Nat.sub. by rewrite Nat.sub_0_r.
  - unfold hex_text in *. simpl map. rewrite Join_cons by done.
    destruct (hex_text_head (y :: gs) (colon :: colon :: s) Hg) as (c & t & Ht & Hc); [done|]. unfold hex_text in Ht.
    change (appendHex y :: map appendHex gs) with (map appendHex (y :: gs)). rewrite <- !app_assoc. cbn [app]. rewrite Ht.
    rewrite v6_loop_next by (done || apply Hc). rewrite <- Ht, IH by (done || (simpl in *; lia)).
    cbv zeta. rewrite <- app_assoc. done.
Qed.

(** The run that is left out consists of zeros. *)
Definition run_ok (G : list Z) (r : nat * nat) : Prop :=
  (r.1 + 2 <= r.2 <= length G)%nat /\ G = take r.1 G ++ replicate (r.2 - r.1) 0 ++ drop r.2 G.

Lemma zeros_spec g : g = replicate (zeros g) 0 ++ drop (zeros g) g /\ (zeros g <= length g)%nat.
Proof.
  induction g as [|x g [IH Hl]]; simpl; [done|]. case_bool; simpl; [|split; [done|lia]]. subst. split; [by f_equal|lia].
Qed.

Lemma zero_run_ok pre g best :
  (forall r, best = Some r -> run_ok (pre ++ g) r) ->
  forall r, zero_run (length pre) g best = Some r -> run_ok (pre ++ g) r.
Proof.
  revert pre best. induction g as [|x g IH]; intros pre best Hb r; [apply Hb|].
  cbn [zero_run]. set (l := zeros (x :: g)). intros Hr.
  replace (pre ++ x :: g) with ((pre ++ [x]) ++ g) in * by by rewrite <- app_assoc.
  replace (S (length pre)) with (length (pre ++ [x])) in Hr by (rewrite length_app; simpl; lia).
  refine (IH (pre ++ [x]) _ _ r Hr).
  rewrite <- app_assoc in *. cbn [app] in *. intros r'. destruct ((2 <=? l)%nat && _) eqn:Hc; [|apply Hb].
  intros [= <-]. destruct (zeros_spec (x :: g)) as [E Hl]. fold l in E, Hl.
  apply andb_prop in Hc as [Hge _]. apply Nat.leb_le in Hge. split; simpl; [rewrite length_app; lia|].
  rewrite take_app_length, drop_app, Nat.add_sub_swap, Nat.sub_diag, Nat.add_0_l by lia.
  rewrite drop_ge by lia. simpl app. f_equal. exact E.
Qed.

Lemma v6_text_finish fuel gs ip :
  Forall group_ok gs -> gs <> [] -> (length gs <= fuel)%nat -> (length ip + 2 * length gs < 16)%nat ->
  match v6_loop fuel (hex_text gs) ip (Some (length ip)) with Some x => v6_finish x | None => None end =
    Some (ip ++ replicate (16 - (length ip + 2 * length gs)) 0 ++ groups_bytes gs).
Proof.
  intros Hg Hne Hf Hl. rewrite v6_loop_text by done. cbn [v6_finish]. simpl negb. cbv iota.
  rewrite length_app, groups_bytes_length.
  replace (length ip + 2 * length gs <? 16)%nat with true by (symmetry; apply Nat.ltb_lt; lia).
  by rewrite take_app_length, drop_app_length.
Qed.

Lemma parseIPv6_plain c s :
  plain c -> parseIPv6 (c :: s) = match v6_loop 8 (c :: s) [] None with Some x => v6_finish x | None => None end.
Proof.
  intros (_ & Hc & _). unfold parseIPv6. destruct s as [|c' s]; [done|]. by replace (c =? colon) with false by lia.
Qed.

Lemma parseIPv6_ellipsis s :
  s <> [] -> parseIPv6 (colon :: colon :: s) = match v6_loop 8 s [] (Some O) with Some x => v6_finish x | None => None end.
Proof. intros Hs. destruct s; [done|reflexivity]. Qed.

Lemma parseIPv6_format ip :
  length ip = 16%nat -> bytes_ok ip -> parseIPv6 (format_v6 ip) = Some ip.
Proof.
  intros Hl Hb. destruct (v6_groups_spec 8 ip Hl Hb) as (Hg8 & Hg & Hip). unfold format_v6. set (g := v6_groups ip) in *.
  destruct (zero_run 0 g None) as [[s e]|] eqn:Hrun; fold (hex_text g).
  - destruct (zero_run_ok [] g None) with (r := (s, e)) as [[Hse He] Hsplit]; [done|done|]. simpl in Hse, He, Hsplit.
    set (pre := take s g) in *. set (suf := drop e g) in *. fold (hex_text pre) (hex_text suf).
    assert (length pre = s /\ length suf = (8 - e)%nat) as [Hp Hs].
    { unfold pre, suf. rewrite length_take, length_drop. lia. }
    assert (Forall group_ok pre /\ Forall group_ok suf) as [Gp Gs] by (split; [by apply Forall_take|by apply Forall_drop]).
    assert (ip = groups_bytes pre ++ replicate (2 * (e - s)) 0 ++ groups_bytes suf) as Eip.
    { rewrite <- Hip at 1. rewrite Hsplit. by rewrite !groups_bytes_app, groups_bytes_zeros. }
    destruct (decide (pre = [])) as [Ep|Hpne].
    + rewrite Ep in *. simpl in Hp. subst s. cbn [hex_text map Join app]. destruct (decide (suf = [])) as [Es|Hsne].
      * rewrite Es in *. simpl in Hs. assert (e = 8%nat) as -> by lia. simpl in Eip. by rewrite Eip.
      * rewrite parseIPv6_ellipsis.
        2:{ destruct (hex_text_head suf [] Gs Hsne) as (c & t & Ht & _). rewrite app_nil_r in Ht. by rewrite Ht. }
        etransitivity; [apply (v6_text_finish 8 suf [] Gs Hsne); simpl; lia|]. rewrite Eip. simpl. do 3 f_equal. lia.
    + destruct (hex_text_head pre ([colon; colon] ++ hex_text suf) Gp Hpne) as (c & t & Ht & Hc). rewrite Ht.
      rewrite parseIPv6_plain by done. rewrite <- Ht. cbn [app]. rewrite v6_loop_text_ellipsis by (done || lia). cbv zeta.
      destruct (decide (suf = [])) as [Es|Hsne].
      * rewrite Es in *. cbn [hex_text map Join]. cbn [v6_finish app]. simpl negb. cbv iota.
        rewrite groups_bytes_length. simpl in Hs.
        replace (2 * length pre <? 16)%nat with true by (symmetry; apply Nat.ltb_lt; lia).
        rewrite take_ge, drop_ge by (rewrite groups_bytes_length; lia). rewrite Eip. f_equal. f_equal. f_equal. f_equal. lia.
      * destruct (hex_text_head suf [] Gs Hsne) as (c' & t' & Ht' & _). rewrite app_nil_r in Ht'. rewrite Ht'.
        rewrite <- Ht'. cbn [app]. rewrite v6_text_finish by (done || (rewrite ?groups_bytes_length; lia)).
        rewrite Eip, groups_bytes_length. simpl. do 3 f_equal. f_equal. lia.
  - destruct (hex_text_head g [] Hg) as (c & t & Ht & Hc); [by destruct g|]. rewrite app_nil_r in Ht. rewrite Ht.
    rewrite parseIPv6_plain, <- Ht, v6_loop_text by (done || (by destruct g) || lia). simpl. rewrite Hip, Hl. done.
Qed.

(** *** The family of a text *)

Lemma family_char_first (c : Z) s :
  c = dot \/ c = colon -> Forall (fun b => plain b \/ b = c) s -> c ∈ s -> family_char s = Some c.
Proof.
  intros Hc Hs Hin. induction s as [|b s IH]; [by apply elem_of_nil in Hin|].
  apply Forall_cons_1 in Hs as [Hb Hs]. simpl. destruct (decide (b = c)) as [->|Hne].
  { destruct Hc as [-> | ->]; done. }
  destruct Hb as [(H1 & H2 & H3 & _)|]; [|done].
  replace (b =? dot) with false by lia. replace (b =? colon) with false by lia. replace (b =? percent) with false by lia.
  apply IH; [done|]. by apply elem_of_cons in Hin as [->|?].
Qed.

Lemma Join_chars (P : Z -> Prop) ws sep :
  Forall (Forall P) ws -> Forall P sep -> Forall P (Join ws sep).
Proof.
  intros Hw Hs. induction Hw as [|w ws Hw Hws IH]; [constructor|]. destruct ws as [|w' ws]; [done|].
  rewrite Join_cons by done. by repeat apply Forall_app_2.
Qed.

Lemma hex_text_chars gs : Forall group_ok gs -> Forall (fun b => plain b \/ b = colon) (hex_text gs).
Proof.
  intros Hg. apply Join_chars; [|by repeat constructor; right]. apply Forall_map. eapply Forall_impl; [exact Hg|].
  intros x Hx. simpl. eapply Forall_impl; [by apply appendHex_plain|]. by left.
Qed.

Lemma Join_sep w w' ws sep : sep ∈ Join (w :: w' :: ws) [sep].
Proof. rewrite Join_cons by done. apply elem_of_app. right. by left. Qed.

Lemma format_v6_chars ip :
  length ip = 16%nat -> bytes_ok ip ->
  Forall (fun b => plain b \/ b = colon) (format_v6 ip) /\ colon ∈ format_v6 ip.
Proof.
  intros Hl Hb. destruct (v6_groups_spec 8 ip Hl Hb) as (Hg8 & Hg & _). unfold format_v6.
  destruct (zero_run _ _ _) as [[s e]|].
  - split.
    + repeat apply Forall_app_2; [by apply hex_text_chars, Forall_take|by repeat constructor; right|by apply hex_text_chars, Forall_drop].
    + apply elem_of_app. right. by left.
  - split; [by apply hex_text_chars|]. destruct (v6_groups ip) as [|x [|y g]]; [done|done|apply Join_sep].
Qed.

Lemma ParseIP_format_v6 ip : length ip = 16%nat -> bytes_ok ip -> ParseIP (format_v6 ip) = Some ip.
Proof.
  intros Hl Hb. destruct (format_v6_chars ip Hl Hb) as [Hc Hin]. unfold ParseIP.
  rewrite (family_char_first colon) by (done || by right). simpl. rewrite bool_decide_false; [by apply parseIPv6_format|].
  intros Hp. rewrite Forall_forall in Hc. destruct (Hc percent Hp) as [(_ & _ & ? & _)|?]; done.
Qed.

Lemma format_v4_chars ip :
  length ip = 4%nat -> bytes_ok ip -> Forall (fun b => plain b \/ b = dot) (format_v4 ip) /\ dot ∈ format_v4 ip.
Proof.
  intros Hl Hb. split.
  - apply Join_chars; [|by repeat constructor; right]. apply Forall_map. eapply Forall_impl; [exact Hb|].
    intros x Hx. simpl. eapply Forall_impl; [apply FormatUint_digits; unfold is_byte, uint64 in *; lia|].
    intros c Hc. left. by apply digit_not_sep.
  - destruct ip as [|a [|b ip]]; [done|done|]. apply Join_sep.
Qed.

Lemma ParseIP_format_v4 ip : length ip = 4%nat -> bytes_ok ip -> ParseIP (format_v4 ip) = Some (v4InV6Prefix ++ ip).
Proof.
  intros Hl Hb. destruct (format_v4_chars ip Hl Hb) as [Hc Hin]. unfold ParseIP.
  rewrite (family_char_first dot) by (done || by left). simpl. rewrite parseIPv4_format by done. unfold To16. by rewrite Hl.
Qed.

(** The text of a mapped address: the quad is read by the IPv6 parser. *)
Lemma read_hex_app ds s off acc v k :
  read_hex ds off acc = Some (v, k, []) -> hex_stop s -> read_hex (ds ++ s) off acc = Some (v, k, s).
Proof.
  revert off acc. induction ds as [|c ds IH]; intros off acc; simpl.
  - intros [= <- <-] Hs. by apply read_hex_stop.
  - destruct (hex_value c); [|done]. repeat case_bool; try done. apply IH.
Qed.

Lemma read_hex_octet a s :
  0 <= a < 256 -> hex_stop s -> exists v k, read_hex (FormatUint a ++ s) 0 0 = Some (v, k, s) /\ (k =? 0) = false.
Proof.
  intros Ha Hs.
  assert (match read_hex (FormatUint a) 0 0 with Some (_, k, []) => negb (k =? 0) | _ => false end = true) as H.
  { revert a Ha. apply forall_below. by vm_compute. }
  destruct (read_hex (FormatUint a) 0 0) as [[[v k] [|]]|] eqn:E; try done.
  exists v, k. split; [by apply read_hex_app|by apply negb_true_iff].
Qed.

Lemma ParseIP_mapped ip :
  length ip = 4%nat -> bytes_ok ip -> ParseIP (str "::ffff:" ++ format_v4 ip) = Some (v4InV6Prefix ++ ip).
Proof.
  intros Hl Hb. pose proof (parseIPv4_format ip Hl Hb) as Hp.
  assert (bool_decide (percent ∈ str "::ffff:" ++ format_v4 ip) = false) as Hnp.
  { apply bool_decide_eq_false. rewrite elem_of_app. intros [H|H]; [cbn in H; repeat (apply elem_of_cons in H as [?|H]; [done|]); by apply elem_of_nil in H|].
    destruct (format_v4_chars ip Hl Hb) as [Hc _]. rewrite Forall_forall in Hc.
    destruct (Hc percent H) as [(_ & _ & ? & _)|?]; done. }
  unfold ParseIP. change (family_char (str "::ffff:" ++ format_v4 ip)) with (Some colon). cbv iota beta.
  replace (colon =? dot) with false by done. replace (colon =? colon) with true by done. rewrite Hnp.
  change (str "::ffff:" ++ format_v4 ip) with (colon :: colon :: appendHex 65535 ++ colon :: format_v4 ip).
  rewrite parseIPv6_ellipsis by done.
  destruct ip as [|a ip]; [done|]. pose proof (Forall_cons_1 _ _ _ Hb) as [Ha _].
  assert (exists c s, format_v4 (a :: ip) = c :: s /\ c <> colon) as (c & s & Hcs & Hne).
  { destruct (format_v4_chars (a :: ip) Hl Hb) as [Hc Hin]. destruct (format_v4 (a :: ip)) as [|c s]; [by apply elem_of_nil in Hin|].
    exists c, s. split; [done|]. apply Forall_cons_1 in Hc as [[(_ & ? & _)| ->] _]; done. }
  rewrite Hcs. rewrite v6_loop_next by (done || by unfold group_ok). rewrite <- Hcs in *.
  destruct ip as [|b ip]; [done|]. unfold format_v4 in Hp |- *. simpl map in Hp |- *. rewrite Join_cons in Hp |- * by done.
  destruct (read_hex_octet a ([dot] ++ Join (FormatUint b :: map FormatUint ip) [dot]) Ha eq_refl) as (v & k & Hr & Hk).
  cbn [v6_loop]. rewrite Hr, Hk. cbn [app]. replace (dot =? dot) with true by done.
  change (16 <? length ([] ++ group_bytes 65535) + 4)%nat with false. cbv iota. cbn [app] in Hp.
  rewrite Hp. destruct ip as [|? [|? [|]]]; done.
Qed.

(** *** What the parsers return *)

Lemma v4_loop_sound s fields val digLen ok ip :
  bytes_ok fields -> is_byte val -> (length fields <= 3)%nat ->
  v4_loop s fields val digLen ok = Some ip -> bytes_ok ip /\ length ip = 4%nat.
Proof.
  revert fields val digLen ok. induction s as [|c s IH]; intros fields val digLen ok Hf Hv Hl; cbn [v4_loop].
  - destruct (Nat.ltb_spec (length fields) 3) as [?|?]; [done|]. intros [= <-]. rewrite length_app. simpl.
    split; [|lia]. apply Forall_app. split; [done|]. by apply Forall_singleton.
  - destruct (is_digit c) eqn:Ed.
    + destruct (_ && _); [done|]. destruct (Z.gtb_spec (val * 10 + (c - 48)) 255) as [?|?]; [done|]. apply IH; [done| |done].
      unfold is_digit in Ed. unfold is_byte in *. bool_props. lia.
    + destruct (c =? dot); [|done]. destruct (_ || _); [done|]. destruct (Nat.eqb_spec (length fields) 3) as [?|?]; [done|].
      apply IH; [|by compute|rewrite length_app; simpl; lia]. apply Forall_app. split; [done|]. by apply Forall_singleton.
Qed.

Lemma parseIPv4_sound s ip : parseIPv4 s = Some ip -> bytes_ok ip /\ length ip = 4%nat.
Proof. apply v4_loop_sound; [constructor|by compute|simpl; lia]. Qed.

Lemma hex_value_bound c d : hex_value c = Some d -> 0 <= d < 16.
Proof. unfold hex_value. intros H. repeat case_match; simplify_eq; bool_props; lia. Qed.

Lemma read_hex_bound s off acc v k rest :
  0 <= acc <= 65535 -> read_hex s off acc = Some (v, k, rest) -> 0 <= v <= 65535.
Proof.
  revert off acc. induction s as [|c s IH]; intros off acc Ha; cbn [read_hex]; [by intros [= <- _ _]|].
  destruct (hex_value c) as [d|] eqn:Ed; [|by intros [= <- _ _]]. apply hex_value_bound in Ed.
  destruct (off >? 3); [done|]. destruct (Z.gtb_spec (Z.shiftl acc 4 + d) 65535) as [?|?]; [done|]. apply IH.
  rewrite Z.shiftl_mul_pow2 in * by lia. lia.
Qed.

Lemma group_bytes_ok acc : 0 <= acc <= 65535 -> bytes_ok [Z.shiftr acc 8; Z.land acc 255].
Proof.
  intros Ha. change 255 with (Z.ones 8). rewrite Z.land_ones, Z.shiftr_div_pow2 by lia.
  repeat constructor; unfold is_byte; dlia.
Qed.

Definition v6_result (x : list Z * option nat * list Z) : Prop :=
  match x with
  | (ip, ell, _) => bytes_ok ip /\ (length ip <= 16)%nat /\ match ell with Some e => (e <= length ip)%nat | None => True end
  end.

Lemma v6_loop_sound fuel s ip ell x :
  (length ip + 2 * fuel = 16)%nat -> v6_result (ip, ell, s) -> v6_loop fuel s ip ell = Some x -> v6_result x.
Proof.
  revert s ip ell. induction fuel as [|fuel IH]; intros s ip ell Hl (Hb & Hle & He); cbn [v6_loop]; [by intros [= <-]|].
  destruct (read_hex s 0 0) as [[[acc off] rest]|] eqn:Er; [|done]. apply read_hex_bound in Er; [|lia].
  assert (bytes_ok (ip ++ [Z.shiftr acc 8; Z.land acc 255])) as Hb' by (apply Forall_app; split; [done|by apply group_bytes_ok]).
  assert (length (ip ++ [Z.shiftr acc 8; Z.land acc 255]) = length ip + 2)%nat as Hl' by by rewrite length_app.
  assert (forall y, match parseIPv4 s with Some v4 => Some (ip ++ v4, ell, []) | None => None end = Some y ->
    (length ip + 4 <= 16)%nat -> v6_result y) as H4.
  { intros y Hy ?. destruct (parseIPv4 s) as [v4|] eqn:E4; [|done]. apply parseIPv4_sound in E4 as [H4 H4'].
    injection Hy as <-. unfold v6_result. rewrite length_app. split_and!; [by apply Forall_app|lia|]. destruct ell; [lia|done]. }
  destruct (off =? 0); [done|]. destruct rest as [|c rest].
  { intros [= <-]. unfold v6_result. rewrite Hl'. split_and!; [done|lia|]. destruct ell; [lia|done]. }
  destruct (c =? dot).
  { intros Hx. destruct ell as [e|].
    - destruct (Nat.ltb_spec 16 (length ip + 4)) as [?|?]; [done|]. by apply H4.
    - destruct (Nat.eqb_spec (length ip) 12) as [?|?]; [|done]. apply H4; [done|lia]. }
  destruct (negb _); [done|]. destruct rest as [|c' rest]; [done|]. destruct (c' =? colon).
  - destruct ell; [done|]. destruct rest; [intros [= <-]|apply IH]; try (rewrite Hl'; lia);
      unfold v6_result; rewrite Hl'; (split_and!; [done|lia|lia]).
  - apply IH; [rewrite Hl'; lia|]. unfold v6_result. rewrite Hl'. split_and!; [done|lia|]. destruct ell; [lia|done].
Qed.

Lemma v6_finish_sound x ip : v6_result x -> v6_finish x = Some ip -> bytes_ok ip /\ length ip = 16%nat.
Proof.
  destruct x as [[b ell] s]. intros (Hb & Hl & He). unfold v6_finish. destruct (negb _); [done|].
  destruct (Nat.ltb_spec (length b) 16) as [?|?].
  - destruct ell as [e|]; [|done]. intros [= <-]. rewrite !length_app, length_replicate, length_take, length_drop.
    split; [|lia]. apply Forall_app. split; [by apply Forall_take|]. apply Forall_app. split; [|by apply Forall_drop].
    apply Forall_replicate. by compute.
  - destruct ell; [done|]. intros [= <-]. split; [done|lia].
Qed.

Lemma parseIPv6_sound s ip : parseIPv6 s = Some ip -> bytes_ok ip /\ length ip = 16%nat.
Proof.
  assert (forall s ell, match ell with Some e => e = O | None => True end ->
    match v6_loop 8 s [] ell with Some x => v6_finish x | None => None end = Some ip -> bytes_ok ip /\ length ip = 16%nat) as Hloop.
  { intros t ell He Ht. destruct (v6_loop 8 t [] ell) as [x|] eqn:E; [|done]. eapply v6_finish_sound; [|exact Ht].
    eapply v6_loop_sound; [|  |exact E]; [simpl; lia|]. split_and!; [constructor|simpl; lia|destruct ell; [simpl; lia|done]]. }
  unfold parseIPv6. destruct s as [|c [|c' s]]; [by apply (Hloop [] None)|by apply (Hloop [c] None)|].
  destruct (_ && _); [|by apply (Hloop _ None)]. destruct s as [|d s]; [|by apply (Hloop _ (Some O))].
  intros [= <-]. split; [|done]. repeat constructor; by compute.
Qed.

Lemma To16_ok ip ip' : To16 ip = Some ip' -> bytes_ok ip -> bytes_ok ip' /\ length ip' = 16%nat.
Proof.
  unfold To16. destruct (Nat.eqb_spec (length ip) 4) as [E|?].
  - intros [= <-] Hb. split; [|by rewrite length_cons; simpl; rewrite E]. apply (Forall_app _ v4InV6Prefix). split; [|done]. repeat constructor; by compute.
  - destruct (Nat.eqb_spec (length ip) 16) as [E|?]; [|done]. by intros [= <-].
Qed.

Lemma ParseIP_sound s ip : ParseIP s = Some ip -> bytes_ok ip /\ length ip = 16%nat.
Proof.
  unfold ParseIP. destruct (family_char s) as [c|]; [|done]. destruct (c =? dot).
  - destruct (parseIPv4 s) as [v4|] eqn:E; [|done]. apply parseIPv4_sound in E as [Hb _]. intros H. by eapply To16_ok.
  - destruct (c =? colon); [|done]. case_bool_decide; [done|]. apply parseIPv6_sound.
Qed.

(** ** Splitting at slashes *)

Lemma Split_free s : Forall (fun w => slash ∉ w) (Split slash s).
Proof.
  induction s as [|c s IH]; simpl; [repeat constructor; apply not_elem_of_nil|].
  case_bool; [constructor; [apply not_elem_of_nil|done]|].
  pose proof (Split_nonempty slash s). destruct (Split slash s) as [|w ws]; [done|].
  apply Forall_cons_1 in IH as [Hw Hws]. constructor; [|done]. apply not_elem_of_cons. split; [congruence|done].
Qed.

Definition slashed (ws : list (list Z)) : list Z := concat (map (cons slash) ws).

Lemma slashed_app ws ws' : slashed (ws ++ ws') = slashed ws ++ slashed ws'.
Proof. unfold slashed. by rewrite map_app, concat_app. Qed.

Lemma slashed_Join ws : ws <> [] -> slashed ws = slash :: Join ws [slash].
Proof.
  induction ws as [|w [|w' ws] IH]; intros Hne; [done| |].
  - unfold slashed. simpl. by rewrite app_nil_r.
  - rewrite Join_cons by done. change (slashed (w :: w' :: ws)) with (slash :: w ++ slashed (w' :: ws)). by rewrite IH.
Qed.

Lemma Join_Split s : Join (Split slash s) [slash] = s.
Proof.
  induction s as [|c s IH]; [done|]. simpl. pose proof (Split_nonempty slash s) as Hne. case_bool.
  - subst c. rewrite Join_cons, IH by done. done.
  - destruct (Split slash s) as [|w ws]; [done|]. destruct ws as [|w' ws].
    + simpl in *. by rewrite IH.
    + rewrite Join_cons in IH |- * by done. simpl in *. by rewrite IH.
Qed.

Lemma Split_slashed ws : Forall (fun w => slash ∉ w) ws -> Split slash (slashed ws) = [] :: ws.
Proof.
  intros Hws. destruct Hws as [|w ws Hw Hws]; [done|]. change (slashed (w :: ws)) with (slash :: w ++ slashed ws).
  cbn [Split]. rewrite Z.eqb_refl. f_equal. revert w Hw.
  induction Hws as [|w' ws Hw' _ IH]; intros w Hw; [simpl; rewrite app_nil_r; by apply Split_word|].
  change (slashed (w' :: ws)) with (slash :: w' ++ slashed ws). rewrite Split_sep by done. by rewrite IH.
Qed.

Lemma last_no_slash s : slash ∉ s -> last s <> Some slash.
Proof. intros Hs Hl. by apply Hs, last_Some_elem_of. Qed.

Lemma last_app_ne {A} (s t : list A) : t <> [] -> last (s ++ t) = last t.
Proof. destruct t as [|c t _] using rev_ind; [done|]. intros _. by rewrite app_assoc, !last_snoc. Qed.

(** ** The order of strings *)

Fixpoint lexLess (a b : list Z) : bool :=
  match a, b with
  | x :: a, y :: b => (x <? y) || ((x =? y) && lexLess a b)
  | [], _ :: _ => true
  | _, [] => false
  end.

Lemma lexLess_asym a : forall b, lexLess a b = true -> lexLess b a = false.
Proof.
  induction a as [|x a IH]; intros [|y b]; simpl; try done. destruct (Z.ltb_spec x y), (Z.ltb_spec y x), (Z.eqb_spec x y), (Z.eqb_spec y x);
    simpl; try lia; try done. apply IH.
Qed.

Lemma lexLess_trans a : forall b c, lexLess b a = false -> lexLess c b = false -> lexLess c a = false.
Proof.
  induction a as [|x a IH]; intros [|y b] [|z c]; simpl; try done.
  destruct (Z.ltb_spec y x), (Z.ltb_spec z y), (Z.ltb_spec z x), (Z.eqb_spec y x), (Z.eqb_spec z y), (Z.eqb_spec z x);
    simpl; try lia; try done. apply IH.
Qed.

Lemma lexLess_irrefl a : lexLess a a = false.
Proof. induction a as [|x a IH]; simpl; [done|]. by rewrite Z.ltb_irrefl, Z.eqb_refl. Qed.

Lemma lexLess_total a : forall b, lexLess a b = false -> lexLess b a = false -> a = b.
Proof.
  induction a as [|x a IH]; intros [|y b]; simpl; try done.
  destruct (Z.ltb_spec x y), (Z.ltb_spec y x), (Z.eqb_spec x y), (Z.eqb_spec y x); simpl; try lia; try done.
  intros. f_equal; [done|auto].
Qed.

Lemma lexLess_app p a b : lexLess (p ++ a) (p ++ b) = lexLess a b.
Proof. induction p as [|x p IH]; simpl; [done|]. by rewrite Z.ltb_irrefl, Z.eqb_refl. Qed.

Lemma lexLess_prefix a b : b <> [] -> lexLess a (a ++ b) = true.
Proof. intros Hb. rewrite <- (app_nil_r a) at 1. rewrite lexLess_app. by destruct b. Qed.

Lemma lexLess_strict a b c : lexLess a b = true -> lexLess b c = true -> lexLess a c = true.
Proof.
  intros Hab Hbc. destruct (lexLess a c) eqn:E; [done|]. pose proof (lexLess_trans b c a (lexLess_asym _ _ Hbc) E). congruence.
Qed.
