(* ===== verification/GoSort.v ===== *)
(** * Sorting (sort.Slice)

    The sort of the standard library is not stable, so it is an interface: any function that returns a
    sorted permutation.  Insertion sort is an instance. *)

From stdpp Require Import base sets list numbers sorting.
From Stdlib Require Import ZArith Lia.
From S2P Require Import Prelude.

(** What the code relies on of [sort.Slice] for a comparison that orders the elements. *)
Definition orders {A} (less : A -> A -> bool) (l : list A) : Prop :=
  (forall a b, a ∈ l -> b ∈ l -> less a b = true -> less b a = false) /\
  (forall a b c, a ∈ l -> b ∈ l -> c ∈ l -> less b a = false -> less c b = false -> less c a = false).

Class SortSlice := {
  sortSlice {A} : (A -> A -> bool) -> list A -> list A;
  sortSlice_perm {A} (less : A -> A -> bool) l : sortSlice less l ≡ₚ l;
  sortSlice_sorted {A} (less : A -> A -> bool) l :
    orders less l -> StronglySorted (fun a b => less b a = false) (sortSlice less l)
}.

(** ** Insertion sort *)

Section insertion.
Context {A : Type} (less : A -> A -> bool).

Fixpoint insert_by (x : A) (l : list A) : list A :=
  match l with
  | [] => [x]
  | y :: l => if less y x then y :: insert_by x l else x :: y :: l
  end.
Definition isort (l : list A) : list A := foldr insert_by [] l.

Lemma insert_by_perm x l : insert_by x l ≡ₚ x :: l.
Proof.
  induction l as [|y l IH]; simpl; [done|]. destruct (less y x); [|done]. rewrite IH. apply Permutation_swap.
Qed.
Lemma isort_perm l : isort l ≡ₚ l.
Proof. induction l as [|x l IH]; simpl; [done|]. by rewrite insert_by_perm, IH. Qed.

Lemma insert_by_sorted x l :
  orders less (x :: l) -> StronglySorted (fun a b => less b a = false) l ->
  StronglySorted (fun a b => less b a = false) (insert_by x l).
Proof.
  intros [Has Htr]. induction 1 as [|y l Hl IH Hy]; simpl; [repeat constructor|]. destruct (less y x) eqn:E.
  - constructor.
    + apply IH; intros *; [intros Ha Hb; apply Has|intros Ha Hb Hc; apply (Htr a b c)]; set_solver.
    + rewrite insert_by_perm. constructor; [apply Has; set_solver|done].
  - constructor; [by constructor|]. constructor; [done|]. rewrite Forall_forall in *. intros z Hz.
    apply (Htr x y z); [set_solver..|done|by apply Hy].
Qed.

Lemma isort_sorted l : orders less l -> StronglySorted (fun a b => less b a = false) (isort l).
Proof.
  induction l as [|x l IH]; intros [Has Htr]; simpl; [constructor|]. apply insert_by_sorted.
  - split; intros *; rewrite isort_perm; [apply Has|apply Htr].
  - apply IH. split; intros *; [intros Ha Hb; apply Has|intros Ha Hb Hc; apply Htr]; set_solver.
Qed.
End insertion.

Definition insertionSort : SortSlice :=
  {| sortSlice A := isort; sortSlice_perm A := isort_perm; sortSlice_sorted A := isort_sorted |}.
