(* ===== verification/Base32.v ===== *)
(** * Base32 (src/multiformats/base32/base32.go)

    The radix-32 encodings with and without padding, case-insensitive decoding
    included.  [encoding/base32] of the standard library is the code this package was
    derived from; the same definitions model its use by the onion and garlic
    transcoders.  Buffers are lists; the stream encoder and decoder of the package are
    not used by the program. *)

From stdpp Require Import base list numbers strings.
From Stdlib Require Import ZArith Lia.
From S2P Require Import Prelude GoText.

Record Encoding := mkEncoding { e_encode : list Z; decodeMap : list Z; padChar : Z }.

Definition StdPadding : Z := 61.
Definition NoPadding : Z := -1.
Definition encodeStd : list Z := str "ABCDEFGHIJKLMNOPQRSTUVWXYZ234567".
Definition encodeHex : list Z := str "0123456789ABCDEFGHIJKLMNOPQRSTUV".

(** The loop that fills the decoding table: character [encoder[i]] decodes to [i]. *)
Fixpoint fill (keys : Z -> list Z) (i : Z) (encoder : list Z) (m : list Z) : list Z :=
  match encoder with
  | [] => m
  | c :: encoder => fill keys (i + 1) encoder (foldl (fun m k => <[Z.to_nat k := i]> m) m (keys c))
  end.

Definition asciiToLower (c : Z) : Z := if (65 <=? c) && (c <=? 90) then c + 32 else c.
Definition asciiToUpper (c : Z) : Z := if (97 <=? c) && (c <=? 122) then c - 32 else c.

Definition NewEncoding (encoder : list Z) : Encoding :=
  mkEncoding encoder (fill (fun c => [c]) 0 encoder (replicate 256 255)) StdPadding.
Definition NewEncodingCI (encoder : list Z) : Encoding :=
  mkEncoding encoder (fill (fun c => [asciiToLower c; asciiToUpper c]) 0 encoder (replicate 256 255)) StdPadding.
Definition WithPadding (enc : Encoding) (padding : Z) : Encoding := mkEncoding (e_encode enc) (decodeMap enc) padding.

Definition StdEncoding : Encoding := NewEncodingCI encodeStd.
Definition HexEncoding : Encoding := NewEncodingCI encodeHex.
Definition RawStdEncoding : Encoding := WithPadding (NewEncodingCI encodeStd) NoPadding.
Definition RawHexEncoding : Encoding := WithPadding (NewEncodingCI encodeHex) NoPadding.

(** ** Encoding *)

Definition char_of (enc : Encoding) (v : Z) : Z := nth (Z.to_nat v) (e_encode enc) 0.

(** The five-bit groups of a final block of one to four bytes; [carry] comes from the
    byte that follows, in the order of the fallthrough cases. *)
Definition tail1 (carry b0 : Z) : list Z := [Z.shiftr b0 3; Z.lor carry (Z.land (Z.shiftl b0 2) 31)].
Definition tail2 (carry b0 b1 : Z) : list Z :=
  tail1 (Z.land (Z.shiftr b1 6) 31) b0 ++ [Z.land (Z.shiftr b1 1) 31; Z.lor carry (Z.land (Z.shiftl b1 4) 31)].
Definition tail3 (carry b0 b1 b2 : Z) : list Z :=
  tail2 (Z.land (Z.shiftr b2 4) 31) b0 b1 ++ [Z.lor carry (Z.land (Z.shiftl b2 1) 31)].
Definition tail4 (b0 b1 b2 b3 : Z) : list Z :=
  tail3 (Z.shiftr b3 7) b0 b1 b2 ++ [Z.land (Z.shiftr b3 2) 31; Z.land (Z.shiftl b3 3) 31].
(** The eight groups of a whole block. *)
Definition block (b0 b1 b2 b3 b4 : Z) : list Z :=
  [Z.shiftr b0 3;
   Z.land (Z.lor (Z.shiftr b1 6) (Z.shiftl b0 2)) 31;
   Z.land (Z.shiftr b1 1) 31;
   Z.land (Z.lor (Z.shiftr b2 4) (Z.shiftl b1 4)) 31;
   Z.lor (Z.shiftr b3 7) (Z.land (Z.shiftl b2 1) 31);
   Z.land (Z.shiftr b3 2) 31;
   Z.lor (Z.shiftr b4 5) (Z.land (Z.shiftl b3 3) 31);
   Z.land b4 31].

Definition pads (enc : Encoding) (n : nat) : list Z := if padChar enc =? NoPadding then [] else replicate n (padChar enc mod 256).

(** The contents of the destination after [Encode]. *)
Fixpoint Encode (enc : Encoding) (src : list Z) : list Z :=
  match src with
  | [] => []
  | [b0] => map (char_of enc) (tail1 0 b0) ++ pads enc 6
  | [b0; b1] => map (char_of enc) (tail2 0 b0 b1) ++ pads enc 4
  | [b0; b1; b2] => map (char_of enc) (tail3 0 b0 b1 b2) ++ pads enc 3
  | [b0; b1; b2; b3] => map (char_of enc) (tail4 b0 b1 b2 b3) ++ pads enc 1
  | b0 :: b1 :: b2 :: b3 :: b4 :: src => map (char_of enc) (block b0 b1 b2 b3 b4) ++ Encode enc src
  end.

Definition EncodedLen (enc : Encoding) (n : Z) : Z :=
  if padChar enc =? NoPadding then (n * 8 + 4) / 5 else (n + 4) / 5 * 8.
Definition EncodeToString (enc : Encoding) (src : list Z) : list Z := Encode enc src.

(** ** Decoding *)

(** One quantum: its groups, whether padding ended it, and the rest of the input;
    [None] is [CorruptInputError]. *)
Fixpoint quantum (enc : Encoding) (fuel : nat) (src dbuf : list Z) : option (list Z * bool * list Z) :=
  match fuel with
  | O => Some (dbuf, false, src)
  | S fuel =>
      let j := length dbuf in
      match src with
      | [] => if padChar enc =? NoPadding then Some (dbuf, false, []) else None
      | c :: src =>
          if (c =? padChar enc mod 256) && (2 <=? j)%nat && (length src <? 8)%nat then
            if padChar enc =? NoPadding then None
            else if (length src + j <? 7)%nat then None
            else if negb (forallb (fun k => k =? padChar enc mod 256) (take (7 - j) src)) then None
            else if (j =? 1)%nat || (j =? 3)%nat || (j =? 6)%nat then None
            else Some (dbuf, true, src)
          else
            let v := nth (Z.to_nat c) (decodeMap enc) 255 in
            if v =? 255 then None else quantum enc fuel src (dbuf ++ [v])
      end
  end.

(** The bytes of a quantum; group counts 1, 3 and 6 yield none. *)
Definition pack (dbuf : list Z) : list Z :=
  match dbuf with
  | [d0; d1] => [u8 (Z.lor (Z.shiftl d0 3) (Z.shiftr d1 2))]
  | [d0; d1; d2; d3] =>
      [u8 (Z.lor (Z.shiftl d0 3) (Z.shiftr d1 2));
       u8 (Z.lor (Z.lor (Z.shiftl d1 6) (Z.shiftl d2 1)) (Z.shiftr d3 4))]
  | [d0; d1; d2; d3; d4] =>
      [u8 (Z.lor (Z.shiftl d0 3) (Z.shiftr d1 2));
       u8 (Z.lor (Z.lor (Z.shiftl d1 6) (Z.shiftl d2 1)) (Z.shiftr d3 4));
       u8 (Z.lor (Z.shiftl d3 4) (Z.shiftr d4 1))]
  | [d0; d1; d2; d3; d4; d5; d6] =>
      [u8 (Z.lor (Z.shiftl d0 3) (Z.shiftr d1 2));
       u8 (Z.lor (Z.lor (Z.shiftl d1 6) (Z.shiftl d2 1)) (Z.shiftr d3 4));
       u8 (Z.lor (Z.shiftl d3 4) (Z.shiftr d4 1));
       u8 (Z.lor (Z.lor (Z.shiftl d4 7) (Z.shiftl d5 2)) (Z.shiftr d6 3))]
  | [d0; d1; d2; d3; d4; d5; d6; d7] =>
      [u8 (Z.lor (Z.shiftl d0 3) (Z.shiftr d1 2));
       u8 (Z.lor (Z.lor (Z.shiftl d1 6) (Z.shiftl d2 1)) (Z.shiftr d3 4));
       u8 (Z.lor (Z.shiftl d3 4) (Z.shiftr d4 1));
       u8 (Z.lor (Z.lor (Z.shiftl d4 7) (Z.shiftl d5 2)) (Z.shiftr d6 3));
       u8 (Z.lor (Z.shiftl d6 5) d7)]
  | _ => []
  end.

(** The loop over quanta; every quantum reads a character, so the length of the input
    is enough fuel. *)
Fixpoint decode (enc : Encoding) (fuel : nat) (src : list Z) : option (list Z) :=
  match src, fuel with
  | [], _ => Some []
  | _, O => None
  | _, S fuel =>
      match quantum enc 8 src [] with
      | None => None
      | Some (dbuf, true, _) => Some (pack dbuf)
      | Some (dbuf, false, src) =>
          match decode enc fuel src with
          | Some out => Some (pack dbuf ++ out)
          | None => None
          end
      end
  end.

(** Line ends are dropped first. *)
Definition strip (s : list Z) : list Z := filter (fun c => c <> 13 /\ c <> 10) s.

Definition DecodeString (enc : Encoding) (s : list Z) : option (list Z) :=
  let s := strip s in decode enc (length s) s.

(** ** Round trip *)

Lemma pack_block b0 b1 b2 b3 b4 :
  is_byte b0 -> is_byte b1 -> is_byte b2 -> is_byte b3 -> is_byte b4 ->
  pack (block b0 b1 b2 b3 b4) = [b0; b1; b2; b3; b4].
Proof. intros. cbn [pack block]. repeat f_equal; byte_bits. Qed.

Lemma pack_tail1 b0 : is_byte b0 -> pack (tail1 0 b0) = [b0].
Proof. intros. cbn [pack tail1]. repeat f_equal; byte_bits. Qed.
Lemma pack_tail2 b0 b1 : is_byte b0 -> is_byte b1 -> pack (tail2 0 b0 b1) = [b0; b1].
Proof. intros. cbn [pack tail2 tail1 app]. repeat f_equal; byte_bits. Qed.
Lemma pack_tail3 b0 b1 b2 : is_byte b0 -> is_byte b1 -> is_byte b2 -> pack (tail3 0 b0 b1 b2) = [b0; b1; b2].
Proof. intros. cbn [pack tail3 tail2 tail1 app]. repeat f_equal; byte_bits. Qed.
Lemma pack_tail4 b0 b1 b2 b3 :
  is_byte b0 -> is_byte b1 -> is_byte b2 -> is_byte b3 -> pack (tail4 b0 b1 b2 b3) = [b0; b1; b2; b3].
Proof. intros. cbn [pack tail4 tail3 tail2 tail1 app]. repeat f_equal; byte_bits. Qed.

Definition group_ok (v : Z) : Prop := 0 <= v < 32.

Lemma group_land x : group_ok (Z.land x 31).
Proof. apply (land_range 5). lia. Qed.
Lemma group_lor x y : group_ok x -> group_ok y -> group_ok (Z.lor x y).
Proof. apply (lor_range 5). lia. Qed.
Lemma group_shiftr x n : is_byte x -> 3 <= n -> group_ok (Z.shiftr x n).
Proof.
  intros Hx Hn. apply (shiftr_range 5); [lia|lia|]. unfold is_byte in Hx.
  assert (2 ^ 8 <= 2 ^ (5 + n)) by (apply Z.pow_le_mono_r; lia). lia.
Qed.
Ltac group1 :=
  first [apply group_land | apply group_shiftr; [assumption|lia] | assumption | apply group_lor; group1 | unfold group_ok; lia].
Ltac groups := repeat (apply Forall_cons_2; [group1|]); apply Forall_nil_2.

Lemma block_ok b0 b1 b2 b3 b4 :
  is_byte b0 -> is_byte b1 -> is_byte b2 -> is_byte b3 -> is_byte b4 -> Forall group_ok (block b0 b1 b2 b3 b4).
Proof. intros. unfold block. groups. Qed.
Lemma tail1_ok c b0 : group_ok c -> is_byte b0 -> Forall group_ok (tail1 c b0).
Proof. intros. unfold tail1. groups. Qed.
Lemma tail2_ok c b0 b1 : group_ok c -> is_byte b0 -> is_byte b1 -> Forall group_ok (tail2 c b0 b1).
Proof. intros. unfold tail2. apply Forall_app. split; [apply tail1_ok; group1|groups]. Qed.
Lemma tail3_ok c b0 b1 b2 : group_ok c -> is_byte b0 -> is_byte b1 -> is_byte b2 -> Forall group_ok (tail3 c b0 b1 b2).
Proof. intros. unfold tail3. apply Forall_app. split; [apply tail2_ok; group1|groups]. Qed.
Lemma tail4_ok b0 b1 b2 b3 : is_byte b0 -> is_byte b1 -> is_byte b2 -> is_byte b3 -> Forall group_ok (tail4 b0 b1 b2 b3).
Proof. intros. unfold tail4. apply Forall_app. split; [apply tail3_ok; group1|groups]. Qed.

(** [dec] reads what [enc] writes. *)
Definition reads_char (dec enc : Encoding) (v : Z) : bool :=
  let c := char_of enc v in
  bool_decide (is_byte c) && negb (c =? 13) && negb (c =? 10) && negb (c =? padChar enc mod 256) &&
  (nth (Z.to_nat c) (decodeMap dec) 255 =? v).
Definition reads (dec enc : Encoding) : bool :=
  (padChar dec =? padChar enc) && bool_decide (padChar enc mod 256 <> 13 /\ padChar enc mod 256 <> 10) &&
  forallb (reads_char dec enc) (seqZ 0 32).

Section roundtrip.
Context (dec enc : Encoding) (Hreads : reads dec enc = true).

Lemma reads_pad : padChar dec = padChar enc /\ padChar enc mod 256 <> 13 /\ padChar enc mod 256 <> 10.
Proof.
  unfold reads in Hreads. apply andb_true_iff in Hreads as [[H1 H2]%andb_true_iff _].
  apply Z.eqb_eq in H1. by apply bool_decide_eq_true in H2.
Qed.

Lemma reads_group v : group_ok v ->
  let c := char_of enc v in
  is_byte c /\ c <> 13 /\ c <> 10 /\ (c =? padChar dec mod 256) = false /\ nth (Z.to_nat c) (decodeMap dec) 255 = v.
Proof.
  intros Hv c. destruct reads_pad as [Hp _]. unfold reads in Hreads. apply andb_true_iff in Hreads as [_ H].
  pose proof (forall_below 32 (reads_char dec enc) H v Hv) as Hc. unfold reads_char in Hc. fold c in Hc.
  rewrite Hp. apply andb_true_iff in Hc as [[[[H1 H2]%andb_true_iff H3]%andb_true_iff H4]%andb_true_iff H5].
  split_and!; [by apply bool_decide_eq_true in H1|by apply negb_true_iff, Z.eqb_neq in H2|by apply negb_true_iff, Z.eqb_neq in H3
    |by apply negb_true_iff in H4|by apply Z.eqb_eq].
Qed.

Lemma quantum_chars vs k rest dbuf :
  Forall group_ok vs -> quantum dec (length vs + k) (map (char_of enc) vs ++ rest) dbuf = quantum dec k rest (dbuf ++ vs).
Proof.
  intros Hvs. revert dbuf. induction Hvs as [|v vs Hv _ IH]; intros dbuf; [by rewrite app_nil_r|].
  cbn [length Nat.add map app quantum]. destruct (reads_group v Hv) as (_ & _ & _ & -> & Hd). cbn [andb]. rewrite Hd.
  replace (v =? 255) with false by (unfold group_ok in Hv; zbool). rewrite IH, <- app_assoc. done.
Qed.

(** A final block of [k] groups, padded to eight. *)
Lemma quantum_tail vs k :
  Forall group_ok vs -> (length vs + k = 8)%nat -> length vs ∈ [2; 4; 5; 7]%nat ->
  quantum dec 8 (map (char_of enc) vs ++ pads enc k) [] = Some (vs, negb (padChar enc =? NoPadding), if padChar enc =? NoPadding then [] else tl (pads enc k)).
Proof.
  intros Hvs Hl Hin. rewrite <- Hl at 1. rewrite quantum_chars by done. cbn [app]. destruct reads_pad as [Hp _].
  unfold pads. destruct (padChar enc =? NoPadding) eqn:En.
  - destruct k; [|cbn [quantum]; by rewrite Hp, En]. exfalso.
    repeat (apply elem_of_cons in Hin as [E|Hin]; [lia|]). by apply elem_of_nil in Hin.
  - destruct k as [|k]; [exfalso; repeat (apply elem_of_cons in Hin as [E|Hin]; [lia|]); by apply elem_of_nil in Hin|].
    cbn [quantum replicate tl]. rewrite Hp, Z.eqb_refl, En, length_replicate.
    replace (2 <=? length vs)%nat with true by (symmetry; apply Nat.leb_le; repeat (apply elem_of_cons in Hin as [E|Hin]; [lia|]); by apply elem_of_nil in Hin).
    replace (k <? 8)%nat with true by (symmetry; apply Nat.ltb_lt; lia).
    replace (k + length vs <? 7)%nat with false by (symmetry; apply Nat.ltb_ge; lia). cbn [andb].
    replace (forallb _ _) with true.
    2:{ symmetry. apply forallb_forall. intros x Hx%list_elem_of_In. apply Z.eqb_eq.
        by apply elem_of_take in Hx as (? & Hx%lookup_replicate_1 & _); destruct Hx. }
    cbn [negb].
    replace ((length vs =? 1)%nat || (length vs =? 3)%nat || (length vs =? 6)%nat) with false; [done|].
    repeat (apply elem_of_cons in Hin as [->|Hin]; [done|]). by apply elem_of_nil in Hin.
Qed.

Lemma decode_tail vs k fuel :
  Forall group_ok vs -> (length vs + k = 8)%nat -> length vs ∈ [2; 4; 5; 7]%nat ->
  decode dec (S fuel) (map (char_of enc) vs ++ pads enc k) = Some (pack vs).
Proof.
  intros Hvs Hl Hin. destruct (map (char_of enc) vs ++ pads enc k) as [|c s] eqn:E.
  { destruct vs; [|done]. exfalso. repeat (apply elem_of_cons in Hin as [?|Hin]; [done|]). by apply elem_of_nil in Hin. }
  cbn [decode]. rewrite <- E, quantum_tail by done. destruct (padChar enc =? NoPadding); cbn [negb]; [|done].
  destruct fuel; cbn [decode]; by rewrite app_nil_r.
Qed.


Lemma decode_Encode src fuel : bytes_ok src -> (length src < fuel)%nat -> decode dec fuel (Encode enc src) = Some src.
Proof.
  revert fuel. induction src as [src IH] using (induction_ltof1 _ length). unfold ltof in IH. intros fuel Hb Hf.
  destruct fuel as [|fuel]; [lia|].
  destruct src as [|b0 [|b1 [|b2 [|b3 [|b4 src]]]]]; repeat (apply Forall_cons_1 in Hb as [? Hb]); cbn [Encode].
  - done.
  - rewrite decode_tail; [by rewrite pack_tail1|apply tail1_ok; group1|done|in_list].
  - rewrite decode_tail; [by rewrite pack_tail2|apply tail2_ok; group1|done|in_list].
  - rewrite decode_tail; [by rewrite pack_tail3|apply tail3_ok; group1|done|in_list].
  - rewrite decode_tail; [by rewrite pack_tail4|apply tail4_ok; group1|done|in_list].
  - pose proof (block_ok b0 b1 b2 b3 b4 ltac:(done) ltac:(done) ltac:(done) ltac:(done) ltac:(done)) as Hk.
    set (cs := map (char_of enc) (block b0 b1 b2 b3 b4) ++ Encode enc src).
    assert (quantum dec 8 cs [] = Some (block b0 b1 b2 b3 b4, false, Encode enc src)) as Hq.
    { exact (quantum_chars (block b0 b1 b2 b3 b4) 0 (Encode enc src) [] Hk). }
    assert (cs = char_of enc (Z.shiftr b0 3) :: tl cs) as Hcs by done.
    rewrite Hcs. cbn [decode]. rewrite <- Hcs, Hq.
    rewrite IH; [|cbn [length]; lia|done|cbn [length] in Hf; lia]. by rewrite pack_block.
Qed.
End roundtrip.

(** What holds of all characters of the alphabet and of the padding holds of every
    encoded text. *)
Lemma Encode_chars (P : Z -> Prop) enc src :
  (forall v, group_ok v -> P (char_of enc v)) -> (padChar enc <> NoPadding -> P (padChar enc mod 256)) ->
  bytes_ok src -> Forall P (Encode enc src).
Proof.
  intros Hc Hp. assert (forall vs, Forall group_ok vs -> Forall P (map (char_of enc) vs)) as Hm.
  { intros vs Hvs. induction Hvs; constructor; auto. }
  assert (forall k, Forall P (pads enc k)) as Hk.
  { intros k. unfold pads. destruct (Z.eqb_spec (padChar enc) NoPadding); [constructor|]. by apply Forall_replicate, Hp. }
  induction src as [src IH] using (induction_ltof1 _ length). unfold ltof in IH. intros Hb.
  destruct src as [|b0 [|b1 [|b2 [|b3 [|b4 src]]]]]; repeat (apply Forall_cons_1 in Hb as [? Hb]); cbn [Encode];
    try (apply Forall_app; split; [apply Hm|by apply Hk]).
  - constructor.
  - apply tail1_ok; group1.
  - apply tail2_ok; group1.
  - apply tail3_ok; group1.
  - apply tail4_ok; group1.
  - apply Forall_app. split; [by apply Hm, block_ok|]. apply IH; [cbn [length]; lia|done].
Qed.

Lemma Encode_length enc src : Z.of_nat (length (Encode enc src)) = EncodedLen enc (Z.of_nat (length src)).
Proof.
  unfold EncodedLen. induction src as [src IH] using (induction_ltof1 _ length). unfold ltof in IH.
  destruct src as [|b0 [|b1 [|b2 [|b3 [|b4 src]]]]]; cbn [Encode]; rewrite ?length_app, ?length_map; unfold pads;
    try (destruct (padChar enc =? NoPadding); rewrite ?length_replicate; reflexivity).
  specialize (IH src ltac:(cbn [length]; lia)). rewrite Nat2Z.inj_add, IH. cbn [length block].
  destruct (padChar enc =? NoPadding); dlia.
Qed.

Lemma strip_id s : Forall (fun c => c <> 13 /\ c <> 10) s -> strip s = s.
Proof. intros H. unfold strip. induction H as [|c s Hc _ IH]; [done|]. rewrite filter_cons_True by done. by rewrite IH. Qed.

Lemma Decode_Encode dec enc src :
  reads dec enc = true -> bytes_ok src -> DecodeString dec (EncodeToString enc src) = Some src.
Proof.
  intros Hr Hb. unfold DecodeString, EncodeToString. rewrite strip_id.
  - destruct src as [|b src]; [done|]. apply decode_Encode; [done..|].
    pose proof (Encode_length enc (b :: src)) as Hl. unfold EncodedLen in Hl. cbn [length] in *.
    destruct (padChar enc =? NoPadding); dlia.
  - destruct (reads_pad dec enc Hr) as (_ & ? & ?). apply Encode_chars; [|done..]. intros v Hv.
    destruct (reads_group dec enc Hr v Hv) as (_ & ? & ? & _). done.
Qed.

(** What is decoded is bytes. *)
Lemma pack_bytes dbuf : bytes_ok (pack dbuf).
Proof.
  unfold pack. repeat (match goal with |- context [match ?l with [] => _ | _ :: _ => _ end] => destruct l end);
    repeat constructor; apply u8_byte.
Qed.

Lemma decode_bytes32 enc fuel src b : decode enc fuel src = Some b -> bytes_ok b.
Proof.
  revert src b. induction fuel as [|fuel IH]; intros [|c src] b; cbn [decode]; try done; try (intros [= <-]; constructor).
  destruct (quantum enc 8 (c :: src) []) as [[[dbuf [|]] rest]|]; [intros [= <-]; apply pack_bytes| |done].
  destruct (decode enc fuel rest) as [out|] eqn:E; [|done]. intros [= <-]. apply Forall_app. split; [apply pack_bytes|by eapply IH].
Qed.

Lemma DecodeString_bytes32 enc s b : DecodeString enc s = Some b -> bytes_ok b.
Proof. apply decode_bytes32. Qed.

(** Base32 is a faithful text form: whatever an encoding writes, with or without
    padding, a decoder for its alphabet in either case reads back, and the text fills
    the buffer of [EncodedLen] bytes exactly. *)
Theorem base32_roundtrip dec enc src :
  reads dec enc = true -> bytes_ok src ->
  DecodeString dec (EncodeToString enc src) = Some src /\
  Z.of_nat (length (EncodeToString enc src)) = EncodedLen enc (Z.of_nat (length src)).
Proof. intros Hr Hb. split; [by apply Decode_Encode|apply Encode_length]. Qed.

(** The encodings of the package and of multibase read each other. *)
Lemma std_reads :
  reads StdEncoding StdEncoding = true /\ reads HexEncoding HexEncoding = true /\
  reads RawStdEncoding RawStdEncoding = true /\ reads RawHexEncoding RawHexEncoding = true.
Proof. by vm_compute. Qed.

Lemma base32_roundtrip_witness : DecodeString RawStdEncoding (EncodeToString RawStdEncoding [104; 105; 0]) = Some [104; 105; 0].
Proof.
  apply (base32_roundtrip RawStdEncoding RawStdEncoding [104; 105; 0]); [vm_compute; reflexivity|].
  repeat constructor; by compute.
Defined.

(** Without padding, text of a length no bytes encode to is accepted, and the
    characters of its last quantum are dropped. *)
Lemma unpadded_truncation :
  DecodeString RawStdEncoding (str "A") = Some [] /\ DecodeString RawStdEncoding (str "AAAAAA") = Some [] /\
  DecodeString RawStdEncoding (str "AAAAAAAAAAA") = Some [0; 0; 0; 0; 0].
Proof. by vm_compute. Qed.

(** With padding, what follows the padding within seven characters is ignored. *)
Lemma padded_garbage : DecodeString StdEncoding (str "AA======XX") = Some [0].
Proof. by vm_compute. Qed.
