(* ===== verification/Base64.v ===== *)
(** * [encoding/base64] of the standard library

    The encodings that multibase and the garlic transcoder use: any 64-character
    alphabet, with or without padding.  Line ends are skipped wherever they are. *)

From stdpp Require Import base list numbers strings.
From Stdlib Require Import ZArith Lia.
From S2P Require Import Prelude GoText Base32.

Module Base64.

Definition encodeStd64 : list Z := str "ABCDEFGHIJKLMNOPQRSTUVWXYZabcdefghijklmnopqrstuvwxyz0123456789+/".
Definition encodeURL : list Z := str "ABCDEFGHIJKLMNOPQRSTUVWXYZabcdefghijklmnopqrstuvwxyz0123456789-_".
Definition Std : Encoding := NewEncoding encodeStd64.
Definition URL : Encoding := NewEncoding encodeURL.
Definition RawStd : Encoding := WithPadding Std NoPadding.
Definition RawURL : Encoding := WithPadding URL NoPadding.

(** The six-bit groups of [val], a number of 24 bits. *)
Definition join3 (b0 b1 b2 : Z) : Z := Z.lor (Z.lor (Z.shiftl b0 16) (Z.shiftl b1 8)) b2.
Definition group (val k : Z) : Z := Z.land (Z.shiftr val k) 63.

Fixpoint Encode (enc : Encoding) (src : list Z) : list Z :=
  match src with
  | [] => []
  | [b0] => map (char_of enc) (map (group (join3 b0 0 0)) [18; 12]) ++ pads enc 2
  | [b0; b1] => map (char_of enc) (map (group (join3 b0 b1 0)) [18; 12; 6]) ++ pads enc 1
  | b0 :: b1 :: b2 :: src => map (char_of enc) (map (group (join3 b0 b1 b2)) [18; 12; 6; 0]) ++ Encode enc src
  end.

Fixpoint quantum (enc : Encoding) (fuel : nat) (src dbuf : list Z) : option (list Z * bool * list Z) :=
  match fuel with
  | O => Some (dbuf, false, src)
  | S fuel =>
      let j := length dbuf in
      match src with
      | [] =>
          if (j =? 0)%nat then Some ([], true, [])
          else if (j =? 1)%nat || negb (padChar enc =? NoPadding) then None
          else Some (dbuf, true, [])
      | c :: src =>
          let v := nth (Z.to_nat c) (decodeMap enc) 255 in
          if negb (v =? 255) then quantum enc fuel src (dbuf ++ [v])
          else if negb (c =? padChar enc) then None
          else if (j =? 0)%nat || (j =? 1)%nat then None
          else if (j =? 2)%nat then
            match src with [c'] => if c' =? padChar enc then Some (dbuf, true, []) else None | _ => None end
          else match src with [] => Some (dbuf, true, []) | _ => None end
      end
  end.

Definition pack (dbuf : list Z) : list Z :=
  let d i := nth i dbuf 0 in
  let val := Z.lor (Z.lor (Z.lor (Z.shiftl (d 0%nat) 18) (Z.shiftl (d 1%nat) 12)) (Z.shiftl (d 2%nat) 6)) (d 3%nat) in
  take (length dbuf - 1) [u8 (Z.shiftr val 16); u8 (Z.shiftr val 8); u8 val].

Fixpoint decode (enc : Encoding) (fuel : nat) (src : list Z) : option (list Z) :=
  match src, fuel with
  | [], _ => Some []
  | _, O => None
  | _, S fuel =>
      match quantum enc 4 src [] with
      | None => None
      | Some (dbuf, true, _) => Some (pack dbuf)
      | Some (dbuf, false, src) =>
          match decode enc fuel src with
          | Some out => Some (pack dbuf ++ out)
          | None => None
          end
      end
  end.

Definition DecodeString (enc : Encoding) (s : list Z) : option (list Z) :=
  let s := strip s in decode enc (length s) s.
Definition EncodeToString (enc : Encoding) (src : list Z) : list Z := Encode enc src.

(** ** Round trip *)

Lemma pack_3 b0 b1 b2 :
  is_byte b0 -> is_byte b1 -> is_byte b2 -> pack (map (group (join3 b0 b1 b2)) [18; 12; 6; 0]) = [b0; b1; b2].
Proof. intros. cbn [pack map nth length Nat.sub take group join3]. unfold group, join3. repeat f_equal; byte_bits. Qed.
Lemma pack_2 b0 b1 : is_byte b0 -> is_byte b1 -> pack (map (group (join3 b0 b1 0)) [18; 12; 6]) = [b0; b1].
Proof. intros. cbn [pack map nth length Nat.sub take]. unfold group, join3. repeat f_equal; byte_bits. Qed.
Lemma pack_1 b0 : is_byte b0 -> pack (map (group (join3 b0 0 0)) [18; 12]) = [b0].
Proof. intros. cbn [pack map nth length Nat.sub take]. unfold group, join3. repeat f_equal; byte_bits. Qed.

Definition group64 (v : Z) : Prop := 0 <= v < 64.

Lemma group_64 val k : group64 (group val k).
Proof. apply (land_range 6). lia. Qed.

Lemma groups_ok val ks : Forall group64 (map (group val) ks).
Proof. induction ks; constructor; [apply group_64|done]. Qed.

Definition reads_char (dec enc : Encoding) (v : Z) : bool :=
  let c := char_of enc v in
  bool_decide (is_byte c) && negb (c =? 13) && negb (c =? 10) && (nth (Z.to_nat c) (decodeMap dec) 255 =? v).
Definition pad_ok (enc : Encoding) : bool :=
  (padChar enc =? NoPadding) ||
  (bool_decide (is_byte (padChar enc)) && negb (padChar enc =? 13) && negb (padChar enc =? 10)).
Definition reads (dec enc : Encoding) : bool :=
  (padChar dec =? padChar enc) && pad_ok enc && (nth (Z.to_nat (padChar enc)) (decodeMap dec) 255 =? 255) &&
  forallb (reads_char dec enc) (seqZ 0 64).

Section roundtrip.
Context (dec enc : Encoding) (Hreads : reads dec enc = true).

Lemma reads_pad64 :
  padChar dec = padChar enc /\ nth (Z.to_nat (padChar enc)) (decodeMap dec) 255 = 255 /\
  (padChar enc <> NoPadding -> is_byte (padChar enc) /\ padChar enc <> 13 /\ padChar enc <> 10).
Proof.
  unfold reads in Hreads. apply andb_true_iff in Hreads as [[[H1 H2]%andb_true_iff H3]%andb_true_iff _].
  apply Z.eqb_eq in H1, H3. split_and!; [done..|]. intros Hn. unfold pad_ok in H2. apply orb_true_iff in H2 as [H2|H2].
  - by apply Z.eqb_eq in H2.
  - apply andb_true_iff in H2 as [[Ha Hb]%andb_true_iff Hc]. apply bool_decide_eq_true in Ha.
    apply negb_true_iff, Z.eqb_neq in Hb, Hc. done.
Qed.

Lemma reads_group64 v : group64 v ->
  let c := char_of enc v in is_byte c /\ c <> 13 /\ c <> 10 /\ nth (Z.to_nat c) (decodeMap dec) 255 = v.
Proof.
  intros Hv c. unfold reads in Hreads. apply andb_true_iff in Hreads as [_ H].
  pose proof (forall_below 64 (reads_char dec enc) H v Hv) as Hc. unfold reads_char in Hc. fold c in Hc.
  apply andb_true_iff in Hc as [[[H1 H2]%andb_true_iff H3]%andb_true_iff H5].
  split_and!; [by apply bool_decide_eq_true in H1|by apply negb_true_iff, Z.eqb_neq in H2|by apply negb_true_iff, Z.eqb_neq in H3
    |by apply Z.eqb_eq].
Qed.

Lemma quantum_chars64 vs k rest dbuf :
  Forall group64 vs -> quantum dec (length vs + k) (map (char_of enc) vs ++ rest) dbuf = quantum dec k rest (dbuf ++ vs).
Proof.
  intros Hvs. revert dbuf. induction Hvs as [|v vs Hv _ IH]; intros dbuf; [by rewrite app_nil_r|].
  cbn [length Nat.add map app quantum]. destruct (reads_group64 v Hv) as (_ & _ & _ & Hd). rewrite Hd.
  replace (v =? 255) with false by (unfold group64 in Hv; zbool). cbn [negb]. rewrite IH, <- app_assoc. done.
Qed.

Lemma quantum_tail64 vs k :
  Forall group64 vs -> (length vs = 2 /\ k = 2 \/ length vs = 3 /\ k = 1)%nat ->
  quantum dec 4 (map (char_of enc) vs ++ pads enc k) [] = Some (vs, true, []).
Proof.
  intros Hvs Hl. replace 4%nat with (length vs + k)%nat by lia. rewrite quantum_chars64 by done. cbn [app].
  destruct reads_pad64 as (Hp & Hm & Hb). unfold pads. destruct (Z.eqb_spec (padChar enc) NoPadding) as [En|En].
  - destruct Hl as [[Hl ->]|[Hl ->]]; cbn [quantum]; by rewrite Hp, En, Hl.
  - destruct (Hb En) as (Hby & _). rewrite Z.mod_small by (unfold is_byte in Hby; lia).
    destruct Hl as [[Hl ->]|[Hl ->]]; cbn [quantum replicate]; rewrite Hm, Hp, !Z.eqb_refl, Hl; cbn [negb Nat.eqb orb]; done.
Qed.

Lemma decode_tail64 vs k fuel :
  Forall group64 vs -> (length vs = 2 /\ k = 2 \/ length vs = 3 /\ k = 1)%nat ->
  decode dec (S fuel) (map (char_of enc) vs ++ pads enc k) = Some (pack vs).
Proof.
  intros Hvs Hl. destruct (map (char_of enc) vs ++ pads enc k) as [|c s] eqn:E.
  { destruct vs; [|done]. simpl in Hl. lia. }
  cbn [decode]. by rewrite <- E, quantum_tail64.
Qed.

Lemma decode_Encode64 src fuel : bytes_ok src -> (length src < fuel)%nat -> decode dec fuel (Encode enc src) = Some src.
Proof.
  revert fuel. induction src as [src IH] using (induction_ltof1 _ length). unfold ltof in IH. intros fuel Hb Hf.
  destruct fuel as [|fuel]; [lia|].
  destruct src as [|b0 [|b1 [|b2 src]]]; repeat (apply Forall_cons_1 in Hb as [? Hb]); cbn [Encode].
  - done.
  - rewrite decode_tail64; [by rewrite pack_1|apply groups_ok|by left].
  - rewrite decode_tail64; [by rewrite pack_2|apply groups_ok|by right].
  - set (vs := map (group (join3 b0 b1 b2)) [18; 12; 6; 0]). set (cs := map (char_of enc) vs ++ Encode enc src).
    assert (quantum dec 4 cs [] = Some (vs, false, Encode enc src)) as Hq.
    { exact (quantum_chars64 vs 0 (Encode enc src) [] (groups_ok _ _)). }
    assert (cs = char_of enc (group (join3 b0 b1 b2) 18) :: tl cs) as Hcs by done.
    rewrite Hcs. cbn [decode]. rewrite <- Hcs, Hq.
    rewrite IH; [|cbn [length]; lia|done|cbn [length] in Hf; lia]. unfold vs. by rewrite pack_3.
Qed.
End roundtrip.

Lemma Encode_chars64 (P : Z -> Prop) enc src :
  (forall v, group64 v -> P (char_of enc v)) -> (padChar enc <> NoPadding -> P (padChar enc mod 256)) ->
  Forall P (Encode enc src).
Proof.
  intros Hc Hp. assert (forall vs, Forall group64 vs -> Forall P (map (char_of enc) vs)) as Hm.
  { intros vs Hvs. induction Hvs; constructor; auto. }
  assert (forall k, Forall P (pads enc k)) as Hk.
  { intros k. unfold pads. destruct (Z.eqb_spec (padChar enc) NoPadding); [constructor|]. by apply Forall_replicate, Hp. }
  induction src as [src IH] using (induction_ltof1 _ length). unfold ltof in IH.
  destruct src as [|b0 [|b1 [|b2 src]]]; cbn [Encode]; [constructor|..];
    (apply Forall_app; split; [apply Hm, groups_ok|try apply Hk]).
  apply IH. cbn [length]. lia.
Qed.

Lemma Encode_longer enc src : src <> [] -> (length src < length (Encode enc src))%nat.
Proof.
  induction src as [src IH] using (induction_ltof1 _ length). unfold ltof in IH. intros Hne.
  destruct src as [|b0 [|b1 [|b2 src]]]; cbn [Encode]; rewrite ?length_app, ?length_map; cbn [length map]; [done|lia|lia|].
  destruct src as [|b3 src]; [simpl; lia|]. specialize (IH (b3 :: src) ltac:(cbn [length]; lia) ltac:(done)). cbn [length] in *. lia.
Qed.

Lemma Decode_Encode64 dec enc src :
  reads dec enc = true -> bytes_ok src -> DecodeString dec (EncodeToString enc src) = Some src.
Proof.
  intros Hr Hb. unfold DecodeString, EncodeToString. rewrite strip_id.
  - destruct src as [|b src]; [done|]. apply decode_Encode64; [done..|]. by apply Encode_longer.
  - destruct (reads_pad64 dec enc Hr) as (_ & _ & Hp). apply Encode_chars64.
    + intros v Hv. destruct (reads_group64 dec enc Hr v Hv) as (_ & ? & ? & _). done.
    + intros Hn. destruct (Hp Hn) as (Hby & ? & ?). rewrite Z.mod_small by (unfold is_byte in Hby; lia). done.
Qed.

Lemma std_reads64 : reads Std Std = true /\ reads URL URL = true /\ reads RawStd RawStd = true /\ reads RawURL RawURL = true.
Proof. by vm_compute. Qed.
Lemma decode_bytes64 enc fuel src b : decode enc fuel src = Some b -> bytes_ok b.
Proof.
  assert (forall dbuf, bytes_ok (pack dbuf)) as Hp.
  { intros dbuf. unfold pack. cbv zeta. apply Forall_take. repeat constructor; apply u8_byte. }
  revert src b. induction fuel as [|fuel IH]; intros [|c src] b; cbn [decode]; try done; try (intros [= <-]; constructor).
  destruct (quantum enc 4 (c :: src) []) as [[[dbuf [|]] rest]|]; [intros E%(inj Some); subst b; apply Hp| |done].
  destruct (decode enc fuel rest) as [out|] eqn:E; [|done]. intros E'%(inj Some). subst b. apply Forall_app. split; [apply Hp|by eapply IH].
Qed.

Lemma DecodeString_bytes64 enc s b : DecodeString enc s = Some b -> bytes_ok b.
Proof. apply decode_bytes64. Qed.
End Base64.
