(* ===== verification/Base36.v ===== *)
(** * Base36 (src/multiformats/base36/base36.go)

    A byte string as a number in base 36, leading zero bytes as leading zeros.  The
    code works in fixed buffers whose sizes come from integer approximations of
    log 256 / log 36; an index outside a buffer is a panic ([None] of the outer
    option).  The theorems show that the buffers suffice and that decoding undoes
    encoding. *)

From stdpp Require Import base list numbers strings.
From Stdlib Require Import ZArith Lia.
From S2P Require Import Prelude GoText Base32.

(** ** Digits *)

Definition value (b : Z) (l : list Z) : Z := fold_left (fun a d => a * b + d) l 0.
Definition digits_ok (b : Z) (l : list Z) : Prop := Forall (fun d => 0 <= d < b) l.

Lemma value_acc b l a : fold_left (fun a d => a * b + d) l a = a * b ^ Z.of_nat (length l) + value b l.
Proof.
  unfold value. revert a. induction l as [|d l IH]; intros a; [cbn; lia|]. cbn [fold_left length].
  rewrite IH, (IH (0 * b + d)). rewrite Nat2Z.inj_succ, Z.pow_succ_r by lia. ring.
Qed.

Lemma value_app b l l' : value b (l ++ l') = value b l * b ^ Z.of_nat (length l') + value b l'.
Proof. unfold value at 1. rewrite fold_left_app. apply value_acc. Qed.
Lemma value_cons b d l : value b (d :: l) = d * b ^ Z.of_nat (length l) + value b l.
Proof. exact (value_acc b l (0 * b + d)). Qed.
Lemma value_snoc b l d : value b (l ++ [d]) = value b l * b + d.
Proof. rewrite value_app. cbn. lia. Qed.

Lemma value_bound b l : 0 < b -> digits_ok b l -> 0 <= value b l < b ^ Z.of_nat (length l).
Proof.
  intros Hb. induction 1 as [|d l Hd _ IH]; [done|]. rewrite value_cons. cbn [length].
  rewrite Nat2Z.inj_succ, Z.pow_succ_r by lia. nia.
Qed.

Lemma value_zeros b n : value b (replicate n 0) = 0.
Proof. induction n as [|n IH]; [done|]. cbn [replicate]. rewrite value_cons, IH. lia. Qed.

Lemma value_inj b l l' :
  0 < b -> digits_ok b l -> digits_ok b l' -> length l = length l' -> value b l = value b l' -> l = l'.
Proof.
  intros Hb Hl. revert l'. induction Hl as [|d l Hd Hl IH]; intros [|d' l'] Hl' Hlen Hv; try done.
  apply Forall_cons_1 in Hl' as [Hd' Hl']. injection Hlen as Hlen. rewrite !value_cons, <- Hlen in Hv.
  pose proof (value_bound b l Hb Hl) as H1. pose proof (value_bound b l' Hb Hl') as H2. rewrite <- Hlen in H2.
  assert (d = d') as -> by nia. f_equal. apply IH; [done..|lia].
Qed.

(** No leading zero. *)
Definition minimal (l : list Z) : Prop := match l with [] => True | d :: _ => d <> 0 end.

Lemma minimal_value b d l : 0 < b -> digits_ok b (d :: l) -> d <> 0 -> b ^ Z.of_nat (length l) <= value b (d :: l).
Proof.
  intros Hb Hl Hd. apply Forall_cons_1 in Hl as [Hd' Hl]. rewrite value_cons.
  pose proof (value_bound b l Hb Hl). nia.
Qed.

Lemma minimal_inj b l l' :
  1 < b -> digits_ok b l -> digits_ok b l' -> minimal l -> minimal l' -> value b l = value b l' -> l = l'.
Proof.
  intros Hb Hl Hl' Hm Hm' Hv. apply (value_inj b); [lia|done..| |done].
  pose proof (value_bound b l ltac:(lia) Hl) as H1. pose proof (value_bound b l' ltac:(lia) Hl') as H2.
  assert (forall n m, (n <= m)%nat -> b ^ Z.of_nat n <= b ^ Z.of_nat m) as Hmono by (intros; apply Z.pow_le_mono_r; lia).
  destruct l as [|d l], l' as [|d' l']; cbn [length minimal] in *; [done|..].
  - pose proof (minimal_value b d' l' ltac:(lia) Hl' Hm'). pose proof (Hmono 0%nat (length l') ltac:(lia)). cbn in *. lia.
  - pose proof (minimal_value b d l ltac:(lia) Hl Hm). pose proof (Hmono 0%nat (length l) ltac:(lia)). cbn in *. lia.
  - pose proof (minimal_value b d l ltac:(lia) Hl Hm). pose proof (minimal_value b d' l' ltac:(lia) Hl' Hm').
    destruct (Nat.lt_trichotomy (length l) (length l')) as [?|[?|?]]; [|lia|].
    + pose proof (Hmono (S (length l)) (length l') ltac:(lia)). lia.
    + pose proof (Hmono (S (length l')) (length l) ltac:(lia)). lia.
Qed.

(** The leading zeros of a list and the rest. *)
Fixpoint leading (z : Z) (l : list Z) : nat :=
  match l with d :: l => if d =? z then S (leading z l) else O | [] => O end.

Lemma leading_spec z l :
  l = replicate (leading z l) z ++ drop (leading z l) l /\ (leading z l <= length l)%nat /\
  match drop (leading z l) l with d :: _ => d <> z | [] => True end.
Proof.
  induction l as [|d l IH]; [done|]. cbn [leading]. destruct (Z.eqb_spec d z) as [->|Hne].
  - destruct IH as (H1 & H2 & H3). cbn [replicate drop length app]. split_and!; [by f_equal|lia|done].
  - by split_and!; [|cbn; lia|].
Qed.

Lemma leading_app z n l : minimal (map (fun d => d - z) l) -> leading z (replicate n z ++ l) = n.
Proof.
  intros Hm. induction n as [|n IH]; cbn [replicate app leading]; [|by rewrite Z.eqb_refl, IH].
  destruct l as [|d l]; [done|]. cbn in *. by replace (d =? z) with false by zbool.
Qed.

(** ** The code *)

Definition UcAlphabet : list Z := str "0123456789ABCDEFGHIJKLMNOPQRSTUVWXYZ".
Definition LcAlphabet : list Z := str "0123456789abcdefghijklmnopqrstuvwxyz".
Definition maxDigitOrdinal : Z := 122.
Definition maxDigitValueB36 : Z := 35.
Definition revAlphabet : list Z :=
  fill (fun c => if c >? 57 then [c; c + 32] else [c]) 0 UcAlphabet (replicate 123 (maxDigitValueB36 + 1)).

Definition u32 (x : Z) : Z := x mod 2 ^ 32.

(** The inner loop: multiplies the number in [out] by 256 and adds [carry].  The fuel
    is the length of the buffer and one more. *)
Fixpoint mul_add (fuel : nat) (out : list Z) (idx stopIdx carry : Z) : option (list Z * Z) :=
  match fuel with
  | O => None
  | S fuel =>
      if (idx >? stopIdx) || negb (carry =? 0) then
        if idx <? 0 then None
        else match out !! Z.to_nat idx with
             | None => None
             | Some o =>
                 let carry := u32 (carry + u32 (o * 256)) in
                 mul_add fuel (<[Z.to_nat idx := carry mod 36]> out) (idx - 1) stopIdx (carry / 36)
             end
      else Some (out, idx)
  end.

(** The outer loop over the bytes. *)
Fixpoint encode_loop (inBuf : list Z) (out : list Z) (stopIdx : Z) : option (list Z) :=
  match inBuf with
  | [] => Some out
  | b :: inBuf =>
      match mul_add (S (length out)) out (Z.of_nat (length out) - 1) stopIdx b with
      | Some (out, idx) => encode_loop inBuf out idx
      | None => None
      end
  end.

Definition encode (inBuf al : list Z) : option (list Z) :=
  let zcnt := leading 0 inBuf in
  let rest := drop zcnt inBuf in
  let bufsz := (zcnt + (length inBuf - zcnt) * 277 / 179 + 1)%nat in
  match encode_loop rest (replicate bufsz 0) (Z.of_nat bufsz - 1) with
  | None => None
  | Some out =>
      let stopIdx := (zcnt + leading 0 (drop zcnt out))%nat in
      Some (map (fun v => nth (Z.to_nat v) al 0) (drop (stopIdx - zcnt) out))
  end.
Definition EncodeToStringUc (b : list Z) : option (list Z) := encode b UcAlphabet.
Definition EncodeToStringLc (b : list Z) : option (list Z) := encode b LcAlphabet.

(** Multiplies the words by 36 and adds [c]; the carry out of the first is dropped. *)
Fixpoint mul36 (outi : list Z) (c : Z) : list Z * Z :=
  match outi with
  | [] => ([], c)
  | w :: ws =>
      let '(ws, c) := mul36 ws c in
      let t := w * 36 + c in
      (Z.land t (2 ^ 32 - 1) :: ws, Z.shiftr t 32)
  end.

Fixpoint decode_loop (s : list Z) (outi : list Z) : option (list Z) :=
  match s with
  | [] => Some outi
  | r :: s =>
      if r >? maxDigitOrdinal then None
      else
        let v := nth (Z.to_nat r) revAlphabet 255 in
        if v >? maxDigitValueB36 then None else decode_loop s (mul36 outi v).1
  end.

(** The low [n] bytes of a word, most significant first. *)
Fixpoint word_bytes (n : nat) (w : Z) : list Z :=
  match n with
  | O => []
  | S n => u8 (Z.shiftr w (8 * Z.of_nat n)) :: word_bytes n w
  end.

(** The bytes of all words: [len mod 4] of the first (or four), four of the others. *)
Definition words_bytes (len : nat) (outi : list Z) : list Z :=
  match outi with
  | [] => []
  | w :: ws => word_bytes (if (len mod 4 =? 0)%nat then 4 else len mod 4) w ++ concat (map (word_bytes 4) ws)
  end.

(** [Err] is an error of the code, [None] a panic. *)
Definition DecodeString (s : list Z) : option (option (list Z)) :=
  if (length s =? 0)%nat then Some None
  else
    let zcnt := leading 48 s in
    let binu := (2 * (length s * 179 / 277 + 1))%nat in
    match decode_loop s (replicate ((length s + 3) / 4) 0) with
    | None => Some None
    | Some outi =>
        let bytes := words_bytes (length s) outi in
        if (binu <? length bytes)%nat then None
        else
          let msb := (zcnt + leading 0 (drop zcnt bytes))%nat in
          Some (Some (if (msb <? length bytes)%nat then drop (msb - zcnt) bytes else bytes))
    end.

(** ** Encoding *)

Definition zeros_upto (stop : Z) (l : list Z) : Prop := forall i d, l !! i = Some d -> Z.of_nat i <= stop -> d = 0.

Lemma zeros_value b stop l : zeros_upto stop l -> Z.of_nat (length l) - 1 <= stop -> value b l = 0.
Proof.
  intros Hz Hs. replace l with (replicate (length l) 0); [apply value_zeros|]. apply replicate_as_Forall_2; [done|].
  apply Forall_lookup. intros i d Hd. symmetry. apply (Hz i d Hd). apply lookup_lt_Some in Hd. lia.
Qed.

Lemma carry_step o c : 0 <= o < 36 -> 0 <= c < 256 ->
  u32 (c + u32 (o * 256)) = c + o * 256 /\ 0 <= (c + o * 256) / 36 < 256.
Proof.
  intros Ho Hc. unfold u32. rewrite (Z.mod_small (o * 256)), Z.mod_small by lia. split; [done|dlia].
Qed.

Lemma mul_add_spec l : forall dn fuel stop carry,
  digits_ok 36 l -> 0 <= carry < 256 -> -1 <= stop -> zeros_upto stop l -> (length l < fuel)%nat ->
  value 36 l * 256 + carry < 36 ^ Z.of_nat (length l) ->
  exists l' idx, mul_add fuel (l ++ dn) (Z.of_nat (length l) - 1) stop carry = Some (l' ++ dn, idx) /\
    length l' = length l /\ digits_ok 36 l' /\ value 36 l' = value 36 l * 256 + carry /\ -1 <= idx /\ zeros_upto idx l'
    /\ idx < Z.of_nat (length l).
Proof.
  induction l as [|o l IH] using rev_ind; intros dn fuel stop carry Hl Hc Hs Hz Hf Hv; (destruct fuel as [|fuel]; [lia|]).
  - cbn in Hv. assert (carry = 0) as -> by lia. exists [], (-1). cbn [mul_add length].
    replace (Z.of_nat 0 - 1 >? stop) with false by zbool. cbn. split_and!; try done; try lia.
  - apply Forall_app in Hl as [Hl [Ho _]%Forall_cons_1]. rewrite length_app in *. cbn [length] in *.
    replace (Z.of_nat (length l + 1) - 1) with (Z.of_nat (length l)) by lia. cbn [mul_add].
    destruct ((Z.of_nat (length l) >? stop) || negb (carry =? 0)) eqn:Econd.
    + replace (Z.of_nat (length l) <? 0) with false by zbool.
      rewrite Nat2Z.id, <- app_assoc, lookup_app_r, Nat.sub_diag by lia. cbn [app lookup list_lookup].
      destruct (carry_step o carry Ho Hc) as [-> Hc']. rewrite insert_app_r_alt, Nat.sub_diag by lia. cbn [insert list_insert].
      rewrite value_snoc in Hv. rewrite Nat2Z.inj_add, Z.pow_add_r in Hv by lia. change (36 ^ Z.of_nat 1) with 36 in Hv.
      destruct (IH ((carry + o * 256) mod 36 :: dn) fuel stop ((carry + o * 256) / 36)) as (l' & idx & E & Hlen & Hd & Hval & Hi & Hzi & Hlt);
        [done..| | | |].
      * intros i d Hi. apply Hz. by rewrite lookup_app_l by (by eapply lookup_lt_Some).
      * lia.
      * apply (Z.mul_lt_mono_pos_r 36); [lia|]. pose proof (Z.div_mod (carry + o * 256) 36). pose proof (Z.mod_pos_bound (carry + o * 256) 36). lia.
      * exists (l' ++ [(carry + o * 256) mod 36]), idx. rewrite E, <- app_assoc. cbn [app]. split_and!; try done.
        -- rewrite length_app. cbn. lia.
        -- apply Forall_app. split; [done|]. apply Forall_singleton. apply Z.mod_pos_bound. lia.
        -- rewrite !value_snoc, Hval. pose proof (Z.div_mod (carry + o * 256) 36). lia.
        -- intros i d Hid Hle. apply (Hzi i d); [|done]. rewrite lookup_app_l in Hid by lia. done.
        -- lia.
    + apply orb_false_iff in Econd as [E1 E2]. apply negb_false_iff, Z.eqb_eq in E2. subst carry.
      assert (Z.of_nat (length l) <= stop) as Hle by (destruct (Z.gtb_spec (Z.of_nat (length l)) stop); [done|lia]).
      exists (l ++ [o]), (Z.of_nat (length l)). rewrite length_app. cbn [length].
      assert (value 36 (l ++ [o]) = 0) as Hv0 by (apply (zeros_value _ stop); [done|rewrite length_app; cbn; lia]).
      rewrite Hv0. split_and!; try done; try lia.
      * apply Forall_app. split; [done|by apply Forall_singleton].
      * intros i d Hid Hile. apply (Hz i d Hid). lia.
Qed.

Lemma encode_loop_spec bs : forall out stop,
  bytes_ok bs -> digits_ok 36 out -> -1 <= stop -> zeros_upto stop out ->
  value 36 out * 256 ^ Z.of_nat (length bs) + value 256 bs < 36 ^ Z.of_nat (length out) ->
  exists out', encode_loop bs out stop = Some out' /\ length out' = length out /\ digits_ok 36 out' /\
    value 36 out' = value 36 out * 256 ^ Z.of_nat (length bs) + value 256 bs.
Proof.
  induction bs as [|b bs IH]; intros out stop Hb Ho Hs Hz Hv.
  - exists out. cbn in *. split_and!; [done..|]. lia.
  - apply Forall_cons_1 in Hb as [Hb Hbs]. cbn [encode_loop]. cbn [length] in Hv. rewrite value_cons in Hv.
    rewrite Nat2Z.inj_succ, Z.pow_succ_r in Hv by lia.
    pose proof (value_bound 256 bs ltac:(lia) Hbs) as Hbv. pose proof (value_bound 36 out ltac:(lia) Ho) as Hov.
    assert (0 < 256 ^ Z.of_nat (length bs)) as Hp by (apply Z.pow_pos_nonneg; lia).
    destruct (mul_add_spec out [] (S (length out)) stop b) as (out1 & idx & E & Hlen & Hd & Hval & Hi & Hzi & _); [done..|lia| |].
    { unfold is_byte in Hb. nia. }
    rewrite !app_nil_r in E. rewrite E. destruct (IH out1 idx) as (out' & E' & Hlen' & Hd' & Hval'); [done..| |].
    { rewrite Hval, Hlen. nia. }
    exists out'. rewrite E', Hval', Hval, value_cons. split_and!; [done|lia|done|]. cbn [length].
    rewrite Nat2Z.inj_succ, Z.pow_succ_r by lia. ring.
Qed.

(** The sizes: [n] bytes fit in [n * 277 / 179 + 1] digits. *)
Lemma digits_suffice n : 256 ^ Z.of_nat n <= 36 ^ (Z.of_nat (n * 277 / 179 + 1)).
Proof.
  set (q := Z.of_nat (n * 277 / 179 + 1)). set (m := Z.of_nat n).
  assert (277 * m < 179 * q) as Hq.
  { subst q m. pose proof (Nat.div_mod_eq (n * 277) 179). pose proof (Nat.mod_upper_bound (n * 277) 179). lia. }
  apply Z.lt_le_incl, (Z.pow_lt_mono_l_iff _ _ 179); [apply Z.pow_nonneg; lia|apply Z.pow_nonneg; lia|lia|].
  rewrite <- !Z.pow_mul_r by lia. apply (Z.le_lt_trans _ (36 ^ (277 * m))); [|apply Z.pow_lt_mono_r; lia].
  rewrite (Z.mul_comm m), !Z.pow_mul_r by lia. apply Z.pow_le_mono_l. split; [by apply Z.pow_nonneg|]. by vm_compute.
Qed.

(** A small number has leading zeros. *)
Lemma small_zeros b l k :
  1 < b -> digits_ok b l -> (k <= length l)%nat -> value b l < b ^ Z.of_nat (length l - k) -> take k l = replicate k 0.
Proof.
  intros Hb. revert l. induction k as [|k IH]; intros l Hl Hk Hv; [done|]. destruct l as [|d l]; [cbn in Hk; lia|].
  pose proof Hl as Hall. apply Forall_cons_1 in Hl as [Hd Hl]. cbn [take replicate length Nat.sub] in *.
  assert (d = 0) as ->.
  { destruct (Z.eq_dec d 0) as [|Hne]; [done|]. pose proof (minimal_value b d l ltac:(lia) Hall Hne).
    assert (b ^ Z.of_nat (length l - k) <= b ^ Z.of_nat (length l)) by (apply Z.pow_le_mono_r; lia). lia. }
  f_equal. apply IH; [done|lia|]. rewrite value_cons in Hv. lia.
Qed.

Definition to_chars (al : list Z) (l : list Z) : list Z := map (fun v => nth (Z.to_nat v) al 0) l.

(** The text of a byte string: its leading zeros, then the digits of its value. *)
Lemma encode_spec inBuf al :
  bytes_ok inBuf -> exists D,
  encode inBuf al = Some (to_chars al (replicate (leading 0 inBuf) 0 ++ D)) /\
  digits_ok 36 D /\ minimal D /\ value 36 D = value 256 (drop (leading 0 inBuf) inBuf).
Proof.
  intros Hb. unfold encode. set (z := leading 0 inBuf). set (rest := drop z inBuf).
  destruct (leading_spec 0 inBuf) as (_ & Hz & _). fold z in Hz.
  set (bufsz := (z + (length inBuf - z) * 277 / 179 + 1)%nat).
  assert (bytes_ok rest) as Hr by by apply Forall_drop.
  assert (value 256 rest < 36 ^ Z.of_nat (bufsz - z)) as Hsmall.
  { pose proof (value_bound 256 rest ltac:(lia) Hr) as Hv. pose proof (digits_suffice (length inBuf - z)) as Hd.
    assert (length rest = length inBuf - z)%nat as Hrl by apply length_drop. rewrite Hrl in Hv. replace (bufsz - z)%nat with ((length inBuf - z) * 277 / 179 + 1)%nat by lia. lia. }
  assert (36 ^ Z.of_nat (bufsz - z) <= 36 ^ Z.of_nat bufsz) as Hmono by (apply Z.pow_le_mono_r; lia).
  destruct (encode_loop_spec rest (replicate bufsz 0) (Z.of_nat bufsz - 1)) as (out & E & Hlen & Hd & Hv);
    [done|apply Forall_replicate; lia|lia|intros i d Hi _; by apply lookup_replicate_1 in Hi as [-> _]| |].
  { rewrite value_zeros, length_replicate. lia. }
  rewrite E. rewrite value_zeros, Z.mul_0_l, Z.add_0_l in Hv. rewrite length_replicate in Hlen.
  assert (out = replicate z 0 ++ drop z out) as Hout.
  { rewrite <- (take_drop z out) at 1. f_equal. apply (small_zeros 36); [lia|done|lia|]. rewrite Hlen, Hv. done. }
  set (D0 := drop z out) in *. destruct (leading_spec 0 D0) as (HD & Hj & Hmin). set (j := leading 0 D0) in *.
  assert (digits_ok 36 D0) as HD0 by by apply Forall_drop.
  exists (drop j D0). split_and!.
  - f_equal. unfold to_chars. f_equal. replace (z + j - z)%nat with j by lia. rewrite Hout, HD at 1.
    rewrite app_assoc, <- replicate_add, Nat.add_comm, replicate_add, <- app_assoc. by rewrite drop_app_length' by by rewrite length_replicate.
  - by apply Forall_drop.
  - done.
  - assert (value 36 D0 = value 36 (drop j D0)) as <- by (rewrite HD at 1; by rewrite value_app, value_zeros).
    rewrite <- Hv, Hout, value_app, value_zeros. done.
Qed.

(** ** Decoding *)

Lemma mul36_spec ws c :
  digits_ok (2 ^ 32) ws -> 0 <= c < 36 ->
  let '(ws', c') := mul36 ws c in
  digits_ok (2 ^ 32) ws' /\ length ws' = length ws /\ 0 <= c' < 36 /\
  c' * (2 ^ 32) ^ Z.of_nat (length ws) + value (2 ^ 32) ws' = value (2 ^ 32) ws * 36 + c.
Proof.
  intros Hw Hc. induction Hw as [|w ws Hw _ IH]; cbn [mul36].
  - split_and!; [constructor|done|lia|lia|cbn; lia].
  - destruct (mul36 ws c) as [ws' c']. destruct IH as (Hd & Hlen & Hc' & Hv).
    change (2 ^ 32 - 1) with (Z.ones 32). rewrite Z.land_ones, Z.shiftr_div_pow2 by lia. set (t := w * 36 + c').
    assert (0 <= t / 2 ^ 32 < 36) as Ht by (subst t; split; [apply Z.div_pos; lia|apply Z.div_lt_upper_bound; lia]).
    split_and!; [constructor; [apply Z.mod_pos_bound; lia|done]|cbn; lia|lia|lia|].
    cbn [length]. rewrite !value_cons, Hlen, Nat2Z.inj_succ, Z.pow_succ_r by lia.
    pose proof (Z.div_mod t (2 ^ 32) ltac:(lia)) as Hdm. set (P := (2 ^ 32) ^ Z.of_nat (length ws)) in *.
    replace (t / 2 ^ 32 * (2 ^ 32 * P) + (t mod 2 ^ 32 * P + value (2 ^ 32) ws')) with ((2 ^ 32 * (t / 2 ^ 32) + t mod 2 ^ 32) * P + value (2 ^ 32) ws') by ring.
    rewrite <- Hdm. subst t. replace ((w * P + value (2 ^ 32) ws) * 36 + c) with (w * 36 * P + (value (2 ^ 32) ws * 36 + c)) by ring.
    rewrite <- Hv. ring.
Qed.

(** The digit of a character. *)
Definition is_char36 (r d : Z) : Prop := r <= 122 /\ nth (Z.to_nat r) revAlphabet 255 = d /\ 0 <= d < 36.

Lemma decode_loop_spec s ds : forall ws,
  Forall2 is_char36 s ds -> digits_ok (2 ^ 32) ws ->
  value (2 ^ 32) ws * 36 ^ Z.of_nat (length ds) + value 36 ds < (2 ^ 32) ^ Z.of_nat (length ws) ->
  exists ws', decode_loop s ws = Some ws' /\ digits_ok (2 ^ 32) ws' /\ length ws' = length ws /\
    value (2 ^ 32) ws' = value (2 ^ 32) ws * 36 ^ Z.of_nat (length ds) + value 36 ds.
Proof.
  intros ws Hs. revert ws. induction Hs as [|r d s ds (Hr & Hd & Hd36) Hs IH]; intros ws Hw Hv.
  - exists ws. cbn. split_and!; [done..|]. lia.
  - cbn [decode_loop]. unfold maxDigitOrdinal, maxDigitValueB36. replace (r >? 122) with false by zbool. rewrite Hd.
    replace (d >? 35) with false by zbool. pose proof (mul36_spec ws d Hw Hd36) as Hm.
    destruct (mul36 ws d) as [ws1 c1]. destruct Hm as (Hd1 & Hlen1 & Hc1 & Hv1). cbn [fst].
    cbn [length] in Hv. rewrite value_cons, Nat2Z.inj_succ, Z.pow_succ_r in Hv by lia.
    assert (digits_ok 36 ds) as Hds.
    { clear -Hs. induction Hs as [|? ? ? ? (_ & _ & ?)]; constructor; auto. }
    pose proof (value_bound 36 ds ltac:(lia) Hds). pose proof (value_bound (2 ^ 32) ws1 ltac:(lia) Hd1).
    pose proof (value_bound (2 ^ 32) ws ltac:(lia) Hw).
    assert (0 < 36 ^ Z.of_nat (length ds)) by (apply Z.pow_pos_nonneg; lia).
    assert (0 < (2 ^ 32) ^ Z.of_nat (length ws)) by (apply Z.pow_pos_nonneg; lia).
    assert (c1 = 0) as -> by nia. rewrite Z.mul_0_l, Z.add_0_l in Hv1.
    destruct (IH ws1) as (ws' & E & Hd' & Hlen' & Hv'); [done|rewrite Hv1, Hlen1; nia|].
    exists ws'. split_and!; [done..|lia|]. rewrite Hv', Hv1, value_cons. cbn [length]. rewrite Nat2Z.inj_succ, Z.pow_succ_r by lia. ring.
Qed.

Lemma word_bytes_spec n w :
  0 <= w < 256 ^ Z.of_nat n -> bytes_ok (word_bytes n w) /\ length (word_bytes n w) = n /\ value 256 (word_bytes n w) = w.
Proof.
  assert (forall n w, 0 <= w -> bytes_ok (word_bytes n w) /\ length (word_bytes n w) = n /\
    value 256 (word_bytes n w) = w mod 256 ^ Z.of_nat n) as H.
  { clear. intros n w Hw. induction n as [|n (Hb & Hl & Hv)]; [cbn; split_and!; [constructor|done|by rewrite Z.mod_1_r]|].
    cbn [word_bytes length]. rewrite value_cons, Hl, Hv. split_and!; [constructor; [apply u8_byte|done]|done|].
    unfold u8. change 255 with (Z.ones 8). rewrite Z.land_ones, Z.shiftr_div_pow2 by lia.
    rewrite Nat2Z.inj_succ, Z.pow_succ_r by lia. replace (2 ^ (8 * Z.of_nat n)) with (256 ^ Z.of_nat n) by (rewrite Z.pow_mul_r; done || lia).
    change (2 ^ 8) with 256. rewrite (Z.mul_comm 256), Z.rem_mul_r by (try apply Z.pow_nonzero; try apply Z.pow_pos_nonneg; lia). lia. }
  intros Hw. destruct (H n w ltac:(lia)) as (H1 & H2 & H3). rewrite Z.mod_small in H3 by lia. done.
Qed.

Lemma concat_words ws :
  digits_ok (2 ^ 32) ws -> bytes_ok (concat (map (word_bytes 4) ws)) /\ length (concat (map (word_bytes 4) ws)) = (4 * length ws)%nat /\
  value 256 (concat (map (word_bytes 4) ws)) = value (2 ^ 32) ws.
Proof.
  induction 1 as [|w ws Hw _ (Hb & Hl & Hv)]; [split_and!; [constructor|done..]|]. cbn [map concat].
  destruct (word_bytes_spec 4 w Hw) as (H1 & H2 & H3). rewrite length_app, H2, Hl, value_app, value_cons, H3, Hv, Hl. cbn [length].
  split_and!; [by apply Forall_app|lia|]. do 2 f_equal. rewrite Nat2Z.inj_mul, Z.pow_mul_r by lia. done.
Qed.

Lemma words_bytes_spec len ws :
  (0 < len)%nat -> length ws = ((len + 3) / 4)%nat -> digits_ok (2 ^ 32) ws -> value (2 ^ 32) ws < 256 ^ Z.of_nat len ->
  bytes_ok (words_bytes len ws) /\ length (words_bytes len ws) = len /\ value 256 (words_bytes len ws) = value (2 ^ 32) ws.
Proof.
  intros Hpos Hlen Hw Hv. destruct ws as [|w ws].
  { exfalso. assert (0 < (len + 3) / 4)%nat by (apply Nat.div_str_pos; lia). cbn [length] in Hlen. lia. }
  pose proof Hw as Hall. apply Forall_cons_1 in Hw as [Hw Hws]. destruct (concat_words ws Hws) as (Hb & Hl & Hcv).
  unfold words_bytes. set (k := if (len mod 4 =? 0)%nat then 4%nat else (len mod 4)%nat).
  assert (len = k + 4 * length ws)%nat as Hk.
  { cbn [length] in Hlen. subst k. pose proof (Nat.div_mod_eq len 4). pose proof (Nat.mod_upper_bound len 4).
    pose proof (Nat.div_mod_eq (len + 3) 4). pose proof (Nat.mod_upper_bound (len + 3) 4).
    destruct (Nat.eqb_spec (len mod 4) 0); lia. }
  assert (0 <= w < 256 ^ Z.of_nat k) as Hwk.
  { split; [lia|]. rewrite value_cons in Hv. pose proof (value_bound (2 ^ 32) ws ltac:(lia) Hws).
    rewrite Hk, Nat2Z.inj_add, Z.pow_add_r, Nat2Z.inj_mul, Z.pow_mul_r in Hv by lia. change (256 ^ Z.of_nat 4) with (2 ^ 32) in Hv.
    assert (0 < (2 ^ 32) ^ Z.of_nat (length ws)) by (apply Z.pow_pos_nonneg; lia). nia. }
  destruct (word_bytes_spec k w Hwk) as (H1 & H2 & H3).
  rewrite length_app, value_app, H2, H3, Hl, Hcv, value_cons. split_and!; [by apply Forall_app|lia|].
  do 2 f_equal. rewrite Nat2Z.inj_mul, Z.pow_mul_r by lia. done.
Qed.

Lemma char36_zero r d : is_char36 r d -> (r =? 48) = (d =? 0).
Proof.
  intros (Hr & Hd & Hd36). destruct (Z.lt_ge_cases r 0) as [?|?].
  { exfalso. replace (Z.to_nat r) with O in Hd by lia. vm_compute in Hd. lia. }
  pose proof (forall_below 123 (fun r => Bool.eqb (r =? 48) (nth (Z.to_nat r) revAlphabet 255 =? 0)) ltac:(by vm_compute) r ltac:(lia)) as Heq.
  apply eqb_prop in Heq. by rewrite Heq, Hd.
Qed.

Lemma leading_chars s ds : Forall2 is_char36 s ds -> leading 48 s = leading 0 ds.
Proof. induction 1 as [|r d s ds Hr _ IH]; [done|]. cbn [leading]. by rewrite (char36_zero r d Hr), IH. Qed.

Lemma chars_digits s ds : Forall2 is_char36 s ds -> digits_ok 36 ds.
Proof. induction 1 as [|? ? ? ? (_ & _ & ?)]; constructor; auto. Qed.

Lemma zero_value b l : 1 < b -> digits_ok b l -> value b l = 0 -> leading 0 l = length l.
Proof.
  intros Hb. induction 1 as [|d l Hd Hl IH]; [done|]. rewrite value_cons. intros Hv.
  pose proof (value_bound b l ltac:(lia) Hl). assert (0 < b ^ Z.of_nat (length l)) by (apply Z.pow_pos_nonneg; lia).
  assert (d = 0) as -> by nia. cbn [leading length]. rewrite Z.eqb_refl, IH; [done|lia].
Qed.

Lemma leading_le s ds : Forall2 is_char36 s ds -> value 36 ds < 36 ^ Z.of_nat (length ds - leading 0 ds).
Proof.
  intros Hs. pose proof (chars_digits s ds Hs) as Hd. destruct (leading_spec 0 ds) as (E & _ & _).
  rewrite E at 1. rewrite value_app, value_zeros, Z.mul_0_l, Z.add_0_l, <- length_drop.
  apply value_bound; [lia|]. by apply Forall_drop.
Qed.

Lemma DecodeString_spec s ds :
  s <> [] -> Forall2 is_char36 s ds -> exists B,
  DecodeString s = Some (Some (replicate (leading 0 ds) 0 ++ B)) /\ bytes_ok B /\ minimal B /\ value 256 B = value 36 ds.
Proof.
  intros Hne Hs. pose proof (chars_digits s ds Hs) as Hd. pose proof (Forall2_length _ _ _ Hs) as Hlen.
  assert (0 < length s)%nat as Hpos by (destruct s; [done|cbn; lia]).
  pose proof (leading_le s ds Hs) as Hsmall. destruct (leading_spec 0 ds) as (_ & Hzle & _). set (z := leading 0 ds) in *.
  assert (forall n, 36 ^ Z.of_nat n <= 256 ^ Z.of_nat n) as H36 by (intros n; apply Z.pow_le_mono_l; lia).
  assert (value 36 ds < 256 ^ Z.of_nat (length s)) as H256.
  { pose proof (value_bound 36 ds ltac:(lia) Hd) as Hb. pose proof (H36 (length ds)). rewrite Hlen. lia. }
  assert (256 ^ Z.of_nat (length s) <= (2 ^ 32) ^ Z.of_nat ((length s + 3) / 4)) as Hwords.
  { change (2 ^ 32) with (256 ^ 4). rewrite <- Z.pow_mul_r by lia. apply Z.pow_le_mono_r; [lia|].
    pose proof (Nat.div_mod_eq (length s + 3) 4). pose proof (Nat.mod_upper_bound (length s + 3) 4). lia. }
  unfold DecodeString. replace (length s =? 0)%nat with false by (symmetry; apply Nat.eqb_neq; lia).
  rewrite (leading_chars s ds Hs). fold z.
  destruct (decode_loop_spec s ds (replicate ((length s + 3) / 4) 0)) as (ws & -> & Hw & Hwl & Hwv);
    [done|apply Forall_replicate; lia|rewrite value_zeros, length_replicate; lia|].
  rewrite value_zeros, Z.mul_0_l, Z.add_0_l in Hwv. rewrite length_replicate in Hwl.
  destruct (words_bytes_spec (length s) ws Hpos Hwl Hw ltac:(lia)) as (Hb & Hbl & Hbv). rewrite Hwv in Hbv.
  set (bytes := words_bytes (length s) ws) in *.
  replace (2 * (length s * 179 / 277 + 1) <? length bytes)%nat with false.
  2:{ symmetry. apply Nat.ltb_ge. rewrite Hbl. pose proof (Nat.div_mod_eq (length s * 179) 277). pose proof (Nat.mod_upper_bound (length s * 179) 277). lia. }
  assert (bytes = replicate z 0 ++ drop z bytes) as Hout.
  { rewrite <- (take_drop z bytes) at 1. f_equal. apply (small_zeros 256); [lia|done|lia|]. rewrite Hbl, Hbv, Hlen.
    pose proof (H36 (length ds - z)%nat). lia. }
  set (B0 := drop z bytes) in *. destruct (leading_spec 0 B0) as (HB & Hj & Hmin). set (j := leading 0 B0) in *.
  assert (value 256 B0 = value 256 (drop j B0)) as Hvj by (rewrite HB at 1; by rewrite value_app, value_zeros).
  assert (value 256 (drop j B0) = value 36 ds) as Hfin by (rewrite <- Hvj, <- Hbv, Hout, value_app, value_zeros; done).
  assert (length bytes = z + length B0)%nat as Hbl' by (rewrite Hout at 1; by rewrite length_app, length_replicate).
  exists (drop j B0). split_and!; [|by apply Forall_drop, Forall_drop|done|done].
  do 2 f_equal. destruct (Nat.ltb_spec (z + j) (length bytes)) as [Hlt|Hge].
  - replace (z + j - z)%nat with j by lia. rewrite Hout, HB at 1.
    rewrite app_assoc, <- replicate_add, Nat.add_comm, replicate_add, <- app_assoc. by rewrite drop_app_length' by by rewrite length_replicate.
  - assert (drop j B0 = []) as Hnil by (apply drop_ge; lia). rewrite Hnil in Hfin |- *.
    pose proof (zero_value 36 ds ltac:(lia) Hd (eq_sym Hfin)) as Hz. fold z in Hz.
    rewrite Hout. f_equal. apply nil_length_inv. lia.
Qed.

(** ** Round trip *)

(** An alphabet whose characters the decoder knows. *)
Definition alphabet_ok (al : list Z) : bool :=
  forallb (fun d => let r := nth (Z.to_nat d) al 0 in (r <=? 122) && (nth (Z.to_nat r) revAlphabet 255 =? d)) (seqZ 0 36).

Lemma to_chars_ok al l : alphabet_ok al = true -> digits_ok 36 l -> Forall2 is_char36 (to_chars al l) l.
Proof.
  intros Hal. induction 1 as [|d l Hd _ IH]; constructor; [|done].
  pose proof (forall_below 36 _ Hal d Hd) as H. cbv beta in H. apply andb_true_iff in H as [H1 H2].
  apply Z.leb_le in H1. apply Z.eqb_eq in H2. done.
Qed.

Lemma encode_inv b al :
  bytes_ok b -> b <> [] -> al = UcAlphabet \/ al = LcAlphabet ->
  exists s, encode b al = Some s /\ DecodeString s = Some (Some b).
Proof.
  intros Hb Hne Hal. assert (alphabet_ok al = true) as Hok by (destruct Hal as [-> | ->]; by vm_compute).
  destruct (encode_spec b al Hb) as (D & E & HD & Hm & Hv). set (z := leading 0 b) in *.
  assert (digits_ok 36 (replicate z 0 ++ D)) as Hds by (apply Forall_app; split; [apply Forall_replicate; lia|done]).
  assert (leading 0 (replicate z 0 ++ D) = z) as Hz.
  { apply leading_app. destruct D; [done|]. cbn in *. lia. }
  destruct (leading_spec 0 b) as (Eb & _ & Hbm). fold z in Eb, Hbm.
  assert (replicate z 0 ++ D <> []) as Hcn.
  { intros [Hz0 ->]%app_eq_nil. assert (z = 0%nat) as Hz' by by destruct z. rewrite Hz' in Hv. cbn [drop] in Hv.
    apply Hne, nil_length_inv. rewrite <- (zero_value 256 b); [exact Hz'|lia|done|]. symmetry. exact Hv. }
  exists (to_chars al (replicate z 0 ++ D)). split; [done|].
  destruct (DecodeString_spec (to_chars al (replicate z 0 ++ D)) (replicate z 0 ++ D)) as (B & E2 & HB & HBm & HBv).
  { intros Hn. apply Hcn. unfold to_chars in Hn. by apply map_eq_nil in Hn. }
  { by apply to_chars_ok. }
  rewrite E2, Hz. do 2 f_equal. rewrite Eb at 1. f_equal. rewrite value_app, value_zeros, Z.mul_0_l, Z.add_0_l, Hv in HBv.
  apply (minimal_inj 256); [lia|done|by apply Forall_drop|done|done|done].
Qed.

(** Base36 text, in either case, decodes to the bytes it was made from, leading zeros
    included, for any bytes but none; neither direction leaves its buffers. *)
Theorem base36_roundtrip b al :
  bytes_ok b -> b <> [] -> al = UcAlphabet \/ al = LcAlphabet ->
  exists s, encode b al = Some s /\ DecodeString s = Some (Some b).
Proof. apply encode_inv. Qed.

Lemma base36_roundtrip_witness : exists s, encode [0; 0; 104; 105] LcAlphabet = Some s /\ DecodeString s = Some (Some [0; 0; 104; 105]).
Proof. apply (base36_roundtrip [0; 0; 104; 105] LcAlphabet); [repeat constructor; by compute|discriminate|right; reflexivity]. Defined.

Lemma base36_examples :
  EncodeToStringLc [0; 0; 104; 105] = Some (str "00kmh") /\ DecodeString (str "00KMH") = Some (Some [0; 0; 104; 105]).
Proof. by vm_compute. Qed.

Lemma decode_loop_chars s ws out : bytes_ok s -> decode_loop s ws = Some out -> exists ds, Forall2 is_char36 s ds.
Proof.
  intros Hs. revert ws. induction Hs as [|r s Hr _ IH]; intros ws; cbn [decode_loop]; [by exists []|].
  unfold maxDigitOrdinal, maxDigitValueB36. destruct (Z.gtb_spec r 122) as [?|?]; [done|].
  destruct (Z.gtb_spec (nth (Z.to_nat r) revAlphabet 255) 35) as [?|Hv]; [done|]. intros [ds Hds]%IH.
  exists (nth (Z.to_nat r) revAlphabet 255 :: ds). constructor; [|done]. unfold is_byte in Hr. split_and!; [lia|done| |lia].
  pose proof (forall_below 123 (fun r => 0 <=? nth (Z.to_nat r) revAlphabet 255) ltac:(by vm_compute) r ltac:(lia)) as H1.
  by apply Z.leb_le in H1.
Qed.

(** Decoding never leaves its buffers. *)
Lemma DecodeString_total s : bytes_ok s -> is_Some (DecodeString s).
Proof.
  intros Hs. destruct s as [|r s]; [by eexists|]. unfold DecodeString at 1. cbn [length Nat.eqb].
  destruct (decode_loop (r :: s) (replicate ((length (r :: s) + 3) / 4) 0)) as [ws|] eqn:E; [|cbn [length] in E; rewrite E; by eexists].
  destruct (decode_loop_chars _ _ _ Hs E) as [ds Hds]. destruct (DecodeString_spec (r :: s) ds ltac:(done) Hds) as (B & HB & _).
  unfold DecodeString in HB. cbn [length Nat.eqb] in HB. rewrite HB. by eexists.
Qed.

Lemma word_bytes_ok n w : bytes_ok (word_bytes n w).
Proof. induction n as [|n IH]; cbn [word_bytes]; constructor; [apply u8_byte|done]. Qed.

Lemma DecodeString_bytes s b : DecodeString s = Some (Some b) -> bytes_ok b.
Proof.
  unfold DecodeString. case_bool; [done|]. destruct (decode_loop _ _) as [ws|]; [|done]. cbv zeta.
  assert (bytes_ok (words_bytes (length s) ws)) as Hw.
  { destruct ws as [|w ws]; [constructor|]. apply Forall_app. split; [apply word_bytes_ok|].
    induction ws as [|w' ws IH]; [constructor|]. apply Forall_app. split; [apply word_bytes_ok|done]. }
  case_bool; [done|]. intros E%(inj Some)%(inj Some). subst b. case_bool; [by apply Forall_drop|done].
Qed.
