(* ===== verification/Base58.v ===== *)
(** * Base58 (github.com/mr-tron/base58, not part of the sources)

    The package as an interface: its two functions, and what the program relies on.
    [Reference] instantiates the interface by arithmetic, and so shows that the laws
    can hold together. *)

From stdpp Require Import base list numbers strings.
From Stdlib Require Import ZArith Lia.
From S2P Require Import Prelude GoText Base36.

Inductive b58_alphabet := BTCAlphabet | FlickrAlphabet.

Class Base58 := {
  b58_EncodeAlphabet : b58_alphabet -> list Z -> list Z;
  b58_DecodeAlphabet : b58_alphabet -> list Z -> option (list Z);
}.
Definition b58_Encode `{!Base58} : list Z -> list Z := b58_EncodeAlphabet BTCAlphabet.
Definition b58_Decode `{!Base58} : list Z -> option (list Z) := b58_DecodeAlphabet BTCAlphabet.

Fixpoint HasPrefix (s prefix : list Z) {struct prefix} : bool :=
  match prefix, s with
  | [], _ => true
  | p :: prefix, c :: s => (c =? p) && HasPrefix s prefix
  | _, [] => false
  end.

Definition alphanumeric (c : Z) : Prop := 48 <= c <= 57 \/ 65 <= c <= 90 \/ 97 <= c <= 122.

(** Decoding inverts encoding and yields bytes, some bytes have some text, texts are
    alphanumeric, a SHA2-256 multihash (bytes 0x12 0x20 and 32 more) has a text of 46
    characters that starts with Qm, and a leading zero byte is written 1. *)
Class Base58Laws `{!Base58} : Prop := {
  b58_alphabet_inv : forall al b, bytes_ok b -> b <> [] -> b58_DecodeAlphabet al (b58_EncodeAlphabet al b) = Some b;
  b58_nonempty : forall al b, bytes_ok b -> b <> [] -> b58_EncodeAlphabet al b <> [];
  b58_decode_bytes : forall al s b, b58_DecodeAlphabet al s = Some b -> bytes_ok b;
  b58_alphanumeric : forall al b, bytes_ok b -> Forall alphanumeric (b58_EncodeAlphabet al b);
  b58_sha256 : forall d, bytes_ok d -> length d = 32%nat ->
    HasPrefix (b58_Encode (18 :: 32 :: d)) (str "Qm") = true /\ length (b58_Encode (18 :: 32 :: d)) = 46%nat;
  b58_identity : forall d, bytes_ok d -> HasPrefix (b58_Encode (0 :: d)) (str "1") = true;
}.

Section laws.
Context `{!Base58} `{!Base58Laws}.
Lemma b58_inv b : bytes_ok b -> b <> [] -> b58_Decode (b58_Encode b) = Some b.
Proof. apply b58_alphabet_inv. Qed.
Lemma b58_chars b : bytes_ok b -> slash ∉ b58_Encode b.
Proof.
  intros Hb Hin. pose proof (b58_alphanumeric BTCAlphabet b Hb) as Ha. rewrite Forall_forall in Ha.
  specialize (Ha slash Hin). unfold alphanumeric, slash in Ha. lia.
Qed.
Lemma b58_bytes b : bytes_ok b -> bytes_ok (b58_Encode b).
Proof.
  intros Hb. eapply Forall_impl; [exact (b58_alphanumeric BTCAlphabet b Hb)|]. intros c. unfold alphanumeric, is_byte. lia.
Qed.
End laws.

Module Reference.

(** The minimal digits of a number of at most [fuel] bits. *)
Fixpoint digits (b : Z) (fuel : nat) (v : Z) : list Z :=
  match fuel with
  | O => []
  | S fuel => if v =? 0 then [] else digits b fuel (v / b) ++ [v mod b]
  end.

Lemma digits_spec b fuel v :
  1 < b -> 0 <= v < 2 ^ Z.of_nat fuel ->
  digits_ok b (digits b fuel v) /\ value b (digits b fuel v) = v /\ minimal (digits b fuel v) /\ (digits b fuel v = [] -> v = 0).
Proof.
  intros Hb. revert v. induction fuel as [|fuel IH]; intros v Hv; cbn [digits].
  - cbn in Hv. assert (v = 0) as -> by lia. by split_and!; [constructor|..].
  - destruct (Z.eqb_spec v 0) as [->|Hne]; [by split_and!; [constructor|..]|].
    rewrite Nat2Z.inj_succ, Z.pow_succ_r in Hv by lia. destruct (IH (v / b)) as (H1 & H2 & H3 & H4).
    { split; [apply Z.div_pos; lia|]. apply Z.div_lt_upper_bound; nia. }
    pose proof (Z.mod_pos_bound v b ltac:(lia)). pose proof (Z.div_mod v b ltac:(lia)). split_and!.
    + apply Forall_app. split; [done|]. by apply Forall_singleton.
    + rewrite value_snoc, H2. lia.
    + destruct (digits b fuel (v / b)) as [|d l]; [|done]. specialize (H4 eq_refl). cbn. lia.
    + by intros [? ?]%app_eq_nil.
Qed.

Definition btc : list Z := str "123456789ABCDEFGHJKLMNPQRSTUVWXYZabcdefghijkmnopqrstuvwxyz".
Definition flickr : list Z := str "123456789abcdefghijkmnopqrstuvwxyzABCDEFGHJKLMNPQRSTUVWXYZ".
Definition chars (al : b58_alphabet) : list Z := match al with BTCAlphabet => btc | FlickrAlphabet => flickr end.

Fixpoint index_of (c : Z) (i : Z) (al : list Z) : option Z :=
  match al with
  | [] => None
  | a :: al => if c =? a then Some i else index_of c (i + 1) al
  end.

Fixpoint from_chars (al s : list Z) : option (list Z) :=
  match s with
  | [] => Some []
  | c :: s =>
      match index_of c 0 al, from_chars al s with
      | Some d, Some ds => Some (d :: ds)
      | _, _ => None
      end
  end.

Definition encode (al : b58_alphabet) (b : list Z) : list Z :=
  let z := leading 0 b in
  let v := value 256 (drop z b) in
  to_chars (chars al) (replicate z 0 ++ digits 58 (8 * length b) v).
Definition decode (al : b58_alphabet) (s : list Z) : option (list Z) :=
  if (length s =? 0)%nat then None
  else
    match from_chars (chars al) s with
    | None => None
    | Some ds =>
        let z := leading 0 ds in
        Some (replicate z 0 ++ digits 256 (6 * length s) (value 58 (drop z ds)))
    end.

#[export] Instance base58 : Base58 := { b58_EncodeAlphabet := encode; b58_DecodeAlphabet := decode }.

Lemma chars_ok al d : 0 <= d < 58 ->
  index_of (nth (Z.to_nat d) (chars al) 0) 0 (chars al) = Some d /\ alphanumeric (nth (Z.to_nat d) (chars al) 0).
Proof.
  intros Hd.
  pose proof (forall_below 58 (fun d => let c := nth (Z.to_nat d) (chars al) 0 in
    bool_decide (index_of c 0 (chars al) = Some d) &&
    ((48 <=? c) && (c <=? 57) || (65 <=? c) && (c <=? 90) || (97 <=? c) && (c <=? 122)))
    ltac:(destruct al; by vm_compute) d Hd) as H. cbv beta zeta in H. apply andb_true_iff in H as [H1 H2].
  apply bool_decide_eq_true in H1. split; [done|]. unfold alphanumeric.
  apply orb_true_iff in H2 as [[H2|H2]%orb_true_iff|H2]; apply andb_true_iff in H2 as [?%Z.leb_le ?%Z.leb_le]; lia.
Qed.

Lemma from_to_chars al ds : digits_ok 58 ds -> from_chars (chars al) (to_chars (chars al) ds) = Some ds.
Proof. induction 1 as [|d ds Hd _ IH]; [done|]. cbn. rewrite (proj1 (chars_ok al d Hd)). fold (to_chars (chars al) ds). by rewrite IH. Qed.

Lemma encode_digits b :
  bytes_ok b -> let D := digits 58 (8 * length b) (value 256 (drop (leading 0 b) b)) in
  digits_ok 58 D /\ value 58 D = value 256 (drop (leading 0 b) b) /\ minimal D.
Proof.
  intros Hb D. destruct (digits_spec 58 (8 * length b) (value 256 (drop (leading 0 b) b))) as (H1 & H2 & H3 & _); [lia| |done].
  pose proof (value_bound 256 (drop (leading 0 b) b) ltac:(lia) ltac:(by apply Forall_drop)) as Hv. split; [lia|].
  eapply Z.lt_le_trans; [apply Hv|]. rewrite Nat2Z.inj_mul, Z.pow_mul_r by lia. apply Z.pow_le_mono_r; [lia|].
  rewrite length_drop. lia.
Qed.

Lemma decode_encode al b : bytes_ok b -> b <> [] -> decode al (encode al b) = Some b.
Proof.
  intros Hb Hne. unfold decode, encode. set (z := leading 0 b). destruct (encode_digits b Hb) as (HD & Hv & Hm). fold z in HD, Hv, Hm.
  set (D := digits 58 (8 * length b) (value 256 (drop z b))) in *. destruct (leading_spec 0 b) as (Eb & Hz & Hbm). fold z in Eb, Hz, Hbm.
  assert (digits_ok 58 (replicate z 0 ++ D)) as Hds by (apply Forall_app; split; [apply Forall_replicate; lia|done]).
  assert (leading 0 (replicate z 0 ++ D) = z) as Hlz by (apply leading_app; destruct D; [done|]; cbn in *; lia).
  destruct (Nat.eqb_spec (length (to_chars (chars al) (replicate z 0 ++ D))) 0) as [E|_].
  { exfalso. unfold to_chars in E. rewrite length_map, length_app, length_replicate in E. assert (z = 0%nat) as Hz0 by lia.
    assert (D = []) as HD0 by (apply nil_length_inv; lia). rewrite HD0, Hz0 in Hv. cbn [drop] in Hv.
    apply Hne, nil_length_inv. rewrite <- (zero_value 256 b); [exact Hz0|lia|done|symmetry; exact Hv]. }
  rewrite from_to_chars by done. rewrite Hlz. rewrite drop_app_length' by by rewrite length_replicate.
  rewrite Eb at 1. do 2 f_equal.
  destruct (digits_spec 256 (6 * length (to_chars (chars al) (replicate z 0 ++ D))) (value 58 D)) as (H1 & H2 & H3 & _); [lia| |].
  { pose proof (value_bound 58 D ltac:(lia) HD) as Hb58. split; [lia|]. eapply Z.lt_le_trans; [apply Hb58|].
    unfold to_chars. rewrite length_map, length_app, Nat2Z.inj_mul, Z.pow_mul_r by lia.
    apply (Z.le_trans _ (64 ^ Z.of_nat (length D))); [apply Z.pow_le_mono_l; lia|]. change (2 ^ Z.of_nat 6) with 64. apply Z.pow_le_mono_r; lia. }
  apply (minimal_inj 256); [lia|done|by apply Forall_drop|done|done|by rewrite H2].
Qed.

Lemma digits_unique b l : 1 < b -> digits_ok b l -> minimal l -> forall fuel, value b l < 2 ^ Z.of_nat fuel -> digits b fuel (value b l) = l.
Proof.
  intros Hb Hl Hm fuel Hf. pose proof (value_bound b l ltac:(lia) Hl).
  destruct (digits_spec b fuel (value b l)) as (H1 & H2 & H3 & _); [lia|lia|]. by apply (minimal_inj b).
Qed.

(** The text of a SHA2-256 multihash: its number lies between 58^45 * 23 and 58^45 * 24,
    and its first two digits are fixed. *)
Lemma sha256_text d : bytes_ok d -> length d = 32%nat ->
  HasPrefix (encode BTCAlphabet (18 :: 32 :: d)) (str "Qm") = true /\ length (encode BTCAlphabet (18 :: 32 :: d)) = 46%nat.
Proof.
  intros Hd Hlen. assert (bytes_ok (18 :: 32 :: d)) as Hb by (repeat constructor; done || by compute).
  unfold encode. destruct (encode_digits (18 :: 32 :: d) Hb) as (HD & Hv & Hm).
  change (leading 0 (18 :: 32 :: d)) with 0%nat in *. cbn [drop replicate app] in *.
  set (D := digits 58 _ _) in *. pose proof (value_bound 256 d ltac:(lia) Hd) as Hdv. rewrite Hlen in Hdv.
  rewrite !value_cons in Hv. cbn [length] in Hv. rewrite Hlen in Hv.
  set (V := 18 * 256 ^ Z.of_nat 33 + (32 * 256 ^ Z.of_nat 32 + value 256 d)) in *.
  (* the digits are 23, 44 and 44 more *)
  assert (exists D', D = 23 :: 44 :: D' /\ length D' = 44%nat) as (D' & -> & HD').
  2:{ split; [reflexivity|]. unfold to_chars. rewrite length_map. cbn [length]. lia. }
  set (r := V - (23 * 58 + 44) * 58 ^ 44).
  assert (0 <= r < 58 ^ 44) as Hr.
  { subst r V. assert (18 * 256 ^ Z.of_nat 33 + 32 * 256 ^ Z.of_nat 32 - (23 * 58 + 44) * 58 ^ 44 >= 0) by by vm_compute.
    assert (18 * 256 ^ Z.of_nat 33 + 32 * 256 ^ Z.of_nat 32 + 256 ^ Z.of_nat 32 - (23 * 58 + 44) * 58 ^ 44 < 58 ^ 44) by by vm_compute. lia. }
  assert (exists D', digits_ok 58 D' /\ length D' = 44%nat /\ value 58 D' = r) as (D' & H1 & H2 & H3).
  { destruct (digits_spec 58 300 r) as (E1 & E2 & E3 & _); [lia| |].
    { split; [lia|]. eapply Z.lt_trans; [apply Hr|]. by vm_compute. }
    set (E := digits 58 300 r) in *. assert (length E <= 44)%nat as HE.
    { destruct (Nat.le_gt_cases (length E) 44) as [?|Hgt]; [done|]. exfalso. destruct E as [|e E]; [cbn in Hgt; lia|].
      pose proof (minimal_value 58 e E ltac:(lia) E1 E3). cbn [length] in Hgt.
      assert (58 ^ 44 <= 58 ^ Z.of_nat (length E)) by (apply Z.pow_le_mono_r; lia). lia. }
    exists (replicate (44 - length E) 0 ++ E). split_and!.
    - apply Forall_app. split; [apply Forall_replicate; lia|done].
    - rewrite length_app, length_replicate. lia.
    - by rewrite value_app, value_zeros. }
  exists D'. split; [|done]. apply (minimal_inj 58); [lia|done|by repeat constructor|done|done|].
  rewrite Hv, !value_cons. cbn [length]. rewrite H2, H3. subst r. change (58 ^ Z.of_nat 45) with (58 * 58 ^ 44). change (58 ^ Z.of_nat 44) with (58 ^ 44). lia.
Qed.

Lemma digits_bytes fuel v : 0 <= v -> bytes_ok (digits 256 fuel v).
Proof.
  revert v. induction fuel as [|fuel IH]; intros v Hv; cbn [digits]; [constructor|]. case_bool; [constructor|].
  apply Forall_app. split; [apply IH; apply Z.div_pos; lia|]. repeat constructor; unfold is_byte; apply Z.mod_pos_bound; lia.
Qed.

Lemma index_of_pos c i al d : index_of c i al = Some d -> i <= d < i + Z.of_nat (length al).
Proof.
  revert i. induction al as [|a al IH]; intros i; cbn [index_of length]; [done|]. case_bool; [intros [= <-]; lia|].
  intros E%IH. lia.
Qed.

Lemma from_chars_digits al s ds : from_chars al s = Some ds -> digits_ok (Z.of_nat (length al)) ds.
Proof.
  revert ds. induction s as [|c s IH]; intros ds; cbn [from_chars]; [intros [= <-]; constructor|].
  destruct (index_of c 0 al) as [d|] eqn:E; [|done]. destruct (from_chars al s) as [ds'|]; [|done]. intros [= <-].
  apply index_of_pos in E. constructor; [lia|by apply IH].
Qed.

Lemma decode_bytes al s b : decode al s = Some b -> bytes_ok b.
Proof.
  unfold decode. case_bool; [done|]. destruct (from_chars (chars al) s) as [ds|] eqn:E; [|done]. intros [= <-].
  apply from_chars_digits in E. apply Forall_app. split; [apply Forall_replicate; by compute|].
  apply digits_bytes. apply (Forall_drop _ (leading 0 ds)) in E.
  assert (length (chars al) = 58%nat) as H58 by by destruct al. rewrite H58 in E.
  pose proof (value_bound 58 _ ltac:(lia) E). lia.
Qed.

#[export] Instance base58_laws : Base58Laws.
Proof.
  constructor.
  - apply decode_encode.
  - intros al b Hb Hne E. pose proof (decode_encode al b Hb Hne) as Hd. cbn in E. by rewrite E in Hd.
  - apply decode_bytes.
  - intros al b Hb. destruct (encode_digits b Hb) as (HD & _ & _). cbn. unfold encode, to_chars. apply Forall_map.
    eapply (Forall_impl (fun d => 0 <= d < 58)); [|intros d Hd; apply (chars_ok al d Hd)].
    apply Forall_app. split; [apply Forall_replicate; lia|done].
  - apply sha256_text.
  - intros d Hd. done.
Qed.
End Reference.
