(* ===== verification/Multibase.v ===== *)
(** * Multibase (src/multiformats/multibase)

    A text whose first character names the base of the rest.  Strings are byte lists;
    the first character is a rune of their UTF-8 form.  Base58 is the interface of
    [Base58]; [hex] and [utf8] of the standard library are modelled here. *)

From stdpp Require Import base list numbers strings.
From Stdlib Require Import ZArith Lia.
From S2P Require Import Prelude GoText Base32 Base64 Base36 Base58.

(** ** UTF-8 *)

Definition RuneError : Z := 65533.

(** The bytes of a rune. *)
Definition EncodeRune (r : Z) : list Z :=
  let cont k := 128 + (r / 2 ^ k) mod 64 in
  if (r <? 0) || (r >? 1114111) || ((55296 <=? r) && (r <=? 57343)) then [239; 191; 189]
  else if r <=? 127 then [r]
  else if r <=? 2047 then [192 + r / 64; cont 0]
  else if r <=? 65535 then [224 + r / 4096; cont 6; cont 0]
  else [240 + r / 262144; cont 12; cont 6; cont 0].

(** The size of a sequence by its first byte, and the range of the second byte; [None]
    for a byte that cannot be first. *)
Definition first_info (b : Z) : option (nat * Z * Z) :=
  if (194 <=? b) && (b <=? 223) then Some (2%nat, 128, 191)
  else if b =? 224 then Some (3%nat, 160, 191)
  else if b =? 237 then Some (3%nat, 128, 159)
  else if (225 <=? b) && (b <=? 239) then Some (3%nat, 128, 191)
  else if b =? 240 then Some (4%nat, 144, 191)
  else if b =? 244 then Some (4%nat, 128, 143)
  else if (241 <=? b) && (b <=? 243) then Some (4%nat, 128, 191)
  else None.

Definition cont_byte (b : Z) : bool := (128 <=? b) && (b <=? 191).

(** [utf8.DecodeRuneInString]: the rune and its size. *)
Definition DecodeRune (s : list Z) : Z * nat :=
  match s with
  | [] => (RuneError, O)
  | b0 :: s =>
      if b0 <? 128 then (b0, 1%nat)
      else match first_info b0 with
      | None => (RuneError, 1%nat)
      | Some (sz, lo, hi) =>
          match sz, s with
          | 2%nat, b1 :: _ =>
              if (lo <=? b1) && (b1 <=? hi) then ((b0 - 192) * 64 + (b1 - 128), 2%nat) else (RuneError, 1%nat)
          | 3%nat, b1 :: b2 :: _ =>
              if (lo <=? b1) && (b1 <=? hi) && cont_byte b2
              then ((b0 - 224) * 4096 + (b1 - 128) * 64 + (b2 - 128), 3%nat) else (RuneError, 1%nat)
          | 4%nat, b1 :: b2 :: b3 :: _ =>
              if (lo <=? b1) && (b1 <=? hi) && cont_byte b2 && cont_byte b3
              then ((b0 - 240) * 262144 + (b1 - 128) * 4096 + (b2 - 128) * 64 + (b3 - 128), 4%nat) else (RuneError, 1%nat)
          | _, _ => (RuneError, 1%nat)
          end
      end
  end.

(** ** Hexadecimal and binary *)

Definition hexEncode (digit : Z -> Z) (src : list Z) : list Z :=
  concat (map (fun v => [digit (Z.shiftr v 4); digit (Z.land v 15)]) src).
(** [hex.EncodeToString] and [hexEncodeToStringUpper] *)
Definition hex_EncodeToString : list Z -> list Z := hexEncode hex_digit.
Definition hexTableUppers : list Z := str "0123456789ABCDEF".
Definition hexEncodeToStringUpper : list Z -> list Z := hexEncode (fun d => nth (Z.to_nat d) hexTableUppers 0).

(** [hex.DecodeString] *)
Fixpoint hex_DecodeString (s : list Z) : option (list Z) :=
  match s with
  | [] => Some []
  | [_] => None
  | h :: l :: s =>
      match hex_value h, hex_value l, hex_DecodeString s with
      | Some h, Some l, Some t => Some (Z.lor (Z.shiftl h 4) l :: t)
      | _, _, _ => None
      end
  end.

Definition binary_byte (b : Z) : list Z :=
  map (fun j => if Z.land b (Z.shiftl 1 (7 - j)) =? 0 then 48 else 49) [0; 1; 2; 3; 4; 5; 6; 7].
Definition binaryEncodeToString (src : list Z) : list Z := concat (map binary_byte src).

Fixpoint parse_bits (acc : Z) (s : list Z) : option Z :=
  match s with
  | [] => Some acc
  | c :: s => if c =? 48 then parse_bits (2 * acc) s else if c =? 49 then parse_bits (2 * acc + 1) s else None
  end.
(** [strconv.ParseInt(s, 2, 0)]: a sign is allowed. *)
Definition ParseInt2 (s : list Z) : option Z :=
  match s with
  | c :: s' =>
      if (c =? 43) || (c =? 45) then
        match s' with
        | [] => None
        | _ => match parse_bits 0 s' with Some n => Some (if c =? 45 then - n else n) | None => None end
        end
      else parse_bits 0 s
  | [] => None
  end.

Fixpoint decode_binary (s : list Z) : option (list Z) :=
  match s with
  | [] => Some []
  | c0 :: c1 :: c2 :: c3 :: c4 :: c5 :: c6 :: c7 :: s =>
      match ParseInt2 [c0; c1; c2; c3; c4; c5; c6; c7], decode_binary s with
      | Some v, Some t => Some (v mod 256 :: t)
      | _, _ => None
      end
  | _ => None
  end.
Definition decodeBinaryString (s : list Z) : option (list Z) :=
  let k := (length s mod 8)%nat in
  decode_binary (if (k =? 0)%nat then s else replicate (8 - k) 48 ++ s).

(** ** Emoji *)

Definition base256emojiTable : list Z :=
  [128640; 129680; 9732; 128752; 127756; 127761; 127762; 127763; 127764; 127765; 127766; 127767; 127768; 127757; 127759; 127758;
   128009; 9728; 128187; 128421; 128190; 128191; 128514; 10084; 128525; 129315; 128522; 128591; 128149; 128557; 128536; 128077;
   128517; 128079; 128513; 128293; 129392; 128148; 128150; 128153; 128546; 129300; 128518; 128580; 128170; 128521; 9786; 128076;
   129303; 128156; 128532; 128526; 128519; 127801; 129318; 127881; 128158; 9996; 10024; 129335; 128561; 128524; 127800; 128588;
   128523; 128151; 128154; 128527; 128155; 128578; 128147; 129321; 128516; 128512; 128420; 128515; 128175; 128584; 128071; 127926;
   128530; 129325; 10083; 128540; 128139; 128064; 128554; 128529; 128165; 128587; 128542; 128553; 128545; 129322; 128074; 129395;
   128549; 129316; 128073; 128131; 128563; 9995; 128538; 128541; 128564; 127775; 128556; 128579; 127808; 127799; 128571; 128531;
   11088; 9989; 129402; 127752; 128520; 129304; 128166; 10004; 128547; 127939; 128144; 9785; 127882; 128152; 128544; 9757;
   128533; 127802; 127874; 127803; 128528; 128405; 128157; 128586; 128569; 128483; 128171; 128128; 128081; 127925; 129310; 128539;
   128308; 128548; 127804; 128555; 9917; 129305; 9749; 127942; 129323; 128072; 128558; 128582; 127867; 127811; 128054; 128129;
   128562; 127807; 129505; 127873; 9889; 127774; 127880; 10060; 9994; 128075; 128560; 129320; 128566; 129309; 128694; 128176;
   127827; 128162; 129311; 128577; 128680; 128168; 129324; 9992; 127872; 127866; 129299; 128537; 128159; 127793; 128534; 128118;
   129396; 9654; 10145; 10067; 128142; 128184; 11015; 128552; 127770; 129419; 128567; 128378; 9888; 128581; 128543; 128565;
   128078; 129330; 129312; 129319; 128204; 128309; 128133; 129488; 128062; 127826; 128535; 129297; 127754; 129327; 128055; 9742;
   128167; 128559; 128134; 128070; 127908; 128583; 127825; 10052; 127796; 128163; 128056; 128140; 128205; 129344; 129314; 128069;
   128161; 128169; 128080; 128248; 128123; 129296; 129326; 127932; 129397; 128681; 127822; 127818; 128124; 128141; 128227; 129346].

Definition base256emojiEncode (src : list Z) : list Z :=
  concat (map (fun v => EncodeRune (nth (Z.to_nat v) base256emojiTable 0)) src).

(** The reverse table: the byte of a rune. *)
Definition base256emojiReverse (r : Z) : option Z := Reference.index_of r 0 base256emojiTable.

Fixpoint emoji_loop (fuel : nat) (s : list Z) : option (list Z) :=
  match s, fuel with
  | [], _ => Some []
  | _, O => None
  | _, S fuel =>
      let '(r, n) := DecodeRune s in
      match base256emojiReverse r, emoji_loop fuel (drop n s) with
      | Some v, Some t => Some (v :: t)
      | _, _ => None
      end
  end.
Definition base256emojiDecode (s : list Z) : option (list Z) := emoji_loop (length s) s.

(** ** Multibase *)

Definition base32StdLowerPad : Encoding := NewEncodingCI (str "abcdefghijklmnopqrstuvwxyz234567").
Definition base32StdLowerNoPad : Encoding := WithPadding base32StdLowerPad NoPadding.
Definition base32StdUpperPad : Encoding := NewEncodingCI (str "ABCDEFGHIJKLMNOPQRSTUVWXYZ234567").
Definition base32StdUpperNoPad : Encoding := WithPadding base32StdUpperPad NoPadding.
Definition base32HexLowerPad : Encoding := NewEncodingCI (str "0123456789abcdefghijklmnopqrstuv").
Definition base32HexLowerNoPad : Encoding := WithPadding base32HexLowerPad NoPadding.
Definition base32HexUpperPad : Encoding := NewEncodingCI (str "0123456789ABCDEFGHIJKLMNOPQRSTUV").
Definition base32HexUpperNoPad : Encoding := WithPadding base32HexUpperPad NoPadding.

Definition Identity : Z := 0.
Definition Base2 : Z := 48.
Definition Base16 : Z := 102.
Definition Base16Upper : Z := 70.
Definition Base32 : Z := 98.
Definition Base32Upper : Z := 66.
Definition Base32pad : Z := 99.
Definition Base32padUpper : Z := 67.
Definition Base32hex : Z := 118.
Definition Base32hexUpper : Z := 86.
Definition Base32hexPad : Z := 116.
Definition Base32hexPadUpper : Z := 84.
Definition Base36 : Z := 107.
Definition Base36Upper : Z := 75.
Definition Base58BTC : Z := 122.
Definition Base58Flickr : Z := 90.
Definition Base64 : Z := 109.
Definition Base64url : Z := 117.
Definition Base64pad : Z := 77.
Definition Base64urlPad : Z := 85.
Definition Base256Emoji : Z := 128640.

(** The keys of [EncodingToStr]. *)
Definition supported : list Z :=
  [Identity; Base2; Base16; Base16Upper; Base32; Base32Upper; Base32pad; Base32padUpper; Base32hex; Base32hexUpper;
   Base32hexPad; Base32hexPadUpper; Base36; Base36Upper; Base58BTC; Base58Flickr; Base64; Base64url; Base64pad;
   Base64urlPad; Base256Emoji].

Section multibase.
Context `{!Base58}.

(** [Err] is an unsupported base, [None] a panic. *)
Definition mb_Encode (base : Z) (data : list Z) : option (option (list Z)) :=
  let ok s := Some (Some (EncodeRune base ++ s)) in
  if base =? Identity then ok data
  else if base =? Base2 then ok (binaryEncodeToString data)
  else if base =? Base16 then ok (hex_EncodeToString data)
  else if base =? Base16Upper then ok (hexEncodeToStringUpper data)
  else if base =? Base32 then ok (Base32.EncodeToString base32StdLowerNoPad data)
  else if base =? Base32Upper then ok (Base32.EncodeToString base32StdUpperNoPad data)
  else if base =? Base32hex then ok (Base32.EncodeToString base32HexLowerNoPad data)
  else if base =? Base32hexUpper then ok (Base32.EncodeToString base32HexUpperNoPad data)
  else if base =? Base32pad then ok (Base32.EncodeToString base32StdLowerPad data)
  else if base =? Base32padUpper then ok (Base32.EncodeToString base32StdUpperPad data)
  else if base =? Base32hexPad then ok (Base32.EncodeToString base32HexLowerPad data)
  else if base =? Base32hexPadUpper then ok (Base32.EncodeToString base32HexUpperPad data)
  else if base =? Base36 then match EncodeToStringLc data with Some s => ok s | None => None end
  else if base =? Base36Upper then match EncodeToStringUc data with Some s => ok s | None => None end
  else if base =? Base58BTC then ok (b58_EncodeAlphabet BTCAlphabet data)
  else if base =? Base58Flickr then ok (b58_EncodeAlphabet FlickrAlphabet data)
  else if base =? Base64pad then ok (Base64.EncodeToString Base64.Std data)
  else if base =? Base64urlPad then ok (Base64.EncodeToString Base64.URL data)
  else if base =? Base64url then ok (Base64.EncodeToString Base64.RawURL data)
  else if base =? Base64 then ok (Base64.EncodeToString Base64.RawStd data)
  else if base =? Base256Emoji then ok (base256emojiEncode data)
  else Some None.

(** The base and the bytes; [Some None] is an error, [None] a panic. *)
Definition mb_Decode (data : list Z) : option (option (Z * list Z)) :=
  if (length data =? 0)%nat then Some None
  else
    let enc := (DecodeRune data).1 in
    let rest := drop 1 data in
    let lift (o : option (list Z)) := Some (match o with Some b => Some (enc, b) | None => None end) in
    if enc =? Identity then lift (Some rest)
    else if enc =? Base2 then lift (decodeBinaryString rest)
    else if (enc =? Base16) || (enc =? Base16Upper) then lift (hex_DecodeString rest)
    else if (enc =? Base32) || (enc =? Base32Upper) then lift (Base32.DecodeString RawStdEncoding rest)
    else if (enc =? Base32hex) || (enc =? Base32hexUpper) then lift (Base32.DecodeString RawHexEncoding rest)
    else if (enc =? Base32pad) || (enc =? Base32padUpper) then lift (Base32.DecodeString StdEncoding rest)
    else if (enc =? Base32hexPad) || (enc =? Base32hexPadUpper) then lift (Base32.DecodeString HexEncoding rest)
    else if (enc =? Base36) || (enc =? Base36Upper) then
      match Base36.DecodeString rest with Some o => lift o | None => None end
    else if enc =? Base58BTC then lift (b58_DecodeAlphabet BTCAlphabet rest)
    else if enc =? Base58Flickr then lift (b58_DecodeAlphabet FlickrAlphabet rest)
    else if enc =? Base64pad then lift (Base64.DecodeString Base64.Std rest)
    else if enc =? Base64urlPad then lift (Base64.DecodeString Base64.URL rest)
    else if enc =? Base64 then lift (Base64.DecodeString Base64.RawStd rest)
    else if enc =? Base64url then lift (Base64.DecodeString Base64.RawURL rest)
    else if enc =? Base256Emoji then lift (base256emojiDecode (drop 4 data))
    else Some None.
End multibase.

(** ** Round trips of the parts *)

Lemma hex_roundtrip digit src :
  (forall d, 0 <= d < 16 -> hex_value (digit d) = Some d) -> bytes_ok src -> hex_DecodeString (hexEncode digit src) = Some src.
Proof.
  intros Hd. unfold hexEncode. induction 1 as [|v src Hv _ IH]; [done|]. cbn [map concat app hex_DecodeString].
  unfold is_byte in Hv. rewrite !Hd, IH.
  - do 2 f_equal. pose proof (forall_below 256 (fun v => Z.lor (Z.shiftl (Z.shiftr v 4) 4) (Z.land v 15) =? v) ltac:(by vm_compute) v Hv) as H.
    by apply Z.eqb_eq in H.
  - apply (land_range 4). lia.
  - apply (shiftr_range 4); lia.
Qed.

Lemma upper_digits d : 0 <= d < 16 -> hex_value (nth (Z.to_nat d) hexTableUppers 0) = Some d.
Proof.
  intros Hd. pose proof (forall_below 16 (fun d => bool_decide (hex_value (nth (Z.to_nat d) hexTableUppers 0) = Some d)) ltac:(by vm_compute) d Hd) as H.
  by apply bool_decide_eq_true in H.
Qed.

Lemma binary_roundtrip src : bytes_ok src -> decodeBinaryString (binaryEncodeToString src) = Some src.
Proof.
  intros Hs. assert (length (binaryEncodeToString src) = 8 * length src)%nat as Hl.
  { clear. unfold binaryEncodeToString. induction src as [|b src IH]; [done|]. cbn [map concat]. rewrite length_app, IH. cbn. lia. }
  unfold decodeBinaryString. rewrite Hl, Nat.mul_comm, Nat.Div0.mod_mul. cbn [Nat.eqb]. clear Hl.
  unfold binaryEncodeToString. induction Hs as [|b src Hb _ IH]; [done|]. cbn [map concat]. unfold binary_byte at 1.
  cbn [map app decode_binary]. rewrite IH.
  pose proof (forall_below 256 (fun b => bool_decide (ParseInt2 (binary_byte b) = Some b)) ltac:(by vm_compute) b Hb) as H.
  apply bool_decide_eq_true in H. unfold binary_byte in H. cbn [map] in H. rewrite H. do 2 f_equal. apply Z.mod_small. exact Hb.
Qed.

Lemma DecodeRune_app s rest r :
  DecodeRune s = (r, length s) -> s <> [] -> r <> RuneError -> DecodeRune (s ++ rest) = (r, length s).
Proof.
  destruct s as [|b0 s]; [done|]. intros H _ Hr. cbn [app DecodeRune] in *. destruct (b0 <? 128); [done|].
  destruct (first_info b0) as [[[sz lo] hi]|]; [|congruence].
  destruct sz as [|[|[|[|[|sz]]]]]; try congruence; destruct s as [|b1 s]; try congruence.
  - cbn [app]. done.
  - destruct s as [|b2 s]; [congruence|]. cbn [app]. done.
  - destruct s as [|b2 [|b3 s]]; [congruence..|]. cbn [app]. done.
Qed.

Definition emoji_ok (v : Z) : bool :=
  let r := nth (Z.to_nat v) base256emojiTable 0 in
  bool_decide (DecodeRune (EncodeRune r) = (r, length (EncodeRune r))) && bool_decide (EncodeRune r <> []) &&
  bool_decide (r <> RuneError) && bool_decide (base256emojiReverse r = Some v).

Lemma emoji_loop_spec src : forall fuel, bytes_ok src -> (length src <= fuel)%nat -> emoji_loop fuel (base256emojiEncode src) = Some src.
Proof.
  induction src as [|v src IH]; intros fuel Hs Hf; [by destruct fuel|]. apply Forall_cons_1 in Hs as [Hv Hs].
  destruct fuel as [|fuel]; [cbn in Hf; lia|].
  pose proof (forall_below 256 emoji_ok ltac:(by vm_compute) v Hv) as H. unfold emoji_ok in H.
  set (r := nth (Z.to_nat v) base256emojiTable 0) in H.
  apply andb_true_iff in H as [[[H1 H2]%andb_true_iff H3]%andb_true_iff H4].
  apply bool_decide_eq_true in H1, H2, H3, H4. unfold base256emojiEncode. cbn [map concat]. fold (base256emojiEncode src). fold r.
  pose proof (DecodeRune_app (EncodeRune r) (base256emojiEncode src) r H1 H2 H3) as Hd.
  destruct (EncodeRune r ++ base256emojiEncode src) as [|c s] eqn:E; [by apply app_eq_nil in E as [? _]|].
  cbn [emoji_loop]. rewrite <- E in *. rewrite Hd, H4, drop_app_length, IH by (done || cbn in Hf; lia). done.
Qed.

Lemma emoji_roundtrip src : bytes_ok src -> base256emojiDecode (base256emojiEncode src) = Some src.
Proof.
  intros Hs. apply emoji_loop_spec; [done|]. induction Hs as [|v src Hv _ IH]; [done|].
  unfold base256emojiEncode. cbn [map concat length]. rewrite length_app. fold (base256emojiEncode src).
  pose proof (forall_below 256 emoji_ok ltac:(by vm_compute) v Hv) as H. unfold emoji_ok in H.
  apply andb_true_iff in H as [[[_ H2]%andb_true_iff _]%andb_true_iff _]. apply bool_decide_eq_true in H2.
  destruct (EncodeRune (nth (Z.to_nat v) base256emojiTable 0)); [done|]. cbn. lia.
Qed.

Lemma base32_reads :
  Base32.reads RawStdEncoding base32StdLowerNoPad = true /\ Base32.reads RawStdEncoding base32StdUpperNoPad = true /\
  Base32.reads RawHexEncoding base32HexLowerNoPad = true /\ Base32.reads RawHexEncoding base32HexUpperNoPad = true /\
  Base32.reads StdEncoding base32StdLowerPad = true /\ Base32.reads StdEncoding base32StdUpperPad = true /\
  Base32.reads HexEncoding base32HexLowerPad = true /\ Base32.reads HexEncoding base32HexUpperPad = true.
Proof. by vm_compute. Qed.

(** ** The round trip of multibase *)

#[local] Opaque Base32.reads Base64.reads.

Section multibase_theorems.
Context {b58 : Base58} {b58_laws : Base58Laws}.

Lemma decoded (o : option (list Z)) (base : Z) data :
  o = Some data -> Some (match o with Some b => Some (base, b) | None => None end) = Some (Some (base, data)).
Proof. by intros ->. Qed.

Tactic Notation "base_case" uconstr(o) uconstr(b) uconstr(pf) := eexists; split; [reflexivity|]; exact (decoded o b _ pf).

Lemma mb_roundtrip base data :
  base ∈ supported -> bytes_ok data ->
  data <> [] \/ base ∉ [Base36; Base36Upper; Base58BTC; Base58Flickr] ->
  exists s, mb_Encode base data = Some (Some s) /\ mb_Decode s = Some (Some (base, data)).
Proof.
  intros Hin Hb Hne. unfold supported in Hin.
  assert (base ∈ [Base36; Base36Upper; Base58BTC; Base58Flickr] -> data <> []) as Hne'.
  { intros Hi. destruct Hne as [Hd|Hn]; [exact Hd|destruct (Hn Hi)]. }
  clear Hne. destruct base32_reads as (R1 & R2 & R3 & R4 & R5 & R6 & R7 & R8).
  destruct Base64.std_reads64 as (S1 & S2 & S3 & S4).
  repeat (apply elem_of_cons in Hin as [->|Hin]); [..|apply elem_of_nil in Hin; destruct Hin].
  - base_case (Some data) Identity eq_refl.
  - base_case (decodeBinaryString (binaryEncodeToString data)) Base2 (binary_roundtrip data Hb).
  - base_case (hex_DecodeString (hex_EncodeToString data)) Base16 (hex_roundtrip hex_digit data hex_value_digit Hb).
  - base_case (hex_DecodeString (hexEncodeToStringUpper data)) Base16Upper (hex_roundtrip _ data upper_digits Hb).
  - base_case (Base32.DecodeString RawStdEncoding (Base32.EncodeToString base32StdLowerNoPad data)) Base32 (Decode_Encode _ _ data R1 Hb).
  - base_case (Base32.DecodeString RawStdEncoding (Base32.EncodeToString base32StdUpperNoPad data)) Base32Upper (Decode_Encode _ _ data R2 Hb).
  - base_case (Base32.DecodeString StdEncoding (Base32.EncodeToString base32StdLowerPad data)) Base32pad (Decode_Encode _ _ data R5 Hb).
  - base_case (Base32.DecodeString StdEncoding (Base32.EncodeToString base32StdUpperPad data)) Base32padUpper (Decode_Encode _ _ data R6 Hb).
  - base_case (Base32.DecodeString RawHexEncoding (Base32.EncodeToString base32HexLowerNoPad data)) Base32hex (Decode_Encode _ _ data R3 Hb).
  - base_case (Base32.DecodeString RawHexEncoding (Base32.EncodeToString base32HexUpperNoPad data)) Base32hexUpper (Decode_Encode _ _ data R4 Hb).
  - base_case (Base32.DecodeString HexEncoding (Base32.EncodeToString base32HexLowerPad data)) Base32hexPad (Decode_Encode _ _ data R7 Hb).
  - base_case (Base32.DecodeString HexEncoding (Base32.EncodeToString base32HexUpperPad data)) Base32hexPadUpper (Decode_Encode _ _ data R8 Hb).
  - destruct (encode_inv data LcAlphabet Hb (Hne' ltac:(in_list)) ltac:(by right)) as (s & E & D). exists (Base36 :: s).
    change (mb_Encode Base36 data) with (match EncodeToStringLc data with Some s => Some (Some (Base36 :: s)) | None => None end).
    change (mb_Decode (Base36 :: s)) with
      (match Base36.DecodeString s with Some o => Some (match o with Some b => Some (Base36, b) | None => None end) | None => None end).
    unfold EncodeToStringLc. rewrite E, D. split; reflexivity.
  - destruct (encode_inv data UcAlphabet Hb (Hne' ltac:(in_list)) ltac:(by left)) as (s & E & D). exists (Base36Upper :: s).
    change (mb_Encode Base36Upper data) with (match EncodeToStringUc data with Some s => Some (Some (Base36Upper :: s)) | None => None end).
    change (mb_Decode (Base36Upper :: s)) with
      (match Base36.DecodeString s with Some o => Some (match o with Some b => Some (Base36Upper, b) | None => None end) | None => None end).
    unfold EncodeToStringUc. rewrite E, D. split; reflexivity.
  - base_case (b58_DecodeAlphabet BTCAlphabet (b58_EncodeAlphabet BTCAlphabet data)) Base58BTC (b58_alphabet_inv _ data Hb (Hne' ltac:(in_list))).
  - base_case (b58_DecodeAlphabet FlickrAlphabet (b58_EncodeAlphabet FlickrAlphabet data)) Base58Flickr (b58_alphabet_inv _ data Hb (Hne' ltac:(in_list))).
  - base_case (Base64.DecodeString Base64.RawStd (Base64.EncodeToString Base64.RawStd data)) Base64 (Base64.Decode_Encode64 _ _ data S3 Hb).
  - base_case (Base64.DecodeString Base64.RawURL (Base64.EncodeToString Base64.RawURL data)) Base64url (Base64.Decode_Encode64 _ _ data S4 Hb).
  - base_case (Base64.DecodeString Base64.Std (Base64.EncodeToString Base64.Std data)) Base64pad (Base64.Decode_Encode64 _ _ data S1 Hb).
  - base_case (Base64.DecodeString Base64.URL (Base64.EncodeToString Base64.URL data)) Base64urlPad (Base64.Decode_Encode64 _ _ data S2 Hb).
  - base_case (base256emojiDecode (base256emojiEncode data)) Base256Emoji (emoji_roundtrip data Hb).
Qed.

(** C40: Every supported base of multibase round-trips: decoding an encoded text gives the
    base and the bytes back, for all bytes, except that base36 and base58 have no text
    for no bytes. *)
Theorem multibase_roundtrip base data :
  base ∈ supported -> bytes_ok data ->
  data <> [] \/ base ∉ [Base36; Base36Upper; Base58BTC; Base58Flickr] ->
  exists s, mb_Encode base data = Some (Some s) /\ mb_Decode s = Some (Some (base, data)).
Proof. apply mb_roundtrip. Qed.

Lemma hex_bytes s b : hex_DecodeString s = Some b -> bytes_ok b.
Proof.
  revert b. induction s as [s IH] using (induction_ltof1 _ length). unfold ltof in IH. intros b.
  destruct s as [|h [|l s]]; cbn [hex_DecodeString]; [intros [= <-]; constructor|done|].
  destruct (hex_value h) as [x|] eqn:E1; [|done]. destruct (hex_value l) as [y|] eqn:E2; [|done].
  destruct (hex_DecodeString s) as [t|] eqn:E; [|done]. intros E'%(inj Some). subst b.
  apply hex_value_bound in E1, E2. constructor; [|apply (IH s); [cbn [length]; lia|done]].
  apply (lor_range 8); [lia|rewrite Z.shiftl_mul_pow2 by lia|]; change (2 ^ 8) with 256; change (2 ^ 4) with 16; lia.
Qed.

Lemma binary_bytes s b : decode_binary s = Some b -> bytes_ok b.
Proof.
  revert b. induction s as [s IH] using (induction_ltof1 _ length). unfold ltof in IH. intros b.
  destruct s as [|c0 [|c1 [|c2 [|c3 [|c4 [|c5 [|c6 [|c7 s]]]]]]]]; try done; [intros [= <-]; constructor|].
  cbn [decode_binary]. destruct (ParseInt2 _) as [v|]; [|done]. destruct (decode_binary s) as [t|] eqn:E; [|done].
  intros E'%(inj Some). subst b. constructor; [unfold is_byte; apply Z.mod_pos_bound; lia|].
  apply (IH s); [cbn [length]; lia|done].
Qed.

Lemma emoji_bytes s b : base256emojiDecode s = Some b -> bytes_ok b.
Proof.
  unfold base256emojiDecode. generalize (length s) as fuel. intros fuel. revert s b.
  induction fuel as [|fuel IH]; intros [|c s] b; cbn [emoji_loop]; try done; try (intros [= <-]; constructor).
  destruct (DecodeRune (c :: s)) as [r n]. unfold base256emojiReverse.
  destruct (Reference.index_of r 0 base256emojiTable) as [v|] eqn:E1; [|done].
  destruct (emoji_loop fuel _) as [t|] eqn:E2; [|done]. intros E'%(inj Some). subst b.
  apply Reference.index_of_pos in E1. change (Z.of_nat (length base256emojiTable)) with 256 in E1.
  constructor; [unfold is_byte; lia|by eapply IH].
Qed.

(** Whatever [Decode] accepts, it decodes to bytes. *)
Lemma mb_Decode_bytes s enc b : bytes_ok s -> mb_Decode s = Some (Some (enc, b)) -> bytes_ok b.
Proof.
  intros Hs. unfold mb_Decode. destruct (length s =? 0)%nat; [discriminate|]. cbv zeta.
  assert (forall o, Some (match o with Some b => Some ((DecodeRune s).1, b) | None => None end) = Some (Some (enc, b)) -> o = Some b) as Hl.
  { intros [o|]; intros E; [|discriminate]. apply (inj Some), (inj Some) in E. congruence. }
  repeat match goal with |- context [if ?c then _ else _] => destruct c end; try discriminate;
    try (intros E%Hl; first [eapply Base32.DecodeString_bytes32, E | eapply Base64.DecodeString_bytes64, E | eapply hex_bytes, E
      | eapply b58_decode_bytes, E | eapply emoji_bytes, E | idtac]).
  - intros E. apply (inj Some), (inj Some) in E. injection E as _ <-. by apply Forall_drop.
  - unfold decodeBinaryString in E. cbv zeta in E. by apply binary_bytes in E.
  - destruct (Base36.DecodeString (drop 1 s)) as [o|] eqn:E36; [|discriminate]. intros ->%Hl. by apply Base36.DecodeString_bytes in E36.
Qed.

Lemma mb_Decode_total s : bytes_ok s -> is_Some (mb_Decode s).
Proof.
  intros Hs. unfold mb_Decode. destruct (length s =? 0)%nat; [by eexists|]. cbv zeta.
  destruct (DecodeString_total (drop 1 s) (Forall_drop _ _ _ Hs)) as [o Ho]. rewrite Ho.
  repeat match goal with |- is_Some (if ?b then _ else _) => destruct b; [by eexists|] end. by eexists.
Qed.
End multibase_theorems.

#[local] Existing Instance Reference.base58.

Lemma multibase_roundtrip_witness :
  exists s, mb_Encode Base58BTC [0; 1; 255] = Some (Some s) /\ mb_Decode s = Some (Some (Base58BTC, [0; 1; 255])).
Proof.
  apply (multibase_roundtrip (b58_laws := Reference.base58_laws) Base58BTC [0; 1; 255]);
    [in_list|repeat constructor; by compute|left; discriminate].
Defined.

(** No bytes have a text in base36 that does not decode, and binary text may carry
    signs. *)
Lemma multibase_examples :
  mb_Encode Base36 [] = Some (Some (str "k")) /\ mb_Decode (str "k") = Some None /\
  mb_Decode (str "0-0000001") = Some (Some (Base2, [255])) /\
  mb_Decode (str "bA") = Some (Some (Base32, [])) /\
  mb_Decode (str "zUXE7GvtEk8XTXs1GF8HSGbVA9FCX9SEBPe") = Some (Some (Base58BTC, str "Decentralize everything!!")).
Proof. by vm_compute. Qed.
