(* ===== verification/Multihash.v ===== *)
(** * Multihashes (src/multiformats/multihash/multihash.go)

    A multihash is a varint code, a varint length and a digest of that length.
    [Encode] builds one in a buffer of the announced size ([None] is a panic);
    [Decode], [Cast] and [MHFromBytes] read it back. *)

From stdpp Require Import base list numbers gmap strings pretty.
From Stdlib Require Import ZArith Lia.
From S2P Require Import Prelude Varint.

Inductive mh_error :=
| ErrTooShort
| ErrVarintBufferShort
| ErrVarintTooLong
| ErrUvarint (e : varint_error)
| ErrDigestTooLong
| ErrLengthGreater
| ErrInconsistentLen (expected found : Z).

Definition IDENTITY : Z := 0.
Definition SHA2_256 : Z := 18.
Definition BLAKE2B_MIN : Z := 45569.
Definition BLAKE2B_MAX : Z := 45632.
Definition BLAKE2S_MIN : Z := 45633.
Definition BLAKE2S_MAX : Z := 45664.

(** The names of the codes, with the BLAKE2 families that [init] adds. *)
Definition base_codes : gmap Z string := list_to_map
  [(0, "identity"); (17, "sha1"); (18, "sha2-256"); (19, "sha2-512"); (23, "sha3-224"); (22, "sha3-256");
   (21, "sha3-384"); (20, "sha3-512"); (86, "dbl-sha2-256"); (34, "murmur3-x64-64"); (26, "keccak-224");
   (27, "keccak-256"); (28, "keccak-384"); (29, "keccak-512"); (30, "blake3"); (24, "shake-128"); (25, "shake-256");
   (4114, "sha2-256-trunc254-padded"); (4352, "x11"); (46081, "poseidon-bls12_381-a2-fc1"); (213, "md5")]%string.

Definition add_family (min max : Z) (name : string) (m : gmap Z string) : gmap Z string :=
  fold_left (fun m c => <[c := (name +:+ pretty (Z.to_N ((c - min + 1) * 8)))%string]> m) (seqZ min (max - min + 1)) m.
Definition Codes : gmap Z string :=
  add_family BLAKE2S_MIN BLAKE2S_MAX "blake2s-" (add_family BLAKE2B_MIN BLAKE2B_MAX "blake2b-" base_codes).

Record DecodedMultihash := mkDecoded {
  mh_Code : Z;
  mh_Name : string;
  mh_Length : Z;
  mh_Digest : list Z;
}.

Definition mh_uvarint (buf : list Z) : result mh_error (Z * list Z) :=
  match FromUvarint buf with
  | Err e => Err (ErrUvarint e)
  | Ok (n, c) =>
      if c =? 0 then Err ErrVarintBufferShort
      else if c <? 0 then Err ErrVarintTooLong
      else Ok (n, drop (Z.to_nat c) buf)
  end.

Definition MaxInt32 : Z := 2 ^ 31 - 1.

Definition readMultihashFromBuf (buf : list Z) : result mh_error (Z * Z * list Z) :=
  let initBufLength := Z.of_nat (length buf) in
  if initBufLength <? 2 then Err ErrTooShort
  else match mh_uvarint buf with
  | Err e => Err e
  | Ok (code, buf) =>
      match mh_uvarint buf with
      | Err e => Err e
      | Ok (len, buf) =>
          if len >? MaxInt32 then Err ErrDigestTooLong
          else if len >? Z.of_nat (length buf) then Err ErrLengthGreater
          else
            let rlen := initBufLength - Z.of_nat (length buf) + len in
            Ok (rlen, code, take (Z.to_nat len) buf)
      end
  end.

Definition Decode (buf : list Z) : result mh_error DecodedMultihash :=
  match readMultihashFromBuf buf with
  | Err e => Err e
  | Ok (rlen, code, hdig) =>
      let dm := mkDecoded code (default ""%string (Codes !! code)) (Z.of_nat (length hdig)) hdig in
      if negb (Z.of_nat (length buf) =? rlen) then Err (ErrInconsistentLen (mh_Length dm) rlen) else Ok dm
  end.

Definition Cast (buf : list Z) : result mh_error (list Z) :=
  match Decode buf with
  | Err e => Err e
  | Ok _ => Ok buf
  end.

Definition MHFromBytes (buf : list Z) : result mh_error (Z * list Z) :=
  match readMultihashFromBuf buf with
  | Err e => Err e
  | Ok (nr, _, _) => Ok (nr, take (Z.to_nat nr) buf)
  end.

(** [copy(dst, src)] *)
Definition copy_into (dst src : list Z) : list Z := take (length dst) src ++ drop (length src) dst.

Definition Encode (buf : list Z) (code : Z) : option (list Z) :=
  let len := Z.of_nat (length buf) in
  let newBuf := replicate (Z.to_nat (UvarintSize code + UvarintSize len) + length buf) 0 in
  match PutUvarint newBuf code with
  | None => None
  | Some (newBuf, n) =>
      match PutUvarint (drop n newBuf) len with
      | None => None
      | Some (tail, m) =>
          let newBuf := take n newBuf ++ tail in
          Some (take (n + m) newBuf ++ copy_into (drop (n + m) newBuf) buf)
      end
  end.

(** ** Correctness *)

#[local] Opaque Codes.

Lemma PutUvarint_spec buf n :
  uint64 n -> (length (uvarint n) <= length buf)%nat ->
  PutUvarint buf n = Some (uvarint n ++ drop (length (uvarint n)) buf, length (uvarint n)).
Proof.
  intros Hn Hl. unfold PutUvarint.
  change (put_loop 10 buf 0 n) with (put_loop 10 ([] ++ buf) (length (A:=Z) []) n).
  rewrite put_loop_spec; [done|lia|unfold uint64 in Hn; lia|done].
Qed.

Lemma Encode_spec digest code :
  uint64 code -> Z.of_nat (length digest) < 2 ^ 64 ->
  Encode digest code = Some (uvarint code ++ uvarint (Z.of_nat (length digest)) ++ digest).
Proof.
  intros Hc Hl. unfold Encode. set (len := Z.of_nat (length digest)) in *.
  assert (uint64 len) as Hlen by (unfold uint64, len in *; lia).
  pose proof (UvarintSize_length code Hc) as S1. pose proof (UvarintSize_length len Hlen) as S2.
  set (vc := uvarint code) in *. set (vl := uvarint len) in *.
  replace (Z.to_nat (UvarintSize code + UvarintSize len)) with (length vc + length vl)%nat by lia.
  rewrite PutUvarint_spec by (done || (fold vc; rewrite length_replicate; lia)). fold vc.
  rewrite drop_replicate. rewrite drop_app_length.
  rewrite PutUvarint_spec by (done || (fold vl; rewrite length_replicate; lia)). fold vl.
  rewrite drop_replicate, take_app_length. f_equal.
  rewrite (app_assoc vc vl), <- length_app, take_app_length, drop_app_length, <- app_assoc.
  do 2 f_equal. rewrite length_app.
  replace (length vc + length vl + length digest - length vc - length vl)%nat with (length digest) by lia.
  unfold copy_into. rewrite length_replicate, firstn_all, drop_ge by (rewrite length_replicate; lia). apply app_nil_r.
Qed.

Lemma mh_uvarint_app n rest :
  0 <= n < 2 ^ 63 -> mh_uvarint (uvarint n ++ rest) = Ok (n, rest).
Proof.
  intros Hn. unfold mh_uvarint. rewrite FromUvarint_uvarint by done.
  rewrite <- UvarintSize_length by (unfold uint64; lia).
  assert (uvarint n <> []) as Hne by (unfold uvarint; simpl; by case_bool).
  destruct (uvarint n) as [|b l]; [done|]. replace (Z.of_nat (length (b :: l)) =? 0) with false by (simpl; lia).
  replace (Z.of_nat (length (b :: l)) <? 0) with false by (symmetry; apply Z.ltb_ge; lia). by rewrite Nat2Z.id, drop_app_length.
Qed.

Lemma uvarint_nonempty n : (1 <= length (uvarint n))%nat.
Proof. unfold uvarint. cbn [groups]. case_bool; simpl; lia. Qed.

Lemma read_encoded digest code rest :
  0 <= code < 2 ^ 63 -> Z.of_nat (length digest) <= MaxInt32 ->
  let m := uvarint code ++ uvarint (Z.of_nat (length digest)) ++ digest in
  readMultihashFromBuf (m ++ rest) = Ok (Z.of_nat (length m), code, digest).
Proof.
  intros Hc Hl m. unfold readMultihashFromBuf, MaxInt32 in *. set (len := Z.of_nat (length digest)) in *.
  pose proof (uvarint_nonempty code). pose proof (uvarint_nonempty len).
  assert (2 <= Z.of_nat (length (m ++ rest))) as H2 by (unfold m; rewrite !length_app; lia).
  apply Z.ltb_ge in H2 as ->. unfold m. rewrite <- !app_assoc, mh_uvarint_app by done. rewrite mh_uvarint_app by lia.
  assert ((len >? 2 ^ 31 - 1) = false) as -> by (rewrite Z.gtb_ltb; apply Z.ltb_ge; lia). rewrite !length_app.
  assert ((len >? Z.of_nat (length digest + length rest)) = false) as -> by (rewrite Z.gtb_ltb; apply Z.ltb_ge; lia).
  unfold len. rewrite Nat2Z.id, take_app_length. do 3 f_equal. lia.
Qed.

(** [Encode] never panics and [Decode] inverts it, for every digest up to
    [2^31 - 1] bytes and every code a varint can carry. *)
Theorem multihash_roundtrip digest code :
  0 <= code <= MaxValueUvarint63 -> Z.of_nat (length digest) <= MaxInt32 ->
  exists m, Encode digest code = Some m /\ Cast m = Ok m /\
    Decode m = Ok (mkDecoded code (default ""%string (Codes !! code)) (Z.of_nat (length digest)) digest).
Proof.
  intros Hc Hl. unfold MaxValueUvarint63, MaxInt32 in *.
  exists (uvarint code ++ uvarint (Z.of_nat (length digest)) ++ digest).
  split; [apply Encode_spec; unfold uint64; lia|].
  pose proof (read_encoded digest code [] ltac:(lia) Hl) as Hr. cbv zeta in Hr. rewrite app_nil_r in Hr.
  unfold Cast, Decode. rewrite Hr, Z.eqb_refl. done.
Qed.

Lemma multihash_roundtrip_witness : exists m, Encode [1; 2; 3] SHA2_256 = Some m /\ Cast m = Ok m.
Proof.
  destruct (multihash_roundtrip [1; 2; 3] SHA2_256) as (m & H1 & H2 & _);
    [unfold SHA2_256, MaxValueUvarint63; lia|unfold MaxInt32; simpl; lia|by exists m].
Defined.

Lemma mh_uvarint_inv buf n rest :
  bytes_ok buf -> mh_uvarint buf = Ok (n, rest) -> 0 <= n < 2 ^ 63 /\ buf = uvarint n ++ rest.
Proof.
  intros Hb. unfold mh_uvarint. destruct (FromUvarint buf) as [[m c]|] eqn:E; [|done].
  repeat case_bool; try done. intros [= <- <-].
  apply (from_loop_sound buf 0 0) in E as (k & rest & Hk & _ & _ & Hbuf & Hv & Hc); [|done|lia|by simpl].
  simpl in Hk, Hv. assert (m = k) as -> by lia. change (Z.to_nat (9 - 0)) with 9%nat in Hbuf.
  rewrite <- uvarint_63 in Hbuf by lia. split; [lia|]. subst buf. rewrite length_app, Nat.add_sub in Hc.
  by rewrite Hc, Z.add_0_l, Nat2Z.id, drop_app_length.
Qed.

(** What [Decode] accepts. *)
Lemma Decode_parts b h :
  bytes_ok b -> Decode b = Ok h ->
  0 <= mh_Code h < 2 ^ 63 /\ b = uvarint (mh_Code h) ++ uvarint (mh_Length h) ++ mh_Digest h /\
  mh_Length h = Z.of_nat (length (mh_Digest h)) /\ mh_Length h <= MaxInt32.
Proof.
  intros Hb. unfold Decode, readMultihashFromBuf. case_bool; [done|].
  destruct (mh_uvarint b) as [[code rest]|] eqn:E1; [|done].
  apply mh_uvarint_inv in E1 as [Hc ->]; [|done]. apply Forall_app in Hb as [_ Hb].
  destruct (mh_uvarint rest) as [[len rest']|] eqn:E2; [|done]. apply mh_uvarint_inv in E2 as [Hl ->]; [|done].
  destruct (len >? MaxInt32) eqn:E3; [done|]. destruct (len >? Z.of_nat (length rest')) eqn:E4; [done|].
  destruct (negb _) eqn:E5; [done|]. intros [= <-]. cbn [mh_Digest mh_Code mh_Length]. bool_props.
  rewrite !length_app in *. assert (len = Z.of_nat (length rest')) as Hlen by lia. rewrite take_ge by lia.
  split_and!; [lia|lia| |done|lia]. by rewrite <- Hlen.
Qed.

(** The multihashes: what [Cast] accepts. *)
Definition is_multihash (m : list Z) : Prop :=
  exists code digest, 0 <= code < 2 ^ 63 /\ Z.of_nat (length digest) <= MaxInt32 /\
    m = uvarint code ++ uvarint (Z.of_nat (length digest)) ++ digest.

Lemma read_inv buf nr code digest :
  bytes_ok buf -> readMultihashFromBuf buf = Ok (nr, code, digest) ->
  0 <= code < 2 ^ 63 /\ Z.of_nat (length digest) <= MaxInt32 /\
  exists rest, buf = (uvarint code ++ uvarint (Z.of_nat (length digest)) ++ digest) ++ rest /\
    nr = Z.of_nat (length (uvarint code ++ uvarint (Z.of_nat (length digest)) ++ digest)).
Proof.
  intros Hb. unfold readMultihashFromBuf. case_bool; [done|].
  destruct (mh_uvarint buf) as [[c rest]|] eqn:E1; [|done]. apply mh_uvarint_inv in E1 as [Hc ->]; [|done].
  apply Forall_app in Hb as [_ Hb].
  destruct (mh_uvarint rest) as [[len rest']|] eqn:E2; [|done]. apply mh_uvarint_inv in E2 as [Hl ->]; [|done].
  destruct (len >? MaxInt32) eqn:E3; [done|]. destruct (len >? Z.of_nat (length rest')) eqn:E4; [done|].
  intros [= <- <- <-]. bool_props.
  assert (Z.of_nat (length (take (Z.to_nat len) rest')) = len) as Ht by (rewrite length_take; lia). rewrite Ht.
  split_and!; [lia..|]. exists (drop (Z.to_nat len) rest'). rewrite <- !app_assoc, take_drop. split; [done|].
  rewrite !length_app in *. rewrite length_take. lia.
Qed.

Lemma MHFromBytes_app m rest : is_multihash m -> MHFromBytes (m ++ rest) = Ok (Z.of_nat (length m), m).
Proof.
  intros (code & d & Hc & Hl & ->). unfold MHFromBytes. rewrite read_encoded by done. by rewrite Nat2Z.id, take_app_length.
Qed.

Lemma MHFromBytes_inv buf nr m :
  bytes_ok buf -> MHFromBytes buf = Ok (nr, m) -> is_multihash m /\ exists rest, buf = m ++ rest /\ nr = Z.of_nat (length m).
Proof.
  intros Hb. unfold MHFromBytes. destruct (readMultihashFromBuf buf) as [[[n code] d]|] eqn:E; [|done]. intros [= <- <-].
  destruct (read_inv _ _ _ _ Hb E) as (Hc & Hl & rest & -> & ->). rewrite Nat2Z.id, take_app_length.
  split; [by exists code, d|by exists rest].
Qed.

Lemma Decode_encoded code digest :
  0 <= code < 2 ^ 63 -> Z.of_nat (length digest) <= MaxInt32 ->
  Decode (uvarint code ++ uvarint (Z.of_nat (length digest)) ++ digest) =
    Ok (mkDecoded code (default ""%string (Codes !! code)) (Z.of_nat (length digest)) digest).
Proof.
  intros Hc Hl. pose proof (read_encoded digest code [] Hc Hl) as Hr. cbv zeta in Hr. rewrite app_nil_r in Hr.
  unfold Decode. by rewrite Hr, Z.eqb_refl.
Qed.

Lemma is_multihash_Cast m : is_multihash m -> Cast m = Ok m.
Proof. intros (code & d & Hc & Hl & ->). unfold Cast. by rewrite Decode_encoded. Qed.

Lemma Cast_is_multihash b m : bytes_ok b -> Cast b = Ok m -> m = b /\ is_multihash b.
Proof.
  intros Hb. unfold Cast. destruct (Decode b) as [h|] eqn:E; [|done]. intros [= <-].
  destruct (Decode_parts b h Hb E) as (Hc & Hparts & Hlen & Hm). split; [done|].
  exists (mh_Code h), (mh_Digest h). by rewrite <- Hlen.
Qed.

(** A multihash has one representation: whatever [Decode] accepts is, byte for
    byte, what [Encode] produces from the decoded code and digest; and the length
    it reports is that of the digest. *)
Theorem multihash_canonical buf dm :
  bytes_ok buf -> Decode buf = Ok dm ->
  Encode (mh_Digest dm) (mh_Code dm) = Some buf /\ mh_Length dm = Z.of_nat (length (mh_Digest dm)) /\
  0 <= mh_Code dm <= MaxValueUvarint63.
Proof.
  intros Hb Hd. destruct (Decode_parts buf dm Hb Hd) as (Hc & Hbuf & Hlen & Hmax).
  split_and!; [|done|lia|unfold MaxValueUvarint63; lia].
  rewrite Encode_spec by (unfold uint64, MaxInt32 in *; lia). by rewrite <- Hlen, <- Hbuf.
Qed.

Lemma multihash_canonical_witness : Encode [7; 8] IDENTITY = Some [0; 2; 7; 8].
Proof.
  destruct (multihash_canonical [0; 2; 7; 8] (mkDecoded 0 "identity" 2 [7; 8])) as [H _];
    [apply (bool_decide_unpack _); vm_compute; exact I|vm_compute; reflexivity|exact H].
Defined.
