(* ===== verification/Cid.v ===== *)
(** * Content identifiers (src/cid/cid.go, src/cid/varint.go)

    A CID is its byte string: a SHA2-256 multihash (version 0), or the byte 1, a
    varint codec and a multihash (version 1).  Results are [Ok] or the error of the
    code; a panic is [None]. *)

From stdpp Require Import base list numbers strings.
From Stdlib Require Import ZArith Lia.
From S2P Require Import Prelude Varint GoText Base58 Multibase Multihash.

Inductive cid_error :=
| ErrCidTooShort
| ErrCidMultihash (e : mh_error)
| ErrCidBase58
| ErrCidMultibase
| ErrCidVarint (e : varint_error)
| ErrCidRead (e : read_error)
| ErrInvalidHashV0 (code len : Z)
| ErrNotEnoughV0
| ErrVersion (v : Z)
| ErrTrailingBytes
| ErrDigestAlloc (n : Z)
| ErrCidEOF
| ErrInvalidEncoding
| ErrCidUnsupportedBase.

Definition DagProtobuf : Z := 112.
Definition Libp2pKey : Z := 114.

(** [uvarint] of varint.go, on the string of a CID: a varint of up to ten bytes. *)
Fixpoint cid_uvarint_loop (buf : list Z) (i x s : Z) : result varint_error (Z * Z) :=
  match buf with
  | [] => Err ErrUnderflow
  | b :: buf =>
      if b <? 128 then
        if (i >? 9) || ((i =? 9) && (b >? 1)) then Err ErrOverflow
        else if (b =? 0) && (i >? 0) then Err ErrNotMinimal
        else Ok (Z.lor x (wrapu64 (Z.shiftl b s)), i + 1)
      else cid_uvarint_loop buf (i + 1) (Z.lor x (wrapu64 (Z.shiftl (Z.land b 127) s))) (s + 7)
  end.
Definition cid_uvarint (buf : list Z) : result varint_error (Z * Z) := cid_uvarint_loop buf 0 0 0.

(** Value and size of a varint whose error is ignored: both are 0 then. *)
Definition ignore {E} (o : result E (Z * Z)) : Z * Z := match o with Ok r => r | Err _ => (0, 0) end.

Section cid.
Context `{!Base58}.

(** [multihash.FromB58String] and [Multihash.B58String] *)
Definition FromB58String (s : list Z) : option (list Z) :=
  match b58_Decode s with
  | Some b => match Cast b with Ok m => Some m | Err _ => None end
  | None => None
  end.
Definition B58String (m : list Z) : list Z := b58_Encode m.

Definition tryNewCidV0 (mhash : list Z) : result cid_error (list Z) :=
  match Multihash.Decode mhash with
  | Err e => Err (ErrCidMultihash e)
  | Ok dec =>
      if negb (mh_Code dec =? SHA2_256) || negb (mh_Length dec =? 32) then Err (ErrInvalidHashV0 (mh_Code dec) (mh_Length dec))
      else Ok mhash
  end.
Definition NewCidV0 (mhash : list Z) : option (list Z) := match tryNewCidV0 mhash with Ok c => Some c | Err _ => None end.

Definition NewCidV1 (codecType : Z) (mhash : list Z) : option (list Z) :=
  match PutUvarint (replicate 10 0) codecType with
  | Some (buf, n) => Some ([1] ++ take n buf ++ mhash)
  | None => None
  end.

Definition Defined (c : list Z) : bool := negb (length c =? 0)%nat.

Definition CidFromBytes (data : list Z) : result cid_error (Z * list Z) :=
  if (2 <? length data)%nat && (nth 0 data 0 =? SHA2_256) && (nth 1 data 0 =? 32) then
    if (length data <? 34)%nat then Err ErrNotEnoughV0
    else match Cast (take 34 data) with
         | Err e => Err (ErrCidMultihash e)
         | Ok h => Ok (34, h)
         end
  else
    match FromUvarint data with
    | Err e => Err (ErrCidVarint e)
    | Ok (vers, n) =>
        if negb (vers =? 1) then Err (ErrVersion vers)
        else match FromUvarint (drop (Z.to_nat n) data) with
        | Err e => Err (ErrCidVarint e)
        | Ok (_, cn) =>
            match MHFromBytes (drop (Z.to_nat (n + cn)) data) with
            | Err e => Err (ErrCidMultihash e)
            | Ok (mhnr, _) =>
                let l := n + cn + mhnr in
                Ok (l, take (Z.to_nat l) data)
            end
        end
    end.

Definition cid_Cast (data : list Z) : result cid_error (list Z) :=
  match CidFromBytes data with
  | Err e => Err e
  | Ok (nr, c) => if negb (nr =? Z.of_nat (length data)) then Err ErrTrailingBytes else Ok c
  end.

Definition is_v0_text (v : list Z) : bool := (length v =? 46)%nat && HasPrefix v (str "Qm").

Definition cid_Decode (v : list Z) : option (result cid_error (list Z)) :=
  if (length v <? 2)%nat then Some (Err ErrCidTooShort)
  else if is_v0_text v then
    Some (match FromB58String v with
          | None => Err ErrCidBase58
          | Some hash => tryNewCidV0 hash
          end)
  else
    match mb_Decode v with
    | None => None
    | Some None => Some (Err ErrCidMultibase)
    | Some (Some (_, data)) => Some (cid_Cast data)
    end.

Definition ExtractEncoding (v : list Z) : result cid_error Z :=
  if (length v <? 2)%nat then Err ErrCidTooShort
  else if is_v0_text v then Ok Base58BTC
  else
    let encoding := nth 0 v 0 in
    if bool_decide (encoding ∈ supported) then Ok encoding else Err ErrCidUnsupportedBase.

Definition Version (c : list Z) : Z :=
  if (length c =? 34)%nat && (nth 0 c 0 =? 18) && (nth 1 c 0 =? 32) then 0 else 1.

Definition cid_Type (c : list Z) : Z :=
  if Version c =? 0 then DagProtobuf
  else
    let n := (ignore (cid_uvarint c)).2 in
    (ignore (cid_uvarint (drop (Z.to_nat n) c))).1.

Definition cid_Hash (c : list Z) : list Z :=
  if Version c =? 0 then c
  else
    let n1 := (ignore (FromUvarint c)).2 in
    let n2 := (ignore (FromUvarint (drop (Z.to_nat n1) c))).2 in
    drop (Z.to_nat (n1 + n2)) c.

(** [StringOfBase]; [String] is base32 for version 1. *)
Definition StringOfBase (c : list Z) (base : Z) : option (result cid_error (list Z)) :=
  if Version c =? 0 then
    if negb (base =? Base58BTC) then Some (Err ErrInvalidEncoding) else Some (Ok (B58String (cid_Hash c)))
  else
    match mb_Encode base c with
    | None => None
    | Some None => Some (Err ErrCidUnsupportedBase)
    | Some (Some s) => Some (Ok s)
    end.
Definition cid_String (c : list Z) : option (list Z) :=
  if Version c =? 0 then Some (B58String (cid_Hash c))
  else match mb_Encode Base32 c with Some (Some s) => Some s | _ => None end.

Record CidPrefix := mkCidPrefix { px_Version : Z; px_Codec : Z; px_MhType : Z; px_MhLength : Z }.

Definition cid_Prefix (c : list Z) : CidPrefix :=
  if Version c =? 0 then mkCidPrefix 0 DagProtobuf SHA2_256 32
  else
    let '(version, n1) := ignore (cid_uvarint c) in
    let '(codec, n2) := ignore (cid_uvarint (drop (Z.to_nat n1) c)) in
    let '(mhtype, n3) := ignore (cid_uvarint (drop (Z.to_nat (n1 + n2)) c)) in
    let '(mhlen, _) := ignore (cid_uvarint (drop (Z.to_nat (n1 + n2 + n3)) c)) in
    mkCidPrefix version codec mhtype (wrap64 mhlen).

(** [Prefix.Bytes]: four varints written one after the other into a buffer of their
    total size. *)
Fixpoint put_all (buf : list Z) (vs : list Z) : option (list Z * nat) :=
  match vs with
  | [] => Some (buf, O)
  | v :: vs =>
      match PutUvarint buf v with
      | None => None
      | Some (buf, n) =>
          match put_all (drop n buf) vs with
          | None => None
          | Some (tail, m) => Some (take n buf ++ tail, (n + m)%nat)
          end
      end
  end.
Definition Prefix_Bytes (p : CidPrefix) : option (list Z) :=
  let vs := [px_Version p; px_Codec p; px_MhType p; wrapu64 (px_MhLength p)] in
  let size := Z.to_nat (fold_right Z.add 0 (map UvarintSize vs)) in
  match put_all (replicate size 0) vs with
  | Some (buf, n) => if (n =? size)%nat then Some buf else None
  | None => None
  end.

Definition PrefixFromBytes (buf : list Z) : result cid_error CidPrefix :=
  match ReadUvarint buf with
  | (Err e, _) => Err (ErrCidRead e)
  | (Ok vers, r) =>
      match ReadUvarint r with
      | (Err e, _) => Err (ErrCidRead e)
      | (Ok codec, r) =>
          match ReadUvarint r with
          | (Err e, _) => Err (ErrCidRead e)
          | (Ok mhtype, r) =>
              match ReadUvarint r with
              | (Err e, _) => Err (ErrCidRead e)
              | (Ok mhlen, _) => Ok (mkCidPrefix vers codec mhtype (wrap64 mhlen))
              end
          end
      end
  end.

Definition maxDigestAlloc : Z := 2 ^ 25.

(** [io.ReadFull] of [k] bytes from a reader that delivers [r]: the bytes read and
    the error when there are fewer. *)
Definition ReadFull (k : nat) (r : list Z) : nat * option read_error :=
  if (k <=? length r)%nat then (k, None)
  else if (length r =? 0)%nat then (O, Some EOF) else (length r, Some ErrUnexpectedEOF).

(** [CidFromReader] on a reader that delivers [r] and then [io.EOF]: the number of
    bytes read, the CID or the error, and what is left in the reader. *)
Definition CidFromReader (r : list Z) : Z * result cid_error (list Z) * list Z :=
  let read rest := Z.of_nat (length r) - Z.of_nat (length rest) in
  match ReadUvarint r with
  | (Err EOF, rest) => (0, Err ErrCidEOF, rest)
  | (Err e, rest) => (read rest, Err (ErrCidRead e), rest)
  | (Ok vers, r1) =>
      if vers =? SHA2_256 then
        match ReadFull 33 r1 with
        | (n, Some e) => (1 + Z.of_nat n, Err (ErrCidRead e), drop n r1)
        | (_, None) =>
            match Cast (take 34 r) with
            | Err e => (34, Err (ErrCidMultihash e), drop 34 r)
            | Ok h => (34, Ok h, drop 34 r)
            end
        end
      else if negb (vers =? 1) then (read r1, Err (ErrVersion vers), r1)
      else
        match ReadUvarint r1 with
        | (Err e, rest) => (read rest, Err (ErrCidRead e), rest)
        | (Ok _, r2) =>
            let mhStart := (length r - length r2)%nat in
            match ReadUvarint r2 with
            | (Err e, rest) => (read rest, Err (ErrCidRead e), rest)
            | (Ok _, r3) =>
                match ReadUvarint r3 with
                | (Err e, rest) => (read rest, Err (ErrCidRead e), rest)
                | (Ok mhl, r4) =>
                    if mhl >? maxDigestAlloc then (read r4, Err (ErrDigestAlloc mhl), r4)
                    else
                      let prefixLength := (length r - length r4)%nat in
                      let cidLength := (prefixLength + Z.to_nat mhl)%nat in
                      match ReadFull (Z.to_nat mhl) r4 with
                      | (n, Some e) => (Z.of_nat (prefixLength + n), Err (ErrCidRead e), drop n r4)
                      | (_, None) =>
                          let dst := take cidLength r in
                          match MHFromBytes (drop mhStart dst) with
                          | Err e => (Z.of_nat cidLength, Err (ErrCidMultihash e), drop cidLength r)
                          | Ok _ => (Z.of_nat cidLength, Ok dst, drop cidLength r)
                          end
                      end
                end
            end
        end
  end.
End cid.

(** ** The shape of a CID *)

(** [cid_of version codec hash c]: the bytes [c] of the CID with this version, codec
    and multihash. *)
Inductive cid_of : Z -> Z -> list Z -> list Z -> Prop :=
| v0_of d : length d = 32%nat -> cid_of 0 DagProtobuf (SHA2_256 :: 32 :: d) (SHA2_256 :: 32 :: d)
| v1_of codec m : 0 <= codec < 2 ^ 63 -> is_multihash m -> cid_of 1 codec m (1 :: uvarint codec ++ m).

Lemma from_cid_loop buf i x r :
  0 <= i -> from_loop buf i (7 * i) x = Ok r -> cid_uvarint_loop buf i x (7 * i) = Ok r.
Proof.
  revert i x. induction buf as [|b buf IH]; intros i x Hi; cbn [from_loop cid_uvarint_loop]; [done|].
  unfold MaxLenUvarint63. replace (7 * i >? 0) with (i >? 0) by lia.
  destruct (b <? 128) eqn:Eb.
  - repeat case_bool; try done; bool_props; try lia.
  - repeat case_bool; try done. replace (7 * i + 7) with (7 * (i + 1)) by lia. intros Hl. by apply IH; [lia|].
Qed.

Lemma cid_uvarint_ok n rest :
  0 <= n < 2 ^ 63 -> cid_uvarint (uvarint n ++ rest) = Ok (n, Z.of_nat (length (uvarint n))).
Proof.
  intros Hn. apply (from_cid_loop _ 0 0); [lia|].
  rewrite UvarintSize_length by (unfold uint64; lia). exact (FromUvarint_uvarint n rest Hn).
Qed.

Lemma FromUvarint_len n rest :
  0 <= n < 2 ^ 63 -> FromUvarint (uvarint n ++ rest) = Ok (n, Z.of_nat (length (uvarint n))).
Proof. intros Hn. rewrite UvarintSize_length by (unfold uint64; lia). by apply FromUvarint_uvarint. Qed.

Lemma v0_multihash d : length d = 32%nat -> is_multihash (SHA2_256 :: 32 :: d).
Proof. intros Hd. exists SHA2_256, d. unfold SHA2_256, MaxInt32. rewrite Hd. split_and!; [lia..|done]. Qed.

Lemma CidFromBytes_v0 d rest :
  length d = 32%nat -> CidFromBytes ((SHA2_256 :: 32 :: d) ++ rest) = Ok (34, SHA2_256 :: 32 :: d).
Proof.
  intros Hd. unfold CidFromBytes. rewrite length_app. cbn [length app nth]. rewrite !Z.eqb_refl, Hd.
  replace (2 <? _)%nat with true by (symmetry; apply Nat.ltb_lt; lia).
  replace (_ <? 34)%nat with false by (symmetry; apply Nat.ltb_ge; lia). cbn [andb].
  change (take 34 (SHA2_256 :: 32 :: d ++ rest)) with (SHA2_256 :: 32 :: take 32 (d ++ rest)).
  rewrite <- Hd, take_app_length. by rewrite is_multihash_Cast by by apply v0_multihash.
Qed.

Lemma v1_length codec m : Z.of_nat (length (1 :: uvarint codec ++ m)) = 1 + Z.of_nat (length (uvarint codec)) + Z.of_nat (length m).
Proof. cbn [length]. rewrite length_app. lia. Qed.

Lemma skip_uvarint n rest k :
  k = Z.of_nat (length (uvarint n)) -> drop (Z.to_nat (1 + k)) (1 :: uvarint n ++ rest) = rest.
Proof. intros ->. replace (Z.to_nat _) with (S (length (uvarint n))) by lia. cbn [drop]. by rewrite drop_app_length. Qed.

Lemma CidFromBytes_v1 codec m rest :
  0 <= codec < 2 ^ 63 -> is_multihash m ->
  CidFromBytes ((1 :: uvarint codec ++ m) ++ rest) = Ok (Z.of_nat (length (1 :: uvarint codec ++ m)), 1 :: uvarint codec ++ m).
Proof.
  intros Hc Hm. unfold CidFromBytes. cbn [app nth]. change (1 =? SHA2_256) with false. rewrite andb_false_r. cbn [andb].
  change (1 :: (uvarint codec ++ m) ++ rest) with (uvarint 1 ++ ((uvarint codec ++ m) ++ rest)) at 1.
  rewrite FromUvarint_len by lia. change (Z.of_nat (length (uvarint 1))) with 1. change (negb (1 =? 1)) with false. cbv iota.
  change (drop (Z.to_nat 1) (1 :: (uvarint codec ++ m) ++ rest)) with ((uvarint codec ++ m) ++ rest).
  rewrite <- app_assoc, FromUvarint_len, skip_uvarint, MHFromBytes_app by done. rewrite v1_length. f_equal. f_equal.
  rewrite app_assoc. change (1 :: (uvarint codec ++ m) ++ rest) with ((1 :: uvarint codec ++ m) ++ rest).
  replace (Z.to_nat _) with (length (1 :: uvarint codec ++ m)) by (cbn [length]; rewrite length_app; lia). by rewrite take_app_length.
Qed.

Lemma CidFromBytes_of v codec h c rest :
  cid_of v codec h c -> CidFromBytes (c ++ rest) = Ok (Z.of_nat (length c), c).
Proof.
  intros [d Hd|codec' m Hc Hm]; [|by apply CidFromBytes_v1]. rewrite CidFromBytes_v0 by done. cbn [length]. by rewrite Hd.
Qed.

Lemma CidFromBytes_inv data n c :
  bytes_ok data -> CidFromBytes data = Ok (n, c) ->
  exists v codec h rest, cid_of v codec h c /\ data = c ++ rest /\ n = Z.of_nat (length c).
Proof.
  intros Hb. unfold CidFromBytes. case_bool.
  - destruct data as [|a [|b data]]; [done..|]. cbn [nth] in *. bool_props. subst a b.
    destruct (length _ <? 34)%nat eqn:El; [done|]. apply Nat.ltb_ge in El. cbn [length] in El.
    destruct (Cast _) as [h|] eqn:E; [|done]. intros [= <- <-].
    apply Cast_is_multihash in E as [-> _]; [|by apply Forall_take]. cbn [take].
    exists 0, DagProtobuf, (SHA2_256 :: 32 :: take 32 data), (drop 32 data). split_and!.
    + apply v0_of. rewrite length_take. lia.
    + cbn [app]. by rewrite take_drop.
    + cbn [length]. rewrite length_take. lia.
  - destruct (FromUvarint data) as [[vers k]|] eqn:E1; [|done]. destruct (negb _) eqn:Ev; [done|]. bool_props. subst vers.
    destruct (FromUvarint_inv _ _ _ Hb E1) as (_ & rest1 & -> & ->). change (Z.of_nat (length (uvarint 1))) with 1.
    change (uvarint 1) with [1]. cbn [app]. change (drop (Z.to_nat 1) (1 :: rest1)) with rest1.
    apply Forall_app in Hb as [_ Hb]. destruct (FromUvarint rest1) as [[codec cn]|] eqn:E2; [|done].
    destruct (FromUvarint_inv _ _ _ Hb E2) as (Hcodec & rest2 & -> & ->). rewrite skip_uvarint by done.
    apply Forall_app in Hb as [_ Hb]. destruct (MHFromBytes rest2) as [[nr m]|] eqn:E3; [|done].
    destruct (MHFromBytes_inv _ _ _ Hb E3) as (Hm & rest & -> & ->). intros [= <- <-].
    exists 1, codec, m, rest. rewrite app_assoc. change (1 :: (uvarint codec ++ m) ++ rest) with ((1 :: uvarint codec ++ m) ++ rest).
    replace (Z.to_nat _) with (length (1 :: uvarint codec ++ m)) by (cbn [length]; rewrite length_app; lia).
    rewrite take_app_length. split_and!; [by constructor|done|]. by rewrite v1_length.
Qed.

(** [CidFromBytes] reads exactly the CIDs: it succeeds on the bytes of a CID of either
    version followed by anything, and whatever it returns is such a CID, with its
    length, at the front of the data. *)
Theorem CidFromBytes_exact data n c :
  bytes_ok data ->
  (CidFromBytes data = Ok (n, c) <->
   exists v codec h rest, cid_of v codec h c /\ data = c ++ rest /\ n = Z.of_nat (length c)).
Proof.
  intros Hb. split; [by apply CidFromBytes_inv|]. intros (v & codec & h & rest & Hc & -> & ->). by eapply CidFromBytes_of.
Qed.

Lemma cid_Cast_of v codec h c : cid_of v codec h c -> cid_Cast c = Ok c.
Proof.
  intros Hc. unfold cid_Cast. rewrite <- (app_nil_r c) at 1. rewrite (CidFromBytes_of v codec h) by done. by rewrite Z.eqb_refl.
Qed.

(** The version of the bytes of a version 1 CID is 1: they do not start with 18. *)
Lemma Version_v1 rest : Version (1 :: rest) = 1.
Proof. unfold Version. cbn [nth]. by rewrite andb_false_r. Qed.

Lemma Version_v0 d : length d = 32%nat -> Version (SHA2_256 :: 32 :: d) = 0.
Proof. intros Hd. unfold Version. cbn [length nth]. by rewrite Hd. Qed.

Lemma cid_Type_of v codec h c : cid_of v codec h c -> cid_Type c = codec.
Proof.
  intros [d Hd|codec' m Hc Hm]; unfold cid_Type; [by rewrite Version_v0|]. rewrite Version_v1.
  change (1 :: uvarint codec' ++ m) with (uvarint 1 ++ uvarint codec' ++ m) at 1.
  rewrite cid_uvarint_ok by lia. change (drop _ (1 :: ?l)) with l. by rewrite cid_uvarint_ok by done.
Qed.

Lemma version_uvarint l : FromUvarint (1 :: l) = Ok (1, 1).
Proof. reflexivity. Qed.

Lemma cid_Hash_of v codec h c : cid_of v codec h c -> cid_Hash c = h.
Proof.
  intros [d Hd|codec' m Hc Hm]; unfold cid_Hash; [by rewrite Version_v0|]. rewrite Version_v1.
  rewrite version_uvarint. cbn [ignore snd]. change (drop (Z.to_nat 1) (1 :: ?l)) with l.
  rewrite FromUvarint_len by done. by apply skip_uvarint.
Qed.

(** The prefix of a CID, as [Prefix] should compute it. *)
Definition prefix_of (v codec : Z) (h : list Z) : CidPrefix :=
  match Multihash.Decode h with
  | Ok dm => mkCidPrefix v codec (mh_Code dm) (mh_Length dm)
  | Err _ => mkCidPrefix 0 0 0 0
  end.

Lemma drop_prefix (k : nat) (l1 l2 : list Z) : k = length l1 -> drop k (l1 ++ l2) = l2.
Proof. intros ->. apply drop_app_length. Qed.

Lemma cid_Prefix_of v codec h c : cid_of v codec h c -> cid_Prefix c = prefix_of v codec h.
Proof.
  intros [d Hd|codec' m Hc (code & dig & Hcode & Hl & ->)]; unfold cid_Prefix, prefix_of.
  - rewrite Version_v0 by done. change (SHA2_256 :: 32 :: d) with (uvarint SHA2_256 ++ uvarint 32 ++ d).
    replace 32 with (Z.of_nat (length d)) by lia. rewrite Decode_encoded by (unfold SHA2_256, MaxInt32; lia). done.
  - rewrite Version_v1, Decode_encoded by done. cbn [mh_Code mh_Length]. unfold MaxInt32 in Hl.
    set (len := Z.of_nat (length dig)) in *.
    change (1 :: uvarint codec' ++ uvarint code ++ uvarint len ++ dig)
      with (uvarint 1 ++ uvarint codec' ++ uvarint code ++ uvarint len ++ dig).
    rewrite cid_uvarint_ok by lia. cbn [ignore]. rewrite (drop_prefix _ (uvarint 1)) by apply Nat2Z.id.
    rewrite cid_uvarint_ok by lia. cbn [ignore]. rewrite (app_assoc (uvarint 1)).
    rewrite (drop_prefix _ (uvarint 1 ++ uvarint codec')) by (rewrite length_app; lia).
    rewrite cid_uvarint_ok by lia. cbn [ignore]. rewrite (app_assoc _ (uvarint code)).
    rewrite (drop_prefix _ ((uvarint 1 ++ uvarint codec') ++ uvarint code)) by (rewrite !length_app; lia).
    rewrite cid_uvarint_ok by lia. cbn [ignore]. rewrite wrap64_id; [done|]. unfold int64, MinInt64, MaxInt64. lia.
Qed.

Lemma tryNewCidV0_ok d : length d = 32%nat -> tryNewCidV0 (SHA2_256 :: 32 :: d) = Ok (SHA2_256 :: 32 :: d).
Proof.
  intros Hd. unfold tryNewCidV0. change (SHA2_256 :: 32 :: d) with (uvarint SHA2_256 ++ uvarint 32 ++ d).
  replace (uvarint 32) with (uvarint (Z.of_nat (length d))) by (by rewrite Hd).
  rewrite Decode_encoded by (unfold SHA2_256, MaxInt32; lia). cbn [mh_Code mh_Length]. by rewrite Hd.
Qed.

Lemma NewCidV1_spec codec m : uint64 codec -> NewCidV1 codec m = Some (1 :: uvarint codec ++ m).
Proof.
  intros Hc. unfold NewCidV1. pose proof (groups_short 10 codec).
  rewrite PutUvarint_spec by (done || (rewrite length_replicate; done)). by rewrite take_app_length.
Qed.

Lemma NewCid_of v codec h c : cid_of v codec h c -> (if v =? 0 then NewCidV0 h else NewCidV1 codec h) = Some c.
Proof.
  intros [d Hd|codec' m Hc Hm]; cbn [Z.eqb].
  - unfold NewCidV0. by rewrite tryNewCidV0_ok.
  - apply NewCidV1_spec. unfold uint64. lia.
Qed.

(** The version, codec, multihash and prefix read off a CID are those it is made
    of, [Cast] accepts its bytes, and the constructors build it: [NewCidV0] and
    [NewCidV1] never panic on a multihash of the right kind. *)
Theorem cid_projections v codec h c :
  cid_of v codec h c ->
  Version c = v /\ cid_Type c = codec /\ cid_Hash c = h /\ cid_Prefix c = prefix_of v codec h /\ cid_Cast c = Ok c /\
  (if v =? 0 then NewCidV0 h else NewCidV1 codec h) = Some c.
Proof.
  intros Hc. split_and!.
  - destruct Hc; [by apply Version_v0|apply Version_v1].
  - by eapply cid_Type_of.
  - by eapply cid_Hash_of.
  - by apply cid_Prefix_of.
  - by eapply cid_Cast_of.
  - by apply NewCid_of.
Qed.

(** ** Texts *)

Section text.
Context {b58 : Base58} {b58_laws : Base58Laws}.

Lemma mb_Encode_head base data s : mb_Encode base data = Some (Some s) -> exists t, s = EncodeRune base ++ t.
Proof.
  unfold mb_Encode. repeat case_match;
    try discriminate; intros E%(inj Some)%(inj Some); by eexists.
Qed.

Lemma mb_Encode_unsupported base data : base ∉ supported -> mb_Encode base data = Some None.
Proof.
  unfold supported. rewrite !not_elem_of_cons. intros Hn. destruct_and! Hn. unfold mb_Encode.
  repeat match goal with H : base <> ?k |- _ => apply Z.eqb_neq in H; rewrite H; clear H end. reflexivity.
Qed.

(** No text of a base starts like one of a version 0 CID. *)
Lemma head_not_Q base t : base ∈ supported -> HasPrefix (EncodeRune base ++ t) (str "Qm") = false.
Proof.
  intros Hin. assert (Forall (fun base => EncodeRune base <> [] /\ nth 0 (EncodeRune base) 0 <> 81) supported) as H
    by (apply (bool_decide_unpack _); vm_compute; exact I).
  rewrite Forall_forall in H. destruct (H base Hin) as [H1 H2]. destruct (EncodeRune base) as [|b l]; [done|].
  change (str "Qm") with [81; 109]. cbn [app HasPrefix nth] in *. by replace (b =? 81) with false by lia.
Qed.

(** A text of some bytes has more than its prefix. *)
Lemma text_long base data s :
  base ∈ supported -> bytes_ok data -> data <> [] -> mb_Encode base data = Some (Some s) -> (2 <= length s)%nat.
Proof.
  intros Hin Hb Hne E. destruct (mb_roundtrip base data Hin Hb (or_introl Hne)) as (s' & E' & D).
  assert (s' = s) as -> by congruence. destruct (mb_Encode_head _ _ _ E) as [t ->]. clear E'.
  assert (t = [] -> length (EncodeRune base) = 1%nat -> False) as Hlong.
  { intros -> H1. rewrite app_nil_r in *. revert H1 D E. clear -Hin Hb Hne b58_laws. unfold supported in Hin.
    repeat (apply elem_of_cons in Hin as [->|Hin]); [..|apply elem_of_nil in Hin; destruct Hin]; intros H1 D E;
      try discriminate H1; try (vm_compute in D; congruence); revert E.
    - change (mb_Encode Base58BTC data) with (Some (Some (Base58BTC :: b58_EncodeAlphabet BTCAlphabet data))).
      intros E%(inj Some)%(inj Some). apply (b58_nonempty BTCAlphabet data Hb Hne). by injection E.
    - change (mb_Encode Base58Flickr data) with (Some (Some (Base58Flickr :: b58_EncodeAlphabet FlickrAlphabet data))).
      intros E%(inj Some)%(inj Some). apply (b58_nonempty FlickrAlphabet data Hb Hne). by injection E. }
  rewrite length_app. assert (EncodeRune base <> []) as Hr by (unfold EncodeRune; by repeat case_match).
  destruct (EncodeRune base) as [|b [|]]; [done| |cbn [length]; lia]. destruct t; [by destruct Hlong|cbn [length]; lia].
Qed.

Lemma cid_nonempty v codec h c : cid_of v codec h c -> c <> [].
Proof. by intros []. Qed.

Lemma cid_of_bytes_v1 codec h c base :
  cid_of 1 codec h c -> bytes_ok c -> base ∈ supported ->
  exists s, mb_Encode base c = Some (Some s) /\ cid_Decode s = Some (Ok c).
Proof.
  intros Hc Hb Hin. pose proof (cid_nonempty _ _ _ _ Hc) as Hne.
  destruct (mb_roundtrip base c Hin Hb (or_introl Hne)) as (s & E & D). exists s. split; [done|].
  unfold cid_Decode, is_v0_text. pose proof (text_long base c s Hin Hb Hne E) as Hl. apply Nat.ltb_ge in Hl as ->.
  rewrite D, (cid_Cast_of _ _ _ _ Hc). destruct (mb_Encode_head _ _ _ E) as [t ->]. by rewrite head_not_Q, andb_false_r.
Qed.

Lemma cid_Decode_v0 d :
  bytes_ok d -> length d = 32%nat -> cid_Decode (B58String (SHA2_256 :: 32 :: d)) = Some (Ok (SHA2_256 :: 32 :: d)).
Proof.
  intros Hd Hl. destruct (b58_sha256 d Hd Hl) as [Hq H46]. unfold cid_Decode, is_v0_text, B58String.
  change SHA2_256 with 18. rewrite Hq, H46.
  cbn [Nat.ltb Nat.leb Nat.eqb andb]. unfold FromB58String. rewrite b58_inv; [|by repeat constructor|done].
  rewrite is_multihash_Cast by by apply v0_multihash. by rewrite tryNewCidV0_ok.
Qed.

(** A CID is read back from its text: from [String], and from [StringOfBase] in any base,
    which has a text for every supported base of a version 1 CID and for base58btc of a
    version 0 one. *)
Theorem cid_text_roundtrip v codec h c base :
  cid_of v codec h c -> bytes_ok c ->
  (exists s, cid_String c = Some s /\ cid_Decode s = Some (Ok c)) /\
  (if bool_decide (base ∈ (if v =? 0 then [Base58BTC] else supported))
   then exists s, StringOfBase c base = Some (Ok s) /\ cid_Decode s = Some (Ok c)
   else exists e, StringOfBase c base = Some (Err e)).
Proof.
  intros Hc Hb. assert (Hc' := Hc). destruct Hc as [d Hd|codec m Hcodec Hm].
  - pose proof (Forall_drop _ 2 _ Hb) as Hb'. cbn [drop] in Hb'. cbn [Z.eqb]. unfold cid_String, StringOfBase.
    rewrite Version_v0, (cid_Hash_of _ _ _ _ Hc') by done. cbn [Z.eqb]. split; [eexists; split; [done|by apply cid_Decode_v0]|].
    case_bool_decide as Hin; rewrite list_elem_of_singleton in Hin.
    + subst base. rewrite Z.eqb_refl. eexists; split; [done|by apply cid_Decode_v0].
    + apply Z.eqb_neq in Hin. rewrite Hin. by eexists.
  - cbn [Z.eqb]. unfold cid_String, StringOfBase. rewrite Version_v1. cbn [Z.eqb]. split.
    + destruct (cid_of_bytes_v1 _ _ _ Base32 Hc' Hb) as (s & -> & D); [in_list|]. by exists s.
    + case_bool_decide as Hin.
      * destruct (cid_of_bytes_v1 _ _ _ base Hc' Hb Hin) as (s & -> & D). by exists s.
      * rewrite mb_Encode_unsupported by done. by eexists.
Qed.

Lemma mb_Decode_supported s enc b :
  mb_Decode s = Some (Some (enc, b)) -> enc = (DecodeRune s).1 /\ enc ∈ supported.
Proof.
  unfold mb_Decode. case_match; [discriminate|]. cbv zeta. destruct (DecodeRune s) as [r k]. cbn [fst].
  repeat match goal with |- context [if ?c then _ else _] => destruct c eqn:? end; try discriminate;
    repeat case_match; try discriminate; intros E%(inj Some)%(inj Some); injection E as <- <-; (split; [reflexivity|]);
    repeat match goal with H : _ || _ = true |- _ => apply orb_prop in H as [H|H] | H : (r =? _) = true |- _ => apply Z.eqb_eq in H end;
    subst r; in_list.
Qed.

Lemma supported_ascii x : x ∈ supported -> x < 128 \/ x = Base256Emoji.
Proof.
  assert (Forall (fun x => x < 128 \/ x = Base256Emoji) supported) as Hf by (apply (bool_decide_unpack _); vm_compute; exact I).
  rewrite Forall_forall in Hf. apply Hf.
Qed.

Lemma DecodeRune_ascii b s : b < 128 -> (DecodeRune (b :: s)).1 = b.
Proof. intros Hb. unfold DecodeRune. by replace (b <? 128) with true by lia. Qed.

(** [ExtractEncoding] finds the base of a text that [Decode] accepts, unless the text is
    in the one base whose prefix is not a single byte (base256emoji), where it fails. *)
Theorem ExtractEncoding_gap s c :
  bytes_ok s -> cid_Decode s = Some (Ok c) -> ((exists e, ExtractEncoding s = Ok e) <-> nth 0 s 0 < 128).
Proof.
  intros Hs. unfold cid_Decode, ExtractEncoding. destruct (length s <? 2)%nat eqn:El; [discriminate|].
  destruct s as [|b s]; [done|]. destruct (is_v0_text (b :: s)) eqn:Eq.
  - intros _. split; [|by eexists]. intros _. unfold is_v0_text in Eq. apply andb_prop in Eq as [_ Eq].
    change (str "Qm") with [81; 109] in Eq. cbn [HasPrefix] in Eq. apply andb_prop in Eq as [Eq%Z.eqb_eq _]. cbn [nth]. lia.
  - destruct (mb_Decode (b :: s)) as [[[enc data]|]|] eqn:Ed; try discriminate. intros _.
    destruct (mb_Decode_supported _ _ _ Ed) as [Henc Hin]. cbn [nth]. case_bool_decide as Hb.
    + split; [|by eexists]. intros _. apply Forall_cons_1 in Hs as [Hbyte _]. unfold is_byte in Hbyte.
      apply supported_ascii in Hb as [Hb|Hb]; [exact Hb|]. unfold Base256Emoji in Hb. lia.
    + split; [by intros [e He]|]. intros Hlt. rewrite DecodeRune_ascii in Henc by done. subst enc. contradiction.
Qed.
End text.

(** ** Reading a CID from a stream *)

(** The digest is small enough for the reader. *)
Definition small_digest (c : list Z) : Prop := px_MhLength (cid_Prefix c) <= maxDigestAlloc.

Lemma small_v1 codec code dig :
  0 <= codec < 2 ^ 63 -> 0 <= code < 2 ^ 63 -> Z.of_nat (length dig) <= MaxInt32 ->
  (small_digest (1 :: uvarint codec ++ uvarint code ++ uvarint (Z.of_nat (length dig)) ++ dig) <->
   Z.of_nat (length dig) <= maxDigestAlloc).
Proof.
  intros Hc Hcode Hl. unfold small_digest.
  rewrite (cid_Prefix_of 1 codec (uvarint code ++ uvarint (Z.of_nat (length dig)) ++ dig)) by (constructor; [done|by exists code, dig]).
  unfold prefix_of. by rewrite Decode_encoded.
Qed.

Lemma CidFromReader_v1 codec code dig rest :
  0 <= codec < 2 ^ 63 -> 0 <= code < 2 ^ 63 -> Z.of_nat (length dig) <= maxDigestAlloc ->
  let c := 1 :: uvarint codec ++ uvarint code ++ uvarint (Z.of_nat (length dig)) ++ dig in
  CidFromReader (c ++ rest) = (Z.of_nat (length c), Ok c, rest).
Proof.
  intros Hc Hcode Hl c. assert (Z.of_nat (length dig) <= MaxInt32) as Hmax by (unfold maxDigestAlloc, MaxInt32 in *; lia).
  assert (Z.of_nat (length dig) < 2 ^ 63) as H63 by (unfold MaxInt32 in *; lia).
  set (pre := 1 :: uvarint codec ++ uvarint code ++ uvarint (Z.of_nat (length dig))).
  assert (c = pre ++ dig) as Ec by (unfold c, pre; cbn [app]; by rewrite <- !app_assoc).
  unfold CidFromReader. rewrite (ReadUvarint_ok (c ++ rest) 1 1) by done.
  change (drop (Z.to_nat 1) (c ++ rest)) with ((uvarint codec ++ uvarint code ++ uvarint (Z.of_nat (length dig)) ++ dig) ++ rest).
  cbn [Z.eqb negb]. change (1 =? SHA2_256) with false. cbv iota. rewrite <- !app_assoc, !ReadUvarint_app by lia.
  replace (_ >? maxDigestAlloc) with false by lia. unfold ReadFull. rewrite Nat2Z.id.
  replace (_ <=? length (dig ++ rest))%nat with true by (symmetry; apply Nat.leb_le; rewrite length_app; lia).
  cbv zeta. set (L := uvarint codec) in *. set (C := uvarint code) in *. set (D := uvarint (Z.of_nat (length dig))) in *.
  replace (length (c ++ rest) - length (dig ++ rest) + length dig)%nat with (length c)
    by (rewrite Ec; unfold pre; repeat (cbn [length] || rewrite length_app); lia).
  replace (length (c ++ rest) - length (C ++ D ++ dig ++ rest))%nat with (length (1 :: L))
    by (unfold c; repeat (cbn [length] || rewrite length_app); lia).
  rewrite take_app_length, drop_app_length. change c with ((1 :: L) ++ C ++ D ++ dig). rewrite (drop_prefix _ (1 :: L)) by done.
  pose proof (MHFromBytes_app (C ++ D ++ dig) [] ltac:(by exists code, dig)) as Hm. rewrite app_nil_r in Hm. by rewrite Hm.
Qed.

Lemma CidFromReader_v0 d rest :
  length d = 32%nat -> CidFromReader ((SHA2_256 :: 32 :: d) ++ rest) = (34, Ok (SHA2_256 :: 32 :: d), rest).
Proof.
  intros Hd. unfold CidFromReader. rewrite (ReadUvarint_ok _ SHA2_256 1) by done.
  change (drop (Z.to_nat 1) ((SHA2_256 :: 32 :: d) ++ rest)) with ((32 :: d) ++ rest). rewrite Z.eqb_refl. unfold ReadFull.
  replace (33 <=? length _)%nat with true
    by (symmetry; apply Nat.leb_le; rewrite length_app; cbn [length]; lia).
  cbv iota zeta. replace 34%nat with (length (SHA2_256 :: 32 :: d)) by (cbn [length]; lia).
  rewrite take_app_length, drop_app_length. by rewrite is_multihash_Cast by by apply v0_multihash.
Qed.

Lemma CidFromReader_of v codec h c rest :
  cid_of v codec h c -> small_digest c -> CidFromReader (c ++ rest) = (Z.of_nat (length c), Ok c, rest).
Proof.
  intros [d Hd|codec' m Hc (code & dig & Hcode & Hl & ->)].
  - intros _. rewrite CidFromReader_v0 by done. cbn [length]. by rewrite Hd.
  - rewrite small_v1 by done. intros Hs. by apply CidFromReader_v1.
Qed.

(** Two bytes at the front of 34 that are a SHA2-256 multihash are 18 and 32. *)
Lemma sha256_34 l : length l = 33%nat -> is_multihash (SHA2_256 :: l) -> exists d, l = 32 :: d /\ length d = 32%nat.
Proof.
  intros Hl (code & dig & Hc & Hm & E). unfold MaxInt32 in Hm.
  pose proof (ReadUvarint_app SHA2_256 l ltac:(unfold SHA2_256; lia)) as E1. change (uvarint SHA2_256 ++ l) with (SHA2_256 :: l) in E1.
  rewrite E, ReadUvarint_app in E1 by done. injection E1 as _ E1. subst l. rewrite length_app in Hl.
  destruct (Z_lt_dec (Z.of_nat (length dig)) 128) as [H128|]; [|lia].
  assert (uvarint (Z.of_nat (length dig)) = [Z.of_nat (length dig)]) as Eu
    by (unfold uvarint; cbn [groups]; by replace (_ <? 128) with true by lia).
  rewrite Eu in *. cbn [length] in Hl. exists dig. split; [|lia]. cbn [app]. f_equal. lia.
Qed.

Lemma CidFromReader_inv r n c rest :
  bytes_ok r -> CidFromReader r = (n, Ok c, rest) ->
  exists v codec h, cid_of v codec h c /\ small_digest c /\ r = c ++ rest.
Proof.
  intros Hb E0. pose proof E0 as E. revert E. unfold CidFromReader.
  destruct (ReadUvarint r) as [[vers|[]] r1] eqn:E1; try done. destruct (ReadUvarint_inv _ _ _ Hb E1) as [_ ->]. apply Forall_app in Hb as [_ Hb].
  destruct (vers =? SHA2_256) eqn:Ev.
  - apply Z.eqb_eq in Ev as ->. change (uvarint SHA2_256 ++ r1) with (SHA2_256 :: r1). unfold ReadFull.
    destruct (33 <=? length r1)%nat eqn:El; [|by repeat case_match]. apply Nat.leb_le in El.
    change (take 34 (SHA2_256 :: r1)) with (SHA2_256 :: take 33 r1). change (drop 34 (SHA2_256 :: r1)) with (drop 33 r1).
    destruct (Cast _) as [h|] eqn:Ec; [|done]. intros [= <- <- <-].
    apply Cast_is_multihash in Ec as [-> Hm]; [|apply Forall_cons_2; [unfold is_byte, SHA2_256; lia|by apply Forall_take]].
    destruct (sha256_34 (take 33 r1)) as (d & Ed & Hd); [rewrite length_take; lia|done|]. rewrite Ed.
    exists 0, DagProtobuf, (SHA2_256 :: 32 :: d). split_and!; [by constructor| |].
    + unfold small_digest, cid_Prefix. by rewrite Version_v0.
    + cbn [app]. rewrite app_comm_cons, <- Ed. by rewrite take_drop.
  - destruct (negb _) eqn:E1v; [done|]. bool_props. subst vers. change (uvarint 1 ++ r1) with (1 :: r1).
    destruct (ReadUvarint r1) as [[codec|] r2] eqn:E2; [|done]. destruct (ReadUvarint_inv _ _ _ Hb E2) as [Hcodec ->].
    apply Forall_app in Hb as [_ Hb]. destruct (ReadUvarint r2) as [[code|] r3] eqn:E3; [|done].
    destruct (ReadUvarint_inv _ _ _ Hb E3) as [Hcode ->]. apply Forall_app in Hb as [_ Hb].
    destruct (ReadUvarint r3) as [[mhl|] r4] eqn:E4; [|done]. destruct (ReadUvarint_inv _ _ _ Hb E4) as [Hmhl ->].
    destruct (mhl >? maxDigestAlloc) eqn:Ea; [done|]. unfold ReadFull.
    destruct (Z.to_nat mhl <=? length r4)%nat eqn:El; [|by repeat case_match]. apply Nat.leb_le in El.
    assert (exists dig rest', r4 = dig ++ rest' /\ Z.of_nat (length dig) = mhl) as (dig & rest' & -> & Hd).
    { exists (take (Z.to_nat mhl) r4), (drop (Z.to_nat mhl) r4). rewrite take_drop, length_take. split; [done|lia]. }
    bool_props. assert (mhl <= MaxInt32) by (unfold maxDigestAlloc, MaxInt32 in *; lia). subst mhl.
    pose proof (CidFromReader_v1 codec code dig rest' Hcodec Hcode ltac:(lia)) as Hr. cbv zeta in Hr.
    intros _. set (c' := 1 :: uvarint codec ++ uvarint code ++ uvarint (Z.of_nat (length dig)) ++ dig) in *.
    assert (uvarint 1 ++ uvarint codec ++ uvarint code ++ uvarint (Z.of_nat (length dig)) ++ dig ++ rest' = c' ++ rest') as Er
      by (unfold c'; cbn [app]; by rewrite <- !app_assoc).
    rewrite Er, Hr in E0. injection E0 as <- <- <-. exists 1, codec, (uvarint code ++ uvarint (Z.of_nat (length dig)) ++ dig).
    split_and!; [constructor; [done|by exists code, dig]|by apply small_v1|done].
Qed.

Lemma ReadFull_count k r n e : ReadFull k r = (n, e) -> (n <= length r)%nat /\ (e = None -> n = k).
Proof.
  unfold ReadFull. destruct (Nat.leb_spec k (length r)); [|case_match]; intros [= <- <-]; split; try done; lia.
Qed.

Lemma CidFromReader_count r :
  bytes_ok r -> (CidFromReader r).1.1 = Z.of_nat (length r) - Z.of_nat (length (CidFromReader r).2).
Proof.
  intros Hb. unfold CidFromReader. destruct (ReadUvarint r) as [[vers|e] r1] eqn:E1.
  2: { destruct e; [|done..]. destruct r as [|b r]; [by injection E1 as <-|]. unfold ReadUvarint in E1.
       pose proof (read_loop_from (b :: r) 0 0 ltac:(lia)) as Hf. change (7 * 0) with 0 in Hf. rewrite E1 in Hf. cbn [fst] in Hf.
       by repeat case_match. }
  destruct (ReadUvarint_inv _ _ _ Hb E1) as [_ ->]. apply Forall_app in Hb as [_ Hb]. destruct (vers =? SHA2_256) eqn:Ev.
  { apply Z.eqb_eq in Ev as ->. change (uvarint SHA2_256 ++ r1) with (SHA2_256 :: r1).
    destruct (ReadFull 33 r1) as [n [e|]] eqn:Er; apply ReadFull_count in Er as [Hn Hk].
    - cbn [fst snd length]. rewrite length_drop. lia.
    - specialize (Hk eq_refl). destruct (Cast _); cbn [fst snd]; rewrite length_drop; cbn [length]; lia. }
  destruct (negb _); [done|]. destruct (ReadUvarint r1) as [[codec|] r2] eqn:E2; [|done].
  destruct (ReadUvarint_inv _ _ _ Hb E2) as [_ ->]. apply Forall_app in Hb as [_ Hb].
  destruct (ReadUvarint r2) as [[code|] r3] eqn:E3; [|done]. destruct (ReadUvarint_inv _ _ _ Hb E3) as [_ ->].
  apply Forall_app in Hb as [_ Hb]. destruct (ReadUvarint r3) as [[mhl|] r4] eqn:E4; [|done].
  destruct (ReadUvarint_inv _ _ _ Hb E4) as [_ ->]. destruct (mhl >? maxDigestAlloc); [done|].
  destruct (ReadFull (Z.to_nat mhl) r4) as [n [e|]] eqn:Er; apply ReadFull_count in Er as [Hn Hk]; cbv zeta.
  - cbn [fst snd]. rewrite length_drop, !length_app. lia.
  - specialize (Hk eq_refl). destruct (MHFromBytes _); cbn [fst snd]; rewrite length_drop, !length_app; lia.
Qed.

(** Reading a CID from a stream agrees with reading it from the bytes of the stream, up
    to the bound on the size of a digest, and consumes just the CID; and on every outcome,
    errors included, the count returned is the number of bytes taken from the reader. *)
Theorem CidFromReader_exact r :
  bytes_ok r ->
  let '(n, o, rest) := CidFromReader r in
  n = Z.of_nat (length r) - Z.of_nat (length rest) /\
  forall c, o = Ok c <-> CidFromBytes r = Ok (n, c) /\ small_digest c.
Proof.
  intros Hb. pose proof (CidFromReader_count r Hb) as Hn. destruct (CidFromReader r) as [[n o] rest] eqn:E. split; [done|].
  intros c. split.
  - intros ->. destruct (CidFromReader_inv _ _ _ _ Hb E) as (v & codec & h & Hc & Hs & ->). split; [|done].
    rewrite (CidFromBytes_of v codec h) by done. rewrite (CidFromReader_of v codec h) in E by done. congruence.
  - intros [Ef Hs]. destruct (CidFromBytes_inv _ _ _ Hb Ef) as (v & codec & h & rest' & Hc & -> & ->).
    rewrite (CidFromReader_of v codec h) in E by done. congruence.
Qed.

(** ** Prefixes *)

Lemma put_all_spec vs :
  Forall uint64 vs ->
  put_all (replicate (length (concat (map uvarint vs))) 0) vs = Some (concat (map uvarint vs), length (concat (map uvarint vs))).
Proof.
  induction 1 as [|v vs Hv _ IH]; [done|]. cbn [map concat put_all]. rewrite length_app.
  rewrite PutUvarint_spec by (done || (rewrite length_replicate; lia)).
  rewrite drop_replicate, drop_app_length, take_app_length. replace (_ - _)%nat with (length (concat (map uvarint vs))) by lia.
  by rewrite IH.
Qed.

Lemma sizes_length vs :
  Forall uint64 vs -> Z.to_nat (fold_right Z.add 0 (map UvarintSize vs)) = length (concat (map uvarint vs)) /\
  0 <= fold_right Z.add 0 (map UvarintSize vs).
Proof.
  induction 1 as [|v vs Hv _ [IH1 IH2]]; [done|]. cbn [map fold_right concat]. rewrite length_app, <- IH1.
  pose proof (UvarintSize_length v Hv). lia.
Qed.

(** [Prefix.Bytes] never panics and [PrefixFromBytes] reads it back, whatever follows. *)
Theorem prefix_roundtrip p rest :
  0 <= px_Version p < 2 ^ 63 -> 0 <= px_Codec p < 2 ^ 63 -> 0 <= px_MhType p < 2 ^ 63 -> 0 <= px_MhLength p < 2 ^ 63 ->
  exists b, Prefix_Bytes p = Some b /\ PrefixFromBytes (b ++ rest) = Ok p.
Proof.
  intros H1 H2 H3 H4. unfold Prefix_Bytes. set (vs := [px_Version p; px_Codec p; px_MhType p; wrapu64 (px_MhLength p)]).
  assert (wrapu64 (px_MhLength p) = px_MhLength p) as Hw by (apply wrapu64_id; unfold uint64; lia).
  assert (Forall uint64 vs) as Hvs by (unfold vs; rewrite Hw; repeat constructor; lia).
  destruct (sizes_length vs Hvs) as [-> _]. rewrite put_all_spec, Nat.eqb_refl by done. eexists. split; [done|].
  unfold vs. rewrite Hw. cbn [map concat]. rewrite <- !app_assoc. unfold PrefixFromBytes. rewrite !ReadUvarint_app by lia.
  cbv iota. rewrite wrap64_id by (unfold int64, MinInt64, MaxInt64; lia). by destruct p.
Qed.

(** ** Examples *)

Module CidDemo.
Import Base58.Reference.

Definition digest : list Z := map Z.of_nat (seq 100 32).
Definition c0 : list Z := SHA2_256 :: 32 :: digest.
Definition c1 : list Z := 1 :: uvarint Libp2pKey ++ c0.

Lemma c0_of : cid_of 0 DagProtobuf c0 c0.
Proof. by constructor. Qed.
Lemma c1_of : cid_of 1 Libp2pKey c0 c1.
Proof. constructor; [unfold Libp2pKey; lia|by apply v0_multihash]. Qed.
Lemma c0_bytes : bytes_ok c0.
Proof. apply (bool_decide_unpack _). vm_compute. exact I. Qed.
Lemma c1_bytes : bytes_ok c1.
Proof. apply (bool_decide_unpack _). vm_compute. exact I. Qed.

Lemma CidFromBytes_exact_witness : CidFromBytes (c1 ++ [7]) = Ok (36, c1).
Proof.
  refine (proj2 (CidFromBytes_exact (c1 ++ [7]) 36 c1 _) _).
  - apply Forall_app. split; [exact c1_bytes|apply (bool_decide_unpack _); vm_compute; exact I].
  - exists 1, Libp2pKey, c0, [7]. split; [exact c1_of|by split].
Defined.

Lemma cid_projections_witness : cid_Type c1 = Libp2pKey /\ cid_Hash c1 = c0.
Proof. destruct (cid_projections 1 Libp2pKey c0 c1 c1_of) as (_ & H1 & H2 & _). exact (conj H1 H2). Defined.

Lemma cid_text_roundtrip_witness : exists s, cid_String c0 = Some s /\ cid_Decode s = Some (Ok c0).
Proof. exact (proj1 (cid_text_roundtrip 0 DagProtobuf c0 c0 Base58BTC c0_of c0_bytes)). Defined.

(** A text in base256emoji that [Decode] accepts and [ExtractEncoding] does not. *)
Definition emoji_text : list Z := match StringOfBase c1 Base256Emoji with Some (Ok s) => s | _ => [] end.

Lemma ExtractEncoding_gap_witness : cid_Decode emoji_text = Some (Ok c1) /\ ~ exists e, ExtractEncoding emoji_text = Ok e.
Proof.
  assert (cid_Decode emoji_text = Some (Ok c1)) as E by (vm_compute; reflexivity). split; [exact E|].
  rewrite (ExtractEncoding_gap emoji_text c1); [|apply (bool_decide_unpack _); vm_compute; exact I|exact E].
  vm_compute. discriminate.
Defined.

Lemma CidFromReader_exact_witness : CidFromReader (c0 ++ [9]) = (34, Ok c0, [9]) /\ CidFromBytes (c0 ++ [9]) = Ok (34, c0).
Proof.
  assert (bytes_ok (c0 ++ [9])) as Hb by (apply (bool_decide_unpack _); vm_compute; exact I).
  assert (CidFromReader (c0 ++ [9]) = (34, Ok c0, [9])) as E by (vm_compute; reflexivity). split; [exact E|].
  pose proof (CidFromReader_exact (c0 ++ [9]) Hb) as H. rewrite E in H. destruct H as [_ H]. apply (H c0). reflexivity.
Defined.

Lemma prefix_roundtrip_witness :
  exists b, Prefix_Bytes (mkCidPrefix 1 112 18 32) = Some b /\ PrefixFromBytes (b ++ [5]) = Ok (mkCidPrefix 1 112 18 32).
Proof. apply prefix_roundtrip; cbn; lia. Defined.
End CidDemo.
