(* ===== verification/Hashing.v ===== *)
(** * Hashing into multihashes and CIDs (src/multiformats/multihash/core/registry.go,
    src/multiformats/multihash/core/errata.go, src/multiformats/multihash/sum.go,
    src/multiformats/multihash/io.go, src/cid/builder.go, [Prefix.Sum] of src/cid/cid.go)

    The registry of hash functions is a state: a map from codes to factories of hashers
    and one from codes to default lengths.  The hash functions themselves are
    parameters, known only by the size of their digests.  [None] is a panic. *)

From stdpp Require Import base list numbers gmap strings.
From Stdlib Require Import ZArith Lia.
From S2P Require Import Prelude Varint Multihash Cid.

(** A [hash.Hash] into which data has been written: its [Size] and its [Sum]. *)
Record Hasher := mkHasher { h_Size : list Z -> Z; h_Sum : list Z -> list Z }.

Definition identityMultihash : Hasher := mkHasher (fun data => Z.of_nat (length data)) (fun data => data).

Record HashRegistry := mkHashRegistry {
  factories : gmap Z (Z -> option Hasher);
  DefaultLengths : gmap Z Z;
}.

Inductive sum_error := ErrSumNotSupported | ErrLenTooLarge | ErrIdentityLength.

Definition Register (indicator : Z) (hasherFactory : Hasher) (reg : HashRegistry) : HashRegistry :=
  let maxSize := h_Size hasherFactory [] in
  let factory size := if size >? maxSize then None else Some hasherFactory in
  mkHashRegistry (<[indicator := factory]> (factories reg)) (<[indicator := maxSize]> (DefaultLengths reg)).

Definition RegisterVariableSize (indicator : Z) (hasherFactory : Z -> option Hasher) (reg : HashRegistry) :
    option HashRegistry :=
  match hasherFactory (-1) with
  | None => None
  | Some hasher =>
      Some (mkHashRegistry (<[indicator := hasherFactory]> (factories reg)) (<[indicator := h_Size hasher []]> (DefaultLengths reg)))
  end.

Definition GetVariableHasher (reg : HashRegistry) (indicator sizeHint : Z) : result sum_error Hasher :=
  match factories reg !! indicator with
  | None => Err ErrSumNotSupported
  | Some factory =>
      match factory sizeHint with
      | None => Err ErrLenTooLarge
      | Some hasher => Ok hasher
      end
  end.
Definition GetHasher (reg : HashRegistry) (indicator : Z) : result sum_error Hasher := GetVariableHasher reg indicator (-1).

Definition encodeHash (hasher : Hasher) (data : list Z) (code length_ : Z) : option (result sum_error (list Z)) :=
  let sum := h_Sum hasher data in
  let length_ := if length_ <? 0 then h_Size hasher data else length_ in
  if Z.of_nat (length sum) <? length_ then Some (Err ErrLenTooLarge)
  else if (length_ >=? 0) && (code =? IDENTITY) && negb (length_ =? Z.of_nat (length sum)) then Some (Err ErrIdentityLength)
  else
    let sum := if length_ >=? 0 then take (Z.to_nat length_) sum else sum in
    match Multihash.Encode sum code with
    | Some m => Some (Ok m)
    | None => None
    end.

Definition Sum (reg : HashRegistry) (data : list Z) (code length_ : Z) : option (result sum_error (list Z)) :=
  match GetVariableHasher reg code length_ with
  | Err e => Some (Err e)
  | Ok hasher => encodeHash hasher data code length_
  end.

(** The hash functions of the standard library. *)
Class CryptoHashes := {
  md5 : list Z -> list Z;
  sha1 : list Z -> list Z;
  sha256_224 : list Z -> list Z;
  sha256 : list Z -> list Z;
  sha512_384 : list Z -> list Z;
  sha512 : list Z -> list Z;
  sha512_224 : list Z -> list Z;
  sha512_256 : list Z -> list Z;
}.

Definition sized_digest (f : list Z -> list Z) (n : nat) : Prop :=
  forall data, bytes_ok data -> length (f data) = n /\ bytes_ok (f data).
Class CryptoSizes `{!CryptoHashes} : Prop := {
  md5_size : sized_digest md5 16;
  sha1_size : sized_digest sha1 20;
  sha256_224_size : sized_digest sha256_224 28;
  sha256_size : sized_digest sha256 32;
  sha512_384_size : sized_digest sha512_384 48;
  sha512_size : sized_digest sha512 64;
  sha512_224_size : sized_digest sha512_224 28;
  sha512_256_size : sized_digest sha512_256 32;
}.

Section core_init.
Context `{!CryptoHashes}.

Definition fixed_hasher (size : Z) (f : list Z -> list Z) : Hasher := mkHasher (fun _ => size) f.

Definition doubleSha256 : Hasher := fixed_hasher 32 (fun data => sha256 (sha256 data)).

(** The hashers of [init], by code. *)
Definition std_hashers : list (Z * Hasher) :=
  [(213, fixed_hasher 16 md5);
   (17, fixed_hasher 20 sha1);
   (4115, fixed_hasher 28 sha256_224);
   (SHA2_256, fixed_hasher 32 sha256);
   (32, fixed_hasher 48 sha512_384);
   (19, fixed_hasher 64 sha512);
   (4116, fixed_hasher 28 sha512_224);
   (4117, fixed_hasher 32 sha512_256);
   (86, doubleSha256)].

Definition core_init : option HashRegistry :=
  match RegisterVariableSize IDENTITY (fun _ => Some identityMultihash) (mkHashRegistry ∅ ∅) with
  | None => None
  | Some reg => Some (fold_left (fun reg '(code, h) => Register code h reg) std_hashers reg)
  end.
End core_init.

(** ** Building CIDs *)

Section builders.
Context (reg : HashRegistry).

Inductive builder_error := ErrSum (e : sum_error) | ErrInvalidV0Prefix | ErrInvalidCidVersion.

Definition built (o : option (list Z)) : option (result builder_error (list Z)) :=
  match o with Some c => Some (Ok c) | None => None end.

Definition Prefix_Sum (p : CidPrefix) (data : list Z) : option (result builder_error (list Z)) :=
  let length_ := if px_MhType p =? IDENTITY then -1 else px_MhLength p in
  if (px_Version p =? 0) &&
     (negb (px_MhType p =? SHA2_256) || (negb (px_MhLength p =? 32) && negb (px_MhLength p =? -1)))
  then Some (Err ErrInvalidV0Prefix)
  else
    match Sum reg data (px_MhType p) length_ with
    | None => None
    | Some (Err e) => Some (Err (ErrSum e))
    | Some (Ok hash) =>
        if px_Version p =? 0 then built (NewCidV0 hash)
        else if px_Version p =? 1 then built (NewCidV1 (px_Codec p) hash)
        else Some (Err ErrInvalidCidVersion)
    end.

Inductive Builder :=
| PrefixBuilder (p : CidPrefix)
| V0Builder
| V1Builder (Codec MhType MhLength : Z).

Definition Builder_Sum (b : Builder) (data : list Z) : option (result builder_error (list Z)) :=
  match b with
  | PrefixBuilder p => Prefix_Sum p data
  | V0Builder =>
      match Sum reg data SHA2_256 (-1) with
      | None => None
      | Some (Err e) => Some (Err (ErrSum e))
      | Some (Ok hash) => Some (Ok hash)
      end
  | V1Builder codec mhType mhLength =>
      let mhLen := if mhLength <=? 0 then -1 else mhLength in
      match Sum reg data mhType mhLen with
      | None => None
      | Some (Err e) => Some (Err (ErrSum e))
      | Some (Ok hash) => built (NewCidV1 codec hash)
      end
  end.

Definition GetCodec (b : Builder) : Z :=
  match b with
  | PrefixBuilder p => px_Codec p
  | V0Builder => DagProtobuf
  | V1Builder codec _ _ => codec
  end.

Definition WithCodec (b : Builder) (c : Z) : Builder :=
  match b with
  | PrefixBuilder p =>
      if c =? px_Codec p then PrefixBuilder p
      else PrefixBuilder (mkCidPrefix (if negb (c =? DagProtobuf) then 1 else px_Version p) c (px_MhType p) (px_MhLength p))
  | V0Builder => if c =? DagProtobuf then V0Builder else V1Builder c SHA2_256 0
  | V1Builder _ mhType mhLength => V1Builder c mhType mhLength
  end.
End builders.

(** ** Multihashes on streams *)

(** [mhReader.ReadMultihash] on a reader that delivers [r] and then [io.EOF]. *)
Inductive mh_read_error := ErrMhRead (e : read_error) | ErrMhTooLong | ErrMhCast (e : mh_error) | MhPanic.

Definition ReadMultihash (r : list Z) : result mh_read_error (list Z) * list Z :=
  match ReadUvarint r with
  | (Err e, r) => (Err (ErrMhRead e), r)
  | (Ok code, r) =>
      match ReadUvarint r with
      | (Err e, r) => (Err (ErrMhRead e), r)
      | (Ok len, r) =>
          if len >? MaxInt32 then (Err ErrMhTooLong, r)
          else
            let buf := replicate (Z.to_nat (UvarintSize code + UvarintSize len + len)) 0 in
            match PutUvarint buf code with
            | None => (Err MhPanic, r)
            | Some (buf, n) =>
                match PutUvarint (drop n buf) len with
                | None => (Err MhPanic, r)
                | Some (tail, m) =>
                    let head := take (n + m) (take n buf ++ tail) in
                    let k := (length buf - (n + m))%nat in
                    match ReadFull k r with
                    | (j, Some e) => (Err (ErrMhRead e), drop j r)
                    | (_, None) =>
                        match Cast (head ++ take k r) with
                        | Ok m => (Ok m, drop k r)
                        | Err e => (Err (ErrMhCast e), drop k r)
                        end
                    end
                end
            end
      end
  end.

(** ** Correctness *)

(** A registry as [init] leaves it: the identity, and hash functions of a fixed size
    registered with [Register]. *)
Definition fixed_factory (n : nat) (f : list Z -> list Z) (size : Z) : option Hasher :=
  if size >? Z.of_nat n then None else Some (fixed_hasher (Z.of_nat n) f).
Definition good_factory (code : Z) (factory : Z -> option Hasher) : Prop :=
  0 <= code < 2 ^ 63 /\
  if code =? IDENTITY then forall size, factory size = Some identityMultihash
  else exists n f, (n <= 64)%nat /\ sized_digest f n /\ forall size, factory size = fixed_factory n f size.
Definition good_registry (reg : HashRegistry) : Prop := map_Forall good_factory (factories reg).

Lemma Register_good code n f reg :
  0 <= code < 2 ^ 63 -> code <> IDENTITY -> (n <= 64)%nat -> sized_digest f n ->
  good_registry reg -> good_registry (Register code (fixed_hasher (Z.of_nat n) f) reg).
Proof.
  intros Hc Hne Hn Hf Hg. apply map_Forall_insert_2; [|exact Hg]. split; [done|].
  apply Z.eqb_neq in Hne as ->. exists n, f. split; [exact Hn|]. split; [exact Hf|reflexivity].
Qed.

(** Registering keeps the other hash functions; the last registration of a code wins. *)
Lemma Register_lookup code h reg code' size :
  GetVariableHasher (Register code h reg) code' size =
    if code' =? code then if size >? h_Size h [] then Err ErrLenTooLarge else Ok h else GetVariableHasher reg code' size.
Proof.
  unfold GetVariableHasher, Register. cbn [factories]. destruct (Z.eqb_spec code' code) as [->|Hne].
  - rewrite lookup_insert_eq. by destruct (size >? _).
  - by rewrite lookup_insert_ne by congruence.
Qed.

Section init_good.
Context `{!CryptoHashes} `{!CryptoSizes}.

Lemma double_size : sized_digest (fun data => sha256 (sha256 data)) 32.
Proof. intros data Hd. apply sha256_size. by apply sha256_size. Qed.

Lemma core_init_good : exists reg, core_init = Some reg /\ good_registry reg.
Proof.
  eexists. split; [reflexivity|]. unfold std_hashers, doubleSha256. cbn [fold_left].
  apply (Register_good 86 32); [lia|done|lia|exact double_size|].
  apply (Register_good 4117 32); [lia|done|lia|exact sha512_256_size|].
  apply (Register_good 4116 28); [lia|done|lia|exact sha512_224_size|].
  apply (Register_good 19 64); [lia|done|lia|exact sha512_size|].
  apply (Register_good 32 48); [lia|done|lia|exact sha512_384_size|].
  apply (Register_good SHA2_256 32); [unfold SHA2_256; lia|done|lia|exact sha256_size|].
  apply (Register_good 4115 28); [lia|done|lia|exact sha256_224_size|].
  apply (Register_good 17 20); [lia|done|lia|exact sha1_size|].
  apply (Register_good 213 16); [lia|done|lia|exact md5_size|].
  apply map_Forall_insert_2; [|apply map_Forall_empty]. split; [unfold IDENTITY; lia|]. done.
Qed.
End init_good.

Section sums.
Context (reg : HashRegistry) (Hreg : good_registry reg).

(** The digest [Sum] should encode: of the code's hash function, cut to the length asked
    for. *)
Definition digest_of (code length_ : Z) (data : list Z) : result sum_error (list Z) :=
  match factories reg !! code with
  | None => Err ErrSumNotSupported
  | Some factory =>
      match factory (-1) with
      | None => Err ErrLenTooLarge
      | Some h =>
          let d := h_Sum h data in
          if length_ <? 0 then Ok d
          else if Z.of_nat (length d) <? length_ then Err ErrLenTooLarge
          else if (code =? IDENTITY) && negb (length_ =? Z.of_nat (length d)) then Err ErrIdentityLength
          else Ok (take (Z.to_nat length_) d)
      end
  end.

Definition encoded (code : Z) (d : list Z) : list Z := uvarint code ++ uvarint (Z.of_nat (length d)) ++ d.

Lemma digest_short code length_ data d :
  bytes_ok data -> Z.of_nat (length data) <= MaxInt32 -> digest_of code length_ data = Ok d ->
  0 <= code < 2 ^ 63 /\ Z.of_nat (length d) <= MaxInt32.
Proof.
  intros Hb Hl. unfold digest_of. destruct (factories reg !! code) as [factory|] eqn:E; [|done].
  destruct (map_Forall_lookup_1 _ _ _ _ Hreg E) as [Hc Hf]. intros Hd. split; [done|]. revert Hd.
  destruct (Z.eqb_spec code IDENTITY) as [->|Hne].
  - rewrite Hf. cbn [identityMultihash h_Sum]. repeat case_match; intros [= <-]; rewrite ?length_take; lia.
  - destruct Hf as (n & f & Hn & Hf & ->). unfold fixed_factory. replace (-1 >? Z.of_nat n) with false by lia. cbn [fixed_hasher h_Sum].
    destruct (Hf data Hb) as [Hlen _]. unfold MaxInt32. repeat case_match; intros [= <-]; rewrite ?length_take, Hlen; lia.
Qed.

Lemma encodeHash_spec h data code length_ :
  0 <= code < 2 ^ 63 -> (length_ < 0 -> h_Size h data = Z.of_nat (length (h_Sum h data))) ->
  Z.of_nat (length (h_Sum h data)) <= MaxInt32 ->
  encodeHash h data code length_ =
    Some (if length_ <? 0 then Ok (encoded code (h_Sum h data))
          else if Z.of_nat (length (h_Sum h data)) <? length_ then Err ErrLenTooLarge
          else if (code =? IDENTITY) && negb (length_ =? Z.of_nat (length (h_Sum h data))) then Err ErrIdentityLength
          else Ok (encoded code (take (Z.to_nat length_) (h_Sum h data)))).
Proof.
  intros Hc Hs Hl. unfold MaxInt32 in Hl. unfold encodeHash. destruct (Z.ltb_spec length_ 0) as [Hneg|Hpos].
  - rewrite Hs by done. rewrite Z.ltb_irrefl, Z.eqb_refl, andb_false_r. replace (_ >=? 0) with true by lia.
    rewrite Nat2Z.id, firstn_all. rewrite Encode_spec; [done|unfold uint64; lia|lia].
  - destruct (Z.ltb_spec (Z.of_nat (length (h_Sum h data))) length_); [done|]. replace (length_ >=? 0) with true by lia.
    rewrite andb_true_l. case_match; [done|]. rewrite Encode_spec; [done|unfold uint64; lia|rewrite length_take; lia].
Qed.

Lemma Sum_digest code length_ data :
  bytes_ok data -> Z.of_nat (length data) <= MaxInt32 ->
  Sum reg data code length_ =
    Some (match digest_of code length_ data with Ok d => Ok (encoded code d) | Err e => Err e end).
Proof.
  intros Hb Hl. unfold Sum, digest_of, GetVariableHasher. destruct (factories reg !! code) as [factory|] eqn:E; [|done].
  destruct (map_Forall_lookup_1 _ _ _ _ Hreg E) as [Hc Hf]. destruct (code =? IDENTITY) eqn:Ei.
  - rewrite !Hf, encodeHash_spec by done. rewrite Ei. by repeat case_match.
  - destruct Hf as (n & f & Hn & Hf & Hfac). rewrite !Hfac. unfold fixed_factory. replace (-1 >? Z.of_nat n) with false by lia.
    destruct (Hf data Hb) as [Hlen _]. cbn [fixed_hasher h_Sum h_Size]. rewrite Hlen. destruct (length_ >? Z.of_nat n) eqn:El.
    + replace (length_ <? 0) with false by lia. by replace (Z.of_nat n <? length_) with true by lia.
    + rewrite encodeHash_spec; cbn [fixed_hasher h_Sum h_Size]; [|done|by rewrite Hlen|rewrite Hlen; unfold MaxInt32; lia].
      rewrite Hlen, Ei. by repeat case_match.
Qed.

(** [Sum] never panics, and its result is the multihash of the digest asked for: the
    code, the digest of the code's hash function cut to the length, or the error that
    says why there is none. *)
Theorem Sum_exact code length_ data :
  bytes_ok data -> Z.of_nat (length data) <= MaxInt32 ->
  match digest_of code length_ data with
  | Ok d => exists m, Sum reg data code length_ = Some (Ok m) /\
      Multihash.Decode m = Ok (mkDecoded code (default "" (Codes !! code)) (Z.of_nat (length d)) d)
  | Err e => Sum reg data code length_ = Some (Err e)
  end.
Proof.
  intros Hb Hl. rewrite Sum_digest by done. destruct (digest_of code length_ data) as [d|] eqn:E; [|done].
  destruct (digest_short _ _ _ _ Hb Hl E). eexists. split; [done|]. by apply Decode_encoded.
Qed.

(** Hashing again with the length of the digest gives the digest. *)
Lemma digest_again code length_ data d :
  bytes_ok data -> digest_of code length_ data = Ok d ->
  digest_of code (if code =? IDENTITY then -1 else Z.of_nat (length d)) data = Ok d.
Proof.
  intros Hb. unfold digest_of. destruct (factories reg !! code) as [factory|] eqn:E; [|done].
  destruct (map_Forall_lookup_1 _ _ _ _ Hreg E) as [Hc Hf]. destruct (code =? IDENTITY) eqn:Ei.
  - rewrite Hf. cbn [identityMultihash h_Sum]. repeat case_match; try done; bool_props; intros [= <-]; try done.
    f_equal. rewrite take_ge by lia. done.
  - destruct Hf as (n & f & Hn & Hf & ->). unfold fixed_factory.
    replace (-1 >? Z.of_nat n) with false by lia. cbn [fixed_hasher h_Sum andb].
    destruct (Hf data Hb) as [Hlen _]. rewrite Nat2Z.id.
    replace (Z.of_nat (length d) <? 0) with false by (symmetry; apply Z.ltb_ge; lia).
    repeat case_match; try done; intros [= <-]; rewrite ?length_take in *; try lia; f_equal.
    + apply take_ge. lia.
    + bool_props. lia.
    + bool_props. by rewrite Nat.min_l by lia.
Qed.

Lemma encoded_v0 code d d' :
  0 <= code < 2 ^ 63 -> Z.of_nat (length d) <= MaxInt32 -> length d' = 32%nat ->
  encoded code d = SHA2_256 :: 32 :: d' -> code = SHA2_256 /\ d = d'.
Proof.
  intros Hc Hl Hd' E. pose proof (Decode_encoded code d Hc Hl) as H1. fold (encoded code d) in H1.
  pose proof (Decode_encoded SHA2_256 d' ltac:(unfold SHA2_256; lia) ltac:(unfold MaxInt32; lia)) as H2.
  rewrite Hd' in H2. change (uvarint SHA2_256 ++ uvarint (Z.of_nat 32) ++ d') with (SHA2_256 :: 32 :: d') in H2.
  rewrite <- E, H1 in H2.
  apply (f_equal (fun r => match r with Ok dm => (mh_Code dm, mh_Digest dm) | Err _ => (0, []) end)) in H2.
  cbn [mh_Code mh_Digest] in H2. by injection H2.
Qed.

Lemma NewCidV0_encoded code d c :
  0 <= code < 2 ^ 63 -> Z.of_nat (length d) <= MaxInt32 -> NewCidV0 (encoded code d) = Some c ->
  cid_of 0 DagProtobuf (encoded code d) c.
Proof.
  intros Hc Hl. unfold NewCidV0, tryNewCidV0, encoded. rewrite Decode_encoded by done. cbn [mh_Code mh_Length].
  case_bool; [done|]. intros [= <-]. bool_props. subst code. replace (Z.of_nat (length d)) with 32 by done.
  apply v0_of. lia.
Qed.

Lemma cid_of_v0 codec h c : cid_of 0 codec h c -> exists d, length d = 32%nat /\ h = SHA2_256 :: 32 :: d.
Proof. inversion 1; subst. by eexists. Qed.

(** Whatever a builder makes of some data, the prefix of the CID makes it again. *)
Lemma prefix_rebuild v codec code length_ data d c :
  bytes_ok data -> Z.of_nat (length data) <= MaxInt32 ->
  digest_of code length_ data = Ok d -> cid_of v codec (encoded code d) c ->
  Prefix_Sum reg (cid_Prefix c) data = Some (Ok c).
Proof.
  intros Hb Hl Hd Hc. destruct (digest_short _ _ _ _ Hb Hl Hd) as [Hcode Hlen].
  rewrite (cid_Prefix_of _ _ _ _ Hc). unfold prefix_of, encoded. rewrite Decode_encoded by done. cbn [mh_Code mh_Length].
  unfold Prefix_Sum. cbn [px_MhType px_MhLength px_Version px_Codec].
  assert ((v =? 0) && (negb (code =? SHA2_256) || negb (Z.of_nat (length d) =? 32) && negb (Z.of_nat (length d) =? -1)) = false) as ->.
  { destruct (Z.eqb_spec v 0) as [->|]; [|done]. destruct (cid_of_v0 _ _ _ Hc) as (d' & Hd' & He).
    destruct (encoded_v0 _ _ _ Hcode Hlen Hd' He) as [-> ->]. by rewrite Hd'. }
  rewrite Sum_digest, (digest_again code length_ data d) by done. fold (encoded code d).
  pose proof (NewCid_of _ _ _ _ Hc) as Hnew. destruct (Z.eqb_spec v 0) as [->|Hv]; [by rewrite Hnew|].
  assert (v = 1) as -> by (by inversion Hc). cbn [Z.eqb]. by rewrite Hnew.
Qed.

Definition codec_ok (b : Builder) : Prop := 0 <= GetCodec b < 2 ^ 63.

(** The hash function that version 0 CIDs rely on has its usual size. *)
Definition sha256_registered : Prop :=
  exists f, sized_digest f 32 /\ exists factory, factories reg !! SHA2_256 = Some factory /\ factory (-1) = fixed_factory 32 f (-1).

Lemma Builder_Sum_cid b data c :
  sha256_registered -> codec_ok b -> bytes_ok data -> Z.of_nat (length data) <= MaxInt32 -> Builder_Sum reg b data = Some (Ok c) ->
  exists v codec code length_ d, digest_of code length_ data = Ok d /\ cid_of v codec (encoded code d) c.
Proof.
  intros Hsha Hcodec Hb Hl. assert (forall code l d, digest_of code l data = Ok d -> is_multihash (encoded code d)) as Hmh.
  { intros code l d Hd. destruct (digest_short _ _ _ _ Hb Hl Hd). by exists code, d. }
  unfold codec_ok in Hcodec. destruct b as [p| |codec mhType mhLength]; unfold Builder_Sum, Prefix_Sum; cbv zeta.
  - case_bool; [done|]. rewrite Sum_digest by done. destruct (digest_of _ _ data) as [d|] eqn:Ed; [|done].
    destruct (digest_short _ _ _ _ Hb Hl Ed) as [Hc Hd]. destruct (px_Version p =? 0).
    + destruct (NewCidV0 _) as [c'|] eqn:En; cbn [built]; [|done]. intros [= <-]. do 5 eexists. split; [exact Ed|]. by apply NewCidV0_encoded.
    + destruct (px_Version p =? 1); [|done]. rewrite NewCidV1_spec by (unfold uint64; cbn [GetCodec] in Hcodec; lia). intros [= <-].
      do 5 eexists. split; [exact Ed|]. constructor; [done|by eapply Hmh].
  - rewrite Sum_digest by done. destruct (digest_of _ _ data) as [d|] eqn:Ed; [|done]. intros [= <-].
    destruct Hsha as (f & Hf & factory & Hfac & Hsize). pose proof Ed as Ed'. unfold digest_of in Ed'. rewrite Hfac, Hsize in Ed'.
    injection Ed' as <-. destruct (Hf data Hb) as [Hlen _]. exists 0, DagProtobuf, SHA2_256, (-1), (f data). split; [done|].
    unfold encoded. rewrite Hlen. by apply v0_of.
  - rewrite Sum_digest by done. destruct (digest_of _ _ data) as [d|] eqn:Ed; [|done].
    rewrite NewCidV1_spec by (unfold uint64; cbn [GetCodec] in Hcodec; lia). intros [= <-].
    do 5 eexists. split; [exact Ed|]. constructor; [done|by eapply Hmh].
Qed.
End sums.

Lemma init_sha256 `{!CryptoHashes} `{!CryptoSizes} reg : core_init = Some reg -> sha256_registered reg.
Proof. intros E. apply (inj Some) in E as <-. exists sha256. split; [exact sha256_size|]. eexists. split; reflexivity. Qed.

(** A CID verifies the data it was built from: whatever builder made it (version 0,
    version 1 or a prefix, with any registered hash function, truncated or not), it is
    well formed and hashing the data with its own prefix makes the same CID. *)
Theorem builder_verifies `{!CryptoHashes} `{!CryptoSizes} reg b data c :
  core_init = Some reg -> codec_ok b -> bytes_ok data -> Z.of_nat (length data) <= MaxInt32 ->
  Builder_Sum reg b data = Some (Ok c) ->
  cid_Cast c = Ok c /\ Prefix_Sum reg (cid_Prefix c) data = Some (Ok c).
Proof.
  intros Hinit Hcodec Hb Hl Hsum. destruct core_init_good as (reg' & Hinit' & Hg). assert (reg' = reg) as -> by congruence.
  destruct (Builder_Sum_cid reg Hg b data c (init_sha256 _ Hinit) Hcodec Hb Hl Hsum) as (v & codec & code & l & d & Hd & Hc).
  split; [by eapply cid_Cast_of|by eapply prefix_rebuild].
Qed.

(** ** Streams of multihashes *)

Lemma header_buffer code len :
  0 <= code < 2 ^ 63 -> 0 <= len <= MaxInt32 ->
  let buf := replicate (Z.to_nat (UvarintSize code + UvarintSize len + len)) 0 in
  exists buf' tail, PutUvarint buf code = Some (buf', length (uvarint code)) /\
    PutUvarint (drop (length (uvarint code)) buf') len = Some (tail, length (uvarint len)) /\
    take (length (uvarint code) + length (uvarint len)) (take (length (uvarint code)) buf' ++ tail) = uvarint code ++ uvarint len /\
    (length buf' - (length (uvarint code) + length (uvarint len)))%nat = Z.to_nat len.
Proof.
  intros Hc Hl buf. unfold MaxInt32 in Hl. assert (uint64 code) as Uc by (unfold uint64; lia). assert (uint64 len) as Ul by (unfold uint64; lia).
  pose proof (UvarintSize_length code Uc) as S1. pose proof (UvarintSize_length len Ul) as S2.
  assert (length buf = length (uvarint code) + length (uvarint len) + Z.to_nat len)%nat as Hbuf
    by (unfold buf; rewrite length_replicate; lia).
  do 2 eexists. split; [apply PutUvarint_spec; [done|lia]|]. rewrite drop_app_length.
  split; [apply PutUvarint_spec; [done|rewrite length_drop; lia]|]. rewrite take_app_length, app_assoc, <- length_app, take_app_length.
  split; [done|]. rewrite !length_app, length_drop. lia.
Qed.

Lemma ReadMultihash_spec code len r :
  0 <= code < 2 ^ 63 -> 0 <= len <= MaxInt32 ->
  ReadMultihash (uvarint code ++ uvarint len ++ r) =
    match ReadFull (Z.to_nat len) r with
    | (j, Some e) => (Err (ErrMhRead e), drop j r)
    | (_, None) => (Ok (uvarint code ++ uvarint len ++ take (Z.to_nat len) r), drop (Z.to_nat len) r)
    end.
Proof.
  intros Hc Hl. unfold ReadMultihash. assert (len < 2 ^ 63) by (unfold MaxInt32 in Hl; lia). rewrite !ReadUvarint_app by lia.
  replace (len >? MaxInt32) with false by lia. cbv zeta.
  destruct (header_buffer code len Hc Hl) as (buf & tail & -> & -> & -> & ->).
  destruct (ReadFull (Z.to_nat len) r) as [j [e|]] eqn:E; [done|]. rewrite <- app_assoc.
  apply ReadFull_count in E as [E1 E2]. specialize (E2 eq_refl) as ->.
  rewrite is_multihash_Cast; [done|]. exists code, (take (Z.to_nat len) r). rewrite length_take, Nat.min_l by done.
  split_and!; [lia..|]. by rewrite Z2Nat.id by lia.
Qed.

(** [ReadMultihash] reads from a stream the multihash that [MHFromBytes] reads from its
    bytes, and leaves the rest; it fails when [MHFromBytes] does. *)
Theorem ReadMultihash_exact r m rest :
  bytes_ok r ->
  (ReadMultihash r = (Ok m, rest) <-> MHFromBytes r = Ok (Z.of_nat (length m), m) /\ r = m ++ rest).
Proof.
  intros Hb. split.
  - intros E. assert (E' := E). revert E'. unfold ReadMultihash. destruct (ReadUvarint r) as [[code|] r1] eqn:E1; [|done].
    destruct (ReadUvarint_inv _ _ _ Hb E1) as [Hc ->]. apply Forall_app in Hb as [_ Hb].
    destruct (ReadUvarint r1) as [[len|] r2] eqn:E2; [|done]. destruct (ReadUvarint_inv _ _ _ Hb E2) as [Hl ->].
    destruct (len >? MaxInt32) eqn:Em; [done|]. intros _. rewrite ReadMultihash_spec in E by (done || lia).
    destruct (ReadFull _ r2) as [j [e|]] eqn:Er; [done|]. apply ReadFull_count in Er as [E3 E4]. specialize (E4 eq_refl) as ->.
    injection E as <- <-. set (m' := uvarint code ++ uvarint len ++ take (Z.to_nat len) r2).
    assert (uvarint code ++ uvarint len ++ r2 = m' ++ drop (Z.to_nat len) r2) as ->
      by (unfold m'; rewrite <- !app_assoc, take_drop; done).
    split; [|done]. rewrite MHFromBytes_app; [done|]. exists code, (take (Z.to_nat len) r2).
    rewrite length_take, Nat.min_l by done. split_and!; [lia..|]. by rewrite Z2Nat.id by lia.
  - intros [E ->]. destruct (MHFromBytes_inv _ _ _ Hb E) as ((code & d & Hc & Hl & ->) & _). rewrite <- !app_assoc.
    rewrite ReadMultihash_spec by lia. rewrite Nat2Z.id. unfold ReadFull.
    replace (length d <=? length (d ++ rest))%nat with true by (symmetry; apply Nat.leb_le; rewrite length_app; lia).
    by rewrite take_app_length, drop_app_length.
Qed.

Module HashDemo.
(** Toy hash functions of the right sizes. *)
Definition toy (n : nat) (data : list Z) : list Z := replicate n (fold_right Z.add 0 data mod 256).

Lemma toy_size n : sized_digest (toy n) n.
Proof.
  intros data _. unfold toy. rewrite length_replicate. split; [done|]. apply Forall_replicate. unfold is_byte. apply Z.mod_pos_bound. lia.
Qed.

#[local] Instance toy_hashes : CryptoHashes :=
  {| md5 := toy 16; sha1 := toy 20; sha256_224 := toy 28; sha256 := toy 32; sha512_384 := toy 48; sha512 := toy 64;
     sha512_224 := toy 28; sha512_256 := toy 32 |}.
#[local] Instance toy_sizes : CryptoSizes.
Proof. constructor; apply toy_size. Qed.

Definition reg : HashRegistry := default (mkHashRegistry ∅ ∅) core_init.

Lemma reg_good : good_registry reg.
Proof. unfold reg. destruct core_init_good as (r & E & H). rewrite E. exact H. Qed.

Lemma Sum_exact_witness :
  exists m, Sum reg [1; 2; 3] SHA2_256 4 = Some (Ok m) /\ Multihash.Decode m = Ok (mkDecoded SHA2_256 "sha2-256" 4 [6; 6; 6; 6]).
Proof.
  pose proof (Sum_exact reg reg_good SHA2_256 4 [1; 2; 3]) as H.
  replace (digest_of reg SHA2_256 4 [1; 2; 3]) with (@Ok sum_error _ [6; 6; 6; 6]) in H by (vm_compute; reflexivity).
  replace (default "" (Codes !! SHA2_256)) with "sha2-256" in H by (vm_compute; reflexivity).
  apply H; [apply (bool_decide_unpack _); vm_compute; exact I|unfold MaxInt32; cbn; lia].
Defined.

Definition built_cid : list Z :=
  match Builder_Sum reg (V1Builder 112 SHA2_256 20) [1; 2; 3] with Some (Ok c) => c | _ => [] end.

Lemma builder_verifies_witness : Prefix_Sum reg (cid_Prefix built_cid) [1; 2; 3] = Some (Ok built_cid).
Proof.
  refine (proj2 (builder_verifies reg (V1Builder 112 SHA2_256 20) [1; 2; 3] built_cid _ _ _ _ _)).
  - reflexivity.
  - unfold codec_ok. cbn. lia.
  - apply (bool_decide_unpack _). vm_compute. exact I.
  - unfold MaxInt32. cbn. lia.
  - vm_compute. reflexivity.
Defined.

Lemma ReadMultihash_exact_witness : MHFromBytes [0; 2; 7; 8; 9] = Ok (4, [0; 2; 7; 8]) /\ [0; 2; 7; 8; 9] = [0; 2; 7; 8] ++ [9].
Proof.
  refine (proj1 (ReadMultihash_exact [0; 2; 7; 8; 9] [0; 2; 7; 8] [9] _) _).
  - apply (bool_decide_unpack _). vm_compute. exact I.
  - vm_compute. reflexivity.
Defined.
End HashDemo.
