(* ===== verification/PeerID.v ===== *)
(** * Peer IDs (src/core/peer/peer.go)

    A peer ID is the bytes of a multihash.  The public keys are an interface: their
    type and its encoding (src/core/crypto), known to be read back.  The hash functions
    come from the registry of Hashing.v.  [None] is a panic. *)

From stdpp Require Import base list numbers gmap strings.
From Stdlib Require Import ZArith Lia.
From S2P Require Import Prelude Varint GoText Base58 Multibase Multihash Cid Hashing.

Inductive peer_error :=
| ErrPeerMultihash
| ErrPeerCid (e : cid_error)
| ErrPeerCodec (code : Z)
| ErrEmptyPeerID
| ErrNoPublicKey
| ErrPeerKey.

Section text.
Context `{!Base58}.

Definition peer_String (id : list Z) : list Z := b58_Encode id.

Definition ShortString (id : list Z) : list Z :=
  let pid := peer_String id in
  if (length pid <=? 10)%nat then str "<peer.ID " ++ pid ++ str ">"
  else str "<peer.ID " ++ take 2 pid ++ str "*" ++ drop (length pid - 6) pid ++ str ">".

Definition Validate (id : list Z) : option peer_error := if bool_decide (id = []) then Some ErrEmptyPeerID else None.

Definition IDFromBytes (b : list Z) : result peer_error (list Z) :=
  match Cast b with Err _ => Err ErrPeerMultihash | Ok _ => Ok b end.

Definition FromCid (c : list Z) : result peer_error (list Z) :=
  let code := cid_Type c in
  if negb (code =? Libp2pKey) then Err (ErrPeerCodec code) else Ok (cid_Hash c).

Definition ToCid (id : list Z) : option (list Z) :=
  match Cast id with
  | Err _ => Some []
  | Ok m => NewCidV1 Libp2pKey m
  end.

Definition peer_Decode (s : list Z) : option (result peer_error (list Z)) :=
  if HasPrefix s (str "Qm") || HasPrefix s (str "1") then
    Some (match FromB58String s with
          | None => Err ErrPeerMultihash
          | Some m => Ok m
          end)
  else
    match cid_Decode s with
    | None => None
    | Some (Err e) => Some (Err (ErrPeerCid e))
    | Some (Ok c) => Some (FromCid c)
    end.

(** [IDSlice.String]: the texts joined by a comma and a space. *)
Fixpoint IDSlice_String (ids : list (list Z)) : list Z :=
  match ids with
  | [] => []
  | [id] => peer_String id
  | id :: ids => peer_String id ++ str ", " ++ IDSlice_String ids
  end.
End text.

(** [IDSlice.Less] compares the bytes lexicographically. *)
Fixpoint peer_less (a b : list Z) : bool :=
  match a, b with
  | _, [] => false
  | [], _ :: _ => true
  | x :: a, y :: b => if x =? y then peer_less a b else x <? y
  end.

(** ** IDs of public keys *)

Class PublicKeys := {
  PubKey : Type;
  MarshalPublicKey : PubKey -> option (list Z);
  UnmarshalPublicKey : list Z -> option PubKey;
}.
Class PublicKeysLaws `{!PublicKeys} : Prop := {
  marshal_bytes : forall pk b, MarshalPublicKey pk = Some b -> bytes_ok b /\ Z.of_nat (length b) <= MaxInt32;
  unmarshal_marshal : forall pk b, MarshalPublicKey pk = Some b -> UnmarshalPublicKey b = Some pk;
}.

Definition maxInlineKeyLength : nat := 42.

Section keys.
Context `{!PublicKeys} (reg : HashRegistry) (AdvancedEnableInlining : bool).

Definition IDFromPublicKey (pk : PubKey) : option (result peer_error (list Z)) :=
  match MarshalPublicKey pk with
  | None => Some (Err ErrPeerKey)
  | Some b =>
      let alg := if AdvancedEnableInlining && (length b <=? maxInlineKeyLength)%nat then IDENTITY else SHA2_256 in
      match Sum reg b alg (-1) with
      | None => None
      | Some (Err _) => Some (Ok [])
      | Some (Ok hash) => Some (Ok hash)
      end
  end.

Definition MatchesPublicKey (id : list Z) (pk : PubKey) : option bool :=
  match IDFromPublicKey pk with
  | None => None
  | Some (Err _) => Some false
  | Some (Ok oid) => Some (bool_decide (oid = id))
  end.

Definition ExtractPublicKey (id : list Z) : result peer_error PubKey :=
  match Multihash.Decode id with
  | Err _ => Err ErrPeerMultihash
  | Ok decoded =>
      if negb (mh_Code decoded =? IDENTITY) then Err ErrNoPublicKey
      else match UnmarshalPublicKey (mh_Digest decoded) with
           | None => Err ErrPeerKey
           | Some pk => Ok pk
           end
  end.
End keys.

(** ** Correctness *)

(** The IDs that come from public keys: SHA2-256 digests and inlined keys. *)
Definition peer_ok (id : list Z) : Prop :=
  exists code d, (code = IDENTITY \/ code = SHA2_256 /\ length d = 32%nat) /\ Z.of_nat (length d) <= MaxInt32 /\ id = encoded code d.

Lemma peer_ok_multihash id : peer_ok id -> is_multihash id.
Proof.
  intros (code & d & Hc & Hl & ->). exists code, d. split; [|by split]. unfold IDENTITY, SHA2_256 in Hc. lia.
Qed.

Lemma multihash_nonempty m : is_multihash m -> m <> [].
Proof. intros (code & d & _ & _ & ->). pose proof (uvarint_nonempty code). destruct (uvarint code); [cbn in *; lia|done]. Qed.

Section theorems.
Context {b58 : Base58} {b58_laws : Base58Laws}.

Lemma peer_ok_prefix id :
  bytes_ok id -> peer_ok id -> HasPrefix (b58_Encode id) (str "Qm") || HasPrefix (b58_Encode id) (str "1") = true.
Proof.
  intros Hb (code & d & [->|[-> Hd]] & Hl & ->).
  - change (encoded IDENTITY d) with (0 :: uvarint (Z.of_nat (length d)) ++ d) in *. apply Forall_cons_1 in Hb as [_ Hb].
    rewrite b58_identity by done. apply orb_true_r.
  - unfold encoded in *. rewrite Hd in *. apply Forall_app in Hb as [_ Hb]. apply Forall_app in Hb as [_ Hb].
    change (uvarint SHA2_256 ++ uvarint (Z.of_nat 32) ++ d) with (18 :: 32 :: d).
    by rewrite (proj1 (b58_sha256 d Hb Hd)).
Qed.

(** The text of a peer ID names the peer. *)
Lemma peer_Decode_text id : bytes_ok id -> peer_ok id -> peer_Decode (peer_String id) = Some (Ok id).
Proof.
  intros Hb Hid. unfold peer_Decode, peer_String. rewrite peer_ok_prefix by done. unfold FromB58String.
  pose proof (peer_ok_multihash id Hid) as Hm. rewrite b58_inv by (done || by apply multihash_nonempty). by rewrite is_multihash_Cast.
Qed.

Lemma ToCid_of id : is_multihash id -> exists c, ToCid id = Some c /\ cid_of 1 Libp2pKey id c.
Proof.
  intros Hm. unfold ToCid. rewrite is_multihash_Cast by done. rewrite NewCidV1_spec by (unfold uint64, Libp2pKey; lia).
  eexists. split; [done|]. constructor; [unfold Libp2pKey; lia|done].
Qed.

Lemma FromCid_of id c v : cid_of v Libp2pKey id c -> FromCid c = Ok id.
Proof. intros Hc. unfold FromCid. by rewrite (cid_Type_of _ _ _ _ Hc), Z.eqb_refl, (cid_Hash_of _ _ _ _ Hc). Qed.

Lemma head_not_1 base t : base ∈ supported -> HasPrefix (EncodeRune base ++ t) (str "1") = false.
Proof.
  intros Hin. assert (Forall (fun base => EncodeRune base <> [] /\ nth 0 (EncodeRune base) 0 <> 49) supported) as Hf
    by (apply (bool_decide_unpack _); vm_compute; exact I).
  rewrite Forall_forall in Hf. destruct (Hf base Hin) as [H1 H2]. destruct (EncodeRune base) as [|b l]; [done|].
  change (str "1") with [49]. cbn [app HasPrefix nth] in *. by replace (b =? 49) with false by lia.
Qed.

(** A peer ID survives its texts: [Decode] reads back its base58 text, and the text of its
    CID in every multibase; and [FromCid] inverts [ToCid]. *)
Theorem peer_text_roundtrip id :
  bytes_ok id -> peer_ok id ->
  peer_Decode (peer_String id) = Some (Ok id) /\
  exists c, ToCid id = Some c /\ FromCid c = Ok id /\
    forall base, base ∈ supported -> exists s, StringOfBase c base = Some (Ok s) /\ peer_Decode s = Some (Ok id).
Proof.
  intros Hb Hid. split; [by apply peer_Decode_text|]. pose proof (peer_ok_multihash id Hid) as Hm.
  destruct (ToCid_of id Hm) as (c & Ec & Hc). exists c. pose proof (FromCid_of id c 1 Hc) as Hf. split_and!; [done..|].
  intros base Hin. assert (bytes_ok c) as Hbc.
  { inversion Hc; subst. apply Forall_cons_2; [unfold is_byte; lia|]. apply Forall_app. split; [|done].
    apply (Varint.groups_bytes 10 Libp2pKey). unfold Libp2pKey. lia. }
  destruct (cid_of_bytes_v1 _ _ _ base Hc Hbc Hin) as (s & E & D). exists s. unfold StringOfBase.
  assert (Version c = 1) as -> by (inversion Hc; apply Version_v1). cbn [Z.eqb]. rewrite E. split; [done|].
  unfold peer_Decode. destruct (mb_Encode_head _ _ _ E) as [t ->]. rewrite head_not_Q, head_not_1 by done. cbn [orb].
  by rewrite D, Hf.
Qed.
End theorems.

Section key_theorems.
Context `{!CryptoHashes} `{!CryptoSizes} `{!PublicKeys} `{!PublicKeysLaws}.

Lemma init_identity reg : core_init = Some reg -> factories reg !! IDENTITY = Some (fun _ => Some identityMultihash).
Proof. intros E. apply (inj Some) in E as <-. reflexivity. Qed.

Lemma init_sha256_factory reg :
  core_init = Some reg -> exists factory, factories reg !! SHA2_256 = Some factory /\ factory (-1) = Some (fixed_hasher 32 sha256).
Proof. intros E. apply (inj Some) in E as <-. eexists. split; reflexivity. Qed.

(** The ID that a key should have. *)
Definition key_id (inlining : bool) (b : list Z) : list Z :=
  if inlining && (length b <=? maxInlineKeyLength)%nat then encoded IDENTITY b else encoded SHA2_256 (sha256 b).

Lemma IDFromPublicKey_spec reg inlining pk b :
  core_init = Some reg -> MarshalPublicKey pk = Some b -> IDFromPublicKey reg inlining pk = Some (Ok (key_id inlining b)).
Proof.
  intros Hinit Hpk. destruct (marshal_bytes pk b Hpk) as [Hb Hl]. destruct core_init_good as (reg' & Hinit' & Hg).
  assert (reg' = reg) as -> by congruence. unfold IDFromPublicKey. rewrite Hpk, (Sum_digest reg Hg) by done. unfold digest_of, key_id.
  destruct (inlining && _).
  - by rewrite (init_identity reg Hinit).
  - destruct (init_sha256_factory reg Hinit) as (factory & -> & ->). done.
Qed.

Lemma key_id_ok inlining pk b : MarshalPublicKey pk = Some b -> peer_ok (key_id inlining b) /\ bytes_ok (key_id inlining b).
Proof.
  intros Hpk. destruct (marshal_bytes pk b Hpk) as [Hb Hl]. destruct (sha256_size b Hb) as [H32 Hsb]. unfold key_id, encoded.
  assert (forall n, 0 <= n -> bytes_ok (uvarint n)) as Hu by (intros n Hn; exact (Varint.groups_bytes 10 n Hn)).
  case_match; (split; [|apply Forall_app; split; [by apply Hu|]; apply Forall_app; split; [apply Hu; lia|done]]).
  - exists IDENTITY, b. split; [by left|done].
  - exists SHA2_256, (sha256 b). split; [by right|]. split; [rewrite H32; unfold MaxInt32; lia|done].
Qed.

(** C39: The ID of a public key is well formed and matches the key; short keys are inlined in
    it and can be extracted again, longer ones are hashed and reported as absent. *)
Theorem key_id_exact reg inlining pk b :
  core_init = Some reg -> MarshalPublicKey pk = Some b ->
  exists id, IDFromPublicKey reg inlining pk = Some (Ok id) /\ peer_ok id /\ bytes_ok id /\
    MatchesPublicKey reg inlining id pk = Some true /\
    ExtractPublicKey id = (if inlining && (length b <=? maxInlineKeyLength)%nat then Ok pk else Err ErrNoPublicKey).
Proof.
  intros Hinit Hpk. exists (key_id inlining b). pose proof (IDFromPublicKey_spec reg inlining pk b Hinit Hpk) as Hid.
  destruct (key_id_ok inlining pk b Hpk) as [Hok Hb]. split_and!; [done..| |].
  - unfold MatchesPublicKey. by rewrite Hid, bool_decide_true.
  - destruct (marshal_bytes pk b Hpk) as [Hbb Hl]. destruct (sha256_size b Hbb) as [H32 _].
    unfold ExtractPublicKey, key_id. destruct (inlining && _); unfold encoded.
    + rewrite Decode_encoded by (unfold IDENTITY; done || lia). cbn [mh_Code mh_Digest]. by rewrite (unmarshal_marshal pk b Hpk).
    + by rewrite Decode_encoded by (rewrite ?H32; unfold SHA2_256, MaxInt32; lia).
Qed.
End key_theorems.

(** ** Order *)

(** [IDSlice.Less] is a strict total order on IDs, so a sorted slice is unique. *)
Theorem peer_less_order a b c :
  peer_less a a = false /\
  (peer_less a b = true -> peer_less b c = true -> peer_less a c = true) /\
  (a = b \/ peer_less a b = true \/ peer_less b a = true).
Proof.
  split_and!.
  - induction a as [|x a IH]; [done|]. cbn. by rewrite Z.eqb_refl.
  - revert b c. induction a as [|x a IH]; intros [|y b] [|z c]; cbn; try done.
    destruct (Z.eqb_spec x y) as [->|]; destruct (Z.eqb_spec y z) as [->|]; rewrite ?Z.eqb_refl; intros H1 H2; bool_props.
    + by eapply IH.
    + replace (y =? z) with false by lia. lia.
    + replace (x =? z) with false by lia. lia.
    + replace (x =? z) with false by lia. lia.
  - revert b. induction a as [|x a IH]; intros [|y b]; cbn; auto. rewrite (Z.eqb_sym y x).
    destruct (Z.eqb_spec x y) as [->|Hne]; [|lia]. destruct (IH b) as [->|]; auto.
Qed.

Module PeerDemo.
Import Base58.Reference.
#[local] Existing Instances HashDemo.toy_hashes HashDemo.toy_sizes.

(** Two keys: one short enough to be inlined, one not. *)
Definition key_bytes (short : bool) : list Z := if short then [8; 1; 18; 1; 7] else [8; 0; 18; 60] ++ replicate 60 9.
#[local] Instance two_keys : PublicKeys :=
  {| PubKey := bool; MarshalPublicKey k := Some (key_bytes k);
     UnmarshalPublicKey b := if bool_decide (b = key_bytes true) then Some true
       else if bool_decide (b = key_bytes false) then Some false else None |}.
#[local] Instance two_keys_laws : PublicKeysLaws.
Proof.
  split; intros pk b E; apply (inj Some) in E as <-.
  - destruct pk; (split; [apply (bool_decide_unpack _); vm_compute; exact I|vm_compute; discriminate]).
  - destruct pk; reflexivity.
Qed.

Definition short_key : @PubKey two_keys := true.

Lemma key_id_exact_witness :
  exists id, IDFromPublicKey HashDemo.reg true short_key = Some (Ok id) /\ ExtractPublicKey id = Ok short_key.
Proof.
  destruct (key_id_exact HashDemo.reg true short_key (key_bytes true)) as (id & H1 & _ & _ & _ & H2);
    [reflexivity|reflexivity|]. exists id. exact (conj H1 H2).
Defined.

Definition id0 : list Z := encoded SHA2_256 (map Z.of_nat (seq 1 32)).

Lemma peer_text_roundtrip_witness : peer_Decode (peer_String id0) = Some (Ok id0).
Proof.
  refine (proj1 (peer_text_roundtrip id0 _ _)).
  - apply (bool_decide_unpack _). vm_compute. exact I.
  - exists SHA2_256, (map Z.of_nat (seq 1 32)). split; [right; split; reflexivity|]. split; [vm_compute; discriminate|reflexivity].
Defined.
End PeerDemo.
