(* ===== verification/Transcoders.v ===== *)
(** * Values of multiaddr components (src/multiformats/multiaddr/transcoders.go)

    A transcoder turns the value of a component into its text and back.  Here are
    those for IP addresses, zones, masks, ports, peer IDs, certificate hashes, DNS
    names, Unix and HTTP paths and memory addresses; OnionGarlic.v has the others.
    Which error a function returns is not kept ([None]), and a panic on bytes of the
    wrong length is [None] too.

    [lawful] is what the multiaddr codec needs from a transcoder: the text of valid
    bytes exists, can be embedded between slashes, and is read back. *)

From stdpp Require Import base list numbers strings.
From Stdlib Require Import ZArith Lia.
From S2P Require Import Prelude Varint GoText Base58 Base64 Multibase Multihash Cid PeerID.

Record Transcoder := mkTranscoder {
  StringToBytes : list Z -> option (list Z);
  BytesToString : list Z -> option (list Z);
  ValidateBytes : list Z -> bool;
}.

(** ** IP addresses *)

Definition ip4StB (s : list Z) : option (list Z) :=
  match ParseIP s with Some ip => To4 ip | None => None end.
Definition ip4BtS (b : list Z) : option (list Z) := Some (IP_String b).
Definition TranscoderIP4 := mkTranscoder ip4StB ip4BtS (fun _ => true).

Definition ip6StB (s : list Z) : option (list Z) :=
  match ParseIP s with Some ip => To16 ip | None => None end.
Definition ip6BtS (b : list Z) : option (list Z) :=
  match To4 b with
  | Some ip4 => Some (str "::ffff:" ++ IP_String ip4)
  | None => Some (IP_String b)
  end.
Definition TranscoderIP6 := mkTranscoder ip6StB ip6BtS (fun _ => true).

Definition has_slash (b : list Z) : bool := bool_decide (slash ∈ b).

Definition ip6zoneStB (s : list Z) : option (list Z) :=
  if (length s =? 0)%nat then None else if has_slash s then None else Some s.
Definition ip6zoneBtS (b : list Z) : option (list Z) := if (length b =? 0)%nat then None else Some b.
Definition ip6zoneVal (b : list Z) : bool := negb (length b =? 0)%nat && negb (has_slash b).
Definition TranscoderIP6Zone := mkTranscoder ip6zoneStB ip6zoneBtS ip6zoneVal.

Definition ipcidrValidate (b : list Z) : bool := (length b =? 1)%nat.
Definition ipcidrBtS (b : list Z) : option (list Z) :=
  match b with
  | [m] => Some (FormatUint m)
  | _ => None
  end.
Definition ipcidrStB (s : list Z) : option (list Z) :=
  match ParseUint s 8 with Some m => Some [m] | None => None end.
Definition TranscoderIPCIDR := mkTranscoder ipcidrStB ipcidrBtS ipcidrValidate.

(** ** Numbers *)

(** [binary.BigEndian]: [k] bytes. *)
Fixpoint put_be (k : nat) (n : Z) : list Z :=
  match k with
  | O => []
  | S k => (n / 256 ^ Z.of_nat k) mod 256 :: put_be k n
  end.
Fixpoint get_be (bs : list Z) : Z :=
  match bs with
  | [] => 0
  | b :: bs => b * 256 ^ Z.of_nat (length bs) + get_be bs
  end.

Definition portStB (s : list Z) : option (list Z) :=
  match ParseUint s 16 with Some i => Some (put_be 2 i) | None => None end.
Definition portBtS (b : list Z) : option (list Z) :=
  if (length b <? 2)%nat then None else Some (FormatUint (get_be (take 2 b))).
Definition TranscoderPort := mkTranscoder portStB portBtS (fun _ => true).

Definition memoryStB (s : list Z) : option (list Z) :=
  match ParseUint s 64 with Some z => Some (put_be 8 z) | None => None end.
Definition memoryBtS (b : list Z) : option (list Z) :=
  if negb (length b =? 8)%nat then None else Some (FormatUint (get_be b)).
Definition memoryValidate (b : list Z) : bool := (length b =? 8)%nat.
Definition TranscoderMemory := mkTranscoder memoryStB memoryBtS memoryValidate.

(** ** Names and paths *)

Definition dnsVal (b : list Z) : bool := negb (length b =? 0)%nat && negb (has_slash b).
Definition dnsStB (s : list Z) : option (list Z) := if dnsVal s then Some s else None.
Definition dnsBtS (b : list Z) : option (list Z) := Some b.
Definition TranscoderDns := mkTranscoder dnsStB dnsBtS dnsVal.

Definition unixStB (s : list Z) : option (list Z) := Some s.
Definition unixBtS (b : list Z) : option (list Z) := Some b.
Definition unixValidate (b : list Z) : bool :=
  negb (length b <? 2)%nat &&
  match b with c :: _ => c =? slash | [] => false end &&
  match last b with Some c => negb (c =? slash) | None => false end.
Definition TranscoderUnix := mkTranscoder unixStB unixBtS unixValidate.

(** [url.QueryEscape] and [url.QueryUnescape] *)
Definition unreserved (c : Z) : bool :=
  ((97 <=? c) && (c <=? 122)) || ((65 <=? c) && (c <=? 90)) || ((48 <=? c) && (c <=? 57)) ||
  (c =? 45) || (c =? 95) || (c =? 46) || (c =? 126).
Definition upper_hex (d : Z) : Z := if d <? 10 then d + 48 else d - 10 + 65.

Fixpoint QueryEscape (s : list Z) : list Z :=
  match s with
  | [] => []
  | c :: s =>
      (if c =? 32 then [43]
       else if unreserved c then [c]
       else [percent; upper_hex (Z.shiftr c 4); upper_hex (Z.land c 15)]) ++ QueryEscape s
  end.

Fixpoint QueryUnescape (s : list Z) : option (list Z) :=
  match s with
  | [] => Some []
  | c :: s =>
      if c =? percent then
        match s with
        | h :: l :: s =>
            match hex_value h, hex_value l, QueryUnescape s with
            | Some h, Some l, Some t => Some (Z.lor (Z.shiftl h 4) l :: t)
            | _, _, _ => None
            end
        | _ => None
        end
      else match QueryUnescape s with
           | Some t => Some ((if c =? 43 then 32 else c) :: t)
           | None => None
           end
  end.

Definition httpPathStB (s : list Z) : option (list Z) :=
  match QueryUnescape s with
  | Some unescaped => if (length unescaped =? 0)%nat then None else Some unescaped
  | None => None
  end.
Definition httpPathBtS (b : list Z) : option (list Z) :=
  if (length b =? 0)%nat then None else Some (QueryEscape b).
Definition validateHTTPPath (b : list Z) : bool := negb (length b =? 0)%nat.
Definition TranscoderHTTPPath := mkTranscoder httpPathStB httpPathBtS validateHTTPPath.

(** ** Peer IDs *)

Section p2p.
Context `{!Base58}.

Definition p2pVal (b : list Z) : bool :=
  match Multihash.Decode b with
  | Ok h =>
      ((mh_Code h =? SHA2_256) || (mh_Code h =? IDENTITY)) &&
      negb ((mh_Code h =? SHA2_256) && negb (mh_Length h =? 32))
  | Err _ => false
  end.

Definition p2pStB (s : list Z) : option (list Z) :=
  if HasPrefix s (str "Qm") || HasPrefix s (str "1") then
    match FromB58String s with
    | Some m => if p2pVal m then Some m else None
    | None => None
    end
  else
    match cid_Decode s with
    | Some (Ok c) =>
        if cid_Type c =? Libp2pKey then if p2pVal (cid_Hash c) then Some (cid_Hash c) else None else None
    | _ => None
    end.
Definition p2pBtS (b : list Z) : option (list Z) :=
  match Cast b with Ok m => Some (B58String m) | Err _ => None end.
Definition TranscoderP2P := mkTranscoder p2pStB p2pBtS p2pVal.

(** *** Certificate hashes *)

Definition certHashStB (s : list Z) : option (list Z) :=
  match mb_Decode s with
  | Some (Some (_, data)) => match Multihash.Decode data with Ok _ => Some data | Err _ => None end
  | _ => None
  end.
Definition certHashBtS (b : list Z) : option (list Z) :=
  match mb_Encode Base64url b with Some (Some s) => Some s | _ => None end.
Definition validateCertHash (b : list Z) : bool := match Multihash.Decode b with Ok _ => true | Err _ => false end.
Definition TranscoderCertHash := mkTranscoder certHashStB certHashBtS validateCertHash.
End p2p.

(** ** Texts are read back *)

(** A value of a protocol with a fixed size in bits, or with any length. *)
Definition sized (size : Z) (b : list Z) : Prop := 0 < size -> Z.of_nat (length b) = size / 8.

(** The text of a value fits between slashes; a path starts with a slash and does
    not end in one. *)
Definition fits_text (path : bool) (s : list Z) : Prop :=
  if path then (exists s', s = slash :: s') /\ last s <> Some slash else s <> [] /\ slash ∉ s.

Definition lawful (size : Z) (path : bool) (t : Transcoder) : Prop :=
  forall b, bytes_ok b -> sized size b -> ValidateBytes t b = true ->
  exists s, BytesToString t b = Some s /\ StringToBytes t s = Some b /\ fits_text path s.

Ltac open_tc := cbn [StringToBytes BytesToString ValidateBytes TranscoderIP4 TranscoderIP6 TranscoderIP6Zone
  TranscoderIPCIDR TranscoderPort TranscoderMemory TranscoderDns TranscoderUnix TranscoderHTTPPath TranscoderP2P TranscoderCertHash].

Lemma plain_no_slash (P : Z -> Prop) s : (forall c, P c -> c <> slash) -> Forall P s -> slash ∉ s.
Proof. intros HP Hs Hin. rewrite Forall_forall in Hs. by apply (HP slash); [apply Hs|]. Qed.

Lemma no_slash_spec s : has_slash s = false <-> slash ∉ s.
Proof. unfold has_slash. apply bool_decide_eq_false. Qed.

Lemma digits_no_slash s : Forall (fun c => is_digit c = true) s -> slash ∉ s.
Proof. apply plain_no_slash. intros c Hc. by apply digit_not_sep. Qed.

Lemma FormatUint_fits n : uint64 n -> fits_text false (FormatUint n).
Proof. intros Hn. split; [by apply FormatUint_nonempty|by apply digits_no_slash, FormatUint_digits]. Qed.

Lemma format_v4_fits ip : length ip = 4%nat -> bytes_ok ip -> fits_text false (format_v4 ip).
Proof.
  intros Hl Hb. destruct (format_v4_chars ip Hl Hb) as [Hc Hin]. split.
  - intros E. rewrite E in Hin. by apply elem_of_nil in Hin.
  - revert Hc. apply plain_no_slash. by intros c [(_ & _ & _ & ?)| ->].
Qed.

Lemma lawful_ip4 : lawful 32 false TranscoderIP4.
Proof.
  intros b Hb Hs _. assert (length b = 4%nat) as Hl by (specialize (Hs ltac:(lia)); change (32 / 8) with 4 in Hs; lia).
  exists (format_v4 b). open_tc. unfold ip4BtS, ip4StB, IP_String, To4. rewrite Hl. split_and!; [done| |by apply format_v4_fits].
  rewrite ParseIP_format_v4 by done. unfold To4. rewrite length_app, Hl. cbn [length v4InV6Prefix Nat.add Nat.eqb andb].
  change (take 12 (v4InV6Prefix ++ b)) with v4InV6Prefix. by rewrite bool_decide_true.
Qed.

Lemma To4_16 b ip4 : length b = 16%nat -> To4 b = Some ip4 -> b = v4InV6Prefix ++ ip4 /\ length ip4 = 4%nat.
Proof.
  intros Hl. unfold To4. rewrite Hl. cbn [Nat.eqb andb]. case_bool_decide as Hp; [|done]. intros [= <-].
  split; [rewrite <- Hp; by rewrite take_drop|rewrite length_drop; lia].
Qed.

Lemma lawful_ip6 : lawful 128 false TranscoderIP6.
Proof.
  intros b Hb Hs _. assert (length b = 16%nat) as Hl by (specialize (Hs ltac:(lia)); change (128 / 8) with 16 in Hs; lia).
  open_tc. unfold ip6BtS, ip6StB. destruct (To4 b) as [ip4|] eqn:E.
  - destruct (To4_16 b ip4 Hl E) as [-> H4]. apply Forall_app in Hb as [_ Hb4].
    unfold IP_String. unfold To4. rewrite H4. cbn [Nat.eqb].
    eexists. split_and!; [done| |split; [done|]].
    + rewrite ParseIP_mapped by done. unfold To16. by rewrite length_app, H4.
    + rewrite elem_of_app. intros [H|H]; [|by apply (format_v4_fits ip4)].
      cbn in H. repeat (apply elem_of_cons in H as [?|H]; [done|]). by apply elem_of_nil in H.
  - unfold IP_String. rewrite E. eexists. split_and!; [done| |].
    + rewrite ParseIP_format_v6 by done. unfold To16. by rewrite Hl.
    + destruct (format_v6_chars b Hl Hb) as [Hc Hin]. split.
      * intros E'. rewrite E' in Hin. by apply elem_of_nil in Hin.
      * revert Hc. apply plain_no_slash. by intros c [(_ & _ & _ & ?)| ->].
Qed.

Lemma nonempty_spec (b : list Z) : negb (length b =? 0)%nat = true <-> b <> [].
Proof. by destruct b. Qed.

Lemma lawful_ip6zone : lawful (-1) false TranscoderIP6Zone.
Proof.
  intros b _ _. open_tc. unfold ip6zoneVal, ip6zoneBtS, ip6zoneStB. intros H. exists b.
  destruct (length b =? 0)%nat eqn:E; [done|]. simpl in H. apply negb_true_iff in H. rewrite H.
  split_and!; [done..|]. split; [by intros ->|by apply no_slash_spec].
Qed.

Lemma lawful_dns : lawful (-1) false TranscoderDns.
Proof.
  intros b _ _. open_tc. intros H. exists b. unfold dnsBtS, dnsStB. rewrite H. split_and!; [done..|].
  unfold dnsVal in H. apply andb_prop in H as [H1%nonempty_spec H2%negb_true_iff]. split; [done|by apply no_slash_spec].
Qed.

Lemma lawful_unix : lawful (-1) true TranscoderUnix.
Proof.
  intros b _ _. open_tc. unfold unixValidate. intros H. exists b. split_and!; [done..|].
  apply andb_prop in H as [[_ H1]%andb_prop H2]. destruct b as [|c b]; [done|]. apply Z.eqb_eq in H1 as ->.
  split; [by eexists|]. destruct (last (slash :: b)) as [c|]; [|done]. intros [= ->]. by rewrite Z.eqb_refl in H2.
Qed.

Lemma lawful_ipcidr : lawful 8 false TranscoderIPCIDR.
Proof.
  intros b Hb _. open_tc. unfold ipcidrValidate. destruct b as [|m [|]]; try done. intros _.
  apply Forall_cons_1 in Hb as [Hm _]. unfold is_byte in Hm. exists (FormatUint m). split_and!; [done| |].
  - unfold ipcidrStB. by rewrite ParseUint_FormatUint by lia.
  - apply FormatUint_fits. unfold uint64. lia.
Qed.

(** *** Big-endian numbers *)

Lemma get_be_range bs : bytes_ok bs -> 0 <= get_be bs < 256 ^ Z.of_nat (length bs).
Proof.
  intros Hb. induction Hb as [|b bs Hb _ IH]; [done|]. simpl length. rewrite Nat2Z.inj_succ, Z.pow_succ_r by lia.
  unfold is_byte in Hb. cbn [get_be]. nia.
Qed.

Lemma put_be_add k x n : 0 <= k -> put_be (Z.to_nat k) (x * 256 ^ k + n) = put_be (Z.to_nat k) n.
Proof.
  intros Hk. assert (forall j, (j <= Z.to_nat k)%nat -> put_be j (x * 256 ^ k + n) = put_be j n) as H; [|by apply H].
  induction j as [|j IH]; intros Hj; [done|]. cbn [put_be]. rewrite IH by lia. f_equal.
  replace k with (Z.of_nat j + 1 + (k - Z.of_nat j - 1)) by lia.
  rewrite Z.pow_add_r, Z.pow_add_r by lia. assert (0 < 256 ^ Z.of_nat j) by (apply Z.pow_pos_nonneg; lia).
  replace (x * (256 ^ Z.of_nat j * 256 ^ 1 * 256 ^ (k - Z.of_nat j - 1)) + n)
    with (n + (x * 256 ^ (k - Z.of_nat j - 1) * 256) * 256 ^ Z.of_nat j) by lia.
  rewrite Z.div_add by lia. by rewrite Z.mod_add by lia.
Qed.

Lemma put_get_be bs : bytes_ok bs -> put_be (length bs) (get_be bs) = bs.
Proof.
  intros Hb. induction Hb as [|b bs Hb Hbs IH]; [done|]. pose proof (get_be_range bs Hbs). cbn [length put_be get_be].
  assert (0 < 256 ^ Z.of_nat (length bs)) by (apply Z.pow_pos_nonneg; lia). f_equal.
  - rewrite Z.add_comm, Z.div_add, Z.div_small by lia. apply Z.mod_small. apply Hb.
  - pose proof (put_be_add (Z.of_nat (length bs)) b (get_be bs)) as E. rewrite Nat2Z.id in E. by rewrite E by lia.
Qed.

Lemma get_be_fits k bs : bytes_ok bs -> length bs = k -> (k <= 8)%nat ->
  uint64 (get_be bs) /\ ParseUint (FormatUint (get_be bs)) (8 * Z.of_nat k) = Some (get_be bs).
Proof.
  intros Hb Hl Hk. pose proof (get_be_range bs Hb) as H. rewrite Hl in H.
  assert (256 ^ Z.of_nat k = 2 ^ (8 * Z.of_nat k)) as E by (by rewrite Z.pow_mul_r by lia). rewrite E in H. split.
  - unfold uint64. assert (2 ^ (8 * Z.of_nat k) <= 2 ^ 64) by (apply Z.pow_le_mono_r; lia). lia.
  - apply ParseUint_FormatUint; lia.
Qed.

Lemma lawful_port : lawful 16 false TranscoderPort.
Proof.
  intros b Hb Hs _. assert (length b = 2%nat) as Hl by (specialize (Hs ltac:(lia)); change (16 / 8) with 2 in Hs; lia).
  destruct (get_be_fits 2 b Hb Hl) as [H1 H2]; [lia|]. open_tc. unfold portBtS, portStB. rewrite Hl. simpl Nat.ltb. cbv iota.
  rewrite take_ge by lia. eexists. split_and!; [done| |by apply FormatUint_fits]. change (8 * Z.of_nat 2) with 16 in H2.
  rewrite H2. f_equal. rewrite <- Hl. by apply put_get_be.
Qed.

Lemma lawful_memory : lawful 64 false TranscoderMemory.
Proof.
  intros b Hb _. open_tc. unfold memoryValidate, memoryBtS, memoryStB. intros Hl. rewrite Hl. apply Nat.eqb_eq in Hl.
  destruct (get_be_fits 8 b Hb Hl) as [H1 H2]; [lia|]. eexists. split_and!; [done| |by apply FormatUint_fits].
  change (8 * Z.of_nat 8) with 64 in H2. rewrite H2. f_equal. rewrite <- Hl. by apply put_get_be.
Qed.

(** *** HTTP paths *)

Definition escape_char (c : Z) : list Z :=
  if c =? 32 then [43] else if unreserved c then [c] else [percent; upper_hex (Z.shiftr c 4); upper_hex (Z.land c 15)].

(** What the escape of a byte looks like, checked for each of the 256 bytes. *)
Definition escape_check (c : Z) : bool :=
  negb (has_slash (escape_char c)) &&
  (if c =? 32 then true
   else if unreserved c then negb (c =? percent) && negb (c =? 43)
   else match hex_value (upper_hex (Z.shiftr c 4)), hex_value (upper_hex (Z.land c 15)) with
        | Some h, Some l => Z.lor (Z.shiftl h 4) l =? c
        | _, _ => false
        end).

Lemma escape_check_all c : is_byte c -> escape_check c = true.
Proof. apply (forall_below 256). by vm_compute. Qed.

Lemma QueryUnescape_char c t :
  is_byte c -> QueryUnescape (escape_char c ++ t) = match QueryUnescape t with Some t => Some (c :: t) | None => None end.
Proof.
  intros Hc. pose proof (escape_check_all c Hc) as H. unfold escape_check in H. apply andb_prop in H as [_ H].
  unfold escape_char. destruct (c =? 32) eqn:E; [apply Z.eqb_eq in E as ->; done|].
  destruct (unreserved c).
  - bool_props. cbn [app QueryUnescape].
    replace (c =? percent) with false by (symmetry; by apply Z.eqb_neq). by replace (c =? 43) with false by (symmetry; by apply Z.eqb_neq).
  - cbn [app QueryUnescape]. rewrite Z.eqb_refl.
    destruct (hex_value (upper_hex (Z.shiftr c 4))); [|done]. destruct (hex_value (upper_hex (Z.land c 15))); [|done].
    apply Z.eqb_eq in H as ->. done.
Qed.

Lemma QueryEscape_concat s : QueryEscape s = concat (map escape_char s).
Proof. induction s as [|c s IH]; [done|]. cbn [QueryEscape map concat]. by rewrite IH. Qed.

Lemma QueryUnescape_Escape s : bytes_ok s -> QueryUnescape (QueryEscape s) = Some s.
Proof.
  intros Hs. rewrite QueryEscape_concat. induction Hs as [|c s Hc _ IH]; [done|].
  cbn [map concat]. by rewrite QueryUnescape_char, IH.
Qed.

Lemma escape_char_nonempty c : escape_char c <> [].
Proof. unfold escape_char. by repeat case_bool. Qed.

Lemma lawful_httppath : lawful (-1) false TranscoderHTTPPath.
Proof.
  intros b Hb _. open_tc. unfold validateHTTPPath, httpPathBtS, httpPathStB. intros Hne. apply negb_true_iff in Hne. rewrite Hne.
  eexists. split; [done|]. rewrite QueryUnescape_Escape, Hne by done. split; [done|]. rewrite QueryEscape_concat. split.
  - destruct b as [|c b]; [done|]. cbn [map concat]. intros [E _]%app_nil. by apply escape_char_nonempty in E.
  - clear Hne. induction Hb as [|c b Hc _ IH]; [apply not_elem_of_nil|]. cbn [map concat]. rewrite elem_of_app. intros [H|H]; [|done].
    pose proof (escape_check_all c Hc) as E. apply andb_prop in E as [E _]. apply negb_true_iff, no_slash_spec in E. done.
Qed.

(** *** Peer IDs *)

Lemma HasPrefix_nonempty s p : HasPrefix s p = true -> p <> [] -> s <> [].
Proof. destruct s, p; done. Qed.

Section p2p_law.
Context {b58 : Base58} {b58_laws : Base58Laws}.

Lemma p2pVal_ok b : bytes_ok b -> p2pVal b = true -> peer_ok b.
Proof.
  intros Hb. unfold p2pVal. destruct (Multihash.Decode b) as [h|] eqn:E; [|done].
  destruct (Decode_parts b h Hb E) as (Hc & Hparts & Hlen & Hm). intros [V1 V2]%andb_prop.
  exists (mh_Code h), (mh_Digest h). unfold Hashing.encoded. rewrite <- Hlen. split_and!; [|done..].
  apply orb_prop in V1 as [V1|V1]; apply Z.eqb_eq in V1; rewrite V1 in *; [right|by left].
  apply negb_true_iff in V2. simpl in V2. apply negb_false_iff, Z.eqb_eq in V2. split; [done|lia].
Qed.

Lemma p2pVal_Cast b : p2pVal b = true -> Cast b = Ok b.
Proof. unfold p2pVal, Cast. by destruct (Multihash.Decode b). Qed.

Lemma lawful_p2p : lawful (-1) false TranscoderP2P.
Proof.
  intros b Hb _. open_tc. intros Hv. pose proof (p2pVal_Cast b Hv) as Hcast. pose proof (p2pVal_ok b Hb Hv) as Hok.
  pose proof (peer_ok_prefix b Hb Hok) as Hp. assert (b <> []) as Hne by by apply multihash_nonempty, peer_ok_multihash.
  exists (b58_Encode b). unfold p2pBtS, p2pStB, FromB58String. rewrite Hcast, Hp, b58_inv, Hcast, Hv by done.
  split_and!; [done..|]. split; [by apply b58_nonempty|by apply b58_chars].
Qed.

Lemma certhash_chars b : bytes_ok b -> slash ∉ Base64.EncodeToString Base64.RawURL b.
Proof.
  intros Hb. apply (plain_no_slash (fun c => c <> slash)); [done|].
  apply Base64.Encode_chars64; [|done]. intros v Hv.
  pose proof (forall_below 64 (fun v => negb (Base32.char_of Base64.RawURL v =? slash)) ltac:(by vm_compute) v Hv) as H.
  by apply negb_true_iff, Z.eqb_neq in H.
Qed.

Lemma lawful_certhash : lawful (-1) false TranscoderCertHash.
Proof.
  intros b Hb _. open_tc. unfold validateCertHash, certHashBtS, certHashStB. intros Hv.
  destruct (mb_roundtrip Base64url b) as (s & E & D); [in_list|done|right; in_list|].
  exists s. rewrite E, D. destruct (Multihash.Decode b); [|done]. split_and!; [done..|].
  change (mb_Encode Base64url b) with (Some (Some (Base64url :: Base64.EncodeToString Base64.RawURL b))) in E.
  apply (inj Some), (inj Some) in E as <-. split; [done|]. apply not_elem_of_cons. split; [done|by apply certhash_chars].
Qed.
End p2p_law.
