(* ===== verification/OnionGarlic.v ===== *)
(** * Onion and garlic addresses (src/multiformats/multiaddr/transcoders.go)

    The transcoders of the values that name Tor and I2P services: base32 and base64
    texts of a host, with a port for Tor.  [encoding/base32] of the standard library
    is the code that src/multiformats/base32 was derived from, and is modelled by
    Base32.v; the upper case of characters outside ASCII is an interface. *)

From stdpp Require Import base list numbers strings.
From Stdlib Require Import ZArith Lia.
From S2P Require Import Prelude GoText Base32 Base64 Multibase Transcoders.

(** [unicode.ToUpper] on runes from 128 on. *)
Class UnicodeCase := { unicode_ToUpper : Z -> Z }.

(** ** Upper and lower case *)

Definition is_ascii (s : list Z) : bool := forallb (fun c => c <? 128) s.

Section upper.
Context `{!UnicodeCase}.

Definition upper_rune (r : Z) : Z := if r <? 128 then asciiToUpper r else unicode_ToUpper r.

(** [strings.Map] over the runes of a text. *)
Fixpoint map_runes (fuel : nat) (s : list Z) : list Z :=
  match s, fuel with
  | [], _ => []
  | _, O => []
  | _, S fuel => let '(r, n) := DecodeRune s in EncodeRune (upper_rune r) ++ map_runes fuel (drop n s)
  end.
Definition strings_ToUpper (s : list Z) : list Z := if is_ascii s then map asciiToUpper s else map_runes (length s) s.
End upper.

(** [strings.ToLower] on the ASCII texts of base32. *)
Definition strings_ToLower (s : list Z) : list Z := map asciiToLower s.

(** ** Onion addresses *)

(** [base32.StdEncoding] of the standard library. *)
Definition std_base32 : Encoding := NewEncoding encodeStd.

(** The buffer behind the result of [DecodeString], which decodes in place: the decoded
    bytes, then what is left of the text after its line ends were removed, then what the
    removal left behind. *)
Definition decode_buffer (enc : Encoding) (s : list Z) : option (list Z * list Z) :=
  match DecodeString enc s with
  | None => None
  | Some out =>
      let buf := strip s ++ drop (length (strip s)) s in
      Some (out, out ++ drop (length out) buf)
  end.

Section onion.
Context `{!UnicodeCase}.

Definition parse_port (s : list Z) : option (list Z) :=
  match ParseUint s 16 with
  | Some i => if i =? 0 then None else Some (put_be 2 i)
  | None => None
  end.

Definition onionStB (s : list Z) : option (list Z) :=
  match Split colon s with
  | [host; port] =>
      match DecodeString std_base32 (strings_ToUpper host) with
      | None => None
      | Some onionHostBytes =>
          if negb (length onionHostBytes =? 10)%nat then None
          else match parse_port port with
               | None => None
               | Some onionPortBytes => Some (onionHostBytes ++ onionPortBytes)
               end
      end
  | _ => None
  end.

Definition onionBtS (b : list Z) : option (list Z) :=
  if (length b <? 12)%nat then None
  else
    let addr := strings_ToLower (EncodeToString std_base32 (take 10 b)) in
    let port := get_be (take 2 (drop 10 b)) in
    if port =? 0 then None else Some (addr ++ [colon] ++ FormatUint port).

Definition onionValidate (b : list Z) : bool :=
  (length b =? 12)%nat && negb (get_be (take 2 (drop 10 b)) =? 0).
Definition TranscoderOnion := mkTranscoder onionStB onionBtS onionValidate.

(** [onionHostBytes[0:35]] reaches into the buffer when fewer bytes were decoded; it is
    taken to panic when the text itself has fewer than 35 bytes, which takes characters
    outside ASCII that have shorter upper cases. *)
Definition onion3StB (s : list Z) : option (list Z) :=
  match Split colon s with
  | [host; port] =>
      if negb (length host =? 56)%nat then None
      else match decode_buffer std_base32 (strings_ToUpper host) with
      | None => None
      | Some (_, buf) =>
          match parse_port port with
          | None => None
          | Some onionPortBytes =>
              if (length buf <? 35)%nat then None else Some (take 35 buf ++ onionPortBytes)
          end
      end
  | _ => None
  end.

Definition onion3BtS (b : list Z) : option (list Z) :=
  if (length b <? 37)%nat then None
  else
    let addr := strings_ToLower (EncodeToString std_base32 (take 35 b)) in
    let port := get_be (take 2 (drop 35 b)) in
    if port <? 1 then None else Some (addr ++ [colon] ++ FormatUint port).

Definition onion3Validate (b : list Z) : bool :=
  (length b =? 37)%nat && negb (get_be (take 2 (drop 35 b)) =? 0).
Definition TranscoderOnion3 := mkTranscoder onion3StB onion3BtS onion3Validate.
End onion.

(** ** Garlic addresses *)

Definition garlicBase64Encoding : Encoding :=
  NewEncoding (str "ABCDEFGHIJKLMNOPQRSTUVWXYZabcdefghijklmnopqrstuvwxyz0123456789-~").

Definition garlic64Validate (b : list Z) : bool := negb (length b <? 386)%nat.
Definition garlic64StB (s : list Z) : option (list Z) :=
  match Base64.DecodeString garlicBase64Encoding s with
  | Some b => if garlic64Validate b then Some b else None
  | None => None
  end.
Definition garlic64BtS (b : list Z) : option (list Z) :=
  if garlic64Validate b then Some (Base64.EncodeToString garlicBase64Encoding b) else None.
Definition TranscoderGarlic64 := mkTranscoder garlic64StB garlic64BtS garlic64Validate.

Definition garlicBase32Encoding : Encoding := NewEncoding (str "abcdefghijklmnopqrstuvwxyz234567").

(** The loop that appends [=] until the length is a multiple of 8. *)
Definition pad8 (s : list Z) : list Z := s ++ replicate ((8 - length s mod 8) mod 8) StdPadding.

Definition garlic32Validate (b : list Z) : bool := negb ((length b <? 35)%nat && negb (length b =? 32)%nat).
Definition garlic32StB (s : list Z) : option (list Z) :=
  match DecodeString garlicBase32Encoding (pad8 s) with
  | Some b => if garlic32Validate b then Some b else None
  | None => None
  end.
Definition garlic32BtS (b : list Z) : option (list Z) :=
  if garlic32Validate b then Some (TrimRight (EncodeToString garlicBase32Encoding b) StdPadding) else None.
Definition TranscoderGarlic32 := mkTranscoder garlic32StB garlic32BtS garlic32Validate.

(** ** Texts are read back *)

(** A character of base32 or its padding, in lower case. *)
Definition plain_char (c : Z) : bool :=
  (asciiToUpper (asciiToLower c) =? c) && (asciiToLower c <? 128) &&
  negb (asciiToLower c =? colon) && negb (asciiToLower c =? slash).

Lemma std_plain src : bytes_ok src -> Forall (fun c => plain_char c = true) (EncodeToString std_base32 src).
Proof.
  apply Encode_chars; [|done]. intros v Hv. revert v Hv. apply (forall_below 32). by vm_compute.
Qed.

Lemma plain_upper `{!UnicodeCase} s :
  Forall (fun c => plain_char c = true) s -> strings_ToUpper (strings_ToLower s) = s.
Proof.
  intros Hs. unfold strings_ToUpper, strings_ToLower. assert (is_ascii (map asciiToLower s) = true) as ->.
  { unfold is_ascii. rewrite forallb_forall. intros c Hc. apply in_map_iff in Hc as (c' & <- & Hc').
    rewrite Forall_forall in Hs. specialize (Hs c' ltac:(by apply list_elem_of_In)). unfold plain_char in Hs. bool_props. zbool. }
  induction Hs as [|c s Hc _ IH]; [done|]. cbn [map]. rewrite IH. unfold plain_char in Hc. bool_props. by f_equal.
Qed.

Lemma plain_free s sep :
  sep = colon \/ sep = slash -> Forall (fun c => plain_char c = true) s -> sep ∉ strings_ToLower s.
Proof.
  intros Hsep Hs Hin. unfold strings_ToLower in Hin. apply list_elem_of_fmap in Hin as (c & -> & Hc).
  rewrite Forall_forall in Hs. specialize (Hs c Hc). unfold plain_char in Hs. bool_props. by destruct Hsep.
Qed.

Lemma std32_reads : reads std_base32 std_base32 = true.
Proof. by vm_compute. Qed.

#[local] Opaque Base32.reads Base64.reads.

Section onion_law.
Context `{!UnicodeCase}.

Lemma port_text bs :
  bytes_ok bs -> length bs = 2%nat -> (get_be bs =? 0) = false ->
  parse_port (FormatUint (get_be bs)) = Some bs /\ uint64 (get_be bs).
Proof.
  intros Hb Hl Hz. destruct (get_be_fits 2 bs Hb Hl) as [H1 H2]; [lia|]. split; [|done]. unfold parse_port.
  change (8 * Z.of_nat 2) with 16 in H2. rewrite H2, Hz. f_equal. rewrite <- Hl. by apply put_get_be.
Qed.

(** The text of a host and a port is split and both are read back. *)
Lemma onion_text host port :
  bytes_ok host -> uint64 port ->
  let addr := strings_ToLower (EncodeToString std_base32 host) in
  GoText.Split colon (addr ++ [colon] ++ FormatUint port) = [addr; FormatUint port] /\
  strings_ToUpper addr = EncodeToString std_base32 host /\
  fits_text false (addr ++ [colon] ++ FormatUint port).
Proof.
  intros Hb Hp addr. pose proof (std_plain host Hb) as Hplain. destruct (FormatUint_fits port Hp) as [_ Hs].
  assert (colon ∉ FormatUint port) as Hc.
  { intros Hin. pose proof (FormatUint_digits port Hp) as Hd. rewrite Forall_forall in Hd. by specialize (Hd colon Hin). }
  split_and!.
  - cbn [app]. rewrite Split_sep by (apply plain_free; [by left|done]). by rewrite Split_word.
  - by apply plain_upper.
  - split; [by destruct addr|]. rewrite !elem_of_app, list_elem_of_singleton. intros [Hin|[Hin|Hin]]; [|done|done].
    revert Hin. apply plain_free; [by right|done].
Qed.

Lemma DecodeString_std host : bytes_ok host -> DecodeString std_base32 (EncodeToString std_base32 host) = Some host.
Proof. apply Decode_Encode, std32_reads. Qed.

Lemma lawful_onion : lawful 96 false TranscoderOnion.
Proof.
  intros b Hb _. cbn [TranscoderOnion ValidateBytes BytesToString StringToBytes]. unfold onionValidate, onionBtS, onionStB.
  intros [Hl%Nat.eqb_eq Hz%negb_true_iff]%andb_prop. rewrite Hl, Hz. cbn [Nat.ltb Nat.leb].
  pose proof (Forall_take _ 10 _ Hb) as Hh. pose proof (Forall_drop _ 10 _ Hb) as Hd.
  rewrite (take_ge (drop 10 b)) in * by (rewrite length_drop; lia).
  destruct (port_text (drop 10 b) Hd ltac:(rewrite length_drop; lia) Hz) as [Hp Hu].
  destruct (onion_text (take 10 b) (get_be (drop 10 b)) Hh Hu) as (E1 & E2 & E3). cbv zeta in *.
  eexists. split; [reflexivity|]. split; [|exact E3]. rewrite E1, E2, DecodeString_std by done.
  rewrite length_take, Hl. cbn [Nat.min Nat.eqb negb]. rewrite Hp. by rewrite take_drop.
Qed.

Lemma lawful_onion3 : lawful 296 false TranscoderOnion3.
Proof.
  intros b Hb _. cbn [TranscoderOnion3 ValidateBytes BytesToString StringToBytes]. unfold onion3Validate, onion3BtS, onion3StB.
  intros [Hl%Nat.eqb_eq Hz%negb_true_iff]%andb_prop. rewrite Hl. cbn [Nat.ltb Nat.leb].
  pose proof (Forall_take _ 35 _ Hb) as Hh. pose proof (Forall_drop _ 35 _ Hb) as Hd.
  rewrite (take_ge (drop 35 b)) in * by (rewrite length_drop; lia).
  destruct (port_text (drop 35 b) Hd ltac:(rewrite length_drop; lia) Hz) as [Hp Hu].
  destruct (onion_text (take 35 b) (get_be (drop 35 b)) Hh Hu) as (E1 & E2 & E3). cbv zeta in *.
  assert (length (take 35 b) = 35%nat) as H35 by (rewrite length_take; lia).
  replace (get_be (drop 35 b) <? 1) with false by (unfold uint64 in Hu; zbool).
  eexists. split; [reflexivity|]. split; [|exact E3]. rewrite E1, E2. unfold decode_buffer. rewrite DecodeString_std by done.
  assert (length (strings_ToLower (EncodeToString std_base32 (take 35 b))) = 56%nat) as ->.
  { unfold strings_ToLower. rewrite length_map. pose proof (Encode_length std_base32 (take 35 b)) as Hlen. rewrite H35 in Hlen.
    change (EncodedLen std_base32 (Z.of_nat 35)) with 56 in Hlen. unfold EncodeToString. lia. }
  cbn [Nat.eqb negb]. rewrite Hp, length_app, H35. 
  match goal with |- context [(?a <=? 34)%nat] => replace (a <=? 34)%nat with false by (symmetry; apply Nat.leb_gt; lia) end.
  rewrite <- H35 at 1. by rewrite take_app_length, take_drop.
Qed.
End onion_law.

Lemma garlic64_reads : Base64.reads garlicBase64Encoding garlicBase64Encoding = true.
Proof. by vm_compute. Qed.

Lemma lawful_garlic64 : lawful (-1) false TranscoderGarlic64.
Proof.
  intros b Hb _. cbn [TranscoderGarlic64 ValidateBytes BytesToString StringToBytes]. unfold garlic64BtS, garlic64StB.
  intros Hv. rewrite Hv. eexists. split; [reflexivity|]. rewrite (Base64.Decode_Encode64 _ _ b garlic64_reads Hb), Hv. split; [done|]. split.
  - assert (b <> []) as Hne by (by intros ->). pose proof (Base64.Encode_longer garlicBase64Encoding b Hne) as Hl.
    unfold Base64.EncodeToString. destruct (Base64.Encode garlicBase64Encoding b); [cbn in Hl; lia|done].
  - apply (plain_no_slash (fun c => c <> slash)); [done|]. apply Base64.Encode_chars64; [|done]. intros v Hv'.
    pose proof (forall_below 64 (fun v => negb (char_of garlicBase64Encoding v =? slash)) ltac:(by vm_compute) v Hv') as H.
    by apply negb_true_iff, Z.eqb_neq in H.
Qed.

Lemma garlic32_reads : reads garlicBase32Encoding garlicBase32Encoding = true.
Proof. by vm_compute. Qed.

(** A padded text is characters of the alphabet and then at most seven paddings. *)
Lemma padded_shape (P : Z -> Prop) enc src :
  padChar enc = StdPadding -> (forall v, group_ok v -> P (char_of enc v)) -> bytes_ok src ->
  exists s n, Encode enc src = s ++ replicate n StdPadding /\ Forall P s /\ (n < 8)%nat /\ (src <> [] -> s <> []).
Proof.
  intros Hpad Hc. assert (forall vs, Forall group_ok vs -> Forall P (map (char_of enc) vs)) as Hm.
  { intros vs Hvs. induction Hvs; constructor; auto. }
  induction src as [src IH] using (induction_ltof1 _ length). unfold ltof in IH. intros Hb.
  assert (forall n, pads enc n = replicate n StdPadding) as Hp by (intros n; unfold pads; rewrite Hpad; done).
  destruct src as [|b0 [|b1 [|b2 [|b3 [|b4 src]]]]]; repeat (apply Forall_cons_1 in Hb as [? Hb]); cbn [Encode]; rewrite ?Hp.
  - exists [], 0%nat. split_and!; [done|constructor|lia|done].
  - eexists _, _. split_and!; [reflexivity|apply Hm, tail1_ok; group1|lia|done].
  - eexists _, _. split_and!; [reflexivity|apply Hm, tail2_ok; group1|lia|done].
  - eexists _, _. split_and!; [reflexivity|apply Hm, tail3_ok; group1|lia|done].
  - eexists _, _. split_and!; [reflexivity|apply Hm, tail4_ok; group1|lia|done].
  - destruct (IH src) as (s & n & -> & Hs & Hn & _); [cbn [length]; lia|done|].
    eexists (_ ++ s), n. rewrite <- app_assoc. split_and!; [reflexivity| |done|done]. apply Forall_app. split; [by apply Hm, block_ok|done].
Qed.

Lemma pad8_trim s n : (n < 8)%nat -> (length (s ++ replicate n StdPadding) mod 8 = 0)%nat -> pad8 s = s ++ replicate n StdPadding.
Proof.
  intros Hn. rewrite length_app, length_replicate. unfold pad8. intros H. do 2 f_equal.
  pose proof (Nat.div_mod_eq (length s + n) 8). pose proof (Nat.div_mod_eq (length s) 8). pose proof (Nat.mod_upper_bound (length s) 8).
  destruct (Nat.eq_dec (length s mod 8) 0) as [E|E].
  - rewrite E. change ((8 - 0) mod 8)%nat with 0%nat. lia.
  - rewrite Nat.mod_small by lia. lia.
Qed.

Lemma garlic_char v : group_ok v -> char_of garlicBase32Encoding v <> slash /\ char_of garlicBase32Encoding v <> StdPadding.
Proof.
  intros Hv.
  pose proof (forall_below 32 (fun v => negb (char_of garlicBase32Encoding v =? slash) && negb (char_of garlicBase32Encoding v =? StdPadding))
    ltac:(by vm_compute) v Hv) as H. apply andb_prop in H as [H1%negb_true_iff%Z.eqb_neq H2%negb_true_iff%Z.eqb_neq]. exact (conj H1 H2).
Qed.

Lemma lawful_garlic32 : lawful (-1) false TranscoderGarlic32.
Proof.
  intros b Hb _. cbn [TranscoderGarlic32 ValidateBytes BytesToString StringToBytes]. unfold garlic32BtS, garlic32StB.
  intros Hv. rewrite Hv. assert (b <> []) as Hne by (by intros ->).
  destruct (padded_shape (fun c => c <> slash /\ c <> StdPadding) garlicBase32Encoding b eq_refl garlic_char Hb) as (s & n & E & Hs & Hn & Hsne). specialize (Hsne Hne).
  pose proof (Encode_length garlicBase32Encoding b) as Hlen. change (EncodedLen garlicBase32Encoding) with (fun n => (n + 4) / 5 * 8) in Hlen.
  assert (last s <> Some StdPadding) as Hlast.
  { intros Hl. apply last_Some_elem_of in Hl. rewrite Forall_forall in Hs. by destruct (Hs _ Hl). }
  assert (pad8 s = EncodeToString garlicBase32Encoding b) as Hpad.
  { unfold EncodeToString. rewrite E. apply pad8_trim; [done|]. rewrite <- E. cbv beta in Hlen.
    pose proof (Z.div_pos (Z.of_nat (length b) + 4) 5).
    replace (length _) with (Z.to_nat ((Z.of_nat (length b) + 4) / 5) * 8)%nat by lia. apply Nat.Div0.mod_mul. }
  exists s. change (EncodeToString garlicBase32Encoding b) with (Encode garlicBase32Encoding b) at 1.
  rewrite E, TrimRight_pads, Hpad by done. split; [done|]. rewrite (Decode_Encode _ _ b garlic32_reads Hb), Hv. split; [done|]. split; [done|].
  revert Hs. apply plain_no_slash. by intros c [].
Qed.

(** [onion3StB] takes texts that do not name 35 bytes: here 56 line ends, which decode to
    nothing and are then themselves taken for the address. *)
Lemma onion3_stale `{!UnicodeCase} : onion3StB (replicate 56 10 ++ str ":80") = Some (replicate 35 10 ++ [0; 80]).
Proof. vm_compute. reflexivity. Qed.
