(* ===== verification/Multiaddr.v ===== *)
(** * Multiaddrs (src/multiformats/multiaddr)

    The protocol registry (protocol.go, protocols.go), the binary and the text codec
    (codec.go, varint.go), components (component.go), and the operations on addresses
    (multiaddr.go, util.go).

    A [Multiaddr] interface value is [MBytes] (a [*multiaddr]) or [MComp] (a
    [*Component]); the nil interface is [None] where the code allows it.  An outer
    [None] is a panic.  Loops over the bytes of an address get its length as fuel:
    every round consumes at least one byte. *)

From stdpp Require Import base list numbers strings.
From Stdlib Require Import ZArith Lia.
From S2P Require Import Prelude Varint GoText Base58 Multihash Transcoders OnionGarlic.

Inductive ma_error :=
| ErrEmpty
| ErrVarintCode (e : varint_error)
| ErrNoProtocol (code : Z)
| ErrSize
| ErrPathSize
| ErrValue
| ErrBegin
| ErrUnknownName
| ErrUnexpectedEnd
| ErrTakesNoValue
| ErrProtocolNotFound
| ErrFuel.

(** ** Protocols *)

Record Protocol := mkProtocol {
  p_Name : list Z;
  p_Code : Z;
  p_VCode : list Z;
  p_Size : Z;
  p_Path : bool;
  p_Transcoder : option Transcoder;
}.

Definition LengthPrefixedVarSize : Z := -1.

Definition CodeToVarint (num : Z) : option (list Z) :=
  if (num <? 0) || (num >? MaxInt32) then None else ToUvarint num.

Definition ReadVarintCode (b : list Z) : result ma_error (Z * Z) :=
  match FromUvarint b with
  | Err e => Err (ErrVarintCode e)
  | Ok (code, n) => if code >? MaxInt32 then Err (ErrVarintCode ErrOverflow) else Ok (code, n)
  end.

(** [protocolsByName] and [protocolsByCode] *)
Record registry := mkRegistry {
  byName : list (list Z * Protocol);
  byCode : list (Z * Protocol);
}.
Definition empty_registry : registry := mkRegistry [] [].

Fixpoint assoc {K V} `{!EqDecision K} (k : K) (l : list (K * V)) : option V :=
  match l with
  | [] => None
  | (k', v) :: l => if decide (k = k') then Some v else assoc k l
  end.

Inductive add_error := ErrNameTaken | ErrCodeTaken | ErrNoTranscoder | ErrPathFixed.

Definition AddProtocol (p : Protocol) (reg : registry) : result add_error registry :=
  match assoc (p_Name p) (byName reg) with
  | Some _ => Err ErrNameTaken
  | None =>
      match assoc (p_Code p) (byCode reg) with
      | Some _ => Err ErrCodeTaken
      | None =>
          if negb (p_Size p =? 0) && match p_Transcoder p with None => true | Some _ => false end then Err ErrNoTranscoder
          else if p_Path p && (p_Size p >=? 0) then Err ErrPathFixed
          else Ok (mkRegistry ((p_Name p, p) :: byName reg) ((p_Code p, p) :: byCode reg))
      end
  end.

(** The map lookups; the zero [Protocol] of a missing key is recognised by its code
    being 0. *)
Definition known (o : option Protocol) : option Protocol :=
  match o with
  | Some p => if p_Code p =? 0 then None else Some p
  | None => None
  end.
Definition ProtocolWithName (reg : registry) (s : list Z) : option Protocol := known (assoc s (byName reg)).
Definition ProtocolWithCode (reg : registry) (c : Z) : option Protocol := known (assoc c (byCode reg)).

Definition P_IP4 : Z := 4.
Definition P_TCP : Z := 6.
Definition P_DNS : Z := 53.
Definition P_DNS4 : Z := 54.
Definition P_DNS6 : Z := 55.
Definition P_UDP : Z := 273.
Definition P_IP6 : Z := 41.
Definition P_IP6ZONE : Z := 42.
Definition P_IPCIDR : Z := 43.
Definition P_CIRCUIT : Z := 290.
Definition P_UNIX : Z := 400.
Definition P_P2P : Z := 421.

Section table.
Context `{!Base58} `{!UnicodeCase}.

Definition proto (name : string) (code size : Z) (path : bool) (t : option Transcoder) : Protocol :=
  mkProtocol (str name) code (default [] (CodeToVarint code)) size path t.

Definition protoP2P : Protocol := proto "p2p" P_P2P (-1) false (Some TranscoderP2P).

Definition builtin : list Protocol :=
  [proto "ip4" P_IP4 32 false (Some TranscoderIP4);
   proto "tcp" P_TCP 16 false (Some TranscoderPort);
   proto "dns" P_DNS (-1) false (Some TranscoderDns);
   proto "dns4" P_DNS4 (-1) false (Some TranscoderDns);
   proto "dns6" P_DNS6 (-1) false (Some TranscoderDns);
   proto "dnsaddr" 56 (-1) false (Some TranscoderDns);
   proto "udp" P_UDP 16 false (Some TranscoderPort);
   proto "dccp" 33 16 false (Some TranscoderPort);
   proto "ip6" P_IP6 128 false (Some TranscoderIP6);
   proto "ip6zone" P_IP6ZONE (-1) false (Some TranscoderIP6Zone);
   proto "ipcidr" P_IPCIDR 8 false (Some TranscoderIPCIDR);
   proto "sctp" 132 16 false (Some TranscoderPort);
   proto "p2p-circuit" P_CIRCUIT 0 false None;
   proto "onion" 444 96 false (Some TranscoderOnion);
   proto "onion3" 445 296 false (Some TranscoderOnion3);
   proto "garlic64" 446 (-1) false (Some TranscoderGarlic64);
   proto "garlic32" 447 (-1) false (Some TranscoderGarlic32);
   proto "utp" 302 0 false None;
   proto "udt" 301 0 false None;
   proto "quic" 460 0 false None;
   proto "quic-v1" 461 0 false None;
   proto "webtransport" 465 0 false None;
   proto "certhash" 466 (-1) false (Some TranscoderCertHash);
   proto "http" 480 0 false None;
   proto "http-path" 481 (-1) false (Some TranscoderHTTPPath);
   proto "https" 443 0 false None;
   protoP2P;
   proto "unix" P_UNIX (-1) true (Some TranscoderUnix);
   proto "p2p-webrtc-direct" 276 0 false None;
   proto "tls" 448 0 false None;
   proto "sni" 449 (-1) false (Some TranscoderDns);
   proto "noise" 454 0 false None;
   proto "ws" 477 0 false None;
   proto "wss" 478 0 false None;
   proto "plaintextv2" 7367777 0 false None;
   proto "webrtc-direct" 280 0 false None;
   proto "webrtc" 281 0 false None;
   proto "memory" 777 64 false (Some TranscoderMemory)].

Fixpoint add_all (ps : list Protocol) (reg : registry) : option registry :=
  match ps with
  | [] => Some reg
  | p :: ps => match AddProtocol p reg with Ok reg => add_all ps reg | Err _ => None end
  end.

(** [init]: the built-in protocols, and the alias of p2p. *)
Definition init : option registry :=
  match add_all builtin empty_registry with
  | None => None
  | Some reg => Some (mkRegistry ((str "ipfs", protoP2P) :: (str "p2p", protoP2P) :: byName reg) (byCode reg))
  end.
End table.

(** ** The codec *)

Record Component := mkComponent { c_bytes : list Z; c_protocol : Protocol; c_offset : nat }.

Definition sizeForAddr (p : Protocol) (b : list Z) : result ma_error (Z * Z) :=
  if p_Size p >? 0 then Ok (0, Z.quot (p_Size p) 8)
  else if p_Size p =? 0 then Ok (0, 0)
  else match ReadVarintCode b with
       | Err e => Err e
       | Ok (size, n) => Ok (n, size)
       end.

(** Calling a method of a nil transcoder panics; a protocol with arguments has one. *)
Definition transcoder (p : Protocol) : Transcoder :=
  match p_Transcoder p with
  | Some t => t
  | None => mkTranscoder (fun _ => None) (fun _ => None) (fun _ => false)
  end.

Section codec.
Context (reg : registry).

Fixpoint validate_loop (fuel : nat) (b : list Z) : option ma_error :=
  match b, fuel with
  | [], _ => None
  | _, O => Some ErrFuel
  | _, S fuel =>
      match ReadVarintCode b with
      | Err e => Some e
      | Ok (code, n) =>
          let b := drop (Z.to_nat n) b in
          match ProtocolWithCode reg code with
          | None => Some (ErrNoProtocol code)
          | Some p =>
              if p_Size p =? 0 then validate_loop fuel b
              else match sizeForAddr p b with
              | Err e => Some e
              | Ok (n, size) =>
                  let b := drop (Z.to_nat n) b in
                  if (Z.of_nat (length b) <? size) || (size <? 0) then Some ErrSize
                  else if p_Path p && negb (Z.of_nat (length b) =? size) then Some ErrPathSize
                  else if negb (ValidateBytes (transcoder p) (take (Z.to_nat size) b)) then Some ErrValue
                  else validate_loop fuel (drop (Z.to_nat size) b)
              end
          end
      end
  end.

Definition validateBytes (b : list Z) : option ma_error :=
  if (length b =? 0)%nat then Some ErrEmpty else validate_loop (length b) b.

Definition readComponent (b : list Z) : result ma_error (nat * Component) :=
  match ReadVarintCode b with
  | Err e => Err e
  | Ok (code, n) =>
      let offset := Z.to_nat n in
      match ProtocolWithCode reg code with
      | None => Err (ErrNoProtocol code)
      | Some p =>
          if p_Size p =? 0 then Ok (offset, mkComponent (take offset b) p offset)
          else match sizeForAddr p (drop offset b) with
          | Err e => Err e
          | Ok (n, size) =>
              let offset := (offset + Z.to_nat n)%nat in
              if (Z.of_nat (length (drop offset b)) <? size) || (size <? 0) then Err ErrSize
              else
                let stop := (offset + Z.to_nat size)%nat in
                Ok (stop, mkComponent (take stop b) p offset)
          end
      end
  end.

(** *** Components *)

Definition RawValue (c : Component) : list Z := drop (c_offset c) (c_bytes c).

(** [None] is the panic on a value that is not valid. *)
Definition Value (c : Component) : option (list Z) :=
  match p_Transcoder (c_protocol c) with
  | None => Some []
  | Some t => BytesToString t (RawValue c)
  end.

(** What [writeTo] appends to the buffer. *)
Definition writeTo (c : Component) : option (list Z) :=
  match Value c with
  | None => None
  | Some value =>
      Some ([slash] ++ p_Name (c_protocol c) ++
        match value with
        | [] => []
        | v :: _ => (if p_Path (c_protocol c) && (v =? slash) then [] else [slash]) ++ value
        end)
  end.

Fixpoint to_string_loop (fuel : nat) (b : list Z) : option (result ma_error (list Z)) :=
  match b, fuel with
  | [], _ => Some (Ok [])
  | _, O => Some (Err ErrFuel)
  | _, S fuel =>
      match readComponent b with
      | Err e => Some (Err e)
      | Ok (n, c) =>
          match writeTo c with
          | None => None
          | Some s =>
              match to_string_loop fuel (drop n b) with
              | Some (Ok t) => Some (Ok (s ++ t))
              | o => o
              end
          end
      end
  end.

Definition bytesToString (b : list Z) : option (result ma_error (list Z)) :=
  if (length b =? 0)%nat then Some (Err ErrEmpty) else to_string_loop (length b) b.

(** The loop of [stringToBytes] over the parts between slashes. *)
Fixpoint parse_parts (sp : list (list Z)) : result ma_error (list Z) :=
  match sp with
  | [] => Ok []
  | name :: sp =>
      match ProtocolWithName reg name with
      | None => Err ErrUnknownName
      | Some p =>
          if p_Size p =? 0 then
            match parse_parts sp with Ok b => Ok (p_VCode p ++ b) | Err e => Err e end
          else match sp with
          | [] => Err ErrUnexpectedEnd
          | v :: sp' =>
              let value := if p_Path p then [slash] ++ GoText.Join sp [slash] else v in
              match StringToBytes (transcoder p) value with
              | None => Err ErrValue
              | Some a =>
                  let prefix := if p_Size p <? 0 then default [] (ToUvarint (Z.of_nat (length a))) else [] in
                  match (if p_Path p then Ok [] else parse_parts sp') with
                  | Ok b => Ok (p_VCode p ++ prefix ++ a ++ b)
                  | Err e => Err e
                  end
              end
          end
      end
  end.

Definition stringToBytes (s : list Z) : result ma_error (list Z) :=
  match GoText.Split slash (TrimRight s slash) with
  | [] => Err ErrBegin
  | first :: sp =>
      if negb (length first =? 0)%nat then Err ErrBegin
      else if (length sp =? 0)%nat then Err ErrEmpty
      else parse_parts sp
  end.

Definition newComponent (p : Protocol) (bvalue : list Z) : option Component :=
  let len := Z.of_nat (length bvalue) in
  let size := (length bvalue + length (p_VCode p) + (if (p_Size p <? 0)%Z then Z.to_nat (UvarintSize len) else 0))%nat in
  let maddr := copy_into (replicate size 0) (p_VCode p) in
  let offset := length (p_VCode p) in
  match (if p_Size p <? 0 then
           match PutUvarint (drop offset maddr) len with
           | Some (tail, m) => Some (take offset maddr ++ tail, (offset + m)%nat)
           | None => None
           end
         else Some (maddr, offset)) with
  | None => None
  | Some (maddr, offset) =>
      let maddr := take offset maddr ++ copy_into (drop offset maddr) bvalue in
      if negb (length maddr =? offset + length bvalue)%nat then None
      else Some (mkComponent maddr p offset)
  end.

Definition NewComponent (protocol value : list Z) : option (result ma_error Component) :=
  match ProtocolWithName reg protocol with
  | None => Some (Err ErrUnknownName)
  | Some p =>
      match p_Transcoder p with
      | Some t =>
          match StringToBytes t value with
          | None => Some (Err ErrValue)
          | Some bts => match newComponent p bts with Some c => Some (Ok c) | None => None end
          end
      | None =>
          if negb (length value =? 0)%nat then Some (Err ErrTakesNoValue)
          else match newComponent p [] with Some c => Some (Ok c) | None => None end
      end
  end.

(** ** Addresses *)

Inductive Multiaddr := MBytes (b : list Z) | MComp (c : Component).

Definition Bytes (m : Multiaddr) : list Z :=
  match m with MBytes b => b | MComp c => c_bytes c end.

Definition Equal (m m2 : Multiaddr) : bool := bool_decide (Bytes m = Bytes m2).

(** [NewMultiaddrBytes]; a panic of a transcoder is recovered into an error. *)
Definition NewMultiaddrBytes (b : list Z) : result ma_error Multiaddr :=
  match validateBytes b with
  | Some e => Err e
  | None => Ok (MBytes b)
  end.
Definition NewMultiaddr (s : list Z) : result ma_error Multiaddr :=
  match stringToBytes s with
  | Err e => Err e
  | Ok b => Ok (MBytes b)
  end.

(** [ForEach] with a callback on the state [S]; [None] is the panic on malformed
    bytes. *)
Fixpoint for_each_loop {S} (fuel : nat) (cb : S -> Component -> S * bool) (b : list Z) (s : S) : option S :=
  match b, fuel with
  | [], _ => Some s
  | _, O => None
  | _, Datatypes.S fuel =>
      match readComponent b with
      | Err _ => None
      | Ok (n, c) =>
          let (s, continue) := cb s c in
          if continue then for_each_loop fuel cb (drop n b) s else Some s
      end
  end.
Definition ForEach {S} (m : option Multiaddr) (cb : S -> Component -> S * bool) (s : S) : option S :=
  match m with
  | None => Some s
  | Some (MComp c) => Some (fst (cb s c))
  | Some (MBytes b) => for_each_loop (length b) cb b s
  end.

Definition Split (m : Multiaddr) : option (list Multiaddr) :=
  match m with
  | MComp _ => Some [m]
  | MBytes _ => ForEach (Some m) (fun addrs c => (addrs ++ [MComp c], true)) []
  end.

Definition Join (ms : list (option Multiaddr)) : option Multiaddr :=
  match ms with
  | [] => Some (MBytes [])
  | [m] => m
  | _ =>
      let b := concat (map (fun m => match m with Some m => Bytes m | None => [] end) ms) in
      if (length b =? 0)%nat then None else Some (MBytes b)
  end.

Definition SplitFirst (m : option Multiaddr) : option (option Component * option Multiaddr) :=
  match m with
  | None => Some (None, None)
  | Some (MComp c) => Some (Some c, None)
  | Some (MBytes b) =>
      if (length b =? 0)%nat then Some (None, None)
      else match readComponent b with
           | Err _ => None
           | Ok (n, c) =>
               if (length b =? n)%nat then Some (Some c, None) else Some (Some c, Some (MBytes (drop n b)))
           end
  end.

Fixpoint split_last_loop (fuel : nat) (b : list Z) (offset : nat) : option (option Multiaddr * option Component) :=
  match fuel with
  | O => None
  | S fuel =>
      match readComponent (drop offset b) with
      | Err _ => None
      | Ok (n, c) =>
          if (length b =? n + offset)%nat then
            if (offset =? 0)%nat then Some (None, Some c) else Some (Some (MBytes (take offset b)), Some c)
          else split_last_loop fuel b (offset + n)
      end
  end.
Definition SplitLast (m : option Multiaddr) : option (option Multiaddr * option Component) :=
  match m with
  | None => Some (None, None)
  | Some (MComp c) => Some (None, Some c)
  | Some (MBytes b) => if (length b =? 0)%nat then Some (None, None) else split_last_loop (length b) b 0
  end.

Fixpoint split_func_loop (fuel : nat) (b : list Z) (offset : nat) (cb : Component -> bool) : option nat :=
  if negb (offset <? length b)%nat then Some offset
  else match fuel with
  | O => None
  | S fuel =>
      match readComponent (drop offset b) with
      | Err _ => None
      | Ok (n, c) => if cb c then Some offset else split_func_loop fuel b (offset + n) cb
      end
  end.
Definition SplitFunc (m : option Multiaddr) (cb : Component -> bool) : option (option Multiaddr * option Multiaddr) :=
  match m with
  | None => Some (None, None)
  | Some (MComp c) => if cb c then Some (None, m) else Some (m, None)
  | Some (MBytes b) =>
      if (length b =? 0)%nat then Some (None, None)
      else match split_func_loop (length b) b 0 cb with
           | None => None
           | Some offset =>
               if (offset =? 0)%nat then Some (None, m)
               else if (offset =? length b)%nat then Some (m, None)
               else Some (Some (MBytes (take offset b)), Some (MBytes (drop offset b)))
           end
  end.

Fixpoint protocols_loop (fuel : nat) (b : list Z) : option (list Protocol) :=
  match b, fuel with
  | [], _ => Some []
  | _, O => None
  | _, S fuel =>
      match ReadVarintCode b with
      | Err _ => None
      | Ok (code, n) =>
          match ProtocolWithCode reg code with
          | None => None
          | Some p =>
              let b := drop (Z.to_nat n) b in
              match sizeForAddr p b with
              | Err _ => None
              | Ok (n, size) =>
                  if (length b <? Z.to_nat (n + size))%nat then None
                  else match protocols_loop fuel (drop (Z.to_nat (n + size)) b) with
                       | Some ps => Some (p :: ps)
                       | None => None
                       end
              end
          end
      end
  end.
Definition Protocols (m : Multiaddr) : option (list Protocol) :=
  match m with
  | MComp c => Some [c_protocol c]
  | MBytes b => protocols_loop (length b) b
  end.

Definition Encapsulate (m : Multiaddr) (o : option Multiaddr) : Multiaddr :=
  match o with
  | None => match m with MComp c => MBytes (c_bytes c) | _ => m end
  | Some o => MBytes (Bytes m ++ Bytes o)
  end.

(** The inner loop of [Decapsulate]: whether [rightParts] is found at the front of
    [left].  With no right part at all [foundMatch] stays false. *)
Fixpoint match_at (left rightParts : list Multiaddr) (found : bool) : bool :=
  match rightParts with
  | [] => found
  | r :: rs =>
      match left with
      | [] => false
      | l :: ls => if Equal r l then match_at ls rs true else false
      end
  end.
Fixpoint last_match (left rightParts : list Multiaddr) (i : nat) (lastIndex : option nat) : option nat :=
  match left with
  | [] => lastIndex
  | _ :: ls => last_match ls rightParts (S i) (if match_at left rightParts false then Some i else lastIndex)
  end.

Definition Decapsulate (m : Multiaddr) (r : option Multiaddr) : option (option Multiaddr) :=
  match r with
  | None => Some (Some m)
  | Some r =>
      match m with
      | MComp c => if Equal m r then Some None else Some (Some m)
      | MBytes b =>
          match Split m, Split r with
          | Some leftParts, Some rightParts =>
              match last_match leftParts rightParts 0 None with
              | Some O => Some None
              | None => Some (Some (MBytes b))
              | Some lastIndex => Some (Join (map Some (take lastIndex leftParts)))
              end
          | _, _ => None
          end
      end
  end.

Definition ValueForProtocol (m : Multiaddr) (code : Z) : option (result ma_error (list Z)) :=
  match m with
  | MComp c =>
      if negb (p_Code (c_protocol c) =? code) then Some (Err ErrProtocolNotFound)
      else match Value c with Some v => Some (Ok v) | None => None end
  | MBytes _ =>
      match ForEach (Some m) (fun acc c =>
              if p_Code (c_protocol c) =? code then (Some (Value c), false) else (acc, true)) None with
      | None => None
      | Some None => Some (Err ErrProtocolNotFound)
      | Some (Some None) => None
      | Some (Some (Some v)) => Some (Ok v)
      end
  end.
End codec.
