(* ===== verification/MultiaddrSpec.v ===== *)
(** * Multiaddrs: correctness of the codec

    An address is a non-empty sequence of pairs of a registered protocol and a value
    ([good]), a path protocol only at the end.  [encode] and [text] are its binary
    and its textual form.  [validateBytes] accepts exactly the encodings
    ([valid_iff]); on an encoding every traversal visits the pairs in order and
    none panics; the text is parsed back to the same bytes. *)

From stdpp Require Import base list numbers strings.
From Stdlib Require Import ZArith Lia.
From S2P Require Import Prelude Varint GoText Base58 Multihash Transcoders OnionGarlic Multiaddr.

(** ** The registry *)

Record proto_ok (p : Protocol) : Prop := {
  po_code : 0 < p_Code p <= MaxInt32;
  po_vcode : p_VCode p = uvarint (p_Code p);
  po_name : p_Name p <> [] /\ slash ∉ p_Name p;
  po_size : p_Size p < 2 ^ 31;
  po_none : p_Size p = 0 -> p_Transcoder p = None;
  po_some : p_Size p <> 0 -> exists t, p_Transcoder p = Some t /\ lawful (p_Size p) (p_Path p) t;
  po_path : p_Path p = true -> p_Size p < 0;
}.

Record reg_ok (reg : registry) : Prop := {
  rg_code : forall c p, assoc c (byCode reg) = Some p ->
    p_Code p = c /\ proto_ok p /\ assoc (p_Name p) (byName reg) = Some p;
  rg_name : forall n p, assoc n (byName reg) = Some p -> proto_ok p /\ assoc (p_Code p) (byCode reg) = Some p;
}.

Lemma assoc_cons {K V} `{!EqDecision K} (k k' : K) (v : V) l :
  assoc k ((k', v) :: l) = if decide (k = k') then Some v else assoc k l.
Proof. done. Qed.

Lemma AddProtocol_ok p reg reg' :
  reg_ok reg -> proto_ok p -> AddProtocol p reg = Ok reg' -> reg_ok reg'.
Proof.
  intros [Hc Hn] Hp. unfold AddProtocol. destruct (assoc (p_Name p) _) eqn:En; [done|].
  destruct (assoc (p_Code p) _) eqn:Ec; [done|]. repeat case_bool; try done. intros [= <-]. constructor; cbn.
  - intros c q. case_decide as E.
    + intros [= <-]. split_and!; [done|done|]. by rewrite decide_True.
    + intros Hq. destruct (Hc c q Hq) as (? & ? & Hqn). split_and!; [done..|]. case_decide as E'; [|done]. congruence.
  - intros n q. case_decide as E.
    + intros [= <-]. split; [done|]. by rewrite decide_True.
    + intros Hq. destruct (Hn n q Hq) as [? Hqc]. split; [done|]. case_decide as E'; [|done]. congruence.
Qed.

Lemma empty_registry_ok : reg_ok empty_registry.
Proof. by constructor. Qed.

Lemma alias_ok n p reg :
  reg_ok reg -> assoc (p_Code p) (byCode reg) = Some p -> assoc n (byName reg) = None \/ n = p_Name p ->
  reg_ok (mkRegistry ((n, p) :: byName reg) (byCode reg)).
Proof.
  intros [Hc Hn] Hp Hfresh. destruct (Hc _ _ Hp) as (_ & Hok & Hname). constructor; cbn.
  - intros c q Hq. destruct (Hc c q Hq) as (? & ? & Hqn). split_and!; [done..|]. case_decide as E; [|done].
    destruct Hfresh as [Hf|Hf]; congruence.
  - intros m q. case_decide as E; [intros [= <-]; done|]. apply Hn.
Qed.

Create HintDb lawful discriminated.
#[export] Hint Resolve lawful_ip4 lawful_ip6 lawful_ip6zone lawful_ipcidr lawful_port lawful_memory lawful_dns lawful_unix
  lawful_httppath lawful_p2p lawful_onion lawful_onion3 lawful_garlic64 lawful_garlic32 lawful_certhash : lawful.

Section builtin.
Context {b58 : Base58} {b58_laws : Base58Laws} {unicode : UnicodeCase}.

Ltac table_name := cbn; intros Hin; repeat (apply elem_of_cons in Hin as [?|Hin]; [done|]); by apply elem_of_nil in Hin.

Lemma builtin_ok : Forall proto_ok builtin.
Proof.
  unfold builtin. repeat constructor; cbn [proto protoP2P p_Code p_VCode p_Name p_Size p_Path p_Transcoder];
    try done; try table_name; try (intros _; eexists; split; [done|auto with lawful]).
Qed.

Lemma add_all_ok ps reg reg' : Forall proto_ok ps -> reg_ok reg -> add_all ps reg = Some reg' -> reg_ok reg'.
Proof.
  intros Hps. revert reg. induction Hps as [|p ps Hp _ IH]; intros reg Hr; cbn; [by intros [= <-]|].
  destruct (AddProtocol p reg) eqn:E; [|done]. apply IH. by eapply AddProtocol_ok.
Qed.

Lemma init_spec : exists reg, init = Some reg /\ reg_ok reg.
Proof.
  assert (exists reg, add_all builtin empty_registry = Some reg /\
            assoc (p_Code protoP2P) (byCode reg) = Some protoP2P /\ assoc (str "ipfs") (byName reg) = None)
    as (reg & Hadd & Hc & Hi).
  { unfold builtin, protoP2P.
    generalize TranscoderIP4, TranscoderIP6, TranscoderIP6Zone, TranscoderIPCIDR, TranscoderPort, TranscoderMemory,
      TranscoderDns, TranscoderUnix, TranscoderHTTPPath, TranscoderP2P, TranscoderOnion, TranscoderOnion3,
      TranscoderGarlic64, TranscoderGarlic32, TranscoderCertHash.
    intros. eexists. split; [vm_compute; reflexivity|]. split; vm_compute; reflexivity. }
  pose proof (add_all_ok _ _ _ builtin_ok empty_registry_ok Hadd) as Hok.
  eexists. split; [unfold init; by rewrite Hadd|].
  apply (alias_ok _ _ (mkRegistry ((str "p2p", protoP2P) :: byName reg) (byCode reg))); [|done|left; exact Hi].
  apply alias_ok; [done|done|by right].
Qed.
Lemma init_ok reg : init = Some reg -> reg_ok reg.
Proof. intros E. destruct init_spec as (reg' & E' & H). congruence. Qed.

(** Loading the package does not panic: the built-in protocols have distinct names
    and codes and complete descriptions, and the registry they form is well-formed:
    lookups by code and by name agree, and every entry is described correctly. *)
Theorem init_registers : exists reg, init = Some reg /\ reg_ok reg.
Proof. exact init_spec. Qed.
End builtin.

(** ** Addresses as sequences of protocols and values *)

Definition pair : Type := Protocol * list Z.

(** The length of a value of variable size comes before it. *)
Definition len_prefix (x : pair) : list Z :=
  if p_Size x.1 <? 0 then uvarint (Z.of_nat (length x.2)) else [].
Definition prefix (x : pair) : list Z := p_VCode x.1 ++ len_prefix x.
Definition encode1 (x : pair) : list Z := prefix x ++ x.2.
Definition encode (l : list pair) : list Z := concat (map encode1 l).
Definition comp_of (x : pair) : Component := mkComponent (encode1 x) x.1 (length (prefix x)).

Section spec.
Context (reg : registry) (Hreg : reg_ok reg).

(** What the traversals need of a pair. *)
Record readable (x : pair) : Prop := {
  rd_known : assoc (p_Code x.1) (byCode reg) = Some x.1;
  rd_bytes : bytes_ok x.2;
  rd_len : Z.of_nat (length x.2) <= MaxInt32;
  rd_zero : p_Size x.1 = 0 -> x.2 = [];
  rd_sized : sized (p_Size x.1) x.2;
}.

Record good (x : pair) : Prop := {
  gd_readable : readable x;
  gd_valid : p_Size x.1 <> 0 -> ValidateBytes (transcoder x.1) x.2 = true;
}.

(** A path protocol ends the address. *)
Fixpoint path_last (l : list pair) : Prop :=
  match l with
  | [] => True
  | x :: l => (p_Path x.1 = true -> l = []) /\ path_last l
  end.

Definition address (l : list pair) : Prop := l <> [] /\ Forall good l /\ path_last l.

Lemma readable_ok x : readable x -> proto_ok x.1.
Proof. intros Hx. by destruct (rg_code _ Hreg _ _ (rd_known x Hx)) as (_ & ? & _). Qed.

Lemma known_code p : proto_ok p -> known (Some p) = Some p.
Proof. intros Hp. pose proof (po_code p Hp). unfold known. by replace (p_Code p =? 0) with false by zbool. Qed.

Lemma readable_code x : readable x -> ProtocolWithCode reg (p_Code x.1) = Some x.1.
Proof. intros Hx. unfold ProtocolWithCode. rewrite (rd_known x Hx). by apply known_code, readable_ok. Qed.

Lemma ReadVarintCode_uvarint n rest :
  0 <= n <= MaxInt32 -> ReadVarintCode (uvarint n ++ rest) = Ok (n, Z.of_nat (length (uvarint n))).
Proof.
  intros Hn. unfold ReadVarintCode, MaxInt32 in *. rewrite FromUvarint_uvarint, <- UvarintSize_length by (unfold uint64; lia).
  by replace (n >? _) with false by zbool.
Qed.

Lemma ReadVarintCode_inv b n k :
  bytes_ok b -> ReadVarintCode b = Ok (n, k) ->
  0 <= n <= MaxInt32 /\ k = Z.of_nat (length (uvarint n)) /\ exists rest, b = uvarint n ++ rest.
Proof.
  intros Hb. unfold ReadVarintCode. destruct (FromUvarint b) as [[m c]|] eqn:E; [|done]. case_bool; [done|].
  intros [= <- <-]. apply (from_loop_sound b 0 0) in E as (j & rest & Hj & _ & _ & Hbuf & Hv & Hc); [|done|lia|by simpl].
  simpl in Hj, Hv. assert (m = j) as -> by lia. change (Z.to_nat (9 - 0)) with 9%nat in Hbuf.
  rewrite <- uvarint_63 in Hbuf by lia. subst b. rewrite length_app in Hc. unfold MaxInt32 in *.
  split_and!; [lia|lia|lia|by eexists].
Qed.

Lemma uvarint_pos n : (0 < length (uvarint n))%nat.
Proof. pose proof (uvarint_nonempty n). lia. Qed.

(** The size of a value as the codec finds it. *)
Lemma sizeForAddr_value x rest :
  readable x ->
  sizeForAddr x.1 (len_prefix x ++ x.2 ++ rest) =
    Ok (Z.of_nat (length (len_prefix x)), Z.of_nat (length x.2)).
Proof.
  intros Hx. unfold sizeForAddr, len_prefix. pose proof (rd_sized x Hx) as Hs. unfold sized in Hs.
  destruct (p_Size x.1 >? 0) eqn:E1; bool_props.
  - replace (p_Size x.1 <? 0) with false by zbool. rewrite Z.quot_div_nonneg by lia. simpl length. by rewrite Hs by lia.
  - destruct (p_Size x.1 =? 0) eqn:E2; bool_props.
    + rewrite E2. by rewrite (rd_zero x Hx E2).
    + replace (p_Size x.1 <? 0) with true by zbool. pose proof (rd_len x Hx). by rewrite ReadVarintCode_uvarint by lia.
Qed.

Lemma encode1_split x rest :
  readable x -> encode1 x ++ rest =
    uvarint (p_Code x.1) ++ len_prefix x ++ x.2 ++ rest.
Proof. intros Hx. unfold encode1, prefix. by rewrite (po_vcode _ (readable_ok x Hx)), <- !app_assoc. Qed.

Lemma prefix_length x :
  readable x -> length (prefix x) =
    (length (uvarint (p_Code x.1)) + length (len_prefix x))%nat.
Proof. intros Hx. unfold prefix. by rewrite length_app, (po_vcode _ (readable_ok x Hx)). Qed.

Lemma encode1_pos x : readable x -> (0 < length (encode1 x))%nat.
Proof.
  intros Hx. unfold encode1. rewrite length_app, prefix_length by done. pose proof (uvarint_pos (p_Code x.1)). lia.
Qed.

Lemma code_range x : readable x -> 0 <= p_Code x.1 <= MaxInt32.
Proof. intros Hx. pose proof (po_code _ (readable_ok x Hx)). lia. Qed.

(** *** Reading one component *)

Lemma readComponent_encode1 x rest :
  readable x -> readComponent reg (encode1 x ++ rest) = Ok (length (encode1 x), comp_of x).
Proof.
  intros Hx. unfold readComponent. rewrite (encode1_split x rest Hx) at 1.
  rewrite ReadVarintCode_uvarint by by apply code_range. rewrite readable_code by done. rewrite Nat2Z.id.
  destruct (p_Size x.1 =? 0) eqn:E0; bool_props.
  - assert (encode1 x = uvarint (p_Code x.1)) as E.
    { unfold encode1, prefix, len_prefix. rewrite (rd_zero x Hx E0), (po_vcode _ (readable_ok x Hx)), E0. simpl. by rewrite !app_nil_r. }
    unfold comp_of. rewrite prefix_length by done. unfold len_prefix. rewrite E0. simpl. by rewrite Nat.add_0_r, E, take_app_length.
  - rewrite (encode1_split x rest Hx) at 1. rewrite drop_app_length, sizeForAddr_value by done. rewrite !Nat2Z.id.
    rewrite <- prefix_length by done. unfold encode1 at 1. rewrite <- app_assoc, drop_app_length, length_app.
    replace (Z.of_nat (length x.2 + length rest) <? Z.of_nat (length x.2)) with false by zbool.
    replace (Z.of_nat (length x.2) <? 0) with false by zbool. simpl.
    replace (length (prefix x) + length x.2)%nat with (length (encode1 x)) by (unfold encode1; by rewrite length_app).
    unfold comp_of. by rewrite take_app_length.
Qed.

Lemma RawValue_comp x : RawValue (comp_of x) = x.2.
Proof. unfold RawValue, comp_of, encode1. cbn [c_offset c_bytes]. by rewrite drop_app_length. Qed.

(** *** Building one component *)

Lemma newComponent_spec x :
  Z.of_nat (length x.2) < 2 ^ 64 -> newComponent x.1 x.2 = Some (comp_of x).
Proof.
  intros Hl. unfold newComponent. set (len := Z.of_nat (length x.2)) in *.
  assert (uint64 len) as Hu by (unfold uint64, len in *; lia). pose proof (UvarintSize_length len Hu) as Hs.
  set (vl := len_prefix x).
  set (size := (length x.2 + length (p_VCode x.1) + _)%nat).
  assert (size = (length (p_VCode x.1) + (length vl + length x.2))%nat) as Hsize.
  { unfold size, vl, len_prefix. fold len. destruct (p_Size x.1 <? 0); simpl; lia. }
  assert (copy_into (replicate size 0) (p_VCode x.1) = p_VCode x.1 ++ replicate (length vl + length x.2) 0) as E1.
  { unfold copy_into. rewrite length_replicate, take_ge, drop_replicate by lia. do 2 f_equal. lia. }
  rewrite E1.
  assert ((if p_Size x.1 <? 0 then
           match PutUvarint (drop (length (p_VCode x.1)) (p_VCode x.1 ++ replicate (length vl + length x.2) 0)) len with
           | Some (tail, m) => Some (take (length (p_VCode x.1)) (p_VCode x.1 ++ replicate (length vl + length x.2) 0) ++ tail,
                                     (length (p_VCode x.1) + m)%nat)
           | None => None
           end
         else Some (p_VCode x.1 ++ replicate (length vl + length x.2) 0, length (p_VCode x.1))) =
         Some (prefix x ++ replicate (length x.2) 0, length (prefix x))) as ->.
  { unfold prefix, vl, len_prefix. fold len. destruct (p_Size x.1 <? 0).
    - rewrite drop_app_length, take_app_length, PutUvarint_spec by (done || (rewrite length_replicate; lia)).
      rewrite drop_replicate, Nat.add_sub', length_app, <- app_assoc. done.
    - by rewrite !app_nil_r. }
  rewrite take_app_length, drop_app_length. unfold copy_into. rewrite length_replicate, firstn_all, drop_replicate, Nat.sub_diag.
  simpl replicate. rewrite app_nil_r, length_app, Nat.eqb_refl. done.
Qed.

(** *** Validation *)

Lemma app_cons_nonempty {A} (l : list A) rest : (0 < length l)%nat -> exists c t, l ++ rest = c :: t.
Proof. destruct l as [|c l]; simpl; [lia|eauto]. Qed.

Lemma validate_step fuel x rest :
  good x -> (p_Path x.1 = true -> rest = []) ->
  validate_loop reg (S fuel) (encode1 x ++ rest) = validate_loop reg fuel rest.
Proof.
  intros [Hx Hv] Hp. destruct (app_cons_nonempty (encode1 x) rest (encode1_pos x Hx)) as (c & t & E).
  rewrite E. cbn [validate_loop]. rewrite <- E. rewrite (encode1_split x rest Hx).
  rewrite ReadVarintCode_uvarint by by apply code_range. rewrite readable_code, Nat2Z.id, drop_app_length by done.
  destruct (p_Size x.1 =? 0) eqn:E0; bool_props.
  - unfold len_prefix. by rewrite E0, (rd_zero x Hx E0).
  - rewrite sizeForAddr_value, !Nat2Z.id, drop_app_length, length_app by done.
    replace (Z.of_nat (length x.2 + length rest) <? Z.of_nat (length x.2)) with false by zbool.
    replace (Z.of_nat (length x.2) <? 0) with false by zbool. cbn [orb].
    assert (p_Path x.1 && negb (Z.of_nat (length x.2 + length rest) =? Z.of_nat (length x.2)) = false) as ->.
    { destruct (p_Path x.1); [|done]. rewrite Hp by done. simpl. by rewrite Nat.add_0_r, Z.eqb_refl. }
    by rewrite take_app_length, Hv, drop_app_length by done.
Qed.

Lemma encode_cons x l : encode (x :: l) = encode1 x ++ encode l.
Proof. done. Qed.
Lemma encode_app l l' : encode (l ++ l') = encode l ++ encode l'.
Proof. unfold encode. by rewrite map_app, concat_app. Qed.

Lemma encode_length l : Forall readable l -> (length l <= length (encode l))%nat.
Proof.
  induction 1 as [|x l Hx _ IH]; [done|]. rewrite encode_cons, length_app. pose proof (encode1_pos x Hx). simpl. lia.
Qed.

Lemma good_readable l : Forall good l -> Forall readable l.
Proof. intros H. eapply Forall_impl; [exact H|]. by intros x [? _]. Qed.

Lemma encode_nonempty l : Forall readable l -> l <> [] -> (length (encode l) =? 0)%nat = false.
Proof. intros Hl Hne. pose proof (encode_length l Hl). destruct l; [done|]. apply Nat.eqb_neq. simpl in *. lia. Qed.

Lemma validate_encode fuel l :
  Forall good l -> path_last l -> (length l <= fuel)%nat -> validate_loop reg fuel (encode l) = None.
Proof.
  intros Hl. revert fuel. induction Hl as [|x l Hx _ IH]; intros fuel Hp Hf; [by destruct fuel|].
  destruct fuel as [|fuel]; [simpl in Hf; lia|]. destruct Hp as [Hp Hl]. rewrite encode_cons, validate_step; [|done|].
  - apply IH; [done|simpl in Hf; lia].
  - intros H. by rewrite Hp.
Qed.

(** What one round of the loop accepts is a pair. *)
Lemma validate_inv fuel b :
  bytes_ok b -> b <> [] -> validate_loop reg (S fuel) b = None ->
  exists x rest, good x /\ b = encode1 x ++ rest /\ (p_Path x.1 = true -> rest = []) /\ validate_loop reg fuel rest = None.
Proof.
  intros Hb Hne. destruct b as [|c b]; [done|]. cbn [validate_loop]. set (b0 := c :: b) in *.
  destruct (ReadVarintCode b0) as [[code n]|] eqn:E1; [|done].
  apply ReadVarintCode_inv in E1 as (Hcode & -> & b1 & E1); [|done]. rewrite E1 in *. rewrite Nat2Z.id, drop_app_length.
  apply Forall_app in Hb as [_ Hb1]. unfold ProtocolWithCode. destruct (assoc code (byCode reg)) as [p|] eqn:Ep; [|done].
  destruct (rg_code _ Hreg _ _ Ep) as (Hpc & Hok & _). rewrite known_code by done. subst code.
  pose proof (po_vcode _ Hok) as Hvc.
  destruct (p_Size p =? 0) eqn:E0; bool_props.
  { intros Hv. exists (p, []), b1. split_and!; [|unfold encode1, prefix, len_prefix; cbn [fst snd]; rewrite E0, Hvc; simpl; by rewrite !app_nil_r| |done].
    - constructor; [|done]. constructor; cbn [fst snd]; [done|constructor|unfold MaxInt32; simpl; lia|done|]. intros H. lia.
    - cbn [fst]. intros Hpath. pose proof (po_path _ Hok Hpath). lia. }
  assert (forall v rest, Z.of_nat (length v) <= MaxInt32 -> b1 = len_prefix (p, v) ++ v ++ rest -> sized (p_Size p) v ->
    (if p_Path p && negb (Z.of_nat (length (v ++ rest)) =? Z.of_nat (length v)) then Some ErrPathSize
     else if negb (ValidateBytes (transcoder p) v) then Some ErrValue
     else validate_loop reg fuel rest) = None ->
    exists x rest, good x /\ uvarint (p_Code p) ++ b1 = encode1 x ++ rest /\ (p_Path x.1 = true -> rest = []) /\
      validate_loop reg fuel rest = None) as Hdone.
  { intros v rest Hlen Hb1' Hs. destruct (p_Path p && _) eqn:Epath; [done|]. destruct (ValidateBytes _ v) eqn:Eval; [|done]. intros Hv.
    rewrite Hb1' in Hb1. apply Forall_app in Hb1 as [_ Hb1]. apply Forall_app in Hb1 as [Hbv _].
    exists (p, v), rest. split_and!; [|unfold encode1, prefix; cbn [fst snd]; by rewrite Hvc, Hb1', <- !app_assoc| |done].
    - constructor; [|done]. constructor; cbn [fst snd]; done.
    - cbn [fst]. intros Hpath. rewrite Hpath in Epath. simpl in Epath. bool_props. rewrite length_app in Epath.
      destruct rest; [done|simpl in Epath; lia]. }
  unfold sizeForAddr. rewrite (proj2 (Z.eqb_neq _ _) E0). destruct (p_Size p >? 0) eqn:E2; bool_props.
  - rewrite drop_0. rewrite Z.quot_div_nonneg by lia. set (size := p_Size p / 8).
    destruct ((Z.of_nat (length b1) <? size) || (size <? 0)) eqn:E3; [done|]. bool_props. pose proof (po_size _ Hok) as Hsz.
    assert (Z.of_nat (length (take (Z.to_nat size) b1)) = size) as El by (rewrite length_take; lia).
    intros Hfin. apply (Hdone (take (Z.to_nat size) b1) (drop (Z.to_nat size) b1)).
    + rewrite El. unfold size, MaxInt32. dlia.
    + unfold len_prefix. cbn [fst]. replace (p_Size p <? 0) with false by zbool. by rewrite take_drop.
    + intros _. exact El.
    + rewrite take_drop, El. exact Hfin.
  - destruct (ReadVarintCode b1) as [[size n]|] eqn:E3; [|done].
    apply ReadVarintCode_inv in E3 as (Hsize & -> & b2 & ->); [|done]. rewrite Nat2Z.id, drop_app_length.
    destruct ((Z.of_nat (length b2) <? size) || (size <? 0)) eqn:E4; [done|]. bool_props.
    assert (Z.of_nat (length (take (Z.to_nat size) b2)) = size) as El by (rewrite length_take; lia).
    intros Hfin. apply (Hdone (take (Z.to_nat size) b2) (drop (Z.to_nat size) b2)).
    + lia.
    + unfold len_prefix. cbn [fst snd]. replace (p_Size p <? 0) with true by zbool. by rewrite El, take_drop.
    + intros ?. lia.
    + rewrite take_drop, El. exact Hfin.
Qed.

Lemma validate_sound fuel b :
  bytes_ok b -> validate_loop reg fuel b = None -> exists l, Forall good l /\ path_last l /\ b = encode l.
Proof.
  revert b. induction fuel as [|fuel IH]; intros b Hb Hv.
  { destruct b; [by exists []|done]. }
  destruct (decide (b = [])) as [->|Hne]; [by exists []|].
  destruct (validate_inv fuel b Hb Hne Hv) as (x & rest & Hx & -> & Hp & Hv').
  apply Forall_app in Hb as [_ Hb]. destruct (IH rest Hb Hv') as (l & Hl & Hpl & ->).
  exists (x :: l). split_and!; [by constructor| |done]. split; [|done]. intros Hpath. specialize (Hp Hpath).
  destruct l as [|y l]; [done|]. pose proof (encode_length (y :: l) (good_readable _ Hl)) as Hlen. rewrite Hp in Hlen. simpl in Hlen. lia.
Qed.

Lemma validate_address l : address l -> validateBytes reg (encode l) = None.
Proof.
  intros (Hne & Hl & Hp). unfold validateBytes. rewrite encode_nonempty by (done || by apply good_readable).
  apply validate_encode; [done..|]. by apply encode_length, good_readable.
Qed.

Lemma valid_iff b :
  bytes_ok b -> validateBytes reg b = None <-> exists l, address l /\ b = encode l.
Proof.
  intros Hb. split.
  - unfold validateBytes. destruct (length b =? 0)%nat eqn:E; [done|]. intros Hv. destruct (validate_sound _ _ Hb Hv) as (l & Hl & Hp & ->).
    exists l. split; [|done]. split_and!; [|done..]. by intros ->.
  - intros (l & Hl & ->). by apply validate_address.
Qed.

(** *** Traversals *)

(** The callback of [ForEach] run over the components. *)
Fixpoint run_cb {S} (cb : S -> Component -> S * bool) (l : list pair) (s : S) : S :=
  match l with
  | [] => s
  | x :: l => let (s, continue) := cb s (comp_of x) in if continue then run_cb cb l s else s
  end.

Lemma for_each_encode {S} fuel (cb : S -> Component -> S * bool) l s :
  Forall readable l -> (length l <= fuel)%nat -> for_each_loop reg fuel cb (encode l) s = Some (run_cb cb l s).
Proof.
  intros Hl. revert fuel s. induction Hl as [|x l Hx _ IH]; intros fuel s Hf; [by destruct fuel|].
  destruct fuel as [|fuel]; [simpl in Hf; lia|]. rewrite encode_cons.
  destruct (app_cons_nonempty (encode1 x) (encode l) (encode1_pos x Hx)) as (c & t & E).
  rewrite E. cbn [for_each_loop]. rewrite <- E, readComponent_encode1, drop_app_length by done. cbn [run_cb].
  destruct (cb s (comp_of x)) as [s' []]; [|done]. apply IH. simpl in Hf. lia.
Qed.

Lemma ForEach_encode {S} (cb : S -> Component -> S * bool) l s :
  Forall readable l -> ForEach reg (Some (MBytes (encode l))) cb s = Some (run_cb cb l s).
Proof. intros Hl. apply for_each_encode; [done|]. by apply encode_length. Qed.

Definition parts (l : list pair) : list Multiaddr := map (fun x => MComp (comp_of x)) l.

Lemma Split_encode l : Forall readable l -> Split reg (MBytes (encode l)) = Some (parts l).
Proof.
  intros Hl. unfold Split. rewrite ForEach_encode by done. f_equal.
  assert (forall acc, run_cb (fun addrs c => (addrs ++ [MComp c], true)) l acc = acc ++ parts l) as H; [|by rewrite H].
  clear Hl. induction l as [|x l IH]; intros acc; [by rewrite app_nil_r|]. cbn. by rewrite IH, <- app_assoc.
Qed.

Lemma parts_bytes l : concat (map Bytes (parts l)) = encode l.
Proof. unfold parts, encode. rewrite map_map. done. Qed.

Lemma Join_parts l : (2 <= length l)%nat -> Forall readable l -> Join (map Some (parts l)) = Some (MBytes (encode l)).
Proof.
  intros Hlen Hl. destruct l as [|x [|y l]]; simpl in Hlen; [lia|lia|].
  assert (concat (map (fun m => match m with Some m => Bytes m | None => [] end) (map Some (parts (x :: y :: l)))) =
          encode (x :: y :: l)) as E by (rewrite map_map; apply parts_bytes).
  unfold Join. cbn [parts map] in *. rewrite E. by rewrite encode_nonempty by done.
Qed.

Lemma SplitFirst_encode x l :
  Forall readable (x :: l) ->
  SplitFirst reg (Some (MBytes (encode (x :: l)))) =
    Some (Some (comp_of x), match l with [] => None | _ => Some (MBytes (encode l)) end).
Proof.
  intros Hl. pose proof (encode_nonempty (x :: l) Hl) as Hne. apply Forall_cons_1 in Hl as [Hx Hl].
  unfold SplitFirst. rewrite Hne by done. rewrite encode_cons, readComponent_encode1 by done.
  rewrite length_app, drop_app_length. pose proof (encode_length l Hl) as Hlen.
  destruct l as [|y l]; [by rewrite Nat.add_0_r, Nat.eqb_refl|]. simpl in Hlen.
  by replace (_ =? _)%nat with false by (symmetry; apply Nat.eqb_neq; lia).
Qed.

Lemma split_last_encode fuel l1 l2 x :
  Forall readable (l1 ++ l2 ++ [x]) -> (length l2 < fuel)%nat ->
  split_last_loop reg fuel (encode (l1 ++ l2 ++ [x])) (length (encode l1)) =
    Some (match l1 ++ l2 with [] => None | _ => Some (MBytes (encode (l1 ++ l2))) end, Some (comp_of x)).
Proof.
  revert l1 fuel. induction l2 as [|y l2 IH]; intros l1 fuel Hl Hf; (destruct fuel as [|fuel]; [simpl in Hf; lia|]);
    cbn [split_last_loop]; rewrite encode_app, drop_app_length.
  - apply Forall_app in Hl as [Hl1 Hx]. apply Forall_cons_1 in Hx as [Hx _]. cbn [app]. rewrite encode_cons.
    rewrite readComponent_encode1, app_nil_r, !length_app, take_app_length, app_nil_r by done.
    rewrite Nat.add_comm, Nat.eqb_refl. destruct l1 as [|z l1]; [done|]. by rewrite encode_nonempty by done.
  - apply Forall_app in Hl as [Hl1 Hy]. pose proof (Forall_cons_1 _ _ _ Hy) as [Hy' Hl2].
    change (Forall readable (l2 ++ [x])) in Hl2. cbn [app]. rewrite encode_cons, readComponent_encode1, !length_app by done.
    pose proof (encode_length _ Hl2) as Hpos. rewrite length_app in Hpos. simpl in Hpos, Hf.
    replace (_ =? _)%nat with false by (symmetry; apply Nat.eqb_neq; lia).
    replace (l1 ++ y :: l2) with ((l1 ++ [y]) ++ l2) by by rewrite <- app_assoc.
    replace (length (encode l1) + length (encode1 y))%nat with (length (encode (l1 ++ [y])))
      by (rewrite (encode_app l1), (encode_cons y []), app_nil_r, length_app; done).
    replace (encode l1 ++ encode1 y ++ encode (l2 ++ [x])) with (encode ((l1 ++ [y]) ++ l2 ++ [x]))
      by (rewrite <- (app_assoc l1), (encode_app l1); done).
    apply IH; [|lia]. rewrite <- app_assoc. by apply Forall_app.
Qed.

Lemma SplitLast_encode l x :
  Forall readable (l ++ [x]) ->
  SplitLast reg (Some (MBytes (encode (l ++ [x])))) =
    Some (match l with [] => None | _ => Some (MBytes (encode l)) end, Some (comp_of x)).
Proof.
  intros Hl. unfold SplitLast. rewrite encode_nonempty by (done || by destruct l).
  apply (split_last_encode _ [] l x Hl). pose proof (encode_length _ Hl) as H. rewrite length_app in H. simpl in *. lia.
Qed.

Lemma protocols_encode fuel l :
  Forall readable l -> (length l <= fuel)%nat -> protocols_loop reg fuel (encode l) = Some (map fst l).
Proof.
  intros Hl. revert fuel. induction Hl as [|x l Hx _ IH]; intros fuel Hf; [by destruct fuel|].
  destruct fuel as [|fuel]; [simpl in Hf; lia|]. rewrite encode_cons.
  destruct (app_cons_nonempty (encode1 x) (encode l) (encode1_pos x Hx)) as (c & t & E).
  rewrite E. cbn [protocols_loop]. rewrite <- E, (encode1_split x (encode l) Hx).
  rewrite ReadVarintCode_uvarint by by apply code_range. rewrite readable_code, Nat2Z.id, drop_app_length by done.
  rewrite sizeForAddr_value, <- Nat2Z.inj_add, Nat2Z.id, !length_app by done.
  replace (_ <? _)%nat with false by (symmetry; apply Nat.ltb_ge; lia).
  rewrite app_assoc, <- length_app, drop_app_length, IH by (simpl in Hf; lia). done.
Qed.
End spec.

(** ** A sample instance of the interfaces *)
Module Sample.
Export Base58.Reference.
(** The upper cases of runes outside ASCII that are ASCII. *)
#[export] Instance unicode : UnicodeCase := { unicode_ToUpper r := if r =? 305 then 73 else if r =? 383 then 83 else r }.
End Sample.

Lemma init_registers_witness : exists reg, @init Base58.Reference.base58 Sample.unicode = Some reg.
Proof.
  destruct (@init_registers Base58.Reference.base58 Base58.Reference.base58_laws Sample.unicode) as (reg & H & _). exists reg. exact H.
Defined.
