(* ===== verification/MultiaddrText.v ===== *)
(** * Multiaddrs: text, composition and the theorems

    The text of an address is parsed back to its bytes; addresses are composed by
    [Encapsulate] and taken apart by [Decapsulate]. *)

From stdpp Require Import base list numbers strings.
From Stdlib Require Import ZArith Lia.
From S2P Require Import Prelude Varint GoText Base58 Multihash Transcoders OnionGarlic Multiaddr MultiaddrSpec.

(** ** The text of an address *)

Section text.
Context (reg : registry) (Hreg : reg_ok reg).

Definition value_text (x : pair) : list Z := default [] (BytesToString (transcoder x.1) x.2).

Definition text1 (x : pair) : list Z :=
  [slash] ++ p_Name x.1 ++
  (if p_Size x.1 =? 0 then [] else (if p_Path x.1 then [] else [slash]) ++ value_text x).
Definition text (l : list pair) : list Z := concat (map text1 l).

(** The parts of the text between the slashes. *)
Definition segs (x : pair) : list (list Z) :=
  p_Name x.1 ::
  (if p_Size x.1 =? 0 then []
   else if p_Path x.1 then GoText.Split slash (tail (value_text x)) else [value_text x]).

Lemma value_text_ok x :
  good reg x -> p_Size x.1 <> 0 ->
  exists t, p_Transcoder x.1 = Some t /\ BytesToString t x.2 = Some (value_text x) /\
    StringToBytes t (value_text x) = Some x.2 /\ fits_text (p_Path x.1) (value_text x).
Proof.
  intros [Hx Hv] Hs. destruct (po_some _ (readable_ok reg Hreg x Hx) Hs) as (t & Ht & Hlaw).
  unfold value_text. specialize (Hv Hs). unfold transcoder in *. rewrite Ht in *.
  destruct (Hlaw x.2 (rd_bytes _ _ Hx) (rd_sized _ _ Hx) Hv) as (s & Hs1 & Hs2 & Hs3).
  exists t. by rewrite Hs1.
Qed.

Lemma good_name x : good reg x -> p_Name x.1 <> [] /\ slash ∉ p_Name x.1.
Proof. intros [Hx _]. apply (po_name _ (readable_ok reg Hreg x Hx)). Qed.

Lemma segs_free x : good reg x -> Forall (fun w => slash ∉ w) (segs x).
Proof.
  intros Hx. unfold segs. constructor; [by apply good_name|]. case_bool; [constructor|].
  destruct (value_text_ok x Hx Hb) as (t & _ & _ & _ & Hfit). destruct (p_Path x.1); [apply Split_free|].
  repeat constructor. apply Hfit.
Qed.

Lemma text1_segs x : good reg x -> text1 x = slashed (segs x).
Proof.
  intros Hx. unfold text1, segs, slashed. cbn [map concat]. cbn [app]. f_equal. f_equal. case_bool; [done|].
  destruct (value_text_ok x Hx Hb) as (t & _ & _ & _ & Hfit). destruct (p_Path x.1).
  - destruct Hfit as [[s' E] _]. rewrite E. cbn [tail app].
    change (slash :: s' = slashed (GoText.Split slash s')).
    rewrite slashed_Join by apply Split_nonempty. by rewrite Join_Split.
  - simpl. by rewrite app_nil_r.
Qed.

Lemma text_segs l : Forall (good reg) l -> text l = slashed (concat (map segs l)).
Proof.
  induction 1 as [|x l Hx _ IH]; [done|]. unfold text in *. cbn [map concat]. by rewrite slashed_app, text1_segs, IH.
Qed.

Lemma text1_last x : good reg x -> last (text1 x) <> Some slash.
Proof.
  intros Hx. destruct (good_name x Hx) as [Hn Hns]. unfold text1. case_bool.
  - rewrite app_nil_r, last_app_ne by done. by apply last_no_slash.
  - destruct (value_text_ok x Hx Hb) as (t & _ & _ & _ & Hfit). rewrite !app_assoc.
    destruct (p_Path x.1); cbn [fits_text] in Hfit.
    + destruct Hfit as [[s' E] Hl]. rewrite last_app_ne; [done|by rewrite E].
    + destruct Hfit as [Hne Hs]. rewrite last_app_ne by done. by apply last_no_slash.
Qed.

Lemma text_last l : l <> [] -> Forall (good reg) l -> last (text l) <> Some slash.
Proof.
  intros Hne Hl. destruct l as [|x l _] using rev_ind; [done|]. unfold text. rewrite map_app, concat_app. cbn [map concat].
  rewrite app_nil_r, last_app_ne by done. apply Forall_app in Hl as [_ Hx]. apply text1_last. by apply Forall_cons_1 in Hx as [? _].
Qed.

(** *** Printing *)

Lemma writeTo_comp x : good reg x -> writeTo (comp_of x) = Some (text1 x).
Proof.
  intros Hx. unfold writeTo, Value. rewrite RawValue_comp. cbn [c_protocol comp_of]. unfold text1.
  destruct (p_Size x.1 =? 0) eqn:E; bool_props.
  - by rewrite (po_none _ (readable_ok reg Hreg x (gd_readable _ _ Hx)) E).
  - destruct (value_text_ok x Hx E) as (t & -> & -> & _ & Hfit). do 3 f_equal. destruct (p_Path x.1); cbn [fits_text] in Hfit.
    + destruct Hfit as [[s' Es] _]. by rewrite Es.
    + destruct (value_text x) as [|c s]; [by destruct Hfit|]. done.
Qed.

Lemma Value_comp x : good reg x -> is_Some (Value (comp_of x)).
Proof. intros Hx. pose proof (writeTo_comp x Hx) as H. unfold writeTo in H. destruct (Value (comp_of x)); [by eexists|done]. Qed.

Lemma to_string_encode fuel l :
  Forall (good reg) l -> (length l <= fuel)%nat -> to_string_loop reg fuel (encode l) = Some (Ok (text l)).
Proof.
  intros Hl. revert fuel. induction Hl as [|x l Hx _ IH]; intros fuel Hf; [by destruct fuel|].
  destruct fuel as [|fuel]; [simpl in Hf; lia|]. rewrite encode_cons. pose proof (gd_readable _ _ Hx) as Hr.
  destruct (app_cons_nonempty (encode1 x) (encode l) (encode1_pos reg Hreg x Hr)) as (c & t & E).
  rewrite E. cbn [to_string_loop]. rewrite <- E, readComponent_encode1, drop_app_length, writeTo_comp by done.
  rewrite IH by (simpl in Hf; lia). done.
Qed.

Lemma bytesToString_encode l : address reg l -> bytesToString reg (encode l) = Some (Ok (text l)).
Proof.
  intros (Hne & Hl & _). unfold bytesToString. pose proof (good_readable _ _ Hl) as Hr.
  rewrite (encode_nonempty reg Hreg) by done. apply to_string_encode; [done|]. by apply (encode_length reg Hreg).
Qed.

(** *** Parsing *)

Lemma known_name x : good reg x -> ProtocolWithName reg (p_Name x.1) = Some x.1.
Proof.
  intros [Hx _]. unfold ProtocolWithName. destruct (rg_code _ Hreg _ _ (rd_known _ _ Hx)) as (_ & Hok & ->).
  by apply known_code.
Qed.

Lemma len_prefix_ToUvarint x :
  readable reg x -> (if p_Size x.1 <? 0 then default [] (ToUvarint (Z.of_nat (length x.2))) else []) = len_prefix x.
Proof.
  intros Hx. unfold len_prefix. case_bool; [|done]. pose proof (rd_len _ _ Hx). unfold MaxInt32 in *.
  by rewrite ToUvarint_spec by (unfold uint64; lia).
Qed.

Lemma parse_parts_segs l :
  Forall (good reg) l -> path_last l -> parse_parts reg (concat (map segs l)) = Ok (encode l).
Proof.
  induction 1 as [|x l Hx _ IH]; intros Hp; [done|]. destruct Hp as [Hp Hpl]. specialize (IH Hpl).
  cbn [map concat]. unfold segs at 1. cbn [app parse_parts]. rewrite known_name by done. rewrite encode_cons.
  pose proof (gd_readable _ _ Hx) as Hr. unfold encode1, prefix.
  destruct (p_Size x.1 =? 0) eqn:E; bool_props.
  - cbn [app]. rewrite IH. unfold len_prefix. rewrite E, (rd_zero _ _ Hr E). cbn [Z.ltb Z.compare app]. by rewrite !app_nil_r.
  - destruct (value_text_ok x Hx E) as (t & Ht & _ & Hparse & Hfit). unfold transcoder. rewrite Ht.
    destruct (p_Path x.1) eqn:Epath; cbn [fits_text] in Hfit.
    + rewrite Hp in * by done. destruct Hfit as [[s' Es] _]. rewrite Es in *. cbn [tail map concat app].
      rewrite app_nil_r. destruct (GoText.Split slash s') as [|w ws] eqn:Esp; [by apply Split_nonempty in Esp|].
      assert (GoText.Join (w :: ws) [slash] = s') as -> by (by rewrite <- Esp, Join_Split).
      rewrite Hparse, len_prefix_ToUvarint by done. cbn [app]. unfold encode. cbn [map concat]. by rewrite !app_nil_r, <- app_assoc.
    + cbn [app]. rewrite Hparse, IH, len_prefix_ToUvarint by done. by rewrite <- !app_assoc.
Qed.

Lemma stringToBytes_text l : address reg l -> stringToBytes reg (text l) = Ok (encode l).
Proof.
  intros (Hne & Hl & Hp). unfold stringToBytes. rewrite TrimRight_id by by apply text_last.
  rewrite text_segs by done. rewrite Split_slashed.
  - cbn [length Nat.eqb negb]. destruct l as [|x l]; [done|]. cbn [map concat segs app length Nat.eqb].
    apply (parse_parts_segs (x :: l)); done.
  - clear Hne Hp. induction Hl as [|x l Hx _ IH]; [constructor|]. cbn [map concat]. apply Forall_app. split; [by apply segs_free|done].
Qed.
End text.

(** ** Composition *)

Section composition.
Context (reg : registry) (Hreg : reg_ok reg).

Lemma match_at_short left rs found :
  (length left < length rs)%nat -> match_at left rs found = false.
Proof.
  revert left found. induction rs as [|r rs IH]; intros left found Hl; [simpl in Hl; lia|].
  destruct left as [|l ls]; [done|]. cbn. destruct (Equal r l); [|done]. apply IH. simpl in Hl. lia.
Qed.

Lemma match_at_self rs found : rs <> [] \/ found = true -> match_at rs rs found = true.
Proof.
  revert found. induction rs as [|r rs IH]; intros found H; [by destruct H|]. cbn. unfold Equal.
  rewrite bool_decide_true by done. apply IH. by right.
Qed.

Lemma last_match_short left rs i acc :
  (length left < length rs)%nat -> last_match left rs i acc = acc.
Proof.
  revert i acc. induction left as [|l ls IH]; intros i acc Hl; [done|]. cbn [last_match].
  rewrite match_at_short by done. apply IH. simpl in Hl. lia.
Qed.

Lemma last_match_suffix left rs i acc :
  rs <> [] -> last_match (left ++ rs) rs i acc = Some (i + length left)%nat.
Proof.
  intros Hne. revert i acc. induction left as [|l ls IH]; intros i acc.
  - cbn [app length]. destruct rs as [|r rs]; [done|]. cbn [last_match]. rewrite match_at_self by by left.
    rewrite last_match_short by (simpl; lia). by rewrite Nat.add_0_r.
  - cbn [app last_match length]. rewrite IH. f_equal. lia.
Qed.

Lemma Decapsulate_encode l1 l2 :
  Forall (readable reg) l1 -> Forall (readable reg) l2 -> l1 <> [] -> l2 <> [] ->
  exists m, Decapsulate reg (MBytes (encode (l1 ++ l2))) (Some (MBytes (encode l2))) = Some (Some m) /\ Bytes m = encode l1.
Proof.
  intros H1 H2 N1 N2. unfold Decapsulate. rewrite !(Split_encode reg Hreg) by (done || by apply Forall_app).
  assert (parts (l1 ++ l2) = parts l1 ++ parts l2) as -> by apply map_app.
  rewrite last_match_suffix by by destruct l2. rewrite Nat.add_0_l.
  assert (length (parts l1) = length l1) as El by (unfold parts; apply length_map). rewrite El.
  assert (take (length l1) (parts l1 ++ parts l2) = parts l1) as Et by (by rewrite <- El, take_app_length).
  destruct l1 as [|x [|y l1]]; [done| |]; cbn [length] in *; rewrite Et.
  - eexists. split; [done|]. cbn. by rewrite app_nil_r.
  - rewrite (Join_parts reg Hreg) by (done || (simpl; lia)). by eexists.
Qed.

Lemma validate_path_fails fuel l x rest :
  Forall (good reg) l -> path_last (l ++ [x]) -> good reg x -> p_Path x.1 = true -> rest <> [] -> (length l < fuel)%nat ->
  validate_loop reg fuel (encode (l ++ [x]) ++ rest) = Some ErrPathSize.
Proof.
  intros Hl. revert fuel. induction Hl as [|y l Hy _ IH]; intros fuel Hp Hx Hpath Hr Hf;
    (destruct fuel as [|fuel]; [simpl in Hf; lia|]); cbn [app]; rewrite encode_cons, <- app_assoc.
  - cbn [encode map concat app]. pose proof (gd_readable _ _ Hx) as Hrd.
    destruct (app_cons_nonempty (encode1 x) rest (encode1_pos reg Hreg x Hrd)) as (c & t & E).
    rewrite E. cbn [validate_loop]. rewrite <- E, (encode1_split reg Hreg x rest Hrd).
    rewrite ReadVarintCode_uvarint by by apply (code_range reg Hreg).
    rewrite (readable_code reg Hreg), Nat2Z.id, drop_app_length by done.
    pose proof (po_path _ (readable_ok reg Hreg x Hrd) Hpath). replace (p_Size x.1 =? 0) with false by zbool.
    rewrite (sizeForAddr_value reg), !Nat2Z.id, drop_app_length, length_app by done.
    replace (Z.of_nat (length x.2 + length rest) <? Z.of_nat (length x.2)) with false by zbool.
    replace (Z.of_nat (length x.2) <? 0) with false by zbool. rewrite Hpath. destruct rest as [|b rest]; [done|].
    by replace (Z.of_nat (length x.2 + length (b :: rest)) =? Z.of_nat (length x.2)) with false by (simpl; zbool).
  - destruct Hp as [Hpy Hp]. rewrite (validate_step reg Hreg); [|done|].
    + apply IH; [done..|simpl in Hf; lia].
    + intros H. specialize (Hpy H). by destruct l.
Qed.

Lemma path_last_app l1 l2 : path_last l1 -> path_last l2 -> Forall (fun x => p_Path x.1 = false) l1 -> path_last (l1 ++ l2).
Proof.
  intros H1 H2 Hf. induction Hf as [|x l Hx _ IH]; [done|]. destruct H1 as [_ H1]. split; [congruence|by apply IH].
Qed.

Lemma path_last_init l x : path_last (l ++ [x]) -> Forall (fun y => p_Path y.1 = false) l.
Proof.
  induction l as [|y l IH]; intros H; [constructor|]. destruct H as [Hy H]. constructor; [|by apply IH].
  apply not_true_is_false. intros E. specialize (Hy E). by destruct l.
Qed.
End composition.

(** ** The theorems *)

Section theorems.
Context (reg : registry) (Hreg : reg_ok reg).

(** C5: [validateBytes] accepts exactly the encodings of addresses: non-empty sequences
    of registered protocols with valid values of the right size, each preceded by the
    minimal varints of its code and length, and a path protocol only at the end. *)
Theorem validateBytes_exact b :
  bytes_ok b -> validateBytes reg b = None <-> exists l, address reg l /\ b = encode l.
Proof. by apply valid_iff. Qed.

(** No traversal of a validated address panics, and they agree: [Split] cuts it into
    the components whose bytes make it up, each of which [readComponent] reads back;
    [Protocols] lists their protocols, [SplitFirst] and [SplitLast] return the first and
    the last of them with the rest, and [ForEach] visits them. *)
Theorem traversals_agree b :
  bytes_ok b -> validateBytes reg b = None ->
  exists c cs, Split reg (MBytes b) = Some (map MComp (c :: cs)) /\ concat (map c_bytes (c :: cs)) = b /\
    Forall (fun c => readComponent reg (c_bytes c) = Ok (length (c_bytes c), c)) (c :: cs) /\
    Protocols reg (MBytes b) = Some (map c_protocol (c :: cs)) /\
    SplitFirst reg (Some (MBytes b)) =
      Some (Some c, match cs with [] => None | _ => Some (MBytes (concat (map c_bytes cs))) end) /\
    (exists rest, SplitLast reg (Some (MBytes b)) = Some (rest, last (c :: cs))) /\
    (forall S (cb : S -> Component -> S * bool) s, is_Some (ForEach reg (Some (MBytes b)) cb s)).
Proof.
  intros Hb Hv. apply (valid_iff reg Hreg b Hb) in Hv as (l & (Hne & Hl & _) & ->). apply good_readable in Hl.
  destruct l as [|x l]; [done|]. exists (comp_of x), (map comp_of l).
  assert (map comp_of (x :: l) = comp_of x :: map comp_of l) as Em by done. rewrite <- Em.
  assert (forall l, concat (map c_bytes (map comp_of l)) = encode l) as Hcat by (intros l'; by rewrite map_map).
  split_and!.
  - rewrite (Split_encode reg Hreg) by done. unfold parts. by rewrite map_map.
  - apply Hcat.
  - apply Forall_map. eapply Forall_impl; [exact Hl|]. intros y Hy. cbn.
    rewrite <- (app_nil_r (encode1 y)) at 1. by apply (readComponent_encode1 reg Hreg).
  - cbn [Protocols]. rewrite (protocols_encode reg Hreg) by (done || by apply (encode_length reg Hreg)). by rewrite map_map.
  - rewrite (SplitFirst_encode reg Hreg) by done. rewrite Hcat. by destruct l.
  - destruct (x :: l) as [|y l' _] using rev_ind; [done|].
    rewrite (SplitLast_encode reg Hreg) by done. eexists. rewrite map_app. cbn [map]. by rewrite last_snoc.
  - intros S cb s. rewrite (ForEach_encode reg Hreg) by done. by eexists.
Qed.

(** C6: Every validated address has a text, and [NewMultiaddr] reads the same bytes back
    from it, path components included. *)
Theorem multiaddr_text_roundtrip b :
  bytes_ok b -> validateBytes reg b = None ->
  exists s, bytesToString reg b = Some (Ok s) /\ NewMultiaddr reg s = Ok (MBytes b).
Proof.
  intros Hb Hv. apply (valid_iff reg Hreg b Hb) in Hv as (l & Hl & ->). exists (text l).
  split; [by apply bytesToString_encode|]. unfold NewMultiaddr. by rewrite stringToBytes_text.
Qed.

(** [Decapsulate] undoes [Encapsulate]: removing the address that was appended gives
    back the address it was appended to, even when the appended one occurs in it. *)
Theorem Decapsulate_Encapsulate b o :
  bytes_ok b -> bytes_ok o -> validateBytes reg b = None -> validateBytes reg o = None ->
  exists m, Decapsulate reg (Encapsulate (MBytes b) (Some (MBytes o))) (Some (MBytes o)) = Some (Some m) /\ Bytes m = b.
Proof.
  intros Hb Ho Hvb Hvo. apply (valid_iff reg Hreg b Hb) in Hvb as (l1 & (N1 & H1 & _) & ->).
  apply (valid_iff reg Hreg o Ho) in Hvo as (l2 & (N2 & H2 & _) & ->). cbn [Encapsulate Bytes].
  rewrite <- encode_app. apply (Decapsulate_encode reg Hreg); [by apply good_readable..|done|done].
Qed.

(** [Encapsulate] does not check its result: joining two valid addresses gives an
    address that [NewMultiaddrBytes] accepts exactly when the left one does not contain a
    path protocol. *)
Theorem Encapsulate_valid_iff b o :
  bytes_ok b -> bytes_ok o -> validateBytes reg b = None -> validateBytes reg o = None ->
  NewMultiaddrBytes reg (Bytes (Encapsulate (MBytes b) (Some (MBytes o)))) = Ok (MBytes (b ++ o)) <->
  exists ps, Protocols reg (MBytes b) = Some ps /\ Forall (fun p => p_Path p = false) ps.
Proof.
  intros Hb Ho Hvb Hvo. apply (valid_iff reg Hreg b Hb) in Hvb as (l1 & (N1 & H1 & P1) & ->).
  apply (valid_iff reg Hreg o Ho) in Hvo as (l2 & (N2 & H2 & P2) & ->). cbn [Encapsulate Bytes Protocols].
  pose proof (good_readable _ _ H1) as R1. pose proof (good_readable _ _ H2) as R2.
  rewrite (protocols_encode reg Hreg) by (done || by apply (encode_length reg Hreg)). unfold NewMultiaddrBytes. split.
  - intros Hn. exists (map fst l1). split; [done|]. apply Forall_map.
    destruct l1 as [|x l1 _] using rev_ind; [done|]. apply Forall_app. split; [by eapply path_last_init|].
    repeat constructor. cbn. apply not_true_is_false. intros Hpath. apply Forall_app in H1 as [H1 Hx].
    apply Forall_cons_1 in Hx as [Hx _]. revert Hn. unfold validateBytes. rewrite length_app.
    pose proof (encode_length reg Hreg _ R1) as L1. pose proof (encode_length reg Hreg _ R2) as L2. rewrite length_app in L1. simpl in L1.
    assert (0 < length l2)%nat by (destruct l2; [done|simpl; lia]).
    replace (_ =? 0)%nat with false by (symmetry; apply Nat.eqb_neq; lia).
    rewrite (validate_path_fails reg Hreg); [done|done|done|done|done| |lia]. intros E. rewrite E in L2. simpl in L2. lia.
  - intros (ps & [= <-] & Hf). apply Forall_map in Hf. rewrite <- encode_app.
    assert (bytes_ok (encode (l1 ++ l2))) as Hb12 by (rewrite encode_app; by apply Forall_app).
    assert (validateBytes reg (encode (l1 ++ l2)) = None) as ->; [|done]. apply (valid_iff reg Hreg _ Hb12).
    exists (l1 ++ l2). split; [|done]. split_and!; [by destruct l1|by apply Forall_app|by apply path_last_app].
Qed.
End theorems.

(** ** A small registry and some addresses *)
Module MaDemo.
Definition protos : list Protocol :=
  [proto "ip4" P_IP4 32 false (Some TranscoderIP4); proto "ip6" P_IP6 128 false (Some TranscoderIP6);
   proto "tcp" P_TCP 16 false (Some TranscoderPort); proto "unix" P_UNIX (-1) true (Some TranscoderUnix);
   proto "quic-v1" 461 0 false None].
Definition reg : registry := match add_all protos empty_registry with Some r => r | None => empty_registry end.

Lemma protos_ok : Forall proto_ok protos.
Proof.
  unfold protos. repeat constructor; cbn [proto p_Code p_VCode p_Name p_Size p_Path p_Transcoder]; try done;
    try (intros _; eexists; split; [done|auto with lawful]);
    cbn; intros Hin; repeat (apply elem_of_cons in Hin as [?|Hin]; [done|]); by apply elem_of_nil in Hin.
Qed.

Lemma reg_is_ok : reg_ok reg.
Proof. apply (add_all_ok protos empty_registry); [apply protos_ok|apply empty_registry_ok|reflexivity]. Qed.

(** /ip4/127.0.0.1/tcp/80 and /unix/a *)
Definition tcp80 : list Z := [4; 127; 0; 0; 1; 6; 0; 80].
Definition unix_a : list Z := [144; 3; 2; 47; 97].
End MaDemo.

Ltac demo_bytes := apply (bool_decide_unpack _); vm_compute; exact I.

(** An address, and one whose port is cut short. *)
Lemma validateBytes_exact_witness :
  (exists l, address MaDemo.reg l /\ MaDemo.tcp80 = encode l) /\
  ~ (exists l, address MaDemo.reg l /\ [4; 127; 0; 0; 1; 6; 0] = encode l).
Proof.
  split.
  - apply (validateBytes_exact MaDemo.reg MaDemo.reg_is_ok); [demo_bytes|vm_compute; reflexivity].
  - intros H. apply (validateBytes_exact MaDemo.reg MaDemo.reg_is_ok) in H; [vm_compute in H; discriminate|demo_bytes].
Defined.

Lemma traversals_agree_witness : exists cs, Split MaDemo.reg (MBytes MaDemo.tcp80) = Some (map MComp cs).
Proof.
  destruct (traversals_agree MaDemo.reg MaDemo.reg_is_ok MaDemo.tcp80) as (c & cs & H & _);
    [demo_bytes|vm_compute; reflexivity|]. exists (c :: cs). exact H.
Defined.

Lemma multiaddr_text_roundtrip_witness :
  exists s, bytesToString MaDemo.reg MaDemo.unix_a = Some (Ok s) /\ NewMultiaddr MaDemo.reg s = Ok (MBytes MaDemo.unix_a).
Proof. apply (multiaddr_text_roundtrip MaDemo.reg MaDemo.reg_is_ok); [demo_bytes|vm_compute; reflexivity]. Defined.

Lemma Decapsulate_Encapsulate_witness :
  exists m, Decapsulate MaDemo.reg (MBytes (MaDemo.tcp80 ++ MaDemo.unix_a)) (Some (MBytes MaDemo.unix_a)) = Some (Some m) /\
    Bytes m = MaDemo.tcp80.
Proof.
  apply (Decapsulate_Encapsulate MaDemo.reg MaDemo.reg_is_ok MaDemo.tcp80 MaDemo.unix_a);
    [demo_bytes|demo_bytes|vm_compute; reflexivity|vm_compute; reflexivity].
Defined.

Lemma Encapsulate_valid_iff_witness :
  NewMultiaddrBytes MaDemo.reg (MaDemo.tcp80 ++ MaDemo.unix_a) = Ok (MBytes (MaDemo.tcp80 ++ MaDemo.unix_a)) <->
  exists ps, Protocols MaDemo.reg (MBytes MaDemo.tcp80) = Some ps /\ Forall (fun p => p_Path p = false) ps.
Proof.
  apply (Encapsulate_valid_iff MaDemo.reg MaDemo.reg_is_ok MaDemo.tcp80 MaDemo.unix_a);
    [demo_bytes|demo_bytes|vm_compute; reflexivity|vm_compute; reflexivity].
Defined.

(** Appending to a path address gives bytes that do not parse. *)
Lemma Encapsulate_path_invalid :
  validateBytes MaDemo.reg MaDemo.unix_a = None /\ validateBytes MaDemo.reg MaDemo.tcp80 = None /\
  validateBytes MaDemo.reg (Bytes (Encapsulate (MBytes MaDemo.unix_a) (Some (MBytes MaDemo.tcp80)))) = Some ErrPathSize.
Proof. by vm_compute. Qed.
