(* ===== verification/MultiaddrParse.v ===== *)
(** * Multiaddrs: what is parsed is valid

    [stringToBytes] does not validate what the transcoders return; here each transcoder
    of transcoders.go is shown to return values that its own validation accepts, so that
    every address that is parsed from a text is a valid one. *)

From stdpp Require Import base list numbers strings.
From Stdlib Require Import ZArith Lia.
From S2P Require Import Prelude Varint GoText Base32 Base64 Base58 Multibase Multihash Cid Transcoders OnionGarlic Multiaddr MultiaddrSpec MultiaddrText.

(** The texts that [stringToBytes] hands to a transcoder. *)
Definition value_form (path : bool) (s : list Z) : Prop :=
  if path then exists s', s = slash :: s' /\ s' <> [] /\ last s' <> Some slash else slash ∉ s.

Definition sound (size : Z) (path : bool) (t : Transcoder) : Prop :=
  forall s b, bytes_ok s -> value_form path s -> StringToBytes t s = Some b ->
  bytes_ok b /\ sized size b /\ ValidateBytes t b = true.

Ltac open_sound := intros s b Hs Hf; cbn [StringToBytes ValidateBytes TranscoderIP4 TranscoderIP6 TranscoderIP6Zone
  TranscoderIPCIDR TranscoderPort TranscoderMemory TranscoderDns TranscoderUnix TranscoderHTTPPath TranscoderP2P
  TranscoderCertHash TranscoderOnion TranscoderOnion3 TranscoderGarlic64 TranscoderGarlic32].

Lemma sized_var b : sized (-1) b.
Proof. intros H. lia. Qed.

Lemma put_be_ok k n : bytes_ok (put_be k n) /\ length (put_be k n) = k.
Proof.
  induction k as [|k [IH1 IH2]]; cbn [put_be length]; [split; [constructor|done]|]. rewrite IH2. split; [|done].
  constructor; [unfold is_byte; apply Z.mod_pos_bound; lia|done].
Qed.

Lemma sound_ip4 : sound 32 false TranscoderIP4.
Proof.
  open_sound. unfold ip4StB. destruct (ParseIP s) as [ip|] eqn:E; [|done]. apply ParseIP_sound in E as [Hb Hl]. unfold To4.
  rewrite Hl. cbn [Nat.eqb andb]. case_bool_decide; [|done]. intros [= <-]. split_and!; [by apply Forall_drop| |done].
  intros _. rewrite length_drop, Hl. done.
Qed.

Lemma sound_ip6 : sound 128 false TranscoderIP6.
Proof.
  open_sound. unfold ip6StB. destruct (ParseIP s) as [ip|] eqn:E; [|done]. apply ParseIP_sound in E as [Hb Hl].
  intros E. destruct (To16_ok ip b E Hb) as [Hb' Hl']. split_and!; [done| |done]. intros _. by rewrite Hl'.
Qed.

Lemma sound_ip6zone : sound (-1) false TranscoderIP6Zone.
Proof.
  open_sound. unfold ip6zoneStB, ip6zoneVal. destruct (length s =? 0)%nat eqn:E1; [done|]. destruct (has_slash s) eqn:E2; [done|].
  intros [= <-]. split_and!; [done|apply sized_var|]. by rewrite E1, E2.
Qed.

Lemma sound_ipcidr : sound 8 false TranscoderIPCIDR.
Proof.
  open_sound. unfold ipcidrStB. destruct (ParseUint s 8) as [m|] eqn:E; [|done]. intros [= <-]. apply ParseUint_range in E; [|lia].
  split_and!; [|done|done]. repeat constructor; lia.
Qed.

Lemma sound_port : sound 16 false TranscoderPort.
Proof.
  open_sound. unfold portStB. destruct (ParseUint s 16) as [i|]; [|done]. intros E%(inj Some). subst b.
  destruct (put_be_ok 2 i) as [H1 H2]. split_and!; [done| |done]. intros _. by rewrite H2.
Qed.

Lemma sound_memory : sound 64 false TranscoderMemory.
Proof.
  open_sound. unfold memoryStB, memoryValidate. destruct (ParseUint s 64) as [i|]; [|done]. intros E%(inj Some). subst b.
  destruct (put_be_ok 8 i) as [H1 H2]. split_and!; [done| |by rewrite H2]. intros _. by rewrite H2.
Qed.

Lemma sound_dns : sound (-1) false TranscoderDns.
Proof. open_sound. unfold dnsStB. destruct (dnsVal s) eqn:E; [|done]. intros [= <-]. split_and!; [done|apply sized_var|done]. Qed.

Lemma sound_unix : sound (-1) true TranscoderUnix.
Proof.
  open_sound. intros [= <-]. split_and!; [done|apply sized_var|]. destruct Hf as (s' & -> & Hne & Hl).
  unfold unixValidate. destruct s' as [|c s'] using rev_ind; [done|]. rewrite last_snoc in Hl.
  cbn [length]. rewrite length_app, app_comm_cons, last_snoc. cbn [length app]. rewrite Nat.add_1_r. cbn.
  apply negb_true_iff, Z.eqb_neq. congruence.
Qed.

Lemma QueryUnescape_bytes s b : bytes_ok s -> QueryUnescape s = Some b -> bytes_ok b.
Proof.
  revert b. induction s as [s IH] using (induction_ltof1 _ length). unfold ltof in IH. intros b Hs.
  destruct s as [|c s]; cbn [QueryUnescape]; [intros [= <-]; constructor|]. apply Forall_cons_1 in Hs as [Hc Hs]. case_bool.
  - destruct s as [|h [|l s]]; [done..|]. destruct (hex_value h) as [x|] eqn:E1; [|done]. destruct (hex_value l) as [y|] eqn:E2; [|done].
    destruct (QueryUnescape s) as [t|] eqn:E; [|done]. intros E'%(inj Some). subst b. apply hex_value_bound in E1, E2.
    do 2 apply Forall_cons_1 in Hs as [_ Hs]. constructor; [|apply (IH s); [cbn [length]; lia|done..]].
    apply (lor_range 8); [lia|rewrite Z.shiftl_mul_pow2 by lia|]; change (2 ^ 8) with 256; change (2 ^ 4) with 16; lia.
  - destruct (QueryUnescape s) as [t|] eqn:E; [|done]. intros E'%(inj Some). subst b.
    constructor; [case_bool; [by compute|done]|apply (IH s); [cbn [length]; lia|done..]].
Qed.

Lemma sound_httppath : sound (-1) false TranscoderHTTPPath.
Proof.
  open_sound. unfold httpPathStB, validateHTTPPath. destruct (QueryUnescape s) as [u|] eqn:E; [|done].
  destruct (length u =? 0)%nat eqn:El; [done|]. intros [= <-]. split_and!; [by eapply QueryUnescape_bytes|apply sized_var|by rewrite El].
Qed.

Section encoded_values.
Context {b58 : Base58} {b58_laws : Base58Laws} {unicode : UnicodeCase}.

Lemma FromB58String_bytes s m : FromB58String s = Some m -> bytes_ok m.
Proof.
  unfold FromB58String. destruct (b58_Decode s) as [b|] eqn:E; [|done]. apply b58_decode_bytes in E.
  destruct (Cast b) as [m'|] eqn:Ec; [|done]. intros [= <-]. by apply Cast_is_multihash in Ec as [-> _].
Qed.

Lemma cid_Decode_bytes s c : bytes_ok s -> cid_Decode s = Some (Ok c) -> bytes_ok c.
Proof.
  intros Hs. unfold cid_Decode. destruct (length s <? 2)%nat; [discriminate|]. destruct (is_v0_text s).
  - destruct (FromB58String s) as [m|] eqn:E; [|discriminate]. apply FromB58String_bytes in E. unfold tryNewCidV0.
    destruct (Multihash.Decode m); [|discriminate]. case_bool; [discriminate|]. intros E'%(inj Some). congruence.
  - destruct (mb_Decode s) as [[[enc data]|]|] eqn:E; try discriminate. apply mb_Decode_bytes in E; [|done].
    intros E'%(inj Some). unfold cid_Cast in E'. destruct (CidFromBytes data) as [[n c']|] eqn:Ec; [|done].
    case_bool; [done|]. apply CidFromBytes_inv in Ec as (v & codec & h & rest & _ & -> & _); [|done].
    injection E' as <-. by apply Forall_app in E as [? _].
Qed.

Lemma cid_Hash_bytes c : bytes_ok c -> bytes_ok (cid_Hash c).
Proof. intros Hc. unfold cid_Hash. case_match; [done|]. by apply Forall_drop. Qed.

Lemma sound_p2p : sound (-1) false TranscoderP2P.
Proof.
  open_sound. unfold p2pStB. case_match.
  - destruct (FromB58String s) as [m|] eqn:E; [|done]. destruct (p2pVal m) eqn:Ev; [|done]. intros [= <-].
    split_and!; [by eapply FromB58String_bytes|apply sized_var|done].
  - destruct (cid_Decode s) as [[c|]|] eqn:E; [|done..]. case_match; [|done]. destruct (p2pVal (cid_Hash c)) eqn:Ev; [|done].
    intros E'%(inj Some). subst b. split_and!; [|apply sized_var|done]. apply cid_Hash_bytes. by eapply cid_Decode_bytes.
Qed.

Lemma sound_certhash : sound (-1) false TranscoderCertHash.
Proof.
  open_sound. unfold certHashStB, validateCertHash. destruct (mb_Decode s) as [[[enc data]|]|] eqn:E; try discriminate.
  destruct (Multihash.Decode data) eqn:Em; [|discriminate]. intros E'%(inj Some). subst b. rewrite Em.
  split_and!; [by eapply mb_Decode_bytes|apply sized_var|done].
Qed.

Lemma get_put_2 i : 0 <= i < 2 ^ 16 -> get_be (put_be 2 i) = i.
Proof. intros Hi. cbn [put_be get_be length]. change (2 ^ 16) with 65536 in Hi. cbn. dlia. Qed.

Lemma parse_port_ok s p : parse_port s = Some p -> bytes_ok p /\ length p = 2%nat /\ (get_be p =? 0) = false.
Proof.
  unfold parse_port. destruct (ParseUint s 16) as [i|] eqn:E; [|done]. apply ParseUint_range in E; [|lia].
  destruct (i =? 0) eqn:Ei; [done|]. intros E'%(inj Some). subst p. destruct (put_be_ok 2 i) as [H1 H2].
  rewrite get_put_2 by done. done.
Qed.

(** A host of [k] bytes and a port. *)
Lemma host_port_ok k host port :
  bytes_ok host -> length host = k -> bytes_ok port -> length port = 2%nat -> (get_be port =? 0) = false ->
  bytes_ok (host ++ port) /\ length (host ++ port) = (k + 2)%nat /\ negb (get_be (take 2 (drop k (host ++ port))) =? 0) = true.
Proof.
  intros Hh <- Hp Hl Hz. rewrite length_app, Hl, drop_app_length, take_ge by lia. split_and!; [by apply Forall_app|done|by rewrite Hz].
Qed.

Lemma sound_onion : sound 96 false TranscoderOnion.
Proof.
  open_sound. unfold onionStB, onionValidate. destruct (GoText.Split colon s) as [|host [|port [|]]]; try done.
  destruct (Base32.DecodeString std_base32 (strings_ToUpper host)) as [h|] eqn:E; [|done]. apply DecodeString_bytes32 in E.
  destruct (negb _) eqn:El; [done|]. destruct (parse_port port) as [p|] eqn:Ep; [|done]. intros E'%(inj Some). subst b.
  apply negb_false_iff, Nat.eqb_eq in El. destruct (parse_port_ok port p Ep) as (H1 & H2 & H3).
  destruct (host_port_ok 10 h p E El H1 H2 H3) as (Hb & Hl & Hz). split_and!; [done|intros _; by rewrite Hl|by rewrite Hl, Hz].
Qed.

Lemma EncodeRune_bytes r : bytes_ok (EncodeRune r).
Proof.
  assert (forall x, is_byte (128 + x mod 64)) as Hc by (intros x; unfold is_byte; pose proof (Z.mod_pos_bound x 64); lia).
  unfold EncodeRune. cbv zeta.
  destruct ((r <? 0) || (r >? 1114111) || ((55296 <=? r) && (r <=? 57343))) eqn:E; [repeat constructor; by compute|].
  apply orb_false_iff in E as [[E1%Z.ltb_ge E2]%orb_false_iff _]. rewrite Z.gtb_ltb in E2. apply Z.ltb_ge in E2.
  repeat case_bool; repeat apply Forall_cons_2; try apply Forall_nil_2; try apply Hc; unfold is_byte; dlia.
Qed.

Lemma ToUpper_bytes s : bytes_ok s -> bytes_ok (strings_ToUpper s).
Proof.
  intros Hs. unfold strings_ToUpper. case_match.
  - apply Forall_map. eapply Forall_impl; [exact Hs|]. intros c Hc. unfold is_byte, asciiToUpper in *. case_bool; bool_props; lia.
  - generalize (length s) as fuel. intros fuel. clear. revert s. induction fuel as [|fuel IH]; intros [|c s]; cbn [map_runes]; try constructor.
    destruct (DecodeRune (c :: s)) as [r n]. apply Forall_app. split; [apply EncodeRune_bytes|apply IH].
Qed.

Lemma decode_buffer_bytes enc s out buf : bytes_ok s -> decode_buffer enc s = Some (out, buf) -> bytes_ok buf.
Proof.
  intros Hs. unfold decode_buffer. destruct (Base32.DecodeString enc s) as [o|] eqn:E; [|done]. apply DecodeString_bytes32 in E.
  intros E'%(inj Some). injection E' as <- <-. apply Forall_app. split; [done|]. apply Forall_drop, Forall_app. split.
  - unfold bytes_ok in *. rewrite Forall_forall in Hs |- *. intros c Hc. unfold strip in Hc. apply list_elem_of_filter in Hc as [_ Hc]. by apply Hs.
  - by apply Forall_drop.
Qed.

Lemma sound_onion3 : sound 296 false TranscoderOnion3.
Proof.
  open_sound. unfold onion3StB, onion3Validate. destruct (GoText.Split colon s) as [|host [|port [|]]] eqn:Es; try done.
  assert (bytes_ok host) as Hhost.
  { pose proof (Split_bytes colon s Hs) as Hb. rewrite Es in Hb. by apply Forall_cons_1 in Hb as [? _]. }
  destruct (negb _); [done|]. destruct (decode_buffer std_base32 (strings_ToUpper host)) as [[out buf]|] eqn:E; [|done].
  apply decode_buffer_bytes in E; [|by apply ToUpper_bytes].
  destruct (parse_port port) as [p|] eqn:Ep; [|done]. destruct (Nat.ltb_spec (length buf) 35) as [|Hl]; [done|].
  intros E'%(inj Some). subst b. destruct (parse_port_ok port p Ep) as (H1 & H2 & H3).
  destruct (host_port_ok 35 (take 35 buf) p ltac:(by apply Forall_take) ltac:(rewrite length_take; lia) H1 H2 H3) as (Hb & Hl' & Hz).
  split_and!; [done|intros _; by rewrite Hl'|by rewrite Hl', Hz].
Qed.

Lemma sound_garlic64 : sound (-1) false TranscoderGarlic64.
Proof.
  open_sound. unfold garlic64StB. destruct (Base64.DecodeString _ s) as [d|] eqn:E; [|done]. apply Base64.DecodeString_bytes64 in E.
  destruct (garlic64Validate d) eqn:Ev; [|done]. intros [= <-]. split_and!; [done|apply sized_var|done].
Qed.

Lemma sound_garlic32 : sound (-1) false TranscoderGarlic32.
Proof.
  open_sound. unfold garlic32StB. destruct (Base32.DecodeString _ _) as [d|] eqn:E; [|done]. apply DecodeString_bytes32 in E.
  destruct (garlic32Validate d) eqn:Ev; [|done]. intros [= <-]. split_and!; [done|apply sized_var|done].
Qed.

(** ** The registry *)

Definition proto_sound (p : Protocol) : Prop :=
  p_Size p <> 0 -> exists t, p_Transcoder p = Some t /\ sound (p_Size p) (p_Path p) t.
Definition reg_sound (reg : registry) : Prop := forall n p, assoc n (byName reg) = Some p -> proto_sound p.

Create HintDb sound discriminated.
#[local] Hint Resolve sound_ip4 sound_ip6 sound_ip6zone sound_ipcidr sound_port sound_memory sound_dns sound_unix
  sound_httppath sound_p2p sound_certhash sound_onion sound_onion3 sound_garlic64 sound_garlic32 : sound.

Lemma builtin_sound : Forall proto_sound builtin.
Proof.
  unfold builtin. repeat constructor; unfold proto_sound; cbn [proto protoP2P p_Code p_VCode p_Name p_Size p_Path p_Transcoder];
    try done; intros _; eexists; (split; [reflexivity|auto with sound]).
Qed.

Lemma add_all_sound ps reg reg' : Forall proto_sound ps -> reg_sound reg -> add_all ps reg = Some reg' -> reg_sound reg'.
Proof.
  intros Hps. revert reg. induction Hps as [|p ps Hp _ IH]; intros reg Hr; cbn [add_all]; [by intros [= <-]|].
  destruct (AddProtocol p reg) as [reg1|] eqn:E; [|done]. apply IH. unfold AddProtocol in E.
  repeat case_match; try discriminate; injection E as <-; intros n q; cbn [byName assoc];
    (case_decide; [by intros [= <-]|apply Hr]).
Qed.

Lemma init_sound reg : init = Some reg -> reg_sound reg.
Proof.
  unfold init. destruct (add_all builtin empty_registry) as [r|] eqn:E; [|discriminate]. intros E'%(inj Some). subst reg.
  apply add_all_sound in E; [|apply builtin_sound|done]. assert (proto_sound protoP2P) as Hp.
  { intros _. eexists. split; [reflexivity|apply sound_p2p]. }
  intros n p. cbn [byName assoc]. repeat case_decide; try (by intros [= <-]). apply E.
Qed.
End encoded_values.

(** ** Parsing *)

Section parse.
Context (reg : registry) (Hreg : reg_ok reg) (Hsound : reg_sound reg).

(** Parts of a text between slashes, the last of which is not empty. *)
Definition parts_ok (sp : list (list Z)) : Prop :=
  Forall (fun w => bytes_ok w /\ slash ∉ w) sp /\ last sp <> Some [].

Lemma parts_tail w sp : parts_ok (w :: sp) -> sp <> [] -> parts_ok sp.
Proof. intros [Hf Hl] Hne. apply Forall_cons_1 in Hf as [_ Hf]. split; [done|]. by destruct sp. Qed.

Lemma Join_parts_ok sp : sp <> [] -> parts_ok sp ->
  bytes_ok (GoText.Join sp [slash]) /\ GoText.Join sp [slash] <> [] /\ last (GoText.Join sp [slash]) <> Some slash.
Proof.
  induction sp as [|w sp IH]; [done|]. intros _ Hp. assert (Hp' := Hp). destruct Hp as [Hf Hl].
  apply Forall_cons_1 in Hf as [[Hb Hs] Hf]. destruct sp as [|w' sp].
  - cbn [GoText.Join]. split_and!; [done|by intros ->|by apply last_no_slash].
  - destruct (IH ltac:(done) ltac:(by eapply parts_tail)) as (H1 & H2 & H3). rewrite Join_cons by done.
    split_and!.
    + apply Forall_app. split; [done|]. apply Forall_app. split; [by repeat constructor|done].
    + by destruct w.
    + rewrite app_assoc, last_app_ne by done. done.
Qed.

Lemma parse_parts_good sp b :
  parts_ok sp -> parse_parts reg sp = Ok b -> Z.of_nat (length b) <= MaxInt32 ->
  exists l, Forall (good reg) l /\ path_last l /\ b = encode l /\ (sp <> [] -> l <> []).
Proof.
  revert b. induction sp as [sp IH] using (induction_ltof1 _ length). unfold ltof in IH. intros b Hp.
  destruct sp as [|name sp]; [intros [= <-] _; by exists []|]. cbn [parse_parts].
  unfold ProtocolWithName. destruct (assoc name (byName reg)) as [p|] eqn:En; [|done]. unfold known.
  destruct (p_Code p =? 0) eqn:Ec; [done|]. destruct (rg_name _ Hreg _ _ En) as [Hok Hcode]. specialize (Hsound _ _ En).
  destruct (Z.eqb_spec (p_Size p) 0) as [Hz|Hz].
  - destruct (parse_parts reg sp) as [b'|] eqn:Eb; [|done]. intros E Hlen. injection E as <-. rewrite length_app in Hlen.
    destruct (IH sp ltac:(cbn [length]; lia) b') as (l & Hg & Hpl & -> & _); [by destruct sp; [|eapply parts_tail]|done|lia|].
    exists ((p, []) :: l). split_and!; [constructor; [|done]|split; [|done]| |done].
    + split; [split; cbn; [done|constructor|unfold MaxInt32; lia|done|]|done]. intros Hpos. cbn in Hpos. lia.
    + cbn. intros Hpath. pose proof (po_path _ Hok Hpath). lia.
    + rewrite encode_cons. unfold encode1, prefix, len_prefix. cbn. replace (p_Size p <? 0) with false by lia. by rewrite !app_nil_r.
  - destruct sp as [|v sp]; [done|]. destruct (Hsound Hz) as (t & Ht & Hs). unfold transcoder. rewrite Ht. cbv zeta.
    assert (parts_ok (v :: sp)) as Hvp by (by eapply parts_tail).
    set (value := if p_Path p then [slash] ++ GoText.Join (v :: sp) [slash] else v).
    destruct (StringToBytes t value) as [a|] eqn:Ea; [|done].
    assert (bytes_ok a /\ sized (p_Size p) a /\ ValidateBytes t a = true) as (Ha1 & Ha2 & Ha3).
    { apply (Hs value); [| |done]; subst value; destruct (p_Path p); cbn [value_form].
      - destruct (Join_parts_ok (v :: sp)) as (H1 & _ & _); [done..|]. by apply Forall_cons_2.
      - by destruct Hvp as [[[? _] _]%Forall_cons_1 _].
      - destruct (Join_parts_ok (v :: sp)) as (H1 & H2 & H3); [done..|]. by eexists.
      - by destruct Hvp as [[[_ ?] _]%Forall_cons_1 _]. }
    destruct (if p_Path p then Ok [] else parse_parts reg sp) as [b'|] eqn:Eb; [|done]. intros E Hlen. injection E as <-.
    rewrite !length_app in Hlen.
    assert (exists l, Forall (good reg) l /\ path_last l /\ b' = encode l /\ (p_Path p = true -> l = [])) as (l & Hg & Hpl & -> & Hlast).
    { destruct (p_Path p) eqn:Epath; [injection Eb as <-; by exists []|].
      destruct (IH sp ltac:(cbn [length]; lia) b') as (l & Hg & Hpl & -> & _); [by destruct sp; [|eapply parts_tail]|done|lia|].
      by exists l. }
    assert (good reg (p, a)) as Hpa.
    { split; [split; cbn; [done..|lia|done|done]|]. intros _. cbn. unfold transcoder. by rewrite Ht. }
    exists ((p, a) :: l). split_and!; [by constructor|by split| |done]. rewrite encode_cons. unfold encode1, prefix.
    rewrite <- !app_assoc. do 2 f_equal. by rewrite <- (len_prefix_ToUvarint reg (p, a) (gd_readable _ _ Hpa)).
Qed.

Lemma Split_last sep s : s <> [] -> last s <> Some sep -> last (GoText.Split sep s) <> Some [].
Proof.
  induction s as [|c s IH]; [done|]. intros _ Hl. cbn [GoText.Split]. destruct s as [|c' s].
  { cbn in Hl |- *. destruct (Z.eqb_spec c sep) as [->|]; [done|]. done. }
  change (last (c' :: s) <> Some sep) in Hl. specialize (IH ltac:(done) Hl).
  pose proof (Split_nonempty sep (c' :: s)) as Hne. case_bool; destruct (GoText.Split sep (c' :: s)) as [|w [|w' ws]]; cbn in *; try done; congruence.
Qed.

Lemma TrimRight_last s c : last (TrimRight s c) <> Some c.
Proof.
  assert (forall l, head (drop_while c l) <> Some c) as Hd.
  { intros l. induction l as [|b l IH]; cbn [drop_while]; [done|]. case_bool; [done|]. cbn. congruence. }
  unfold TrimRight. specialize (Hd (rev s)). destruct (drop_while c (rev s)) as [|b l]; [done|]. cbn [rev]. rewrite last_snoc. exact Hd.
Qed.

Lemma TrimRight_bytes s c : bytes_ok s -> bytes_ok (TrimRight s c).
Proof.
  intros Hs. unfold TrimRight. apply Forall_rev. apply Forall_rev in Hs. induction Hs as [|b l Hb Hl IH]; cbn [drop_while]; [constructor|].
  case_bool; [done|]. by constructor.
Qed.

Lemma stringToBytes_good s b :
  bytes_ok s -> stringToBytes reg s = Ok b -> Z.of_nat (length b) <= MaxInt32 -> exists l, address reg l /\ b = encode l.
Proof.
  intros Hs. unfold stringToBytes. set (t := TrimRight s slash). pose proof (TrimRight_last s slash) as Hlast. fold t in Hlast.
  assert (bytes_ok t) as Ht by by apply TrimRight_bytes. pose proof (Split_bytes slash t Ht) as Hbytes.
  pose proof (Split_free t) as Hfree. destruct (GoText.Split slash t) as [|first sp] eqn:E; [done|].
  destruct (negb (length first =? 0)%nat); [done|]. destruct (length sp =? 0)%nat eqn:El; [done|].
  intros Hp Hlen. assert (sp <> []) as Hne by (by intros ->).
  assert (t <> []) as Htne. { intros Hnil. rewrite Hnil in E. cbn in E. congruence. }
  apply Forall_cons_1 in Hbytes as [_ Hbytes]. apply Forall_cons_1 in Hfree as [_ Hfree].
  destruct (parse_parts_good sp b) as (l & Hg & Hpl & -> & Hl); [|done|done|].
  - split; [by apply Forall_and|]. pose proof (Split_last slash t Htne Hlast) as Hsl. rewrite E in Hsl. by destruct sp.
  - exists l. split; [|done]. split_and!; [by apply Hl|done|done].
Qed.
End parse.

Section theorem.
Context {b58 : Base58} {b58_laws : Base58Laws} {unicode : UnicodeCase}.

(** C7: Parsing is sound: whatever text [stringToBytes] accepts, with the built-in protocols,
    its bytes pass [validateBytes], and the address prints as a text that parses to the
    same bytes. *)
Theorem parse_valid reg s b :
  init = Some reg -> bytes_ok s -> stringToBytes reg s = Ok b -> Z.of_nat (length b) <= MaxInt32 ->
  validateBytes reg b = None /\
  exists t, bytesToString reg b = Some (Ok t) /\ stringToBytes reg t = Ok b.
Proof.
  intros Hinit Hs Hp Hlen. pose proof (init_ok reg Hinit) as Hreg.
  destruct (stringToBytes_good reg Hreg (init_sound reg Hinit) s b Hs Hp Hlen) as (l & Hl & ->). split.
  - by apply validate_address.
  - exists (text l). split; [by apply bytesToString_encode|by apply stringToBytes_text].
Qed.
End theorem.

Module ParseDemo.
Import Sample.
Definition reg : registry := default empty_registry init.
Definition source : list Z := str "/ip6/::1/udp/4001/quic-v1/p2p/QmYyQSo1c1Ym7orWxLYvCrM2EmxFTANf8wXmmE7DWjhx5N/".

Lemma parse_valid_witness :
  exists b, stringToBytes reg source = Ok b /\ validateBytes reg b = None.
Proof.
  assert (init = Some reg) as Hinit by (unfold reg; destruct init_spec as (r & E & _); rewrite E; reflexivity).
  destruct (stringToBytes reg source) as [b|e] eqn:E; [|exfalso; vm_compute in E; discriminate].
  exists b. split; [reflexivity|]. refine (proj1 (parse_valid reg source b Hinit _ E _)).
  - apply (bool_decide_unpack _). vm_compute. exact I.
  - vm_compute in E. injection E as <-. vm_compute. discriminate.
Defined.
End ParseDemo.
