(* ===== verification/Multistream.v ===== *)
(** * Protocol negotiation (src/multiformats/multistream)

    The muxer of handlers, the framing of tokens, and the two sides of a negotiation:
    [Negotiate] of the server, [SelectOneOf] and the lazy connection of the client.

    The two sides are state machines that read whole tokens and write bytes; a read
    blocks while the token has not arrived.  [net_step] runs them against each other
    over two byte streams that deliver what was written in pieces of any size, in any
    order with the steps of the two sides.  Writes to an open connection succeed. *)

From stdpp Require Import base list numbers strings relations gmap.
From Stdlib Require Import ZArith Lia.
From S2P Require Import Prelude Varint GoText Multihash Cid.

Definition ProtocolID : list Z := str "/multistream/1.0.0".
Definition na : list Z := str "na".
Definition newline : Z := 10.

(** ** Tokens *)

Inductive token_error := ErrTokenRead (e : read_error) | ErrTooLarge | ErrNoNewline.

Definition writeUvarint (i : Z) : option (list Z) :=
  match PutUvarint (replicate 16 0) i with
  | Some (buf, n) => Some (take n buf)
  | None => None
  end.
Definition delimWrite (mes : list Z) : list Z :=
  default [] (writeUvarint (Z.of_nat (length mes) + 1)) ++ mes ++ [newline].
Definition delitmWriteAll (messages : list (list Z)) : list Z := concat (map delimWrite messages).

(** The token at the front of the stream [r], and what follows it. *)
Definition lpReadBuf (r : list Z) : result token_error (list Z) * list Z :=
  match ReadUvarint r with
  | (Err e, r) => (Err (ErrTokenRead e), r)
  | (Ok len, r) =>
      if len >? 1024 then (Err ErrTooLarge, r)
      else match ReadFull (Z.to_nat len) r with
      | (n, Some e) => (Err (ErrTokenRead ErrUnexpectedEOF), drop n r)
      | (_, None) =>
          let buf := take (Z.to_nat len) r in
          let r := drop (Z.to_nat len) r in
          if (length buf =? 0)%nat || negb (nth (Z.to_nat len - 1) buf 0 =? newline) then (Err ErrNoNewline, r)
          else (Ok (take (Z.to_nat len - 1) buf), r)
      end
  end.
Definition ReadNextToken : list Z -> result token_error (list Z) * list Z := lpReadBuf.

(** ** The muxer *)

Section muxer.
Context {H : Type}.

Record Handler := mkHandler { MatchFunc : list Z -> bool; Handle : H; AddName : list Z }.

Definition fulltextMatch (s : list Z) (a : list Z) : bool := bool_decide (a = s).

Fixpoint removeHandler (protocol : list Z) (handlers : list Handler) : list Handler :=
  match handlers with
  | [] => []
  | h :: handlers => if bool_decide (AddName h = protocol) then handlers else h :: removeHandler protocol handlers
  end.
Definition AddHandlerWithFunc (protocol : list Z) (match_ : list Z -> bool) (handler : H) (handlers : list Handler) : list Handler :=
  removeHandler protocol handlers ++ [mkHandler match_ handler protocol].
Definition AddHandler (protocol : list Z) (handler : H) (handlers : list Handler) : list Handler :=
  AddHandlerWithFunc protocol (fulltextMatch protocol) handler handlers.
Definition mux_Protocols (handlers : list Handler) : list (list Z) := map AddName handlers.

Fixpoint findHandler (handlers : list Handler) (proto : list Z) : option Handler :=
  match handlers with
  | [] => None
  | h :: handlers => if MatchFunc h proto then Some h else findHandler handlers proto
  end.

(** ** The server *)

Inductive negotiate_error := ErrNegotiateToken (e : token_error) | ErrIncorrectVersion.

(** Where [Negotiate] is: before it sent its header, before it read that of the client, in
    the loop, or returned; [closed] says whether it closed the connection. *)
Inductive server :=
| SStart
| SHeader
| SLoop
| SDone (proto : list Z) (handle : H)
| SFail (e : negotiate_error) (closed : bool).

(** What [Negotiate] does with the next token: the new state and what it writes. *)
Definition server_token (handlers : list Handler) (s : server) (tok : result token_error (list Z)) : server * list (list Z) :=
  match s, tok with
  | (SHeader | SLoop), Err e => (SFail (ErrNegotiateToken e) false, [])
  | SHeader, Ok line => if bool_decide (line = ProtocolID) then (SLoop, []) else (SFail ErrIncorrectVersion true, [])
  | SLoop, Ok tok =>
      match findHandler handlers tok with
      | None => (SLoop, [na])
      | Some h => (SDone tok (Handle h), [tok])
      end
  | _, _ => (s, [])
  end.
Definition reads_server (s : server) : bool := match s with SHeader | SLoop => true | _ => false end.

(** [Negotiate] when the client's bytes are [r] and then the end: what it writes, how it
    ends, and what it leaves unread. *)
Fixpoint negotiate_loop (handlers : list Handler) (fuel : nat) (s : server) (r : list Z) : list Z * server * list Z :=
  match fuel with
  | O => ([], s, r)
  | S fuel =>
      if reads_server s then
        let '(tok, rest) := ReadNextToken r in
        let '(s, out) := server_token handlers s tok in
        let '(w, s, rest) := negotiate_loop handlers fuel s rest in
        (delitmWriteAll out ++ w, s, rest)
      else ([], s, r)
  end.
Definition Negotiate (handlers : list Handler) (r : list Z) : list Z * server * list Z :=
  let '(w, s, rest) := negotiate_loop handlers (S (length r)) SHeader r in
  (delimWrite ProtocolID ++ w, s, rest).
End muxer.
Arguments Handler : clear implicits.
Arguments server : clear implicits.

(** ** The client *)

Inductive select_error :=
| ErrNotSupported (protos : list (list Z))
| ErrUnrecognizedResponse (actual expected : list Z)
| ErrSelectToken (e : token_error)
| ErrHeaderMismatch
| ErrNoProtocols.

Definition readMultistreamHeader (tok : result token_error (list Z)) : option select_error :=
  match tok with
  | Err e => Some (ErrSelectToken e)
  | Ok tok => if bool_decide (tok = ProtocolID) then None else Some ErrHeaderMismatch
  end.
Definition readProto (proto : list Z) (tok : result token_error (list Z)) : option select_error :=
  match tok with
  | Err e => Some (ErrSelectToken e)
  | Ok tok =>
      if bool_decide (tok = proto) then None
      else if bool_decide (tok = na) then Some (ErrNotSupported [proto])
      else Some (ErrUnrecognizedResponse tok proto)
  end.

(** Where [SelectOneOf] is: in [SelectProtoOrFail] for the first protocol (whether the
    goroutine has written, and the outcomes of the two reads so far), waiting for the
    answer to one of the others, or returned. *)
Inductive client :=
| CFirst (protos : list (list Z)) (proto : list Z) (rest : list (list Z)) (wrote : bool) (reads : list (option select_error))
| CTry (protos : list (list Z)) (proto : list Z) (rest : list (list Z))
| CDone (r : result select_error (list Z)).

Definition SelectOneOf (protos : list (list Z)) : client :=
  match protos with
  | [] => CDone (Err ErrNoProtocols)
  | p :: rest => CFirst protos p rest false []
  end.

(** The next round of [selectProtosOrFail]: what it writes. *)
Definition select_next (protos : list (list Z)) (rest : list (list Z)) : client * list (list Z) :=
  match rest with
  | [] => (CDone (Err (ErrNotSupported protos)), [])
  | p :: rest => (CTry protos p rest, [p])
  end.

Definition after_try (protos : list (list Z)) (proto : list Z) (rest : list (list Z)) (err : option select_error) : client * list (list Z) :=
  match err with
  | None => (CDone (Ok proto), [])
  | Some (ErrNotSupported _) => select_next protos rest
  | Some e => (CDone (Err e), [])
  end.

(** What the client does with the next token. *)
Definition client_token (c : client) (tok : result token_error (list Z)) : client * list (list Z) :=
  match c with
  | CFirst protos p rest w [] => (CFirst protos p rest w [readMultistreamHeader tok], [])
  | CFirst protos p rest w [e1] => (CFirst protos p rest w [e1; readProto p tok], [])
  | CTry protos p rest => after_try protos p rest (readProto p tok)
  | _ => (c, [])
  end.
Definition reads_client (c : client) : bool :=
  match c with
  | CFirst _ _ _ _ ([] | [_]) | CTry _ _ _ => true
  | _ => false
  end.

(** The goroutine that writes, and the end of [SelectProtoOrFail] once both reads and the
    write are done. *)
Definition client_own (c : client) : option (client * list (list Z)) :=
  match c with
  | CFirst protos p rest false reads => Some (CFirst protos p rest true reads, [ProtocolID; p])
  | CFirst protos p rest true [e1; e2] =>
      Some (after_try protos p rest (match e1 with Some e => Some e | None => e2 end))
  | _ => None
  end.

(** ** The lazy connection *)

Inductive lazy_error :=
| ErrLazyToken (e : token_error)
| ErrLazyNotSupported (proto : list Z)
| ErrLazyMismatch (tok proto : list Z)
| ErrLazyEOF.

(** [None] in a half that has not run; [con] is what was written and what is unread. *)
Record lazyClientConn := mkLazy {
  rhandshake : option (option lazy_error);
  whandshake : bool;
  protos : list (list Z);
  written : list Z;
  unread : list Z
}.
Definition NewMSSelect (proto : list Z) (r : list Z) : lazyClientConn := mkLazy None false [ProtocolID; proto] [] r.
Definition NewMultistream (proto : list Z) (r : list Z) : lazyClientConn := mkLazy None false [proto] [] r.

Fixpoint doReadHandshake (protos : list (list Z)) (r : list Z) : option lazy_error * list Z :=
  match protos with
  | [] => (None, r)
  | proto :: protos =>
      match ReadNextToken r with
      | (Err e, r) => (Some (ErrLazyToken e), r)
      | (Ok tok, r) =>
          if bool_decide (tok = na) then (Some (ErrLazyNotSupported proto), r)
          else if negb (bool_decide (tok = proto)) then (Some (ErrLazyMismatch tok proto), r)
          else doReadHandshake protos r
      end
  end.
Definition doWriteHandshakeWithData (extra : list Z) (l : lazyClientConn) : nat * lazyClientConn :=
  (length extra,
   mkLazy (rhandshake l) true (protos l) (written l ++ delitmWriteAll (protos l) ++ extra) (unread l)).
Definition rhandshakeDo (l : lazyClientConn) : lazyClientConn :=
  match rhandshake l with
  | Some _ => l
  | None => let '(rerr, r) := doReadHandshake (protos l) (unread l) in
            mkLazy (Some rerr) (whandshake l) (protos l) (written l) r
  end.
Definition whandshakeDo (l : lazyClientConn) : lazyClientConn :=
  if whandshake l then l else (doWriteHandshakeWithData [] l).2.

(** The goroutines a call starts run before the call returns here: the read half they run
    touches nothing of what [Write] and [Flush] return, nor does the write half of [Read]. *)
Definition lazy_Read (b : nat) (l : lazyClientConn) : result lazy_error (list Z) * lazyClientConn :=
  let l := match rhandshake l with Some _ => l | None => rhandshakeDo (whandshakeDo l) end in
  match default None (rhandshake l) with
  | Some e => (Err e, l)
  | None =>
      if (b =? 0)%nat then (Ok [], l)
      else if (length (unread l) =? 0)%nat then (Err ErrLazyEOF, l)
      else (Ok (take b (unread l)), mkLazy (rhandshake l) (whandshake l) (protos l) (written l) (drop b (unread l)))
  end.
Definition lazy_Write (b : list Z) (l : lazyClientConn) : nat * lazyClientConn :=
  let '(n, l) := if whandshake l then (O, l) else doWriteHandshakeWithData b (rhandshakeDo l) in
  if (0 <? n)%nat then (n, l)
  else (length b, mkLazy (rhandshake l) (whandshake l) (protos l) (written l ++ b) (unread l)).
Definition lazy_Flush (l : lazyClientConn) : lazyClientConn :=
  if whandshake l then l else whandshakeDo (rhandshakeDo l).
Definition lazy_Close (l : lazyClientConn) : lazyClientConn := rhandshakeDo (lazy_Flush l).

(** ** Both sides over a network *)

(** What one side wrote and the other has not read: on the way, and arrived. *)
Record stream := mkStream { inflight : list Z; arrived : list Z }.
Definition send (out : list (list Z)) (s : stream) : stream :=
  mkStream (inflight s ++ delitmWriteAll out) (arrived s).
Definition deliver (k : nat) (s : stream) : stream :=
  mkStream (drop k (inflight s)) (arrived s ++ take k (inflight s)).

(** A read that would reach the end of what has arrived blocks. *)
Definition receive (s : stream) : option (result token_error (list Z) * stream) :=
  match ReadNextToken (arrived s) with
  | (Err (ErrTokenRead (EOF | ErrUnexpectedEOF)), _) => None
  | (tok, r) => Some (tok, mkStream (inflight s) r)
  end.

Record net {H : Type} := mkNet { cl : client; sv : server H; c2s : stream; s2c : stream }.
Arguments net : clear implicits.

Inductive net_step {H} (handlers : list (Handler H)) : net H -> net H -> Prop :=
| step_client_own c s x y c' out :
    client_own c = Some (c', out) -> net_step handlers (mkNet H c s x y) (mkNet H c' s (send out x) y)
| step_client_read c s x y tok y' c' out :
    reads_client c = true -> receive y = Some (tok, y') -> client_token c tok = (c', out) ->
    net_step handlers (mkNet H c s x y) (mkNet H c' s (send out x) y')
| step_server_start c x y :
    net_step handlers (mkNet H c SStart x y) (mkNet H c SHeader x (send [ProtocolID] y))
| step_server_read c s x y tok x' s' out :
    reads_server s = true -> receive x = Some (tok, x') -> server_token handlers s tok = (s', out) ->
    net_step handlers (mkNet H c s x y) (mkNet H c s' x' (send out y))
| step_deliver_c2s c s x y k :
    (0 < k <= length (inflight x))%nat -> net_step handlers (mkNet H c s x y) (mkNet H c s (deliver k x) y)
| step_deliver_s2c c s x y k :
    (0 < k <= length (inflight y))%nat -> net_step handlers (mkNet H c s x y) (mkNet H c s x (deliver k y)).

Definition net_start {H} (protos : list (list Z)) : net H :=
  mkNet H (SelectOneOf protos) SStart (mkStream [] []) (mkStream [] []).

(** ** Tokens are read back, and only whole *)

Definition token_ok (t : list Z) : Prop := (length t <= 1023)%nat.

Lemma delimWrite_spec t : token_ok t -> delimWrite t = uvarint (Z.of_nat (length t) + 1) ++ t ++ [newline].
Proof.
  intros Ht. unfold delimWrite, writeUvarint, token_ok in *. rewrite PutUvarint_spec.
  - cbn [default]. by rewrite take_app_length.
  - unfold uint64. lia.
  - rewrite length_replicate. pose proof (groups_short 10 (Z.of_nat (length t) + 1)). unfold uvarint. lia.
Qed.

(** A length prefix followed by [r]. *)
Lemma lpReadBuf_prefix k r :
  (k <= 1024)%nat ->
  lpReadBuf (uvarint (Z.of_nat k) ++ r) =
  if (k <=? length r)%nat then
    (if (k =? 0)%nat || negb (nth (k - 1) r 0 =? newline) then Err ErrNoNewline else Ok (take (k - 1) r), drop k r)
  else (Err (ErrTokenRead ErrUnexpectedEOF), []).
Proof.
  intros Hk. unfold lpReadBuf. rewrite ReadUvarint_app by lia. rewrite Z.gtb_ltb, (proj2 (Z.ltb_ge _ _)) by lia.
  rewrite Nat2Z.id. unfold ReadFull. destruct (Nat.leb_spec k (length r)).
  - cbv zeta. rewrite length_take_le by done. destruct k as [|k]; [done|]. cbn [Nat.eqb orb].
    assert (nth (S k - 1) (take (S k) r) 0 = nth (S k - 1) r 0) as ->.
    { rewrite <- (take_drop (S k) r) at 2. by rewrite app_nth1 by (rewrite length_take; lia). }
    rewrite take_take, Nat.min_l by lia. by destruct (negb _).
  - destruct (length r =? 0)%nat eqn:E; [|by rewrite drop_all]. apply Nat.eqb_eq in E. destruct r; done.
Qed.

Lemma lpReadBuf_delim t rest : token_ok t -> lpReadBuf (delimWrite t ++ rest) = (Ok t, rest).
Proof.
  intros Ht. rewrite delimWrite_spec by done. unfold token_ok in Ht.
  replace (Z.of_nat (length t) + 1) with (Z.of_nat (S (length t))) by lia.
  rewrite <- !app_assoc, lpReadBuf_prefix by lia. rewrite !length_app. cbn [length].
  rewrite (proj2 (Nat.leb_le _ _)) by lia. cbn [Nat.eqb orb]. replace (S (length t) - 1)%nat with (length t) by lia.
  cbn [app]. rewrite nth_middle. change (negb (newline =? newline)) with false. cbv iota. rewrite take_app_length, drop_app_ge by lia.
  by replace (S (length t) - length t)%nat with 1%nat by lia.
Qed.

(** The two lengths of prefix a token can have. *)
Lemma uvarint_short n : 0 <= n < 2 ^ 14 -> uvarint n = [n] \/ exists b, 128 <= b < 256 /\ uvarint n = [b; n / 128] /\ 0 < n / 128.
Proof.
  intros Hn. unfold uvarint. cbn [groups]. destruct (Z.ltb_spec n 128); [by left|]. right. exists (n mod 128 + 128).
  assert (0 < n / 128 < 128) by dlia. rewrite (proj2 (Z.ltb_lt _ _)) by lia. split; [dlia|]. split; [done|lia].
Qed.

(** A piece of a token is not read: the reader waits for the rest. *)
Lemma lpReadBuf_partial t a b :
  token_ok t -> a ++ b = delimWrite t -> b <> [] ->
  exists e r, lpReadBuf a = (Err (ErrTokenRead e), r) /\ (e = EOF \/ e = ErrUnexpectedEOF).
Proof.
  intros Ht E Hb. rewrite delimWrite_spec in E by done. unfold token_ok in Ht.
  set (k := S (length t)). replace (Z.of_nat (length t) + 1) with (Z.of_nat k) in E by lia.
  apply app_eq_inv in E as [(l & -> & E)|(l & E & Eb)].
  2: { destruct l as [|x l].
    + rewrite app_nil_r in E. subst a. rewrite <- (app_nil_r (uvarint _)), lpReadBuf_prefix by lia. by eauto 6.
    + destruct (uvarint_short (Z.of_nat k)) as [Eu|(c & Hc & Eu & _)]; [lia|..]; rewrite Eu in E.
      * destruct a as [|y a]; [|by destruct a]. unfold lpReadBuf. by eauto 6.
      * destruct a as [|y a]; [unfold lpReadBuf; by eauto 6|]. injection E as <- E.
        destruct a as [|z a]; [|by destruct a]. unfold lpReadBuf, ReadUvarint. cbn [read_loop].
        change (0 =? 56) with false. change (0 >=? 7 * MaxLenUvarint63) with false. cbn [andb orb].
        rewrite (proj2 (Z.ltb_ge _ _)) by lia. by eauto 6. }
  rewrite lpReadBuf_prefix by lia. rewrite (proj2 (Nat.leb_gt _ _)); [by eauto 6|].
  apply (f_equal length) in E. rewrite !length_app in E. cbn [length] in E. destruct b; [done|]. simpl in E. lia.
Qed.

(** ** Streams that carry whole tokens *)

Definition carries (s : stream) (toks : list (list Z)) : Prop := arrived s ++ inflight s = delitmWriteAll toks.

Lemma delitmWriteAll_app l k : delitmWriteAll (l ++ k) = delitmWriteAll l ++ delitmWriteAll k.
Proof. unfold delitmWriteAll. by rewrite map_app, concat_app. Qed.

Lemma carries_send s toks out : carries s toks -> carries (send out s) (toks ++ out).
Proof. unfold carries. simpl. intros E. by rewrite delitmWriteAll_app, <- E, app_assoc. Qed.

Lemma carries_deliver s toks k : carries s toks -> carries (deliver k s) toks.
Proof. unfold carries. simpl. intros <-. by rewrite <- app_assoc, take_drop. Qed.

Lemma carries_empty s : carries s [] -> s = mkStream [] [].
Proof. unfold carries. destruct s. simpl. intros [-> ->]%app_eq_nil. done. Qed.

Lemma receive_delim t a f : token_ok t -> receive (mkStream f (delimWrite t ++ a)) = Some (Ok t, mkStream f a).
Proof. intros Ht. unfold receive, ReadNextToken. cbn [arrived inflight]. by rewrite lpReadBuf_delim. Qed.

(** A read takes the first token, once all of it has arrived. *)
Lemma carries_receive s toks tok s' :
  Forall token_ok toks -> carries s toks -> receive s = Some (tok, s') ->
  exists t ts, toks = t :: ts /\ tok = Ok t /\ carries s' ts.
Proof.
  destruct s as [f a]. unfold carries. cbn [arrived inflight]. intros Hts E Hr. destruct toks as [|t ts].
  - by apply app_eq_nil in E as [-> _].
  - apply Forall_cons in Hts as [Ht _]. cbn in E. fold (delitmWriteAll ts) in E. apply app_eq_inv in E as [(l & -> & E)|(l & E & El)].
    + rewrite receive_delim in Hr by done. injection Hr as <- <-. by eauto.
    + destruct l as [|x l].
      * rewrite app_nil_r in E. subst a. rewrite <- (app_nil_r (delimWrite t)), receive_delim in Hr by done.
        injection Hr as <- <-. by eauto.
      * destruct (lpReadBuf_partial t a (x :: l)) as (e & r & Er & He); [done..|]. unfold receive, ReadNextToken in Hr.
        cbn [arrived] in Hr. rewrite Er in Hr. by destruct He as [-> | ->].
Qed.

Lemma carries_ready s t ts :
  token_ok t -> carries s (t :: ts) -> inflight s = [] -> exists s', receive s = Some (Ok t, s').
Proof.
  destruct s as [f a]. unfold carries. cbn. intros Ht E ->. rewrite app_nil_r in E. subst a. rewrite receive_delim by done. by eauto.
Qed.

(** ** The outcome of a negotiation *)

Section negotiation.
Context {H : Type} (handlers : list (Handler H)) (all : list (list Z)).

Fixpoint first_supported (ps : list (list Z)) : option (list Z * H) :=
  match ps with
  | [] => None
  | p :: ps => match findHandler handlers p with Some h => Some (p, Handle h) | None => first_supported ps end
  end.

(** Where the two sides should be at the end. *)
Definition agreed : net H :=
  match first_supported all with
  | Some (p, h) => mkNet H (CDone (Ok p)) (SDone p h) (mkStream [] []) (mkStream [] [])
  | None => mkNet H (CDone (Err (ErrNotSupported all))) SLoop (mkStream [] []) (mkStream [] [])
  end.

Definition reply (p : list Z) : list Z := match findHandler handlers p with Some _ => p | None => na end.
Definition answered (p : list Z) : server H := match findHandler handlers p with Some h => SDone p (Handle h) | None => SLoop end.
Definition requested (w : bool) (p : list Z) : list (list Z) := if w then [ProtocolID; p] else [].
Definition said (s : bool) (k : nat) (p : list Z) : list (list Z) := if s then ProtocolID :: (if (k =? 2)%nat then [reply p] else []) else [].
Definition at_server (s : bool) (k : nat) (p : list Z) : server H :=
  match s, k with false, _ => SStart | true, O => SHeader | true, 1%nat => SLoop | true, _ => answered p end.
Definition outcomes (p : list Z) (m : nat) : list (option select_error) := take m [None; readProto p (Ok (reply p))].

(** The states two sides go through, and the tokens between them: [k] is the number of
    tokens of the first request the server has read, [m] that of the answers the client
    has read. *)
Inductive between : client -> server H -> list (list Z) -> list (list Z) -> Prop :=
| between_first p rest w s k m :
    all = p :: rest -> (k <= length (requested w p))%nat -> ((0 < k)%nat -> s = true) -> (m <= length (said s k p))%nat ->
    between (CFirst all p rest w (outcomes p m)) (at_server s k p) (drop k (requested w p)) (drop m (said s k p))
| between_asked p rest :
    p ∈ all -> first_supported all = first_supported (p :: rest) -> (forall q, q ∈ rest -> q ∈ all) ->
    between (CTry all p rest) SLoop [p] []
| between_answered p rest :
    p ∈ all -> first_supported all = first_supported (p :: rest) -> (forall q, q ∈ rest -> q ∈ all) ->
    between (CTry all p rest) (answered p) [] [reply p]
| between_selected p h :
    first_supported all = Some (p, h) -> between (CDone (Ok p)) (SDone p h) [] []
| between_none : first_supported all = None -> between (CDone (Err (ErrNotSupported all))) SLoop [] [].

Definition weight (c : client) (s : server H) (cs sc : list (list Z)) : nat :=
  (match c with
   | CFirst _ _ rest w _ => (if w then 0 else 8) + 2 + 5 * length rest
   | CTry _ _ rest => 1 + 5 * length rest
   | CDone _ => 0
   end + match s with SStart => 2 | _ => 0 end + 3 * length cs + length sc)%nat.

Hypothesis names : forall p, p ∈ all -> token_ok p /\ p <> na.

Lemma readProto_reply p :
  p <> na -> readProto p (Ok (reply p)) = match findHandler handlers p with Some _ => None | None => Some (ErrNotSupported [p]) end.
Proof.
  intros Hp. unfold readProto, reply. destruct (findHandler handlers p); [by rewrite bool_decide_true|].
  rewrite bool_decide_false by done. by rewrite bool_decide_true.
Qed.

(** The client moves on after the answer to [p]. *)
Lemma between_after p rest c' out :
  p ∈ all -> first_supported all = first_supported (p :: rest) -> (forall q, q ∈ rest -> q ∈ all) ->
  after_try all p rest (readProto p (Ok (reply p))) = (c', out) ->
  between c' (answered p) out [] /\ (weight c' (answered p) out [] < 5 * length rest + 1)%nat.
Proof.
  intros Hp Hf Hr. destruct (names p Hp) as [_ Hna]. rewrite readProto_reply by done. unfold answered, weight. cbn [first_supported] in Hf.
  destruct (findHandler handlers p) as [h|] eqn:E; cbn [after_try].
  - intros [= <- <-]. split; [by constructor|simpl; lia].
  - destruct rest as [|q rest]; cbn [select_next]; intros [= <- <-].
    + split; [by constructor|simpl; lia].
    + split; [|simpl; lia]. constructor; [apply Hr; by left|done|]. intros x Hx. apply Hr. by right.
Qed.

(** The first request, with its parameters made concrete. *)
Ltac first_cases k m :=
  destruct k as [|[|[|k]]]; destruct m as [|[|[|m]]]; simpl in *; try lia; try done.

Lemma between_own c s cs sc c' out :
  between c s cs sc -> client_own c = Some (c', out) ->
  between c' s (cs ++ out) sc /\ (weight c' s (cs ++ out) sc < weight c s cs sc)%nat.
Proof.
  intros Hb. destruct Hb as [p rest w st k m Ha Hk Hs Hm|p rest Hp Hf Hr|p rest Hp Hf Hr|p h Hf|Hf]; try done.
  destruct w; cbn [client_own].
  - destruct (outcomes p m) as [|e1 [|e2 [|]]] eqn:Eo; try done.
    assert (m = 2%nat /\ k = 2%nat /\ st = true) as (-> & -> & ->) by (destruct st; first_cases k m).
    injection Eo as <- <-. intros [= E]. rewrite app_nil_l. cbn [at_server drop said requested Nat.eqb].
    apply between_after in E; [|rewrite Ha; by left|by rewrite Ha|rewrite Ha; by right].
    destruct E as [E1 E2]. split; [done|]. unfold weight in *. simpl in *. lia.
  - assert (k = O) as -> by (simpl in Hk; lia). intros [= <- <-]. split; [|unfold weight; simpl; lia].
    apply (between_first p rest true st 0 m); [done|simpl; lia|lia|done].
Qed.

Lemma between_client_read c s cs t sc c' out :
  between c s cs (t :: sc) -> reads_client c = true -> client_token c (Ok t) = (c', out) ->
  between c' s (cs ++ out) sc /\ (weight c' s (cs ++ out) sc < weight c s cs (t :: sc))%nat.
Proof.
  intros Hb. inversion Hb as [p rest w st k m Ha Hk Hs Hm E1 E2 E3 Et|?|p rest Hp Hf Hr|?|?]; subst; intros _ E.
  - rewrite Et. assert (m < length (said st k p))%nat.
    { apply (f_equal length) in Et. rewrite length_drop in Et. simpl in Et. lia. }
    assert (c' = CFirst all p rest w (outcomes p (S m)) /\ out = []) as [-> ->].
    { destruct st; [|simpl in *; lia]. destruct m as [|[|m]]; simpl in E, Et; [..|exfalso; simpl in *; case_match; simpl in *; lia].
      - injection Et as <- _. injection E as <- <-. done.
      - destruct (k =? 2)%nat; [|done]. injection Et as <- _. by injection E as <- <-. }
    rewrite app_nil_r. assert (sc = drop (S m) (said st k p)) as ->.
    { change (S m) with (1 + m)%nat. rewrite Nat.add_comm, <- drop_drop, Et. done. }
    split; [by constructor|]. unfold weight. simpl. lia.
  - cbn [client_token] in E. apply between_after in E as [E1 E2]; [|done..]. split; [done|]. unfold weight in *. simpl in *. lia.
Qed.

Lemma between_start c cs sc :
  between c SStart cs sc ->
  between c SHeader cs (sc ++ [ProtocolID]) /\ (weight c SHeader cs (sc ++ [ProtocolID]) < weight c SStart cs sc)%nat.
Proof.
  intros Hb. inversion Hb as [p rest w st k m Ha Hk Hs Hm E1 E2 E3 Et| |p rest Hp Hf Hr E0 E| |]; subst.
  - assert (st = false) as ->. { destruct st; [|done]. unfold at_server, answered in E2. destruct k as [|[|]]; try done. by case_match. }
    assert (k = O) as -> by (destruct k; [done|]; by specialize (Hs ltac:(lia))). assert (m = O) as -> by (simpl in Hm; lia).
    split; [|unfold weight; simpl; lia]. apply (between_first p rest w true 0 0); [done|lia|lia|simpl; lia].
  - exfalso. unfold answered in E. by case_match.
Qed.

Lemma server_token_reply t : server_token handlers SLoop (Ok t) = (answered t, [reply t]).
Proof. unfold server_token, answered, reply. by destruct (findHandler handlers t). Qed.

Lemma between_server_read c s t cs sc s' out :
  between c s (t :: cs) sc -> reads_server s = true -> server_token handlers s (Ok t) = (s', out) ->
  between c s' cs (sc ++ out) /\ (weight c s' cs (sc ++ out) < weight c s (t :: cs) sc)%nat.
Proof.
  intros Hb. inversion Hb as [p rest w st k m Ha Hk Hs Hm E1 E2 E3 Et|p rest Hp Hf Hr| | |]; subst; intros Hrd E.
  - destruct w; [|by destruct k]. destruct st; [|done].
    destruct k as [|[|k]]; [| |destruct k; simpl in E3; done]; injection E3 as <- <-.
    + cbn in E. rewrite bool_decide_true in E by done. injection E as <- <-. rewrite app_nil_r.
      split; [|unfold weight; simpl; lia]. apply (between_first p rest true true 1 m); [done|simpl; lia|done|done].
    + cbn [at_server] in E. rewrite server_token_reply in E. injection E as <- <-.
      split; [|unfold weight, answered; rewrite length_app; destruct (findHandler handlers p); simpl; lia].
      assert (drop m (said true 1 p) ++ [reply p] = drop m (said true 2 p)) as ->.
      { simpl in Hm. destruct m as [|[|m]]; [done..|lia]. }
      apply (between_first p rest true true 2 m); [done|simpl; lia|done|simpl in *; lia].
  - rewrite server_token_reply in E. injection E as <- <-.
    split; [by constructor|]. unfold weight, answered. destruct (findHandler handlers t); simpl; lia.
Qed.

Lemma between_tokens c s cs sc : between c s cs sc -> Forall token_ok cs /\ Forall token_ok sc.
Proof.
  assert (token_ok ProtocolID /\ token_ok na) as [Hpid Hna] by (unfold token_ok; split; simpl; lia).
  assert (forall p, p ∈ all -> token_ok p /\ token_ok (reply p)) as Hok.
  { intros p Hp. destruct (names p Hp). unfold reply. split; [done|]. by destruct (findHandler handlers p). }
  intros Hb. destruct Hb as [p rest w st k m Ha|p rest Hp|p rest Hp| |]; [|destruct (Hok p Hp); by auto using Forall_cons, Forall_nil..|done|done].
  destruct (Hok p) as [Hp1 Hp2]; [rewrite Ha; by left|]. split; apply Forall_drop.
  - destruct w; simpl; by auto using Forall_cons, Forall_nil.
  - destruct st; [|done]. simpl. destruct (k =? 2)%nat; by auto using Forall_cons, Forall_nil.
Qed.

(** The invariant of the network, and its two measures: the tokens still to be handled and
    the bytes on the way. *)
Definition holds (n : net H) (cs sc : list (list Z)) : Prop :=
  between (cl n) (sv n) cs sc /\ carries (c2s n) cs /\ carries (s2c n) sc.
Definition underway (n : net H) : nat := (length (inflight (c2s n)) + length (inflight (s2c n)))%nat.

Lemma holds_step n n' cs sc :
  holds n cs sc -> net_step handlers n n' ->
  exists cs' sc', holds n' cs' sc' /\
    ((weight (cl n') (sv n') cs' sc' < weight (cl n) (sv n) cs sc)%nat \/
     (weight (cl n') (sv n') cs' sc' = weight (cl n) (sv n) cs sc /\ underway n' < underway n)%nat).
Proof.
  intros (Hb & Hx & Hy) Hs. destruct (between_tokens _ _ _ _ Hb) as [Hcs Hsc].
  destruct Hs as [c s x y c' out E|c s x y tok y' c' out Hr E Et|c x y|c s x y tok x' s' out Hr E Et|c s x y k Hk|c s x y k Hk]; cbn in *.
  - destruct (between_own _ _ _ _ _ _ Hb E) as [H1 H2]. exists (cs ++ out), sc. split; [|by left].
    split; [done|]. split; [by apply carries_send|done].
  - destruct (carries_receive _ _ _ _ Hsc Hy E) as (t & ts & -> & -> & Hy').
    destruct (between_client_read _ _ _ _ _ _ _ Hb Hr Et) as [H1 H2]. exists (cs ++ out), ts. split; [|by left].
    split; [done|]. split; [by apply carries_send|done].
  - destruct (between_start _ _ _ Hb) as [H1 H2]. exists cs, (sc ++ [ProtocolID]). split; [|by left].
    split; [done|]. split; [done|by apply carries_send].
  - destruct (carries_receive _ _ _ _ Hcs Hx E) as (t & ts & -> & -> & Hx').
    destruct (between_server_read _ _ _ _ _ _ _ Hb Hr Et) as [H1 H2]. exists ts, (sc ++ out). split; [|by left].
    split; [done|]. split; [done|by apply carries_send].
  - exists cs, sc. split; [split; [done|]; split; [by apply carries_deliver|done]|]. right. split; [done|].
    unfold underway. cbn. rewrite length_drop. lia.
  - exists cs, sc. split; [split; [done|]; split; [done|by apply carries_deliver]|]. right. split; [done|].
    unfold underway. cbn. rewrite length_drop. lia.
Qed.

(** Runs are finite. *)
Lemma holds_sn n cs sc : holds n cs sc -> sn (net_step handlers) n.
Proof.
  remember (weight (cl n) (sv n) cs sc) as w eqn:Ew. revert n cs sc Ew.
  induction w as [w IHw] using lt_wf_ind. intros n. remember (underway n) as u eqn:Eu. revert n Eu.
  induction u as [u IHu] using lt_wf_ind. intros n Eu cs sc Ew Hn. constructor. intros n' Hs. unfold flip in Hs.
  destruct (holds_step _ _ _ _ Hn Hs) as (cs' & sc' & Hn' & [Hlt|[Heq Hlt]]).
  - eapply (IHw _ ltac:(rewrite Ew; exact Hlt)); [reflexivity|exact Hn'].
  - eapply (IHu (underway n') ltac:(lia) n' eq_refl cs' sc'); [by rewrite Heq|done].
Qed.

Lemma holds_reach n n' cs sc : holds n cs sc -> rtc (net_step handlers) n n' -> exists cs sc, holds n' cs sc.
Proof.
  intros Hn Hr. revert cs sc Hn. induction Hr as [n|n n1 n2 Hs _ IH]; intros cs sc Hn; [by eauto|].
  destruct (holds_step _ _ _ _ Hn Hs) as (cs' & sc' & Hn' & _). by eapply IH.
Qed.

(** What stops a side that is not at the end. *)
Lemma holds_final n cs sc : holds n cs sc -> nf (net_step handlers) n -> n = agreed.
Proof.
  destruct n as [c s x y]. intros (Hb & Hx & Hy) Hnf. cbn in *. destruct (between_tokens _ _ _ _ Hb) as [Hcs Hsc].
  assert (forall n', ~ net_step handlers (mkNet H c s x y) n') as Hstuck by (intros n' Hn'; apply Hnf; by exists n').
  assert (inflight x = []) as Hix.
  { destruct (inflight x) eqn:E; [done|]. destruct (Hstuck _ (step_deliver_c2s _ _ _ _ _ 1 ltac:(rewrite E; simpl; lia))). }
  assert (inflight y = []) as Hiy.
  { destruct (inflight y) eqn:E; [done|]. destruct (Hstuck _ (step_deliver_s2c _ _ _ _ _ 1 ltac:(rewrite E; simpl; lia))). }
  assert (reads_client c = true -> sc = []) as Hc.
  { intros Hr. destruct sc as [|t ts]; [done|]. apply Forall_cons in Hsc as [Ht _]. destruct (carries_ready _ _ _ Ht Hy Hiy) as [y' Ey].
    destruct (client_token c (Ok t)) as [c' out] eqn:E. destruct (Hstuck _ (step_client_read _ _ _ _ _ _ _ _ _ Hr Ey E)). }
  assert (reads_server s = true -> cs = []) as Hs.
  { intros Hr. destruct cs as [|t ts]; [done|]. apply Forall_cons in Hcs as [Ht _]. destruct (carries_ready _ _ _ Ht Hx Hix) as [x' Ex].
    destruct (server_token handlers s (Ok t)) as [s' out] eqn:E. destruct (Hstuck _ (step_server_read _ _ _ _ _ _ _ _ _ Hr Ex E)). }
  assert (client_own c = None) as Ho.
  { destruct (client_own c) as [[c' out]|] eqn:E; [|done]. destruct (Hstuck _ (step_client_own _ _ _ _ _ _ _ E)). }
  assert (s <> SStart) as Hst by (intros ->; destruct (Hstuck _ (step_server_start _ _ _ _))).
  clear Hstuck Hnf Hcs Hsc. unfold agreed.
  destruct Hb as [p rest w st k m Ha Hk Hs' Hm|p rest Hp Hf Hr|p rest Hp Hf Hr|p h Hf|Hf].
  - exfalso. destruct w; [|done]. destruct st; [|done].
    destruct k as [|[|[|k]]]; [by specialize (Hs eq_refl)..| |simpl in Hk; lia].
    destruct m as [|[|[|m]]]; [by specialize (Hc eq_refl)..|done|simpl in Hm; lia].
  - by specialize (Hs eq_refl).
  - by specialize (Hc eq_refl).
  - rewrite Hf. by rewrite (carries_empty x), (carries_empty y).
  - rewrite Hf. by rewrite (carries_empty x), (carries_empty y).
Qed.

Lemma agreed_nf : nf (net_step handlers) agreed.
Proof.
  unfold agreed. intros [n Hs]. destruct (first_supported all) as [[p h]|]; inversion Hs; subst; simpl in *; try done; try lia.
Qed.

Lemma holds_start : all <> [] -> exists cs sc, holds (net_start all) cs sc.
Proof.
  intros Ha. unfold net_start, SelectOneOf. destruct all as [|p rest] eqn:E; [done|]. exists [], []. split; [|done]. cbn.
  rewrite <- E. apply (between_first p rest false false 0 0); [done|simpl; lia|lia|simpl; lia].
Qed.
End negotiation.

(** ** The muxer as a map *)

Section mux_map.
Context {H : Type}.

(** The calls that register handlers by name. *)
Inductive mux_op := OpAdd (protocol : list Z) (handler : H) | OpRemove (protocol : list Z).
Definition mux_apply (handlers : list (Handler H)) (op : mux_op) : list (Handler H) :=
  match op with OpAdd p h => AddHandler p h handlers | OpRemove p => removeHandler p handlers end.
Definition map_apply (m : gmap (list Z) H) (op : mux_op) : gmap (list Z) H :=
  match op with OpAdd p h => <[p := h]> m | OpRemove p => delete p m end.

Definition by_name (handlers : list (Handler H)) : Prop :=
  NoDup (mux_Protocols handlers) /\ Forall (fun h => forall q, MatchFunc h q = bool_decide (q = AddName h)) handlers.

Lemma removeHandler_names p (hs : list (Handler H)) : mux_Protocols (removeHandler p hs) ⊆ mux_Protocols hs.
Proof. induction hs as [|h hs IH]; simpl; [done|]. case_bool_decide; simpl; set_solver. Qed.

Lemma removeHandler_spec p (hs : list (Handler H)) :
  by_name hs ->
  by_name (removeHandler p hs) /\ p ∉ mux_Protocols (removeHandler p hs) /\
  forall q, findHandler (removeHandler p hs) q = if bool_decide (q = p) then None else findHandler hs q.
Proof.
  unfold by_name. induction hs as [|h hs IH]; simpl; intros [Hn Hm].
  { split; [done|]. split; [set_solver|]. intros q. by case_match. }
  apply NoDup_cons in Hn as [Hh Hn]. apply Forall_cons in Hm as [Hq Hm]. destruct (IH (conj Hn Hm)) as ((Hn' & Hm') & Hp & Hf).
  case_bool_decide as E.
  - subst p. split; [done|]. split; [done|]. intros q. rewrite Hq. case_bool_decide; [|done]. subst q.
    clear -Hh Hm. induction hs as [|h' hs IH]; [done|]. simpl in *. apply Forall_cons in Hm as [Hq' Hm]. rewrite Hq'.
    rewrite bool_decide_false by set_solver. apply IH; [set_solver|done].
  - simpl. pose proof (removeHandler_names p hs). split; [|split].
    + split; [apply NoDup_cons; split; [set_solver|done]|by apply Forall_cons].
    + set_solver.
    + intros q. rewrite Hq, Hf. case_bool_decide; [|done]. subst q. by rewrite bool_decide_false by done.
Qed.

Lemma findHandler_app (hs ks : list (Handler H)) q :
  findHandler (hs ++ ks) q = match findHandler hs q with Some h => Some h | None => findHandler ks q end.
Proof. induction hs as [|h hs IH]; simpl; [done|]. by destruct (MatchFunc h q). Qed.

Lemma AddHandler_spec p h (hs : list (Handler H)) :
  by_name hs ->
  by_name (AddHandler p h hs) /\
  forall q, (Handle <$> findHandler (AddHandler p h hs) q) = if bool_decide (q = p) then Some h else Handle <$> findHandler hs q.
Proof.
  intros Hn. destruct (removeHandler_spec p hs Hn) as ((Hn' & Hm') & Hp & Hf). unfold AddHandler, AddHandlerWithFunc. split.
  - split.
    + unfold mux_Protocols in *. rewrite map_app. apply NoDup_app. split; [done|]. split; [set_solver|apply NoDup_singleton].
    + apply Forall_app. split; [done|]. by apply Forall_singleton.
  - intros q. rewrite findHandler_app, Hf. simpl. unfold fulltextMatch. case_bool_decide; [done|]. by destruct (findHandler hs q).
Qed.

Lemma mux_apply_all ops : forall hs m,
  by_name hs -> (forall q, Handle <$> findHandler hs q = m !! q) ->
  by_name (foldl mux_apply hs ops) /\ forall q, Handle <$> findHandler (foldl mux_apply hs ops) q = foldl map_apply m ops !! q.
Proof.
  induction ops as [|op ops IH]; intros hs m Hn Hm; [done|]. simpl. apply IH; destruct op as [p h|p]; simpl.
  - by apply AddHandler_spec.
  - by apply removeHandler_spec.
  - intros q. rewrite (proj2 (AddHandler_spec p h hs Hn)), Hm. case_bool_decide; [subst; by rewrite lookup_insert_eq|].
    by rewrite lookup_insert_ne by done.
  - intros q. destruct (removeHandler_spec p hs Hn) as (_ & _ & ->). case_bool_decide; [subst; by rewrite lookup_delete_eq|].
    by rewrite lookup_delete_ne by done.
Qed.
End mux_map.

(** ** Theorems *)

(** C25: Client and server agree, in every interleaving of their steps and every way the
    network splits what they write.  Every run is finite.  A state reached from the start is
    final exactly if the client has returned the first protocol of its list that the server
    has a handler for, the server has returned the same protocol with that handler, and
    nothing is left unread; or, when there is none, the client has returned
    [ErrNotSupported] with the whole list and the server waits for another request. *)
Theorem negotiation_completes {H} (handlers : list (Handler H)) ps :
  ps <> [] -> (forall p, p ∈ ps -> token_ok p /\ p <> na) ->
  sn (net_step handlers) (net_start ps) /\
  forall n, rtc (net_step handlers) (net_start ps) n -> (nf (net_step handlers) n <-> n = agreed handlers ps).
Proof.
  intros Hps Hn. destruct (holds_start handlers ps Hn Hps) as (cs & sc & Hs). split; [by eapply holds_sn|].
  intros n Hr. split; [|intros ->; apply agreed_nf].
  destruct (holds_reach _ _ Hn _ _ _ _ Hs Hr) as (cs' & sc' & Hn'). by eapply holds_final.
Qed.

(** A token is read exactly from its delimited form: at most 1023 bytes, the length with the
    newline in front, and the newline; the rest of the stream is not touched. *)
Theorem token_exact r t rest :
  bytes_ok r -> (ReadNextToken r = (Ok t, rest) <-> token_ok t /\ r = delimWrite t ++ rest).
Proof.
  intros Hb. split; [|intros [Ht ->]; by apply lpReadBuf_delim]. unfold ReadNextToken. intros E. assert (E' := E). revert E'.
  unfold lpReadBuf at 1. destruct (ReadUvarint r) as [[len|e] r'] eqn:Er; [|done]. destruct (ReadUvarint_inv _ _ _ Hb Er) as [Hl ->].
  destruct (len >? 1024) eqn:Eg; [done|]. rewrite Z.gtb_ltb in Eg. apply Z.ltb_ge in Eg. intros _. revert E.
  rewrite <- (Z2Nat.id len) by lia. generalize (Z.to_nat len) (ltac:(lia) : (Z.to_nat len <= 1024)%nat). clear len Er Hl Eg Hb.
  intros k Hk. rewrite lpReadBuf_prefix by done. destruct (Nat.leb_spec k (length r')) as [Hle|]; [|done].
  destruct k as [|k]; [done|]. cbn [Nat.eqb orb]. replace (S k - 1)%nat with k by lia. destruct (Z.eqb_spec (nth k r' 0) newline) as [En|]; [|done].
  cbn [negb]. intros E. assert (t = take k r') as -> by (by injection E). assert (rest = drop (S k) r') as -> by (by injection E).
  assert (token_ok (take k r')) by (unfold token_ok; rewrite length_take; lia). split; [done|].
  rewrite delimWrite_spec, length_take_le by (done || lia). replace (Z.of_nat k + 1) with (Z.of_nat (S k)) by lia.
  rewrite <- !app_assoc. f_equal. rewrite <- (take_drop k r') at 1. f_equal. cbn [app].
  rewrite (drop_S r' newline k); [done|]. rewrite <- En. destruct (nth_lookup_or_length r' k 0); [done|lia].
Qed.

(** A muxer whose handlers are added and removed by name is a map: whatever the calls, the
    handler found for a protocol is the one last added for it and not removed since, and
    no name is listed twice. *)
Theorem mux_refines_map {H} (ops : list (mux_op (H:=H))) q :
  Handle <$> findHandler (foldl mux_apply [] ops) q = foldl map_apply ∅ ops !! q /\
  NoDup (mux_Protocols (foldl mux_apply [] ops)).
Proof.
  destruct (mux_apply_all ops [] ∅) as [[Hn _] Hm]; [by split; constructor|intros q'; by rewrite lookup_empty|]. by split.
Qed.

(** ** The server on its own, and the lazy client *)

Lemma read_loop_consumes r : forall s x v rest, read_loop r s x = (Ok v, rest) -> (length rest < length r)%nat.
Proof.
  induction r as [|b r IH]; intros s x v rest; simpl; [done|]. repeat case_match; intros E; try done.
  - injection E as _ <-. lia.
  - apply IH in E. lia.
Qed.

Lemma token_consumes r t rest : ReadNextToken r = (Ok t, rest) -> (length rest < length r)%nat.
Proof.
  unfold ReadNextToken, lpReadBuf, ReadUvarint. destruct (read_loop r 0 0) as [[len|e] r'] eqn:Er; [|done].
  apply read_loop_consumes in Er. destruct (len >? 1024); [done|]. destruct (ReadFull _ _) as [n [e|]]; [done|].
  cbv zeta. destruct (_ || _); [done|]. intros [= _ <-]. rewrite length_drop. lia.
Qed.

Lemma negotiate_loop_ends {H} (handlers : list (Handler H)) fuel : forall s r,
  (length r < fuel)%nat -> reads_server (negotiate_loop handlers fuel s r).1.2 = false.
Proof.
  induction fuel as [|fuel IH]; intros s r Hf; [lia|]. simpl. destruct (reads_server s) eqn:Es; [|done].
  destruct (ReadNextToken r) as [tok rest] eqn:Et. destruct (server_token handlers s tok) as [s' out] eqn:E.
  destruct (negotiate_loop handlers fuel s' rest) as [[w s''] rest'] eqn:El. cbn.
  destruct tok as [t|e].
  - apply token_consumes in Et. specialize (IH s' rest ltac:(lia)). by rewrite El in IH.
  - assert (s' = SFail (ErrNegotiateToken e) false) as -> by (destruct s; by injection E). by destruct fuel; injection El as _ <- _.
Qed.

Lemma negotiate_loop_token {H} (handlers : list (Handler H)) fuel s t rest :
  token_ok t -> reads_server s = true ->
  negotiate_loop handlers (S fuel) s (delimWrite t ++ rest) =
  let '(s', out) := server_token handlers s (Ok t) in
  let '(w, s'', rest') := negotiate_loop handlers fuel s' rest in (delitmWriteAll out ++ w, s'', rest').
Proof. intros Ht Hs. simpl. rewrite Hs. unfold ReadNextToken. by rewrite lpReadBuf_delim. Qed.

Lemma delimWrite_nonempty t : (0 < length (delimWrite t))%nat.
Proof. unfold delimWrite. rewrite !length_app. simpl. lia. Qed.

Lemma token_ok_ProtocolID : token_ok ProtocolID.
Proof. unfold token_ok. simpl. lia. Qed.

(** After the two requests of a client the server has answered the second. *)
Lemma Negotiate_request {H} (handlers : list (Handler H)) p data :
  token_ok p ->
  exists fuel, Negotiate handlers (delitmWriteAll [ProtocolID; p] ++ data) =
  let '(w, s, rest) := negotiate_loop handlers fuel (answered handlers p) data in
  (delitmWriteAll [ProtocolID; reply handlers p] ++ w, s, rest).
Proof.
  intros Hp. unfold Negotiate. remember (delitmWriteAll [ProtocolID; p] ++ data) as r eqn:Er.
  assert (exists fuel, length r = S fuel) as [fuel Ef].
  { rewrite Er. exists (pred (length (delitmWriteAll [ProtocolID; p] ++ data))). cbn [delitmWriteAll map concat]. rewrite !length_app.
    pose proof (delimWrite_nonempty ProtocolID). lia. }
  exists fuel. rewrite Ef, Er. unfold delitmWriteAll. cbn [map concat]. rewrite app_nil_r, <- app_assoc.
  rewrite negotiate_loop_token by (done || apply token_ok_ProtocolID). unfold server_token at 1. rewrite bool_decide_true by done.
  rewrite negotiate_loop_token by done. rewrite server_token_reply.
  destruct (negotiate_loop handlers fuel (answered handlers p) data) as [[w s] rest]. unfold delitmWriteAll. cbn [map concat].
  by rewrite !app_nil_r, app_nil_l, app_assoc.
Qed.

(** [Negotiate] returns whatever bytes the client sends before the stream ends. *)
Theorem Negotiate_total {H} (handlers : list (Handler H)) r :
  exists w rest,
    (exists p h, Negotiate handlers r = (w, SDone p h, rest)) \/ (exists e closed, Negotiate handlers r = (w, SFail e closed, rest)).
Proof.
  unfold Negotiate. pose proof (negotiate_loop_ends handlers (S (length r)) SHeader r ltac:(lia)) as He.
  assert (forall fuel s r', s <> SStart -> (negotiate_loop handlers fuel s r').1.2 <> SStart) as Hns.
  { induction fuel as [|fuel IH]; intros s r' Hs; [done|]. simpl. destruct (reads_server s) eqn:Er; [|done].
    destruct (ReadNextToken r') as [tok rest]. destruct (server_token handlers s tok) as [s' out] eqn:E.
    specialize (IH s' rest). destruct (negotiate_loop handlers fuel s' rest) as [[w s''] rest']. cbn in *. apply IH. intros ->.
    unfold server_token in E. by repeat case_match. }
  specialize (Hns (S (length r)) SHeader r ltac:(done)).
  destruct (negotiate_loop handlers (S (length r)) SHeader r) as [[w s] rest]. cbn in *. do 2 eexists. destruct s; try done; eauto.
Qed.

Lemma doReadHandshake_reply p q rest :
  token_ok q -> p <> na ->
  doReadHandshake [ProtocolID; p] (delitmWriteAll [ProtocolID; q] ++ rest) =
  (if bool_decide (q = na) then Some (ErrLazyNotSupported p)
   else if bool_decide (q = p) then None else Some (ErrLazyMismatch q p), rest).
Proof.
  intros Hq Hp. unfold delitmWriteAll. cbn [map concat doReadHandshake]. unfold ReadNextToken. rewrite app_nil_r, <- app_assoc.
  rewrite lpReadBuf_delim by apply token_ok_ProtocolID. rewrite (bool_decide_false (ProtocolID = na)) by done.
  rewrite (bool_decide_true (ProtocolID = ProtocolID)) by done. cbn [negb]. rewrite lpReadBuf_delim by done.
  case_bool_decide; [done|]. by case_bool_decide.
Qed.

(** The lazy client against the server: [Write] sends the handshake with the data in one
    go, before any answer.  If the server has a handler for the protocol it is left with
    exactly the data, and the client reads past the handshake to what the handler sends.
    If not, the server has answered [na] and every [Read] of the client fails with
    [ErrNotSupported]. *)
Theorem lazy_exchange {H} (handlers : list (Handler H)) p data answer b :
  token_ok p -> p <> na -> answer <> [] -> (0 < b)%nat ->
  let served := Negotiate handlers (lazy_Write data (NewMSSelect p [])).2.(written) in
  let l := (lazy_Write data (NewMSSelect p (served.1.1 ++ answer))).2 in
  (lazy_Write data (NewMSSelect p [])).1 = length data /\
  match findHandler handlers p with
  | Some h => served = (delitmWriteAll [ProtocolID; p], SDone p (Handle h), data) /\ (lazy_Read b l).1 = Ok (take b answer)
  | None => (exists more, served.1.1 = delitmWriteAll [ProtocolID; na] ++ more) /\ (lazy_Read b l).1 = Err (ErrLazyNotSupported p)
  end.
Proof.
  intros Hp Hna Ha Hb.
  assert (forall r, (lazy_Write data (NewMSSelect p r)) =
    (length data, mkLazy (Some (doReadHandshake [ProtocolID; p] r).1) true [ProtocolID; p] (delitmWriteAll [ProtocolID; p] ++ data)
                         (doReadHandshake [ProtocolID; p] r).2)) as Hw.
  { intros r. unfold lazy_Write, NewMSSelect, rhandshakeDo. cbn [whandshake rhandshake protos unread written].
    destruct (doReadHandshake [ProtocolID; p] r) as [e r']. unfold doWriteHandshakeWithData. cbn [whandshake rhandshake protos unread written fst snd].
    rewrite app_nil_l. destruct data; [|done]. simpl. by rewrite !app_nil_r. }
  cbv zeta. rewrite !Hw. cbn [fst snd written]. split; [done|].
  destruct (Negotiate_request handlers p data Hp) as [fuel En]. unfold reply, answered in En.
  destruct (findHandler handlers p) as [h|] eqn:Eh.
  - assert (negotiate_loop handlers fuel (SDone p (Handle h)) data = ([], SDone p (Handle h), data)) as El by (by destruct fuel).
    rewrite El, app_nil_r in En. rewrite En. split; [done|]. cbn [fst]. rewrite doReadHandshake_reply by done.
    rewrite (bool_decide_false (p = na)), (bool_decide_true (p = p)) by done. unfold lazy_Read. cbn.
    destruct b; [lia|]. by destruct answer.
  - destruct (negotiate_loop handlers fuel SLoop data) as [[w s] rest]. rewrite En. cbn [fst]. split; [by eexists|].
    rewrite <- app_assoc, doReadHandshake_reply by (done || (unfold token_ok; simpl; lia)). rewrite bool_decide_true by done. done.
Qed.

(** The read half of the lazy handshake accepts an answer exactly if [SelectProtoOrFail]
    does, and leaves the same bytes, for every stream of the server. *)
Theorem lazy_eager_agree p r :
  p <> na ->
  let '(t1, r1) := ReadNextToken r in
  let '(t2, r2) := ReadNextToken r1 in
  doReadHandshake [ProtocolID; p] r = (None, r2) <-> readMultistreamHeader t1 = None /\ readProto p t2 = None.
Proof.
  intros Hp. destruct (ReadNextToken r) as [[t1|e1] r1] eqn:E1; destruct (ReadNextToken r1) as [[t2|e2] r2] eqn:E2;
    cbn [doReadHandshake]; rewrite ?E1, ?E2; unfold readMultistreamHeader, readProto; cbn [fst].
  all: repeat (case_bool_decide; subst; rewrite ?E2; cbn [negb fst]); try done; try naive_solver.
Qed.

(** ** A concrete negotiation *)

Module StreamDemo.
Definition handlers : list (Handler nat) := AddHandler (str "/b") 2%nat (AddHandler (str "/c") 3%nat []).
Definition wanted : list (list Z) := [str "/a"; str "/b"; str "/c"].

Lemma wanted_names p : p ∈ wanted -> token_ok p /\ p <> na.
Proof.
  intros Hp. assert (Forall (fun p => token_ok p /\ p <> na) wanted) as Hall; [|by rewrite Forall_forall in Hall; apply Hall].
  unfold wanted. repeat (apply Forall_cons; split; [split; [unfold token_ok; cbn; lia|discriminate]|]). by apply Forall_nil.
Qed.

Lemma negotiation_completes_witness :
  agreed handlers wanted = mkNet nat (CDone (Ok (str "/b"))) (SDone (str "/b") 2%nat) (mkStream [] []) (mkStream [] []) /\
  sn (net_step handlers) (net_start wanted) /\
  forall n, rtc (net_step handlers) (net_start wanted) n -> (nf (net_step handlers) n <-> n = agreed handlers wanted).
Proof. split; [reflexivity|]. apply (negotiation_completes handlers wanted); [discriminate|exact wanted_names]. Defined.

Lemma token_exact_witness :
  ReadNextToken [3; 110; 97; 10; 7] = (Ok na, [7]) <-> token_ok na /\ [3; 110; 97; 10; 7] = delimWrite na ++ [7].
Proof. apply (token_exact [3; 110; 97; 10; 7] na [7]). unfold bytes_ok, is_byte. repeat constructor; lia. Defined.

Lemma lazy_exchange_witness :
  let served := Negotiate handlers (lazy_Write [104; 105] (NewMSSelect (str "/c") [])).2.(written) in
  served = (delitmWriteAll [ProtocolID; str "/c"], SDone (str "/c") 3%nat, [104; 105]) /\
  (lazy_Read 2 (lazy_Write [104; 105] (NewMSSelect (str "/c") (served.1.1 ++ [1; 2; 3]))).2).1 = Ok [1; 2].
Proof.
  pose proof (lazy_exchange handlers (str "/c") [104; 105] [1; 2; 3] 2 ltac:(unfold token_ok; simpl; lia) ltac:(discriminate) ltac:(discriminate) ltac:(lia)) as [_ E].
  exact E.
Defined.

Lemma lazy_eager_agree_witness :
  doReadHandshake [ProtocolID; str "/c"] (delitmWriteAll [ProtocolID; na]) = (None, []) <->
  readMultistreamHeader (Ok ProtocolID) = None /\ readProto (str "/c") (Ok na) = None.
Proof. exact (lazy_eager_agree (str "/c") (delitmWriteAll [ProtocolID; na]) ltac:(discriminate)). Defined.
End StreamDemo.
