(* ===== verification/Heap.v ===== *)
(** * Binary heaps (container/heap)

    The functions of the standard package over any state with the methods of
    [heap.Interface], and what they do to the values the state holds: the order of a
    heap is restored, and nothing is lost.  The proofs are done once, on lists of values
    ([list_heap]); a state with the methods follows them through [HeapLaws].  The loops get
    the index or the length as fuel, which bounds their rounds. *)

From stdpp Require Import base list numbers sorting.
From Stdlib Require Import ZArith Lia.
From S2P Require Import Prelude.

#[local] Open Scope nat_scope.

Class HeapInterface (S X : Type) := {
  Len : S -> nat;
  Less : S -> nat -> nat -> bool;
  Swap : nat -> nat -> S -> S;
  Push : X -> S -> S;
  Pop : S -> option (X * S)
}.

Section functions.
Context {S X : Type} `{HeapInterface S X}.

Fixpoint heap_up (fuel j : nat) (h : S) : S :=
  match fuel with
  | O => h
  | Datatypes.S fuel =>
      let i := (j - 1) / 2 in
      if (i =? j) || negb (Less h j i) then h else heap_up fuel i (Swap i j h)
  end.

(** The index where the value ends comes with the heap. *)
Fixpoint heap_down (fuel i n : nat) (h : S) : S * nat :=
  match fuel with
  | O => (h, i)
  | Datatypes.S fuel =>
      let j1 := 2 * i + 1 in
      if n <=? j1 then (h, i)
      else
        let j2 := j1 + 1 in
        let j := if (j2 <? n) && Less h j2 j1 then j2 else j1 in
        if negb (Less h j i) then (h, i) else heap_down fuel j n (Swap i j h)
  end.
Definition down (i n : nat) (h : S) : S * bool :=
  let '(h, k) := heap_down n i n h in (h, i <? k).
Definition up (j : nat) (h : S) : S := heap_up (Datatypes.S j) j h.

Definition heap_Push (x : X) (h : S) : S := let h := Push x h in up (Len h - 1) h.
Definition heap_Pop (h : S) : option (X * S) :=
  if Len h =? 0 then None
  else let n := Len h - 1 in Pop (down 0 n (Swap 0 n h)).1.
Definition heap_Remove (i : nat) (h : S) : option (X * S) :=
  if Len h <=? i then None
  else
    let n := Len h - 1 in
    Pop (if n =? i then h
         else let '(h, moved) := down i n (Swap i n h) in if moved then h else up i h).
Definition heap_Fix (i : nat) (h : S) : S :=
  let '(h', moved) := down i (Len h) h in if moved then h' else up i h'.
End functions.

(** ** Lists of values *)

Definition swap {V} `{Inhabited V} (i j : nat) (l : list V) : list V := <[i := l !!! j]> (<[j := l !!! i]> l).

Definition list_heap {V} `{Inhabited V} (lt : V -> V -> bool) : HeapInterface (list V) V := {|
  Len := length;
  Less := fun l i j => lt (l !!! i) (l !!! j);
  Swap := swap;
  Push := fun x l => l ++ [x];
  Pop := fun l => match last l with Some x => Some (x, take (length l - 1) l) | None => None end
|}.

Lemma swap_length {V} `{Inhabited V} i j (l : list V) : length (swap i j l) = length l.
Proof. unfold swap. by rewrite !length_insert. Qed.

Lemma swap_lookup {V} `{Inhabited V} i j k (l : list V) :
  i < length l -> j < length l ->
  swap i j l !!! k = if k =? i then l !!! j else if k =? j then l !!! i else l !!! k.
Proof.
  intros Hi Hj. unfold swap. destruct (Nat.eqb_spec k i) as [->|Hki].
  - by rewrite list_lookup_total_insert_eq by (by rewrite length_insert).
  - rewrite list_lookup_total_insert_ne by done. destruct (Nat.eqb_spec k j) as [->|Hkj].
    + by rewrite list_lookup_total_insert_eq.
    + by rewrite list_lookup_total_insert_ne.
Qed.

Lemma swap_perm {V} `{Inhabited V} i j (l : list V) : i < length l -> j < length l -> swap i j l ≡ₚ l.
Proof.
  intros Hi Hj. unfold swap.
  pose proof (list_lookup_lookup_total_lt l i Hi) as Ei. pose proof (list_lookup_lookup_total_lt l j Hj) as Ej.
  destruct (decide (i = j)) as [->|Hij].
  { rewrite list_insert_insert_eq. by rewrite list_insert_id. }
  apply Permutation_inj. split; [by rewrite !length_insert|].
  exists (fun k => if k =? i then j else if k =? j then i else k). split.
  - intros a b. destruct (Nat.eqb_spec a i), (Nat.eqb_spec a j), (Nat.eqb_spec b i), (Nat.eqb_spec b j); intros; lia.
  - intros k. destruct (Nat.eqb_spec k i) as [->|Hk].
    + by rewrite list_lookup_insert_eq by (by rewrite length_insert).
    + rewrite list_lookup_insert_ne by done. destruct (Nat.eqb_spec k j) as [->|Hkj].
      * by rewrite list_lookup_insert_eq.
      * by rewrite list_lookup_insert_ne.
Qed.

(** ** The order of a heap *)

(** A comparison that sorts: a strict weak order. *)
Class WeakOrder {V} (lt : V -> V -> bool) : Prop := {
  lt_asym a b : lt a b = true -> lt b a = false;
  nlt_trans a b c : lt b a = false -> lt c b = false -> lt c a = false
}.

Section order.
Context {V : Type} `{Inhabited V} (lt : V -> V -> bool) {WO : WeakOrder lt}.

Definition hle (a b : V) : Prop := lt b a = false.

#[local] Instance hle_trans : Transitive hle.
Proof. intros a b c. unfold hle. apply nlt_trans. Qed.
Lemma lt_hle a b : lt a b = true -> hle a b.
Proof. apply lt_asym. Qed.

Lemma hle_refl a : hle a a.
Proof. unfold hle. destruct (lt a a) eqn:E; [|done]. assert (E' := E). by rewrite (lt_asym _ _ E) in E'. Qed.

Definition heap_parent (j : nat) : nat := (j - 1) / 2.

(** The first [n] values are a heap. *)
Definition heap_upto (n : nat) (l : list V) : Prop :=
  forall j, 0 < j < n -> hle (l !!! heap_parent j) (l !!! j).
Definition heap_ok (l : list V) : Prop := heap_upto (length l) l.

(** The same, but for the value at [i], above and below it. *)
Definition near_heap (n i : nat) (l : list V) : Prop :=
  (forall j, 0 < j < n -> j <> i -> heap_parent j <> i -> hle (l !!! heap_parent j) (l !!! j)) /\
  (forall c, 0 < c < n -> heap_parent c = i -> 0 < i -> hle (l !!! heap_parent i) (l !!! c)).
Definition below_ok (n i : nat) (l : list V) : Prop := forall c, 0 < c < n -> heap_parent c = i -> hle (l !!! i) (l !!! c).
Definition above_ok (i : nat) (l : list V) : Prop := 0 < i -> hle (l !!! heap_parent i) (l !!! i).

Lemma parent_lt j : 0 < j -> heap_parent j < j.
Proof. unfold heap_parent. intros. pose proof (Nat.div_mod_eq (j - 1) 2). lia. Qed.

Lemma heap_children j i : 0 < j -> heap_parent j = i <-> j = 2 * i + 1 \/ j = 2 * i + 2.
Proof. unfold heap_parent. intros. pose proof (Nat.div_mod_eq (j - 1) 2). pose proof (Nat.mod_upper_bound (j - 1) 2). lia. Qed.

Lemma near_heap_done n i l : near_heap n i l -> below_ok n i l -> above_ok i l -> heap_upto n l.
Proof.
  intros [H1 _] Hb Ha j Hj. destruct (decide (j = i)) as [->|]; [apply Ha; lia|].
  destruct (decide (heap_parent j = i)) as [<-|]; [by apply Hb|by apply H1].
Qed.

#[local] Hint Extern 0 (HeapInterface (list V) _) => exact (list_heap lt) : typeclass_instances.

(** One round of [down]. *)
Lemma down_step n i j l :
  n <= length l -> near_heap n i l -> 0 < j < n -> heap_parent j = i ->
  (forall c, 0 < c < n -> heap_parent c = i -> hle (l !!! j) (l !!! c)) -> lt (l !!! j) (l !!! i) = true ->
  near_heap n j (swap i j l) /\ above_ok j (swap i j l).
Proof.
  intros Hn [H1 H2] Hj Hp Hmin Hlt. pose proof (parent_lt j ltac:(lia)). assert (Hij : i < j) by lia.
  assert (Hs : forall k, swap i j l !!! k = if k =? i then l !!! j else if k =? j then l !!! i else l !!! k)
    by (intros; apply swap_lookup; lia).
  split; [split|].
  - intros k Hk Hkj Hpk. rewrite !Hs. destruct (Nat.eqb_spec k i) as [->|Hki].
    + pose proof (parent_lt i ltac:(lia)). rewrite (proj2 (Nat.eqb_neq _ _)), (proj2 (Nat.eqb_neq _ _)) by lia. by apply H2; lia.
    + rewrite (proj2 (Nat.eqb_neq k j)) by done. destruct (Nat.eqb_spec (heap_parent k) i) as [Hpi|Hpi].
      * by apply Hmin.
      * rewrite (proj2 (Nat.eqb_neq (heap_parent k) j)) by done. by apply H1.
  - intros c Hc Hpc _. pose proof (parent_lt c ltac:(lia)). rewrite Hp, !Hs, Nat.eqb_refl.
    rewrite (proj2 (Nat.eqb_neq c i)), (proj2 (Nat.eqb_neq c j)) by lia. rewrite <- Hpc at 1. apply H1; lia.
  - intros _. rewrite Hp, !Hs, Nat.eqb_refl, (proj2 (Nat.eqb_neq j i)), Nat.eqb_refl by lia. by apply lt_hle.
Qed.

Lemma down_spec fuel n : forall i l l' k,
  n <= length l -> i < n -> n <= i + fuel -> near_heap n i l -> heap_down fuel i n l = (l', k) ->
  near_heap n k l' /\ below_ok n k l' /\ (i < k -> above_ok k l') /\ (i = k -> l' = l) /\ i <= k.
Proof.
  induction fuel as [|fuel IH]; intros i l l' k Hn Hi Hf Hnear; [lia|]. simpl.
  change (i + (i + 0) + 1) with (2 * i + 1). destruct (Nat.leb_spec n (2 * i + 1)) as [Hl|Hl].
  { intros [= <- <-]. split; [done|]. split; [|by repeat split; lia]. intros c Hc Hp. apply heap_children in Hp; lia. }
  set (j1 := 2 * i + 1) in *. set (j := if _ && _ then j1 + 1 else j1).
  assert (Hj : 0 < j < n /\ heap_parent j = i).
  { unfold j. destruct (Nat.ltb_spec (j1 + 1) n); simpl; [case_match|]; (split; [lia|apply heap_children; lia]). }
  destruct Hj as [Hj Hp].
  assert (Hmin : forall c, 0 < c < n -> heap_parent c = i -> hle (l !!! j) (l !!! c)).
  { intros c Hc Hpc. unfold j. apply heap_children in Hpc; [|lia]. destruct (Nat.ltb_spec (j1 + 1) n); simpl.
    - destruct (lt (l !!! (j1 + 1)) (l !!! j1)) eqn:E; destruct Hpc as [->| ->].
      + by apply lt_hle.
      + replace (2 * i + 2) with (j1 + 1) by lia. apply hle_refl.
      + apply hle_refl.
      + replace (2 * i + 2) with (j1 + 1) by lia. done.
    - assert (c = j1) as -> by lia. apply hle_refl. }
  destruct (lt (l !!! j) (l !!! i)) eqn:Elt; cbn [negb].
  - intros E. destruct (down_step n i j l Hn Hnear Hj Hp Hmin Elt) as [Hnear' Habove]. pose proof (parent_lt j ltac:(lia)).
    apply IH in E as (A & B & C & D & F); [|by rewrite swap_length|lia|lia|done].
    split; [done|]. split; [done|]. split; [|split; [lia|lia]]. intros _. destruct (decide (j = k)) as [->|]; [by rewrite (D eq_refl)|apply C; lia].
  - intros [= <- <-]. split; [done|]. split; [|by repeat split; lia]. intros c Hc Hpc. transitivity (l !!! j); [done|by apply Hmin].
Qed.

(** One round of [up]. *)
Lemma up_step n i l :
  n <= length l -> 0 < i < n -> near_heap n i l -> below_ok n i l -> lt (l !!! i) (l !!! heap_parent i) = true ->
  near_heap n (heap_parent i) (swap (heap_parent i) i l) /\ below_ok n (heap_parent i) (swap (heap_parent i) i l).
Proof.
  intros Hn Hi [H1 H2] Hb Hlt. pose proof (parent_lt i ltac:(lia)) as Hpi. set (p := heap_parent i) in *.
  assert (Hs : forall k, swap p i l !!! k = if k =? p then l !!! i else if k =? i then l !!! p else l !!! k)
    by (intros; apply swap_lookup; lia).
  assert (Hsib : forall c, 0 < c < n -> heap_parent c = p -> c <> i -> hle (l !!! p) (l !!! c)).
  { intros c Hc Hpc Hci. rewrite <- Hpc at 1. apply H1; [done|done|lia]. }
  split; [split|].
  - intros j Hj Hjp Hpj. rewrite !Hs, (proj2 (Nat.eqb_neq j p)), (proj2 (Nat.eqb_neq (heap_parent j) p)) by done.
    destruct (Nat.eqb_spec j i) as [->|Hji]; [done|]. destruct (Nat.eqb_spec (heap_parent j) i) as [Hpji|Hpji].
    + by apply H2; [..|lia].
    + by apply H1.
  - intros c Hc Hpc Hp. pose proof (parent_lt p Hp). rewrite !Hs, (proj2 (Nat.eqb_neq (heap_parent p) p)), (proj2 (Nat.eqb_neq (heap_parent p) i)) by lia.
    pose proof (parent_lt c ltac:(lia)). rewrite (proj2 (Nat.eqb_neq c p)) by lia.
    assert (Hpp : hle (l !!! heap_parent p) (l !!! p)) by (apply H1; lia).
    destruct (Nat.eqb_spec c i) as [->|Hci]; [done|]. transitivity (l !!! p); [done|]. by apply Hsib.
  - intros c Hc Hpc. pose proof (parent_lt c ltac:(lia)). rewrite !Hs, Nat.eqb_refl, (proj2 (Nat.eqb_neq c p)) by lia.
    destruct (Nat.eqb_spec c i) as [->|Hci]; [by apply lt_hle|]. transitivity (l !!! p); [by apply lt_hle|by apply Hsib].
Qed.

Lemma up_spec fuel n : forall i l,
  n <= length l -> i < n -> i < fuel -> near_heap n i l -> below_ok n i l -> heap_upto n (heap_up fuel i l).
Proof.
  induction fuel as [|fuel IH]; intros i l Hn Hi Hf Hnear Hb; [lia|]. cbn [heap_up]. fold (heap_parent i). cbn [Less list_heap].
  destruct (Nat.eqb_spec (heap_parent i) i) as [Ep|Ep].
  { simpl. apply (near_heap_done n i l Hnear Hb). intros H0. pose proof (parent_lt i H0). lia. }
  assert (0 < i) by (destruct i; [done|lia]). cbn [orb]. destruct (lt (l !!! i) (l !!! heap_parent i)) eqn:E; cbn [negb].
  - pose proof (parent_lt i ltac:(lia)). destruct (up_step n i l Hn ltac:(lia) Hnear Hb E). apply IH; [|lia|lia|done|done].
    cbn. by rewrite swap_length.
  - apply (near_heap_done n i l Hnear Hb). intros _. exact E.
Qed.

(** What the loops leave alone. *)
Lemma heap_down_frame fuel n : forall i (l l' : list V) k,
  n <= length l -> i < n -> heap_down fuel i n l = (l', k) -> l' ≡ₚ l /\ k < n /\ (forall x, n <= x -> l' !!! x = l !!! x).
Proof.
  induction fuel as [|fuel IH]; intros i l l' k Hn Hi; simpl; [by intros [= <- <-]|]. change (i + (i + 0) + 1) with (2 * i + 1).
  destruct (Nat.leb_spec n (2 * i + 1)) as [|Hl]; [by intros [= <- <-]|]. set (j1 := 2 * i + 1) in *. set (j := if _ && _ then j1 + 1 else j1).
  assert (j < n) by (unfold j; destruct (Nat.ltb_spec (j1 + 1) n); simpl; [case_match; lia|lia]).
  destruct (negb _); [by intros [= <- <-]|]. intros E. apply IH in E as (A & B & C); [|by rewrite swap_length|done].
  split; [rewrite A; apply swap_perm; lia|]. split; [done|]. intros x Hx. rewrite C, swap_lookup by lia.
  by rewrite (proj2 (Nat.eqb_neq x i)), (proj2 (Nat.eqb_neq x j)) by lia.
Qed.

Lemma heap_up_frame fuel : forall i (l : list V),
  i < length l -> heap_up fuel i l ≡ₚ l /\ (forall x, i < x -> heap_up fuel i l !!! x = l !!! x).
Proof.
  induction fuel as [|fuel IH]; intros i l Hi; [done|]. cbn [heap_up]. fold (heap_parent i). destruct (_ || _) eqn:E; [done|].
  apply orb_false_iff in E as [Ei _]. apply Nat.eqb_neq in Ei. assert (heap_parent i < i) by (destruct i; [done|apply parent_lt; lia]).
  cbn [Swap list_heap].
  destruct (IH (heap_parent i) (swap (heap_parent i) i l)) as [A B]; [rewrite swap_length; lia|].
  split; [rewrite A; apply swap_perm; lia|]. intros x Hx. rewrite B, swap_lookup by lia.
  by rewrite (proj2 (Nat.eqb_neq x (heap_parent i))), (proj2 (Nat.eqb_neq x i)) by lia.
Qed.

(** [down] and, where it does not move, [up], from a heap with one value changed. *)
Lemma fix_spec n i l :
  n <= length l -> i < n -> near_heap n i l ->
  let l' := (let '(h, moved) := down i n l in if moved then h else up i h) in
  heap_upto n l' /\ l' ≡ₚ l /\ (forall x, n <= x -> l' !!! x = l !!! x).
Proof.
  intros Hn Hi Hnear. unfold down, up. destruct (heap_down n i n l) as [h k] eqn:E.
  destruct (heap_down_frame _ _ _ _ _ _ Hn Hi E) as (Hperm & Hk & Hframe).
  destruct (down_spec n n i l h k Hn Hi ltac:(lia) Hnear E) as (A & B & C & D & F).
  destruct (Nat.ltb_spec i k) as [Hik|Hik].
  - split; [|done]. apply (near_heap_done n k h A B). by apply C.
  - assert (i = k) as <- by lia. specialize (D eq_refl) as ->. clear Hperm Hframe.
    destruct (heap_up_frame (Datatypes.S i) i l ltac:(lia)) as [Hp Hf]. split; [by apply up_spec; [..|lia| |]|].
    split; [done|]. intros x Hx. apply Hf. lia.
Qed.

Lemma heap_near n i l x : n <= length l -> i < n -> heap_upto n l -> near_heap n i (<[i := x]> l).
Proof.
  intros Hn Hi Hh. split.
  - intros j Hj Hji Hpj. rewrite !list_lookup_total_insert_ne by done. by apply Hh.
  - intros c Hc Hpc Hpos. pose proof (parent_lt i Hpos). pose proof (parent_lt c ltac:(lia)).
    rewrite !list_lookup_total_insert_ne by lia. transitivity (l !!! i); [by apply Hh; lia|]. rewrite <- Hpc. by apply Hh.
Qed.

Lemma heap_root n l k : heap_upto n l -> k < n -> hle (l !!! 0) (l !!! k).
Proof.
  intros Hh. induction k as [k IH] using lt_wf_ind. intros Hk. destruct k as [|k]; [apply hle_refl|].
  pose proof (parent_lt (Datatypes.S k) ltac:(lia)). transitivity (l !!! heap_parent (Datatypes.S k)); [apply IH; lia|apply Hh; lia].
Qed.

Lemma list_Pop l x : l <> [] -> l !!! (length l - 1) = x -> Pop (HeapInterface := list_heap lt) l = Some (x, take (length l - 1) l) /\ l ≡ₚ x :: take (length l - 1) l.
Proof.
  intros Hl <-. destruct l as [|y l _] using rev_ind; [done|]. cbn. rewrite last_snoc, length_app. cbn. replace (length l + 1 - 1) with (length l) by lia.
  rewrite list_lookup_total_middle by done. rewrite take_app_length. split; [done|]. by rewrite Permutation_app_comm.
Qed.

Lemma heap_upto_take n l : n <= length l -> heap_upto n l -> heap_ok (take n l).
Proof.
  intros Hn Hh j Hj. rewrite length_take in Hj. pose proof (parent_lt j ltac:(lia)).
  rewrite !lookup_total_take_lt by lia. apply Hh. lia.
Qed.

(** ** What the functions do to a heap *)

Lemma Push_heap x l : heap_ok l -> heap_ok (heap_Push x l) /\ heap_Push x l ≡ₚ x :: l.
Proof.
  intros Hh. unfold heap_Push, up. cbn [Push Len list_heap]. rewrite length_app. cbn [length].
  replace (length l + 1 - 1) with (length l) by lia.
  destruct (heap_up_frame (Datatypes.S (length l)) (length l) (l ++ [x])) as [Hp _]; [rewrite length_app; simpl; lia|]. split.
  - unfold heap_ok. rewrite (Permutation_length Hp). apply up_spec; [lia|rewrite length_app; simpl; lia|lia| |].
    + split.
      * intros j Hj Hjl _. rewrite length_app in Hj. simpl in Hj. pose proof (parent_lt j ltac:(lia)).
        rewrite !lookup_total_app_l by lia. apply Hh. lia.
      * intros c Hc Hpc. rewrite length_app in Hc. simpl in Hc. pose proof (parent_lt c ltac:(lia)). lia.
    + intros c Hc Hpc. rewrite length_app in Hc. simpl in Hc. pose proof (parent_lt c ltac:(lia)). lia.
  - rewrite Hp. by rewrite Permutation_app_comm.
Qed.

Lemma Fix_heap i x l : i < length l -> heap_ok l -> heap_ok (heap_Fix i (<[i := x]> l)) /\ heap_Fix i (<[i := x]> l) ≡ₚ <[i := x]> l.
Proof.
  intros Hi Hh. pose proof (fix_spec (length l) i (<[i := x]> l)) as Hf. rewrite length_insert in Hf.
  destruct (Hf ltac:(lia) Hi (heap_near (length l) i l x ltac:(lia) Hi Hh)) as (A & B & _). unfold heap_Fix. cbn [Len list_heap].
  rewrite length_insert. split; [|done]. unfold heap_ok. by rewrite (Permutation_length B), length_insert.
Qed.

Lemma heap_ok_near i l : i < length l -> heap_ok l -> near_heap (length l) i l.
Proof.
  intros Hi Hh. pose proof (heap_near (length l) i l (l !!! i) ltac:(lia) Hi Hh) as Hn. rewrite list_insert_id in Hn; [done|].
  by apply list_lookup_lookup_total_lt.
Qed.

(** The value at [i] may have been changed before it is removed. *)
Lemma Remove_heap i l :
  i < length l -> near_heap (length l) i l -> exists l', heap_Remove i l = Some (l !!! i, l') /\ heap_ok l' /\ l ≡ₚ l !!! i :: l'.
Proof.
  intros Hi [H1 H2]. unfold heap_Remove. cbn [Len Swap list_heap]. rewrite (proj2 (Nat.leb_gt _ _)) by done.
  remember (length l - 1) as n eqn:En. destruct (Nat.eqb_spec n i) as [<-|Hni].
  - destruct (list_Pop l (l !!! n)) as [E Hp]; [by destruct l; [simpl in Hi; lia|]|by rewrite En|]. rewrite <- En in *. eexists. split; [exact E|].
    split; [|done]. apply heap_upto_take; [lia|]. intros j Hj. pose proof (parent_lt j ltac:(lia)). apply H1; lia.
  - assert (Hnear : near_heap n i (swap i n l)).
    { unfold swap. rewrite list_insert_insert_ne by lia. split.
      - intros j Hj Hji Hpj. pose proof (parent_lt j ltac:(lia)). rewrite !(list_lookup_total_insert_ne _ n), !(list_lookup_total_insert_ne _ i) by lia. apply H1; lia.
      - intros c Hc Hpc Hpos. pose proof (parent_lt c ltac:(lia)). pose proof (parent_lt i ltac:(lia)).
        rewrite !(list_lookup_total_insert_ne _ n), !(list_lookup_total_insert_ne _ i) by lia. apply H2; lia. }
    destruct (fix_spec n i (swap i n l) ltac:(rewrite swap_length; lia) ltac:(lia) Hnear) as (A & B & C).
    set (l1 := let '(h, moved) := down i n (swap i n l) in if moved then h else up i h) in *.
    assert (Hlen : length l1 = length l) by (rewrite (Permutation_length B); apply swap_length).
    assert (Hlast : l1 !!! (length l1 - 1) = l !!! i).
    { rewrite Hlen, <- En. rewrite C, swap_lookup by lia. rewrite (proj2 (Nat.eqb_neq n i)), Nat.eqb_refl by lia. done. }
    destruct (list_Pop l1 (l !!! i)) as [E Hp]; [by intros E; rewrite E in Hlen; simpl in Hlen; lia|done|]. eexists. split; [exact E|].
    rewrite Hlen, <- En in *. split; [apply heap_upto_take; [lia|done]|]. rewrite <- (swap_perm i n l) at 1 by lia. by rewrite <- B, Hp at 1.
Qed.

Lemma Pop_heap l :
  l <> [] -> heap_ok l ->
  exists l', heap_Pop l = Some (l !!! 0, l') /\ heap_ok l' /\ l ≡ₚ l !!! 0 :: l' /\ Forall (hle (l !!! 0)) l.
Proof.
  intros Hl Hh. assert (0 < length l) by (destruct l; [done|simpl; lia]).
  assert (Forall (hle (l !!! 0)) l) as Hmin.
  { apply Forall_lookup. intros k x Hk. rewrite <- (list_lookup_total_correct _ _ _ Hk). apply (heap_root (length l)); [done|by eapply lookup_lt_Some]. }
  destruct (Remove_heap 0 l ltac:(lia) (heap_ok_near 0 l ltac:(lia) Hh)) as (l' & E & Hh' & Hp). exists l'. split; [|done]. rewrite <- E.
  unfold heap_Pop, heap_Remove. cbn [Len Swap list_heap]. rewrite (proj2 (Nat.leb_gt _ _)), (proj2 (Nat.eqb_neq _ _)) by lia.
  destruct (Nat.eqb_spec (length l - 1) 0) as [E0|E0].
  - rewrite E0. destruct l as [|x [|]]; [done| |simpl in E0; lia]. done.
  - unfold down. pose proof (swap_length 0 (length l - 1) l) as Hs. remember (swap 0 (length l - 1) l) as m eqn:Em.
    destruct (heap_down (length l - 1) 0 (length l - 1) m) as [h k] eqn:Ed. cbn [fst].
    destruct k as [|k]; [|done]. cbn [Nat.ltb Nat.leb]. unfold up. cbn [heap_up Nat.eqb Nat.sub Nat.div Nat.divmod fst orb]. done.
Qed.
End order.

(** ** States with the methods of a heap *)

(** [vals s] are the values of the heap in the state [s], as long as [ok s]. *)
Class HeapLaws {S X V : Type} `{Inhabited V} `{HeapInterface S X} (lt : V -> V -> bool) (ok : S -> Prop) (vals : S -> list V) : Prop := {
  law_Len s : ok s -> Len s = length (vals s);
  law_Less s i j : ok s -> i < Len s -> j < Len s -> Less s i j = lt (vals s !!! i) (vals s !!! j);
  law_Swap s i j : ok s -> i < Len s -> j < Len s -> ok (Swap i j s) /\ vals (Swap i j s) = swap i j (vals s)
}.

Section simulation.
Context {S X V : Type} `{Inhabited V} `{HI : HeapInterface S X} (lt : V -> V -> bool) {WO : WeakOrder lt}.
Context (ok : S -> Prop) (vals : S -> list V) {HL : HeapLaws lt ok vals}.

Notation list_up := (@heap_up (list V) V (list_heap lt)).
Notation list_down := (@heap_down (list V) V (list_heap lt)).

Lemma Swap_Len s i j : ok s -> i < Len s -> j < Len s -> Len (Swap i j s) = Len s.
Proof. intros Hs Hi Hj. destruct (law_Swap s i j Hs Hi Hj) as [A B]. rewrite !law_Len, B by done. apply swap_length. Qed.

Lemma sim_up fuel : forall j s, ok s -> j < Len s -> ok (heap_up fuel j s) /\ vals (heap_up fuel j s) = list_up fuel j (vals s).
Proof.
  induction fuel as [|fuel IH]; intros j s Hs Hj; [done|]. cbn [heap_up]. assert ((j - 1) / 2 < Len s) by (pose proof (Nat.div_mod_eq (j - 1) 2); lia).
  cbn [Less list_heap]. rewrite law_Less by done. destruct (_ || _); [done|]. destruct (law_Swap s ((j - 1) / 2) j) as [A B]; [done..|].
  cbn [Swap list_heap]. rewrite <- B. apply IH; [done|by rewrite Swap_Len].
Qed.

Lemma sim_down fuel n : forall i s,
  ok s -> i < n -> n <= Len s ->
  ok (heap_down fuel i n s).1 /\ vals (heap_down fuel i n s).1 = (list_down fuel i n (vals s)).1 /\
  (heap_down fuel i n s).2 = (list_down fuel i n (vals s)).2.
Proof.
  induction fuel as [|fuel IH]; intros i s Hs Hi Hn; [done|]. cbn [heap_down]. destruct (Nat.leb_spec n (2 * i + 1)); [done|].
  set (j1 := 2 * i + 1) in *. cbn [Less Swap list_heap].
  assert (((j1 + 1 <? n) && Less s (j1 + 1) j1) = ((j1 + 1 <? n) && lt (vals s !!! (j1 + 1)) (vals s !!! j1))) as ->.
  { destruct (Nat.ltb_spec (j1 + 1) n); [|done]. by rewrite law_Less by (done || lia). }
  set (j := if (j1 + 1 <? n) && _ then j1 + 1 else j1).
  assert (j < n) by (unfold j; destruct (Nat.ltb_spec (j1 + 1) n); simpl; [case_match; lia|lia]).
  rewrite law_Less by (done || lia). destruct (negb _); [done|]. destruct (law_Swap s i j) as [A B]; [done|lia..|]. rewrite <- B.
  apply IH; [done|done|]. by rewrite Swap_Len by (done || lia).
Qed.

(** The common part of [Fix] and [Remove]. *)
Lemma sim_settle i n s :
  ok s -> i < n -> n <= Len s ->
  ok (let '(h, moved) := down i n s in if moved then h else up i h) /\
  vals (let '(h, moved) := down i n s in if moved then h else up i h) =
  (let '(h, moved) := @down _ _ (list_heap lt) i n (vals s) in if moved then h else @up _ _ (list_heap lt) i h).
Proof.
  intros Hs Hi Hn. unfold down. destruct (sim_down n n i s Hs Hi Hn) as (A & B & C).
  destruct (heap_down n i n s) as [h k] eqn:E. destruct (list_down n i n (vals s)) as [h' k'] eqn:E'. cbn [fst snd] in *. subst h' k'.
  destruct (i <? k); [done|]. unfold up. apply sim_up; [done|].
  destruct (heap_down_frame lt n n i (vals s) (vals h) k) as [Hp _]; [rewrite <- law_Len by done; lia|done|done|].
  rewrite law_Len, (Permutation_length Hp), <- law_Len by done. lia.
Qed.

Lemma sim_Fix i s : ok s -> i < Len s -> ok (heap_Fix i s) /\ vals (heap_Fix i s) = @heap_Fix _ _ (list_heap lt) i (vals s).
Proof.
  intros Hs Hi. unfold heap_Fix. cbn [Len list_heap]. rewrite <- law_Len by done. by apply sim_settle.
Qed.

Lemma sim_Push x v s :
  ok (Push x s) -> vals (Push x s) = vals s ++ [v] ->
  ok (heap_Push x s) /\ vals (heap_Push x s) = @heap_Push _ _ (list_heap lt) v (vals s).
Proof.
  intros Hs Hv. unfold heap_Push, up. cbn [Push Len list_heap]. rewrite <- Hv, <- law_Len by done. apply sim_up; [done|].
  rewrite law_Len, Hv, length_app by done. simpl. lia.
Qed.

(** [Remove] ends in a [Pop] of the value at [i], which leaves a heap of the others. *)
Lemma sim_Remove i s :
  ok s -> i < Len s -> near_heap lt (length (vals s)) i (vals s) ->
  exists s' l, heap_Remove i s = Pop s' /\ ok s' /\ vals s' = l ++ [vals s !!! i] /\ heap_ok lt l /\ vals s ≡ₚ vals s !!! i :: l.
Proof.
  intros Hs Hi Hh. assert (Hi' : i < length (vals s)) by (by rewrite <- law_Len).
  destruct (Remove_heap lt i (vals s) Hi' Hh) as (l & E & Hl & Hp). revert E. unfold heap_Remove. cbn [Len Swap list_heap].
  rewrite <- law_Len by done. rewrite (proj2 (Nat.leb_gt _ _)) by done. set (n := Len s - 1).
  match goal with |- context [Pop ?x] => set (m := x) end. match goal with |- _ -> exists s' l, Pop ?x = _ /\ _ => set (s1 := x) end.
  assert (ok s1 /\ vals s1 = m) as [Hs1 Hm].
  { unfold s1, m. destruct (Nat.eqb_spec n i) as [|Hni]; [done|]. destruct (law_Swap s i n) as [A B]; [done|done|lia|]. rewrite <- B.
    apply sim_settle; [done|lia|]. rewrite Swap_Len by (done || lia). lia. }
  intros E. exists s1, l. split; [done|]. split; [done|]. rewrite Hm. clearbody m. cbn [Pop list_heap] in E.
  destruct m as [|y m _] using rev_ind; [done|]. rewrite last_snoc, length_app in E. simpl in E. replace (length m + 1 - 1) with (length m) in E by lia.
  rewrite take_app_length in E. injection E as -> ->. done.
Qed.

Lemma sim_Pop s :
  ok s -> 0 < Len s -> heap_ok lt (vals s) ->
  exists s' l, heap_Pop s = Pop s' /\ ok s' /\ vals s' = l ++ [vals s !!! 0] /\ heap_ok lt l /\ vals s ≡ₚ vals s !!! 0 :: l /\
    Forall (hle lt (vals s !!! 0)) (vals s).
Proof.
  intros Hs Hi Hh. destruct (Pop_heap lt (vals s)) as (l & E & Hl & Hp & Hmin); [by intros E0; rewrite law_Len, E0 in Hi; simpl in Hi; [lia|]|done|].
  revert E. unfold heap_Pop. cbn [Len Swap list_heap]. rewrite <- law_Len by done. rewrite (proj2 (Nat.eqb_neq _ _)) by lia.
  set (n := Len s - 1). destruct (law_Swap s 0 n) as [A B]; [done|done|lia|]. rewrite <- B.
  assert (ok (down 0 n (Swap 0 n s)).1 /\ vals (down 0 n (Swap 0 n s)).1 = (@down _ _ (list_heap lt) 0 n (vals (Swap 0 n s))).1) as [Hs1 Hm].
  { unfold down. destruct (decide (n = 0)) as [->|]; [done|]. destruct (sim_down n n 0 (Swap 0 n s)) as (C & D & _); [done|lia|rewrite Swap_Len by (done || lia); lia|].
    by destruct (heap_down n 0 n (Swap 0 n s)), (list_down n 0 n (vals (Swap 0 n s))). }
  intros E. exists (down 0 n (Swap 0 n s)).1, l. split; [done|]. split; [done|]. rewrite Hm. set (m := (down 0 n (vals (Swap 0 n s))).1) in *. clearbody m.
  cbn [Pop list_heap] in E. destruct m as [|y m _] using rev_ind; [done|]. rewrite last_snoc, length_app in E. simpl in E.
  replace (length m + 1 - 1) with (length m) in E by lia. rewrite take_app_length in E. injection E as -> ->. done.
Qed.
End simulation.
