(* ===== verification/AddrBook.v ===== *)
(** * The address book in memory (src/p2p/host/peerstore/pstoremem/addr_book.go)

    Addresses of peers with their times to live: a map of the addresses of each peer, and a
    heap by expiry of those that can expire while not connected.  Both hold pointers to the
    same entries, so entries live in a store under their addresses in memory, and an entry
    knows its place in the heap.  Times and durations are nanoseconds.  [announced] collects
    what is sent to the subscribers of address streams. *)

From stdpp Require Import base gmap list numbers strings sorting.
From Stdlib Require Import ZArith Lia.
From S2P Require Import Prelude GoText Base58 Transcoders Multiaddr Heap.

(** ** Peer addresses (src/core/peer/addrinfo.go) *)

Definition SplitAddr (reg : registry) (m : option Multiaddr) : option (option Multiaddr * list Z) :=
  match m with
  | None => Some (None, [])
  | Some _ =>
      match SplitLast reg m with
      | None => None
      | Some (transport, None) => Some (m, [])
      | Some (transport, Some p2ppart) =>
          if negb (p_Code (c_protocol p2ppart) =? P_P2P) then Some (m, [])
          else Some (transport, RawValue p2ppart)
      end
  end.

(** ** Entries *)

Definition PermanentAddrTTL : Z := MaxInt64.
Definition ConnectedAddrTTL : Z := MaxInt64 - 1.
Definition ttlIsConnected (ttl : Z) : bool := ConnectedAddrTTL <=? ttl.

Record expiringAddr := mkExpiringAddr {
  ea_Addr : Multiaddr;
  ea_TTL : Z;
  ea_Expiry : Z;
  ea_Peer : list Z;
  heapIndex : Z
}.
Definition ExpiredBy (e : expiringAddr) (t : Z) : bool := negb (t <? ea_Expiry e).
Definition IsConnected (e : expiringAddr) : bool := ttlIsConnected (ea_TTL e).
Definition nil_addr : expiringAddr := mkExpiringAddr (MBytes []) 0 0 [] (-1).
Definition set_index (i : Z) (e : expiringAddr) : expiringAddr :=
  mkExpiringAddr (ea_Addr e) (ea_TTL e) (ea_Expiry e) (ea_Peer e) i.
Definition set_ttl (ttl exp : Z) (e : expiringAddr) : expiringAddr :=
  mkExpiringAddr (ea_Addr e) ttl exp (ea_Peer e) (heapIndex e).
Definition set_addr (a : Multiaddr) (e : expiringAddr) : expiringAddr :=
  mkExpiringAddr a (ea_TTL e) (ea_Expiry e) (ea_Peer e) (heapIndex e).

(** ** The map and the heap *)

Record peerAddrs := mkPeerAddrs {
  store : gmap nat expiringAddr;
  next_ptr : nat;
  pa_Addrs : gmap (list Z) (gmap (list Z) nat);
  expiringHeap : list nat
}.
Definition newPeerAddrs : peerAddrs := mkPeerAddrs ∅ 0 ∅ [].

Definition deref (pa : peerAddrs) (a : nat) : expiringAddr := default nil_addr (store pa !! a).
Definition modify_addr (f : expiringAddr -> expiringAddr) (a : nat) (pa : peerAddrs) : peerAddrs :=
  mkPeerAddrs (alter f a (store pa)) (next_ptr pa) (pa_Addrs pa) (expiringHeap pa).
Definition with_heap (h : list nat) (pa : peerAddrs) : peerAddrs :=
  mkPeerAddrs (store pa) (next_ptr pa) (pa_Addrs pa) h.

#[export] Instance peerAddrs_heap : HeapInterface peerAddrs nat := {|
  Len := fun pa => length (expiringHeap pa);
  Less := fun pa i j => ea_Expiry (deref pa (expiringHeap pa !!! i)) <? ea_Expiry (deref pa (expiringHeap pa !!! j));
  Swap := fun i j pa =>
    let h := swap i j (expiringHeap pa) in
    modify_addr (set_index (Z.of_nat j)) (h !!! j)
      (modify_addr (set_index (Z.of_nat i)) (h !!! i) (with_heap h pa));
  Push := fun a pa =>
    modify_addr (set_index (Z.of_nat (length (expiringHeap pa)))) a (with_heap (expiringHeap pa ++ [a]) pa);
  Pop := fun pa =>
    match last (expiringHeap pa) with
    | None => None
    | Some a => Some (a, modify_addr (set_index (-1)) a (with_heap (take (length (expiringHeap pa) - 1) (expiringHeap pa)) pa))
    end
|}.

(** [heap.Remove] at the index an entry knows. *)
Definition remove_at (i : Z) (pa : peerAddrs) : option peerAddrs :=
  if i <? 0 then None else snd <$> heap_Remove (X := nat) (Z.to_nat i) pa.

Definition FindAddr (p : list Z) (addr : list Z) (pa : peerAddrs) : option nat := pa_Addrs pa !! p ≫= (.!! addr).

Definition delete_key (p k : list Z) (pa : peerAddrs) : peerAddrs :=
  let m := delete k (default ∅ (pa_Addrs pa !! p)) in
  mkPeerAddrs (store pa) (next_ptr pa)
    (if bool_decide (m = ∅) then delete p (pa_Addrs pa) else <[p := m]> (pa_Addrs pa)) (expiringHeap pa).

Definition Delete (a : nat) (pa : peerAddrs) : option peerAddrs :=
  let e := deref pa a in
  match FindAddr (ea_Peer e) (Bytes (ea_Addr e)) pa with
  | Some ea =>
      let removed := if negb (heapIndex (deref pa ea) =? -1) then remove_at (heapIndex e) pa else Some pa in
      match removed with
      | None => None
      | Some pa => Some (delete_key (ea_Peer e) (Bytes (ea_Addr e)) pa)
      end
  | None => Some pa
  end.

(** The zero time when the heap is empty. *)
Definition NextExpiry (pa : peerAddrs) : option Z :=
  match expiringHeap pa with [] => None | a :: _ => Some (ea_Expiry (deref pa a)) end.

Definition PopIfExpired (now : Z) (pa : peerAddrs) : option (option expiringAddr * peerAddrs) :=
  match NextExpiry pa with
  | Some t =>
      if negb (now <? t) then
        match heap_Pop pa with
        | None => None
        | Some (a, pa) => let ea := deref pa a in Some (Some ea, delete_key (ea_Peer ea) (Bytes (ea_Addr ea)) pa)
        end
      else Some (None, pa)
  | None => Some (None, pa)
  end.

Definition Update (a : nat) (pa : peerAddrs) : option peerAddrs :=
  let e := deref pa a in
  if heapIndex e =? -1 then Some pa
  else if IsConnected e then remove_at (heapIndex e) pa
  else if (heapIndex e <? 0) || (Z.of_nat (Len pa) <=? heapIndex e) then None
  else Some (heap_Fix (X := nat) (Z.to_nat (heapIndex e)) pa).

(** [Insert] of a new entry. *)
Definition Insert (e : expiringAddr) (pa : peerAddrs) : peerAddrs :=
  let a := next_ptr pa in
  let m := default ∅ (pa_Addrs pa !! ea_Peer e) in
  let pa := mkPeerAddrs (<[a := set_index (-1) e]> (store pa)) (S a)
              (<[ea_Peer e := <[Bytes (ea_Addr e) := a]> m]> (pa_Addrs pa)) (expiringHeap pa) in
  if IsConnected e then pa else heap_Push a pa.

Definition NumUnconnectedAddrs (pa : peerAddrs) : Z := Z.of_nat (length (expiringHeap pa)).

(** ** The book *)

(** What is read of a signed envelope: the record it contains, if it is one of a peer, and
    whether its key is that of the peer. *)
Record PeerRecord := mkPeerRecord { rec_PeerID : list Z; rec_Addrs : list (option Multiaddr); rec_Seq : Z }.
Inductive consume_error := ErrRecord | ErrNotPeerRecord | ErrKeyMismatch | ErrTooManyRecords.

Section book.
Context {Envelope : Type} (env_Record : Envelope -> option (option PeerRecord)) (env_Matches : Envelope -> list Z -> bool).
Context (reg : registry).

Record memoryAddrBook := mkBook {
  addrs : peerAddrs;
  signedPeerRecords : gmap (list Z) (Envelope * Z);
  maxUnconnectedAddrs : Z;
  maxSignedPeerRecords : Z;
  announced : list (list Z * Multiaddr)
}.
Definition NewAddrBook (maxAddrs maxRecords : Z) : memoryAddrBook := mkBook newPeerAddrs ∅ maxAddrs maxRecords [].

Definition set_addrs (pa : peerAddrs) (b : memoryAddrBook) : memoryAddrBook :=
  mkBook pa (signedPeerRecords b) (maxUnconnectedAddrs b) (maxSignedPeerRecords b) (announced b).
Definition set_records (r : gmap (list Z) (Envelope * Z)) (b : memoryAddrBook) : memoryAddrBook :=
  mkBook (addrs b) r (maxUnconnectedAddrs b) (maxSignedPeerRecords b) (announced b).
Definition BroadcastAddr (p : list Z) (a : Multiaddr) (b : memoryAddrBook) : memoryAddrBook :=
  mkBook (addrs b) (signedPeerRecords b) (maxUnconnectedAddrs b) (maxSignedPeerRecords b) (announced b ++ [(p, a)]).

Definition maybeDeleteSignedPeerRecordUnlocked (p : list Z) (b : memoryAddrBook) : memoryAddrBook :=
  if bool_decide (default ∅ (pa_Addrs (addrs b) !! p) = ∅) then set_records (delete p (signedPeerRecords b)) b else b.

Definition full (b : memoryAddrBook) : bool := maxUnconnectedAddrs b <=? NumUnconnectedAddrs (addrs b).

(** The addresses to handle in a list given for [p]: the suffix with the peer is removed,
    empty ones and those of other peers are skipped.  [None] is a panic. *)
Definition own_addr (p : list Z) (addr : option Multiaddr) : option (option Multiaddr) :=
  match SplitAddr reg addr with
  | None => None
  | Some (None, _) => Some None
  | Some (Some a, pid) => if bool_decide (pid = []) || bool_decide (pid = p) then Some (Some a) else Some None
  end.

Fixpoint for_addrs (p : list Z) (f : Multiaddr -> memoryAddrBook -> option memoryAddrBook) (l : list (option Multiaddr))
  (b : memoryAddrBook) : option memoryAddrBook :=
  match l with
  | [] => Some b
  | addr :: l =>
      match own_addr p addr with
      | None => None
      | Some None => for_addrs p f l b
      | Some (Some a) => match f a b with None => None | Some b => for_addrs p f l b end
      end
  end.

Definition add_addr (p : list Z) (ttl exp : Z) (addr : Multiaddr) (b : memoryAddrBook) : option memoryAddrBook :=
  match FindAddr p (Bytes addr) (addrs b) with
  | None => Some (BroadcastAddr p addr (set_addrs (Insert (mkExpiringAddr addr ttl exp p 0) (addrs b)) b))
  | Some a =>
      let e := deref (addrs b) a in
      let ttl' := if ttl >? ea_TTL e then ttl else ea_TTL e in
      let exp' := if exp >? ea_Expiry e then exp else ea_Expiry e in
      let changed := (ttl >? ea_TTL e) || (exp >? ea_Expiry e) in
      let pa := modify_addr (set_ttl ttl' exp') a (addrs b) in
      if changed then match Update a pa with None => None | Some pa => Some (set_addrs pa b) end
      else Some (set_addrs pa b)
  end.
Definition addAddrsUnlocked (p : list Z) (l : list (option Multiaddr)) (ttl now : Z) (b : memoryAddrBook) : option memoryAddrBook :=
  let body :=
    if ttl <=? 0 then Some b
    else if negb (ttlIsConnected ttl) && full b then Some b
    else for_addrs p (add_addr p ttl (now + ttl)) l b in
  maybeDeleteSignedPeerRecordUnlocked p <$> body.
Definition AddAddrs := addAddrsUnlocked.

Definition set_addr_ttl (p : list Z) (ttl exp : Z) (addr : Multiaddr) (b : memoryAddrBook) : option memoryAddrBook :=
  match FindAddr p (Bytes addr) (addrs b) with
  | Some a =>
      if ttl >? 0 then
        if IsConnected (deref (addrs b) a) && negb (ttlIsConnected ttl) && full b then
          match Delete a (addrs b) with None => None | Some pa => Some (set_addrs pa b) end
        else
          let pa := modify_addr (fun e => set_ttl ttl exp (set_addr addr e)) a (addrs b) in
          match Update a pa with None => None | Some pa => Some (BroadcastAddr p addr (set_addrs pa b)) end
      else match Delete a (addrs b) with None => None | Some pa => Some (set_addrs pa b) end
  | None =>
      if ttl >? 0 then
        if negb (ttlIsConnected ttl) && full b then Some b
        else Some (BroadcastAddr p addr (set_addrs (Insert (mkExpiringAddr addr ttl exp p 0) (addrs b)) b))
      else Some b
  end.
Definition SetAddrs (p : list Z) (l : list (option Multiaddr)) (ttl now : Z) (b : memoryAddrBook) : option memoryAddrBook :=
  maybeDeleteSignedPeerRecordUnlocked p <$> for_addrs p (set_addr_ttl p ttl (now + ttl)) l b.

(** The entries of a peer in the order in which the map is ranged over. *)
Fixpoint for_entries (f : nat -> memoryAddrBook -> option memoryAddrBook) (l : list nat) (b : memoryAddrBook) : option memoryAddrBook :=
  match l with
  | [] => Some b
  | a :: l => match f a b with None => None | Some b => for_entries f l b end
  end.
Definition delete_entry (a : nat) (b : memoryAddrBook) : option memoryAddrBook :=
  match Delete a (addrs b) with None => None | Some pa => Some (set_addrs pa b) end.

Definition update_entry (oldTTL newTTL exp : Z) (a : nat) (b : memoryAddrBook) : option memoryAddrBook :=
  if oldTTL =? ea_TTL (deref (addrs b) a) then
    if newTTL =? 0 then delete_entry a b
    else if ttlIsConnected oldTTL && negb (ttlIsConnected newTTL) && full b then delete_entry a b
    else match Update a (modify_addr (set_ttl newTTL exp) a (addrs b)) with None => None | Some pa => Some (set_addrs pa b) end
  else Some b.

(** The entries of a map in the order in which a loop ranges over them, which is not
    specified. *)
Context (range : gmap (list Z) nat -> list (list Z * nat)).

Definition UpdateAddrs (p : list Z) (oldTTL newTTL now : Z) (b : memoryAddrBook) : option memoryAddrBook :=
  maybeDeleteSignedPeerRecordUnlocked p <$>
    for_entries (update_entry oldTTL newTTL (now + newTTL)) (map snd (range (default ∅ (pa_Addrs (addrs b) !! p)))) b.

Definition ClearAddrs (p : list Z) (b : memoryAddrBook) : option memoryAddrBook :=
  let b := set_records (delete p (signedPeerRecords b)) b in
  for_entries delete_entry (map snd (range (default ∅ (pa_Addrs (addrs b) !! p)))) b.

Definition validAddrs (now : Z) (pa : peerAddrs) (amap : gmap (list Z) nat) : list Multiaddr :=
  map (fun a => ea_Addr (deref pa a)) (List.filter (fun a => negb (ExpiredBy (deref pa a) now)) (map snd (range amap))).
Definition Addrs (p : list Z) (now : Z) (b : memoryAddrBook) : list Multiaddr :=
  match pa_Addrs (addrs b) !! p with None => [] | Some m => validAddrs now (addrs b) m end.
Definition PeersWithAddrs (b : memoryAddrBook) : list (list Z) := map fst (map_to_list (pa_Addrs (addrs b))).

Definition ConsumePeerRecord (env : Envelope) (ttl now : Z) (b : memoryAddrBook) : option (result consume_error bool * memoryAddrBook) :=
  match env_Record env with
  | None => Some (Err ErrRecord, b)
  | Some None => Some (Err ErrNotPeerRecord, b)
  | Some (Some r) =>
      if negb (env_Matches env (rec_PeerID r)) then Some (Err ErrKeyMismatch, b)
      else
        let lastState := signedPeerRecords b !! rec_PeerID r in
        if match lastState with Some (_, seq) => seq >? rec_Seq r | None => false end then Some (Ok false, b)
        else if match lastState with None => maxSignedPeerRecords b <=? Z.of_nat (size (signedPeerRecords b)) | Some _ => false end
        then Some (Err ErrTooManyRecords, b)
        else
          let b := set_records (<[rec_PeerID r := (env, rec_Seq r)]> (signedPeerRecords b)) b in
          match addAddrsUnlocked (rec_PeerID r) (rec_Addrs r) ttl now b with
          | None => None
          | Some b => Some (Ok true, b)
          end
  end.
Definition GetPeerRecord (p : list Z) (now : Z) (b : memoryAddrBook) : option Envelope :=
  match pa_Addrs (addrs b) !! p with
  | None => None
  | Some m =>
      if (length (validAddrs now (addrs b) m) =? 0)%nat then None
      else fst <$> signedPeerRecords b !! p
  end.

(** The heap shrinks in every round; its length is enough fuel. *)
Fixpoint gc_loop (fuel : nat) (now : Z) (b : memoryAddrBook) : option memoryAddrBook :=
  match PopIfExpired now (addrs b) with
  | None => None
  | Some (None, _) => Some b
  | Some (Some ea, pa) =>
      match fuel with
      | O => None
      | S fuel => gc_loop fuel now (maybeDeleteSignedPeerRecordUnlocked (ea_Peer ea) (set_addrs pa b))
      end
  end.
Definition gc (now : Z) (b : memoryAddrBook) : option memoryAddrBook := gc_loop (length (expiringHeap (addrs b))) now b.
End book.
