(* ===== verification/AddrBookFacts.v ===== *)
(** * The entries of the address book: the map, the heap and the store agree

    [idx_ok] says that the heap and the map of addresses point to the same entries and that
    every entry knows its place in the heap; the functions of container/heap keep it, and
    change nothing else ([strips]). *)

From stdpp Require Import base gmap list numbers sorting.
From Stdlib Require Import ZArith Lia.
From S2P Require Import Prelude GoText Multiaddr Heap AddrBook.

(** An entry without its place in the heap. *)
Record stripped := mkStripped { s_Addr : Multiaddr; s_TTL : Z; s_Expiry : Z; s_Peer : list Z; s_queued : bool }.
Definition strip (e : expiringAddr) : stripped :=
  mkStripped (ea_Addr e) (ea_TTL e) (ea_Expiry e) (ea_Peer e) (negb (heapIndex e =? -1)).
Definition strips (pa : peerAddrs) : gmap nat stripped := strip <$> store pa.
Definition set_queued (q : bool) (x : stripped) : stripped := mkStripped (s_Addr x) (s_TTL x) (s_Expiry x) (s_Peer x) q.
Definition unqueue : stripped -> stripped := set_queued false.

Record idx_ok (pa : peerAddrs) : Prop := {
  ptr_ok : forall a e, store pa !! a = Some e -> (a < next_ptr pa)%nat;
  map_ok : forall p k a, FindAddr p k pa = Some a ->
    exists e, store pa !! a = Some e /\ ea_Peer e = p /\ Bytes (ea_Addr e) = k /\
      (heapIndex e = -1 \/ exists i, heapIndex e = Z.of_nat i /\ expiringHeap pa !! i = Some a);
  heap_at : forall i a, expiringHeap pa !! i = Some a ->
    exists e, store pa !! a = Some e /\ heapIndex e = Z.of_nat i /\
      FindAddr (ea_Peer e) (Bytes (ea_Addr e)) pa = Some a
}.

Lemma heap_inj pa i j a : idx_ok pa -> expiringHeap pa !! i = Some a -> expiringHeap pa !! j = Some a -> i = j.
Proof.
  intros Hok Hi Hj. destruct (heap_at _ Hok _ _ Hi) as (e & E & H1 & _). destruct (heap_at _ Hok _ _ Hj) as (e' & E' & H2 & _).
  rewrite E in E'. injection E' as <-. lia.
Qed.

(** The values the heap is ordered by, with the entry they belong to. *)
Definition expiry_of (st : gmap nat stripped) (a : nat) : nat * Z :=
  (a, match st !! a with Some x => s_Expiry x | None => 0 end).
Definition vals (pa : peerAddrs) : list (nat * Z) := expiry_of (strips pa) <$> expiringHeap pa.
Definition sooner (x y : nat * Z) : bool := x.2 <? y.2.

#[export] Instance sooner_order : WeakOrder sooner.
Proof. split; unfold sooner; intros *; rewrite ?Z.ltb_lt, ?Z.ltb_ge; lia. Qed.

Lemma deref_expiry pa a : ea_Expiry (deref pa a) = (expiry_of (strips pa) a).2.
Proof. unfold deref, expiry_of, strips. rewrite lookup_fmap. by destruct (store pa !! a). Qed.

Lemma fst_vals pa : fst <$> vals pa = expiringHeap pa.
Proof. unfold vals. rewrite <- list_fmap_compose. apply list_fmap_id. Qed.

Lemma vals_lookup pa i : (i < length (expiringHeap pa))%nat -> vals pa !!! i = expiry_of (strips pa) (expiringHeap pa !!! i).
Proof. intros Hi. unfold vals. apply (list_lookup_total_fmap (expiry_of (strips pa)) _ _ Hi). Qed.

Lemma strip_set_index i e : heapIndex e <> -1 -> i <> -1 -> strip (set_index i e) = strip e.
Proof. intros. unfold strip. cbn. by rewrite !(proj2 (Z.eqb_neq _ _)). Qed.

Definition same_but_heap (pa0 pa : peerAddrs) : Prop :=
  strips pa = strips pa0 /\ pa_Addrs pa = pa_Addrs pa0 /\ next_ptr pa = next_ptr pa0.

Lemma FindAddr_frame pa pa' p k : pa_Addrs pa = pa_Addrs pa' -> FindAddr p k pa = FindAddr p k pa'.
Proof. unfold FindAddr. by intros ->. Qed.

(** ** Swapping *)

Lemma Swap_store i j pa a e :
  idx_ok pa -> (i < length (expiringHeap pa))%nat -> (j < length (expiringHeap pa))%nat -> store pa !! a = Some e ->
  store (Swap (X := nat) i j pa) !! a =
  Some (if decide (a = expiringHeap pa !!! i) then set_index (Z.of_nat j) e
        else if decide (a = expiringHeap pa !!! j) then set_index (Z.of_nat i) e else e).
Proof.
  intros Hok Hi Hj E.
  assert (swap i j (expiringHeap pa) !!! i = expiringHeap pa !!! j) as Ei by (rewrite swap_lookup by done; by rewrite Nat.eqb_refl).
  assert (swap i j (expiringHeap pa) !!! j = expiringHeap pa !!! i) as Ej.
  { rewrite swap_lookup by done. rewrite Nat.eqb_refl. by destruct (Nat.eqb_spec j i) as [->|]. }
  cbn. rewrite Ei, Ej. clear Ei Ej Hi Hj. generalize (expiringHeap pa !!! i) (expiringHeap pa !!! j). intros hi hj.
  rewrite !lookup_alter. destruct (decide (hi = a)), (decide (hj = a)), (decide (hj = hi)); subst; rewrite ?E; cbn; repeat case_decide; subst; rewrite ?E; try done; congruence.
Qed.

Lemma swap_lookup_opt {A} `{Inhabited A} i j k (l : list A) :
  (i < length l)%nat -> (j < length l)%nat ->
  swap i j l !! k = if decide (k = i) then l !! j else if decide (k = j) then l !! i else l !! k.
Proof.
  intros Hi Hj. unfold swap. case_decide; [subst; rewrite list_lookup_insert_eq by (by rewrite length_insert); by rewrite list_lookup_lookup_total_lt|].
  rewrite list_lookup_insert_ne by done. case_decide; [subst; rewrite list_lookup_insert_eq by done; by rewrite list_lookup_lookup_total_lt|].
  by rewrite list_lookup_insert_ne.
Qed.

Lemma Swap_idx i j pa :
  idx_ok pa -> (i < length (expiringHeap pa))%nat -> (j < length (expiringHeap pa))%nat ->
  idx_ok (Swap (X := nat) i j pa) /\ same_but_heap pa (Swap (X := nat) i j pa) /\
  expiringHeap (Swap (X := nat) i j pa) = swap i j (expiringHeap pa).
Proof.
  intros Hok Hi Hj. pose proof (list_lookup_lookup_total_lt _ i Hi) as Ei. pose proof (list_lookup_lookup_total_lt _ j Hj) as Ej.
  pose proof (fun a e => Swap_store i j pa a e Hok Hi Hj) as Hs.
  set (pa' := Swap (X := nat) i j pa) in *. assert (Hh : expiringHeap pa' = swap i j (expiringHeap pa)) by done.
  set (hi := expiringHeap pa !!! i) in *. set (hj := expiringHeap pa !!! j) in *. clearbody hi hj.
  assert (Hdom : forall a, is_Some (store pa' !! a) -> is_Some (store pa !! a)).
  { intros a. unfold pa'. cbn. by rewrite !lookup_alter_is_Some. }
  split; [split|split; [split|done]].
  - intros a e E. destruct (Hdom a) as [e0 E0]; [by eexists|]. exact (ptr_ok _ Hok _ _ E0).
  - intros p k a Hf. destruct (map_ok _ Hok p k a Hf) as (e & E & Hp & Hk & Hx). exists (if decide (a = hi) then set_index (Z.of_nat j) e
      else if decide (a = hj) then set_index (Z.of_nat i) e else e). split; [by apply Hs|]. rewrite Hh. case_decide as D1; [|case_decide as D2].
    + split_and!; [done..|]. right. exists j. split; [done|]. rewrite swap_lookup_opt by done. rewrite D1.
      repeat case_decide; subst; done.
    + split_and!; [done..|]. right. exists i. split; [done|]. rewrite swap_lookup_opt by done. rewrite decide_True by done. by rewrite D2.
    + split_and!; [done..|]. destruct Hx as [Hx|(x & Hx & Hax)]; [by left|]. right. exists x. split; [done|].
      rewrite swap_lookup_opt by done. rewrite !decide_False; [done|congruence|congruence].
  - intros k a. rewrite Hh, swap_lookup_opt by done. intros Ha.
    assert (exists k0, expiringHeap pa !! k0 = Some a) as [k0 Hk0] by (repeat case_decide; eauto).
    destruct (heap_at _ Hok k0 a Hk0) as (e & E & Hx & Hf). eexists. split; [by apply Hs|]. split.
    + pose proof (fun x y => heap_inj pa x y a Hok) as Hinj.
      case_decide as D1; [|case_decide as D2]; case_decide as D3; try case_decide as D4; cbn; subst; try congruence; try done.
      all: first [f_equal; apply Hinj; congruence | rewrite Hx; f_equal; apply Hinj; congruence
        | exfalso; apply D1; apply Hinj; congruence | exfalso; apply D2; apply Hinj; congruence].
    + by repeat case_decide.
  - apply map_eq. intros a. unfold strips. rewrite !lookup_fmap. destruct (store pa !! a) as [e|] eqn:E.
    + rewrite (Hs a e E). cbn. f_equal. destruct (heap_at _ Hok i hi Ei) as (ei & E1 & X1 & _). destruct (heap_at _ Hok j hj Ej) as (ej & E2 & X2 & _).
      case_decide as D1; [|case_decide as D2]; [..|done]; subst; apply strip_set_index; try lia; congruence || (assert (e = ei) by congruence; subst; lia) || (assert (e = ej) by congruence; subst; lia).
    + destruct (store pa' !! a) eqn:E'; [|done]. destruct (Hdom a) as [? ?]; [by eexists|congruence].
  - done.
Qed.

(** ** The methods as a heap *)

Definition heap_frame (pa0 pa : peerAddrs) : Prop := idx_ok pa /\ same_but_heap pa0 pa.

#[export] Instance peerAddrs_laws pa0 : HeapLaws (X := nat) sooner (heap_frame pa0) vals.
Proof.
  split.
  - intros pa _. unfold vals. by rewrite length_fmap.
  - intros pa i j _ Hi Hj. unfold sooner. cbn. rewrite !vals_lookup by done. by rewrite !deref_expiry.
  - intros pa i j [Hok (H1 & H2 & H3)] Hi Hj. destruct (Swap_idx i j pa Hok Hi Hj) as (A & (B1 & B2 & B3) & C).
    split; [split; [done|]; split_and!; congruence|]. unfold vals. rewrite B1, C. unfold swap. rewrite !list_fmap_insert.
    by rewrite !(list_lookup_total_fmap (expiry_of (strips pa)) (expiringHeap pa)) by done.
Qed.

(** [Pop] of the last entry of the heap. *)
Lemma Pop_last pa h a :
  idx_ok pa -> expiringHeap pa = h ++ [a] ->
  exists pa', Pop pa = Some (a, pa') /\ idx_ok pa' /\ expiringHeap pa' = h /\
    pa_Addrs pa' = pa_Addrs pa /\ next_ptr pa' = next_ptr pa /\ strips pa' = alter unqueue a (strips pa).
Proof.
  intros Hok Eh. cbn. rewrite Eh, last_snoc. eexists. split; [reflexivity|].
  rewrite length_app. cbn [length]. replace (length h + 1 - 1)%nat with (length h) by lia. rewrite take_app_length.
  assert (Hlast : expiringHeap pa !! length h = Some a) by (by rewrite Eh, list_lookup_middle).
  split; [split|].
  - intros b e. cbn. intros E. assert (is_Some (alter (set_index (-1)) a (store pa) !! b)) as Hs by (by eexists).
    rewrite lookup_alter_is_Some in Hs. destruct Hs as [e0 E0]. exact (ptr_ok _ Hok _ _ E0).
  - intros p k b Hf. destruct (map_ok _ Hok p k b Hf) as (e & E & Hp & Hk & Hx). cbn. destruct (decide (b = a)) as [->|Hne].
    + exists (set_index (-1) e). rewrite lookup_alter_eq, E. split_and!; [done..|by left].
    + exists e. rewrite lookup_alter_ne by done. split_and!; [done..|]. destruct Hx as [Hx|(i & Hx & Hi)]; [by left|]. right. exists i.
      split; [done|]. rewrite Eh in Hi. apply lookup_snoc_Some in Hi as [[_ Hi]|[_ Hi]]; [done|congruence].
  - cbn. intros i b Hi. assert (Hi' : expiringHeap pa !! i = Some b) by (rewrite Eh; by apply lookup_app_l_Some).
    destruct (heap_at _ Hok i b Hi') as (e & E & Hx & Hf). exists e. assert (b <> a).
    { intros ->. assert (i = length h) by (by eapply heap_inj). apply lookup_lt_Some in Hi. lia. }
    by rewrite lookup_alter_ne.
  - cbn. split_and!; [done..|]. unfold strips. cbn. apply map_eq. intros b. rewrite lookup_fmap. destruct (decide (b = a)) as [->|].
    + rewrite !lookup_alter_eq, lookup_fmap. by destruct (store pa !! a).
    + by rewrite !lookup_alter_ne, lookup_fmap.
Qed.

Lemma vals_snoc pa l x : vals pa = l ++ [x] -> expiringHeap pa = (fst <$> l) ++ [fst x].
Proof. intros E. rewrite <- fst_vals, E. by rewrite fmap_app. Qed.

Lemma vals_alter pa pa' l a :
  strips pa' = alter unqueue a (strips pa) -> expiringHeap pa' = fst <$> l -> vals pa = l ++ [expiry_of (strips pa) a] -> vals pa' = l.
Proof.
  intros Hs Hh Hv. unfold vals. rewrite Hs, Hh. assert (forall b, expiry_of (alter unqueue a (strips pa)) b = expiry_of (strips pa) b) as He.
  { intros b. unfold expiry_of. f_equal. destruct (decide (a = b)) as [->|]; [rewrite lookup_alter_eq|by rewrite lookup_alter_ne].
    by destruct (strips pa !! b). }
  assert (Forall (fun x => expiry_of (strips pa) x.1 = x) (vals pa)) as Hf.
  { apply Forall_forall. intros x Hx. unfold vals in Hx. apply list_elem_of_fmap in Hx as (b & -> & _). done. }
  rewrite Hv in Hf. apply Forall_app in Hf as [Hf _]. rewrite <- list_fmap_compose. rewrite <- (list_fmap_id l) at 2.
  apply list_fmap_ext. intros i x Hx. cbn. rewrite He. by eapply Forall_lookup_1 in Hf.
Qed.

Lemma Remove_idx i a pa :
  idx_ok pa -> near_heap sooner (length (vals pa)) i (vals pa) -> expiringHeap pa !! i = Some a ->
  exists pa', heap_Remove (X := nat) i pa = Some (a, pa') /\ idx_ok pa' /\ heap_ok sooner (vals pa') /\
    pa_Addrs pa' = pa_Addrs pa /\ next_ptr pa' = next_ptr pa /\ strips pa' = alter unqueue a (strips pa) /\
    expiringHeap pa ≡ₚ a :: expiringHeap pa'.
Proof.
  intros Hok Hh Hi. pose proof (lookup_lt_Some _ _ _ Hi) as Hlt.
  destruct (sim_Remove (X := nat) sooner (heap_frame pa) vals i pa) as (s & l & E & [Hs (H1 & H2 & H3)] & Hv & Hl & Hp); [by split|done|done|].
  rewrite vals_lookup in Hv, Hp by done. rewrite (list_lookup_total_correct _ _ _ Hi) in Hv, Hp.
  destruct (Pop_last s (fst <$> l) a Hs (vals_snoc _ _ _ Hv)) as (pa' & E' & A & B & C & D & F). exists pa'. rewrite E.
  assert (vals pa' = l) as Hv' by (eapply vals_alter; [exact F|exact B|by rewrite H1]).
  split_and!; [done|done|by rewrite Hv'|congruence|congruence|congruence|].
  rewrite <- (fst_vals pa), Hp, <- Hv'. cbn. by rewrite fst_vals.
Qed.

Lemma Pop_idx pa :
  idx_ok pa -> heap_ok sooner (vals pa) -> expiringHeap pa <> [] ->
  exists a pa', expiringHeap pa !! 0%nat = Some a /\ heap_Pop pa = Some (a, pa') /\ idx_ok pa' /\ heap_ok sooner (vals pa') /\
    pa_Addrs pa' = pa_Addrs pa /\ next_ptr pa' = next_ptr pa /\ strips pa' = alter unqueue a (strips pa) /\
    expiringHeap pa ≡ₚ a :: expiringHeap pa' /\
    forall b, b ∈ expiringHeap pa -> ea_Expiry (deref pa a) <= ea_Expiry (deref pa b).
Proof.
  intros Hok Hh Hne. assert (Hlt : (0 < length (expiringHeap pa))%nat) by (destruct (expiringHeap pa); [done|simpl; lia]).
  destruct (lookup_lt_is_Some_2 _ _ Hlt) as [a Ha].
  destruct (sim_Pop (X := nat) sooner (heap_frame pa) vals pa) as (s & l & E & [Hs (H1 & H2 & H3)] & Hv & Hl & Hp & Hmin); [by split|done|done|].
  rewrite vals_lookup in Hv, Hp, Hmin by done. rewrite (list_lookup_total_correct _ _ _ Ha) in Hv, Hp, Hmin.
  destruct (Pop_last s (fst <$> l) a Hs (vals_snoc _ _ _ Hv)) as (pa' & E' & A & B & C & D & F). exists a, pa'. rewrite E.
  assert (vals pa' = l) as Hv' by (eapply vals_alter; [exact F|exact B|by rewrite H1]).
  split_and!; [done|done|done|by rewrite Hv'|congruence|congruence|congruence| |].
  - rewrite <- (fst_vals pa), Hp, <- Hv'. cbn. by rewrite fst_vals.
  - intros b Hb. rewrite !deref_expiry. rewrite Forall_forall in Hmin. specialize (Hmin (expiry_of (strips pa) b)). unfold hle, sooner in Hmin.
    apply Z.ltb_ge. apply Hmin. unfold vals. apply list_elem_of_fmap. eauto.
Qed.

(** ** Addresses by peer and bytes *)

Record item := mkItem { i_TTL : Z; i_Expiry : Z; i_queued : bool }.
Definition item_of (x : stripped) : item := mkItem (s_TTL x) (s_Expiry x) (s_queued x).
Definition items (pa : peerAddrs) : gmap (list Z * list Z) item :=
  omap (M := gmap (list Z * list Z)) (fun a => item_of <$> strips pa !! a)
    (map_uncurry (M1 := gmap (list Z)) (M2 := gmap (list Z)) (M12 := gmap (list Z * list Z)) (pa_Addrs pa)).

Record pa_ok (pa : peerAddrs) : Prop := {
  pa_idx : idx_ok pa;
  pa_heap : heap_ok sooner (vals pa);
  pa_nonempty : forall p m, pa_Addrs pa !! p = Some m -> m <> ∅;
  pa_unconnected : forall a e, a ∈ expiringHeap pa -> store pa !! a = Some e -> IsConnected e = false
}.

Lemma items_lookup pa p k : items pa !! (p, k) = FindAddr p k pa ≫= fun a => item_of <$> strips pa !! a.
Proof. unfold items, FindAddr. by rewrite lookup_omap, lookup_map_uncurry. Qed.

Lemma items_found pa p k a e : FindAddr p k pa = Some a -> store pa !! a = Some e -> items pa !! (p, k) = Some (item_of (strip e)).
Proof. intros Hf E. rewrite items_lookup, Hf. cbn. unfold strips. by rewrite lookup_fmap, E. Qed.

Lemma items_none pa p k : idx_ok pa -> items pa !! (p, k) = None <-> FindAddr p k pa = None.
Proof.
  intros Hok. split; [|intros E; by rewrite items_lookup, E]. intros Hi. destruct (FindAddr p k pa) as [a|] eqn:Ef; [|done].
  destruct (map_ok _ Hok _ _ _ Ef) as (e & E & _). by rewrite (items_found _ _ _ _ _ Ef E) in Hi.
Qed.

Lemma FindAddr_inj pa p k p' k' a : idx_ok pa -> FindAddr p k pa = Some a -> FindAddr p' k' pa = Some a -> p = p' /\ k = k'.
Proof.
  intros Hok H1 H2. destruct (map_ok _ Hok _ _ _ H1) as (e & E & <- & <- & _). destruct (map_ok _ Hok _ _ _ H2) as (e' & E' & <- & <- & _).
  rewrite E in E'. by injection E' as <-.
Qed.

(** Only the entry at [a] changes. *)
Lemma items_alter pa pa' p k a f g :
  idx_ok pa -> FindAddr p k pa = Some a -> pa_Addrs pa' = pa_Addrs pa -> strips pa' = alter f a (strips pa) ->
  (forall x, strips pa !! a = Some x -> item_of (f x) = g (item_of x)) -> items pa' = alter g (p, k) (items pa).
Proof.
  intros Hok Hf Ha Hs Hg. apply map_eq. intros [p' k']. rewrite items_lookup, (FindAddr_frame pa' pa) by done.
  destruct (decide ((p', k') = (p, k))) as [[= -> ->]|Hne].
  - rewrite lookup_alter_eq, items_lookup, Hf. cbn. rewrite Hs, lookup_alter_eq. destruct (strips pa !! a) eqn:E; [|done]. cbn. by rewrite Hg.
  - rewrite lookup_alter_ne by done. rewrite items_lookup. destruct (FindAddr p' k' pa) as [b|] eqn:Eb; [|done]. cbn.
    rewrite Hs, lookup_alter_ne; [done|]. intros ->. destruct (FindAddr_inj _ _ _ _ _ _ Hok Hf Eb). congruence.
Qed.

(** ** Deleting a key *)

Lemma FindAddr_delete_key pa p k p' k' :
  FindAddr p' k' (delete_key p k pa) = if decide ((p', k') = (p, k)) then None else FindAddr p' k' pa.
Proof.
  unfold FindAddr, delete_key. cbn. set (m := delete k (default ∅ (pa_Addrs pa !! p))).
  assert ((if bool_decide (m = ∅) then delete p (pa_Addrs pa) else <[p := m]> (pa_Addrs pa)) !! p' ≫= (.!! k') =
          if decide (p' = p) then m !! k' else pa_Addrs pa !! p' ≫= (.!! k')) as ->.
  { case_bool_decide as Em; case_decide as Ep; subst.
    - rewrite lookup_delete_eq, Em. by rewrite lookup_empty.
    - by rewrite lookup_delete_ne.
    - by rewrite lookup_insert_eq.
    - by rewrite lookup_insert_ne. }
  unfold m. case_decide as Ep; case_decide as Ek; try congruence.
  - injection Ek as -> ->. apply lookup_delete_eq.
  - subst p'. rewrite lookup_delete_ne by congruence. by destruct (pa_Addrs pa !! p).
Qed.

(** The entry at [a] is out of the heap, and leaves the map. *)
Lemma delete_key_ok pa p k a :
  idx_ok pa -> FindAddr p k pa = Some a -> a ∉ expiringHeap pa ->
  idx_ok (delete_key p k pa) /\ items (delete_key p k pa) = delete (p, k) (items pa).
Proof.
  intros Hok Hf Hn. split; [split|].
  - exact (ptr_ok _ Hok).
  - intros p' k' b. rewrite FindAddr_delete_key. case_decide; [done|]. apply (map_ok _ Hok).
  - intros i b Hb. destruct (heap_at _ Hok i b Hb) as (e & E & Hx & Hfb). exists e. split_and!; [done..|].
    rewrite FindAddr_delete_key. case_decide as D; [|done]. injection D as D1 D2. rewrite D1, D2, Hf in Hfb. injection Hfb as <-.
    destruct Hn. by eapply list_elem_of_lookup_2.
  - apply map_eq. intros [p' k']. rewrite items_lookup, FindAddr_delete_key. case_decide as D.
    + rewrite D. by rewrite lookup_delete_eq.
    + rewrite lookup_delete_ne by congruence. by rewrite items_lookup.
Qed.

Lemma delete_key_nonempty pa p k :
  (forall q m, pa_Addrs pa !! q = Some m -> m <> ∅) -> forall q m, pa_Addrs (delete_key p k pa) !! q = Some m -> m <> ∅.
Proof.
  intros Hne q m. unfold delete_key. cbn. case_bool_decide as E; destruct (decide (q = p)) as [->|].
  - by rewrite lookup_delete_eq.
  - rewrite lookup_delete_ne by done. apply Hne.
  - rewrite lookup_insert_eq. by intros [= <-].
  - rewrite lookup_insert_ne by done. apply Hne.
Qed.

(** ** The operations *)

Lemma deref_found pa a e : store pa !! a = Some e -> deref pa a = e.
Proof. unfold deref. by intros ->. Qed.

Lemma heap_stored pa a i : idx_ok pa -> expiringHeap pa !! i = Some a -> heapIndex (deref pa a) = Z.of_nat i.
Proof. intros Hok Hi. destruct (heap_at _ Hok _ _ Hi) as (e & E & Hx & _). by rewrite (deref_found _ _ _ E). Qed.

Lemma not_queued pa a e : idx_ok pa -> store pa !! a = Some e -> heapIndex e = -1 -> a ∉ expiringHeap pa.
Proof.
  intros Hok E Hx Hin. apply list_elem_of_lookup in Hin as [i Hi]. pose proof (heap_stored _ _ _ Hok Hi) as Hs. rewrite (deref_found _ _ _ E) in Hs. lia.
Qed.

(** Connectedness is part of what the heap functions do not change. *)
Lemma stripped_unconnected pa pa' f a :
  (forall b e, b ∈ expiringHeap pa -> store pa !! b = Some e -> b <> a -> IsConnected e = false) ->
  strips pa' = alter f a (strips pa) -> (forall b, b ∈ expiringHeap pa' -> b ∈ expiringHeap pa /\ b <> a) ->
  forall b e, b ∈ expiringHeap pa' -> store pa' !! b = Some e -> IsConnected e = false.
Proof.
  intros Hun Hs Hin b e Hb E. destruct (Hin b Hb) as [Hb' Hne].
  assert (strips pa' !! b = strips pa !! b) as Es by (by rewrite Hs, lookup_alter_ne). unfold strips in Es. rewrite !lookup_fmap, E in Es.
  destruct (store pa !! b) as [e0|] eqn:E0; [|done]. cbn in Es. injection Es as _ Ht _ _ _. pose proof (Hun b e0 Hb' E0 Hne) as Hc.
  unfold IsConnected in *. by rewrite Ht.
Qed.

Lemma heap_nodup pa : idx_ok pa -> NoDup (expiringHeap pa).
Proof. intros Hok. apply NoDup_alt. intros i j x Hi Hj. by eapply heap_inj. Qed.

Lemma removed_others pa pa' a b :
  idx_ok pa -> expiringHeap pa ≡ₚ a :: expiringHeap pa' -> b ∈ expiringHeap pa' -> b ∈ expiringHeap pa /\ b <> a.
Proof.
  intros Hok Hp Hb. split; [rewrite Hp; by right|]. intros ->. pose proof (heap_nodup _ Hok) as Hnd. rewrite Hp in Hnd. by apply NoDup_cons in Hnd as [? _].
Qed.

Lemma unqueue_items pa pa' p k a :
  idx_ok pa -> FindAddr p k pa = Some a -> pa_Addrs pa' = pa_Addrs pa -> strips pa' = alter unqueue a (strips pa) ->
  delete (p, k) (items pa') = delete (p, k) (items pa).
Proof.
  intros Hok Hf Ha Hs. rewrite (items_alter pa pa' p k a unqueue (fun i => mkItem (i_TTL i) (i_Expiry i) false)) by done.
  apply delete_alter_eq.
Qed.

(** What is left when the entry at [a] was removed from the heap. *)
Lemma removed_ok pa pa' p k a :
  pa_ok pa -> FindAddr p k pa = Some a -> idx_ok pa' -> heap_ok sooner (vals pa') -> pa_Addrs pa' = pa_Addrs pa ->
  strips pa' = alter unqueue a (strips pa) -> expiringHeap pa ≡ₚ a :: expiringHeap pa' ->
  pa_ok (delete_key p k pa') /\ items (delete_key p k pa') = delete (p, k) (items pa) /\
  forall p' k', (p', k') <> (p, k) -> FindAddr p' k' (delete_key p k pa') = FindAddr p' k' pa.
Proof.
  intros [Hok Hh Hne Hun] Hf Hok' Hh' Ha Hs Hp.
  assert (a ∉ expiringHeap pa') as Hn by (intros Hin; by destruct (removed_others _ _ _ _ Hok Hp Hin)).
  assert (FindAddr p k pa' = Some a) as Hf' by (by rewrite (FindAddr_frame pa' pa)).
  destruct (delete_key_ok pa' p k a Hok' Hf' Hn) as [A B]. split_and!.
  - split; [done|done| |].
    + apply delete_key_nonempty. by rewrite Ha.
    + eapply (stripped_unconnected pa pa'); [by eauto|done|]. intros b. by apply removed_others.
  - rewrite B. by eapply unqueue_items.
  - intros p' k' Hne'. rewrite FindAddr_delete_key, decide_False by done. by apply FindAddr_frame.
Qed.

Lemma Delete_spec pa p k a :
  pa_ok pa -> FindAddr p k pa = Some a ->
  exists pa', Delete a pa = Some pa' /\ pa_ok pa' /\ items pa' = delete (p, k) (items pa) /\
    forall p' k', (p', k') <> (p, k) -> FindAddr p' k' pa' = FindAddr p' k' pa.
Proof.
  intros Hpa Hf. pose proof Hpa as [Hok Hh Hne Hun]. destruct (map_ok _ Hok _ _ _ Hf) as (e & E & Hp & Hk & Hx).
  unfold Delete. rewrite (deref_found _ _ _ E), Hp, Hk, Hf, (deref_found _ _ _ E). destruct Hx as [Hx|(i & Hx & Hi)]; rewrite Hx.
  - cbn. eexists. split; [done|]. pose proof (not_queued _ _ _ Hok E Hx) as Hn. destruct (delete_key_ok pa p k a Hok Hf Hn) as [A B].
    split_and!; [|done|]; [split; [done|done|by apply delete_key_nonempty|exact Hun]|].
    intros p' k' Hne'. by rewrite FindAddr_delete_key, decide_False.
  - rewrite (proj2 (Z.eqb_neq _ _)) by lia. cbn [negb]. unfold remove_at. rewrite (proj2 (Z.ltb_ge _ _)), Nat2Z.id by lia.
    assert (Hlt : (i < length (vals pa))%nat) by (unfold vals; rewrite length_fmap; by eapply lookup_lt_Some).
    destruct (Remove_idx i a pa Hok (heap_ok_near _ _ _ Hlt Hh) Hi) as (pa' & -> & A & B & C & D & F & G). cbn. eexists. split; [done|]. by eapply removed_ok.
Qed.

(** The length of the heap counts the queued items. *)
Definition queued_items (m : gmap (list Z * list Z) item) : gmap (list Z * list Z) item := filter (fun x => i_queued x.2 = true) m.

Definition key_of (pa : peerAddrs) (a : nat) : list Z * list Z := (ea_Peer (deref pa a), Bytes (ea_Addr (deref pa a))).

Lemma heap_count pa : idx_ok pa -> length (expiringHeap pa) = size (queued_items (items pa)).
Proof.
  intros Hok. rewrite <- size_dom. assert (dom (queued_items (items pa)) = list_to_set (C := gset _) (key_of pa <$> expiringHeap pa)) as ->.
  - apply set_eq. intros [p k]. rewrite elem_of_dom, elem_of_list_to_set, list_elem_of_fmap. split.
    + intros [x Hx]. apply map_lookup_filter_Some in Hx as [Hx Hq]. rewrite items_lookup in Hx.
      destruct (FindAddr p k pa) as [a|] eqn:Ef; [|done]. destruct (map_ok _ Hok _ _ _ Ef) as (e & E & Hp & Hk & Hi). exists a.
      unfold key_of. rewrite (deref_found _ _ _ E), Hp, Hk. split; [done|]. cbn in Hx. unfold strips in Hx. rewrite lookup_fmap, E in Hx.
      injection Hx as <-. destruct Hi as [Hi|(i & _ & Hi)]; [cbn in Hq; by rewrite Hi in Hq|by eapply list_elem_of_lookup_2].
    + intros (a & Ek & Ha). apply list_elem_of_lookup in Ha as [i Hi]. destruct (heap_at _ Hok _ _ Hi) as (e & E & Hx & Hf).
      unfold key_of in Ek. rewrite (deref_found _ _ _ E) in Ek. injection Ek as -> ->. exists (item_of (strip e)). apply map_lookup_filter_Some.
      split; [by apply (items_found _ _ _ a)|]. cbn. rewrite (proj2 (Z.eqb_neq _ _)) by lia. done.
  - rewrite size_list_to_set; [by rewrite length_fmap|]. apply NoDup_fmap_2_strong; [|by apply heap_nodup].
    intros a b Ha Hb Ek. apply list_elem_of_lookup in Ha as [i Hi]. apply list_elem_of_lookup in Hb as [j Hj].
    destruct (heap_at _ Hok _ _ Hi) as (e & E & _ & Hf). destruct (heap_at _ Hok _ _ Hj) as (e' & E' & _ & Hf'). unfold key_of in Ek.
    rewrite (deref_found _ _ _ E), (deref_found _ _ _ E') in Ek. injection Ek as Ep Ek. rewrite <- Ep, <- Ek, Hf in Hf'. congruence.
Qed.

(** ** Changing an entry *)

Lemma modify_idx f a e pa :
  idx_ok pa -> store pa !! a = Some e -> heapIndex (f e) = heapIndex e -> ea_Peer (f e) = ea_Peer e -> Bytes (ea_Addr (f e)) = Bytes (ea_Addr e) ->
  idx_ok (modify_addr f a pa) /\ store (modify_addr f a pa) = <[a := f e]> (store pa).
Proof.
  intros Hok E Hi Hp Hb. assert (store (modify_addr f a pa) = <[a := f e]> (store pa)) as Es 
    by (cbn; apply map_eq; intros b; destruct (decide (b = a)) as [->|]; [by rewrite lookup_alter_eq, lookup_insert_eq, E|by rewrite lookup_alter_ne, lookup_insert_ne]).
  split; [|done]. split.
  - intros b e'. rewrite Es. destruct (decide (b = a)) as [->|]; [intros _; exact (ptr_ok _ Hok _ _ E)|]. rewrite lookup_insert_ne by done. apply (ptr_ok _ Hok).
  - intros p k b Hf. destruct (map_ok _ Hok p k b Hf) as (e' & E' & Hp' & Hk' & Hx'). rewrite Es. destruct (decide (b = a)) as [->|].
    + rewrite E in E'. injection E' as <-. exists (f e). rewrite lookup_insert_eq. rewrite Hp, Hb, Hi. done.
    + exists e'. by rewrite lookup_insert_ne.
  - intros i b Hb'. destruct (heap_at _ Hok i b Hb') as (e' & E' & Hx' & Hf'). rewrite Es. destruct (decide (b = a)) as [->|].
    + rewrite E in E'. injection E' as <-. exists (f e). rewrite lookup_insert_eq. rewrite Hp, Hb, Hi. done.
    + exists e'. by rewrite lookup_insert_ne.
Qed.

Definition upd_item (ttl exp : Z) (x : item) : item := mkItem ttl exp (i_queued x && negb (ttlIsConnected ttl)).

Lemma strips_insert pa a e : strips (mkPeerAddrs (<[a := e]> (store pa)) (next_ptr pa) (pa_Addrs pa) (expiringHeap pa)) = <[a := strip e]> (strips pa).
Proof. unfold strips. cbn. apply fmap_insert. Qed.

Lemma vals_not_queued pa pa' a :
  expiringHeap pa' = expiringHeap pa -> a ∉ expiringHeap pa -> (forall b, b <> a -> strips pa' !! b = strips pa !! b) -> vals pa' = vals pa.
Proof.
  intros Hh Ha Hs. unfold vals. rewrite Hh. apply list_fmap_ext. intros i b Hb. unfold expiry_of. rewrite Hs; [done|].
  intros ->. destruct Ha. by eapply list_elem_of_lookup_2.
Qed.

Lemma vals_changed pa pa' a i exp :
  idx_ok pa -> expiringHeap pa' = expiringHeap pa -> expiringHeap pa !! i = Some a ->
  (forall b, b <> a -> strips pa' !! b = strips pa !! b) -> expiry_of (strips pa') a = (a, exp) -> vals pa' = <[i := (a, exp)]> (vals pa).
Proof.
  intros Hok Hh Hi Hs He. unfold vals. rewrite Hh. apply list_eq. intros j. destruct (decide (j = i)) as [->|Hne].
  - rewrite list_lookup_insert_eq by (rewrite length_fmap; by eapply lookup_lt_Some). by rewrite list_lookup_fmap, Hi, <- He.
  - rewrite list_lookup_insert_ne by done. rewrite !list_lookup_fmap. destruct (expiringHeap pa !! j) as [b|] eqn:Ej; [|done]. cbn. f_equal.
    unfold expiry_of. rewrite Hs; [done|]. intros ->. destruct Hne. by eapply heap_inj.
Qed.

Section change.
Context (pa : peerAddrs) (p k : list Z) (a : nat) (e : expiringAddr) (f : expiringAddr -> expiringAddr) (ttl exp : Z).
Hypothesis (Hpa : pa_ok pa) (Hf : FindAddr p k pa = Some a) (E : store pa !! a = Some e).
Hypothesis (Hfi : heapIndex (f e) = heapIndex e) (Hfp : ea_Peer (f e) = ea_Peer e) (Hfb : Bytes (ea_Addr (f e)) = Bytes (ea_Addr e)).
Hypothesis (Hft : ea_TTL (f e) = ttl) (Hfe : ea_Expiry (f e) = exp).

Let pa1 := modify_addr f a pa.
Let updated (pa' : peerAddrs) : Prop := pa_ok pa' /\ items pa' = alter (upd_item ttl exp) (p, k) (items pa) /\ pa_Addrs pa' = pa_Addrs pa.

Lemma changed_idx : idx_ok pa1.
Proof. by apply (modify_idx f a e pa (pa_idx _ Hpa) E Hfi Hfp Hfb). Qed.

Lemma changed_store : store pa1 = <[a := f e]> (store pa).
Proof. by apply (modify_idx f a e pa (pa_idx _ Hpa) E Hfi Hfp Hfb). Qed.

Lemma changed_strips : strips pa1 = <[a := strip (f e)]> (strips pa).
Proof. unfold strips. rewrite changed_store. apply fmap_insert. Qed.

Lemma changed_others b : b <> a -> strips pa1 !! b = strips pa !! b.
Proof. intros Hb. by rewrite changed_strips, lookup_insert_ne. Qed.

Lemma changed_unconnected b e' : b ∈ expiringHeap pa -> store pa1 !! b = Some e' -> b <> a -> IsConnected e' = false.
Proof. intros Hb Eb Hba. rewrite changed_store, lookup_insert_ne in Eb by done. by eapply (pa_unconnected _ Hpa). Qed.

Lemma changed_items pa' F :
  pa_Addrs pa' = pa_Addrs pa -> strips pa' = alter F a (strips pa1) -> item_of (F (strip (f e))) = upd_item ttl exp (item_of (strip e)) ->
  items pa' = alter (upd_item ttl exp) (p, k) (items pa).
Proof.
  intros Ha Hs HF. assert (strips pa !! a = Some (strip e)) as Hsa by (unfold strips; by rewrite lookup_fmap, E).
  apply (items_alter pa pa' p k a (fun _ => F (strip (f e)))); [apply Hpa|done|done| |intros x Hx; congruence].
  rewrite Hs, changed_strips. apply map_eq. intros b. destruct (decide (b = a)) as [->|].
  - by rewrite !lookup_alter_eq, lookup_insert_eq, Hsa.
  - by rewrite !lookup_alter_ne, lookup_insert_ne.
Qed.

Lemma changed_unqueued : heapIndex e = -1 -> updated pa1.
Proof.
  intros Hx. pose proof (not_queued _ _ _ (pa_idx _ Hpa) E Hx) as Hn. split; [split; [apply changed_idx| |exact (pa_nonempty _ Hpa)|]|split; [|done]].
  - rewrite (vals_not_queued pa pa1 a); [apply Hpa|done|done|apply changed_others].
  - intros b e' Hb Eb. apply (changed_unconnected b e' Hb Eb). by intros ->.
  - apply (changed_items pa1 id); [done|by rewrite alter_id|]. unfold upd_item, item_of, strip, id. cbn. by rewrite Hfi, Hx, Hft, Hfe.
Qed.

Lemma changed_vals i : expiringHeap pa !! i = Some a -> vals pa1 = <[i := (a, exp)]> (vals pa).
Proof.
  intros Hi. apply vals_changed; [apply Hpa|done|done|apply changed_others|]. unfold expiry_of. by rewrite changed_strips, lookup_insert_eq, <- Hfe.
Qed.

Lemma changed_connected i :
  expiringHeap pa !! i = Some a -> ttlIsConnected ttl = true -> exists pa', heap_Remove (X := nat) i pa1 = Some (a, pa') /\ updated pa'.
Proof.
  intros Hi Ec. assert (Hlv : (i < length (vals pa))%nat) by (unfold vals; rewrite length_fmap; by eapply lookup_lt_Some).
  destruct (Remove_idx i a pa1 changed_idx) as (pa' & Er & A & B & C & D & F & G).
  { rewrite (changed_vals i Hi), length_insert. apply heap_near; [exact _|lia|done|apply Hpa]. }
  { done. }
  exists pa'. split; [done|]. split; [split; [done|done| |]|split; [|done]].
  - rewrite C. apply Hpa.
  - eapply (stripped_unconnected pa1 pa'); [exact changed_unconnected|exact F|]. intros b. apply removed_others; [apply changed_idx|done].
  - apply (changed_items pa' unqueue); [done|done|]. unfold upd_item, item_of, strip, id. cbn. by rewrite Hft, Hfe, Ec, andb_false_r.
Qed.

Lemma changed_requeued i :
  expiringHeap pa !! i = Some a -> heapIndex e = Z.of_nat i -> ttlIsConnected ttl = false -> updated (heap_Fix (X := nat) i pa1).
Proof.
  intros Hi Hx Ec. pose proof (lookup_lt_Some _ _ _ Hi) as Hlt. assert (Hlv : (i < length (vals pa))%nat) by (unfold vals; by rewrite length_fmap).
  destruct (sim_Fix (X := nat) sooner (heap_frame pa1) vals i pa1) as [[A (B1 & B2 & B3)] C]; [split; [apply changed_idx|done]|done|].
  rewrite (changed_vals i Hi) in C. destruct (Fix_heap sooner i (a, exp) (vals pa) Hlv (pa_heap _ Hpa)) as [Hh' Hp'].
  split; [split; [done|by rewrite C|rewrite B2; apply Hpa|]|split; [|by rewrite B2]].
  - intros b e' Hb Eb. assert (b ∈ expiringHeap pa) as Hb'.
    { rewrite <- fst_vals, C in Hb. rewrite Hp', <- (changed_vals i Hi), fst_vals in Hb. done. }
    assert (strips pa1 !! b = Some (strip e')) as Eb' by (rewrite <- B1; unfold strips; by rewrite lookup_fmap, Eb).
    unfold strips in Eb'. rewrite lookup_fmap in Eb'. destruct (store pa1 !! b) as [e1|] eqn:E1; [|done]. injection Eb' as _ Ht _ _ _.
    unfold IsConnected. rewrite <- Ht. destruct (decide (b = a)) as [->|Hba]; [|by apply (changed_unconnected b)].
    rewrite changed_store, lookup_insert_eq in E1. injection E1 as <-. by rewrite Hft.
  - apply (changed_items _ id); [done|by rewrite alter_id|]. unfold upd_item, item_of, strip, id. cbn. by rewrite Hfi, Hft, Hfe, Ec, andb_true_r.
Qed.

Lemma Update_spec :
  exists pa', Update a pa1 = Some pa' /\ pa_ok pa' /\ items pa' = alter (upd_item ttl exp) (p, k) (items pa) /\ pa_Addrs pa' = pa_Addrs pa.
Proof.
  unfold Update. assert (deref pa1 a = f e) as -> by (unfold deref; by rewrite changed_store, lookup_insert_eq). rewrite Hfi.
  destruct (map_ok _ (pa_idx _ Hpa) _ _ _ Hf) as (e0 & E0 & Hp & Hk & Hx). rewrite E in E0. injection E0 as <-.
  destruct Hx as [Hx|(i & Hx & Hi)].
  { rewrite Hx. eexists. split; [done|]. by apply changed_unqueued. }
  rewrite Hx, (proj2 (Z.eqb_neq _ _)) by lia. unfold IsConnected, remove_at. rewrite Hft, Nat2Z.id. destruct (ttlIsConnected ttl) eqn:Ec.
  - rewrite (proj2 (Z.ltb_ge _ _)) by lia. destruct (changed_connected i Hi Ec) as (pa' & -> & ?). by eexists.
  - pose proof (lookup_lt_Some _ _ _ Hi). rewrite (proj2 (Z.ltb_ge _ _)), (proj2 (Z.leb_gt _ _)) by (cbn; lia). eexists. split; [done|]. by apply changed_requeued.
Qed.
End change.

(** ** A new entry *)

Definition new_item (ttl exp : Z) : item := mkItem ttl exp (negb (ttlIsConnected ttl)).

Section insertion.
Context (pa : peerAddrs) (e : expiringAddr) (Hpa : pa_ok pa) (Hnew : FindAddr (ea_Peer e) (Bytes (ea_Addr e)) pa = None).
Let p := ea_Peer e.
Let k := Bytes (ea_Addr e).
Let a := next_ptr pa.

(** The state before the heap is touched. *)
Definition stored : peerAddrs :=
  mkPeerAddrs (<[next_ptr pa := set_index (-1) e]> (store pa)) (S (next_ptr pa))
    (<[ea_Peer e := <[Bytes (ea_Addr e) := next_ptr pa]> (default ∅ (pa_Addrs pa !! ea_Peer e))]> (pa_Addrs pa)) (expiringHeap pa).

Lemma ptr_fresh : store pa !! a = None.
Proof. destruct (store pa !! a) as [x|] eqn:E; [|done]. pose proof (ptr_ok _ (pa_idx _ Hpa) _ _ E). unfold a in *. lia. Qed.

Lemma heap_fresh : a ∉ expiringHeap pa.
Proof. intros Hin. apply list_elem_of_lookup in Hin as [i Hi]. destruct (heap_at _ (pa_idx _ Hpa) _ _ Hi) as (x & E & _). by rewrite ptr_fresh in E. Qed.

Lemma FindAddr_stored p' k' : FindAddr p' k' stored = if decide ((p', k') = (p, k)) then Some a else FindAddr p' k' pa.
Proof.
  unfold FindAddr, stored. cbn. fold p k a. destruct (decide (p' = p)) as [->|Hp].
  - rewrite lookup_insert_eq. cbn. destruct (decide (k' = k)) as [->|Hk].
    + by rewrite lookup_insert_eq, decide_True.
    + rewrite lookup_insert_ne, decide_False by congruence. by destruct (pa_Addrs pa !! p).
  - by rewrite lookup_insert_ne, decide_False by congruence.
Qed.

Lemma stored_ok : pa_ok stored.
Proof.
  pose proof Hpa as [Hok Hh Hne Hun]. split.
  - split.
    + intros b x. cbn. fold a. destruct (decide (b = a)) as [->|]; [lia|]. rewrite lookup_insert_ne by done. intros E. pose proof (ptr_ok _ Hok _ _ E). lia.
    + intros p' k' b. rewrite FindAddr_stored. case_decide as D.
      * intros [= <-]. injection D as -> ->. exists (set_index (-1) e). cbn. fold a. rewrite lookup_insert_eq. split_and!; [done..|by left].
      * intros Hf. destruct (map_ok _ Hok _ _ _ Hf) as (x & E & H1 & H2 & H3). exists x. cbn. fold a.
        rewrite lookup_insert_ne; [done|]. intros <-. by rewrite ptr_fresh in E.
    + intros i b Hb. destruct (heap_at _ Hok i b Hb) as (x & E & H1 & H2). exists x. rewrite FindAddr_stored. cbn. fold a.
      rewrite lookup_insert_ne by (intros <-; by rewrite ptr_fresh in E). split_and!; [done..|]. case_decide as D; [|done].
      injection D as D1 D2. rewrite D1, D2 in H2. unfold p, k in H2. by rewrite Hnew in H2.
  - rewrite (vals_not_queued pa stored a); [done|done|apply heap_fresh|]. intros b Hb. unfold strips, stored. cbn. by rewrite fmap_insert, lookup_insert_ne.
  - intros q m. cbn. destruct (decide (q = ea_Peer e)) as [->|]; [|rewrite lookup_insert_ne by done; apply Hne].
    rewrite lookup_insert_eq. intros [= <-]. apply insert_non_empty.
  - intros b x Hb. cbn. fold a. rewrite lookup_insert_ne; [by apply Hun|]. intros <-. by apply heap_fresh in Hb.
Qed.

Lemma stored_items : items stored = <[(p, k) := mkItem (ea_TTL e) (ea_Expiry e) false]> (items pa).
Proof.
  apply map_eq. intros [p' k']. rewrite items_lookup, FindAddr_stored. case_decide as D.
  - rewrite D, lookup_insert_eq. cbn. unfold strips, stored. cbn. fold a. by rewrite fmap_insert, lookup_insert_eq.
  - rewrite lookup_insert_ne by congruence. rewrite items_lookup. destruct (FindAddr p' k' pa) as [b|] eqn:Eb; [|done]. cbn. unfold strips, stored. cbn. fold a.
    rewrite fmap_insert, lookup_insert_ne; [done|]. intros <-. destruct (map_ok _ (pa_idx _ Hpa) _ _ _ Eb) as (x & E & _). by rewrite ptr_fresh in E.
Qed.

Lemma Push_stored :
  idx_ok (Push a stored) /\ strips (Push a stored) = alter (set_queued true) a (strips stored) /\ vals (Push a stored) = vals stored ++ [(a, ea_Expiry e)].
Proof.
  pose proof stored_ok as [Hok _ _ _]. assert (Ea : store stored !! a = Some (set_index (-1) e)) by (cbn; fold a; by rewrite lookup_insert_eq).
  assert (Hs : forall b x, b <> a -> store (Push a stored) !! b = store stored !! b) by (intros b x Hb; cbn; by rewrite lookup_alter_ne).
  assert (Ea' : store (Push a stored) !! a = Some (set_index (Z.of_nat (length (expiringHeap pa))) e)) by (cbn; fold a; by rewrite lookup_alter_eq, lookup_insert_eq).
  assert (Hh : expiringHeap (Push a stored) = expiringHeap pa ++ [a]) by done.
  assert (Hst : strips (Push a stored) = alter (set_queued true) a (strips stored)).
  { apply map_eq. intros b. unfold strips. rewrite lookup_fmap. destruct (decide (b = a)) as [->|].
    - rewrite lookup_alter_eq, lookup_fmap, Ea', Ea. cbn. unfold strip. cbn. rewrite (proj2 (Z.eqb_neq _ _)) by lia. done.
    - by rewrite lookup_alter_ne, lookup_fmap, Hs. }
  split; [split|split; [done|]].
  - intros b x E. destruct (decide (b = a)) as [->|]; [cbn; unfold a; lia|]. rewrite Hs in E by done. exact (ptr_ok _ Hok _ _ E).
  - intros p' k' b Hf. destruct (map_ok _ Hok p' k' b Hf) as (x & E & H1 & H2 & H3). rewrite Hh. destruct (decide (b = a)) as [->|Hb].
    + rewrite Ea in E. injection E as <-. eexists. split; [exact Ea'|]. split_and!; [done..|]. right. eexists. split; [done|]. by rewrite list_lookup_middle.
    + exists x. rewrite Hs by done. split_and!; [done..|]. destruct H3 as [|(i & ? & Hi)]; [by left|]. right. exists i. split; [done|]. by apply lookup_app_l_Some.
  - intros i b. rewrite Hh, lookup_snoc_Some. intros [[_ Hi]|[-> <-]].
    + destruct (heap_at _ Hok i b Hi) as (x & E & H1 & H2). exists x. rewrite Hs; [done|done|]. intros ->. by apply list_elem_of_lookup_2, heap_fresh in Hi.
    + eexists. split; [exact Ea'|]. split; [done|]. cbn. change (FindAddr p k stored = Some a). by rewrite FindAddr_stored, decide_True.
  - unfold vals. rewrite Hh, fmap_app, Hst. f_equal.
    + apply list_fmap_ext. intros i b Hb. unfold expiry_of. rewrite lookup_alter_ne; [done|]. intros <-. by apply list_elem_of_lookup_2, heap_fresh in Hb.
    + cbn [fmap list_fmap]. unfold expiry_of. rewrite lookup_alter_eq. unfold strips. by rewrite lookup_fmap, Ea.
Qed.

Lemma Insert_spec : pa_ok (Insert e pa) /\ items (Insert e pa) = <[(p, k) := new_item (ea_TTL e) (ea_Expiry e)]> (items pa).
Proof.
  unfold Insert. fold stored a. unfold IsConnected, new_item. pose proof stored_ok as Hst. pose proof Hst as [Hok Hh Hne Hun]. destruct (ttlIsConnected (ea_TTL e)) eqn:Ec.
  { split; [done|apply stored_items]. }
  destruct Push_stored as (A & B & C). destruct (sim_Push (X := nat) sooner (heap_frame (Push a stored)) vals a (a, ea_Expiry e) stored) as [[D (F1 & F2 & F3)] G]; [by split|done|].
  destruct (Push_heap sooner (a, ea_Expiry e) (vals stored) Hh) as [Hh' Hp'].
  assert (Hi : items (heap_Push a stored) = <[(p, k) := mkItem (ea_TTL e) (ea_Expiry e) true]> (items pa)).
  { rewrite (items_alter stored _ p k a (set_queued true) (fun i => mkItem (i_TTL i) (i_Expiry i) true)); [|done|by rewrite FindAddr_stored, decide_True|done|by rewrite F1|done].
    rewrite stored_items. apply map_eq. intros q. destruct (decide (q = (p, k))) as [->|]; [by rewrite lookup_alter_eq, !lookup_insert_eq|].
    by rewrite lookup_alter_ne, !lookup_insert_ne. }
  split; [|exact Hi]. split; [done|by rewrite G|by rewrite F2|]. intros b x Hb E.
  assert (strips (Push a stored) !! b = Some (strip x)) as Es by (rewrite <- F1; unfold strips; by rewrite lookup_fmap, E).
  rewrite <- fst_vals, G, Hp', fmap_cons in Hb. apply elem_of_cons in Hb. rewrite B in Es. destruct (decide (b = a)) as [->|Hba].
  - rewrite lookup_alter_eq in Es. unfold strips, stored in Es. cbn in Es. fold a in Es. rewrite fmap_insert, lookup_insert_eq in Es. injection Es as _ Ht _ _ _.
    unfold IsConnected. by rewrite <- Ht.
  - destruct Hb as [?|Hb]; [done|]. rewrite fst_vals in Hb. rewrite lookup_alter_ne in Es by done. unfold strips in Es. rewrite lookup_fmap in Es.
    destruct (store stored !! b) as [y|] eqn:Ey; [|done]. injection Es as _ Ht _ _ _. unfold IsConnected. rewrite <- Ht. by apply (Hun b).
Qed.
End insertion.

(** ** Taking out what has expired *)

Lemma PopIfExpired_spec now pa :
  pa_ok pa ->
  (PopIfExpired now pa = Some (None, pa) /\ forall q i, items pa !! q = Some i -> i_queued i = true -> now < i_Expiry i) \/
  (exists ea pa' i, PopIfExpired now pa = Some (Some ea, pa') /\ pa_ok pa' /\
     items pa !! (ea_Peer ea, Bytes (ea_Addr ea)) = Some i /\ i_queued i = true /\ i_Expiry i <= now /\
     items pa' = delete (ea_Peer ea, Bytes (ea_Addr ea)) (items pa) /\ length (expiringHeap pa) = S (length (expiringHeap pa'))).
Proof.
  intros Hpa. pose proof Hpa as [Hok Hh Hne Hun]. unfold PopIfExpired, NextExpiry.
  assert (Hq : forall q i, items pa !! q = Some i -> i_queued i = true -> exists a, a ∈ expiringHeap pa /\ ea_Expiry (deref pa a) = i_Expiry i).
  { intros [p k] i Hi Hqi. rewrite items_lookup in Hi. destruct (FindAddr p k pa) as [a|] eqn:Ef; [|done].
    destruct (map_ok _ Hok _ _ _ Ef) as (e & E & _ & _ & Hx). cbn in Hi. unfold strips in Hi. rewrite lookup_fmap, E in Hi. injection Hi as <-.
    exists a. rewrite (deref_found _ _ _ E). split; [|done]. destruct Hx as [Hx|(j & _ & Hj)]; [cbn in Hqi; by rewrite Hx in Hqi|by eapply list_elem_of_lookup_2]. }
  destruct (decide (expiringHeap pa = [])) as [Eh|Eh].
  { rewrite Eh. left. split; [done|]. intros q i Hi Hqi. destruct (Hq q i Hi Hqi) as (a & Ha & _). rewrite Eh in Ha. by apply not_elem_of_nil in Ha. }
  destruct (Pop_idx pa Hok Hh Eh) as (a & pa' & Ha & Ep & A & B & C & D & F & G & Hmin).
  destruct (expiringHeap pa) as [|a0 h] eqn:Ehp; [done|]. cbn in Ha. injection Ha as ->. rewrite <- Ehp in *.
  destruct (Z.ltb_spec now (ea_Expiry (deref pa a))) as [Hlt|Hge]; cbn [negb].
  { left. split; [done|]. intros q i Hi Hqi. destruct (Hq q i Hi Hqi) as (b & Hb & <-). specialize (Hmin b Hb). lia. }
  right. rewrite Ep. destruct (heap_at _ Hok 0%nat a) as (e & E & Hx & Hf); [by rewrite Ehp|].
  assert (exists x, store pa' !! a = Some (set_index x e)) as [x Ex].
  { assert (strips pa' !! a = Some (unqueue (strip e))) as Es by (rewrite F, lookup_alter_eq; unfold strips; by rewrite lookup_fmap, E).
    unfold strips in Es. rewrite lookup_fmap in Es. destruct (store pa' !! a) as [[? ? ? ? j]|]; [|done]. exists j. destruct e. cbn in Es. by injection Es as <- <- <- <-. }
  rewrite (deref_found _ _ _ Ex). cbn. do 3 eexists. split; [done|]. cbn.
  destruct (removed_ok pa pa' (ea_Peer e) (Bytes (ea_Addr e)) a Hpa Hf A B C F G) as (H1 & H2 & _).
  split_and!; [done|by apply (items_found _ _ _ _ _ Hf E)| | |done|].
  - cbn. rewrite (proj2 (Z.eqb_neq _ _)) by lia. done.
  - cbn. rewrite (deref_found _ _ _ E) in Hge. lia.
  - apply Permutation_length in G. by rewrite G.
Qed.
