(* ===== verification/AddrBookTheorems.v ===== *)
(** * The address book refines a map of expiring addresses

    The abstract book maps a peer and the bytes of an address to its time to live, its
    expiry and whether the garbage collector knows of it; the operations on it are
    [sp_step].  Where the code ranges over a map the order is left open. *)

From stdpp Require Import base gmap list numbers sorting relations.
From Stdlib Require Import ZArith Lia.
From S2P Require Import Prelude GoText Base58 Transcoders Multiaddr MultiaddrSpec MultiaddrText Heap AddrBook AddrBookFacts.

(** ** The abstract operations *)

Notation amap := (gmap (list Z * list Z) item).

Definition has_addrs (p : list Z) (m : amap) : bool := bool_decide (filter (fun x => x.1.1 = p) m <> ∅).

Section spec.
Context (maxAddrs : Z).

Definition sp_full (m : amap) : bool := maxAddrs <=? Z.of_nat (size (queued_items m)).

Definition sp_add (p : list Z) (ttl exp : Z) (m : amap) (k : list Z) : amap :=
  match m !! (p, k) with
  | None => <[(p, k) := new_item ttl exp]> m
  | Some i => <[(p, k) := upd_item (Z.max ttl (i_TTL i)) (Z.max exp (i_Expiry i)) i]> m
  end.

Definition sp_set (p : list Z) (ttl exp : Z) (m : amap) (k : list Z) : amap :=
  match m !! (p, k) with
  | Some i =>
      if ttl >? 0 then
        if ttlIsConnected (i_TTL i) && negb (ttlIsConnected ttl) && sp_full m then delete (p, k) m
        else <[(p, k) := upd_item ttl exp i]> m
      else delete (p, k) m
  | None => if (ttl >? 0) && (ttlIsConnected ttl || negb (sp_full m)) then <[(p, k) := new_item ttl exp]> m else m
  end.

Definition sp_update (p : list Z) (oldTTL newTTL exp : Z) (m : amap) (k : list Z) : amap :=
  match m !! (p, k) with
  | Some i =>
      if oldTTL =? i_TTL i then
        if newTTL =? 0 then delete (p, k) m
        else if ttlIsConnected oldTTL && negb (ttlIsConnected newTTL) && sp_full m then delete (p, k) m
        else <[(p, k) := upd_item newTTL exp i]> m
      else m
  | None => m
  end.

Definition sp_add_all (p : list Z) (ks : list (list Z)) (ttl now : Z) (m : amap) : amap :=
  if ttl <=? 0 then m
  else if negb (ttlIsConnected ttl) && sp_full m then m
  else foldl (sp_add p ttl (now + ttl)) m ks.
(** All addresses of [p] at once. *)
Definition sp_update_all (p : list Z) (oldTTL newTTL exp : Z) (m : amap) : amap :=
  map_imap (fun q i =>
    if bool_decide (q.1 = p) && (oldTTL =? i_TTL i) then
      if (newTTL =? 0) || (ttlIsConnected oldTTL && negb (ttlIsConnected newTTL) && sp_full m) then None
      else Some (upd_item newTTL exp i)
    else Some i) m.
Definition sp_clear (p : list Z) (m : amap) : amap := filter (fun x => x.1.1 <> p) m.
Definition sp_gc (now : Z) (m : amap) : amap := filter (fun x => ~ (i_queued x.2 = true /\ i_Expiry x.2 <= now)) m.
End spec.

(** The keys of [p], each once. *)
Definition keys_of (p : list Z) (m : amap) (ks : list (list Z)) : Prop := NoDup ks /\ forall k, k ∈ ks <-> is_Some (m !! (p, k)).

(** ** Facts about the abstract book *)

Lemma has_addrs_iff p m : has_addrs p m = true <-> exists k, is_Some (m !! (p, k)).
Proof.
  unfold has_addrs. rewrite bool_decide_eq_true. split.
  - intros Hne. apply map_choose in Hne as ([q k] & i & Hi). apply map_lookup_filter_Some in Hi as [Hi Hq]. cbn in Hq. subst q. by exists k, i.
  - intros (k & i & Hi) E. assert (filter (fun x : list Z * list Z * item => x.1.1 = p) m !! (p, k) = Some i) as Hf by (by apply map_lookup_filter_Some).
    rewrite E in Hf. by apply lookup_empty_Some in Hf.
Qed.

Lemma has_addrs_pa pa p : pa_ok pa -> has_addrs p (items pa) = negb (bool_decide (default ∅ (pa_Addrs pa !! p) = ∅)).
Proof.
  intros [Hok _ Hne _]. apply eq_bool_prop_intro. rewrite !Is_true_true, has_addrs_iff, negb_true_iff, bool_decide_eq_false. split.
  - intros (k & i & Hi) E. rewrite items_lookup in Hi. unfold FindAddr in Hi. destruct (pa_Addrs pa !! p) as [m|]; [|done]. cbn in *. by rewrite E, lookup_empty in Hi.
  - intros E. destruct (pa_Addrs pa !! p) as [m|] eqn:Em; [|done]. cbn in E. apply map_choose in E as (k & a & Ha). exists k.
    assert (FindAddr p k pa = Some a) as Hf by (unfold FindAddr; by rewrite Em).
    destruct (map_ok _ Hok _ _ _ Hf) as (e & Ee & _). rewrite (items_found _ _ _ _ _ Hf Ee). by eexists.
Qed.

Lemma full_spec pa n : pa_ok pa -> (n <=? NumUnconnectedAddrs pa) = sp_full n (items pa).
Proof. intros Hpa. unfold NumUnconnectedAddrs, sp_full. by rewrite heap_count by apply Hpa. Qed.

(** A queued item is not connected. *)
Lemma queued_unconnected pa q i : pa_ok pa -> items pa !! q = Some i -> i_queued i = true -> ttlIsConnected (i_TTL i) = false.
Proof.
  destruct q as [p k]. intros [Hok _ _ Hun] Hi Hq. rewrite items_lookup in Hi. destruct (FindAddr p k pa) as [a|] eqn:Ef; [|done].
  destruct (map_ok _ Hok _ _ _ Ef) as (e & E & _ & _ & Hx). cbn in Hi. unfold strips in Hi. rewrite lookup_fmap, E in Hi. injection Hi as <-.
  apply (Hun a e); [|done]. destruct Hx as [Hx|(j & _ & Hj)]; [cbn in Hq; by rewrite Hx in Hq|by eapply list_elem_of_lookup_2].
Qed.

(** ** The code implements the operations *)

Section refinement.
Context {Envelope : Type} (env_Record : Envelope -> option (option PeerRecord)) (env_Matches : Envelope -> list Z -> bool).
Context (reg : registry) (range : gmap (list Z) nat -> list (list Z * nat)).
Hypothesis range_all : forall m, range m ≡ₚ map_to_list m.

Notation book := (memoryAddrBook (Envelope := Envelope)).

(** [b'] differs from [b] in its addresses, which are those of [m]. *)
Definition now_holds (b : book) (m : amap) (b' : book) : Prop :=
  pa_ok (addrs b') /\ items (addrs b') = m /\ signedPeerRecords b' = signedPeerRecords b /\
  maxUnconnectedAddrs b' = maxUnconnectedAddrs b /\ maxSignedPeerRecords b' = maxSignedPeerRecords b.

Lemma now_holds_trans b b1 b2 m1 m2 : now_holds b m1 b1 -> now_holds b1 m2 b2 -> now_holds b m2 b2.
Proof. intros (A1 & A2 & A3 & A4 & A5) (B1 & B2 & B3 & B4 & B5). unfold now_holds. split_and!; congruence. Qed.

Lemma full_holds (b : book) : pa_ok (addrs b) -> full b = sp_full (maxUnconnectedAddrs b) (items (addrs b)).
Proof. intros. by apply full_spec. Qed.

Lemma insert_holds (b : book) p addr ttl exp :
  pa_ok (addrs b) -> FindAddr p (Bytes addr) (addrs b) = None ->
  now_holds b (<[(p, Bytes addr) := new_item ttl exp]> (items (addrs b)))
    (BroadcastAddr p addr (set_addrs (Insert (mkExpiringAddr addr ttl exp p 0) (addrs b)) b)).
Proof. intros Hpa Hf. destruct (Insert_spec (addrs b) (mkExpiringAddr addr ttl exp p 0) Hpa Hf) as [A B]. by split_and!. Qed.

Lemma alter_lookup_insert (m : amap) q f i : m !! q = Some i -> alter f q m = <[q := f i]> m.
Proof.
  intros E. apply map_eq. intros q'. destruct (decide (q' = q)) as [->|]; [by rewrite lookup_alter_eq, lookup_insert_eq, E|].
  by rewrite lookup_alter_ne, lookup_insert_ne.
Qed.

Lemma found_item (b : book) p k a :
  pa_ok (addrs b) -> FindAddr p k (addrs b) = Some a ->
  exists e, store (addrs b) !! a = Some e /\ deref (addrs b) a = e /\ Bytes (ea_Addr e) = k /\
    items (addrs b) !! (p, k) = Some (item_of (strip e)).
Proof.
  intros [Hok _ _ _] Hf. destruct (map_ok _ Hok _ _ _ Hf) as (e & E & _ & Hk & _). exists e.
  split_and!; [done|by apply deref_found|done|by eapply items_found].
Qed.

Lemma add_addr_holds (b : book) p ttl exp addr :
  pa_ok (addrs b) -> exists b', add_addr p ttl exp addr b = Some b' /\ now_holds b (sp_add p ttl exp (items (addrs b)) (Bytes addr)) b'.
Proof.
  intros Hpa. unfold add_addr, sp_add. destruct (FindAddr p (Bytes addr) (addrs b)) as [a|] eqn:Ef.
  2: { rewrite (proj2 (items_none _ _ _ (pa_idx _ Hpa)) Ef). eexists. split; [done|]. by apply insert_holds. }
  destruct (found_item b p _ a Hpa Ef) as (e & E & -> & Hk & Hi). rewrite Hi. cbn [item_of strip i_TTL i_Expiry s_TTL s_Expiry].
  rewrite !Z.gtb_ltb. set (ttl' := if ea_TTL e <? ttl then ttl else ea_TTL e). set (exp' := if ea_Expiry e <? exp then exp else ea_Expiry e).
  assert (Z.max ttl (ea_TTL e) = ttl') as -> by (unfold ttl'; case_bool; lia).
  assert (Z.max exp (ea_Expiry e) = exp') as -> by (unfold exp'; case_bool; lia).
  destruct (Update_spec (addrs b) p (Bytes addr) a e (set_ttl ttl' exp') ttl' exp') as (pa & Eu & Hpa' & Hi' & _); [done..|].
  rewrite (alter_lookup_insert _ _ _ _ Hi) in Hi'. destruct (_ || _) eqn:Ec.
  - rewrite Eu. eexists. split; [done|]. by split_and!.
  - apply orb_false_iff in Ec as [E1 E2]. assert (ttl' = ea_TTL e) as -> by (unfold ttl'; by rewrite E1). assert (exp' = ea_Expiry e) as -> by (unfold exp'; by rewrite E2).
    eexists. split; [done|]. assert (modify_addr (set_ttl (ea_TTL e) (ea_Expiry e)) a (addrs b) = addrs b) as ->.
    { destruct (addrs b) as [st np aa hp]. unfold modify_addr. cbn in *. f_equal. apply map_eq. intros c. destruct (decide (c = a)) as [->|]; [|by rewrite lookup_alter_ne].
      rewrite lookup_alter_eq, E. by destruct e. }
    split_and!; [done| |done..]. cbn. symmetry. rewrite <- insert_id with (m := items (addrs b)) at 2; [|exact Hi]. f_equal. unfold upd_item, item_of, strip. cbn.
    destruct (heapIndex e =? -1) eqn:Ex; cbn; [done|]. f_equal. rewrite negb_true_iff. apply (queued_unconnected _ _ _ Hpa Hi). cbn. by rewrite Ex.
Qed.

Lemma delete_holds (b : book) p k a :
  pa_ok (addrs b) -> FindAddr p k (addrs b) = Some a ->
  exists pa, Delete a (addrs b) = Some pa /\ now_holds b (delete (p, k) (items (addrs b))) (set_addrs pa b).
Proof. intros Hpa Hf. destruct (Delete_spec _ _ _ _ Hpa Hf) as (pa & E & A & B & _). exists pa. split; [done|]. by split_and!. Qed.

Lemma set_addr_holds (b : book) p ttl exp addr :
  pa_ok (addrs b) ->
  exists b', set_addr_ttl p ttl exp addr b = Some b' /\
    now_holds b (sp_set (maxUnconnectedAddrs b) p ttl exp (items (addrs b)) (Bytes addr)) b'.
Proof.
  intros Hpa. unfold set_addr_ttl, sp_set. rewrite full_holds by done. destruct (FindAddr p (Bytes addr) (addrs b)) as [a|] eqn:Ef.
  - destruct (found_item b p _ a Hpa Ef) as (e & E & Ed & Hk & Hi). rewrite Hi, Ed. unfold IsConnected. cbn [item_of strip i_TTL s_TTL].
    destruct (delete_holds b p _ a Hpa Ef) as (pa & Edel & Hdel). rewrite Edel. destruct (ttl >? 0); [|by eexists].
    destruct (_ && sp_full _ _); [by eexists|].
    destruct (Update_spec (addrs b) p (Bytes addr) a e (fun e => set_ttl ttl exp (set_addr addr e)) ttl exp) as (pa' & Eu & Hpa' & Hi' & _); [done..|by cbn|done|done|].
    rewrite Eu. eexists. split; [done|]. rewrite (alter_lookup_insert _ _ _ _ Hi) in Hi'. by split_and!.
  - rewrite (proj2 (items_none _ _ _ (pa_idx _ Hpa)) Ef). destruct (ttl >? 0); [|by eexists]. cbn [andb].
    destruct (ttlIsConnected ttl), (sp_full _ _); cbn; eexists; (split; [done|]); try (by apply insert_holds); by split_and!.
Qed.

(** Lists of addresses: the keys of those that are handled. *)
Definition own_keys (p : list Z) (l : list (option Multiaddr)) : list (list Z) :=
  omap (fun addr => match own_addr reg p addr with Some (Some a) => Some (Bytes a) | _ => None end) l.
Definition addrs_ok (p : list Z) (l : list (option Multiaddr)) : Prop := Forall (fun addr => own_addr reg p addr <> None) l.

Lemma for_addrs_holds p f g : forall l (b : book),
  (forall addr (b' : book), maxUnconnectedAddrs b' = maxUnconnectedAddrs b -> pa_ok (addrs b') ->
     exists b'', f addr b' = Some b'' /\ now_holds b' (g (items (addrs b')) (Bytes addr)) b'') ->
  pa_ok (addrs b) -> addrs_ok p l ->
  exists b', for_addrs reg p f l b = Some b' /\ now_holds b (foldl g (items (addrs b)) (own_keys p l)) b'.
Proof.
  induction l as [|addr l IH]; intros b Hfg Hpa Hl; [exists b; split; [done|]; by split_and!|].
  apply Forall_cons in Hl as [Ha Hl]. cbn. destruct (own_addr reg p addr) as [[a|]|]; [|by apply IH|done].
  destruct (Hfg a b eq_refl Hpa) as (b1 & -> & Hb1). pose proof Hb1 as (H1 & H2 & _ & H4 & _).
  destruct (IH b1) as (b2 & E2 & Hb2); [|done|done|].
  - intros addr' b' Hm. rewrite H4 in Hm. by apply Hfg.
  - exists b2. split; [done|]. cbn. rewrite <- H2. by eapply now_holds_trans.
Qed.

Lemma update_entry_holds (b : book) p k a oldTTL newTTL exp :
  pa_ok (addrs b) -> FindAddr p k (addrs b) = Some a ->
  exists b', update_entry oldTTL newTTL exp a b = Some b' /\
    now_holds b (sp_update (maxUnconnectedAddrs b) p oldTTL newTTL exp (items (addrs b)) k) b' /\
    forall p' k', (p', k') <> (p, k) -> FindAddr p' k' (addrs b') = FindAddr p' k' (addrs b).
Proof.
  intros Hpa Hf. unfold update_entry, sp_update, delete_entry. rewrite full_holds by done.
  destruct (found_item b p k a Hpa Hf) as (e & E & -> & Hk & Hi). rewrite Hi. cbn [item_of strip i_TTL s_TTL].
  destruct (Delete_spec _ _ _ _ Hpa Hf) as (pa & -> & A & B & C).
  destruct (oldTTL =? ea_TTL e); [|by exists b]. destruct (newTTL =? 0); [eexists; split; [done|]; by split_and!|].
  destruct (_ && sp_full _ _); [eexists; split; [done|]; by split_and!|].
  destruct (Update_spec (addrs b) p k a e (set_ttl newTTL exp) newTTL exp) as (pa' & -> & Hpa' & Hi' & Ha'); [done..|].
  rewrite (alter_lookup_insert _ _ _ _ Hi) in Hi'. eexists. split; [done|]. split; [by split_and!|]. intros p' k' _. by apply FindAddr_frame.
Qed.

Lemma delete_entry_holds (b : book) p k a :
  pa_ok (addrs b) -> FindAddr p k (addrs b) = Some a ->
  exists b', delete_entry a b = Some b' /\ now_holds b (delete (p, k) (items (addrs b))) b' /\
    forall p' k', (p', k') <> (p, k) -> FindAddr p' k' (addrs b') = FindAddr p' k' (addrs b).
Proof.
  intros Hpa Hf. unfold delete_entry. destruct (Delete_spec _ _ _ _ Hpa Hf) as (pa & -> & A & B & C). eexists. split; [done|]. by split_and!.
Qed.

Lemma for_entries_holds p f g : forall L (b : book),
  (forall k a (b' : book), maxUnconnectedAddrs b' = maxUnconnectedAddrs b -> pa_ok (addrs b') -> FindAddr p k (addrs b') = Some a ->
     exists b'', f a b' = Some b'' /\ now_holds b' (g (items (addrs b')) k) b'' /\
       forall p' k', (p', k') <> (p, k) -> FindAddr p' k' (addrs b'') = FindAddr p' k' (addrs b')) ->
  pa_ok (addrs b) -> NoDup L.*1 -> (forall k a, (k, a) ∈ L -> FindAddr p k (addrs b) = Some a) ->
  exists b', for_entries f (map snd L) b = Some b' /\ now_holds b (foldl g (items (addrs b)) L.*1) b'.
Proof.
  induction L as [|[k a] L IH]; intros b Hfg Hpa Hnd HL; [exists b; split; [done|]; by split_and!|].
  cbn in Hnd. apply NoDup_cons in Hnd as [Hk Hnd]. cbn. destruct (Hfg k a b eq_refl Hpa (HL k a ltac:(by left))) as (b1 & -> & Hb1 & Hfr).
  pose proof Hb1 as (H1 & H2 & _ & H4 & _). destruct (IH b1) as (b2 & E2 & Hb2); [|done|done| |].
  - intros k' a' b' Hm. rewrite H4 in Hm. by apply Hfg.
  - intros k' a' Hin. rewrite Hfr; [by apply HL; right|]. intros [= ->]. destruct Hk. apply list_elem_of_fmap. by exists (k, a').
  - exists b2. split; [done|]. rewrite <- H2. by eapply now_holds_trans.
Qed.

(** The entries of a peer, in the order of the loop. *)
Lemma range_entries (b : book) p :
  pa_ok (addrs b) -> let L := range (default ∅ (pa_Addrs (addrs b) !! p)) in
  NoDup L.*1 /\ (forall k a, (k, a) ∈ L -> FindAddr p k (addrs b) = Some a) /\ keys_of p (items (addrs b)) L.*1.
Proof.
  intros Hpa L. assert (Hin : forall k a, (k, a) ∈ L <-> FindAddr p k (addrs b) = Some a).
  { intros k a. unfold L. rewrite range_all, elem_of_map_to_list. unfold FindAddr. by destruct (pa_Addrs (addrs b) !! p). }
  assert (NoDup L.*1) as Hnd by (unfold L; rewrite range_all; apply NoDup_fst_map_to_list).
  split; [done|]. split; [by intros k a ?%Hin|]. split; [done|]. intros k. rewrite list_elem_of_fmap. split.
  - intros ([k' a] & -> & Ha). apply Hin in Ha. destruct (found_item b p _ a Hpa Ha) as (e & _ & _ & _ & Hi). by eexists.
  - intros [i Hi]. rewrite items_lookup in Hi. destruct (FindAddr p k (addrs b)) as [a|] eqn:Ef; [|done]. exists (k, a). split; [done|]. by apply Hin.
Qed.

Lemma clear_keys p m ks : keys_of p m ks -> foldl (fun m k => delete (p, k) m) m ks = sp_clear p m.
Proof.
  intros [_ Hk]. assert (forall ks (m : amap) q, foldl (fun m k => delete (p, k) m) m ks !! q = if bool_decide (q.1 = p /\ q.2 ∈ ks) then None else m !! q) as Hd.
  { clear. induction ks as [|k ks IH]; intros m [p' k']; cbn.
    - rewrite bool_decide_false; [done|]. intros [_ ?%not_elem_of_nil]. done.
    - rewrite IH. cbn. case_bool_decide as D1; case_bool_decide as D2; try done.
      + destruct D2. destruct D1. split; [done|by right].
      + destruct D2 as [-> D2]. apply elem_of_cons in D2 as [->|D2]; [apply lookup_delete_eq|]. by destruct D1.
      + rewrite lookup_delete_ne; [done|]. intros [= <- <-]. destruct D2. split; [done|by left]. }
  apply map_eq. intros [p' k']. rewrite Hd. cbn. unfold sp_clear. destruct (m !! (p', k')) as [i|] eqn:Ei.
  - case_bool_decide as D.
    + symmetry. apply map_lookup_filter_None. right. intros i' Hi' Hne. cbn in Hne. by destruct D.
    + symmetry. apply map_lookup_filter_Some. split; [done|]. cbn. intros ->. destruct D. split; [done|]. apply Hk. by eexists.
  - assert (filter (fun x : list Z * list Z * item => x.1.1 <> p) m !! (p', k') = None) as -> by (apply map_lookup_filter_None; by left). by case_bool_decide.
Qed.

(** ** Updates do not depend on the order of the loop *)

Lemma queued_same (m m' : amap) q :
  (forall q', q' <> q -> m' !! q' = m !! q') -> (forall i, m !! q = Some i -> i_queued i = false) ->
  (forall i, m' !! q = Some i -> i_queued i = false) -> queued_items m' = queued_items m.
Proof.
  intros Ho H1 H2. apply map_eq. intros q'. apply option_eq. intros i. unfold queued_items. rewrite !map_lookup_filter_Some. cbn.
  destruct (decide (q' = q)) as [->|Hne]; [|by rewrite Ho]. split; intros [Hi Hq]; [rewrite (H2 i Hi) in Hq|rewrite (H1 i Hi) in Hq]; done.
Qed.

Definition connected_unqueued (m : amap) : Prop := forall q i, m !! q = Some i -> i_queued i = true -> ttlIsConnected (i_TTL i) = false.

(** One round: nothing else changes, and the limit is tested with the same outcome. *)
Lemma sp_update_round (n : Z) (p : list Z) (oldTTL newTTL exp : Z) (m : amap) k :
  connected_unqueued m ->
  (forall q, q <> (p, k) -> sp_update n p oldTTL newTTL exp m k !! q = m !! q) /\
  connected_unqueued (sp_update n p oldTTL newTTL exp m k) /\
  (ttlIsConnected oldTTL = true -> sp_full n (sp_update n p oldTTL newTTL exp m k) = sp_full n m).
Proof.
  intros Hc. set (m' := sp_update n p oldTTL newTTL exp m k).
  assert (Ho : forall q, q <> (p, k) -> m' !! q = m !! q).
  { intros q Hq. unfold m', sp_update. destruct (m !! (p, k)) as [i|]; [|done]. repeat case_match; rewrite ?lookup_delete_ne, ?lookup_insert_ne by done; done. }
  assert (Hk : forall i', m' !! (p, k) = Some i' -> exists i, m !! (p, k) = Some i /\ (i' = i \/ (oldTTL = i_TTL i /\ i' = upd_item newTTL exp i))).
  { intros i'. unfold m', sp_update. destruct (m !! (p, k)) as [i|] eqn:Ei; [|congruence]. intros Hi'. exists i. split; [done|]. revert Hi'.
    destruct (Z.eqb_spec oldTTL (i_TTL i)); [|rewrite Ei; intros [= ->]; by left].
    destruct (newTTL =? 0); [by rewrite lookup_delete_eq|]. destruct (_ && _); [by rewrite lookup_delete_eq|]. rewrite lookup_insert_eq. intros [= <-]. by right. }
  split_and!; [done| |].
  - intros q i' Hi' Hq. destruct (decide (q = (p, k))) as [->|Hne]; [|rewrite Ho in Hi' by done; by eapply Hc].
    destruct (Hk i' Hi') as (i & Hi & [->|[_ ->]]); [by eapply Hc|]. cbn in *. apply andb_true_iff in Hq as [_ Hq]. by apply negb_true_iff.
  - intros Hconn. destruct (m !! (p, k)) as [i|] eqn:Ei; [|assert (m' = m) as -> by (unfold m', sp_update; by rewrite Ei); done].
    destruct (Z.eqb_spec oldTTL (i_TTL i)) as [Et|Et].
    2: { assert (m' = m) as -> by (unfold m', sp_update; rewrite Ei; by rewrite (proj2 (Z.eqb_neq _ _))). done. }
    assert (i_queued i = false) as Hiq.
    { destruct (i_queued i) eqn:Eq; [|done]. rewrite <- (Hc _ _ Ei Eq), <- Et. done. }
    unfold sp_full. do 3 f_equal. apply (queued_same m m' (p, k)); [done|intros j; by rewrite Ei; intros [= <-]|].
    intros i' Hi'. destruct (Hk i' Hi') as (j & Hj & [->|[_ ->]]); injection Hj as <-; [done|]. cbn. by rewrite Hiq.
Qed.

Lemma sp_update_fold (n : Z) (p : list Z) (oldTTL newTTL exp : Z) : forall ks (m : amap),
  connected_unqueued m -> NoDup ks ->
  forall q, foldl (sp_update n p oldTTL newTTL exp) m ks !! q =
    if bool_decide (q.1 = p /\ q.2 ∈ ks) then sp_update_all n p oldTTL newTTL exp m !! q else m !! q.
Proof.
  induction ks as [|k ks IH]; intros m Hc Hnd [p' k']; cbn [foldl fst snd].
  { rewrite bool_decide_false; [done|]. by intros [_ ?%not_elem_of_nil]. }
  apply NoDup_cons in Hnd as [Hk Hnd]. destruct (sp_update_round n p oldTTL newTTL exp m k Hc) as (Ho & Hc' & Hf). rewrite IH by done. cbn [fst snd].
  unfold sp_update_all. rewrite !map_lookup_imap. cbn [fst]. destruct (decide ((p', k') = (p, k))) as [[= -> ->]|Hne].
  - rewrite bool_decide_false, bool_decide_true; [|split; [done|by left]|by intros [_ ?]]. unfold sp_update. destruct (m !! (p, k)) as [i|] eqn:Ei; cbn; [|done].
    rewrite bool_decide_true by done. cbn. destruct (oldTTL =? i_TTL i); [|done]. destruct (newTTL =? 0); [by rewrite lookup_delete_eq|]. cbn.
    destruct (_ && _ && _); [by rewrite lookup_delete_eq|by rewrite lookup_insert_eq].
  - rewrite Ho by done. assert ((p' = p /\ k' ∈ ks) <-> (p' = p /\ k' ∈ k :: ks)) as Hiff.
    { split; intros [-> Hin]; (split; [done|]); [by right|]. apply elem_of_cons in Hin as [->|]; done. }
    rewrite (bool_decide_ext _ _ Hiff). case_bool_decide; [|done]. destruct (m !! (p', k')) as [i|]; [|done]. cbn.
    destruct (ttlIsConnected oldTTL); [by rewrite Hf|done].
Qed.

Lemma sp_update_keys (n : Z) (p : list Z) (oldTTL newTTL exp : Z) (m : amap) ks :
  connected_unqueued m -> keys_of p m ks -> foldl (sp_update n p oldTTL newTTL exp) m ks = sp_update_all n p oldTTL newTTL exp m.
Proof.
  intros Hc [Hnd Hk]. apply map_eq. intros [p' k']. rewrite sp_update_fold by done. case_bool_decide as D; [done|]. cbn in D. unfold sp_update_all.
  rewrite map_lookup_imap. destruct (m !! (p', k')) as [i|] eqn:Ei; [|done]. cbn. rewrite bool_decide_false; [done|].
  intros ->. apply D. split; [done|]. apply Hk. by eexists.
Qed.

(** ** Records *)

Notation records := (gmap (list Z) (Envelope * Z)).

Definition prune (m : amap) (r : records) : records := filter (fun x => has_addrs x.1 m = true) r.
Definition recorded (m : amap) (r : records) : Prop := forall p, is_Some (r !! p) -> has_addrs p m = true.

Lemma prune_recorded m r : recorded m (prune m r).
Proof. intros p [x Hx]. by apply map_lookup_filter_Some in Hx as [_ Hx]. Qed.

Lemma prune_id m r : recorded m r -> prune m r = r.
Proof.
  intros Hr. apply map_eq. intros p. apply option_eq. intros x. unfold prune. rewrite map_lookup_filter_Some. cbn. split; [by intros [? _]|].
  intros Hx. split; [done|]. apply Hr. by eexists.
Qed.

Lemma has_addrs_frame (p : list Z) (m m' : amap) : (forall k, m' !! (p, k) = m !! (p, k)) -> has_addrs p m' = has_addrs p m.
Proof. intros Hf. apply eq_bool_prop_intro. rewrite !Is_true_true, !has_addrs_iff. by setoid_rewrite Hf. Qed.

(** The book [b] holds the addresses [m] and the records [r]. *)
Definition represents (maxA maxR : Z) (b : book) (m : amap) (r : records) : Prop :=
  pa_ok (addrs b) /\ items (addrs b) = m /\ signedPeerRecords b = r /\ maxUnconnectedAddrs b = maxA /\ maxSignedPeerRecords b = maxR.

Lemma now_holds_represents maxA maxR b b' m m' r : represents maxA maxR b m r -> now_holds b m' b' -> represents maxA maxR b' m' r.
Proof. intros (A1 & A2 & A3 & A4 & A5) (B1 & B2 & B3 & B4 & B5). unfold represents. split_and!; congruence. Qed.

(** Deleting the record of [p] if it has no address left is all there is to prune when the
    other records have addresses. *)
Lemma maybe_delete_prunes maxA maxR (b : book) m r p :
  represents maxA maxR b m r -> (forall q, q <> p -> is_Some (r !! q) -> has_addrs q m = true) ->
  represents maxA maxR (maybeDeleteSignedPeerRecordUnlocked p b) m (prune m r).
Proof.
  intros (Hpa & Hm & Hr & Ha & Hb) Hq. unfold maybeDeleteSignedPeerRecordUnlocked. pose proof (has_addrs_pa (addrs b) p Hpa) as Hp. rewrite Hm in Hp.
  case_bool_decide as D; cbn in Hp.
  - split_and!; [done..| |done|done]. cbn. rewrite Hr. apply map_eq. intros q. apply option_eq. intros x. unfold prune. rewrite map_lookup_filter_Some. cbn.
    destruct (decide (q = p)) as [->|Hne]; [rewrite lookup_delete_eq, Hp; naive_solver|]. rewrite lookup_delete_ne by done. split; [|naive_solver].
    intros Hx. split; [done|]. apply Hq; [done|by eexists].
  - split_and!; [done..| |done|done]. rewrite Hr. symmetry. apply prune_id. intros q Hs. destruct (decide (q = p)) as [->|]; [done|by apply Hq].
Qed.

(** ** Runs *)

Inductive book_op :=
| OpAddAddrs (p : list Z) (l : list (option Multiaddr)) (ttl : Z)
| OpSetAddrs (p : list Z) (l : list (option Multiaddr)) (ttl : Z)
| OpUpdateAddrs (p : list Z) (oldTTL newTTL : Z)
| OpClearAddrs (p : list Z)
| OpConsume (env : Envelope) (ttl : Z)
| OpGC.

Definition run_op (now : Z) (op : book_op) (b : book) : option book :=
  match op with
  | OpAddAddrs p l ttl => AddAddrs reg p l ttl now b
  | OpSetAddrs p l ttl => SetAddrs reg p l ttl now b
  | OpUpdateAddrs p oldTTL newTTL => UpdateAddrs range p oldTTL newTTL now b
  | OpClearAddrs p => ClearAddrs range p b
  | OpConsume env ttl => snd <$> ConsumePeerRecord env_Record env_Matches reg env ttl now b
  | OpGC => gc now b
  end.

(** The record an envelope brings in, if it is taken. *)
Definition consumed (maxR : Z) (r : records) (env : Envelope) : option PeerRecord :=
  match env_Record env with
  | Some (Some rec) =>
      if env_Matches env (rec_PeerID rec) &&
         match r !! rec_PeerID rec with
         | Some (_, seq) => seq <=? rec_Seq rec
         | None => Z.of_nat (size r) <? maxR
         end
      then Some rec else None
  | _ => None
  end.

Definition sp_op (maxA maxR now : Z) (op : book_op) (x : amap * records) : amap * records :=
  let '(m, r) := x in
  let '(m, r) :=
    match op with
    | OpAddAddrs p l ttl => (sp_add_all maxA p (own_keys p l) ttl now m, r)
    | OpSetAddrs p l ttl => (foldl (sp_set maxA p ttl (now + ttl)) m (own_keys p l), r)
    | OpUpdateAddrs p oldTTL newTTL => (sp_update_all maxA p oldTTL newTTL (now + newTTL) m, r)
    | OpClearAddrs p => (sp_clear p m, r)
    | OpConsume env ttl =>
        match consumed maxR r env with
        | None => (m, r)
        | Some rec => (sp_add_all maxA (rec_PeerID rec) (own_keys (rec_PeerID rec) (rec_Addrs rec)) ttl now m,
                       <[rec_PeerID rec := (env, rec_Seq rec)]> r)
        end
    | OpGC => (sp_gc now m, r)
    end in
  (m, prune m r).

Definition valid_addr (addr : option Multiaddr) : Prop :=
  match addr with Some (MBytes b) => bytes_ok b /\ validateBytes reg b = None | _ => True end.
Definition op_ok (op : book_op) : Prop :=
  match op with
  | OpAddAddrs _ l _ | OpSetAddrs _ l _ => Forall valid_addr l
  | OpConsume env _ => match env_Record env with Some (Some rec) => Forall valid_addr (rec_Addrs rec) | _ => True end
  | _ => True
  end.

Lemma valid_addrs_ok p l : reg_ok reg -> Forall valid_addr l -> addrs_ok p l.
Proof.
  intros Hreg Hl. eapply Forall_impl; [exact Hl|]. intros [[b|c]|] Hv; cbn in Hv; unfold own_addr, SplitAddr.
  - destruct Hv as [Hb Hv]. apply (valid_iff reg Hreg b Hb) in Hv as (l' & (Hne & Hg & _) & ->). apply good_readable in Hg.
    destruct l' as [|x l' _] using rev_ind; [done|]. rewrite (SplitLast_encode reg Hreg) by done. by repeat case_match.
  - cbn. by repeat case_match.
  - done.
Qed.

(** Operations on a peer leave the others alone. *)
Lemma foldl_frame {K} (g : amap -> K -> amap) (P : list Z * list Z -> Prop) :
  (forall m k q, P q -> g m k !! q = m !! q) -> forall ks m q, P q -> foldl g m ks !! q = m !! q.
Proof. intros Hg ks. induction ks as [|k ks IH]; intros m q Hq; cbn; [done|]. by rewrite IH, Hg. Qed.

Lemma sp_add_frame p ttl exp m k q : q.1 <> p -> sp_add p ttl exp m k !! q = m !! q.
Proof. intros Hq. unfold sp_add. case_match; rewrite lookup_insert_ne; [done| |done|]; by intros <-. Qed.

Lemma sp_set_frame n p ttl exp m k q : q.1 <> p -> sp_set n p ttl exp m k !! q = m !! q.
Proof.
  intros Hq. assert ((p, k) <> q) by (by intros <-). unfold sp_set. repeat case_match; rewrite ?lookup_insert_ne, ?lookup_delete_ne by done; done.
Qed.

Lemma sp_add_all_frame n p ks ttl now m q : q.1 <> p -> sp_add_all n p ks ttl now m !! q = m !! q.
Proof.
  intros Hq. unfold sp_add_all. repeat case_match; [done..|]. apply (foldl_frame _ (fun q => q.1 <> p)); [|done]. intros. by apply sp_add_frame.
Qed.

Lemma sp_update_all_frame n p o w exp m q : q.1 <> p -> sp_update_all n p o w exp m !! q = m !! q.
Proof. intros Hq. unfold sp_update_all. rewrite map_lookup_imap. destruct (m !! q); [|done]. cbn. by rewrite bool_decide_false. Qed.

Lemma sp_clear_frame p m q : q.1 <> p -> sp_clear p m !! q = m !! q.
Proof. intros Hq. apply option_eq. intros i. unfold sp_clear. rewrite map_lookup_filter_Some. naive_solver. Qed.

Lemma still_recorded (m m' : amap) r p :
  recorded m r -> (forall q, q.1 <> p -> m' !! q = m !! q) -> forall q, q <> p -> is_Some (r !! q) -> has_addrs q m' = true.
Proof. intros Hr Hf q Hq Hs. rewrite (has_addrs_frame q m m'); [by apply Hr|]. intros k. by apply Hf. Qed.

Section ops.
Context (maxA maxR : Z) (Hreg : reg_ok reg) (now : Z).

Lemma addAddrs_holds (b : book) m r r0 p l ttl :
  represents maxA maxR b m r -> Forall valid_addr l -> (forall q, q <> p -> r !! q = r0 !! q) -> recorded m r0 ->
  exists b', addAddrsUnlocked reg p l ttl now b = Some b' /\
    represents maxA maxR b' (sp_add_all maxA p (own_keys p l) ttl now m) (prune (sp_add_all maxA p (own_keys p l) ttl now m) r).
Proof.
  intros Hb Hl Hr0 Hr. pose proof Hb as (Hpa & Hm & _ & HA & _). unfold addAddrsUnlocked.
  assert (exists b1, (if ttl <=? 0 then Some b else if negb (ttlIsConnected ttl) && full b then Some b else for_addrs reg p (add_addr p ttl (now + ttl)) l b) = Some b1 /\
            represents maxA maxR b1 (sp_add_all maxA p (own_keys p l) ttl now m) r) as (b1 & -> & Hb1).
  { rewrite full_holds, HA, Hm by done. unfold sp_add_all. destruct (ttl <=? 0); [by eexists|]. destruct (_ && _); [by eexists|].
    destruct (for_addrs_holds p (add_addr p ttl (now + ttl)) (sp_add p ttl (now + ttl)) l b) as (b1 & E & Hb1).
    - intros addr b' _ Hpa'. by apply add_addr_holds.
    - done.
    - by apply valid_addrs_ok.
    - exists b1. split; [done|]. rewrite Hm in Hb1. by eapply now_holds_represents. }
  eexists. split; [done|]. apply maybe_delete_prunes; [done|]. intros q Hq. rewrite Hr0 by done. revert q Hq. eapply still_recorded; [exact Hr|].
  intros q Hq. by apply sp_add_all_frame.
Qed.

Lemma set_holds (b : book) m r p l ttl :
  represents maxA maxR b m r -> recorded m r -> Forall valid_addr l ->
  exists b', SetAddrs reg p l ttl now b = Some b' /\
    let m' := foldl (sp_set maxA p ttl (now + ttl)) m (own_keys p l) in represents maxA maxR b' m' (prune m' r).
Proof.
  intros Hb Hr Hl. pose proof Hb as (Hpa & Hm & _ & HA & _). unfold SetAddrs.
  destruct (for_addrs_holds p (set_addr_ttl p ttl (now + ttl)) (sp_set maxA p ttl (now + ttl)) l b) as (b1 & -> & Hb1); [|done|by apply valid_addrs_ok|].
  { intros addr b' Hmax Hpa'. rewrite <- HA, <- Hmax. by apply set_addr_holds. }
  eexists. split; [done|]. rewrite Hm in Hb1. apply maybe_delete_prunes; [by eapply now_holds_represents|].
  eapply still_recorded; [exact Hr|]. apply (foldl_frame _ (fun q => q.1 <> p)). intros. by apply sp_set_frame.
Qed.

Lemma update_holds (b : book) m r p o w :
  represents maxA maxR b m r -> recorded m r ->
  exists b', UpdateAddrs range p o w now b = Some b' /\
    let m' := sp_update_all maxA p o w (now + w) m in represents maxA maxR b' m' (prune m' r).
Proof.
  intros Hb Hr. pose proof Hb as (Hpa & Hm & _ & HA & _). unfold UpdateAddrs. destruct (range_entries b p Hpa) as (Hnd & HL & Hks).
  destruct (for_entries_holds p (update_entry o w (now + w)) (sp_update maxA p o w (now + w)) (range (default ∅ (pa_Addrs (addrs b) !! p))) b) as (b1 & -> & Hb1); [|done..|].
  { intros k a b' Hmax Hpa' Hf. rewrite <- HA, <- Hmax. by apply update_entry_holds. }
  rewrite (sp_update_keys _ _ _ _ _ _ _) in Hb1; [|intros q i; by apply queued_unconnected|done]. rewrite Hm in Hb1.
  eexists. split; [done|]. apply maybe_delete_prunes; [by eapply now_holds_represents|]. eapply still_recorded; [exact Hr|]. intros q Hq. by apply sp_update_all_frame.
Qed.

Lemma clear_holds (b : book) m r p :
  represents maxA maxR b m r -> recorded m r ->
  exists b', ClearAddrs range p b = Some b' /\ represents maxA maxR b' (sp_clear p m) (prune (sp_clear p m) r).
Proof.
  intros Hb Hr. pose proof Hb as (Hpa & Hm & Hrec & HA & HR). unfold ClearAddrs. set (b0 := set_records (delete p (signedPeerRecords b)) b).
  destruct (range_entries b0 p Hpa) as (Hnd & HL & Hks).
  destruct (for_entries_holds p delete_entry (fun m k => delete (p, k) m) (range (default ∅ (pa_Addrs (addrs b0) !! p))) b0) as (b1 & -> & Hb1); [|done..|].
  { intros k a b' _ Hpa' Hf. by apply delete_entry_holds. }
  rewrite (clear_keys p _ _ Hks) in Hb1. change (items (addrs b0)) with (items (addrs b)) in Hb1. rewrite Hm in Hb1.
  eexists. split; [done|]. eapply now_holds_represents; [|exact Hb1]. split_and!; [done|done| |done|done]. cbn. rewrite Hrec.
  apply map_eq. intros q. apply option_eq. intros x. unfold prune. rewrite map_lookup_filter_Some. cbn. destruct (decide (q = p)) as [->|Hne].
  - rewrite lookup_delete_eq. split; [done|]. intros [_ Hh]. apply has_addrs_iff in Hh as (k & i & Hi). unfold sp_clear in Hi. by apply map_lookup_filter_Some in Hi as [_ ?].
  - rewrite lookup_delete_ne by done. split; [|naive_solver]. intros Hx. split; [done|]. eapply (still_recorded m); [done| |done|by eexists].
    intros q' Hq'. by apply sp_clear_frame.
Qed.

Lemma sp_gc_delete (m : amap) q i :
  m !! q = Some i -> i_queued i = true -> i_Expiry i <= now -> sp_gc now (delete q m) = sp_gc now m.
Proof.
  intros Hi Hq He. apply map_eq. intros q'. apply option_eq. intros j. unfold sp_gc. rewrite !map_lookup_filter_Some. cbn.
  destruct (decide (q' = q)) as [->|]; [rewrite lookup_delete_eq, Hi; naive_solver|by rewrite lookup_delete_ne].
Qed.

Lemma prune_gc (m : amap) r : prune (sp_gc now m) (prune m r) = prune (sp_gc now m) r.
Proof.
  apply map_eq. intros p. apply option_eq. intros x. unfold prune. rewrite !map_lookup_filter_Some. cbn. split; [naive_solver|]. intros [Hx Hh].
  split_and!; [done| |done]. apply has_addrs_iff in Hh as (k & i & Hi). apply has_addrs_iff. exists k, i. by apply map_lookup_filter_Some in Hi as [Hi _].
Qed.

Lemma gc_loop_holds fuel : forall (b : book) m r,
  represents maxA maxR b m r -> recorded m r -> (length (expiringHeap (addrs b)) <= fuel)%nat ->
  exists b', gc_loop fuel now b = Some b' /\ represents maxA maxR b' (sp_gc now m) (prune (sp_gc now m) r).
Proof.
  induction fuel as [|fuel IH]; intros b m r Hb Hr Hf; pose proof Hb as (Hpa & Hm & Hrec & HA & HR).
  all: destruct (PopIfExpired_spec now (addrs b) Hpa) as [[E Hnone]|(ea & pa & i & E & Hpa' & Hi & Hq & He & Hd & Hlen)]; cbn [gc_loop]; rewrite E.
  1,3: eexists; split; [done|]; assert (sp_gc now m = m) as -> by
    (apply map_eq; intros q; apply option_eq; intros j; unfold sp_gc; rewrite map_lookup_filter_Some; cbn; split; [by intros [? _]|];
     intros Hj; split; [done|]; rewrite <- Hm in Hj; intros [H1 H2]; specialize (Hnone q j Hj H1); lia); by rewrite prune_id.
  - lia.
  - set (q := (ea_Peer ea, Bytes (ea_Addr ea))) in *. rewrite Hm in *. set (b1 := set_addrs pa b).
    assert (Hb1 : represents maxA maxR (maybeDeleteSignedPeerRecordUnlocked (ea_Peer ea) b1) (delete q m) (prune (delete q m) r)).
    { apply maybe_delete_prunes; [by split_and!|]. eapply still_recorded; [exact Hr|]. intros q' Hq'. rewrite lookup_delete_ne; [done|]. by intros <-. }
    destruct (IH _ _ _ Hb1 (prune_recorded _ _)) as (b2 & -> & Hb2).
    { unfold maybeDeleteSignedPeerRecordUnlocked. case_bool_decide; cbn; lia. }
    eexists. split; [done|]. by rewrite prune_gc, (sp_gc_delete m q i) in Hb2.
Qed.

Lemma consume_holds (b : book) m r env ttl :
  represents maxA maxR b m r -> recorded m r -> op_ok (OpConsume env ttl) ->
  exists b', run_op now (OpConsume env ttl) b = Some b' /\
    let x := sp_op maxA maxR now (OpConsume env ttl) (m, r) in represents maxA maxR b' x.1 x.2.
Proof.
  intros Hb Hr Hl. pose proof Hb as (Hpa & Hm & Hrec & HA & HR). cbn in *. unfold ConsumePeerRecord, consumed.
  assert (represents maxA maxR b m (prune m r)) as Hsame by (by rewrite prune_id).
  destruct (env_Record env) as [[rec|]|]; [|by eexists..]. rewrite Hrec, HR. destruct (env_Matches env (rec_PeerID rec)); [|by eexists]. cbn [negb andb].
  assert (exists b', addAddrsUnlocked reg (rec_PeerID rec) (rec_Addrs rec) ttl now (set_records (<[rec_PeerID rec:=(env, rec_Seq rec)]> r) b) = Some b' /\
    represents maxA maxR b' (sp_add_all maxA (rec_PeerID rec) (own_keys (rec_PeerID rec) (rec_Addrs rec)) ttl now m)
      (prune (sp_add_all maxA (rec_PeerID rec) (own_keys (rec_PeerID rec) (rec_Addrs rec)) ttl now m) (<[rec_PeerID rec:=(env, rec_Seq rec)]> r))) as (b' & E & Hb').
  { apply (addAddrs_holds _ _ _ r); [by split_and!|done|intros q Hq; by rewrite lookup_insert_ne|done]. }
  destruct (r !! rec_PeerID rec) as [[e seq]|].
  - rewrite Z.gtb_ltb, Z.leb_antisym. destruct (rec_Seq rec <? seq); [by eexists|]. cbn. rewrite E. by eexists.
  - rewrite Z.ltb_antisym. destruct (maxR <=? _); [by eexists|]. cbn. rewrite E. by eexists.
Qed.

Lemma op_holds op (b : book) m r :
  represents maxA maxR b m r -> recorded m r -> op_ok op ->
  exists b', run_op now op b = Some b' /\ represents maxA maxR b' (sp_op maxA maxR now op (m, r)).1 (sp_op maxA maxR now op (m, r)).2.
Proof.
  intros Hb Hr Hok. destruct op as [p l ttl|p l ttl|p o w|p|env ttl|].
  - by apply (addAddrs_holds b m r r).
  - by apply set_holds.
  - by apply update_holds.
  - by apply clear_holds.
  - by apply consume_holds.
  - by apply gc_loop_holds.
Qed.
End ops.

Fixpoint run (ops : list (Z * book_op)) (b : book) : option book :=
  match ops with
  | [] => Some b
  | (now, op) :: ops => match run_op now op b with None => None | Some b => run ops b end
  end.
Definition sp_run (maxA maxR : Z) (ops : list (Z * book_op)) (x : amap * records) : amap * records :=
  foldl (fun x '(now, op) => sp_op maxA maxR now op x) x ops.

Lemma sp_op_recorded maxA maxR now op x : recorded (sp_op maxA maxR now op x).1 (sp_op maxA maxR now op x).2.
Proof.
  destruct x as [m r]. unfold sp_op.
  match goal with |- recorded (let '(m, r) := ?y in _).1 _ => destruct y as [m' r'] end. apply prune_recorded.
Qed.

Lemma run_holds maxA maxR (Hreg : reg_ok reg) : forall ops (b : book) m r,
  represents maxA maxR b m r -> recorded m r -> Forall (fun x => op_ok x.2) ops ->
  exists b', run ops b = Some b' /\ represents maxA maxR b' (sp_run maxA maxR ops (m, r)).1 (sp_run maxA maxR ops (m, r)).2 /\
    recorded (sp_run maxA maxR ops (m, r)).1 (sp_run maxA maxR ops (m, r)).2.
Proof.
  induction ops as [|[now op] ops IH]; intros b m r Hb Hr Hok; [by exists b|]. apply Forall_cons in Hok as [Ho Hok].
  destruct (op_holds maxA maxR Hreg now op b m r Hb Hr Ho) as (b1 & E1 & Hb1). pose proof (sp_op_recorded maxA maxR now op (m, r)) as Hr1.
  cbn [run]. rewrite E1. change (sp_run maxA maxR ((now, op) :: ops) (m, r)) with (sp_run maxA maxR ops (sp_op maxA maxR now op (m, r))).
  destruct (sp_op maxA maxR now op (m, r)) as [m1 r1]. by apply IH.
Qed.

Lemma new_represents maxA maxR : represents maxA maxR (NewAddrBook maxA maxR) ∅ ∅.
Proof.
  assert (forall p k, FindAddr p k newPeerAddrs = None) as Hf by done.
  split_and!; [|done..]. split; [split| | |]; try done.
  all: intros j Hj; cbn in Hj; lia.
Qed.

(** ** What is read *)

Lemma Addrs_keys (b : book) p now :
  pa_ok (addrs b) ->
  NoDup (map Bytes (Addrs range p now b)) /\
  forall k, k ∈ map Bytes (Addrs range p now b) <-> exists i, items (addrs b) !! (p, k) = Some i /\ now < i_Expiry i.
Proof.
  intros Hpa. destruct (range_entries b p Hpa) as (Hnd & HL & _ & Hks). unfold Addrs.
  assert ((match pa_Addrs (addrs b) !! p with Some m => validAddrs range now (addrs b) m | None => [] end) =
          validAddrs range now (addrs b) (default ∅ (pa_Addrs (addrs b) !! p))) as ->.
  { destruct (pa_Addrs (addrs b) !! p); [done|]. cbn. unfold validAddrs. pose proof (range_all ∅) as E. rewrite map_to_list_empty in E. apply Permutation_nil_r in E. by rewrite E. }
  unfold validAddrs. rewrite map_map. revert Hnd HL Hks. generalize (range (default ∅ (pa_Addrs (addrs b) !! p))) as L. intros L Hnd HL Hks.
  assert (forall x, x ∈ L -> exists e, deref (addrs b) x.2 = e /\ Bytes (ea_Addr e) = x.1 /\ items (addrs b) !! (p, x.1) = Some (item_of (strip e))) as HE.
  { intros [k a] Hx. destruct (found_item b p k a Hpa (HL k a Hx)) as (e & _ & Ed & Hk & Hi). by exists e. }
  assert (map (fun a => Bytes (ea_Addr (deref (addrs b) a))) (List.filter (fun a => negb (ExpiredBy (deref (addrs b) a) now)) (map snd L)) =
          (List.filter (fun x => negb (ExpiredBy (deref (addrs b) x.2) now)) L).*1) as ->.
  { clear Hnd HL Hks. induction L as [|x L IH]; [done|]. destruct (HE x ltac:(by left)) as (e & Ed & Hk & _).
    specialize (IH (fun y Hy => HE y (list_elem_of_further _ _ _ Hy))). cbn [map List.filter]. destruct (negb _); [|exact IH].
    cbn [map]. rewrite Ed, Hk. exact (f_equal (cons x.1) IH). }
  split.
  - clear -Hnd. induction L as [|x L IH]; [done|]. cbn in *. apply NoDup_cons in Hnd as [Hx Hnd]. specialize (IH Hnd). destruct (negb _); [|done]. cbn. apply NoDup_cons. split; [|done].
    intros Hin. destruct Hx. apply list_elem_of_fmap in Hin as (y & -> & Hy). apply list_elem_of_In, filter_In in Hy as [Hy _]. apply list_elem_of_fmap. exists y. split; [done|by apply list_elem_of_In].
  - intros k. rewrite list_elem_of_fmap. split.
    + intros (x & -> & Hx). apply list_elem_of_In, filter_In in Hx as [Hx Hl]. destruct (HE x ltac:(by apply list_elem_of_In)) as (e & Ed & _ & Hi). exists (item_of (strip e)).
      split; [done|]. rewrite Ed in Hl. unfold ExpiredBy in Hl. rewrite negb_involutive in Hl. apply Z.ltb_lt in Hl. done.
    + intros (i & Hi & Hlt). assert (k ∈ L.*1) as Hk by (apply Hks; by eexists). apply list_elem_of_fmap in Hk as (x & -> & Hx). exists x. split; [done|].
      apply list_elem_of_In, filter_In. split; [by apply list_elem_of_In|]. destruct (HE x Hx) as (e & Ed & _ & Hi'). rewrite Hi' in Hi. injection Hi as <-.
      rewrite Ed. unfold ExpiredBy. rewrite negb_involutive. by apply Z.ltb_lt.
Qed.

Lemma PeersWithAddrs_iff (b : book) p : pa_ok (addrs b) -> p ∈ PeersWithAddrs b <-> has_addrs p (items (addrs b)) = true.
Proof.
  intros Hpa. rewrite has_addrs_pa by done. unfold PeersWithAddrs. change (map fst ?l) with (fst <$> l). rewrite list_elem_of_fmap, negb_true_iff, bool_decide_eq_false. split.
  - intros ([q m] & -> & Hin). apply elem_of_map_to_list in Hin. cbn. rewrite Hin. by apply (pa_nonempty _ Hpa) in Hin.
  - intros Hne. destruct (pa_Addrs (addrs b) !! p) as [m|] eqn:E; [|done]. exists (p, m). split; [done|]. by apply elem_of_map_to_list.
Qed.

(** ** The bound on the records *)

Lemma prune_size m r : (size (prune m r) <= size r)%nat.
Proof. apply map_subseteq_size. apply map_filter_subseteq. Qed.

Lemma sp_op_size maxA maxR now op m r :
  Z.of_nat (size r) <= Z.max 0 maxR -> Z.of_nat (size (sp_op maxA maxR now op (m, r)).2) <= Z.max 0 maxR.
Proof.
  intros Hs. assert (forall m', Z.of_nat (size (prune m' r)) <= Z.max 0 maxR) as Hp by (intros m'; pose proof (prune_size m' r); lia).
  destruct op as [| | | |env ttl|]; cbn; try apply Hp. destruct (consumed maxR r env) as [rec|] eqn:E; cbn; [|apply Hp].
  match goal with |- Z.of_nat (size (prune ?m' ?r')) <= _ => pose proof (prune_size m' r'); assert (Z.of_nat (size r') <= Z.max 0 maxR); [|lia] end.
  unfold consumed in E. destruct (env_Record env) as [[rec'|]|]; [|done..]. destruct (_ && _) eqn:Ec; [|done]. injection E as ->.
  apply andb_true_iff in Ec as [_ Ec]. destruct (r !! rec_PeerID rec) as [[e seq]|] eqn:Er.
  - rewrite map_size_insert_Some by (by eexists). done.
  - rewrite map_size_insert_None by done. apply Z.ltb_lt in Ec. lia.
Qed.

Lemma sp_run_size maxA maxR : forall ops x,
  Z.of_nat (size x.2) <= Z.max 0 maxR -> Z.of_nat (size (sp_run maxA maxR ops x).2) <= Z.max 0 maxR.
Proof.
  induction ops as [|[now op] ops IH]; intros [m r] Hs; [done|].
  change (sp_run maxA maxR ((now, op) :: ops) (m, r)) with (sp_run maxA maxR ops (sp_op maxA maxR now op (m, r))). apply IH. by apply sp_op_size.
Qed.

(** A record is replaced only by one with a sequence number at least as high. *)
Lemma sp_op_seq maxA maxR now op m r p e seq e' seq' :
  r !! p = Some (e, seq) -> (sp_op maxA maxR now op (m, r)).2 !! p = Some (e', seq') -> seq <= seq'.
Proof.
  assert (forall m' (r' : records), prune m' r' !! p = Some (e', seq') -> r' !! p = Some (e', seq')) as Hp.
  { intros m' r' Hx. by apply map_lookup_filter_Some in Hx as [Hx _]. }
  intros Hr Hr'. destruct op as [| | | |env ttl|]; cbn in Hr'; try (apply Hp in Hr'; rewrite Hr in Hr'; injection Hr' as _ <-; lia).
  destruct (consumed maxR r env) as [rec|] eqn:E; cbn in Hr'; apply Hp in Hr'; [|rewrite Hr in Hr'; injection Hr' as _ <-; lia].
  destruct (decide (rec_PeerID rec = p)) as [<-|]; [|rewrite lookup_insert_ne, Hr in Hr' by done; injection Hr' as _ <-; lia].
  rewrite lookup_insert_eq in Hr'. injection Hr' as _ <-. unfold consumed in E. destruct (env_Record env) as [[rec'|]|]; [|done..]. destruct (_ && _) eqn:Ec; [|done]. injection E as ->.
  apply andb_true_iff in Ec as [_ Ec]. rewrite Hr in Ec. lia.
Qed.

(** ** Theorems *)

(** C26: The address book is a map from peers and addresses to expiring items.  Whatever calls
    are made with valid addresses, none panics, the garbage collector included; afterwards
    the book holds what the abstract operations give, and [Addrs] returns each unexpired
    address of a peer once. *)
Theorem addr_book_refines maxA maxR (Hreg : reg_ok reg) ops :
  Forall (fun x => op_ok x.2) ops ->
  exists b, run ops (NewAddrBook maxA maxR) = Some b /\
    (items (addrs b), signedPeerRecords b) = sp_run maxA maxR ops (∅, ∅) /\
    forall p now, NoDup (map Bytes (Addrs range p now b)) /\
      forall k, k ∈ map Bytes (Addrs range p now b) <->
        exists i, (sp_run maxA maxR ops (∅, ∅)).1 !! (p, k) = Some i /\ now < i_Expiry i.
Proof.
  intros Hok. destruct (run_holds maxA maxR Hreg ops _ _ _ (new_represents maxA maxR)) as (b & E & (Hpa & Hm & Hr & _) & _); [|done|].
  { intros p [x Hx]. by apply lookup_empty_Some in Hx. }
  exists b. split; [done|]. split; [by destruct (sp_run maxA maxR ops (∅, ∅)); cbn in *; subst|]. intros p now. rewrite <- Hm. by apply Addrs_keys.
Qed.

(** C28: After any run: signed records are kept only for peers with addresses and there are
    never more than the limit; [PeersWithAddrs] lists exactly the peers with addresses; and
    the next operation never replaces a record by an older one. *)
Theorem addr_book_records maxA maxR (Hreg : reg_ok reg) ops :
  Forall (fun x => op_ok x.2) ops ->
  exists b, run ops (NewAddrBook maxA maxR) = Some b /\
    (forall p, is_Some (signedPeerRecords b !! p) -> p ∈ PeersWithAddrs b) /\
    (forall p, p ∈ PeersWithAddrs b <-> exists k, is_Some (items (addrs b) !! (p, k))) /\
    Z.of_nat (size (signedPeerRecords b)) <= Z.max 0 maxR /\
    forall now op, op_ok op -> exists b', run_op now op b = Some b' /\
      forall p e seq e' seq', signedPeerRecords b !! p = Some (e, seq) -> signedPeerRecords b' !! p = Some (e', seq') -> seq <= seq'.
Proof.
  intros Hok. destruct (run_holds maxA maxR Hreg ops _ _ _ (new_represents maxA maxR)) as (b & E & Hb & Hrec); [|done|].
  { intros p [x Hx]. by apply lookup_empty_Some in Hx. }
  pose proof (sp_run_size maxA maxR ops (∅, ∅)) as Hsz. destruct (sp_run maxA maxR ops (∅, ∅)) as [m r]. pose proof Hb as (Hpa & Hm & Hr & _). cbn [fst snd] in *.
  exists b. split; [done|]. split_and!.
  - intros p Hp. rewrite Hr in Hp. rewrite PeersWithAddrs_iff, Hm by done. by apply Hrec.
  - intros p. by rewrite PeersWithAddrs_iff, has_addrs_iff.
  - rewrite Hr. apply Hsz. rewrite map_size_empty. lia.
  - intros now op Ho. destruct (op_holds maxA maxR Hreg now op b m r Hb Hrec Ho) as (b' & E' & _ & _ & Hr' & _). exists b'. split; [done|].
    intros p e seq e' seq' H1 H2. rewrite Hr in H1. rewrite Hr' in H2. by eapply sp_op_seq.
Qed.

(** C27: Garbage collection takes out what it should and no more.  After any run, collecting at [now]
    removes exactly the expired addresses that are in the expiry heap, and the records of the peers left
    without an address.  The addresses and the signed record of a peer read after it, at [now] or later and
    before the next change, are those that would have been read without it, and the list of peers
    loses only peers without a live address.  (A later change can find more room, and an older
    record is accepted for a peer whose record was dropped: lemma [gc_forgets_record].) *)
Theorem gc_removes_expired maxA maxR (Hreg : reg_ok reg) ops now :
  Forall (fun x => op_ok x.2) ops ->
  exists b b', run ops (NewAddrBook maxA maxR) = Some b /\ gc now b = Some b' /\
    items (addrs b') = sp_gc now (items (addrs b)) /\
    signedPeerRecords b' = prune (sp_gc now (items (addrs b))) (signedPeerRecords b) /\
    forall p,
      (forall t, now <= t -> map Bytes (Addrs range p t b') ≡ₚ map Bytes (Addrs range p t b) /\
         GetPeerRecord range p t b' = GetPeerRecord range p t b) /\
      (p ∈ PeersWithAddrs b' -> p ∈ PeersWithAddrs b) /\
      (p ∉ PeersWithAddrs b' -> forall t, now <= t -> Addrs range p t b = []).
Proof.
  intros Hok. destruct (run_holds maxA maxR Hreg ops _ _ _ (new_represents maxA maxR)) as (b & E & Hb & Hrec); [|done|].
  { intros p [x Hx]. by apply lookup_empty_Some in Hx. }
  destruct (sp_run maxA maxR ops (∅, ∅)) as [m r]. cbn [fst snd] in *.
  destruct (gc_loop_holds maxA maxR now _ b m r Hb Hrec (Nat.le_refl _)) as (b' & E' & Hb'). exists b, b'. split; [done|]. split; [done|].
  destruct Hb as (Hpa & Hm & Hr & _). destruct Hb' as (Hpa' & Hm' & Hr' & _). rewrite Hm, Hr. split; [done|]. split; [done|]. intros p.
  assert (forall t, now <= t -> map Bytes (Addrs range p t b') ≡ₚ map Bytes (Addrs range p t b)) as Hperm.
  { intros t Ht. destruct (Addrs_keys b p t Hpa) as [Hnd Hk]. destruct (Addrs_keys b' p t Hpa') as [Hnd' Hk'].
    apply NoDup_Permutation; [done|done|]. intros k. rewrite Hk, Hk', Hm, Hm'. split; intros (i & Hi & Hlt); exists i; (split; [|done]).
    - by apply map_lookup_filter_Some in Hi as [Hi _].
    - apply map_lookup_filter_Some. split; [done|]. cbn. lia. }
  assert (forall t a l, Addrs range p t b' = a :: l -> has_addrs p (sp_gc now m) = true) as Hh.
  { intros t a l Ea. destruct (Addrs_keys b' p t Hpa') as [_ Hk']. apply has_addrs_iff.
    destruct (proj1 (Hk' (Bytes a))) as (i & Hi & _); [rewrite Ea; by left|]. rewrite Hm' in Hi. by exists (Bytes a), i. }
  split_and!.
  - intros t Ht. specialize (Hperm t Ht). split; [done|]. apply Permutation_length in Hperm. rewrite !length_map in Hperm.
    assert (forall b : book, GetPeerRecord range p t b = if (length (Addrs range p t b) =? 0)%nat then None else fst <$> signedPeerRecords b !! p) as HG.
    { intros b0. unfold GetPeerRecord, Addrs. by destruct (pa_Addrs (addrs b0) !! p). }
    rewrite !HG, Hperm. destruct (Nat.eqb_spec (length (Addrs range p t b)) 0) as [|Hne]; [done|]. f_equal. rewrite Hr, Hr'.
    destruct (Addrs range p t b') as [|a l] eqn:Ea; [simpl in Hperm; lia|]. pose proof (Hh t a l Ea).
    apply option_eq. intros x. unfold prune. rewrite map_lookup_filter_Some. cbn. naive_solver.
  - rewrite !PeersWithAddrs_iff, Hm, Hm', !has_addrs_iff by done. intros (k & i & [Hi _]%map_lookup_filter_Some). by exists k, i.
  - rewrite PeersWithAddrs_iff, Hm' by done. intros Hn t Ht. specialize (Hperm t Ht).
    destruct (Addrs range p t b') as [|a l] eqn:Ea; [|by rewrite (Hh t a l Ea) in Hn].
    apply Permutation_nil_l in Hperm. by destruct (Addrs range p t b).
Qed.

(** An address that was connected is not put on the heap when its time to live is lowered,
    so the garbage collector never removes it: long after it expired the peer is still
    listed, without an address. *)
Theorem disconnected_never_collected maxA maxR (Hreg : reg_ok reg) p addr a t0 t1 t2 ttl :
  valid_addr (Some addr) -> own_addr reg p (Some addr) = Some (Some a) ->
  0 < ttl < ConnectedAddrTTL -> 0 < maxA -> t1 + ttl <= t2 ->
  exists b, run [(t0, OpAddAddrs p [Some addr] ConnectedAddrTTL); (t1, OpUpdateAddrs p ConnectedAddrTTL ttl); (t2, OpGC)]
      (NewAddrBook maxA maxR) = Some b /\
    Addrs range p t2 b = [] /\ p ∈ PeersWithAddrs b.
Proof.
  intros Hv Ha Httl HmaxA Ht2.
  destruct (run_holds maxA maxR Hreg [(t0, OpAddAddrs p [Some addr] ConnectedAddrTTL); (t1, OpUpdateAddrs p ConnectedAddrTTL ttl); (t2, OpGC)]
    _ _ _ (new_represents maxA maxR)) as (b & E & (Hpa & Hm & _) & _).
  { intros q [x Hx]. by apply lookup_empty_Some in Hx. }
  { apply Forall_cons. split; [by apply Forall_singleton|]. by apply Forall_cons; split; [|apply Forall_singleton]. }
  exists b. split; [done|]. destruct (Addrs_keys b p t2 Hpa) as [_ Hk]. rewrite PeersWithAddrs_iff, has_addrs_iff by done. clear E.
  assert (Hown : own_keys p [Some addr] = [Bytes a]) by (unfold own_keys; cbn; by rewrite Ha).
  assert (items (addrs b) = {[ (p, Bytes a) := mkItem ttl (t1 + ttl) false ]}) as Hi.
  { rewrite Hm. unfold sp_run. cbn [foldl sp_op fst]. rewrite Hown. unfold sp_add_all. change (ConnectedAddrTTL <=? 0) with false. change (ttlIsConnected ConnectedAddrTTL) with true. cbn [negb andb foldl].
    unfold sp_add. rewrite lookup_empty. set (m1 := <[_ := _]> ∅).
    assert (Hm1 : m1 = {[ (p, Bytes a) := mkItem ConnectedAddrTTL (t0 + ConnectedAddrTTL) false ]}) by done. rewrite Hm1. clearbody m1.
    assert (sp_update_all maxA p ConnectedAddrTTL ttl (t1 + ttl) {[ (p, Bytes a) := mkItem ConnectedAddrTTL (t0 + ConnectedAddrTTL) false ]} = {[ (p, Bytes a) := mkItem ttl (t1 + ttl) false ]}) as ->.
    { apply map_eq. intros q. unfold sp_update_all. rewrite map_lookup_imap. destruct (decide (q = (p, Bytes a))) as [->|Hne].
      - rewrite !lookup_singleton_eq. cbn [mbind option_bind fst i_TTL]. rewrite bool_decide_true, Z.eqb_refl by done. cbn [andb]. rewrite (proj2 (Z.eqb_neq ttl 0)) by lia.
        assert (sp_full maxA {[ (p, Bytes a) := mkItem ConnectedAddrTTL (t0 + ConnectedAddrTTL) false ]} = false) as ->; [|by rewrite andb_false_r].
        unfold sp_full, queued_items. rewrite map_filter_singleton_False by done. rewrite map_size_empty. apply Z.leb_gt. lia.
      - by rewrite !lookup_singleton_ne. }
    unfold sp_gc. rewrite map_filter_singleton_True; [done|]. cbn. by intros [? _]. }
  split.
  - destruct (Addrs range p t2 b) as [|x l]; [done|]. destruct (proj1 (Hk (Bytes x)) ltac:(by left)) as (i & Hx & Hlt). rewrite Hi in Hx.
    apply lookup_singleton_Some in Hx as [_ <-]. cbn in Hlt. lia.
  - exists (Bytes a). rewrite Hi, lookup_singleton_eq. by eexists.
Qed.
End refinement.

(** ** A concrete book *)

Module BookDemo.
Definition peer1 : list Z := [1; 2].
Definition env_Record (e : Z) : option (option PeerRecord) := Some (Some (mkPeerRecord peer1 [Some (MBytes MaDemo.tcp80)] e)).
Definition env_Matches (e : Z) (p : list Z) : bool := bool_decide (p = peer1).
Definition range (m : gmap (list Z) nat) : list (list Z * nat) := map_to_list m.
Definition ops : list (Z * book_op (Envelope := Z)) :=
  [(0, OpAddAddrs peer1 [Some (MBytes MaDemo.tcp80); None] 100); (5, OpConsume 7 50); (10, OpSetAddrs peer1 [Some (MBytes MaDemo.tcp80)] 20);
   (20, OpUpdateAddrs peer1 20 30); (60, OpGC)].

Lemma valid_tcp80 : valid_addr MaDemo.reg (Some (MBytes MaDemo.tcp80)).
Proof. split; [demo_bytes|vm_compute; reflexivity]. Qed.

Lemma ops_ok : Forall (fun x => op_ok env_Record MaDemo.reg x.2) ops.
Proof.
  pose proof valid_tcp80. assert (valid_addr MaDemo.reg None) by exact I. unfold ops.
  repeat (apply Forall_cons; split; [cbn; auto using Forall_cons, Forall_nil|]). by apply Forall_nil.
Qed.

Lemma addr_book_refines_witness :
  exists b, run env_Record env_Matches MaDemo.reg range ops (NewAddrBook 10 10) = Some b /\
    (items (addrs b), signedPeerRecords b) = sp_run env_Record env_Matches MaDemo.reg 10 10 ops (∅, ∅).
Proof.
  destruct (addr_book_refines env_Record env_Matches MaDemo.reg range ltac:(intros; reflexivity) 10 10 MaDemo.reg_is_ok ops ops_ok) as (b & E & H & _).
  exists b. split; [exact E|exact H].
Defined.

Lemma addr_book_records_witness :
  exists b, run env_Record env_Matches MaDemo.reg range ops (NewAddrBook 10 10) = Some b /\ Z.of_nat (size (signedPeerRecords b)) <= 10.
Proof.
  destruct (addr_book_records env_Record env_Matches MaDemo.reg range ltac:(intros; reflexivity) 10 10 MaDemo.reg_is_ok ops ops_ok) as (b & E & _ & _ & H & _).
  exists b. split; [exact E|exact H].
Defined.

(** The address expires at 50 and is dropped at 70, with the record; the peer is not listed any more. *)
Lemma gc_removes_expired_witness :
  exists b b', run env_Record env_Matches MaDemo.reg range (removelast ops) (NewAddrBook 10 10) = Some b /\ gc 70 b = Some b' /\
    PeersWithAddrs b = [peer1] /\ PeersWithAddrs b' = [] /\ items (addrs b') = sp_gc 70 (items (addrs b)) /\
    Addrs range peer1 70 b = [] /\ GetPeerRecord range peer1 70 b' = GetPeerRecord range peer1 70 b.
Proof.
  destruct (gc_removes_expired env_Record env_Matches MaDemo.reg range ltac:(intros; reflexivity) 10 10 MaDemo.reg_is_ok (removelast ops) 70)
    as (b & b' & E & E' & Hi & _ & H).
  - pose proof ops_ok as Hok. unfold ops in *. rewrite !Forall_cons in Hok. simpl. rewrite !Forall_cons. tauto.
  - exists b, b'. destruct (H peer1) as (Hp & _ & Hd).
    assert (PeersWithAddrs b = [peer1] /\ PeersWithAddrs b' = []) as [H1 H2].
    { apply (f_equal (fmap (fun b => (PeersWithAddrs b, PeersWithAddrs <$> gc 70 b)))) in E. cbn [fmap option_fmap option_map] in E.
      rewrite E' in E. vm_compute in E. by injection E. }
    refine (conj E (conj E' (conj H1 (conj H2 (conj Hi (conj (Hd _ 70 (Z.le_refl _)) (proj2 (Hp 70 (Z.le_refl _))))))))).
    rewrite H2. apply not_elem_of_nil.
Defined.

(** An older record of the peer is refused before the collection and accepted after it. *)
Lemma gc_forgets_record :
  let answer b := fst <$> ConsumePeerRecord env_Record env_Matches MaDemo.reg 3 50 70 b in
  (b ← run env_Record env_Matches MaDemo.reg range (removelast ops) (NewAddrBook 10 10); answer b) = Some (Ok false) /\
  (b ← run env_Record env_Matches MaDemo.reg range (removelast ops) (NewAddrBook 10 10); b ← gc 70 b; answer b) = Some (Ok true).
Proof. split; vm_compute; reflexivity. Qed.

Lemma disconnected_never_collected_witness :
  exists b, run env_Record env_Matches MaDemo.reg range
      [(0, OpAddAddrs peer1 [Some (MBytes MaDemo.tcp80)] ConnectedAddrTTL); (1, OpUpdateAddrs peer1 ConnectedAddrTTL 20); (1000, OpGC)]
      (NewAddrBook 10 10) = Some b /\ Addrs range peer1 1000 b = [] /\ peer1 ∈ PeersWithAddrs b.
Proof.
  apply (disconnected_never_collected env_Record env_Matches MaDemo.reg range ltac:(intros; reflexivity) 10 10 MaDemo.reg_is_ok peer1
    (MBytes MaDemo.tcp80) (MBytes MaDemo.tcp80) 0 1 1000 20 valid_tcp80); [vm_compute; reflexivity|unfold ConnectedAddrTTL, MaxInt64; lia|lia|lia].
Defined.

(** The limit on unconnected addresses is tested once for a call, not for each address. *)
Lemma limit_overrun :
  NumUnconnectedAddrs ∘ addrs <$>
    run_op env_Record env_Matches MaDemo.reg range 0 (OpAddAddrs peer1 [Some (MBytes MaDemo.tcp80); Some (MBytes MaDemo.unix_a)] 100) (NewAddrBook 1 1) = Some 2.
Proof. vm_compute. reflexivity. Qed.
End BookDemo.
