(* ===== verification/Limits.v ===== *)
(** * Resource limits (src/p2p/host/resource-manager/limit.go, limit_defaults.go)

    The [Limit] and [Limiter] interfaces as classes, their only implementations
    ([BaseLimit], [fixedLimiter]), the partially specified limits
    ([LimitVal], [ResourceLimits], [PartialLimitConfig]) with [Apply] and
    [Build], and the scaling of limits with memory and file descriptors.

    A Go map that is only read through is a [gmap]; a nil map and an empty map
    are the same [∅].  [peer.ID] and [protocol.ID] are Go strings. *)

From stdpp Require Import base gmap strings fin_maps.
From Stdlib Require Import ZArith Lia SpecFloat.
From S2P Require Import Prelude.

(** [network.Direction] *)
Inductive Direction := DirUnknown | DirInbound | DirOutbound.

#[export] Instance Direction_eq_dec : EqDecision Direction.
Proof. solve_decision. Defined.

Definition is_inbound (dir : Direction) : bool :=
  match dir with DirInbound => true | _ => false end.

(** The [Limit] interface. *)
Class Limit (L : Type) := {
  GetMemoryLimit : L -> Z;
  GetStreamLimit : L -> Direction -> Z;
  GetStreamTotalLimit : L -> Z;
  GetConnLimit : L -> Direction -> Z;
  GetConnTotalLimit : L -> Z;
  GetFDLimit : L -> Z;
}.

(** The [Limiter] interface: the limits of every kind of scope. *)
Class Limiter (R L : Type) := {
  GetSystemLimits : R -> L;
  GetTransientLimits : R -> L;
  GetAllowlistedSystemLimits : R -> L;
  GetAllowlistedTransientLimits : R -> L;
  GetServiceLimits : R -> string -> L;
  GetServicePeerLimits : R -> string -> L;
  GetProtocolLimits : R -> string -> L;
  GetProtocolPeerLimits : R -> string -> L;
  GetPeerLimits : R -> string -> L;
  GetStreamLimits : R -> string -> L;
  GetConnLimits : R -> L;
}.

Module BaseLimit.
Record t := mk {
  Streams : Z;
  StreamsInbound : Z;
  StreamsOutbound : Z;
  Conns : Z;
  ConnsInbound : Z;
  ConnsOutbound : Z;
  FD : Z;
  Memory : Z;
}.

#[export] Instance t_eq_dec : EqDecision t.
Proof. solve_decision. Defined.

Definition orElse (v v2 : Z) : Z := if v =? 0 then v2 else v.

Definition Apply (l l2 : t) : t := {|
  Streams := orElse (Streams l) (Streams l2);
  StreamsInbound := orElse (StreamsInbound l) (StreamsInbound l2);
  StreamsOutbound := orElse (StreamsOutbound l) (StreamsOutbound l2);
  Conns := orElse (Conns l) (Conns l2);
  ConnsInbound := orElse (ConnsInbound l) (ConnsInbound l2);
  ConnsOutbound := orElse (ConnsOutbound l) (ConnsOutbound l2);
  FD := orElse (FD l) (FD l2);
  Memory := orElse (Memory l) (Memory l2);
|}.

#[export] Instance Limit_BaseLimit : Limit t := {
  GetMemoryLimit l := Memory l;
  GetStreamLimit l dir := if is_inbound dir then StreamsInbound l else StreamsOutbound l;
  GetStreamTotalLimit l := Streams l;
  GetConnLimit l dir := if is_inbound dir then ConnsInbound l else ConnsOutbound l;
  GetConnTotalLimit l := Conns l;
  GetFDLimit l := FD l;
}.
End BaseLimit.
Export (hints) BaseLimit.
Abbreviation BaseLimit := BaseLimit.t.

(** ** Partially specified limits *)

Definition DefaultLimit : Z := 0.
Definition Unlimited : Z := -1.
Definition BlockAllLimit : Z := -2.

(** [LimitVal.Build] and [LimitVal64.Build] (Go [int] and [int64] coincide). *)
Definition LimitVal_Build (l defaultVal : Z) : Z :=
  if l =? DefaultLimit then defaultVal
  else if l =? Unlimited then MaxInt64
  else if l =? BlockAllLimit then 0
  else l.

(** [valueOrBlockAll] and [valueOrBlockAll64]. *)
Definition valueOrBlockAll (n : Z) : Z :=
  if n =? 0 then BlockAllLimit
  else if n =? MaxInt64 then Unlimited
  else n.

Module ResourceLimits.
Record t := mk {
  Streams : Z;
  StreamsInbound : Z;
  StreamsOutbound : Z;
  Conns : Z;
  ConnsInbound : Z;
  ConnsOutbound : Z;
  FD : Z;
  Memory : Z;
}.

#[export] Instance t_eq_dec : EqDecision t.
Proof. solve_decision. Defined.

Definition IsDefault (l : t) : bool :=
  (Streams l =? DefaultLimit) && (StreamsInbound l =? DefaultLimit) &&
  (StreamsOutbound l =? DefaultLimit) && (Conns l =? DefaultLimit) &&
  (ConnsInbound l =? DefaultLimit) && (ConnsOutbound l =? DefaultLimit) &&
  (FD l =? DefaultLimit) && (Memory l =? DefaultLimit).

(** A nil [*ResourceLimits] is [None]. *)
Definition ToMaybeNilPtr (l : t) : option t := if IsDefault l then None else Some l.

Definition orDefault (v v2 : Z) : Z := if v =? DefaultLimit then v2 else v.

Definition Apply (l l2 : t) : t := {|
  Streams := orDefault (Streams l) (Streams l2);
  StreamsInbound := orDefault (StreamsInbound l) (StreamsInbound l2);
  StreamsOutbound := orDefault (StreamsOutbound l) (StreamsOutbound l2);
  Conns := orDefault (Conns l) (Conns l2);
  ConnsInbound := orDefault (ConnsInbound l) (ConnsInbound l2);
  ConnsOutbound := orDefault (ConnsOutbound l) (ConnsOutbound l2);
  FD := orDefault (FD l) (FD l2);
  Memory := orDefault (Memory l) (Memory l2);
|}.

Definition Build `{Limit L} (l : option t) (defaults : L) : BaseLimit :=
  match l with
  | None => {|
      BaseLimit.Streams := GetStreamTotalLimit defaults;
      BaseLimit.StreamsInbound := GetStreamLimit defaults DirInbound;
      BaseLimit.StreamsOutbound := GetStreamLimit defaults DirOutbound;
      BaseLimit.Conns := GetConnTotalLimit defaults;
      BaseLimit.ConnsInbound := GetConnLimit defaults DirInbound;
      BaseLimit.ConnsOutbound := GetConnLimit defaults DirOutbound;
      BaseLimit.FD := GetFDLimit defaults;
      BaseLimit.Memory := GetMemoryLimit defaults;
    |}
  | Some l => {|
      BaseLimit.Streams := LimitVal_Build (Streams l) (GetStreamTotalLimit defaults);
      BaseLimit.StreamsInbound :=
        LimitVal_Build (StreamsInbound l) (GetStreamLimit defaults DirInbound);
      BaseLimit.StreamsOutbound :=
        LimitVal_Build (StreamsOutbound l) (GetStreamLimit defaults DirOutbound);
      BaseLimit.Conns := LimitVal_Build (Conns l) (GetConnTotalLimit defaults);
      BaseLimit.ConnsInbound := LimitVal_Build (ConnsInbound l) (GetConnLimit defaults DirInbound);
      BaseLimit.ConnsOutbound :=
        LimitVal_Build (ConnsOutbound l) (GetConnLimit defaults DirOutbound);
      BaseLimit.FD := LimitVal_Build (FD l) (GetFDLimit defaults);
      BaseLimit.Memory := LimitVal_Build (Memory l) (GetMemoryLimit defaults);
    |}
  end.
End ResourceLimits.
Abbreviation ResourceLimits := ResourceLimits.t.

Definition ToResourceLimits (l : BaseLimit) : ResourceLimits := {|
  ResourceLimits.Streams := valueOrBlockAll (BaseLimit.Streams l);
  ResourceLimits.StreamsInbound := valueOrBlockAll (BaseLimit.StreamsInbound l);
  ResourceLimits.StreamsOutbound := valueOrBlockAll (BaseLimit.StreamsOutbound l);
  ResourceLimits.Conns := valueOrBlockAll (BaseLimit.Conns l);
  ResourceLimits.ConnsInbound := valueOrBlockAll (BaseLimit.ConnsInbound l);
  ResourceLimits.ConnsOutbound := valueOrBlockAll (BaseLimit.ConnsOutbound l);
  ResourceLimits.FD := valueOrBlockAll (BaseLimit.FD l);
  ResourceLimits.Memory := valueOrBlockAll (BaseLimit.Memory l);
|}.

(** ** Whole configurations

    [limit_config A] is the shape shared by [ConcreteLimitConfig]
    ([A = BaseLimit]) and [PartialLimitConfig] ([A = ResourceLimits]): one value
    per fixed scope, a default and a map per keyed scope. *)
Record limit_config (A : Type) := mkConfig {
  system : A;
  transient : A;
  allowlistedSystem : A;
  allowlistedTransient : A;
  serviceDefault : A;
  service : gmap string A;
  servicePeerDefault : A;
  servicePeer : gmap string A;
  protocolDefault : A;
  protocol : gmap string A;
  protocolPeerDefault : A;
  protocolPeer : gmap string A;
  peerDefault : A;
  peer : gmap string A;
  conn : A;
  stream : A;
}.
Arguments mkConfig {A}.
Arguments system {A}. Arguments transient {A}. Arguments allowlistedSystem {A}.
Arguments allowlistedTransient {A}. Arguments serviceDefault {A}. Arguments service {A}.
Arguments servicePeerDefault {A}. Arguments servicePeer {A}. Arguments protocolDefault {A}.
Arguments protocol {A}. Arguments protocolPeerDefault {A}. Arguments protocolPeer {A}.
Arguments peerDefault {A}. Arguments peer {A}. Arguments conn {A}. Arguments stream {A}.

Definition ConcreteLimitConfig := limit_config BaseLimit.
Definition PartialLimitConfig := limit_config ResourceLimits.

(** [applyResourceLimitsMap] *)
Definition applyResourceLimitsMap (this other : gmap string ResourceLimits)
    (fallbackDefault : ResourceLimits) : gmap string ResourceLimits :=
  map_imap (fun k l => Some (ResourceLimits.Apply l (default fallbackDefault (other !! k)))) this
  ∪ other.

(** [PartialLimitConfig.Apply] *)
Definition PartialLimitConfig_Apply (cfg c : PartialLimitConfig) : PartialLimitConfig :=
  let serviceDefault' := ResourceLimits.Apply (serviceDefault cfg) (serviceDefault c) in
  let servicePeerDefault' := ResourceLimits.Apply (servicePeerDefault cfg) (servicePeerDefault c) in
  let protocolDefault' := ResourceLimits.Apply (protocolDefault cfg) (protocolDefault c) in
  let protocolPeerDefault' :=
    ResourceLimits.Apply (protocolPeerDefault cfg) (protocolPeerDefault c) in
  let peerDefault' := ResourceLimits.Apply (peerDefault cfg) (peerDefault c) in
  {| system := ResourceLimits.Apply (system cfg) (system c);
     transient := ResourceLimits.Apply (transient cfg) (transient c);
     allowlistedSystem := ResourceLimits.Apply (allowlistedSystem cfg) (allowlistedSystem c);
     allowlistedTransient :=
       ResourceLimits.Apply (allowlistedTransient cfg) (allowlistedTransient c);
     serviceDefault := serviceDefault';
     service := applyResourceLimitsMap (service cfg) (service c) serviceDefault';
     servicePeerDefault := servicePeerDefault';
     servicePeer := applyResourceLimitsMap (servicePeer cfg) (servicePeer c) servicePeerDefault';
     protocolDefault := protocolDefault';
     protocol := applyResourceLimitsMap (protocol cfg) (protocol c) protocolDefault';
     protocolPeerDefault := protocolPeerDefault';
     protocolPeer :=
       applyResourceLimitsMap (protocolPeer cfg) (protocolPeer c) protocolPeerDefault';
     peerDefault := peerDefault';
     peer := applyResourceLimitsMap (peer cfg) (peer c) peerDefault';
     conn := ResourceLimits.Apply (conn cfg) (conn c);
     stream := ResourceLimits.Apply (stream cfg) (stream c) |}.

(** [buildMapWithDefault]: the defaults, with every defined key rebuilt on top of
    its own default or of [fallbackDefault]. *)
Definition buildMapWithDefault (definedLimits : gmap string ResourceLimits)
    (defaults : gmap string BaseLimit) (fallbackDefault : BaseLimit) : gmap string BaseLimit :=
  map_imap (fun k l =>
    Some (ResourceLimits.Build (Some l) (default fallbackDefault (defaults !! k)))) definedLimits
  ∪ defaults.

(** [PartialLimitConfig.Build] *)
Definition PartialLimitConfig_Build (cfg : PartialLimitConfig) (defaults : ConcreteLimitConfig)
    : ConcreteLimitConfig :=
  let build (f : PartialLimitConfig -> ResourceLimits) (g : ConcreteLimitConfig -> BaseLimit) :=
    ResourceLimits.Build (Some (f cfg)) (g defaults) in
  let serviceDefault' := build serviceDefault serviceDefault in
  let servicePeerDefault' := build servicePeerDefault servicePeerDefault in
  let protocolDefault' := build protocolDefault protocolDefault in
  let protocolPeerDefault' := build protocolPeerDefault protocolPeerDefault in
  let peerDefault' := build peerDefault peerDefault in
  {| system := build system system;
     transient := build transient transient;
     allowlistedSystem := build allowlistedSystem allowlistedSystem;
     allowlistedTransient := build allowlistedTransient allowlistedTransient;
     serviceDefault := serviceDefault';
     service := buildMapWithDefault (service cfg) (service defaults) serviceDefault';
     servicePeerDefault := servicePeerDefault';
     servicePeer :=
       buildMapWithDefault (servicePeer cfg) (servicePeer defaults) servicePeerDefault';
     protocolDefault := protocolDefault';
     protocol := buildMapWithDefault (protocol cfg) (protocol defaults) protocolDefault';
     protocolPeerDefault := protocolPeerDefault';
     protocolPeer :=
       buildMapWithDefault (protocolPeer cfg) (protocolPeer defaults) protocolPeerDefault';
     peerDefault := peerDefault';
     peer := buildMapWithDefault (peer cfg) (peer defaults) peerDefault';
     conn := build conn conn;
     stream := build stream stream |}.

(** [resourceLimitsMapFromBaseLimitMap] *)
Definition resourceLimitsMapFromBaseLimitMap (m : gmap string BaseLimit)
    : gmap string ResourceLimits := ToResourceLimits <$> m.

(** [ConcreteLimitConfig.ToPartialLimitConfig] *)
Definition ToPartialLimitConfig (cfg : ConcreteLimitConfig) : PartialLimitConfig :=
  {| system := ToResourceLimits (system cfg);
     transient := ToResourceLimits (transient cfg);
     allowlistedSystem := ToResourceLimits (allowlistedSystem cfg);
     allowlistedTransient := ToResourceLimits (allowlistedTransient cfg);
     serviceDefault := ToResourceLimits (serviceDefault cfg);
     service := resourceLimitsMapFromBaseLimitMap (service cfg);
     servicePeerDefault := ToResourceLimits (servicePeerDefault cfg);
     servicePeer := resourceLimitsMapFromBaseLimitMap (servicePeer cfg);
     protocolDefault := ToResourceLimits (protocolDefault cfg);
     protocol := resourceLimitsMapFromBaseLimitMap (protocol cfg);
     protocolPeerDefault := ToResourceLimits (protocolPeerDefault cfg);
     protocolPeer := resourceLimitsMapFromBaseLimitMap (protocolPeer cfg);
     peerDefault := ToResourceLimits (peerDefault cfg);
     peer := resourceLimitsMapFromBaseLimitMap (peer cfg);
     conn := ToResourceLimits (conn cfg);
     stream := ToResourceLimits (stream cfg) |}.

(** [fixedLimiter]: lookups in a [ConcreteLimitConfig], falling back on the
    default of the keyed scopes. *)
#[export] Instance Limiter_fixedLimiter : Limiter ConcreteLimitConfig BaseLimit := {
  GetSystemLimits := system;
  GetTransientLimits := transient;
  GetAllowlistedSystemLimits := allowlistedSystem;
  GetAllowlistedTransientLimits := allowlistedTransient;
  GetServiceLimits l svc := default (serviceDefault l) (service l !! svc);
  GetServicePeerLimits l svc := default (servicePeerDefault l) (servicePeer l !! svc);
  GetProtocolLimits l proto := default (protocolDefault l) (protocol l !! proto);
  GetProtocolPeerLimits l proto := default (protocolPeerDefault l) (protocolPeer l !! proto);
  GetPeerLimits l p := default (peerDefault l) (peer l !! p);
  GetStreamLimits l _ := stream l;
  GetConnLimits := conn;
}.

(** ** Scaling

    [float64] is IEEE-754 binary64, as [spec_float] with Stdlib's executable
    specification of the operations. *)
Definition f64_prec : Z := 53.
Definition f64_emax : Z := 1024.
Definition f64_of_int (n : Z) : spec_float := binary_normalize f64_prec f64_emax n 0 false.
Definition f64_mul (a b : spec_float) : spec_float := SFmul f64_prec f64_emax a b.
Definition f64_zero : spec_float := S754_zero false.

(** Conversion of a finite float to [int], truncating towards zero; Go leaves
    the conversion of a non-finite value to the implementation, here 0. *)
Definition int_of_f64 (f : spec_float) : Z :=
  match f with
  | S754_finite s m e =>
      let v := if 0 <=? e then Zpos m * 2 ^ e else Zpos m / 2 ^ (- e) in
      wrap64 (if s then - v else v)
  | _ => 0
  end.

Module BaseLimitIncrease.
Record t := mk {
  Streams : Z;
  StreamsInbound : Z;
  StreamsOutbound : Z;
  Conns : Z;
  ConnsInbound : Z;
  ConnsOutbound : Z;
  Memory : Z;
  FDFraction : spec_float;
}.

Definition Apply (l l2 : t) : t := {|
  Streams := BaseLimit.orElse (Streams l) (Streams l2);
  StreamsInbound := BaseLimit.orElse (StreamsInbound l) (StreamsInbound l2);
  StreamsOutbound := BaseLimit.orElse (StreamsOutbound l) (StreamsOutbound l2);
  Conns := BaseLimit.orElse (Conns l) (Conns l2);
  ConnsInbound := BaseLimit.orElse (ConnsInbound l) (ConnsInbound l2);
  ConnsOutbound := BaseLimit.orElse (ConnsOutbound l) (ConnsOutbound l2);
  Memory := BaseLimit.orElse (Memory l) (Memory l2);
  FDFraction := if SFeqb (FDFraction l) f64_zero then FDFraction l2 else FDFraction l;
|}.
End BaseLimitIncrease.
Abbreviation BaseLimitIncrease := BaseLimitIncrease.t.

(** [mebibytesAvailable] of [scale]. *)
Definition mebibytes (memory : Z) : Z :=
  if memory >? Z.shiftl 128 20 then Z.shiftr memory 20 else 0.

(** [base + (inc * mebibytesAvailable) >> 10] on Go integers. *)
Definition scaled (base inc mebibytesAvailable : Z) : Z :=
  wrap64 (base + Z.shiftr (wrap64 (inc * mebibytesAvailable)) 10).

Definition scale (base : BaseLimit) (inc : BaseLimitIncrease) (memory numFD : Z) : BaseLimit :=
  let mebibytesAvailable := mebibytes memory in
  {| BaseLimit.StreamsInbound := scaled (BaseLimit.StreamsInbound base)
       (BaseLimitIncrease.StreamsInbound inc) mebibytesAvailable;
     BaseLimit.StreamsOutbound := scaled (BaseLimit.StreamsOutbound base)
       (BaseLimitIncrease.StreamsOutbound inc) mebibytesAvailable;
     BaseLimit.Streams := scaled (BaseLimit.Streams base)
       (BaseLimitIncrease.Streams inc) mebibytesAvailable;
     BaseLimit.ConnsInbound := scaled (BaseLimit.ConnsInbound base)
       (BaseLimitIncrease.ConnsInbound inc) mebibytesAvailable;
     BaseLimit.ConnsOutbound := scaled (BaseLimit.ConnsOutbound base)
       (BaseLimitIncrease.ConnsOutbound inc) mebibytesAvailable;
     BaseLimit.Conns := scaled (BaseLimit.Conns base)
       (BaseLimitIncrease.Conns inc) mebibytesAvailable;
     BaseLimit.Memory := scaled (BaseLimit.Memory base)
       (BaseLimitIncrease.Memory inc) mebibytesAvailable;
     BaseLimit.FD :=
       if SFltb f64_zero (BaseLimitIncrease.FDFraction inc) && (numFD >? 0)
       then let fd := int_of_f64 (f64_mul (BaseLimitIncrease.FDFraction inc) (f64_of_int numFD)) in
            if fd <? BaseLimit.FD base then BaseLimit.FD base else fd
       else BaseLimit.FD base |}.

(** [ScalingLimitConfig]: a base limit and an increase per scope.  The source
    keeps the two in separate fields; [baseLimitConfig] pairs them, as the source
    does for the keyed scopes. *)
Record baseLimitConfig := mkBaseLimitConfig {
  blc_base : BaseLimit;
  blc_increase : BaseLimitIncrease;
}.

Definition ScalingLimitConfig := limit_config baseLimitConfig.

Definition scale1 (c : baseLimitConfig) (memory numFD : Z) : BaseLimit :=
  scale (blc_base c) (blc_increase c) memory numFD.

(** [ScalingLimitConfig.Scale].  The stream limit is scaled with the increase of
    the connection limit, as in the source. *)
Definition Scale (cfg : ScalingLimitConfig) (memory numFD : Z) : ConcreteLimitConfig :=
  let scalem (m : gmap string baseLimitConfig) := (fun l => scale1 l memory numFD) <$> m in
  {| system := scale1 (system cfg) memory numFD;
     transient := scale1 (transient cfg) memory numFD;
     allowlistedSystem := scale1 (allowlistedSystem cfg) memory numFD;
     allowlistedTransient := scale1 (allowlistedTransient cfg) memory numFD;
     serviceDefault := scale1 (serviceDefault cfg) memory numFD;
     service := scalem (service cfg);
     servicePeerDefault := scale1 (servicePeerDefault cfg) memory numFD;
     servicePeer := scalem (servicePeer cfg);
     protocolDefault := scale1 (protocolDefault cfg) memory numFD;
     protocol := scalem (protocol cfg);
     protocolPeerDefault := scale1 (protocolPeerDefault cfg) memory numFD;
     protocolPeer := scalem (protocolPeer cfg);
     peerDefault := scale1 (peerDefault cfg) memory numFD;
     peer := scalem (peer cfg);
     conn := scale1 (conn cfg) memory numFD;
     stream := scale (blc_base (stream cfg)) (blc_increase (conn cfg)) memory numFD |}.

(** [AddServiceLimit] and its four siblings: one entry of one keyed map. *)
Definition AddServiceLimit (cfg : ScalingLimitConfig) (svc : string) (base : BaseLimit)
    (inc : BaseLimitIncrease) : ScalingLimitConfig :=
  {| system := system cfg; transient := transient cfg;
     allowlistedSystem := allowlistedSystem cfg;
     allowlistedTransient := allowlistedTransient cfg;
     serviceDefault := serviceDefault cfg;
     service := <[svc := mkBaseLimitConfig base inc]> (service cfg);
     servicePeerDefault := servicePeerDefault cfg; servicePeer := servicePeer cfg;
     protocolDefault := protocolDefault cfg; protocol := protocol cfg;
     protocolPeerDefault := protocolPeerDefault cfg; protocolPeer := protocolPeer cfg;
     peerDefault := peerDefault cfg; peer := peer cfg;
     conn := conn cfg; stream := stream cfg |}.

Definition AddProtocolLimit (cfg : ScalingLimitConfig) (proto : string) (base : BaseLimit)
    (inc : BaseLimitIncrease) : ScalingLimitConfig :=
  {| system := system cfg; transient := transient cfg;
     allowlistedSystem := allowlistedSystem cfg;
     allowlistedTransient := allowlistedTransient cfg;
     serviceDefault := serviceDefault cfg; service := service cfg;
     servicePeerDefault := servicePeerDefault cfg; servicePeer := servicePeer cfg;
     protocolDefault := protocolDefault cfg;
     protocol := <[proto := mkBaseLimitConfig base inc]> (protocol cfg);
     protocolPeerDefault := protocolPeerDefault cfg; protocolPeer := protocolPeer cfg;
     peerDefault := peerDefault cfg; peer := peer cfg;
     conn := conn cfg; stream := stream cfg |}.

Definition AddPeerLimit (cfg : ScalingLimitConfig) (p : string) (base : BaseLimit)
    (inc : BaseLimitIncrease) : ScalingLimitConfig :=
  {| system := system cfg; transient := transient cfg;
     allowlistedSystem := allowlistedSystem cfg;
     allowlistedTransient := allowlistedTransient cfg;
     serviceDefault := serviceDefault cfg; service := service cfg;
     servicePeerDefault := servicePeerDefault cfg; servicePeer := servicePeer cfg;
     protocolDefault := protocolDefault cfg; protocol := protocol cfg;
     protocolPeerDefault := protocolPeerDefault cfg; protocolPeer := protocolPeer cfg;
     peerDefault := peerDefault cfg;
     peer := <[p := mkBaseLimitConfig base inc]> (peer cfg);
     conn := conn cfg; stream := stream cfg |}.

Definition AddServicePeerLimit (cfg : ScalingLimitConfig) (svc : string) (base : BaseLimit)
    (inc : BaseLimitIncrease) : ScalingLimitConfig :=
  {| system := system cfg; transient := transient cfg;
     allowlistedSystem := allowlistedSystem cfg;
     allowlistedTransient := allowlistedTransient cfg;
     serviceDefault := serviceDefault cfg; service := service cfg;
     servicePeerDefault := servicePeerDefault cfg;
     servicePeer := <[svc := mkBaseLimitConfig base inc]> (servicePeer cfg);
     protocolDefault := protocolDefault cfg; protocol := protocol cfg;
     protocolPeerDefault := protocolPeerDefault cfg; protocolPeer := protocolPeer cfg;
     peerDefault := peerDefault cfg; peer := peer cfg;
     conn := conn cfg; stream := stream cfg |}.

Definition AddProtocolPeerLimit (cfg : ScalingLimitConfig) (proto : string) (base : BaseLimit)
    (inc : BaseLimitIncrease) : ScalingLimitConfig :=
  {| system := system cfg; transient := transient cfg;
     allowlistedSystem := allowlistedSystem cfg;
     allowlistedTransient := allowlistedTransient cfg;
     serviceDefault := serviceDefault cfg; service := service cfg;
     servicePeerDefault := servicePeerDefault cfg; servicePeer := servicePeer cfg;
     protocolDefault := protocolDefault cfg; protocol := protocol cfg;
     protocolPeerDefault := protocolPeerDefault cfg;
     protocolPeer := <[proto := mkBaseLimitConfig base inc]> (protocolPeer cfg);
     peerDefault := peerDefault cfg; peer := peer cfg;
     conn := conn cfg; stream := stream cfg |}.

(** [DefaultLimits], field by field; an omitted field of a Go composite literal
    is zero. *)
Definition f64_pow2 (e : Z) : spec_float := binary_normalize f64_prec f64_emax 1 e false.

Definition DefaultLimits : ScalingLimitConfig := {|
  system := mkBaseLimitConfig
    (BaseLimit.mk (128 * 16) (64 * 16) (128 * 16) 128 64 128 256 (Z.shiftl 128 20))
    (BaseLimitIncrease.mk (128 * 16) (64 * 16) (128 * 16) 128 64 128 (Z.shiftl 1 30) (f64_pow2 0));
  transient := mkBaseLimitConfig
    (BaseLimit.mk 256 128 256 64 32 64 64 (Z.shiftl 32 20))
    (BaseLimitIncrease.mk 256 128 256 32 16 32 (Z.shiftl 128 20) (f64_pow2 (-2)));
  allowlistedSystem := mkBaseLimitConfig
    (BaseLimit.mk (128 * 16) (64 * 16) (128 * 16) 128 64 128 256 (Z.shiftl 128 20))
    (BaseLimitIncrease.mk (128 * 16) (64 * 16) (128 * 16) 128 64 128 (Z.shiftl 1 30) (f64_pow2 0));
  allowlistedTransient := mkBaseLimitConfig
    (BaseLimit.mk 256 128 256 64 32 64 64 (Z.shiftl 32 20))
    (BaseLimitIncrease.mk 256 128 256 32 16 32 (Z.shiftl 128 20) (f64_pow2 (-2)));
  serviceDefault := mkBaseLimitConfig
    (BaseLimit.mk 4096 1024 4096 0 0 0 0 (Z.shiftl 64 20))
    (BaseLimitIncrease.mk 2048 512 2048 0 0 0 (Z.shiftl 128 20) f64_zero);
  service := ∅;
  servicePeerDefault := mkBaseLimitConfig
    (BaseLimit.mk 256 128 256 0 0 0 0 (Z.shiftl 16 20))
    (BaseLimitIncrease.mk 8 4 8 0 0 0 (Z.shiftl 4 20) f64_zero);
  servicePeer := ∅;
  protocolDefault := mkBaseLimitConfig
    (BaseLimit.mk 2048 512 2048 0 0 0 0 (Z.shiftl 64 20))
    (BaseLimitIncrease.mk 512 256 512 0 0 0 (Z.shiftl 164 20) f64_zero);
  protocol := ∅;
  protocolPeerDefault := mkBaseLimitConfig
    (BaseLimit.mk 256 64 128 0 0 0 0 (Z.shiftl 16 20))
    (BaseLimitIncrease.mk 16 4 8 0 0 0 4 f64_zero);
  protocolPeer := ∅;
  peerDefault := mkBaseLimitConfig
    (BaseLimit.mk 512 256 512 8 8 8 4 (Z.shiftl 64 20))
    (BaseLimitIncrease.mk 256 128 256 0 0 0 (Z.shiftl 128 20) (f64_pow2 (-6)));
  peer := ∅;
  conn := mkBaseLimitConfig
    (BaseLimit.mk 0 0 0 1 1 1 1 (Z.shiftl 32 20))
    (BaseLimitIncrease.mk 0 0 0 0 0 0 0 f64_zero);
  stream := mkBaseLimitConfig
    (BaseLimit.mk 1 1 1 0 0 0 0 (Z.shiftl 16 20))
    (BaseLimitIncrease.mk 0 0 0 0 0 0 0 f64_zero)
|}.

Definition infiniteBaseLimit : BaseLimit :=
  BaseLimit.mk MaxInt64 MaxInt64 MaxInt64 MaxInt64 MaxInt64 MaxInt64 MaxInt64 MaxInt64.

Definition InfiniteLimits : ConcreteLimitConfig := {|
  system := infiniteBaseLimit; transient := infiniteBaseLimit;
  allowlistedSystem := infiniteBaseLimit; allowlistedTransient := infiniteBaseLimit;
  serviceDefault := infiniteBaseLimit; service := ∅;
  servicePeerDefault := infiniteBaseLimit; servicePeer := ∅;
  protocolDefault := infiniteBaseLimit; protocol := ∅;
  protocolPeerDefault := infiniteBaseLimit; protocolPeer := ∅;
  peerDefault := infiniteBaseLimit; peer := ∅;
  conn := infiniteBaseLimit; stream := infiniteBaseLimit |}.

(** ** Properties *)

(** Limits as the resource manager uses them: Go integers, none negative. *)
Definition limit_wf (l : BaseLimit) : Prop :=
  Forall (fun v => 0 <= v <= MaxInt64)
    [BaseLimit.Streams l; BaseLimit.StreamsInbound l; BaseLimit.StreamsOutbound l;
     BaseLimit.Conns l; BaseLimit.ConnsInbound l; BaseLimit.ConnsOutbound l;
     BaseLimit.FD l; BaseLimit.Memory l].

#[export] Instance limit_wf_dec l : Decision (limit_wf l).
Proof. unfold limit_wf. apply _. Defined.

Definition config_wf (cfg : ConcreteLimitConfig) : Prop :=
  Forall limit_wf
    [system cfg; transient cfg; allowlistedSystem cfg; allowlistedTransient cfg;
     serviceDefault cfg; servicePeerDefault cfg; protocolDefault cfg; protocolPeerDefault cfg;
     peerDefault cfg; conn cfg; stream cfg] /\
  Forall (fun m => map_Forall (fun _ l => limit_wf l) m)
    [service cfg; servicePeer cfg; protocol cfg; protocolPeer cfg; peer cfg].

#[export] Instance config_wf_dec cfg : Decision (config_wf cfg).
Proof. unfold config_wf. apply _. Defined.

(** What remains of [defaults] under a fully specified [cfg]: the keyed entries
    [cfg] does not mention. *)
Definition overlay (cfg defaults : ConcreteLimitConfig) : ConcreteLimitConfig :=
  {| system := system cfg; transient := transient cfg;
     allowlistedSystem := allowlistedSystem cfg;
     allowlistedTransient := allowlistedTransient cfg;
     serviceDefault := serviceDefault cfg; service := service cfg ∪ service defaults;
     servicePeerDefault := servicePeerDefault cfg;
     servicePeer := servicePeer cfg ∪ servicePeer defaults;
     protocolDefault := protocolDefault cfg; protocol := protocol cfg ∪ protocol defaults;
     protocolPeerDefault := protocolPeerDefault cfg;
     protocolPeer := protocolPeer cfg ∪ protocolPeer defaults;
     peerDefault := peerDefault cfg; peer := peer cfg ∪ peer defaults;
     conn := conn cfg; stream := stream cfg |}.

Lemma LimitVal_Build_valueOrBlockAll n d :
  0 <= n <= MaxInt64 -> LimitVal_Build (valueOrBlockAll n) d = n.
Proof.
  unfold LimitVal_Build, valueOrBlockAll, DefaultLimit, Unlimited, BlockAllLimit, MaxInt64.
  intros. repeat case_bool; lia.
Qed.

Lemma Build_ToResourceLimits `{Limit L} l (d : L) :
  limit_wf l -> ResourceLimits.Build (Some (ToResourceLimits l)) d = l.
Proof.
  destruct l. unfold limit_wf. rewrite !Forall_cons. simpl. intros.
  unfold ToResourceLimits, ResourceLimits.Build; simpl.
  rewrite !LimitVal_Build_valueOrBlockAll by tauto. done.
Qed.

Lemma buildMapWithDefault_ToResourceLimits m d fb :
  map_Forall (fun _ l => limit_wf l) m ->
  buildMapWithDefault (resourceLimitsMapFromBaseLimitMap m) d fb = m ∪ d.
Proof.
  intros Hm. unfold buildMapWithDefault, resourceLimitsMapFromBaseLimitMap.
  f_equal. apply map_eq. intros k. rewrite map_lookup_imap, lookup_fmap.
  destruct (m !! k) as [l|] eqn:Hk; [|done]. cbn -[ResourceLimits.Build].
  rewrite Build_ToResourceLimits; [done | exact (Hm k l Hk)].
Qed.

(** Specifying a limit on top of another specification is building in two
    stages. *)
Lemma Build_Apply l l2 (d : BaseLimit) :
  ResourceLimits.Build (Some (ResourceLimits.Apply l l2)) d =
  ResourceLimits.Build (Some l) (ResourceLimits.Build (Some l2) d).
Proof.
  unfold ResourceLimits.Build, ResourceLimits.Apply, ResourceLimits.orDefault, LimitVal_Build.
  destruct l, l2; simpl. f_equal; repeat case_bool; done.
Qed.

Lemma scaled_ge_base base inc mem :
  0 <= base -> 0 <= inc -> 0 <= mem -> inc * mem < 2 ^ 63 ->
  base + Z.shiftr (inc * mem) 10 < 2 ^ 63 ->
  scaled base inc mem = base + inc * mem / 1024 /\ base <= scaled base inc mem.
Proof.
  intros Hb Hi Hm Ho Ho'. unfold scaled. rewrite Z.shiftr_div_pow2 in * by lia.
  change (2 ^ 10) with 1024 in *.
  assert (0 <= inc * mem) by nia.
  rewrite (wrap64_id (inc * mem)) by go64.
  assert (0 <= inc * mem / 1024) by (apply Z.div_pos; lia).
  rewrite wrap64_id by go64. lia.
Qed.

Lemma scaled_zero base inc : 0 <= base < 2 ^ 63 -> scaled base inc 0 = base.
Proof. intros. unfold scaled. rewrite Z.mul_0_r. simpl. rewrite Z.add_0_r. apply wrap64_id. go64. Qed.

(** A limit can only grow with memory: no scaled field is below its base. *)
Definition increase_fits (base : BaseLimit) (inc : BaseLimitIncrease) (memory : Z) : Prop :=
  Forall (fun '(b, i) => 0 <= b /\ 0 <= i /\ i * mebibytes memory < 2 ^ 63 /\
                         b + Z.shiftr (i * mebibytes memory) 10 < 2 ^ 63)
    [(BaseLimit.Streams base, BaseLimitIncrease.Streams inc);
     (BaseLimit.StreamsInbound base, BaseLimitIncrease.StreamsInbound inc);
     (BaseLimit.StreamsOutbound base, BaseLimitIncrease.StreamsOutbound inc);
     (BaseLimit.Conns base, BaseLimitIncrease.Conns inc);
     (BaseLimit.ConnsInbound base, BaseLimitIncrease.ConnsInbound inc);
     (BaseLimit.ConnsOutbound base, BaseLimitIncrease.ConnsOutbound inc);
     (BaseLimit.Memory base, BaseLimitIncrease.Memory inc)].

Definition limit_le (l l' : BaseLimit) : Prop :=
  BaseLimit.Streams l <= BaseLimit.Streams l' /\
  BaseLimit.StreamsInbound l <= BaseLimit.StreamsInbound l' /\
  BaseLimit.StreamsOutbound l <= BaseLimit.StreamsOutbound l' /\
  BaseLimit.Conns l <= BaseLimit.Conns l' /\
  BaseLimit.ConnsInbound l <= BaseLimit.ConnsInbound l' /\
  BaseLimit.ConnsOutbound l <= BaseLimit.ConnsOutbound l' /\
  BaseLimit.FD l <= BaseLimit.FD l' /\
  BaseLimit.Memory l <= BaseLimit.Memory l'.

Lemma mebibytes_nonneg memory : 0 <= mebibytes memory.
Proof.
  unfold mebibytes. case_bool; [|lia]. apply Z.shiftr_nonneg.
  change (Z.shiftl 128 20) with (2 ^ 27) in *. lia.
Qed.

(** a fully specified configuration survives the conversion to a partial
    configuration and back: building [ToPartialLimitConfig cfg] on any defaults
    gives [cfg] again, the defaults only contributing keyed entries (services,
    protocols, peers) that [cfg] does not mention. *)
Theorem Build_ToPartialLimitConfig (cfg defaults : ConcreteLimitConfig) :
  config_wf cfg ->
  PartialLimitConfig_Build (ToPartialLimitConfig cfg) defaults = overlay cfg defaults.
Proof.
  destruct cfg. unfold config_wf. rewrite !Forall_cons. simpl. intros [Hf Hm].
  unfold PartialLimitConfig_Build, ToPartialLimitConfig, overlay.
  cbn -[ResourceLimits.Build ToResourceLimits buildMapWithDefault resourceLimitsMapFromBaseLimitMap].
  rewrite !Build_ToResourceLimits, !buildMapWithDefault_ToResourceLimits by tauto. done.
Qed.

Lemma Build_ToPartialLimitConfig_witness :
  PartialLimitConfig_Build (ToPartialLimitConfig (Scale DefaultLimits (Z.shiftl 1 33) 4096))
    InfiniteLimits = overlay (Scale DefaultLimits (Z.shiftl 1 33) 4096) InfiniteLimits.
Proof.
  apply (Build_ToPartialLimitConfig (Scale DefaultLimits (Z.shiftl 1 33) 4096) InfiniteLimits).
  apply (bool_decide_unpack _). vm_compute. exact I.
Defined.

(** scaling never takes a limit below its base, and below 128 MiB of memory
    it leaves everything but the file descriptors at the base. *)
Theorem scale_ge_base base inc memory numFD :
  increase_fits base inc memory ->
  limit_le base (scale base inc memory numFD) /\
  (memory <= Z.shiftl 128 20 ->
   BaseLimit.FD base = BaseLimit.FD (scale base inc memory numFD) ->
   scale base inc memory numFD = base).
Proof.
  unfold increase_fits. rewrite !Forall_cons. intros Hf. pose proof (mebibytes_nonneg memory).
  assert (BaseLimit.FD base <= BaseLimit.FD (scale base inc memory numFD)) as Hfd.
  { unfold scale; simpl. repeat case_bool; lia. }
  split.
  - unfold limit_le, scale in *; simpl in *.
    repeat split; try exact Hfd; apply scaled_ge_base; tauto.
  - intros Hmem Heq. destruct base. unfold scale in *. simpl in *.
    assert (mebibytes memory = 0) as Hz by (unfold mebibytes; case_bool; lia).
    rewrite Hz in *. rewrite !Z.mul_0_r in Hf. change (Z.shiftr 0 10) with 0 in Hf.
    rewrite !scaled_zero by lia. by rewrite <- Heq.
Qed.

Lemma scale_ge_base_witness :
  let base := blc_base (system DefaultLimits) in
  let inc := blc_increase (system DefaultLimits) in
  limit_le base (scale base inc (Z.shiftl 1 33) 4096).
Proof.
  intros base inc. apply (scale_ge_base base inc (Z.shiftl 1 33) 4096).
  unfold increase_fits. repeat constructor; vm_compute; try done; discriminate.
Defined.

(** A defect of the scaling: [Scale] derives the per-stream limit from the increase of the
    connection limit; the configured stream increase has no effect on any field
    of the result. *)
Theorem Scale_ignores_stream_increase (cfg : ScalingLimitConfig) inc memory numFD :
  Scale (mkConfig (system cfg) (transient cfg) (allowlistedSystem cfg) (allowlistedTransient cfg)
           (serviceDefault cfg) (service cfg) (servicePeerDefault cfg) (servicePeer cfg)
           (protocolDefault cfg) (protocol cfg) (protocolPeerDefault cfg) (protocolPeer cfg)
           (peerDefault cfg) (peer cfg) (conn cfg)
           (mkBaseLimitConfig (blc_base (stream cfg)) inc)) memory numFD
  = Scale cfg memory numFD.
Proof. reflexivity. Qed.
