(* ===== verification/Resources.v ===== *)
(** * Resource counters (src/p2p/host/resource-manager/scope.go, type [resources])

    The counters of one scope, the checks against its limit, and the increments
    and decrements.  Every definition works on Go integers ([wrap64]); the
    theorems say when the arithmetic is exact.  A method that mutates the
    receiver and returns an [error] returns the new counters together with an
    [option] error, [None] being nil. *)

From stdpp Require Import base gmap strings.
From Stdlib Require Import ZArith Lia.
From S2P Require Import Prelude Limits.

(** [network.ScopeStat] *)
Record ScopeStat := mkStat {
  NumStreamsInbound : Z;
  NumStreamsOutbound : Z;
  NumConnsInbound : Z;
  NumConnsOutbound : Z;
  NumFD : Z;
  Memory : Z;
}.

#[export] Instance ScopeStat_eq_dec : EqDecision ScopeStat.
Proof. solve_decision. Defined.

(** What could not be reserved, as the message of [ErrStreamOrConnLimitExceeded]
    says. *)
Inductive reserve_what :=
| InboundStream | OutboundStream | AnyStream
| InboundConn | OutboundConn | AnyConn | FileDescriptor.

(** The errors of the component.  [WrapErr] is [fmt.Errorf("%s: %w", name, err)];
    [NegativeMemory] is the only one that does not unwrap to
    [network.ErrResourceLimitExceeded] or [network.ErrResourceScopeClosed]. *)
Inductive rc_error :=
| ErrMemoryLimitExceeded (current attempted limit priority : Z)
| ErrStreamOrConnLimitExceeded (what : reserve_what) (current attempted limit : Z)
| NegativeMemory (rsvp : Z)
| ErrResourceScopeClosed
| WrapErr (name : string) (err : rc_error).

Definition addInt64WithOverflow (a b : Z) : Z * bool :=
  let c := wrap64 (a + b) in
  (c, Bool.eqb (c >? a) (b >? 0)).

Definition mulInt64WithOverflow (a b : Z) : Z * bool :=
  let mostPositive := 2 ^ 63 - 1 in
  let mostNegative := - (mostPositive + 1) in
  let c := wrap64 (a * b) in
  if (a =? 0) || (b =? 0) || (a =? 1) || (b =? 1) then (c, true)
  else if (a =? mostNegative) || (b =? mostNegative) then (c, false)
  else (c, wrap64 (Z.quot c b) =? a).

Section resources.
Context {L : Type} `{!Limit L}.

Record resources := mkResources {
  limit : L;
  nconnsIn : Z;
  nconnsOut : Z;
  nstreamsIn : Z;
  nstreamsOut : Z;
  nfd : Z;
  memory : Z;
}.
Implicit Types rc : resources.

Definition set_memory (m : Z) rc : resources :=
  mkResources (limit rc) (nconnsIn rc) (nconnsOut rc) (nstreamsIn rc) (nstreamsOut rc) (nfd rc) m.
Definition set_streams (i o : Z) rc : resources :=
  mkResources (limit rc) (nconnsIn rc) (nconnsOut rc) i o (nfd rc) (memory rc).
Definition set_conns (i o fd : Z) rc : resources :=
  mkResources (limit rc) i o (nstreamsIn rc) (nstreamsOut rc) fd (memory rc).

(** The memory threshold of a priority: [(1 + prio) * limit / 256], through
    arbitrary-precision arithmetic ([big.Int]) when the product overflows. *)
Definition memory_threshold (lim prio : Z) : Z :=
  let '(threshold, mulOk) := mulInt64WithOverflow (wrap64 (1 + prio)) lim in
  if mulOk then Z.quot threshold 256
  else wrap64 (Z.shiftr (lim * (1 + prio)) 8).

Definition checkMemory rc (rsvp prio : Z) : option rc_error :=
  if rsvp <? 0 then Some (NegativeMemory rsvp)
  else
    let lim := GetMemoryLimit (limit rc) in
    if lim =? MaxInt64 then None
    else
      let '(newmem, addOk) := addInt64WithOverflow (memory rc) rsvp in
      if negb addOk || (newmem >? memory_threshold lim prio)
      then Some (ErrMemoryLimitExceeded (memory rc) rsvp lim prio)
      else None.

Definition reserveMemory rc (size prio : Z) : resources * option rc_error :=
  match checkMemory rc size prio with
  | Some err => (rc, Some err)
  | None => (set_memory (wrap64 (memory rc + size)) rc, None)
  end.

Definition releaseMemory rc (size : Z) : resources :=
  let m := wrap64 (memory rc - size) in
  set_memory (if m <? 0 then 0 else m) rc.

Definition addStreams rc (incount outcount : Z) : resources * option rc_error :=
  let limIn := GetStreamLimit (limit rc) DirInbound in
  let limOut := GetStreamLimit (limit rc) DirOutbound in
  let limTotal := GetStreamTotalLimit (limit rc) in
  if (incount >? 0) && (wrap64 (nstreamsIn rc + incount) >? limIn) then
    (rc, Some (ErrStreamOrConnLimitExceeded InboundStream (nstreamsIn rc) incount limIn))
  else if (outcount >? 0) && (wrap64 (nstreamsOut rc + outcount) >? limOut) then
    (rc, Some (ErrStreamOrConnLimitExceeded OutboundStream (nstreamsOut rc) outcount limOut))
  else if wrap64 (nstreamsIn rc + incount + nstreamsOut rc + outcount) >? limTotal then
    (rc, Some (ErrStreamOrConnLimitExceeded AnyStream
                 (wrap64 (nstreamsIn rc + nstreamsOut rc)) (wrap64 (incount + outcount)) limTotal))
  else
    (set_streams (wrap64 (nstreamsIn rc + incount)) (wrap64 (nstreamsOut rc + outcount)) rc, None).

Definition addStream rc (dir : Direction) : resources * option rc_error :=
  if is_inbound dir then addStreams rc 1 0 else addStreams rc 0 1.

Definition removeStreams rc (incount outcount : Z) : resources :=
  let i := wrap64 (nstreamsIn rc - incount) in
  let o := wrap64 (nstreamsOut rc - outcount) in
  set_streams (if i <? 0 then 0 else i) (if o <? 0 then 0 else o) rc.

Definition removeStream rc (dir : Direction) : resources :=
  if is_inbound dir then removeStreams rc 1 0 else removeStreams rc 0 1.

Definition addConns rc (incount outcount fdcount : Z) : resources * option rc_error :=
  let limIn := GetConnLimit (limit rc) DirInbound in
  let limOut := GetConnLimit (limit rc) DirOutbound in
  let limTotal := GetConnTotalLimit (limit rc) in
  let limFD := GetFDLimit (limit rc) in
  if (incount >? 0) && (wrap64 (nconnsIn rc + incount) >? limIn) then
    (rc, Some (ErrStreamOrConnLimitExceeded InboundConn (nconnsIn rc) incount limIn))
  else if (outcount >? 0) && (wrap64 (nconnsOut rc + outcount) >? limOut) then
    (rc, Some (ErrStreamOrConnLimitExceeded OutboundConn (nconnsOut rc) outcount limOut))
  else if wrap64 (nconnsIn rc + incount + nconnsOut rc + outcount) >? limTotal then
    (rc, Some (ErrStreamOrConnLimitExceeded AnyConn
                 (wrap64 (nconnsIn rc + nconnsOut rc)) (wrap64 (incount + outcount)) limTotal))
  else if (fdcount >? 0) && (wrap64 (nfd rc + fdcount) >? limFD) then
    (rc, Some (ErrStreamOrConnLimitExceeded FileDescriptor (nfd rc) fdcount limFD))
  else
    (set_conns (wrap64 (nconnsIn rc + incount)) (wrap64 (nconnsOut rc + outcount))
               (wrap64 (nfd rc + fdcount)) rc, None).

Definition fd_count (usefd : bool) : Z := if usefd then 1 else 0.

Definition addConn rc (dir : Direction) (usefd : bool) : resources * option rc_error :=
  if is_inbound dir then addConns rc 1 0 (fd_count usefd) else addConns rc 0 1 (fd_count usefd).

Definition removeConns rc (incount outcount fdcount : Z) : resources :=
  let i := wrap64 (nconnsIn rc - incount) in
  let o := wrap64 (nconnsOut rc - outcount) in
  let fd := wrap64 (nfd rc - fdcount) in
  set_conns (if i <? 0 then 0 else i) (if o <? 0 then 0 else o) (if fd <? 0 then 0 else fd) rc.

Definition removeConn rc (dir : Direction) (usefd : bool) : resources :=
  if is_inbound dir then removeConns rc 1 0 (fd_count usefd)
  else removeConns rc 0 1 (fd_count usefd).

Definition stat rc : ScopeStat := {|
  Memory := memory rc;
  NumStreamsInbound := nstreamsIn rc;
  NumStreamsOutbound := nstreamsOut rc;
  NumConnsInbound := nconnsIn rc;
  NumConnsOutbound := nconnsOut rc;
  NumFD := nfd rc;
|}.

Definition ReservationPriorityAlways : Z := 255.

(** The counter part of [ReserveForChild]: memory, then streams, then
    connections, undoing the earlier steps when a later one fails. *)
Definition reserveStat rc (st : ScopeStat) : resources * option rc_error :=
  match reserveMemory rc (Memory st) ReservationPriorityAlways with
  | (rc1, Some err) => (rc1, Some err)
  | (rc1, None) =>
    match addStreams rc1 (NumStreamsInbound st) (NumStreamsOutbound st) with
    | (rc2, Some err) => (releaseMemory rc2 (Memory st), Some err)
    | (rc2, None) =>
      match addConns rc2 (NumConnsInbound st) (NumConnsOutbound st) (NumFD st) with
      | (rc3, Some err) =>
          (removeStreams (releaseMemory rc3 (Memory st))
             (NumStreamsInbound st) (NumStreamsOutbound st), Some err)
      | (rc3, None) => (rc3, None)
      end
    end
  end.

(** The counter part of [ReleaseForChild] and [ReleaseResources]. *)
Definition releaseStat rc (st : ScopeStat) : resources :=
  removeConns
    (removeStreams (releaseMemory rc (Memory st)) (NumStreamsInbound st) (NumStreamsOutbound st))
    (NumConnsInbound st) (NumConnsOutbound st) (NumFD st).

(** The reset at the end of [doneUnlocked]. *)
Definition resetAll rc : resources := mkResources (limit rc) 0 0 0 0 0 0.

(** *** Demands

    The scope operations come in families (memory, streams, connections, whole
    [ScopeStat]s) that treat the counters uniformly.  A [demand] names one
    request; [reserve] and [release] are the corresponding counter methods. *)
Inductive demand :=
| DMemory (size prio : Z)
| DStream (dir : Direction)
| DConn (dir : Direction) (usefd : bool)
| DStat (st : ScopeStat).

Definition reserve (d : demand) rc : resources * option rc_error :=
  match d with
  | DMemory size prio => reserveMemory rc size prio
  | DStream dir => addStream rc dir
  | DConn dir usefd => addConn rc dir usefd
  | DStat st => reserveStat rc st
  end.

Definition release (d : demand) rc : resources :=
  match d with
  | DMemory size _ => releaseMemory rc size
  | DStream dir => removeStream rc dir
  | DConn dir usefd => removeConn rc dir usefd
  | DStat st => releaseStat rc st
  end.
End resources.
Arguments resources : clear implicits.

(** ** Overflow-checked arithmetic *)

Lemma add_overflow_spec a b :
  int64 a -> int64 b -> (addInt64WithOverflow a b).2 = true <-> int64 (a + b).
Proof.
  unfold addInt64WithOverflow. intros Ha Hb. cbn [snd]. rewrite eqb_true_iff.
  destruct (wrap64_eqm (a + b)) as [k Hk]. pose proof (wrap64_int64 (a + b)) as Hw.
  rewrite Hk in Hw |- *.
  destruct (_ >? a) eqn:E1, (b >? 0) eqn:E2; bool_props;
    unfold int64, MinInt64, MaxInt64 in *; split; intros; try done; try lia.
Qed.

Lemma quot_wrap_exact a b c :
  int64 a -> int64 b -> b <> 0 -> a <> MinInt64 -> int64 c ->
  (exists k, c = a * b + k * 2 ^ 64) -> wrap64 (Z.quot c b) = a -> c = a * b.
Proof.
  intros Ha Hb Hb0 Ham Hc [k Hk] Hq.
  pose proof (Z.quot_rem' c b) as Hqr.
  pose proof (Z.rem_bound_abs c b Hb0) as Hr.
  assert (int64 (Z.quot c b) \/ (c = MinInt64 /\ b = -1)) as [Hi|[-> ->]].
  { unfold int64, MinInt64, MaxInt64 in *.
    destruct (decide (b = -1)) as [->|]; [lia|].
    left. destruct (decide (b = 1)) as [->|]; [rewrite Z.quot_1_r; lia|]. nia. }
  - rewrite wrap64_id in Hq by done. rewrite Hq in Hqr.
    unfold int64, MinInt64, MaxInt64 in *. lia.
  - exfalso. apply Ham. rewrite <- Hq. reflexivity.
Qed.

Lemma mul_overflow_spec a b :
  int64 a -> int64 b -> (mulInt64WithOverflow a b).2 = true <-> int64 (a * b).
Proof.
  intros Ha Hb. unfold mulInt64WithOverflow. cbv zeta.
  destruct ((a =? 0) || (b =? 0) || (a =? 1) || (b =? 1)) eqn:E1.
  { simpl. split; [|done]. intros _.
    rewrite !orb_true_iff, !Z.eqb_eq in E1. destruct E1 as [[[-> | ->] | ->] | ->];
      rewrite ?Z.mul_0_l, ?Z.mul_0_r, ?Z.mul_1_l, ?Z.mul_1_r; done || (vm_compute; split; discriminate). }
  bool_props.
  destruct ((a =? - (2 ^ 63 - 1 + 1)) || (b =? - (2 ^ 63 - 1 + 1))) eqn:E2.
  { simpl. split; [done|]. rewrite orb_true_iff, !Z.eqb_eq in E2.
    unfold int64, MinInt64, MaxInt64 in *. destruct E2 as [-> | ->]; lia. }
  bool_props. cbn [snd]. rewrite Z.eqb_eq. split; intros H'.
  - apply wrap64_fixed, (quot_wrap_exact a b); auto using wrap64_eqm with go.
  - rewrite (wrap64_id (a * b)), Z.quot_mul by done. by apply wrap64_id.
Qed.

Lemma mul_overflow_val a b : (mulInt64WithOverflow a b).1 = wrap64 (a * b).
Proof. unfold mulInt64WithOverflow. cbv zeta. by repeat case_bool. Qed.

(** the overflow-checked helpers are exact: the flag is true precisely when
    the mathematical result is a Go [int64], and then the value is that result. *)
Theorem overflow_checks_exact a b :
  int64 a -> int64 b ->
  ((addInt64WithOverflow a b).2 = true <-> int64 (a + b)) /\
  ((mulInt64WithOverflow a b).2 = true <-> int64 (a * b)) /\
  ((addInt64WithOverflow a b).2 = true -> (addInt64WithOverflow a b).1 = a + b) /\
  ((mulInt64WithOverflow a b).2 = true -> (mulInt64WithOverflow a b).1 = a * b).
Proof.
  intros Ha Hb. split_and!; [by apply add_overflow_spec | by apply mul_overflow_spec | |].
  - intros H%add_overflow_spec; [|done..]. by apply wrap64_id.
  - intros H%mul_overflow_spec; [|done..]. rewrite mul_overflow_val. by apply wrap64_id.
Qed.

Lemma overflow_checks_exact_witness :
  ((addInt64WithOverflow MaxInt64 1).2 = true <-> int64 (MaxInt64 + 1)) /\
  ((mulInt64WithOverflow MinInt64 (-1)).2 = true <-> int64 (MinInt64 * -1)).
Proof.
  split.
  - apply (overflow_checks_exact MaxInt64 1); vm_compute; split; discriminate.
  - apply (overflow_checks_exact MinInt64 (-1)); vm_compute; split; discriminate.
Defined.

Lemma memory_threshold_exact lim prio :
  0 <= lim <= MaxInt64 -> 0 <= prio <= 255 ->
  memory_threshold lim prio = lim * (1 + prio) / 256.
Proof.
  intros Hl Hp. unfold memory_threshold. rewrite (wrap64_id (1 + prio)) by go64.
  pose proof (mul_overflow_spec (1 + prio) lim) as Hs.
  pose proof (mul_overflow_val (1 + prio) lim) as Hv.
  destruct (mulInt64WithOverflow (1 + prio) lim) as [t []]; cbn [fst snd] in *.
  - rewrite Hv, wrap64_id, (Z.mul_comm lim) by (apply Hs; go64).
    rewrite Z.quot_div_nonneg; lia.
  - rewrite Z.shiftr_div_pow2 by lia. change (2 ^ 8) with 256. apply wrap64_id.
    assert (0 <= lim * (1 + prio) / 256 <= lim); [|go64].
    split; [apply Z.div_pos; nia|]. apply Z.div_le_upper_bound; nia.
Qed.

Lemma memory_threshold_always lim :
  0 <= lim <= MaxInt64 -> memory_threshold lim ReservationPriorityAlways = lim.
Proof.
  intros. rewrite memory_threshold_exact by (unfold ReservationPriorityAlways; lia).
  unfold ReservationPriorityAlways. apply Z.div_mul. lia.
Qed.

(** ** Counters and demands *)

Inductive counter := CMemory | CStreamsIn | CStreamsOut | CConnsIn | CConnsOut | CFD.

#[export] Instance counter_eq_dec : EqDecision counter.
Proof. solve_decision. Defined.

Section accounting.
Context {L : Type} `{!Limit L}.
Implicit Types (rc : resources L) (d : demand) (c : counter).

(** One counter of a scope, of a [ScopeStat], of a demand. *)
Definition usage c rc : Z :=
  match c with
  | CMemory => memory rc
  | CStreamsIn => nstreamsIn rc
  | CStreamsOut => nstreamsOut rc
  | CConnsIn => nconnsIn rc
  | CConnsOut => nconnsOut rc
  | CFD => nfd rc
  end.

Definition stat_amount (st : ScopeStat) c : Z :=
  match c with
  | CMemory => Memory st
  | CStreamsIn => NumStreamsInbound st
  | CStreamsOut => NumStreamsOutbound st
  | CConnsIn => NumConnsInbound st
  | CConnsOut => NumConnsOutbound st
  | CFD => NumFD st
  end.

Definition amount d c : Z :=
  match d, c with
  | DMemory size _, CMemory => size
  | DStream dir, CStreamsIn => if is_inbound dir then 1 else 0
  | DStream dir, CStreamsOut => if is_inbound dir then 0 else 1
  | DConn dir _, CConnsIn => if is_inbound dir then 1 else 0
  | DConn dir _, CConnsOut => if is_inbound dir then 0 else 1
  | DConn _ usefd, CFD => fd_count usefd
  | DStat st, _ => stat_amount st c
  | _, _ => 0
  end.

(** The largest finite limit for which sums of two counters cannot wrap. *)
Definition count_bound : Z := 2 ^ 61.

(** A finite limit: the sums compared with it stay far from [2^63]. *)
Record lim_ok (l : L) : Prop := {
  lo_mem : 0 <= GetMemoryLimit l < MaxInt64;
  lo_str : forall dir, 0 <= GetStreamLimit l dir <= count_bound;
  lo_strT : 0 <= GetStreamTotalLimit l <= count_bound;
  lo_conn : forall dir, 0 <= GetConnLimit l dir <= count_bound;
  lo_connT : 0 <= GetConnTotalLimit l <= count_bound;
  lo_fd : 0 <= GetFDLimit l <= count_bound;
}.

(** The counters respect the limit. *)
Record within rc : Prop := {
  wi_mem : memory rc <= GetMemoryLimit (limit rc);
  wi_strIn : nstreamsIn rc <= GetStreamLimit (limit rc) DirInbound;
  wi_strOut : nstreamsOut rc <= GetStreamLimit (limit rc) DirOutbound;
  wi_strT : nstreamsIn rc + nstreamsOut rc <= GetStreamTotalLimit (limit rc);
  wi_connIn : nconnsIn rc <= GetConnLimit (limit rc) DirInbound;
  wi_connOut : nconnsOut rc <= GetConnLimit (limit rc) DirOutbound;
  wi_connT : nconnsIn rc + nconnsOut rc <= GetConnTotalLimit (limit rc);
  wi_fd : nfd rc <= GetFDLimit (limit rc);
}.

(** Every counter is a non-negative Go integer. *)
Definition in_range rc : Prop := forall c, 0 <= usage c rc <= MaxInt64.

Record rc_ok rc : Prop := {
  ro_lim : lim_ok (limit rc);
  ro_range : in_range rc;
  ro_within : within rc;
}.

(** Requests a caller can make: sizes and counts are non-negative Go integers. *)
Definition demand_ok d : Prop :=
  match d with
  | DMemory size prio => 0 <= size <= MaxInt64 /\ 0 <= prio <= 255
  | DStream _ | DConn _ _ => True
  | DStat st => forall c, 0 <= stat_amount st c <=
                  match c with CMemory => MaxInt64 | _ => count_bound end
  end.

(** What the documentation promises about a request, on unbounded integers: the
    new totals respect the limit, memory up to the fraction [(1 + prio) / 256]. *)
Definition mem_fits rc (size prio : Z) : Prop :=
  memory rc + size <= GetMemoryLimit (limit rc) * (1 + prio) / 256.
Definition streams_fit rc (i o : Z) : Prop :=
  (0 < i -> nstreamsIn rc + i <= GetStreamLimit (limit rc) DirInbound) /\
  (0 < o -> nstreamsOut rc + o <= GetStreamLimit (limit rc) DirOutbound) /\
  nstreamsIn rc + i + nstreamsOut rc + o <= GetStreamTotalLimit (limit rc).
Definition conns_fit rc (i o fd : Z) : Prop :=
  (0 < i -> nconnsIn rc + i <= GetConnLimit (limit rc) DirInbound) /\
  (0 < o -> nconnsOut rc + o <= GetConnLimit (limit rc) DirOutbound) /\
  nconnsIn rc + i + nconnsOut rc + o <= GetConnTotalLimit (limit rc) /\
  (0 < fd -> nfd rc + fd <= GetFDLimit (limit rc)).

Definition fits d rc : Prop :=
  match d with
  | DMemory size prio => mem_fits rc size prio
  | DStream dir => streams_fit rc (amount d CStreamsIn) (amount d CStreamsOut)
  | DConn dir usefd => conns_fit rc (amount d CConnsIn) (amount d CConnsOut) (amount d CFD)
  | DStat st =>
      mem_fits rc (Memory st) ReservationPriorityAlways /\
      streams_fit rc (NumStreamsInbound st) (NumStreamsOutbound st) /\
      conns_fit rc (NumConnsInbound st) (NumConnsOutbound st) (NumFD st)
  end.

Lemma in_range_all rc :
  in_range rc <->
  (0 <= memory rc <= MaxInt64) /\ (0 <= nstreamsIn rc <= MaxInt64) /\
  (0 <= nstreamsOut rc <= MaxInt64) /\ (0 <= nconnsIn rc <= MaxInt64) /\
  (0 <= nconnsOut rc <= MaxInt64) /\ (0 <= nfd rc <= MaxInt64).
Proof.
  split.
  - intros H. split_and!; first [apply (H CMemory) | apply (H CStreamsIn) | apply (H CStreamsOut)
      | apply (H CConnsIn) | apply (H CConnsOut) | apply (H CFD)].
  - intros H []; simpl; tauto.
Qed.

Lemma resources_eq rc rc' :
  limit rc = limit rc' -> (forall c, usage c rc = usage c rc') -> rc = rc'.
Proof.
  destruct rc, rc'; simpl. intros -> H.
  pose proof (H CMemory). pose proof (H CStreamsIn). pose proof (H CStreamsOut).
  pose proof (H CConnsIn). pose proof (H CConnsOut). pose proof (H CFD). simpl in *. congruence.
Qed.

(** A failed reservation and an undone one leave the counters alone, whatever
    the amounts: Go's wrap-around is invertible and the clamp at zero never
    triggers on non-negative counters. *)
Lemma clamp_undo a b : 0 <= a <= MaxInt64 ->
  (if wrap64 (wrap64 (a + b) - b) <? 0 then 0 else wrap64 (wrap64 (a + b) - b)) = a.
Proof. intros. rewrite wrap64_add_sub by go64. case_bool; lia. Qed.

Lemma releaseMemory_undo rc size rc' prio :
  in_range rc -> reserveMemory rc size prio = (rc', None) -> releaseMemory rc' size = rc.
Proof.
  intros Hr. unfold reserveMemory. destruct checkMemory; intros [= <-].
  unfold releaseMemory. simpl. rewrite clamp_undo by apply (Hr CMemory). by destruct rc.
Qed.

Lemma removeStreams_undo rc i o rc' :
  in_range rc -> addStreams rc i o = (rc', None) -> removeStreams rc' i o = rc.
Proof.
  intros Hr. unfold addStreams. repeat case_bool; intros [= <-].
  unfold removeStreams. simpl.
  rewrite !clamp_undo by (apply (Hr CStreamsIn) || apply (Hr CStreamsOut)). by destruct rc.
Qed.

Lemma removeConns_undo rc i o fd rc' :
  in_range rc -> addConns rc i o fd = (rc', None) -> removeConns rc' i o fd = rc.
Proof.
  intros Hr. unfold addConns. repeat case_bool; intros [= <-].
  unfold removeConns. simpl.
  rewrite !clamp_undo by (apply (Hr CConnsIn) || apply (Hr CConnsOut) || apply (Hr CFD)).
  by destruct rc.
Qed.

Lemma reserveMemory_err rc size prio rc' e : reserveMemory rc size prio = (rc', Some e) -> rc' = rc.
Proof. unfold reserveMemory. destruct checkMemory; congruence. Qed.
Lemma addStreams_err rc i o rc' e : addStreams rc i o = (rc', Some e) -> rc' = rc.
Proof. unfold addStreams. repeat case_bool; congruence. Qed.
Lemma addConns_err rc i o fd rc' e : addConns rc i o fd = (rc', Some e) -> rc' = rc.
Proof. unfold addConns. repeat case_bool; congruence. Qed.

(** *** Exactness on well-formed counters *)

Lemma lim_ok_threshold (l : L) prio :
  lim_ok l -> 0 <= prio <= 255 ->
  memory_threshold (GetMemoryLimit l) prio = GetMemoryLimit l * (1 + prio) / 256 /\
  GetMemoryLimit l * (1 + prio) / 256 <= GetMemoryLimit l.
Proof.
  intros Hl Hp. pose proof (lo_mem l Hl). split; [apply memory_threshold_exact; lia|].
  apply Z.div_le_upper_bound; nia.
Qed.

Lemma reserveMemory_spec rc size prio :
  rc_ok rc -> 0 <= size <= MaxInt64 -> 0 <= prio <= 255 ->
  match reserveMemory rc size prio with
  | (rc', None) => mem_fits rc size prio /\ rc' = set_memory (memory rc + size) rc /\ rc_ok rc'
  | (rc', Some _) => ~ mem_fits rc size prio /\ rc' = rc
  end.
Proof.
  intros [Hl Hr Hw] Hs Hp. destruct (lim_ok_threshold _ prio Hl Hp) as [Ht Htl].
  unfold reserveMemory, checkMemory, mem_fits. pose proof (lo_mem _ Hl).
  pose proof (Hr CMemory) as Hm. simpl in Hm. pose proof (wi_mem _ Hw).
  pose proof (add_overflow_spec (memory rc) size) as Ha.
  case_bool; [lia|]. case_bool; [lia|].
  assert ((addInt64WithOverflow (memory rc) size).1 = wrap64 (memory rc + size)) as Hv by done.
  destruct (addInt64WithOverflow (memory rc) size) as [m []]; cbn [fst snd] in *; subst m.
  - assert (int64 (memory rc + size)) by (apply Ha; go64). rewrite Ht. simpl.
    rewrite wrap64_id by done. case_bool; [split; [lia|done]|].
    split_and!; [lia | done |]. constructor; simpl; [done | |].
    + apply in_range_all. apply in_range_all in Hr. simpl. lia.
    + destruct Hw; constructor; simpl; lia.
  - simpl. split; [|done]. intros Hf.
    assert (false = true); [|done]. apply Ha; go64.
Qed.

Lemma addStreams_spec rc i o :
  rc_ok rc -> 0 <= i <= count_bound -> 0 <= o <= count_bound ->
  match addStreams rc i o with
  | (rc', None) => streams_fit rc i o /\
      rc' = set_streams (nstreamsIn rc + i) (nstreamsOut rc + o) rc /\ rc_ok rc'
  | (rc', Some _) => ~ streams_fit rc i o /\ rc' = rc
  end.
Proof.
  intros [Hl Hr Hw] Hi Ho. unfold addStreams, streams_fit, count_bound in *.
  pose proof (lo_str _ Hl DirInbound). pose proof (lo_str _ Hl DirOutbound).
  pose proof (lo_strT _ Hl). pose proof (proj1 (in_range_all rc) Hr). pose proof Hw as Hw'.
  destruct Hw' as [_ ? ? ? _ _ _ _]. unfold count_bound in *. unwrap64.
  repeat (case_bool; [split; [lia|done]|]). split_and!; try lia; [done|].
  constructor; [done | |].
  - apply in_range_all. simpl. unfold MaxInt64 in *. lia.
  - destruct Hw; constructor; simpl; lia.
Qed.

Lemma addConns_spec rc i o fd :
  rc_ok rc -> 0 <= i <= count_bound -> 0 <= o <= count_bound -> 0 <= fd <= count_bound ->
  match addConns rc i o fd with
  | (rc', None) => conns_fit rc i o fd /\
      rc' = set_conns (nconnsIn rc + i) (nconnsOut rc + o) (nfd rc + fd) rc /\ rc_ok rc'
  | (rc', Some _) => ~ conns_fit rc i o fd /\ rc' = rc
  end.
Proof.
  intros [Hl Hr Hw] Hi Ho Hfd. unfold addConns, conns_fit, count_bound in *.
  pose proof (lo_conn _ Hl DirInbound). pose proof (lo_conn _ Hl DirOutbound).
  pose proof (lo_connT _ Hl). pose proof (lo_fd _ Hl).
  pose proof (proj1 (in_range_all rc) Hr). pose proof Hw as Hw'.
  destruct Hw' as [_ _ _ _ ? ? ? ?]. unfold count_bound in *. unwrap64.
  repeat (case_bool; [split; [lia|done]|]). split_and!; try lia; [done|].
  constructor; [done | |].
  - apply in_range_all. simpl. unfold MaxInt64 in *. lia.
  - destruct Hw; constructor; simpl; lia.
Qed.

(** The outcome of a counter method: exact addition when the request fits, no
    change when it does not. *)
Definition reserve_outcome d rc (out : resources L * option rc_error) : Prop :=
  match out with
  | (rc', None) =>
      fits d rc /\ rc_ok rc' /\ limit rc' = limit rc /\
      forall c, usage c rc' = usage c rc + amount d c
  | (rc', Some _) => ~ fits d rc /\ rc' = rc
  end.

Ltac by_counters :=
  try match goal with |- forall c, _ => intros [] end; simpl; try lia; try done.

Lemma reserveStat_spec rc st :
  rc_ok rc -> demand_ok (DStat st) -> reserve_outcome (DStat st) rc (reserveStat rc st).
Proof.
  intros Hok Hd. simpl in Hd. unfold reserveStat.
  pose proof (Hd CMemory). pose proof (Hd CStreamsIn). pose proof (Hd CStreamsOut).
  pose proof (Hd CConnsIn). pose proof (Hd CConnsOut). pose proof (Hd CFD). simpl in *.
  pose proof (reserveMemory_spec rc (Memory st) ReservationPriorityAlways Hok) as Hm.
  destruct (reserveMemory _ _ _) as [rc1 [e|]] eqn:E1.
  { destruct Hm as [Hm ->]; [lia | unfold ReservationPriorityAlways; lia |]. split; [simpl; tauto|done]. }
  destruct Hm as (Hf1 & Heq1 & Hok1); [lia | unfold ReservationPriorityAlways; lia |].
  pose proof (releaseMemory_undo _ _ _ _ (ro_range _ Hok) E1) as Hu1.
  pose proof (addStreams_spec rc1 (NumStreamsInbound st) (NumStreamsOutbound st) Hok1) as Hs.
  destruct (addStreams _ _ _) as [rc2 [e|]] eqn:E2.
  { destruct Hs as [Hs ->]; [lia..|]. split; [subst rc1; simpl; tauto | exact Hu1]. }
  destruct Hs as (Hf2 & Heq2 & Hok2); [lia..|].
  pose proof (removeStreams_undo _ _ _ _ (ro_range _ Hok1) E2) as Hu2.
  pose proof (addConns_spec rc2 (NumConnsInbound st) (NumConnsOutbound st) (NumFD st) Hok2) as Hc.
  destruct (addConns _ _ _ _) as [rc3 [e|]] eqn:E3.
  { destruct Hc as [Hc ->]; [lia..|]. split; [subst rc2 rc1; simpl; tauto |].
    rewrite <- Hu1, <- Hu2. subst rc2 rc1. by destruct rc. }
  destruct Hc as (Hf3 & Heq3 & Hok3); [lia..|].
  split_and!; [subst rc3 rc2 rc1; simpl in *; tauto | done | by subst rc3 rc2 rc1 |].
  subst rc3 rc2 rc1. by_counters.
Qed.

Lemma reserve_spec rc d :
  rc_ok rc -> demand_ok d -> reserve_outcome d rc (reserve d rc).
Proof.
  intros Hok Hd. destruct d as [size prio|dir|dir usefd|st]; simpl reserve.
  - pose proof (reserveMemory_spec rc size prio Hok (proj1 Hd) (proj2 Hd)) as H.
    unfold reserve_outcome. destruct (reserveMemory _ _ _) as [rc' [e|]]; [done|].
    destruct H as (? & -> & ?). split_and!; by_counters.
  - unfold addStream.
    pose proof (addStreams_spec rc (amount (DStream dir) CStreamsIn) (amount (DStream dir) CStreamsOut)
      Hok) as H.
    unfold reserve_outcome, fits.
    destruct dir; simpl in H |- *;
      destruct (addStreams _ _ _) as [rc' [e|]];
      (destruct H as (? & ? & ?) || destruct H as [? ?]); try (unfold count_bound in *; lia); subst rc';
      split_and?; by_counters.
  - unfold addConn.
    pose proof (addConns_spec rc (amount (DConn dir usefd) CConnsIn)
      (amount (DConn dir usefd) CConnsOut) (fd_count usefd) Hok) as H.
    assert (0 <= fd_count usefd <= count_bound) by (unfold count_bound; destruct usefd; simpl; lia).
    unfold reserve_outcome, fits.
    destruct dir; simpl in H |- *;
      destruct (addConns _ _ _ _) as [rc' [e|]];
      (destruct H as (? & ? & ?) || destruct H as [? ?]); try (unfold count_bound in *; lia); subst rc';
      split_and?; by_counters.
  - by apply reserveStat_spec.
Qed.

(** Releases: exact subtraction, clamped at zero. *)
Lemma clamp_sub a b : 0 <= a <= MaxInt64 -> 0 <= b <= MaxInt64 ->
  (if wrap64 (a - b) <? 0 then 0 else wrap64 (a - b)) = Z.max 0 (a - b).
Proof. intros. unwrap64. case_bool; lia. Qed.

Lemma release_usage rc d :
  in_range rc -> demand_ok d ->
  limit (release d rc) = limit rc /\
  forall c, usage c (release d rc) = Z.max 0 (usage c rc - amount d c).
Proof.
  intros Hr%in_range_all Hd. destruct d as [size prio|dir|dir usefd|st].
  - simpl in Hd. split; [done|]. intros []; simpl; rewrite ?clamp_sub by lia; lia.
  - split; [by destruct dir|]. destruct dir; intros []; simpl;
      rewrite ?clamp_sub by (unfold MaxInt64 in *; lia); lia.
  - split; [by destruct dir|]. destruct dir, usefd; intros []; simpl;
      rewrite ?clamp_sub by (unfold MaxInt64 in *; lia); lia.
  - split; [done|]. simpl in Hd. intros c. pose proof (Hd c) as Hc. unfold count_bound in Hc.
    destruct c; simpl in *; rewrite clamp_sub; unfold MaxInt64 in *; lia.
Qed.

Lemma rc_ok_le rc rc' :
  rc_ok rc -> limit rc' = limit rc -> (forall c, 0 <= usage c rc' <= usage c rc) -> rc_ok rc'.
Proof.
  intros [Hl Hr Hw] Hlim Hle. constructor; [by rewrite Hlim | |].
  - intros c. specialize (Hr c). specialize (Hle c). lia.
  - pose proof (Hle CMemory). pose proof (Hle CStreamsIn). pose proof (Hle CStreamsOut).
    pose proof (Hle CConnsIn). pose proof (Hle CConnsOut). pose proof (Hle CFD). simpl in *.
    destruct Hw. constructor; rewrite Hlim; lia.
Qed.

Lemma demand_amount_range d c :
  demand_ok d -> 0 <= amount d c <= MaxInt64.
Proof.
  intros Hd. destruct d as [size prio|dir|dir usefd|st].
  - destruct c; simpl in *; unfold MaxInt64 in *; lia.
  - destruct dir, c; simpl; unfold MaxInt64; lia.
  - destruct dir, usefd, c; simpl; unfold MaxInt64; lia.
  - specialize (Hd c). unfold count_bound in Hd. destruct c; simpl in *; unfold MaxInt64 in *; lia.
Qed.

Lemma release_ok rc d : rc_ok rc -> demand_ok d -> rc_ok (release d rc).
Proof.
  intros Hok Hd. destruct (release_usage rc d (ro_range _ Hok) Hd) as [Hl Hu].
  apply (rc_ok_le rc); [done..|]. intros c. rewrite Hu.
  pose proof (ro_range _ Hok c). pose proof (demand_amount_range d c Hd). lia.
Qed.

Lemma reserve_err rc d rc' e : in_range rc -> reserve d rc = (rc', Some e) -> rc' = rc.
Proof.
  intros Hr. destruct d as [size prio|dir|dir usefd|st]; simpl.
  - apply reserveMemory_err.
  - unfold addStream. destruct dir; apply addStreams_err.
  - unfold addConn. destruct dir; apply addConns_err.
  - unfold reserveStat.
    destruct (reserveMemory _ _ _) as [rc1 [e1|]] eqn:E1.
    { intros [= -> ->]. by eapply reserveMemory_err. }
    assert (rc1 = set_memory (memory rc1) rc) as Hrc1.
    { unfold reserveMemory in E1. destruct checkMemory; [done|]. by injection E1 as <-. }
    pose proof (releaseMemory_undo _ _ _ _ Hr E1) as Hu1.
    destruct (addStreams _ _ _) as [rc2 [e2|]] eqn:E2.
    { apply addStreams_err in E2 as ->. by intros [= <- _]. }
    destruct (addConns _ _ _ _) as [rc3 [e3|]] eqn:E3; [|done].
    apply addConns_err in E3 as ->. intros [= <- _].
    unfold addStreams in E2. repeat case_bool; try done. injection E2 as <-.
    rewrite Hrc1 in *. apply (f_equal memory) in Hu1.
    unfold removeStreams, releaseMemory in *. simpl in *.
    rewrite Hu1, !clamp_undo by (apply (Hr CStreamsIn) || apply (Hr CStreamsOut)). by destruct rc.
Qed.

Lemma release_undo rc d rc' :
  in_range rc -> reserve d rc = (rc', None) -> release d rc' = rc.
Proof.
  intros Hr. destruct d as [size prio|dir|dir usefd|st]; simpl.
  - by apply releaseMemory_undo.
  - unfold addStream, removeStream. destruct dir; by apply removeStreams_undo.
  - unfold addConn, removeConn. destruct dir; by apply removeConns_undo.
  - unfold reserveStat, reserveMemory.
    destruct checkMemory; [done|]. unfold addStreams, addConns. simpl.
    repeat case_bool; try done; intros [= <-]; unfold releaseStat, removeConns, removeStreams,
      releaseMemory; simpl;
      rewrite !clamp_undo by apply (in_range_all rc), Hr; by destruct rc.
Qed.

(** Both [reserve] and [release] keep the limit. *)
Lemma reserve_limit rc d : limit (reserve d rc).1 = limit rc.
Proof.
  destruct d as [size prio|dir|dir usefd|st]; simpl.
  - unfold reserveMemory. by destruct checkMemory.
  - unfold addStream, addStreams. destruct dir; by repeat case_bool.
  - unfold addConn, addConns. destruct dir; by repeat case_bool.
  - unfold reserveStat, reserveMemory. destruct checkMemory; [done|].
    unfold addStreams, addConns. by repeat (case_bool; simpl).
Qed.

Lemma release_limit rc d : limit (release d rc) = limit rc.
Proof. destruct d as [size prio|[]|[] usefd|st]; done. Qed.

(** the memory check is the documented one.  A non-negative request of
    priority [prio] is accepted exactly when the new total stays within the
    fraction [(1 + prio) / 256] of the limit, computed without overflow even when
    [(1 + prio) * limit] exceeds 63 bits; the limit [MaxInt64] accepts every
    non-negative request, and negative requests are refused. *)
Theorem checkMemory_exact rc rsvp prio :
  0 <= GetMemoryLimit (limit rc) <= MaxInt64 -> 0 <= memory rc <= MaxInt64 ->
  rsvp <= MaxInt64 -> 0 <= prio <= 255 ->
  checkMemory rc rsvp prio = None <->
  0 <= rsvp /\
  (GetMemoryLimit (limit rc) = MaxInt64 \/
   memory rc + rsvp <= GetMemoryLimit (limit rc) * (1 + prio) / 256).
Proof.
  intros Hl Hm Hr Hp. unfold checkMemory.
  pose proof (memory_threshold_exact _ prio Hl Hp) as Ht.
  assert (GetMemoryLimit (limit rc) * (1 + prio) / 256 <= GetMemoryLimit (limit rc)) as Htl
    by (apply Z.div_le_upper_bound; nia).
  case_bool; [split; [done|lia]|]. case_bool; [split; [intros _; lia|done]|].
  pose proof (add_overflow_spec (memory rc) rsvp) as Ha.
  assert ((addInt64WithOverflow (memory rc) rsvp).1 = wrap64 (memory rc + rsvp)) as Hv by done.
  destruct (addInt64WithOverflow (memory rc) rsvp) as [m []]; cbn [fst snd negb orb] in *; subst m.
  - assert (int64 (memory rc + rsvp)) by (apply Ha; go64).
    rewrite Ht, wrap64_id by done. case_bool; split; intros; try done; lia.
  - split; [done|]. intros [_ Hf]. assert (false = true); [|done]. apply Ha; go64.
Qed.

(** each counter method is exact on well-formed counters.  A request succeeds
    precisely when it fits the limit on unbounded integers, in which case every
    counter grows by exactly the requested amount and the counters are
    well-formed again; a refused request changes nothing. *)
Theorem reserve_exact rc d rc' err :
  rc_ok rc -> demand_ok d -> reserve d rc = (rc', err) ->
  (err = None <-> fits d rc) /\
  rc_ok rc' /\
  (forall c, usage c rc' = usage c rc + match err with None => amount d c | Some _ => 0 end).
Proof.
  intros Hok Hd Heq. pose proof (reserve_spec rc d Hok Hd) as H. rewrite Heq in H.
  destruct err as [e|]; simpl in H.
  - destruct H as [Hf ->]. split_and!; [split; [done|tauto] | done | intros; lia].
  - destruct H as (Hf & ? & _ & ?). by split_and!.
Qed.
End accounting.

(** Closes [rc_ok] on concrete counters by evaluation. *)
Ltac concrete_rc_ok :=
  constructor; [constructor | apply in_range_all | constructor];
  try match goal with |- forall dir : Direction, _ => intros [] end;
  apply (bool_decide_unpack _); vm_compute; exact I.

Lemma checkMemory_exact_witness :
  let rc := mkResources (BaseLimit.mk 0 0 0 0 0 0 0 (2 ^ 62)) 0 0 0 0 0 1000 in
  checkMemory rc 24 203 = None.
Proof.
  intros rc. apply (checkMemory_exact rc 24 203); vm_compute;
    first [discriminate | split; [discriminate | first [discriminate | right; discriminate]]].
Defined.

Lemma reserve_exact_witness :
  let rc := mkResources (BaseLimit.mk 2 1 1 2 1 1 1 4096) 0 0 1 0 0 1000 in
  (Some (ErrStreamOrConnLimitExceeded InboundStream 1 1 1) = None <-> fits (DStream DirInbound) rc).
Proof.
  intros rc.
  apply (reserve_exact rc (DStream DirInbound) rc
           (Some (ErrStreamOrConnLimitExceeded InboundStream 1 1 1))); [|done|reflexivity].
  concrete_rc_ok.
Defined.

(** A defect at the limit [MaxInt64] ("unlimited"): the check returns before the
    overflow test, and the addition wraps to a negative amount of memory. *)
Theorem unlimited_memory_wraps `{!Limit L} (rc : resources L) prio :
  GetMemoryLimit (limit rc) = MaxInt64 -> memory rc = MaxInt64 ->
  reserveMemory rc 1 prio = (set_memory MinInt64 rc, None).
Proof.
  intros Hl Hm. unfold reserveMemory, checkMemory. rewrite Hl, Hm. reflexivity.
Qed.
