(* ===== verification/Scope.v ===== *)
(** * Resource scopes (src/p2p/host/resource-manager/scope.go, type [resourceScope])

    The scopes of a resource manager live in a [heap] from addresses to records;
    a [*resourceScope] is an address.  A DAG scope lists its (linearised)
    ancestors in [edges]; a span has an [owner] instead.  Each method is a
    function in the monad [M] of heap transformers; [None] is a nil dereference
    or a chain of owners longer than the fuel, and the totality theorems show
    that neither happens on well-formed heaps: an owner is allocated before its
    spans, so the address of a scope bounds the length of its owner chain and the
    methods run with fuel [S s].

    [refCnt] and [spanID], [int]s that go up by one at a time, are unbounded here.

    The per-scope mutexes make every method of one scope atomic; the model runs
    each public method as one step.  Tracing, metrics and logging are left out:
    they do not feed back into the state. *)

From stdpp Require Import base gmap list strings fin_maps pretty.
From Stdlib Require Import ZArith Lia.
From S2P Require Import Prelude Limits Resources.

Section scope.
Context {L : Type} `{!Limit L}.

Record resourceScope := mkScope {
  done : bool;
  refCnt : Z;
  spanID : Z;
  rc : resources L;
  owner : option nat;
  edges : list nat;
  name : string;
}.

(** ** The monad *)
Definition M (A : Type) :=
  gmap nat resourceScope -> option (A * gmap nat resourceScope).
Definition ret {A} (a : A) : M A := fun h => Some (a, h).
Definition bind {A B} (m : M A) (k : A -> M B) : M B := fun h =>
  match m h with
  | Some (a, h') => k a h'
  | None => None
  end.

Definition get_scope (s : nat) : M resourceScope := fun h =>
  match h !! s with
  | Some sc => Some (sc, h)
  | None => None
  end.
Definition modify (s : nat) (f : resourceScope -> resourceScope) : M unit := fun h =>
  Some (tt, alter f s h).

Definition set_rc (r : resources L) (sc : resourceScope) : resourceScope :=
  mkScope (done sc) (refCnt sc) (spanID sc) r (owner sc) (edges sc) (name sc).
Definition map_rc (f : resources L -> resources L) (sc : resourceScope) : resourceScope :=
  set_rc (f (rc sc)) sc.
Definition add_refCnt (n : Z) (sc : resourceScope) : resourceScope :=
  mkScope (done sc) (refCnt sc + n) (spanID sc) (rc sc) (owner sc) (edges sc) (name sc).
Definition set_edges (es : list nat) (sc : resourceScope) : resourceScope :=
  mkScope (done sc) (refCnt sc) (spanID sc) (rc sc) (owner sc) es (name sc).

Definition wrapError (sc : resourceScope) (err : rc_error) : rc_error := WrapErr (name sc) err.

(** An address no scope uses; larger than all of them. *)
Definition fresh_addr (h : gmap nat resourceScope) : nat := map_fold (fun k _ acc => Nat.max (S k) acc) O h.
End scope.
Arguments resourceScope : clear implicits.
Arguments M : clear implicits.

Abbreviation heap L := (gmap nat (resourceScope L)).

Declare Scope go_scope.
Delimit Scope go_scope with go.
Notation "'let*' x := m 'in' k" := (bind m (fun x => k))
  (at level 10, x name, m at level 99, k at level 200) : go_scope.
Notation "m ;; k" := (bind m (fun _ => k)) : go_scope.
Open Scope go_scope.

Section methods.
Context {L : Type} `{!Limit L}.

(** ** Construction *)

Definition IncRef (s : nat) : M L unit := modify s (add_refCnt 1).
Definition DecRef (s : nat) : M L unit := modify s (add_refCnt (-1)).

Fixpoint incRefs (es : list nat) : M L unit :=
  match es with
  | [] => ret tt
  | e :: es => IncRef e ;; incRefs es
  end.

Definition alloc (sc : resourceScope L) : M L nat := fun h =>
  let s := fresh_addr h in Some (s, <[s := sc]> h).

Definition newResourceScope (lim : L) (es : list nat) (nm : string) : M L nat :=
  incRefs es ;;
  alloc (mkScope false 0 0 (mkResources lim 0 0 0 0 0 0) None es nm).

(** ** Reservations on a parent on behalf of a child

    [child_reserve] is [ReserveMemoryForChild], [AddStreamForChild],
    [AddConnForChild] and [ReserveForChild]; [child_release] is
    [ReleaseMemoryForChild], [RemoveStreamForChild], [RemoveConnForChild] and
    [ReleaseForChild]. *)
Definition child_reserve (d : demand) (s : nat) : M L (option rc_error) :=
  let* sc := get_scope s in
  if done sc then ret (Some (wrapError sc ErrResourceScopeClosed))
  else
    let '(rc', err) := reserve d (rc sc) in
    modify s (set_rc rc') ;; ret (wrapError sc <$> err).

Definition child_release (d : demand) (s : nat) : M L unit :=
  let* sc := get_scope s in
  if done sc then ret tt else modify s (map_rc (release d)).

Fixpoint release_edges (d : demand) (es : list nat) : M L unit :=
  match es with
  | [] => ret tt
  | e :: es => child_release d e ;; release_edges d es
  end.

(** The loop of [reserveMemoryForEdges], [addStreamForEdges], [addConnForEdges]:
    stops at the first edge that refuses and reports how many accepted. *)
Fixpoint reserve_edges (d : demand) (es : list nat) (reserved : nat)
    : M L (nat * option rc_error) :=
  match es with
  | [] => ret (reserved, None)
  | e :: es =>
      let* err := child_reserve d e in
      match err with
      | Some err => ret (reserved, Some err)
      | None => reserve_edges d es (S reserved)
      end
  end.

Definition reserve_for_edges (d : demand) (es : list nat) : M L (option rc_error) :=
  let* r := reserve_edges d es 0 in
  match r.2 with
  | Some err => release_edges d (take r.1 es) ;; ret (Some err)
  | None => ret None
  end.

(** ** Reservations on the scope itself

    [scope_reserve] is [ReserveMemory], [AddStream] and [AddConn]: own counters
    first, then the owner or the edges, undoing the own part when those refuse. *)
Fixpoint scope_reserve (fuel : nat) (d : demand) (s : nat) : M L (option rc_error) :=
  match fuel with
  | O => fun _ => None
  | S fuel =>
    let* sc := get_scope s in
    if done sc then ret (Some (wrapError sc ErrResourceScopeClosed))
    else
      match reserve d (rc sc) with
      | (rc', Some err) => modify s (set_rc rc') ;; ret (Some (wrapError sc err))
      | (rc', None) =>
          modify s (set_rc rc') ;;
          let* err := match owner sc with
                      | Some o => scope_reserve fuel d o
                      | None => reserve_for_edges d (edges sc)
                      end in
          match err with
          | Some err => modify s (map_rc (release d)) ;; ret (Some (wrapError sc err))
          | None => ret None
          end
      end
  end.

(** [removeConnForEdges] does not return after releasing on the owner, unlike its
    siblings, and goes on to the edges. *)
Definition falls_through (d : demand) : bool :=
  match d with DConn _ _ => true | _ => false end.

(** [scope_release] is [ReleaseMemory], [RemoveStream], [RemoveConn] and
    [ReleaseResources]. *)
Fixpoint scope_release (fuel : nat) (d : demand) (s : nat) : M L unit :=
  match fuel with
  | O => fun _ => None
  | S fuel =>
    let* sc := get_scope s in
    if done sc then ret tt
    else
      modify s (map_rc (release d)) ;;
      match owner sc with
      | Some o =>
          scope_release fuel d o ;;
          if falls_through d then release_edges d (edges sc) else ret tt
      | None => release_edges d (edges sc)
      end
  end.

Definition ReserveMemory (s : nat) (size prio : Z) := scope_reserve (S s) (DMemory size prio) s.
Definition ReleaseMemory (s : nat) (size : Z) := scope_release (S s) (DMemory size 0) s.
Definition AddStream (s : nat) (dir : Direction) := scope_reserve (S s) (DStream dir) s.
Definition RemoveStream (s : nat) (dir : Direction) := scope_release (S s) (DStream dir) s.
Definition AddConn (s : nat) (dir : Direction) (usefd : bool) :=
  scope_reserve (S s) (DConn dir usefd) s.
Definition RemoveConn (s : nat) (dir : Direction) (usefd : bool) :=
  scope_release (S s) (DConn dir usefd) s.
(** The per-resource methods parents offer, and the loops over the parents. *)
Definition ReserveMemoryForChild (s : nat) (size prio : Z) := child_reserve (DMemory size prio) s.
Definition ReleaseMemoryForChild (s : nat) (size : Z) := child_release (DMemory size 0) s.
Definition AddStreamForChild (s : nat) (dir : Direction) := child_reserve (DStream dir) s.
Definition RemoveStreamForChild (s : nat) (dir : Direction) := child_release (DStream dir) s.
Definition AddConnForChild (s : nat) (dir : Direction) (usefd : bool) :=
  child_reserve (DConn dir usefd) s.
Definition RemoveConnForChild (s : nat) (dir : Direction) (usefd : bool) :=
  child_release (DConn dir usefd) s.

(** The part of a reservation that is passed on: to the owner, or to the edges. *)
Definition reserve_upwards (d : demand) (s : nat) : M L (option rc_error) :=
  let* sc := get_scope s in
  match owner sc with
  | Some o => scope_reserve (S o) d o
  | None => reserve_for_edges d (edges sc)
  end.
Definition release_upwards (d : demand) (s : nat) : M L unit :=
  let* sc := get_scope s in
  match owner sc with
  | Some o => scope_release (S o) d o ;; if falls_through d then release_edges d (edges sc) else ret tt
  | None => release_edges d (edges sc)
  end.

Definition reserveMemoryForEdges (s : nat) (size prio : Z) := reserve_upwards (DMemory size prio) s.
Definition releaseMemoryForEdges (s : nat) (size : Z) := release_upwards (DMemory size 0) s.
Definition addStreamForEdges (s : nat) (dir : Direction) := reserve_upwards (DStream dir) s.
Definition removeStreamForEdges (s : nat) (dir : Direction) := release_upwards (DStream dir) s.
Definition addConnForEdges (s : nat) (dir : Direction) (usefd : bool) :=
  reserve_upwards (DConn dir usefd) s.
Definition removeConnForEdges (s : nat) (dir : Direction) (usefd : bool) :=
  release_upwards (DConn dir usefd) s.

Definition ReserveForChild (s : nat) (st : ScopeStat) := child_reserve (DStat st) s.
Definition ReleaseForChild (s : nat) (st : ScopeStat) := child_release (DStat st) s.
Definition ReleaseResources (s : nat) (st : ScopeStat) := scope_release (S s) (DStat st) s.

(** ** Spans *)

Definition nextSpanID (s : nat) : M L Z :=
  modify s (fun sc => mkScope (done sc) (refCnt sc) (spanID sc + 1) (rc sc) (owner sc)
                              (edges sc) (name sc)) ;;
  let* sc := get_scope s in ret (spanID sc).

(** [fmt.Sprintf("%s.span-%d", owner.name, id)] *)
Definition span_name (nm : string) (id : Z) : string := nm +:+ ".span-" +:+ pretty id.

Definition newResourceScopeSpan (o : nat) (id : Z) : M L nat :=
  let* oc := get_scope o in
  alloc (mkScope false 0 0 (mkResources (limit (rc oc)) 0 0 0 0 0 0) (Some o) []
                 (span_name (name oc) id)).

Definition BeginSpan (s : nat) : M L (result rc_error nat) :=
  let* sc := get_scope s in
  if done sc then ret (Err (wrapError sc ErrResourceScopeClosed))
  else
    modify s (add_refCnt 1) ;;
    let* id := nextSpanID s in
    let* t := newResourceScopeSpan s id in
    ret (Ok t).

(** ** Destruction *)

Fixpoint release_and_decref (st : ScopeStat) (es : list nat) : M L unit :=
  match es with
  | [] => ret tt
  | e :: es => ReleaseForChild e st ;; DecRef e ;; release_and_decref st es
  end.

Definition mark_done (sc : resourceScope L) : resourceScope L :=
  mkScope true (refCnt sc) (spanID sc) (resetAll (rc sc)) (owner sc) (edges sc) (name sc).

(** [Done] and [doneUnlocked] *)
Definition Done (s : nat) : M L unit :=
  let* sc := get_scope s in
  if done sc then ret tt
  else
    let st := stat (rc sc) in
    (match owner sc with
     | Some o => ReleaseResources o st ;; DecRef o
     | None => release_and_decref st (edges sc)
     end) ;;
    modify s mark_done.

Definition Stat (s : nat) : M L ScopeStat :=
  let* sc := get_scope s in ret (stat (rc sc)).

(** [strings.Contains(name, ".span-")] *)
Definition IsSpan (nm : string) : bool :=
  match String.index 0 ".span-" nm with Some _ => true | None => false end.

Definition IsUnused (s : nat) : M L bool :=
  let* sc := get_scope s in
  if done sc then ret true
  else if refCnt sc >? 0 then ret false
  else
    let st := stat (rc sc) in
    ret ((NumStreamsInbound st =? 0) && (NumStreamsOutbound st =? 0) &&
         (NumConnsInbound st =? 0) && (NumConnsOutbound st =? 0) && (NumFD st =? 0)).
End methods.
