(* ===== verification/ScopeFacts.v ===== *)
(** * Facts about resource scopes

    Every method of [Scope] is characterised by one equation: the heap it returns
    is the old one with the same update applied at a list of distinct addresses
    ([alter_all]).  Success, rollback and round trips follow from the lookups of
    [alter_all]. *)

From stdpp Require Import base gmap list strings fin_maps.
From Stdlib Require Import ZArith Lia.
From S2P Require Import Prelude Limits Resources Scope.

(** ** Updating several addresses *)
Section alter_all.
Context {A : Type}.
Implicit Types (f g : A -> A) (h : gmap nat A) (ts : list nat).

Fixpoint alter_all f ts h : gmap nat A :=
  match ts with
  | [] => h
  | x :: ts => alter_all f ts (alter f x h)
  end.

Lemma alter_all_ne f ts h x : x ∉ ts -> alter_all f ts h !! x = h !! x.
Proof.
  revert h. induction ts as [|y ts IH]; intros h Hx; [done|]. simpl.
  rewrite not_elem_of_cons in Hx. rewrite IH by tauto. rewrite lookup_alter_ne; [done|]. intuition.
Qed.

Lemma alter_all_in f ts h x :
  NoDup ts -> x ∈ ts -> alter_all f ts h !! x = f <$> h !! x.
Proof.
  revert h. induction ts as [|y ts IH]; intros h Hnd Hx; [by apply elem_of_nil in Hx|].
  apply NoDup_cons in Hnd as [Hy Hnd]. simpl. apply elem_of_cons in Hx as [->|Hx].
  - rewrite alter_all_ne by done. apply lookup_alter_eq.
  - rewrite IH by done. rewrite lookup_alter_ne; [done|]. intros ->. done.
Qed.

Lemma alter_all_lookup f ts h x :
  NoDup ts -> alter_all f ts h !! x = if decide (x ∈ ts) then f <$> h !! x else h !! x.
Proof. intros. case_decide; [by apply alter_all_in | by apply alter_all_ne]. Qed.

(** Undoing an update at every address. *)
Lemma alter_all_undo f g ts h :
  NoDup ts -> (forall x a, x ∈ ts -> h !! x = Some a -> g (f a) = a) ->
  alter_all g ts (alter_all f ts h) = h.
Proof.
  intros Hnd Hgf. apply map_eq. intros x. rewrite !alter_all_lookup by done.
  case_decide as Hx; [|done]. destruct (h !! x) as [a|] eqn:Ha; [|done].
  simpl. by rewrite (Hgf x a).
Qed.

Lemma alter_all_ext f g ts h :
  NoDup ts -> (forall x a, x ∈ ts -> h !! x = Some a -> f a = g a) ->
  alter_all f ts h = alter_all g ts h.
Proof.
  intros Hnd Hfg. apply map_eq. intros x. rewrite !alter_all_lookup by done.
  case_decide as Hx; [|done]. destruct (h !! x) as [a|] eqn:Ha; [|done]. simpl. f_equal. eauto.
Qed.

Lemma alter_id' f h x a : h !! x = Some a -> f a = a -> alter f x h = h.
Proof.
  intros Ha Hf. apply map_eq. intros y. destruct (decide (y = x)) as [->|].
  - rewrite lookup_alter_eq, Ha. simpl. by rewrite Hf.
  - by rewrite lookup_alter_ne.
Qed.

Lemma alter_is_some f h x y : is_Some (alter f x h !! y) <-> is_Some (h !! y).
Proof. rewrite lookup_alter. case_decide; [subst; by rewrite fmap_is_Some | done]. Qed.
End alter_all.

Section facts.
Context {L : Type} `{!Limit L}.
Implicit Types (h : heap L) (sc : resourceScope L) (d : demand) (s e o : nat).

Lemma fresh_addr_gt h s sc : h !! s = Some sc -> (s < fresh_addr h)%nat.
Proof.
  unfold fresh_addr. revert s sc.
  induction h as [|k v m Hk IH] using map_ind; intros s sc Hs; [done|].
  rewrite map_fold_insert_L; [|intros; lia|done].
  apply lookup_insert_Some in Hs as [[<- _]|[_ Hs]]; [lia|]. specialize (IH s sc Hs). lia.
Qed.

Lemma fresh_addr_None h : h !! fresh_addr h = None.
Proof.
  destruct (h !! fresh_addr h) as [sc|] eqn:E; [|done]. apply fresh_addr_gt in E. lia.
Qed.

(** ** Well-formed heaps

    Owners are older than their spans, spans have no edges, and edges are
    distinct DAG scopes other than the scope itself. *)
Record heap_wf h : Prop := {
  hw_owner : forall s sc o, h !! s = Some sc -> owner sc = Some o ->
    (o < s)%nat /\ is_Some (h !! o) /\ edges sc = [];
  hw_edges : forall s sc e, h !! s = Some sc -> e ∈ edges sc ->
    e <> s /\ exists ec, h !! e = Some ec /\ owner ec = None;
  hw_nodup : forall s sc, h !! s = Some sc -> NoDup (edges sc);
}.

Definition heap_in_range h : Prop := map_Forall (fun _ sc => in_range (rc sc)) h.
Definition heap_ok h : Prop := map_Forall (fun _ sc => rc_ok (rc sc)) h.

Lemma heap_ok_in_range h : heap_ok h -> heap_in_range h.
Proof. intros H s sc Hs. apply ro_range, (H s sc Hs). Qed.

(** The part of a scope that reservations do not touch. *)
Definition shape sc : bool * option nat * list nat := (done sc, owner sc, edges sc).
Definition same_shape h h' : Prop := forall x, shape <$> h !! x = shape <$> h' !! x.

Lemma same_shape_refl h : same_shape h h.
Proof. done. Qed.

Lemma same_shape_alter f s h :
  (forall sc, shape (f sc) = shape sc) -> same_shape h (alter f s h).
Proof.
  intros Hf x. rewrite lookup_alter. case_decide; [subst|done].
  destruct (h !! x); simpl; [by rewrite Hf | done].
Qed.

Lemma same_shape_alter_all f ts h :
  (forall sc, shape (f sc) = shape sc) -> same_shape h (alter_all f ts h).
Proof.
  intros Hf. revert h. induction ts as [|y ts IH]; intros h x; [done|].
  simpl. rewrite <- (IH (alter f y h) x). by apply same_shape_alter.
Qed.

Lemma same_shape_lookup h h' x sc' :
  same_shape h h' -> h' !! x = Some sc' ->
  exists sc, h !! x = Some sc /\ owner sc = owner sc' /\ edges sc = edges sc' /\ done sc = done sc'.
Proof.
  intros Hsh Hx. specialize (Hsh x). rewrite Hx in Hsh.
  destruct (h !! x) as [sc|]; [|done]. injection Hsh as ???. eauto 10.
Qed.

Lemma same_shape_sym h h' : same_shape h h' -> same_shape h' h.
Proof. intros H x. by rewrite H. Qed.

Lemma same_shape_trans h1 h2 h3 : same_shape h1 h2 -> same_shape h2 h3 -> same_shape h1 h3.
Proof. intros H1 H2 x. by rewrite H1. Qed.

#[export] Instance same_shape_equiv : Equivalence same_shape.
Proof. split; [exact same_shape_refl | exact same_shape_sym | exact same_shape_trans]. Qed.

#[export] Instance heap_wf_proper : Proper (same_shape ==> iff) heap_wf.
Proof.
  assert (forall h h', same_shape h h' -> heap_wf h -> heap_wf h') as Himp.
  { intros h h' Hsh [Ho He Hn]. split.
    - intros s sc' o Hs Hown. destruct (same_shape_lookup h h' s sc' Hsh Hs) as (sc & Hs' & E1 & E2 & _).
      destruct (Ho s sc o Hs') as (? & [oc Hoc] & ?); [congruence|].
      split_and!; [done| |congruence]. symmetry in Hsh.
      specialize (Hsh o). rewrite Hoc in Hsh. destruct (h' !! o); [by eexists|done].
    - intros s sc' e Hs Hin. destruct (same_shape_lookup h h' s sc' Hsh Hs) as (sc & Hs' & E1 & E2 & _).
      destruct (He s sc e Hs') as (? & ec & Hec & Hoe); [congruence|].
      split; [done|]. symmetry in Hsh.
      destruct (same_shape_lookup h' h e ec Hsh Hec) as (ec' & ? & ? & ? & _).
      exists ec'. split; [done|congruence].
    - intros s sc' Hs. destruct (same_shape_lookup h h' s sc' Hsh Hs) as (sc & Hs' & _ & <- & _). eauto. }
  intros h h' Hsh. split; apply Himp; [done | by symmetry].
Qed.

(** ** Updates and acceptance *)

Definition accepts d sc : bool :=
  negb (done sc) && match (reserve d (rc sc)).2 with None => true | Some _ => false end.
Definition accepts_at d h (x : nat) : bool :=
  match h !! x with Some sc => accepts d sc | None => false end.

Definition charge d sc : resourceScope L := map_rc (fun r => (reserve d r).1) sc.
Definition unload d sc : resourceScope L := if done sc then sc else map_rc (release d) sc.

Lemma shape_map_rc f sc : shape (map_rc f sc) = shape sc.
Proof. done. Qed.
Lemma shape_charge d sc : shape (charge d sc) = shape sc.
Proof. done. Qed.
Lemma shape_unload d sc : shape (unload d sc) = shape sc.
Proof. unfold unload. by destruct (done sc) eqn:E. Qed.

Lemma set_rc_id sc : set_rc (rc sc) sc = sc.
Proof. by destruct sc. Qed.

Lemma accepts_true d sc :
  accepts d sc = true -> done sc = false /\ exists rc', reserve d (rc sc) = (rc', None).
Proof.
  unfold accepts. destruct (done sc); [done|]. destruct (reserve d (rc sc)) as [rc' [|]]; [done|]. eauto.
Qed.

Lemma unload_charge d sc :
  in_range (rc sc) -> accepts d sc = true -> unload d (charge d sc) = sc.
Proof.
  intros Hr [Hd [rc' Hrc]]%accepts_true. unfold unload, charge, map_rc. simpl. rewrite Hd, Hrc. simpl.
  rewrite (release_undo (rc sc)) by done. by destruct sc.
Qed.

(** ** Parents *)

Lemma child_reserve_spec d s h sc :
  h !! s = Some sc -> in_range (rc sc) ->
  exists err,
    child_reserve d s h = Some (err, if accepts d sc then alter (charge d) s h else h) /\
    (err = None <-> accepts d sc = true).
Proof.
  intros Hs Hr. unfold child_reserve, bind, get_scope, accepts. rewrite Hs.
  destruct (done sc) eqn:Hd; [by eexists; split; [reflexivity|]|].
  destruct (reserve d (rc sc)) as [rc' err] eqn:E. exists (wrapError sc <$> err). simpl.
  unfold modify, ret. destruct err as [err|]; simpl.
  - apply reserve_err in E as ->; [|done].
    rewrite (alter_id' _ h s sc); [|done|apply set_rc_id]. done.
  - split; [|done]. do 2 f_equal. apply map_eq. intros x.
    rewrite !lookup_alter. case_decide; [subst x|done]. rewrite Hs. simpl. unfold charge, map_rc.
    by rewrite E.
Qed.

Lemma child_release_spec d s h :
  is_Some (h !! s) -> child_release d s h = Some (tt, alter (unload d) s h).
Proof.
  intros [sc Hs]. unfold child_release, bind, get_scope. rewrite Hs.
  destruct (done sc) eqn:Hd; unfold ret, modify; do 2 f_equal.
  - symmetry. apply (alter_id' _ h s sc); [done|]. unfold unload. by rewrite Hd.
  - apply map_eq. intros x. rewrite !lookup_alter. case_decide; [subst x|done].
    rewrite Hs. simpl. unfold unload. by rewrite Hd.
Qed.

Lemma release_edges_spec d es h :
  Forall (fun e => is_Some (h !! e)) es ->
  release_edges d es h = Some (tt, alter_all (unload d) es h).
Proof.
  revert h. induction es as [|e es IH]; intros h Hes; [done|].
  apply Forall_cons in Hes as [He Hes]. cbn [release_edges]. unfold bind.
  rewrite child_release_spec by done. apply IH.
  eapply Forall_impl; [exact Hes|]. intros x. by rewrite alter_is_some.
Qed.

(** Addresses with counters in range, so that undoing is exact. *)
Definition ranged h (x : nat) : Prop := exists sc, h !! x = Some sc /\ in_range (rc sc).

Lemma ranged_is_some h x : ranged h x -> is_Some (h !! x).
Proof. intros (sc & -> & _). by eexists. Qed.

Lemma reserve_edges_spec d es n h :
  NoDup es -> Forall (ranged h) es ->
  exists k err,
    reserve_edges d es n h = Some ((n + k, err)%nat, alter_all (charge d) (take k es) h) /\
    forallb (accepts_at d h) (take k es) = true /\
    (err = None <-> forallb (accepts_at d h) es = true) /\
    (err = None -> k = length es).
Proof.
  revert n h. induction es as [|e es IH]; intros n h Hnd Hr.
  { exists 0%nat, None. rewrite Nat.add_0_r. done. }
  apply NoDup_cons in Hnd as [He Hnd]. apply Forall_cons in Hr as [(ec & Hec & Hre) Hr].
  destruct (child_reserve_spec d e h ec Hec Hre) as (err & Hcr & Herr).
  cbn [reserve_edges]. unfold bind. rewrite Hcr. destruct err as [err|].
  - exists 0%nat, (Some err). rewrite Nat.add_0_r.
    destruct (accepts d ec) eqn:Ha; [by destruct Herr as [_ ?]; naive_solver|].
    split_and!; [done..| |done]. simpl. unfold accepts_at at 1. by rewrite Hec, Ha.
  - rewrite (proj1 Herr eq_refl) in *.
    assert (forall l, e ∉ l -> forallb (accepts_at d (alter (charge d) e h)) l = forallb (accepts_at d h) l)
      as Hframe.
    { intros l. induction l as [|x l IHl]; [done|]. rewrite not_elem_of_cons. intros [Hx Hl]. simpl.
      rewrite IHl by done. unfold accepts_at. by rewrite lookup_alter_ne by done. }
    destruct (IH (S n) (alter (charge d) e h)) as (k & err & Heq & Hacc & Hall & Hlen); [done| |].
    { rewrite Forall_forall in Hr |- *. intros x Hx. destruct (Hr x Hx) as (xc & Hxc & ?).
      exists xc. rewrite lookup_alter_ne by (by intros ->). done. }
    rewrite Hframe in Hall by done.
    rewrite Hframe in Hacc by (intros Hin; apply He; eapply elem_of_take in Hin as (i & Hi & _);
      by eapply list_elem_of_lookup_2).
    exists (S k), err. replace (n + S k)%nat with (S n + k)%nat by lia.
    split_and!; [exact Heq | | |].
    + simpl. unfold accepts_at at 1. by rewrite Hec, (proj1 Herr eq_refl).
    + simpl. unfold accepts_at at 1. by rewrite Hec, (proj1 Herr eq_refl).
    + simpl. intros He'. by rewrite Hlen.
Qed.

Lemma forallb_accepts d h ts x :
  forallb (accepts_at d h) ts = true -> x ∈ ts ->
  exists sc, h !! x = Some sc /\ accepts d sc = true.
Proof.
  rewrite forallb_forall. intros Hall Hx%list_elem_of_In. specialize (Hall x Hx).
  unfold accepts_at in Hall. destruct (h !! x); [eauto|done].
Qed.

(** Releasing on a list of parents right after charging them restores the heap:
    the rollback of a partially granted reservation is exact. *)
Lemma rollback_exact d ts h :
  NoDup ts -> Forall (ranged h) ts -> forallb (accepts_at d h) ts = true ->
  alter_all (unload d) ts (alter_all (charge d) ts h) = h.
Proof.
  intros Hnd Hr Hacc. apply alter_all_undo; [done|]. intros x sc Hx Hsc.
  rewrite Forall_forall in Hr. destruct (Hr x Hx) as (sc1 & Hsc1 & Hrange).
  destruct (forallb_accepts d h ts x Hacc Hx) as (sc2 & Hsc2 & Ha).
  simplify_eq. by apply unload_charge.
Qed.

Lemma reserve_for_edges_spec d es h :
  NoDup es -> Forall (ranged h) es ->
  exists err,
    reserve_for_edges d es h =
      Some (err, if forallb (accepts_at d h) es then alter_all (charge d) es h else h) /\
    (err = None <-> forallb (accepts_at d h) es = true).
Proof.
  intros Hnd Hr. destruct (reserve_edges_spec d es 0 h Hnd Hr) as (k & err & Heq & Hacc & Hall & Hlen).
  unfold reserve_for_edges, bind. rewrite Heq. cbn [fst snd Nat.add].
  destruct err as [err|].
  - assert (forallb (accepts_at d h) es = false) as Hf.
    { apply not_true_is_false. intros E. by apply Hall in E. }
    exists (Some err). rewrite Hf. split; [|done].
    assert (NoDup (take k es)) as Hnd' by (eapply sublist_NoDup; [done|apply sublist_take]).
    assert (Forall (ranged h) (take k es)) as Hr' by by apply Forall_take.
    rewrite release_edges_spec.
    { unfold ret. by rewrite rollback_exact. }
    eapply Forall_impl; [exact Hr'|]. intros x Hx%ranged_is_some.
    rewrite alter_all_lookup by done. case_decide; [by apply fmap_is_Some | done].
  - rewrite (proj1 Hall eq_refl). exists None. rewrite (Hlen eq_refl), firstn_all. done.
Qed.

(** ** The scopes a reservation touches: the scope, its owners, and the edges of
    the last of them. *)
Fixpoint targets (fuel : nat) h s : list nat :=
  match fuel with
  | O => []
  | S fuel =>
    match h !! s with
    | None => []
    | Some sc => s :: match owner sc with
                      | Some o => targets fuel h o
                      | None => edges sc
                      end
    end
  end.

Lemma targets_shape fuel h h' s : same_shape h h' -> targets fuel h s = targets fuel h' s.
Proof.
  intros Hsh. revert s. induction fuel as [|fuel IH]; intros s; [done|]. simpl.
  pose proof (Hsh s) as Hs. destruct (h !! s), (h' !! s); try done. injection Hs as _ -> ->.
  f_equal. by destruct (owner _).
Qed.

Lemma targets_low fuel h s y :
  heap_wf h -> y ∈ targets fuel h s ->
  (y <= s)%nat \/ exists yc, h !! y = Some yc /\ owner yc = None.
Proof.
  intros Hwf. revert s. induction fuel as [|fuel IH]; intros s; simpl; [by intros ?%elem_of_nil|].
  destruct (h !! s) as [sc|] eqn:Hs; [|by intros ?%elem_of_nil].
  intros [->|Hy]%elem_of_cons; [by left|].
  destruct (owner sc) as [o|] eqn:Ho.
  - destruct (hw_owner h Hwf s sc o Hs Ho) as (? & _ & _).
    destruct (IH o Hy) as [?|?]; [left; lia | by right].
  - right. destruct (hw_edges h Hwf s sc y Hs Hy) as (_ & yc & ? & ?). eauto.
Qed.

Lemma targets_NoDup fuel h s : heap_wf h -> NoDup (targets fuel h s).
Proof.
  intros Hwf. revert s. induction fuel as [|fuel IH]; intros s; simpl; [constructor|].
  destruct (h !! s) as [sc|] eqn:Hs; [|constructor]. apply NoDup_cons. split.
  - destruct (owner sc) as [o|] eqn:Ho.
    + intros Hin. destruct (hw_owner h Hwf s sc o Hs Ho) as (? & _ & _).
      destruct (targets_low fuel h o s Hwf Hin) as [?|(yc & ? & ?)]; [lia|]. congruence.
    + intros Hin. by destruct (hw_edges h Hwf s sc s Hs Hin).
  - destruct (owner sc) as [o|]; [apply IH | by apply (hw_nodup h Hwf s sc Hs)].
Qed.

Lemma targets_ranged fuel h s :
  heap_wf h -> heap_in_range h -> Forall (ranged h) (targets fuel h s).
Proof.
  intros Hwf Hr. revert s. induction fuel as [|fuel IH]; intros s; simpl; [constructor|].
  destruct (h !! s) as [sc|] eqn:Hs; [|constructor]. constructor.
  - exists sc. split; [done | exact (Hr s sc Hs)].
  - destruct (owner sc) as [o|]; [apply IH|]. apply Forall_forall. intros e He.
    destruct (hw_edges h Hwf s sc e Hs He) as (_ & ec & Hec & _). exists ec.
    split; [done | exact (Hr e ec Hec)].
Qed.

Lemma accepts_frame d f s h ts :
  s ∉ ts -> forallb (accepts_at d (alter f s h)) ts = forallb (accepts_at d h) ts.
Proof.
  induction ts as [|x l IHl]; [done|]. rewrite not_elem_of_cons. intros [Hx Hl]. simpl.
  rewrite IHl by done. unfold accepts_at. by rewrite lookup_alter_ne by done.
Qed.

Lemma ranged_frame f s h ts :
  s ∉ ts -> Forall (ranged h) ts -> Forall (ranged (alter f s h)) ts.
Proof.
  intros Hs Hr. rewrite Forall_forall in Hr |- *. intros x Hx. destruct (Hr x Hx) as (xc & ? & ?).
  exists xc. rewrite lookup_alter_ne by (by intros ->). done.
Qed.

(** The effect of [ReserveMemory], [AddStream] and [AddConn] in one equation: all
    the scopes of [targets] are charged when all of them accept, otherwise the
    heap is the one before the call, and in particular the call always
    returns. *)
Lemma scope_reserve_spec d fuel s h :
  (s < fuel)%nat -> heap_wf h -> is_Some (h !! s) -> Forall (ranged h) (targets fuel h s) ->
  exists err,
    scope_reserve fuel d s h =
      Some (err, if forallb (accepts_at d h) (targets fuel h s)
                 then alter_all (charge d) (targets fuel h s) h else h) /\
    (err = None <-> forallb (accepts_at d h) (targets fuel h s) = true).
Proof.
  revert s h. induction fuel as [|fuel IH]; intros s h Hfuel Hwf [sc Hs] Hr; [lia|].
  pose proof (targets_NoDup (S fuel) h s Hwf) as Hnd.
  simpl in Hr, Hnd |- *. unfold bind, get_scope. rewrite Hs in *.
  set (ts := match owner sc with Some o => targets fuel h o | None => edges sc end) in *.
  apply NoDup_cons in Hnd as [Hsts Hnd]. apply Forall_cons in Hr as [(sc' & Hs' & Hrange) Hr].
  rewrite Hs in Hs'. injection Hs' as <-. cbn [forallb].
  assert (accepts_at d h s = negb (done sc) &&
            match (reserve d (rc sc)).2 with None => true | Some _ => false end) as Has
    by (unfold accepts_at; by rewrite Hs).
  rewrite Has. destruct (done sc) eqn:Hdone; [by eexists; split; [reflexivity|]|].
  destruct (reserve d (rc sc)) as [rc' [err|]] eqn:E; simpl.
  { apply reserve_err in E as ->; [|done]. exists (Some (wrapError sc err)).
    rewrite (alter_id' _ h s sc); [done|done|apply set_rc_id]. }
  set (h1 := alter (set_rc rc') s h).
  assert (h1 = alter (charge d) s h) as Hh1.
  { apply map_eq. intros x. unfold h1. rewrite !lookup_alter. case_decide; [subst x|done].
    rewrite Hs. simpl. unfold charge, map_rc. by rewrite E. }
  assert (same_shape h h1) as Hsh by (by apply same_shape_alter).
  assert (exists err, match owner sc with
            | Some o => scope_reserve fuel d o
            | None => reserve_for_edges d (edges sc)
            end h1 = Some (err, if forallb (accepts_at d h) ts then alter_all (charge d) ts h1 else h1)
          /\ (err = None <-> forallb (accepts_at d h) ts = true)) as (err & Heq & Herr).
  { rewrite <- (accepts_frame d (set_rc rc') s h ts Hsts). change (alter _ s h) with h1.
    apply (ranged_frame (set_rc rc') s) in Hr; [|done]. change (alter _ s h) with h1 in Hr.
    destruct (owner sc) as [o|] eqn:Ho.
    - destruct (hw_owner h Hwf s sc o Hs Ho) as (Hlt & Hso & _).
      unfold ts in *. rewrite (targets_shape fuel h h1 o Hsh) in *.
      apply IH; [lia | by rewrite <- Hsh | by apply alter_is_some | done].
    - by apply reserve_for_edges_spec. }
  rewrite Heq. destruct (forallb (accepts_at d h) ts) eqn:Hall.
  - rewrite (proj2 Herr eq_refl). exists None. unfold ret. by rewrite Hh1.
  - destruct err as [err|]; [|by destruct Herr as [Herr _]; specialize (Herr eq_refl)].
    exists (Some (wrapError sc err)). split; [|done]. unfold ret. do 2 f_equal.
    unfold h1. rewrite alter_alter_eq. apply (alter_id' _ h s sc Hs). simpl.
    unfold map_rc. simpl. rewrite (release_undo (rc sc)) by done. by destruct sc.
Qed.

(** ** Releases *)

(** The scopes a release touches: as [targets], but a closed owner stops it. *)
Fixpoint rtargets (fuel : nat) h s : list nat :=
  match fuel with
  | O => []
  | S fuel =>
    match h !! s with
    | None => []
    | Some sc =>
        if done sc then []
        else s :: match owner sc with
                  | Some o => rtargets fuel h o
                  | None => edges sc
                  end
    end
  end.

Lemma rtargets_shape fuel h h' s : same_shape h h' -> rtargets fuel h s = rtargets fuel h' s.
Proof.
  intros Hsh. revert s. induction fuel as [|fuel IH]; intros s; [done|]. simpl.
  pose proof (Hsh s) as Hs. destruct (h !! s), (h' !! s); try done. injection Hs as -> -> ->.
  destruct (done _); [done|]. f_equal. by destruct (owner _).
Qed.

Lemma rtargets_incl fuel h s : rtargets fuel h s ⊆ targets fuel h s.
Proof.
  revert s. induction fuel as [|fuel IH]; intros s; [done|]. simpl.
  destruct (h !! s) as [sc|]; [|done]. destruct (done sc); [apply list_subseteq_nil|].
  destruct (owner sc); [|done]. intros x. rewrite !elem_of_cons. intros [?|?%IH]; auto.
Qed.

Lemma rtargets_NoDup fuel h s : heap_wf h -> NoDup (rtargets fuel h s).
Proof.
  intros Hwf. revert s. induction fuel as [|fuel IH]; intros s; simpl; [constructor|].
  pose proof (targets_NoDup (S fuel) h s Hwf) as Hnd. simpl in Hnd.
  destruct (h !! s) as [sc|] eqn:Hs; [|constructor]. destruct (done sc); [constructor|].
  apply NoDup_cons in Hnd as [Hsts Hnd]. apply NoDup_cons. destruct (owner sc) as [o|]; [|done].
  split; [|apply IH]. intros Hin. by apply Hsts, rtargets_incl.
Qed.

Lemma rtargets_live fuel h s :
  (forall x xc, x ∈ targets fuel h s -> h !! x = Some xc -> done xc = false) ->
  rtargets fuel h s = targets fuel h s.
Proof.
  revert s. induction fuel as [|fuel IH]; intros s Hl; [done|]. simpl in *.
  destruct (h !! s) as [sc|] eqn:Hs; [|done].
  rewrite (Hl s sc) by (done || apply elem_of_list_here || left). f_equal.
  destruct (owner sc); [|done]. apply IH. intros x xc Hx. apply Hl. by right.
Qed.

Lemma edges_is_some h s sc :
  heap_wf h -> h !! s = Some sc -> Forall (fun e => is_Some (h !! e)) (edges sc).
Proof.
  intros Hwf Hs. apply Forall_forall. intros e He.
  destruct (hw_edges h Hwf s sc e Hs He) as (_ & ec & -> & _). by eexists.
Qed.

Lemma alter_unload d s h sc :
  h !! s = Some sc -> done sc = false ->
  alter (map_rc (release d)) s h = alter (unload d) s h.
Proof.
  intros Hs Hd. apply map_eq. intros x. rewrite !lookup_alter. case_decide; [subst x|done].
  rewrite Hs. simpl. unfold unload. by rewrite Hd.
Qed.

(** The effect of [ReleaseMemory], [RemoveStream], [RemoveConn] and
    [ReleaseResources] in one equation. *)
Lemma scope_release_spec d fuel s h :
  (s < fuel)%nat -> heap_wf h -> is_Some (h !! s) ->
  scope_release fuel d s h = Some (tt, alter_all (unload d) (rtargets fuel h s) h).
Proof.
  revert s h. induction fuel as [|fuel IH]; intros s h Hfuel Hwf [sc Hs]; [lia|].
  simpl. unfold bind, get_scope. rewrite Hs. destruct (done sc) eqn:Hdone; [done|].
  unfold modify. rewrite (alter_unload d s h sc) by done. simpl.
  set (h1 := alter (unload d) s h).
  assert (same_shape h h1) as Hsh by apply same_shape_alter, shape_unload.
  assert (heap_wf h1) as Hwf1 by by rewrite <- Hsh.
  destruct (owner sc) as [o|] eqn:Ho.
  - destruct (hw_owner h Hwf s sc o Hs Ho) as (Hlt & Hso & He).
    rewrite IH; [| lia | done | by apply alter_is_some]. rewrite He, (rtargets_shape fuel h h1 o) by done.
    by destruct (falls_through d).
  - apply release_edges_spec. eapply Forall_impl; [exact (edges_is_some h s sc Hwf Hs)|].
    intros x Hx. by apply alter_is_some.
Qed.

(** ** Destruction *)

Definition detach (st : ScopeStat) sc : resourceScope L := add_refCnt (-1) (unload (DStat st) sc).

Lemma shape_detach st sc : shape (detach st sc) = shape sc.
Proof. unfold detach. rewrite <- (shape_unload (DStat st) sc). done. Qed.

Lemma release_and_decref_spec st es h :
  Forall (fun e => is_Some (h !! e)) es ->
  release_and_decref st es h = Some (tt, alter_all (detach st) es h).
Proof.
  revert h. induction es as [|e es IH]; intros h Hes; [done|].
  apply Forall_cons in Hes as [He Hes]. cbn [release_and_decref]. unfold bind, ReleaseForChild.
  rewrite child_release_spec by done. unfold DecRef, modify. rewrite alter_alter_eq.
  apply IH. eapply Forall_impl; [exact Hes|]. intros x. by rewrite alter_is_some.
Qed.

(** The effect of [Done]: nothing on a closed scope; otherwise the recorded usage
    is released on the ancestors, their reference count drops by one, and the
    scope is emptied and closed. *)
Definition done_heap h s sc : heap L :=
  if done sc then h
  else
    alter mark_done s
      match owner sc with
      | Some o => alter (add_refCnt (-1)) o
                    (alter_all (unload (DStat (stat (rc sc)))) (rtargets (S o) h o) h)
      | None => alter_all (detach (stat (rc sc))) (edges sc) h
      end.

Lemma Done_spec s h sc :
  heap_wf h -> h !! s = Some sc -> Done s h = Some (tt, done_heap h s sc).
Proof.
  intros Hwf Hs. unfold Done, done_heap, bind, get_scope. rewrite Hs.
  destruct (done sc) eqn:Hd; [done|]. destruct (owner sc) as [o|] eqn:Ho.
  - destruct (hw_owner h Hwf s sc o Hs Ho) as (_ & Hso & _).
    unfold ReleaseResources. by rewrite scope_release_spec by (done || lia).
  - by rewrite release_and_decref_spec by exact (edges_is_some h s sc Hwf Hs).
Qed.

(** ** Construction *)

Lemma incRefs_spec es h : incRefs es h = Some (tt, alter_all (add_refCnt 1) es h).
Proof. revert h. induction es as [|e es IH]; intros h; [done|]. apply IH. Qed.

Definition new_scope (lim : L) (o : option nat) (es : list nat) (nm : string) : resourceScope L :=
  mkScope false 0 0 (mkResources lim 0 0 0 0 0 0) o es nm.

Lemma newResourceScope_spec lim es nm h :
  let h1 := alter_all (add_refCnt 1) es h in
  newResourceScope lim es nm h =
    Some (fresh_addr h1, <[fresh_addr h1 := new_scope lim None es nm]> h1).
Proof. unfold newResourceScope, bind. by rewrite incRefs_spec. Qed.

Definition span_parent sc : resourceScope L :=
  mkScope (done sc) (refCnt sc + 1) (spanID sc + 1) (rc sc) (owner sc) (edges sc) (name sc).

Lemma BeginSpan_spec s h sc :
  h !! s = Some sc ->
  BeginSpan s h =
    Some (if done sc then (Err (wrapError sc ErrResourceScopeClosed), h)
          else
            let h1 := alter span_parent s h in
            (Ok (fresh_addr h1),
             <[fresh_addr h1 := new_scope (limit (rc sc)) (Some s) []
                                  (span_name (name sc) (spanID sc + 1))]> h1)).
Proof.
  intros Hs. unfold BeginSpan, bind, get_scope. rewrite Hs. destruct (done sc) eqn:Hd; [done|].
  unfold modify, nextSpanID, newResourceScopeSpan, bind, modify, get_scope.
  rewrite alter_alter_eq. rewrite lookup_alter_eq, Hs. simpl.
  rewrite lookup_alter_eq, Hs. simpl.
  assert (alter ((fun sc => mkScope (done sc) (refCnt sc) (spanID sc + 1) (rc sc) (owner sc)
            (edges sc) (name sc)) ∘ add_refCnt 1) s h = alter span_parent s h) as ->.
  { apply map_eq. intros x. rewrite !lookup_alter. case_decide; [subst|done]. by rewrite Hs. }
  done.
Qed.

(** ** The methods in the factoring of the source *)

(** The fuel is irrelevant above the address of the scope. *)
Lemma scope_reserve_fuel d f1 f2 s h :
  (s < f1)%nat -> (s < f2)%nat -> heap_wf h -> scope_reserve f1 d s h = scope_reserve f2 d s h.
Proof.
  revert f2 s h. induction f1 as [|f1 IH]; intros f2 s h H1 H2 Hwf; [lia|].
  destruct f2 as [|f2]; [lia|]. simpl. unfold bind, get_scope, modify.
  destruct (h !! s) as [sc|] eqn:Hs; [|done]. destruct (done sc); [done|].
  destruct (reserve d (rc sc)) as [rc' [err|]]; [done|].
  destruct (owner sc) as [o|] eqn:Ho; [|done].
  destruct (hw_owner h Hwf s sc o Hs Ho) as (Hlt & _ & _).
  rewrite (IH f2 o (alter (set_rc rc') s h)); [done|lia|lia|].
  by rewrite <- (same_shape_alter (set_rc rc') s h).
Qed.

Lemma scope_release_fuel d f1 f2 s h :
  (s < f1)%nat -> (s < f2)%nat -> heap_wf h -> scope_release f1 d s h = scope_release f2 d s h.
Proof.
  revert f2 s h. induction f1 as [|f1 IH]; intros f2 s h H1 H2 Hwf; [lia|].
  destruct f2 as [|f2]; [lia|]. simpl. unfold bind, get_scope, modify.
  destruct (h !! s) as [sc|] eqn:Hs; [|done]. destruct (done sc); [done|].
  destruct (owner sc) as [o|] eqn:Ho; [|done].
  destruct (hw_owner h Hwf s sc o Hs Ho) as (Hlt & _ & _).
  rewrite (IH f2 o (alter (map_rc (release d)) s h)); [done|lia|lia|].
  by rewrite <- (same_shape_alter (map_rc (release d)) s h).
Qed.

(** [ReserveMemory], [AddStream] and [AddConn] as the source composes them: the
    own counters, then [reserveMemoryForEdges], [addStreamForEdges] or
    [addConnForEdges], undoing the own part when those refuse. *)
Lemma scope_reserve_unfold d s sc h :
  heap_wf h -> h !! s = Some sc -> done sc = false ->
  scope_reserve (S s) d s h =
  (let '(rc', err) := reserve d (rc sc) in
   modify s (set_rc rc') ;;
   match err with
   | Some err => ret (Some (wrapError sc err))
   | None =>
       let* err := reserve_upwards d s in
       match err with
       | Some err => modify s (map_rc (release d)) ;; ret (Some (wrapError sc err))
       | None => ret None
       end
   end) h.
Proof.
  intros Hwf Hs Hl. cbn [scope_reserve]. unfold reserve_upwards, bind, get_scope, modify. rewrite Hs, Hl.
  destruct (reserve d (rc sc)) as [rc' [err|]]; [done|].
  rewrite lookup_alter_eq, Hs. cbn [fmap option_fmap option_map set_rc owner edges].
  destruct (owner sc) as [o|] eqn:Ho; [|done].
  destruct (hw_owner h Hwf s sc o Hs Ho) as (Hlt & _ & _).
  rewrite (scope_reserve_fuel d s (S o)); [done|lia|lia|].
  by rewrite <- (same_shape_alter (set_rc rc') s h).
Qed.

Lemma scope_release_unfold d s sc h :
  heap_wf h -> h !! s = Some sc -> done sc = false ->
  scope_release (S s) d s h = (modify s (map_rc (release d)) ;; release_upwards d s) h.
Proof.
  intros Hwf Hs Hl. cbn [scope_release]. unfold release_upwards, bind, get_scope, modify. rewrite Hs, Hl.
  rewrite lookup_alter_eq, Hs. cbn [fmap option_fmap option_map map_rc set_rc owner edges].
  destruct (owner sc) as [o|] eqn:Ho; [|done].
  destruct (hw_owner h Hwf s sc o Hs Ho) as (Hlt & _ & _).
  rewrite (scope_release_fuel d s (S o)); [done|lia|lia|].
  by rewrite <- (same_shape_alter (map_rc (release d)) s h).
Qed.
End facts.
