(* ===== verification/ScopeInv.v ===== *)
(** * Invariants of resource scopes

    The limit invariant of every reachable heap, and the per-method contracts:
    reservations are atomic, releases undo them, destruction empties a scope. *)

From stdpp Require Import base gmap list strings fin_maps relations.
From Stdlib Require Import ZArith Lia.
From S2P Require Import Prelude Limits Resources Scope ScopeFacts.

Section inv.
Context {L : Type} `{!Limit L}.
Implicit Types (h : heap L) (sc : resourceScope L) (d : demand) (s e o : nat).

(** Well-formed, every counter non-negative and within its limit. *)
Record heap_inv h : Prop := {
  hi_wf : heap_wf h;
  hi_ok : heap_ok h;
}.

(** Edges a scope may be given: distinct DAG scopes of the heap. *)
Definition edges_valid h (es : list nat) : Prop :=
  NoDup es /\ forall e, e ∈ es -> exists ec, h !! e = Some ec /\ owner ec = None.

(** The public methods as steps, with what their callers guarantee: sizes are
    non-negative, priorities are bytes, new scopes get finite limits and valid
    edges. *)
Inductive step : heap L -> heap L -> Prop :=
| step_reserve h h' s d err :
    is_Some (h !! s) -> demand_ok d -> scope_reserve (S s) d s h = Some (err, h') -> step h h'
| step_release h h' s d :
    is_Some (h !! s) -> demand_ok d -> scope_release (S s) d s h = Some (tt, h') -> step h h'
| step_child_reserve h h' s d err :
    is_Some (h !! s) -> demand_ok d -> child_reserve d s h = Some (err, h') -> step h h'
| step_child_release h h' s d :
    is_Some (h !! s) -> demand_ok d -> child_release d s h = Some (tt, h') -> step h h'
| step_new h h' lim es nm s :
    lim_ok lim -> edges_valid h es -> newResourceScope lim es nm h = Some (s, h') -> step h h'
| step_span h h' s r :
    is_Some (h !! s) -> BeginSpan s h = Some (r, h') -> step h h'
| step_done h h' s :
    is_Some (h !! s) -> Done s h = Some (tt, h') -> step h h'
| step_incref h h' s : IncRef s h = Some (tt, h') -> step h h'
| step_decref h h' s : DecRef s h = Some (tt, h') -> step h h'
| step_rewire h s sc es :
    h !! s = Some sc -> owner sc = None -> edges_valid h es -> s ∉ es ->
    step h (alter (set_edges es) s h).

(** *** Updates that keep the invariant *)

Definition keeps_ok (f : resourceScope L -> resourceScope L) h (x : nat) : Prop :=
  forall sc, h !! x = Some sc -> rc_ok (rc sc) -> rc_ok (rc (f sc)).

Lemma keeps_ok_id f h x : (forall sc, rc (f sc) = rc sc) -> keeps_ok f h x.
Proof. intros Hf sc _. by rewrite Hf. Qed.

Lemma heap_ok_alter f s h : heap_ok h -> keeps_ok f h s -> heap_ok (alter f s h).
Proof.
  intros Hok Hf x xc. rewrite lookup_alter. case_decide; [subst x|apply Hok].
  destruct (h !! s) as [sc|] eqn:Hs; [|done]. intros [= <-]. apply Hf; [done | exact (Hok s sc Hs)].
Qed.

Lemma heap_ok_alter_all f ts h :
  NoDup ts -> heap_ok h -> (forall x, x ∈ ts -> keeps_ok f h x) -> heap_ok (alter_all f ts h).
Proof.
  intros Hnd Hok Hf x xc. rewrite alter_all_lookup by done. case_decide; [|apply Hok].
  destruct (h !! x) as [sc|] eqn:Hs; [|done]. intros [= <-].
  apply (Hf x); [done..|exact (Hok x sc Hs)].
Qed.

Lemma rc_ok_charge d sc :
  demand_ok d -> accepts d sc = true -> rc_ok (rc sc) -> rc_ok (rc (charge d sc)).
Proof.
  intros Hd [_ [rc' Hrc]]%accepts_true Hok. unfold charge, map_rc. simpl.
  pose proof (reserve_spec (rc sc) d Hok Hd) as H. rewrite Hrc in *. apply H.
Qed.

Lemma rc_ok_unload d sc : demand_ok d -> rc_ok (rc sc) -> rc_ok (rc (unload d sc)).
Proof. intros. unfold unload. destruct (done sc); [done|]. by apply release_ok. Qed.

Lemma rc_ok_zero lim : lim_ok lim -> rc_ok (mkResources lim 0 0 0 0 0 0).
Proof.
  intros Hl. constructor; [done | apply in_range_all; simpl; unfold MaxInt64; lia |].
  pose proof (lo_mem _ Hl). pose proof (lo_strT _ Hl). pose proof (lo_connT _ Hl).
  pose proof (lo_fd _ Hl). constructor; simpl; try apply Hl; lia.
Qed.

Lemma stat_demand_ok (r : resources L) : rc_ok r -> demand_ok (DStat (stat r)).
Proof.
  intros [Hl Hr Hw] c. pose proof (proj1 (in_range_all r) Hr). destruct Hw.
  pose proof (lo_str _ Hl DirInbound). pose proof (lo_str _ Hl DirOutbound).
  pose proof (lo_conn _ Hl DirInbound). pose proof (lo_conn _ Hl DirOutbound).
  pose proof (lo_fd _ Hl). destruct c; simpl; lia.
Qed.

Lemma heap_inv_same_shape h h' :
  same_shape h h' -> heap_ok h' -> heap_inv h -> heap_inv h'.
Proof. intros Hsh Hok [Hwf _]. constructor; [by rewrite <- Hsh | done]. Qed.

Lemma inv_charge_all d ts h :
  heap_inv h -> demand_ok d -> NoDup ts -> forallb (accepts_at d h) ts = true ->
  heap_inv (alter_all (charge d) ts h).
Proof.
  intros Hinv Hd Hnd Hacc. eapply heap_inv_same_shape; [by apply same_shape_alter_all | | done].
  apply heap_ok_alter_all; [done | apply Hinv |]. intros x Hx sc Hs Hok.
  destruct (forallb_accepts d h ts x Hacc Hx) as (sc' & Hs' & Ha). simplify_eq.
  by apply rc_ok_charge.
Qed.

Lemma inv_unload_all d ts h :
  heap_inv h -> demand_ok d -> NoDup ts -> heap_inv (alter_all (unload d) ts h).
Proof.
  intros Hinv Hd Hnd.
  eapply heap_inv_same_shape; [apply same_shape_alter_all, shape_unload | | done].
  apply heap_ok_alter_all; [done | apply Hinv |]. intros x Hx sc Hs Hok. by apply rc_ok_unload.
Qed.

Lemma inv_detach_all st ts h :
  heap_inv h -> demand_ok (DStat st) -> NoDup ts -> heap_inv (alter_all (detach st) ts h).
Proof.
  intros Hinv Hd Hnd.
  eapply heap_inv_same_shape; [apply same_shape_alter_all, shape_detach | | done].
  apply heap_ok_alter_all; [done | apply Hinv |]. intros x Hx sc Hs Hok.
  unfold detach. simpl. by apply rc_ok_unload.
Qed.

Lemma inv_alter f s h :
  heap_inv h -> (forall sc, owner (f sc) = owner sc /\ edges (f sc) = edges sc) ->
  keeps_ok f h s -> heap_inv (alter f s h).
Proof.
  intros [[Ho He Hn] Hok] Hf Hk. constructor; [|by apply heap_ok_alter].
  assert (forall x xc', alter f s h !! x = Some xc' ->
            exists xc, h !! x = Some xc /\ owner xc = owner xc' /\ edges xc = edges xc') as Hback.
  { intros x xc'. rewrite lookup_alter. case_decide; [subst x|eauto].
    destruct (h !! s) as [sc|]; [|done]. intros [= <-]. destruct (Hf sc). eauto. }
  assert (forall x xc, h !! x = Some xc ->
            exists xc', alter f s h !! x = Some xc' /\ owner xc' = owner xc) as Hfwd.
  { intros x xc Hx. rewrite lookup_alter. case_decide; [subst x|eauto].
    rewrite Hx. simpl. destruct (Hf xc). eauto. }
  constructor.
  - intros x xc' o (xc & Hx & Ho' & He')%Hback Hown.
    destruct (Ho x xc o Hx) as (? & [oc Hoc] & ?); [congruence|].
    destruct (Hfwd o oc Hoc) as (? & ? & _). split_and!; [done | by eexists | congruence].
  - intros x xc' e (xc & Hx & Ho' & He')%Hback Hin. rewrite <- He' in Hin.
    destruct (He x xc e Hx Hin) as (? & ec & Hec & ?).
    destruct (Hfwd e ec Hec) as (ec' & ? & ?). split; [done|]. exists ec'. split; [done|congruence].
  - intros x xc' (xc & Hx & _ & <-)%Hback. eauto.
Qed.

Lemma inv_insert_fresh h lim ow es nm :
  heap_inv h -> lim_ok lim ->
  (forall o, ow = Some o -> is_Some (h !! o) /\ es = []) -> edges_valid h es ->
  heap_inv (<[fresh_addr h := new_scope lim ow es nm]> h).
Proof.
  intros [[Ho He Hn] Hok] Hl How [Hnd Hes].
  pose proof (fresh_addr_None h) as Hf.
  assert (forall x xc, h !! x = Some xc -> x <> fresh_addr h) as Hne by (intros ? ? ? ->; congruence).
  constructor.
  - constructor.
    + intros s sc o [[<- <-]|[Hs' Hs]]%lookup_insert_Some Hown; simpl in *.
      * destruct (How o Hown) as [[oc Hoc] ->]. split_and!; [by eapply fresh_addr_gt | | done].
        rewrite lookup_insert_ne by (symmetry; eauto). by eexists.
      * destruct (Ho s sc o Hs Hown) as (? & [oc Hoc] & ?). split_and!; [done| |done].
        rewrite lookup_insert_ne by (symmetry; eauto). by eexists.
    + intros s sc e [[<- <-]|[Hs' Hs]]%lookup_insert_Some Hin; simpl in *.
      * destruct (Hes e Hin) as (ec & Hec & ?). split; [eauto|]. exists ec.
        by rewrite lookup_insert_ne by (symmetry; eauto).
      * destruct (He s sc e Hs Hin) as (? & ec & Hec & ?). split; [done|]. exists ec.
        by rewrite lookup_insert_ne by (symmetry; eauto).
    + intros s sc [[<- <-]|[Hs' Hs]]%lookup_insert_Some; simpl; eauto.
  - apply map_Forall_insert_2; [by apply rc_ok_zero | done].
Qed.

Lemma heap_inv_ranged h ts :
  heap_inv h -> Forall (fun x => is_Some (h !! x)) ts -> Forall (ranged h) ts.
Proof.
  intros Hinv Hts. eapply Forall_impl; [exact Hts|]. intros x [sc Hs]. exists sc.
  split; [done|]. apply ro_range. exact (hi_ok h Hinv x sc Hs).
Qed.

Lemma inv_done s h sc : heap_inv h -> h !! s = Some sc -> heap_inv (done_heap h s sc).
Proof.
  intros Hinv Hs. unfold done_heap. destruct (done sc); [done|].
  pose proof (stat_demand_ok (rc sc) (hi_ok h Hinv s sc Hs)) as Hst.
  apply inv_alter; [|done|].
  - destruct (owner sc) as [o|].
    + apply inv_alter; [|done|by apply keeps_ok_id]. apply inv_unload_all; [done..|apply rtargets_NoDup, Hinv].
    + apply inv_detach_all; [done..|by eapply hw_nodup; [apply Hinv|]].
  - intros x _ Hok. simpl. apply rc_ok_zero. by apply ro_lim.
Qed.

Lemma inv_rewire s es h sc :
  heap_inv h -> h !! s = Some sc -> owner sc = None -> edges_valid h es -> s ∉ es ->
  heap_inv (alter (set_edges es) s h).
Proof.
  intros [[Ho He Hn] Hok] Hs Hown [Hnd Hes] Hse.
  constructor; [|apply heap_ok_alter; [done|by apply keeps_ok_id]].
  constructor.
  - intros x xc o. rewrite lookup_alter. case_decide; [subst x; rewrite Hs|].
    + intros [= <-]. simpl. congruence.
    + intros Hx Hox. destruct (Ho x xc o Hx Hox) as (? & ? & ?).
      split_and!; [done| by apply alter_is_some |done].
  - intros x xc e. rewrite lookup_alter. case_decide; [subst x; rewrite Hs|].
    + intros [= <-] Hin. simpl in Hin. split; [by intros ->|]. destruct (Hes e Hin) as (ec & ? & ?).
      exists ec. rewrite lookup_alter_ne; [done|by intros ->].
    + intros Hx Hin. destruct (He x xc e Hx Hin) as (? & ec & ? & ?). split; [done|].
      rewrite lookup_alter. case_decide; [subst e; simplify_eq; rewrite Hs; simpl; eauto | eauto].
  - intros x xc. rewrite lookup_alter. case_decide; [subst x; rewrite Hs|apply Hn].
    by intros [= <-].
Qed.

Theorem step_preserves_inv h h' : step h h' -> heap_inv h -> heap_inv h'.
Proof.
  intros Hstep Hinv. pose proof (hi_wf h Hinv) as Hwf.
  destruct Hstep as [h h' s d err Hs Hd Heq|h h' s d Hs Hd Heq|h h' s d err [sc Hs] Hd Heq
    |h h' s d Hs Hd Heq|h h' lim es nm s Hl He Heq|h h' s r [sc Hs] Heq|h h' s [sc Hs] Heq
    |h h' s Heq|h h' s Heq|h s sc es Hs Ho He Hse].
  - destruct (scope_reserve_spec d (S s) s h) as (err' & Heq' & _);
      [lia | done | done | by apply targets_ranged; [|apply heap_ok_in_range, Hinv] |].
    rewrite Heq in Heq'. injection Heq' as -> ->. case_bool; [|done].
    apply inv_charge_all; [done..|exact (targets_NoDup (S s) h s Hwf)|done].
  - rewrite scope_release_spec in Heq by (done || lia). injection Heq as <-.
    apply inv_unload_all; [done..|exact (rtargets_NoDup (S s) h s Hwf)].
  - destruct (child_reserve_spec d s h sc Hs) as (err' & Heq' & _);
      [apply ro_range, (hi_ok h Hinv s sc Hs)|].
    rewrite Heq in Heq'. injection Heq' as -> ->. case_bool; [|done].
    apply (inv_charge_all d [s]); [done..|apply NoDup_singleton|].
    simpl. unfold accepts_at. by rewrite Hs, Hb.
  - rewrite child_release_spec in Heq by done. injection Heq as <-.
    apply (inv_unload_all d [s]); [done..|apply NoDup_singleton].
  - rewrite newResourceScope_spec in Heq. injection Heq as <- <-.
    assert (same_shape h (alter_all (add_refCnt 1) es h)) as Hsh by by apply same_shape_alter_all.
    apply inv_insert_fresh; [|done|done|].
    + eapply heap_inv_same_shape; [exact Hsh| |done].
      apply heap_ok_alter_all; [apply He|apply Hinv|]. intros x _. by apply keeps_ok_id.
    + destruct He as [Hnd He]. split; [done|]. intros e Hin. destruct (He e Hin) as (ec & Hec & ?).
      symmetry in Hsh. destruct (same_shape_lookup _ _ e ec Hsh Hec) as (ec' & ? & ? & _).
      exists ec'. split; [done|congruence].
  - rewrite (BeginSpan_spec s h sc Hs) in Heq. destruct (done sc); [by injection Heq as <- <-|].
    injection Heq as <- <-. apply inv_insert_fresh.
    + by apply inv_alter; [..|apply keeps_ok_id].
    + apply ro_lim. exact (hi_ok h Hinv s sc Hs).
    + intros o [= <-]. split; [by apply alter_is_some; eexists|done].
    + split; [constructor|]. by intros e ?%elem_of_nil.
  - rewrite (Done_spec s h sc) in Heq by done. injection Heq as <-. by apply inv_done.
  - injection Heq as <-. by apply inv_alter; [..|apply keeps_ok_id].
  - injection Heq as <-. by apply inv_alter; [..|apply keeps_ok_id].
  - by eapply inv_rewire.
Qed.

Lemma empty_inv : heap_inv ∅.
Proof.
  split; [split|]; [intros ???|intros ???|intros ??|apply map_Forall_empty]; by rewrite lookup_empty.
Qed.

Lemma reachable_inv h h' : rtc step h h' -> heap_inv h -> heap_inv h'.
Proof. induction 1; eauto using step_preserves_inv. Qed.

(** in every heap reachable through the public methods, every scope stays
    within its limits: memory, streams and connections per direction and in
    total, and file descriptors, are non-negative and at most the configured
    maximum. *)
Theorem reachable_within_limits h s sc :
  rtc step ∅ h -> h !! s = Some sc -> within (rc sc) /\ (forall c, 0 <= usage c (rc sc)).
Proof.
  intros Hreach Hs.
  destruct (reachable_inv ∅ h Hreach empty_inv) as [_ Hok].
  split; [apply (Hok s sc Hs)|]. intros c. apply (ro_range _ (Hok s sc Hs)).
Qed.

(** ** Contracts of the methods *)

Definition usage_at c h (x : nat) : Z :=
  match h !! x with Some sc => usage c (rc sc) | None => 0 end.

Lemma accepts_fits d sc :
  rc_ok (rc sc) -> demand_ok d -> accepts d sc = true <-> done sc = false /\ fits d (rc sc).
Proof.
  intros Hok Hd. pose proof (reserve_spec (rc sc) d Hok Hd) as H. unfold accepts, reserve_outcome in *.
  destruct (done sc), (reserve d (rc sc)) as [rc' [e|]]; simpl; intuition congruence.
Qed.

Lemma forallb_accepts_fits d h ts :
  heap_inv h -> demand_ok d ->
  forallb (accepts_at d h) ts = true <->
  forall x, x ∈ ts -> exists sc, h !! x = Some sc /\ done sc = false /\ fits d (rc sc).
Proof.
  intros Hinv Hd. rewrite forallb_forall. split.
  - intros H x Hx%list_elem_of_In. specialize (H x Hx). unfold accepts_at in H.
    destruct (h !! x) as [sc|] eqn:Hs; [|done].
    apply accepts_fits in H; [eauto | exact (hi_ok h Hinv x sc Hs) | done].
  - intros H x Hx%list_elem_of_In. destruct (H x Hx) as (sc & Hs & Hl & Hf). unfold accepts_at.
    rewrite Hs. apply accepts_fits; [exact (hi_ok h Hinv x sc Hs) | done..].
Qed.

Lemma usage_charge d sc c :
  rc_ok (rc sc) -> demand_ok d -> accepts d sc = true ->
  usage c (rc (charge d sc)) = usage c (rc sc) + amount d c.
Proof.
  intros Hok Hd [_ [rc' Hrc]]%accepts_true. unfold charge, map_rc. simpl.
  pose proof (reserve_spec (rc sc) d Hok Hd) as H. rewrite Hrc in *. apply H.
Qed.

Lemma usage_unload d sc c :
  rc_ok (rc sc) -> demand_ok d -> done sc = false ->
  usage c (rc (unload d sc)) = Z.max 0 (usage c (rc sc) - amount d c).
Proof.
  intros Hok Hd Hl. unfold unload. rewrite Hl. simpl.
  apply release_usage; [by apply ro_range|done].
Qed.

Lemma usage_at_charge_all d ts h x c :
  heap_inv h -> demand_ok d -> NoDup ts -> forallb (accepts_at d h) ts = true ->
  usage_at c (alter_all (charge d) ts h) x =
  usage_at c h x + (if decide (x ∈ ts) then amount d c else 0).
Proof.
  intros Hinv Hd Hnd Hacc. unfold usage_at. rewrite alter_all_lookup by done.
  case_decide as Hx; [|lia].
  destruct (forallb_accepts d h ts x Hacc Hx) as (sc & Hs & Ha). rewrite Hs. simpl.
  apply usage_charge; [exact (hi_ok h Hinv x sc Hs) | done..].
Qed.

(** C38: a reservation ([ReserveMemory], [AddStream], [AddConn]) always returns,
    is all-or-nothing and is granted exactly when it should be.  It succeeds
    precisely when the scope, all its owners and the ancestors of the outermost
    owner are open and have room; then every one of them, and no other scope, is
    charged the requested amounts.  When it fails the heap is exactly the one
    before the call, whichever ancestor refused. *)
Theorem reservation_atomic h s d :
  heap_inv h -> is_Some (h !! s) -> demand_ok d ->
  exists err h',
    scope_reserve (S s) d s h = Some (err, h') /\
    (err = None <-> forall x, x ∈ targets (S s) h s ->
       exists sc, h !! x = Some sc /\ done sc = false /\ fits d (rc sc)) /\
    (err <> None -> h' = h) /\
    (err = None -> forall x c, usage_at c h' x =
       usage_at c h x + (if decide (x ∈ targets (S s) h s) then amount d c else 0)).
Proof.
  intros Hinv Hs Hd. pose proof (hi_wf h Hinv) as Hwf.
  destruct (scope_reserve_spec d (S s) s h) as (err & Heq & Herr);
    [lia | done | done | by apply targets_ranged; [|apply heap_ok_in_range, Hinv] |].
  eexists err, _. split; [exact Heq|]. rewrite <- (forallb_accepts_fits d h) by done.
  split; [exact Herr|]. split.
  - intros Hne. case_bool; [|done]. by destruct Hne; apply Herr.
  - intros He x c. rewrite (proj1 Herr He).
    apply usage_at_charge_all; [done..|exact (targets_NoDup (S s) h s Hwf)|by apply Herr].
Qed.

(** releasing what was just reserved is the identity: after a successful
    reservation, the matching release ([ReleaseMemory], [RemoveStream],
    [RemoveConn]) on the same scope restores the heap. *)
Theorem release_undoes_reservation h s d h' :
  heap_inv h -> is_Some (h !! s) ->
  scope_reserve (S s) d s h = Some (None, h') ->
  scope_release (S s) d s h' = Some (tt, h).
Proof.
  intros Hinv Hs Heq. pose proof (hi_wf h Hinv) as Hwf.
  assert (Forall (ranged h) (targets (S s) h s)) as Hr
    by (apply targets_ranged; [done | by apply heap_ok_in_range, Hinv]).
  destruct (scope_reserve_spec d (S s) s h) as (err & Heq' & Herr); [lia|done..|].
  remember (targets (S s) h s) as ts eqn:Hts. assert (NoDup ts) as Hnd by (subst ts; by apply targets_NoDup).
  rewrite Heq in Heq'. injection Heq' as <- Hh'. pose proof (proj1 Herr eq_refl) as Hacc.
  rewrite Hacc in Hh'. subst h'.
  assert (same_shape h (alter_all (charge d) ts h)) as Hsh by by apply same_shape_alter_all.
  rewrite scope_release_spec; [|lia|by rewrite <- Hsh|].
  - rewrite <- (rtargets_shape (S s) h _ s Hsh).
    rewrite (rtargets_live (S s) h s), <- Hts; [by rewrite rollback_exact|].
    intros x xc Hx Hxc. rewrite <- Hts in Hx. destruct (forallb_accepts d h ts x Hacc Hx) as (xc' & ? & Ha).
    simplify_eq. by apply accepts_true in Ha as [? _].
  - rewrite alter_all_lookup by done. case_decide; [by apply fmap_is_Some|done].
Qed.

(** [Done] always returns, empties and closes the scope, is idempotent, and
    gives the recorded usage back: for a DAG scope every open ancestor in [edges]
    loses exactly what the scope used (never going below zero) and one
    reference; no other scope changes. *)
Theorem Done_releases h s sc :
  heap_inv h -> h !! s = Some sc -> done sc = false -> owner sc = None ->
  exists h' sc',
    Done s h = Some (tt, h') /\ Done s h' = Some (tt, h') /\
    h' !! s = Some sc' /\ done sc' = true /\ (forall c, usage c (rc sc') = 0) /\
    (forall e ec, e ∈ edges sc -> h !! e = Some ec -> exists ec',
       h' !! e = Some ec' /\ refCnt ec' = refCnt ec - 1 /\
       (done ec = false -> forall c,
          usage c (rc ec') = Z.max 0 (usage c (rc ec) - usage c (rc sc)))) /\
    (forall x, x <> s -> x ∉ edges sc -> h' !! x = h !! x).
Proof.
  intros Hinv Hs Hl Hown. pose proof (hi_wf h Hinv) as Hwf.
  pose proof (hw_nodup h Hwf s sc Hs) as Hnd.
  pose proof (stat_demand_ok (rc sc) (hi_ok h Hinv s sc Hs)) as Hst.
  assert (s ∉ edges sc) as Hse by (intros Hin; by destruct (hw_edges h Hwf s sc s Hs Hin)).
  set (h' := alter mark_done s (alter_all (detach (stat (rc sc))) (edges sc) h)).
  assert (h' !! s = Some (mark_done sc)) as Hs'.
  { unfold h'. by rewrite lookup_alter_eq, alter_all_ne, Hs. }
  exists h', (mark_done sc). split_and!.
  - rewrite (Done_spec s h sc) by done. unfold done_heap. by rewrite Hl, Hown.
  - unfold Done, bind, get_scope. by rewrite Hs'.
  - done.
  - done.
  - by intros [].
  - intros e ec He Hec. exists (detach (stat (rc sc)) ec).
    assert (s <> e) by (by intros ->).
    split_and!.
    + unfold h'. by rewrite lookup_alter_ne, alter_all_in, Hec.
    + unfold detach, unload. destruct (done ec); simpl; lia.
    + intros Hle c. unfold detach. simpl rc.
      rewrite usage_unload; [|exact (hi_ok h Hinv e ec Hec)|done|done]. by destruct c.
  - intros x Hx Hxe. unfold h'. by rewrite lookup_alter_ne, alter_all_ne.
Qed.
End inv.

(** ** A concrete heap: a system scope, a transient scope below it and a
    connection scope below both, as [NewResourceManager] and [openConnection]
    build them. *)
Module Demo.
Definition lim : BaseLimit := BaseLimit.mk 4 2 2 4 2 2 2 4096.

Definition prog : M BaseLimit nat :=
  let* sys := newResourceScope lim [] "system" in
  let* tr := newResourceScope lim [sys] "transient" in
  newResourceScope lim [tr; sys] "conn-1".

Definition h : heap BaseLimit := match prog ∅ with Some (_, h) => h | None => ∅ end.

Lemma lim_is_ok : lim_ok lim.
Proof.
  constructor; try match goal with |- forall dir : Direction, _ => intros [] end;
    apply (bool_decide_unpack _); vm_compute; exact I.
Qed.

Ltac valid_edges :=
  split; [apply (bool_decide_unpack _); vm_compute; exact I|];
  intros e; rewrite ?elem_of_cons, elem_of_nil; intros He;
  repeat destruct He as [->|He]; try done; eexists; split; vm_compute; reflexivity.

Lemma reachable : rtc step ∅ h.
Proof.
  unfold h, prog, bind. rewrite !newResourceScope_spec.
  eapply rtc_l; [eapply (step_new _ _ lim []); [exact lim_is_ok| |reflexivity]; valid_edges|].
  eapply rtc_l; [eapply (step_new _ _ lim [O]); [exact lim_is_ok| |reflexivity]; valid_edges|].
  eapply rtc_l; [eapply (step_new _ _ lim [1; 0]%nat); [exact lim_is_ok| |reflexivity]; valid_edges|].
  apply rtc_refl.
Qed.

Lemma inv : heap_inv h.
Proof. exact (reachable_inv ∅ h reachable empty_inv). Qed.
End Demo.

Lemma reachable_within_limits_witness :
  exists sc, Demo.h !! 2%nat = Some sc /\ within (rc sc) /\ (forall c, 0 <= usage c (rc sc)).
Proof.
  eexists. split; [vm_compute; reflexivity|].
  apply (reachable_within_limits Demo.h 2 _ Demo.reachable). vm_compute. reflexivity.
Defined.

(** A connection is granted and charged to the system scope too; more memory than the limit
    is refused and changes nothing. *)
Lemma reservation_atomic_witness :
  (exists h', AddConn 2 DirInbound true Demo.h = Some (None, h') /\
     usage_at CConnsIn h' 0 = usage_at CConnsIn Demo.h 0 + 1) /\
  (exists err h', ReserveMemory 2 5000 255 Demo.h = Some (Some err, h') /\ h' = Demo.h).
Proof.
  split.
  - destruct (reservation_atomic Demo.h 2 (DConn DirInbound true)) as (err & h' & H & _ & _ & H').
    + exact Demo.inv.
    + vm_compute. eexists. reflexivity.
    + exact I.
    + assert (err = None) as ->.
      { apply (f_equal (option_map fst)) in H. vm_compute in H. injection H as <-. reflexivity. }
      exists h'. split; [exact H|]. exact (H' eq_refl O CConnsIn).
  - destruct (reservation_atomic Demo.h 2 (DMemory 5000 255)) as (err & h' & H & _ & H' & _).
    + exact Demo.inv.
    + vm_compute. eexists. reflexivity.
    + split; vm_compute; split; discriminate || reflexivity.
    + destruct err as [err|]; [exists err, h'; exact (conj H (H' ltac:(discriminate)))|].
      apply (f_equal (option_map fst)) in H. vm_compute in H. discriminate.
Defined.

Lemma release_undoes_reservation_witness :
  exists h', ReserveMemory 2 16 0 Demo.h = Some (None, h') /\
             ReleaseMemory 2 16 h' = Some (tt, Demo.h).
Proof.
  eexists. split; [vm_compute; reflexivity|].
  apply (release_undoes_reservation Demo.h 2 (DMemory 16 0)).
  - exact Demo.inv.
  - vm_compute. eexists. reflexivity.
  - vm_compute. reflexivity.
Defined.

Lemma Done_releases_witness :
  exists h' sc', Done 2 Demo.h = Some (tt, h') /\ h' !! 2%nat = Some sc' /\ done sc' = true.
Proof.
  edestruct (Done_releases Demo.h 2) as (h' & sc' & H1 & _ & H2 & H3 & _);
    [exact Demo.inv | vm_compute; reflexivity | reflexivity | reflexivity |].
  exists h', sc'. exact (conj H1 (conj H2 H3)).
Defined.
