(* ===== verification/ScopeAccount.v ===== *)
(** * Accounting of resource scopes

    Conservation: the usage of an open DAG scope is what was reserved on it
    directly plus what was reserved on the open scopes below it, the usage of
    the open spans of a scope is covered by that scope, and the reference count
    of a scope is the number of its open dependants plus the references held
    outside the heap.  [own] and [ext] are ghost state: the direct reservations
    per scope and the external references. *)

From stdpp Require Import base gmap list strings fin_maps relations.
From Stdlib Require Import ZArith Lia.
From S2P Require Import Prelude Limits Resources Scope ScopeFacts ScopeInv.

Section account.
Context {L : Type} `{!Limit L}.
Implicit Types (h : heap L) (sc : resourceScope L) (d : demand) (s e o t : nat) (c : counter).
Implicit Types (own : nat -> counter -> Z) (ext : nat -> Z).

(** [sc] is an open DAG scope with [e] among its ancestors. *)
Definition child_of e sc : bool :=
  negb (done sc) && bool_decide (owner sc = None) && bool_decide (e ∈ edges sc).
(** [tc] is an open span of [s]. *)
Definition span_of s (tc : resourceScope L) : bool := negb (done tc) && bool_decide (owner tc = Some s).

Definition edge_sum own c h e : Z :=
  msum (fun s sc => if child_of e sc then own s c else 0) h.
Definition span_sum c h s : Z :=
  msum (fun _ tc => if span_of s tc then usage c (rc tc) else 0) h.
Definition ref_sum h e : Z :=
  msum (fun _ sc => if child_of e sc || span_of e sc then 1 else 0) h.

(** What the spans of [s] draw on. *)
Definition held own c s sc : Z :=
  match owner sc with None => own s c | Some _ => usage c (rc sc) end.

Record acct h own ext : Prop := {
  ac_own : forall s c, 0 <= own s c;
  ac_fresh : forall s, h !! s = None -> (forall c, own s c = 0) /\ ext s = 0;
  ac_usage : forall e ec c, h !! e = Some ec -> done ec = false -> owner ec = None ->
    usage c (rc ec) = own e c + edge_sum own c h e;
  ac_spans : forall s sc c, h !! s = Some sc -> done sc = false ->
    span_sum c h s <= held own c s sc;
  ac_ext : forall e, 0 <= ext e;
  ac_refs : forall e ec, h !! e = Some ec -> refCnt ec = ext e + ref_sum h e;
}.

(** *** Sums under updates *)

Lemma msum_alter_id f (F : resourceScope L -> resourceScope L) s h :
  (forall sc, h !! s = Some sc -> f s (F sc) = f s sc) -> msum f (alter F s h) = msum f h.
Proof.
  intros Hf. destruct (h !! s) as [sc|] eqn:Hs.
  - rewrite (msum_alter f h s sc F Hs), Hf by done. lia.
  - f_equal. apply map_eq. intros x. rewrite lookup_alter. case_decide; [subst; by rewrite Hs|done].
Qed.

Lemma msum_alter_all_id f (F : resourceScope L -> resourceScope L) ts h :
  NoDup ts -> (forall k sc, k ∈ ts -> h !! k = Some sc -> f k (F sc) = f k sc) ->
  msum f (alter_all F ts h) = msum f h.
Proof.
  revert h. induction ts as [|x ts IH]; intros h Hnd Hf; [done|].
  apply NoDup_cons in Hnd as [Hx Hnd]. simpl. rewrite IH; [|done|].
  - apply msum_alter_id. intros sc Hs. apply Hf; [by left|done].
  - intros k sc Hk. rewrite lookup_alter_ne by (by intros ->). intros Hs. apply Hf; [by right|done].
Qed.

(** Same closed flag, owner and edges: the membership tests do not see it. *)
Lemma child_of_shape e sc sc' : shape sc' = shape sc -> child_of e sc' = child_of e sc.
Proof. unfold shape, child_of. by intros [= -> -> ->]. Qed.
Lemma span_of_shape s sc sc' : shape sc' = shape sc -> span_of s sc' = span_of s sc.
Proof. unfold shape, span_of. by intros [= -> -> _]. Qed.

Lemma edge_sum_alter_all own c F ts h e :
  (forall sc, shape (F sc) = shape sc) -> NoDup ts ->
  edge_sum own c (alter_all F ts h) e = edge_sum own c h e.
Proof.
  intros HF Hnd. apply msum_alter_all_id; [done|]. intros k sc _ _. by rewrite (child_of_shape e sc).
Qed.

Lemma ref_sum_alter_all F ts h e :
  (forall sc, shape (F sc) = shape sc) -> NoDup ts ->
  ref_sum (alter_all F ts h) e = ref_sum h e.
Proof.
  intros HF Hnd. apply msum_alter_all_id; [done|]. intros k sc _ _.
  by rewrite (child_of_shape e sc), (span_of_shape e sc).
Qed.

Lemma span_sum_alter_all c F ts h s :
  (forall sc, shape (F sc) = shape sc) -> NoDup ts ->
  (forall k sc, k ∈ ts -> h !! k = Some sc -> owner sc = None) ->
  span_sum c (alter_all F ts h) s = span_sum c h s.
Proof.
  intros HF Hnd Hdag. apply msum_alter_all_id; [done|]. intros k sc Hk Hs.
  rewrite (span_of_shape s sc) by done. unfold span_of. rewrite (Hdag k sc) by done.
  by rewrite bool_decide_eq_false_2, andb_false_r by done.
Qed.

Definition add_own own s (delta : counter -> Z) : nat -> counter -> Z :=
  fun x c => own x c + (if decide (x = s) then delta c else 0).

Lemma edge_sum_add_own own s delta c h e sc :
  h !! s = Some sc ->
  edge_sum (add_own own s delta) c h e = edge_sum own c h e + (if child_of e sc then delta c else 0).
Proof.
  intros Hs. unfold edge_sum.
  rewrite (msum_change (fun s sc => if child_of e sc then own s c else 0) _ h s sc Hs).
  - unfold add_own. rewrite decide_True by done. destruct (child_of e sc); lia.
  - intros j w Hj _. unfold add_own. rewrite decide_False by done. destruct (child_of e w); lia.
Qed.

(** Updates of the counters only, [F], that shift the open scopes of [ts] by
    [delta]. *)
Record shifts (F : resourceScope L -> resourceScope L) (delta : counter -> Z) (ts : list nat) h
    : Prop := {
  sh_shape : forall sc, shape (F sc) = shape sc;
  sh_ref : forall sc, refCnt (F sc) = refCnt sc;
  sh_usage : forall x sc c, x ∈ ts -> h !! x = Some sc -> done sc = false ->
    usage c (rc (F sc)) = usage c (rc sc) + delta c;
}.

Lemma shape_done sc sc' : shape sc' = shape sc -> done sc' = done sc.
Proof. by intros [= ? ? ?]. Qed.
Lemma shape_owner sc sc' : shape sc' = shape sc -> owner sc' = owner sc.
Proof. by intros [= ? ? ?]. Qed.
Lemma shape_edges sc sc' : shape sc' = shape sc -> edges sc' = edges sc.
Proof. by intros [= ? ? ?]. Qed.

(** Shifting an open DAG scope and all its ancestors by the same amounts moves
    its direct reservations by that amount. *)
Lemma acct_shift_dag h own ext F delta s sc :
  heap_wf h -> acct h own ext -> h !! s = Some sc -> done sc = false -> owner sc = None ->
  shifts F delta (s :: edges sc) h ->
  (forall c, 0 <= own s c + delta c) ->
  (forall c, span_sum c h s <= own s c + delta c) ->
  acct (alter_all F (s :: edges sc) h) (add_own own s delta) ext.
Proof.
  intros Hwf Ha Hs Hl Hown [Hsh Href Hus] Hpos Hsp. destruct Ha as [A1 A2 A3 A4 A5 A6].
  assert (s ∉ edges sc) as Hse by (intros Hin; by destruct (hw_edges h Hwf s sc s Hs Hin)).
  assert (NoDup (s :: edges sc)) as Hnd.
  { apply NoDup_cons. split; [done|by eapply hw_nodup]. }
  assert (forall k kc, k ∈ s :: edges sc -> h !! k = Some kc -> owner kc = None) as Hdag.
  { intros k kc [->|Hk]%elem_of_cons Hkc; [congruence|].
    destruct (hw_edges h Hwf s sc k Hs Hk) as (_ & kc' & ? & ?). congruence. }
  set (ts := s :: edges sc) in *.
  assert (forall x xc', alter_all F ts h !! x = Some xc' -> exists xc, h !! x = Some xc /\
            shape xc' = shape xc /\ refCnt xc' = refCnt xc /\
            ((x ∈ ts) /\ xc' = F xc \/ (x ∉ ts) /\ xc' = xc)) as Hback.
  { intros x xc'. rewrite alter_all_lookup by done. case_decide as Hx.
    - destruct (h !! x) as [xc|]; [|done]. intros [= <-]. exists xc. auto 10.
    - intros Hx'. exists xc'. auto 10. }
  constructor.
  - intros x c. unfold add_own. case_decide; [subst; apply Hpos|]. specialize (A1 x c). lia.
  - intros x Hx. rewrite alter_all_lookup in Hx by done.
    assert (h !! x = None) as Hx' by (case_decide; [by eapply fmap_None|done]).
    destruct (A2 x Hx') as [Ho He]. split; [|done]. intros c. unfold add_own.
    rewrite decide_False by congruence. rewrite Ho. lia.
  - intros e ec' c (ec & Hec & Hshe & _ & Hin)%Hback Hle Howe.
    rewrite (shape_done _ _ Hshe) in Hle. rewrite (shape_owner _ _ Hshe) in Howe.
    rewrite edge_sum_alter_all by done. rewrite (edge_sum_add_own own s delta c h e sc Hs).
    pose proof (A3 e ec c Hec Hle Howe) as Hu.
    assert (child_of e sc = bool_decide (e ∈ edges sc)) as ->.
    { unfold child_of. by rewrite Hl, Hown, bool_decide_eq_true_2. }
    unfold add_own.
    destruct Hin as [[Hin ->]|[Hin ->]].
    + rewrite (Hus e ec c Hin Hec Hle). apply elem_of_cons in Hin as [->|Hin].
      * rewrite decide_True, bool_decide_eq_false_2 by done. lia.
      * rewrite decide_False, bool_decide_eq_true_2 by (done || by intros ->). lia.
    + apply not_elem_of_cons in Hin as [Hne Hin].
      rewrite decide_False, bool_decide_eq_false_2 by done. lia.
  - intros x xc' c (xc & Hxc & Hshx & _ & Hin)%Hback Hlx.
    rewrite (shape_done _ _ Hshx) in Hlx.
    rewrite span_sum_alter_all by done. pose proof (A4 x xc c Hxc Hlx) as Hx.
    unfold held in *. rewrite (shape_owner _ _ Hshx).
    destruct (owner xc) as [ox|] eqn:Hox.
    + destruct Hin as [[Hin ->]|[_ ->]]; [|done]. rewrite (Hdag x xc Hin Hxc) in Hox. done.
    + unfold add_own. case_decide; [subst; apply Hsp|lia].
  - done.
  - intros e ec' (ec & Hec & _ & -> & _)%Hback. rewrite ref_sum_alter_all by done. auto.
Qed.

Lemma span_sum_alter c F t h tc s :
  h !! t = Some tc -> shape (F tc) = shape tc ->
  span_sum c (alter F t h) s =
  span_sum c h s + (if span_of s tc then usage c (rc (F tc)) - usage c (rc tc) else 0).
Proof.
  intros Ht Hsh. unfold span_sum. rewrite (msum_alter _ h t tc F Ht).
  rewrite (span_of_shape s tc (F tc)) by done. destruct (span_of s tc); lia.
Qed.

(** Shifting a span alone is covered by its owner's slack. *)
Lemma acct_shift_span h own ext F delta t tc o :
  heap_wf h -> acct h own ext -> h !! t = Some tc -> done tc = false -> owner tc = Some o ->
  shifts F delta [t] h ->
  (forall oc c, h !! o = Some oc -> done oc = false ->
     span_sum c h o + delta c <= held own c o oc) ->
  (forall c, span_sum c h t <= usage c (rc tc) + delta c) ->
  acct (alter F t h) own ext.
Proof.
  intros Hwf [A1 A2 A3 A4 A5 A6] Ht Hl Ho [Hsh Href Hus] Hslack Hself.
  destruct (hw_owner h Hwf t tc o Ht Ho) as (Hlt & _ & _).
  assert (forall x xc', alter F t h !! x = Some xc' -> exists xc, h !! x = Some xc /\
            shape xc' = shape xc /\ refCnt xc' = refCnt xc /\ (x = t \/ xc' = xc)) as Hback.
  { intros x xc'. rewrite lookup_alter. case_decide; [subst x; rewrite Ht|by eauto 10].
    intros [= <-]. exists tc. auto. }
  assert (forall own c e, edge_sum own c (alter F t h) e = edge_sum own c h e) as Hes.
  { intros own' c e. apply (edge_sum_alter_all own' c F [t]); [done|apply NoDup_singleton]. }
  assert (forall c x, span_sum c (alter F t h) x =
            span_sum c h x + (if decide (x = o) then delta c else 0)) as Hss.
  { intros c x. rewrite (span_sum_alter c F t h tc) by done.
    rewrite (Hus t tc c) by (done || by left). unfold span_of. rewrite Hl, Ho. simpl.
    case_decide; [subst; rewrite bool_decide_eq_true_2 by done; lia|].
    rewrite bool_decide_eq_false_2 by congruence. lia. }
  constructor.
  - done.
  - intros x Hx. apply A2. rewrite lookup_alter in Hx. case_decide; [subst; by rewrite Ht in Hx|done].
  - intros e ec' c Hec' Hle Howe. destruct (Hback e ec' Hec') as (ec & Hec & Hshe & _ & Hin).
    destruct Hin as [->| ->].
    + rewrite (shape_owner _ _ Hshe) in Howe. congruence.
    + rewrite Hes. auto.
  - intros x xc' c Hxc' Hlx. destruct (Hback x xc' Hxc') as (xc & Hxc & Hshx & _ & Hin).
    rewrite (shape_done _ _ Hshx) in Hlx. rewrite Hss.
    pose proof (A4 x xc c Hxc Hlx) as Hx. unfold held in *. rewrite (shape_owner _ _ Hshx).
    destruct (decide (x = t)) as [->|Hne].
    + rewrite decide_False by lia. rewrite Hxc in Ht. injection Ht as ->. rewrite Ho.
      rewrite lookup_alter_eq, Hxc in Hxc'. injection Hxc' as <-.
      rewrite (Hus t tc c) by (done || by left). specialize (Hself c). lia.
    + destruct Hin as [->| ->]; [done|]. case_decide; [subst x|lia].
      specialize (Hslack xc c Hxc Hlx). unfold held in Hslack. lia.
  - done.
  - intros e ec' Hec'. destruct (Hback e ec' Hec') as (ec & Hec & _ & -> & _).
    change (alter F t h) with (alter_all F [t] h). rewrite ref_sum_alter_all; [auto|done|apply NoDup_singleton].
Qed.

(** ** Reservation and release chains *)

Fixpoint root (fuel : nat) h s : nat :=
  match fuel with
  | O => s
  | S fuel =>
    match h !! s with
    | Some sc => match owner sc with Some o => root fuel h o | None => s end
    | None => s
    end
  end.

Lemma alter_all_comm {A} (f g : A -> A) t ts (h : gmap nat A) :
  t ∉ ts -> alter_all g ts (alter f t h) = alter f t (alter_all g ts h).
Proof.
  revert h. induction ts as [|x ts IH]; intros h Hx; [done|]. simpl.
  apply not_elem_of_cons in Hx as [Hne Hx]. rewrite (alter_alter_ne g f h x t) by done.
  by apply IH.
Qed.

Lemma span_sum_nonneg c h s : heap_ok h -> 0 <= span_sum c h s.
Proof.
  intros Hok. apply msum_nonneg. intros k kc Hk. destruct (span_of s kc); [|lia].
  apply (ro_range _ (Hok k kc Hk) c).
Qed.

Lemma shifts_charge d ts h :
  heap_inv h -> demand_ok d -> forallb (accepts_at d h) ts = true ->
  shifts (charge d) (amount d) ts h.
Proof.
  intros Hinv Hd Hacc. split; [done..|]. intros x sc c Hx Hs Hl.
  destruct (forallb_accepts d h ts x Hacc Hx) as (sc' & Hs' & Ha). simplify_eq.
  apply usage_charge; [exact (hi_ok h Hinv x sc Hs)|done..].
Qed.

Lemma acct_reserve_chain d fuel s h own ext :
  (s < fuel)%nat -> heap_inv h -> acct h own ext -> demand_ok d -> is_Some (h !! s) ->
  forallb (accepts_at d h) (targets fuel h s) = true ->
  let h' := alter_all (charge d) (targets fuel h s) h in
  let own' := add_own own (root fuel h s) (amount d) in
  acct h' own' ext /\
  (forall sc c, h' !! s = Some sc -> span_sum c h' s + amount d c <= held own' c s sc).
Proof.
  revert s. induction fuel as [|fuel IH]; intros s Hfuel Hinv Ha Hd [sc Hs]; [lia|].
  pose proof (hi_wf h Hinv) as Hwf. pose proof (targets_NoDup (S fuel) h s Hwf) as Hnd.
  cbn [targets root] in *. rewrite Hs in *. intros Hacc.
  pose proof (shifts_charge d _ h Hinv Hd Hacc) as Hsh.
  destruct (forallb_accepts d h _ s Hacc) as (sc' & Hs' & Hacs); [by left|].
  rewrite Hs in Hs'. injection Hs' as <-. pose proof (accepts_true _ _ Hacs) as [Hl _].
  assert (forall c, 0 <= amount d c) as Hpos by (intros c; by apply demand_amount_range).
  pose proof (hi_ok h Hinv s sc Hs) as Hok.
  destruct (owner sc) as [o|] eqn:Ho.
  - destruct (hw_owner h Hwf s sc o Hs Ho) as (Hlt & Hso & _).
    apply NoDup_cons in Hnd as [Hsts Hnd]. cbn [forallb] in Hacc.
    apply andb_prop in Hacc as [_ Hacc].
    destruct (IH o) as [Ha1 Hslack]; [lia|done..|]. cbv zeta in *.
    set (h1 := alter_all (charge d) (targets fuel h o) h) in *.
    set (own1 := add_own own (root fuel h o) (amount d)) in *.
    assert (same_shape h h1) as Hshape by by apply same_shape_alter_all.
    assert (h1 !! s = Some sc) as Hs1 by (unfold h1; by rewrite alter_all_ne).
    assert (alter_all (charge d) (s :: targets fuel h o) h = alter (charge d) s h1) as ->
      by (cbn [alter_all]; by apply alter_all_comm).
    assert (forall c, span_sum c h1 s <= usage c (rc sc)) as Hself.
    { intros c. pose proof (ac_spans _ _ _ Ha1 s sc c Hs1 Hl) as Hx. unfold held in Hx.
      by rewrite Ho in Hx. }
    split.
    + apply (acct_shift_span h1 own1 ext (charge d) (amount d) s sc o);
        [by rewrite <- Hshape|done..| | |].
      * split; [done..|]. intros x xc c ->%list_elem_of_singleton Hx _. simplify_eq.
        by apply usage_charge.
      * intros oc c Hoc _. by apply Hslack.
      * intros c. specialize (Hself c). specialize (Hpos c). lia.
    + intros sc2 c. rewrite lookup_alter_eq, Hs1. intros [= <-].
      rewrite (span_sum_alter c _ s h1 sc) by done.
      assert (span_of s sc = false) as ->.
      { unfold span_of. rewrite Ho, bool_decide_eq_false_2, andb_false_r; [done|]. intros [= ->]. lia. }
      unfold held. cbn [charge map_rc set_rc owner]. rewrite Ho.
      change (set_rc _ sc) with (charge d sc). rewrite usage_charge by done.
      specialize (Hself c). lia.
  - split.
    + apply acct_shift_dag; [done..| |].
      * intros c. pose proof (ac_own _ _ _ Ha s c). specialize (Hpos c). lia.
      * intros c. pose proof (ac_spans _ _ _ Ha s sc c Hs Hl) as Hx. unfold held in Hx.
        rewrite Ho in Hx. specialize (Hpos c). lia.
    + intros sc2 c. rewrite alter_all_in, Hs by (done || by left). intros [= <-].
      rewrite span_sum_alter_all; [|done..|].
      * unfold held. cbn [charge map_rc set_rc owner]. rewrite Ho. unfold add_own.
        rewrite decide_True by done.
        pose proof (ac_spans _ _ _ Ha s sc c Hs Hl) as Hx. unfold held in Hx. rewrite Ho in Hx. lia.
      * intros k kc [->|Hk]%elem_of_cons Hkc; [congruence|].
        destruct (hw_edges h Hwf s sc k Hs Hk) as (_ & kc' & ? & ?). congruence.
Qed.

Fixpoint rroot (fuel : nat) h s : option nat :=
  match fuel with
  | O => None
  | S fuel =>
    match h !! s with
    | Some sc =>
        if done sc then None
        else match owner sc with Some o => rroot fuel h o | None => Some s end
    | None => None
    end
  end.

Definition sub_own own (r : option nat) (delta : counter -> Z) : nat -> counter -> Z :=
  match r with Some r => add_own own r (fun c => - delta c) | None => own end.

Lemma rroot_shape fuel h h' s : same_shape h h' -> rroot fuel h s = rroot fuel h' s.
Proof.
  intros Hsh. revert s. induction fuel as [|fuel IH]; intros s; [done|]. simpl.
  pose proof (Hsh s) as Hs. destruct (h !! s), (h' !! s); try done. injection Hs as -> -> _.
  destruct (done _); [done|]. by destruct (owner _).
Qed.

(** What a DAG scope reserved is part of the usage of its open ancestors. *)
Lemma own_le_edge h own ext s sc e ec c :
  acct h own ext -> h !! s = Some sc -> child_of e sc = true ->
  h !! e = Some ec -> done ec = false -> owner ec = None -> own e c + own s c <= usage c (rc ec).
Proof.
  intros Ha Hs Hch He Hl Ho. rewrite (ac_usage _ _ _ Ha e ec c He Hl Ho).
  assert (own s c <= edge_sum own c h e); [|lia].
  pose proof (msum_le_member (fun s sc => if child_of e sc then own s c else 0) h s sc) as Hm.
  simpl in Hm. rewrite Hch in Hm. apply Hm; [|done]. intros k kc _.
  pose proof (ac_own _ _ _ Ha k c). destruct (child_of e kc); lia.
Qed.

Lemma child_of_edge e sc :
  done sc = false -> owner sc = None -> child_of e sc = bool_decide (e ∈ edges sc).
Proof. intros Hl Ho. unfold child_of. by rewrite Hl, Ho, bool_decide_eq_true_2. Qed.

Lemma edge_sum_nonneg h own ext c e : acct h own ext -> 0 <= edge_sum own c h e.
Proof.
  intros Ha. apply msum_nonneg. intros k kc _. pose proof (ac_own _ _ _ Ha k c).
  destruct (child_of e kc); lia.
Qed.

Lemma usage_unload_exact d sc c :
  rc_ok (rc sc) -> demand_ok d -> done sc = false -> amount d c <= usage c (rc sc) ->
  usage c (rc (unload d sc)) = usage c (rc sc) - amount d c.
Proof. intros. rewrite usage_unload by done. lia. Qed.

(** [s] holds the amounts of [d] beyond what its own spans hold. *)
Definition available own h s d : Prop :=
  forall sc c, h !! s = Some sc -> done sc = false ->
    span_sum c h s + amount d c <= held own c s sc.

Lemma acct_release_chain d fuel s h own ext :
  (s < fuel)%nat -> heap_inv h -> acct h own ext -> demand_ok d -> is_Some (h !! s) ->
  available own h s d ->
  acct (alter_all (unload d) (rtargets fuel h s) h) (sub_own own (rroot fuel h s) (amount d)) ext.
Proof.
  revert s h. induction fuel as [|fuel IH]; intros s h Hfuel Hinv Ha Hd [sc Hs] Hav; [lia|].
  pose proof (hi_wf h Hinv) as Hwf. cbn [rtargets rroot]. rewrite Hs.
  destruct (done sc) eqn:Hl; [done|].
  assert (forall c, 0 <= amount d c) as Hpos by (intros c; by apply demand_amount_range).
  pose proof (hi_ok h Hinv s sc Hs) as Hok.
  assert (forall c, span_sum c h s + amount d c <= held own c s sc) as Hav' by eauto.
  assert (forall c, 0 <= span_sum c h s) as Hsp by (intros; apply span_sum_nonneg, Hinv).
  destruct (owner sc) as [o|] eqn:Ho.
  - destruct (hw_owner h Hwf s sc o Hs Ho) as (Hlt & Hso & _).
    assert (forall c, span_sum c h s + amount d c <= usage c (rc sc)) as Hself.
    { intros c. specialize (Hav' c). unfold held in Hav'. by rewrite Ho in Hav'. }
    cbn [alter_all]. set (h1 := alter (unload d) s h).
    assert (same_shape h h1) as Hsh by apply same_shape_alter, shape_unload.
    assert (forall c, usage c (rc (unload d sc)) = usage c (rc sc) - amount d c) as Hu.
    { intros c. apply usage_unload_exact; [done..|]. specialize (Hself c). specialize (Hsp c). lia. }
    assert (acct h1 own ext) as Ha1.
    { apply (acct_shift_span h own ext (unload d) (fun c => - amount d c) s sc o); [done..| | |].
      - split; [apply shape_unload| |].
        + intros x. unfold unload. by destruct (done x).
        + intros x xc c ->%list_elem_of_singleton Hx _. simplify_eq. rewrite Hu. lia.
      - intros oc c Hoc Hlo. pose proof (ac_spans _ _ _ Ha o oc c Hoc Hlo).
        specialize (Hpos c). lia.
      - intros c. specialize (Hself c). lia. }
    rewrite (rtargets_shape fuel h h1), (rroot_shape fuel h h1) by done.
    apply IH; [lia| |done|done|by apply alter_is_some|].
    + apply (inv_unload_all d [s]); [done..|apply NoDup_singleton].
    + intros oc c Hoc Hlo. unfold h1 in *. rewrite lookup_alter_ne in Hoc by lia.
      rewrite (span_sum_alter c _ s h sc) by (done || apply shape_unload).
      unfold span_of. rewrite Hl, Ho, bool_decide_eq_true_2 by done. simpl. rewrite Hu.
      pose proof (ac_spans _ _ _ Ha o oc c Hoc Hlo). lia.
  - assert (forall c, span_sum c h s + amount d c <= own s c) as Hself.
    { intros c. specialize (Hav' c). unfold held in Hav'. by rewrite Ho in Hav'. }
    apply acct_shift_dag; [done..| | |].
    + split; [apply shape_unload| |].
      { intros x. unfold unload. by destruct (done x). }
      intros x xc c Hx Hxc Hlx. cbv beta. rewrite usage_unload_exact; [lia|exact (hi_ok h Hinv x xc Hxc)|done..|].
      specialize (Hself c). specialize (Hsp c). apply elem_of_cons in Hx as [->|Hx].
      * simplify_eq. rewrite (ac_usage _ _ _ Ha s sc c Hs Hl Ho).
        pose proof (edge_sum_nonneg h own ext c s Ha). lia.
      * destruct (hw_edges h Hwf s sc x Hs Hx) as (_ & xc' & ? & ?). simplify_eq.
        pose proof (own_le_edge h own ext s sc x xc c Ha Hs) as Hle.
        rewrite child_of_edge, bool_decide_eq_true_2 in Hle by done.
        specialize (Hle eq_refl Hxc Hlx ltac:(done)). pose proof (ac_own _ _ _ Ha x c).
lia.
    + intros c. cbv beta. specialize (Hself c). specialize (Hsp c). lia.
    + intros c. cbv beta. specialize (Hself c). lia.
Qed.

(** ** Replacing one DAG scope and adjusting its ancestors

    The update of [h] to [h'] replaces the DAG scope [s] by [sc'], and lets the
    ancestors follow the change of its edges and direct reservations. *)
Definition weight (b : bool) (n : Z) : Z := if b then n else 0.

Record follows h h' own own' ext ext' s sc sc' : Prop := {
  fo_old : h !! s = Some sc;
  fo_new : h' !! s = Some sc';
  fo_dag : owner sc = None /\ owner sc' = None;
  fo_self : child_of s sc = false /\ child_of s sc' = false;
  fo_own : forall x c, x <> s -> own' x c = own x c;
  fo_pos : (forall c, 0 <= own' s c) /\ (forall e, 0 <= ext' e);
  fo_dom : forall x, h !! x = None <-> h' !! x = None;
  fo_ext : forall x, h !! x = None -> ext' x = ext x;
  fo_shape : forall x xc xc', x <> s -> h !! x = Some xc -> h' !! x = Some xc' ->
    shape xc' = shape xc;
  fo_spans : forall x xc xc', x <> s -> h !! x = Some xc -> h' !! x = Some xc' ->
    owner xc <> None -> rc xc' = rc xc;
  fo_usage : forall x xc xc' c, x <> s -> h !! x = Some xc -> h' !! x = Some xc' ->
    owner xc = None -> done xc = false ->
    usage c (rc xc') = usage c (rc xc) + weight (child_of x sc') (own' s c)
                                       - weight (child_of x sc) (own s c);
  fo_refs : forall x xc xc', x <> s -> h !! x = Some xc -> h' !! x = Some xc' ->
    refCnt xc' = refCnt xc + (ext' x - ext x) + weight (child_of x sc') 1 - weight (child_of x sc) 1;
  fo_live : done sc' = false -> done sc = false /\
    forall c, usage c (rc sc') = usage c (rc sc) + own' s c - own s c /\ span_sum c h s <= own' s c;
  fo_ref : refCnt sc' = refCnt sc + (ext' s - ext s);
}.

Section follows.
Context {h h' : heap L} {own own' ext ext'} {s : nat} {sc sc' : resourceScope L}.
Hypothesis Hf : follows h h' own own' ext ext' s sc sc'.

Lemma follows_pointwise f g :
  (forall x xc xc', x <> s -> h !! x = Some xc -> h' !! x = Some xc' -> g x xc' = f x xc) ->
  msum g h' = msum f h - f s sc + g s sc'.
Proof.
  intros Hfg. apply msum_pointwise_but; [apply Hf..|]. intros x Hx.
  pose proof (fo_dom _ _ _ _ _ _ _ _ _ Hf x) as Hd.
  destruct (h !! x) as [xc|] eqn:E1, (h' !! x) as [xc'|] eqn:E2; [|by destruct Hd as [_ Hd]; specialize (Hd eq_refl)|by destruct Hd as [Hd _]; specialize (Hd eq_refl)|done].
  simpl. f_equal. symmetry. by apply Hfg.
Qed.

Lemma follows_edge_sum c e :
  edge_sum own' c h' e =
  edge_sum own c h e + weight (child_of e sc') (own' s c) - weight (child_of e sc) (own s c).
Proof.
  unfold edge_sum. rewrite (follows_pointwise (fun s sc => if child_of e sc then own s c else 0)).
  - unfold weight. lia.
  - intros x xc xc' Hx H1 H2. rewrite (fo_own _ _ _ _ _ _ _ _ _ Hf x c Hx).
    by rewrite (child_of_shape e xc xc' (fo_shape _ _ _ _ _ _ _ _ _ Hf x xc xc' Hx H1 H2)).
Qed.

Lemma span_of_dag x sc0 : owner sc0 = None -> span_of x sc0 = false.
Proof. intros Ho. unfold span_of. by rewrite Ho, bool_decide_eq_false_2, andb_false_r. Qed.

Lemma follows_span_sum c x : span_sum c h' x = span_sum c h x.
Proof.
  unfold span_sum.
  rewrite (follows_pointwise (fun _ tc => if span_of x tc then usage c (rc tc) else 0)).
  - rewrite !span_of_dag by apply Hf. lia.
  - intros y yc yc' Hy H1 H2.
    rewrite (span_of_shape x yc yc' (fo_shape _ _ _ _ _ _ _ _ _ Hf y yc yc' Hy H1 H2)).
    destruct (span_of x yc) eqn:Hsp; [|done]. f_equal. apply (fo_spans _ _ _ _ _ _ _ _ _ Hf y); [done..|].
    unfold span_of in Hsp. apply andb_prop in Hsp as [_ Hsp%bool_decide_eq_true]. congruence.
Qed.

Lemma follows_ref_sum e :
  ref_sum h' e = ref_sum h e + weight (child_of e sc') 1 - weight (child_of e sc) 1.
Proof.
  unfold ref_sum.
  rewrite (follows_pointwise (fun _ sc => if child_of e sc || span_of e sc then 1 else 0)).
  - rewrite !span_of_dag by apply Hf. rewrite !orb_false_r. unfold weight. lia.
  - intros y yc yc' Hy H1 H2. pose proof (fo_shape _ _ _ _ _ _ _ _ _ Hf y yc yc' Hy H1 H2) as Hsh.
    by rewrite (child_of_shape e yc yc' Hsh), (span_of_shape e yc yc' Hsh).
Qed.

Lemma acct_follows : acct h own ext -> acct h' own' ext'.
Proof.
  intros [A1 A2 A3 A4 A5 A6].
  destruct Hf as [F1 F2 [F3 F3'] [F4 F4'] F5 [F6 F6'] F7 F8 F9 F10 F11 F12 F13 F14].
  assert (forall x xc', x <> s -> h' !! x = Some xc' -> exists xc, h !! x = Some xc) as Hback.
  { intros x xc' Hx Hx'. destruct (h !! x) eqn:E; [by eexists|]. apply F7 in E. congruence. }
  constructor.
  - intros x c. destruct (decide (x = s)) as [->|Hx]; [done|]. rewrite F5 by done. apply A1.
  - intros x Hx%F7. destruct (A2 x Hx) as [Ho He]. split; [|by rewrite F8].
    intros c. rewrite F5 by congruence. apply Ho.
  - intros e ec' c He' Hl Ho. rewrite follows_edge_sum. destruct (decide (e = s)) as [->|Hne].
    + assert (ec' = sc') as -> by congruence. destruct (F13 Hl) as [Hl' Hu]. destruct (Hu c) as [-> _].
      rewrite (A3 s sc c) by done. rewrite F4, F4'. unfold weight. lia.
    + destruct (Hback e ec' Hne He') as [ec He]. pose proof (F9 e ec ec' Hne He He') as Hsh.
      rewrite (shape_done _ _ Hsh) in Hl. rewrite (shape_owner _ _ Hsh) in Ho.
      rewrite (F11 e ec ec' c Hne He He' Ho Hl), (A3 e ec c He Hl Ho), (F5 e c Hne). lia.
  - intros x xc' c Hx' Hl. rewrite follows_span_sum. destruct (decide (x = s)) as [->|Hne].
    + assert (xc' = sc') as -> by congruence. unfold held. rewrite F3'. by apply F13.
    + destruct (Hback x xc' Hne Hx') as [xc Hx]. pose proof (F9 x xc xc' Hne Hx Hx') as Hsh.
      rewrite (shape_done _ _ Hsh) in Hl. pose proof (A4 x xc c Hx Hl) as Hle. unfold held in *.
      rewrite (shape_owner _ _ Hsh). destruct (owner xc) eqn:Ho; [|by rewrite F5].
      by rewrite (F10 x xc xc') by congruence.
  - done.
  - intros e ec' He'. rewrite follows_ref_sum. destruct (decide (e = s)) as [->|Hne].
    + assert (ec' = sc') as -> by congruence. rewrite F4, F4', F14, (A6 s sc) by done. unfold weight. lia.
    + destruct (Hback e ec' Hne He') as [ec He]. rewrite (F12 e ec ec'), (A6 e ec) by done. lia.
Qed.
End follows.
End account.
