(* ===== verification/ScopeLedger.v ===== *)
(** * The ledger of a resource manager

    The accounting of [ScopeAccount] is kept by every operation the resource
    manager performs on its scopes: reservations, releases, new scopes, spans,
    destruction, external references, and the reparenting of a connection or
    stream scope when its peer, protocol or service becomes known. *)

From stdpp Require Import base gmap list strings fin_maps relations.
From Stdlib Require Import ZArith Lia.
From S2P Require Import Prelude Limits Resources Scope ScopeFacts ScopeInv ScopeAccount.

Section ledger.
Context {L : Type} `{!Limit L}.
Implicit Types (h : heap L) (sc : resourceScope L) (d : demand) (s e o t : nat) (c : counter).
Implicit Types (own : nat -> counter -> Z) (ext : nat -> Z).

(** ** New scopes *)

Lemma dangling h s :
  heap_wf h -> h !! s = None ->
  (forall k kc, h !! k = Some kc -> child_of s kc = false /\ span_of s kc = false).
Proof.
  intros Hwf Hs k kc Hk. split.
  - unfold child_of. rewrite (bool_decide_eq_false_2 (s ∈ edges kc)), andb_false_r; [done|].
    intros Hin. destruct (hw_edges h Hwf k kc s Hk Hin) as (_ & ? & ? & _). congruence.
  - unfold span_of. rewrite (bool_decide_eq_false_2 (owner kc = Some s)), andb_false_r; [done|].
    intros Ho. destruct (hw_owner h Hwf k kc s Hk Ho) as (_ & [? ?] & _). congruence.
Qed.

Lemma msum_zero (f : nat -> resourceScope L -> Z) h :
  (forall k kc, h !! k = Some kc -> f k kc = 0) -> msum f h = 0.
Proof.
  intros Hf. rewrite (msum_ext f (fun _ _ => 0) h Hf). clear Hf.
  induction h as [|k v m Hk IH] using map_ind; [done|]. by rewrite msum_insert, IH.
Qed.

(** A new scope [nsc] whose parents [ts] are referenced once more. *)
Lemma acct_new h own ext F ts s nsc :
  heap_wf h -> acct h own ext -> NoDup ts -> h !! s = None -> s ∉ ts ->
  (forall sc, shape (F sc) = shape sc /\ refCnt (F sc) = refCnt sc + 1 /\ rc (F sc) = rc sc) ->
  (forall e, child_of e nsc || span_of e nsc = bool_decide (e ∈ ts)) ->
  (forall c, usage c (rc nsc) = 0) -> refCnt nsc = 0 ->
  acct (<[s := nsc]> (alter_all F ts h)) own ext.
Proof.
  intros Hwf [A1 A2 A3 A4 A5 A6] Hnd Hs Hts HF Hpar Hu Hr.
  set (h1 := alter_all F ts h).
  assert (h1 !! s = None) as Hs1 by (unfold h1; by rewrite alter_all_ne).
  destruct (A2 s Hs) as [Hos Hes].
  assert (forall c e, edge_sum own c (<[s:=nsc]> h1) e = edge_sum own c h e) as Hedge.
  { intros c e. unfold edge_sum. rewrite msum_insert by done.
    change (msum _ h1) with (edge_sum own c h1 e). unfold h1.
    rewrite edge_sum_alter_all by (done || apply HF). rewrite Hos. by destruct (child_of e nsc). }
  assert (forall c x, span_sum c (<[s:=nsc]> h1) x = span_sum c h x) as Hspan.
  { intros c x. unfold span_sum. rewrite msum_insert by done. rewrite Hu.
    unfold h1. rewrite msum_alter_all_id; [by destruct (span_of x nsc)|done|].
    intros k kc _ _. destruct (HF kc) as (Hsh & _ & ->). by rewrite (span_of_shape x kc (F kc) Hsh). }
  assert (forall e, ref_sum (<[s:=nsc]> h1) e = ref_sum h e + weight (bool_decide (e ∈ ts)) 1) as Href.
  { intros e. unfold ref_sum. rewrite msum_insert by done. rewrite Hpar.
    change (msum _ h1) with (ref_sum h1 e). unfold h1.
    rewrite ref_sum_alter_all by (done || apply HF). unfold weight, ref_sum. lia. }
  pose proof (dangling h s Hwf Hs) as Hdang.
  assert (forall c, edge_sum own c h s = 0 /\ span_sum c h s = 0) as Hzero.
  { intros c. split; apply msum_zero; intros k kc Hk; destruct (Hdang k kc Hk) as [E1 E2]; by rewrite ?E1, ?E2. }
  assert (ref_sum h s = 0) as Hrz.
  { apply msum_zero. intros k kc Hk. by destruct (Hdang k kc Hk) as [-> ->]. }
  assert (forall x xc', <[s:=nsc]> h1 !! x = Some xc' -> x = s /\ xc' = nsc \/
            x <> s /\ exists xc, h !! x = Some xc /\ shape xc' = shape xc /\ rc xc' = rc xc /\
              refCnt xc' = refCnt xc + weight (bool_decide (x ∈ ts)) 1) as Hback.
  { intros x xc' [[<- <-]|[Hne Hx]]%lookup_insert_Some; [by left|right]. split; [done|].
    unfold h1 in Hx. rewrite alter_all_lookup in Hx by done. case_decide as Hin.
    - destruct (h !! x) as [xc|] eqn:E; [|done]. injection Hx as <-. exists xc.
      destruct (HF xc) as (? & ? & ?). rewrite bool_decide_eq_true_2 by done. done.
    - exists xc'. rewrite bool_decide_eq_false_2 by done. unfold weight. split_and!; [done..|lia]. }
  constructor; [done| | | |done|].
  - intros x [Hx Hne]%lookup_insert_None. apply A2. unfold h1 in Hx. rewrite alter_all_lookup in Hx by done.
    case_decide; [|done]. by destruct (h !! x).
  - intros e ec' c He Hl Ho. rewrite Hedge. destruct (Hback e ec' He) as [[-> ->]|(Hne & ec & Hec & Hsh & -> & _)].
    + rewrite Hu, Hos. destruct (Hzero c) as [-> _]. done.
    + apply A3; [done|by rewrite <- (shape_done _ _ Hsh)|by rewrite <- (shape_owner _ _ Hsh)].
  - intros x xc' c Hx Hl. rewrite Hspan. destruct (Hback x xc' Hx) as [[-> ->]|(Hne & xc & Hxc & Hsh & Hrc & _)].
    + destruct (Hzero c) as [_ ->]. unfold held. rewrite Hos, Hu. by destruct (owner nsc).
    + unfold held. rewrite (shape_owner _ _ Hsh), Hrc. apply A4; [done|].
      by rewrite <- (shape_done _ _ Hsh).
  - intros e ec' He. rewrite Href. destruct (Hback e ec' He) as [[-> ->]|(Hne & ec & Hec & _ & _ & ->)].
    + rewrite Hrz, Hr, Hes. rewrite bool_decide_eq_false_2 by done. done.
    + rewrite (A6 e ec Hec). lia.
Qed.

(** ** External references *)

Definition bump ext s (n : Z) : nat -> Z := fun x => if decide (x = s) then ext x + n else ext x.

Lemma acct_ref h own ext s sc n :
  heap_wf h -> acct h own ext -> h !! s = Some sc -> owner sc = None -> 0 <= ext s + n ->
  acct (alter (add_refCnt n) s h) own (bump ext s n).
Proof.
  intros Hwf Ha Hs Ho Hn.
  assert (s ∉ edges sc) as Hse by (intros Hin; by destruct (hw_edges h Hwf s sc s Hs Hin)).
  assert (child_of s sc = false) as Hch.
  { unfold child_of. by rewrite (bool_decide_eq_false_2 (s ∈ edges sc)), andb_false_r. }
  apply (acct_follows (h:=h) (own:=own) (ext:=ext) (s:=s) (sc:=sc) (sc':=add_refCnt n sc)); [|done].
  constructor; try done.
  - by rewrite lookup_alter_eq, Hs.
  - split; [apply Ha|]. intros e. unfold bump. pose proof (ac_ext _ _ _ Ha e). case_decide; [by subst|done].
  - intros x. rewrite lookup_alter. case_decide; [subst; by rewrite Hs|done].
  - intros x Hx. unfold bump. case_decide; [congruence|done].
  - intros x xc xc' Hx H1 H2. rewrite lookup_alter_ne in H2 by done. congruence.
  - intros x xc xc' Hx H1 H2 _. rewrite lookup_alter_ne in H2 by done. congruence.
  - intros x xc xc' c Hx H1 H2 _ _. rewrite lookup_alter_ne in H2 by done.
    change (child_of x (add_refCnt n sc)) with (child_of x sc). simplify_eq. lia.
  - intros x xc xc' Hx H1 H2. rewrite lookup_alter_ne in H2 by done.
    change (child_of x (add_refCnt n sc)) with (child_of x sc). unfold bump.
    rewrite decide_False by done. simplify_eq. lia.
  - simpl. intros Hl. split; [done|]. intros c. split; [lia|].
    pose proof (ac_spans _ _ _ Ha s sc c Hs Hl) as Hsp. unfold held in Hsp. by rewrite Ho in Hsp.
  - unfold bump. rewrite decide_True by done. simpl. lia.
Qed.

(** ** Destruction *)

(** No open scope has [s] among its ancestors. *)
Definition childless h s : Prop := forall k kc, h !! k = Some kc -> child_of s kc = false.

Lemma childless_edge_sum h own c s : childless h s -> edge_sum own c h s = 0.
Proof. intros Hc. apply msum_zero. intros k kc Hk. by rewrite (Hc k kc Hk). Qed.

Lemma amount_stat (r : resources L) c : amount (DStat (stat r)) c = usage c r.
Proof. by destruct c. Qed.

(** What a childless scope gives back to its ancestors on [Done] is exactly what
    was reserved on it. *)
Lemma stat_is_own h own ext s sc c :
  acct h own ext -> h !! s = Some sc -> done sc = false -> owner sc = None -> childless h s ->
  amount (DStat (stat (rc sc))) c = own s c.
Proof.
  intros Ha Hs Hl Ho Hc. rewrite amount_stat, (ac_usage _ _ _ Ha s sc c Hs Hl Ho).
  rewrite childless_edge_sum by done. lia.
Qed.

Lemma not_own_edge h s sc : heap_wf h -> h !! s = Some sc -> s ∉ edges sc.
Proof. intros Hwf Hs Hin. by destruct (hw_edges h Hwf s sc s Hs Hin). Qed.

Lemma child_of_not_edge e sc : e ∉ edges sc -> child_of e sc = false.
Proof. intros He. unfold child_of. by rewrite (bool_decide_eq_false_2 (e ∈ edges sc)), andb_false_r. Qed.

(** An ancestor that gives up the share of [s]. *)
Lemma usage_detach h own ext s sc e ec c :
  heap_inv h -> acct h own ext -> h !! s = Some sc -> done sc = false -> owner sc = None ->
  childless h s -> e ∈ edges sc -> h !! e = Some ec -> done ec = false -> owner ec = None ->
  usage c (rc (detach (stat (rc sc)) ec)) = usage c (rc ec) - own s c.
Proof.
  intros Hinv Ha Hs Hl Ho Hc He Hec Hle Hoe. unfold detach. cbn [add_refCnt rc].
  pose proof (stat_is_own h own ext s sc c Ha Hs Hl Ho Hc) as Hst.
  rewrite usage_unload_exact; [lia|exact (hi_ok h Hinv e ec Hec)| |done|].
  - apply stat_demand_ok, (hi_ok h Hinv s sc Hs).
  - pose proof (own_le_edge h own ext s sc e ec c Ha Hs) as Hle'.
    rewrite child_of_edge, bool_decide_eq_true_2 in Hle' by done.
    specialize (Hle' eq_refl Hec Hle Hoe). pose proof (ac_own _ _ _ Ha e c). lia.
Qed.

Lemma refCnt_detach st (ec : resourceScope L) : refCnt (detach st ec) = refCnt ec - 1.
Proof. unfold detach, unload. by destruct (done ec). Qed.

Definition drop_own own s : nat -> counter -> Z := add_own own s (fun c => - own s c).

Lemma acct_done_dag h own ext s sc :
  heap_inv h -> acct h own ext -> h !! s = Some sc -> done sc = false -> owner sc = None ->
  childless h s ->
  acct (alter mark_done s (alter_all (detach (stat (rc sc))) (edges sc) h)) (drop_own own s) ext.
Proof.
  intros Hinv Ha Hs Hl Ho Hc. pose proof (hi_wf h Hinv) as Hwf.
  pose proof (not_own_edge h s sc Hwf Hs) as Hse. pose proof (hw_nodup h Hwf s sc Hs) as Hnd.
  set (F := detach (stat (rc sc))).
  assert (forall x, x <> s -> alter mark_done s (alter_all F (edges sc) h) !! x =
            if decide (x ∈ edges sc) then F <$> h !! x else h !! x) as Hlook.
  { intros x Hx. rewrite lookup_alter_ne by done. by apply alter_all_lookup. }
  assert (alter mark_done s (alter_all F (edges sc) h) !! s = Some (mark_done sc)) as Hs'.
  { by rewrite lookup_alter_eq, alter_all_ne, Hs. }
  assert (forall x, child_of x (mark_done sc) = false) as Hch by done.
  assert (forall x, child_of x sc = bool_decide (x ∈ edges sc)) as Hch' by (intros; by apply child_of_edge).
  apply (acct_follows (h:=h) (own:=own) (ext:=ext) (s:=s) (sc:=sc) (sc':=mark_done sc)); [|done].
  constructor; try done.
  - split; [|done]. by apply child_of_not_edge.
  - intros x c Hx. unfold drop_own, add_own. rewrite decide_False by done. lia.
  - split; [|apply Ha]. intros c. unfold drop_own, add_own. rewrite decide_True by done. lia.
  - intros x. destruct (decide (x = s)) as [->|Hx]; [by rewrite Hs, Hs'|]. rewrite Hlook by done.
    case_decide; [by rewrite fmap_None|done].
  - intros x xc xc' Hx H1. rewrite Hlook, H1 by done.
    case_decide; intros [= <-]; [apply shape_detach|done].
  - intros x xc xc' Hx H1. rewrite Hlook, H1 by done. case_decide as Hin; intros [= <-]; [|done].
    destruct (hw_edges h Hwf s sc x Hs Hin) as (_ & ? & ? & ?). congruence.
  - intros x xc xc' c Hx H1 H2 Hox Hlx. rewrite Hlook, H1 in H2 by done.
    rewrite Hch, Hch'. unfold weight. case_decide as Hin.
    + injection H2 as <-. rewrite bool_decide_eq_true_2 by done. unfold F.
      rewrite (usage_detach h own ext s sc x xc c) by done. lia.
    + injection H2 as <-. rewrite bool_decide_eq_false_2 by done. lia.
  - intros x xc xc' Hx H1 H2. rewrite Hlook, H1 in H2 by done. rewrite Hch, Hch'. unfold weight.
    case_decide as Hin; injection H2 as <-.
    + rewrite bool_decide_eq_true_2 by done. unfold F. rewrite refCnt_detach. lia.
    + rewrite bool_decide_eq_false_2 by done. lia.
  - simpl. lia.
Qed.

(** Closing a span and dropping its reference leaves slack in its owner. *)
Definition close_span s o h : heap L := alter (add_refCnt (-1)) o (alter mark_done s h).

Lemma close_span_lookup h s sc o x :
  h !! s = Some sc -> owner sc = Some o -> heap_wf h ->
  close_span s o h !! x =
  if decide (x = s) then Some (mark_done sc)
  else if decide (x = o) then add_refCnt (-1) <$> h !! o else h !! x.
Proof.
  intros Hs Ho Hwf. destruct (hw_owner h Hwf s sc o Hs Ho) as (Hlt & _ & _).
  unfold close_span. rewrite !lookup_alter. repeat case_decide; subst; rewrite ?Hs; try done; lia.
Qed.

Lemma acct_close_span h own ext s sc o :
  heap_inv h -> acct h own ext -> h !! s = Some sc -> done sc = false -> owner sc = Some o ->
  acct (close_span s o h) own ext /\
  (forall c, span_sum c (close_span s o h) o = span_sum c h o - usage c (rc sc)).
Proof.
  intros Hinv [A1 A2 A3 A4 A5 A6] Hs Hl Ho. pose proof (hi_wf h Hinv) as Hwf.
  destruct (hw_owner h Hwf s sc o Hs Ho) as (Hlt & [oc Hoc] & _).
  assert (forall f, (forall xc, f o (add_refCnt (-1) xc) = f o xc) ->
            msum f (close_span s o h) = msum f h - f s sc + f s (mark_done sc)) as Hmsum.
  { intros f Hf. unfold close_span. rewrite msum_alter_id by auto. by rewrite (msum_alter f h s sc). }
  assert (forall e, child_of e sc = false) as Hch.
  { intros e. unfold child_of. by rewrite Ho, andb_false_r. }
  assert (forall x, span_of x sc = bool_decide (x = o)) as Hsp.
  { intros x. unfold span_of. rewrite Hl, Ho. simpl. apply bool_decide_ext. split; congruence. }
  assert (forall c x, span_sum c (close_span s o h) x =
            span_sum c h x - weight (bool_decide (x = o)) (usage c (rc sc))) as Hspan.
  { intros c x. unfold span_sum. rewrite Hmsum by done. rewrite Hsp. simpl. unfold weight. lia. }
  split; [|intros c; rewrite Hspan, bool_decide_eq_true_2 by done; done].
  constructor; [done| | | |done|].
  - intros x. rewrite (close_span_lookup h s sc o x) by done.
    repeat case_decide; subst; [done|by rewrite Hoc|apply A2].
  - intros e ec' c. rewrite (close_span_lookup h s sc o e) by done. unfold edge_sum.
    rewrite Hmsum by done. rewrite Hch. simpl. intros He Hle Hoe.
    case_decide; [by injection He as <-|].
    assert (exists ec, h !! e = Some ec /\ rc ec' = rc ec /\ done ec = false /\ owner ec = None) as
      (ec & Hec & -> & ? & ?).
    { case_decide; [|by eauto]. subst e. rewrite Hoc in He. injection He as <-. by exists oc. }
    rewrite (A3 e ec c) by done. unfold edge_sum. lia.
  - intros x xc' c. rewrite (close_span_lookup h s sc o x) by done. intros Hx Hlx.
    rewrite Hspan. case_decide; [by injection Hx as <-|].
    assert (exists xc, h !! x = Some xc /\ rc xc' = rc xc /\ owner xc' = owner xc /\ done xc = false)
      as (xc & Hxc & Hrc & Hox & Hlx').
    { case_decide; [|by eauto]. subst x. rewrite Hoc in Hx. injection Hx as <-. by exists oc. }
    pose proof (A4 x xc c Hxc Hlx') as Hle. unfold held in *. rewrite Hox, Hrc.
    case_bool_decide; [subst x|unfold weight; lia].
    assert (0 <= usage c (rc sc)); [|unfold weight; lia].
    apply (ro_range _ (hi_ok h Hinv s sc Hs)).
  - intros e ec'. rewrite (close_span_lookup h s sc o e) by done. unfold ref_sum.
    rewrite Hmsum by done. rewrite Hch, Hsp. simpl. change (msum _ h) with (ref_sum h e). intros He.
    case_decide; [subst e; injection He as <-; rewrite bool_decide_eq_false_2 by lia;
      rewrite (A6 s sc Hs : refCnt (mark_done sc) = _); lia|].
    case_decide as Heo.
    + subst e. rewrite Hoc in He. injection He as <-. rewrite bool_decide_eq_true_2 by done.
      simpl. rewrite (A6 o oc Hoc). lia.
    + rewrite bool_decide_eq_false_2 by done. rewrite (A6 e ec' He). lia.
Qed.

Lemma chain_below fuel h f s o :
  heap_wf h -> (o < s)%nat ->
  rtargets fuel (alter f s h) o = rtargets fuel h o /\ rroot fuel (alter f s h) o = rroot fuel h o.
Proof.
  intros Hwf. revert o. induction fuel as [|fuel IH]; intros o Hlt; [done|]. simpl.
  rewrite lookup_alter_ne by lia. destruct (h !! o) as [oc|] eqn:Ho; [|done].
  destruct (done oc); [done|]. destruct (owner oc) as [o'|] eqn:Ho'; [|done].
  destruct (hw_owner h Hwf o oc o' Ho Ho') as (? & _ & _). destruct (IH o') as [-> ->]; [lia|done].
Qed.

Lemma inv_close_span h s sc o :
  heap_inv h -> h !! s = Some sc -> owner sc = Some o -> heap_inv (close_span s o h).
Proof.
  intros Hinv Hs Ho. unfold close_span. apply inv_alter; [|done|by apply keeps_ok_id].
  apply inv_alter; [done..|]. intros x _ Hok. simpl. apply rc_ok_zero. by apply ro_lim.
Qed.

Lemma add_refCnt_unload d sc n : add_refCnt n (unload d sc) = unload d (add_refCnt n sc).
Proof. unfold unload. simpl. by destruct (done sc). Qed.

Lemma done_span_heap h s sc o st :
  heap_wf h -> h !! s = Some sc -> owner sc = Some o ->
  alter mark_done s (alter (add_refCnt (-1)) o (alter_all (unload (DStat st)) (rtargets (S o) h o) h)) =
  alter_all (unload (DStat st)) (rtargets (S o) (close_span s o h) o) (close_span s o h).
Proof.
  intros Hwf Hs Ho. destruct (hw_owner h Hwf s sc o Hs Ho) as (Hlt & _ & _).
  assert (same_shape (alter mark_done s h) (close_span s o h)) as Hsh by by apply same_shape_alter.
  rewrite <- (rtargets_shape (S o) _ _ o Hsh). destruct (chain_below (S o) h mark_done s o Hwf Hlt) as [-> _].
  pose proof (rtargets_NoDup (S o) h o Hwf) as Hnd.
  assert (s ∉ rtargets (S o) h o) as Hnot.
  { intros Hin%rtargets_incl. destruct (targets_low (S o) h o s Hwf Hin) as [?|(? & ? & ?)]; [lia|congruence]. }
  apply map_eq. intros x. rewrite (alter_all_lookup _ _ (close_span s o h)) by done.
  rewrite (close_span_lookup h s sc o x) by done.
  rewrite !lookup_alter, !alter_all_lookup by done.
  repeat case_decide; simplify_eq; rewrite ?Hs; try done; try lia.
  destruct (h !! o); simpl; [by rewrite add_refCnt_unload|done].
Qed.

Lemma acct_done_span h own ext s sc o :
  heap_inv h -> acct h own ext -> h !! s = Some sc -> done sc = false -> owner sc = Some o ->
  acct (done_heap h s sc) (sub_own own (rroot (S o) h o) (amount (DStat (stat (rc sc))))) ext.
Proof.
  intros Hinv Ha Hs Hl Ho. pose proof (hi_wf h Hinv) as Hwf.
  destruct (hw_owner h Hwf s sc o Hs Ho) as (Hlt & [oc Hoc] & _).
  destruct (acct_close_span h own ext s sc o Hinv Ha Hs Hl Ho) as [Ha0 Hsp].
  unfold done_heap. rewrite Hl, Ho. rewrite (done_span_heap h s sc o) by done.
  assert (same_shape (alter mark_done s h) (close_span s o h)) as Hsh by by apply same_shape_alter.
  assert (rroot (S o) h o = rroot (S o) (close_span s o h) o) as ->.
  { rewrite <- (rroot_shape (S o) _ _ o Hsh). by destruct (chain_below (S o) h mark_done s o Hwf Hlt) as [_ ->]. }
  assert (close_span s o h !! o = Some (add_refCnt (-1) oc)) as Hoc'.
  { rewrite (close_span_lookup h s sc o o) by done. by rewrite decide_False, decide_True, Hoc by (done || lia). }
  apply acct_release_chain; [lia|by eapply inv_close_span|done| |by eexists|].
  - apply stat_demand_ok, (hi_ok h Hinv s sc Hs).
  - intros oc' c Hoc2 Hlo. rewrite Hoc' in Hoc2. injection Hoc2 as <-. rewrite Hsp, amount_stat.
    pose proof (ac_spans _ _ _ Ha o oc c Hoc Hlo) as Hle. unfold held in *. simpl. lia.
Qed.

(** ** Reparenting

    The scope [s] moves from the ancestors [drop] to the ancestors [add]: its
    usage is reserved on [add] (whose references it takes over from the caller)
    and given back by [drop].  This is the net effect of a setter of the manager that
    succeeds ([SetPeer], [SetProtocol], [SetService]; RcmgrOps.v and RcmgrStreams.v show
    that these make this move); one that is refused on the way gives back what it took. *)
Record moves h s sc (add drop es : list nat) : Prop := {
  mv_add : NoDup add;
  mv_drop : NoDup drop;
  mv_sub : forall e, e ∈ drop -> e ∈ edges sc;
  mv_new : forall e, e ∈ add -> (e ∉ edges sc) /\ e <> s /\ exists ec, h !! e = Some ec /\ owner ec = None;
  mv_es : forall e, e ∈ es <-> (e ∈ edges sc /\ e ∉ drop) \/ e ∈ add;
  mv_nodup : NoDup es;
}.

Definition move_heap h s sc (add drop es : list nat) : heap L :=
  let st := stat (rc sc) in
  alter (set_edges es) s (alter_all (detach st) drop (alter_all (charge (DStat st)) add h)).

Definition take_refs ext (add : list nat) : nat -> Z :=
  fun x => if decide (x ∈ add) then ext x - 1 else ext x.

Lemma acct_move h own ext s sc add drop es :
  heap_inv h -> acct h own ext -> h !! s = Some sc -> done sc = false -> owner sc = None ->
  childless h s -> moves h s sc add drop es ->
  forallb (accepts_at (DStat (stat (rc sc))) h) add = true ->
  (forall e, e ∈ add -> 0 < ext e) ->
  acct (move_heap h s sc add drop es) own (take_refs ext add).
Proof.
  intros Hinv Ha Hs Hl Ho Hc [M1 M2 M3 M4 M5 M6] Hacc Hext. pose proof (hi_wf h Hinv) as Hwf.
  pose proof (not_own_edge h s sc Hwf Hs) as Hse.
  pose proof (stat_demand_ok _ (hi_ok h Hinv s sc Hs)) as Hst.
  set (st := stat (rc sc)) in *. unfold move_heap. fold st. set (h' := alter _ _ _).
  assert (forall x, x <> s -> h' !! x =
            if decide (x ∈ drop) then detach st <$> h !! x
            else if decide (x ∈ add) then charge (DStat st) <$> h !! x else h !! x) as Hlook.
  { intros x Hx. unfold h'. rewrite lookup_alter_ne, !alter_all_lookup by done.
    case_decide as Hd; [|done]. rewrite decide_False; [done|]. intros Hin. by destruct (M4 x Hin); auto. }
  assert (s ∉ drop) as Hsd by auto. assert (s ∉ add) as Hsa by (intros Hin; by destruct (M4 s Hin) as (_ & ? & _)).
  assert (h' !! s = Some (set_edges es sc)) as Hs'.
  { unfold h'. by rewrite lookup_alter_eq, !alter_all_ne, Hs. }
  assert (forall x, child_of x sc = bool_decide (x ∈ edges sc)) as Hch by (intros; by apply child_of_edge).
  assert (forall x, child_of x (set_edges es sc) = bool_decide (x ∈ es)) as Hch' by (intros; by apply child_of_edge).
  apply (acct_follows (h:=h) (own:=own) (ext:=ext) (s:=s) (sc:=sc) (sc':=set_edges es sc)); [|done].
  assert (forall x xc xc', x <> s -> h !! x = Some xc -> h' !! x = Some xc' ->
     (x ∈ drop) /\ (x ∉ add) /\ (x ∉ es) /\ (x ∈ edges sc) /\ xc' = detach st xc \/
     (x ∈ add) /\ (x ∈ es) /\ (x ∉ edges sc) /\ xc' = charge (DStat st) xc \/
     (x ∉ add) /\ (x ∈ es <-> x ∈ edges sc) /\ xc' = xc) as Hcases.
  { intros x xc xc' Hx H1. rewrite Hlook, H1 by done. specialize (M5 x). specialize (M4 x).
    case_decide as Hd; [|case_decide as Hd']; intros [= <-]; [left|right; left|right; right].
    - specialize (M3 x Hd). assert (x ∉ add) by tauto. tauto.
    - tauto.
    - tauto. }
  constructor; try done.
  - split; [by apply child_of_not_edge|]. apply child_of_not_edge. simpl. rewrite M5. tauto.
  - split; [apply Ha|]. intros e. unfold take_refs. pose proof (ac_ext _ _ _ Ha e).
    case_decide as Hin; [specialize (Hext e Hin)|]; lia.
  - intros x. destruct (decide (x = s)) as [->|Hx]; [by rewrite Hs, Hs'|]. rewrite Hlook by done.
    repeat case_decide; rewrite ?fmap_None; done.
  - intros x Hx. unfold take_refs. case_decide as Hin; [|done].
    destruct (M4 x Hin) as (_ & _ & ? & ? & _). congruence.
  - intros x xc xc' Hx H1 H2.
    destruct (Hcases x xc xc' Hx H1 H2) as [(_&_&_&_& ->)|[(_&_&_& ->)|(_&_& ->)]];
      [apply shape_detach|done|done].
  - intros x xc xc' Hx H1 H2 Hox.
    destruct (Hcases x xc xc' Hx H1 H2) as [(_&_&_&Hin& _)|[(Hin&_)|(_&_& ->)]]; [| |done].
    + destruct (hw_edges h Hwf s sc x Hs Hin) as (_ & ? & ? & ?). congruence.
    + destruct (M4 x Hin) as (_ & _ & ? & ? & ?). congruence.
  - intros x xc xc' c Hx H1 H2 Hox Hlx. rewrite Hch, Hch'. unfold weight.
    destruct (Hcases x xc xc' Hx H1 H2) as [(_&_&He&Hin& ->)|[(Hin&He&Hn& ->)|(_&He& ->)]].
    + rewrite bool_decide_eq_false_2, bool_decide_eq_true_2 by done. unfold st.
      rewrite (usage_detach h own ext s sc x xc c) by done. lia.
    + rewrite bool_decide_eq_true_2, bool_decide_eq_false_2 by done.
      destruct (forallb_accepts _ h add x Hacc Hin) as (xc2 & ? & Hax). simplify_eq.
      rewrite usage_charge by (done || exact (hi_ok h Hinv x xc H1)). unfold st.
      rewrite (stat_is_own h own ext s sc c) by done. lia.
    + rewrite (bool_decide_ext _ _ He). lia.
  - intros x xc xc' Hx H1 H2. rewrite Hch, Hch'. unfold weight, take_refs.
    destruct (Hcases x xc xc' Hx H1 H2) as [(_&Ha'&He&Hin& ->)|[(Hin&He&Hn& ->)|(Ha'&He& ->)]].
    + rewrite bool_decide_eq_false_2, bool_decide_eq_true_2, decide_False by done.
      rewrite refCnt_detach. lia.
    + rewrite bool_decide_eq_true_2, bool_decide_eq_false_2, decide_True by done. simpl. lia.
    + rewrite (bool_decide_ext _ _ He), decide_False by done. lia.
  - simpl. intros _. split; [done|]. intros c. split; [lia|].
    pose proof (ac_spans _ _ _ Ha s sc c Hs Hl) as Hsp. unfold held in Hsp. by rewrite Ho in Hsp.
  - unfold take_refs. rewrite decide_False by done. simpl. lia.
Qed.

Lemma inv_move h s sc add drop es :
  heap_inv h -> h !! s = Some sc -> owner sc = None -> moves h s sc add drop es ->
  forallb (accepts_at (DStat (stat (rc sc))) h) add = true ->
  heap_inv (move_heap h s sc add drop es).
Proof.
  intros Hinv Hs Ho [M1 M2 M3 M4 M5 M6] Hacc.
  pose proof (stat_demand_ok _ (hi_ok h Hinv s sc Hs)) as Hst. pose proof (hi_wf h Hinv) as Hwf.
  unfold move_heap. set (h2 := alter_all _ drop _).
  assert (heap_inv h2) as Hinv2 by (unfold h2; by apply inv_detach_all; [apply inv_charge_all|..]).
  assert (same_shape h h2) as Hsh.
  { unfold h2. transitivity (alter_all (charge (DStat (stat (rc sc)))) add h);
      [by apply same_shape_alter_all|].
    apply same_shape_alter_all, shape_detach. }
  symmetry in Hsh. destruct (same_shape_lookup h2 h s sc Hsh Hs) as (sc2 & Hs2 & Ho2 & _).
  apply (inv_rewire s es h2 sc2); [done|done|congruence| |].
  - split; [done|]. intros e. rewrite M5. intros He.
    assert (exists ec, h !! e = Some ec /\ owner ec = None) as (ec & Hec & Hoe).
    { destruct He as [[He _]|He]; [by apply (hw_edges h Hwf s sc e Hs He)|by apply M4]. }
    destruct (same_shape_lookup h2 h e ec Hsh Hec) as (ec2 & ? & ? & _).
    exists ec2. split; [done|congruence].
  - rewrite M5. intros [[Hin _]|Hin]; [by apply (not_own_edge h s sc)|].
    by destruct (M4 s Hin) as (_ & ? & _).
Qed.

(** ** Runs of the resource manager *)

Record ledger := mkLedger { l_heap : heap L; l_own : nat -> counter -> Z; l_ext : nat -> Z }.

Definition empty_ledger : ledger := mkLedger ∅ (fun _ _ => 0) (fun _ => 0).

(** What [Done] takes off the ledger. *)
Definition done_own h own s sc : nat -> counter -> Z :=
  if done sc then own
  else match owner sc with
       | None => drop_own own s
       | Some o => sub_own own (rroot (S o) h o) (amount (DStat (stat (rc sc))))
       end.

(** One operation, with its entry in the ledger.  Callers release at most what
    they reserved, drop only references they hold, and close a DAG scope when no
    open scope is left below it. *)
Inductive gstep : ledger -> ledger -> Prop :=
| g_reserve h own ext s d h' :
    is_Some (h !! s) -> demand_ok d -> scope_reserve (S s) d s h = Some (None, h') ->
    gstep (mkLedger h own ext) (mkLedger h' (add_own own (root (S s) h s) (amount d)) ext)
| g_refused h own ext s d err h' :
    is_Some (h !! s) -> demand_ok d -> scope_reserve (S s) d s h = Some (Some err, h') ->
    gstep (mkLedger h own ext) (mkLedger h' own ext)
| g_release h own ext s d h' :
    is_Some (h !! s) -> demand_ok d -> available own h s d ->
    scope_release (S s) d s h = Some (tt, h') ->
    gstep (mkLedger h own ext) (mkLedger h' (sub_own own (rroot (S s) h s) (amount d)) ext)
| g_new h own ext lim es nm s h' :
    lim_ok lim -> edges_valid h es -> newResourceScope lim es nm h = Some (s, h') ->
    gstep (mkLedger h own ext) (mkLedger h' own ext)
| g_span h own ext s r h' :
    is_Some (h !! s) -> BeginSpan s h = Some (r, h') ->
    gstep (mkLedger h own ext) (mkLedger h' own ext)
| g_done h own ext s sc h' :
    h !! s = Some sc -> (owner sc = None -> childless h s) -> Done s h = Some (tt, h') ->
    gstep (mkLedger h own ext) (mkLedger h' (done_own h own s sc) ext)
| g_incref h own ext s sc h' :
    h !! s = Some sc -> owner sc = None -> IncRef s h = Some (tt, h') ->
    gstep (mkLedger h own ext) (mkLedger h' own (bump ext s 1))
| g_decref h own ext s sc h' :
    h !! s = Some sc -> owner sc = None -> 0 < ext s -> DecRef s h = Some (tt, h') ->
    gstep (mkLedger h own ext) (mkLedger h' own (bump ext s (-1)))
| g_move h own ext s sc add drop es :
    h !! s = Some sc -> done sc = false -> owner sc = None -> childless h s ->
    moves h s sc add drop es -> (forall e, e ∈ add -> 0 < ext e) ->
    forallb (accepts_at (DStat (stat (rc sc))) h) add = true ->
    gstep (mkLedger h own ext) (mkLedger (move_heap h s sc add drop es) own (take_refs ext add)).

Definition balanced (l : ledger) : Prop := heap_inv (l_heap l) /\ acct (l_heap l) (l_own l) (l_ext l).

Lemma balanced_reserve h own ext s d err h' :
  is_Some (h !! s) -> demand_ok d -> scope_reserve (S s) d s h = Some (err, h') ->
  balanced (mkLedger h own ext) ->
  match err with
  | None => acct h' (add_own own (root (S s) h s) (amount d)) ext
  | Some _ => acct h' own ext
  end.
Proof.
  intros Hs Hd Heq [Hinv Ha]. cbn [l_heap l_own l_ext] in *. pose proof (hi_wf h Hinv) as Hwf.
  destruct (scope_reserve_spec d (S s) s h) as (err' & Heq' & Herr);
    [lia | done | done | by apply targets_ranged; [|apply heap_ok_in_range, Hinv] |].
  rewrite Heq in Heq'. pose proof (acct_reserve_chain d (S s) s h own ext) as Hchain.
  cbv zeta in Hchain. remember (targets (S s) h s) as ts.
  injection Heq' as <- ->. destruct err.
  - assert (forallb (accepts_at d h) ts = false) as ->; [|done].
    apply not_true_is_false. intros E. by apply Herr in E.
  - rewrite (proj1 Herr eq_refl). apply Hchain; [lia|done..|by apply Herr].
Qed.

Lemma balanced_new h own ext lim es nm s h' :
  lim_ok lim -> edges_valid h es -> newResourceScope lim es nm h = Some (s, h') ->
  balanced (mkLedger h own ext) -> acct h' own ext.
Proof.
  intros Hl [Hnd Hes] Heq [Hinv Ha]. cbn [l_heap l_own l_ext] in *. rewrite newResourceScope_spec in Heq.
  injection Heq as <- <-. set (h1 := alter_all (add_refCnt 1) es h).
  assert (h1 !! fresh_addr h1 = None) as Hfr by apply fresh_addr_None.
  assert (fresh_addr h1 ∉ es) as Hni.
  { intros Hin. destruct (Hes _ Hin) as (ec & Hec & _).
    pose proof (alter_all_in (add_refCnt 1) es h _ Hnd Hin) as E. fold h1 in E.
    rewrite Hec, Hfr in E. done. }
  apply acct_new; [apply Hinv|done|done| |done|done| |by intros []|done].
  - rewrite <- Hfr. symmetry. by apply alter_all_ne.
  - intros e. rewrite child_of_edge, span_of_dag, orb_false_r by done. done.
Qed.

Lemma balanced_span h own ext s r h' :
  is_Some (h !! s) -> BeginSpan s h = Some (r, h') ->
  balanced (mkLedger h own ext) -> acct h' own ext.
Proof.
  intros [sc Hs] Heq [Hinv Ha]. cbn [l_heap l_own l_ext] in *. rewrite (BeginSpan_spec s h sc Hs) in Heq.
  destruct (done sc) eqn:Hl; injection Heq as <- <-; [done|].
  set (h1 := alter span_parent s h). assert (h1 !! fresh_addr h1 = None) as Hfr by apply fresh_addr_None.
  assert (fresh_addr h1 <> s) as Hni.
  { intros E. rewrite E in Hfr. unfold h1 in Hfr. by rewrite lookup_alter_eq, Hs in Hfr. }
  apply (acct_new h own ext span_parent [s]); [apply Hinv|done|apply NoDup_singleton| | | | |by intros []|done].
  - rewrite <- Hfr. symmetry. by apply lookup_alter_ne.
  - by rewrite list_elem_of_singleton.
  - done.
  - intros e. unfold child_of, span_of. simpl. apply bool_decide_ext.
    rewrite list_elem_of_singleton. split; congruence.
Qed.

Lemma gstep_balanced l l' : gstep l l' -> balanced l -> balanced l'.
Proof.
  intros Hstep Hbal. pose proof Hbal as [Hinv Ha].
  destruct Hstep as [h own ext s d h' Hs Hd Heq|h own ext s d err h' Hs Hd Heq
    |h own ext s d h' Hs Hd Hav Heq|h own ext lim es nm s h' Hl He Heq|h own ext s r h' Hs Heq
    |h own ext s sc h' Hs Hc Heq|h own ext s sc h' Hs Ho Heq|h own ext s sc h' Hs Ho Hx Heq
    |h own ext s sc add drop es Hs Hl Ho Hc Hm Hx Hacc]; cbn [l_heap l_own l_ext] in *; (split; cbn [l_heap l_own l_ext]).
  - by eapply step_preserves_inv; [eapply step_reserve|].
  - by apply (balanced_reserve h own ext s d None).
  - by eapply step_preserves_inv; [eapply step_reserve|].
  - by apply (balanced_reserve h own ext s d (Some err)).
  - by eapply step_preserves_inv; [eapply step_release|].
  - rewrite scope_release_spec in Heq by (done || lia || apply Hinv). injection Heq as <-.
    exact (acct_release_chain d (S s) s h own ext ltac:(lia) Hinv Ha Hd Hs Hav).
  - by eapply step_preserves_inv; [eapply step_new|].
  - by eapply balanced_new.
  - by eapply step_preserves_inv; [eapply step_span|].
  - by eapply balanced_span.
  - eapply step_preserves_inv; [eapply step_done; [by eexists|done]|done].
  - rewrite (Done_spec s h sc) in Heq by (done || apply Hinv). injection Heq as <-. unfold done_own.
    destruct (done sc) eqn:Hl; [by unfold done_heap; rewrite Hl|].
    destruct (owner sc) eqn:Ho; [by apply acct_done_span|].
    unfold done_heap. rewrite Hl, Ho. by apply acct_done_dag; auto.
  - eapply step_preserves_inv; [by eapply step_incref|done].
  - injection Heq as <-. eapply acct_ref; [apply Hinv|done..|]. pose proof (ac_ext _ _ _ Ha s). lia.
  - eapply step_preserves_inv; [by eapply step_decref|done].
  - injection Heq as <-. eapply acct_ref; [apply Hinv|done..|lia].
  - by apply inv_move.
  - by apply acct_move.
Qed.

Lemma empty_balanced : balanced empty_ledger.
Proof.
  split; [apply empty_inv|]. constructor; simpl; try done; intros ? ?; by rewrite lookup_empty.
Qed.

Lemma reachable_balanced l : rtc gstep empty_ledger l -> balanced l.
Proof.
  assert (forall l1 l2, rtc gstep l1 l2 -> balanced l1 -> balanced l2) as H
    by (induction 1; eauto using gstep_balanced).
  intros Hr. exact (H _ _ Hr empty_balanced).
Qed.

(** C36: resources are conserved.  In every state reachable by the operations of
    the resource manager, the usage an open DAG scope shows is exactly what was
    reserved on it and not yet released plus the same for every open scope below
    it; the open spans of a scope never show more than the scope they draw on;
    and the reference count of a scope is the number of open scopes and spans
    below it plus the references held by callers. *)
Theorem ledger_conserved l :
  rtc gstep empty_ledger l ->
  (forall e ec c, l_heap l !! e = Some ec -> done ec = false -> owner ec = None ->
     usage c (rc ec) = l_own l e c + edge_sum (l_own l) c (l_heap l) e) /\
  (forall s sc c, l_heap l !! s = Some sc -> done sc = false ->
     span_sum c (l_heap l) s <= held (l_own l) c s sc) /\
  (forall e ec, l_heap l !! e = Some ec -> refCnt ec = l_ext l e + ref_sum (l_heap l) e).
Proof. intros [_ Ha]%reachable_balanced. split_and!; apply Ha. Qed.

Lemma ref_sum_zero h e :
  ref_sum h e = 0 -> forall k kc, h !! k = Some kc -> child_of e kc = false /\ span_of e kc = false.
Proof.
  intros Hz k kc Hk.
  pose proof (msum_zero_members (fun _ sc => if child_of e sc || span_of e sc then 1 else 0) h) as Hm.
  specialize (Hm ltac:(intros; simpl; destruct (_ || _); lia) Hz k kc Hk). simpl in Hm.
  destruct (child_of e kc), (span_of e kc); done.
Qed.

Lemma ref_sum_nonneg h e : 0 <= ref_sum h e.
Proof. apply msum_nonneg. intros. simpl. destruct (_ || _); lia. Qed.

(** garbage collection is safe.  When [IsUnused] answers yes for an open DAG
    scope of a reachable state, nobody holds a reference to it, no open scope or
    span depends on it, it has no streams, connections or file descriptors, and
    the memory it shows is what was reserved on it directly.  Closing it therefore
    keeps the books balanced. *)
Theorem gc_safe l e ec h' :
  rtc gstep empty_ledger l -> l_heap l !! e = Some ec -> done ec = false -> owner ec = None ->
  IsUnused e (l_heap l) = Some (true, h') ->
  h' = l_heap l /\ l_ext l e = 0 /\
  (forall k kc, l_heap l !! k = Some kc -> child_of e kc = false /\ span_of e kc = false) /\
  (forall c, usage c (rc ec) = l_own l e c) /\
  (forall c, c <> CMemory -> usage c (rc ec) = 0) /\
  exists h2, Done e (l_heap l) = Some (tt, h2) /\
    balanced (mkLedger h2 (done_own (l_heap l) (l_own l) e ec) (l_ext l)).
Proof.
  intros Hr He Hl Ho Hun. apply reachable_balanced in Hr as Hbal. destruct Hbal as [Hinv Ha].
  unfold IsUnused, bind, get_scope in Hun. rewrite He, Hl in Hun.
  destruct (refCnt ec >? 0) eqn:Href; [done|]. injection Hun as Hun <-.
  pose proof (ac_refs _ _ _ Ha e ec He) as Hrefs. pose proof (ac_ext _ _ _ Ha e).
  pose proof (ref_sum_nonneg (l_heap l) e).
  assert (forall k kc, l_heap l !! k = Some kc -> child_of e kc = false /\ span_of e kc = false) as Hno
    by (apply ref_sum_zero; lia).
  assert (childless (l_heap l) e) as Hc by (intros k kc Hk; by destruct (Hno k kc Hk)).
  split_and!; [done|lia|done| | |].
  - intros c. rewrite (ac_usage _ _ _ Ha e ec c He Hl Ho), childless_edge_sum by done. lia.
  - rewrite !andb_true_iff, !Z.eqb_eq in Hun. intros [] Hne; simpl in *; lia || done.
  - pose proof (Done_spec e (l_heap l) ec (hi_wf _ Hinv) He) as Hd. eexists. split; [exact Hd|].
    apply (gstep_balanced (mkLedger (l_heap l) (l_own l) (l_ext l))); [|done].
    by apply (g_done (l_heap l) (l_own l) (l_ext l) e ec).
Qed.
End ledger.

(** ** A concrete run *)
Module LedgerDemo.
Definition prog : M BaseLimit nat :=
  let* sys := newResourceScope Demo.lim [] "system" in
  let* tr := newResourceScope Demo.lim [sys] "transient" in
  let* peer := newResourceScope Demo.lim [sys] "peer:p" in
  newResourceScope Demo.lim [tr; sys] "conn-1".

Definition h0 : heap BaseLimit := match prog ∅ with Some (_, h) => h | None => ∅ end.
Definition h : heap BaseLimit :=
  match AddConn 3 DirInbound true h0 with Some (_, h) => h | None => ∅ end.
Definition l : ledger :=
  mkLedger h (add_own (fun _ _ => 0) (root 4 h0 3) (amount (DConn DirInbound true))) (fun _ => 0).

Lemma ledger_reachable : rtc gstep empty_ledger l.
Proof.
  unfold empty_ledger.
  eapply rtc_l; [eapply (g_new _ _ _ Demo.lim [] "system"); [exact Demo.lim_is_ok| |reflexivity]; Demo.valid_edges|].
  eapply rtc_l; [eapply (g_new _ _ _ Demo.lim [O] "transient"); [exact Demo.lim_is_ok| |reflexivity]; Demo.valid_edges|].
  eapply rtc_l; [eapply (g_new _ _ _ Demo.lim [O] "peer:p"); [exact Demo.lim_is_ok| |reflexivity]; Demo.valid_edges|].
  eapply rtc_l; [eapply (g_new _ _ _ Demo.lim [1; 0]%nat "conn-1"); [exact Demo.lim_is_ok| |reflexivity]; Demo.valid_edges|].
  apply rtc_once. apply (g_reserve h0 _ _ 3 (DConn DirInbound true)); [vm_compute; by eexists|done|].
  vm_compute. reflexivity.
Qed.
End LedgerDemo.

Lemma ledger_conserved_witness :
  exists ec, LedgerDemo.h !! O = Some ec /\
    usage CFD (rc ec) = l_own LedgerDemo.l 0 CFD + edge_sum (l_own LedgerDemo.l) CFD LedgerDemo.h 0.
Proof.
  eexists. split; [vm_compute; reflexivity|].
  destruct (ledger_conserved LedgerDemo.l LedgerDemo.ledger_reachable) as [H _].
  apply H; vm_compute; reflexivity.
Defined.

Lemma gc_safe_witness :
  exists ec, LedgerDemo.h !! 2%nat = Some ec /\ (forall c, c <> CMemory -> usage c (rc ec) = 0).
Proof.
  eexists. split; [vm_compute; reflexivity|].
  edestruct (gc_safe LedgerDemo.l 2) as (_ & _ & _ & _ & H & _);
    [exact LedgerDemo.ledger_reachable | vm_compute; reflexivity | reflexivity | reflexivity | |exact H].
  vm_compute. reflexivity.
Defined.
