(* ===== verification/ScopeSpans.v ===== *)
(** * Spans in the ledger

    What was reserved on a DAG scope is split in two: what its open spans hold, and
    what was reserved on the scope itself ([free]).  Reservations and releases made
    through a span, at any depth, and closing a span move only the first part;
    reservations and releases on the scope itself move only the second; creating,
    referencing, moving and closing DAG scopes move neither. *)

From stdpp Require Import base gmap list strings fin_maps relations.
From Stdlib Require Import ZArith Lia.
From S2P Require Import Prelude Limits Resources Scope ScopeFacts ScopeInv ScopeAccount ScopeLedger.

Section spans.
Context {L : Type} `{!Limit L}.
Implicit Types (h : heap L) (sc : resourceScope L) (d : demand) (s e o t x : nat) (c : counter).
Implicit Types (own : nat -> counter -> Z) (ext : nat -> Z).

(** ** Heaps with the same spans *)

(** What [span_sum] sees of a scope. *)
Definition span_view sc : option (bool * nat * resources L) := o ← owner sc; Some (done sc, o, rc sc).

Definition same_spans h h' : Prop := forall k, h' !! k ≫= span_view = h !! k ≫= span_view.

#[export] Instance same_spans_preorder : PreOrder same_spans.
Proof. split; [by intros h k|]. intros h1 h2 h3 H1 H2 k. by rewrite H2, H1. Qed.

Lemma span_sum_view c h s :
  span_sum c h s =
  msum (fun _ (v : bool * nat * resources L) =>
          if negb v.1.1 && bool_decide (v.1.2 = s) then usage c v.2 else 0) (omap span_view h).
Proof.
  unfold span_sum. induction h as [|k sc m Hk IH] using map_ind; [done|].
  rewrite msum_insert, IH by done. unfold span_of. destruct (owner sc) as [o|] eqn:Ho.
  - rewrite (omap_insert_Some _ m k sc (done sc, o, rc sc)) by (unfold span_view; by rewrite Ho).
    rewrite msum_insert by (by rewrite lookup_omap, Hk). cbn [fst snd].
    by rewrite (bool_decide_ext (Some o = Some s) (o = s)) by (split; congruence).
  - rewrite (omap_insert_None _ m k sc) by (unfold span_view; by rewrite Ho).
    rewrite delete_id by (by rewrite lookup_omap, Hk). by rewrite bool_decide_eq_false_2, andb_false_r.
Qed.

Lemma span_sum_same h h' c s : same_spans h h' -> span_sum c h' s = span_sum c h s.
Proof.
  intros Hsame. rewrite !span_sum_view. f_equal. apply map_eq. intros k. rewrite !lookup_omap. apply Hsame.
Qed.

Lemma same_spans_alter F s h :
  (forall sc, h !! s = Some sc -> span_view (F sc) = span_view sc) -> same_spans h (alter F s h).
Proof.
  intros HF k. rewrite lookup_alter. case_decide; [subst|done]. destruct (h !! k) eqn:E; [|done]. exact (HF _ eq_refl).
Qed.

Lemma same_spans_alter_all F ts h :
  NoDup ts -> (forall k sc, k ∈ ts -> h !! k = Some sc -> span_view (F sc) = span_view sc) ->
  same_spans h (alter_all F ts h).
Proof.
  intros Hnd HF k. rewrite alter_all_lookup by done. case_decide; [|done].
  destruct (h !! k) eqn:E; [|done]. by apply (HF k).
Qed.

Lemma same_spans_insert h x sc : h !! x = None -> span_view sc = None -> same_spans h (<[x := sc]> h).
Proof. intros Hx Hsc k. rewrite lookup_insert. case_decide; [subst; by rewrite Hx|done]. Qed.

Lemma span_view_dag sc : owner sc = None -> span_view sc = None.
Proof. unfold span_view. by intros ->. Qed.

Lemma span_view_shape sc sc' : shape sc' = shape sc -> owner sc = None -> span_view sc' = span_view sc.
Proof. intros Hsh Ho. rewrite !span_view_dag; [done..|]. by rewrite (shape_owner _ _ Hsh). Qed.

(** Changing DAG scopes only. *)
Lemma same_spans_dag F ts h :
  (forall sc, shape (F sc) = shape sc) -> NoDup ts ->
  (forall k, k ∈ ts -> exists kc, h !! k = Some kc /\ owner kc = None) ->
  same_spans h (alter_all F ts h).
Proof.
  intros HF Hnd Hdag. apply same_spans_alter_all; [done|]. intros k sc Hk Hs.
  destruct (Hdag k Hk) as (kc & ? & ?). simplify_eq. by apply span_view_shape.
Qed.

Lemma edges_dag h s sc k :
  heap_wf h -> h !! s = Some sc -> k ∈ edges sc -> exists kc, h !! k = Some kc /\ owner kc = None.
Proof. intros Hwf Hs Hk. by destruct (hw_edges h Hwf s sc k Hs Hk) as (_ & ? & ? & ?); eauto. Qed.

Lemma same_spans_move h s sc add drop es :
  heap_wf h -> h !! s = Some sc -> owner sc = None -> moves h s sc add drop es ->
  same_spans h (move_heap h s sc add drop es).
Proof.
  intros Hwf Hs Ho [M1 M2 M3 M4 M5 M6]. unfold move_heap.
  set (h1 := alter_all (charge _) add h).
  assert (same_shape h h1) as Hsh1 by by apply same_shape_alter_all.
  assert (forall k, (exists kc, h !! k = Some kc /\ owner kc = None) -> exists kc, h1 !! k = Some kc /\ owner kc = None) as Hdag.
  { intros k (kc & Hk & Hok). symmetry in Hsh1. destruct (same_shape_lookup _ _ k kc Hsh1 Hk) as (kc' & ? & E & _).
    exists kc'. split; [done|congruence]. }
  transitivity h1; [apply same_spans_dag; [done..|]|].
  { intros k Hk. by destruct (M4 k Hk) as (_ & _ & ?). }
  set (h2 := alter_all (detach _) drop h1).
  transitivity h2; [apply same_spans_dag; [apply shape_detach|done|]|].
  { intros k Hk. apply Hdag. by apply (edges_dag h s sc), M3. }
  apply same_spans_alter. intros sc2 Hs2. assert (same_shape h h2) as Hsh2.
  { transitivity h1; [done|]. apply same_shape_alter_all, shape_detach. }
  destruct (same_shape_lookup _ _ s sc2 Hsh2 Hs2) as (sc' & ? & E & _). simplify_eq.
  rewrite !span_view_dag; [done|..]; cbn; congruence.
Qed.

Lemma same_spans_done h s sc :
  heap_wf h -> h !! s = Some sc -> owner sc = None -> same_spans h (done_heap h s sc).
Proof.
  intros Hwf Hs Ho. unfold done_heap. destruct (done sc); [reflexivity|]. rewrite Ho.
  pose proof (hw_nodup h Hwf s sc Hs) as Hnd. set (h1 := alter_all _ _ _).
  transitivity h1; [apply same_spans_dag; [apply shape_detach|done|intros k; by apply (edges_dag h s sc)]|].
  apply same_spans_alter. intros sc1. unfold h1. rewrite alter_all_ne by (by eapply not_own_edge).
  rewrite Hs. intros [= <-]. by rewrite !span_view_dag.
Qed.

Lemma same_spans_new h lim es nm s h' :
  edges_valid h es -> newResourceScope lim es nm h = Some (s, h') -> same_spans h h'.
Proof.
  intros [Hnd Hes] Heq. rewrite newResourceScope_spec in Heq. injection Heq as _ <-.
  transitivity (alter_all (add_refCnt 1) es h).
  - apply same_spans_dag; [done..|]. intros k Hk. by apply Hes.
  - apply same_spans_insert; [apply fresh_addr_None|done].
Qed.

(** A new span holds nothing yet. *)
Lemma span_sum_begin h s r h' c x : BeginSpan s h = Some (r, h') -> span_sum c h' x = span_sum c h x.
Proof.
  intros Heq. destruct (h !! s) as [sc|] eqn:Hs; [|by unfold BeginSpan, bind, get_scope in Heq; rewrite Hs in Heq].
  rewrite (BeginSpan_spec s h sc Hs) in Heq. destruct (done sc); injection Heq as _ <-; [done|].
  set (h1 := alter span_parent s h). unfold span_sum. rewrite msum_insert by apply fresh_addr_None.
  change (msum _ h1) with (span_sum c h1 x). rewrite (span_sum_same h h1); [|by apply same_spans_alter].
  by destruct (span_of x _), c.
Qed.

Lemma span_sum_dangling h x c : heap_wf h -> h !! x = None -> span_sum c h x = 0.
Proof. intros Hwf Hx. apply msum_zero. intros k kc Hk. by destruct (dangling h x Hwf Hx k kc Hk) as [_ ->]. Qed.

(** ** Reservations and releases *)

Definition free own c h x : Z := own x c - span_sum c h x.

Definition is_span h s : bool := match h !! s with Some sc => bool_decide (is_Some (owner sc)) | None => false end.

Lemma span_of_owner s sc x o :
  done sc = false -> owner sc = Some o -> span_of x sc = bool_decide (o = x).
Proof. intros Hl Ho. unfold span_of. rewrite Hl, Ho. simpl. apply bool_decide_ext. split; congruence. Qed.

(** A reservation made through a span shows in the spans of the scope at the end of
    the chain of owners. *)
Lemma span_sum_reserve d fuel s h c x xc :
  (s < fuel)%nat -> heap_inv h -> demand_ok d -> is_Some (h !! s) ->
  forallb (accepts_at d h) (targets fuel h s) = true -> h !! x = Some xc -> owner xc = None ->
  span_sum c (alter_all (charge d) (targets fuel h s) h) x =
  span_sum c h x + (if is_span h s && bool_decide (root fuel h s = x) then amount d c else 0).
Proof.
  intros Hfuel Hinv Hd Hs Hacc Hx Hox. revert s Hfuel Hs Hacc.
  induction fuel as [|fuel IH]; intros s Hfuel [sc Hs] Hacc; [lia|].
  pose proof (hi_wf h Hinv) as Hwf. pose proof (targets_NoDup (S fuel) h s Hwf) as Hnd.
  unfold is_span. cbn [targets root] in *. rewrite Hs in *.
  destruct (owner sc) as [o|] eqn:Ho.
  - destruct (hw_owner h Hwf s sc o Hs Ho) as (Hlt & [oc Hoc] & _). apply NoDup_cons in Hnd as [Hsts Hnd].
    cbn [forallb] in Hacc. apply andb_prop in Hacc as [Hacs Hacc].
    unfold accepts_at in Hacs. rewrite Hs in Hacs. pose proof (accepts_true _ _ Hacs) as [Hl _].
    cbn [alter_all]. rewrite alter_all_comm by done. set (h1 := alter_all (charge d) (targets fuel h o) h) in *.
    assert (h1 !! s = Some sc) as Hs1 by (unfold h1; by rewrite alter_all_ne).
    rewrite (span_sum_alter c _ s h1 sc) by done.
    unfold h1. rewrite (IH o) by (done || lia || by eexists).
    rewrite (span_of_owner s sc x o) by done. rewrite usage_charge by (done || exact (hi_ok h Hinv s sc Hs)).
    unfold is_span. rewrite Hoc, (bool_decide_eq_true_2 (is_Some (Some o))) by by eexists. cbn [andb].
    destruct (owner oc) as [o'|] eqn:Hoo.
    + rewrite (bool_decide_eq_true_2 (is_Some (Some o'))), (bool_decide_eq_false_2 (o = x)) by (by eexists || congruence).
      cbn [andb]. lia.
    + rewrite (bool_decide_eq_false_2 (is_Some None)) by by intros [? ?]. cbn [andb].
      assert (root fuel h o = o) as -> by (destruct fuel; [lia|]; cbn; by rewrite Hoc, Hoo).
      case_bool_decide; lia.
  - rewrite (bool_decide_eq_false_2 (is_Some None)) by by intros [? ?]. cbn [andb]. rewrite Z.add_0_r.
    apply span_sum_same, same_spans_dag; [done..|]. intros k [->|Hk]%elem_of_cons; [by eauto|]. by apply (edges_dag h s sc).
Qed.

Lemma span_usage_le h own ext t tc o oc c :
  heap_inv h -> acct h own ext -> h !! t = Some tc -> done tc = false -> owner tc = Some o ->
  h !! o = Some oc -> done oc = false -> usage c (rc tc) <= held own c o oc.
Proof.
  intros Hinv Ha Ht Hl Ho Hoc Hlo. etrans; [|by eapply (ac_spans _ _ _ Ha)].
  pose proof (msum_le_member (fun _ tc => if span_of o tc then usage c (rc tc) else 0) h t tc) as Hm. simpl in Hm.
  rewrite (span_of_owner t tc o o), bool_decide_eq_true_2 in Hm by done. apply Hm; [|done].
  intros k kc Hk. destruct (span_of o kc); [|lia]. apply (ro_range _ (hi_ok h Hinv k kc Hk)).
Qed.

Lemma span_sum_release d fuel s h own ext c x xc :
  (s < fuel)%nat -> heap_inv h -> acct h own ext -> demand_ok d -> is_Some (h !! s) ->
  (forall sc, h !! s = Some sc -> done sc = false -> is_Some (owner sc) -> forall c, amount d c <= usage c (rc sc)) ->
  h !! x = Some xc -> owner xc = None -> done xc = false ->
  span_sum c (alter_all (unload d) (rtargets fuel h s) h) x =
  span_sum c h x - (if is_span h s && bool_decide (rroot fuel h s = Some x) then amount d c else 0).
Proof.
  intros Hfuel Hinv Ha Hd Hs Hav Hx Hox Hlx. revert s Hfuel Hs Hav.
  induction fuel as [|fuel IH]; intros s Hfuel [sc Hs] Hav; [lia|].
  pose proof (hi_wf h Hinv) as Hwf. pose proof (rtargets_NoDup (S fuel) h s Hwf) as Hnd.
  unfold is_span. cbn [rtargets rroot] in *. rewrite Hs in *.
  destruct (done sc) eqn:Hl; [rewrite (bool_decide_eq_false_2 (None = Some x)), andb_false_r by done; simpl; lia|].
  destruct (owner sc) as [o|] eqn:Ho.
  - specialize (Hav sc eq_refl Hl). rewrite Ho in Hav. specialize (Hav (mk_is_Some _ _ eq_refl)).
    destruct (hw_owner h Hwf s sc o Hs Ho) as (Hlt & [oc Hoc] & _). apply NoDup_cons in Hnd as [Hsts Hnd].
    cbn [alter_all]. rewrite alter_all_comm by done. set (h1 := alter_all (unload d) (rtargets fuel h o) h) in *.
    assert (h1 !! s = Some sc) as Hs1 by (unfold h1; by rewrite alter_all_ne).
    rewrite (span_sum_alter c _ s h1 sc) by (done || apply shape_unload).
    unfold h1. rewrite (IH o); [|lia|by eexists|].
    2:{ intros oc' Hoc' Hlo [o' Hoo] c'. simplify_eq. etrans; [apply Hav|].
        pose proof (span_usage_le h own ext s sc o oc c' Hinv Ha Hs Hl Ho Hoc Hlo) as Hle. unfold held in Hle. by rewrite Hoo in Hle. }
    rewrite (span_of_owner s sc x o) by done. rewrite usage_unload_exact by (done || exact (hi_ok h Hinv s sc Hs)).
    unfold is_span. rewrite Hoc, (bool_decide_eq_true_2 (is_Some (Some o))) by by eexists. cbn [andb].
    destruct (owner oc) as [o'|] eqn:Hoo.
    + rewrite (bool_decide_eq_true_2 (is_Some (Some o'))), (bool_decide_eq_false_2 (o = x)) by (by eexists || congruence).
      cbn [andb]. lia.
    + rewrite (bool_decide_eq_false_2 (is_Some None)) by by intros [? ?]. cbn [andb].
      destruct (decide (o = x)) as [->|Hne].
      * rewrite Hx in Hoc. injection Hoc as ->. destruct fuel; [lia|]. cbn. rewrite Hx, Hlx, Hoo, !bool_decide_eq_true_2 by done. lia.
      * assert (rroot fuel h o <> Some x) as Hr by (destruct fuel; [lia|]; cbn; rewrite Hoc, Hoo; destruct (done oc); congruence).
        rewrite (bool_decide_eq_false_2 (o = x)), (bool_decide_eq_false_2 (rroot fuel h o = Some x)) by done. lia.
  - rewrite (bool_decide_eq_false_2 (is_Some None)) by by intros [? ?]. cbn [andb]. rewrite Z.sub_0_r.
    apply span_sum_same, same_spans_dag; [apply shape_unload|done|]. intros k [->|Hk]%elem_of_cons; [by eauto|]. by apply (edges_dag h s sc).
Qed.

Lemma free_same own c h h' x : same_spans h h' -> free own c h' x = free own c h x.
Proof. intros Hsame. unfold free. by rewrite (span_sum_same h h'). Qed.

Lemma root_dag fuel h s sc : h !! s = Some sc -> owner sc = None -> root fuel h s = s.
Proof. intros Hs Ho. destruct fuel; [done|]. cbn. by rewrite Hs, Ho. Qed.

(** Reserving changes what is reserved on [x] itself only when it is made on [x]. *)
Lemma free_reserve h own s d h' c x xc :
  heap_inv h -> demand_ok d -> is_Some (h !! s) -> scope_reserve (S s) d s h = Some (None, h') ->
  h !! x = Some xc -> owner xc = None ->
  free (add_own own (root (S s) h s) (amount d)) c h' x =
  free own c h x + (if decide (x = s) then amount d c else 0).
Proof.
  intros Hinv Hd Hs Heq Hx Hox. pose proof (hi_wf h Hinv) as Hwf.
  destruct (scope_reserve_spec d (S s) s h) as (err & Heq' & Herr);
    [lia|done|done|by apply targets_ranged; [|apply heap_ok_in_range, Hinv]|].
  rewrite Heq in Heq'. remember (targets (S s) h s) as ts eqn:Hts. injection Heq' as <- ->.
  pose proof (proj1 Herr eq_refl) as Hacc. rewrite Hacc. subst ts. unfold free, add_own. rewrite (span_sum_reserve d (S s) s h c x xc) by (done || lia).
  destruct Hs as [sc Hs]. unfold is_span. rewrite Hs. destruct (owner sc) as [o|] eqn:Ho.
  - rewrite (bool_decide_eq_true_2 (is_Some (Some o))), (decide_False (P := x = s)) by (by eexists || congruence). cbn [andb].
    case_decide; case_bool_decide; first [lia|congruence].
  - rewrite (bool_decide_eq_false_2 (is_Some None)) by by intros [? ?]. cbn [andb].
    rewrite (root_dag (S s) h s sc) by done. case_decide; lia.
Qed.

Lemma free_release h own ext s d h' c x xc :
  heap_inv h -> acct h own ext -> demand_ok d -> is_Some (h !! s) -> available own h s d ->
  scope_release (S s) d s h = Some (tt, h') -> h !! x = Some xc -> owner xc = None -> done xc = false ->
  free (sub_own own (rroot (S s) h s) (amount d)) c h' x =
  free own c h x - (if decide (x = s) then amount d c else 0).
Proof.
  intros Hinv Ha Hd Hs Hav Heq Hx Hox Hlx. rewrite scope_release_spec in Heq by (done || lia || apply Hinv).
  remember (rtargets (S s) h s) as ts eqn:Hts. injection Heq as <-. subst ts. unfold free.
  rewrite (span_sum_release d (S s) s h own ext c x xc); try done; [|lia|].
  2:{ intros sc Hsc Hl [o Ho] c'. specialize (Hav sc c' Hsc Hl). unfold held in Hav. rewrite Ho in Hav.
      pose proof (span_sum_nonneg c' h s (hi_ok h Hinv)). lia. }
  destruct Hs as [sc Hs]. unfold is_span. rewrite Hs. destruct (owner sc) as [o|] eqn:Ho.
  - rewrite (bool_decide_eq_true_2 (is_Some (Some o))), (decide_False (P := x = s)) by (by eexists || congruence). cbn [andb].
    destruct (rroot (S s) h s) as [t|]; cbn [sub_own]; [|rewrite bool_decide_eq_false_2 by done; lia].
    unfold add_own. case_decide; case_bool_decide; first [lia|congruence].
  - rewrite (bool_decide_eq_false_2 (is_Some None)) by by intros [? ?]. cbn [andb rroot]. rewrite Hs, Ho.
    destruct (done sc) eqn:Hl; cbn [sub_own]; [rewrite decide_False by congruence; lia|].
    unfold add_own. case_decide; lia.
Qed.

(** Closing a span gives back what it holds, all of it through the span. *)
Lemma free_done_span h own ext s sc o c x xc :
  heap_inv h -> acct h own ext -> h !! s = Some sc -> owner sc = Some o ->
  h !! x = Some xc -> owner xc = None -> done xc = false ->
  free (done_own h own s sc) c (done_heap h s sc) x = free own c h x.
Proof.
  intros Hinv Ha Hs Ho Hx Hox Hlx. unfold done_own, done_heap. destruct (done sc) eqn:Hl; [done|]. rewrite Ho.
  pose proof (hi_wf h Hinv) as Hwf. destruct (hw_owner h Hwf s sc o Hs Ho) as (Hlt & [oc Hoc] & _).
  rewrite (done_span_heap h s sc o) by done. set (d := DStat (stat (rc sc))).
  destruct (acct_close_span h own ext s sc o Hinv Ha Hs Hl Ho) as [Ha0 Hsp].
  pose proof (inv_close_span h s sc o Hinv Hs Ho) as Hinv0. set (h0 := close_span s o h) in *.
  assert (rroot (S o) h o = rroot (S o) h0 o) as ->.
  { assert (same_shape (alter mark_done s h) h0) as Hsh by by apply same_shape_alter.
    rewrite <- (rroot_shape (S o) _ _ o Hsh). by destruct (chain_below (S o) h mark_done s o Hwf Hlt) as [_ ->]. }
  assert (forall y yc, y <> s -> h !! y = Some yc -> exists yc', h0 !! y = Some yc' /\ rc yc' = rc yc /\ shape yc' = shape yc) as Hlook.
  { intros y yc Hne Hy. unfold h0. rewrite (close_span_lookup h s sc o y), decide_False by done.
    case_decide; [subst; rewrite Hoc in Hy; injection Hy as ->; rewrite Hoc|rewrite Hy]; by eexists. }
  destruct (Hlook x xc) as (xc0 & Hx0 & _ & Hshx); [congruence|done|].
  destruct (Hlook o oc) as (oc0 & Hoc0 & Hrc0 & Hsho); [lia|done|].
  assert (available own h0 o d) as Hav.
  { intros oc1 c' Hoc1 Hlo. rewrite Hoc0 in Hoc1. injection Hoc1 as <-. rewrite Hsp. unfold d. rewrite amount_stat.
    rewrite (shape_done _ _ Hsho) in Hlo. pose proof (ac_spans _ _ _ Ha o oc c' Hoc Hlo) as Hle.
    unfold held in *. rewrite (shape_owner _ _ Hsho), Hrc0. lia. }
  assert (is_Some (h0 !! o)) as Hso by by eexists.
  pose proof (scope_release_spec d (S o) o h0 ltac:(lia) (hi_wf h0 Hinv0) Hso) as Hrel.
  rewrite <- (shape_owner _ _ Hshx) in Hox. rewrite <- (shape_done _ _ Hshx) in Hlx.
  assert (demand_ok d) as Hd by apply stat_demand_ok, (hi_ok h Hinv s sc Hs).
  rewrite (free_release h0 own ext o d _ c x xc0 Hinv0 Ha0 Hd Hso Hav Hrel Hx0 Hox Hlx).
  unfold free. case_decide as Hxo; [subst x; rewrite Hsp; unfold d; rewrite amount_stat; lia|].
  assert (span_sum c h0 x = span_sum c h x) as ->; [|lia].
  unfold h0, close_span. rewrite (span_sum_same (alter mark_done s h)); [|by apply same_spans_alter].
  unfold span_sum. rewrite (msum_alter _ h s sc) by done.
  rewrite (span_of_owner s sc x o), bool_decide_eq_false_2 by (done || congruence). unfold span_of. simpl. lia.
Qed.
End spans.
