(* ===== verification/ConnLimiter.v ===== *)
(** * Per-subnet connection limits (src/p2p/host/resource-manager/conn_limiter.go)

    [netip.Addr] and [netip.Prefix] of the Go standard library are modelled as
    far as the limiter uses them.  The per-subnet maps are keyed by
    [prefix.String()] in the source and by the prefix itself here: the textual
    form of a prefix determines it.  A nil map is [None] and writing to it is a
    panic, as is indexing a slice out of range; both are the result [None] of
    the operations, and [addConn_refines] shows that they do not occur. *)

From stdpp Require Import base gmap list strings sorting.
From Stdlib Require Import ZArith Lia.
From S2P Require Import Prelude.

(** ** Addresses and prefixes of [net/netip] *)

Inductive Addr :=
| AddrZero
| Addr4 (v : Z)
| Addr6 (v : Z) (zone : string).

#[export] Instance Addr_eq_dec : EqDecision Addr.
Proof. solve_decision. Defined.

Record Prefix := mkPrefix { p_addr : Addr; Bits : Z }.

#[export] Instance Prefix_eq_dec : EqDecision Prefix.
Proof. solve_decision. Defined.

#[export] Instance Prefix_countable : Countable Prefix.
Proof.
  set (enc := fun p => (match p_addr p with
    | AddrZero => inl (inl tt)
    | Addr4 v => inl (inr v)
    | Addr6 v z => inr (v, z) end : (unit + Z) + (Z * string), Bits p)).
  refine (inj_countable' enc (fun x => mkPrefix
    (match x.1 with inl (inl _) => AddrZero | inl (inr v) => Addr4 v | inr (v, z) => Addr6 v z end) x.2) _).
  by intros [[] ?].
Defined.

Definition Is6 (ip : Addr) : bool := match ip with Addr6 _ _ => true | _ => false end.
Definition BitLen (ip : Addr) : Z := match ip with AddrZero => 0 | Addr4 _ => 32 | Addr6 _ _ => 128 end.

(** The [b] leading bits of a [w]-bit value. *)
Definition mask_to (w b v : Z) : Z := Z.shiftl (Z.shiftr v (w - b)) (w - b).

(** [ip.Prefix(b)]; [None] is the error of a bad length. *)
Definition Addr_Prefix (ip : Addr) (b : Z) : option Prefix :=
  if b <? 0 then None
  else match ip with
       | AddrZero => Some (mkPrefix AddrZero (-1))
       | Addr4 v => if b >? 32 then None else Some (mkPrefix (Addr4 (mask_to 32 b v)) b)
       | Addr6 v _ => if b >? 128 then None else Some (mkPrefix (Addr6 (mask_to 128 b v) "") b)
       end.

(** [p.Contains(ip)]: same family, no zone, same leading bits. *)
Definition Contains (p : Prefix) (ip : Addr) : bool :=
  (0 <=? Bits p) &&
  match p_addr p, ip with
  | Addr4 pv, Addr4 v => Z.shiftr (Z.lxor pv v) (32 - Bits p) =? 0
  | Addr6 pv _, Addr6 v zone => (String.length zone =? 0)%nat && (Z.shiftr (Z.lxor pv v) (128 - Bits p) =? 0)
  | _, _ => false
  end.

(** ** Limits *)

Record ConnLimitPerSubnet := { PrefixLength : Z; sn_ConnCount : Z }.
Record NetworkPrefixLimit := { Network : Prefix; np_ConnCount : Z }.

Definition defaultMaxConcurrentConns : Z := 8.
Definition defaultIP4Limit : ConnLimitPerSubnet :=
  {| sn_ConnCount := defaultMaxConcurrentConns; PrefixLength := 32 |}.
Definition defaultIP6Limits : list ConnLimitPerSubnet :=
  [ {| sn_ConnCount := defaultMaxConcurrentConns; PrefixLength := 56 |};
    {| sn_ConnCount := 8 * defaultMaxConcurrentConns; PrefixLength := 48 |} ].

(** [slices.SortStableFunc] by decreasing number of bits. *)
Fixpoint insert_stable (a : NetworkPrefixLimit) (l : list NetworkPrefixLimit) : list NetworkPrefixLimit :=
  match l with
  | [] => [a]
  | b :: l => if Bits (Network b) - Bits (Network a) <=? 0 then a :: b :: l else b :: insert_stable a l
  end.
Fixpoint sortNetworkPrefixes (l : list NetworkPrefixLimit) : list NetworkPrefixLimit :=
  match l with
  | [] => []
  | a :: l => insert_stable a (sortNetworkPrefixes l)
  end.

Definition DefaultNetworkPrefixLimitV4 : list NetworkPrefixLimit :=
  sortNetworkPrefixes [ {| Network := mkPrefix (Addr4 (Z.shiftl 127 24)) 8; np_ConnCount := MaxInt64 |} ].
Definition DefaultNetworkPrefixLimitV6 : list NetworkPrefixLimit :=
  sortNetworkPrefixes [ {| Network := mkPrefix (Addr6 1 "") 128; np_ConnCount := MaxInt64 |} ].

(** ** The limiter *)

Abbreviation counts := (gmap Prefix Z).

Record connLimiter := {
  networkPrefixLimitV4 : list NetworkPrefixLimit;
  networkPrefixLimitV6 : list NetworkPrefixLimit;
  connsPerNetworkPrefixV4 : list Z;
  connsPerNetworkPrefixV6 : list Z;
  connLimitPerSubnetV4 : list ConnLimitPerSubnet;
  connLimitPerSubnetV6 : list ConnLimitPerSubnet;
  ip4connsPerLimit : list (option counts);
  ip6connsPerLimit : list (option counts);
}.

Definition newConnLimiter : connLimiter := {|
  networkPrefixLimitV4 := DefaultNetworkPrefixLimitV4;
  networkPrefixLimitV6 := DefaultNetworkPrefixLimitV6;
  connsPerNetworkPrefixV4 := [];
  connsPerNetworkPrefixV6 := [];
  connLimitPerSubnetV4 := [defaultIP4Limit];
  connLimitPerSubnetV6 := defaultIP6Limits;
  ip4connsPerLimit := [];
  ip6connsPerLimit := [];
|}.

(** The fields of one address family, chosen at the head of [addConn] and
    [rmConn]. *)
Record family := mkFamily {
  networkPrefixLimits : list NetworkPrefixLimit;
  connsPerNetworkPrefix : list Z;
  limits : list ConnLimitPerSubnet;
  connsPerLimit : list (option counts);
}.

Definition view (isIP6 : bool) (cl : connLimiter) : family :=
  if isIP6 then mkFamily (networkPrefixLimitV6 cl) (connsPerNetworkPrefixV6 cl)
                         (connLimitPerSubnetV6 cl) (ip6connsPerLimit cl)
  else mkFamily (networkPrefixLimitV4 cl) (connsPerNetworkPrefixV4 cl)
                (connLimitPerSubnetV4 cl) (ip4connsPerLimit cl).

Definition put (isIP6 : bool) (f : family) (cl : connLimiter) : connLimiter :=
  if isIP6 then {|
    networkPrefixLimitV4 := networkPrefixLimitV4 cl;
    networkPrefixLimitV6 := networkPrefixLimits f;
    connsPerNetworkPrefixV4 := connsPerNetworkPrefixV4 cl;
    connsPerNetworkPrefixV6 := connsPerNetworkPrefix f;
    connLimitPerSubnetV4 := connLimitPerSubnetV4 cl;
    connLimitPerSubnetV6 := limits f;
    ip4connsPerLimit := ip4connsPerLimit cl;
    ip6connsPerLimit := connsPerLimit f |}
  else {|
    networkPrefixLimitV4 := networkPrefixLimits f;
    networkPrefixLimitV6 := networkPrefixLimitV6 cl;
    connsPerNetworkPrefixV4 := connsPerNetworkPrefix f;
    connsPerNetworkPrefixV6 := connsPerNetworkPrefixV6 cl;
    connLimitPerSubnetV4 := limits f;
    connLimitPerSubnetV6 := connLimitPerSubnetV6 cl;
    ip4connsPerLimit := connsPerLimit f;
    ip6connsPerLimit := ip6connsPerLimit cl |}.

Definition WithNetworkPrefixLimit (ipv4 ipv6 : option (list NetworkPrefixLimit)) (cl : connLimiter) : connLimiter :=
  let set b (l : option (list NetworkPrefixLimit)) cl :=
    match l with
    | Some l => let f := view b cl in
        put b (mkFamily (sortNetworkPrefixes l) (connsPerNetworkPrefix f) (limits f) (connsPerLimit f)) cl
    | None => cl
    end in
  set true ipv6 (set false ipv4 cl).

Definition WithLimitPerSubnet (ipv4 ipv6 : option (list ConnLimitPerSubnet)) (cl : connLimiter) : connLimiter :=
  let set b (l : option (list ConnLimitPerSubnet)) cl :=
    match l with
    | Some l => let f := view b cl in
        put b (mkFamily (networkPrefixLimits f) (connsPerNetworkPrefix f) l (connsPerLimit f)) cl
    | None => cl
    end in
  set true ipv6 (set false ipv4 cl).

Definition addNetworkPrefixLimit (isIP6 : bool) (npLimit : NetworkPrefixLimit) (cl : connLimiter) : connLimiter :=
  let f := view isIP6 cl in
  put isIP6 (mkFamily (sortNetworkPrefixes (networkPrefixLimits f ++ [npLimit]))
                      (connsPerNetworkPrefix f) (limits f) (connsPerLimit f)) cl.

(** The lazily made slices. *)
Definition init_prefixes (f : family) : family :=
  if (length (connsPerNetworkPrefix f) =? 0)%nat && (0 <? length (networkPrefixLimits f))%nat
  then mkFamily (networkPrefixLimits f) (replicate (length (networkPrefixLimits f)) 0) (limits f) (connsPerLimit f)
  else f.
Definition init_subnets (f : family) : family :=
  if (length (connsPerLimit f) =? 0)%nat && (0 <? length (limits f))%nat
  then mkFamily (networkPrefixLimits f) (connsPerNetworkPrefix f) (limits f) (replicate (length (limits f)) None)
  else f.

(** The first network prefix that contains the address, with its index. *)
Fixpoint first_match (ip : Addr) (i : nat) (lims : list NetworkPrefixLimit) : option (nat * NetworkPrefixLimit) :=
  match lims with
  | [] => None
  | lim :: lims => if Contains (Network lim) ip then Some (i, lim) else first_match ip (S i) lims
  end.

(** The loop that checks the subnet limits, creating missing entries. *)
Fixpoint check_subnets (ip : Addr) (i : nat) (lims : list ConnLimitPerSubnet) (conns : list (option counts))
    : option (bool * list (option counts)) :=
  match lims with
  | [] => Some (true, conns)
  | lim :: lims =>
    match Addr_Prefix ip (PrefixLength lim) with
    | None => Some (false, conns)
    | Some masked =>
      match conns !! i with
      | None => None
      | Some m =>
          let entry := m ≫= lookup masked in
          let conns := match entry with
                       | Some _ => conns
                       | None => <[i := Some (<[masked := 0]> (default ∅ m))]> conns
                       end in
          if wrap64 (default 0 entry + 1) >? sn_ConnCount lim then Some (false, conns)
          else check_subnets ip (S i) lims conns
      end
    end
  end.

(** The loop that counts the connection in every subnet. *)
Fixpoint count_subnets (ip : Addr) (i : nat) (lims : list ConnLimitPerSubnet) (conns : list (option counts))
    : option (list (option counts)) :=
  match lims with
  | [] => Some conns
  | lim :: lims =>
    let masked := default (mkPrefix AddrZero (-1)) (Addr_Prefix ip (PrefixLength lim)) in
    match conns !! i with
    | Some (Some m) =>
        count_subnets ip (S i) lims (<[i := Some (<[masked := wrap64 (default 0 (m !! masked) + 1)]> m)]> conns)
    | _ => None
    end
  end.

Definition addConn (ip : Addr) (cl : connLimiter) : option (bool * connLimiter) :=
  let isIP6 := Is6 ip in
  let f := init_prefixes (view isIP6 cl) in
  match first_match ip 0 (networkPrefixLimits f) with
  | Some (i, limit) =>
    match connsPerNetworkPrefix f !! i with
    | None => None
    | Some n =>
        if wrap64 (n + 1) >? np_ConnCount limit then Some (false, put isIP6 f cl)
        else Some (true, put isIP6 (mkFamily (networkPrefixLimits f) (<[i := wrap64 (n + 1)]> (connsPerNetworkPrefix f))
                                             (limits f) (connsPerLimit f)) cl)
    end
  | None =>
    let f := init_subnets f in
    let set conns := put isIP6 (mkFamily (networkPrefixLimits f) (connsPerNetworkPrefix f) (limits f) conns) cl in
    match check_subnets ip 0 (limits f) (connsPerLimit f) with
    | None => None
    | Some (false, conns) => Some (false, set conns)
    | Some (true, conns) =>
        match count_subnets ip 0 (limits f) conns with
        | None => None
        | Some conns => Some (true, set conns)
        end
    end
  end.

(** The loop of [rmConn]: unknown subnets are logged and skipped, an entry that
    reaches zero is deleted. *)
Fixpoint uncount_subnets (ip : Addr) (i : nat) (lims : list ConnLimitPerSubnet) (conns : list (option counts))
    : option (list (option counts)) :=
  match lims with
  | [] => Some conns
  | lim :: lims =>
    match Addr_Prefix ip (PrefixLength lim) with
    | None => uncount_subnets ip (S i) lims conns
    | Some masked =>
      match conns !! i with
      | None => None
      | Some m =>
          let entry := m ≫= lookup masked in
          if (match entry with None => true | Some n => n =? 0 end)
          then uncount_subnets ip (S i) lims conns
          else
            let n := wrap64 (default 0 entry - 1) in
            let m := default ∅ m in
            uncount_subnets ip (S i) lims
              (<[i := Some (if n <=? 0 then delete masked m else <[masked := n]> m)]> conns)
      end
    end
  end.

Definition rmConn (ip : Addr) (cl : connLimiter) : option connLimiter :=
  let isIP6 := Is6 ip in
  let f := init_prefixes (view isIP6 cl) in
  match first_match ip 0 (networkPrefixLimits f) with
  | Some (i, limit) =>
    match connsPerNetworkPrefix f !! i with
    | None => None
    | Some n =>
        if n <=? 0 then Some (put isIP6 f cl)
        else Some (put isIP6 (mkFamily (networkPrefixLimits f) (<[i := wrap64 (n - 1)]> (connsPerNetworkPrefix f))
                                       (limits f) (connsPerLimit f)) cl)
    end
  | None =>
    let f := init_subnets f in
    match uncount_subnets ip 0 (limits f) (connsPerLimit f) with
    | None => None
    | Some conns => Some (put isIP6 (mkFamily (networkPrefixLimits f) (connsPerNetworkPrefix f) (limits f) conns) cl)
    end
  end.

(** ** Specification

    The limiter counts the live connections: [live] is the multiset of addresses
    admitted and not yet removed. *)

Definition np_index (lims : list NetworkPrefixLimit) (ip : Addr) : option nat := fst <$> first_match ip 0 lims.

(** Connections of family [b] counted by network prefix [i]. *)
Definition in_prefix (b : bool) lims (i : nat) (ip : Addr) : bool :=
  Bool.eqb (Is6 ip) b && bool_decide (np_index lims ip = Some i).
(** Connections of family [b] counted in subnet [p] of length [len]. *)
Definition in_subnet (b : bool) lims (len : Z) (p : Prefix) (ip : Addr) : bool :=
  Bool.eqb (Is6 ip) b && bool_decide (np_index lims ip = None) && bool_decide (Addr_Prefix ip len = Some p).

Definition admits (f : family) (live : list Addr) (ip : Addr) : bool :=
  let lims := networkPrefixLimits f in
  match first_match ip 0 lims with
  | Some (i, lim) => tally (in_prefix (Is6 ip) lims i) live + 1 <=? np_ConnCount lim
  | None =>
      forallb (fun lim =>
        match Addr_Prefix ip (PrefixLength lim) with
        | None => false
        | Some p => tally (in_subnet (Is6 ip) lims (PrefixLength lim) p) live + 1 <=? sn_ConnCount lim
        end) (limits f)
  end.

Definition subnet_at (conns : list (option counts)) (i : nat) (p : Prefix) : option Z :=
  (conns !! i ≫= id) ≫= lookup p.

Record fam_inv (b : bool) (f : family) (live : list Addr) : Prop := {
  fi_np_len : connsPerNetworkPrefix f = [] \/
              length (connsPerNetworkPrefix f) = length (networkPrefixLimits f);
  fi_np : forall i, default 0 (connsPerNetworkPrefix f !! i) =
                    tally (in_prefix b (networkPrefixLimits f) i) live;
  fi_np_max : forall i lim, networkPrefixLimits f !! i = Some lim ->
    tally (in_prefix b (networkPrefixLimits f) i) live <= Z.max 0 (np_ConnCount lim);
  fi_sn_len : connsPerLimit f = [] \/ length (connsPerLimit f) = length (limits f);
  fi_sn : forall i lim p, limits f !! i = Some lim ->
    default 0 (subnet_at (connsPerLimit f) i p) =
    tally (in_subnet b (networkPrefixLimits f) (PrefixLength lim) p) live;
  fi_sn_max : forall i lim p, limits f !! i = Some lim ->
    tally (in_subnet b (networkPrefixLimits f) (PrefixLength lim) p) live <= Z.max 0 (sn_ConnCount lim);
}.

Definition limiter_inv (cl : connLimiter) (live : list Addr) : Prop :=
  forall b, fam_inv b (view b cl) live.

(** ** The subnet loops *)

(** [v] is what the maps hold. *)
Definition holds (conns : list (option counts)) (v : nat -> Prefix -> Z) : Prop :=
  forall j p, default 0 (subnet_at conns j p) = v j p.

(** The subnets of [ip] for the limits [lims] starting at index [i]. *)
Definition hit (ip : Addr) (i : nat) (lims : list ConnLimitPerSubnet) (j : nat) (p : Prefix) : bool :=
  (i <=? j)%nat &&
  match lims !! (j - i)%nat with
  | Some lim => bool_decide (Addr_Prefix ip (PrefixLength lim) = Some p)
  | None => false
  end.

Fixpoint checks (ip : Addr) (i : nat) (lims : list ConnLimitPerSubnet) (v : nat -> Prefix -> Z) : bool :=
  match lims with
  | [] => true
  | lim :: lims =>
    match Addr_Prefix ip (PrefixLength lim) with
    | None => false
    | Some p => (v i p + 1 <=? sn_ConnCount lim) && checks ip (S i) lims v
    end
  end.

Lemma subnet_at_insert conns i m j p :
  is_Some (conns !! i) ->
  subnet_at (<[i := Some m]> conns) j p = if decide (j = i) then m !! p else subnet_at conns j p.
Proof.
  intros Hi%lookup_lt_is_Some. unfold subnet_at. case_decide; [subst|].
  - by rewrite list_lookup_insert_eq.
  - by rewrite list_lookup_insert_ne.
Qed.

Lemma subnet_at_lookup conns i m p : conns !! i = Some m -> m ≫= lookup p = subnet_at conns i p.
Proof. intros Hi. unfold subnet_at. by rewrite Hi. Qed.

Definition in_bounds (v : nat -> Prefix -> Z) : Prop := forall j p, 0 <= v j p < MaxInt64.

Definition allocated (conns : list (option counts)) (j : nat) : Prop := exists m, conns !! j = Some (Some m).

Lemma allocated_insert conns i m j :
  is_Some (conns !! i) -> j = i \/ allocated conns j -> allocated (<[i := Some m]> conns) j.
Proof.
  intros Hi%lookup_lt_is_Some H. unfold allocated. destruct (decide (j = i)) as [->|Hne].
  - exists m. by rewrite list_lookup_insert_eq.
  - destruct H as [?|[m' Hm']]; [done|]. exists m'. by rewrite list_lookup_insert_ne.
Qed.

Lemma check_subnets_spec ip i lims conns v :
  holds conns v -> in_bounds v -> (i + length lims <= length conns)%nat ->
  exists conns',
    check_subnets ip i lims conns = Some (checks ip i lims v, conns') /\
    holds conns' v /\ length conns' = length conns /\
    (forall j, allocated conns j -> allocated conns' j) /\
    (checks ip i lims v = true -> forall j, (i <= j < i + length lims)%nat -> allocated conns' j).
Proof.
  revert i conns. induction lims as [|lim lims IH]; intros i conns Hv Hb Hlen; simpl in *.
  { exists conns. split_and!; [done..|]. intros _ j. lia. }
  destruct (Addr_Prefix ip (PrefixLength lim)) as [p|]; [|by exists conns].
  assert (is_Some (conns !! i)) as [m Hm] by (apply lookup_lt_is_Some; lia). rewrite Hm.
  rewrite (subnet_at_lookup conns i m p Hm).
  assert (default 0 (subnet_at conns i p) = v i p) as Hvp by apply Hv.
  set (conns1 := match subnet_at conns i p with Some _ => conns | None => _ end).
  assert (holds conns1 v /\ length conns1 = length conns /\
          (forall j, allocated conns j -> allocated conns1 j) /\ allocated conns1 i) as (Hv1 & Hl1 & Ha1 & Hi1).
  { unfold conns1. destruct (subnet_at conns i p) as [n|] eqn:Hn.
    - split_and!; [done..|]. unfold subnet_at in Hn. rewrite Hm in Hn. destruct m as [m|]; [|done].
      by exists m.
    - assert (is_Some (conns !! i)) as Hi by by eexists. split_and!.
      + intros j q. rewrite subnet_at_insert by done. case_decide; [subst j|apply Hv].
        rewrite <- (Hv i q). unfold subnet_at in *. rewrite Hm in *. simpl in *.
        rewrite lookup_insert. case_decide; [subst q|by destruct m].
        destruct m as [m|]; simpl in *; [by rewrite Hn|done].
      + apply length_insert.
      + intros j Hj. by apply allocated_insert; auto.
      + by apply allocated_insert; auto. }
  rewrite Hvp. rewrite wrap64_id by (specialize (Hb i p); unfold int64, MinInt64, MaxInt64 in *; lia).
  rewrite Z.gtb_ltb. destruct (v i p + 1 <=? sn_ConnCount lim) eqn:Hle.
  - assert ((sn_ConnCount lim <? v i p + 1) = false) as -> by lia. simpl.
    destruct (IH (S i) conns1) as (conns' & -> & H1 & H2 & H3 & H4); [done..|lia|].
    exists conns'. split_and!; [done..|congruence|auto|]. intros Hc j Hj.
    destruct (decide (j = i)) as [->|]; [auto|]. apply H4; [done|lia].
  - assert ((sn_ConnCount lim <? v i p + 1) = true) as -> by lia. simpl.
    exists conns1. by split_and!.
Qed.

Lemma hit_cons ip i lim lims j p :
  hit ip i (lim :: lims) j p =
  (if decide (j = i) then bool_decide (Addr_Prefix ip (PrefixLength lim) = Some p) else hit ip (S i) lims j p).
Proof.
  unfold hit. case_decide; [subst; by rewrite Nat.leb_refl, Nat.sub_diag|].
  destruct (i <=? j)%nat eqn:E1, (S i <=? j)%nat eqn:E2; try done; try (apply Nat.leb_le in E1; apply Nat.leb_gt in E2; lia).
  - apply Nat.leb_le in E2. replace (j - i)%nat with (S (j - S i)) by lia. done.
  - apply Nat.leb_gt in E1. apply Nat.leb_le in E2. lia.
Qed.

Lemma hit_low ip i lims j p : (j < i)%nat -> hit ip i lims j p = false.
Proof. intros. unfold hit. by replace (i <=? j)%nat with false by (symmetry; apply Nat.leb_gt; lia). Qed.

Definition incr (b : bool) (n : Z) : Z := if b then n + 1 else n.
Definition decr (b : bool) (n : Z) : Z := if b && (0 <? n) then n - 1 else n.

(** Setting the entry of [p] in the [i]th map. *)
Lemma holds_update conns v i m p n :
  holds conns v -> conns !! i = Some m ->
  holds (<[i := Some (<[p := n]> (default ∅ m))]> conns)
        (fun j q => if decide (j = i /\ q = p) then n else v j q).
Proof.
  intros Hv Hm j q. rewrite subnet_at_insert by by eexists. destruct (decide (j = i)) as [->|Hne].
  - rewrite lookup_insert. case_decide as Hq.
    + rewrite decide_True by auto. done.
    + rewrite decide_False by (intros [? ?]; congruence). rewrite <- (Hv i q). unfold subnet_at. rewrite Hm.
      by destruct m.
  - rewrite decide_False by (intros [? ?]; congruence). apply Hv.
Qed.

Lemma holds_ext conns v v' : (forall j p, v j p = v' j p) -> holds conns v -> holds conns v'.
Proof. intros E Hv j p. by rewrite <- E. Qed.

(** The loops change the [i]th map only at the subnet of [ip], and later
    iterations do not come back to it. *)
Lemma hit_step ip i lim lims p (v : nat -> Prefix -> Z) (g : bool -> Z -> Z) :
  (forall n, g false n = n) -> Addr_Prefix ip (PrefixLength lim) = Some p ->
  forall j q,
    g (hit ip (S i) lims j q) (if decide (j = i /\ q = p) then g true (v i p) else v j q) =
    g (hit ip i (lim :: lims) j q) (v j q).
Proof.
  intros Hg Hp j q. rewrite hit_cons. destruct (decide (j = i)) as [->|Hne].
  - rewrite hit_low, Hg by lia. rewrite Hp. case_bool_decide as Hq.
    + injection Hq as ->. by rewrite decide_True.
    + rewrite decide_False by (intros [? ?]; congruence). by rewrite Hg.
  - by rewrite decide_False by (intros [? ?]; congruence).
Qed.

Lemma count_subnets_spec ip i lims conns v :
  holds conns v -> (forall j p, (i <= j)%nat -> 0 <= v j p < MaxInt64) ->
  (forall j, (i <= j < i + length lims)%nat -> allocated conns j) ->
  Forall (fun lim => is_Some (Addr_Prefix ip (PrefixLength lim))) lims ->
  exists conns',
    count_subnets ip i lims conns = Some conns' /\ length conns' = length conns /\
    holds conns' (fun j p => incr (hit ip i lims j p) (v j p)).
Proof.
  intros Hv Hb Ha Hp. revert i conns v Hv Ha Hb.
  induction Hp as [|lim lims [p Hp] _ IH]; intros i conns v Hv Ha Hb.
  { exists conns. split_and!; [done..|]. intros j q. rewrite Hv. unfold hit.
    rewrite lookup_nil. by rewrite andb_false_r. }
  cbn [count_subnets length] in *. destruct (Ha i) as [m Hm]; [lia|]. rewrite Hp, Hm. cbn [default from_option id].
  assert (default 0 (m !! p) = v i p) as ->.
  { rewrite <- (Hv i p). unfold subnet_at. by rewrite Hm. }
  rewrite wrap64_id by (specialize (Hb i p); unfold int64, MinInt64, MaxInt64 in *; lia).
  pose proof (holds_update conns v i (Some m) p (v i p + 1) Hv Hm) as Hv1. cbn [default from_option id] in Hv1.
  edestruct (IH (S i)) as (conns' & Heq & Hlen & Hv'); [exact Hv1| | |].
  - intros j Hj. apply allocated_insert; [by eexists|]. right. apply Ha. lia.
  - intros j q Hj. simpl. rewrite decide_False by lia. apply Hb. lia.
  - exists conns'. split; [exact Heq|]. rewrite Hlen, length_insert. split; [done|].
    eapply holds_ext; [|exact Hv']. exact (hit_step ip i lim lims p v incr (fun _ => eq_refl) Hp).
Qed.

Lemma hit_cons_err ip i lim lims j p :
  Addr_Prefix ip (PrefixLength lim) = None -> hit ip i (lim :: lims) j p = hit ip (S i) lims j p.
Proof. intros E. rewrite hit_cons. case_decide; [subst|done]. rewrite E, hit_low by lia. done. Qed.

Lemma uncount_subnets_spec ip i lims conns v :
  holds conns v -> (forall j p, 0 <= v j p <= MaxInt64) -> (i + length lims <= length conns)%nat ->
  exists conns',
    uncount_subnets ip i lims conns = Some conns' /\ length conns' = length conns /\
    holds conns' (fun j p => decr (hit ip i lims j p) (v j p)).
Proof.
  revert i conns v. induction lims as [|lim lims IH]; intros i conns v Hv Hb Hlen.
  { exists conns. split_and!; [done..|]. intros j q. rewrite Hv. unfold hit.
    rewrite lookup_nil. by rewrite andb_false_r. }
  cbn [uncount_subnets length] in *. destruct (Addr_Prefix ip (PrefixLength lim)) as [p|] eqn:Hp.
  2:{ destruct (IH (S i) conns v) as (conns' & Heq & Hlen' & Hv'); [done..|lia|].
      exists conns'. split_and!; [done..|]. eapply holds_ext; [|exact Hv'].
      intros j q. by rewrite (hit_cons_err ip i lim) by done. }
  assert (is_Some (conns !! i)) as [m Hm] by (apply lookup_lt_is_Some; lia). rewrite Hm.
  rewrite (subnet_at_lookup conns i m p Hm). pose proof (Hv i p) as Hvp. pose proof (Hb i p) as Hbp.
  pose proof (hit_step ip i lim lims p v decr (fun _ => eq_refl) Hp) as Hstep.
  assert (forall conns1 v1, length conns1 = length conns ->
            (forall j q, v1 j q = if decide (j = i /\ q = p) then decr true (v i p) else v j q) ->
            holds conns1 v1 ->
            exists conns', uncount_subnets ip (S i) lims conns1 = Some conns' /\ length conns' = length conns /\
              holds conns' (fun j p => decr (hit ip i (lim :: lims) j p) (v j p))) as Hgo.
  { intros conns1 v1 Hl1 Hv1 Hh. destruct (IH (S i) conns1 v1) as (conns' & Heq & Hlen' & Hv'); [done| |lia|].
    - intros j q. rewrite Hv1. specialize (Hb j q). case_decide; [|lia]. unfold decr. simpl.
      destruct (0 <? v i p) eqn:?; lia.
    - exists conns'. split_and!; [done|congruence|]. eapply holds_ext; [|exact Hv'].
      intros j q. simpl. by rewrite Hv1. }
  destruct (subnet_at conns i p) as [n|] eqn:Hn; simpl in Hvp.
  - subst n. destruct (v i p =? 0) eqn:Hz.
    + apply (Hgo conns v); [done| |done]. intros j q. case_decide as E; [|done]. destruct E as [-> ->].
      unfold decr. simpl. destruct (0 <? v i p) eqn:?; lia.
    + simpl. rewrite wrap64_id by (unfold int64, MinInt64, MaxInt64 in *; lia).
      eapply Hgo; [apply length_insert|intros j q; reflexivity|].
      pose proof (holds_update conns v i m p (v i p - 1) Hv Hm) as Hup.
      assert (decr true (v i p) = v i p - 1) as ->.
      { unfold decr. simpl. destruct (0 <? v i p) eqn:?; lia. }
      destruct (v i p - 1 <=? 0) eqn:Hle; [|exact Hup].
      intros j q. rewrite <- Hup, !subnet_at_insert by by eexists. case_decide; [|done].
      rewrite lookup_delete, lookup_insert. case_decide; [simpl; lia|done].
  - apply (Hgo conns v); [done| |done]. intros j q. case_decide as E; [|done]. destruct E as [-> ->].
    by rewrite <- Hvp.
Qed.

(** ** Families *)

Lemma first_match_lookup ip k lims i lim :
  first_match ip k lims = Some (i, lim) -> (k <= i)%nat /\ lims !! (i - k)%nat = Some lim.
Proof.
  revert k. induction lims as [|l lims IH]; intros k; simpl; [done|].
  destruct (Contains (Network l) ip).
  - intros [= <- <-]. by rewrite Nat.sub_diag.
  - intros [Hle Hl]%IH. split; [lia|]. by replace (i - k)%nat with (S (i - S k)) by lia.
Qed.

Lemma view_put b f cl : view b (put b f cl) = f.
Proof. by destruct b, f. Qed.
Lemma view_put_other b f cl : view (negb b) (put b f cl) = view (negb b) cl.
Proof. by destruct b. Qed.

Lemma in_prefix_self b lims ip i :
  Is6 ip = b -> in_prefix b lims i ip = bool_decide (np_index lims ip = Some i).
Proof. intros <-. unfold in_prefix. by rewrite Bool.eqb_reflx. Qed.
Lemma in_subnet_self b lims ip len p :
  Is6 ip = b ->
  in_subnet b lims len p ip = bool_decide (np_index lims ip = None) && bool_decide (Addr_Prefix ip len = Some p).
Proof. intros <-. unfold in_subnet. by rewrite Bool.eqb_reflx. Qed.
Lemma other_family b lims ip :
  Is6 ip = negb b ->
  (forall i, in_prefix b lims i ip = false) /\ (forall len p, in_subnet b lims len p ip = false).
Proof. intros H. unfold in_prefix, in_subnet. rewrite H. by destruct b. Qed.

Lemma fam_inv_other b f live ip :
  Is6 ip = negb b -> fam_inv b f live <-> fam_inv b f (ip :: live).
Proof.
  intros H. destruct (other_family b (networkPrefixLimits f) ip H) as [H1 H2].
  split; intros [I1 I2 I3 I4 I5 I6]; constructor; try done; intros *; simpl in *.
  - rewrite H1. apply I2.
  - rewrite H1. apply I3.
  - rewrite H2. apply I5.
  - rewrite H2. apply I6.
  - specialize (I2 i). by rewrite H1 in I2.
  - specialize (I3 i lim). by rewrite H1 in I3.
  - specialize (I5 i lim p). by rewrite H2 in I5.
  - specialize (I6 i lim p). by rewrite H2 in I6.
Qed.

Lemma put_inv b f cl live live' :
  limiter_inv cl live -> fam_inv b f live' ->
  (fam_inv (negb b) (view (negb b) cl) live -> fam_inv (negb b) (view (negb b) cl) live') ->
  limiter_inv (put b f cl) live'.
Proof.
  intros Hi Hf Hother b'. destruct (decide (b' = b)) as [->|Hne]; [by rewrite view_put|].
  assert (b' = negb b) as -> by (by destruct b, b'). rewrite view_put_other. apply Hother, Hi.
Qed.

Lemma init_prefixes_inv b f live :
  fam_inv b f live ->
  fam_inv b (init_prefixes f) live /\
  length (connsPerNetworkPrefix (init_prefixes f)) = length (networkPrefixLimits f) /\
  networkPrefixLimits (init_prefixes f) = networkPrefixLimits f /\ limits (init_prefixes f) = limits f.
Proof.
  intros Hf. unfold init_prefixes. destruct (_ && _) eqn:Hb.
  - apply andb_prop in Hb as [Hz%Nat.eqb_eq Hpos%Nat.ltb_lt].
    destruct Hf as [I1 I2 I3 I4 I5 I6]. split_and!; [|apply length_replicate|done..].
    constructor; simpl; try done; [right; apply length_replicate|].
    intros i. rewrite <- I2. apply nil_length_inv in Hz. rewrite Hz, lookup_nil.
    destruct (replicate _ 0 !! i) as [n|] eqn:E; [|done].
    by apply lookup_replicate in E as [-> _].
  - split_and!; [done| |done..]. destruct (fi_np_len b f live Hf) as [E|E]; [|done].
    rewrite E in *. simpl in *. apply Nat.ltb_ge in Hb. lia.
Qed.

Lemma init_subnets_inv b f live :
  fam_inv b f live ->
  fam_inv b (init_subnets f) live /\
  length (connsPerLimit (init_subnets f)) = length (limits f) /\
  networkPrefixLimits (init_subnets f) = networkPrefixLimits f /\ limits (init_subnets f) = limits f /\
  connsPerNetworkPrefix (init_subnets f) = connsPerNetworkPrefix f.
Proof.
  intros Hf. unfold init_subnets. destruct (_ && _) eqn:Hb.
  - apply andb_prop in Hb as [Hz%Nat.eqb_eq Hpos%Nat.ltb_lt].
    destruct Hf as [I1 I2 I3 I4 I5 I6]. split_and!; [|apply length_replicate|done..].
    constructor; simpl; try done; [right; apply length_replicate|].
    intros i lim p Hl. rewrite <- (I5 i lim p Hl). apply nil_length_inv in Hz. rewrite Hz.
    unfold subnet_at. rewrite lookup_nil. destruct (replicate _ None !! i) as [n|] eqn:E; [|done].
    by apply lookup_replicate in E as [-> _].
  - split_and!; [done| |done..]. destruct (fi_sn_len b f live Hf) as [E|E]; [|done].
    rewrite E in *. simpl in *. apply Nat.ltb_ge in Hb. lia.
Qed.

(** What the subnet maps of a family hold. *)
Definition subnet_tally (b : bool) (f : family) (live : list Addr) (j : nat) (p : Prefix) : Z :=
  match limits f !! j with
  | Some lim => tally (in_subnet b (networkPrefixLimits f) (PrefixLength lim) p) live
  | None => 0
  end.

Lemma subnet_tally_holds b f live :
  fam_inv b f live -> length (connsPerLimit f) = length (limits f) ->
  holds (connsPerLimit f) (subnet_tally b f live).
Proof.
  intros Hf Hlen j p. unfold subnet_tally. destruct (limits f !! j) as [lim|] eqn:Hl.
  - by apply (fi_sn b f live Hf).
  - unfold subnet_at. rewrite (lookup_ge_None_2 (connsPerLimit f) j); [done|].
    apply lookup_ge_None in Hl. lia.
Qed.

Lemma subnet_tally_bounds b f live j p :
  0 <= subnet_tally b f live j p <= Z.of_nat (length live).
Proof. unfold subnet_tally. destruct (limits f !! j); [apply tally_bounds|lia]. Qed.

Lemma checks_forallb ip i lims v g :
  (forall k lim p, lims !! k = Some lim -> Addr_Prefix ip (PrefixLength lim) = Some p -> v (i + k)%nat p = g lim p) ->
  checks ip i lims v =
  forallb (fun lim => match Addr_Prefix ip (PrefixLength lim) with
                      | None => false
                      | Some p => g lim p + 1 <=? sn_ConnCount lim
                      end) lims.
Proof.
  revert i. induction lims as [|lim lims IH]; intros i Hv; [done|]. simpl.
  destruct (Addr_Prefix ip (PrefixLength lim)) as [p|] eqn:Hp; [|done].
  rewrite <- (Hv 0%nat lim p) by done. rewrite Nat.add_0_r. f_equal. apply IH.
  intros k l q Hk. replace (S i + k)%nat with (i + S k)%nat by lia. by apply Hv.
Qed.

(** Moving one connection [ip] in or out of a family: [d] is its sign. *)
Lemma fam_prefix_step b f live live' ip i lim n' :
  fam_inv b f live -> Is6 ip = b -> first_match ip 0 (networkPrefixLimits f) = Some (i, lim) ->
  (live' = ip :: live \/ live = ip :: live') ->
  length (connsPerNetworkPrefix f) = length (networkPrefixLimits f) ->
  n' = tally (in_prefix b (networkPrefixLimits f) i) live' -> n' <= Z.max 0 (np_ConnCount lim) ->
  fam_inv b (mkFamily (networkPrefixLimits f) (<[i := n']> (connsPerNetworkPrefix f))
                      (limits f) (connsPerLimit f)) live'.
Proof.
  intros [I1 I2 I3 I4 I5 I6] Hip Hm Hlive Hlen Hn Hmax.
  pose proof (first_match_lookup ip 0 _ i lim Hm) as [_ Hi]. rewrite Nat.sub_0_r in Hi.
  assert (np_index (networkPrefixLimits f) ip = Some i) as Hidx by (unfold np_index; by rewrite Hm).
  assert (i < length (connsPerNetworkPrefix f))%nat as Hlt by (rewrite Hlen; by eapply lookup_lt_Some).
  assert (forall j, j <> i -> tally (in_prefix b (networkPrefixLimits f) j) live' =
                              tally (in_prefix b (networkPrefixLimits f) j) live) as Hj.
  { intros j Hj. destruct Hlive as [-> | ->]; simpl; rewrite in_prefix_self, Hidx by done;
      rewrite bool_decide_eq_false_2 by congruence; lia. }
  assert (forall len p, tally (in_subnet b (networkPrefixLimits f) len p) live' =
                        tally (in_subnet b (networkPrefixLimits f) len p) live) as Hs.
  { intros len p. destruct Hlive as [-> | ->]; simpl; rewrite in_subnet_self, Hidx by done;
      rewrite (bool_decide_eq_false_2 (Some i = None)) by done; simpl; lia. }
  constructor; simpl.
  - right. by rewrite length_insert.
  - intros j. destruct (decide (j = i)) as [->|Hne].
    + by rewrite list_lookup_insert_eq.
    + by rewrite list_lookup_insert_ne, I2, Hj.
  - intros j l Hl. destruct (decide (j = i)) as [->|Hne]; [|rewrite Hj by done; by apply I3].
    rewrite Hi in Hl. injection Hl as <-. by rewrite <- Hn.
  - done.
  - intros j l p Hl. rewrite Hs. by apply I5.
  - intros j l p Hl. rewrite Hs. by apply (I6 j).
Qed.

Lemma fam_subnet_step b f live live' ip conns :
  fam_inv b f live -> Is6 ip = b -> first_match ip 0 (networkPrefixLimits f) = None ->
  (live' = ip :: live \/ live = ip :: live') ->
  length conns = length (limits f) ->
  (forall j p, (j < length (limits f))%nat -> default 0 (subnet_at conns j p) = subnet_tally b f live' j p) ->
  (forall j lim p, limits f !! j = Some lim -> subnet_tally b f live' j p <= Z.max 0 (sn_ConnCount lim)) ->
  fam_inv b (mkFamily (networkPrefixLimits f) (connsPerNetworkPrefix f) (limits f) conns) live'.
Proof.
  intros [I1 I2 I3 I4 I5 I6] Hip Hm Hlive Hlen Hv Hmax.
  assert (forall j, tally (in_prefix b (networkPrefixLimits f) j) live' =
                    tally (in_prefix b (networkPrefixLimits f) j) live) as Hj.
  { assert (np_index (networkPrefixLimits f) ip = None) as Hidx by (unfold np_index; by rewrite Hm).
    intros j. destruct Hlive as [-> | ->]; simpl; by rewrite in_prefix_self, Hidx. }
  constructor; simpl; [done| | |by right| |].
  - intros j. by rewrite Hj.
  - intros j l Hl. rewrite Hj. by apply I3.
  - intros j l p Hl. rewrite Hv by by eapply lookup_lt_Some. unfold subnet_tally. by rewrite Hl.
  - intros j l p Hl. specialize (Hmax j l p Hl). unfold subnet_tally in Hmax. by rewrite Hl in Hmax.
Qed.

Lemma subnet_tally_cons b f live ip j p :
  Is6 ip = b -> first_match ip 0 (networkPrefixLimits f) = None ->
  subnet_tally b f (ip :: live) j p = incr (hit ip 0 (limits f) j p) (subnet_tally b f live j p).
Proof.
  intros Hip Hm. unfold subnet_tally, hit. rewrite Nat.sub_0_r. simpl.
  destruct (limits f !! j) as [lim|]; [|done]. simpl.
  rewrite in_subnet_self by done. unfold np_index. rewrite Hm. simpl.
  unfold incr. case_bool_decide; lia.
Qed.

Definition same_config (cl cl' : connLimiter) : Prop :=
  forall b, networkPrefixLimits (view b cl') = networkPrefixLimits (view b cl) /\
            limits (view b cl') = limits (view b cl).

Lemma same_config_put b f cl :
  networkPrefixLimits f = networkPrefixLimits (view b cl) -> limits f = limits (view b cl) ->
  same_config cl (put b f cl).
Proof.
  intros H1 H2 b'. destruct (decide (b' = b)) as [->|Hne]; [by rewrite view_put|].
  assert (b' = negb b) as -> by (by destruct b, b'). by rewrite view_put_other.
Qed.

Lemma fam_inv_perm b f l l' : l ≡ₚ l' -> fam_inv b f l -> fam_inv b f l'.
Proof.
  intros Hp [I1 I2 I3 I4 I5 I6].
  constructor; try done; intros *; rewrite <- Hp; [apply I2|apply I3|apply I5|apply I6].
Qed.

Lemma checks_hit ip i lims v j lim p :
  checks ip i lims v = true -> hit ip i lims j p = true -> lims !! (j - i)%nat = Some lim ->
  v j p + 1 <= sn_ConnCount lim.
Proof.
  revert i. induction lims as [|l lims IH]; intros i Hc Hh Hl; [by rewrite lookup_nil in Hl|].
  cbn [checks] in Hc. rewrite hit_cons in Hh. case_decide as Hj.
  - subst j. rewrite Nat.sub_diag in Hl. simpl in Hl. injection Hl as ->.
    apply bool_decide_eq_true in Hh. rewrite Hh in Hc. apply andb_prop in Hc as [Hc _]. lia.
  - destruct (Addr_Prefix ip (PrefixLength l)); [|done]. apply andb_prop in Hc as [_ Hc].
    apply (IH (S i) Hc Hh). unfold hit in Hh. apply andb_prop in Hh as [Hle%Nat.leb_le _].
    replace (j - i)%nat with (S (j - S i)) in Hl by lia. done.
Qed.

Lemma checks_prefixes ip i lims v :
  checks ip i lims v = true -> Forall (fun lim => is_Some (Addr_Prefix ip (PrefixLength lim))) lims.
Proof.
  revert i. induction lims as [|l lims IH]; intros i Hc; [constructor|]. simpl in Hc.
  destruct (Addr_Prefix ip (PrefixLength l)) eqn:Hp; [|done]. apply andb_prop in Hc as [_ Hc].
  constructor; [by eexists|by eapply IH].
Qed.

Lemma addConn_spec ip cl live :
  limiter_inv cl live -> Z.of_nat (length live) < MaxInt64 ->
  exists cl',
    addConn ip cl = Some (admits (view (Is6 ip) cl) live ip, cl') /\ same_config cl cl' /\
    limiter_inv cl' (if admits (view (Is6 ip) cl) live ip then ip :: live else live).
Proof.
  intros Hinv Hlive. set (b := Is6 ip) in *. set (f := view b cl).
  destruct (init_prefixes_inv b f live (Hinv b)) as (Hf1 & Hlen1 & Hnp1 & Hli1).
  assert (fam_inv (negb b) (view (negb b) cl) live <->
          fam_inv (negb b) (view (negb b) cl) (ip :: live)) as Hother.
  { apply fam_inv_other. by rewrite negb_involutive. }
  unfold addConn, admits. fold b f. set (f1 := init_prefixes f) in *. rewrite <- Hnp1.
  destruct (first_match ip 0 (networkPrefixLimits f1)) as [[i lim]|] eqn:Hm.
  - pose proof (first_match_lookup ip 0 _ i lim Hm) as [_ Hi]. rewrite Nat.sub_0_r in Hi.
    assert (is_Some (connsPerNetworkPrefix f1 !! i)) as [n Hn].
    { apply lookup_lt_is_Some. rewrite Hlen1, <- Hnp1. by eapply lookup_lt_Some. }
    rewrite Hn. pose proof (fi_np b f1 live Hf1 i) as Htally. rewrite Hn in Htally. simpl in Htally. subst n.
    set (t := tally (in_prefix b (networkPrefixLimits f1) i) live) in *.
    assert (0 <= t <= Z.of_nat (length live)) by apply tally_bounds.
    rewrite wrap64_id by (unfold int64, MinInt64, MaxInt64 in *; lia).
    rewrite Z.gtb_ltb. destruct (t + 1 <=? np_ConnCount lim) eqn:Hle.
    + assert ((np_ConnCount lim <? t + 1) = false) as -> by lia.
      eexists. split; [reflexivity|]. split; [apply same_config_put; [exact Hnp1|exact Hli1]|].
      eapply put_inv; [done| |apply Hother].
      assert (tally (in_prefix b (networkPrefixLimits f1) i) (ip :: live) = t + 1) as Ht.
      { simpl. rewrite in_prefix_self by done. unfold np_index. rewrite Hm. simpl.
        rewrite bool_decide_eq_true_2 by done. unfold t. lia. }
      eapply fam_prefix_step; [done|done|done|by left|congruence|by rewrite Ht|lia].
    + assert ((np_ConnCount lim <? t + 1) = true) as -> by lia.
      eexists. split; [reflexivity|]. split; [by apply same_config_put|]. by eapply put_inv.
  - destruct (init_subnets_inv b f1 live Hf1) as (Hf2 & Hlen2 & Hnp2 & Hli2 & Hc2).
    set (f2 := init_subnets f1) in *. rewrite <- Hnp2 in Hm.
    pose proof (subnet_tally_holds b f2 live Hf2 ltac:(congruence)) as Hv.
    set (v := subnet_tally b f2 live) in *.
    assert (forall j p, 0 <= v j p < MaxInt64) as Hb.
    { intros j p. pose proof (subnet_tally_bounds b f2 live j p). unfold v. lia. }
    destruct (check_subnets_spec ip 0 (limits f2) (connsPerLimit f2) v Hv Hb) as
      (conns & Heq & Hv' & Hlen' & _ & Halloc); [rewrite Hlen2, Hli2; lia|].
    assert (checks ip 0 (limits f2) v = forallb (fun lim =>
              match Addr_Prefix ip (PrefixLength lim) with
              | None => false
              | Some p => tally (in_subnet b (networkPrefixLimits f1) (PrefixLength lim) p) live + 1 <=? sn_ConnCount lim
              end) (limits f)) as Hck.
    { rewrite <- Hli1, <- Hli2, <- Hnp2.
      apply (checks_forallb ip 0 (limits f2) v (fun lim p => tally (in_subnet b _ (PrefixLength lim) p) live)).
      intros k lim p Hk _. unfold v, subnet_tally. simpl. by rewrite Hk. }
    rewrite Heq, <- Hck. destruct (checks ip 0 (limits f2) v) eqn:Hok.
    + destruct (count_subnets_spec ip 0 (limits f2) conns v) as (conns' & -> & Hl'' & Hv'');
        [done|auto|by apply Halloc|by eapply checks_prefixes|].
      eexists. split; [reflexivity|]. split; [apply same_config_put; cbn [networkPrefixLimits limits]; fold f; congruence|].
      eapply put_inv; [done| |apply Hother].
      apply (fam_subnet_step b f2 live (ip :: live) ip); [done|done|done|by left|congruence| |].
      * intros j p _. rewrite Hv'', subnet_tally_cons by done. done.
      * intros j lim p Hj. rewrite subnet_tally_cons by done. fold v. unfold incr.
        destruct (hit ip 0 (limits f2) j p) eqn:Hh.
        -- pose proof (checks_hit ip 0 (limits f2) v j lim p Hok Hh) as Hx. rewrite Nat.sub_0_r in Hx.
           specialize (Hx Hj). lia.
        -- pose proof (fi_sn_max b f2 live Hf2 j lim p Hj). unfold v, subnet_tally. by rewrite Hj.
    + eexists. split; [reflexivity|]. split; [apply same_config_put; cbn [networkPrefixLimits limits]; fold f; congruence|].
      eapply put_inv; [done| |done]. destruct Hf2 as [I1 I2 I3 I4 I5 I6].
      constructor; simpl; try done; [right; congruence|].
      intros j l p Hl. rewrite Hv'. unfold v, subnet_tally. by rewrite Hl.
Qed.

Lemma rmConn_spec ip cl live :
  limiter_inv cl (ip :: live) -> Z.of_nat (length (ip :: live)) < MaxInt64 ->
  exists cl', rmConn ip cl = Some cl' /\ same_config cl cl' /\ limiter_inv cl' live.
Proof.
  intros Hinv Hlive. set (b := Is6 ip). set (f := view b cl).
  destruct (init_prefixes_inv b f _ (Hinv b)) as (Hf1 & Hlen1 & Hnp1 & Hli1).
  assert (fam_inv (negb b) (view (negb b) cl) (ip :: live) -> fam_inv (negb b) (view (negb b) cl) live) as Hother.
  { intros H. apply fam_inv_other in H; [done|]. by rewrite negb_involutive. }
  unfold rmConn. fold b f. set (f1 := init_prefixes f) in *.
  destruct (first_match ip 0 (networkPrefixLimits f1)) as [[i lim]|] eqn:Hm.
  - pose proof (first_match_lookup ip 0 _ i lim Hm) as [_ Hi]. rewrite Nat.sub_0_r in Hi.
    assert (is_Some (connsPerNetworkPrefix f1 !! i)) as [n Hn].
    { apply lookup_lt_is_Some. rewrite Hlen1, <- Hnp1. by eapply lookup_lt_Some. }
    rewrite Hn. pose proof (fi_np b f1 _ Hf1 i) as Htally. rewrite Hn in Htally. simpl in Htally.
    rewrite in_prefix_self in Htally by done. unfold np_index in Htally. rewrite Hm in Htally. simpl in Htally.
    rewrite bool_decide_eq_true_2 in Htally by done.
    pose proof (tally_bounds (in_prefix b (networkPrefixLimits f1) i) live) as Hbd. cbn [length] in Hlive.
    assert ((n <=? 0) = false) as -> by lia.
    rewrite wrap64_id by (unfold int64, MinInt64, MaxInt64 in *; lia).
    eexists. split; [reflexivity|]. split; [apply same_config_put; [exact Hnp1|exact Hli1]|].
    eapply put_inv; [done| |done].
    eapply fam_prefix_step; [done|done|done|by right|congruence|lia|].
    pose proof (fi_np_max b f1 _ Hf1 i lim Hi) as Hx. simpl in Hx.
    rewrite in_prefix_self in Hx by done. unfold np_index in Hx. rewrite Hm in Hx. simpl in Hx.
    rewrite bool_decide_eq_true_2 in Hx by done. lia.
  - destruct (init_subnets_inv b f1 _ Hf1) as (Hf2 & Hlen2 & Hnp2 & Hli2 & Hc2).
    set (f2 := init_subnets f1) in *. rewrite <- Hnp2 in Hm.
    pose proof (subnet_tally_holds b f2 _ Hf2 ltac:(congruence)) as Hv.
    destruct (uncount_subnets_spec ip 0 (limits f2) (connsPerLimit f2) _ Hv) as (conns & -> & Hlen' & Hv').
    { intros j p. pose proof (subnet_tally_bounds b f2 (ip :: live) j p). lia. }
    { rewrite Hlen2, Hli2. lia. }
    eexists. split; [reflexivity|]. split; [apply same_config_put; cbn [networkPrefixLimits limits]; fold f; congruence|].
    eapply put_inv; [done| |done].
    assert (forall j p, subnet_tally b f2 live j p <= subnet_tally b f2 (ip :: live) j p) as Hmono.
    { intros j p. rewrite subnet_tally_cons by done. unfold incr. destruct (hit _ _ _ _ _); lia. }
    apply (fam_subnet_step b f2 (ip :: live) live ip); [done|done|done|by right|congruence| |].
    + intros j p _. rewrite Hv', subnet_tally_cons by done.
      pose proof (subnet_tally_bounds b f2 live j p). unfold incr, decr.
      destruct (hit _ _ _ _ _); simpl; [|done]. destruct (0 <? _) eqn:?; lia.
    + intros j l p Hj. specialize (Hmono j p). pose proof (fi_sn_max b f2 _ Hf2 j l p Hj) as Hx.
      unfold subnet_tally in *. rewrite Hj in *. lia.
Qed.

(** ** Runs of a limiter *)

(** Configured and not used yet. *)
Definition fresh (cl : connLimiter) : Prop :=
  forall b, connsPerNetworkPrefix (view b cl) = [] /\ connsPerLimit (view b cl) = [].

Lemma fresh_inv cl : fresh cl -> limiter_inv cl [].
Proof.
  intros Hf b. destruct (Hf b) as [E1 E2]. constructor; rewrite ?E1, ?E2; simpl; auto; try lia.
Qed.

(** The addresses admitted and not yet removed along a run from [cl0]. *)
Inductive runs (cl0 : connLimiter) : connLimiter -> list Addr -> Prop :=
| runs_nil : runs cl0 cl0 []
| runs_add cl live ip ok cl' :
    runs cl0 cl live -> Z.of_nat (length live) < MaxInt64 - 1 -> addConn ip cl = Some (ok, cl') ->
    runs cl0 cl' (if ok then ip :: live else live)
| runs_rm cl live ip live' cl' :
    runs cl0 cl live -> live ≡ₚ ip :: live' -> rmConn ip cl = Some cl' ->
    runs cl0 cl' live'.

Lemma runs_inv cl0 cl live :
  fresh cl0 -> runs cl0 cl live ->
  limiter_inv cl live /\ same_config cl0 cl /\ Z.of_nat (length live) < MaxInt64.
Proof.
  intros Hf Hr. induction Hr as [|cl live ip ok cl' _ (IH1 & IH2 & IH3) Hlt Heq
                                 |cl live ip live' cl' _ (IH1 & IH2 & IH3) Hp Heq].
  - split_and!; [by apply fresh_inv|done|done].
  - destruct (addConn_spec ip cl live IH1 ltac:(lia)) as (cl2 & Heq2 & Hsc & Hi).
    rewrite Heq in Heq2. injection Heq2 as -> ->. split_and!; [done| |].
    + intros b. destruct (IH2 b) as [E1 E2], (Hsc b) as [E3 E4]. split; congruence.
    + destruct (admits _ _ _); simpl; lia.
  - assert (limiter_inv cl (ip :: live')) as Hi by (intros b; by eapply fam_inv_perm).
    destruct (rmConn_spec ip cl live' Hi) as (cl2 & Heq2 & Hsc & Hi2).
    { by rewrite <- (Permutation_length Hp). }
    rewrite Heq in Heq2. injection Heq2 as ->. split_and!; [done| |].
    + intros b. destruct (IH2 b) as [E1 E2], (Hsc b) as [E3 E4]. split; congruence.
    + apply Permutation_length in Hp. simpl in Hp. lia.
Qed.

(** along any run from a configured limiter, the live connections never exceed
    a limit: neither the count of any network prefix nor the count of any subnet
    under any per-subnet limit. *)
Theorem limits_never_exceeded cl0 cl live :
  fresh cl0 -> runs cl0 cl live ->
  (forall b i lim, networkPrefixLimits (view b cl0) !! i = Some lim ->
     tally (in_prefix b (networkPrefixLimits (view b cl0)) i) live <= Z.max 0 (np_ConnCount lim)) /\
  (forall b lim p, lim ∈ limits (view b cl0) ->
     tally (in_subnet b (networkPrefixLimits (view b cl0)) (PrefixLength lim) p) live
       <= Z.max 0 (sn_ConnCount lim)).
Proof.
  intros Hf Hr. destruct (runs_inv cl0 cl live Hf Hr) as (Hi & Hsc & _). split.
  - intros b i lim Hl. pose proof (fi_np_max b _ live (Hi b) i lim) as H.
    destruct (Hsc b) as [E _]. rewrite E in H. auto.
  - intros b lim p [i Hl]%list_elem_of_lookup_1. pose proof (fi_sn_max b _ live (Hi b) i lim p) as H.
    destruct (Hsc b) as [E1 E2]. rewrite E1, E2 in H. auto.
Qed.

(** [addConn] implements the connection limit.  It never panics; it admits the
    address exactly when the first network prefix containing it (the most
    specific one, as the list is sorted) still has room, or, if no prefix
    contains it, when its subnet has room under every per-subnet limit; it
    accounts for the new connection when it admits it and for nothing otherwise;
    and it leaves the configuration alone. *)
Theorem addConn_refines ip cl live :
  limiter_inv cl live -> Z.of_nat (length live) < MaxInt64 ->
  exists cl',
    addConn ip cl = Some (admits (view (Is6 ip) cl) live ip, cl') /\ same_config cl cl' /\
    limiter_inv cl' (if admits (view (Is6 ip) cl) live ip then ip :: live else live).
Proof. apply addConn_spec. Qed.

(** [rmConn] of a live connection never panics, takes exactly that connection
    off the books and leaves the configuration alone. *)
Theorem rmConn_refines ip cl live :
  limiter_inv cl (ip :: live) -> Z.of_nat (length (ip :: live)) < MaxInt64 ->
  exists cl', rmConn ip cl = Some cl' /\ same_config cl cl' /\ limiter_inv cl' live.
Proof. apply rmConn_spec. Qed.

(** ** Order of the network prefixes *)

Lemma insert_stable_perm a l : insert_stable a l ≡ₚ a :: l.
Proof.
  induction l as [|b l IH]; simpl; [done|]. destruct (_ <=? 0); [done|].
  rewrite IH. apply perm_swap.
Qed.

Lemma sort_perm l : sortNetworkPrefixes l ≡ₚ l.
Proof. induction l as [|a l IH]; simpl; [done|]. by rewrite insert_stable_perm, IH. Qed.

(** Decreasing number of bits. *)
Definition by_bits (a b : NetworkPrefixLimit) : Prop := Bits (Network b) <= Bits (Network a).

Lemma insert_stable_sorted a l : StronglySorted by_bits l -> StronglySorted by_bits (insert_stable a l).
Proof.
  induction 1 as [|b l Hl IH Hb]; simpl; [by repeat constructor|].
  destruct (Bits (Network b) - Bits (Network a) <=? 0) eqn:E.
  - constructor; [by constructor|]. constructor; [unfold by_bits; lia|].
    eapply Forall_impl; [exact Hb|]. unfold by_bits. intros x Hx. lia.
  - constructor; [done|]. rewrite insert_stable_perm. constructor; [unfold by_bits; lia|done].
Qed.

Lemma sort_sorted l : StronglySorted by_bits (sortNetworkPrefixes l).
Proof. induction l as [|a l IH]; simpl; [constructor|by apply insert_stable_sorted]. Qed.

Lemma insert_stable_filter a l n :
  filter (fun x => Bits (Network x) = n) (insert_stable a l) = filter (fun x => Bits (Network x) = n) (a :: l).
Proof.
  induction l as [|b l IH]; [done|]. simpl insert_stable.
  destruct (Bits (Network b) - Bits (Network a) <=? 0) eqn:E; [done|].
  rewrite !filter_cons in *. rewrite IH. repeat case_decide; try done. lia.
Qed.

Lemma first_match_sorted ip k l i lim :
  StronglySorted by_bits l -> first_match ip k l = Some (i, lim) ->
  lim ∈ l /\ Contains (Network lim) ip = true /\
  (forall lim', lim' ∈ l -> Contains (Network lim') ip = true -> Bits (Network lim') <= Bits (Network lim)).
Proof.
  intros Hs. revert k. induction Hs as [|a l Hs IH Ha]; intros k; simpl; [done|].
  destruct (Contains (Network a) ip) eqn:Hc.
  - intros [= <- <-]. split_and!; [by left|done|]. intros lim' [->|Hin]%elem_of_cons _; [done|].
    rewrite Forall_forall in Ha. exact (Ha lim' Hin).
  - intros (Hin & Hl & Hmax)%IH. split_and!; [by right|done|].
    intros lim' [->|Hin']%elem_of_cons Hc'; [congruence|auto].
Qed.

Lemma first_match_none ip k l :
  first_match ip k l = None <-> forall lim, lim ∈ l -> Contains (Network lim) ip = false.
Proof.
  revert k. induction l as [|a l IH]; intros k; simpl.
  { split; [intros _ lim Hl; by apply elem_of_nil in Hl|done]. }
  destruct (Contains (Network a) ip) eqn:Hc.
  - split; [done|]. intros H. specialize (H a ltac:(by left)). congruence.
  - rewrite IH. split.
    + intros H lim [->|Hin]%elem_of_cons; auto.
    + intros H lim Hin. apply H. by right.
Qed.

(** [sortNetworkPrefixes] is a stable permutation by decreasing prefix length,
    and therefore the prefix the limiter picks for an address is a most specific
    one among all configured prefixes that contain it; it picks none only when
    none contains it. *)
Theorem most_specific_wins l ip :
  let s := sortNetworkPrefixes l in
  s ≡ₚ l /\ StronglySorted by_bits s /\
  (forall n, filter (fun x => Bits (Network x) = n) s = filter (fun x => Bits (Network x) = n) l) /\
  match first_match ip 0 s with
  | Some (_, lim) => lim ∈ l /\ Contains (Network lim) ip = true /\
      forall lim', lim' ∈ l -> Contains (Network lim') ip = true -> Bits (Network lim') <= Bits (Network lim)
  | None => forall lim, lim ∈ l -> Contains (Network lim) ip = false
  end.
Proof.
  cbv zeta. pose proof (sort_perm l) as Hp. split_and!; [done|apply sort_sorted| |].
  - intros n. induction l as [|a l IH]; simpl sortNetworkPrefixes; [done|].
    rewrite insert_stable_filter, !filter_cons. rewrite IH by apply sort_perm. done.
  - destruct (first_match ip 0 (sortNetworkPrefixes l)) as [[i lim]|] eqn:Hm.
    + apply first_match_sorted in Hm as (H1 & H2 & H3); [|apply sort_sorted].
      rewrite Hp in H1. split_and!; [done..|]. intros lim' Hl. apply H3. by rewrite Hp.
    + intros lim Hl. apply (proj1 (first_match_none ip 0 _) Hm). by rewrite Hp.
Qed.

(** ** Concrete instances *)

Definition addr4 (a b c d : Z) : Addr := Addr4 (Z.shiftl a 24 + Z.shiftl b 16 + Z.shiftl c 8 + d).

Lemma newConnLimiter_fresh : fresh newConnLimiter.
Proof. by intros []. Qed.

Lemma addConn_refines_witness :
  exists cl', addConn (addr4 1 2 3 4) newConnLimiter = Some (true, cl') /\
              limiter_inv cl' [addr4 1 2 3 4].
Proof.
  destruct (addConn_refines (addr4 1 2 3 4) newConnLimiter []) as (cl' & H & _ & Hi).
  - apply fresh_inv, newConnLimiter_fresh.
  - reflexivity.
  - exists cl'. split; [exact H|exact Hi].
Defined.

Lemma rmConn_refines_witness :
  exists cl cl', addConn (addr4 1 2 3 4) newConnLimiter = Some (true, cl) /\
    rmConn (addr4 1 2 3 4) cl = Some cl' /\ limiter_inv cl' [].
Proof.
  destruct (addConn_spec (addr4 1 2 3 4) newConnLimiter []) as (cl & H & _ & Hi);
    [apply fresh_inv, newConnLimiter_fresh|reflexivity|].
  destruct (rmConn_refines (addr4 1 2 3 4) cl []) as (cl' & H' & _ & Hi'); [exact Hi|reflexivity|].
  exists cl, cl'. exact (conj H (conj H' Hi')).
Defined.

Lemma limits_never_exceeded_witness :
  tally (in_subnet false DefaultNetworkPrefixLimitV4 32 (mkPrefix (addr4 1 2 3 4) 32)) [addr4 1 2 3 4] <= 8.
Proof.
  destruct (addConn (addr4 1 2 3 4) newConnLimiter) as [[ok cl]|] eqn:E; [|vm_compute in E; discriminate E].
  pose proof (runs_add newConnLimiter _ _ (addr4 1 2 3 4) ok cl (runs_nil newConnLimiter) eq_refl E) as Hr.
  vm_compute in E. injection E as <- _.
  destruct (limits_never_exceeded newConnLimiter cl _ newConnLimiter_fresh Hr) as [_ H].
  apply (H false defaultIP4Limit (mkPrefix (addr4 1 2 3 4) 32)). left.
Defined.

(** A connection refused by the second of two subnet limits leaves an entry with
    count zero behind in the map of the first, which no [rmConn] will remove. *)
Lemma refused_leaves_entry :
  let cl0 := WithLimitPerSubnet (Some [ {| PrefixLength := 32; sn_ConnCount := 8 |};
                                        {| PrefixLength := 24; sn_ConnCount := 0 |} ]) None newConnLimiter in
  exists cl, addConn (addr4 1 2 3 4) cl0 = Some (false, cl) /\
    subnet_at (ip4connsPerLimit cl) 0 (mkPrefix (addr4 1 2 3 4) 32) = Some 0.
Proof. eexists. split; vm_compute; reflexivity. Qed.
