(* ===== verification/Rcmgr.v ===== *)
(** * The resource manager (src/p2p/host/resource-manager/rcmgr.go)

    The manager's state is a record with the heap of scopes ([Scope]), the
    connection limiter ([ConnLimiter]), the allowlist, the scope maps and the
    connection and stream scopes handed out.  A [*peerScope] is the pair of the
    peer and the address of its resource scope; a [*protocolScope] or
    [*serviceScope] is an entry of the manager's map, with its own map of
    per-peer scopes.  Operations run in the monad [MR]; [None] is a reference
    that is not in the heap, which no run meets (RcmgrTheorems.v).

    The allowlist and the endpoint addresses are interfaces ([AllowlistI],
    [EndpointI]); [Allowlist] implements them.  The textual form of a peer ID in
    scope names is a parameter ([show_peer]).  Metrics, tracing and the ticker of
    [background] are left out; [gc] is the body of its loop. *)

From stdpp Require Import base gmap list strings fin_maps pretty.
From Stdlib Require Import ZArith Lia.
From S2P Require Import Prelude Limits Resources Scope ConnLimiter.

(** What the manager needs from the allowlist. *)
Class AllowlistI (AL MA : Type) := {
  newAllowlist : AL;
  Allowed : AL -> MA -> bool;
  AllowedPeerAndMultiaddr : AL -> string -> MA -> bool;
  allowed_prefixes : AL -> list Prefix;
}.

(** What it needs from endpoint addresses: [manet.ToIP]. *)
Class EndpointI (MA : Type) := { ToIP : MA -> option (list Z) }.

(** [netip.AddrFromSlice] *)
Definition be_value (bs : list Z) : Z := fold_left (fun acc b => acc * 256 + b) bs 0.
Definition AddrFromSlice (bs : list Z) : option Addr :=
  if (length bs =? 4)%nat then Some (Addr4 (be_value bs))
  else if (length bs =? 16)%nat then Some (Addr6 (be_value bs) "")
  else None.
Definition IsValid (ip : Addr) : bool := match ip with AddrZero => false | _ => true end.

Inductive mgr_error :=
| ErrIPLimit
| ErrBadIP
| ErrScope (err : rc_error)
| ErrOption
| ErrHasPeer
| ErrHasProtocol
| ErrHasService
| ErrNoProtocol.

Section rcmgr.
Context {L : Type} `{!Limit L} {R : Type} `{!Limiter R L}.
Context {MA AL : Type} `{!AllowlistI AL MA} `{!EndpointI MA}.
Context (show_peer : string -> string).

(** A protocol or service scope with its per-peer scopes. *)
Record groupScope := mkGroup { g_scope : nat; g_peers : gmap string nat }.

Record connectionScope := mkConn {
  cn_dir : Direction;
  cn_usefd : bool;
  cn_isAllowlisted : bool;
  cn_peer : option (string * nat);
  cn_endpoint : MA;
  cn_ip : Addr;
}.

Record streamScope := mkStream {
  st_dir : Direction;
  st_peer : string * nat;
  st_svc : option (string * nat);
  st_proto : option (string * nat);
  st_peerProtoScope : option nat;
  st_peerSvcScope : option nat;
}.

Record resourceManager := mkManager {
  rm_limits : R;
  rm_connLimiter : connLimiter;
  rm_allowlist : AL;
  rm_system : nat;
  rm_transient : nat;
  rm_allowlistedSystem : nat;
  rm_allowlistedTransient : nat;
  rm_svc : gmap string groupScope;
  rm_proto : gmap string groupScope;
  rm_peer : gmap string nat;
  rm_stickyProto : gset string;
  rm_stickyPeer : gset string;
  rm_connId : Z;
  rm_streamId : Z;
  rm_heap : heap L;
  rm_conns : gmap nat connectionScope;
  rm_streams : gmap nat streamScope;
}.

(** ** The monad *)
Definition MR (A : Type) := resourceManager -> option (A * resourceManager).
Definition rret {A} (a : A) : MR A := fun r => Some (a, r).
Definition rbind {A B} (m : MR A) (k : A -> MR B) : MR B := fun r =>
  match m r with Some (a, r') => k a r' | None => None end.
Definition gets {A} (f : resourceManager -> A) : MR A := fun r => Some (f r, r).
Definition update (f : resourceManager -> resourceManager) : MR unit := fun r => Some (tt, f r).
Definition need {A} (o : option A) : MR A := fun r =>
  match o with Some a => Some (a, r) | None => None end.

Definition set_heap (h : heap L) (r : resourceManager) : resourceManager :=
  mkManager (rm_limits r) (rm_connLimiter r) (rm_allowlist r) (rm_system r) (rm_transient r)
    (rm_allowlistedSystem r) (rm_allowlistedTransient r) (rm_svc r) (rm_proto r) (rm_peer r)
    (rm_stickyProto r) (rm_stickyPeer r) (rm_connId r) (rm_streamId r) h (rm_conns r) (rm_streams r).
Definition set_connLimiter (cl : connLimiter) (r : resourceManager) : resourceManager :=
  mkManager (rm_limits r) cl (rm_allowlist r) (rm_system r) (rm_transient r)
    (rm_allowlistedSystem r) (rm_allowlistedTransient r) (rm_svc r) (rm_proto r) (rm_peer r)
    (rm_stickyProto r) (rm_stickyPeer r) (rm_connId r) (rm_streamId r) (rm_heap r) (rm_conns r) (rm_streams r).
Definition set_scopes (svc proto : gmap string groupScope) (peer : gmap string nat) (r : resourceManager)
    : resourceManager :=
  mkManager (rm_limits r) (rm_connLimiter r) (rm_allowlist r) (rm_system r) (rm_transient r)
    (rm_allowlistedSystem r) (rm_allowlistedTransient r) svc proto peer
    (rm_stickyProto r) (rm_stickyPeer r) (rm_connId r) (rm_streamId r) (rm_heap r) (rm_conns r) (rm_streams r).
Definition set_sticky (proto peer : gset string) (r : resourceManager) : resourceManager :=
  mkManager (rm_limits r) (rm_connLimiter r) (rm_allowlist r) (rm_system r) (rm_transient r)
    (rm_allowlistedSystem r) (rm_allowlistedTransient r) (rm_svc r) (rm_proto r) (rm_peer r)
    proto peer (rm_connId r) (rm_streamId r) (rm_heap r) (rm_conns r) (rm_streams r).
Definition set_ids (conn stream : Z) (r : resourceManager) : resourceManager :=
  mkManager (rm_limits r) (rm_connLimiter r) (rm_allowlist r) (rm_system r) (rm_transient r)
    (rm_allowlistedSystem r) (rm_allowlistedTransient r) (rm_svc r) (rm_proto r) (rm_peer r)
    (rm_stickyProto r) (rm_stickyPeer r) conn stream (rm_heap r) (rm_conns r) (rm_streams r).
Definition set_conns (conns : gmap nat connectionScope) (r : resourceManager) : resourceManager :=
  mkManager (rm_limits r) (rm_connLimiter r) (rm_allowlist r) (rm_system r) (rm_transient r)
    (rm_allowlistedSystem r) (rm_allowlistedTransient r) (rm_svc r) (rm_proto r) (rm_peer r)
    (rm_stickyProto r) (rm_stickyPeer r) (rm_connId r) (rm_streamId r) (rm_heap r) conns (rm_streams r).
Definition set_streams (streams : gmap nat streamScope) (r : resourceManager) : resourceManager :=
  mkManager (rm_limits r) (rm_connLimiter r) (rm_allowlist r) (rm_system r) (rm_transient r)
    (rm_allowlistedSystem r) (rm_allowlistedTransient r) (rm_svc r) (rm_proto r) (rm_peer r)
    (rm_stickyProto r) (rm_stickyPeer r) (rm_connId r) (rm_streamId r) (rm_heap r) (rm_conns r) streams.

(** A method of a scope. *)
Definition lift {A} (m : M L A) : MR A := fun r =>
  match m (rm_heap r) with
  | Some (a, h) => Some (a, set_heap h r)
  | None => None
  end.
End rcmgr.
Arguments resourceManager : clear implicits.
Arguments MR : clear implicits.
Arguments connectionScope : clear implicits.

Declare Scope rcmgr_scope.
Delimit Scope rcmgr_scope with rcmgr.
Notation "'do' x := m 'in' k" := (rbind m (fun x => k))
  (at level 10, x name, m at level 99, k at level 200) : rcmgr_scope.
Notation "'run' m 'then' k" := (rbind m (fun _ => k))
  (at level 10, m at level 99, k at level 200) : rcmgr_scope.
Open Scope rcmgr_scope.

Section ops.
Context {L : Type} `{!Limit L} {R : Type} `{!Limiter R L}.
Context {MA AL : Type} `{!AllowlistI AL MA} `{!EndpointI MA}.
Context (show_peer : string -> string).
Abbreviation mgr := (resourceManager L R MA AL).
Abbreviation act := (MR L R MA AL).

(** ** Scope names *)

Definition streamScopeName (streamId : Z) : string := "stream-" +:+ pretty streamId.
Definition connScopeName (connId : Z) : string := "conn-" +:+ pretty connId.
Definition peerScopeName (p : string) : string := "peer:" +:+ show_peer p.

(** ** Construction of scopes *)

Definition newSystemScope (lim : L) (nm : string) : act nat := lift (newResourceScope lim [] nm).
Definition newTransientScope (lim : L) (nm : string) (system : nat) : act nat :=
  lift (newResourceScope lim [system] nm).

Definition newServiceScope (service : string) (lim : L) : act groupScope :=
  do system := gets rm_system in
  do s := lift (newResourceScope lim [system] ("service:" +:+ service)) in
  rret (mkGroup s ∅).

Definition newProtocolScope (proto : string) (lim : L) : act groupScope :=
  do system := gets rm_system in
  do s := lift (newResourceScope lim [system] ("protocol:" +:+ proto)) in
  rret (mkGroup s ∅).

Definition newPeerScope (p : string) (lim : L) : act nat :=
  do system := gets rm_system in
  lift (newResourceScope lim [system] (peerScopeName p)).

Definition nextConnId : act Z :=
  run update (fun r => set_ids (rm_connId r + 1) (rm_streamId r) r) then gets rm_connId.
Definition nextStreamId : act Z :=
  run update (fun r => set_ids (rm_connId r) (rm_streamId r + 1) r) then gets rm_streamId.

Definition newConnectionScope (dir : Direction) (usefd : bool) (lim : L) (endpoint : MA) (ip : Addr) : act nat :=
  do tr := gets rm_transient in
  do sys := gets rm_system in
  do id := nextConnId in
  do c := lift (newResourceScope lim [tr; sys] (connScopeName id)) in
  run update (fun r => set_conns (<[c := mkConn dir usefd false None endpoint ip]> (rm_conns r)) r) then
  rret c.

Definition newAllowListedConnectionScope (dir : Direction) (usefd : bool) (lim : L) (endpoint : MA) : act nat :=
  do tr := gets rm_allowlistedTransient in
  do sys := gets rm_allowlistedSystem in
  do id := nextConnId in
  do c := lift (newResourceScope lim [tr; sys] (connScopeName id)) in
  run update (fun r => set_conns (<[c := mkConn dir usefd true None endpoint AddrZero]> (rm_conns r)) r) then
  rret c.

Definition newStreamScope (dir : Direction) (lim : L) (peer : string * nat) : act nat :=
  do tr := gets rm_transient in
  do sys := gets rm_system in
  do id := nextStreamId in
  do s := lift (newResourceScope lim [peer.2; tr; sys] (streamScopeName id)) in
  run update (fun r => set_streams (<[s := mkStream dir peer None None None None]> (rm_streams r)) r) then
  rret s.

(** ** Looking up or creating scopes; the caller gets a reference *)

Definition getServiceScope (svc : string) : act nat :=
  do m := gets rm_svc in
  do g := match m !! svc with
          | Some g => rret g
          | None =>
              do lims := gets rm_limits in
              do g := newServiceScope svc (GetServiceLimits lims svc) in
              run update (fun r => set_scopes (<[svc := g]> (rm_svc r)) (rm_proto r) (rm_peer r) r) then
              rret g
          end in
  run lift (IncRef (g_scope g)) then rret (g_scope g).

Definition getProtocolScope (proto : string) : act nat :=
  do m := gets rm_proto in
  do g := match m !! proto with
          | Some g => rret g
          | None =>
              do lims := gets rm_limits in
              do g := newProtocolScope proto (GetProtocolLimits lims proto) in
              run update (fun r => set_scopes (rm_svc r) (<[proto := g]> (rm_proto r)) (rm_peer r) r) then
              rret g
          end in
  run lift (IncRef (g_scope g)) then rret (g_scope g).

Definition getPeerScope (p : string) : act nat :=
  do m := gets rm_peer in
  do s := match m !! p with
          | Some s => rret s
          | None =>
              do lims := gets rm_limits in
              do s := newPeerScope p (GetPeerLimits lims p) in
              run update (fun r => set_scopes (rm_svc r) (rm_proto r) (<[p := s]> (rm_peer r)) r) then
              rret s
          end in
  run lift (IncRef s) then rret s.

Definition setStickyProtocol (proto : string) : act unit :=
  update (fun r => set_sticky ({[proto]} ∪ rm_stickyProto r) (rm_stickyPeer r) r).
Definition setStickyPeer (p : string) : act unit :=
  update (fun r => set_sticky (rm_stickyProto r) ({[p]} ∪ rm_stickyPeer r) r).

(** [serviceScope.getPeerScope] and [protocolScope.getPeerScope]: per-peer scopes
    have no parents. *)
Definition service_getPeerScope (svc p : string) : act nat :=
  do m := gets rm_svc in
  do g := need (m !! svc) in
  match g_peers g !! p with
  | Some ps => run lift (IncRef ps) then rret ps
  | None =>
      do lims := gets rm_limits in
      do gc := lift (get_scope (g_scope g)) in
      do ps := lift (newResourceScope (GetServicePeerLimits lims svc) []
                       (name gc +:+ ".peer:" +:+ show_peer p)) in
      run update (fun r => set_scopes (<[svc := mkGroup (g_scope g) (<[p := ps]> (g_peers g))]> (rm_svc r))
                                      (rm_proto r) (rm_peer r) r) then
      run lift (IncRef ps) then rret ps
  end.

Definition protocol_getPeerScope (proto p : string) : act nat :=
  do m := gets rm_proto in
  do g := need (m !! proto) in
  match g_peers g !! p with
  | Some ps => run lift (IncRef ps) then rret ps
  | None =>
      do lims := gets rm_limits in
      do gc := lift (get_scope (g_scope g)) in
      do ps := lift (newResourceScope (GetProtocolPeerLimits lims proto) []
                       (name gc +:+ ".peer:" +:+ show_peer p)) in
      run update (fun r => set_scopes (rm_svc r)
                             (<[proto := mkGroup (g_scope g) (<[p := ps]> (g_peers g))]> (rm_proto r))
                             (rm_peer r) r) then
      run lift (IncRef ps) then rret ps
  end.

(** ** Connections *)

Definition limiter_addConn (ip : Addr) : act bool :=
  do cl := gets rm_connLimiter in
  do x := need (addConn ip cl) in
  run update (set_connLimiter x.2) then rret x.1.
Definition limiter_rmConn (ip : Addr) : act unit :=
  do cl := gets rm_connLimiter in
  do cl' := need (rmConn ip cl) in
  update (set_connLimiter cl').

Definition conn_at (c : nat) : act (connectionScope MA) :=
  do conns := gets rm_conns in need (conns !! c).

(** [connectionScope.Done] *)
Definition conn_Done (c : nat) : act unit :=
  do cs := conn_at c in
  do sc := lift (get_scope c) in
  if done sc then rret tt
  else
    run (if IsValid (cn_ip cs) then limiter_rmConn (cn_ip cs) else rret tt) then
    lift (Done c).

Definition openConnection (dir : Direction) (usefd : bool) (endpoint : MA) (ip : Addr)
    : act (result mgr_error nat) :=
  do ok := (if IsValid ip then limiter_addConn ip else rret true) in
  if negb ok then rret (Err ErrIPLimit)
  else
    do lims := gets rm_limits in
    do c := newConnectionScope dir usefd (GetConnLimits lims) endpoint ip in
    do err := lift (AddConn c dir usefd) in
    do al := gets rm_allowlist in
    do x := (match err with
             | Some _ =>
                 if IsValid ip && Allowed al endpoint then
                   run conn_Done c then
                   do c' := newAllowListedConnectionScope dir usefd (GetConnLimits lims) endpoint in
                   do err' := lift (AddConn c' dir usefd) in
                   rret (c', err')
                 else rret (c, err)
             | None => rret (c, err)
             end) in
    match x.2 with
    | Some err => run conn_Done x.1 then rret (Err (ErrScope err))
    | None => rret (Ok x.1)
    end.

Definition OpenConnectionNoIP (dir : Direction) (usefd : bool) (endpoint : MA) : act (result mgr_error nat) :=
  openConnection dir usefd endpoint AddrZero.

Definition OpenConnection (dir : Direction) (usefd : bool) (endpoint : MA) : act (result mgr_error nat) :=
  match ToIP endpoint with
  | None => openConnection dir usefd endpoint AddrZero
  | Some ip =>
      match AddrFromSlice ip with
      | None => rret (Err ErrBadIP)
      | Some ipAddr => openConnection dir usefd endpoint ipAddr
      end
  end.

Definition set_conn (c : nat) (f : connectionScope MA -> connectionScope MA) : act unit :=
  update (fun r => set_conns (alter f c (rm_conns r)) r).

(** [transferAllowedToStandard]: the allowlisted parents are given up first; on
    failure the connection is left without parents. *)
Definition transferAllowedToStandard (c : nat) : act (option rc_error) :=
  do system := gets rm_system in
  do transient := gets rm_transient in
  do sc := lift (get_scope c) in
  let st := stat (rc sc) in
  run lift (release_and_decref st (edges sc)) then
  run lift (modify c (set_edges [])) then
  do err := lift (ReserveForChild system st) in
  match err with
  | Some err => rret (Some err)
  | None =>
      run lift (IncRef system) then
      do err := lift (ReserveForChild transient st) in
      match err with
      | Some err =>
          run lift (ReleaseForChild system st) then
          run lift (DecRef system) then
          rret (Some err)
      | None =>
          run lift (IncRef transient) then
          run lift (modify c (set_edges [system; transient])) then
          rret None
      end
  end.

Definition with_peer (peer : option (string * nat)) (cs : connectionScope MA) : connectionScope MA :=
  mkConn (cn_dir cs) (cn_usefd cs) (cn_isAllowlisted cs) peer (cn_endpoint cs) (cn_ip cs).
Definition not_allowlisted (cs : connectionScope MA) : connectionScope MA :=
  mkConn (cn_dir cs) (cn_usefd cs) false (cn_peer cs) (cn_endpoint cs) (cn_ip cs).

(** The end of [SetPeer]: from [transient] to the peer's scope. *)
Definition attach_peer (c : nat) (p : string) (system transient : nat) : act (option mgr_error) :=
  do s := getPeerScope p in
  run set_conn c (with_peer (Some (p, s))) then
  do sc := lift (get_scope c) in
  let st := stat (rc sc) in
  do err := lift (ReserveForChild s st) in
  match err with
  | Some err =>
      run lift (DecRef s) then
      run set_conn c (with_peer None) then
      rret (Some (ErrScope err))
  | None =>
      run lift (ReleaseForChild transient st) then
      run lift (DecRef transient) then
      run lift (modify c (set_edges [s; system])) then
      rret None
  end.

Definition SetPeer (c : nat) (p : string) : act (option mgr_error) :=
  do cs := conn_at c in
  match cn_peer cs with
  | Some _ => rret (Some ErrHasPeer)
  | None =>
      do system := gets rm_system in
      do transient := gets rm_transient in
      do asystem := gets rm_allowlistedSystem in
      do atransient := gets rm_allowlistedTransient in
      do al := gets rm_allowlist in
      if cn_isAllowlisted cs then
        if AllowedPeerAndMultiaddr al p (cn_endpoint cs) then attach_peer c p asystem atransient
        else
          run set_conn c not_allowlisted then
          do err := transferAllowedToStandard c in
          match err with
          | Some err => rret (Some (ErrScope err))
          | None => attach_peer c p system transient
          end
      else attach_peer c p system transient
  end.

(** ** Streams *)

Definition stream_at (s : nat) : act streamScope :=
  do streams := gets rm_streams in need (streams !! s).
Definition set_stream (s : nat) (f : streamScope -> streamScope) : act unit :=
  update (fun r => set_streams (alter f s (rm_streams r)) r).

Definition OpenStream (p : string) (dir : Direction) : act (result mgr_error nat) :=
  do peer := getPeerScope p in
  do lims := gets rm_limits in
  do s := newStreamScope dir (GetStreamLimits lims p) (p, peer) in
  run lift (DecRef peer) then
  do err := lift (AddStream s dir) in
  match err with
  | Some err => run lift (Done s) then rret (Err (ErrScope err))
  | None => rret (Ok s)
  end.

Definition with_proto (proto : option (string * nat)) (pp : option nat) (st : streamScope) : streamScope :=
  mkStream (st_dir st) (st_peer st) (st_svc st) proto pp (st_peerSvcScope st).
Definition with_svc (svc : option (string * nat)) (ps : option nat) (st : streamScope) : streamScope :=
  mkStream (st_dir st) (st_peer st) svc (st_proto st) (st_peerProtoScope st) ps.

Definition SetProtocol (s : nat) (proto : string) : act (option mgr_error) :=
  do ss := stream_at s in
  match st_proto ss with
  | Some _ => rret (Some ErrHasProtocol)
  | None =>
      do pr := getProtocolScope proto in
      run set_stream s (with_proto (Some (proto, pr)) (st_peerProtoScope ss)) then
      do sc := lift (get_scope s) in
      let st := stat (rc sc) in
      do err := lift (ReserveForChild pr st) in
      match err with
      | Some err =>
          run lift (DecRef pr) then
          run set_stream s (with_proto None (st_peerProtoScope ss)) then
          rret (Some (ErrScope err))
      | None =>
          do pp := protocol_getPeerScope proto (st_peer ss).1 in
          run set_stream s (with_proto (Some (proto, pr)) (Some pp)) then
          do err := lift (ReserveForChild pp st) in
          match err with
          | Some err =>
              run lift (ReleaseForChild pr st) then
              run lift (DecRef pr) then
              run lift (DecRef pp) then
              run set_stream s (with_proto None None) then
              rret (Some (ErrScope err))
          | None =>
              do transient := gets rm_transient in
              do system := gets rm_system in
              run lift (ReleaseForChild transient st) then
              run lift (DecRef transient) then
              run lift (modify s (set_edges [(st_peer ss).2; pp; pr; system])) then
              rret None
          end
      end
  end.

Definition SetService (s : nat) (svc : string) : act (option mgr_error) :=
  do ss := stream_at s in
  match st_svc ss with
  | Some _ => rret (Some ErrHasService)
  | None =>
    match st_proto ss with
    | None => rret (Some ErrNoProtocol)
    | Some (_, pr) =>
      do sv := getServiceScope svc in
      run set_stream s (with_svc (Some (svc, sv)) (st_peerSvcScope ss)) then
      do sc := lift (get_scope s) in
      let st := stat (rc sc) in
      do err := lift (ReserveForChild sv st) in
      match err with
      | Some err =>
          run lift (DecRef sv) then
          run set_stream s (with_svc None (st_peerSvcScope ss)) then
          rret (Some (ErrScope err))
      | None =>
          do ps := service_getPeerScope svc (st_peer ss).1 in
          run set_stream s (with_svc (Some (svc, sv)) (Some ps)) then
          do err := lift (ReserveForChild ps st) in
          match err with
          | Some err =>
              run lift (ReleaseForChild sv st) then
              run lift (DecRef sv) then
              run lift (DecRef ps) then
              run set_stream s (with_svc None None) then
              rret (Some (ErrScope err))
          | None =>
              do system := gets rm_system in
              do pp := need (st_peerProtoScope ss) in
              run lift (modify s (set_edges [(st_peer ss).2; pp; ps; pr; sv; system])) then
              rret None
          end
      end
    end
  end.

(** ** Views *)

Definition ViewSystem {A} (f : nat -> act A) : act A := do s := gets rm_system in f s.
Definition ViewTransient {A} (f : nat -> act A) : act A := do s := gets rm_transient in f s.
Definition ViewService {A} (svc : string) (f : nat -> act A) : act A :=
  do s := getServiceScope svc in
  do x := f s in
  run lift (DecRef s) then rret x.
Definition ViewProtocol {A} (proto : string) (f : nat -> act A) : act A :=
  do s := getProtocolScope proto in
  do x := f s in
  run lift (DecRef s) then rret x.
Definition ViewPeer {A} (p : string) (f : nat -> act A) : act A :=
  do s := getPeerScope p in
  do x := f s in
  run lift (DecRef s) then rret x.

(** ** Garbage collection *)

Fixpoint gc_protocols (l : list (string * groupScope)) : act unit :=
  match l with
  | [] => rret tt
  | (proto, g) :: l =>
      do sticky := gets rm_stickyProto in
      if bool_decide (proto ∈ sticky) then gc_protocols l
      else
        do unused := lift (IsUnused (g_scope g)) in
        run (if (unused : bool) then
               run lift (Done (g_scope g)) then
               update (fun r => set_scopes (rm_svc r) (delete proto (rm_proto r)) (rm_peer r) r)
             else rret tt) then
        gc_protocols l
  end.

Fixpoint gc_peers (l : list (string * nat)) (dead : list string) : act (list string) :=
  match l with
  | [] => rret dead
  | (p, s) :: l =>
      do sticky := gets rm_stickyPeer in
      if bool_decide (p ∈ sticky) then gc_peers l dead
      else
        do unused := lift (IsUnused s) in
        if (unused : bool) then
          run lift (Done s) then
          run update (fun r => set_scopes (rm_svc r) (rm_proto r) (delete p (rm_peer r)) r) then
          gc_peers l (dead ++ [p])
        else gc_peers l dead
  end.

(** The per-peer scopes of the dead peers in one service or protocol. *)
Fixpoint gc_group (dead : list string) (peers : gmap string nat) : act (gmap string nat) :=
  match dead with
  | [] => rret peers
  | p :: dead =>
      match peers !! p with
      | Some ps => run lift (Done ps) then gc_group dead (delete p peers)
      | None => gc_group dead peers
      end
  end.

Fixpoint gc_service_peers (l : list (string * groupScope)) (dead : list string) : act unit :=
  match l with
  | [] => rret tt
  | (svc, g) :: l =>
      do peers := gc_group dead (g_peers g) in
      run update (fun r => set_scopes (<[svc := mkGroup (g_scope g) peers]> (rm_svc r)) (rm_proto r) (rm_peer r) r) then
      gc_service_peers l dead
  end.

Fixpoint gc_protocol_peers (l : list (string * groupScope)) (dead : list string) : act unit :=
  match l with
  | [] => rret tt
  | (proto, g) :: l =>
      do peers := gc_group dead (g_peers g) in
      run update (fun r => set_scopes (rm_svc r) (<[proto := mkGroup (g_scope g) peers]> (rm_proto r)) (rm_peer r) r) then
      gc_protocol_peers l dead
  end.

(** The order in which Go ranges over a map is not determined; the model takes
    the one of [map_to_list]. *)
Definition gc : act unit :=
  do protos := gets rm_proto in
  run gc_protocols (map_to_list protos) then
  do peers := gets rm_peer in
  do dead := gc_peers (map_to_list peers) [] in
  do svcs := gets rm_svc in
  run gc_service_peers (map_to_list svcs) dead then
  do protos := gets rm_proto in
  gc_protocol_peers (map_to_list protos) dead.

(** ** Construction *)

(** An option configures the connection limiter and the allowlist. *)
Definition Option := connLimiter * AL -> result mgr_error (connLimiter * AL).

Fixpoint apply_options (opts : list Option) (x : connLimiter * AL) : result mgr_error (connLimiter * AL) :=
  match opts with
  | [] => Ok x
  | opt :: opts =>
      match opt x with
      | Err e => Err e
      | Ok x => apply_options opts x
      end
  end.

(** Allowlisted networks without a limit of their own get the connection limit of
    the allowlisted system scope. *)
Definition register_allowlist (lims : R) (al : AL) (cl : connLimiter) : connLimiter :=
  let registered := map Network (networkPrefixLimitV4 cl) ++ map Network (networkPrefixLimitV6 cl) in
  fold_left (fun cl prefix =>
    if bool_decide (prefix ∈ registered) then cl
    else addNetworkPrefixLimit (Is6 (p_addr prefix))
           {| Network := prefix;
              np_ConnCount := GetConnTotalLimit (GetAllowlistedSystemLimits lims : L) |} cl)
    (allowed_prefixes al) cl.

Definition NewResourceManager (lims : R) (opts : list Option) : option (result mgr_error mgr) :=
  match apply_options opts (newConnLimiter, newAllowlist) with
  | Err e => Some (Err e)
  | Ok (cl, al) =>
      let r0 := mkManager lims (register_allowlist lims al cl) al 0 0 0 0 ∅ ∅ ∅ ∅ ∅ 0 0 ∅ ∅ ∅ in
      let init : act (nat * nat * nat * nat) :=
        do s := newSystemScope (GetSystemLimits lims) "system" in
        run lift (IncRef s) then
        do t := newTransientScope (GetTransientLimits lims) "transient" s in
        run lift (IncRef t) then
        do als := newSystemScope (GetAllowlistedSystemLimits lims) "allowlistedSystem" in
        run lift (IncRef als) then
        do alt := newTransientScope (GetAllowlistedTransientLimits lims) "allowlistedTransient" als in
        run lift (IncRef alt) then
        rret (s, t, als, alt) in
      match init r0 with
      | None => None
      | Some ((s, t, als, alt), r) =>
          Some (Ok (mkManager lims (rm_connLimiter r) al s t als alt ∅ ∅ ∅ ∅ ∅ 0 0 (rm_heap r) ∅ ∅))
      end
  end.
End ops.
