(* ===== verification/Allowlist.v ===== *)
(** * The allowlist of the resource manager (src/p2p/host/resource-manager/allowlist.go)

    Networks any peer may use, and networks only certain peers may use.  The networks
    come from multiaddrs ([toIPNet]); the parts of [net] the code uses ([IPNet],
    [ParseCIDR], [Contains]) are modelled over byte lists.  A peer ID is the list of
    its bytes.  The file ends with the instance the manager of [Rcmgr] is built on. *)

From stdpp Require Import base gmap list numbers strings fin_maps.
From Stdlib Require Import ZArith Lia Btauto.
From S2P Require Import Prelude Varint GoText Base58 Multihash PeerID Transcoders OnionGarlic Multiaddr MultiaddrSpec Limits Resources Scope ConnLimiter Rcmgr.

(** ** [net.IPNet] *)

Record IPNet := mkIPNet { n_IP : list Z; n_Mask : list Z }.

(** [net.CIDRMask]: [ones] leading one bits of [n] bytes. *)
Fixpoint CIDRMask (ones : Z) (n : nat) : list Z :=
  match n with
  | O => []
  | S n =>
      if ones >=? 8 then 255 :: CIDRMask (ones - 8) n
      else (255 - Z.shiftr 255 ones) :: CIDRMask 0 n
  end.

(** [IP.Mask]; [None] is nil. *)
Definition IP_Mask (ip mask : list Z) : option (list Z) :=
  let mask := if (length mask =? 16)%nat && (length ip =? 4)%nat && bool_decide (take 12 mask = replicate 12 255)
              then drop 12 mask else mask in
  let ip := if (length mask =? 4)%nat && (length ip =? 16)%nat && bool_decide (take 12 ip = v4InV6Prefix)
            then drop 12 ip else ip in
  if (length ip =? length mask)%nat then Some (zip_with Z.land ip mask) else None.

(** [netip.ParseAddr] of a text without a zone: 4 or 16 bytes. *)
Definition ParseAddr (s : list Z) : option (list Z) :=
  match family_char s with
  | Some c =>
      if c =? dot then parseIPv4 s
      else if c =? colon then if bool_decide (percent ∈ s) then None else parseIPv6 s
      else None
  | None => None
  end.

(** [dtoi] *)
Definition dtoi (s : list Z) : option Z :=
  match s with [] => None | _ => parse_digits (16777215 - 1) 0 s end.

(** [net.ParseCIDR(addr + "/" + mask)] for an [addr] without a slash; only the network
    is used. *)
Definition ParseCIDR (addr mask : list Z) : option IPNet :=
  match ParseAddr addr with
  | None => None
  | Some ip =>
      let bits := 8 * Z.of_nat (length ip) in
      match dtoi mask with
      | None => None
      | Some n =>
          if n >? bits then None
          else
            let m := CIDRMask n (length ip) in
            match To16 ip with
            | Some ip16 => Some (mkIPNet (default [] (IP_Mask ip16 m)) m)
            | None => None
            end
      end
  end.

Definition networkNumberAndMask (n : IPNet) : option (list Z * list Z) :=
  match (match To4 (n_IP n) with
         | Some ip => Some ip
         | None => if (length (n_IP n) =? 16)%nat then Some (n_IP n) else None
         end) with
  | None => None
  | Some ip =>
      let m := n_Mask n in
      if (length m =? 4)%nat then if (length ip =? 4)%nat then Some (ip, m) else None
      else if (length m =? 16)%nat then Some (ip, if (length ip =? 4)%nat then drop 12 m else m)
      else None
  end.

Definition masked (ip m : list Z) : list Z := zip_with Z.land ip m.

Definition IPNet_Contains (n : IPNet) (ip : list Z) : bool :=
  let ip := match To4 ip with Some x => x | None => ip end in
  match networkNumberAndMask n with
  | None => (length ip =? 0)%nat
  | Some (nn, m) => (length ip =? length nn)%nat && bool_decide (masked nn m = masked ip m)
  end.

(** [IP.Equal] *)
Definition IP_Equal (ip x : list Z) : bool :=
  if (length ip =? length x)%nat then bool_decide (ip = x)
  else if (length ip =? 4)%nat && (length x =? 16)%nat then bool_decide (x = v4InV6Prefix ++ ip)
  else if (length ip =? 16)%nat && (length x =? 4)%nat then bool_decide (ip = v4InV6Prefix ++ x)
  else false.

(** [simpleMaskLength]: the number of leading ones of a mask that has no others. *)
Fixpoint simpleMaskLength (m : list Z) : option Z :=
  match m with
  | [] => Some 0
  | b :: m' =>
      if b =? 255 then match simpleMaskLength m' with Some n => Some (8 + n) | None => None end
      else if forallb (Z.eqb 0) m' then
        (fix ones (k : nat) : option Z :=
           match k with
           | O => if b =? 0 then Some 0 else None
           | S k => if b =? 255 - Z.shiftr 255 (Z.of_nat (S k)) then Some (Z.of_nat (S k)) else ones k
           end) 7%nat
      else None
  end.

(** ** The allowlist *)

Record Allowlist := mkAllowlist {
  allowedNetworks : list IPNet;
  allowedPeerByNetwork : gmap (list Z) (list IPNet);
}.

Definition empty_allowlist : Allowlist := mkAllowlist [] ∅.

Inductive allow_error := ErrNoIP | ErrPeer | ErrInvalidIP | ErrCIDR.

(** The prefix of a network, as printed by [IPNet.String] and read by
    [netip.ParsePrefix]; a mask that is not a prefix does not parse. *)
Definition net_prefix (n : IPNet) : option Prefix :=
  match networkNumberAndMask n with
  | None => None
  | Some (nn, m) =>
      match simpleMaskLength m, AddrFromSlice nn with
      | Some l, Some a => Some (mkPrefix a l)
      | _, _ => None
      end
  end.

(** ** Byte masks and prefixes *)

Lemma be_value_acc acc bs : fold_left (fun acc b => acc * 256 + b) bs acc = acc * 2 ^ (8 * Z.of_nat (length bs)) + be_value bs.
Proof.
  unfold be_value. revert acc. induction bs as [|b bs IH]; intros acc; [cbn; lia|]. cbn [fold_left length].
  rewrite IH, (IH (0 * 256 + b)). replace (8 * Z.of_nat (S (length bs))) with (8 + 8 * Z.of_nat (length bs)) by lia.
  rewrite Z.pow_add_r by lia. change (2 ^ 8) with 256. unfold be_value. ring.
Qed.

Lemma be_value_cons b bs : be_value (b :: bs) = b * 2 ^ (8 * Z.of_nat (length bs)) + be_value bs.
Proof. unfold be_value at 1. cbn [fold_left]. rewrite be_value_acc. lia. Qed.

Lemma be_value_bound bs : bytes_ok bs -> 0 <= be_value bs < 2 ^ (8 * Z.of_nat (length bs)).
Proof.
  induction 1 as [|b bs Hb _ IH]; [done|]. rewrite be_value_cons. unfold is_byte in Hb. cbn [length].
  replace (8 * Z.of_nat (S (length bs))) with (8 + 8 * Z.of_nat (length bs)) by lia.
  rewrite Z.pow_add_r by lia. change (2 ^ 8) with 256. nia.
Qed.

(** The mask of a byte keeps its leading bits. *)
Lemma byte_mask x k : is_byte x -> 0 <= k < 8 -> Z.land x (255 - Z.shiftr 255 k) = Z.shiftr x (8 - k) * 2 ^ (8 - k).
Proof.
  intros Hx Hk. unfold is_byte in Hx.
  pose proof (forall_below 256 (fun x => forallb (fun k => Z.land x (255 - Z.shiftr 255 k) =? Z.shiftr x (8 - k) * 2 ^ (8 - k)) (seqZ 0 8))
    ltac:(by vm_compute) x ltac:(lia)) as H. simpl in H.
  pose proof (forall_below 8 (fun k => Z.land x (255 - Z.shiftr 255 k) =? Z.shiftr x (8 - k) * 2 ^ (8 - k)) H k Hk). by apply Z.eqb_eq.
Qed.

Lemma byte_full x : is_byte x -> Z.land x 255 = x.
Proof. intros Hx. unfold is_byte in Hx. change 255 with (Z.ones 8). rewrite Z.land_ones, Z.mod_small; lia. Qed.

Lemma mask_nothing xs : masked xs (CIDRMask 0 (length xs)) = replicate (length xs) 0.
Proof.
  unfold masked. induction xs as [|x xs IH]; [done|]. cbn. rewrite IH. f_equal. apply Z.land_0_r.
Qed.

(** Adding a leading byte to two numbers: the leading bits agree iff the byte and the
    leading bits of the rest do. *)
Lemma leading_cons x y a b n d :
  0 <= d <= n -> 0 <= a < 2 ^ n -> 0 <= b < 2 ^ n ->
  (x * 2 ^ n + a) / 2 ^ d = (y * 2 ^ n + b) / 2 ^ d <-> x = y /\ a / 2 ^ d = b / 2 ^ d.
Proof.
  intros Hd Ha Hb. replace (2 ^ n) with (2 ^ (n - d) * 2 ^ d) in * by (rewrite <- Z.pow_add_r by lia; f_equal; lia).
  assert (0 < 2 ^ d) by (apply Z.pow_pos_nonneg; lia). assert (0 < 2 ^ (n - d)) by (apply Z.pow_pos_nonneg; lia).
  rewrite !Z.mul_assoc, !Z.div_add_l by lia.
  assert (forall c, 0 <= c < 2 ^ (n - d) * 2 ^ d -> 0 <= c / 2 ^ d < 2 ^ (n - d)) as Hq.
  { intros c Hc. split; [apply Z.div_pos; lia|apply Z.div_lt_upper_bound; lia]. }
  pose proof (Hq a Ha). pose proof (Hq b Hb). split; [|intros [-> ->]; done]. intros E.
  assert (x = y) as -> by nia. split; [done|lia].
Qed.

Lemma leading_top x a n k : 0 <= n -> 0 <= k -> 0 <= a < 2 ^ n -> (x * 2 ^ n + a) / 2 ^ (n + k) = x / 2 ^ k.
Proof.
  intros Hn Hk Ha. rewrite Z.pow_add_r, <- Z.div_div by (try apply Z.pow_nonzero; try apply Z.pow_pos_nonneg; lia).
  by rewrite Z.div_add_l, (Z.div_small a), Z.add_0_r by lia.
Qed.

(** Two addresses agree under the mask of [l] bits iff their first [l] bits agree. *)
Lemma masked_leading xs ys l :
  bytes_ok xs -> bytes_ok ys -> length xs = length ys -> 0 <= l <= 8 * Z.of_nat (length xs) ->
  masked xs (CIDRMask l (length xs)) = masked ys (CIDRMask l (length xs)) <->
  Z.shiftr (be_value xs) (8 * Z.of_nat (length xs) - l) = Z.shiftr (be_value ys) (8 * Z.of_nat (length xs) - l).
Proof.
  intros Hx. revert ys l. induction Hx as [|x xs Hx Hxs IH]; intros ys l Hy Hlen Hl; [by destruct ys|].
  destruct ys as [|y ys]; [done|]. injection Hlen as Hlen. apply Forall_cons_1 in Hy as [Hy Hys]. cbn [length] in *.
  pose proof (be_value_bound xs Hxs) as Hbx. pose proof (be_value_bound ys Hys) as Hby. rewrite <- Hlen in Hby.
  rewrite !Z.shiftr_div_pow2, !be_value_cons, <- Hlen by lia. set (n := length xs) in *.
  cbn [CIDRMask]. destruct (Z.geb_spec l 8) as [H8|H8]; unfold masked; cbn [zip_with].
  - replace (8 * Z.of_nat (S n) - l) with (8 * Z.of_nat n - (l - 8)) by lia.
    specialize (IH ys (l - 8) Hys Hlen ltac:(lia)). rewrite !Z.shiftr_div_pow2 in IH by lia.
    rewrite leading_cons by (done || lia). rewrite !byte_full by done. unfold masked in IH. rewrite <- IH.
    split; [by intros [= -> ->]|by intros [-> ->]].
  - replace (8 * Z.of_nat (S n) - l) with (8 * Z.of_nat n + (8 - l)) by lia.
    rewrite !leading_top by (done || lia). rewrite !byte_mask by (done || lia).
    pose proof (mask_nothing xs) as Hmx. pose proof (mask_nothing ys) as Hmy. rewrite <- Hlen in Hmy.
    unfold masked in Hmx, Hmy. fold n in Hmx, Hmy. rewrite Hmx, Hmy.
    rewrite !Z.shiftr_div_pow2 by lia. assert (0 < 2 ^ (8 - l)) by (apply Z.pow_pos_nonneg; lia).
    split; [intros [= E]; nia|by intros ->].
Qed.

Lemma CIDRMask_length l n : length (CIDRMask l n) = n.
Proof. revert l. induction n; intros l; [done|]. cbn. case_match; cbn; by rewrite IHn. Qed.

Lemma CIDRMask_zeros n : forallb (Z.eqb 0) (CIDRMask 0 n) = true.
Proof. by induction n. Qed.

Lemma simpleMaskLength_CIDRMask l n : 0 <= l <= 8 * Z.of_nat n -> simpleMaskLength (CIDRMask l n) = Some l.
Proof.
  revert l. induction n as [|n IH]; intros l Hl; cbn [CIDRMask]; [cbn; f_equal; lia|].
  destruct (Z.geb_spec l 8) as [H8|H8]; cbn [simpleMaskLength].
  - rewrite Z.eqb_refl, IH by lia. f_equal. lia.
  - rewrite CIDRMask_zeros. assert (l = 0 \/ l = 1 \/ l = 2 \/ l = 3 \/ l = 4 \/ l = 5 \/ l = 6 \/ l = 7) as Hc by lia.
    by destruct Hc as [-> |[-> |[-> |[-> |[-> |[-> |[-> | ->]]]]]]].
Qed.

(** A network with a prefix mask, in either of its representations. *)
Definition cidr_net (n : IPNet) : Prop :=
  exists nn l, networkNumberAndMask n = Some (nn, CIDRMask l (length nn)) /\
    bytes_ok nn /\ (length nn = 4%nat \/ length nn = 16%nat) /\ 0 <= l <= 8 * Z.of_nat (length nn).

Lemma shiftr_lxor_0 a b k : 0 <= k -> Z.shiftr (Z.lxor a b) k = 0 <-> Z.shiftr a k = Z.shiftr b k.
Proof. intros Hk. rewrite Z.shiftr_lxor. apply Z.lxor_eq_0_iff. Qed.

(** The membership test of [net.IPNet] on the bytes agrees with that of [netip.Prefix]
    on the number, for an address that is not a mapped IPv4 address. *)
Lemma Contains_prefix n pfx ip a :
  cidr_net n -> net_prefix n = Some pfx -> bytes_ok ip -> AddrFromSlice ip = Some a ->
  (length ip = 16%nat -> To4 ip = None) ->
  IPNet_Contains n ip = Contains pfx a.
Proof.
  intros (nn & l & Hn & Hb & Hlen & Hl) Hp Hip Ha H4. unfold net_prefix in Hp. rewrite Hn in Hp.
  rewrite simpleMaskLength_CIDRMask in Hp by done. unfold IPNet_Contains.
  replace (match To4 ip with Some x => x | None => ip end) with ip.
  2:{ unfold AddrFromSlice in Ha. unfold To4 in *. destruct (Nat.eqb_spec (length ip) 4) as [?|?]; [done|].
      destruct (Nat.eqb_spec (length ip) 16) as [E|?]; [by rewrite (H4 E)|done]. }
  rewrite Hn. destruct (Nat.eqb_spec (length ip) (length nn)) as [E|E]; cbn [andb].
  - pose proof (masked_leading nn ip l Hb Hip (eq_sym E) Hl) as Hm.
    apply Bool.eq_iff_eq_true. rewrite bool_decide_eq_true, Hm. unfold AddrFromSlice in *. rewrite E in Ha.
    unfold Contains. destruct Hlen as [Hlen|Hlen]; rewrite Hlen in *; simpl in Hp, Ha; simplify_eq; cbn [Bits p_addr].
    all: replace (0 <=? l) with true by zbool; cbn [andb Nat.eqb String.length];
      rewrite Z.eqb_eq, shiftr_lxor_0 by lia; done.
  - symmetry. unfold AddrFromSlice in *. destruct Hlen as [Hlen|Hlen]; rewrite Hlen in *; simpl in Hp;
      repeat case_match; simplify_eq; unfold Contains; cbn [p_addr]; try apply andb_false_r;
      match goal with H : (length ip =? _)%nat = true |- _ => apply Nat.eqb_eq in H; congruence end.
Qed.

Lemma masked_ok ip m : bytes_ok ip -> bytes_ok (masked ip m).
Proof.
  intros Hb. unfold masked. revert m. induction Hb as [|x ip Hx _ IH]; intros [|y m]; constructor; [|apply IH].
  unfold is_byte in *. split; [apply Z.land_nonneg; lia|]. destruct (Z.eq_dec (Z.land x y) 0) as [->|?]; [lia|].
  assert (0 <= Z.land x y) by (apply Z.land_nonneg; lia). apply (Z.log2_lt_cancel _ 256). change (Z.log2 256) with 8.
  destruct (Z.eq_dec x 0) as [->|?]; [by rewrite Z.land_0_l in *|].
  assert (Z.log2 x < 8) by (apply Z.log2_lt_pow2; lia). apply Z.log2_lt_pow2; [lia|].
  change (2 ^ 8) with 256. assert (Z.land x y = Z.land (Z.land x y) 255) as ->.
  { rewrite <- Z.land_assoc, (Z.land_comm y), Z.land_assoc, byte_full; [done|unfold is_byte; lia]. }
  change 255 with (Z.ones 8). rewrite Z.land_ones by lia. apply Z.mod_pos_bound. lia.
Qed.

Lemma masked_length ip m : length m = length ip -> length (masked ip m) = length ip.
Proof. intros H. unfold masked. rewrite length_zip_with, H. lia. Qed.

(** Under a mask shorter than 96 bits no address looks like a mapped IPv4 address. *)
Lemma mapped_mask ip l :
  length ip = 16%nat -> bytes_ok ip -> 0 <= l <= 128 ->
  take 12 (masked ip (CIDRMask l 16)) = v4InV6Prefix -> 96 <= l /\ drop 12 (CIDRMask l 16) = CIDRMask (l - 96) 4.
Proof.
  intros Hlen Hb Hl Hm.
  pose proof (forall_below 129 (fun l => if 96 <=? l then bool_decide (drop 12 (CIDRMask l 16) = CIDRMask (l - 96) 4)
    else forallb (fun x => negb (Z.land x (nth 11 (CIDRMask l 16) 0) =? 255)) (seqZ 0 256)) ltac:(by vm_compute) l ltac:(lia)) as H.
  cbv beta in H. destruct (Z.leb_spec 96 l) as [?|?]; [by apply bool_decide_eq_true in H|]. exfalso.
  assert (nth 11 (masked ip (CIDRMask l 16)) 0 = 255) as H11.
  { rewrite <- (take_drop 12 (masked _ _)), Hm. done. }
  pose proof (CIDRMask_length l 16) as HM. generalize dependent (CIDRMask l 16). intros M Hm H H11 HM.
  destruct (lookup_lt_is_Some_2 ip 11 ltac:(lia)) as [x Hx].
  destruct (lookup_lt_is_Some_2 M 11 ltac:(lia)) as [y Hy].
  assert (masked ip M !! 11%nat = Some (Z.land x y)) as Hxy.
  { unfold masked. by rewrite lookup_zip_with, Hx; simpl; rewrite Hy. }
  rewrite nth_lookup, Hxy in H11. simpl in H11. pose proof (Forall_lookup_1 _ _ _ _ Hb Hx) as Hbx. unfold is_byte in Hbx.
  pose proof (forall_below 256 _ H x ltac:(lia)) as Hn. rewrite nth_lookup, Hy in Hn. simpl in Hn. by rewrite H11 in Hn.
Qed.

Lemma networkNumber_4 ip m : length ip = 4%nat -> length m = 4%nat -> networkNumberAndMask (mkIPNet ip m) = Some (ip, m).
Proof. intros Hi Hm. unfold networkNumberAndMask, To4. cbn [n_IP n_Mask]. by rewrite Hi, Hm, Nat.eqb_refl, Hi. Qed.

(** A masked 16-byte address is a prefix network, read as an IPv4 network when it is
    one. *)
Lemma cidr_16 ip l : length ip = 16%nat -> bytes_ok ip -> 0 <= l <= 128 -> cidr_net (mkIPNet (masked ip (CIDRMask l 16)) (CIDRMask l 16)).
Proof.
  intros Hlen Hb Hl. pose proof (masked_ok ip (CIDRMask l 16) Hb) as Hbm. unfold cidr_net, networkNumberAndMask. cbn [n_IP n_Mask].
  rewrite CIDRMask_length. assert (length (masked ip (CIDRMask l 16)) = 16%nat) as Hml by by rewrite masked_length; rewrite ?CIDRMask_length.
  unfold To4. rewrite Hml. simpl Nat.eqb. cbn [andb]. case_bool_decide as E.
  - destruct (mapped_mask ip l Hlen Hb Hl E) as [H96 Hd]. exists (drop 12 (masked ip (CIDRMask l 16))), (l - 96).
    assert (length (drop 12 (masked ip (CIDRMask l 16))) = 4)%nat as H4 by (rewrite length_drop, Hml; done).
    rewrite H4. simpl Nat.eqb. rewrite Hd. split_and!; [done|by apply Forall_drop|by left|lia..].
  - exists (masked ip (CIDRMask l 16)), l. rewrite Hml. simpl Nat.eqb. split_and!; [done..|by right|lia|lia].
Qed.

Lemma cidr_4 ip l : length ip = 4%nat -> bytes_ok ip -> 0 <= l <= 32 -> cidr_net (mkIPNet (masked ip (CIDRMask l 4)) (CIDRMask l 4)).
Proof.
  intros Hlen Hb Hl. assert (length (masked ip (CIDRMask l 4)) = 4%nat) as Hml by by rewrite masked_length; rewrite ?CIDRMask_length.
  exists (masked ip (CIDRMask l 4)), l. rewrite networkNumber_4, Hml by by rewrite ?CIDRMask_length.
  split_and!; [done|by apply masked_ok|by left|lia|lia].
Qed.

Lemma ParseAddr_sound s ip : ParseAddr s = Some ip -> bytes_ok ip /\ (length ip = 4%nat \/ length ip = 16%nat).
Proof.
  unfold ParseAddr. destruct (family_char s) as [c|]; [|done]. destruct (c =? dot).
  - intros [? ?]%parseIPv4_sound. auto.
  - destruct (c =? colon); [|done]. case_bool_decide; [done|]. intros [? ?]%parseIPv6_sound. auto.
Qed.

Lemma dtoi_nonneg s n : dtoi s = Some n -> 0 <= n.
Proof.
  unfold dtoi. destruct s as [|c s]; [done|]. generalize (c :: s). clear. intros s.
  assert (forall m k, 0 <= k -> parse_digits m k s = Some n -> 0 <= n) as H; [|by apply H].
  induction s as [|c s IH]; intros m k Hk; cbn [parse_digits]; [by intros [= <-]|].
  destruct (is_digit c) eqn:Ed; [|done]. case_match; [done|]. apply IH. unfold is_digit in Ed. bool_props. lia.
Qed.

Lemma IP_Mask_same ip m : length ip = length m -> IP_Mask ip m = Some (masked ip m).
Proof.
  intros Hl. unfold IP_Mask.
  assert ((length m =? 16)%nat && (length ip =? 4)%nat = false) as -> by (rewrite Hl; destruct (Nat.eqb_spec (length m) 16), (Nat.eqb_spec (length m) 4); done || lia).
  cbn [andb]. cbv zeta. assert ((length m =? 4)%nat && (length ip =? 16)%nat = false) as -> by (rewrite Hl; destruct (Nat.eqb_spec (length m) 16), (Nat.eqb_spec (length m) 4); done || lia).
  cbn [andb]. by rewrite Hl, Nat.eqb_refl.
Qed.

Lemma IP_Mask_mapped ip m : length ip = 4%nat -> length m = 4%nat -> IP_Mask (v4InV6Prefix ++ ip) m = Some (masked ip m).
Proof.
  intros Hi Hm. unfold IP_Mask. rewrite length_app, Hi, Hm. cbn [Nat.eqb Nat.add length v4InV6Prefix andb].
  rewrite Hm. cbn [Nat.eqb andb]. rewrite bool_decide_true by done. by rewrite drop_app_length', Hi.
Qed.

Lemma ParseCIDR_cidr addr mask n : ParseCIDR addr mask = Some n -> cidr_net n.
Proof.
  unfold ParseCIDR. destruct (ParseAddr addr) as [ip|] eqn:Ea; [|done]. apply ParseAddr_sound in Ea as [Hb Hlen].
  destruct (dtoi mask) as [l|] eqn:Ed; [|done]. apply dtoi_nonneg in Ed. destruct (Z.gtb_spec l (8 * Z.of_nat (length ip))) as [?|?]; [done|].
  destruct Hlen as [E|E]; unfold To16; rewrite E in *; cbn [Nat.eqb]; intros <-%(inj Some).
  - rewrite IP_Mask_mapped by by rewrite ?CIDRMask_length. by apply cidr_4; [|..|lia].
  - rewrite IP_Mask_same by by rewrite CIDRMask_length. by apply cidr_16; [|..|lia].
Qed.

Lemma host_masked ip l : l = 8 * Z.of_nat (length ip) -> bytes_ok ip -> masked ip (CIDRMask l (length ip)) = ip.
Proof.
  intros Hl Hb. revert l Hl. unfold masked. induction Hb as [|x ip Hx _ IH]; intros l Hl; [done|]. cbn [length CIDRMask].
  cbn [length] in Hl. replace (l >=? 8) with true by zbool. cbn [zip_with]. rewrite byte_full, IH by (done || lia). done.
Qed.

(** A single address as a network: its mask is of its own family, or it is empty. *)
Lemma host_cidr ip (v4 : bool) :
  length ip = 16%nat -> bytes_ok ip ->
  let n := mkIPNet ip (if v4 then CIDRMask 32 4 else CIDRMask 128 16) in
  cidr_net n \/ networkNumberAndMask n = None.
Proof.
  intros Hlen Hb n. destruct v4; subst n.
  - assert (networkNumberAndMask (mkIPNet ip (CIDRMask 32 4)) =
      if bool_decide (take 12 ip = v4InV6Prefix) then Some (drop 12 ip, CIDRMask 32 4) else None) as HN.
    { unfold networkNumberAndMask, To4. cbn [n_IP n_Mask]. rewrite Hlen. cbn [Nat.eqb andb].
      case_bool_decide; cbn [length CIDRMask Nat.eqb]; [by rewrite length_drop, Hlen|by rewrite Hlen]. }
    unfold cidr_net. rewrite HN. case_bool_decide; [left|by right].
    exists (drop 12 ip), 32. rewrite length_drop, Hlen. split_and!; [done|by apply Forall_drop|by left|lia|lia].
  - left. rewrite <- (host_masked ip 128) at 1 by (rewrite ?Hlen; done). rewrite Hlen. by apply cidr_16; [..|lia].
Qed.

Section allowlist.
Context {b58 : Base58} (reg : registry).

Record net_state := mkNetState { ns_ip : list Z; ns_mask : list Z; ns_peer : list Z; ns_v4 : bool }.

(** The callback of [toIPNet]; the state becomes [None] when [Value] panics. *)
Definition to_ipnet_cb (s : option net_state) (c : Component) : option net_state * bool :=
  let code := p_Code (c_protocol c) in
  let s' :=
    s ← s;
    s ← (if (code =? P_IP4) || (code =? P_IP6)
         then v ← Value c; Some (mkNetState v (ns_mask s) (ns_peer s) (code =? P_IP4)) else Some s);
    s ← (if code =? P_IPCIDR then v ← Value c; Some (mkNetState (ns_ip s) v (ns_peer s) (ns_v4 s)) else Some s);
    (if code =? P_P2P then v ← Value c; Some (mkNetState (ns_ip s) (ns_mask s) v (ns_v4 s)) else Some s) in
  match s' with
  | None => (None, false)
  | Some s => (Some s, bool_decide (ns_ip s = []) || bool_decide (ns_mask s = []) || bool_decide (ns_peer s = []))
  end.

(** The network of an address and the peer it is restricted to, if any ([[]]). *)
Definition toIPNet (ma : Multiaddr) : option (result allow_error (IPNet * list Z)) :=
  match ForEach reg (Some ma) to_ipnet_cb (Some (mkNetState [] [] [] false)) with
  | None | Some None => None
  | Some (Some s) =>
      if bool_decide (ns_ip s = []) then Some (Err ErrNoIP)
      else
        match (if bool_decide (ns_peer s = []) then Some (Ok []) else peer_Decode (ns_peer s)) with
        | None => None
        | Some (Err _) => Some (Err ErrPeer)
        | Some (Ok allowedPeer) =>
            if bool_decide (ns_mask s = []) then
              match ParseIP (ns_ip s) with
              | None => Some (Err ErrInvalidIP)
              | Some ip =>
                  let mask := if ns_v4 s then CIDRMask 32 4 else CIDRMask 128 16 in
                  Some (Ok (mkIPNet ip mask, allowedPeer))
              end
            else match ParseCIDR (ns_ip s) (ns_mask s) with
                 | None => Some (Err ErrCIDR)
                 | Some ipnet => Some (Ok (ipnet, allowedPeer))
                 end
        end
  end.

Definition add_net (al : Allowlist) (ipnet : IPNet) (p : list Z) : Allowlist :=
  match p with
  | [] => mkAllowlist (allowedNetworks al ++ [ipnet]) (allowedPeerByNetwork al)
  | _ => mkAllowlist (allowedNetworks al)
           (<[p := default [] (allowedPeerByNetwork al !! p) ++ [ipnet]]> (allowedPeerByNetwork al))
  end.

Definition Add (al : Allowlist) (ma : Multiaddr) : option (result allow_error Allowlist) :=
  match toIPNet ma with
  | None => None
  | Some (Err e) => Some (Err e)
  | Some (Ok (ipnet, allowedPeer)) => Some (Ok (add_net al ipnet allowedPeer))
  end.

Definition same_net (a b : IPNet) : bool := IP_Equal (n_IP a) (n_IP b) && bool_decide (n_Mask a = n_Mask b).

(** The loop of [Remove] from index [i] down: the last match is overwritten by the last
    element and the list truncated. *)
Fixpoint remove_net (i : nat) (l : list IPNet) (ipnet : IPNet) : list IPNet :=
  match i with
  | O => l
  | S i =>
      match l !! i with
      | None => l
      | Some n =>
          if same_net n ipnet then
            match l !! (length l - 1)%nat with
            | Some z => take (length l - 1) (<[i := z]> l)
            | None => l
            end
          else remove_net i l ipnet
      end
  end.

Definition Remove (al : Allowlist) (ma : Multiaddr) : option (result allow_error Allowlist) :=
  match toIPNet ma with
  | None => None
  | Some (Err e) => Some (Err e)
  | Some (Ok (ipnet, [])) =>
      let l := allowedNetworks al in
      Some (Ok (mkAllowlist (remove_net (length l) l ipnet) (allowedPeerByNetwork al)))
  | Some (Ok (ipnet, p)) =>
      match allowedPeerByNetwork al !! p with
      | None => Some (Ok al)
      | Some l =>
          Some (Ok (mkAllowlist (allowedNetworks al) (<[p := remove_net (length l) l ipnet]> (allowedPeerByNetwork al))))
      end
  end.

(** [manet.ToIP] (multiaddr/net/convert.go) *)
Definition ToIP_cb (ip : option (list Z)) (c : Component) : option (list Z) * bool :=
  let code := p_Code (c_protocol c) in
  if code =? P_IP6ZONE then (ip, true)
  else if (code =? P_IP6) || (code =? P_IP4) then (Some (RawValue c), false)
  else (ip, false).
Definition manet_ToIP (addr : Multiaddr) : option (option (list Z)) := ForEach reg (Some addr) ToIP_cb None.

(** The IP of an address that was validated. *)
Definition ip_of (ma : Multiaddr) : option (list Z) :=
  match manet_ToIP ma with Some ip => ip | None => None end.

Definition any_contains (nets : list IPNet) (ip : list Z) : bool := existsb (fun n => IPNet_Contains n ip) nets.

Definition Allowlist_Allowed (al : Allowlist) (ma : Multiaddr) : bool :=
  match ip_of ma with
  | None => false
  | Some ip =>
      any_contains (allowedNetworks al) ip ||
      existsb (fun kv => any_contains kv.2 ip) (map_to_list (allowedPeerByNetwork al))
  end.

Definition Allowlist_AllowedPeerAndMultiaddr (al : Allowlist) (peerID : list Z) (ma : Multiaddr) : bool :=
  match ip_of ma with
  | None => false
  | Some ip =>
      any_contains (allowedNetworks al) ip ||
      match allowedPeerByNetwork al !! peerID with
      | Some nets => any_contains nets ip
      | None => false
      end
  end.

(** [WithAllowlistedMultiaddrs] *)
Fixpoint WithAllowlistedMultiaddrs (mas : list Multiaddr) (al : Allowlist) : option (result allow_error Allowlist) :=
  match mas with
  | [] => Some (Ok al)
  | ma :: mas =>
      match Add al ma with
      | Some (Ok al) => WithAllowlistedMultiaddrs mas al
      | o => o
      end
  end.

(** ** The interfaces of the manager *)

#[export] Instance Allowlist_AllowlistI : AllowlistI Allowlist Multiaddr := {
  newAllowlist := empty_allowlist;
  Allowed := Allowlist_Allowed;
  AllowedPeerAndMultiaddr al p ma := Allowlist_AllowedPeerAndMultiaddr al (str p) ma;
  allowed_prefixes al := omap net_prefix (allowedNetworks al);
}.

#[export] Instance Multiaddr_EndpointI : EndpointI Multiaddr := { ToIP := ip_of }.

(** ** Correctness *)

Lemma any_contains_app nets nets' ip : any_contains (nets ++ nets') ip = any_contains nets ip || any_contains nets' ip.
Proof. apply existsb_app. Qed.

Lemma existsb_perm {A} (f : A -> bool) l l' : l ≡ₚ l' -> existsb f l = existsb f l'.
Proof.
  induction 1 as [| |x y l|]; simpl; [done|congruence| |congruence]. by destruct (f x), (f y).
Qed.

Definition peer_nets_contain (m : gmap (list Z) (list IPNet)) (ip : list Z) : bool :=
  existsb (fun kv => any_contains kv.2 ip) (map_to_list m).

Lemma peer_nets_insert m p nets ip :
  peer_nets_contain (<[p := nets]> m) ip = any_contains nets ip || peer_nets_contain (delete p m) ip.
Proof.
  unfold peer_nets_contain. rewrite <- insert_delete_eq.
  rewrite (existsb_perm _ _ _ (map_to_list_insert (delete p m) p nets (lookup_delete_eq m p))). done.
Qed.

Lemma peer_nets_split m p ip :
  peer_nets_contain m ip = any_contains (default [] (m !! p)) ip || peer_nets_contain (delete p m) ip.
Proof.
  destruct (m !! p) as [nets|] eqn:E.
  - rewrite <- (insert_delete_id m p nets E) at 1. rewrite peer_nets_insert, delete_delete_eq. done.
  - by rewrite delete_id.
Qed.

(** What [Add] adds is exactly the network of the address, for the peer the address
    names or for everyone: afterwards an endpoint is allowed iff it was before or lies in
    that network, and allowed for a peer iff it was before or lies in the network and
    the network is not restricted to another peer. *)
Theorem Add_exact al ma net p al' :
  toIPNet ma = Some (Ok (net, p)) -> Add al ma = Some (Ok al') -> forall x,
  Allowed al' x = Allowed al x || match ToIP x with Some ip => IPNet_Contains net ip | None => false end /\
  forall q, AllowedPeerAndMultiaddr al' q x =
    AllowedPeerAndMultiaddr al q x ||
    match ToIP x with Some ip => bool_decide (p = [] \/ p = str q) && IPNet_Contains net ip | None => false end.
Proof.
  intros Hnet. unfold Add. rewrite Hnet. intros [= <-] x. cbn [Allowed AllowedPeerAndMultiaddr Allowlist_AllowlistI].
  unfold Allowlist_Allowed, Allowlist_AllowedPeerAndMultiaddr. change (ToIP x) with (ip_of x).
  destruct (ip_of x) as [ip|]; [|split; [done|]; intros q; done].
  assert (forall n, any_contains [n] ip = IPNet_Contains n ip) as H1 by (intros n; simpl; apply orb_false_r).
  destruct p as [|b p]; cbn [add_net allowedNetworks allowedPeerByNetwork].
  - rewrite any_contains_app, H1. split.
    + btauto.
    + intros q. rewrite bool_decide_true by by left. destruct (allowedPeerByNetwork al !! str q); btauto.
  - set (k := b :: p). fold (peer_nets_contain (allowedPeerByNetwork al) ip).
    fold (peer_nets_contain (<[k := default [] (allowedPeerByNetwork al !! k) ++ [net]]> (allowedPeerByNetwork al)) ip). split.
    + rewrite peer_nets_insert, any_contains_app, H1, (peer_nets_split (allowedPeerByNetwork al) k ip).
      btauto.
    + intros q. rewrite lookup_insert. destruct (decide (k = str q)) as [E|E].
      * rewrite E, bool_decide_true by by right. rewrite any_contains_app, H1.
        destruct (allowedPeerByNetwork al !! str q); simpl; btauto.
      * rewrite bool_decide_false by (intros [?|?]; done). by rewrite !orb_false_r.
Qed.

(** The manager may open a connection as allowlisted on [Allowed] alone and check the
    peer later: an endpoint allowed for some peer is [Allowed]; and one that no
    unrestricted network contains is [Allowed] only if some peer may use it. *)
Theorem Allowed_iff_some_peer al x :
  Allowed al x = true <->
  exists p, Allowlist_AllowedPeerAndMultiaddr al p x = true.
Proof.
  cbn [Allowed Allowlist_AllowlistI]. unfold Allowlist_Allowed, Allowlist_AllowedPeerAndMultiaddr.
  destruct (ip_of x) as [ip|]; [|split; [done|by intros [? ?]]]. split.
  - intros [H|H]%orb_prop; [exists []; by rewrite H|]. apply existsb_exists in H as ([p nets] & Hin & H).
    apply list_elem_of_In, elem_of_map_to_list in Hin. exists p. rewrite Hin. simpl in H. rewrite H. apply orb_true_r.
  - intros [p H]. apply orb_prop in H as [H|H]; [by rewrite H|]. destruct (allowedPeerByNetwork al !! p) as [nets|] eqn:E; [|done].
    assert (peer_nets_contain (allowedPeerByNetwork al) ip = true) as Hp.
    { rewrite (peer_nets_split _ p), E. simpl. by rewrite H. }
    unfold peer_nets_contain in Hp. rewrite Hp. apply orb_true_r.
Qed.

Lemma IP_Equal_refl ip : IP_Equal ip ip = true.
Proof. unfold IP_Equal. rewrite Nat.eqb_refl. by apply bool_decide_eq_true. Qed.

Lemma remove_added l net : remove_net (length (l ++ [net])) (l ++ [net]) net = l.
Proof.
  rewrite length_app. simpl. replace (length l + 1)%nat with (S (length l)) by lia. cbn [remove_net].
  rewrite lookup_app_r, Nat.sub_diag by lia. simpl. unfold same_net.
  rewrite IP_Equal_refl, bool_decide_true by done. simpl. rewrite length_app. simpl.
  replace (length l + 1 - 1)%nat with (length l) by lia. rewrite lookup_app_r, Nat.sub_diag by lia. simpl.
  rewrite take_insert_ge by lia. apply take_app_length.
Qed.

(** [Remove] undoes [Add]: after adding and removing the same address the allowlist
    decides as before. *)
Theorem Remove_undoes_Add al ma al1 al2 :
  Add al ma = Some (Ok al1) -> Remove al1 ma = Some (Ok al2) -> forall x,
  Allowed al2 x = Allowed al x /\ forall q, AllowedPeerAndMultiaddr al2 q x = AllowedPeerAndMultiaddr al q x.
Proof.
  unfold Add, Remove. destruct (toIPNet ma) as [[[net p]|]|]; [|done..]. intros [= <-]. destruct p as [|b p].
  - cbn [add_net allowedNetworks]. rewrite remove_added. intros [= <-] x. by destruct al.
  - cbn [add_net allowedPeerByNetwork allowedNetworks]. set (k := b :: p). rewrite lookup_insert_eq, remove_added. intros [= <-] x.
    cbn [Allowed AllowedPeerAndMultiaddr Allowlist_AllowlistI]. unfold Allowlist_Allowed, Allowlist_AllowedPeerAndMultiaddr.
    destruct (ip_of x) as [ip|]; [|done]. cbn [allowedNetworks allowedPeerByNetwork]. rewrite insert_insert_eq. split.
    + fold (peer_nets_contain (allowedPeerByNetwork al) ip).
      fold (peer_nets_contain (<[k := default [] (allowedPeerByNetwork al !! k)]> (allowedPeerByNetwork al)) ip).
      by rewrite peer_nets_insert, <- peer_nets_split.
    + intros q. rewrite lookup_insert. case_decide as E; [|done]. by destruct E, (allowedPeerByNetwork al !! k).
Qed.

Definition net_ok (n : IPNet) : Prop := cidr_net n \/ networkNumberAndMask n = None.

Lemma toIPNet_ok ma n p : toIPNet ma = Some (Ok (n, p)) -> net_ok n.
Proof.
  unfold toIPNet. destruct (ForEach _ _ _ _) as [[s|]|]; [|done..]. case_bool_decide; [done|].
  destruct (if bool_decide (ns_peer s = []) then _ else _) as [[q|]|]; [|done..]. case_bool_decide.
  - destruct (ParseIP (ns_ip s)) as [ip|] eqn:Ei; [|done]. apply ParseIP_sound in Ei as [Hb Hl].
    intros Hn. apply (inj Some) in Hn. assert (mkIPNet ip (if ns_v4 s then CIDRMask 32 4 else CIDRMask 128 16) = n) as <- by congruence.
    by apply host_cidr.
  - destruct (ParseCIDR _ _) as [m|] eqn:Ec; [|done]. intros [= <- _]. left. by eapply ParseCIDR_cidr.
Qed.

Lemma with_allowlisted_ok mas al al' :
  WithAllowlistedMultiaddrs mas al = Some (Ok al') -> Forall net_ok (allowedNetworks al) -> Forall net_ok (allowedNetworks al').
Proof.
  revert al. induction mas as [|ma mas IH]; intros al; cbn [WithAllowlistedMultiaddrs]; [by intros [= <-]|].
  unfold Add. destruct (toIPNet ma) as [[[n p]|]|] eqn:En; [|done..]. intros H Hal. eapply IH; [exact H|].
  destruct p as [|b p]; cbn [add_net allowedNetworks]; [|done]. apply Forall_app. split; [done|].
  apply Forall_singleton. by eapply toIPNet_ok.
Qed.

(** The allowlist and the connection limiter agree on the allowlisted networks: an IP
    that is not a mapped IPv4 address is in one of the networks of an allowlist built
    from multiaddrs iff it is in one of the prefixes that the manager registers with
    the limiter for them. *)
Theorem allowlist_prefixes_agree mas al ip a :
  WithAllowlistedMultiaddrs mas newAllowlist = Some (Ok al) ->
  bytes_ok ip -> AddrFromSlice ip = Some a -> (length ip = 16%nat -> To4 ip = None) ->
  any_contains (allowedNetworks al) ip = existsb (fun pfx => Contains pfx a) (allowed_prefixes al).
Proof.
  intros Hal Hb Ha H4. apply with_allowlisted_ok in Hal; [|constructor]. cbn [allowed_prefixes Allowlist_AllowlistI].
  induction Hal as [|n nets Hn _ IH]; [done|]. unfold any_contains in *. cbn [existsb omap list_omap]. rewrite IH.
  destruct Hn as [Hc|Hn].
  - destruct (net_prefix n) as [pfx|] eqn:Ep; [by rewrite (Contains_prefix n pfx ip a)|]. exfalso.
    destruct Hc as (nn & l & HN & _ & Hlen & Hl). unfold net_prefix in Ep. rewrite HN, simpleMaskLength_CIDRMask in Ep by done.
    unfold AddrFromSlice in Ep. destruct Hlen as [E|E]; by rewrite E in Ep.
  - unfold net_prefix, IPNet_Contains at 1. rewrite Hn.
    replace (length _ =? 0)%nat with false; [done|]. symmetry. apply Nat.eqb_neq. unfold To4, AddrFromSlice in *.
    destruct (Nat.eqb_spec (length ip) 4) as [E|?]; [lia|]. destruct (Nat.eqb_spec (length ip) 16) as [E|?]; [|done].
    rewrite (H4 E). lia.
Qed.
End allowlist.

(** ** A concrete allowlist *)

Import Sample.
Module AllowDemo.
Definition protos : list Protocol :=
  [proto "ip4" P_IP4 32 false (Some TranscoderIP4); proto "ip6" P_IP6 128 false (Some TranscoderIP6);
   proto "ipcidr" P_IPCIDR 8 false (Some TranscoderIPCIDR); proto "tcp" P_TCP 16 false (Some TranscoderPort);
   proto "p2p" P_P2P (-1) false (Some TranscoderP2P)].
Definition reg : registry := match add_all protos empty_registry with Some r => r | None => empty_registry end.
Definition addr (s : string) : Multiaddr := match NewMultiaddr reg (str s) with Ok m => m | Err _ => MBytes [] end.
Definition subnet : Multiaddr := addr "/ip4/10.1.0.0/ipcidr/16".
(** A peer ID with an identity multihash, and a network only this peer may use. *)
Definition peer : string := String (Ascii.ascii_of_nat 0) (String (Ascii.ascii_of_nat 2) "hi").
Definition of_peer : Multiaddr := addr "/ip4/192.168.3.4/p2p/1oui".
Definition inside : Multiaddr := addr "/ip4/10.1.2.3/tcp/80".
Definition home : Multiaddr := addr "/ip4/192.168.3.4/tcp/80".
Definition al : Allowlist :=
  match WithAllowlistedMultiaddrs reg [subnet; of_peer] empty_allowlist with Some (Ok al) => al | _ => empty_allowlist end.
Definition net : IPNet := mkIPNet [10; 1; 0; 0] [255; 255; 0; 0].

Lemma decisions :
  let _ := Allowlist_AllowlistI reg in
  Allowed al inside = true /\ Allowed al home = true /\
  AllowedPeerAndMultiaddr al "x" inside = true /\ AllowedPeerAndMultiaddr al "x" home = false /\
  AllowedPeerAndMultiaddr al peer home = true /\ allowed_prefixes al = [mkPrefix (Addr4 (10 * 2 ^ 24 + 2 ^ 16)) 16].
Proof. by vm_compute. Qed.
End AllowDemo.

Lemma Add_exact_witness :
  let _ := Allowlist_AllowlistI AllowDemo.reg in
  Allowed (add_net empty_allowlist AllowDemo.net []) AllowDemo.inside = true.
Proof.
  destruct (Add_exact AllowDemo.reg empty_allowlist AllowDemo.subnet AllowDemo.net [] (add_net empty_allowlist AllowDemo.net [])
    ltac:(vm_compute; reflexivity) ltac:(vm_compute; reflexivity) AllowDemo.inside) as [H _].
  etransitivity; [exact H|vm_compute; reflexivity].
Defined.

Lemma Remove_undoes_Add_witness :
  let _ := Allowlist_AllowlistI AllowDemo.reg in
  exists al2, Remove AllowDemo.reg (add_net AllowDemo.al AllowDemo.net []) AllowDemo.subnet = Some (Ok al2) /\
    Allowed al2 AllowDemo.home = Allowed AllowDemo.al AllowDemo.home.
Proof.
  exists AllowDemo.al. split; [vm_compute; reflexivity|].
  destruct (Remove_undoes_Add AllowDemo.reg AllowDemo.al AllowDemo.subnet (add_net AllowDemo.al AllowDemo.net []) AllowDemo.al
    ltac:(vm_compute; reflexivity) ltac:(vm_compute; reflexivity) AllowDemo.home) as [H _]. exact H.
Defined.

Lemma allowlist_prefixes_agree_witness :
  let _ := Allowlist_AllowlistI AllowDemo.reg in
  any_contains (allowedNetworks AllowDemo.al) [10; 1; 2; 3] = existsb (fun pfx => Contains pfx (Addr4 167838211)) (allowed_prefixes AllowDemo.al).
Proof.
  apply (allowlist_prefixes_agree AllowDemo.reg [AllowDemo.subnet; AllowDemo.of_peer]);
    [vm_compute; reflexivity|repeat constructor; by compute|reflexivity|discriminate].
Defined.
