(* ===== verification/PublicAddr.v ===== *)
(** * Public and private addresses (src/multiformats/multiaddr/net/private.go)

    The tables of networks are parsed as the package does at start; [net.IPNet] comes from
    [Allowlist].  The theorems say which numbers, as ranges, are public and private, and
    that no address is both. *)

From stdpp Require Import base gmap list numbers strings.
From Stdlib Require Import ZArith Lia.
From S2P Require Import Prelude GoText Base58 Transcoders Multiaddr MultiaddrSpec MultiaddrText ConnLimiter Rcmgr Allowlist.

Open Scope string_scope.
Definition privateCIDR4 : list string :=
  ["127.0.0.0/8"; "10.0.0.0/8"; "100.64.0.0/10"; "172.16.0.0/12"; "192.168.0.0/16"; "169.254.0.0/16"].
Definition privateCIDR6 : list string := ["::1/128"; "fc00::/7"; "fe80::/10"].
Definition unroutableCIDR4 : list string :=
  ["0.0.0.0/8"; "192.0.0.0/26"; "192.0.2.0/24"; "192.88.99.0/24"; "198.18.0.0/15"; "198.51.100.0/24"; "203.0.113.0/24";
   "224.0.0.0/4"; "240.0.0.0/4"; "255.255.255.255/32"].
Definition unroutableCIDR6 : list string := ["ff00::/8"; "2001:db8::/32"].
Definition globalUnicastCIDR6 : list string := ["2000::/3"].
Definition nat64CIDRs : list string := ["64:ff9b:1::/48"; "64:ff9b::/96"].
Definition unResolvableDomains : list string := [".in-addr.arpa"; ".ip6.arpa"; ".invalid"].
Definition privateUseDomains : list string := [".home.arpa"; ".local"; ".test"].
Definition localHostDomain : string := ".localhost".
Close Scope string_scope.

(** [None] is the panic of a text that does not parse. *)
Definition parse_one (cidr : string) : option IPNet :=
  match GoText.Split slash (str cidr) with
  | [addr; mask] => ParseCIDR addr mask
  | _ => None
  end.
Definition parseCIDR (cidrs : list string) : option (list IPNet) := mapM parse_one cidrs.

Definition Private4 : list IPNet := default [] (parseCIDR privateCIDR4).
Definition Private6 : list IPNet := default [] (parseCIDR privateCIDR6).
Definition Unroutable4 : list IPNet := default [] (parseCIDR unroutableCIDR4).
Definition Unroutable6 : list IPNet := default [] (parseCIDR unroutableCIDR6).
Definition globalUnicast : list IPNet := default [] (parseCIDR globalUnicastCIDR6).
Definition nat64 : list IPNet := default [] (parseCIDR nat64CIDRs).

Definition inAddrRange (ip : list Z) (ipnets : list IPNet) : bool := existsb (fun ipnet => IPNet_Contains ipnet ip) ipnets.

Definition isSubdomain (child : list Z) (parent : string) : bool :=
  bool_decide (str parent `suffix_of` child) || bool_decide (child = drop 1 (str parent)).

Definition P_DNSADDR : Z := 56.
Definition is_dns (code : Z) : bool := (code =? P_DNS) || (code =? P_DNS4) || (code =? P_DNS6) || (code =? P_DNSADDR).

(** The callbacks of [ForEach]; a state [None] is a panic of [Value]. *)
Definition public_cb (isPublic : option bool) (c : Component) : option bool * bool :=
  let code := p_Code (c_protocol c) in
  if code =? P_IP6ZONE then (isPublic, true)
  else if code =? P_IP4 then
    (Some (negb (inAddrRange (RawValue c) Private4) && negb (inAddrRange (RawValue c) Unroutable4)), false)
  else if code =? P_IP6 then
    if inAddrRange (RawValue c) globalUnicast && negb (inAddrRange (RawValue c) Unroutable6) then (Some true, false)
    else (Some (inAddrRange (RawValue c) nat64), false)
  else if is_dns code then
    match Value c with
    | None => (None, false)
    | Some dnsAddr =>
        if isSubdomain dnsAddr localHostDomain then (Some false, false)
        else if existsb (isSubdomain dnsAddr) unResolvableDomains then (Some false, false)
        else (Some (negb (existsb (isSubdomain dnsAddr) privateUseDomains)), false)
    end
  else (isPublic, false).
Definition private_cb (isPrivate : option bool) (c : Component) : option bool * bool :=
  let code := p_Code (c_protocol c) in
  if code =? P_IP6ZONE then (isPrivate, true)
  else if code =? P_IP4 then (Some (inAddrRange (RawValue c) Private4), false)
  else if code =? P_IP6 then (Some (inAddrRange (RawValue c) Private6), false)
  else if is_dns code then
    match Value c with
    | None => (None, false)
    | Some dnsAddr => (if isSubdomain dnsAddr localHostDomain then Some true else isPrivate, false)
    end
  else (isPrivate, false).

Section classify.
Context (reg : registry).

Definition IsPublicAddr (a : Multiaddr) : option bool :=
  match ForEach reg (Some a) public_cb (Some false) with Some r => r | None => None end.
Definition IsPrivateAddr (a : Multiaddr) : option bool :=
  match ForEach reg (Some a) private_cb (Some false) with Some r => r | None => None end.
End classify.

(** ** The tables *)

Lemma tables_parse :
  Forall (fun cidrs => is_Some (parseCIDR cidrs))
    [privateCIDR4; privateCIDR6; unroutableCIDR4; unroutableCIDR6; globalUnicastCIDR6; nat64CIDRs].
Proof. repeat constructor; vm_compute; eexists; reflexivity. Qed.

(** A network as the bytes of its address and the number of leading bits. *)
Definition net_of (x : list Z * Z) : IPNet := mkIPNet x.1 (CIDRMask x.2 (length x.1)).

Definition private4 : list (list Z * Z) :=
  [([127; 0; 0; 0], 8); ([10; 0; 0; 0], 8); ([100; 64; 0; 0], 10); ([172; 16; 0; 0], 12); ([192; 168; 0; 0], 16);
   ([169; 254; 0; 0], 16)].
Definition unroutable4 : list (list Z * Z) :=
  [([0; 0; 0; 0], 8); ([192; 0; 0; 0], 26); ([192; 0; 2; 0], 24); ([192; 88; 99; 0], 24); ([198; 18; 0; 0], 15);
   ([198; 51; 100; 0], 24); ([203; 0; 113; 0], 24); ([224; 0; 0; 0], 4); ([240; 0; 0; 0], 4); ([255; 255; 255; 255], 32)].
Definition v6 (bs : list Z) : list Z := bs ++ replicate (16 - length bs) 0.
Definition private6 : list (list Z * Z) := [(replicate 15 0 ++ [1], 128); (v6 [252], 7); (v6 [254; 128], 10)].
Definition unroutable6 : list (list Z * Z) := [(v6 [255], 8); (v6 [32; 1; 13; 184], 32)].
Definition unicast6 : list (list Z * Z) := [(v6 [32], 3)].
Definition translated6 : list (list Z * Z) := [(v6 [0; 100; 255; 155; 0; 1], 48); (v6 [0; 100; 255; 155], 96)].

Lemma tables :
  Private4 = map net_of private4 /\ Private6 = map net_of private6 /\ Unroutable4 = map net_of unroutable4 /\
  Unroutable6 = map net_of unroutable6 /\ globalUnicast = map net_of unicast6 /\ nat64 = map net_of translated6.
Proof. by vm_compute. Qed.

(** ** Networks are ranges *)

Definition bits (x : list Z * Z) : Z := 8 * Z.of_nat (length x.1) - x.2.
Definition range (x : list Z * Z) : Z * Z := (be_value x.1, be_value x.1 + 2 ^ bits x - 1).
Definition within (v : Z) (r : Z * Z) : bool := (r.1 <=? v) && (v <=? r.2).

(** The address of a network has no bits beyond its length, and is not an IPv4 address in
    16 bytes. *)
Definition cidr_ok (x : list Z * Z) : bool :=
  bool_decide (bytes_ok x.1) && ((length x.1 =? 4)%nat || (length x.1 =? 16)%nat && bool_decide (To4 x.1 = None)) &&
  (0 <=? x.2) && (0 <=? bits x) && (be_value x.1 mod 2 ^ bits x =? 0).

Lemma net_of_number x :
  cidr_ok x = true -> networkNumberAndMask (net_of x) = Some (x.1, CIDRMask x.2 (length x.1)).
Proof.
  unfold cidr_ok. intros H. rewrite !andb_true_iff in H. destruct H as [[[[_ H] _] _] _]. unfold networkNumberAndMask, net_of. cbn [n_IP n_Mask].
  rewrite CIDRMask_length. apply orb_true_iff in H as [E|E].
  - assert (To4 x.1 = Some x.1) as -> by (unfold To4; by rewrite E). by rewrite E.
  - apply andb_true_iff in E as [E E4]. apply bool_decide_eq_true in E4. rewrite E4, E. by apply Nat.eqb_eq in E as ->.
Qed.

Lemma aligned_range b v k : 0 <= k -> b mod 2 ^ k = 0 -> (Z.shiftr b k =? Z.shiftr v k) = within v (b, b + 2 ^ k - 1).
Proof.
  intros Hk Hb. assert (0 < 2 ^ k) by (apply Z.pow_pos_nonneg; lia). unfold within. cbn [fst snd]. rewrite !Z.shiftr_div_pow2 by lia.
  apply Bool.eq_iff_eq_true. rewrite Z.eqb_eq, andb_true_iff, !Z.leb_le.
  pose proof (Z.div_mod b (2 ^ k) ltac:(lia)). pose proof (Z.div_mod v (2 ^ k) ltac:(lia)).
  pose proof (Z.mod_pos_bound v (2 ^ k) ltac:(lia)). split; intros; nia.
Qed.

Lemma contains_range x ip :
  cidr_ok x = true -> bytes_ok ip -> length ip = length x.1 -> (length ip = 16%nat -> To4 ip = None) ->
  IPNet_Contains (net_of x) ip = within (be_value ip) (range x).
Proof.
  intros Hx Hip Hlen H4. unfold IPNet_Contains. rewrite (net_of_number x Hx).
  unfold cidr_ok in Hx. rewrite !andb_true_iff in Hx. destruct Hx as [[[[Hb _] Ho] Hbits] Hal].
  apply bool_decide_eq_true in Hb. apply Z.leb_le in Ho, Hbits. apply Z.eqb_eq in Hal.
  replace (match To4 ip with Some a => a | None => ip end) with ip.
  2:{ unfold To4 in *. destruct (Nat.eqb_spec (length ip) 4); [done|].
      destruct (Nat.eqb_spec (length ip) 16) as [E|]; [by rewrite (H4 E)|done]. }
  rewrite Hlen, Nat.eqb_refl. cbn [andb]. unfold range. rewrite <- aligned_range by (done || lia).
  apply Bool.eq_iff_eq_true. rewrite bool_decide_eq_true, Z.eqb_eq. unfold bits in *.
  apply masked_leading; [done|done|done|lia].
Qed.

Lemma in_ranges k ip xs :
  forallb (fun x => cidr_ok x && (length x.1 =? k)%nat) xs = true ->
  bytes_ok ip -> length ip = k -> (k = 16%nat -> To4 ip = None) ->
  inAddrRange ip (map net_of xs) = existsb (within (be_value ip)) (map range xs).
Proof.
  intros Hxs Hip Hlen H4. induction xs as [|x xs IH]; [done|]. cbn in Hxs. apply andb_true_iff in Hxs as [Hx Hxs].
  apply andb_true_iff in Hx as [Hx Ek]. apply Nat.eqb_eq in Ek. cbn [map inAddrRange existsb].
  rewrite contains_range; [|done|done|congruence|by rewrite Hlen]. f_equal. by apply IH.
Qed.

(** An IPv4 address in 16 bytes is in no IPv6 network. *)
Lemma mapped_outside ip xs a :
  forallb (fun x => cidr_ok x && (length x.1 =? 16)%nat) xs = true -> To4 ip = Some a ->
  inAddrRange ip (map net_of xs) = false.
Proof.
  intros Hxs Ha. assert (length a = 4%nat) as La.
  { unfold To4 in Ha. destruct (Nat.eqb_spec (length ip) 4); [congruence|].
    destruct (Nat.eqb_spec (length ip) 16); cbn in Ha; [|done]. case_bool_decide; simplify_eq. rewrite length_drop. lia. }
  induction xs as [|x xs IH]; [done|]. cbn in Hxs. apply andb_true_iff in Hxs as [Hx Hxs].
  apply andb_true_iff in Hx as [Hx Ek]. apply Nat.eqb_eq in Ek. cbn [map inAddrRange existsb]. unfold IPNet_Contains at 1.
  rewrite Ha, (net_of_number x Hx), La, Ek. cbn. by apply IH.
Qed.

Lemma other_outside ip xs :
  forallb (fun x => cidr_ok x && (length x.1 =? 16)%nat) xs = true -> length ip <> 16%nat ->
  inAddrRange ip (map net_of xs) = false.
Proof.
  intros Hxs Hlen. destruct (To4 ip) as [a|] eqn:E; [by eapply mapped_outside|].
  induction xs as [|x xs IH]; [done|]. cbn in Hxs. apply andb_true_iff in Hxs as [Hx Hxs].
  apply andb_true_iff in Hx as [Hx Ek]. apply Nat.eqb_eq in Ek. cbn [map inAddrRange existsb]. unfold IPNet_Contains at 1.
  rewrite E, (net_of_number x Hx), Ek. destruct (Nat.eqb_spec (length ip) 16); [done|]. cbn. by apply IH.
Qed.

(** ** The host of an address *)

(** The component the classification looks at: the first that is not an IPv6 zone. *)
Definition host (l : list pair) : option pair := List.find (fun x => negb (p_Code x.1 =? P_IP6ZONE)) l.

(** The ranges that are not public, and the private ones among them. *)
Definition quad (a b c d : Z) : Z := be_value [a; b; c; d].
Definition private_ranges4 : list (Z * Z) :=
  [(quad 127 0 0 0, quad 127 255 255 255); (quad 10 0 0 0, quad 10 255 255 255);
   (quad 100 64 0 0, quad 100 127 255 255); (quad 172 16 0 0, quad 172 31 255 255);
   (quad 192 168 0 0, quad 192 168 255 255); (quad 169 254 0 0, quad 169 254 255 255)].
Definition unroutable_ranges4 : list (Z * Z) :=
  [(quad 0 0 0 0, quad 0 255 255 255); (quad 192 0 0 0, quad 192 0 0 63); (quad 192 0 2 0, quad 192 0 2 255);
   (quad 192 88 99 0, quad 192 88 99 255); (quad 198 18 0 0, quad 198 19 255 255); (quad 198 51 100 0, quad 198 51 100 255);
   (quad 203 0 113 0, quad 203 0 113 255); (quad 224 0 0 0, quad 239 255 255 255); (quad 240 0 0 0, quad 255 255 255 255);
   (quad 255 255 255 255, quad 255 255 255 255)].

Lemma ranges4 : map range private4 = private_ranges4 /\ map range unroutable4 = unroutable_ranges4.
Proof. by vm_compute. Qed.

(** The ranges of IPv6. *)
Definition unicast_range : Z * Z := (0x20000000000000000000000000000000, 0x3fffffffffffffffffffffffffffffff).
Definition documentation_range : Z * Z := (0x20010db8000000000000000000000000, 0x20010db8ffffffffffffffffffffffff).
Definition multicast_range : Z * Z := (0xff000000000000000000000000000000, 0xffffffffffffffffffffffffffffffff).
Definition nat64_ranges : list (Z * Z) :=
  [(0x0064ff9b000100000000000000000000, 0x0064ff9b0001ffffffffffffffffffff);
   (0x0064ff9b000000000000000000000000, 0x0064ff9b0000000000000000ffffffff)].
Definition private_ranges6 : list (Z * Z) :=
  [(1, 1); (0xfc000000000000000000000000000000, 0xfdffffffffffffffffffffffffffffff);
   (0xfe800000000000000000000000000000, 0xfebfffffffffffffffffffffffffffff)].

Lemma ranges6 :
  map range unicast6 = [unicast_range] /\ map range unroutable6 = [multicast_range; documentation_range] /\
  map range translated6 = nat64_ranges /\ map range private6 = private_ranges6.
Proof. by vm_compute. Qed.

(** The classification of the 16 bytes of an IPv6 address. *)
Definition public6 (ip : list Z) : bool :=
  match To4 ip with
  | Some _ => false
  | None =>
      within (be_value ip) unicast_range && negb (within (be_value ip) documentation_range) ||
      existsb (within (be_value ip)) nat64_ranges
  end.
Definition private_6 (ip : list Z) : bool :=
  match To4 ip with Some _ => false | None => existsb (within (be_value ip)) private_ranges6 end.

Lemma public6_tables ip :
  bytes_ok ip -> length ip = 16%nat ->
  (if inAddrRange ip globalUnicast && negb (inAddrRange ip Unroutable6) then true else inAddrRange ip nat64) = public6 ip /\
  inAddrRange ip Private6 = private_6 ip.
Proof.
  intros Hb Hlen. destruct tables as (_ & -> & _ & -> & -> & ->). unfold public6, private_6.
  destruct (To4 ip) as [a|] eqn:E; [by rewrite !(mapped_outside ip _ a)|].
  rewrite !(in_ranges 16) by done. destruct ranges6 as (-> & -> & -> & ->). split; [|done].
  cbn [existsb]. rewrite !orb_false_r. set (v := be_value ip).
  destruct (within v unicast_range) eqn:Eu; [|done]. cbn [andb]. replace (within v multicast_range) with false; [cbn [orb]; by case_match|].
  symmetry. unfold within in *. cbn in *. lia.
Qed.

Section theorems.
Context (reg : registry) (Hreg : reg_ok reg).

Lemma run_host (cb : option bool -> Component -> option bool * bool) l s :
  (forall s x, p_Code x.1 = P_IP6ZONE -> cb s (comp_of x) = (s, true)) ->
  (forall s x, p_Code x.1 <> P_IP6ZONE -> (cb s (comp_of x)).2 = false) ->
  run_cb cb l s = match host l with Some x => (cb s (comp_of x)).1 | None => s end.
Proof.
  intros H1 H2. induction l as [|x l IH]; [done|]. unfold host. cbn [run_cb List.find].
  destruct (Z.eqb_spec (p_Code x.1) P_IP6ZONE) as [E|E]; cbn [negb]; [by rewrite H1|].
  specialize (H2 s x E). destruct (cb s (comp_of x)) as [s' []]; done.
Qed.

Lemma IsPublicAddr_host l :
  Forall (readable reg) l ->
  IsPublicAddr reg (MBytes (encode l)) = match host l with Some x => (public_cb (Some false) (comp_of x)).1 | None => Some false end.
Proof.
  intros Hl. unfold IsPublicAddr. rewrite (ForEach_encode reg Hreg) by done. apply run_host; intros s x E; unfold public_cb; cbn [comp_of c_protocol].
  - by rewrite E.
  - destruct (Z.eqb_spec (p_Code x.1) P_IP6ZONE); [done|]. by repeat case_match.
Qed.

Lemma IsPrivateAddr_host l :
  Forall (readable reg) l ->
  IsPrivateAddr reg (MBytes (encode l)) = match host l with Some x => (private_cb (Some false) (comp_of x)).1 | None => Some false end.
Proof.
  intros Hl. unfold IsPrivateAddr. rewrite (ForEach_encode reg Hreg) by done. apply run_host; intros s x E; unfold private_cb; cbn [comp_of c_protocol].
  - by rewrite E.
  - destruct (Z.eqb_spec (p_Code x.1) P_IP6ZONE); [done|]. by repeat case_match.
Qed.

Lemma host_in l x : host l = Some x -> x ∈ l /\ p_Code x.1 <> P_IP6ZONE.
Proof.
  intros H. apply List.find_some in H as [Hin Hx]. split; [by apply list_elem_of_In|]. by destruct (Z.eqb_spec (p_Code x.1) P_IP6ZONE).
Qed.

(** An IPv4 address, as a number, is public if and only if it is in none of the
    reserved ranges, and private if and only if it is in one of the private ones. *)
Theorem ip4_classified l p ip :
  address reg l -> host l = Some (p, ip) -> p_Code p = P_IP4 -> length ip = 4%nat ->
  IsPublicAddr reg (MBytes (encode l)) = Some (negb (existsb (within (be_value ip)) (private_ranges4 ++ unroutable_ranges4))) /\
  IsPrivateAddr reg (MBytes (encode l)) = Some (existsb (within (be_value ip)) private_ranges4).
Proof.
  intros (_ & Hl & _) Hh Hp Hlen. pose proof (good_readable _ _ Hl) as Hr.
  rewrite IsPublicAddr_host, IsPrivateAddr_host, Hh by done. unfold public_cb, private_cb.
  cbn [comp_of c_protocol fst snd]. rewrite Hp, RawValue_comp. cbn [fst snd].
  destruct (host_in _ _ Hh) as [Hin _]. rewrite Forall_forall in Hr. pose proof (rd_bytes _ _ (Hr _ Hin)) as Hb.
  destruct tables as (-> & _ & -> & _). destruct ranges4 as [<- <-].
  rewrite !(in_ranges 4) by done. rewrite existsb_app, negb_orb. done.
Qed.

(** An IPv6 address is public if and only if it is a global unicast address outside the
    documentation range or one that translates to IPv4; the loopback, local and link-local
    ranges are private.  An IPv4 address in 16 bytes is neither. *)
Theorem ip6_classified l p ip :
  address reg l -> host l = Some (p, ip) -> p_Code p = P_IP6 -> length ip = 16%nat ->
  IsPublicAddr reg (MBytes (encode l)) = Some (public6 ip) /\ IsPrivateAddr reg (MBytes (encode l)) = Some (private_6 ip).
Proof.
  intros (_ & Hl & _) Hh Hp Hlen. pose proof (good_readable _ _ Hl) as Hr.
  rewrite IsPublicAddr_host, IsPrivateAddr_host, Hh by done. unfold public_cb, private_cb.
  cbn [comp_of c_protocol fst snd]. rewrite Hp, RawValue_comp. cbn [fst snd].
  destruct (host_in _ _ Hh) as [Hin _]. rewrite Forall_forall in Hr. pose proof (rd_bytes _ _ (Hr _ Hin)) as Hb.
  destruct (public6_tables ip Hb Hlen) as [<- <-]. split; [|done]. cbn. by case_match.
Qed.

Lemma public6_disjoint ip : public6 ip && private_6 ip = false.
Proof.
  unfold public6, private_6. destruct (To4 ip); [done|]. set (v := be_value ip). unfold within. cbn. clearbody v. lia.
Qed.

(** Every validated address is classified, and none is both public and private. *)
Theorem never_both b :
  bytes_ok b -> validateBytes reg b = None ->
  exists pub priv, IsPublicAddr reg (MBytes b) = Some pub /\ IsPrivateAddr reg (MBytes b) = Some priv /\ pub && priv = false.
Proof.
  intros Hb Hv. apply (valid_iff reg Hreg b Hb) in Hv as (l & (_ & Hl & _) & ->). pose proof (good_readable _ _ Hl) as Hr.
  rewrite IsPublicAddr_host, IsPrivateAddr_host by done. destruct (host l) as [x|] eqn:Hh; [|by exists false, false].
  destruct (host_in _ _ Hh) as [Hin Hz]. rewrite Forall_forall in Hl, Hr. pose proof (rd_bytes _ _ (Hr _ Hin)) as Hx.
  unfold public_cb, private_cb. cbn [comp_of c_protocol]. rewrite RawValue_comp.
  destruct (Z.eqb_spec (p_Code x.1) P_IP6ZONE); [done|]. destruct (Z.eqb_spec (p_Code x.1) P_IP4).
  { eexists _, _. split; [reflexivity|]. split; [reflexivity|]. destruct (inAddrRange x.2 Private4); [done|apply andb_false_r]. }
  destruct (Z.eqb_spec (p_Code x.1) P_IP6).
  { destruct (decide (length x.2 = 16%nat)) as [Hlen|Hlen].
    - destruct (public6_tables x.2 Hx Hlen) as [E1 E2]. rewrite E2. exists (public6 x.2), (private_6 x.2).
      rewrite <- E1 at 1. split_and!; [by case_match|done|apply public6_disjoint].
    - destruct tables as (_ & -> & _ & -> & -> & ->). rewrite !other_outside by done. by exists false, false. }
  destruct (is_dns (p_Code x.1)); [|by exists false, false].
  destruct (Value_comp reg Hreg x (Hl _ Hin)) as [v Ev]. cbn [comp_of] in Ev. rewrite Ev.
  destruct (isSubdomain v localHostDomain); [by exists false, true|].
  destruct (existsb (isSubdomain v) unResolvableDomains); eexists _, false; (split_and!; [done..|apply andb_false_r]).
Qed.
End theorems.

(** ** Examples *)

Module PublicDemo.
Definition ip4 : Protocol := proto "ip4" P_IP4 32 false (Some TranscoderIP4).
Definition ip6 : Protocol := proto "ip6" P_IP6 128 false (Some TranscoderIP6).
Definition home : list pair := [(ip4, [192; 168; 1; 2])].
Definition google : list pair := [(ip6, [32; 1; 72; 96; 72; 96; 0; 0; 0; 0; 0; 0; 0; 0; 136; 136])].

Lemma home_address : address MaDemo.reg home.
Proof. split; [done|]. split; [|by cbn]. repeat constructor; cbn; try done; demo_bytes. Qed.

Lemma google_address : address MaDemo.reg google.
Proof. split; [done|]. split; [|by cbn]. repeat constructor; cbn; try done; demo_bytes. Qed.
End PublicDemo.

Lemma ip4_classified_witness :
  IsPublicAddr MaDemo.reg (MBytes (encode PublicDemo.home)) = Some false /\
  IsPrivateAddr MaDemo.reg (MBytes (encode PublicDemo.home)) = Some true.
Proof.
  destruct (ip4_classified MaDemo.reg MaDemo.reg_is_ok PublicDemo.home PublicDemo.ip4 [192; 168; 1; 2] PublicDemo.home_address)
    as [H1 H2]; [reflexivity..|]. split; [rewrite H1|rewrite H2]; vm_compute; reflexivity.
Defined.

Lemma ip6_classified_witness :
  IsPublicAddr MaDemo.reg (MBytes (encode PublicDemo.google)) = Some true /\
  IsPrivateAddr MaDemo.reg (MBytes (encode PublicDemo.google)) = Some false.
Proof.
  destruct (ip6_classified MaDemo.reg MaDemo.reg_is_ok PublicDemo.google PublicDemo.ip6
    [32; 1; 72; 96; 72; 96; 0; 0; 0; 0; 0; 0; 0; 0; 136; 136] PublicDemo.google_address)
    as [H1 H2]; [reflexivity..|]. split; [rewrite H1|rewrite H2]; vm_compute; reflexivity.
Defined.

Lemma never_both_witness :
  exists pub priv, IsPublicAddr MaDemo.reg (MBytes MaDemo.tcp80) = Some pub /\
    IsPrivateAddr MaDemo.reg (MBytes MaDemo.tcp80) = Some priv /\ pub && priv = false.
Proof. apply (never_both MaDemo.reg MaDemo.reg_is_ok MaDemo.tcp80); [demo_bytes|vm_compute; reflexivity]. Defined.
