(* ===== verification/DialLimiter.v ===== *)
(** * The dial limiter (src/p2p/net/swarm/limiter.go)

    Dials wait for a token of their peer and, where they use a file descriptor, for one of
    those.  [dialing] holds the jobs whose goroutine runs; a goroutine ends with
    [finishedDial].  Whether the context of a job is cancelled can change between calls, so
    it is an argument of the calls.  The counters count jobs in memory and do not
    overflow. *)

From stdpp Require Import base gmap list numbers strings relations.
From Stdlib Require Import ZArith Lia.
From S2P Require Import Prelude GoText Base58 Transcoders Multiaddr MultiaddrSpec MultiaddrText.

(** ** Jobs *)

Record dialJob := mkJob { dj_addr : Multiaddr; dj_peer : list Z }.

Definition isOk {A} (r : result ma_error A) : bool := match r with Ok _ => true | Err _ => false end.

(** [None] is a panic, on malformed bytes. *)
Definition isFdConsumingAddr (reg : registry) (addr : Multiaddr) : option bool :=
  match SplitFunc reg (Some addr) (fun c => p_Code (c_protocol c) =? P_CIRCUIT) with
  | None => None
  | Some (None, _) => Some true
  | Some (Some first, _) =>
      match ValueForProtocol reg first P_TCP, ValueForProtocol reg first P_UNIX with
      | Some err1, Some err2 => Some (isOk err1 || isOk err2)
      | _, _ => None
      end
  end.
Definition shouldConsumeFd (reg : registry) (addr : Multiaddr) : option bool :=
  match ValueForProtocol reg addr P_CIRCUIT with
  | None => None
  | Some err => if isOk err then Some false else isFdConsumingAddr reg addr
  end.

(** ** The limiter *)

Record dialLimiter := mkLimiter {
  fdConsuming : Z;
  fdLimit : Z;
  waitingOnFd : list dialJob;
  activePerPeer : gmap (list Z) Z;
  perPeerLimit : Z;
  waitingOnPeerLimit : gmap (list Z) (list dialJob);
  dialing : list dialJob
}.
Definition ConcurrentFdDials : Z := 160.
Definition DefaultPerPeerRateLimit : Z := 8.
Definition newDialLimiterWithParams (fdLimit perPeerLimit : Z) : dialLimiter := mkLimiter 0 fdLimit [] ∅ perPeerLimit ∅ [].

Definition set_fd (n : Z) (dl : dialLimiter) : dialLimiter :=
  mkLimiter n (fdLimit dl) (waitingOnFd dl) (activePerPeer dl) (perPeerLimit dl) (waitingOnPeerLimit dl) (dialing dl).
Definition set_waitingOnFd (l : list dialJob) (dl : dialLimiter) : dialLimiter :=
  mkLimiter (fdConsuming dl) (fdLimit dl) l (activePerPeer dl) (perPeerLimit dl) (waitingOnPeerLimit dl) (dialing dl).
Definition set_active (m : gmap (list Z) Z) (dl : dialLimiter) : dialLimiter :=
  mkLimiter (fdConsuming dl) (fdLimit dl) (waitingOnFd dl) m (perPeerLimit dl) (waitingOnPeerLimit dl) (dialing dl).
Definition set_waitingOnPeer (m : gmap (list Z) (list dialJob)) (dl : dialLimiter) : dialLimiter :=
  mkLimiter (fdConsuming dl) (fdLimit dl) (waitingOnFd dl) (activePerPeer dl) (perPeerLimit dl) m (dialing dl).
Definition set_dialing (l : list dialJob) (dl : dialLimiter) : dialLimiter :=
  mkLimiter (fdConsuming dl) (fdLimit dl) (waitingOnFd dl) (activePerPeer dl) (perPeerLimit dl) (waitingOnPeerLimit dl) l.

Definition active (p : list Z) (dl : dialLimiter) : Z := default 0 (activePerPeer dl !! p).
Definition waitlist (p : list Z) (dl : dialLimiter) : list dialJob := default [] (waitingOnPeerLimit dl !! p).
Definition add_active (p : list Z) (dl : dialLimiter) : dialLimiter := set_active (<[p := active p dl + 1]> (activePerPeer dl)) dl.
Definition start (dj : dialJob) (dl : dialLimiter) : dialLimiter := set_dialing (dialing dl ++ [dj]) dl.

Section limiter.
Context (reg : registry).

(** Validated addresses do not panic, see [shouldConsumeFd_total]. *)
Definition consumes (dj : dialJob) : bool := default false (shouldConsumeFd reg (dj_addr dj)).

Definition addCheckFdLimit (dj : dialJob) (dl : dialLimiter) : dialLimiter :=
  if consumes dj then
    if fdLimit dl <=? fdConsuming dl then set_waitingOnFd (waitingOnFd dl ++ [dj]) dl
    else start dj (set_fd (fdConsuming dl + 1) dl)
  else start dj dl.

Definition addCheckPeerLimit (dj : dialJob) (dl : dialLimiter) : dialLimiter :=
  let p := dj_peer dj in
  if perPeerLimit dl <=? active p dl then set_waitingOnPeer (<[p := waitlist p dl ++ [dj]]> (waitingOnPeerLimit dl)) dl
  else addCheckFdLimit dj (add_active p dl).
Definition AddDialJob : dialJob -> dialLimiter -> dialLimiter := addCheckPeerLimit.

Definition clearAllPeerDials (p : list Z) (dl : dialLimiter) : dialLimiter :=
  set_waitingOnPeer (delete p (waitingOnPeerLimit dl)) dl.

Context (cancelled : dialJob -> bool).

Fixpoint next_for_peer (l : list dialJob) (dl : dialLimiter) : dialLimiter :=
  match l with
  | [] => dl
  | next :: l =>
      let p := dj_peer next in
      let dl := set_waitingOnPeer (match l with [] => delete p (waitingOnPeerLimit dl) | _ => <[p := l]> (waitingOnPeerLimit dl) end) dl in
      if cancelled next then next_for_peer l dl else addCheckFdLimit next (add_active p dl)
  end.
Definition freePeerToken (dj : dialJob) (dl : dialLimiter) : dialLimiter :=
  let p := dj_peer dj in
  let n := active p dl - 1 in
  let dl := set_active (if n =? 0 then delete p (activePerPeer dl) else <[p := n]> (activePerPeer dl)) dl in
  next_for_peer (waitlist p dl) dl.

(** Every round takes a job off a list; [None] is fuel that did not suffice. *)
Fixpoint next_for_fd (fuel : nat) (dl : dialLimiter) : option dialLimiter :=
  match waitingOnFd dl with
  | [] => Some dl
  | next :: rest =>
      match fuel with
      | O => None
      | S fuel =>
          let dl := set_waitingOnFd rest dl in
          if cancelled next then next_for_fd fuel (freePeerToken next dl)
          else Some (start next (set_fd (fdConsuming dl + 1) dl))
      end
  end.
Definition waiting (dl : dialLimiter) : Z :=
  Z.of_nat (length (waitingOnFd dl)) + msum (fun _ l => Z.of_nat (length l)) (waitingOnPeerLimit dl).
Definition freeFDToken (dl : dialLimiter) : option dialLimiter :=
  let dl := set_fd (fdConsuming dl - 1) dl in next_for_fd (Z.to_nat (waiting dl)) dl.

Definition finishedDial (dj : dialJob) (dl : dialLimiter) : option dialLimiter :=
  match (if consumes dj then freeFDToken dl else Some dl) with
  | None => None
  | Some dl => Some (freePeerToken dj dl)
  end.
End limiter.

(** ** Runs *)

Inductive event := EvAdd (dj : dialJob) | EvFinish (dj : dialJob) | EvClear (p : list Z).

(** The goroutine of a job in [dialing] ends at any time. *)
Inductive lstep (reg : registry) : (dialJob -> bool) * event -> dialLimiter -> dialLimiter -> Prop :=
| step_add c dj dl : lstep reg (c, EvAdd dj) dl (AddDialJob reg dj dl)
| step_clear c p dl : lstep reg (c, EvClear p) dl (clearAllPeerDials p dl)
| step_finish c dj l1 l2 dl dl' :
    dialing dl = l1 ++ dj :: l2 -> finishedDial reg c dj (set_dialing (l1 ++ l2) dl) = Some dl' -> lstep reg (c, EvFinish dj) dl dl'.

Inductive lrun (reg : registry) : list ((dialJob -> bool) * event) -> dialLimiter -> dialLimiter -> Prop :=
| lrun_nil dl : lrun reg [] dl dl
| lrun_snoc evs ev dl dl1 dl2 : lrun reg evs dl dl1 -> lstep reg ev dl1 dl2 -> lrun reg (evs ++ [ev]) dl dl2.

(** ** The invariant *)

Section invariant.
Context (reg : registry).

Definition of_peer (p : list Z) (dj : dialJob) : bool := bool_decide (dj_peer dj = p).
Definition exempt (e : option (list Z)) (p : list Z) : Z := if decide (e = Some p) then 1 else 0.

(** While a call runs: [tok] are jobs that hold a peer token but are in no list, [f] tokens
    for file descriptors and [s] waiters are not yet settled, and the peer [e] has a token
    to give away. *)
Record linv (tok : list dialJob) (f s : Z) (e : option (list Z)) (dl : dialLimiter) : Prop := {
  li_fd : fdConsuming dl = tally (consumes reg) (dialing dl) + f;
  li_active p : active p dl = tally (of_peer p) (dialing dl) + tally (of_peer p) (waitingOnFd dl) + tally (of_peer p) tok;
  li_entries p n : activePerPeer dl !! p = Some n -> 0 < n;
  li_limit p : active p dl + exempt e p <= perPeerLimit dl;
  li_waiting p l : waitingOnPeerLimit dl !! p = Some l ->
    l <> [] /\ Forall (fun dj => dj_peer dj = p) l /\ perPeerLimit dl <= active p dl + exempt e p;
  li_queue : Forall (fun dj => consumes reg dj = true) (waitingOnFd dl);
  li_full : waitingOnFd dl <> [] -> fdLimit dl <= fdConsuming dl + s
}.
End invariant.

(** ** Which addresses use a file descriptor *)

Section addresses.
Context (reg : registry) (Hreg : reg_ok reg).

Definition has (code : Z) (l : list pair) : bool := existsb (fun x => p_Code x.1 =? code) l.

Lemma ValueForProtocol_encode l code :
  Forall (good reg) l -> exists r, ValueForProtocol reg (MBytes (encode l)) code = Some r /\ isOk r = has code l.
Proof.
  intros Hl. cbn [ValueForProtocol]. rewrite (ForEach_encode reg Hreg) by by apply good_readable.
  induction Hl as [|x l Hx Hl IH]; [by eexists|]. cbn [run_cb has existsb comp_of c_protocol].
  destruct (p_Code x.1 =? code); [|exact IH]. destruct (Value_comp reg Hreg x Hx) as [v ->]. by eexists.
Qed.

Lemma split_func_none fuel l1 l2 cb :
  Forall (readable reg) (l1 ++ l2) -> (length l2 <= fuel)%nat -> Forall (fun x => cb (comp_of x) = false) l2 ->
  split_func_loop reg fuel (encode (l1 ++ l2)) (length (encode l1)) cb = Some (length (encode (l1 ++ l2))).
Proof.
  revert l1 fuel. induction l2 as [|x l2 IH]; intros l1 fuel Hr Hf Hcb.
  - rewrite app_nil_r. destruct fuel; cbn [split_func_loop]; by rewrite Nat.ltb_irrefl.
  - pose proof Hr as [_ Hx]%Forall_app. apply Forall_cons_1 in Hx as [Hx Hl2]. apply Forall_cons_1 in Hcb as [Hc Hcb].
    destruct fuel as [|fuel]; [simpl in Hf; lia|]. cbn [split_func_loop]. pose proof (encode1_pos reg Hreg x Hx).
    replace (length (encode l1) <? _)%nat with true
      by (symmetry; apply Nat.ltb_lt; rewrite encode_app, encode_cons, !length_app; lia).
    cbn [negb]. rewrite encode_app, drop_app_length, encode_cons, (readComponent_encode1 reg Hreg), Hc by done.
    rewrite <- encode_cons, <- encode_app.
    replace (length (encode l1) + length (encode1 x))%nat with (length (encode (l1 ++ [x])))
      by (rewrite (encode_app l1), (encode_cons x []), app_nil_r, length_app; done).
    replace (l1 ++ x :: l2) with ((l1 ++ [x]) ++ l2) in * by by rewrite <- app_assoc.
    apply IH; [done|simpl in Hf; lia|done].
Qed.

Lemma shouldConsumeFd_encode l :
  l <> [] -> Forall (good reg) l ->
  shouldConsumeFd reg (MBytes (encode l)) = Some (negb (has P_CIRCUIT l) && (has P_TCP l || has P_UNIX l)).
Proof.
  intros Hne Hl. unfold shouldConsumeFd, isFdConsumingAddr. pose proof (good_readable _ _ Hl) as Hr.
  destruct (ValueForProtocol_encode l P_CIRCUIT Hl) as (r & -> & ->). destruct (has P_CIRCUIT l) eqn:E; [done|].
  pose proof (encode_nonempty reg Hreg l Hr Hne) as Hlen. unfold SplitFunc. rewrite Hlen.
  rewrite (split_func_none _ [] l).
  - cbn [app]. rewrite Hlen, Nat.eqb_refl. destruct (ValueForProtocol_encode l P_TCP Hl) as (r1 & -> & ->).
    by destruct (ValueForProtocol_encode l P_UNIX Hl) as (r2 & -> & ->).
  - done.
  - by apply (encode_length reg Hreg).
  - apply Forall_forall. intros x Hx. cbn. destruct (p_Code x.1 =? P_CIRCUIT) eqn:Ex; [|done].
    rewrite <- E. symmetry. apply existsb_exists. exists x. split; [by apply list_elem_of_In|done].
Qed.

(** A validated address takes a file descriptor token if and only if it has a TCP or a Unix
    component and does not go through a relay; it never panics. *)
Theorem shouldConsumeFd_total b :
  bytes_ok b -> validateBytes reg b = None ->
  exists ps, Protocols reg (MBytes b) = Some ps /\
    shouldConsumeFd reg (MBytes b) =
      Some (negb (existsb (fun p => p_Code p =? P_CIRCUIT) ps) &&
            existsb (fun p => (p_Code p =? P_TCP) || (p_Code p =? P_UNIX)) ps).
Proof.
  intros Hb Hv. apply (valid_iff reg Hreg b Hb) in Hv as (l & (Hne & Hl & _) & ->). exists (map fst l).
  rewrite shouldConsumeFd_encode by done. split.
  - cbn [Protocols]. rewrite (protocols_encode reg Hreg) by (by apply good_readable || by apply (encode_length reg Hreg), good_readable).
    done.
  - clear. assert (forall (f : Protocol -> bool) (l : list pair), existsb f (map fst l) = existsb (fun x => f x.1) l) as E
      by (intros f l'; induction l' as [|x l' IH]; [done|]; cbn; by rewrite IH).
    rewrite !E. unfold has. do 2 f_equal. induction l as [|x l IH]; [done|]. cbn. rewrite <- IH.
    destruct (p_Code x.1 =? P_TCP), (p_Code x.1 =? P_UNIX); cbn; by rewrite ?orb_true_r.
Qed.
End addresses.

(** ** The calls keep the invariant *)

Section calls.
Context (reg : registry).

Lemma active_insert dl p q n : active q (set_active (<[p := n]> (activePerPeer dl)) dl) = if decide (p = q) then n else active q dl.
Proof. unfold active. cbn. destruct (decide (p = q)) as [->|]; by simplify_map_eq. Qed.

Lemma active_delete dl p q : active q (set_active (delete p (activePerPeer dl)) dl) = if decide (p = q) then 0 else active q dl.
Proof. unfold active. cbn. destruct (decide (p = q)) as [->|]; by simplify_map_eq. Qed.

Lemma of_peer_decide p dj : of_peer p dj = if decide (dj_peer dj = p) then true else false.
Proof. unfold of_peer. by destruct (decide _); [rewrite bool_decide_true|rewrite bool_decide_false]. Qed.

Lemma active_nonneg tok f s e dl p : linv reg tok f s e dl -> 0 <= active p dl.
Proof.
  intros H. rewrite (li_active _ _ _ _ _ _ H).
  pose proof (tally_nonneg (of_peer p) (dialing dl)). pose proof (tally_nonneg (of_peer p) (waitingOnFd dl)).
  pose proof (tally_nonneg (of_peer p) tok). lia.
Qed.

(** A job that holds a peer token is started or put on the queue. *)
Lemma addCheckFdLimit_inv dj tok f s e dl :
  0 <= s -> linv reg (dj :: tok) f s e dl -> linv reg tok f s e (addCheckFdLimit reg dj dl).
Proof.
  intros Hs [Hfd Ha He Hl Hw Hq Hf]. unfold addCheckFdLimit.
  assert (forall p, active p dl = tally (of_peer p) (dialing dl) + tally (of_peer p) (waitingOnFd dl) +
    ((if of_peer p dj then 1 else 0) + tally (of_peer p) tok)) as Ha' by (intros p; by rewrite Ha, tally_cons).
  destruct (consumes reg dj) eqn:Ec; [case_bool|]; constructor; cbn; try done;
    try (intros p; fold (active p dl); specialize (Ha' p); rewrite ?tally_app; unfold active in *; cbn [tally] in *; cbn; lia).
  - apply Forall_app. by repeat constructor.
  - lia.
  - rewrite tally_app. cbn. rewrite Ec. lia.
  - intros H. specialize (Hf H). lia.
  - rewrite tally_app. cbn. rewrite Ec. lia.
Qed.

(** Taking a token from the peer that has one to give. *)
Lemma add_active_inv dj tok f s dl :
  linv reg tok f s (Some (dj_peer dj)) dl -> linv reg (dj :: tok) f s None (add_active (dj_peer dj) dl).
Proof.
  intros H. pose proof (active_nonneg _ _ _ _ _ (dj_peer dj) H) as Hpos. destruct H as [Hfd Ha He Hl Hw Hq Hf].
  unfold add_active. constructor; try done.
  - intros p. rewrite active_insert, tally_cons, of_peer_decide. cbn. destruct (decide _) as [<-|]; rewrite Ha; lia.
  - intros p n. cbn. destruct (decide (dj_peer dj = p)) as [<-|]; intros; simplify_map_eq; [lia|by eapply He].
  - intros p. rewrite active_insert. specialize (Hl p). unfold exempt in *. cbn.
    destruct (decide (dj_peer dj = p)) as [<-|]; repeat case_decide; simplify_eq; lia.
  - intros p l Hp. destruct (Hw p l Hp) as (? & ? & Hle). split_and!; try done. rewrite active_insert. unfold exempt in *. cbn.
    destruct (decide (dj_peer dj = p)) as [<-|]; repeat case_decide; simplify_eq; lia.
Qed.

Lemma waitlist_cons next l p tok f s dl :
  waitlist p dl = next :: l -> linv reg tok f s (Some p) dl ->
  waitingOnPeerLimit dl !! p = Some (next :: l) /\ dj_peer next = p /\
  linv reg tok f s (Some p)
    (set_waitingOnPeer (match l with [] => delete p (waitingOnPeerLimit dl) | _ => <[p := l]> (waitingOnPeerLimit dl) end) dl).
Proof.
  intros Hp H. assert (waitingOnPeerLimit dl !! p = Some (next :: l)) as Hlk.
  { unfold waitlist in Hp. destruct (waitingOnPeerLimit dl !! p) eqn:E; by simplify_eq/=. }
  pose proof (li_waiting _ _ _ _ _ _ H _ _ Hlk) as (_ & Hpe & Hle). apply Forall_cons_1 in Hpe as [Hpe Hpl].
  split_and!; [done..|]. destruct H as [Hfd Ha He Hl Hw Hq Hf]. constructor; try done. intros q k. cbn. intros Hk.
  destruct (decide (q = p)) as [->|Hne].
  - destruct l as [|x l]; [by simplify_map_eq|]. cbn in Hk. simplify_map_eq. by split_and!.
  - apply Hw. rewrite <- Hk. by destruct l; simplify_map_eq.
Qed.

(** The waiters of the peer that has a token to give. *)
Lemma next_for_peer_inv c l p tok f s dl :
  0 <= s -> waitlist p dl = l -> linv reg tok f s (Some p) dl -> linv reg tok f s None (next_for_peer reg c l dl).
Proof.
  intros Hs. revert dl. induction l as [|next l IH]; intros dl Hp H.
  - cbn. destruct H as [Hfd Ha He Hl Hw Hq Hf]. constructor; try done.
    + intros q. specialize (Hl q). unfold exempt in *. repeat case_decide; simplify_eq; lia.
    + intros q l Hq'. destruct (Hw q l Hq') as (? & ? & ?). split_and!; try done. unfold exempt in *. repeat case_decide; simplify_eq; try lia.
      unfold waitlist in Hp. rewrite Hq' in Hp. by simplify_eq/=.
  - destruct (waitlist_cons _ _ _ _ _ _ _ Hp H) as (Hlk & Hpe & H').
    cbn [next_for_peer]. rewrite Hpe. set (m := match l with [] => _ | _ => _ end) in *.
    destruct (c next).
    + apply IH; [|done]. unfold waitlist. cbn. subst m. by destruct l; simplify_map_eq.
    + apply addCheckFdLimit_inv; [done|]. rewrite <- Hpe in H' |- *. by apply add_active_inv.
Qed.

(** A token of the peer goes back. *)
Lemma released_inv dj tok f s dl :
  linv reg (dj :: tok) f s None dl ->
  linv reg tok f s (Some (dj_peer dj))
    (set_active (if active (dj_peer dj) dl - 1 =? 0 then delete (dj_peer dj) (activePerPeer dl)
                 else <[dj_peer dj := active (dj_peer dj) dl - 1]> (activePerPeer dl)) dl).
Proof.
  intros H. set (p := dj_peer dj). set (m := if _ =? _ then _ else _).
  assert (forall q, active q (set_active m dl) = if decide (p = q) then active p dl - 1 else active q dl) as E.
  { intros q. subst m. case_bool; [rewrite active_delete|by rewrite active_insert]. destruct (decide _); lia. }
  assert (0 <= active p dl - 1) as Hpos.
  { rewrite (li_active _ _ _ _ _ _ H), tally_cons, of_peer_decide, decide_True by done.
    pose proof (tally_nonneg (of_peer p) (dialing dl)). pose proof (tally_nonneg (of_peer p) (waitingOnFd dl)).
    pose proof (tally_nonneg (of_peer p) tok). lia. }
  destruct H as [Hfd Ha He Hl Hw Hq Hf]. constructor; try done.
  - intros q. rewrite E. cbn. specialize (Ha q). rewrite tally_cons, of_peer_decide in Ha. fold p in Ha.
    destruct (decide (p = q)) as [<-|]; lia.
  - intros q n. cbn. subst m. case_bool; intros Hn.
    + apply lookup_delete_Some in Hn as [_ Hn]. by eapply He.
    + apply lookup_insert_Some in Hn as [[_ <-]|[_ Hn]]; [lia|by eapply He].
  - intros q. rewrite E. specialize (Hl q). unfold exempt in *. cbn. destruct (decide (p = q)) as [<-|];
      repeat case_decide; simplify_eq; lia.
  - intros q l Hq'. destruct (Hw q l Hq') as (? & ? & ?). rewrite E. split_and!; try done. unfold exempt in *. cbn.
    destruct (decide (p = q)) as [<-|]; repeat case_decide; simplify_eq; lia.
Qed.

Lemma freePeerToken_inv c dj tok f s dl :
  0 <= s -> linv reg (dj :: tok) f s None dl -> linv reg tok f s None (freePeerToken reg c dj dl).
Proof. intros Hs H. apply next_for_peer_inv with (p := dj_peer dj); [done..|]. by apply released_inv. Qed.

(** *** The queue drains *)

Lemma waiting_nonneg dl : 0 <= waiting dl.
Proof.
  unfold waiting. pose proof (msum_nonneg (fun (_ : list Z) (l : list dialJob) => Z.of_nat (length l)) (waitingOnPeerLimit dl)).
  enough (0 <= msum (fun _ l => Z.of_nat (length l)) (waitingOnPeerLimit dl)) by lia. apply H. intros. lia.
Qed.

(** The jobs in the limiter. *)
Definition jobs (dl : dialLimiter) : Z := waiting dl + Z.of_nat (length (dialing dl)).
Definition fewer (dl' dl : dialLimiter) : Prop := waiting dl' <= waiting dl /\ jobs dl' <= jobs dl.

Lemma addCheckFdLimit_jobs dj dl :
  waiting (addCheckFdLimit reg dj dl) <= waiting dl + 1 /\ jobs (addCheckFdLimit reg dj dl) = jobs dl + 1.
Proof.
  unfold addCheckFdLimit, jobs, waiting. destruct (consumes reg dj); [case_bool|]; cbn; rewrite ?length_app; cbn; lia.
Qed.

Lemma next_for_peer_fewer c l p tok f s dl :
  waitlist p dl = l -> linv reg tok f s (Some p) dl -> fewer (next_for_peer reg c l dl) dl.
Proof.
  revert dl. induction l as [|next l IH]; intros dl Hp H; [done|].
  destruct (waitlist_cons _ _ _ _ _ _ _ Hp H) as (Hlk & Hpe & H').
  cbn [next_for_peer]. rewrite Hpe. set (m := match l with [] => _ | _ => _ end) in *.
  assert (waiting (set_waitingOnPeer m dl) = waiting dl - 1) as E.
  { unfold waiting. cbn. subst m. destruct l as [|x l].
    - rewrite (msum_delete _ (waitingOnPeerLimit dl) p _ Hlk). cbn. lia.
    - rewrite (msum_update _ (waitingOnPeerLimit dl) p _ _ Hlk). cbn [length]. lia. }
  assert (jobs (set_waitingOnPeer m dl) = jobs dl - 1) as E' by (unfold jobs; rewrite E; cbn; lia).
  destruct (c next).
  - destruct (IH (set_waitingOnPeer m dl)) as [? ?]; [|done|unfold fewer; lia].
    unfold waitlist. cbn. subst m. by destruct l; simplify_map_eq.
  - pose proof (addCheckFdLimit_jobs next (add_active p (set_waitingOnPeer m dl))) as Hle.
    change (waiting (add_active p (set_waitingOnPeer m dl))) with (waiting (set_waitingOnPeer m dl)) in Hle.
    change (jobs (add_active p (set_waitingOnPeer m dl))) with (jobs (set_waitingOnPeer m dl)) in Hle. unfold fewer. lia.
Qed.

Lemma freePeerToken_fewer c dj tok f s dl : linv reg (dj :: tok) f s None dl -> fewer (freePeerToken reg c dj dl) dl.
Proof. intros H. pose proof (next_for_peer_fewer c _ (dj_peer dj) _ _ _ _ eq_refl (released_inv _ _ _ _ _ H)) as Hf. exact Hf. Qed.

Lemma pop_jobs next rest dl :
  waitingOnFd dl = next :: rest ->
  waiting (set_waitingOnFd rest dl) = waiting dl - 1 /\ jobs (set_waitingOnFd rest dl) = jobs dl - 1.
Proof. intros E. unfold jobs, waiting. rewrite E. cbn. lia. Qed.

(** Taking the head off the queue. *)
Lemma pop_inv next rest tok f dl :
  waitingOnFd dl = next :: rest -> linv reg tok f 1 None dl -> linv reg (next :: tok) f 1 None (set_waitingOnFd rest dl).
Proof.
  intros E [Hfd Ha He Hl Hw Hq Hf]. rewrite E in *. constructor; try done.
  - intros p. rewrite tally_cons. specialize (Ha p). rewrite tally_cons in Ha. unfold active in *. cbn in *. lia.
  - by apply Forall_cons_1 in Hq as [_ Hq].
  - intros _. by apply Hf.
Qed.

Lemma next_for_fd_inv c fuel tok dl :
  (Z.to_nat (waiting dl) <= fuel)%nat -> linv reg tok 0 1 None dl ->
  exists dl', next_for_fd reg c fuel dl = Some dl' /\ linv reg tok 0 0 None dl' /\ jobs dl' <= jobs dl.
Proof.
  revert dl. induction fuel as [|fuel IH]; intros dl Hfuel H; cbn [next_for_fd]; destruct (waitingOnFd dl) as [|next rest] eqn:E.
  1, 3: exists dl; (split_and!; [done| |done]); destruct H as [Hfd Ha He Hl Hw Hq Hf]; constructor; done.
  - pose proof (pop_jobs _ _ _ E). pose proof (waiting_nonneg (set_waitingOnFd rest dl)). lia.
  - pose proof (pop_jobs _ _ _ E). pose proof (waiting_nonneg (set_waitingOnFd rest dl)).
    pose proof (pop_inv _ _ _ _ _ E H) as Hpop. destruct (c next).
    + destruct (freePeerToken_fewer c _ _ _ _ _ Hpop) as [? ?].
      destruct (IH (freePeerToken reg c next (set_waitingOnFd rest dl))) as (dl' & ? & ? & ?);
        [lia|by apply freePeerToken_inv|]. exists dl'. split_and!; [done..|lia].
    + eexists. split_and!; [done| |unfold jobs in *; cbn in *; rewrite length_app; cbn; unfold waiting in *; cbn in *; lia]. pose proof (li_queue _ _ _ _ _ _ H) as Hq. rewrite E in Hq. apply Forall_cons_1 in Hq as [Hn _].
      assert (fdLimit dl <= fdConsuming dl + 1) as Hfull by (apply (li_full _ _ _ _ _ _ H); by rewrite E).
      destruct Hpop as [Hfd Ha He Hl Hw Hq Hf]. constructor; try done; cbn in *.
      * rewrite tally_app. cbn. rewrite Hn. lia.
      * intros p. specialize (Ha p). unfold active in *. cbn in *. rewrite tally_app. cbn. lia.
      * lia.
Qed.

Lemma AddDialJob_inv dj dl : linv reg [] 0 0 None dl -> linv reg [] 0 0 None (AddDialJob reg dj dl).
Proof.
  intros H. unfold AddDialJob, addCheckPeerLimit. set (p := dj_peer dj). case_bool.
  - destruct H as [Hfd Ha He Hl Hw Hq Hf]. constructor; try done. intros q l. cbn. intros Hl'.
    apply lookup_insert_Some in Hl' as [[<- <-]|[_ Hl']]; [|by apply Hw]. unfold waitlist.
    split_and!; [by destruct (default _ _)| |pose proof (Hl p); unfold exempt in *; repeat case_decide; simplify_eq; unfold active in *; cbn; lia].
    apply Forall_app. split; [|by repeat constructor].
    destruct (waitingOnPeerLimit dl !! p) as [k|] eqn:Ek; cbn; [by apply Hw|constructor].
  - subst p. apply addCheckFdLimit_inv; [done|]. apply add_active_inv. destruct H as [Hfd Ha He Hl Hw Hq Hf]. constructor; try done.
    + intros q. specialize (Hl q). unfold exempt in *. repeat case_decide; simplify_eq; lia.
    + intros q l Hq'. destruct (Hw q l Hq') as (? & ? & Hle). split_and!; try done.
      unfold exempt in *. repeat case_decide; simplify_eq; lia.
Qed.

Lemma clearAllPeerDials_inv p dl : linv reg [] 0 0 None dl -> linv reg [] 0 0 None (clearAllPeerDials p dl).
Proof.
  intros [Hfd Ha He Hl Hw Hq Hf]. constructor; try done. intros q l. cbn. intros Hq'.
  apply lookup_delete_Some in Hq' as [_ Hq']. by apply Hw.
Qed.

(** *** What stays *)

Definition present (dj : dialJob) (dl : dialLimiter) : Prop :=
  dj ∈ dialing dl \/ dj ∈ waitingOnFd dl \/ exists p l, waitingOnPeerLimit dl !! p = Some l /\ dj ∈ l.

(** The limits, and the jobs that are not cancelled. *)
Record keeps (c : dialJob -> bool) (dl dl' : dialLimiter) : Prop := {
  kp_limits : fdLimit dl' = fdLimit dl /\ perPeerLimit dl' = perPeerLimit dl;
  kp_jobs dj : present dj dl -> present dj dl' \/ c dj = true
}.

#[export] Instance keeps_preorder c : PreOrder (keeps c).
Proof.
  split; [by constructor; auto|]. intros dl1 dl2 dl3 [[? ?] Hk1] [[? ?] Hk2]. constructor; [split; congruence|].
  intros dj Hj. destruct (Hk1 dj Hj); [by apply Hk2|by right].
Qed.

Lemma addCheckFdLimit_keeps c dj dl :
  keeps c dl (addCheckFdLimit reg dj dl) /\ present dj (addCheckFdLimit reg dj dl).
Proof.
  unfold addCheckFdLimit, present. destruct (consumes reg dj); [case_bool|];
    (split; [constructor; [done|]; intros x; unfold present; cbn|cbn]; rewrite ?elem_of_app, ?list_elem_of_singleton; tauto).
Qed.

Lemma next_for_peer_keeps c l p tok f s dl :
  waitlist p dl = l -> linv reg tok f s (Some p) dl -> keeps c dl (next_for_peer reg c l dl).
Proof.
  revert dl. induction l as [|next l IH]; intros dl Hp H; [done|].
  destruct (waitlist_cons _ _ _ _ _ _ _ Hp H) as (Hlk & Hpe & H').
  cbn [next_for_peer]. rewrite Hpe. set (m := match l with [] => _ | _ => _ end) in *.
  assert (forall dj, present dj dl -> present dj (set_waitingOnPeer m dl) \/ dj = next) as Hk.
  { intros dj [Hd|[Hd|(q & k & Hq & Hd)]]; [by left; left|by left; right; left|].
    destruct (decide (q = p)) as [->|Hne].
    - rewrite Hlk in Hq. injection Hq as <-. apply elem_of_cons in Hd as [->|Hd]; [by right|]. left. right. right. exists p, l.
      split; [|done]. cbn. subst m. destruct l; [by apply elem_of_nil in Hd|by simplify_map_eq].
    - left. right. right. exists q, k. split; [|done]. cbn. subst m. by destruct l; simplify_map_eq. }
  destruct (c next) eqn:Ec.
  - transitivity (set_waitingOnPeer m dl).
    { constructor; [done|]. intros dj Hd. destruct (Hk dj Hd) as [?| ->]; auto. }
    apply IH; [|done]. unfold waitlist. cbn. subst m. by destruct l; simplify_map_eq.
  - destruct (addCheckFdLimit_keeps c next (add_active p (set_waitingOnPeer m dl))) as [[Hlim Hp1] Hp2].
    constructor; [done|]. intros dj Hd. destruct (Hk dj Hd) as [?| ->]; [by apply Hp1|by left].
Qed.

Lemma freePeerToken_keeps c dj tok f s dl : linv reg (dj :: tok) f s None dl -> keeps c dl (freePeerToken reg c dj dl).
Proof.
  intros H. pose proof (next_for_peer_keeps c _ (dj_peer dj) _ _ _ _ eq_refl (released_inv _ _ _ _ _ H)) as [? Hk].
  constructor; [done|exact Hk].
Qed.

Lemma next_for_fd_keeps c fuel tok dl dl' :
  linv reg tok 0 1 None dl -> next_for_fd reg c fuel dl = Some dl' -> keeps c dl dl'.
Proof.
  revert dl. induction fuel as [|fuel IH]; intros dl H; cbn [next_for_fd]; destruct (waitingOnFd dl) as [|next rest] eqn:E;
    intros Hr; simplify_eq; [done..|].
  assert (forall dj, present dj dl -> present dj (set_waitingOnFd rest dl) \/ dj = next) as Hk.
  { intros dj [Hd|[Hd|Hd]]; [by left; left| |by left; right; right].
    rewrite E in Hd. apply elem_of_cons in Hd as [->|Hd]; [by right|by left; right; left]. }
  destruct (c next) eqn:Ec; simplify_eq.
  - pose proof (pop_inv _ _ _ _ _ E H) as Hpop. transitivity (set_waitingOnFd rest dl).
    + constructor; [done|]. intros dj Hd. destruct (Hk dj Hd) as [?| ->]; auto.
    + etransitivity; [by apply (freePeerToken_keeps c _ _ _ _ _ Hpop)|]. by apply IH; [apply freePeerToken_inv|].
  - constructor; [done|]. intros dj Hd. left. destruct (Hk dj Hd) as [[?|[?|?]]| ->].
    + left. cbn. apply elem_of_app. by left.
    + right. by left.
    + right. by right.
    + left. cbn. apply elem_of_app. right. by apply list_elem_of_singleton.
Qed.

(** The call that ends a dial returns, and keeps the invariant, the limits and the other jobs. *)
Lemma finishedDial_spec c dj l1 l2 dl :
  dialing dl = l1 ++ dj :: l2 -> linv reg [] 0 0 None dl ->
  exists dl', finishedDial reg c dj (set_dialing (l1 ++ l2) dl) = Some dl' /\ linv reg [] 0 0 None dl' /\
    jobs dl' < jobs dl /\ keeps c (set_dialing (l1 ++ l2) dl) dl'.
Proof.
  intros E H. set (dl0 := set_dialing (l1 ++ l2) dl). unfold finishedDial.
  assert (linv reg [dj] (if consumes reg dj then 1 else 0) 0 None dl0) as Hdj.
  { destruct H as [Hfd Ha He Hl Hw Hq Hf]. constructor; try done.
    - cbn. rewrite Hfd, E, !tally_app, tally_cons. lia.
    - intros p. specialize (Ha p). unfold active in *. cbn in *. rewrite Ha, E, !tally_app, tally_cons. lia. }
  assert (jobs dl0 = jobs dl - 1) as Hj by (unfold jobs, waiting; cbn; rewrite E, !length_app; cbn; lia).
  assert (exists dl1, (if consumes reg dj then freeFDToken reg c dl0 else Some dl0) = Some dl1 /\
    linv reg [dj] 0 0 None dl1 /\ jobs dl1 <= jobs dl0 /\ keeps c dl0 dl1) as (dl1 & -> & H1 & Hj1 & Hk1).
  { destruct (consumes reg dj); [|by exists dl0].
    assert (linv reg [dj] 0 1 None (set_fd (fdConsuming dl0 - 1) dl0)) as Hd1.
    { destruct Hdj as [Hfd Ha He Hl Hw Hq Hf]. constructor; try done; cbn in *; [lia|]. intros Hne. specialize (Hf Hne). lia. }
    destruct (next_for_fd_inv c _ _ _ (le_n _) Hd1) as (dl1 & Hn & ? & ?). exists dl1. split_and!; [done..|].
    destruct (next_for_fd_keeps _ _ _ _ _ Hd1 Hn) as [Hlim Hk]. constructor; [exact Hlim|exact Hk]. }
  destruct (freePeerToken_fewer c _ _ _ _ _ H1) as [_ ?].
  eexists. split_and!; [done|by apply freePeerToken_inv|lia|].
  etransitivity; [exact Hk1|]. by eapply freePeerToken_keeps.
Qed.

Lemma AddDialJob_keeps c dj dl : keeps c dl (AddDialJob reg dj dl) /\ present dj (AddDialJob reg dj dl).
Proof.
  unfold AddDialJob, addCheckPeerLimit. case_bool.
  - split.
    + constructor; [done|]. intros x [?|[?|(q & l & Hq & Hx)]]; left; [by left|by right; left|]. right. right.
      destruct (decide (q = dj_peer dj)) as [->|Hne].
      * eexists (dj_peer dj), _. cbn. split; [by simplify_map_eq|]. unfold waitlist. rewrite Hq. cbn. apply elem_of_app. by left.
      * exists q, l. cbn. by simplify_map_eq.
    + right. right. eexists (dj_peer dj), _. cbn. split; [by simplify_map_eq|]. apply elem_of_app. right. by apply list_elem_of_singleton.
  - destruct (addCheckFdLimit_keeps c dj (add_active (dj_peer dj) dl)) as [[? ?] ?]. done.
Qed.

(** Without cancelled jobs the file descriptors stay below the limit. *)
Definition below (dl : dialLimiter) : Prop := fdConsuming dl <= fdLimit dl.

Lemma addCheckFdLimit_below dj dl : below dl -> below (addCheckFdLimit reg dj dl).
Proof. unfold addCheckFdLimit, below. destruct (consumes reg dj); [case_bool|]; cbn; lia. Qed.

Lemma next_for_peer_below c l dl : below dl -> below (next_for_peer reg c l dl).
Proof.
  revert dl. induction l as [|next l IH]; intros dl H; [done|]. cbn [next_for_peer].
  destruct (c next); [by apply IH|by apply addCheckFdLimit_below].
Qed.

Lemma finishedDial_below c dj dl dl' :
  (forall x, c x = false) -> below dl -> finishedDial reg c dj dl = Some dl' -> below dl'.
Proof.
  intros Hc Hb. unfold finishedDial, freeFDToken. set (fuel := Z.to_nat _).
  destruct (consumes reg dj); [|intros [= <-]; by apply next_for_peer_below].
  destruct (next_for_fd _ _ _ _) as [dl1|] eqn:E; [|done]. intros [= <-]. apply next_for_peer_below. unfold below in *.
  destruct fuel; cbn in E; destruct (waitingOnFd dl) as [|next rest]; rewrite ?Hc in E; simplify_eq; cbn; lia.
Qed.
End calls.

(** ** Runs of the limiter *)

Section runs.
Context (reg : registry) (fdL perP : Z) (HfdL : 0 < fdL) (HperP : 0 < perP).

Lemma new_inv : linv reg [] 0 0 None (newDialLimiterWithParams fdL perP).
Proof. constructor; cbn; try done. intros p. change (0 + 0 <= perP). lia. Qed.

Lemma lstep_inv ev dl dl' :
  linv reg [] 0 0 None dl -> lstep reg ev dl dl' ->
  linv reg [] 0 0 None dl' /\ fdLimit dl' = fdLimit dl /\ perPeerLimit dl' = perPeerLimit dl.
Proof.
  intros H. destruct 1 as [c dj dl|c p dl|c dj l1 l2 dl dl' E Hf].
  - split; [by apply AddDialJob_inv|]. by destruct (AddDialJob_keeps reg c dj dl) as [[? _] _].
  - split; [by apply clearAllPeerDials_inv|done].
  - destruct (finishedDial_spec reg c dj l1 l2 dl E H) as (dl1 & Hf' & ? & _ & [? _]). rewrite Hf in Hf'. by simplify_eq.
Qed.

Lemma lrun_inv evs dl :
  lrun reg evs (newDialLimiterWithParams fdL perP) dl ->
  linv reg [] 0 0 None dl /\ fdLimit dl = fdL /\ perPeerLimit dl = perP.
Proof.
  intros Hr. remember (newDialLimiterWithParams fdL perP) as dl0 eqn:E. induction Hr as [dl|evs ev dl dl1 dl2 _ IH Hs]; subst.
  - split; [apply new_inv|done].
  - destruct (IH eq_refl) as (H & ? & ?). destruct (lstep_inv _ _ _ H Hs) as (? & -> & ->). done.
Qed.

Lemma lrun_app evs1 evs2 dl1 dl2 dl3 : lrun reg evs1 dl1 dl2 -> lrun reg evs2 dl2 dl3 -> lrun reg (evs1 ++ evs2) dl1 dl3.
Proof.
  intros H1 H2. induction H2 as [dl|evs ev dl dl' dl'' _ IH Hs]; [by rewrite app_nil_r|].
  rewrite app_assoc. econstructor; [by apply IH|done].
Qed.

(** The limiter is back where it started when nothing is dialing. *)
Lemma idle_new dl :
  linv reg [] 0 0 None dl -> fdLimit dl = fdL -> perPeerLimit dl = perP -> dialing dl = [] ->
  dl = newDialLimiterWithParams fdL perP.
Proof.
  intros [Hfd Ha He Hl Hw Hq Hf] <- <- Hd. rewrite Hd in Hfd. cbn in Hfd.
  assert (waitingOnFd dl = []) as Hwf by (destruct (waitingOnFd dl); [done|]; assert (fdLimit dl <= fdConsuming dl + 0) by (by apply Hf); lia).
  assert (forall p, active p dl = 0) as Hz by (intros p; by rewrite Ha, Hd, Hwf).
  assert (activePerPeer dl = ∅) as Hae.
  { apply map_eq. intros p. rewrite lookup_empty. destruct (activePerPeer dl !! p) as [n|] eqn:E; [|done].
    specialize (Hz p). unfold active in Hz. rewrite E in Hz. cbn in Hz. pose proof (He p n E). lia. }
  assert (waitingOnPeerLimit dl = ∅) as Hwe.
  { apply map_eq. intros p. rewrite lookup_empty. destruct (waitingOnPeerLimit dl !! p) as [l|] eqn:E; [|done].
    destruct (Hw p l E) as (_ & _ & Hle). rewrite Hz in Hle. change (perPeerLimit dl <= 0 + 0) in Hle. lia. }
  destruct dl. cbn in *. by subst.
Qed.

(** C29: Tokens are accounted for: the file descriptors in use are those of the dials that
    run, a peer has as many active dials as run or wait for a descriptor, never more than the
    limit per peer; dials wait for a descriptor only when none is free and for a peer only when it
    is at its limit; and the end of every running dial is processed. *)
Theorem tokens_accounted evs dl :
  lrun reg evs (newDialLimiterWithParams fdL perP) dl ->
  fdConsuming dl = tally (consumes reg) (dialing dl) /\
  (forall p, active p dl = tally (of_peer p) (dialing dl) + tally (of_peer p) (waitingOnFd dl) /\ active p dl <= perP) /\
  (waitingOnFd dl <> [] -> fdL <= fdConsuming dl) /\
  (forall p, waitlist p dl <> [] -> active p dl = perP) /\
  (forall c dj l1 l2, dialing dl = l1 ++ dj :: l2 -> exists dl', lstep reg (c, EvFinish dj) dl dl').
Proof.
  intros Hr. destruct (lrun_inv _ _ Hr) as (H & <- & <-). split_and!.
  - rewrite (li_fd _ _ _ _ _ _ H). lia.
  - intros p. split; [rewrite (li_active _ _ _ _ _ _ H); cbn; lia|]. pose proof (li_limit _ _ _ _ _ _ H p) as Hl.
    change (active p dl + 0 <= perPeerLimit dl) in Hl. lia.
  - intros Hne. pose proof (li_full _ _ _ _ _ _ H Hne). lia.
  - intros p. unfold waitlist. destruct (waitingOnPeerLimit dl !! p) as [l|] eqn:E; [|done]. intros _.
    destruct (li_waiting _ _ _ _ _ _ H p l E) as (_ & _ & Hle). pose proof (li_limit _ _ _ _ _ _ H p) as Hl.
    change (active p dl + 0 <= perPeerLimit dl) in Hl. change (perPeerLimit dl <= active p dl + 0) in Hle. lia.
  - intros c dj l1 l2 E. destruct (finishedDial_spec reg c dj l1 l2 dl E H) as (dl' & Hf & _). exists dl'. by econstructor.
Qed.

(** C30: From every state the limiter drains: ending the running dials, each of which lets the
    waiting ones through, leads back to the initial state, with every token returned. *)
Theorem limiter_drains evs dl :
  lrun reg evs (newDialLimiterWithParams fdL perP) dl ->
  exists fin, Forall (fun ev => exists dj, ev.2 = EvFinish dj) fin /\ Z.of_nat (length fin) <= jobs dl /\
    lrun reg fin dl (newDialLimiterWithParams fdL perP).
Proof.
  intros Hr. destruct (lrun_inv _ _ Hr) as (H & Hf & Hp). clear Hr evs.
  remember (Z.to_nat (jobs dl)) as n eqn:En. revert dl H Hf Hp En. induction n as [n IH] using lt_wf_ind. intros dl H Hf Hp En.
  destruct (dialing dl) as [|dj l] eqn:E.
  - exists []. rewrite <- (idle_new dl) by done. pose proof (waiting_nonneg dl). split_and!; [constructor|unfold jobs; cbn; lia|constructor].
  - destruct (finishedDial_spec reg (fun _ => false) dj [] l dl E H) as (dl' & Hfin & H' & Hj & [[Hf' Hp'] _]).
    assert (0 <= jobs dl') by (pose proof (waiting_nonneg dl'); unfold jobs; lia). cbn in Hf', Hp'.
    destruct (IH (Z.to_nat (jobs dl')) ltac:(lia) dl' H' ltac:(congruence) ltac:(congruence) eq_refl) as (fin & Hall & Hlen & Hrun).
    exists ((fun _ => false, EvFinish dj) :: fin). split_and!.
    + constructor; [by eexists|done].
    + cbn [length]. lia.
    + apply (lrun_app [_] fin dl dl'); [|done]. apply (lrun_snoc _ [] _ _ dl); [apply lrun_nil|by apply (step_finish _ _ _ [] l)].
Qed.

(** A job that was added is running or waiting until it ends, unless its context is
    cancelled or the waiting dials of its peer are cleared. *)
Theorem no_job_lost evs dl dj :
  lrun reg evs (newDialLimiterWithParams fdL perP) dl -> (exists c, (c, EvAdd dj) ∈ evs) ->
  present dj dl \/ (exists c, (c, EvFinish dj) ∈ evs) \/ (exists c ev, (c, ev) ∈ evs /\ c dj = true) \/
  (exists c, (c, EvClear (dj_peer dj)) ∈ evs).
Proof.
  intros Hr. remember (newDialLimiterWithParams fdL perP) as dl0 eqn:E0. induction Hr as [dl|evs ev dl dl1 dl2 Hr IH Hs]; subst.
  - intros [c Hc]. by apply elem_of_nil in Hc.
  - destruct (lrun_inv _ _ Hr) as (H & _). intros [c Hc]. apply elem_of_app in Hc.
    rewrite list_elem_of_singleton in Hc.
    assert (forall x, x ∈ evs -> x ∈ evs ++ [ev]) as Hold by (intros x Hx; apply elem_of_app; by left).
    assert (ev ∈ evs ++ [ev]) as Hnew by (apply elem_of_app; right; by apply list_elem_of_singleton).
    destruct Hc as [Hc| <-]; [|inversion Hs; subst; left; by apply (AddDialJob_keeps reg c)].
    destruct (IH eq_refl (ex_intro _ c Hc)) as [Hp|[(? & ?)|[(? & ? & ? & ?)|(? & ?)]]]; [|by eauto 8..].
    destruct Hs as [c' dj' dl1|c' p dl1|c' dj' l1 l2 dl1 dl2 E Hf].
    + destruct (AddDialJob_keeps reg c' dj' dl1) as [[_ Hk] _]. destruct (Hk dj Hp); eauto 8.
    + destruct Hp as [?|[?|(q & l & Hq & Hl)]]; [by left; left|by left; right; left|].
      destruct (li_waiting _ _ _ _ _ _ H q l Hq) as (_ & Hpe & _). rewrite Forall_forall in Hpe. specialize (Hpe dj Hl).
      destruct (decide (p = q)) as [->|Hne]; [right; right; right; exists c'; by rewrite Hpe|].
      left. right. right. exists q, l. cbn. by simplify_map_eq.
    + destruct (finishedDial_spec reg c' dj' l1 l2 dl1 E H) as (dl' & Hf' & _ & _ & [_ Hk]). rewrite Hf in Hf'. simplify_eq.
      destruct Hp as [Hp|Hp]; [|by destruct (Hk dj (or_intror Hp)); eauto 8].
      rewrite E in Hp. apply elem_of_app in Hp as [Hp|Hp]; [|apply elem_of_cons in Hp as [->|Hp]; [by eauto 8|]];
        (destruct (Hk dj) as [?|?]; [left; cbn; apply elem_of_app; auto| |]; eauto 8).
Qed.

(** When no context is cancelled, no more dials with a file descriptor run than the limit allows. *)
Theorem fd_limit_holds evs dl :
  Forall (fun ev => forall dj, ev.1 dj = false) evs -> lrun reg evs (newDialLimiterWithParams fdL perP) dl ->
  tally (consumes reg) (dialing dl) <= fdL.
Proof.
  intros Hc Hr. destruct (lrun_inv _ _ Hr) as (H & <- & _). pose proof (li_fd _ _ _ _ _ _ H) as Hfd.
  enough (below dl) by (unfold below in *; lia). clear H Hfd.
  remember (newDialLimiterWithParams _ _) as dl0 eqn:E0. assert (below dl0) as H0 by (subst dl0; unfold below; cbn; lia). clear E0 HfdL.
  induction Hr as [dl|evs ev dl dl1 dl2 Hr IH Hs]; [done|]. apply Forall_app in Hc as [Hc Hev]. apply Forall_cons_1 in Hev as [Hev _].
  specialize (IH Hc H0). destruct Hs as [c dj dl1|c p dl1|c dj l1 l2 dl1 dl2 E Hf]; [|done|].
  - unfold AddDialJob, addCheckPeerLimit. case_bool; [done|by apply addCheckFdLimit_below].
  - eapply finishedDial_below; [exact Hev| |exact Hf]. exact IH.
Qed.
End runs.

(** ** Examples *)

Module DialDemo.
Definition dial (p : string) : dialJob := mkJob (MBytes MaDemo.tcp80) (str p).
Definition never : dialJob -> bool := fun _ => false.

(** Two dials to a, one to b, with one descriptor and one dial per peer. *)
Definition evs : list ((dialJob -> bool) * event) := [(never, EvAdd (dial "a")); (never, EvAdd (dial "b")); (never, EvAdd (dial "a"))].
Definition dl : dialLimiter :=
  AddDialJob MaDemo.reg (dial "a") (AddDialJob MaDemo.reg (dial "b") (AddDialJob MaDemo.reg (dial "a") (newDialLimiterWithParams 1 1))).

Lemma dl_reached : lrun MaDemo.reg evs (newDialLimiterWithParams 1 1) dl.
Proof.
  change evs with ((([] ++ [(never, EvAdd (dial "a"))]) ++ [(never, EvAdd (dial "b"))]) ++ [(never, EvAdd (dial "a"))]).
  repeat (econstructor; [|constructor]). constructor.
Qed.

Lemma dl_state : dialing dl = [dial "a"] /\ waitingOnFd dl = [dial "b"] /\ waitlist (str "a") dl = [dial "a"].
Proof. by vm_compute. Qed.
End DialDemo.

Lemma shouldConsumeFd_total_witness : exists ps, Protocols MaDemo.reg (MBytes MaDemo.tcp80) = Some ps.
Proof.
  destruct (shouldConsumeFd_total MaDemo.reg MaDemo.reg_is_ok MaDemo.tcp80) as (ps & H & _);
    [demo_bytes|vm_compute; reflexivity|]. exists ps. exact H.
Defined.

Lemma tokens_accounted_witness : 1 <= fdConsuming DialDemo.dl.
Proof.
  destruct (tokens_accounted MaDemo.reg 1 1 ltac:(lia) ltac:(lia) DialDemo.evs DialDemo.dl DialDemo.dl_reached) as (_ & _ & H & _).
  apply H. destruct DialDemo.dl_state as (_ & -> & _). discriminate.
Defined.

Lemma limiter_drains_witness : exists fin, lrun MaDemo.reg fin DialDemo.dl (newDialLimiterWithParams 1 1).
Proof.
  destruct (limiter_drains MaDemo.reg 1 1 ltac:(lia) ltac:(lia) DialDemo.evs DialDemo.dl DialDemo.dl_reached) as (fin & _ & _ & H).
  exists fin. exact H.
Defined.

Lemma no_job_lost_witness :
  present (DialDemo.dial "b") DialDemo.dl \/ (exists c, (c, EvFinish (DialDemo.dial "b")) ∈ DialDemo.evs) \/
  (exists c ev, (c, ev) ∈ DialDemo.evs /\ c (DialDemo.dial "b") = true) \/
  (exists c, (c, EvClear (str "b")) ∈ DialDemo.evs).
Proof.
  apply (no_job_lost MaDemo.reg 1 1 ltac:(lia) DialDemo.evs DialDemo.dl (DialDemo.dial "b") DialDemo.dl_reached).
  exists DialDemo.never. apply elem_of_cons. right. apply elem_of_cons. left. reflexivity.
Defined.

Lemma fd_limit_holds_witness : tally (consumes MaDemo.reg) (dialing DialDemo.dl) <= 1.
Proof.
  apply (fd_limit_holds MaDemo.reg 1 1 ltac:(lia) ltac:(lia) DialDemo.evs); [|exact DialDemo.dl_reached].
  repeat constructor.
Defined.

(** With a cancelled dial on the queue the limit is exceeded: [freeFDToken] returns the peer
    token of the cancelled dial to a, which starts the other dial to a with the free
    descriptor, and then starts the dial to c without looking at the limit again. *)
Lemma fd_limit_exceeded :
  exists evs dl, lrun MaDemo.reg evs (newDialLimiterWithParams 1 1) dl /\ tally (consumes MaDemo.reg) (dialing dl) = 2.
Proof.
  set (cancel_a := fun dj => bool_decide (dj_peer dj = str "a") && bool_decide (Bytes (dj_addr dj) = MaDemo.tcp80)).
  set (other_a := mkJob (MBytes MaDemo.unix_a) (str "a")). set (new := newDialLimiterWithParams 1 1).
  set (add := AddDialJob MaDemo.reg).
  set (dl4 := add (DialDemo.dial "c") (add other_a (add (DialDemo.dial "a") (add (DialDemo.dial "b") new)))).
  assert (dialing dl4 = [] ++ DialDemo.dial "b" :: []) as Hd by by vm_compute.
  destruct (finishedDial MaDemo.reg cancel_a (DialDemo.dial "b") (set_dialing ([] ++ []) dl4)) as [dl5|] eqn:E;
    [|by vm_compute in E].
  eexists (((((([] ++ [_]) ++ [_]) ++ [_]) ++ [_]) ++ [_])), dl5. split.
  - econstructor; [|apply (step_finish _ cancel_a _ [] [] dl4 dl5 Hd E)].
    repeat (econstructor; [|apply (step_add _ DialDemo.never)]). constructor.
  - vm_compute in E. injection E as <-. by vm_compute.
Qed.
