(* ===== verification/DialRanker.v ===== *)
(** * The order of dials (src/p2p/net/swarm/dial_ranker.go)

    [sort.Slice] is not stable: the model takes any function that sorts by the score
    ([SortSlice]).  Delays are nanoseconds.  An address whose bytes are malformed panics
    when it is read; validated addresses do not ([protocol_validated]), and the predicates
    are false on the others. *)

From stdpp Require Import base gmap list numbers strings sorting.
From Stdlib Require Import ZArith Lia.
From S2P Require Import Prelude GoText GoSort Base58 Transcoders Multiaddr MultiaddrSpec MultiaddrText DialLimiter PublicAddr.

Definition P_QUIC : Z := 460.
Definition P_QUIC_V1 : Z := 461.
Definition P_WEBTRANSPORT : Z := 465.
Definition P_WEBRTC_DIRECT : Z := 280.

Definition Millisecond : Z := 1000000.
Definition PublicTCPDelay : Z := 250 * Millisecond.
Definition PrivateTCPDelay : Z := 30 * Millisecond.
Definition PublicQUICDelay : Z := 250 * Millisecond.
Definition PrivateQUICDelay : Z := 30 * Millisecond.
Definition RelayDelay : Z := 500 * Millisecond.
Definition PublicOtherDelay : Z := 1000 * Millisecond.
Definition PrivateOtherDelay : Z := 100 * Millisecond.

(** The value [strconv.Atoi] returns, with its error ignored: 0 for a text that is no
    number, the nearest [int] for one out of range. *)
Definition Atoi (s : list Z) : Z :=
  let value (t : list Z) :=
    if forallb is_digit t then foldl (fun n c => n * 10 + (c - 48)) 0 t else 0 in
  match s with
  | 43 :: t => Z.min (value t) MaxInt64
  | 45 :: t => Z.max (- value t) (- MaxInt64 - 1)
  | _ => Z.min (value s) MaxInt64
  end.

(** [sort.Slice] with a comparison of keys. *)
Section sort_Slice.
Context `{!SortSlice}.

Definition sort_Slice (key : Multiaddr -> Z) (l : list Multiaddr) : list Multiaddr := sortSlice (fun a b => key a <? key b) l.

Lemma sort_Slice_perm key l : sort_Slice key l ≡ₚ l.
Proof. apply sortSlice_perm. Qed.
Lemma sort_Slice_sorted key l : StronglySorted Z.le (map key (sort_Slice key l)).
Proof.
  assert (StronglySorted (fun a b => key b <? key a = false) (sort_Slice key l)) as Hs
    by (apply (sortSlice_sorted (fun a b => key a <? key b)); split; intros; bool_props; zbool).
  induction Hs as [|a m _ IH Ha]; simpl; constructor; [done|]. apply Forall_fmap. eapply Forall_impl; [done|]. intros b Hb. simpl in Hb. bool_props. done.
Qed.
End sort_Slice.

(** The first index from [k] on. *)
Fixpoint find_from (P : Multiaddr -> bool) (k : nat) (l : list Multiaddr) : option nat :=
  match l, k with
  | [], _ => None
  | _ :: l, S k => S <$> find_from P k l
  | a :: l, O => if P a then Some O else S <$> find_from P 0 l
  end.

(** The element at [j] goes to [k], those between move up. *)
Definition move_to (k j : nat) (l : list Multiaddr) : list Multiaddr :=
  match l !! j with
  | Some a => take k l ++ a :: take (j - k) (drop k l) ++ drop (S j) l
  | None => l
  end.

Section ranker.
Context (reg : registry) `{!SortSlice}.

Definition isProtocolAddr (a : Multiaddr) (p : Z) : bool :=
  default false (ForEach reg (Some a) (fun found c => if p_Code (c_protocol c) =? p then (true, false) else (found, true)) false).
Definition isQUICAddr (a : Multiaddr) : bool := isProtocolAddr a P_QUIC || isProtocolAddr a P_QUIC_V1.

(** The value of a protocol where [err == nil]. *)
Definition value_of (a : Multiaddr) (p : Z) : option (list Z) :=
  match ValueForProtocol reg a p with Some (Ok v) => Some v | _ => None end.
Definition has_value (a : Multiaddr) (p : Z) : bool := match value_of a p with Some _ => true | None => false end.
Definition isRelayAddr (a : Multiaddr) : bool := has_value a P_CIRCUIT.
Definition port (a : Multiaddr) (p : Z) : Z := Atoi (default [] (value_of a p)).

Definition score (a : Multiaddr) : Z :=
  let ip4Weight := if isProtocolAddr a P_IP4 then Z.shiftl 1 18 else 0 in
  if has_value a P_WEBTRANSPORT then ip4Weight + Z.shiftl 1 19 + port a P_UDP
  else if has_value a P_QUIC then ip4Weight + port a P_UDP + Z.shiftl 1 17
  else if has_value a P_QUIC_V1 then ip4Weight + port a P_UDP
  else if has_value a P_TCP then ip4Weight + port a P_TCP + Z.shiftl 1 20
  else if has_value a P_WEBRTC_DIRECT then Z.shiftl 1 21
  else Z.shiftl 1 30.

(** The flag, where the search for TCP starts, and the list. *)
Definition eyeballs_quic (addrs : list Multiaddr) : bool * nat * list Multiaddr :=
  match addrs with
  | a :: _ =>
      if isQUICAddr a && isProtocolAddr a P_IP6 then
        match find_from (fun a => isQUICAddr a && isProtocolAddr a P_IP4) 1 addrs with
        | Some j => (true, S j, move_to 1 j addrs)
        | None => (false, 0%nat, addrs)
        end
      else (false, 0%nat, addrs)
  | [] => (false, 0%nat, addrs)
  end.
Definition eyeballs_tcp (tcpStartIdx : nat) (addrs : list Multiaddr) : bool * list Multiaddr :=
  match addrs !! tcpStartIdx with
  | Some a =>
      if isProtocolAddr a P_IP6 then
        match find_from (fun a => isProtocolAddr a P_TCP && isProtocolAddr a P_IP4) (S tcpStartIdx) addrs with
        | Some j => (true, move_to (S tcpStartIdx) j addrs)
        | None => (false, addrs)
        end
      else (false, addrs)
  | None => (false, addrs)
  end.

(** The delay at position [i] of a group that starts at [start]. *)
Definition stagger (happy : bool) (d : Z) (start i : nat) : Z :=
  if (i =? start + 1)%nat then d else if (start + 1 <? i)%nat then if happy then 2 * d else d else 0.

Fixpoint delay_loop (happyQUIC happyTCP : bool) (tcpStartIdx : nat) (tcpDelay quicDelay otherDelay offset : Z)
    (i : nat) (tcpFirstDialDelay lastQUICOrTCPDelay : Z) (addrs : list Multiaddr) : list (Multiaddr * Z) :=
  match addrs with
  | [] => []
  | addr :: addrs =>
      let next := delay_loop happyQUIC happyTCP tcpStartIdx tcpDelay quicDelay otherDelay offset (S i) in
      if isQUICAddr addr then
        let delay := stagger happyQUIC quicDelay 0 i in
        (addr, offset + delay) :: next (delay + tcpDelay) delay addrs
      else if isProtocolAddr addr P_TCP then
        let delay := stagger happyTCP tcpDelay tcpStartIdx i + tcpFirstDialDelay in
        (addr, offset + delay) :: next tcpFirstDialDelay delay addrs
      else (addr, offset + (lastQUICOrTCPDelay + otherDelay)) :: next tcpFirstDialDelay lastQUICOrTCPDelay addrs
  end.

Definition getAddrDelay (addrs : list Multiaddr) (tcpDelay quicDelay otherDelay offset : Z) : list (Multiaddr * Z) :=
  match addrs with
  | [] => []
  | _ =>
      let '(happyQUIC, i, addrs) := eyeballs_quic (sort_Slice score addrs) in
      let tcpStartIdx := default (length addrs) (find_from (fun a => isProtocolAddr a P_TCP) i addrs) in
      let '(happyTCP, addrs) := eyeballs_tcp tcpStartIdx addrs in
      delay_loop happyQUIC happyTCP tcpStartIdx tcpDelay quicDelay otherDelay offset 0 0 0 addrs
  end.
Definition NoDelayDialRanker (addrs : list Multiaddr) : list (Multiaddr * Z) := getAddrDelay addrs 0 0 0 0.

Definition swap (i j : nat) (l : list Multiaddr) : list Multiaddr :=
  match l !! i, l !! j with
  | Some a, Some b => <[j := a]> (<[i := b]> l)
  | _, _ => l
  end.
Definition filter_step (f : Multiaddr -> bool) (s : list Multiaddr * nat) (i : nat) : list Multiaddr * nat :=
  match s.1 !! i with
  | Some a => if f a then (swap i s.2 s.1, S s.2) else s
  | None => s
  end.
Definition filterAddrs (addrs : list Multiaddr) (f : Multiaddr -> bool) : list Multiaddr * list Multiaddr :=
  let '(addrs, j) := foldl (filter_step f) (addrs, 0%nat) (seq 0 (length addrs)) in (take j addrs, drop j addrs).

Definition private (a : Multiaddr) : bool := default false (IsPrivateAddr reg a).
Definition ip_addr (a : Multiaddr) : bool := isProtocolAddr a P_IP4 || isProtocolAddr a P_IP6.

Definition DefaultDialRanker (addrs : list Multiaddr) : list (Multiaddr * Z) :=
  let '(relay, addrs) := filterAddrs addrs isRelayAddr in
  let '(pvt, addrs) := filterAddrs addrs private in
  let '(public, addrs) := filterAddrs addrs ip_addr in
  let relayOffset := if (0 <? length public)%nat then RelayDelay else 0 in
  let res := getAddrDelay pvt PrivateTCPDelay PrivateQUICDelay PrivateOtherDelay 0 ++
             getAddrDelay public PublicTCPDelay PublicQUICDelay PublicOtherDelay 0 ++
             getAddrDelay relay PublicTCPDelay PublicQUICDelay PublicOtherDelay relayOffset in
  let maxDelay := default 0 (snd <$> last res) in
  res ++ map (fun a => (a, maxDelay + PublicOtherDelay)) addrs.
End ranker.

(** ** Lists *)

Section lists.
Implicit Types (l : list Multiaddr) (P : Multiaddr -> bool).

Lemma find_from_Some P k l j :
  find_from P k l = Some j ->
  (k <= j)%nat /\ (exists a, l !! j = Some a /\ P a = true) /\
  (forall i a, (k <= i < j)%nat -> l !! i = Some a -> P a = false).
Proof.
  revert k j. induction l as [|a l IH]; intros k j H; [done|]. destruct k as [|k]; cbn in H.
  - destruct (P a) eqn:Ea; [simplify_eq; split_and!; [lia|by exists a|intros; lia]|].
    apply fmap_Some in H as (j' & H & ->). destruct (IH _ _ H) as (_ & ? & Hb). split_and!; [lia|done|].
    intros [|i] b Hi Hl; [by simplify_eq/=|]. apply (Hb i); [lia|done].
  - apply fmap_Some in H as (j' & H & ->). destruct (IH _ _ H) as (? & ? & Hb). split_and!; [lia|done|].
    intros [|i] b Hi Hl; [lia|]. apply (Hb i); [lia|done].
Qed.

Lemma find_from_None P k l : find_from P k l = None -> forall i a, (k <= i)%nat -> l !! i = Some a -> P a = false.
Proof.
  revert k. induction l as [|a l IH]; intros k H i b Hi Hl; [done|]. destruct k as [|k]; cbn in H.
  - destruct (P a) eqn:Ea; [done|]. apply fmap_None in H. destruct i as [|i]; [by simplify_eq/=|]. by apply (IH 0%nat H i); [lia|].
  - apply fmap_None in H. destruct i as [|i]; [lia|]. by apply (IH k H i); [lia|].
Qed.

(** Elements that satisfy nothing do not matter. *)
Lemma find_from_app_l P k l l' :
  Forall (fun a => P a = false) l' -> (k <= length l)%nat -> find_from P k (l ++ l') = find_from P k l.
Proof.
  intros Hl'. revert k. induction l as [|a l IH]; intros k Hk.
  - destruct k; [|simpl in Hk; lia]. cbn. induction Hl' as [|b l' Hb _ IH]; [done|]. cbn. by rewrite Hb, IH.
  - destruct k as [|k]; cbn; [by rewrite IH by lia|]. by rewrite IH by (simpl in Hk; lia).
Qed.

Lemma find_from_app_r P k l l' :
  Forall (fun a => P a = false) l -> (k <= length l)%nat -> find_from P k (l ++ l') = (fun i => length l + i)%nat <$> find_from P 0 l'.
Proof.
  intros Hl. revert k. induction Hl as [|a l Ha _ IH]; intros k Hk.
  - destruct k; [|simpl in Hk; lia]. cbn. by destruct (find_from P 0 l').
  - destruct k as [|k]; cbn; [rewrite Ha|]; rewrite IH by (simpl in Hk; lia); by destruct (find_from P 0 l').
Qed.

Lemma find_from_skip P k l l' : find_from P (length l + k) (l ++ l') = (fun i => length l + i)%nat <$> find_from P k l'.
Proof. induction l as [|a l IH]; cbn; [by destruct (find_from P k l')|]. rewrite IH. by destruct (find_from P k l'). Qed.

Lemma find_from_ext P Q k l : Forall (fun a => P a = Q a) l -> find_from P k l = find_from Q k l.
Proof. intros H. revert k. induction H as [|a l Ha _ IH]; intros k; [done|]. destruct k; cbn; rewrite ?Ha, IH; done. Qed.

Lemma move_to_perm k j l : (k <= j)%nat -> move_to k j l ≡ₚ l.
Proof.
  intros Hk. unfold move_to. destruct (l !! j) as [a|] eqn:E; [|done]. rewrite <- Permutation_middle.
  rewrite <- (take_drop_middle l j a E) at 4. rewrite <- Permutation_middle. constructor. rewrite app_assoc. f_equiv.
  replace (take j l) with (take (k + (j - k)) l) by (f_equal; lia). by rewrite take_take_drop.
Qed.

Lemma move_to_app_l k j l l' : (k <= j < length l)%nat -> move_to k j (l ++ l') = move_to k j l ++ l'.
Proof.
  intros H. unfold move_to. rewrite lookup_app_l by lia. destruct (l !! j) as [a|] eqn:E; [|done].
  rewrite (take_app_le l), (drop_app_le l l' k), (drop_app_le l l' (S j)) by lia.
  rewrite take_app_le by (rewrite length_drop; lia). rewrite <- app_assoc. cbn. by rewrite <- app_assoc.
Qed.

Lemma move_to_app_r k j l l' : move_to (length l + k) (length l + j) (l ++ l') = l ++ move_to k j l'.
Proof.
  unfold move_to. rewrite lookup_app_r by lia. replace (length l + j - length l)%nat with j by lia.
  destruct (l' !! j) as [a|]; [|done]. rewrite take_app_add, drop_app_add.
  replace (S (length l + j)) with (length l + S j)%nat by lia. rewrite drop_app_add.
  replace (length l + j - (length l + k))%nat with (j - k)%nat by lia. by rewrite <- app_assoc.
Qed.

(** [filterAddrs] keeps the order of what it selects, not of the rest. *)
Lemma filter_step_inv f l F R U a i :
  i = (length F + length R)%nat -> l = F ++ R ++ a :: U ->
  exists F' R', filter_step f (l, length F) i = (F' ++ R' ++ U, length F') /\
    F' = (if f a then F ++ [a] else F) /\ R' ≡ₚ (if f a then R else R ++ [a]).
Proof.
  intros -> ->. unfold filter_step. cbn [fst snd].
  assert ((F ++ R ++ a :: U) !! (length F + length R)%nat = Some a) as E.
  { rewrite app_assoc. by rewrite list_lookup_middle by by rewrite length_app. }
  rewrite E. destruct (f a); [|exists F, (R ++ [a]); by rewrite <- app_assoc].
  unfold swap. rewrite E. destruct R as [|r R].
  - rewrite Nat.add_0_r. cbn [app]. rewrite list_lookup_middle by done. exists (F ++ [a]), []. split_and!; [|done..].
    rewrite length_app. cbn. rewrite Nat.add_1_r. f_equal. rewrite list_insert_insert_eq.
    rewrite list_insert_id by by rewrite list_lookup_middle. by rewrite <- app_assoc.
  - cbn [app]. rewrite (list_lookup_middle F) by done. exists (F ++ [a]), (R ++ [r]). split_and!; [|done|].
    + rewrite length_app. cbn [length]. rewrite Nat.add_1_r. f_equal.
      rewrite (insert_app_r F), (app_comm_cons R (a :: U) r), (insert_app_r_alt (r :: R)) by (cbn; lia).
      replace (S (length R) - length (r :: R))%nat with 0%nat by (cbn; lia).
      rewrite insert_app_r_alt by lia. rewrite Nat.sub_diag. cbn. by rewrite <- !app_assoc.
    + by rewrite Permutation_app_comm.
Qed.

Definition only (f : Multiaddr -> bool) (l : list Multiaddr) : list Multiaddr := List.filter f l.

Lemma filterAddrs_spec f l :
  exists rest, filterAddrs l f = (only f l, rest) /\ rest ≡ₚ only (fun a => negb (f a)) l.
Proof.
  assert (forall V U F R, R ≡ₚ only (fun a => negb (f a)) V -> F = only f V ->
    exists F' R', foldl (filter_step f) (F ++ R ++ U, length F) (seq (length F + length R) (length U)) = (F' ++ R', length F') /\
      F' = only f (V ++ U) /\ R' ≡ₚ only (fun a => negb (f a)) (V ++ U)) as H.
  { intros V U. revert V. induction U as [|a U IH]; intros V F R HR HF.
    - exists F, R. by rewrite !app_nil_r.
    - cbn [length seq foldl]. destruct (filter_step_inv f _ F R U a _ eq_refl eq_refl) as (F1 & R1 & -> & HF1 & HR1).
      destruct (IH (V ++ [a]) F1 R1) as (F' & R' & Hfold & HF' & HR').
      + rewrite HR1. unfold only. rewrite List.filter_app. cbn. destruct (f a); cbn; [by rewrite app_nil_r|]. by rewrite HR.
      + rewrite HF1, HF. unfold only. rewrite List.filter_app. cbn. destruct (f a); [done|by rewrite app_nil_r].
      + assert (length F1 + length R1 = S (length F + length R))%nat as El.
        { rewrite HF1, HR1. destruct (f a); rewrite length_app; cbn; lia. }
        rewrite El in Hfold. exists F', R'. rewrite <- app_assoc in HF', HR'. done. }
  destruct (H [] l [] []) as (F & R & Hfold & HF & HR); [done..|]. cbn in Hfold. exists R. unfold filterAddrs. rewrite Hfold.
  rewrite take_app_length, drop_app_length. by subst.
Qed.

Lemma only_split f l : only f l ++ only (fun a => negb (f a)) l ≡ₚ l.
Proof.
  induction l as [|a l IH]; [done|]. cbn. destruct (f a); cbn; [by constructor|]. by rewrite <- Permutation_middle, IH.
Qed.

Lemma only_elem f l a : a ∈ only f l <-> a ∈ l /\ f a = true.
Proof. unfold only. by rewrite !list_elem_of_In, List.filter_In. Qed.
End lists.

(** ** Nothing is lost *)

Section permutation.
Context (reg : registry) `{!SortSlice}.

Lemma eyeballs_quic_perm l : (eyeballs_quic reg l).2 ≡ₚ l.
Proof.
  unfold eyeballs_quic. destruct l as [|a l]; [done|]. destruct (_ && _); [|done].
  destruct (find_from _ 1 _) as [j|] eqn:E; [|done]. apply move_to_perm. by apply find_from_Some in E as [? _].
Qed.

Lemma eyeballs_tcp_perm k l : (eyeballs_tcp reg k l).2 ≡ₚ l.
Proof.
  unfold eyeballs_tcp. destruct (l !! k); [|done]. destruct (isProtocolAddr _ _ _); [|done].
  destruct (find_from _ _ _) as [j|] eqn:E; [|done]. apply move_to_perm. by apply find_from_Some in E as [? _].
Qed.

Lemma delay_loop_addrs hq ht k td qd od off i t0 last l :
  map fst (delay_loop reg hq ht k td qd od off i t0 last l) = l.
Proof.
  revert i t0 last. induction l as [|a l IH]; intros i t0 last; [done|]. cbn [delay_loop].
  destruct (isQUICAddr reg a); [|destruct (isProtocolAddr reg a P_TCP)]; cbn; by rewrite IH.
Qed.

Lemma getAddrDelay_perm l td qd od off : map fst (getAddrDelay reg l td qd od off) ≡ₚ l.
Proof.
  unfold getAddrDelay. destruct l as [|a l]; [done|]. set (s := sort_Slice (score reg) (a :: l)).
  pose proof (eyeballs_quic_perm s) as Hq. destruct (eyeballs_quic reg s) as [[hq i] l1]. set (k := default _ _).
  pose proof (eyeballs_tcp_perm k l1) as Ht. destruct (eyeballs_tcp reg k l1) as [ht l2]. rewrite delay_loop_addrs. cbn in Hq, Ht.
  rewrite Ht, Hq. apply sort_Slice_perm.
Qed.

(** The ranking dials every address once. *)
Theorem ranking_permutes addrs :
  map fst (DefaultDialRanker reg addrs) ≡ₚ addrs /\ map fst (NoDelayDialRanker reg addrs) ≡ₚ addrs.
Proof.
  split; [|apply getAddrDelay_perm]. unfold DefaultDialRanker.
  destruct (filterAddrs_spec (isRelayAddr reg) addrs) as (r1 & -> & H1). destruct (filterAddrs_spec (private reg) r1) as (r2 & -> & H2).
  destruct (filterAddrs_spec (ip_addr reg) r2) as (r3 & -> & H3). set (res := _ ++ _ ++ _). rewrite map_app. subst res.
  rewrite !map_app, !getAddrDelay_perm, map_map. cbn [fst]. rewrite map_id, H3.
  rewrite <- (only_split (isRelayAddr reg) addrs) at 2. rewrite <- H1.
  rewrite <- (only_split (private reg) r1) at 2. rewrite <- H2. rewrite <- (only_split (ip_addr reg) r2) at 3.
  solve_Permutation.
Qed.
End permutation.

(** ** The schedule of a group *)

Section schedule.
Context (reg : registry) `{!SortSlice}.

(** The transport of an address: QUIC, TCP or another. *)
Definition transport (a : Multiaddr) : Z := if isQUICAddr reg a then 0 else if isProtocolAddr reg a P_TCP then 1 else 2.

(** What addresses of transports look like: WebTransport runs over QUIC, no address is both
    QUIC and TCP, ports have 16 bits. *)
Definition plausible (a : Multiaddr) : bool :=
  implb (isProtocolAddr reg a P_WEBTRANSPORT) (isQUICAddr reg a) &&
  negb (isQUICAddr reg a && isProtocolAddr reg a P_TCP) &&
  (0 <=? port reg a P_UDP) && (port reg a P_UDP <? 65536) && (0 <=? port reg a P_TCP) && (port reg a P_TCP <? 65536).
Definition dialable (a : Multiaddr) : Prop :=
  (exists b, a = MBytes b /\ bytes_ok b /\ validateBytes reg b = None) /\ plausible a = true.

Context (Hreg : reg_ok reg).

Lemma isProtocolAddr_encode l p : Forall (good reg) l -> isProtocolAddr reg (MBytes (encode l)) p = has p l.
Proof.
  intros Hl. unfold isProtocolAddr. rewrite (ForEach_encode reg Hreg) by by apply good_readable. cbn [default].
  induction l as [|x l IH]; [done|]. apply Forall_cons_1 in Hl as [_ Hl]. cbn. destruct (p_Code x.1 =? p); [done|by apply IH].
Qed.

(** On validated bytes the two ways to look for a protocol agree. *)
Lemma protocol_validated b p :
  bytes_ok b -> validateBytes reg b = None ->
  isProtocolAddr reg (MBytes b) p = has_value reg (MBytes b) p.
Proof.
  intros Hb Hv. apply (valid_iff reg Hreg b Hb) in Hv as (l & (_ & Hl & _) & ->). rewrite isProtocolAddr_encode by done.
  unfold has_value, value_of. destruct (ValueForProtocol_encode reg Hreg l p Hl) as (r & -> & <-). by destruct r.
Qed.

(** The score orders the transports. *)
Lemma score_range a :
  dialable a ->
  (transport a = 0 -> 0 <= score reg a < 2 ^ 20) /\ (transport a = 1 -> 2 ^ 20 <= score reg a < 2 ^ 21) /\
  (transport a = 2 -> 2 ^ 21 <= score reg a).
Proof.
  intros [(b & -> & Hb & Hv) Hp]. unfold plausible in Hp. rewrite !andb_true_iff in Hp.
  destruct Hp as [[[[[Hw Hn] Hu0] Hu1] Ht0] Ht1]. unfold score, transport, isQUICAddr in *.
  change (Z.shiftl 1 18) with (2 ^ 18). set (w := if isProtocolAddr reg (MBytes b) P_IP4 then _ else _).
  assert (0 <= w <= 2 ^ 18) as Hw4 by (subst w; destruct (isProtocolAddr reg (MBytes b) P_IP4); lia).
  clearbody w.
  pose proof (fun p => protocol_validated b p Hb Hv) as E. rewrite !E in Hw, Hn |- *. clear E.
  change (Z.shiftl 1 19) with (2 ^ 19). change (Z.shiftl 1 17) with (2 ^ 17). change (Z.shiftl 1 20) with (2 ^ 20).
  change (Z.shiftl 1 21) with (2 ^ 21). change (Z.shiftl 1 30) with (2 ^ 30). bool_props.
  destruct (has_value reg (MBytes b) P_WEBTRANSPORT), (has_value reg (MBytes b) P_QUIC), (has_value reg (MBytes b) P_QUIC_V1), (has_value reg (MBytes b) P_TCP),
    (has_value reg (MBytes b) P_WEBRTC_DIRECT); cbn [implb negb andb orb] in *; try done; lia.
Qed.

Lemma transport_mono a b : dialable a -> dialable b -> score reg a <= score reg b -> transport a <= transport b.
Proof.
  intros Ha Hb Hle. destruct (score_range a Ha) as (A0 & A1 & A2). destruct (score_range b Hb) as (B0 & B1 & B2).
  assert (transport a = 0 \/ transport a = 1 \/ transport a = 2) as Hta by (unfold transport; repeat case_match; auto).
  assert (transport b = 0 \/ transport b = 1 \/ transport b = 2) as Htb by (unfold transport; repeat case_match; auto).
  destruct Hta as [Ea|[Ea|Ea]], Htb as [Eb|[Eb|Eb]]; rewrite Ea, Eb; try lia;
    try specialize (A0 Ea); try specialize (A1 Ea); try specialize (A2 Ea);
    try specialize (B0 Eb); try specialize (B1 Eb); try specialize (B2 Eb); lia.
Qed.

(** A sorted list is its QUIC addresses, its TCP addresses, and the others. *)
Lemma sorted_groups l :
  Forall dialable l -> StronglySorted Z.le (map (score reg) l) ->
  exists Q T O, l = Q ++ T ++ O /\ Forall (fun a => transport a = 0) Q /\ Forall (fun a => transport a = 1) T /\
    Forall (fun a => transport a = 2) O.
Proof.
  induction l as [|a l IH]; intros Hl Hs; [by exists [], [], []|].
  apply Forall_cons_1 in Hl as [Ha Hl]. cbn in Hs. apply StronglySorted_inv in Hs as [Hs Hmin].
  destruct (IH Hl Hs) as (Q & T & O & -> & HQ & HT & HO).
  assert (forall b, b ∈ Q ++ T ++ O -> transport a <= transport b) as Hle.
  { intros b Hb. apply transport_mono; [done|by rewrite Forall_forall in Hl; apply Hl|].
    rewrite Forall_forall in Hmin. apply Hmin. apply list_elem_of_fmap. by exists b. }
  assert (transport a = 0 \/ transport a = 1 \/ transport a = 2) as [E|[E|E]] by (unfold transport; repeat case_match; auto).
  - exists (a :: Q), T, O. by repeat constructor.
  - destruct Q as [|q Q]; [exists [], (a :: T), O; by repeat constructor|].
    apply Forall_cons_1 in HQ as [Hq _]. specialize (Hle q ltac:(by left)). lia.
  - destruct Q as [|q Q]; [|apply Forall_cons_1 in HQ as [Hq _]; specialize (Hle q ltac:(by left)); lia].
    destruct T as [|t T]; [exists [], [], (a :: O); by repeat constructor|].
    apply Forall_cons_1 in HT as [Ht _]. specialize (Hle t ltac:(by left)). lia.
Qed.

(** *** Happy eyeballs *)

Definition ip4 (a : Multiaddr) : bool := isProtocolAddr reg a P_IP4.
Definition ip6 (a : Multiaddr) : bool := isProtocolAddr reg a P_IP6.

(** The address with the least score comes first; after an IPv6 address comes the IPv4 address
    with the least score, if there is one. *)
Definition eyeballs (happy : bool) (l : list Multiaddr) : Prop :=
  match l with
  | [] => happy = false
  | a :: rest =>
      (forall b, b ∈ rest -> score reg a <= score reg b) /\
      if happy then
        ip6 a = true /\ exists b rest', rest = b :: rest' /\ ip4 b = true /\ forall c, c ∈ rest' -> ip4 c = true -> score reg b <= score reg c
      else ip6 a = true -> forall b, b ∈ rest -> ip4 b = false
  end.

(** The rearrangement of one group. *)
Definition eyeball_group (l : list Multiaddr) : bool * list Multiaddr :=
  match l with
  | a :: _ =>
      if ip6 a then match find_from ip4 1 l with Some j => (true, move_to 1 j l) | None => (false, l) end else (false, l)
  | [] => (false, l)
  end.

Lemma sorted_lookup l i j a b :
  StronglySorted Z.le (map (score reg) l) -> (i < j)%nat -> l !! i = Some a -> l !! j = Some b -> score reg a <= score reg b.
Proof.
  revert i j. induction l as [|x l IH]; intros i j Hs Hij Ha Hb; [done|]. cbn in Hs. apply StronglySorted_inv in Hs as [Hs Hmin].
  destruct j as [|j]; [lia|]. destruct i as [|i]; [|by apply (IH i j); [done|lia|..]]. simplify_eq/=.
  rewrite Forall_forall in Hmin. apply Hmin. apply list_elem_of_fmap. exists b. split; [done|]. by eapply list_elem_of_lookup_2.
Qed.

Lemma eyeball_group_ok l :
  StronglySorted Z.le (map (score reg) l) -> (eyeball_group l).2 ≡ₚ l /\ eyeballs (eyeball_group l).1 (eyeball_group l).2.
Proof.
  intros Hs. destruct l as [|a l]; [done|].
  assert (forall b, b ∈ l -> score reg a <= score reg b) as Hmin.
  { intros b Hb. apply list_elem_of_lookup in Hb as [i Hi]. by apply (sorted_lookup (a :: l) 0 (S i)); [done|lia|..]. }
  unfold eyeball_group. destruct (ip6 a) eqn:E6; [|by split; [done|split; [done|congruence]]].
  destruct (find_from ip4 1 (a :: l)) as [j|] eqn:Ej.
  - destruct (find_from_Some _ _ _ _ Ej) as (Hj & (b & Hb & H4) & Hno). split; [by apply move_to_perm|]. cbn [fst snd].
    destruct j as [|j]; [lia|]. unfold move_to. rewrite Hb. cbn in Hb. cbn [take drop app]. replace (S j - 1)%nat with j by lia.
    split; [|split; [done|]].
    + intros c Hc. apply Hmin. apply elem_of_cons in Hc as [->|Hc]; [by eapply list_elem_of_lookup_2|].
      apply elem_of_app in Hc as [Hc|Hc].
      * rewrite <- (take_drop j l), elem_of_app. by left.
      * rewrite <- (take_drop (S j) l), elem_of_app. by right.
    + eexists _, _. split_and!; [done..|]. intros c Hc Hc4. apply elem_of_app in Hc as [Hc|Hc].
      * apply list_elem_of_lookup in Hc as [i Hi]. apply lookup_take_Some in Hi as [Hi Hlt].
        specialize (Hno (S i) c ltac:(lia) Hi). congruence.
      * apply list_elem_of_lookup in Hc as [i Hi]. rewrite lookup_drop in Hi.
        apply (sorted_lookup (a :: l) (S j) (S (S j + i))); [done|lia|done|done].
  - split; [done|]. split; [done|]. intros _ b Hb. apply list_elem_of_lookup in Hb as [i Hi].
    by apply (find_from_None _ _ _ Ej (S i)); [lia|].
Qed.

Lemma eyeball_group_length l : length (eyeball_group l).2 = length l.
Proof.
  unfold eyeball_group. destruct l as [|a l]; [done|]. destruct (ip6 a); [|done]. destruct (find_from ip4 1 (a :: l)) as [j|] eqn:E; [|done].
  apply Permutation_length, move_to_perm. by apply find_from_Some in E as [? _].
Qed.

Lemma not_quic a : transport a <> 0 -> isQUICAddr reg a = false.
Proof. unfold transport. by destruct (isQUICAddr reg a). Qed.

(** The code rearranges the QUIC addresses, then the TCP addresses. *)
Lemma eyeballs_quic_group Q R :
  Forall (fun a => transport a = 0) Q -> Forall (fun a => transport a <> 0) R ->
  exists i, (i <= length Q)%nat /\ eyeballs_quic reg (Q ++ R) = ((eyeball_group Q).1, i, (eyeball_group Q).2 ++ R).
Proof.
  intros HQ HR. unfold eyeballs_quic. destruct Q as [|a Q].
  { exists 0%nat. split; [done|]. destruct R as [|b R]; [done|]. apply Forall_cons_1 in HR as [Hb _]. cbn [app]. by rewrite (not_quic b Hb). }
  assert (forall b, transport b = 0 -> isQUICAddr reg b = true) as Hq by (intros b; unfold transport; by repeat case_match).
  cbn [app]. rewrite (Hq a) by by apply Forall_cons_1 in HQ as [? _]. cbn [andb eyeball_group]. fold (ip6 a).
  destruct (ip6 a); [|exists 0%nat; split; [lia|done]]. rewrite app_comm_cons, find_from_app_l; [|eapply Forall_impl; [exact HR|]|cbn; lia].
  2:{ intros b Hb. cbn. by rewrite not_quic. }
  rewrite (find_from_ext _ ip4) by (eapply Forall_impl; [exact HQ|]; intros b Hb; cbn; by rewrite Hq).
  destruct (find_from ip4 1 (a :: Q)) as [j|] eqn:E; [|exists 0%nat; split; [lia|done]].
  destruct (find_from_Some _ _ _ _ E) as (Hj & (b & Hb & _) & _). apply lookup_lt_Some in Hb. exists (S j). split; [lia|].
  by rewrite move_to_app_l.
Qed.

Lemma is_tcp a : transport a = 1 -> isProtocolAddr reg a P_TCP = true.
Proof. unfold transport. by repeat case_match. Qed.

Lemma other_not_tcp a : transport a = 2 -> isProtocolAddr reg a P_TCP = false.
Proof. unfold transport. by repeat case_match. Qed.

Lemma quic_not_tcp a : dialable a -> transport a = 0 -> isProtocolAddr reg a P_TCP = false.
Proof.
  intros [_ Hp]. unfold plausible in Hp. rewrite !andb_true_iff in Hp. destruct Hp as [[[[[_ Hn] _] _] _] _].
  unfold transport. destruct (isQUICAddr reg a); [|by repeat case_match]. by destruct (isProtocolAddr reg a P_TCP).
Qed.

Lemma eyeballs_tcp_group Q T O :
  T <> [] -> Forall (fun a => transport a = 1) T -> Forall (fun a => transport a = 2) O ->
  eyeballs_tcp reg (length Q) (Q ++ T ++ O) = ((eyeball_group T).1, Q ++ (eyeball_group T).2 ++ O).
Proof.
  intros Hne HT HO. unfold eyeballs_tcp. destruct T as [|a T]; [done|]. cbn [app]. rewrite list_lookup_middle by done.
  cbn [eyeball_group]. fold (ip6 a). destruct (ip6 a); [|done]. rewrite app_comm_cons.
  replace (S (length Q)) with (length Q + 1)%nat by lia. rewrite find_from_skip, find_from_app_l; [|eapply Forall_impl; [exact HO|]|cbn; lia].
  2:{ intros b Hb. cbv beta. by rewrite other_not_tcp. }
  rewrite (find_from_ext _ ip4) by (eapply Forall_impl; [exact HT|]; intros b Hb; cbv beta; by rewrite is_tcp).
  destruct (find_from ip4 1 (a :: T)) as [j|] eqn:E; [|done]. cbn [fmap option_fmap option_map fst snd].
  destruct (find_from_Some _ _ _ _ E) as (Hj & (b & Hb & _) & _). apply lookup_lt_Some in Hb.
  by rewrite move_to_app_r, move_to_app_l.
Qed.

Lemma tcp_start Q T O i :
  Forall dialable Q -> Forall (fun a => transport a = 0) Q -> Forall (fun a => transport a = 1) T ->
  Forall (fun a => transport a = 2) O -> (i <= length Q)%nat ->
  default (length (Q ++ T ++ O)) (find_from (fun a => isProtocolAddr reg a P_TCP) i (Q ++ T ++ O)) =
    match T with [] => length (Q ++ T ++ O) | _ => length Q end.
Proof.
  intros Hd HQ HT HO Hi. rewrite find_from_app_r; [|eapply Forall_impl; [exact (proj2 (Forall_and _ _) (conj Hd HQ))|]|done].
  2:{ intros a [? ?]. by apply quic_not_tcp. }
  destruct T as [|t T]; cbn [app].
  - rewrite <- (app_nil_r O) at 2. rewrite find_from_app_r by (try (eapply Forall_impl; [exact HO|]; intros; by apply other_not_tcp); lia). done.
  - cbn [find_from]. apply Forall_cons_1 in HT as [Ht _]. rewrite is_tcp by done. cbn. lia.
Qed.

(** *** The delays *)

Definition times (happy : bool) (d base : Z) (n : nat) : list Z := map (fun i => base + stagger happy d 0 i) (seq 0 n).
Definition last_time (happy : bool) (d base prev : Z) (n : nat) : Z :=
  match n with O => prev | S n => base + stagger happy d 0 n end.

Section loop.
Context (hq ht : bool) (k : nat) (td qd od off : Z).
Notation loop := (delay_loop reg hq ht k td qd od off).

Lemma loop_quic Q R i t0 last :
  Forall (fun a => transport a = 0) Q ->
  loop i t0 last (Q ++ R) =
    zip Q (map (fun j => off + stagger hq qd 0 j) (seq i (length Q))) ++
    loop (i + length Q)%nat (match Q with [] => t0 | _ => stagger hq qd 0 (i + length Q - 1) + td end)
      (match Q with [] => last | _ => stagger hq qd 0 (i + length Q - 1) end) R.
Proof.
  intros HQ. revert i t0 last. induction HQ as [|a Q Ha _ IH]; intros i t0 last; cbn [app length seq map zip].
  - by rewrite Nat.add_0_r.
  - cbn [delay_loop]. replace (isQUICAddr reg a) with true by (unfold transport in Ha; by repeat case_match).
    rewrite IH. cbn [zip_with app]. f_equal. replace (S i + length Q)%nat with (i + S (length Q))%nat by lia. do 2 f_equal.
    all: destruct Q; [cbn; repeat f_equal; lia|done].
Qed.

Lemma loop_tcp T R i t0 last :
  Forall (fun a => transport a = 1) T ->
  loop i t0 last (T ++ R) =
    zip T (map (fun j => off + (stagger ht td k j + t0)) (seq i (length T))) ++
    loop (i + length T)%nat t0 (match T with [] => last | _ => stagger ht td k (i + length T - 1) + t0 end) R.
Proof.
  intros HT. revert i last. induction HT as [|a T Ha _ IH]; intros i last; cbn [app length seq map zip].
  - by rewrite Nat.add_0_r.
  - cbn [delay_loop]. rewrite not_quic, is_tcp by (done || congruence).
    rewrite IH. cbn [zip_with app]. f_equal. replace (S i + length T)%nat with (i + S (length T))%nat by lia. do 2 f_equal.
    destruct T; [cbn; repeat f_equal; lia|done].
Qed.

Lemma loop_other O i t0 last :
  Forall (fun a => transport a = 2) O -> loop i t0 last O = zip O (replicate (length O) (off + (last + od))).
Proof.
  intros HO. revert i. induction HO as [|a O Ha _ IH]; intros i; [done|]. cbn [delay_loop length replicate].
  rewrite not_quic, other_not_tcp by (done || congruence). by rewrite IH.
Qed.
End loop.

Lemma stagger_shift h d k j : stagger h d k (k + j) = stagger h d 0 j.
Proof.
  unfold stagger. replace (k + j =? k + 1)%nat with (j =? 0 + 1)%nat by (destruct (Nat.eqb_spec j (0 + 1)), (Nat.eqb_spec (k + j) (k + 1)); lia).
  by replace (k + 1 <? k + j)%nat with (0 + 1 <? j)%nat by (destruct (Nat.ltb_spec (0 + 1) j), (Nat.ltb_spec (k + 1) (k + j)); lia).
Qed.

Lemma zip_app' {A B} (l1 l2 : list A) (k1 k2 : list B) : length l1 = length k1 -> zip (l1 ++ l2) (k1 ++ k2) = zip l1 k1 ++ zip l2 k2.
Proof. intros Hlen. by apply zip_with_app. Qed.

(** The delays of the three parts of a group. *)
Definition group_times (hq ht : bool) (td qd od : Z) (nq nt no : nat) : list Z :=
  let lastQ := last_time hq qd 0 0 nq in
  let base := match nq with O => 0 | _ => lastQ + td end in
  times hq qd 0 nq ++ times ht td base nt ++ replicate no (last_time ht td base lastQ nt + od).

Lemma stagger_mono h d i j : 0 <= d -> (i <= j)%nat -> 0 <= stagger h d 0 i <= stagger h d 0 j.
Proof.
  intros Hd Hij. unfold stagger. destruct (Nat.eqb_spec i (0 + 1)), (Nat.eqb_spec j (0 + 1)), (Nat.ltb_spec (0 + 1) i), (Nat.ltb_spec (0 + 1) j), h; lia.
Qed.

Lemma times_bounds h d base n x : 0 <= d -> x ∈ times h d base n -> base <= x <= last_time h d base base n.
Proof.
  intros Hd Hx. apply list_elem_of_fmap in Hx as (i & -> & Hi). apply elem_of_seq in Hi. destruct n as [|n]; [lia|].
  cbn [last_time]. pose proof (stagger_mono h d i n Hd ltac:(lia)). lia.
Qed.

Lemma times_sorted h d base n : 0 <= d -> StronglySorted Z.le (times h d base n).
Proof.
  intros Hd. unfold times. enough (forall k, StronglySorted Z.le (map (fun i => base + stagger h d 0 i) (seq k n))) by done.
  induction n as [|n IH]; intros k; [constructor|]. cbn. constructor; [apply IH|].
  apply Forall_forall. intros x Hx. apply list_elem_of_fmap in Hx as (i & -> & Hi). apply elem_of_seq in Hi.
  pose proof (stagger_mono h d k i Hd ltac:(lia)). lia.
Qed.

Lemma group_times_sorted hq ht td qd od nq nt no :
  0 <= td -> 0 <= qd -> 0 <= od -> StronglySorted Z.le (group_times hq ht td qd od nq nt no).
Proof.
  intros Ht Hq Ho. unfold group_times. set (lastQ := last_time hq qd 0 0 nq). set (base := match nq with O => 0 | _ => _ end).
  assert (0 <= lastQ) by (subst lastQ; destruct nq as [|n]; cbn; [lia|]; pose proof (stagger_mono hq qd n n Hq ltac:(lia)); lia).
  assert (nq = O /\ lastQ = 0 /\ base = 0 \/ lastQ <= base) as Hbase by (subst lastQ base; destruct nq; [left; done|right; lia]).
  assert (forall x, x ∈ times hq qd 0 nq -> x <= base /\ x <= lastQ) as HQ.
  { intros x Hx. destruct Hbase as [(-> & _)|Hb]; [by apply elem_of_nil in Hx|]. pose proof (times_bounds _ _ _ _ _ Hq Hx). fold lastQ in H1. lia. }
  assert (lastQ <= last_time ht td base lastQ nt) as HL.
  { destruct nt as [|n]; cbn; [lia|]. pose proof (stagger_mono ht td n n Ht ltac:(lia)). lia. }
  apply StronglySorted_app. split_and!; [|by apply times_sorted|apply StronglySorted_app; split_and!; [|by apply times_sorted|]].
  - intros x y Hx Hy. destruct (HQ x Hx). apply elem_of_app in Hy as [Hy|Hy]; [pose proof (times_bounds _ _ _ _ _ Ht Hy); lia|].
    apply elem_of_replicate in Hy as [-> _]. lia.
  - intros x y Hx Hy. apply elem_of_replicate in Hy as [-> _]. pose proof (times_bounds _ _ _ _ _ Ht Hx).
    destruct nt; [by apply elem_of_nil in Hx|]. cbn [last_time] in *. lia.
  - induction no as [|no IH]; [constructor|]. cbn. constructor; [apply IH|]. apply Forall_forall. intros x Hx.
    apply elem_of_replicate in Hx as [-> _]. lia.
Qed.

Lemma loop_schedule hq ht td qd od off Q T O :
  Forall (fun a => transport a = 0) Q -> Forall (fun a => transport a = 1) T -> Forall (fun a => transport a = 2) O ->
  delay_loop reg hq ht (match T with [] => length (Q ++ T ++ O) | _ => length Q end) td qd od off 0 0 0 (Q ++ T ++ O) =
    zip (Q ++ T ++ O) (map (Z.add off) (group_times hq ht td qd od (length Q) (length T) (length O))).
Proof.
  intros HQ HT HO. rewrite loop_quic, loop_tcp, loop_other by done. unfold group_times. rewrite !map_app, !zip_app';
    [|by unfold times; rewrite !length_map, length_seq..]. f_equal; [|f_equal].
  - f_equal. unfold times. by rewrite map_map.
  - destruct T as [|t T]; [done|]. f_equal. unfold times. rewrite map_map. replace (0 + length Q)%nat with (length Q + 0)%nat by lia. rewrite <- (fmap_add_seq (length Q)).
    change (fmap (M := list) ?f) with (map f). rewrite map_map. apply map_ext. intros j. rewrite stagger_shift.
    destruct Q as [|q Q]; cbn [length last_time]; [lia|]. replace (S (length Q) + 0 - 1)%nat with (length Q) by lia. lia.
  - f_equal. rewrite (fmap_replicate (Z.add off)). do 2 f_equal. destruct T as [|t T]; cbn [length last_time].
    + destruct Q as [|q Q]; cbn [length last_time]; [done|]. replace (0 + S (length Q) - 1)%nat with (length Q) by lia. lia.
    + replace (0 + length Q + S (length T) - 1)%nat with (length Q + length T)%nat by lia. rewrite stagger_shift.
      destruct Q as [|q Q]; cbn [length last_time]; [lia|]. replace (0 + S (length Q) - 1)%nat with (length Q) by lia. lia.
Qed.

Lemma others_only hq ht td qd od off (O : list Multiaddr) :
  zip ([] ++ [] ++ O) (map (Z.add off) (group_times hq ht td qd od (length (@nil Multiaddr)) (length (@nil Multiaddr)) (length O))) =
  map (fun a => (a, off + od)) O.
Proof. unfold group_times. cbn. induction O as [|a O IH]; [done|]. cbn. f_equal. exact IH. Qed.

(** C32: A group is dialled in the order QUIC, TCP, others.  The QUIC and the TCP addresses have their
    best address first and the best IPv4 address right after a leading IPv6 one; the others are in
    the order of their scores.  The second dial of QUIC and of TCP waits one delay and the later ones one
    more after an IPv6 and IPv4 pair; TCP starts a delay after the last QUIC dial.  The others are all
    dialled one (other) delay after the last of both, and after that same delay when there are neither
    QUIC nor TCP addresses.  The delays do not decrease. *)
Theorem group_schedule addrs td qd od off :
  Forall dialable addrs -> addrs <> [] ->
  exists Q T O hq ht,
    Q ++ T ++ O ≡ₚ addrs /\
    Forall (fun a => transport a = 0) Q /\ Forall (fun a => transport a = 1) T /\ Forall (fun a => transport a = 2) O /\
    eyeballs hq Q /\ eyeballs ht T /\ StronglySorted Z.le (map (score reg) O) /\
    getAddrDelay reg addrs td qd od off =
      zip (Q ++ T ++ O) (map (Z.add off) (group_times hq ht td qd od (length Q) (length T) (length O))) /\
    (Q = [] -> T = [] -> getAddrDelay reg addrs td qd od off = map (fun a => (a, off + od)) O) /\
    (0 <= td -> 0 <= qd -> 0 <= od -> StronglySorted Z.le (group_times hq ht td qd od (length Q) (length T) (length O))).
Proof.
  intros Hd Hne. unfold getAddrDelay. destruct addrs as [|a0 l0] eqn:Eaddrs; [done|]. rewrite <- Eaddrs in *. clear Eaddrs a0 l0 Hne.
  pose proof (sort_Slice_perm (score reg) addrs) as Hp. pose proof (sort_Slice_sorted (score reg) addrs) as Hs.
  set (srt := sort_Slice (score reg) addrs) in *. clearbody srt. rewrite <- Hp in Hd.
  destruct (sorted_groups srt Hd Hs) as (Q & T & O & -> & HQ & HT & HO).
  rewrite !map_app in Hs. apply StronglySorted_app in Hs as (_ & HsQ & Hs). apply StronglySorted_app in Hs as (_ & HsT & HsO).
  destruct (eyeballs_quic_group Q (T ++ O) HQ) as (i & Hi & ->).
  { apply Forall_app. split; [eapply Forall_impl; [exact HT|]|eapply Forall_impl; [exact HO|]]; intros b Hb; cbn in Hb; lia. }
  destruct (eyeball_group_ok Q HsQ) as [HpQ HeQ]. destruct (eyeball_group_ok T HsT) as [HpT HeT].
  rewrite <- (eyeball_group_length Q) in Hi. set (Q' := (eyeball_group Q).2) in *. rewrite <- HpQ in HQ.
  assert (Forall dialable Q') as HdQ by (rewrite HpQ; by apply Forall_app in Hd as [? _]).
  rewrite tcp_start by done. set (T' := (eyeball_group T).2) in *. exists Q', T', O, (eyeball_group Q).1, (eyeball_group T).1.
  rewrite <- HpT in HT. match goal with |- context [?X = zip _ _] => set (D := X) end.
  assert (D = zip (Q' ++ T' ++ O) (map (Z.add off) (group_times (eyeball_group Q).1 (eyeball_group T).1 td qd od (length Q') (length T') (length O)))) as HD.
  2:{ split_and!; [by rewrite HpQ, HpT|done..|intros E1 E2; rewrite HD, E1, E2; apply others_only|intros; by apply group_times_sorted]. }
  unfold D. clear D. destruct T as [|t T]; [|rewrite eyeballs_tcp_group by (done || by rewrite <- HpT)].
  - unfold eyeballs_tcp. rewrite lookup_ge_None_2 by done. by apply (loop_schedule _ _ _ _ _ _ Q' [] O).
  - fold T'. rewrite <- loop_schedule by done. assert (length T' = S (length T)) as Hl by apply eyeball_group_length. by destruct T'.
Qed.

(** *** The groups *)

Lemma delay_loop_from hq ht k td qd od off i t0 last l a d :
  0 <= td -> 0 <= qd -> 0 <= od -> 0 <= t0 -> 0 <= last ->
  (a, d) ∈ delay_loop reg hq ht k td qd od off i t0 last l -> off <= d.
Proof.
  intros Htd Hqd Hod. revert i t0 last. induction l as [|b l IH]; intros i t0 last Ht0 Hl Hin; [by apply elem_of_nil in Hin|].
  assert (forall h x k, 0 <= x -> 0 <= stagger h x k i) as Hst by (intros h x k' Hx; unfold stagger; repeat case_match; lia).
  pose proof (Hst hq qd 0%nat Hqd). pose proof (Hst ht td k Htd). cbn [delay_loop] in Hin.
  destruct (isQUICAddr reg b); [|destruct (isProtocolAddr reg b P_TCP)]; apply elem_of_cons in Hin as [Hin|Hin]; simplify_eq;
    try lia; (eapply IH; [| |exact Hin]; lia).
Qed.

Lemma getAddrDelay_from l td qd od off a d :
  0 <= td -> 0 <= qd -> 0 <= od -> (a, d) ∈ getAddrDelay reg l td qd od off -> a ∈ l /\ off <= d.
Proof.
  intros Htd Hqd Hod Hin. split.
  - rewrite <- (getAddrDelay_perm reg l td qd od off). apply list_elem_of_fmap. by exists (a, d).
  - unfold getAddrDelay in Hin. destruct l as [|b l]; [by apply elem_of_nil in Hin|].
    destruct (eyeballs_quic reg _) as [[hq i] l1]. destruct (eyeballs_tcp reg _ _) as [ht l2].
    by apply delay_loop_from in Hin.
Qed.

(** Where there is a public direct address, addresses through a relay wait for
    [RelayDelay], and addresses without an IP address wait for [PublicOtherDelay]. *)
Theorem relays_wait addrs a d :
  (a, d) ∈ DefaultDialRanker reg addrs ->
  (isRelayAddr reg a = true ->
   (exists b, b ∈ addrs /\ isRelayAddr reg b = false /\ private reg b = false /\ ip_addr reg b = true) -> RelayDelay <= d) /\
  (isRelayAddr reg a = false -> private reg a = false -> ip_addr reg a = false -> PublicOtherDelay <= d).
Proof.
  unfold DefaultDialRanker.
  destruct (filterAddrs_spec (isRelayAddr reg) addrs) as (r1 & -> & H1). destruct (filterAddrs_spec (private reg) r1) as (r2 & -> & H2).
  destruct (filterAddrs_spec (ip_addr reg) r2) as (r3 & -> & H3).
  set (pub := only (ip_addr reg) r2). set (rel := only (isRelayAddr reg) addrs). set (pvt := only (private reg) r1).
  assert (forall x, x ∈ r2 -> isRelayAddr reg x = false /\ private reg x = false) as Hr2.
  { intros x Hx. rewrite H2 in Hx. apply only_elem in Hx as [Hx Hp]. rewrite H1 in Hx. apply only_elem in Hx as [_ Hr].
    apply negb_true_iff in Hp, Hr. done. }
  set (offset := if (0 <? length pub)%nat then RelayDelay else 0). set (res := _ ++ _ ++ _).
  assert (forall b e, (b, e) ∈ res -> 0 <= e /\ (isRelayAddr reg b = true -> offset <= e) /\
    (private reg b = true \/ ip_addr reg b = true \/ isRelayAddr reg b = true)) as Hres.
  { assert (0 <= offset) by (subst offset; case_match; unfold RelayDelay, Millisecond; lia).
    intros b e Hb. subst res. rewrite !elem_of_app in Hb.
    destruct Hb as [Hb|[Hb|Hb]]; apply getAddrDelay_from in Hb as [Hin Hle]; try done; apply only_elem in Hin as [Hin Hf]; split_and!; auto; try lia.
    - rewrite H1 in Hin. apply only_elem in Hin as [_ Hr]. apply negb_true_iff in Hr. congruence.
    - destruct (Hr2 b Hin). congruence. }
  assert (0 <= default 0 (snd <$> last res)) as Hmax.
  { destruct (last res) as [[b e]|] eqn:El; [|done]. cbn. apply last_Some_elem_of in El. by destruct (Hres b e El). }
  intros Hin. rewrite elem_of_app in Hin. destruct Hin as [Hin|Hin].
  - destruct (Hres a d Hin) as (_ & Hrel & Hcls). split; [|intros ???; destruct Hcls as [?|[?|?]]; congruence].
    intros Hr (b & Hb & Hbr & Hbp & Hbi). specialize (Hrel Hr). subst offset.
    assert (b ∈ pub) as Hbpub by (apply only_elem; rewrite H2, only_elem, H1, only_elem, Hbr, Hbp; auto).
    destruct pub; [by apply elem_of_nil in Hbpub|]. done.
  - apply list_elem_of_fmap in Hin as (b & [= -> ->] & Hb). split; [|intros; lia].
    intros Hr. rewrite H3 in Hb. apply only_elem in Hb as [Hb _]. destruct (Hr2 b Hb). congruence.
Qed.
End schedule.

(** ** Examples *)

#[local] Existing Instance insertionSort.

Module RankDemo.
Definition protos : list Protocol :=
  [proto "udp" P_UDP 16 false (Some TranscoderPort); proto "webrtc-direct" P_WEBRTC_DIRECT 0 false None;
   proto "p2p-circuit" P_CIRCUIT 0 false None; proto "dns4" P_DNS4 (-1) false (Some TranscoderDns)].
Definition reg : registry := match add_all protos MaDemo.reg with Some r => r | None => MaDemo.reg end.
Definition addr (s : string) : Multiaddr := match NewMultiaddr reg (str s) with Ok m => m | Err _ => MBytes [] end.
Definition ms (l : list (Multiaddr * Z)) : list Z := map (fun x => x.2 / Millisecond) l.

Lemma rank_protos_ok : Forall proto_ok protos.
Proof.
  unfold protos. repeat constructor; cbn [proto p_Code p_VCode p_Name p_Size p_Path p_Transcoder]; try done;
    try (intros _; eexists; split; [done|auto with lawful]);
    cbn; intros Hin; repeat (apply elem_of_cons in Hin as [?|Hin]; [done|]); by apply elem_of_nil in Hin.
Qed.

Lemma rank_reg_ok : reg_ok reg.
Proof. apply (add_all_ok protos MaDemo.reg); [apply rank_protos_ok|apply MaDemo.reg_is_ok|reflexivity]. Qed.

Definition tcp6 : Multiaddr := Eval vm_compute in addr "/ip6/2001:4860::1/tcp/80".
Definition quic6 : Multiaddr := Eval vm_compute in addr "/ip6/2001:4860::1/udp/80/quic-v1".
Definition quic4 : Multiaddr := Eval vm_compute in addr "/ip4/8.8.8.8/udp/80/quic-v1".
Definition quic4' : Multiaddr := Eval vm_compute in addr "/ip4/8.8.8.8/udp/81/quic-v1".
Definition tcp4 : Multiaddr := Eval vm_compute in addr "/ip4/8.8.8.8/tcp/80".
Definition lan : Multiaddr := Eval vm_compute in addr "/ip4/10.0.0.1/tcp/80".
Definition webrtc : Multiaddr := Eval vm_compute in addr "/ip4/8.8.8.8/udp/80/webrtc-direct".
Definition relayed : Multiaddr := Eval vm_compute in addr "/ip4/8.8.8.8/udp/80/quic-v1/p2p-circuit".
Definition named : Multiaddr := Eval vm_compute in addr "/dns4/a/tcp/80".

Lemma demo_dialable : Forall (dialable reg) [webrtc; tcp6; quic4; quic6].
Proof.
  assert (forall b, bool_decide (bytes_ok b) && bool_decide (validateBytes reg b = None) && plausible reg (MBytes b) = true ->
    dialable reg (MBytes b)) as H.
  { intros b H. rewrite !andb_true_iff, !bool_decide_eq_true in H. destruct H as [[? ?] ?]. split; [by exists b|done]. }
  apply Forall_cons. split; [apply H; vm_compute; reflexivity|]. apply Forall_cons. split; [apply H; vm_compute; reflexivity|].
  apply Forall_cons. split; [apply H; vm_compute; reflexivity|]. apply Forall_singleton. apply H. vm_compute. reflexivity.
Qed.

Lemma happy : getAddrDelay reg [tcp6; quic4; quic6] 30 20 100 0 = [(quic6, 0); (quic4, 20); (tcp6, 50)].
Proof. vm_compute. reflexivity. Qed.
End RankDemo.

(** The IPv6 QUIC address, the IPv4 one 20 later, TCP 30 after it, WebRTC 100 after that. *)
Lemma group_schedule_witness :
  getAddrDelay RankDemo.reg [RankDemo.webrtc; RankDemo.tcp6; RankDemo.quic4; RankDemo.quic6] 30 20 100 0 =
    [(RankDemo.quic6, 0); (RankDemo.quic4, 20); (RankDemo.tcp6, 50); (RankDemo.webrtc, 150)] /\
  exists Q T O hq ht,
    Q ++ T ++ O ≡ₚ [RankDemo.webrtc; RankDemo.tcp6; RankDemo.quic4; RankDemo.quic6] /\
    eyeballs RankDemo.reg hq Q /\ eyeballs RankDemo.reg ht T /\
    getAddrDelay RankDemo.reg [RankDemo.webrtc; RankDemo.tcp6; RankDemo.quic4; RankDemo.quic6] 30 20 100 0 =
      zip (Q ++ T ++ O) (map (Z.add 0) (group_times hq ht 30 20 100 (length Q) (length T) (length O))) /\
    StronglySorted Z.le (group_times hq ht 30 20 100 (length Q) (length T) (length O)).
Proof.
  split; [vm_compute; reflexivity|].
  destruct (group_schedule RankDemo.reg RankDemo.rank_reg_ok [RankDemo.webrtc; RankDemo.tcp6; RankDemo.quic4; RankDemo.quic6] 30 20 100 0
    RankDemo.demo_dialable ltac:(discriminate)) as (Q & T & O & hq & ht & Hp & _ & _ & _ & HQ & HT & _ & HD & _ & HS).
  exists Q, T, O, hq, ht. refine (conj Hp (conj HQ (conj HT (conj HD (HS _ _ _))))); discriminate.
Defined.

Lemma relays_wait_witness : RelayDelay <= 500000000.
Proof.
  apply (relays_wait RankDemo.reg [RankDemo.relayed; RankDemo.quic4] RankDemo.relayed).
  - apply elem_of_cons. right. apply elem_of_cons. left. vm_compute. reflexivity.
  - vm_compute. reflexivity.
  - exists RankDemo.quic4. split; [apply elem_of_cons; right; apply elem_of_cons; left; reflexivity|].
    split; [|split]; vm_compute; reflexivity.
Defined.

(** A WebRTC address waits for a second though it is the only one. *)
Lemma only_other_waits : RankDemo.ms (DefaultDialRanker RankDemo.reg [RankDemo.webrtc]) = [1000].
Proof. vm_compute. reflexivity. Qed.

(** A direct address in the local network does not delay the relay. *)
Lemma private_no_relay_delay :
  DefaultDialRanker RankDemo.reg [RankDemo.lan; RankDemo.relayed] = [(RankDemo.lan, 0); (RankDemo.relayed, 0)].
Proof. vm_compute. reflexivity. Qed.

(** The address with a name is dialled before a public address of the list: the delay of the
    last address is not the greatest. *)
Lemma last_not_greatest :
  RankDemo.ms (DefaultDialRanker RankDemo.reg
    [RankDemo.quic4; RankDemo.quic4'; RankDemo.quic6; RankDemo.tcp6; RankDemo.tcp4; RankDemo.webrtc; RankDemo.relayed; RankDemo.named]) =
    [0; 250; 500; 750; 1000; 2000; 500; 1500].
Proof. vm_compute. reflexivity. Qed.
