(* ===== verification/BlackHole.v ===== *)
(** * The black hole detector (src/p2p/net/swarm/black_hole_detector.go)

    A counter judges a transport by its last [N] dials; the detector filters addresses with a
    counter for UDP and one for IPv6.  The counters hold numbers of calls and do not overflow; metrics
    and logs are left out.  [None] is a panic: the division by [N] = 0. *)

From stdpp Require Import base gmap list numbers strings.
From Stdlib Require Import ZArith Lia.
From S2P Require Import Prelude GoText Base58 Transcoders Multiaddr MultiaddrSpec MultiaddrText DialLimiter PublicAddr DialRanker.

(** ** The counter *)

Inductive BlackHoleState := blackHoleStateProbing | blackHoleStateAllowed | blackHoleStateBlocked.
#[export] Instance BlackHoleState_eq_dec : EqDecision BlackHoleState.
Proof. solve_decision. Defined.

Record BlackHoleSuccessCounter := mkCounter {
  bh_N : Z;
  MinSuccesses : Z;
  bh_requests : Z;
  dialResults : list bool;
  successes : Z;
  bh_state : BlackHoleState
}.
Definition new_counter (n min : Z) : BlackHoleSuccessCounter := mkCounter n min 0 [] 0 blackHoleStateProbing.

Definition updateState (b : BlackHoleSuccessCounter) : BlackHoleSuccessCounter :=
  mkCounter (bh_N b) (MinSuccesses b) (bh_requests b) (dialResults b) (successes b)
    (if Z.of_nat (length (dialResults b)) <? bh_N b then blackHoleStateProbing
     else if MinSuccesses b <=? successes b then blackHoleStateAllowed
     else blackHoleStateBlocked).
Definition reset (b : BlackHoleSuccessCounter) : BlackHoleSuccessCounter :=
  updateState (mkCounter (bh_N b) (MinSuccesses b) 0 [] 0 (bh_state b)).

Definition RecordResult (success : bool) (b : BlackHoleSuccessCounter) : BlackHoleSuccessCounter :=
  if bool_decide (bh_state b = blackHoleStateBlocked) && success then reset b
  else
    let n := if success then successes b + 1 else successes b in
    let results := dialResults b ++ [success] in
    let '(n, results) :=
      if bh_N b <? Z.of_nat (length results) then
        match results with
        | oldest :: results => (if oldest then n - 1 else n, results)
        | [] => (n, results)
        end
      else (n, results) in
    updateState (mkCounter (bh_N b) (MinSuccesses b) (bh_requests b) results n (bh_state b)).

Definition HandleRequest (b : BlackHoleSuccessCounter) : option (BlackHoleState * BlackHoleSuccessCounter) :=
  let b := mkCounter (bh_N b) (MinSuccesses b) (bh_requests b + 1) (dialResults b) (successes b) (bh_state b) in
  match bh_state b with
  | blackHoleStateAllowed => Some (blackHoleStateAllowed, b)
  | blackHoleStateProbing => Some (blackHoleStateProbing, b)
  | blackHoleStateBlocked =>
      if bh_N b =? 0 then None
      else Some (if Z.rem (bh_requests b) (bh_N b) =? 0 then blackHoleStateProbing else blackHoleStateBlocked, b)
  end.

(** ** The detector *)

Record blackHoleDetector := mkDetector {
  d_udp : option BlackHoleSuccessCounter;
  d_ipv6 : option BlackHoleSuccessCounter;
  d_readOnly : bool
}.

Definition getFilterState (readOnly : bool) (f : BlackHoleSuccessCounter) : option (BlackHoleState * BlackHoleSuccessCounter) :=
  if readOnly then
    Some (if bool_decide (bh_state f = blackHoleStateAllowed) then blackHoleStateAllowed else blackHoleStateBlocked, f)
  else HandleRequest f.

Section detector.
Context (reg : registry).

Definition public (a : Multiaddr) : bool := default false (IsPublicAddr reg a).
Definition is_udp (a : Multiaddr) : bool := isProtocolAddr reg a P_UDP.
Definition is_ipv6 (a : Multiaddr) : bool := isProtocolAddr reg a P_IP6.

(** The state of a counter where there is one and an address needs it. *)
Definition consult (readOnly needed : bool) (f : option BlackHoleSuccessCounter) :
    option (BlackHoleState * option BlackHoleSuccessCounter) :=
  match f with
  | Some f =>
      if needed then match getFilterState readOnly f with Some (st, f) => Some (st, Some f) | None => None end
      else Some (blackHoleStateAllowed, Some f)
  | None => Some (blackHoleStateAllowed, None)
  end.

(** Whether an address stays. *)
Definition keep (udpRes ipv6Res : BlackHoleState) (a : Multiaddr) : bool :=
  if negb (public a) then true
  else if bool_decide (udpRes = blackHoleStateProbing) && is_udp a then true
  else if bool_decide (ipv6Res = blackHoleStateProbing) && is_ipv6 a then true
  else if bool_decide (udpRes = blackHoleStateBlocked) && is_udp a then false
  else negb (bool_decide (ipv6Res = blackHoleStateBlocked) && is_ipv6 a).

(** The addresses that stay, in order, and those in a black hole.  The closure that filters appends
    to the second result, which the compiler reads after the call. *)
Definition FilterAddrs (addrs : list Multiaddr) (d : blackHoleDetector) :
    option (list Multiaddr * list Multiaddr * blackHoleDetector) :=
  let hasUDP := existsb (fun a => public a && is_udp a) addrs in
  let hasIPv6 := existsb (fun a => public a && is_ipv6 a) addrs in
  match consult (d_readOnly d) hasUDP (d_udp d) with
  | None => None
  | Some (udpRes, udp) =>
      match consult (d_readOnly d) hasIPv6 (d_ipv6 d) with
      | None => None
      | Some (ipv6Res, ipv6) =>
          Some (only (keep udpRes ipv6Res) addrs, only (fun a => negb (keep udpRes ipv6Res a)) addrs,
                mkDetector udp ipv6 (d_readOnly d))
      end
  end.

Definition detector_RecordResult (addr : Multiaddr) (success : bool) (d : blackHoleDetector) : blackHoleDetector :=
  if d_readOnly d || negb (public addr) then d
  else mkDetector (if is_udp addr then RecordResult success <$> d_udp d else d_udp d)
                  (if is_ipv6 addr then RecordResult success <$> d_ipv6 d else d_ipv6 d) (d_readOnly d).
End detector.

(** ** The counter looks at the last results *)

(** The last [n] elements. *)
Definition lastn {A} (n : nat) (l : list A) : list A := drop (length l - n) l.

Lemma lastn_snoc {A} n (l : list A) x :
  lastn n (l ++ [x]) = if (n <? length (lastn n l ++ [x]))%nat then drop 1 (lastn n l ++ [x]) else lastn n l ++ [x].
Proof.
  unfold lastn. rewrite !length_app, length_drop. cbn [length].
  destruct (Nat.ltb_spec n (length l - (length l - n) + 1)) as [H|H].
  - destruct (decide (n = 0%nat)) as [->|Hn].
    + rewrite !Nat.sub_0_r, (drop_ge l), (drop_ge (l ++ [x])) by (rewrite ?length_app; cbn; lia). done.
    + replace (length l + 1 - n)%nat with (length l - n + 1)%nat by lia. rewrite <- drop_drop, drop_app_le by lia. done.
  - rewrite drop_app_le by lia. do 2 f_equal. lia.
Qed.

Lemma lastn_length {A} n (l : list A) : length (lastn n l) = Nat.min n (length l).
Proof. unfold lastn. rewrite length_drop. lia. Qed.

Section window.
Context (n : nat) (min : Z) (Hn : (0 < n)%nat).

(** The state, from the results since the last reset. *)
Definition judge (h : list bool) : BlackHoleState :=
  if (length h <? n)%nat then blackHoleStateProbing
  else if min <=? tally id (lastn n h) then blackHoleStateAllowed
  else blackHoleStateBlocked.
Definition sp_record (h : list bool) (success : bool) : list bool :=
  if bool_decide (judge h = blackHoleStateBlocked) && success then [] else h ++ [success].

Record counts (h : list bool) (b : BlackHoleSuccessCounter) : Prop := {
  ct_N : bh_N b = Z.of_nat n;
  ct_min : MinSuccesses b = min;
  ct_results : dialResults b = lastn n h;
  ct_successes : successes b = tally id (lastn n h);
  ct_state : bh_state b = judge h;
  ct_requests : 0 <= bh_requests b
}.

Lemma updateState_counts h b :
  bh_N b = Z.of_nat n -> MinSuccesses b = min -> dialResults b = lastn n h -> successes b = tally id (lastn n h) ->
  0 <= bh_requests b -> counts h (updateState b).
Proof.
  intros H1 H2 H3 H4 H5. constructor; try done. cbn. unfold judge. rewrite H1, H2, H3, H4, lastn_length.
  destruct (Nat.ltb_spec (length h) n), (Z.ltb_spec (Z.of_nat (Nat.min n (length h))) (Z.of_nat n)); done || lia.
Qed.

Lemma new_counts : counts [] (new_counter (Z.of_nat n) min).
Proof. constructor; try done. unfold judge. by destruct n; [lia|]. Qed.

Lemma RecordResult_counts h b success : counts h b -> counts (sp_record h success) (RecordResult success b).
Proof.
  intros [H1 H2 H3 H4 H5 H6]. unfold RecordResult, sp_record. rewrite H5. destruct (bool_decide _ && success).
  { by apply updateState_counts. }
  rewrite H1, H3. assert ((Z.of_nat n <? Z.of_nat (length (lastn n h ++ [success]))) = (n <? length (lastn n h ++ [success]))%nat) as ->.
  { destruct (Nat.ltb_spec n (length (lastn n h ++ [success]))), (Z.ltb_spec (Z.of_nat n) (Z.of_nat (length (lastn n h ++ [success])))); done || lia. }
  pose proof (lastn_snoc n h success) as El. pose proof (tally_app id (lastn n h) [success]) as Et. cbn [tally] in Et.
  destruct (n <? length (lastn n h ++ [success]))%nat eqn:E.
  - destruct (lastn n h ++ [success]) as [|oldest rest] eqn:Er; [by destruct (lastn n h)|]. cbn [drop] in El.
    apply updateState_counts; cbn [bh_N MinSuccesses dialResults successes bh_requests]; [done..|by rewrite El| |done].
    rewrite El, H4. rewrite tally_cons in Et. unfold id in *. change (drop 0 rest) with rest. destruct oldest, success; lia.
  - apply updateState_counts; cbn [bh_N MinSuccesses dialResults successes bh_requests]; [done..|by rewrite El| |done].
    rewrite El, Et, H4. unfold id. destruct success; lia.
Qed.

Lemma HandleRequest_counts h b :
  counts h b ->
  exists b', HandleRequest b =
      Some (if bool_decide (judge h = blackHoleStateBlocked) && ((bh_requests b + 1) mod Z.of_nat n =? 0) then blackHoleStateProbing
            else judge h, b') /\
    counts h b' /\ bh_requests b' = bh_requests b + 1.
Proof.
  intros [H1 H2 H3 H4 H5 H6]. unfold HandleRequest. cbn [bh_state bh_N bh_requests]. rewrite H5, H1.
  replace (Z.of_nat n =? 0) with false by zbool. rewrite Z.rem_mod_nonneg by lia.
  destruct (judge h) eqn:Ej; cbn [andb bool_decide decide_rel BlackHoleState_eq_dec];
    (eexists; split; [reflexivity|split; [|done]]); constructor; cbn; try done; lia || congruence.
Qed.

(** ** Runs of the counter *)

Inductive counter_op := OpRecord (success : bool) | OpRequest.
Fixpoint run_counter (ops : list counter_op) (b : BlackHoleSuccessCounter) : option BlackHoleSuccessCounter :=
  match ops with
  | [] => Some b
  | OpRecord success :: ops => run_counter ops (RecordResult success b)
  | OpRequest :: ops => match HandleRequest b with Some (_, b) => run_counter ops b | None => None end
  end.
Definition history (ops : list counter_op) (h : list bool) : list bool :=
  foldl (fun h op => match op with OpRecord success => sp_record h success | OpRequest => h end) h ops.

Lemma run_counts ops h b : counts h b -> exists b', run_counter ops b = Some b' /\ counts (history ops h) b'.
Proof.
  revert h b. induction ops as [|op ops IH]; intros h b H; [by exists b|]. destruct op as [success|]; cbn [run_counter].
  - by apply IH, RecordResult_counts.
  - destruct (HandleRequest_counts h b H) as (b' & -> & H' & _). by apply IH.
Qed.

(** C33: The counter never panics and implements the window: after any calls its state is that of
    the last [n] results since the last reset, a success in the blocked state being the reset. *)
Theorem counter_refines ops :
  exists b, run_counter ops (new_counter (Z.of_nat n) min) = Some b /\ bh_state b = judge (history ops []) /\
    dialResults b = lastn n (history ops []) /\ successes b = tally id (lastn n (history ops [])).
Proof.
  destruct (run_counts ops [] _ new_counts) as (b & -> & [_ _ H1 H2 H3 _]). exists b. done.
Qed.

(** The answers to requests in a row. *)
Fixpoint answers (k : nat) (b : BlackHoleSuccessCounter) : option (list BlackHoleState) :=
  match k with
  | O => Some []
  | S k =>
      match HandleRequest b with
      | Some (st, b) => match answers k b with Some sts => Some (st :: sts) | None => None end
      | None => None
      end
  end.

Lemma answers_blocked k h b :
  counts h b -> judge h = blackHoleStateBlocked ->
  exists sts, answers k b = Some sts /\ length sts = k /\
    forall i, (i < k)%nat ->
      sts !! i = Some (if (bh_requests b + 1 + Z.of_nat i) mod Z.of_nat n =? 0 then blackHoleStateProbing else blackHoleStateBlocked).
Proof.
  revert b. induction k as [|k IH]; intros b H Hj; [exists []; split_and!; [done..|lia]|]. cbn [answers].
  destruct (HandleRequest_counts h b H) as (b' & -> & H' & Hr). rewrite Hj. cbn [bool_decide decide_rel BlackHoleState_eq_dec andb].
  destruct (IH b' H' Hj) as (sts & -> & Hl & Hs). eexists. split_and!; [done|by cbn; f_equal|].
  intros [|i] Hi; cbn [lookup list_lookup].
  - by rewrite Z.add_0_r, bool_decide_true.
  - rewrite Hs by lia. rewrite Hr. by replace (bh_requests b + 1 + 1 + Z.of_nat i) with (bh_requests b + 1 + Z.of_nat (S i)) by lia.
Qed.

(** While the transport is blocked, exactly one of [n] requests in a row is let through
    as a probe. *)
Theorem one_probe ops b :
  run_counter ops (new_counter (Z.of_nat n) min) = Some b -> bh_state b = blackHoleStateBlocked ->
  exists i sts, (i < n)%nat /\ answers n b = Some sts /\
    forall j, (j < n)%nat -> sts !! j = Some (if (j =? i)%nat then blackHoleStateProbing else blackHoleStateBlocked).
Proof.
  intros Hr Hb. destruct (run_counts ops [] _ new_counts) as (b' & Hr' & H). rewrite Hr in Hr'. simplify_eq.
  destruct (answers_blocked n _ b' H) as (sts & Ha & Hl & Hs); [by rewrite <- (ct_state _ _ H)|].
  set (r := bh_requests b' + 1) in *. assert (0 < Z.of_nat n) as Hpos by lia. set (m := Z.of_nat n) in *.
  pose proof (Z.mod_pos_bound (- r) m Hpos) as Hm. exists (Z.to_nat ((- r) mod m)), sts. split_and!; [lia|done|].
  intros j Hj. rewrite Hs by done. f_equal.
  assert ((r + Z.of_nat j) mod m = 0 <-> Z.of_nat j = (- r) mod m) as Hiff.
  { split; intros E.
    - rewrite <- (Z.mod_small (Z.of_nat j) m) by lia. replace (Z.of_nat j) with ((r + Z.of_nat j) + - r) by lia.
      by rewrite Z.add_mod, E, Z.add_0_l, Z.mod_mod by lia.
    - rewrite E, Zplus_mod_idemp_r. by rewrite Z.add_opp_diag_r. }
  destruct (Z.eqb_spec ((r + Z.of_nat j) mod m) 0) as [E|E], (Nat.eqb_spec j (Z.to_nat ((- r) mod m))) as [E'|E']; try done;
    exfalso; [apply E'; apply Hiff in E; lia|apply E, Hiff; lia].
Qed.
End window.

(** ** The detector *)

Section detector_theorems.
Context (reg : registry).

Lemma consult_Some ro needed f :
  (forall c, f = Some c -> bh_N c <> 0) ->
  exists st f', consult ro needed f = Some (st, f') /\ (forall c, f' = Some c -> bh_N c <> 0) /\ (ro = true -> f' = f).
Proof.
  intros Hf. unfold consult, getFilterState, HandleRequest. destruct f as [f|]; [|by eexists _, _].
  specialize (Hf f eq_refl). assert ((bh_N f =? 0) = false) as E by zbool.
  destruct needed; [destruct ro; [|destruct (bh_state f); cbn; rewrite ?E]|]; eexists _, _; (split; [reflexivity|]);
    (split; [intros ? [= <-]; done|done]).
Qed.

Lemma keep_udp st6 a : is_udp reg a = true -> keep reg blackHoleStateProbing st6 a = true.
Proof. intros H. unfold keep. rewrite H. by destruct (negb _). Qed.

(** The filter only splits the addresses, it takes out only public UDP and IPv6 addresses, and
    a read-only detector does not change. *)
Theorem filter_partitions d addrs :
  (forall c, d_udp d = Some c \/ d_ipv6 d = Some c -> bh_N c <> 0) ->
  exists valid blackHoled d', FilterAddrs reg addrs d = Some (valid, blackHoled, d') /\
    valid ++ blackHoled ≡ₚ addrs /\
    Forall (fun a => public reg a = true /\ (is_udp reg a = true \/ is_ipv6 reg a = true)) blackHoled /\
    (d_readOnly d = true -> d' = d).
Proof.
  intros Hd. unfold FilterAddrs.
  destruct (consult_Some (d_readOnly d) (existsb (fun a => public reg a && is_udp reg a) addrs) (d_udp d)) as (st & f & -> & _ & Hu);
    [by auto|].
  destruct (consult_Some (d_readOnly d) (existsb (fun a => public reg a && is_ipv6 reg a) addrs) (d_ipv6 d)) as (st6 & f6 & -> & _ & H6);
    [by auto|].
  eexists _, _, _. split; [done|]. split_and!.
  - apply only_split.
  - apply Forall_forall. intros a Ha. apply only_elem in Ha as [_ Ha]. apply negb_true_iff in Ha. unfold keep in Ha.
    destruct (public reg a); [|done]. split; [done|]. destruct (is_udp reg a), (is_ipv6 reg a); auto.
    by rewrite !andb_false_r in Ha.
  - intros Hro. rewrite (Hu Hro), (H6 Hro). by destruct d.
Qed.

Fixpoint filter_all (ls : list (list Multiaddr)) (d : blackHoleDetector) : option (list (list Multiaddr * list Multiaddr)) :=
  match ls with
  | [] => Some []
  | addrs :: ls =>
      match FilterAddrs reg addrs d with
      | Some (valid, blackHoled, d) =>
          match filter_all ls d with Some rs => Some ((valid, blackHoled) :: rs) | None => None end
      | None => None
      end
  end.

Lemma filter_all_answers ls b f6 sts :
  Forall (fun addrs => exists a, a ∈ addrs /\ public reg a = true /\ is_udp reg a = true) ls ->
  (forall c, f6 = Some c -> bh_N c <> 0) -> answers (length ls) b = Some sts ->
  exists rs, filter_all ls (mkDetector (Some b) f6 false) = Some rs /\
    forall i, sts !! i = Some blackHoleStateProbing -> exists valid blackHoled, rs !! i = Some (valid, blackHoled) /\
      Forall (fun a => is_udp reg a = false) blackHoled.
Proof.
  intros Hls. revert b f6 sts. induction Hls as [|addrs ls (a & Hin & Hpub & Hudp) _ IH]; intros b f6 sts Hf6 Ha; cbn in Ha.
  { simplify_eq. by exists []. }
  destruct (HandleRequest b) as [[st b']|] eqn:Eb; [|done]. destruct (answers (length ls) b') as [sts'|] eqn:Ea; [|done]. simplify_eq.
  cbn [filter_all]. unfold FilterAddrs. cbn [d_readOnly d_udp d_ipv6].
  assert (existsb (fun a => public reg a && is_udp reg a) addrs = true) as ->.
  { apply existsb_exists. exists a. split; [by apply list_elem_of_In|by rewrite Hpub, Hudp]. }
  unfold consult at 1, getFilterState at 1. rewrite Eb.
  destruct (consult_Some false (existsb (fun a => public reg a && is_ipv6 reg a) addrs) f6 Hf6) as (st6 & f6' & -> & Hf6' & _).
  destruct (IH b' f6' sts' Hf6' Ea) as (rs & -> & Hrs). eexists. split; [done|]. intros [|i] Hi; [|by apply Hrs].
  cbn in Hi. simplify_eq. eexists _, _. split; [done|]. apply Forall_forall. intros x Hx. apply only_elem in Hx as [_ Hx].
  destruct (is_udp reg x) eqn:Ex; [|done]. by rewrite keep_udp in Hx.
Qed.

(** C34: A black hole that ends is noticed: of [n] dials in a row that have a public UDP address, one
    keeps all its UDP addresses though UDP is blocked, and when such a dial succeeds the counter
    starts over. *)
Theorem black_hole_probed n min ops b f6 ls :
  (0 < n)%nat -> run_counter ops (new_counter (Z.of_nat n) min) = Some b -> bh_state b = blackHoleStateBlocked ->
  (forall c, f6 = Some c -> bh_N c <> 0) -> length ls = n ->
  Forall (fun addrs => exists a, a ∈ addrs /\ public reg a = true /\ is_udp reg a = true) ls ->
  (exists rs i valid blackHoled, filter_all ls (mkDetector (Some b) f6 false) = Some rs /\ rs !! i = Some (valid, blackHoled) /\
    Forall (fun a => is_udp reg a = false) blackHoled) /\
  (forall a d, d_udp d = Some b -> d_readOnly d = false -> public reg a = true -> is_udp reg a = true ->
    d_udp (detector_RecordResult reg a true d) = Some (new_counter (Z.of_nat n) min)).
Proof.
  intros Hn Hr Hb Hf6 Hlen Hls. destruct (run_counts n min Hn ops [] _ (new_counts n min Hn)) as (b1 & Hr1 & H).
  rewrite Hr in Hr1. simplify_eq Hr1. intros <-. split.
  - destruct (answers_blocked n min Hn n _ b H) as (sts & Ha & Hl & Hs); [by rewrite <- (ct_state _ _ _ _ H)|].
    rewrite <- Hlen in Ha. destruct (filter_all_answers ls b f6 sts Hls Hf6 Ha) as (rs & Hrs & Hi).
    set (r := bh_requests b + 1) in *. assert (0 < Z.of_nat n) as Hpos by lia.
    pose proof (Z.mod_pos_bound (- r) (Z.of_nat n) Hpos) as Hm.
    destruct (Hi (Z.to_nat ((- r) mod Z.of_nat n))) as (v & bl & Hlk & Hbl); [|by exists rs, (Z.to_nat ((- r) mod Z.of_nat n)), v, bl].
    rewrite Hs by lia. rewrite Z2Nat.id, Zplus_mod_idemp_r, Z.add_opp_diag_r by lia. by rewrite Z.mod_0_l by lia.
  - intros a d Hu Hro Hp Hudp. unfold detector_RecordResult. rewrite Hro, Hp, Hudp, Hu. cbn [orb negb d_udp fmap option_fmap option_map].
    unfold RecordResult. rewrite Hb. cbn. unfold reset, updateState, new_counter. cbn. destruct H as [-> -> _ _ _ _].
    by destruct n; [lia|].
Qed.
End detector_theorems.

(** ** Examples *)

Module HoleDemo.
(** Two failed dials block a window of two. *)
Definition ops : list counter_op := [OpRecord false; OpRecord false; OpRequest].
Definition b : BlackHoleSuccessCounter := mkCounter 2 1 1 [false; false] 0 blackHoleStateBlocked.
Definition d : blackHoleDetector := mkDetector (Some b) None false.

Lemma reached : run_counter ops (new_counter (Z.of_nat 2) 1) = Some b.
Proof. reflexivity. Qed.

Lemma only_udp_filtered : FilterAddrs RankDemo.reg [RankDemo.quic4; RankDemo.tcp4; RankDemo.lan] (mkDetector (Some b) None true) =
  Some ([RankDemo.tcp4; RankDemo.lan], [RankDemo.quic4], mkDetector (Some b) None true).
Proof. vm_compute. reflexivity. Qed.
End HoleDemo.

Lemma counter_refines_witness :
  exists b, run_counter HoleDemo.ops (new_counter (Z.of_nat 2) 1) = Some b /\ bh_state b = judge 2 1 (history 2 1 HoleDemo.ops []).
Proof.
  destruct (counter_refines 2 1 ltac:(lia) HoleDemo.ops) as (b & H1 & H2 & _). exists b. split; [exact H1|exact H2].
Defined.

Lemma one_probe_witness : exists i sts, (i < 2)%nat /\ answers 2 HoleDemo.b = Some sts.
Proof.
  destruct (one_probe 2 1 ltac:(lia) HoleDemo.ops HoleDemo.b HoleDemo.reached eq_refl) as (i & sts & H1 & H2 & _).
  exists i, sts. split; [exact H1|exact H2].
Defined.

Lemma filter_partitions_witness :
  exists valid blackHoled d', FilterAddrs RankDemo.reg [RankDemo.quic4] HoleDemo.d = Some (valid, blackHoled, d') /\
    valid ++ blackHoled ≡ₚ [RankDemo.quic4].
Proof.
  destruct (filter_partitions RankDemo.reg HoleDemo.d [RankDemo.quic4]) as (v & bl & d' & H1 & H2 & _).
  - intros c [[= <-]|[=]]. discriminate.
  - exists v, bl, d'. split; [exact H1|exact H2].
Defined.

Lemma black_hole_probed_witness :
  exists rs i valid blackHoled, filter_all RankDemo.reg [[RankDemo.quic4]; [RankDemo.quic4]] HoleDemo.d = Some rs /\
    rs !! i = Some (valid, blackHoled) /\ Forall (fun a => is_udp RankDemo.reg a = false) blackHoled.
Proof.
  apply (black_hole_probed RankDemo.reg 2 1 HoleDemo.ops HoleDemo.b None [[RankDemo.quic4]; [RankDemo.quic4]] ltac:(lia) HoleDemo.reached eq_refl).
  - discriminate.
  - reflexivity.
  - repeat constructor; exists RankDemo.quic4; (split; [apply elem_of_cons; left; reflexivity|]); split; vm_compute; reflexivity.
Defined.
