(* ===== verification/Asn.v ===== *)
(** * The AS numbers of IPv6 networks (src/p2plib/asn/util)

    The table is a file of sorted ranges that the generator writes and the program embeds; it is
    the parameter [dataset].  The generator's check of the ranges and its writer are modelled
    too, so that the lookup is shown correct for every file it can have written.  [None] is a
    panic. *)

From stdpp Require Import base list numbers.
From Stdlib Require Import ZArith Lia.
From S2P Require Import Prelude GoText.

Definition entrySize : nat := 20.

(** [b[0] | b[1]<<8 | ...] *)
Fixpoint get_le (bs : list Z) : Z :=
  match bs with
  | [] => 0
  | b :: bs => Z.lor b (Z.shiftl (get_le bs) 8)
  end.
(** [binary.LittleEndian.PutUint64] and the first bytes of it *)
Fixpoint put_le (k : nat) (v : Z) : list Z :=
  match k with
  | O => []
  | S k => Z.land v 255 :: put_le k (Z.shiftr v 8)
  end.

Record entry := mkEntry { e_start : Z; e_end : Z; e_asn : Z }.

Section lookup.
Context (dataset : list Z).

Definition readEntry (index : nat) : option entry :=
  let base := (entrySize * index)%nat in
  if (base + entrySize <=? length dataset)%nat then
    let b := take entrySize (drop base dataset) in
    Some (mkEntry (get_le (take 8 b)) (get_le (take 8 (drop 8 b))) (get_le (take 4 (drop 16 b))))
  else None.

(** The loop: an AS number it returned, or the index it ended at.  The distance of [i] and
    [j] is enough fuel. *)
Fixpoint search (fuel : nat) (network : Z) (i j : nat) : option (Z + nat) :=
  if (i <? j)%nat then
    match fuel with
    | O => None
    | S fuel =>
        let h := ((i + j) / 2)%nat in
        match readEntry h with
        | None => None
        | Some e =>
            if e_start e <=? network then
              if network <=? e_end e then Some (inl (e_asn e)) else search fuel network (S h) j
            else search fuel network i h
        end
    end
  else Some (inr i).

Definition AsnForIPv6Network (network : Z) : option Z :=
  let n := (length dataset / entrySize)%nat in
  match search n network 0 n with
  | None => None
  | Some (inl asn) => Some asn
  | Some (inr i) =>
      if (n <=? i)%nat then Some 0
      else match readEntry i with
           | None => None
           | Some e => Some (if (e_start e <=? network) && (network <=? e_end e) then e_asn e else 0)
           end
  end.

(** The first 64 bits of the address, big endian. *)
Definition AsnForIPv6 (ip : list Z) : option Z :=
  match To16 ip with
  | None => Some 0
  | Some ip => AsnForIPv6Network (foldl (fun acc b => acc * 256 + b) 0 (take 8 ip))
  end.
End lookup.

(** ** The generator (generate/main.go) *)

(** The check before the file is written: [false] is its panic. *)
Fixpoint sane (old : Z) (networks : list entry) : bool :=
  match networks with
  | [] => true
  | n :: networks => negb (e_end n <? e_start n) && negb (e_start n <=? old) && sane (e_end n) networks
  end.
Definition write_entry (n : entry) : list Z := put_le 8 (e_start n) ++ put_le 8 (e_end n) ++ put_le 4 (e_asn n).
Definition write_networks (networks : list entry) : list Z := concat (map write_entry networks).

(** ** The lookup reads what was written *)

Definition entry_ok (e : entry) : Prop := 0 <= e_start e < 2 ^ 64 /\ 0 <= e_end e < 2 ^ 64 /\ 0 <= e_asn e < 2 ^ 32.

Lemma put_le_length k v : length (put_le k v) = k.
Proof. revert v. induction k as [|k IH]; intros v; cbn; [done|]. by rewrite IH. Qed.

Lemma get_put_le k v : 0 <= v < 2 ^ (8 * Z.of_nat k) -> get_le (put_le k v) = v.
Proof.
  revert v. induction k as [|k IH]; intros v Hv; [change (2 ^ (8 * Z.of_nat 0)) with 1 in Hv; cbn; lia|]. cbn [put_le get_le].
  rewrite IH.
  - apply Z.bits_inj'. intros n Hn. rewrite Z.lor_spec, Z.land_spec. change 255 with (Z.ones 8).
    destruct (Z.ltb_spec n 8).
    + rewrite Z.ones_spec_low, Z.shiftl_spec_low, andb_true_r, orb_false_r by lia. done.
    + rewrite Z.ones_spec_high, andb_false_r, Z.shiftl_spec, Z.shiftr_spec by lia. cbn. f_equal. lia.
  - rewrite Z.shiftr_div_pow2 by lia. change (2 ^ 8) with 256. replace (8 * Z.of_nat (S k)) with (8 * Z.of_nat k + 8) in Hv by lia.
    rewrite Z.pow_add_r in Hv by lia. change (2 ^ 8) with 256 in Hv. split; [apply Z.div_pos; lia|apply Z.div_lt_upper_bound; lia].
Qed.

Lemma write_entry_length n : length (write_entry n) = entrySize.
Proof. unfold write_entry. by rewrite !length_app, !put_le_length. Qed.

Lemma write_networks_length E : length (write_networks E) = (entrySize * length E)%nat.
Proof.
  induction E as [|n E IH]; [done|]. unfold write_networks in *. cbn [map concat length]. rewrite length_app, IH, write_entry_length. lia.
Qed.

Lemma write_networks_app E E' : write_networks (E ++ E') = write_networks E ++ write_networks E'.
Proof. unfold write_networks. by rewrite map_app, concat_app. Qed.

Lemma readEntry_written E i e : Forall entry_ok E -> E !! i = Some e -> readEntry (write_networks E) i = Some e.
Proof.
  intros HE Hi. pose proof (Forall_lookup_1 _ _ _ _ HE Hi) as (Hs & He & Ha).
  rewrite <- (take_drop_middle E i e Hi), write_networks_app. unfold readEntry.
  assert (length (take i E) = i) as Hl by (rewrite length_take; apply lookup_lt_Some in Hi; lia).
  rewrite length_app, !write_networks_length, Hl. cbn [length].
  destruct (Nat.leb_spec (entrySize * i + entrySize) (entrySize * i + entrySize * S (length (drop (S i) E)))) as [_|]; [|lia].
  rewrite drop_app_length' by by rewrite write_networks_length, Hl. unfold write_networks. cbn [map concat].
  rewrite take_app_length' by by rewrite write_entry_length. unfold write_entry.
  rewrite take_app_length' by by rewrite put_le_length. rewrite drop_app_length' by by rewrite put_le_length.
  rewrite take_app_length' by by rewrite put_le_length. change 16%nat with (8 + 8)%nat. rewrite <- drop_drop.
  rewrite drop_app_length' by by rewrite put_le_length. rewrite drop_app_length' by by rewrite put_le_length.
  rewrite take_ge by by rewrite put_le_length. rewrite !get_put_le by done. by destruct e.
Qed.

(** ** The search *)

Definition covers (network : Z) (e : entry) : bool := (e_start e <=? network) && (network <=? e_end e).

Lemma sane_lookup old E i e : sane old E = true -> E !! i = Some e -> old < e_start e <= e_end e.
Proof.
  revert old i. induction E as [|n E IH]; intros old i Hs Hi; [done|]. cbn in Hs. rewrite !andb_true_iff in Hs.
  destruct Hs as [[H1 H2] Hs]. bool_props. destruct i as [|i]; simplify_eq/=; [lia|]. pose proof (IH _ _ Hs Hi). lia.
Qed.

Lemma sane_sorted old E i j e e' :
  sane old E = true -> (i < j)%nat -> E !! i = Some e -> E !! j = Some e' -> e_end e < e_start e'.
Proof.
  revert old i j. induction E as [|n E IH]; intros old i j Hs Hij Hi Hj; [done|]. cbn in Hs. rewrite !andb_true_iff in Hs.
  destruct Hs as [_ Hs]. destruct j as [|j]; [lia|]. destruct i as [|i]; simplify_eq/=; [|by eapply (IH _ i j); [done|lia|..]].
  pose proof (sane_lookup _ _ _ _ Hs Hj). lia.
Qed.

Section search.
Context (E : list entry) (old : Z) (HE : Forall entry_ok E) (Hs : sane old E = true) (network : Z).

Lemma search_spec fuel i j :
  (i <= j)%nat -> (j <= length E)%nat -> (j - i <= fuel)%nat ->
  (forall k e, (k < i)%nat -> E !! k = Some e -> e_end e < network) ->
  (forall k e, (j <= k)%nat -> E !! k = Some e -> network < e_start e) ->
  (exists k e, search (write_networks E) fuel network i j = Some (inl (e_asn e)) /\ E !! k = Some e /\ covers network e = true) \/
  (exists k, search (write_networks E) fuel network i j = Some (inr k) /\
    forall l e, E !! l = Some e -> covers network e = false /\ ((k <= l)%nat -> network < e_start e)).
Proof.
  revert i j. induction fuel as [|fuel IH]; intros i j Hij Hj Hf Hlo Hhi; cbn [search]; (destruct (Nat.ltb_spec i j) as [H|H]; [|right; exists i; split; [done|]]).
  - lia.
  - intros l e Hl. unfold covers. assert (i = j) as -> by lia. destruct (decide (l < j)%nat); [specialize (Hlo l e ltac:(lia) Hl)|specialize (Hhi l e ltac:(lia) Hl)]; lia.
  - set (h := ((i + j) / 2)%nat). assert (i <= h < j)%nat as Hh.
    { subst h. split; [apply Nat.div_le_lower_bound; lia|apply Nat.div_lt_upper_bound; lia]. }
    destruct (lookup_lt_is_Some_2 E h) as [e He]; [lia|]. rewrite (readEntry_written E h e HE He).
    destruct (Z.leb_spec (e_start e) network) as [H1|H1]; [destruct (Z.leb_spec network (e_end e)) as [H2|H2]|].
    + left. exists h, e. split_and!; [done..|]. unfold covers. lia.
    + apply IH; [lia..| |done]. intros k e' Hk Hk'. destruct (decide (k = h)) as [->|]; [by simplify_eq|].
      pose proof (sane_sorted old E k h e' e Hs ltac:(lia) Hk' He). pose proof (sane_lookup old E h e Hs He). lia.
    + apply IH; [lia..|done|]. intros k e' Hk Hk'. destruct (decide (k = h)) as [->|]; [by simplify_eq|].
      pose proof (sane_sorted old E h k e e' Hs ltac:(lia) He Hk'). pose proof (sane_lookup old E h e Hs He). lia.
  - intros l e Hl. unfold covers. assert (i = j) as -> by lia. destruct (decide (l < j)%nat); [specialize (Hlo l e ltac:(lia) Hl)|specialize (Hhi l e ltac:(lia) Hl)]; lia.
Qed.
End search.

(** C35: On every file the generator writes the search ends, and returns the number of
    the range the network is in, which is unique, or 0 if there is none. *)
Theorem asn_lookup E network :
  Forall entry_ok E -> sane 0 E = true ->
  AsnForIPv6Network (write_networks E) network = Some (default 0 (e_asn <$> List.find (covers network) E)) /\
  (forall i j e e', E !! i = Some e -> E !! j = Some e' -> covers network e = true -> covers network e' = true -> i = j).
Proof.
  intros HE Hs. split.
  2:{ intros i j e e' Hi Hj H1 H2. unfold covers in *. destruct (lt_eq_lt_dec i j) as [[Hlt|?]|Hlt]; [|done|].
      - pose proof (sane_sorted 0 E i j e e' Hs Hlt Hi Hj). lia.
      - pose proof (sane_sorted 0 E j i e' e Hs Hlt Hj Hi). lia. }
  unfold AsnForIPv6Network. rewrite write_networks_length.
  replace (entrySize * length E / entrySize)%nat with (length E) by (rewrite Nat.mul_comm, Nat.div_mul; [done|unfold entrySize; lia]).
  destruct (search_spec E 0 HE Hs network (length E) 0 (length E)) as [(k & e & -> & Hk & Hc)|(k & -> & Hno)]; try lia.
  { intros k e Hk Hk'. apply lookup_lt_Some in Hk'. lia. }
  - f_equal. destruct (List.find (covers network) E) as [e'|] eqn:Ef.
    + apply List.find_some in Ef as [Hin Hc']. apply list_elem_of_In, list_elem_of_lookup in Hin as [l Hl]. cbn.
      assert (k = l) as -> by (unfold covers in *; destruct (lt_eq_lt_dec k l) as [[Hlt|?]|Hlt]; [|done|];
        [pose proof (sane_sorted 0 E k l e e' Hs Hlt Hk Hl)|pose proof (sane_sorted 0 E l k e' e Hs Hlt Hl Hk)]; lia).
      congruence.
    + pose proof (List.find_none _ _ Ef e ltac:(by eapply list_elem_of_In, list_elem_of_lookup_2)). congruence.
  - assert (List.find (covers network) E = None) as ->.
    { destruct (List.find (covers network) E) as [e|] eqn:Ef; [|done]. apply List.find_some in Ef as [Hin Hc].
      apply list_elem_of_In, list_elem_of_lookup in Hin as [l Hl]. destruct (Hno l e Hl). congruence. }
    destruct (Nat.leb_spec (length E) k); [done|]. destruct (lookup_lt_is_Some_2 E k) as [e He]; [lia|].
    rewrite (readEntry_written E k e HE He). destruct (Hno k e He) as [Hc _]. unfold covers in Hc. by rewrite Hc.
Qed.

Lemma asn_lookup_witness :
  AsnForIPv6Network (write_networks [mkEntry 10 20 7; mkEntry 21 30 8]) 25 = Some 8.
Proof.
  destruct (asn_lookup [mkEntry 10 20 7; mkEntry 21 30 8] 25) as [H _].
  - repeat constructor; cbn; lia.
  - reflexivity.
  - rewrite H. reflexivity.
Defined.
