(* ===== verification/Relay.v ===== *)
(** * The circuit relay service (src/p2p/protocol/circuitv2/relay)

    [constraints.go] limits the reservations of peers, in total, for an IP address and for an AS
    number; [relay.go] keeps the reservations, admits circuits and counts them.  Times are integers.
    The lock of the relay makes every operation below atomic; the streams, the resource
    scopes, the copying of data and the messages are not part of the model: what they decide is
    an argument of the operations. *)

From stdpp Require Import base gmap list numbers strings.
From Stdlib Require Import ZArith Lia.
From S2P Require Import Prelude GoText Base58 Transcoders Multiaddr MultiaddrSpec MultiaddrText Allowlist DialLimiter DialRanker Asn.

(** ** Resources *)

Record RelayLimit := mkLimit { l_Duration : Z; l_Data : Z }.
Record Resources := mkResources {
  Limit : option RelayLimit;
  ReservationTTL : Z;
  MaxReservations : Z;
  MaxCircuits : Z;
  BufferSize : Z;
  MaxReservationsPerPeer : Z;
  MaxReservationsPerIP : Z;
  MaxReservationsPerASN : Z
}.
Definition Second : Z := 1000 * Millisecond.
Definition DefaultLimit : RelayLimit := mkLimit (2 * 60 * Second) (Z.shiftl 1 17).
Definition DefaultResources : Resources := mkResources (Some DefaultLimit) (3600 * Second) 128 16 2048 1 8 32.

(** The seconds and bytes of the limit message, as 32 and 64 bit numbers. *)
Definition makeLimitMsg (rc : Resources) : option (Z * Z) :=
  match Limit rc with
  | None => None
  | Some l => Some ((l_Duration l ÷ Second) mod 2 ^ 32, l_Data l mod 2 ^ 64)
  end.

(** ** Constraints *)

Record peerWithExpiry := mkPE { Expiry : Z; pe_Peer : list Z }.
Record constraints := mkConstraints {
  c_total : list peerWithExpiry;
  c_ips : gmap (list Z) (list peerWithExpiry);
  c_asns : gmap Z (list peerWithExpiry)
}.
Definition newConstraints : constraints := mkConstraints [] ∅ ∅.

Inductive reserve_error := errTooManyReservations | errNotIP | errTooManyReservationsForIP | errTooManyReservationsForASN.

(** [slices.DeleteFunc] *)
Definition DeleteFunc {A} (del : A -> bool) (l : list A) : list A := List.filter (fun x => negb (del x)) l.
Definition some_list {A} (l : list A) : option (list A) := match l with [] => None | _ => Some l end.

(** The three lists and maps without the entries of [del]; empty lists leave the maps. *)
Definition prune (del : peerWithExpiry -> bool) (c : constraints) : constraints :=
  mkConstraints (DeleteFunc del (c_total c))
    (omap (fun l => some_list (DeleteFunc del l)) (c_ips c)) (omap (fun l => some_list (DeleteFunc del l)) (c_asns c)).
Definition cleanup (now : Z) (c : constraints) : constraints := prune (fun pe => Expiry pe <? now) c.
Definition cleanupPeer (p : list Z) (c : constraints) : constraints := prune (fun pe => bool_decide (pe_Peer pe = p)) c.

Section relay.
Context (reg : registry) (dataset : list Z) (rc : Resources).

(** The AS number; the table does not make the lookup panic, see [asn_lookup]. *)
Definition asn_of (ip : list Z) : Z :=
  match To4 ip with
  | Some _ => 0
  | None => default 0 (AsnForIPv6 dataset ip)
  end.
Definition at_limit {A} (limit : Z) (l : list A) : bool := limit <=? Z.of_nat (length l).

Definition Reserve (p : list Z) (a : Multiaddr) (expiry now : Z) (c : constraints) : constraints * option reserve_error :=
  let c := cleanupPeer p (cleanup now c) in
  if at_limit (MaxReservations rc) (c_total c) then (c, Some errTooManyReservations)
  else match ip_of reg a with
  | None => (c, Some errNotIP)
  | Some ip =>
      let ipReservations := default [] (c_ips c !! IP_String ip) in
      if at_limit (MaxReservationsPerIP rc) ipReservations then (c, Some errTooManyReservationsForIP)
      else
        let asn := asn_of ip in
        let asnReservations := default [] (c_asns c !! asn) in
        if negb (asn =? 0) && at_limit (MaxReservationsPerASN rc) asnReservations then (c, Some errTooManyReservationsForASN)
        else
          let pe := mkPE expiry p in
          (mkConstraints (c_total c ++ [pe]) (<[IP_String ip := ipReservations ++ [pe]]> (c_ips c))
             (if asn =? 0 then c_asns c else <[asn := asnReservations ++ [pe]]> (c_asns c)), None)
  end.

(** ** The relay *)

Record Relay := mkRelay {
  r_constraints : constraints;
  r_rsvp : gmap (list Z) Z;
  r_conns : gmap (list Z) Z;
  r_closed : bool
}.
Definition newRelay : Relay := mkRelay newConstraints ∅ ∅ false.

Inductive Status :=
| Status_OK | Status_RESERVATION_REFUSED | Status_RESOURCE_LIMIT_EXCEEDED | Status_PERMISSION_DENIED
| Status_CONNECTION_FAILED | Status_NO_RESERVATION | Status_MALFORMED_MESSAGE.

(** [acl] is the filter's answer, [written] whether the response was; the clock is read by the
    handler and again by [Reserve]. *)
Definition handleReserve (p : list Z) (a : Multiaddr) (acl written : bool) (now now' : Z) (r : Relay) : Relay * Status :=
  if isRelayAddr reg a then (r, Status_PERMISSION_DENIED)
  else if negb acl then (r, Status_PERMISSION_DENIED)
  else if r_closed r then (r, Status_PERMISSION_DENIED)
  else
    let expire := now + ReservationTTL rc in
    match Reserve p a expire now' (r_constraints r) with
    | (c, Some _) => (mkRelay c (r_rsvp r) (r_conns r) (r_closed r), Status_RESERVATION_REFUSED)
    | (c, None) =>
        (mkRelay c (<[p := expire]> (r_rsvp r)) (r_conns r) (r_closed r), if written then Status_OK else Status_CONNECTION_FAILED)
    end.

Definition conns_of (p : list Z) (r : Relay) : Z := default 0 (r_conns r !! p).
Definition set_conns (m : gmap (list Z) Z) (r : Relay) : Relay := mkRelay (r_constraints r) (r_rsvp r) m (r_closed r).
Definition relay_addConn (p : list Z) (r : Relay) : Relay := set_conns (<[p := conns_of p r + 1]> (r_conns r)) r.
Definition relay_rmConn (p : list Z) (r : Relay) : Relay :=
  let conns := conns_of p r - 1 in
  set_conns (if 0 <? conns then <[p := conns]> (r_conns r) else delete p (r_conns r)) r.

(** The first part of [handleConnect], up to the admission; [resources] is whether the scope had
    room, [dest] the peer of the message if it could be read. *)
Definition admitConnect (src : list Z) (a : Multiaddr) (resources : bool) (dest : option (list Z)) (acl : bool) (r : Relay) : Relay * Status :=
  if negb resources then (r, Status_RESOURCE_LIMIT_EXCEEDED)
  else if isRelayAddr reg a then (r, Status_PERMISSION_DENIED)
  else match dest with
  | None => (r, Status_MALFORMED_MESSAGE)
  | Some dest =>
      if negb acl then (r, Status_PERMISSION_DENIED)
      else match r_rsvp r !! dest with
      | None => (r, Status_NO_RESERVATION)
      | Some _ =>
          if MaxCircuits rc <=? conns_of src r then (r, Status_RESOURCE_LIMIT_EXCEEDED)
          else if MaxCircuits rc <=? conns_of dest r then (r, Status_RESOURCE_LIMIT_EXCEEDED)
          else (relay_addConn dest (relay_addConn src r), Status_OK)
      end
  end.
(** The [cleanup] of a circuit that failed or ended. *)
Definition cleanupCircuit (src dest : list Z) (r : Relay) : Relay := relay_rmConn dest (relay_rmConn src r).

Definition relay_gc (now : Z) (r : Relay) : Relay :=
  mkRelay (r_constraints r) (filter (fun kv => negb (r_closed r || (kv.2 <? now)) = true) (r_rsvp r))
    (filter (fun kv => kv.2 <> 0) (r_conns r)) (r_closed r).
Definition disconnected (p : list Z) (connected : bool) (r : Relay) : Relay :=
  if connected then r else mkRelay (cleanupPeer p (r_constraints r)) (delete p (r_rsvp r)) (r_conns r) (r_closed r).
(** [Close] marks the relay under the lock, which it takes again to collect. *)
Definition mark_closed (r : Relay) : Relay := mkRelay (r_constraints r) (r_rsvp r) (r_conns r) true.
Definition Close (now : Z) (r : Relay) : Relay := if r_closed r then r else relay_gc now (mark_closed r).
End relay.

(** ** The reservations behind the constraints *)

Record reservation := mkRsv { rv_peer : list Z; rv_expiry : Z; rv_ip : list Z; rv_asn : Z }.
Definition entry_of (v : reservation) : peerWithExpiry := mkPE (rv_expiry v) (rv_peer v).
Definition of_ip (k : list Z) (v : reservation) : bool := bool_decide (rv_ip v = k).
Definition of_asn (n : Z) (v : reservation) : bool := (rv_asn v =? n) && negb (n =? 0).

(** The constraints hold the reservations, in the order they were made. *)
Record represents (rs : list reservation) (c : constraints) : Prop := {
  rp_total : c_total c = map entry_of rs;
  rp_ips k : c_ips c !! k = some_list (map entry_of (List.filter (of_ip k) rs));
  rp_asns n : c_asns c !! n = some_list (map entry_of (List.filter (of_asn n) rs))
}.

Lemma some_list_default {A} (l : list A) : default [] (some_list l) = l.
Proof. by destruct l. Qed.

Lemma filter_map' {A B} (g : A -> B) (f : B -> bool) l : List.filter f (map g l) = map g (List.filter (fun x => f (g x)) l).
Proof. induction l as [|x l IH]; [done|]. cbn. destruct (f (g x)); cbn; by rewrite IH. Qed.

Lemma filter_filter' {A} (f g : A -> bool) l : List.filter f (List.filter g l) = List.filter g (List.filter f l).
Proof. induction l as [|x l IH]; [done|]. cbn. destruct (g x) eqn:Eg, (f x) eqn:Ef; cbn; by rewrite ?Eg, ?Ef, IH. Qed.

Lemma filter_id' {A} (f : A -> bool) l : (forall x, x ∈ l -> f x = true) -> List.filter f l = l.
Proof.
  induction l as [|x l IH]; intros H; [done|]. cbn. rewrite (H x) by by left. rewrite IH; [done|]. intros y Hy. apply H. by right.
Qed.

Definition drop_rsv (del : peerWithExpiry -> bool) (rs : list reservation) : list reservation :=
  List.filter (fun v => negb (del (entry_of v))) rs.

Lemma prune_some del (l : list peerWithExpiry) :
  (some_list l ≫= fun l => some_list (DeleteFunc del l)) = some_list (DeleteFunc del l).
Proof. by destruct l. Qed.

Lemma prune_represents del rs c : represents rs c -> represents (drop_rsv del rs) (prune del c).
Proof.
  intros [Ht Hi Ha]. constructor; cbn.
  - rewrite Ht. unfold DeleteFunc. by rewrite filter_map'.
  - intros k. rewrite lookup_omap, Hi. setoid_rewrite prune_some. unfold DeleteFunc. by rewrite filter_map', filter_filter'.
  - intros n. rewrite lookup_omap, Ha. setoid_rewrite prune_some. unfold DeleteFunc. by rewrite filter_map', filter_filter'.
Qed.

Lemma newConstraints_represents : represents [] newConstraints.
Proof. by constructor. Qed.

Section specification.
Context (reg : registry) (dataset : list Z) (rc : Resources).

(** What [Reserve] promises. *)
Definition sp_clean (p : list Z) (now : Z) (rs : list reservation) : list reservation :=
  List.filter (fun v => negb (rv_expiry v <? now) && negb (bool_decide (rv_peer v = p))) rs.
Definition sp_count (f : reservation -> bool) (rs : list reservation) : Z := Z.of_nat (length (List.filter f rs)).
Definition sp_reserve (p : list Z) (a : Multiaddr) (expiry now : Z) (rs : list reservation) : list reservation * option reserve_error :=
  let rs := sp_clean p now rs in
  if MaxReservations rc <=? Z.of_nat (length rs) then (rs, Some errTooManyReservations)
  else match ip_of reg a with
  | None => (rs, Some errNotIP)
  | Some ip =>
      let v := mkRsv p expiry (IP_String ip) (asn_of dataset ip) in
      if MaxReservationsPerIP rc <=? sp_count (of_ip (rv_ip v)) rs then (rs, Some errTooManyReservationsForIP)
      else if negb (rv_asn v =? 0) && (MaxReservationsPerASN rc <=? sp_count (of_asn (rv_asn v)) rs) then (rs, Some errTooManyReservationsForASN)
      else (rs ++ [v], None)
  end.

Lemma sp_clean_drop p now rs :
  drop_rsv (fun pe => bool_decide (pe_Peer pe = p)) (drop_rsv (fun pe => Expiry pe <? now) rs) = sp_clean p now rs.
Proof.
  unfold drop_rsv, sp_clean. cbn [entry_of Expiry pe_Peer]. induction rs as [|v rs IH]; [done|]. cbn [List.filter].
  destruct (rv_expiry v <? now); cbn [negb andb]; [done|]. cbn [List.filter]. destruct (bool_decide (rv_peer v = p)); cbn [negb]; by rewrite IH.
Qed.

Lemma some_list_snoc {A} (l : list A) x : Some (l ++ [x]) = some_list (l ++ [x]).
Proof. by destruct l. Qed.

(** The lists and maps implement the specification, errors included. *)
Lemma Reserve_represents p a expiry now rs c :
  represents rs c ->
  represents (sp_reserve p a expiry now rs).1 (Reserve reg dataset rc p a expiry now c).1 /\
  (Reserve reg dataset rc p a expiry now c).2 = (sp_reserve p a expiry now rs).2.
Proof.
  intros H. unfold Reserve, sp_reserve, cleanupPeer, cleanup.
  apply (prune_represents (fun pe => Expiry pe <? now)), (prune_represents (fun pe => bool_decide (pe_Peer pe = p))) in H.
  rewrite sp_clean_drop in H. set (c1 := prune _ _) in *. set (rs1 := sp_clean p now rs) in *. destruct H as [Ht Hi Ha].
  unfold at_limit, sp_count. rewrite Ht, length_map. destruct (MaxReservations rc <=? Z.of_nat (length rs1)); [done|].
  destruct (ip_of reg a) as [ip|]; [|done]. cbn [rv_ip rv_asn]. rewrite Hi, some_list_default, length_map.
  destruct (MaxReservationsPerIP rc <=? Z.of_nat (length (List.filter (of_ip (IP_String ip)) rs1))); [done|].
  rewrite Ha, some_list_default, length_map. set (asn := asn_of dataset ip).
  destruct (negb (asn =? 0) && (MaxReservationsPerASN rc <=? Z.of_nat (length (List.filter (of_asn asn) rs1)))); [done|].
  split; [|done]. constructor; cbn [fst c_total c_ips c_asns].
  - by rewrite map_app.
  - intros k. rewrite List.filter_app, map_app. cbn [List.filter]. unfold of_ip at 3. cbn [rv_ip]. destruct (decide (k = IP_String ip)) as [->|Hk].
    + rewrite lookup_insert_eq, bool_decide_true by done. apply some_list_snoc.
    + rewrite lookup_insert_ne, bool_decide_false, app_nil_r, Hi by congruence. done.
  - intros n. rewrite List.filter_app, map_app. cbn [List.filter]. unfold of_asn at 3. cbn [rv_asn]. destruct (Z.eqb_spec asn 0) as [E|E].
    + replace ((asn =? n) && negb (n =? 0)) with false by (destruct (Z.eqb_spec asn n), (Z.eqb_spec n 0); cbn; lia).
      by rewrite app_nil_r, Ha.
    + destruct (Z.eqb_spec asn n) as [<-|Hn].
      * rewrite lookup_insert_eq. replace (asn =? 0) with false by zbool. apply some_list_snoc.
      * rewrite lookup_insert_ne, app_nil_r, Ha by done. done.
Qed.
End specification.

(** ** Runs of the relay *)

(** The relay, the circuits that are open, and the clock. *)
Record rstate := mkState { rs_relay : Relay; rs_circuits : list (list Z * list Z); rs_clock : Z }.

Section runs.
Context (reg : registry) (dataset : list Z) (rc : Resources).

(** [ok] restricts the circuits that are asked for. *)
Inductive rstep (ok : list Z -> list Z -> Prop) : rstate -> rstate -> Prop :=
| rstep_reserve p a acl written now now' r cs t :
    t <= now <= now' ->
    rstep ok (mkState r cs t) (mkState (handleReserve reg dataset rc p a acl written now now' r).1 cs now')
| rstep_connect src a resources dest acl r cs t :
    ok src dest ->
    rstep ok (mkState r cs t)
      (mkState (admitConnect reg rc src a resources (Some dest) acl r).1
         (match (admitConnect reg rc src a resources (Some dest) acl r).2 with Status_OK => (src, dest) :: cs | _ => cs end) t)
| rstep_end src dest cs1 cs2 r t :
    rstep ok (mkState r (cs1 ++ (src, dest) :: cs2) t) (mkState (cleanupCircuit src dest r) (cs1 ++ cs2) t)
| rstep_gc now r cs t : t <= now -> rstep ok (mkState r cs t) (mkState (relay_gc now r) cs now)
| rstep_disconnected p connected r cs t : rstep ok (mkState r cs t) (mkState (disconnected p connected r) cs t)
| rstep_close r cs t : rstep ok (mkState r cs t) (mkState (mark_closed r) cs t).

Definition uses (p : list Z) (cs : list (list Z * list Z)) : Z :=
  tally (fun c => bool_decide (c.1 = p)) cs + tally (fun c => bool_decide (c.2 = p)) cs.
Definition count_opt (n : Z) : option Z := if n =? 0 then None else Some n.

(** The limits on the reservations. *)
Record within_limits (rs : list reservation) : Prop := {
  wl_peers : NoDup (map rv_peer rs);
  wl_total : Z.of_nat (length rs) <= MaxReservations rc;
  wl_ip k : sp_count (of_ip k) rs <= MaxReservationsPerIP rc;
  wl_asn n : sp_count (of_asn n) rs <= MaxReservationsPerASN rc
}.

Record rinv (rs : list reservation) (s : rstate) : Prop := {
  ri_rep : represents rs (r_constraints (rs_relay s));
  ri_limits : within_limits rs;
  ri_conns p : r_conns (rs_relay s) !! p = count_opt (uses p (rs_circuits s));
  ri_backed v : v ∈ rs -> rs_clock s <= rv_expiry v -> r_closed (rs_relay s) = false ->
    r_rsvp (rs_relay s) !! rv_peer v = Some (rv_expiry v)
}.

Context (Hpos : 0 <= MaxReservations rc /\ 0 <= MaxReservationsPerIP rc /\ 0 <= MaxReservationsPerASN rc).

Lemma length_filter_le {A} (f : A -> bool) l : (length (List.filter f l) <= length l)%nat.
Proof. induction l as [|x l IH]; [done|]. cbn. destruct (f x); cbn; lia. Qed.

Lemma sp_count_filter f g rs : sp_count f (List.filter g rs) <= sp_count f rs.
Proof. unfold sp_count. rewrite filter_filter'. pose proof (length_filter_le g (List.filter f rs)). lia. Qed.

Lemma elem_of_filter' {A} (f : A -> bool) x l : x ∈ List.filter f l <-> x ∈ l /\ f x = true.
Proof. by rewrite !list_elem_of_In, List.filter_In. Qed.

Lemma filter_peers f rs : NoDup (map rv_peer rs) -> NoDup (map rv_peer (List.filter f rs)).
Proof.
  induction rs as [|v rs IH]; intros Hd; [constructor|]. cbn in *. apply NoDup_cons in Hd as [Hv Hd]. destruct (f v); [|by apply IH].
  cbn. apply NoDup_cons. split; [|by apply IH]. intros Hin. apply Hv. apply list_elem_of_fmap in Hin as (x & -> & Hx).
  apply list_elem_of_fmap. exists x. split; [done|]. by apply elem_of_filter' in Hx as [Hx _].
Qed.

Lemma filter_limits f rs : within_limits rs -> within_limits (List.filter f rs).
Proof.
  intros [Hd Ht Hi Ha]. constructor.
  - by apply filter_peers.
  - pose proof (length_filter_le f rs). lia.
  - intros k. etransitivity; [apply sp_count_filter|apply Hi].
  - intros n. etransitivity; [apply sp_count_filter|apply Ha].
Qed.

Lemma sp_count_snoc f rs v : sp_count f (rs ++ [v]) = sp_count f rs + if f v then 1 else 0.
Proof. unfold sp_count. rewrite List.filter_app, length_app. cbn. destruct (f v); cbn; lia. Qed.

Lemma sp_reserve_limits p a expiry now rs : within_limits rs -> within_limits (sp_reserve reg dataset rc p a expiry now rs).1.
Proof.
  intros H. apply (filter_limits (fun v => negb (rv_expiry v <? now) && negb (bool_decide (rv_peer v = p)))) in H.
  unfold sp_reserve. fold (sp_clean p now rs) in *. destruct (Z.leb_spec (MaxReservations rc) (Z.of_nat (length (sp_clean p now rs)))); [done|].
  destruct (ip_of reg a) as [ip|]; [|done]. cbn [rv_ip rv_asn].
  destruct (Z.leb_spec (MaxReservationsPerIP rc) (sp_count (of_ip (IP_String ip)) (sp_clean p now rs))); [done|].
  destruct (negb (asn_of dataset ip =? 0) && _) eqn:Easn; [done|]. destruct H as [Hd Ht Hi Ha]. constructor; cbn [fst].
  - rewrite map_app. apply NoDup_app. split_and!; [done| |apply NoDup_singleton].
    intros q Hq Hin. apply list_elem_of_singleton in Hin as ->. apply list_elem_of_fmap in Hq as (v & Hv & Hin).
    apply elem_of_filter' in Hin as [_ Hf]. apply andb_true_iff in Hf as [_ Hf]. rewrite bool_decide_true in Hf by done. done.
  - rewrite length_app. cbn. lia.
  - intros k. rewrite sp_count_snoc. unfold of_ip at 2. cbn [rv_ip]. case_bool_decide as E; [subst; lia|]. specialize (Hi k). lia.
  - intros n. rewrite sp_count_snoc. specialize (Ha n). unfold of_asn at 2. cbn [rv_asn].
    destruct (Z.eqb_spec (asn_of dataset ip) n) as [<-|]; cbn [andb]; [|lia]. destruct (negb (asn_of dataset ip =? 0)); [|lia]. cbn [andb] in Easn. lia.
Qed.

Lemma sp_reserve_elem p a expiry now rs v :
  v ∈ (sp_reserve reg dataset rc p a expiry now rs).1 ->
  (v ∈ rs /\ rv_peer v <> p) \/
  (rv_peer v = p /\ rv_expiry v = expiry /\ (sp_reserve reg dataset rc p a expiry now rs).2 = None).
Proof.
  assert (forall w, w ∈ sp_clean p now rs -> w ∈ rs /\ rv_peer w <> p) as Hc.
  { intros w Hw. apply elem_of_filter' in Hw as [Hw Hf]. split; [done|]. apply andb_true_iff in Hf as [_ Hf]. by case_bool_decide. }
  unfold sp_reserve. destruct (_ <=? _); [by left; apply Hc|]. destruct (ip_of reg a) as [ip|]; [|by left; apply Hc].
  destruct (_ <=? sp_count _ _); [by left; apply Hc|]. destruct (negb _ && _); [by left; apply Hc|]. cbn [fst snd].
  intros Hin. apply elem_of_app in Hin as [Hin|Hin]; [by left; apply Hc|]. apply list_elem_of_singleton in Hin as ->. by right.
Qed.

Lemma count_opt_pos n : 0 <= n -> default 0 (count_opt n) = n.
Proof. unfold count_opt. destruct (Z.eqb_spec n 0); cbn; lia. Qed.

Lemma uses_nonneg p cs : 0 <= uses p cs.
Proof. unfold uses. pose proof (tally_nonneg (fun c => bool_decide (c.1 = p)) cs). pose proof (tally_nonneg (fun c => bool_decide (c.2 = p)) cs). lia. Qed.

Definition counted (r : Relay) (f : list Z -> Z) : Prop := forall p, r_conns r !! p = count_opt (f p).

Lemma addConn_counted q r f :
  counted r f -> (forall p, 0 <= f p) -> counted (relay_addConn q r) (fun p => f p + if decide (p = q) then 1 else 0).
Proof.
  intros Hr Hf p. unfold relay_addConn, conns_of. cbn. rewrite (Hr q), count_opt_pos by done. destruct (decide (p = q)) as [->|Hne].
  - rewrite lookup_insert_eq. unfold count_opt. pose proof (Hf q). replace (f q + 1 =? 0) with false by zbool. done.
  - by rewrite lookup_insert_ne, Z.add_0_r by done.
Qed.

Lemma rmConn_counted q r f :
  counted r f -> 0 < f q -> counted (relay_rmConn q r) (fun p => f p - if decide (p = q) then 1 else 0).
Proof.
  intros Hr Hf p. unfold relay_rmConn, conns_of. cbn. rewrite (Hr q), count_opt_pos by lia. destruct (decide (p = q)) as [->|Hne].
  - unfold count_opt. destruct (Z.ltb_spec 0 (f q - 1)); [rewrite lookup_insert_eq|rewrite lookup_delete_eq];
      destruct (Z.eqb_spec (f q - 1) 0); done || lia.
  - rewrite Z.sub_0_r. by destruct (0 <? f q - 1); [rewrite lookup_insert_ne|rewrite lookup_delete_ne].
Qed.

Lemma counted_ext r f g : (forall p, f p = g p) -> counted r f -> counted r g.
Proof. intros E H p. by rewrite <- E. Qed.

Lemma uses_cons p src dest cs :
  uses p ((src, dest) :: cs) = uses p cs + (if decide (p = src) then 1 else 0) + (if decide (p = dest) then 1 else 0).
Proof.
  unfold uses. rewrite !tally_cons. cbn. rewrite !bool_decide_decide. destruct (decide (src = p)), (decide (p = src)), (decide (dest = p)), (decide (p = dest)); subst; lia || done.
Qed.

Lemma uses_middle p src dest cs1 cs2 : uses p (cs1 ++ (src, dest) :: cs2) = uses p ((src, dest) :: cs1 ++ cs2).
Proof. unfold uses. by rewrite <- !Permutation_middle. Qed.

Lemma cleanup_counted src dest cs1 cs2 r :
  counted r (fun p => uses p (cs1 ++ (src, dest) :: cs2)) -> counted (cleanupCircuit src dest r) (fun p => uses p (cs1 ++ cs2)).
Proof.
  intros H. assert (forall p, uses p (cs1 ++ (src, dest) :: cs2) =
    uses p (cs1 ++ cs2) + (if decide (p = src) then 1 else 0) + (if decide (p = dest) then 1 else 0)) as E
    by (intros p; by rewrite uses_middle, uses_cons).
  apply (rmConn_counted src) in H; [|rewrite E, decide_True by done; pose proof (uses_nonneg src (cs1 ++ cs2)); case_decide; lia].
  apply (rmConn_counted dest) in H; [|rewrite E, (decide_True (P := dest = dest)) by done; pose proof (uses_nonneg dest (cs1 ++ cs2)); case_decide; lia].
  eapply counted_ext; [|exact H]. intros p. cbn. rewrite E. lia.
Qed.

Lemma admit_inv src a resources dest acl r :
  (admitConnect reg rc src a resources (Some dest) acl r = (relay_addConn dest (relay_addConn src r), Status_OK) /\
   conns_of src r < MaxCircuits rc /\ conns_of dest r < MaxCircuits rc /\ is_Some (r_rsvp r !! dest)) \/
  (exists st, admitConnect reg rc src a resources (Some dest) acl r = (r, st) /\ st <> Status_OK).
Proof.
  unfold admitConnect. destruct resources; [|right; by eexists]. destruct (isRelayAddr reg a); [right; by eexists|].
  destruct acl; [|right; by eexists]. destruct (r_rsvp r !! dest); [|right; by eexists]. cbn [negb].
  destruct (Z.leb_spec (MaxCircuits rc) (conns_of src r)); [right; by eexists|].
  destruct (Z.leb_spec (MaxCircuits rc) (conns_of dest r)); [right; by eexists|]. left. by split_and!.
Qed.

Lemma connect_counted src a resources dest acl r cs :
  counted r (fun p => uses p cs) ->
  counted (admitConnect reg rc src a resources (Some dest) acl r).1
    (fun p => uses p (match (admitConnect reg rc src a resources (Some dest) acl r).2 with Status_OK => (src, dest) :: cs | _ => cs end)).
Proof.
  intros H. destruct (admit_inv src a resources dest acl r) as [(-> & _)|(st & -> & Hst)]; cbn [fst snd]; [|by destruct st].
  apply (addConn_counted src) in H; [|intros; apply uses_nonneg]. apply (addConn_counted dest) in H;
    [|intros p; pose proof (uses_nonneg p cs); case_decide; lia].
  eapply counted_ext; [|exact H]. intros p. cbn. by rewrite uses_cons.
Qed.

Lemma reserve_inv p a acl written now now' r cs t rs :
  t <= now <= now' -> rinv rs (mkState r cs t) ->
  exists rs', rinv rs' (mkState (handleReserve reg dataset rc p a acl written now now' r).1 cs now').
Proof.
  intros Ht [Hrep Hlim Hcon Hback]. cbn [rs_relay rs_circuits rs_clock] in *. unfold handleReserve.
  assert (rinv rs (mkState r cs now')) as Hsame by (constructor; cbn; try done; intros v Hv Hle; apply Hback; [done|lia]).
  destruct (isRelayAddr reg a); [by exists rs|]. destruct acl; [|by exists rs]. destruct (r_closed r) eqn:Ecl; [by exists rs|]. cbn [negb].
  set (exp := now + ReservationTTL rc).
  destruct (Reserve_represents reg dataset rc p a exp now' rs _ Hrep) as [Hrep' Herr].
  pose proof (sp_reserve_limits p a exp now' rs Hlim) as Hlim'.
  exists (sp_reserve reg dataset rc p a exp now' rs).1.
  destruct (Reserve reg dataset rc p a exp now' (r_constraints r)) as [c [err|]]; cbn [fst snd] in *; constructor; cbn; try done;
    intros v Hv Hle Hopen; apply sp_reserve_elem in Hv as [[Hv Hne]|(Hp & He & Hn)].
  - apply Hback; [done|lia|done].
  - congruence.
  - rewrite lookup_insert_ne by done. apply Hback; [done|lia|done].
  - by rewrite Hp, He, lookup_insert_eq.
Qed.

Lemma rstep_inv ok s s' rs : rstep ok s s' -> rinv rs s -> exists rs', rinv rs' s'.
Proof.
  intros Hs H. destruct Hs as [p a acl written now now' r cs t Ht|src a resources dest acl r cs t Hok|src dest cs1 cs2 r t|now r cs t Ht|p connected r cs t|r cs t].
  - by eapply reserve_inv.
  - exists rs. destruct H as [Hrep Hlim Hcon Hback]. pose proof (connect_counted src a resources dest acl r cs Hcon) as Hc.
    destruct (admit_inv src a resources dest acl r) as [(E & _)|(st & E & _)]; rewrite E in *; constructor; done.
  - exists rs. destruct H as [Hrep Hlim Hcon Hback]. pose proof (cleanup_counted src dest cs1 cs2 r Hcon) as Hc. constructor; done.
  - exists rs. destruct H as [Hrep Hlim Hcon Hback]. cbn in *. constructor; cbn; try done.
    + intros p. rewrite map_lookup_filter, Hcon. unfold count_opt. destruct (Z.eqb_spec (uses p cs) 0); [done|]. cbn. by rewrite option_guard_True.
    + intros v Hv Hle Hopen. apply map_lookup_filter_Some. split; [apply Hback; [done|lia|done]|]. cbn. rewrite Hopen. cbn. lia.
  - destruct connected; [by exists rs|]. destruct H as [Hrep Hlim Hcon Hback]. cbn in *.
    exists (drop_rsv (fun pe => bool_decide (pe_Peer pe = p)) rs). constructor; cbn; try done.
    + by apply prune_represents.
    + by apply filter_limits.
    + intros v Hv Hle Hopen. apply elem_of_filter' in Hv as [Hv Hf]. cbn in Hf. case_bool_decide; [done|].
      rewrite lookup_delete_ne by done. by apply Hback.
  - exists rs. destruct H as [Hrep Hlim Hcon Hback]. by constructor.
Qed.

Lemma new_inv' t : rinv [] (mkState newRelay [] t).
Proof.
  constructor; cbn; [apply newConstraints_represents| |done|intros v Hv; by apply elem_of_nil in Hv].
  constructor; cbn; [constructor|lia|unfold sp_count; cbn; lia..].
Qed.

Lemma run_inv ok t s : rtc (rstep ok) (mkState newRelay [] t) s -> exists rs, rinv rs s.
Proof.
  revert s. apply (rtc_ind_r (fun s => exists rs, rinv rs s)); [exists []; apply new_inv'|].
  intros s1 s2 Hr Hs [rs H]. by eapply rstep_inv.
Qed.

(** C31: The reservations the constraints hold never exceed the limits: in total, for an IP address, for
    an AS number, one for a peer; and until it expires each of them is one the relay honours. *)
Theorem reservations_bounded ok t s :
  rtc (rstep ok) (mkState newRelay [] t) s ->
  let c := r_constraints (rs_relay s) in
  Z.of_nat (length (c_total c)) <= MaxReservations rc /\ NoDup (map pe_Peer (c_total c)) /\
  (forall k l, c_ips c !! k = Some l -> l <> [] /\ Z.of_nat (length l) <= MaxReservationsPerIP rc) /\
  (forall n l, c_asns c !! n = Some l -> l <> [] /\ Z.of_nat (length l) <= MaxReservationsPerASN rc) /\
  (forall pe, pe ∈ c_total c -> rs_clock s <= Expiry pe -> r_closed (rs_relay s) = false ->
    r_rsvp (rs_relay s) !! pe_Peer pe = Some (Expiry pe)).
Proof.
  intros Hr. destruct (run_inv ok t s Hr) as (rs & [[Ht Hi Ha] [Hd Hmax Hip Hasn] _ Hback]). cbn zeta. rewrite Ht.
  assert (forall l (l' : list peerWithExpiry), some_list l = Some l' -> l' <> [] /\ l' = l) as Hsome by (intros [|x l] l' [= <-]; done).
  split_and!.
  - by rewrite length_map.
  - rewrite map_map. exact Hd.
  - intros k l Hl. rewrite Hi in Hl. apply Hsome in Hl as [Hne ->]. split; [done|]. rewrite length_map. apply Hip.
  - intros n l Hl. rewrite Ha in Hl. apply Hsome in Hl as [Hne ->]. split; [done|]. rewrite length_map. apply Hasn.
  - intros pe Hpe. apply list_elem_of_fmap in Hpe as (v & -> & Hv). by apply Hback.
Qed.

(** The relay counts the circuits of every peer exactly, and admits a circuit only to a
    peer with a reservation while both its ends are below the limit. *)
Theorem circuits_counted ok t s :
  rtc (rstep ok) (mkState newRelay [] t) s ->
  (forall p, conns_of p (rs_relay s) = uses p (rs_circuits s)) /\
  (forall src a resources dest acl r', admitConnect reg rc src a resources (Some dest) acl (rs_relay s) = (r', Status_OK) ->
    is_Some (r_rsvp (rs_relay s) !! dest) /\ uses src (rs_circuits s) < MaxCircuits rc /\ uses dest (rs_circuits s) < MaxCircuits rc).
Proof.
  intros Hr. destruct (run_inv ok t s Hr) as (rs & [_ _ Hcon _]).
  assert (forall p, conns_of p (rs_relay s) = uses p (rs_circuits s)) as Hc
    by (intros p; unfold conns_of; rewrite Hcon; apply count_opt_pos, uses_nonneg).
  split; [done|]. intros src a resources dest acl r' E. rewrite <- !Hc.
  destruct (admit_inv src a resources dest acl (rs_relay s)) as [(_ & ? & ? & ?)|(st & E' & Hst)]; [done|]. rewrite E' in E. by simplify_eq.
Qed.

(** When no peer asks for a circuit to itself, no peer is part of more circuits than
    the limit allows. *)
Theorem circuits_bounded t s :
  0 <= MaxCircuits rc -> rtc (rstep (fun src dest => src <> dest)) (mkState newRelay [] t) s ->
  forall p, uses p (rs_circuits s) <= MaxCircuits rc.
Proof.
  intros Hmax. revert s. apply (rtc_ind_r (fun s => forall p, uses p (rs_circuits s) <= MaxCircuits rc)); [intros p; by cbn|].
  intros s1 s2 Hr Hs IH.
  destruct (run_inv _ t s1 Hr) as (rs & [_ _ Hcon _]).
  destruct Hs as [| src a resources dest acl r cs t' Hok|src dest cs1 cs2 r t'| | |]; cbn [rs_circuits] in *; try done.
  - assert (forall p, conns_of p r = uses p cs) as Hc by (intros p; unfold conns_of; rewrite Hcon; apply count_opt_pos, uses_nonneg).
    destruct (admit_inv src a resources dest acl r) as [(-> & H1 & H2 & _)|(st & -> & Hst)]; cbn [snd]; [|by destruct st].
    rewrite Hc in H1, H2. intros p. rewrite uses_cons. specialize (IH p). repeat case_decide; subst; try done; lia.
  - intros p. specialize (IH p). rewrite uses_middle, uses_cons in IH. repeat case_decide; lia.
Qed.
End runs.

(** ** Examples *)

Module RelayDemo.
Definition rc : Resources := mkResources None 100 2 1 2048 1 1 1.
Definition reserve (p : string) (a : Multiaddr) (now : Z) (r : Relay) : Relay * Status :=
  handleReserve RankDemo.reg [] rc (str p) a true true now now r.

(** Two peers reserve, and a circuit is opened from the first to the second. *)
Definition r1 : Relay := (reserve "a" RankDemo.lan 10 newRelay).1.
Definition r2 : Relay := (reserve "b" RankDemo.tcp4 20 r1).1.
Definition r3 : Relay := (admitConnect RankDemo.reg rc (str "a") RankDemo.lan true (Some (str "b")) true r2).1.
Definition s3 : rstate := mkState r3 [(str "a", str "b")] 20.

Lemma s3_reached : rtc (rstep RankDemo.reg [] rc (fun src dest => src <> dest)) (mkState newRelay [] 0) s3.
Proof.
  eapply rtc_l; [apply (rstep_reserve _ _ _ _ (str "a") RankDemo.lan true true 10 10); lia|]. fold r1.
  eapply rtc_l; [apply (rstep_reserve _ _ _ _ (str "b") RankDemo.tcp4 true true 20 20); lia|]. fold r2.
  apply rtc_once.
  pose proof (rstep_connect RankDemo.reg [] rc (fun src dest => src <> dest) (str "a") RankDemo.lan true (str "b") true r2 [] 20) as H.
  assert ((admitConnect RankDemo.reg rc (str "a") RankDemo.lan true (Some (str "b")) true r2).2 = Status_OK) as E by (vm_compute; reflexivity).
  rewrite E in H. apply H. discriminate.
Qed.
End RelayDemo.

Lemma reservations_bounded_witness : Z.of_nat (length (c_total (r_constraints RelayDemo.r3))) <= 2.
Proof.
  destruct (reservations_bounded RankDemo.reg [] RelayDemo.rc ltac:(cbn; lia) _ 0 RelayDemo.s3 RelayDemo.s3_reached) as [H _]. exact H.
Defined.

Lemma circuits_counted_witness : conns_of (str "b") RelayDemo.r3 = uses (str "b") [(str "a", str "b")].
Proof.
  destruct (circuits_counted RankDemo.reg [] RelayDemo.rc ltac:(cbn; lia) _ 0 RelayDemo.s3 RelayDemo.s3_reached) as [H _]. exact (H (str "b")).
Defined.

Lemma circuits_bounded_witness : uses (str "b") [(str "a", str "b")] <= 1.
Proof. apply (circuits_bounded RankDemo.reg [] RelayDemo.rc ltac:(cbn; lia) 0 RelayDemo.s3 ltac:(cbn; lia) RelayDemo.s3_reached). Defined.

(** A refresh that is refused, here because the peer moved to an address that is taken, leaves the old
    reservation in the relay but not in the constraints: a third peer gets a reservation
    where two are allowed. *)
Lemma refused_refresh_overruns :
  let (r1, st1) := RelayDemo.reserve "a" RankDemo.lan 10 newRelay in
  let (r2, st2) := RelayDemo.reserve "b" RankDemo.tcp4 20 r1 in
  let (r3, st3) := RelayDemo.reserve "a" RankDemo.tcp4 30 r2 in
  let (r4, st4) := RelayDemo.reserve "c" RankDemo.tcp6 40 r3 in
  (st1, st2, st3, st4) = (Status_OK, Status_OK, Status_RESERVATION_REFUSED, Status_OK) /\
  MaxReservations RelayDemo.rc = 2 /\
  r_rsvp r4 !! str "a" = Some 110 /\ r_rsvp r4 !! str "b" = Some 120 /\ r_rsvp r4 !! str "c" = Some 140.
Proof. vm_compute. done. Qed.

(** A circuit of a peer to itself counts twice, past the limit. *)
Lemma self_circuit_overruns :
  let (r, st) := admitConnect RankDemo.reg RelayDemo.rc (str "a") RankDemo.lan true (Some (str "a")) true RelayDemo.r1 in
  st = Status_OK /\ conns_of (str "a") r = 2 /\ MaxCircuits RelayDemo.rc = 1.
Proof. vm_compute. done. Qed.
