(* ===== verification/Yamux.v ===== *)
(** * yamux: frames and receive buffers (src/p2plib/yamux/const.go, util.go, mux.go)

    The twelve-byte frame header and the frames [sendMsg] and the receive loop exchange; the
    segmented buffer that holds the bytes a stream received and counts the window it granted.

    [Length] of a data frame is the number of bytes that follow it, of a window update the
    credit it grants.  The capacity the Go runtime gives a grown slice is the argument
    [growslice]; the pool the segments come from is not modelled. *)

From stdpp Require Import base list numbers.
From Stdlib Require Import ZArith Lia.
From S2P Require Import Prelude Transcoders.

(** ** Machine words *)

Definition MaxUint32 : Z := 2 ^ 32 - 1.
Definition wrap32 (z : Z) : Z := z mod 2 ^ 32.
Definition uint32 (z : Z) : Prop := 0 <= z < 2 ^ 32.

Lemma wrap32_id z : uint32 z -> wrap32 z = z.
Proof. unfold uint32, wrap32. intros. apply Z.mod_small; lia. Qed.

(** [go32] removes every [wrap32] whose argument [lia] can bound, then calls [lia]. *)
Ltac unwrap32 :=
  repeat match goal with
  | |- context [wrap32 ?z] => rewrite (wrap32_id z) by (unfold uint32, MaxUint32 in *; lia)
  | H : context [wrap32 ?z] |- _ => rewrite (wrap32_id z) in H by (unfold uint32, MaxUint32 in *; lia)
  end.
Ltac go32 := unwrap32; unfold uint32, MaxUint32 in *; lia.

(** ** Constants *)

Inductive yerror : Type :=
| ErrInvalidVersion | ErrInvalidMsgType | ErrSessionShutdown | ErrStreamsExhausted | ErrDuplicateStream
| ErrRecvWindowExceeded | ErrTimeout | ErrStreamClosed | ErrRemoteGoAway | ErrStreamReset
| ErrEOF | ErrUnexpectedEOF | ErrCancelled | ErrMemory | ErrBothClients | ErrProtocol | ErrRemoteInternal | ErrUnexpectedGoAway
| ErrConfig.
#[export] Instance yerror_eq_dec : EqDecision yerror.
Proof. solve_decision. Defined.

Definition protoVersion : Z := 0.
Definition typeData : Z := 0.
Definition typeWindowUpdate : Z := 1.
Definition typePing : Z := 2.
Definition typeGoAway : Z := 3.
Definition flagSYN : Z := Z.shiftl 1 0.
Definition flagACK : Z := Z.shiftl 1 1.
Definition flagFIN : Z := Z.shiftl 1 2.
Definition flagRST : Z := Z.shiftl 1 3.
Definition initialStreamWindow : Z := 256 * 1024.
Definition maxStreamWindow : Z := 16 * 1024 * 1024.
Definition goAwayNormal : Z := 0.
Definition goAwayProtoErr : Z := 1.
Definition goAwayInternalErr : Z := 2.
Definition headerSize : Z := 1 + 1 + 2 + 4 + 4.

(** [flags&f == f] *)
Definition has_flag (flags f : Z) : bool := Z.land flags f =? f.

(** ** Configuration (mux.go)

    The fields the model uses; the switches and times of keep-alive and the sizes of the I/O buffers
    are left out.  Times are nanoseconds. *)

Record Config := mkConfig {
  AcceptBacklog : Z;
  PingBacklog : Z;
  KeepAliveInterval : Z;
  MeasureRTTInterval : Z;
  MaxIncomingStreams : Z;
  InitialStreamWindowSize : Z;
  MaxStreamWindowSize : Z;
  WriteCoalesceDelay : Z;
  MaxMessageSize : Z
}.
Definition DefaultConfig : Config :=
  mkConfig 256 32 30000000000 30000000000 1000 initialStreamWindow maxStreamWindow 100000 (64 * 1024).
Definition VerifyConfig (config : Config) : option yerror :=
  if AcceptBacklog config <=? 0 then Some ErrConfig
  else if KeepAliveInterval config =? 0 then Some ErrConfig
  else if MeasureRTTInterval config =? 0 then Some ErrConfig
  else if InitialStreamWindowSize config <? initialStreamWindow then Some ErrConfig
  else if MaxStreamWindowSize config <? InitialStreamWindowSize config then Some ErrConfig
  else if MaxMessageSize config <? 1024 then Some ErrConfig
  else if WriteCoalesceDelay config <? 0 then Some ErrConfig
  else if PingBacklog config <? 1 then Some ErrConfig
  else None.

(** ** Headers *)

Definition Version (h : list Z) : Z := nth 0 h 0.
Definition MsgType (h : list Z) : Z := nth 1 h 0.
Definition Flags (h : list Z) : Z := get_be (take 2 (drop 2 h)).
Definition StreamID (h : list Z) : Z := get_be (take 4 (drop 4 h)).
Definition Length (h : list Z) : Z := get_be (take 4 (drop 8 h)).
Definition encode (msgType flags streamID length : Z) : list Z :=
  [protoVersion; msgType] ++ put_be 2 flags ++ put_be 4 streamID ++ put_be 4 length.

(** A frame: a header with its fields read, and the bytes after it. *)
Record frame := mkFrame { fr_type : Z; fr_flags : Z; fr_id : Z; fr_length : Z; fr_body : list Z }.

(** The buffer [sendMsg] queues. *)
Definition frame_bytes (f : frame) : list Z :=
  encode (fr_type f) (fr_flags f) (fr_id f) (fr_length f) ++ fr_body f.

(** [io.ReadFull] of [n] bytes: a connection that ends before the first byte gives [EOF]. *)
Definition ReadFull (n : nat) (input : list Z) : result yerror (list Z * list Z) :=
  if (n <=? length input)%nat then Ok (take n input, drop n input)
  else if (length input =? 0)%nat then Err ErrEOF else Err ErrUnexpectedEOF.

(** One turn of [recvLoop]: the header, its checks and, for a data frame, the bytes its handler
    consumes, which are [Length] bytes whether the stream exists ([readData]) or not (drained).  A
    body cut short gives the error [readData] returns; for an unknown stream the next read fails. *)
Definition recvFrame (input : list Z) : result yerror (frame * list Z) :=
  match ReadFull (Z.to_nat headerSize) input with
  | Err e => Err e
  | Ok (hdr, rest) =>
      if negb (Version hdr =? protoVersion) then Err ErrInvalidVersion
      else if (MsgType hdr <? typeData) || (typeGoAway <? MsgType hdr) then Err ErrInvalidMsgType
      else if MsgType hdr =? typeData then
        if Length hdr =? 0 then Ok (mkFrame (MsgType hdr) (Flags hdr) (StreamID hdr) (Length hdr) [], rest)
        else
          match ReadFull (Z.to_nat (Length hdr)) rest with
          | Err _ => Err ErrUnexpectedEOF
          | Ok (body, rest') => Ok (mkFrame (MsgType hdr) (Flags hdr) (StreamID hdr) (Length hdr) body, rest')
          end
      else Ok (mkFrame (MsgType hdr) (Flags hdr) (StreamID hdr) (Length hdr) [], rest)
  end.

(** The frames of a connection, up to the error that ends the loop. *)
Fixpoint recvFrames (fuel : nat) (input : list Z) : list frame * yerror :=
  match fuel with
  | O => ([], ErrEOF)
  | S fuel =>
      match recvFrame input with
      | Err e => ([], e)
      | Ok (f, rest) => let '(fs, e) := recvFrames fuel rest in (f :: fs, e)
      end
  end.

(** Frames [sendMsg] is given. *)
Definition frame_ok (f : frame) : Prop :=
  0 <= fr_type f <= 3 /\ 0 <= fr_flags f < 2 ^ 16 /\ uint32 (fr_id f) /\ uint32 (fr_length f) /\
  (if fr_type f =? typeData then Z.of_nat (length (fr_body f)) = fr_length f else fr_body f = []).

(** ** Segmented buffers *)

Record segmentedBuffer := mkBuf {
  b_cap : Z;
  b_len : Z;
  readPos : nat;
  bPos : nat;
  b_segs : list (list Z);
  b_slicecap : nat
}.

Definition newSegmentedBuffer (initialCapacity : Z) : segmentedBuffer := mkBuf initialCapacity 0 0 0 [] 16.

(** The result says whether a window update is needed and what credit it grants. *)
Definition GrowTo (max : Z) (force : bool) (s : segmentedBuffer) : bool * Z * segmentedBuffer :=
  let currentWindow := wrap32 (b_cap s + b_len s) in
  if max <=? currentWindow then (force, 0, s)
  else
    let delta := wrap32 (max - currentWindow) in
    if (delta <? max / 2) && negb force then (false, 0, s)
    else (true, delta, mkBuf (wrap32 (b_cap s + delta)) (b_len s) (readPos s) (bPos s) (b_segs s) (b_slicecap s)).

(** [Read] into a slice of [k] bytes; a segment that is read whole becomes nil. *)
Definition buf_Read (k : nat) (s : segmentedBuffer) : result yerror (list Z) * segmentedBuffer :=
  match b_segs s !! bPos s with
  | None => (Err ErrEOF, s)
  | Some seg =>
      let data := drop (readPos s) seg in
      let bs := take k data in
      let n := length bs in
      let len := if (0 <? n)%nat then wrap32 (b_len s - Z.of_nat n) else b_len s in
      if (n =? length data)%nat
      then (Ok bs, mkBuf (b_cap s) len 0 (S (bPos s)) (<[bPos s := []]> (b_segs s)) (b_slicecap s))
      else (Ok bs, mkBuf (b_cap s) len (readPos s + n) (bPos s) (b_segs s) (b_slicecap s))
  end.

Definition checkOverflow (l : Z) (s : segmentedBuffer) : option yerror :=
  if b_cap s <? l then Some ErrRecvWindowExceeded else None.

Section append.
Variable growslice : nat -> nat.

(** [s.b = append(s.b, seg)] *)
Definition append_seg (seg : list Z) (s : segmentedBuffer) : segmentedBuffer :=
  let segs := b_segs s ++ [seg] in
  mkBuf (b_cap s) (b_len s) (readPos s) (bPos s) segs
    (if (length segs <=? b_slicecap s)%nat then b_slicecap s else growslice (length segs)).

(** The shift that frees space at the end of the slice. *)
Definition shift_segs (s : segmentedBuffer) : segmentedBuffer :=
  if (length (b_segs s) =? b_slicecap s)%nat && (0 <? bPos s)%nat then
    if (bPos s =? length (b_segs s))%nat then mkBuf (b_cap s) (b_len s) (readPos s) 0 [] (b_slicecap s)
    else if (b_slicecap s / 4 <? bPos s)%nat
    then mkBuf (b_cap s) (b_len s) (readPos s) 0 (drop (bPos s) (b_segs s)) (b_slicecap s)
    else s
  else s.

(** [Append] of [l] bytes of [input], the bytes left on the connection: the error, the buffer and
    what remains of the input. *)
Definition Append (input : list Z) (l : Z) (s : segmentedBuffer) : option yerror * segmentedBuffer * list Z :=
  match checkOverflow l s with
  | Some e => (Some e, s, input)
  | None =>
      let dst := take (Z.to_nat l) input in
      let n := length dst in
      let err := if (n <? Z.to_nat l)%nat then Some ErrUnexpectedEOF else None in
      let s' :=
        if (0 <? n)%nat then
          append_seg dst (shift_segs (mkBuf (wrap32 (b_cap s - Z.of_nat n)) (wrap32 (b_len s + Z.of_nat n))
                                            (readPos s) (bPos s) (b_segs s) (b_slicecap s)))
        else s in
      (err, s', drop (Z.to_nat l) input)
  end.
End append.

(** ** What the buffer holds *)

(** The bytes not read yet. *)
Definition unread (s : segmentedBuffer) : list Z :=
  match drop (bPos s) (b_segs s) with
  | [] => []
  | seg :: segs => drop (readPos s) seg ++ concat segs
  end.

Definition buf_ok (s : segmentedBuffer) : Prop :=
  b_len s = Z.of_nat (length (unread s)) /\ 0 <= b_cap s /\ b_cap s + b_len s <= MaxUint32 /\
  (bPos s <= length (b_segs s))%nat /\
  match drop (bPos s) (b_segs s) with
  | [] => readPos s = 0%nat
  | seg :: segs => (readPos s < length seg)%nat /\ Forall (fun x => x <> []) segs
  end.

(** ** Lemmas *)

Lemma put_be_length k n : length (put_be k n) = k.
Proof. induction k; simpl; congruence. Qed.

Lemma get_put_be k n : 0 <= n < 256 ^ Z.of_nat k -> get_be (put_be k n) = n.
Proof.
  enough (get_be (put_be k n) = n mod 256 ^ Z.of_nat k) as -> by apply Z.mod_small.
  induction k as [|k IH]; [simpl; by rewrite Z.mod_1_r|]. cbn [put_be get_be]. rewrite put_be_length, IH, Nat2Z.inj_succ.
  rewrite Z.pow_succ_r by lia. rewrite (Z.mul_comm 256), Z.rem_mul_r by lia. lia.
Qed.

Lemma header_length t fl i l : length (encode t fl i l) = 12%nat.
Proof. unfold encode. by rewrite !length_app, !put_be_length. Qed.

Lemma encode_fields t fl i l :
  0 <= fl < 2 ^ 16 -> uint32 i -> uint32 l ->
  Version (encode t fl i l) = protoVersion /\ MsgType (encode t fl i l) = t /\ Flags (encode t fl i l) = fl /\
  StreamID (encode t fl i l) = i /\ Length (encode t fl i l) = l.
Proof.
  unfold uint32. intros Hf Hi Hl. split_and!; [done|done|..]; unfold Flags, StreamID, Length, encode.
  - change (drop 2 ([protoVersion; t] ++ ?x)) with x. rewrite take_app_length' by (rewrite put_be_length; lia). apply get_put_be. lia.
  - change (drop 4 ([protoVersion; t] ++ ?x)) with (drop 2 x). rewrite drop_app_length', take_app_length' by (rewrite put_be_length; lia).
    apply get_put_be. lia.
  - change (drop 8 ([protoVersion; t] ++ ?x)) with (drop 6 x). rewrite app_assoc, drop_app_length'
      by (rewrite length_app, !put_be_length; lia).
    rewrite take_ge by (rewrite put_be_length; lia). apply get_put_be. lia.
Qed.

Lemma ReadFull_app n l rest : length l = n -> ReadFull n (l ++ rest) = Ok (l, rest).
Proof.
  intros <-. unfold ReadFull. rewrite length_app. destruct (Nat.leb_spec (length l) (length l + length rest)); [|lia].
  by rewrite take_app_length, drop_app_length.
Qed.

Lemma recvFrame_app f rest : frame_ok f -> recvFrame (frame_bytes f ++ rest) = Ok (f, rest).
Proof.
  destruct f as [t fl i l body]. intros (Ht & Hf & Hi & Hl & Hb). simpl in Ht, Hf, Hi, Hl, Hb. unfold recvFrame, frame_bytes.
  cbn [fr_type fr_flags fr_id fr_length fr_body].
  rewrite <- app_assoc, ReadFull_app by apply header_length.
  destruct (encode_fields t fl i l Hf Hi Hl) as (-> & -> & -> & -> & ->). simpl.
  assert ((t <? typeData) || (typeGoAway <? t) = false) as ->.
  { apply orb_false_intro; unfold typeData, typeGoAway; zbool. }
  destruct (t =? typeData); [|by subst body]. destruct (l =? 0) eqn:E; bool_props.
  - subst l. by destruct body.
  - rewrite ReadFull_app by lia. done.
Qed.

Lemma recvFrames_app fs n : Forall frame_ok fs -> (length fs < n)%nat ->
  recvFrames n (concat (map frame_bytes fs)) = (fs, ErrEOF).
Proof.
  intros H. revert n. induction H as [|f fs Hf _ IH]; intros n Hn; (destruct n as [|n]; [simpl in Hn; lia|]); [done|].
  simpl in Hn. cbn [recvFrames map concat]. rewrite recvFrame_app, IH by (done || lia). done.
Qed.

(** What is read first, and the rest. *)
Lemma unread_cons s seg segs :
  drop (bPos s) (b_segs s) = seg :: segs -> unread s = drop (readPos s) seg ++ concat segs.
Proof. unfold unread. by intros ->. Qed.

Lemma unread_nil s : buf_ok s -> unread s = [] -> bPos s = length (b_segs s).
Proof.
  intros (_ & _ & _ & Hp & Hr) Hu. destruct (drop (bPos s) (b_segs s)) as [|seg segs] eqn:E.
  - apply (f_equal length) in E. rewrite length_drop in E. simpl in E. lia.
  - rewrite (unread_cons s seg segs E) in Hu. apply app_eq_nil in Hu as [Hu _]. apply (f_equal length) in Hu.
    rewrite length_drop in Hu. simpl in Hu. lia.
Qed.

Lemma new_buf_ok c : uint32 c -> buf_ok (newSegmentedBuffer c).
Proof. unfold buf_ok, uint32, MaxUint32. simpl. lia. Qed.

(** The window grows by the credit that is granted, to [max] or not at all, and it is left alone
    only when less than half of [max] is missing. *)
Lemma GrowTo_spec max force s needed delta s' :
  buf_ok s -> uint32 max -> GrowTo max force s = (needed, delta, s') ->
  buf_ok s' /\ unread s' = unread s /\ b_len s' = b_len s /\ b_cap s' = b_cap s + delta /\ 0 <= delta /\
  (0 < delta -> b_cap s' + b_len s' = max /\ (force = false -> max / 2 <= delta)) /\
  (needed = false -> force = false /\ delta = 0) /\
  (force = true -> needed = true /\ max <= b_cap s' + b_len s') /\
  (0 < max -> max - (b_cap s' + b_len s') < max / 2 \/ max <= b_cap s' + b_len s').
Proof.
  intros Hok Hm. pose proof Hok as (Hl & Hc & Hw & Hp & Hr). unfold GrowTo.
  assert (0 <= b_len s) by lia. rewrite (wrap32_id (b_cap s + b_len s)) by (unfold uint32, MaxUint32 in *; lia).
  destruct (max <=? b_cap s + b_len s) eqn:E1; bool_props.
  { intros [= <- <- <-]. split_and!; try done; try lia. }
  rewrite (wrap32_id (max - _)) by (unfold uint32, MaxUint32 in *; lia).
  destruct ((max - (b_cap s + b_len s) <? max / 2) && negb force) eqn:E2.
  - bool_props. intros [= <- <- <-]. subst force. split_and!; try done; try lia.
  - intros [= <- <- <-]. rewrite wrap32_id by (unfold uint32, MaxUint32 in *; lia).
    apply andb_false_iff in E2. unfold unread, buf_ok in *. simpl. unfold uint32, MaxUint32 in *.
    split_and!; try done; try lia.
    intros _. split; [lia|]. intros ->. destruct E2; bool_props; [lia|done].
Qed.

(** A read takes a nonempty prefix of the bytes held, when the slice has room for one. *)
Lemma buf_Read_spec k s :
  buf_ok s -> unread s <> [] ->
  exists n s', buf_Read k s = (Ok (take n (unread s)), s') /\ (n <= k)%nat /\ ((0 < k)%nat -> (0 < n)%nat) /\
    (n <= length (unread s))%nat /\ buf_ok s' /\ unread s' = drop n (unread s) /\ b_cap s' = b_cap s.
Proof.
  intros (Hl & Hc & Hw & Hp & Hr) Hne. destruct (drop (bPos s) (b_segs s)) as [|seg segs] eqn:E;
    [by unfold unread in Hne; rewrite E in Hne|]. destruct Hr as [Hr Hs].
  pose proof (unread_cons s seg segs E) as Hu.
  assert (b_segs s !! bPos s = Some seg) as Hseg.
  { rewrite <- (Nat.add_0_r (bPos s)), <- lookup_drop, E. done. }
  assert (drop (S (bPos s)) (b_segs s) = segs) as Hd.
  { replace (S (bPos s)) with (bPos s + 1)%nat by lia. by rewrite <- drop_drop, E. }
  unfold buf_Read. rewrite Hseg. set (data := drop (readPos s) seg) in *.
  assert (0 < length data)%nat as Hdata by (unfold data; rewrite length_drop; lia).
  rewrite length_take. set (n := (k `min` length data)%nat) in *.
  assert (take k data = take n (unread s)) as Ht.
  { rewrite Hu, take_app_le by lia. unfold n. by rewrite <- take_take, (take_ge data (length data)). }
  assert (length (unread s) = length data + length (concat segs))%nat as Hlen by (rewrite Hu; by rewrite length_app).
  assert ((if (0 <? n)%nat then wrap32 (b_len s - Z.of_nat n) else b_len s) = Z.of_nat (length (drop n (unread s)))) as Hnl.
  { rewrite length_drop. destruct (Nat.ltb_spec 0 n) as [?|?]; [|lia]. rewrite wrap32_id by (unfold uint32, MaxUint32 in *; lia). lia. }
  rewrite Hnl. exists n. destruct (Nat.eqb_spec n (length data)) as [En|En]; (eexists; split; [by rewrite Ht|]).
  - assert (drop n (unread s) = concat segs) as Hdr by by rewrite Hu, drop_app_length' by done.
    assert (drop (S (bPos s)) (<[bPos s:=[]]> (b_segs s)) = segs) as Hd' by (rewrite drop_insert_lt by lia; done).
    assert (unread (mkBuf (b_cap s) (Z.of_nat (length (drop n (unread s)))) 0 (S (bPos s)) (<[bPos s:=[]]> (b_segs s))
             (b_slicecap s)) = drop n (unread s)) as Hun.
    { unfold unread at 1. simpl. rewrite Hd', Hdr. by destruct segs. }
    split_and!; [lia|lia|lia| |exact Hun|done]. unfold buf_ok. rewrite Hun. simpl. rewrite length_insert, Hd'. split_and!; try done.
    + rewrite length_drop. lia.
    + apply lookup_lt_Some in Hseg. lia.
    + destruct segs as [|x segs]; [done|]. inversion_clear Hs as [|? ? Hx Hxs]. split; [|done]. destruct x; [done|simpl; lia].
  - assert (drop n (unread s) = drop (readPos s + n) seg ++ concat segs) as Hdr.
    { rewrite Hu, drop_app_le by lia. unfold data. by rewrite drop_drop. }
    assert (unread (mkBuf (b_cap s) (Z.of_nat (length (drop n (unread s)))) (readPos s + n) (bPos s) (b_segs s)
             (b_slicecap s)) = drop n (unread s)) as Hun.
    { unfold unread at 1. simpl. by rewrite E, Hdr. }
    split_and!; [lia|lia|lia| |exact Hun|done]. unfold buf_ok. rewrite Hun. simpl. rewrite E. split_and!; try done.
    + rewrite length_drop. lia.
    + assert (length data = length seg - readPos s)%nat by apply length_drop. lia.
Qed.

(** Shifting the segments changes nothing that can be observed. *)
Lemma shift_segs_spec s :
  (bPos s <= length (b_segs s))%nat ->
  let s' := shift_segs s in
  drop (bPos s') (b_segs s') = drop (bPos s) (b_segs s) /\ readPos s' = readPos s /\ b_cap s' = b_cap s /\
  b_len s' = b_len s /\ (bPos s' <= length (b_segs s'))%nat.
Proof.
  intros Hp. unfold shift_segs. repeat case_match; simpl; split_and!; try done; try lia.
  match goal with H : (_ =? _)%nat = true |- _ => apply Nat.eqb_eq in H; rewrite H end. by rewrite drop_all.
Qed.

Lemma Append_spec growslice input l s :
  buf_ok s -> 0 < l <= Z.of_nat (length input) -> l <= b_cap s ->
  exists s', Append growslice input l s = (None, s', drop (Z.to_nat l) input) /\
    buf_ok s' /\ unread s' = unread s ++ take (Z.to_nat l) input /\ b_cap s' = b_cap s - l.
Proof.
  intros (Hl & Hc & Hw & Hp & Hr) Hlen Hfit. unfold Append, checkOverflow.
  assert ((b_cap s <? l) = false) as -> by zbool. rewrite length_take.
  replace (Z.to_nat l `min` length input)%nat with (Z.to_nat l) by lia. rewrite Nat.ltb_irrefl.
  assert ((0 <? Z.to_nat l)%nat = true) as -> by (apply Nat.ltb_lt; lia). rewrite Z2Nat.id by lia.
  rewrite !wrap32_id by (unfold uint32, MaxUint32 in *; lia). eexists. split; [reflexivity|].
  set (dst := take (Z.to_nat l) input). assert (length dst = Z.to_nat l) as Hdst by (unfold dst; rewrite length_take; lia).
  set (s1 := mkBuf _ _ _ _ _ _). destruct (shift_segs_spec s1) as (Hd & Hrp & Hcap & Hln & Hb); [done|].
  set (s2 := shift_segs s1) in *. simpl in Hd, Hrp, Hcap, Hln. unfold s1 in Hd, Hrp, Hcap, Hln. simpl in *.
  assert (unread (append_seg growslice dst s2) = unread s ++ dst /\
          match drop (bPos s2) (b_segs s2 ++ [dst]) with
          | [] => readPos s2 = 0%nat
          | seg :: segs => (readPos s2 < length seg)%nat /\ Forall (fun x => x <> []) segs
          end) as [Hun Hm].
  { unfold unread. simpl. rewrite drop_app_le, Hd, Hrp by done.
    destruct (drop (bPos s) (b_segs s)) as [|seg segs]; simpl.
    - rewrite Hr. simpl. rewrite app_nil_r. split; [done|]. split; [lia|done].
    - rewrite concat_app. simpl. rewrite app_nil_r, app_assoc. split; [done|]. destruct Hr as [? ?]. split; [done|].
      apply Forall_app. split; [done|]. constructor; [|done]. destruct dst; [simpl in *; lia|done]. }
  split_and!; [|exact Hun|simpl; lia]. unfold buf_ok. rewrite Hun. simpl. rewrite length_app, length_app.
  split_and!; try done; try lia.
Qed.

Lemma Append_overflow growslice input l s :
  b_cap s < l -> Append growslice input l s = (Some ErrRecvWindowExceeded, s, input).
Proof. intros H. unfold Append, checkOverflow. by assert ((b_cap s <? l) = true) as -> by zbool. Qed.

(** ** Frames survive the connection *)

(** C14: The frames one side sends are the frames the other side's receive loop handles, whatever the
    frames are; the loop then ends with the connection. *)
Theorem frames_roundtrip fs :
  Forall frame_ok fs -> recvFrames (S (length fs)) (concat (map frame_bytes fs)) = (fs, ErrEOF).
Proof. intros H. apply recvFrames_app; [done|lia]. Qed.

Lemma frames_roundtrip_witness :
  let fs := [mkFrame typeWindowUpdate flagSYN 1 0 []; mkFrame typeData 0 1 3 [7; 8; 9];
             mkFrame typeGoAway 0 0 goAwayNormal []] in
  recvFrames 4 (concat (map frame_bytes fs)) = (fs, ErrEOF).
Proof.
  apply (frames_roundtrip [mkFrame typeWindowUpdate flagSYN 1 0 []; mkFrame typeData 0 1 3 [7; 8; 9];
                           mkFrame typeGoAway 0 0 goAwayNormal []]).
  repeat constructor; vm_compute; congruence.
Defined.

(** ** The buffer is a queue *)

Inductive bufop := BAppend (bs : list Z) | BRead (k : nat) | BGrow (max : Z) (force : bool).

(** The bytes read and the bytes taken in. *)
Record bufrun := mkRun { r_buf : segmentedBuffer; r_in : list Z; r_out : list Z }.

Definition buf_step (growslice : nat -> nat) (r : bufrun) (o : bufop) : bufrun :=
  match o with
  | BAppend bs =>
      match Append growslice bs (Z.of_nat (length bs)) (r_buf r) with
      | (None, b, _) => mkRun b (r_in r ++ bs) (r_out r)
      | (Some _, b, _) => mkRun b (r_in r) (r_out r)
      end
  | BRead k =>
      match buf_Read k (r_buf r) with
      | (Ok bs, b) => mkRun b (r_in r) (r_out r ++ bs)
      | (Err _, b) => mkRun b (r_in r) (r_out r)
      end
  | BGrow max force => let '(_, _, b) := GrowTo max force (r_buf r) in mkRun b (r_in r) (r_out r)
  end.

Definition bufop_ok (W : Z) (o : bufop) : Prop := match o with BGrow max _ => 0 <= max <= W | _ => True end.

Lemma buf_step_queue growslice W r o :
  uint32 W -> bufop_ok W o ->
  buf_ok (r_buf r) /\ b_cap (r_buf r) + b_len (r_buf r) <= W /\ r_out r ++ unread (r_buf r) = r_in r ->
  let r' := buf_step growslice r o in
  buf_ok (r_buf r') /\ b_cap (r_buf r') + b_len (r_buf r') <= W /\ r_out r' ++ unread (r_buf r') = r_in r'.
Proof.
  intros HW Ho (Hok & Hw & Hq). pose proof Hok as (Hl & _). destruct o as [bs|k|max force]; simpl.
  - destruct (Z.le_gt_cases (Z.of_nat (length bs)) (b_cap (r_buf r))) as [Hle|Hgt];
      [|rewrite Append_overflow by lia; done].
    destruct bs as [|b bs].
    { unfold Append, checkOverflow. destruct (b_cap (r_buf r) <? _); simpl; [done|]. by rewrite app_nil_r. }
    destruct (Append_spec growslice (b :: bs) (Z.of_nat (length (b :: bs))) (r_buf r)) as (s' & E & Hok' & Hu & Hc);
      [done|simpl; lia|done|]. rewrite E. simpl r_buf. simpl r_in. simpl r_out. rewrite Nat2Z.id, take_ge in Hu by lia.
    pose proof Hok' as (Hl' & _). rewrite Hu in *. rewrite length_app in Hl'. split_and!; [done|lia|]. by rewrite app_assoc, Hq.
  - destruct (decide (unread (r_buf r) = [])) as [Hn|Hn].
    + unfold buf_Read. by rewrite (unread_nil _ Hok Hn), lookup_ge_None_2 by lia.
    + destruct (buf_Read_spec k (r_buf r) Hok Hn) as (n & s' & E & _ & _ & Hnl & Hok' & Hu & Hc). rewrite E. simpl.
      pose proof Hok' as (Hl' & _). rewrite Hu in *. rewrite length_drop in Hl'. split_and!; [done|lia|].
      by rewrite <- app_assoc, take_drop.
  - destruct (GrowTo max force (r_buf r)) as [[needed delta] s'] eqn:E. simpl in Ho.
    destruct (GrowTo_spec max force (r_buf r) needed delta s' Hok) as (Hok' & Hu & Hlen & Hc & Hd & Hm & _);
      [unfold uint32 in *; lia|done|]. simpl. rewrite Hu. split_and!; [done| |done].
    destruct (Z.eq_dec delta 0); [lia|]. destruct Hm; lia.
Qed.

(** C13: Whatever is appended, read and granted, in any order and in pieces of any size: the bytes read
    followed by the bytes held are the bytes taken in, and the window never passes the largest one
    granted. *)
Theorem buffer_is_queue growslice W ops :
  uint32 W -> initialStreamWindow <= W -> Forall (bufop_ok W) ops ->
  let r := foldl (buf_step growslice) (mkRun (newSegmentedBuffer initialStreamWindow) [] []) ops in
  r_out r ++ unread (r_buf r) = r_in r /\ b_len (r_buf r) = Z.of_nat (length (unread (r_buf r))) /\
  b_cap (r_buf r) + b_len (r_buf r) <= W.
Proof.
  intros HW Hi Hops. set (r0 := mkRun _ _ _).
  assert (buf_ok (r_buf r0) /\ b_cap (r_buf r0) + b_len (r_buf r0) <= W /\ r_out r0 ++ unread (r_buf r0) = r_in r0) as H0.
  { split_and!; [apply new_buf_ok; unfold uint32, initialStreamWindow in *; lia|simpl; lia|done]. }
  clearbody r0. revert r0 H0. induction Hops as [|o ops Ho _ IH]; intros r0 H0; simpl.
  - destruct H0 as ((Hl & _) & Hw & Hq). done.
  - apply IH. by apply (buf_step_queue growslice W).
Qed.

Lemma buffer_is_queue_witness :
  let r := foldl (buf_step (fun n => (2 * n)%nat)) (mkRun (newSegmentedBuffer initialStreamWindow) [] [])
             [BAppend [1; 2; 3]; BRead 2; BAppend [4]; BGrow maxStreamWindow true; BRead 9; BRead 9] in
  r_out r ++ unread (r_buf r) = r_in r /\ b_len (r_buf r) = Z.of_nat (length (unread (r_buf r))) /\
  b_cap (r_buf r) + b_len (r_buf r) <= maxStreamWindow.
Proof.
  apply (buffer_is_queue (fun n => (2 * n)%nat) maxStreamWindow).
  - vm_compute. by split.
  - vm_compute. discriminate.
  - repeat constructor; vm_compute; discriminate.
Defined.
