(* ===== verification/YamuxSession.v ===== *)
(** * yamux: streams and sessions (src/p2plib/yamux/stream.go, session.go)

    A session keeps its streams in a map from IDs to stream objects; an object outlives its entry
    (the accept queue and the user hold pointers to it), so objects are numbered and the map holds
    numbers.  Every call of the code is a function on the session; what it waits for or what time
    decides is an argument: whether a deadline or a context ends a wait ([deadline], [cancelled]),
    whether the round-trip time calls for a larger window ([tune]), whether the memory manager
    grants a request ([mm], [reserve]).  A call that waits, for data, for credit or for the SYN
    semaphore, is [None]; [sendMsg] queues at once, as if [sendCh] were not bounded.

    Not modelled: the notification channels that wake a waiting call, the deadlines' timers, the
    keep-alive timer, the memory spans and the log. *)

From stdpp Require Import base gmap list numbers.
From Stdlib Require Import ZArith Lia.
From S2P Require Import Prelude Transcoders Yamux.

(** ** Streams *)

Inductive streamState := streamInit | streamSYNSent | streamSYNReceived | streamEstablished | streamFinished.
Inductive halfStreamState := halfOpen | halfClosed | halfReset.
#[export] Instance streamState_eq_dec : EqDecision streamState.
Proof. solve_decision. Defined.
#[export] Instance halfStreamState_eq_dec : EqDecision halfStreamState.
Proof. solve_decision. Defined.

Record Stream := mkStream {
  sid : Z;
  sendWindow : Z;
  recvWindow : Z;
  state : streamState;
  writeState : halfStreamState;
  readState : halfStreamState;
  recvBuf : segmentedBuffer
}.

Definition newStream (config : Config) (id : Z) (state : streamState) (initialWindow : Z) : Stream :=
  mkStream id initialStreamWindow (InitialStreamWindowSize config) state halfOpen halfOpen
    (newSegmentedBuffer initialWindow).

Definition set_sendWindow w st :=
  mkStream (sid st) w (recvWindow st) (state st) (writeState st) (readState st) (recvBuf st).
Definition set_recv w b st :=
  mkStream (sid st) (sendWindow st) w (state st) (writeState st) (readState st) b.
Definition set_state x st :=
  mkStream (sid st) (sendWindow st) (recvWindow st) x (writeState st) (readState st) (recvBuf st).
Definition set_writeState x st :=
  mkStream (sid st) (sendWindow st) (recvWindow st) (state st) x (readState st) (recvBuf st).
Definition set_readState x st :=
  mkStream (sid st) (sendWindow st) (recvWindow st) (state st) (writeState st) x (recvBuf st).

(** ** Sessions *)

(** [activePing] is the ping that is waited for and whether its response has come. *)
Record pings := mkPings { pingID : Z; activePing : option (Z * bool); pingCh : list Z; pongCh : list Z }.

(** [shutdown] is [shutdownErr] once the session is closed. *)
Record Session := mkSession {
  config : Config;
  client : bool;
  nextStreamID : Z;
  objs : list Stream;
  streams : gmap Z nat;
  inflight : gset Z;
  synCh : Z;
  acceptCh : list nat;
  numIncomingStreams : Z;
  remoteGoAway : bool;
  localGoAway : bool;
  shutdown : option yerror;
  sendCh : list frame;
  ping : pings
}.

Definition newSession (config : Config) (client : bool) : Session :=
  mkSession config client (if client then 1 else 2) [] ∅ ∅ 0 [] 0 false false None [] (mkPings 0 None [] []).

Definition set_objs l s :=
  mkSession (config s) (client s) (nextStreamID s) l (streams s) (inflight s) (synCh s) (acceptCh s)
    (numIncomingStreams s) (remoteGoAway s) (localGoAway s) (shutdown s) (sendCh s) (ping s).
Definition set_streams m n s :=
  mkSession (config s) (client s) (nextStreamID s) (objs s) m (inflight s) (synCh s) (acceptCh s)
    n (remoteGoAway s) (localGoAway s) (shutdown s) (sendCh s) (ping s).
Definition set_syn i n s :=
  mkSession (config s) (client s) (nextStreamID s) (objs s) (streams s) i n (acceptCh s)
    (numIncomingStreams s) (remoteGoAway s) (localGoAway s) (shutdown s) (sendCh s) (ping s).
Definition set_next n s :=
  mkSession (config s) (client s) n (objs s) (streams s) (inflight s) (synCh s) (acceptCh s)
    (numIncomingStreams s) (remoteGoAway s) (localGoAway s) (shutdown s) (sendCh s) (ping s).
Definition set_accept l s :=
  mkSession (config s) (client s) (nextStreamID s) (objs s) (streams s) (inflight s) (synCh s) l
    (numIncomingStreams s) (remoteGoAway s) (localGoAway s) (shutdown s) (sendCh s) (ping s).
Definition set_goAway r l s :=
  mkSession (config s) (client s) (nextStreamID s) (objs s) (streams s) (inflight s) (synCh s) (acceptCh s)
    (numIncomingStreams s) r l (shutdown s) (sendCh s) (ping s).
Definition set_shutdown e s :=
  mkSession (config s) (client s) (nextStreamID s) (objs s) (streams s) (inflight s) (synCh s) (acceptCh s)
    (numIncomingStreams s) (remoteGoAway s) (localGoAway s) e (sendCh s) (ping s).
Definition set_sendCh l s :=
  mkSession (config s) (client s) (nextStreamID s) (objs s) (streams s) (inflight s) (synCh s) (acceptCh s)
    (numIncomingStreams s) (remoteGoAway s) (localGoAway s) (shutdown s) l (ping s).
Definition set_ping x s :=
  mkSession (config s) (client s) (nextStreamID s) (objs s) (streams s) (inflight s) (synCh s) (acceptCh s)
    (numIncomingStreams s) (remoteGoAway s) (localGoAway s) (shutdown s) (sendCh s) x.

Definition put (p : nat) (st : Stream) (s : Session) : Session := set_objs (<[p := st]> (objs s)) s.

(** ** Sending *)

Definition sendMsg (deadline : bool) (f : frame) (s : Session) : Session * option yerror :=
  match shutdown s with
  | Some e => (s, Some e)
  | None => if deadline then (s, Some ErrTimeout) else (set_sendCh (sendCh s ++ [f]) s, None)
  end.

Definition goAway (reason : Z) (s : Session) : frame * Session :=
  (mkFrame typeGoAway 0 0 reason [], set_goAway (remoteGoAway s) true s).
Definition GoAway (s : Session) : Session * option yerror :=
  let '(f, s) := goAway goAwayNormal s in sendMsg false f s.

Definition sendFlags (st : Stream) : Z * Stream :=
  match state st with
  | streamInit => (flagSYN, set_state streamSYNSent st)
  | streamSYNReceived => (flagACK, set_state streamEstablished st)
  | _ => (0, st)
  end.

(** The window the auto-tuning asks for. *)
Definition tunedWindow (config : Config) (recvWindow : Z) : Z :=
  if MaxUint32 / 2 <? recvWindow then Z.min MaxUint32 (MaxStreamWindowSize config)
  else Z.min (recvWindow * 2) (MaxStreamWindowSize config).

(** What [sendWindowUpdate] does to the stream: its flags, whether an update is sent and the credit
    in it. *)
Definition windowUpdate (config : Config) (tune reserve : bool) (st : Stream) : Z * bool * Z * Stream :=
  let '(flags, st) := sendFlags st in
  let '(needed, delta, buf) := GrowTo (recvWindow st) (negb (flags =? 0)) (recvBuf st) in
  let st := set_recv (recvWindow st) buf st in
  if negb needed then (flags, false, 0, st)
  else if (flags =? 0) && tune && (recvWindow st <? tunedWindow config (recvWindow st)) && reserve then
    let w := tunedWindow config (recvWindow st) in
    let '(_, delta, buf) := GrowTo w true (recvBuf st) in
    (flags, true, delta, set_recv w buf st)
  else (flags, true, delta, st).

Definition sendWindowUpdate (tune reserve deadline : bool) (p : nat) (s : Session) : Session * option yerror :=
  match objs s !! p with
  | None => (s, None)
  | Some st =>
      let '(flags, needed, delta, st) := windowUpdate (config s) tune reserve st in
      if negb needed then (put p st s, None)
      else sendMsg deadline (mkFrame typeWindowUpdate flags (sid st) delta []) (put p st s)
  end.

Definition sendClose (p : nat) (s : Session) : Session * option yerror :=
  match objs s !! p with
  | None => (s, None)
  | Some st =>
      let '(flags, st) := sendFlags st in
      sendMsg false (mkFrame typeWindowUpdate (Z.lor flags flagFIN) (sid st) 0 []) (put p st s)
  end.

(** ** Closing *)

(** [<-s.synCh], when there is a token. *)
Definition releaseSyn (s : Session) : Session := if 0 <? synCh s then set_syn (inflight s) (synCh s - 1) s else s.

Definition incoming (s : Session) (id : Z) : bool := Bool.eqb (client s) (id mod 2 =? 0).

Definition deleteStream (id : Z) (s : Session) : Session :=
  match streams s !! id with
  | None => s
  | Some _ =>
      let n := if incoming s id
               then if numIncomingStreams s =? 0 then MaxUint32 else numIncomingStreams s - 1
               else numIncomingStreams s in
      set_streams (delete id (streams s)) n s
  end.

Definition closeStream (id : Z) (s : Session) : Session :=
  let s := if bool_decide (id ∈ inflight s)
           then let s := releaseSyn s in set_syn (inflight s ∖ {[id]}) (synCh s) s
           else s in
  deleteStream id s.

Definition establishStream (id : Z) (s : Session) : Session :=
  releaseSyn (set_syn (inflight s ∖ {[id]}) (synCh s) s).

Definition reset_half (x : halfStreamState) : halfStreamState := match x with halfOpen => halfReset | _ => x end.
Definition reset_stream (st : Stream) : Stream :=
  set_state streamFinished (set_readState (reset_half (readState st)) (set_writeState (reset_half (writeState st)) st)).

Definition Reset (p : nat) (s : Session) : Session :=
  match objs s !! p with
  | None => s
  | Some st =>
      match state st with
      | streamFinished => s
      | streamInit => closeStream (sid st) (put p (reset_stream st) s)
      | _ =>
          closeStream (sid st)
            (fst (sendMsg false (mkFrame typeWindowUpdate flagRST (sid st) 0 []) (put p (reset_stream st) s)))
      end
  end.

Definition CloseWrite (p : nat) (s : Session) : Session * option yerror :=
  match objs s !! p with
  | None => (s, None)
  | Some st =>
      match writeState st with
      | halfClosed => (s, None)
      | halfReset => (s, Some ErrStreamReset)
      | halfOpen =>
          let cleanup := negb (bool_decide (readState st = halfOpen)) in
          let st := set_writeState halfClosed st in
          let st := if cleanup then set_state streamFinished st else st in
          let '(s, err) := sendClose p (put p st s) in
          (if cleanup then closeStream (sid st) s else s, err)
      end
  end.

Definition CloseRead (p : nat) (s : Session) : Session :=
  match objs s !! p with
  | None => s
  | Some st =>
      match readState st with
      | halfClosed | halfReset => s
      | halfOpen =>
          let cleanup := negb (bool_decide (writeState st = halfOpen)) in
          let st := set_readState halfReset st in
          let st := if cleanup then set_state streamFinished st else st in
          let s := put p st s in
          if cleanup then closeStream (sid st) s else s
      end
  end.

Definition Stream_Close (p : nat) (s : Session) : Session * option yerror := CloseWrite p (CloseRead p s).

(** [Close]: every registered stream is force-closed and removed. *)
Definition forceClose (st : Stream) : Stream := reset_stream st.
Definition closeAll (m : gmap Z nat) (l : list Stream) : list Stream :=
  map_fold (fun _ p l => alter forceClose p l) l m.
Definition Close (s : Session) : Session :=
  match shutdown s with
  | Some _ => s
  | None =>
      set_streams ∅ (numIncomingStreams s)
        (set_objs (closeAll (streams s) (objs s)) (set_shutdown (Some ErrSessionShutdown) s))
  end.
Definition exitErr (err : yerror) (s : Session) : Session :=
  match shutdown s with
  | Some _ => s
  | None =>
      set_streams ∅ (numIncomingStreams s) (set_objs (closeAll (streams s) (objs s)) (set_shutdown (Some err) s))
  end.

(** ** Opening and accepting *)

(** [OpenStream] takes the next ID and registers a new stream under it. *)
Definition registerOpen (s : Session) : Session :=
  let id := nextStreamID s in
  let p := length (objs s) in
  let s := set_objs (objs s ++ [newStream (config s) id streamInit initialStreamWindow])
             (set_next (wrap32 (id + 2)) s) in
  set_syn (inflight s ∪ {[id]}) (synCh s) (set_streams (<[id := p]> (streams s)) (numIncomingStreams s) s).

Definition OpenStream (cancelled mm reserve deadline : bool) (s : Session) : option (Session * result yerror nat) :=
  match shutdown s with
  | Some e => Some (s, Err e)
  | None =>
      if remoteGoAway s then Some (s, Err ErrRemoteGoAway)
      else if cancelled then Some (s, Err ErrCancelled)
      else if AcceptBacklog (config s) <=? synCh s then None
      else
        let s := set_syn (inflight s) (synCh s + 1) s in
        if negb mm then Some (s, Err ErrMemory)
        else if negb reserve then Some (s, Err ErrMemory)
        else
          let id := nextStreamID s in
          if MaxUint32 - 1 <=? id then Some (s, Err ErrStreamsExhausted)
          else
            let p := length (objs s) in
            let s := registerOpen s in
            match sendWindowUpdate false false deadline p s with
            | (s, Some e) => Some (releaseSyn s, Err e)
            | (s, None) => Some (s, Ok p)
            end
  end.

(** One turn of the loop; the code takes another stream when sending the update fails. *)
Definition AcceptStream (tune reserve : bool) (s : Session) : option (Session * result yerror nat) :=
  match acceptCh s with
  | p :: l =>
      match sendWindowUpdate tune reserve false p (set_accept l s) with
      | (s, Some e) => Some (s, Err e)
      | (s, None) => Some (s, Ok p)
      end
  | [] => match shutdown s with Some e => Some (s, Err e) | None => None end
  end.

(** ** Reading and writing *)

(** [Read] into a slice of [k] bytes: what was read and the error.  [deadline] ends the wait for
    data, [deadline'] the wait to send the window update. *)
Definition Read (k : nat) (tune reserve deadline deadline' : bool) (p : nat) (s : Session) :
    option (Session * list Z * option yerror) :=
  match objs s !! p with
  | None => None
  | Some st =>
      match readState st with
      | halfReset => Some (s, [], Some ErrStreamReset)
      | rs =>
          if b_len (recvBuf st) =? 0 then
            if bool_decide (rs = halfClosed) then Some (s, [], Some ErrEOF)
            else if deadline then Some (s, [], Some ErrTimeout) else None
          else
            let '(r, buf) := buf_Read k (recvBuf st) in
            let bs := match r with Ok bs => bs | Err _ => [] end in
            let '(s, err) := sendWindowUpdate tune reserve deadline' p (put p (set_recv (recvWindow st) buf st) s) in
            Some (s, bs, err)
      end
  end.

(** [write] of [b]: how many bytes were sent and the error.  One step, as if no other call on the
    stream ran between the load of the window and its decrement; the code holds no lock there
    ([two_writers] of YamuxTheorems). *)
Definition write (b : list Z) (deadline deadline' : bool) (p : nat) (s : Session) :
    option (Session * nat * option yerror) :=
  match objs s !! p with
  | None => None
  | Some st =>
      match writeState st with
      | halfClosed => Some (s, 0%nat, Some ErrStreamClosed)
      | halfReset => Some (s, 0%nat, Some ErrStreamReset)
      | halfOpen =>
          let window := sendWindow st in
          if window =? 0 then if deadline then Some (s, 0%nat, Some ErrTimeout) else None
          else
            let '(flags, st) := sendFlags st in
            let max := Z.min (Z.min window (wrap32 (MaxMessageSize (config s) - headerSize))) (wrap32 (Z.of_nat (length b))) in
            let f := mkFrame typeData flags (sid st) max (take (Z.to_nat max) b) in
            match sendMsg deadline' f (put p st s) with
            | (s, Some e) => Some (s, 0%nat, Some e)
            | (s, None) => Some (put p (set_sendWindow (wrap32 (sendWindow st + (2 ^ 32 - max))) st) s, Z.to_nat max, None)
            end
      end
  end.

(** [Write]: the loop over [write], stopped where [write] waits ([true]); each turn sends at least a
    byte, so [length b] turns are enough. *)
Fixpoint Write_loop (fuel : nat) (b : list Z) (total : nat) (p : nat) (s : Session) : Session * nat * option yerror * bool :=
  match fuel with
  | O => (s, total, None, false)
  | S fuel =>
      if (total <? length b)%nat then
        match write (drop total b) false false p s with
        | None => (s, total, None, true)
        | Some (s, n, Some e) => (s, (total + n)%nat, Some e, false)
        | Some (s, n, None) => Write_loop fuel b (total + n) p s
        end
      else (s, total, None, false)
  end.
Definition Write (b : list Z) (p : nat) (s : Session) := Write_loop (S (length b)) b 0 p s.

(** ** Receiving *)

(** [processFlags]: the deferred [cleanup] runs last. *)
Definition ackState (flags : Z) (st : Stream) : Stream :=
  if has_flag flags flagACK && bool_decide (state st = streamSYNSent) then set_state streamEstablished st else st.
Definition finState (flags : Z) (st : Stream) : Stream * bool :=
  if has_flag flags flagFIN && bool_decide (readState st = halfOpen) then
    let st := set_readState halfClosed st in
    if bool_decide (writeState st = halfOpen) then (st, false) else (set_state streamFinished st, true)
  else (st, false).
Definition rstState (flags : Z) (st : Stream) : Stream * bool :=
  if has_flag flags flagRST then (reset_stream st, true) else (st, false).

Definition processFlags (flags : Z) (p : nat) (s : Session) : Session :=
  match objs s !! p with
  | None => s
  | Some st =>
      let st := ackState flags st in
      let s := if has_flag flags flagACK then establishStream (sid st) s else s in
      let '(st, close1) := finState flags st in
      let '(st, close2) := rstState flags st in
      let s := put p st s in
      if close1 || close2 then closeStream (sid st) s else s
  end.

Definition incrSendWindow (f : frame) (p : nat) (s : Session) : Session :=
  let s := processFlags (fr_flags f) p s in
  match objs s !! p with
  | None => s
  | Some st => put p (set_sendWindow (wrap32 (sendWindow st + fr_length f)) st) s
  end.

Section receive.
Variable growslice : nat -> nat.

Definition readData (f : frame) (p : nat) (s : Session) : Session * option yerror :=
  let s := processFlags (fr_flags f) p s in
  if fr_length f =? 0 then (s, None)
  else
    match objs s !! p with
    | None => (s, None)
    | Some st =>
        let '(err, buf, _) := Append growslice (fr_body f) (fr_length f) (recvBuf st) in
        (put p (set_recv (recvWindow st) buf st) s, err)
    end.

Definition rstFrame (id : Z) : frame := mkFrame typeWindowUpdate flagRST id 0 [].

Definition incomingStream (mm reserve : bool) (id : Z) (s : Session) : Session * option yerror :=
  if negb (Bool.eqb (client s) (id mod 2 =? 0)) then (s, Some ErrBothClients)
  else if localGoAway s then sendMsg false (rstFrame id) s
  else if negb mm then (s, Some ErrMemory)
  else if negb reserve then (s, Some ErrMemory)
  else
    let stream := newStream (config s) id streamSYNReceived initialStreamWindow in
    let p := length (objs s) in
    match streams s !! id with
    | Some _ =>
        let '(f, s) := goAway goAwayProtoErr s in
        (fst (sendMsg false f s), Some ErrDuplicateStream)
    | None =>
        if MaxIncomingStreams (config s) <=? numIncomingStreams s then sendMsg false (rstFrame id) s
        else
          let s := set_streams (<[id := p]> (streams s)) (wrap32 (numIncomingStreams s + 1))
                     (set_objs (objs s ++ [stream]) s) in
          if Z.of_nat (length (acceptCh s)) <? AcceptBacklog (config s)
          then (set_accept (acceptCh s ++ [p]) s, None)
          else sendMsg false (rstFrame id) (deleteStream id s)
    end.

Definition handleStreamMessage (mm reserve : bool) (f : frame) (s : Session) : Session * option yerror :=
  let '(s, err) := if has_flag (fr_flags f) flagSYN then incomingStream mm reserve (fr_id f) s else (s, None) in
  match err with
  | Some e => (s, Some e)
  | None =>
      match streams s !! fr_id f with
      | None => (s, None)
      | Some p =>
          if fr_type f =? typeWindowUpdate then (incrSendWindow f p s, None)
          else
            match readData f p s with
            | (s, None) => (s, None)
            | (s, Some e) =>
                let '(g, s) := goAway goAwayProtoErr s in
                (fst (sendMsg false g s), Some e)
            end
      end
  end.

Definition handlePing (f : frame) (s : Session) : Session * option yerror :=
  let g := ping s in
  if has_flag (fr_flags f) flagSYN then
    if Z.of_nat (length (pongCh g)) <? PingBacklog (config s)
    then (set_ping (mkPings (pingID g) (activePing g) (pingCh g) (pongCh g ++ [fr_length f])) s, None)
    else (s, None)
  else
    match activePing g with
    | Some (id, _) =>
        if id =? fr_length f then (set_ping (mkPings (pingID g) (Some (id, true)) (pingCh g) (pongCh g)) s, None)
        else (s, None)
    | None => (s, None)
    end.

Definition handleGoAway (f : frame) (s : Session) : Session * option yerror :=
  if fr_length f =? goAwayNormal then (set_goAway true (localGoAway s) s, None)
  else if fr_length f =? goAwayProtoErr then (s, Some ErrProtocol)
  else if fr_length f =? goAwayInternalErr then (s, Some ErrRemoteInternal)
  else (s, Some ErrUnexpectedGoAway).

(** The handlers, by message type. *)
Definition handle (mm reserve : bool) (f : frame) (s : Session) : Session * option yerror :=
  if (fr_type f =? typeData) || (fr_type f =? typeWindowUpdate) then handleStreamMessage mm reserve f s
  else if fr_type f =? typePing then handlePing f s
  else if fr_type f =? typeGoAway then handleGoAway f s
  else (s, Some ErrInvalidMsgType).

(** One frame through [recvLoop] and, on an error, [recv]. *)
Definition recv (mm reserve : bool) (f : frame) (s : Session) : Session :=
  match handle mm reserve f s with
  | (s, None) => s
  | (s, Some e) => exitErr e s
  end.
End receive.

(** ** Pings and the send loop *)

(** [Ping] up to the wait: [None] joins the active ping. *)
Definition Ping_start (s : Session) : option Session :=
  let g := ping s in
  match activePing g with
  | Some _ => None
  | None => Some (set_ping (mkPings (wrap32 (pingID g + 1)) (Some (pingID g, false)) (pingCh g ++ [pingID g]) (pongCh g)) s)
  end.
(** ... and after it. *)
Definition Ping_end (s : Session) : Session :=
  let g := ping s in set_ping (mkPings (pingID g) None [] (pongCh g)) s.

(** What the send loop takes next; a [select] with several ready channels takes any. *)
Inductive sendChoice := SendPing | SendPong | SendData.
Definition sendLoop_step (c : sendChoice) (s : Session) : option (frame * Session) :=
  let g := ping s in
  match shutdown s with
  | Some _ => None
  | None =>
      match c with
      | SendPing =>
          match pingCh g with
          | id :: l => Some (mkFrame typePing flagSYN 0 id [], set_ping (mkPings (pingID g) (activePing g) l (pongCh g)) s)
          | [] => None
          end
      | SendPong =>
          match pongCh g with
          | id :: l => Some (mkFrame typePing flagACK 0 id [], set_ping (mkPings (pingID g) (activePing g) (pingCh g) l) s)
          | [] => None
          end
      | SendData => match sendCh s with f :: l => Some (f, set_sendCh l s) | [] => None end
      end
  end.
