(* ===== verification/YamuxBounds.v ===== *)
(** * yamux: what a peer can make a session hold

    An invariant of one session that no call and no frame breaks, whatever the peer sends: buffers
    within their windows, windows within the configured maximum, exact counts of streams, bounded
    queues. *)

From stdpp Require Import base gmap list numbers relations.
From Stdlib Require Import ZArith Lia.
From S2P Require Import Prelude Transcoders Yamux YamuxSession.

(** ** Calls and frames *)

Inductive sop :=
| SOpen (cancelled mm reserve deadline : bool)
| SAccept (tune reserve : bool)
| SRead (k : nat) (tune reserve deadline deadline' : bool) (p : nat)
| SWrite (b : list Z) (deadline deadline' : bool) (p : nat)
| SCloseWrite (p : nat)
| SCloseRead (p : nat)
| SReset (p : nat)
| SGoAway
| SClose
| SExit (err : yerror)
| SPingStart
| SPingEnd
| SSend (c : sendChoice)
| SRecv (growslice : nat -> nat) (mm reserve : bool) (f : frame).

(** A call that waits leaves the session as it is; a closed session receives nothing.  [SExit] is the
    end of the receive or the send loop with an error, such as the end of the connection. *)
Definition sexec (o : sop) (s : Session) : Session :=
  match o with
  | SOpen c m r d => match OpenStream c m r d s with Some (s, _) => s | None => s end
  | SAccept t r => match AcceptStream t r s with Some (s, _) => s | None => s end
  | SRead k t r d d' p => match Read k t r d d' p s with Some (s, _, _) => s | None => s end
  | SWrite b d d' p => match write b d d' p s with Some (s, _, _) => s | None => s end
  | SCloseWrite p => fst (CloseWrite p s)
  | SCloseRead p => CloseRead p s
  | SReset p => Reset p s
  | SGoAway => fst (GoAway s)
  | SClose => Close s
  | SExit err => exitErr err s
  | SPingStart => match Ping_start s with Some s => s | None => s end
  | SPingEnd => Ping_end s
  | SSend c => match sendLoop_step c s with Some (_, s) => s | None => s end
  | SRecv g m r f => match shutdown s with Some _ => s | None => recv g m r f s end
  end.

Definition sop_ok (o : sop) : Prop := match o with SRecv _ _ _ f => frame_ok f | _ => True end.

(** ** The invariant *)

Record config_ok (c : Config) : Prop := {
  cfg_verified : VerifyConfig c = None;
  cfg_initial : uint32 (InitialStreamWindowSize c);
  cfg_max : uint32 (MaxStreamWindowSize c);
  cfg_incoming : uint32 (MaxIncomingStreams c);
  cfg_msg : uint32 (MaxMessageSize c)
}.

Record stream_ok (c : Config) (st : Stream) : Prop := {
  so_buf : buf_ok (recvBuf st);
  so_window : b_cap (recvBuf st) + b_len (recvBuf st) <= recvWindow st;
  so_recv : InitialStreamWindowSize c <= recvWindow st <= MaxStreamWindowSize c;
  so_send : uint32 (sendWindow st)
}.

(** Registered streams the peer opened. *)
Definition numRegistered (s : Session) : Z := msum (fun id _ => if incoming s id then 1 else 0) (streams s).

Record sess_ok (s : Session) : Prop := {
  se_config : config_ok (config s);
  se_objs : Forall (stream_ok (config s)) (objs s);
  se_streams : forall id p, streams s !! id = Some p -> exists st, objs s !! p = Some st /\ sid st = id;
  se_count : shutdown s = None -> numIncomingStreams s = numRegistered s;
  se_incoming : numRegistered s <= MaxIncomingStreams (config s);
  se_accept : Z.of_nat (length (acceptCh s)) <= AcceptBacklog (config s);
  se_pong : Z.of_nat (length (pongCh (ping s))) <= PingBacklog (config s);
  se_syn : 0 <= synCh s <= AcceptBacklog (config s);
  se_next : uint32 (nextStreamID s) /\ incoming s (nextStreamID s) = false;
  se_own : forall id p, streams s !! id = Some p -> incoming s id = false -> id < nextStreamID s
}.

Lemma config_windows c : config_ok c ->
  0 < AcceptBacklog c /\ initialStreamWindow <= InitialStreamWindowSize c <= MaxStreamWindowSize c /\
  1024 <= MaxMessageSize c /\ 1 <= PingBacklog c.
Proof. intros [Hv _ _ _ _]. unfold VerifyConfig in Hv. repeat case_match; bool_props; try done; try lia. Qed.

Lemma new_stream_ok c id x : config_ok c -> stream_ok c (newStream c id x initialStreamWindow).
Proof.
  intros H. pose proof (config_windows c H) as (_ & Hw & _). destruct H. unfold initialStreamWindow in *.
  split; simpl; [by apply new_buf_ok|..]; unfold uint32, newSegmentedBuffer in *; simpl; unfold initialStreamWindow; lia.
Qed.

Lemma numRegistered_nonneg s : 0 <= numRegistered s.
Proof. apply msum_nonneg. intros id p _. destruct (incoming s id); lia. Qed.

(** ** Steps that keep it *)

Lemma put_ok p st st' s :
  sess_ok s -> objs s !! p = Some st -> sid st' = sid st -> stream_ok (config s) st' -> sess_ok (put p st' s).
Proof.
  intros [] Hp Hid Hst. split; simpl; try done; [by apply Forall_insert|]. intros id q Hq.
  destruct (se_streams0 id q Hq) as (stq & Hl & Hs). destruct (decide (q = p)) as [->|Hne].
  - exists st'. rewrite list_lookup_insert_eq by (by eapply lookup_lt_Some). split; [done|congruence].
  - exists stq. by rewrite list_lookup_insert_ne by done.
Qed.

Lemma sendMsg_ok d f s : sess_ok s -> sess_ok (fst (sendMsg d f s)).
Proof. intros H. unfold sendMsg. repeat case_match; [done|done|]. destruct H. by split. Qed.

Lemma releaseSyn_ok s : sess_ok s -> sess_ok (releaseSyn s).
Proof. intros []. unfold releaseSyn. case_bool; split; simpl; try done. lia. Qed.

Lemma set_inflight_ok i s : sess_ok s -> sess_ok (set_syn i (synCh s) s).
Proof. intros []. by split. Qed.

Lemma numRegistered_delete id p s :
  streams s !! id = Some p ->
  numRegistered s = (if incoming s id then 1 else 0) + numRegistered (set_streams (delete id (streams s)) 0 s).
Proof. intros H. unfold numRegistered. rewrite (msum_delete _ _ id p H). done. Qed.

Lemma deleteStream_ok id s : sess_ok s -> sess_ok (deleteStream id s).
Proof.
  intros H. pose proof H as []. unfold deleteStream. destruct (streams s !! id) as [p|] eqn:E; [|done].
  pose proof (numRegistered_delete id p s E) as Hn.
  pose proof (numRegistered_nonneg (set_streams (delete id (streams s)) 0 s)) as H0.
  split; simpl; try done.
  - intros id' q [_ Hq]%lookup_delete_Some. by apply se_streams0.
  - intros Hs. specialize (se_count0 Hs). unfold numRegistered in *. simpl in *. change (incoming (set_streams _ _ s)) with (incoming s) in *.
    destruct (incoming s id); [|lia]. case_bool; lia.
  - unfold numRegistered in *. simpl in *. change (incoming (set_streams _ _ s)) with (incoming s) in *. case_match; lia.
  - intros id' q [_ Hq]%lookup_delete_Some. by eapply se_own0.
Qed.

Lemma closeStream_ok id s : sess_ok s -> sess_ok (closeStream id s).
Proof.
  intros H. unfold closeStream. apply deleteStream_ok. case_bool_decide; [|done]. by apply set_inflight_ok, releaseSyn_ok.
Qed.

Lemma establishStream_ok id s : sess_ok s -> sess_ok (establishStream id s).
Proof. intros H. unfold establishStream. by apply releaseSyn_ok, set_inflight_ok. Qed.

Lemma objs_ok p st s : sess_ok s -> objs s !! p = Some st -> stream_ok (config s) st.
Proof. intros [_ H _ _ _ _ _ _ _ _] Hp. by eapply Forall_lookup_1 in H. Qed.

Lemma objs_sendMsg d f s : objs (fst (sendMsg d f s)) = objs s /\ config (fst (sendMsg d f s)) = config s /\
  streams (fst (sendMsg d f s)) = streams s.
Proof. unfold sendMsg. by repeat case_match. Qed.

(** ** Window updates *)

(** Two streams that differ in their state and their receiving half only. *)
Record same_core (st st' : Stream) : Prop := {
  sc_id : sid st' = sid st;
  sc_send : sendWindow st' = sendWindow st;
  sc_write : writeState st' = writeState st;
  sc_read : readState st' = readState st
}.

Lemma sendFlags_spec st flags st' :
  sendFlags st = (flags, st') ->
  same_core st st' /\ recvBuf st' = recvBuf st /\ recvWindow st' = recvWindow st /\
  (flags = 0 /\ st' = st /\ state st <> streamInit /\ state st <> streamSYNReceived \/
   flags = flagSYN /\ state st = streamInit /\ state st' = streamSYNSent \/
   flags = flagACK /\ state st = streamSYNReceived /\ state st' = streamEstablished).
Proof.
  unfold sendFlags. destruct (state st) eqn:E; intros [= <- <-]; (split; [by split|]); (split; [done|]); (split; [done|]);
    rewrite ?E; auto; left; split_and!; congruence.
Qed.

Lemma tunedWindow_le c w : config_ok c -> 0 <= w -> w < tunedWindow c w ->
  tunedWindow c w <= MaxStreamWindowSize c /\ tunedWindow c w <= 2 * w + 1 /\
  (2 * w <= MaxStreamWindowSize c -> 2 * w <= tunedWindow c w).
Proof.
  intros [_ _ Hm _ _] Hw. unfold tunedWindow. unfold uint32, MaxUint32 in *. case_bool; [|lia].
  rewrite Z.min_r by lia. intros. split_and!; [lia|dlia|lia].
Qed.

(** What an update does to a stream: [delta] is granted; [lost] is credit the buffer counts and no
    frame announces. *)
Record updated (c : Config) (st : Stream) (flags : Z) (needed : bool) (delta lost : Z) (st' : Stream) : Prop := {
  up_core : same_core st st';
  up_ok : stream_ok c st';
  up_unread : unread (recvBuf st') = unread (recvBuf st);
  up_cap : b_cap (recvBuf st') = b_cap (recvBuf st) + delta + lost;
  up_delta : 0 <= delta;
  up_quiet : needed = false -> flags = 0 /\ delta = 0 /\ lost = 0;
  up_flags : flags = 0 /\ state st' = state st /\ state st <> streamInit /\ state st <> streamSYNReceived \/
             flags = flagSYN /\ state st = streamInit /\ state st' = streamSYNSent \/
             flags = flagACK /\ state st = streamSYNReceived /\ state st' = streamEstablished;
  up_lost : lost = 0 /\ recvWindow st <= recvWindow st' \/
            0 <= lost <= recvWindow st - b_cap (recvBuf st) - b_len (recvBuf st) /\ recvWindow st < recvWindow st' /\
            (2 * recvWindow st <= MaxStreamWindowSize c -> 2 * recvWindow st <= recvWindow st');
  up_window : recvWindow st' = recvWindow st \/
              recvWindow st < tunedWindow c (recvWindow st) /\ recvWindow st' = tunedWindow c (recvWindow st);
  up_settled : recvWindow st' - (b_cap (recvBuf st') + b_len (recvBuf st')) < recvWindow st' / 2
}.

Lemma windowUpdate_spec c tune reserve st flags needed delta st' :
  config_ok c -> stream_ok c st -> windowUpdate c tune reserve st = (flags, needed, delta, st') ->
  exists lost, updated c st flags needed delta lost st'.
Proof.
  intros Hc [Hb Hw Hr Hs]. pose proof (config_windows c Hc) as (_ & Hini & _). unfold initialStreamWindow in Hini.
  unfold windowUpdate. destruct (sendFlags st) as [fl st1] eqn:Ef.
  destruct (sendFlags_spec st fl st1 Ef) as (Hcore & Hbuf & Hrw & Hfl). rewrite Hbuf, Hrw.
  destruct (GrowTo (recvWindow st) (negb (fl =? 0)) (recvBuf st)) as [[need d] b] eqn:Eg.
  assert (uint32 (recvWindow st)) as Hu32 by (destruct Hc; unfold uint32 in *; lia).
  destruct (GrowTo_spec _ _ _ _ _ _ Hb Hu32 Eg)
    as (Hb1 & Hu1 & Hl1 & Hc1 & Hd1 & Hm1 & Hn1 & Hf1 & Hset1).
  assert (b_cap b + b_len b <= recvWindow st) as Hw1 by (destruct (Z.eq_dec d 0); [lia|destruct Hm1; lia]).
  assert (0 < recvWindow st / 2) as Hhalf by (apply Z.div_str_pos; lia).
  assert (same_core st (set_recv (recvWindow st) b st1)) as Hcore1 by (destruct Hcore; by split).
  assert (stream_ok c (set_recv (recvWindow st) b st1)) as Hok1.
  { destruct Hcore. split; simpl; try done. congruence. }
  assert (recvWindow st - (b_cap b + b_len b) < recvWindow st / 2) as Hset by lia.
  assert (fl = 0 /\ state st1 = state st /\ state st <> streamInit /\ state st <> streamSYNReceived \/
          fl = flagSYN /\ state st = streamInit /\ state st1 = streamSYNSent \/
          fl = flagACK /\ state st = streamSYNReceived /\ state st1 = streamEstablished) as Hfl1.
  { destruct Hfl as [(-> & -> & ?)|?]; tauto. }
  destruct need; simpl.
  2: { intros [= <- <- <- <-]. destruct (Hn1 eq_refl) as [Hf0 ->]. exists 0. split; simpl; try done; [lia| |left; lia|by left].
       intros _. split_and!; [|done|done]. by bool_props. }
  case_match eqn:Et.
  2: { intros [= <- <- <- <-]. exists 0. split; simpl; try done; [lia|left; lia|by left]. }
  bool_props. assert (fl = 0) as -> by lia. simpl in *.
  destruct (tunedWindow_le c (recvWindow st) Hc) as (Ht1 & Ht2 & Ht3); [lia|done|].
  destruct (GrowTo (tunedWindow c (recvWindow st)) true b) as [[need2 d2] b2] eqn:Eg2.
  assert (uint32 (tunedWindow c (recvWindow st))) as Hu32' by (destruct Hc; unfold uint32 in *; lia).
  destruct (GrowTo_spec _ _ _ _ _ _ Hb1 Hu32' Eg2)
    as (Hb2 & Hu2 & Hl2 & Hc2 & Hd2 & Hm2 & _ & Hf2 & _).
  destruct (Hf2 eq_refl) as [_ Hf2'].
  intros [= <- <- <- <-]. exists d. destruct Hcore.
  assert (b_cap b2 + b_len b2 <= tunedWindow c (recvWindow st)) by (destruct (Z.eq_dec d2 0); [lia|destruct Hm2; lia]).
  assert (0 < tunedWindow c (recvWindow st) / 2) by (apply Z.div_str_pos; lia).
  split; simpl; try done; [split; simpl; try done; [lia|congruence]|congruence|lia| |by right|lia].
  right. split_and!; [lia| |lia|done]. destruct (Z.eq_dec d 0); [lia|]. destruct Hm1; lia.
Qed.

(** ** Every call keeps the invariant *)

Lemma sendWindowUpdate_ok t r d p s : sess_ok s -> sess_ok (fst (sendWindowUpdate t r d p s)).
Proof.
  intros H. unfold sendWindowUpdate. destruct (objs s !! p) as [st|] eqn:Hp; [|done].
  destruct (windowUpdate (config s) t r st) as [[[fl need] de] st'] eqn:E.
  destruct (windowUpdate_spec _ _ _ _ _ _ _ _ (se_config s H) (objs_ok p st s H Hp) E) as (lost & Hup).
  assert (sess_ok (put p st' s)) as Hput by (eapply put_ok; [done|done|apply Hup|apply Hup]).
  destruct need; simpl; [by apply sendMsg_ok|done].
Qed.

Lemma same_ok c st st' :
  stream_ok c st -> recvBuf st' = recvBuf st -> recvWindow st' = recvWindow st -> sendWindow st' = sendWindow st ->
  stream_ok c st'.
Proof. intros [] Hb Hr Hs. split; rewrite ?Hb, ?Hr, ?Hs; done. Qed.

(** A stream whose states alone change. *)
Lemma put_states_ok p st st' s :
  sess_ok s -> objs s !! p = Some st -> sid st' = sid st -> recvBuf st' = recvBuf st ->
  recvWindow st' = recvWindow st -> sendWindow st' = sendWindow st -> sess_ok (put p st' s).
Proof. intros H Hp Hi Hb Hr Hs. eapply put_ok; [done|done|done|]. eapply same_ok; [by eapply objs_ok|done..]. Qed.

Lemma sendClose_ok p s : sess_ok s -> sess_ok (fst (sendClose p s)).
Proof.
  intros H. unfold sendClose. destruct (objs s !! p) as [st|] eqn:Hp; [|done].
  destruct (sendFlags st) as [fl st'] eqn:E. destruct (sendFlags_spec st fl st' E) as ([] & Hb & Hr & _).
  by apply sendMsg_ok, (put_states_ok p st st').
Qed.

Lemma Reset_ok p s : sess_ok s -> sess_ok (Reset p s).
Proof.
  intros H. unfold Reset. destruct (objs s !! p) as [st|] eqn:Hp; [|done].
  assert (sess_ok (put p (reset_stream st) s)) by by apply (put_states_ok p st).
  destruct (state st); try done; apply closeStream_ok; try done; by apply sendMsg_ok.
Qed.

Lemma CloseWrite_ok p s : sess_ok s -> sess_ok (fst (CloseWrite p s)).
Proof.
  intros H. unfold CloseWrite. destruct (objs s !! p) as [st|] eqn:Hp; [|done]. destruct (writeState st); try done.
  cbv zeta. set (st' := if negb _ then set_state _ _ else _).
  assert (sess_ok (put p st' s)) as Hput by (unfold st'; case_match; by apply (put_states_ok p st)).
  pose proof (sendClose_ok p _ Hput) as Hc. destruct (sendClose p (put p st' s)) as [s' e]. simpl in *.
  case_match; [|done]. by apply closeStream_ok.
Qed.

Lemma CloseRead_ok p s : sess_ok s -> sess_ok (CloseRead p s).
Proof.
  intros H. unfold CloseRead. destruct (objs s !! p) as [st|] eqn:Hp; [|done]. destruct (readState st); try done.
  cbv zeta. case_match; [apply closeStream_ok|]; by apply (put_states_ok p st).
Qed.

Lemma closeAll_length m l : length (closeAll m l) = length l.
Proof.
  unfold closeAll. apply (map_fold_weak_ind (fun l' _ => length l' = length l)); [done|].
  intros ? ? ? ? _ <-. apply length_alter.
Qed.

Lemma closeAll_Forall (P : Stream -> Prop) m l :
  (forall st, P st -> P (forceClose st)) -> Forall P l -> Forall P (closeAll m l).
Proof.
  intros HP Hl. unfold closeAll. apply (map_fold_weak_ind (fun l' _ => Forall P l')); [done|].
  intros ? ? ? ? _ H. apply Forall_alter; [done|]. intros. by apply HP.
Qed.

Lemma shut_ok e s : sess_ok s ->
  sess_ok (set_streams ∅ (numIncomingStreams s) (set_objs (closeAll (streams s) (objs s)) (set_shutdown (Some e) s))).
Proof.
  intros H. destruct H. split; simpl; try done.
  - apply closeAll_Forall; [|done]. intros st Hst. by eapply same_ok.
  - unfold numRegistered. simpl. rewrite msum_empty. destruct se_config0. unfold uint32 in *. lia.
Qed.

Lemma exitErr_ok e s : sess_ok s -> sess_ok (exitErr e s).
Proof. intros H. unfold exitErr. case_match; [done|by apply shut_ok]. Qed.
Lemma Close_ok s : sess_ok s -> sess_ok (Close s).
Proof. intros H. unfold Close. case_match; [done|by apply shut_ok]. Qed.

Lemma push_ok st s : sess_ok s -> stream_ok (config s) st -> sess_ok (set_objs (objs s ++ [st]) s).
Proof.
  intros [] Hst. split; simpl; try done.
  - apply Forall_app. split; [done|by constructor].
  - intros id p Hp. destruct (se_streams0 id p Hp) as (st' & Hl & Hs). exists st'. split; [|done]. by apply lookup_app_l_Some.
Qed.

(** Registering a stream that is not registered. *)
Lemma register_ok id p st n s :
  sess_ok s -> streams s !! id = None -> objs s !! p = Some st -> sid st = id ->
  (incoming s id = true -> n = wrap32 (numIncomingStreams s + 1) /\ numIncomingStreams s < MaxIncomingStreams (config s) /\ shutdown s = None) ->
  (incoming s id = false -> n = numIncomingStreams s /\ id < nextStreamID s) ->
  sess_ok (set_streams (<[id := p]> (streams s)) n s).
Proof.
  intros H Hn Hp Hid Hi Ho. destruct H.
  assert (numRegistered (set_streams (<[id := p]> (streams s)) n s) = (if incoming s id then 1 else 0) + numRegistered s) as Hc.
  { unfold numRegistered. simpl. rewrite msum_insert by done. done. }
  split; simpl; try done.
  - intros id' q [[<- <-]|[_ Hq]]%lookup_insert_Some; [by exists st|by apply se_streams0].
  - rewrite Hc. intros Hs. specialize (se_count0 Hs). destruct (incoming s id); [|by destruct (Ho eq_refl) as [-> _]].
    destruct (Hi eq_refl) as (-> & Hlt & _). pose proof (numRegistered_nonneg s). destruct se_config0. unfold uint32 in *.
    rewrite wrap32_id by (unfold uint32; lia). lia.
  - rewrite Hc. destruct (incoming s id); [|lia]. destruct (Hi eq_refl) as (_ & Hlt & Hs). specialize (se_count0 Hs). lia.
  - intros id' q [[<- <-]|[_ Hq]]%lookup_insert_Some; [by intros [_ ?]%Ho|by eapply se_own0].
Qed.

Lemma incoming_next c n : 0 <= n -> Bool.eqb c (n mod 2 =? 0) = Bool.eqb c ((n + 2) mod 2 =? 0).
Proof. intros H. replace ((n + 2) mod 2) with (n mod 2); [done|]. symmetry. by rewrite <- (Z.mod_add n 1 2). Qed.

Lemma registerOpen_ok s : sess_ok s -> nextStreamID s < MaxUint32 - 1 -> sess_ok (registerOpen s).
Proof.
  intros H Hlt. pose proof H as [Hc _ Hst _ _ _ _ _ [Hu Hinc] Hown].
  assert (sess_ok (set_next (wrap32 (nextStreamID s + 2)) s)) as H1.
  { rewrite wrap32_id by (unfold uint32, MaxUint32 in *; lia). destruct H. split; simpl; try done.
    - split; [unfold uint32, MaxUint32 in *; lia|]. unfold incoming in *. simpl. rewrite <- incoming_next; [done|unfold uint32 in *; lia].
    - intros id p Hp Hi. specialize (Hown id p Hp Hi). lia. }
  apply (push_ok (newStream (config s) (nextStreamID s) streamInit initialStreamWindow)) in H1; [|by apply new_stream_ok].
  unfold registerOpen. cbv zeta. match goal with |- sess_ok (set_syn ?i _ ?x) => change (sess_ok (set_syn i (synCh x) x)) end.
  apply set_inflight_ok. eapply register_ok; [done| |simpl; by apply list_lookup_middle|done|..].
  - simpl. destruct (streams s !! nextStreamID s) as [p|] eqn:E; [|done]. specialize (Hown _ _ E Hinc). lia.
  - intros Hi. unfold incoming in *. simpl in Hi. congruence.
  - intros _. split; [done|]. simpl. rewrite wrap32_id by (unfold uint32, MaxUint32 in *; lia). lia.
Qed.

Lemma OpenStream_ok c m r d s s' x : sess_ok s -> OpenStream c m r d s = Some (s', x) -> sess_ok s'.
Proof.
  intros H. unfold OpenStream. destruct (shutdown s) as [e|] eqn:Hsh; [by intros [= <- <-]|].
  case_bool; [by intros [= <- <-]|]. case_bool; [by intros [= <- <-]|]. case_bool; [done|].
  set (s1 := set_syn (inflight s) (synCh s + 1) s).
  assert (sess_ok s1) as H1 by (destruct H; split; simpl; try done; lia).
  case_bool; [by intros [= <- <-]|]. case_bool; [by intros [= <- <-]|]. case_bool; [by intros [= <- <-]|].
  pose proof (registerOpen_ok s1 H1 ltac:(done)) as H2.
  pose proof (sendWindowUpdate_ok false false d (length (objs s1)) _ H2) as H3.
  destruct (sendWindowUpdate false false d (length (objs s1)) (registerOpen s1)) as [s3 [e|]]; intros [= <- <-]; [|done].
  by apply releaseSyn_ok.
Qed.

Lemma AcceptStream_ok t r s s' x : sess_ok s -> AcceptStream t r s = Some (s', x) -> sess_ok s'.
Proof.
  intros H. unfold AcceptStream. destruct (acceptCh s) as [|p l] eqn:E; [case_match; by intros [= <- <-]|].
  assert (sess_ok (set_accept l s)) as H1.
  { destruct H. split; simpl; try done. rewrite E in se_accept0. simpl in se_accept0. lia. }
  pose proof (sendWindowUpdate_ok t r false p _ H1) as H2.
  destruct (sendWindowUpdate t r false p (set_accept l s)) as [s2 [e|]]; by intros [= <- <-].
Qed.

Lemma buf_nonempty b : buf_ok b -> b_len b <> 0 -> unread b <> [].
Proof. intros (Hl & _) Hne E. rewrite E in Hl. done. Qed.

Lemma Read_ok k t r d d' p s s' bs e : sess_ok s -> Read k t r d d' p s = Some (s', bs, e) -> sess_ok s'.
Proof.
  intros H. unfold Read. destruct (objs s !! p) as [st|] eqn:Hp; [|done].
  pose proof (objs_ok p st s H Hp) as [Hb Hw Hr Hs].
  destruct (readState st); [..|by intros [= <- <- <-]]; (destruct (b_len (recvBuf st) =? 0) eqn:E0;
    [repeat case_match; by intros; simplify_eq|]; bool_props;
    destruct (buf_Read_spec k _ Hb (buf_nonempty _ Hb E0)) as (n & b' & -> & _ & _ & Hn & Hb' & Hu & Hc);
    set (s1 := put p _ s); assert (sess_ok s1) as H1; [|
      pose proof (sendWindowUpdate_ok t r d' p s1 H1) as H2; destruct (sendWindowUpdate t r d' p s1); by intros [= <- <- <-]]).
  all: eapply put_ok; [done|done|done|]; split; simpl; try done; destruct Hb as (Hl & _); destruct Hb' as (Hl' & _);
    rewrite Hu, length_drop in Hl'; lia.
Qed.

Lemma write_ok b d d' p s s' n e : sess_ok s -> write b d d' p s = Some (s', n, e) -> sess_ok s'.
Proof.
  intros H. unfold write. destruct (objs s !! p) as [st|] eqn:Hp; [|done].
  destruct (writeState st); [|by intros [= <- <- <-]..]. case_bool; [case_match; by intros; simplify_eq|].
  destruct (sendFlags st) as [fl st'] eqn:E. destruct (sendFlags_spec st fl st' E) as ([Hi Hs _ _] & Hb' & Hr & _).
  assert (sess_ok (put p st' s)) as H1 by by apply (put_states_ok p st).
  cbv zeta. set (f := mkFrame _ _ _ _ _). pose proof (sendMsg_ok d' f _ H1) as H2.
  destruct (objs_sendMsg d' f (put p st' s)) as (Ho & Hcf & _).
  destruct (sendMsg d' f (put p st' s)) as [s2 [e2|]]; intros [= <- <- <-]; [done|]. simpl in *.
  eapply (put_ok p st'); [done|rewrite Ho; apply list_lookup_insert_eq; by eapply lookup_lt_Some|done|].
  rewrite Hcf. pose proof (objs_ok p st s H Hp) as []. split; simpl; rewrite ?Hb', ?Hr; try done.
  unfold uint32, wrap32. apply Z.mod_pos_bound. lia.
Qed.

(** What [processFlags] does to its stream. *)
Definition flagged (flags : Z) (st : Stream) : Stream := fst (rstState flags (fst (finState flags (ackState flags st)))).

Lemma flagged_fields flags st :
  let st' := flagged flags st in
  sid st' = sid st /\ sendWindow st' = sendWindow st /\ recvBuf st' = recvBuf st /\ recvWindow st' = recvWindow st.
Proof. unfold flagged, rstState, finState, ackState. by repeat case_match. Qed.

Lemma processFlags_eq flags p st s :
  objs s !! p = Some st ->
  exists close, processFlags flags p s =
    let s1 := put p (flagged flags st) (if has_flag flags flagACK then establishStream (sid st) s else s) in
    if close : bool then closeStream (sid st) s1 else s1.
Proof.
  intros Hp. pose proof (flagged_fields flags st) as (Hid & _). unfold processFlags. rewrite Hp. unfold flagged in *.
  assert (sid (ackState flags st) = sid st) as -> by (unfold ackState; by case_match).
  destruct (finState flags (ackState flags st)) as [st1 c1]. simpl in *. destruct (rstState flags st1) as [st2 c2].
  simpl in *. rewrite Hid. by exists (c1 || c2).
Qed.

Lemma objs_establishStream id s : objs (establishStream id s) = objs s.
Proof. unfold establishStream, releaseSyn. by case_match. Qed.
Lemma objs_closeStream id s : objs (closeStream id s) = objs s.
Proof. unfold closeStream, deleteStream, releaseSyn. by repeat case_match. Qed.
Lemma objs_deleteStream id s : objs (deleteStream id s) = objs s.
Proof. unfold deleteStream. by case_match. Qed.

Lemma processFlags_objs flags p st s :
  objs s !! p = Some st -> objs (processFlags flags p s) = <[p := flagged flags st]> (objs s).
Proof.
  intros Hp. destruct (processFlags_eq flags p st s Hp) as [c ->]. cbv zeta.
  destruct c; rewrite ?objs_closeStream; simpl; case_match; by rewrite ?objs_establishStream.
Qed.

Lemma processFlags_ok flags p s : sess_ok s -> sess_ok (processFlags flags p s).
Proof.
  intros H. destruct (objs s !! p) as [st|] eqn:Hp; [|unfold processFlags; by rewrite Hp].
  destruct (processFlags_eq flags p st s Hp) as [c ->]. destruct (flagged_fields flags st) as (Hid & Hs & Hb & Hr).
  cbv zeta. set (s1 := if has_flag flags flagACK then _ else s).
  assert (sess_ok s1 /\ objs s1 = objs s) as [H1 Ho].
  { unfold s1. case_match; [|done]. split; [by apply establishStream_ok|apply objs_establishStream]. }
  assert (sess_ok (put p (flagged flags st) s1)) by (apply (put_states_ok p st); [done|by rewrite Ho|done..]).
  destruct c; [by apply closeStream_ok|done].
Qed.

Lemma processFlags_lookup flags p st s :
  objs s !! p = Some st -> objs (processFlags flags p s) !! p = Some (flagged flags st).
Proof. intros Hp. rewrite (processFlags_objs flags p st s Hp). apply list_lookup_insert_eq. by eapply lookup_lt_Some. Qed.

Lemma incrSendWindow_ok f p s : sess_ok s -> sess_ok (incrSendWindow f p s).
Proof.
  intros H. pose proof (processFlags_ok (fr_flags f) p s H) as H1. unfold incrSendWindow. case_match eqn:Hp; [|done].
  eapply put_ok; [done|done|done|]. destruct (objs_ok _ _ _ H1 Hp). split; simpl; try done.
  unfold uint32, wrap32. apply Z.mod_pos_bound. lia.
Qed.

(** An append keeps the window, whether it fits or not. *)
Lemma Append_window g body l b err b' rest :
  buf_ok b -> 0 < l -> l = Z.of_nat (length body) -> Append g body l b = (err, b', rest) ->
  buf_ok b' /\ b_cap b' + b_len b' = b_cap b + b_len b.
Proof.
  intros Hb Hl Hlen E. destruct (Z.le_gt_cases l (b_cap b)) as [Hle|Hgt].
  - destruct (Append_spec g body l b Hb) as (b1 & E1 & Hb1 & Hu & Hc); [lia|done|]. rewrite E1 in E. injection E as <- <- <-.
    split; [done|]. destruct Hb as (Hl0 & _). destruct Hb1 as (Hl1 & _). rewrite Hu, length_app, length_take in Hl1. lia.
  - rewrite Append_overflow in E by done. by injection E as <- <- <-.
Qed.

Lemma readData_ok g f p s :
  sess_ok s -> frame_ok f -> fr_type f = typeData -> sess_ok (fst (readData g f p s)).
Proof.
  intros H Hf Ht. pose proof (processFlags_ok (fr_flags f) p s H) as H1. unfold readData.
  case_bool; [done|]. case_match eqn:Hp; [|done]. destruct (Append g (fr_body f) (fr_length f) (recvBuf s0)) as [[err b] rest] eqn:E.
  destruct (objs_ok _ _ _ H1 Hp) as [Hbu Hw Hr Hs]. destruct Hf as (_ & _ & _ & Hl & Hbody). rewrite Ht in Hbody. simpl in Hbody.
  destruct (Append_window g (fr_body f) (fr_length f) (recvBuf s0) err b rest) as [Hbu' Hw'];
    [done|unfold uint32 in *; lia|lia|done|].
  simpl. eapply put_ok; [done|done|done|]. split; simpl; try done. lia.
Qed.

Lemma goAway_ok x y s : sess_ok s -> sess_ok (set_goAway x y s).
Proof. intros []. by split. Qed.

Lemma incomingStream_ok m r id s : sess_ok s -> shutdown s = None -> sess_ok (fst (incomingStream m r id s)).
Proof.
  intros H Hsh. unfold incomingStream. case_bool; [done|]. case_bool; [by apply sendMsg_ok|]. case_bool; [done|].
  case_bool; [done|]. destruct (streams s !! id) as [q|] eqn:Hq; [by apply sendMsg_ok, goAway_ok|].
  case_bool; [by apply sendMsg_ok|]. set (st := newStream _ _ _ _). cbv zeta. set (s1 := set_streams _ _ _).
  assert (sess_ok s1) as H1.
  { apply (register_ok id (length (objs s)) st _ (set_objs (objs s ++ [st]) s)); [apply push_ok; [done|apply new_stream_ok, H]|done|simpl; by apply list_lookup_middle|done|..].
    - intros _. by split_and!.
    - intros Hi. unfold incoming in Hi. simpl in Hi. congruence. }
  case_bool; [|by apply sendMsg_ok, deleteStream_ok]. destruct H1. split; simpl; try done.
  rewrite length_app. simpl in *. lia.
Qed.

Lemma handleStreamMessage_ok g m r f s :
  sess_ok s -> shutdown s = None -> frame_ok f -> fr_type f = typeData \/ fr_type f = typeWindowUpdate ->
  sess_ok (fst (handleStreamMessage g m r f s)).
Proof.
  intros H Hsh Hf Ht. unfold handleStreamMessage. set (x := if has_flag _ _ then _ else _).
  assert (sess_ok (fst x)) as H1 by (unfold x; case_match; [by apply incomingStream_ok|done]).
  destruct x as [s1 [e|]]; simpl in H1; [done|]. destruct (streams s1 !! fr_id f) as [p|]; [|done].
  case_bool; [by apply incrSendWindow_ok|].
  assert (sess_ok (fst (readData g f p s1))) as H2 by (apply readData_ok; [done|done|tauto]).
  destruct (readData g f p s1) as [s2 [e|]]; simpl in *; [by apply sendMsg_ok, goAway_ok|done].
Qed.

Lemma handle_ok g m r f s :
  sess_ok s -> shutdown s = None -> (fr_type f = typeData \/ fr_type f = typeWindowUpdate -> frame_ok f) ->
  sess_ok (fst (handle g m r f s)).
Proof.
  intros H Hsh Hf. unfold handle. case_bool.
  - assert (fr_type f = typeData \/ fr_type f = typeWindowUpdate) by (apply orb_prop in Hb as [?|?]; bool_props; auto).
    apply handleStreamMessage_ok; auto.
  - case_bool; [|case_bool; [|done]].
    + unfold handlePing. case_bool; [case_bool; [|done]|].
      * destruct H. split; simpl; try done. rewrite length_app. simpl. lia.
      * case_match; [|done]. case_match. case_bool; [|done]. destruct H. by split.
    + unfold handleGoAway. repeat case_bool; try done. destruct H. by split.
Qed.

Lemma recv_ok g m r f s :
  sess_ok s -> shutdown s = None -> (fr_type f = typeData \/ fr_type f = typeWindowUpdate -> frame_ok f) ->
  sess_ok (recv g m r f s).
Proof.
  intros H Hsh Hf. unfold recv. pose proof (handle_ok g m r f s H Hsh Hf) as H1.
  destruct (handle g m r f s) as [s' [e|]]; simpl in *; [by apply exitErr_ok|done].
Qed.

Lemma sexec_ok o s : sess_ok s -> sop_ok o -> sess_ok (sexec o s).
Proof.
  intros H Ho. destruct o; simpl.
  - destruct (OpenStream _ _ _ _ s) as [[s' x]|] eqn:E; [by eapply OpenStream_ok|done].
  - destruct (AcceptStream _ _ s) as [[s' x]|] eqn:E; [by eapply AcceptStream_ok|done].
  - destruct (Read _ _ _ _ _ _ s) as [[[s' x] y]|] eqn:E; [by eapply Read_ok|done].
  - destruct (write _ _ _ _ s) as [[[s' x] y]|] eqn:E; [by eapply write_ok|done].
  - by apply CloseWrite_ok.
  - by apply CloseRead_ok.
  - by apply Reset_ok.
  - by apply sendMsg_ok, goAway_ok.
  - by apply Close_ok.
  - by apply exitErr_ok.
  - unfold Ping_start. destruct (activePing (ping s)); [done|]. destruct H. by split.
  - destruct H. by split.
  - unfold sendLoop_step. destruct c; repeat case_match; try done; simplify_eq; destruct H; split; simpl in *; try done.
    match goal with E : pongCh _ = _ |- _ => rewrite E in * end. simpl in *. lia.
  - destruct (shutdown s) eqn:E; [done|]. by apply recv_ok.
Qed.

(** The configuration and the role never change. *)
Definition statics (s : Session) : Config * bool := (config s, client s).

Lemma statics_sendMsg d f s : statics (fst (sendMsg d f s)) = statics s.
Proof. unfold sendMsg. by repeat case_match. Qed.
Lemma statics_deleteStream id s : statics (deleteStream id s) = statics s.
Proof. unfold deleteStream. by case_match. Qed.
Lemma statics_closeStream id s : statics (closeStream id s) = statics s.
Proof. unfold closeStream, deleteStream, releaseSyn. by repeat case_match. Qed.
Lemma statics_establishStream id s : statics (establishStream id s) = statics s.
Proof. unfold establishStream, releaseSyn. by repeat case_match. Qed.
Lemma statics_put p st s : statics (put p st s) = statics s.
Proof. done. Qed.
Lemma statics_sendWindowUpdate t r d p s : statics (fst (sendWindowUpdate t r d p s)) = statics s.
Proof. unfold sendWindowUpdate. repeat case_match; by rewrite ?statics_sendMsg. Qed.
Lemma statics_sendClose p s : statics (fst (sendClose p s)) = statics s.
Proof. unfold sendClose. repeat case_match; by rewrite ?statics_sendMsg. Qed.
Lemma statics_exitErr e s : statics (exitErr e s) = statics s.
Proof. unfold exitErr. by case_match. Qed.
Lemma statics_processFlags fl p s : statics (processFlags fl p s) = statics s.
Proof.
  unfold processFlags. repeat case_match; by rewrite ?statics_closeStream, ?statics_put, ?statics_establishStream.
Qed.
Lemma statics_readData g f p s : statics (fst (readData g f p s)) = statics s.
Proof. unfold readData. repeat case_match; simpl; by rewrite ?statics_put, statics_processFlags. Qed.
Lemma statics_incrSendWindow f p s : statics (incrSendWindow f p s) = statics s.
Proof. unfold incrSendWindow. repeat case_match; simpl; by rewrite ?statics_put, statics_processFlags. Qed.
Lemma statics_incomingStream m r id s : statics (fst (incomingStream m r id s)) = statics s.
Proof.
  unfold incomingStream. case_bool; [done|]. case_bool; [by rewrite statics_sendMsg|]. case_bool; [done|]. case_bool; [done|].
  destruct (streams s !! id); [simpl; by rewrite statics_sendMsg|].
  case_bool; [by rewrite statics_sendMsg|]. cbv zeta. case_bool; [done|]. by rewrite statics_sendMsg, statics_deleteStream.
Qed.
Lemma statics_goAway x y s : statics (set_goAway x y s) = statics s.
Proof. done. Qed.
Lemma statics_handleStreamMessage g m r f s : statics (fst (handleStreamMessage g m r f s)) = statics s.
Proof.
  unfold handleStreamMessage. set (x := if has_flag _ _ then _ else _).
  assert (statics (fst x) = statics s) as <- by (unfold x; case_match; [apply statics_incomingStream|done]).
  destruct x as [s1 [e|]]; [done|]. simpl. destruct (streams s1 !! fr_id f) as [p|]; [|done].
  case_match; [apply statics_incrSendWindow|]. rewrite <- (statics_readData g f p s1).
  destruct (readData g f p s1) as [s2 [e|]]; [|done]. simpl. by rewrite statics_sendMsg.
Qed.
Lemma statics_recv g m r f s : statics (recv g m r f s) = statics s.
Proof.
  unfold recv. assert (statics (fst (handle g m r f s)) = statics s) as <-.
  { unfold handle. case_match; [apply statics_handleStreamMessage|]. unfold handlePing, handleGoAway. by repeat case_match. }
  destruct (handle g m r f s) as [s' [e|]]; [apply statics_exitErr|done].
Qed.

Lemma statics_OpenStream c m r d s s' x : OpenStream c m r d s = Some (s', x) -> statics s' = statics s.
Proof.
  unfold OpenStream. destruct (shutdown s); [by intros [= <- <-]|]. case_match; [by intros [= <- <-]|].
  case_match; [by intros [= <- <-]|]. case_match; [done|]. set (s1 := set_syn _ _ s).
  do 3 (case_match; [by intros [= <- <-]|]).
  pose proof (statics_sendWindowUpdate false false d (length (objs s1)) (registerOpen s1)) as Hs.
  destruct (sendWindowUpdate false false d (length (objs s1)) (registerOpen s1)) as [s3 [e|]]; intros [= <- <-]; simpl in Hs; [|done].
  unfold releaseSyn. by case_match.
Qed.
Lemma statics_AcceptStream t r s s' x : AcceptStream t r s = Some (s', x) -> statics s' = statics s.
Proof.
  unfold AcceptStream. destruct (acceptCh s) as [|p l]; [case_match; by intros [= <- <-]|].
  pose proof (statics_sendWindowUpdate t r false p (set_accept l s)) as Hs.
  destruct (sendWindowUpdate t r false p (set_accept l s)) as [s2 [e|]]; by intros [= <- <-].
Qed.
Lemma statics_Read k t r d d' p s s' bs e : Read k t r d d' p s = Some (s', bs, e) -> statics s' = statics s.
Proof.
  unfold Read. destruct (objs s !! p) as [st|]; [|done].
  destruct (readState st); [..|by intros [= <- <- <-]]; (case_match; [repeat case_match; by intros; simplify_eq|]);
    destruct (buf_Read k (recvBuf st)) as [x b'];
    (match goal with |- context [sendWindowUpdate ?t ?r ?d ?p ?y] =>
      pose proof (statics_sendWindowUpdate t r d p y) as Hs; destruct (sendWindowUpdate t r d p y) end);
    by intros [= <- <- <-].
Qed.
Lemma statics_write b d d' p s s' n e : write b d d' p s = Some (s', n, e) -> statics s' = statics s.
Proof.
  unfold write. destruct (objs s !! p) as [st|]; [|done]. destruct (writeState st); [|by intros [= <- <- <-]..].
  case_match; [case_match; by intros; simplify_eq|]. destruct (sendFlags st) as [fl st']. cbv zeta.
  match goal with |- context [sendMsg ?d ?f ?y] => pose proof (statics_sendMsg d f y) as Hs; destruct (sendMsg d f y) as [s2 [e2|]] end;
    by intros [= <- <- <-].
Qed.

Lemma sexec_statics o s : statics (sexec o s) = statics s.
Proof.
  destruct o; simpl.
  - destruct (OpenStream _ _ _ _ s) as [[s' x]|] eqn:E; [by eapply statics_OpenStream|done].
  - destruct (AcceptStream _ _ s) as [[s' x]|] eqn:E; [by eapply statics_AcceptStream|done].
  - destruct (Read _ _ _ _ _ _ s) as [[[s' x] y]|] eqn:E; [by eapply statics_Read|done].
  - destruct (write _ _ _ _ s) as [[[s' x] y]|] eqn:E; [by eapply statics_write|done].
  - unfold CloseWrite. destruct (objs s !! p) as [st|]; [|done]. destruct (writeState st); try done. cbv zeta.
    match goal with |- context [sendClose ?p ?y] => pose proof (statics_sendClose p y) as Hs; destruct (sendClose p y) end.
    simpl in *. case_match; by rewrite ?statics_closeStream.
  - unfold CloseRead. repeat case_match; by rewrite ?statics_closeStream.
  - unfold Reset. repeat case_match; by rewrite ?statics_closeStream, ?statics_sendMsg.
  - unfold GoAway. simpl. by rewrite statics_sendMsg.
  - unfold Close. by case_match.
  - apply statics_exitErr.
  - unfold Ping_start. by destruct (activePing (ping s)).
  - done.
  - unfold sendLoop_step. destruct (shutdown s); [done|]. by destruct c; [destruct (pingCh (ping s))|destruct (pongCh (ping s))|destruct (sendCh s)].
  - case_match; [done|]. apply statics_recv.
Qed.

Lemma newSession_ok c cl : config_ok c -> sess_ok (newSession c cl).
Proof.
  intros H. pose proof (config_windows c H) as (? & ? & ? & ?). pose proof (cfg_incoming c H) as Hi. unfold uint32 in Hi.
  assert (numRegistered (newSession c cl) = 0) as Hn by apply msum_empty.
  split; rewrite ?Hn; simpl; try done; try lia. destruct cl; (split; [unfold uint32; lia|done]).
Qed.

(** C12: Whatever the peer sends and whatever calls are made, in any order: no stream buffers more than
    its receive window, which stays within [MaxStreamWindowSize]; at most [MaxIncomingStreams]
    streams of the peer are registered, and [numIncomingStreams] is their number; the accept queue,
    the queue of ping replies and the SYN semaphore stay within their bounds. *)
Theorem session_bounded c cl ops :
  config_ok c -> Forall sop_ok ops ->
  let s := foldl (fun s o => sexec o s) (newSession c cl) ops in
  Forall (fun st => Z.of_nat (length (unread (recvBuf st))) <= recvWindow st <= MaxStreamWindowSize c) (objs s) /\
  numRegistered s <= MaxIncomingStreams c /\ (shutdown s = None -> numIncomingStreams s = numRegistered s) /\
  Z.of_nat (length (acceptCh s)) <= AcceptBacklog c /\ Z.of_nat (length (pongCh (ping s))) <= PingBacklog c /\
  0 <= synCh s <= AcceptBacklog c.
Proof.
  intros Hc Hops. cbv zeta. set (s := foldl _ _ _). assert (sess_ok s /\ statics s = (c, cl)) as [H Hst].
  { unfold s. assert (sess_ok (newSession c cl) /\ statics (newSession c cl) = (c, cl)) as H0 by (split; [by apply newSession_ok|done]).
    clear s. generalize dependent (newSession c cl). induction Hops as [|o ops Ho _ IH]; intros s [H Hst]; [done|].
    apply IH. split; [by apply sexec_ok|]. by rewrite sexec_statics. }
  clearbody s. injection Hst as <- _. destruct H. split_and!; try done; try lia. eapply Forall_impl; [done|]. intros st [(Hl & Hcap & _) Hw Hr _]. lia.
Qed.

Lemma session_bounded_witness :
  let ops := [SRecv (fun n => (2 * n)%nat) true true (mkFrame typeWindowUpdate flagSYN 1 0 []);
              SRecv (fun n => (2 * n)%nat) true true (mkFrame typeData 0 1 3 [1; 2; 3]); SAccept false true; SReset 0] in
  let s := foldl (fun s o => sexec o s) (newSession DefaultConfig false) ops in
  Forall (fun st => Z.of_nat (length (unread (recvBuf st))) <= recvWindow st <= MaxStreamWindowSize DefaultConfig) (objs s) /\
  numRegistered s <= MaxIncomingStreams DefaultConfig /\ (shutdown s = None -> numIncomingStreams s = numRegistered s) /\
  Z.of_nat (length (acceptCh s)) <= AcceptBacklog DefaultConfig /\ Z.of_nat (length (pongCh (ping s))) <= PingBacklog DefaultConfig /\
  0 <= synCh s <= AcceptBacklog DefaultConfig.
Proof.
  apply (session_bounded DefaultConfig false).
  - split; vm_compute; try done; by split.
  - repeat constructor; vm_compute; congruence.
Defined.
