(* ===== verification/YamuxNet.v ===== *)
(** * yamux: one stream on the two ends of a connection

    The state of one stream ID across the connection is a pair of optional views and the two lists
    of frames of that ID under way; [idlink] relates them.  This file shows that [idlink] is kept by
    what a session can do to the view of an ID ([astep]) and by the reception of a frame ([arecv]);
    YamuxPeers.v and YamuxRecv.v show that these are what the code does. *)

From stdpp Require Import base gmap list numbers relations.
From Stdlib Require Import ZArith Lia.
From S2P Require Import Prelude Transcoders Yamux YamuxSession YamuxBounds.

(** ** Frames of a stream *)

Definition stream_frame (f : frame) : bool := (fr_type f =? typeData) || (fr_type f =? typeWindowUpdate).
Definition of_id (id : Z) (f : frame) : bool := stream_frame f && (fr_id f =? id).
Definition fl (id : Z) (fs : list frame) : list frame := filter (fun f => of_id id f = true) fs.

Definition data1 (f : frame) : list Z := if fr_type f =? typeData then fr_body f else [].
Definition delta1 (f : frame) : Z := if fr_type f =? typeWindowUpdate then fr_length f else 0.
Definition isSYN (f : frame) : bool := has_flag (fr_flags f) flagSYN.
Definition isFIN (f : frame) : bool := has_flag (fr_flags f) flagFIN.

Fixpoint dataOf (l : list frame) : list Z := match l with [] => [] | f :: l => data1 f ++ dataOf l end.
Fixpoint deltas (l : list frame) : Z := match l with [] => 0 | f :: l => delta1 f + deltas l end.
Definition no_syn (l : list frame) : Prop := Forall (fun f => isSYN f = false) l.
Definition no_fin (l : list frame) : Prop := Forall (fun f => isFIN f = false) l.
(** No data after a FIN. *)
Fixpoint fin_last (l : list frame) : Prop :=
  match l with [] => True | f :: l => (isFIN f = true -> data1 f = [] /\ dataOf l = []) /\ fin_last l end.

(** The frames a session sends while its peer keeps to the protocol. *)
Definition conform (f : frame) : Prop :=
  0 <= fr_type f <= 3 /\ (stream_frame f = true -> frame_ok f) /\
  (fr_type f = typeData -> fr_flags f = 0 \/ fr_flags f = flagACK) /\
  (fr_type f = typeWindowUpdate ->
     fr_flags f ∈ [0; flagSYN; flagACK] \/ fr_flags f ∈ [flagFIN; Z.lor flagACK flagFIN; flagRST] /\ fr_length f = 0) /\
  (fr_type f = typeGoAway -> fr_length f = goAwayNormal).

Lemma dataOf_app l k : dataOf (l ++ k) = dataOf l ++ dataOf k.
Proof. induction l as [|f l IH]; simpl; [done|]. by rewrite IH, app_assoc. Qed.
Lemma deltas_app l k : deltas (l ++ k) = deltas l + deltas k.
Proof. induction l as [|f l IH]; simpl; [done|]. rewrite IH. lia. Qed.
Lemma fl_app id l k : fl id (l ++ k) = fl id l ++ fl id k.
Proof. apply filter_app. Qed.
Lemma fin_last_app l k : fin_last l -> fin_last k -> (dataOf k <> [] -> no_fin l) -> fin_last (l ++ k).
Proof.
  intros Hl Hk Hn. induction l as [|f l IH]; [done|]. simpl in *. destruct Hl as [Hf Hl]. split.
  - intros Hfin. specialize (Hf Hfin) as [H1 H2]. rewrite dataOf_app, H2. split; [done|]. simpl.
    destruct (dataOf k) as [|z d] eqn:E; [done|]. specialize (Hn ltac:(done)). inversion Hn. congruence.
  - apply IH; [done|]. intros H. specialize (Hn H). by inversion Hn.
Qed.
Lemma no_fin_data l : no_fin l -> fin_last l.
Proof. induction 1; simpl; [done|]. split; [congruence|done]. Qed.

Lemma conform_delta f : conform f -> 0 <= delta1 f.
Proof.
  intros (_ & Hok & _). unfold delta1. destruct (fr_type f =? typeWindowUpdate) eqn:E; [|lia].
  destruct Hok as (_ & _ & _ & Hl & _); [unfold stream_frame; rewrite E; apply orb_true_r|]. unfold uint32 in Hl. lia.
Qed.
Lemma deltas_nonneg l : Forall conform l -> 0 <= deltas l.
Proof. induction 1 as [|f l Hf _ IH]; simpl; [lia|]. pose proof (conform_delta f Hf). lia. Qed.

(** ** One direction of a stream *)

Section link.
(** [tight]: no update was lost to a deadline and windows only double. *)
Variable tight : Prop.

(** What an endpoint has of a stream: the stream, what its user wrote and got, whether it is
    registered. *)
Record view := mkView { v_st : Stream; v_wrote : list Z; v_got : list Z; v_reg : bool }.

(** [S] sends to [R]; [sr] are the frames under way from [S] to [R], [rs] those from [R] to [S].
    The credit the receiver's buffer counts covers what the sender may send, what is under way and
    what is being granted. *)
Definition credit (S : view) (sr rs : list frame) : Z :=
  sendWindow (v_st S) + Z.of_nat (length (dataOf sr)) + deltas rs.

Record chan (S R : view) (sr rs : list frame) : Prop := {
  ch_credit : credit S sr rs <= b_cap (recvBuf (v_st R));
  ch_data : exists rest, v_wrote S = v_got R ++ unread (recvBuf (v_st R)) ++ rest /\
              (v_reg R = true -> rest = dataOf sr) /\ (readState (v_st R) = halfClosed -> rest = []);
  ch_open : writeState (v_st S) = halfOpen -> no_fin sr /\ readState (v_st R) <> halfClosed;
  ch_fin : fin_last sr;
  ch_tight : tight -> v_reg S = true -> v_reg R = true ->
             b_cap (recvBuf (v_st R)) - credit S sr rs <= recvWindow (v_st R) / 2
}.

(** ** What a session does to one of its streams *)

(** A call on a stream: what is sent as data, what is read, the frames sent. *)
Record local (st st' : Stream) (sent read : list Z) (out : list frame) : Prop := {
  lc_id : sid st' = sid st;
  lc_send : sendWindow st = sendWindow st' + Z.of_nat (length sent);
  lc_data : dataOf out = sent;
  lc_sent : sent <> [] -> writeState st = halfOpen;
  lc_write : writeState st' = halfOpen -> writeState st = halfOpen /\ no_fin out;
  lc_fin : fin_last out;
  lc_nosyn : no_syn out;
  lc_read : readState st' = halfClosed -> readState st = halfClosed;
  lc_buf : unread (recvBuf st) = read ++ unread (recvBuf st');
  lc_cap : b_cap (recvBuf st) + deltas out <= b_cap (recvBuf st')
}.

(** The credit no frame announces: none, or at most the window there was, when the window doubles. *)
Definition tightened (st st' : Stream) (out : list frame) : Prop :=
  b_cap (recvBuf st') = b_cap (recvBuf st) + deltas out /\ recvWindow st <= recvWindow st' \/
  b_cap (recvBuf st') - b_cap (recvBuf st) - deltas out <= recvWindow st - b_cap (recvBuf st) /\ 2 * recvWindow st <= recvWindow st'.

Definition moved (V V' : view) (out : list frame) : Prop :=
  exists sent read, local (v_st V) (v_st V') sent read out /\ v_wrote V' = v_wrote V ++ sent /\ v_got V' = v_got V ++ read /\
    (v_reg V' = true -> v_reg V = true) /\ (tight -> v_reg V' = true -> tightened (v_st V) (v_st V') out).

(** The sender's side of a direction after a call on the sending stream. *)
Lemma chan_send S S' R sr rs out :
  chan S R sr rs -> moved S S' out -> chan S' R (sr ++ out) rs.
Proof.
  intros [Hc (rest & Hw & Hr & Hcl) Ho Hf Ht] (sent & read & [] & Hwr & _ & Hreg & _). unfold credit in *.
  assert (dataOf out <> [] -> no_fin sr) as Hnf by (intros H; apply Ho, lc_sent0; congruence).
  split; unfold credit; rewrite ?dataOf_app, ?lc_data0, ?length_app.
  - lia.
  - exists (rest ++ sent). rewrite Hwr, Hw, !app_assoc. split; [done|]. split; [intros H; by rewrite Hr|].
    intros H. rewrite (Hcl H). destruct sent as [|z sent]; [done|]. destruct (Ho (lc_sent0 ltac:(done))). done.
  - intros H. destruct (lc_write0 H) as [H1 H2]. destruct (Ho H1). split; [by apply Forall_app|done].
  - by apply fin_last_app.
  - intros H1 H2 H3. specialize (Ht H1 (Hreg H2) H3). lia.
Qed.

(** ... and after a call on the receiving stream. *)
Lemma chan_recv S R R' sr rs out :
  0 <= sendWindow (v_st S) -> 0 <= deltas rs ->
  chan S R sr rs -> moved R R' out -> chan S R' sr (rs ++ out).
Proof.
  intros Hsw Hd [Hc (rest & Hw & Hr & Hcl) Ho Hf Ht] (sent & read & [] & _ & Hg & Hreg & Hti). unfold credit in *.
  split; unfold credit; rewrite ?deltas_app; try done.
  - lia.
  - exists rest. rewrite Hg, Hw, lc_buf0, <- !app_assoc. split_and!; [done|auto|auto].
  - intros H. destruct (Ho H). split; [done|]. intros H2. by apply lc_read0 in H2.
  - intros H1 H2 H3. specialize (Ht H1 H2 (Hreg H3)). destruct (Hti H1 H3) as [[-> H4]|[H4 H5]].
    + pose proof (Z.div_le_mono (recvWindow (v_st R)) (recvWindow (v_st R')) 2). lia.
    + pose proof (Z.div_le_lower_bound (recvWindow (v_st R')) 2 (recvWindow (v_st R))). lia.
Qed.

(** ** What receiving a frame does to a registered stream *)

Record received (f : frame) (st st' : Stream) : Prop := {
  rc_id : sid st' = sid st;
  rc_send : sendWindow st' = sendWindow st + delta1 f;
  rc_unread : unread (recvBuf st') = unread (recvBuf st) ++ data1 f;
  rc_cap : b_cap (recvBuf st') = b_cap (recvBuf st) - Z.of_nat (length (data1 f));
  rc_window : recvWindow st' = recvWindow st;
  rc_write : writeState st' = halfOpen -> writeState st = halfOpen;
  rc_read : readState st' = halfClosed -> readState st = halfClosed \/ isFIN f = true
}.

Definition got_frame (f : frame) (V V' : view) : Prop :=
  received f (v_st V) (v_st V') /\ v_wrote V' = v_wrote V /\ v_got V' = v_got V /\ v_reg V = true.

Lemma chan_deliver S R R' f sr rs :
  chan S R (f :: sr) rs -> got_frame f R R' -> chan S R' sr rs.
Proof.
  intros [Hc (rest & Hw & Hr & Hcl) Ho Hf Ht] ([] & _ & Hg & Hreg). unfold credit in *. simpl in *.
  rewrite length_app in *. specialize (Hr Hreg). subst rest.
  split; unfold credit; rewrite ?rc_cap0, ?rc_window0; try done.
  - lia.
  - exists (dataOf sr). rewrite Hg, Hw, rc_unread0, <- !app_assoc. split_and!; [done|done|].
    intros [H|H]%rc_read0; [by apply Hcl, app_eq_nil in H as [_ ->]|by apply Hf].
  - intros H. destruct (Ho H) as [H1 H2]. inversion H1 as [|? ? H3 H4]. split; [done|].
    intros [Hx|Hx]%rc_read0; [done|congruence].
  - apply Hf.
  - intros H1 H2 _. specialize (Ht H1 H2 Hreg). lia.
Qed.

Lemma chan_granted S S' R f sr rs :
  chan S R sr (f :: rs) -> got_frame f S S' -> chan S' R sr rs.
Proof.
  intros [Hc Hd Ho Hf Ht] ([] & Hw & _ & Hreg). unfold credit in *. simpl in *.
  split; unfold credit; rewrite ?rc_send0, ?Hw; try done; [lia|auto|]. intros H1 _ H3. specialize (Ht H1 Hreg H3). lia.
Qed.

(** A frame for a stream that is not registered is dropped. *)
Lemma chan_drop_data S R f sr rs : v_reg R = false -> chan S R (f :: sr) rs -> chan S R sr rs.
Proof.
  intros Hreg [Hc (rest & Hw & Hr & Hcl) Ho Hf Ht]. unfold credit in *. simpl in *. rewrite length_app in *.
  split; unfold credit; try done; [lia| | |by apply Hf|congruence].
  - exists rest. split_and!; [done|congruence|done].
  - intros H. destruct (Ho H) as [H1 ?]. by inversion H1.
Qed.

Lemma chan_drop_grant S R f sr rs : v_reg S = false -> conform f -> chan S R sr (f :: rs) -> chan S R sr rs.
Proof.
  intros Hreg Hcf [Hc Hd Ho Hf Ht]. pose proof (conform_delta f Hcf). unfold credit in *. simpl in *.
  split; unfold credit; try done; [lia|congruence].
Qed.

(** ** The two views of an ID

    [id] is opened by the first endpoint; [c] is the configuration of the second. *)
Variable c : Config.
Variable id : Z.

Definition fresh : view := mkView (newStream c id streamSYNReceived initialStreamWindow) [] [] true.

Inductive idlink : option view -> option view -> list frame -> list frame -> Prop :=
| IL_idle : idlink None None [] []
| IL_pending X f l :
    isSYN f = true -> isFIN f = false -> fr_type f = typeWindowUpdate -> no_syn l ->
    chan X fresh (f :: l) [] -> chan fresh X [] (f :: l) -> idlink (Some X) None (f :: l) []
| IL_live X Y lx ly :
    no_syn lx -> no_syn ly -> chan X Y lx ly -> chan Y X ly lx -> idlink (Some X) (Some Y) lx ly
| IL_dead X lx ly : no_syn lx -> no_syn ly -> dataOf ly = [] -> deltas ly = 0 -> idlink (Some X) None lx ly.

(** A stream [OpenStream] just made, whose SYN is [f]. *)
Record opened (f : frame) (V : view) : Prop := {
  op_syn : isSYN f = true;
  op_fin : isFIN f = false;
  op_type : fr_type f = typeWindowUpdate;
  op_send : sendWindow (v_st V) = initialStreamWindow;
  op_unread : unread (recvBuf (v_st V)) = [];
  op_cap : b_cap (recvBuf (v_st V)) = initialStreamWindow + fr_length f;
  op_window : 0 <= recvWindow (v_st V);
  op_read : readState (v_st V) = halfOpen;
  op_wrote : v_wrote V = [];
  op_got : v_got V = []
}.

(** What an endpoint does to its view of an ID, [own] when the ID is one it opens. *)
Inductive astep (own : bool) : option view -> option view -> list frame -> Prop :=
| A_none v : astep own v v []
| A_move V V' out : moved V V' out -> astep own (Some V) (Some V') out
| A_open V f : own = true -> opened f V -> astep own None (Some V) [f]
| A_unsent V : own = true -> astep own None (Some V) [].

Definition view_ok (v : option view) : Prop := match v with Some V => 0 <= sendWindow (v_st V) | None => True end.

Lemma fresh_send : 0 <= sendWindow (v_st fresh).
Proof. done. Qed.

Lemma idlink_opened f V : 0 <= InitialStreamWindowSize c -> opened f V -> idlink (Some V) None [f] [].
Proof.
  intros Hc []. assert (data1 f = []) as Hd by (unfold data1; by rewrite op_type0).
  assert (delta1 f = fr_length f) as Hl by (unfold delta1; by rewrite op_type0).
  assert (no_fin [f]) as Hnf by by repeat constructor.
  apply IL_pending; try done; [by constructor|..].
  - split; unfold credit; simpl; rewrite ?Hd, ?op_send0, ?op_wrote0; simpl; try lia; try done.
    + by exists [].
    + intros _ _ _. assert (0 <= InitialStreamWindowSize c / 2) by (apply Z.div_pos; lia). lia.
  - split; unfold credit; simpl; rewrite ?Hl, ?op_cap0, ?op_got0, ?op_unread0; try done; try lia.
    + by exists [].
    + intros _. rewrite op_read0. split; [constructor|done].
    + intros _ _ _. assert (0 <= recvWindow (v_st V) / 2) by (apply Z.div_pos; lia). lia.
Qed.

Lemma moved_nosyn V V' out : moved V V' out -> no_syn out.
Proof. intros (? & ? & [] & _). done. Qed.

Lemma idlink_opener vx vx' vy lx ly out :
  0 <= InitialStreamWindowSize c -> view_ok vx -> view_ok vy -> Forall conform lx -> Forall conform ly ->
  idlink vx vy lx ly -> astep true vx vx' out -> idlink vx' vy (lx ++ out) ly.
Proof.
  intros Hc Hx Hy Hlx Hly Hl Ha. pose proof (deltas_nonneg _ Hlx). pose proof (deltas_nonneg _ Hly).
  destruct Ha as [v|V V' out Hm|V f _ Ho|V _].
  - by rewrite app_nil_r.
  - pose proof (moved_nosyn _ _ _ Hm) as Hns. inversion Hl as [|X f l ? ? ? ? Hc1 Hc2|X Y ? ? ? ? Hc1 Hc2|X ? ? ? ? ? ?]; subst; simpl.
    + apply IL_pending; [done..|by apply Forall_app|exact (chan_send _ _ _ _ _ _ Hc1 Hm)|].
      by apply (chan_recv fresh V V' [] (f :: l) out fresh_send).
    + apply IL_live; [by apply Forall_app|done|by eapply chan_send|by eapply chan_recv].
    + apply IL_dead; [by apply Forall_app|done..].
  - inversion Hl; subst. by apply idlink_opened.
  - inversion Hl; subst. apply IL_dead; [constructor|constructor|done|done].
Qed.

Lemma idlink_acceptor vx vy vy' lx ly out :
  view_ok vx -> view_ok vy -> Forall conform lx -> Forall conform ly ->
  idlink vx vy lx ly -> astep false vy vy' out -> idlink vx vy' lx (ly ++ out).
Proof.
  intros Hx Hy Hlx Hly Hl Ha. pose proof (deltas_nonneg _ Hlx). pose proof (deltas_nonneg _ Hly).
  destruct Ha as [v|V V' out Hm|V f ? Ho|V ?]; [by rewrite app_nil_r| |done|done].
  pose proof (moved_nosyn _ _ _ Hm). inversion Hl as [| |X Y ? ? ? ? Hc1 Hc2|]; subst.
  apply IL_live; [done|by apply Forall_app|by eapply chan_recv|by eapply chan_send].
Qed.

(** What an endpoint does to its view when a frame of the ID arrives, and what it answers. *)
Inductive arecv (f : frame) : option view -> option view -> list frame -> Prop :=
| R_drop v : match v with Some V => v_reg V = false | None => True end -> isSYN f = false -> arecv f v v []
| R_refuse out : isSYN f = true -> no_syn out -> dataOf out = [] -> deltas out = 0 -> arecv f None None out
| R_full out : isSYN f = true -> no_syn out -> no_fin out -> dataOf out = [] -> deltas out = 0 ->
    arecv f None (Some (mkView (v_st fresh) [] [] false)) out
| R_new V' : isSYN f = true -> got_frame f fresh V' -> arecv f None (Some V') []
| R_recv V V' : isSYN f = false -> got_frame f V V' -> arecv f (Some V) (Some V') [].

Lemma idlink_accept vx vy vy' f lx ly out :
  Forall conform (f :: lx) -> idlink vx vy (f :: lx) ly -> arecv f vy vy' out -> idlink vx vy' lx (ly ++ out).
Proof.
  intros Hcf Hl Ha. inversion Hcf as [|? ? Hf Hlx]; subst. pose proof (conform_delta f Hf) as Hd.
  inversion Hl as [|X f' l Hs Hfin Ht Hns Hc1 Hc2|X Y ? ? Hns Hns' Hc1 Hc2|X ? ? Hns Hns' Hdd Hdz]; subst.
  - assert (data1 f = []) as Hd1 by (unfold data1; by rewrite Ht). simpl.
    inversion Ha as [v Hv Hs'|out' _ Ho Hdo Hdz|out' _ Ho Hfo Hdo Hde|V' _ Hg|]; subst; [congruence|by apply IL_dead| |].
    + apply IL_live; [done|done|..].
      * destruct Hc1 as [H1 (rest & H2 & H3 & H4) H5 H6 H7]. unfold credit in *. simpl in *. rewrite Hd1 in *. simpl in *.
        split; unfold credit; simpl; [lia| | |by apply H6|done].
        -- exists rest. split_and!; [done|done|done].
        -- intros H. destruct (H5 H) as [H8 ?]. by inversion H8.
      * destruct Hc2 as [H1 (rest & H2 & H3 & H4) H5 H6 H7]. unfold credit in *. simpl in *.
        split; unfold credit; simpl; rewrite ?Hdo; simpl; [lia| | |by apply no_fin_data|done].
        -- exists rest. split_and!; [done|done|done].
        -- intros H. by destruct (H5 H).
    + simpl. apply IL_live; [done|constructor|by eapply chan_deliver|by eapply chan_granted].
  - inversion Hns as [|? ? Hsf Hns1]; subst. inversion Ha as [v Hv Hs'| | | |V V' _ Hg]; subst; simpl; rewrite ?app_nil_r.
    + apply IL_live; [done|done|by eapply chan_drop_data|by eapply chan_drop_grant].
    + apply IL_live; [done|done|by eapply chan_deliver|by eapply chan_granted].
  - inversion Hns as [|? ? Hsf Hns1]; subst. inversion Ha; subst; try congruence. rewrite app_nil_r. by apply IL_dead.
Qed.

End link.

(** ... and the endpoint that opened the ID. *)
Lemma idlink_answer tight c c' id vx vx' vy f lx ly out :
  Forall conform (f :: ly) -> idlink tight c id vx vy lx (f :: ly) -> arecv c' id f vx vx' out -> idlink tight c id vx' vy (lx ++ out) ly.
Proof.
  intros Hcf Hl Ha. inversion Hcf as [|? ? Hf Hly]; subst. pose proof (conform_delta f Hf). pose proof (deltas_nonneg _ Hly).
  inversion Hl as [| |X Y ? ? Hns Hns' Hc1 Hc2|X ? ? Hns Hns' Hdd Hdz]; subst; inversion Hns' as [|? ? Hsf Hns1]; subst;
    inversion Ha as [v Hv Hs'| | | |V V' _ Hg]; subst; simpl in *; rewrite ?app_nil_r.
  - apply IL_live; [done|done|by eapply chan_drop_grant|by eapply chan_drop_data].
  - apply IL_live; [done|done|by eapply chan_granted|by eapply chan_deliver].
  - apply app_eq_nil in Hdd as [_ ?]. apply IL_dead; [done..|lia].
  - apply app_eq_nil in Hdd as [_ ?]. apply IL_dead; [done..|lia].
Qed.
