(* ===== verification/YamuxPeers.v ===== *)
(** * yamux: what each call does on a connection

    Every call of a session on one of its streams, seen as the effect [local] of YamuxNet.v: the
    object it changes, the frames it queues, the credit it announces. *)

From stdpp Require Import base gmap list numbers relations.
From Stdlib Require Import ZArith Lia.
From S2P Require Import Prelude Transcoders Yamux YamuxSession YamuxBounds YamuxNet.

(** ** Windows that double *)

Definition doubling (c : Config) : Prop :=
  exists k : nat, MaxStreamWindowSize c = InitialStreamWindowSize c * 2 ^ Z.of_nat k.
Definition dbl (c : Config) (w : Z) : Prop :=
  exists j : nat, w = InitialStreamWindowSize c * 2 ^ Z.of_nat j /\ w <= MaxStreamWindowSize c.

Lemma dbl_next c w : 0 < InitialStreamWindowSize c -> doubling c -> dbl c w -> w < MaxStreamWindowSize c ->
  2 * w <= MaxStreamWindowSize c /\ dbl c (2 * w).
Proof.
  intros Hi [k Hk] [j [Hj Hle]] Hlt. assert (j < k)%nat as Hjk.
  { destruct (Nat.lt_ge_cases j k) as [?|Hge]; [done|]. exfalso. rewrite Hj, Hk in Hlt.
    assert (2 ^ Z.of_nat k <= 2 ^ Z.of_nat j) by (apply Z.pow_le_mono_r; lia). nia. }
  assert (2 * w = InitialStreamWindowSize c * 2 ^ Z.of_nat (S j)) as H2.
  { rewrite Hj, Nat2Z.inj_succ, Z.pow_succ_r by lia. lia. }
  assert (2 * w <= MaxStreamWindowSize c) as H3.
  { rewrite H2, Hk. apply Z.mul_le_mono_nonneg_l; [lia|]. apply Z.pow_le_mono_r; lia. }
  split; [done|]. exists (S j). split; done.
Qed.

Lemma dbl_tuned c w : config_ok c -> doubling c -> dbl c w -> w < tunedWindow c w ->
  tunedWindow c w = 2 * w /\ 2 * w <= MaxStreamWindowSize c /\ dbl c (2 * w).
Proof.
  intros Hc Hd Hw Hlt. pose proof (config_windows c Hc) as (_ & Hi & _). unfold initialStreamWindow in Hi.
  assert (0 <= w) as H0 by (destruct Hw as [j [-> _]]; apply Z.mul_nonneg_nonneg; [lia|apply Z.pow_nonneg; lia]).
  destruct (tunedWindow_le c w Hc H0 Hlt) as (H1 & _). destruct (dbl_next c w) as [H2 H3]; [lia|done|done|lia|].
  split; [|done]. unfold tunedWindow in *. destruct Hc. unfold uint32, MaxUint32 in *.
  assert ((2 ^ 32 - 1) / 2 <? w = false) as -> by (apply Z.ltb_ge; dlia). lia.
Qed.

(** Less than half of the window is missing. *)
Definition settled (st : Stream) : Prop :=
  recvWindow st - (b_cap (recvBuf st) + b_len (recvBuf st)) < recvWindow st / 2.

(** ** The effect of a call *)

Record acted (c : Config) (s s' : Session) (p : nat) (st st' : Stream) (sent read : list Z) (out : list frame)
    (lossless : Prop) : Prop := {
  ac_old : objs s !! p = Some st;
  ac_objs : objs s' = <[p := st']> (objs s);
  ac_sendCh : sendCh s' = sendCh s ++ out;
  ac_streams : streams s' = streams s \/ streams s' = delete (sid st) (streams s);
  ac_next : nextStreamID s' = nextStreamID s;
  ac_shut : shutdown s' = shutdown s;
  ac_accept : acceptCh s' = acceptCh s;
  ac_conf : Forall (fun f => conform f /\ of_id (sid st) f = true) out;
  ac_local : local st st' sent read out;
  ac_init : state st' <> streamInit;
  ac_syn : state st <> streamSYNReceived -> state st' <> streamSYNReceived;
  ac_settled : settled st' \/ state st <> streamSYNReceived /\ (settled st -> settled st');
  ac_tight : lossless -> tightened st st' out;
  ac_dbl : doubling c -> dbl c (recvWindow st) -> dbl c (recvWindow st')
}.

(** What a change of one stream needs to keep of the session; calls and receptions do. *)
Record changed (c : Config) (s s' : Session) (p : nat) (st st' : Stream) (out : list frame) : Prop := {
  cg_old : objs s !! p = Some st;
  cg_objs : objs s' = <[p := st']> (objs s);
  cg_sendCh : sendCh s' = sendCh s ++ out;
  cg_streams : streams s' = streams s \/ streams s' = delete (sid st) (streams s);
  cg_next : nextStreamID s' = nextStreamID s;
  cg_shut : shutdown s' = shutdown s;
  cg_accept : acceptCh s' = acceptCh s;
  cg_conf : Forall (fun f => conform f /\ of_id (sid st) f = true) out;
  cg_id : sid st' = sid st;
  cg_init : state st' <> streamInit;
  cg_syn : state st <> streamSYNReceived -> state st' <> streamSYNReceived;
  cg_settled : state st' <> streamSYNReceived -> streams s' !! sid st = Some p ->
    settled st' \/ state st <> streamSYNReceived /\ (settled st -> settled st');
  cg_dbl : doubling c -> dbl c (recvWindow st) -> dbl c (recvWindow st')
}.

Lemma acted_changed c s s' p st st' sent read out L :
  acted c s s' p st st' sent read out L -> changed c s s' p st st' out.
Proof. intros [? ? ? ? ? ? ? ? [] ? ? ? ? ?]. split; auto. Qed.

Lemma sendMsg_fields d f s :
  let s' := fst (sendMsg d f s) in
  objs s' = objs s /\ streams s' = streams s /\ nextStreamID s' = nextStreamID s /\ shutdown s' = shutdown s /\
  config s' = config s /\ acceptCh s' = acceptCh s /\
  (sendCh s' = sendCh s ++ [f] /\ snd (sendMsg d f s) = None \/
   sendCh s' = sendCh s /\ snd (sendMsg d f s) <> None /\ ~ (shutdown s = None /\ d = false)).
Proof.
  unfold sendMsg. destruct (shutdown s) eqn:E; [|destruct d]; simpl; rewrite ?E; split_and!; try done; [right|right|left];
    split_and!; try done; intros [? ?]; done.
Qed.

Lemma closeStream_fields id s :
  let s' := closeStream id s in
  objs s' = objs s /\ streams s' = delete id (streams s) /\ nextStreamID s' = nextStreamID s /\ shutdown s' = shutdown s /\
  sendCh s' = sendCh s /\ acceptCh s' = acceptCh s.
Proof.
  unfold closeStream. set (s1 := if bool_decide _ then _ else s).
  assert (objs s1 = objs s /\ streams s1 = streams s /\ nextStreamID s1 = nextStreamID s /\ shutdown s1 = shutdown s /\
          sendCh s1 = sendCh s /\ acceptCh s1 = acceptCh s) as (H1 & H2 & H3 & H4 & H5 & H6) by (unfold s1, releaseSyn; by repeat case_match).
  unfold deleteStream. destruct (streams s1 !! id) eqn:E; simpl; rewrite ?H1, ?H2, ?H3, ?H4, ?H5, ?H6; split_and!; try done.
  rewrite delete_id; congruence.
Qed.

Lemma put_put p st st' s : put p st' (put p st s) = put p st' s.
Proof. unfold put. destruct s. simpl. unfold set_objs. simpl. by rewrite list_insert_insert_eq. Qed.
Lemma put_lookup p st st' s : objs s !! p = Some st -> objs (put p st' s) !! p = Some st'.
Proof. intros H. apply list_lookup_insert_eq. by eapply lookup_lt_Some. Qed.

(** A call that changes one stream, queues one frame or none, and may drop the stream. *)
Lemma acted_intro c s s1 p st st' sent read out lossless (close : bool) :
  objs s !! p = Some st ->
  objs s1 = <[p := st']> (objs s) -> streams s1 = streams s -> nextStreamID s1 = nextStreamID s -> shutdown s1 = shutdown s ->
  acceptCh s1 = acceptCh s -> sendCh s1 = sendCh s ++ out -> sid st' = sid st ->
  Forall (fun f => conform f /\ of_id (sid st) f = true) out -> local st st' sent read out ->
  state st' <> streamInit -> (state st <> streamSYNReceived -> state st' <> streamSYNReceived) ->
  settled st' \/ state st <> streamSYNReceived /\ (settled st -> settled st') ->
  (lossless -> tightened st st' out) -> (doubling c -> dbl c (recvWindow st) -> dbl c (recvWindow st')) ->
  acted c s (if close then closeStream (sid st) s1 else s1) p st st' sent read out lossless.
Proof.
  intros. destruct (closeStream_fields (sid st) s1) as (E1 & E2 & E3 & E4 & E5 & E6).
  destruct close; split; auto; try congruence. right. congruence.
Qed.

(** ** Window updates *)

Lemma flags_plain fl : fl = 0 \/ fl = flagACK -> has_flag fl flagSYN = false /\ has_flag fl flagFIN = false /\ 0 <= fl < 2 ^ 16.
Proof. by intros [-> | ->]. Qed.

Lemma update_conform fl id delta :
  fl = 0 \/ fl = flagACK \/ fl = flagSYN -> uint32 id -> uint32 delta ->
  conform (mkFrame typeWindowUpdate fl id delta []) /\ of_id id (mkFrame typeWindowUpdate fl id delta []) = true.
Proof.
  intros Hf Hi Hd. split; [|unfold of_id; simpl; by rewrite Z.eqb_refl].
  assert (0 <= fl < 2 ^ 16) as Hr by by destruct Hf as [-> |[-> | ->]].
  unfold conform, frame_ok. simpl. split_and!; try done; try lia. intros _. left. destruct Hf as [-> |[-> | ->]]; set_solver.
Qed.

Lemma uint32_cap c st : config_ok c -> stream_ok c st -> 0 <= b_cap (recvBuf st) <= MaxUint32 /\ 0 <= b_len (recvBuf st).
Proof. intros Hc [(Hl & Hcap & Hw & _) _ _ _]. lia. Qed.

(** The frames of an update and the credit in them. *)
Lemma updated_local c st fl need delta lost st' out :
  config_ok c -> stream_ok c st -> state st <> streamInit -> uint32 (sid st) ->
  updated c st fl need delta lost st' ->
  out = [] \/ out = [mkFrame typeWindowUpdate fl (sid st') delta []] ->
  Forall (fun f => conform f /\ of_id (sid st) f = true) out /\ local st st' [] [] out /\
  (doubling c -> dbl c (recvWindow st) -> need = true -> out <> [] -> tightened st st' out) /\
  (need = false -> out = [] -> tightened st st' out) /\
  (doubling c -> dbl c (recvWindow st) -> dbl c (recvWindow st')).
Proof.
  intros Hc Hok Hni Hid [[Hi Hs Hw Hr] Hok' Hu Hcap Hd Hq Hfl Hlost Hwin Hset] Hout.
  assert (fl = 0 \/ fl = flagACK) as Hfl' by (destruct Hfl as [(? & _)|[(_ & ? & _)|(? & _)]]; [auto|done|auto]).
  destruct (uint32_cap c st Hc Hok) as [Hc1 Hl1]. destruct (uint32_cap c st' Hc Hok') as [Hc2 _].
  assert (0 <= lost) as Hl0 by lia.
  destruct (flags_plain fl Hfl') as (F1 & F2 & F3).
  assert (no_syn out /\ no_fin out /\ dataOf out = [] /\ (out = [] -> deltas out = 0) /\ (out <> [] -> deltas out = delta)) as (O1 & O2 & O3 & O4 & O5).
  { destruct Hout as [-> | ->]; (split_and!; [repeat constructor; done|repeat constructor; done|done|done|]); [done|].
    intros _. unfold deltas, delta1. simpl. lia. }
  assert (b_cap (recvBuf st) + deltas out <= b_cap (recvBuf st')) as O6 by (destruct Hout as [-> | ->]; [rewrite O4 by done|rewrite O5 by done]; lia).
  split_and!.
  - destruct Hout as [-> | ->]; constructor; [|done]. rewrite Hi. apply update_conform; [tauto|done|]. unfold uint32, MaxUint32 in *. lia.
  - split; rewrite ?Hs, ?Hw, ?Hr, ?Hu; try done; [simpl; lia|by apply no_fin_data].
  - intros Hdo Hdb _ Hne. unfold tightened. rewrite O5, Hcap by done. destruct Hwin as [Hwin|[Hlt Hwin]].
    + destruct Hlost as [[-> ?]|[? [? _]]]; [left; lia|lia].
    + destruct (dbl_tuned c (recvWindow st) Hc Hdo Hdb Hlt) as (Ht & Ht2 & _). destruct Hlost as [[-> ?]|[Hl [_ H2]]]; [left; lia|].
      right. split; [lia|]. by apply H2.
  - intros Hn Ho. destruct (Hq Hn) as (_ & -> & ->). left. rewrite O4 by done. lia.
  - intros Hdo Hdb. destruct Hwin as [-> |[Hlt ->]]; [done|]. by destruct (dbl_tuned c (recvWindow st) Hc Hdo Hdb Hlt) as (-> & _ & ?).
Qed.

Definition announces (s : Session) (d : bool) (w : Z) : Prop :=
  shutdown s = None /\ d = false /\ doubling (config s) /\ dbl (config s) w.

Lemma swu_acted t r d p st s :
  sess_ok s -> objs s !! p = Some st -> state st <> streamInit -> uint32 (sid st) ->
  exists st' out, acted (config s) s (fst (sendWindowUpdate t r d p s)) p st st' [] [] out (announces s d (recvWindow st)) /\
    settled st' /\ state st' <> streamSYNReceived /\ (state st = streamSYNReceived -> state st' = streamEstablished).
Proof.
  intros H Hp Hni Hid. unfold sendWindowUpdate. rewrite Hp. pose proof (objs_ok p st s H Hp) as Hok. pose proof (se_config s H) as Hc.
  destruct (windowUpdate (config s) t r st) as [[[fl need] de] st'] eqn:E.
  destruct (windowUpdate_spec _ _ _ _ _ _ _ _ Hc Hok E) as (lost & Hup).
  pose proof Hup as [[Hi _ _ _] _ _ _ _ _ Hfl _ _ Hset].
  set (f := mkFrame typeWindowUpdate fl (sid st') de []).
  destruct (sendMsg_fields d f (put p st' s)) as (M1 & M2 & M3 & M4 & _ & M6 & M5).
  set (s1 := if need then fst (sendMsg d f (put p st' s)) else put p st' s).
  assert (fst (if negb need then (put p st' s, None) else sendMsg d f (put p st' s)) = s1) as -> by (unfold s1; by destruct need).
  assert (exists out, (out = [] \/ out = [f]) /\ sendCh s1 = sendCh s ++ out /\ (need = false -> out = []) /\
            (shutdown s = None -> d = false -> need = true -> out <> []) /\ objs s1 = <[p:=st']> (objs s) /\
            streams s1 = streams s /\ nextStreamID s1 = nextStreamID s /\ shutdown s1 = shutdown s /\ acceptCh s1 = acceptCh s)
    as (out & Hout & G1 & G2 & G3 & G4 & G5 & G6 & G7 & G8).
  { unfold s1. destruct need; [|exists []; rewrite app_nil_r; split_and!; auto].
    destruct M5 as [[-> _]|[-> [_ Hn]]]; [exists [f]; split_and!; auto; done|].
    exists []. rewrite app_nil_r. split_and!; auto. }
  destruct (updated_local _ _ _ _ _ _ _ out Hc Hok Hni Hid Hup Hout) as (L1 & L2 & L3 & L4 & L5).
  assert (state st' <> streamInit /\ state st' <> streamSYNReceived /\ (state st = streamSYNReceived -> state st' = streamEstablished)) as (S1 & S2 & S3).
  { destruct Hfl as [(_ & -> & ? & ?)|[(_ & ? & _)|(_ & _ & ->)]]; done. }
  exists st', out. split; [|done].
  apply (acted_intro (config s) s s1 p st st' [] [] out (announces s d (recvWindow st)) false); auto.
  intros (A1 & A2 & A3 & A4). destruct need; [apply L3|apply L4]; auto.
Qed.

(** ** Reading *)

(** Bytes leave the buffer before the update. *)
Lemma acted_after_read c s s2 p st buf st' rd out L :
  objs s !! p = Some st -> unread (recvBuf st) = rd ++ unread buf -> b_cap buf = b_cap (recvBuf st) ->
  acted c (put p (set_recv (recvWindow st) buf st) s) s2 p (set_recv (recvWindow st) buf st) st' [] [] out L ->
  settled st' -> acted c s s2 p st st' [] rd out L.
Proof.
  intros Hp Hu Hc [A1 A2 A3 A4 A5 A6 Aacc A7 [B1 B2 B3 B4 B5 B6 B7 B8 B9 B10] A9 A10 A11 A12 A13] Hset. simpl in *.
  split; simpl; try done; [by rewrite A2, list_insert_insert_eq| |by left|].
  - split; try done; [by rewrite Hu, B9|by rewrite <- Hc].
  - unfold tightened in *. simpl in *. by rewrite <- Hc.
Qed.

Lemma Read_acted k t r d d' p st s s' bs e :
  sess_ok s -> objs s !! p = Some st -> state st <> streamInit -> uint32 (sid st) ->
  Read k t r d d' p s = Some (s', bs, e) ->
  s' = s /\ bs = [] \/ exists st' out, acted (config s) s s' p st st' [] bs out (announces s d' (recvWindow st)).
Proof.
  intros H Hp Hni Hid. pose proof (objs_ok p st s H Hp) as Hok. pose proof Hok as [Hb Hw Hr Hs]. unfold Read. rewrite Hp.
  assert (forall b', buf_ok b' -> b_cap b' + b_len b' <= recvWindow st -> sess_ok (put p (set_recv (recvWindow st) b' st) s)) as Hput.
  { intros b' Hb' Hw'. eapply put_ok; [done|done|done|]. by split. }
  assert (b_len (recvBuf st) <> 0 ->
    (let '(r0, buf) := buf_Read k (recvBuf st) in
     let bs0 := match r0 with Ok bs => bs | Err _ => [] end in
     let '(s1, err) := sendWindowUpdate t r d' p (put p (set_recv (recvWindow st) buf st) s) in Some (s1, bs0, err)) = Some (s', bs, e) ->
    exists st' out, acted (config s) s s' p st st' [] bs out (announces s d' (recvWindow st))) as Hmain.
  { intros E0. destruct (buf_Read_spec k _ Hb (buf_nonempty _ Hb E0)) as (n & b' & -> & _ & _ & Hn & Hb' & Hu & Hc).
    assert (b_cap b' + b_len b' <= recvWindow st) as Hw'.
    { destruct Hb as (Hl & _). destruct Hb' as (Hl' & _). rewrite Hu, length_drop in Hl'. lia. }
    destruct (swu_acted t r d' p (set_recv (recvWindow st) b' st) _ (Hput b' Hb' Hw') (put_lookup _ _ _ _ Hp)) as (st' & out & Ha & Hset & _); [done|done|].
    destruct (sendWindowUpdate t r d' p _) as [s1 err]. intros [= <- <- <-]. exists st', out.
    eapply acted_after_read; [done| |done|exact Ha|done]. by rewrite Hu, take_drop. }
  destruct (readState st); [..|intros [= <- <- <-]; by left]; (destruct (b_len (recvBuf st) =? 0) eqn:E0; bool_props;
    [repeat case_match; intros; simplify_eq; by left|intros E; right; by apply Hmain]).
Qed.

(** ** Changes of state *)

(** A call that changes states alone and may send one frame without data or credit. *)
Lemma states_acted s s1 p st st' out close :
  sess_ok s -> objs s !! p = Some st ->
  objs s1 = <[p := st']> (objs s) -> streams s1 = streams s -> nextStreamID s1 = nextStreamID s -> shutdown s1 = shutdown s ->
  acceptCh s1 = acceptCh s -> sendCh s1 = sendCh s ++ out ->
  sid st' = sid st -> sendWindow st' = sendWindow st -> recvWindow st' = recvWindow st -> recvBuf st' = recvBuf st ->
  Forall (fun f => conform f /\ of_id (sid st) f = true) out -> dataOf out = [] -> deltas out = 0 -> no_syn out ->
  (writeState st' = halfOpen -> writeState st = halfOpen /\ no_fin out) ->
  (readState st' = halfClosed -> readState st = halfClosed) ->
  state st' <> streamInit -> state st <> streamSYNReceived -> state st' <> streamSYNReceived ->
  acted (config s) s (if close : bool then closeStream (sid st) s1 else s1) p st st' [] [] out True.
Proof.
  intros H Hp E1 E2 E3 E4 E6 E5 F1 F2 F3 F4 Hcf Hd Hde Hns Hw Hr Hni Hsy Hsy'.
  apply acted_intro; auto.
  - split; rewrite ?F2, ?F4; auto; [simpl; lia|done| |lia]. clear - Hd. induction out as [|f out IH]; [done|].
    simpl in Hd. apply app_eq_nil in Hd as [H1 H2]. simpl. auto.
  - right. split; [done|]. unfold settled. by rewrite F3, F4.
  - intros _. left. rewrite F3, F4. lia.
  - by rewrite F3.
Qed.

Lemma close_conform fl id :
  fl ∈ [flagFIN; Z.lor flagACK flagFIN; flagRST] -> uint32 id ->
  conform (mkFrame typeWindowUpdate fl id 0 []) /\ of_id id (mkFrame typeWindowUpdate fl id 0 []) = true /\ has_flag fl flagSYN = false.
Proof.
  intros Hf Hi. split_and!; [|unfold of_id; simpl; by rewrite Z.eqb_refl|].
  - assert (0 <= fl < 2 ^ 16) as Hr by (repeat (apply elem_of_cons in Hf as [-> |Hf]; [done|]); by apply elem_of_nil in Hf).
    unfold conform, frame_ok, uint32 in *. simpl. split_and!; try done; try lia. intros _. by right.
  - repeat (apply elem_of_cons in Hf as [-> |Hf]; [done|]). by apply elem_of_nil in Hf.
Qed.

Lemma out_Forall (P : frame -> Prop) f out : out = [] \/ out = [f] -> P f -> Forall P out.
Proof. intros [-> | ->] H; by repeat constructor. Qed.

(** The frame queued, if the session is open. *)
Lemma sendMsg_out f s :
  exists out, (out = [] \/ out = [f]) /\ sendCh (fst (sendMsg false f s)) = sendCh s ++ out.
Proof.
  destruct (sendMsg_fields false f s) as (_ & _ & _ & _ & _ & _ & [[-> _]|[-> _]]); [exists [f]|exists []]; rewrite ?app_nil_r; auto.
Qed.

Lemma reset_half_open x : reset_half x <> halfOpen.
Proof. by destruct x. Qed.
Lemma reset_half_closed x : reset_half x = halfClosed -> x = halfClosed.
Proof. by destruct x. Qed.

Section user.
Variables (p : nat) (st : Stream) (s : Session).
Hypothesis Hs : sess_ok s.
Hypothesis Hp : objs s !! p = Some st.
Hypothesis Hinit : state st <> streamInit.
Hypothesis Hsyn : state st <> streamSYNReceived.
Hypothesis Hid : uint32 (sid st).

Lemma Reset_acted :
  Reset p s = s \/ exists st' out, acted (config s) s (Reset p s) p st st' [] [] out True.
Proof.
  unfold Reset. rewrite Hp. set (f := mkFrame _ _ _ _ _). destruct (sendMsg_out f (put p (reset_stream st) s)) as (out & Hout & Eo).
  destruct (sendMsg_fields false f (put p (reset_stream st) s)) as (M1 & M2 & M3 & M4 & _ & M6 & _).
  destruct (close_conform flagRST (sid st)) as (C1 & C2 & C3); [set_solver|done|].
  assert (acted (config s) s (closeStream (sid st) (fst (sendMsg false f (put p (reset_stream st) s)))) p st (reset_stream st) [] [] out True) as Ha.
  { apply (states_acted s _ p st (reset_stream st) out true); try done.
    - by apply (out_Forall _ f).
    - by destruct Hout as [-> | ->].
    - by destruct Hout as [-> | ->].
    - by apply (out_Forall _ f).
    - intros E. by apply reset_half_open in E.
    - apply reset_half_closed. }
  destruct (state st); [done|right..|by left]; [|done|]; by exists (reset_stream st), out.
Qed.

Lemma CloseRead_acted :
  CloseRead p s = s \/ exists st' out, acted (config s) s (CloseRead p s) p st st' [] [] out True.
Proof.
  unfold CloseRead. rewrite Hp. destruct (readState st) eqn:Er; [|by left|by left]. right. cbv zeta.
  set (cl := negb (bool_decide (writeState st = halfOpen))).
  set (st' := if cl then set_state streamFinished (set_readState halfReset st) else set_readState halfReset st).
  assert (sid st' = sid st) as Ei by (unfold st'; by case_match). exists st', []. rewrite Ei.
  apply (states_acted s (put p st' s) p st st' [] cl); try done; try (unfold st'; by case_match).
  - by rewrite app_nil_r.
  - constructor.
  - intros E. split; [|constructor]. revert E. unfold st'. by case_match.
Qed.

Lemma CloseWrite_acted :
  fst (CloseWrite p s) = s \/ exists st' out, acted (config s) s (fst (CloseWrite p s)) p st st' [] [] out True.
Proof.
  unfold CloseWrite. rewrite Hp. destruct (writeState st) eqn:Ew; [|by left|by left]. right. cbv zeta.
  set (cl := negb (bool_decide (readState st = halfOpen))).
  set (st1 := if cl then set_state streamFinished (set_writeState halfClosed st) else set_writeState halfClosed st).
  assert (sid st1 = sid st /\ sendWindow st1 = sendWindow st /\ recvWindow st1 = recvWindow st /\ recvBuf st1 = recvBuf st /\
          writeState st1 = halfClosed /\ readState st1 = readState st /\ state st1 <> streamInit /\ state st1 <> streamSYNReceived)
    as (E1 & E2 & E3 & E4 & E5 & E6 & E7 & E8) by (unfold st1; case_match; done).
  unfold sendClose. rewrite (put_lookup p st st1 s Hp).
  assert (sendFlags st1 = (0, st1)) as -> by (unfold sendFlags; destruct (state st1); done).
  rewrite put_put. set (f := mkFrame _ _ _ _ _). destruct (sendMsg_out f (put p st1 s)) as (out & Hout & Eo).
  destruct (sendMsg_fields false f (put p st1 s)) as (M1 & M2 & M3 & M4 & _ & M6 & _).
  destruct (sendMsg false f (put p st1 s)) as [s2 err]. simpl in *. rewrite E1. exists st1, out.
  destruct (close_conform flagFIN (sid st)) as (C1 & C2 & C3); [set_solver|done|].
  assert (f = mkFrame typeWindowUpdate flagFIN (sid st) 0 []) as Ef by (unfold f; by rewrite E1). rewrite Ef in Hout.
  apply states_acted; try done.
  - by eapply out_Forall.
  - by destruct Hout as [-> | ->].
  - by destruct Hout as [-> | ->].
  - by eapply out_Forall.
  - congruence.
  - congruence.
Qed.

Lemma write_acted b d d' s' n e :
  write b d d' p s = Some (s', n, e) ->
  s' = s /\ n = 0%nat \/ exists st' out, acted (config s) s s' p st st' (take n b) [] out True.
Proof.
  pose proof (objs_ok p st s Hs Hp) as [Hb Hw Hr Hsw]. unfold write. rewrite Hp.
  destruct (writeState st) eqn:Ew; [|intros [= <- <- <-]; by left..]. case_bool; [case_match; intros; simplify_eq; by left|].
  assert (sendFlags st = (0, st)) as -> by (unfold sendFlags; destruct (state st); done). cbv zeta.
  set (mx := Z.min _ _). assert (0 <= mx <= sendWindow st /\ mx <= Z.of_nat (length b)) as [Hm1 Hm2].
  { unfold mx. assert (0 <= wrap32 (Z.of_nat (length b)) <= Z.of_nat (length b)) by (unfold wrap32; split;
      [apply Z.mod_pos_bound; lia|apply Z.mod_le; lia]).
    assert (0 <= wrap32 (MaxMessageSize (config s) - headerSize)) by (unfold wrap32; apply Z.mod_pos_bound; lia).
    unfold uint32 in *. lia. }
  set (f := mkFrame _ _ _ _ _). destruct (sendMsg_fields d' f (put p st s)) as (M1 & M2 & M3 & M4 & _ & M6 & M5).
  assert (put p st s = s) as Eput by (unfold put, set_objs; destruct s; simpl in *; by rewrite list_insert_id).
  destruct (sendMsg d' f (put p st s)) as [s2 [e2|]] eqn:Em; intros [= <- <- <-]; simpl in *.
  - left. destruct M5 as [[_ ?]|[_ _]]; [done|]. rewrite <- Eput. unfold sendMsg in Em. repeat case_match; simplify_eq; by rewrite ?Eput.
  - right. destruct M5 as [[M5 _]|[_ [? _]]]; [|done].
    set (st' := set_sendWindow _ st). assert (sendWindow st' = sendWindow st - mx) as Esw.
    { unfold st'. simpl. unfold wrap32. replace (sendWindow st + (2 ^ 32 - mx)) with (sendWindow st - mx + 1 * 2 ^ 32) by lia.
      rewrite Z.mod_add by lia. apply Z.mod_small. unfold uint32 in *. lia. }
    assert (length (take (Z.to_nat mx) b) = Z.to_nat mx) as Elen by (rewrite length_take; lia).
    exists st', [f]. apply (acted_intro (config s) s (put p st' s2) p st st' _ _ _ _ false); try done.
    + simpl. rewrite M1. by rewrite list_insert_insert_eq.
    + constructor; [|done]. split; [|unfold of_id; simpl; by rewrite Z.eqb_refl]. unfold conform, frame_ok. simpl.
      unfold uint32 in *. split; [done|]; split; [intros _|]; split_and!; try done; try lia.
    + split; simpl; try done; [rewrite Elen; change (wrap32 _) with (sendWindow st'); lia|by rewrite app_nil_r|
        split; [done|by repeat constructor]|by repeat constructor|unfold delta1; simpl; lia].
    + right. split; [done|]. done.
    + intros _. left. split; [|done]. simpl. unfold delta1. simpl. lia.
Qed.
End user.
