(* ===== verification/YamuxConn.v ===== *)
(** * yamux: a connection between two sessions

    Two sessions exchange frames over a connection that keeps their order.  An [endpoint] is a
    session, the frames its send loop wrote and the peer has not read yet, the streams its user
    holds and the bytes the user wrote to and got from each of them.  This file has the calls of an
    endpoint's user as steps on the views of YamuxNet.v; the conclusions are in YamuxTheorems.v. *)

From stdpp Require Import base gmap list numbers relations.
From Stdlib Require Import ZArith Lia.
From S2P Require Import Prelude Transcoders Yamux YamuxSession YamuxBounds YamuxNet YamuxPeers.

(** ** Endpoints *)

(** [wire] holds the frames written to the connection and not read by the peer; [owned] the streams
    [OpenStream] and [AcceptStream] returned; [wrote] and [got] the bytes the user wrote to and read
    from each. *)
Record endpoint := mkEnd {
  ss : Session;
  wire : list frame;
  owned : list nat;
  wrote : nat -> list Z;
  got : nat -> list Z
}.

Definition newEnd (c : Config) (client : bool) : endpoint := mkEnd (newSession c client) [] [] (fun _ => []) (fun _ => []).

(** Frames under way. *)
Definition flight (e : endpoint) : list frame := wire e ++ sendCh (ss e).

Definition bump (p : nat) (bs : list Z) (h : nat -> list Z) : nat -> list Z :=
  fun q => if decide (q = p) then h q ++ bs else h q.

Definition estep (o : sop) (e : endpoint) : endpoint :=
  match o with
  | SOpen c m r d =>
      match OpenStream c m r d (ss e) with
      | Some (s, Ok p) => mkEnd s (wire e) (p :: owned e) (wrote e) (got e)
      | Some (s, Err _) => mkEnd s (wire e) (owned e) (wrote e) (got e)
      | None => e
      end
  | SAccept t r =>
      match AcceptStream t r (ss e) with
      | Some (s, Ok p) => mkEnd s (wire e) (p :: owned e) (wrote e) (got e)
      | Some (s, Err _) => mkEnd s (wire e) (owned e) (wrote e) (got e)
      | None => e
      end
  | SRead k t r d d' p =>
      match Read k t r d d' p (ss e) with
      | Some (s, bs, _) => mkEnd s (wire e) (owned e) (wrote e) (bump p bs (got e))
      | None => e
      end
  | SWrite b d d' p =>
      match write b d d' p (ss e) with
      | Some (s, n, _) => mkEnd s (wire e) (owned e) (bump p (take n b) (wrote e)) (got e)
      | None => e
      end
  | SSend c =>
      match sendLoop_step c (ss e) with
      | Some (f, s) => mkEnd s (wire e ++ [f]) (owned e) (wrote e) (got e)
      | None => e
      end
  | o => mkEnd (sexec o (ss e)) (wire e) (owned e) (wrote e) (got e)
  end.

(** The calls a user can make: on streams it was given.  With [lossy] false no deadline ends the
    sending of a window update. *)
Definition enabled (lossy : bool) (o : sop) (e : endpoint) : Prop :=
  match o with
  | SOpen _ _ _ _ | SAccept _ _ | SGoAway | SClose | SExit _ | SPingStart | SPingEnd | SSend _ => True
  | SRead _ _ _ _ d' p => p ∈ owned e /\ (lossy = false -> d' = false)
  | SWrite _ _ _ p | SCloseWrite p | SCloseRead p | SReset p => p ∈ owned e
  | SRecv _ _ _ _ => False
  end.

Definition take_wire (w : list frame) (e : endpoint) : endpoint := mkEnd (ss e) w (owned e) (wrote e) (got e).
Definition set_ss (s : Session) (e : endpoint) : endpoint := mkEnd s (wire e) (owned e) (wrote e) (got e).

Inductive nstep (lossy : bool) : endpoint * endpoint -> endpoint * endpoint -> Prop :=
| N_left o a b : enabled lossy o a -> nstep lossy (a, b) (estep o a, b)
| N_right o a b : enabled lossy o b -> nstep lossy (a, b) (a, estep o b)
| N_to_right g mm reserve f w a b :
    wire a = f :: w -> shutdown (ss b) = None ->
    nstep lossy (a, b) (take_wire w a, set_ss (recv g mm reserve f (ss b)) b)
| N_to_left g mm reserve f w a b :
    wire b = f :: w -> shutdown (ss a) = None ->
    nstep lossy (a, b) (set_ss (recv g mm reserve f (ss a)) a, take_wire w b).

Definition connected (lossy : bool) (ca cb : Config) (n : endpoint * endpoint) : Prop :=
  rtc (nstep lossy) (newEnd ca true, newEnd cb false) n.

(** ** The view of an ID *)

Definition sees (e : endpoint) (id : Z) (v : option view) : Prop :=
  match v with
  | None => forall p st, objs (ss e) !! p = Some st -> sid st <> id
  | Some V => exists p, objs (ss e) !! p = Some (v_st V) /\ sid (v_st V) = id /\ v_wrote V = wrote e p /\ v_got V = got e p /\
                v_reg V = bool_decide (streams (ss e) !! id = Some p)
  end.

Record eok (e : endpoint) : Prop := {
  eo_sess : sess_ok (ss e);
  eo_uniq : forall p q st st', objs (ss e) !! p = Some st -> objs (ss e) !! q = Some st' -> sid st = sid st' -> p = q;
  eo_own : forall p st, objs (ss e) !! p = Some st -> incoming (ss e) (sid st) = false -> sid st < nextStreamID (ss e);
  eo_id : forall p st, objs (ss e) !! p = Some st -> uint32 (sid st);
  eo_init : forall p st, objs (ss e) !! p = Some st -> state st <> streamInit;
  eo_owned : forall p st, objs (ss e) !! p = Some st -> p ∈ owned e -> state st <> streamSYNReceived;
  eo_shut : shutdown (ss e) <> None -> streams (ss e) = ∅;
  eo_conf : Forall conform (flight e);
  eo_settled : forall p st, objs (ss e) !! p = Some st -> state st <> streamSYNReceived ->
                 streams (ss e) !! sid st = Some p -> settled st;
  eo_dbl : doubling (config (ss e)) -> forall p st, objs (ss e) !! p = Some st -> dbl (config (ss e)) (recvWindow st);
  eo_hist : forall p, (length (objs (ss e)) <= p)%nat -> wrote e p = [] /\ got e p = [];
  eo_valid : forall p, p ∈ owned e \/ p ∈ acceptCh (ss e) -> (p < length (objs (ss e)))%nat
}.

Lemma fl_id id f : of_id id f = true -> fl id [f] = [f].
Proof. intros H. unfold fl. rewrite filter_cons_True by done. done. Qed.
Lemma fl_skip id f l : of_id id f = false -> fl id (f :: l) = fl id l.
Proof. intros H. unfold fl. rewrite filter_cons_False; [done|congruence]. Qed.
Lemma fl_keep id f l : of_id id f = true -> fl id (f :: l) = f :: fl id l.
Proof. intros H. unfold fl. by rewrite filter_cons_True. Qed.
Lemma fl_all id l : Forall (fun f => of_id id f = true) l -> fl id l = l.
Proof. induction 1 as [|f l Hf _ IH]; [done|]. by rewrite fl_keep, IH. Qed.
Lemma of_id_other id id' f : of_id id f = true -> id <> id' -> of_id id' f = false.
Proof. unfold of_id. intros [_ H]%andb_prop Hne. bool_props. apply andb_false_iff. right. zbool. Qed.
Lemma fl_none id id' l : Forall (fun f => of_id id f = true) l -> id <> id' -> fl id' l = [].
Proof.
  intros H Hne. induction H as [|f l Hf _ IH]; [done|]. rewrite fl_skip; [done|by eapply of_id_other].
Qed.
Lemma fl_conform id l : Forall conform l -> Forall conform (fl id l).
Proof. intros H. rewrite Forall_forall in *. intros f [_ Hf]%list_elem_of_filter. by apply H. Qed.

Lemma bump_nil p h q : bump p [] h q = h q.
Proof. unfold bump. case_decide; [by rewrite app_nil_r|done]. Qed.
Lemma bump_eq p bs h : bump p bs h p = h p ++ bs.
Proof. unfold bump. by rewrite decide_True. Qed.
Lemma bump_ne p bs h q : q <> p -> bump p bs h q = h q.
Proof. intros H. unfold bump. by rewrite decide_False. Qed.

(** ** Calls *)

Section calls.
Variable tight : Prop.

(** What a step does to the views and the frames of every ID. *)
Definition steps (e e' : endpoint) : Prop :=
  eok e' /\ statics (ss e') = statics (ss e) /\
  forall id v, sees e id v ->
  exists v' out, sees e' id v' /\ fl id (flight e') = fl id (flight e) ++ out /\
    astep tight (negb (incoming (ss e) id)) v v' out.

(** A change of one stream. *)
Lemma changed_lookup c s s' p st st' out q x :
  changed c s s' p st st' out -> objs s' !! q = Some x ->
  exists y, objs s !! q = Some y /\ sid x = sid y /\ (q = p /\ x = st' /\ y = st \/ q <> p /\ x = y).
Proof.
  intros H. rewrite (cg_objs _ _ _ _ _ _ _ H). intros [(<- & -> & _)|(Hne & Hq)]%list_lookup_insert_Some.
  - exists st. split_and!; [apply H|apply H|by left].
  - exists x. split_and!; [done|done|right; split; congruence].
Qed.

Lemma changed_eok e e' p st st' out sent read :
  eok e -> sess_ok (ss e') -> statics (ss e') = statics (ss e) ->
  changed (config (ss e)) (ss e) (ss e') p st st' out ->
  wire e' = wire e -> (owned e' = owned e \/ owned e' = p :: owned e /\ state st' <> streamSYNReceived) ->
  (forall q, wrote e' q = bump p sent (wrote e) q) -> (forall q, got e' q = bump p read (got e) q) -> eok e'.
Proof.
  intros [E1 E2 E3 E4 E5 E6 E7 E8 E9 E10 E11 E12] Hok Hst Hch Hwi How Hwr Hgo. pose proof Hch as [A1 A2 A3 A4 A5 A6 A7 A8 A9 A10 A11 A12 A13].
  pose proof (fun q x => changed_lookup _ _ _ _ _ _ _ q x Hch) as Hlk. pose proof (lookup_lt_Some _ _ _ A1) as Hlt. injection Hst as Hcf Hcl.
  assert (forall id, incoming (ss e') id = incoming (ss e) id) as Hinc by (intros id; unfold incoming; by rewrite Hcl).
  split; try done.
  - intros q q' sq sq' Hq Hq' Heq. destruct (Hlk _ _ Hq) as (? & ? & ? & _). destruct (Hlk _ _ Hq') as (? & ? & ? & _).
    eapply E2; [done|done|congruence].
  - intros q sq Hq Hi. destruct (Hlk _ _ Hq) as (? & ? & Hs & _). rewrite A5, Hs. rewrite Hs, Hinc in Hi. by eapply E3.
  - intros q sq Hq. destruct (Hlk _ _ Hq) as (? & ? & -> & _). by eapply E4.
  - intros q sq Hq. destruct (Hlk _ _ Hq) as (? & ? & _ & [(-> & -> & ->)|(_ & ->)]); [done|by eapply E5].
  - intros q sq Hq Ho. destruct (Hlk _ _ Hq) as (? & ? & _ & [(-> & -> & ->)|(Hne & ->)]).
    + destruct How as [How|[_ How]]; [|done]. apply A11. rewrite How in Ho. by eapply E6.
    + eapply E6; [done|]. destruct How as [How|[How _]]; rewrite How in Ho; [done|]. by apply elem_of_cons in Ho as [?|?].
  - rewrite A6. intros H. destruct A4 as [-> | ->]; rewrite (E7 H); [done|apply delete_empty].
  - unfold flight. rewrite Hwi, A3, app_assoc. apply Forall_app. split; [done|]. eapply Forall_impl; [exact A8|]. by intros ? [? _].
  - intros q sq Hq Hs Hr. destruct (Hlk _ _ Hq) as (? & Hq0 & Hsid & [(-> & -> & ->)|(Hne & ->)]).
    + rewrite A9 in Hr. destruct (A12 Hs Hr) as [?|[? A12']]; [done|]. apply A12'. eapply E9; [done|done|].
      destruct A4 as [A4|A4]; rewrite A4 in Hr; [done|]. by rewrite lookup_delete_eq in Hr.
    + eapply E9; [done|done|]. destruct A4 as [A4|A4]; rewrite A4 in Hr; [done|]. by apply lookup_delete_Some in Hr as [_ ?].
  - rewrite Hcf. intros Hd q sq Hq. destruct (Hlk _ _ Hq) as (? & ? & _ & [(-> & -> & ->)|(Hne & ->)]); [|by eapply E10].
    apply A13; [done|]. by eapply E10.
  - intros q. rewrite A2, length_insert. intros Hq. rewrite Hwr, Hgo, !bump_ne by lia. by apply E11.
  - intros q Hq. rewrite A2, length_insert. rewrite A7 in Hq. destruct How as [How|[How _]]; rewrite How in Hq; [by apply E12|].
    rewrite elem_of_cons in Hq. destruct Hq as [[-> |?]|?]; [done|apply E12; auto..].
Qed.

(** The view of the ID that changes, and of the others. *)
Lemma changed_sees e e' p st st' out sent read :
  eok e -> changed (config (ss e)) (ss e) (ss e') p st st' out ->
  (forall q, wrote e' q = bump p sent (wrote e) q) -> (forall q, got e' q = bump p read (got e) q) ->
  forall v, sees e (sid st) v ->
  exists V, v = Some V /\ v_st V = st /\ v_reg V = bool_decide (streams (ss e) !! sid st = Some p) /\
    sees e' (sid st) (Some (mkView st' (v_wrote V ++ sent) (v_got V ++ read) (bool_decide (streams (ss e') !! sid st = Some p)))).
Proof.
  intros He Hch Hwr Hgo v Hv. pose proof Hch as [A1 A2 A3 A4 A5 A6 A7 A8 A9 A10 A11 A12 A13].
  destruct v as [V|]; [|by destruct (Hv p st)]. destruct Hv as (q & Hq & Hs & Hw & Hg & Hr).
  assert (q = p) as -> by (by eapply (eo_uniq e He)). exists V. split_and!; [done|congruence|done|].
  exists p. simpl. rewrite Hwr, Hgo, !bump_eq, Hw, Hg, A9, A2. split_and!; try done. apply list_lookup_insert_eq. by eapply lookup_lt_Some.
Qed.

Lemma changed_other e e' p st st' out sent read id v :
  changed (config (ss e)) (ss e) (ss e') p st st' out -> id <> sid st ->
  (forall q, wrote e' q = bump p sent (wrote e) q) -> (forall q, got e' q = bump p read (got e) q) ->
  sees e id v -> sees e' id v.
Proof.
  intros Hch Hne Hwr Hgo Hv. pose proof Hch as [A1 A2 A3 A4 A5 A6 A7 A8 A9 A10 A11 A12 A13]. destruct v as [V|].
  - destruct Hv as (q & Hq & Hs & Hw & Hg & Hr). assert (q <> p) by (intros ->; congruence). exists q.
    rewrite Hwr, Hgo, !bump_ne, A2, list_lookup_insert_ne by done. split_and!; try done. rewrite Hr.
    destruct A4 as [-> | ->]; [done|]. by rewrite lookup_delete_ne by done.
  - intros q sq Hq. destruct (changed_lookup _ _ _ _ _ _ _ _ _ Hch Hq) as (? & ? & -> & _). by eapply Hv.
Qed.

Lemma changed_flight e e' p st st' out id :
  changed (config (ss e)) (ss e) (ss e') p st st' out -> wire e' = wire e ->
  fl id (flight e') = fl id (flight e) ++ (if decide (id = sid st) then out else []).
Proof.
  intros [_ _ A3 _ _ _ _ A8 _ _ _ _ _] Hwi. unfold flight. rewrite Hwi, A3, app_assoc, fl_app. f_equal.
  assert (Forall (fun f => of_id (sid st) f = true) out) as Hof by (eapply Forall_impl; [exact A8|]; by intros ? [_ ?]).
  case_decide; [subst; by apply fl_all|]. by eapply fl_none.
Qed.

Lemma changed_reg c s s' p st st' out :
  changed c s s' p st st' out -> streams s' !! sid st = Some p -> streams s !! sid st = Some p.
Proof. intros [_ _ _ [-> | ->] _ _ _ _ _ _ _ _ _]; [done|]. by rewrite lookup_delete_eq. Qed.

(** A call on one stream. *)
Lemma acted_steps e e' p st st' sent read out L :
  eok e -> sess_ok (ss e') -> statics (ss e') = statics (ss e) ->
  acted (config (ss e)) (ss e) (ss e') p st st' sent read out L ->
  wire e' = wire e -> (owned e' = owned e \/ owned e' = p :: owned e /\ state st' <> streamSYNReceived) ->
  (forall q, wrote e' q = bump p sent (wrote e) q) -> (forall q, got e' q = bump p read (got e) q) ->
  (tight -> streams (ss e) !! sid st = Some p -> L) ->
  steps e e'.
Proof.
  intros He Hok Hst Ha Hwi How Hwr Hgo HL. pose proof (acted_changed _ _ _ _ _ _ _ _ _ _ Ha) as Hch.
  split_and!; [by eapply changed_eok|done|]. intros id v Hv. rewrite (changed_flight _ _ _ _ _ _ id Hch Hwi).
  destruct (decide (id = sid st)) as [-> |Hne].
  - destruct (changed_sees _ _ _ _ _ _ _ _ He Hch Hwr Hgo v Hv) as (V & -> & HV & Hr & Hv'). eexists _, out. split_and!; [exact Hv'|done|].
    pose proof (changed_reg _ _ _ _ _ _ _ Hch) as Hreg. apply A_move. exists sent, read. simpl. rewrite HV. split_and!; try done; [apply Ha|..].
    + rewrite Hr. intros ?%bool_decide_eq_true. apply bool_decide_eq_true. auto.
    + intros Ht ?%bool_decide_eq_true. apply (ac_tight _ _ _ _ _ _ _ _ _ _ Ha), HL; auto.
  - exists v, []. split_and!; [by eapply changed_other|done|constructor].
Qed.

(** A step that changes no stream and sends no frame of one. *)
Record quiet (e e' : endpoint) : Prop := {
  qu_objs : objs (ss e') = objs (ss e);
  qu_streams : streams (ss e') = streams (ss e);
  qu_next : nextStreamID (ss e') = nextStreamID (ss e);
  qu_shut : shutdown (ss e') = shutdown (ss e);
  qu_statics : statics (ss e') = statics (ss e);
  qu_accept : forall p, p ∈ acceptCh (ss e') -> p ∈ acceptCh (ss e);
  qu_owned : owned e' = owned e;
  qu_wrote : forall p, wrote e' p = wrote e p;
  qu_got : forall p, got e' p = got e p;
  qu_flight : forall id, fl id (flight e') = fl id (flight e);
  qu_conf : Forall conform (flight e) -> Forall conform (flight e')
}.

Lemma quiet_sees e e' id v : quiet e e' -> sees e id v -> sees e' id v.
Proof.
  intros []. unfold sees. rewrite qu_objs0, qu_streams0. destruct v as [V|]; [|done].
  intros (p & ?). exists p. by rewrite qu_wrote0, qu_got0.
Qed.

Lemma quiet_eok e e' : eok e -> sess_ok (ss e') -> quiet e e' -> eok e'.
Proof.
  intros [] Hok []. injection qu_statics0 as Hcf Hcl.
  split; unfold incoming in *; rewrite ?qu_objs0, ?qu_streams0, ?qu_next0, ?qu_shut0, ?qu_owned0, ?Hcf, ?Hcl;
    auto; [intros p; rewrite qu_wrote0, qu_got0; auto|]. intros p [?|?%qu_accept0]; auto.
Qed.

Lemma quiet_then e e1 e2 : quiet e e1 -> steps e1 e2 -> steps e e2.
Proof.
  intros Hq (H1 & H2 & H3). pose proof Hq as []. split_and!; [done|congruence|]. intros id v Hv.
  destruct (H3 id v (quiet_sees _ _ _ _ Hq Hv)) as (v' & out & ? & Hf & Ha). exists v', out. rewrite <- qu_flight0. split_and!; [done|done|].
  assert (incoming (ss e1) id = incoming (ss e) id) as <-; [|done]. unfold incoming. by injection qu_statics0 as _ ->.
Qed.

Lemma quiet_steps e e' : eok e -> sess_ok (ss e') -> quiet e e' -> steps e e'.
Proof.
  intros He Hok Hq. pose proof Hq as []. split_and!; [by eapply quiet_eok|done|]. intros id v Hv. exists v, [].
  split_and!; [by eapply quiet_sees|by rewrite app_nil_r, qu_flight0|constructor].
Qed.

(** The update of a new stream carries the SYN and the credit beyond the initial window. *)
Lemma new_update c id t r :
  config_ok c -> uint32 id ->
  exists f st', windowUpdate c t r (newStream c id streamInit initialStreamWindow) = (fr_flags f, true, fr_length f, st') /\
    mkFrame typeWindowUpdate (fr_flags f) (sid st') (fr_length f) [] = f /\
    opened f (mkView st' [] [] true) /\ conform f /\ of_id id f = true /\ sid st' = id /\ state st' = streamSYNSent /\ settled st' /\
    recvWindow st' = InitialStreamWindowSize c.
Proof.
  intros Hc Hid. pose proof (config_windows c Hc) as (_ & Hi & _). pose proof (cfg_initial c Hc) as Hu.
  set (b0 := newSegmentedBuffer initialStreamWindow).
  assert (buf_ok b0) as Hb0 by (apply new_buf_ok; unfold uint32, initialStreamWindow; lia).
  destruct (GrowTo (InitialStreamWindowSize c) true b0) as [[need de] b] eqn:E.
  destruct (GrowTo_spec _ _ _ _ _ _ Hb0 Hu E) as (Hb & Hun & Hl & Hcap & Hd & Hm & _ & Hf & _).
  destruct (Hf eq_refl) as [-> Hge]. simpl in Hl, Hcap, Hge.
  assert (b_cap b = InitialStreamWindowSize c) as Hbc by (unfold initialStreamWindow in *; destruct (Z.eq_dec de 0); [lia|destruct Hm; lia]).
  set (st' := set_recv (InitialStreamWindowSize c) b (set_state streamSYNSent (newStream c id streamInit initialStreamWindow))).
  exists (mkFrame typeWindowUpdate flagSYN id de []), st'.
  destruct (update_conform flagSYN id de) as [Hcf Hof]; [tauto|done|unfold uint32, initialStreamWindow in *; lia|].
  split_and!; try done.
  - unfold windowUpdate. simpl. fold b0. rewrite E. done.
  - split; simpl; try done. unfold initialStreamWindow in *. lia.
  - unfold settled. simpl. assert (0 < InitialStreamWindowSize c / 2) by (apply Z.div_str_pos; unfold initialStreamWindow in *; lia). lia.
Qed.

(** Opening a stream. *)
Lemma open_spec c m r d s s' x :
  sess_ok s -> OpenStream c m r d s = Some (s', x) ->
  statics s' = statics s /\ shutdown s' = shutdown s /\ acceptCh s' = acceptCh s /\
  (objs s' = objs s /\ streams s' = streams s /\ nextStreamID s' = nextStreamID s /\ sendCh s' = sendCh s /\ (exists e, x = Err e) \/
   exists st f, shutdown s = None /\ objs s' = objs s ++ [st] /\ sid st = nextStreamID s /\ uint32 (sid st) /\
     streams s' = <[nextStreamID s := length (objs s)]> (streams s) /\ nextStreamID s' = nextStreamID s + 2 /\
     state st = streamSYNSent /\ settled st /\ recvWindow st = InitialStreamWindowSize (config s) /\
     opened f (mkView st [] [] true) /\ conform f /\ of_id (sid st) f = true /\
     (sendCh s' = sendCh s ++ [f] /\ x = Ok (length (objs s)) \/ sendCh s' = sendCh s /\ exists e, x = Err e)).
Proof.
  intros H E. split; [by eapply statics_OpenStream|]. unfold OpenStream in E.
  destruct (shutdown s) as [e|] eqn:Hsh; [injection E as <- <-; split_and!; [done|done|left; eauto 10]|].
  case_match; [injection E as <- <-; split_and!; [done|done|left; eauto 10]|].
  case_match; [injection E as <- <-; split_and!; [done|done|left; eauto 10]|]. case_match; [done|].
  case_match; [injection E as <- <-; split_and!; [done|done|left; eauto 10]|].
  case_match; [injection E as <- <-; split_and!; [done|done|left; eauto 10]|].
  case_match eqn:Hid; [injection E as <- <-; split_and!; [done|done|left; eauto 10]|]. bool_props. simpl in *.
  set (s1 := set_syn (inflight s) (synCh s + 1) s) in *. set (p := length (objs s)) in *.
  set (s2 := registerOpen s1) in *. set (st0 := newStream (config s) (nextStreamID s) streamInit initialStreamWindow).
  pose proof (se_next s H) as [Hu _]. assert (objs s2 !! p = Some st0) as Hp by (unfold s2, p; simpl; by apply list_lookup_middle).
  destruct (new_update (config s) (nextStreamID s) false false (se_config s H) Hu)
    as (f & st' & Ew & Ef & Hop & Hcf & Hof & Hsid & Hst & Hset & Hrw).
  unfold sendWindowUpdate in E. rewrite Hp in E. change (config s2) with (config s) in E. unfold st0 in E. rewrite Ew in E. simpl in E.
  rewrite Ef in E. assert (<[p := st']> (objs s2) = objs s ++ [st']) as Eo.
  { unfold s2, p. simpl. change (objs s1) with (objs s). by rewrite insert_app_r_alt, Nat.sub_diag by lia. }
  assert (wrap32 (nextStreamID s + 2) = nextStreamID s + 2) as En by (apply wrap32_id; unfold uint32, MaxUint32 in *; lia).
  unfold sendMsg in E. change (shutdown (put p st' s2)) with (shutdown s) in E. rewrite Hsh in E.
  destruct d; injection E as <- <-.
  - unfold releaseSyn. case_match; (split_and!; [done|done|]); right; exists st', f; rewrite Hsid; split_and!; try done;
      right; split; try done; eauto.
  - split_and!; [done|done|]. right. exists st', f. rewrite Hsid. split_and!; try done. by left.
Qed.

(** Views of an endpoint with one more stream. *)
Lemma push_sees e e' st id v :
  objs (ss e') = objs (ss e) ++ [st] -> wrote e' = wrote e -> got e' = got e ->
  (streams (ss e') !! id = streams (ss e) !! id) -> sid st <> id -> sees e id v -> sees e' id v.
Proof.
  intros Ho Hw Hg Hs Hne. destruct v as [V|]; simpl.
  - intros (p & Hp & ?). exists p. rewrite Hw, Hg, Hs, Ho. split; [|done]. by apply lookup_app_l_Some.
  - intros H p st'. rewrite Ho. intros [Hp|[_ Hp]]%lookup_app_Some; [by eapply H|].
    by apply list_lookup_singleton_Some in Hp as [_ <-].
Qed.

Lemma push_lookup (l : list Stream) st p x : (l ++ [st]) !! p = Some x -> l !! p = Some x \/ p = length l /\ x = st.
Proof.
  intros [?|[Hge Hp]]%lookup_app_Some; [by left|]. apply list_lookup_singleton_Some in Hp as [Hz <-]. right. split; [lia|done].
Qed.

(** One more stream, whose ID is new. *)
Lemma push_eok e e' st out :
  eok e -> sess_ok (ss e') -> statics (ss e') = statics (ss e) -> shutdown (ss e') = shutdown (ss e) ->
  objs (ss e') = objs (ss e) ++ [st] -> sees e (sid st) None ->
  (streams (ss e') = streams (ss e) \/ shutdown (ss e) = None /\ streams (ss e') = <[sid st := length (objs (ss e))]> (streams (ss e))) ->
  nextStreamID (ss e) <= nextStreamID (ss e') -> (incoming (ss e) (sid st) = false -> sid st < nextStreamID (ss e')) ->
  uint32 (sid st) -> state st <> streamInit -> (state st <> streamSYNReceived -> settled st) ->
  recvWindow st = InitialStreamWindowSize (config (ss e)) -> config_ok (config (ss e)) ->
  (forall p, p ∈ acceptCh (ss e') -> p ∈ acceptCh (ss e) \/ p = length (objs (ss e))) ->
  (owned e' = owned e \/ owned e' = length (objs (ss e)) :: owned e /\ state st <> streamSYNReceived) ->
  wrote e' = wrote e -> got e' = got e -> flight e' = flight e ++ out -> Forall conform out -> eok e'.
Proof.
  intros [E1 E2 E3 E4 E5 E6 E7 E8 E9 E10 E11 E12] Hok Hst Hsh Ho Hnew Hstr Hnx Hown Hid Hin Hset Hrw Hcfg Hacc How Hw Hg Hfl Hco.
  injection Hst as Hcf Hcl.
  split; rewrite ?Hsh, ?Hcf, ?Hw, ?Hg, ?Ho; try done.
  - intros p q x y [Hp|[-> ->]]%push_lookup [Hq|[-> ->]]%push_lookup Heq; [by eapply E2| | |done].
    + by destruct (Hnew p x Hp).
    + by destruct (Hnew q y Hq).
  - unfold incoming. rewrite Hcl. intros p x [Hp|[-> ->]]%push_lookup Hi; [|by apply Hown]. specialize (E3 p x Hp Hi). lia.
  - intros p x [Hp|[-> ->]]%push_lookup; [by eapply E4|done].
  - intros p x [Hp|[-> ->]]%push_lookup; [by eapply E5|done].
  - intros p x [Hp|[-> ->]]%push_lookup Hp'.
    + eapply E6; [done|]. destruct How as [How|[How _]]; rewrite How in Hp'; [done|].
      apply elem_of_cons in Hp' as [-> |?]; [|done]. apply lookup_lt_Some in Hp. lia.
    + destruct How as [How|[_ ?]]; [|done]. rewrite How in Hp'. specialize (E12 (length (objs (ss e))) (or_introl Hp')). lia.
  - intros Hn. destruct Hstr as [-> |[? _]]; [by apply E7|done].
  - rewrite Hfl. by apply Forall_app.
  - intros p x [Hp|[-> ->]]%push_lookup Hx Hr; [|by apply Hset]. eapply E9; [done|done|].
    destruct Hstr as [Hs|[_ Hs]]; rewrite Hs in Hr; [done|]. apply lookup_insert_Some in Hr as [[Heq _]|[_ ?]]; [|done].
    by destruct (Hnew p x Hp).
  - intros Hd p x [Hp|[-> ->]]%push_lookup; [by eapply E10|]. rewrite Hrw. exists 0%nat. simpl.
    pose proof (config_windows _ Hcfg) as (_ & ? & _). lia.
  - intros p. rewrite length_app. simpl. intros Hp. apply E11. lia.
  - intros p Hp. rewrite length_app. simpl. assert (p ∈ owned e \/ p ∈ acceptCh (ss e) \/ p = length (objs (ss e))) as Hp'.
    { destruct Hp as [Hp|Hp]; [|by apply Hacc in Hp; tauto]. destruct How as [How|[How _]]; rewrite How in Hp; [tauto|].
      apply elem_of_cons in Hp as [?|?]; tauto. }
    destruct Hp' as [Hp'|[Hp'| ->]]; [specialize (E12 p (or_introl Hp'))|specialize (E12 p (or_intror Hp'))|]; lia.
Qed.

Lemma open_steps c m r d e : eok e -> steps e (estep (SOpen c m r d) e).
Proof.
  intros He. simpl. destruct (OpenStream c m r d (ss e)) as [[s x]|] eqn:E;
    [|apply quiet_steps; [done|apply He|by split]].
  pose proof (OpenStream_ok _ _ _ _ _ _ _ (eo_sess e He) E) as Hok.
  destruct (open_spec _ _ _ _ _ _ _ (eo_sess e He) E) as (Hst & Hsh & Hacc & [(Ho & Hs & Hn & Hc & err & ->)|Hnew]).
  { apply quiet_steps; [done|done|]. split; simpl; try done; unfold flight; simpl; rewrite ?Hc; try done. intros p. by rewrite Hacc. }
  destruct Hnew as (st & f & Hnone & Ho & Hsid & Hu & Hs & Hn & Hstate & Hset & Hrw & Hop & Hcf & Hof & Hend).
  pose proof (se_next _ (eo_sess e He)) as [_ Hinc].
  assert (exists out ow, (match x with Ok p => mkEnd s (wire e) (p :: owned e) (wrote e) (got e) | Err _ => mkEnd s (wire e) (owned e) (wrote e) (got e) end)
            = mkEnd s (wire e) ow (wrote e) (got e) /\ (ow = owned e \/ ow = length (objs (ss e)) :: owned e) /\
            sendCh s = sendCh (ss e) ++ out /\ (out = [f] \/ out = [])) as (out & ow & -> & How & Hc & Hout).
  { destruct Hend as [[Hc ->]|[Hc [err ->]]]; [exists [f], (length (objs (ss e)) :: owned e)|exists [], (owned e)];
      rewrite ?app_nil_r; auto 10. }
  assert (sees e (sid st) None) as Hv0.
  { intros p x' Hp Heq. assert (sid x' < nextStreamID (ss e)); [|lia]. eapply eo_own; [done|done|]. by rewrite Heq, Hsid. }
  set (e' := mkEnd s (wire e) ow (wrote e) (got e)).
  assert (flight e' = flight e ++ out) as Hfl by (unfold flight; simpl; by rewrite Hc, app_assoc).
  split_and!; [|done|].
  - eapply (push_eok e e' st out); simpl; try done; rewrite ?Hsid; try done; try lia.
    + right. done.
    + congruence.
    + apply (eo_sess e He).
    + rewrite Hacc. tauto.
    + destruct How as [-> | ->]; [by left|right; split; [done|congruence]].
    + apply (out_Forall _ f); [tauto|done].
  - intros id v Hv. rewrite Hfl, fl_app. destruct (decide (id = sid st)) as [-> |Hne].
    + assert (v = None) as -> by (destruct v as [V|]; [|done]; destruct Hv as (q & Hq & Hqs & _); by destruct (Hv0 q (v_st V) Hq)).
      exists (Some (mkView st [] [] true)), out. split_and!.
      * exists (length (objs (ss e))). simpl. rewrite Ho, Hs, Hsid. destruct (eo_hist e He (length (objs (ss e))) ltac:(lia)) as [-> ->].
        split_and!; try done; [by apply list_lookup_middle|]. by rewrite lookup_insert_eq, bool_decide_eq_true_2.
      * f_equal. destruct Hout as [-> | ->]; [by apply fl_id|done].
      * rewrite Hsid, Hinc. destruct Hout as [-> | ->]; by constructor.
    + exists v, []. rewrite app_nil_r. split_and!; [|destruct Hout as [-> | ->]; rewrite ?(fl_skip id f []), ?app_nil_r; [..|done];
        try done; by eapply of_id_other|constructor].
      eapply push_sees; [done|done|done| |done|done]. simpl. rewrite Hs. apply lookup_insert_ne. congruence.
Qed.

(** Closing the session. *)
Lemma forceClose_twice st : forceClose (forceClose st) = forceClose st.
Proof. unfold forceClose, reset_stream. destruct st as [? ? ? ? w r ?]. simpl. by destruct w, r. Qed.

Lemma closeAll_lookup m l p st :
  l !! p = Some st -> exists st', closeAll m l !! p = Some st' /\ (st' = st \/ st' = forceClose st).
Proof.
  intros Hp. unfold closeAll.
  apply (map_fold_weak_ind (fun r _ => exists st', r !! p = Some st' /\ (st' = st \/ st' = forceClose st))); [eauto|].
  intros i q m' r _ (st' & Hr & Hst). destruct (decide (p = q)) as [<-|Hne].
  - exists (forceClose st'). rewrite list_lookup_alter, decide_True by done. rewrite Hr. split; [done|]. right.
    destruct Hst as [-> | ->]; [done|apply forceClose_twice].
  - exists st'. by rewrite list_lookup_alter_ne by done.
Qed.

Lemma closeAll_inv m l p st' :
  closeAll m l !! p = Some st' -> exists st, l !! p = Some st /\ (st' = st \/ st' = forceClose st).
Proof.
  intros Hp. pose proof (lookup_lt_Some _ _ _ Hp) as Hlt. rewrite closeAll_length in Hlt.
  apply lookup_lt_is_Some in Hlt as [st Hst]. exists st. split; [done|].
  destruct (closeAll_lookup m l p st Hst) as (x & Hx & ?). congruence.
Qed.

Lemma forceClose_local st st' : st' = st \/ st' = forceClose st -> local st st' [] [] [].
Proof.
  intros [-> | ->]; split; simpl; try done; try lia; try (by constructor).
  - intros H. split; [done|constructor].
  - intros H. by apply reset_half_open in H.
  - apply reset_half_closed.
Qed.

Definition shut (err : yerror) (s : Session) : Session :=
  set_streams ∅ (numIncomingStreams s) (set_objs (closeAll (streams s) (objs s)) (set_shutdown (Some err) s)).

Lemma shut_steps err e : eok e -> steps e (set_ss (shut err (ss e)) e).
Proof.
  intros [E1 E2 E3 E4 E5 E6 E7 E8 E9 E10 E11 E12].
  assert (forall p st', objs (shut err (ss e)) !! p = Some st' ->
            exists st, objs (ss e) !! p = Some st /\ (st' = st \/ st' = forceClose st) /\ sid st' = sid st /\ recvWindow st' = recvWindow st) as Hlk.
  { intros p st' Hp. destruct (closeAll_inv _ _ _ _ Hp) as (st & Hst & Hor). exists st. by destruct Hor as [-> | ->]; auto 10. }
  split_and!; [|done|].
  - split; try done.
    + by apply shut_ok.
    + intros p q x y Hp Hq Heq. destruct (Hlk _ _ Hp) as (? & ? & _ & ? & _). destruct (Hlk _ _ Hq) as (? & ? & _ & ? & _).
      eapply E2; [done|done|congruence].
    + intros p x Hp Hi. destruct (Hlk _ _ Hp) as (? & ? & _ & Hs & _). rewrite Hs in *. by eapply E3.
    + intros p x Hp. destruct (Hlk _ _ Hp) as (? & ? & _ & -> & _). by eapply E4.
    + intros p x Hp. destruct (Hlk _ _ Hp) as (? & ? & [-> | ->] & _); [by eapply E5|done].
    + intros p x Hp Ho. destruct (Hlk _ _ Hp) as (? & ? & [-> | ->] & _); [by eapply E6|done].
    + intros Hd p x Hp. destruct (Hlk _ _ Hp) as (? & ? & _ & _ & ->). by eapply E10.
    + intros p. simpl. rewrite closeAll_length. apply E11.
    + intros p. simpl. rewrite closeAll_length. apply E12.
  - intros id v Hv. destruct v as [V|].
    + destruct Hv as (p & Hp & Hs & Hw & Hg & Hr).
      destruct (closeAll_lookup (streams (ss e)) (objs (ss e)) p (v_st V) Hp) as (st' & Hst' & Hor).
      exists (Some (mkView st' (v_wrote V) (v_got V) false)), []. split_and!.
      * exists p. simpl. split_and!; try done. by destruct Hor as [-> | ->].
      * by rewrite app_nil_r.
      * apply A_move. exists [], []. simpl. rewrite !app_nil_r. split_and!; try done. by apply forceClose_local.
    + exists None, []. split_and!; [|by rewrite app_nil_r|constructor].
      intros p st' Hp. destruct (Hlk _ _ Hp) as (st & Hst & _ & -> & _). by eapply Hv.
Qed.

Lemma steps_refl e : eok e -> steps e e.
Proof. intros He. apply quiet_steps; [done|apply He|by split]. Qed.

Lemma close_steps e : eok e -> steps e (set_ss (Close (ss e)) e).
Proof.
  intros He. unfold Close. destruct (shutdown (ss e)) eqn:E; [|by apply shut_steps]. destruct e. by apply steps_refl.
Qed.

Lemma exit_steps err e : eok e -> steps e (set_ss (exitErr err (ss e)) e).
Proof.
  intros He. unfold exitErr. destruct (shutdown (ss e)) eqn:E; [|by apply shut_steps]. destruct e. by apply steps_refl.
Qed.

(** Accepting a stream. *)
Lemma accept_steps t r e : eok e -> (tight -> doubling (config (ss e))) -> steps e (estep (SAccept t r) e).
Proof.
  intros He Hd. simpl. destruct (AcceptStream t r (ss e)) as [[s x]|] eqn:E; [|by apply steps_refl].
  pose proof (AcceptStream_ok _ _ _ _ _ (eo_sess e He) E) as Hok. pose proof (statics_AcceptStream _ _ _ _ _ E) as Hst.
  unfold AcceptStream in E. destruct (acceptCh (ss e)) as [|p l] eqn:Ea.
  { destruct (shutdown (ss e)); [|done]. injection E as <- <-. destruct e. by apply steps_refl. }
  assert (quiet e (set_ss (set_accept l (ss e)) e)) as Hq.
  { split; try done. simpl. rewrite Ea. intros q Hq. by right. }
  assert (sess_ok (set_accept l (ss e))) as Hok1.
  { pose proof (eo_sess e He) as H0. pose proof (se_accept _ H0) as Hac. rewrite Ea in Hac. simpl in Hac.
    destruct H0. split; simpl; try done. lia. }
  pose proof (quiet_eok e (set_ss (set_accept l (ss e)) e) He Hok1 Hq) as He1. eapply quiet_then; [exact Hq|].
  assert (p < length (objs (ss e)))%nat as Hlt by (apply (eo_valid e He); right; rewrite Ea; by left).
  apply lookup_lt_is_Some in Hlt as [st Hp].
  destruct (swu_acted t r false p st (set_accept l (ss e)) Hok1 Hp (eo_init e He p st Hp) (eo_id e He p st Hp))
    as (st' & out & Ha & Hset & Hns & _).
  destruct (sendWindowUpdate t r false p (set_accept l (ss e))) as [s2 er] eqn:Esw. simpl in Ha.
  assert (s2 = s) as -> by (destruct er; by injection E as <- <-).
  assert (tight -> streams (ss (set_ss (set_accept l (ss e)) e)) !! sid st = Some p -> announces (set_accept l (ss e)) false (recvWindow st)) as HL.
  { intros Ht Hreg. split_and!; [|done|by apply Hd|apply (eo_dbl e He (Hd Ht) p st Hp)]. simpl in *.
    destruct (shutdown (ss e)) eqn:Hsh; [|done]. assert (shutdown (ss e) <> None) as Hn by congruence. apply (eo_shut e He) in Hn.
    by rewrite Hn in Hreg. }
  destruct er; injection E as <-; (eapply acted_steps; [exact He1|done|done|exact Ha|done| | |..|exact HL]); simpl; auto;
    intros q; by rewrite bump_nil.
Qed.

(** The user's calls on its streams. *)
Lemma call_steps e e' p st' sent read out L :
  eok e -> p ∈ owned e -> sess_ok (ss e') -> statics (ss e') = statics (ss e) ->
  (exists st, objs (ss e) !! p = Some st /\ acted (config (ss e)) (ss e) (ss e') p st st' sent read out (L (recvWindow st))) ->
  wire e' = wire e -> owned e' = owned e ->
  (forall q, wrote e' q = bump p sent (wrote e) q) -> (forall q, got e' q = bump p read (got e) q) ->
  (tight -> shutdown (ss e) = None -> (forall w, (doubling (config (ss e)) -> dbl (config (ss e)) w) -> L w)) ->
  steps e e'.
Proof.
  intros He Ho Hok Hst (st & Hp & Ha) Hw How Hwr Hgo HL. eapply acted_steps; [done|done|done|exact Ha|done|by left|done|done|].
  intros Ht Hreg. apply HL; [done| |].
  - destruct (shutdown (ss e)) eqn:Hsh; [|done]. assert (shutdown (ss e) <> None) as Hn by congruence.
    apply (eo_shut e He) in Hn. by rewrite Hn in Hreg.
  - intros Hd. by apply (eo_dbl e He Hd p).
Qed.

(** A frame of no stream. *)
Lemma other_frame_quiet f l k id : stream_frame f = false -> fl id (l ++ f :: k) = fl id (l ++ k).
Proof. intros H. rewrite !fl_app. rewrite fl_skip; [done|]. unfold of_id. by rewrite H. Qed.

Lemma goaway_quiet e : quiet e (set_ss (fst (GoAway (ss e))) e).
Proof.
  set (f := mkFrame typeGoAway 0 0 goAwayNormal []). set (s1 := set_goAway (remoteGoAway (ss e)) true (ss e)).
  change (fst (GoAway (ss e))) with (fst (sendMsg false f s1)).
  destruct (sendMsg_fields false f s1) as (M1 & M2 & M3 & M4 & _ & M6 & M5).
  assert (sendCh (fst (sendMsg false f s1)) = sendCh (ss e) ++ [f] \/ sendCh (fst (sendMsg false f s1)) = sendCh (ss e)) as Hc.
  { destruct M5 as [[-> _]|[-> _]]; auto. }
  split; try done; [exact (statics_sendMsg false f s1)|simpl; by rewrite M6|..]; unfold flight; simpl.
  - intros id. destruct Hc as [-> | ->]; [|done]. rewrite app_assoc, other_frame_quiet by done. by rewrite app_nil_r.
  - intros H. destruct Hc as [-> | ->]; [|done]. rewrite app_assoc. apply Forall_app. split; [done|].
    by repeat constructor.
Qed.

Lemma estep_ss o e : ss (estep o e) = sexec o (ss e).
Proof. destruct o; simpl; try done; repeat case_match; done. Qed.

Lemma estep_steps lossy o e :
  (tight -> lossy = false /\ doubling (config (ss e))) -> eok e -> enabled lossy o e -> steps e (estep o e).
Proof.
  intros Ht He Hen.
  assert (sess_ok (ss (estep o e))) as Hok by (rewrite estep_ss; apply sexec_ok; [apply He|by destruct o]).
  assert (statics (ss (estep o e)) = statics (ss e)) as Hst by (rewrite estep_ss; apply sexec_statics).
  assert (forall p, p ∈ owned e -> exists st, objs (ss e) !! p = Some st /\ state st <> streamInit /\ state st <> streamSYNReceived /\ uint32 (sid st)) as Hown.
  { intros p Hp. destruct (lookup_lt_is_Some_2 (objs (ss e)) p) as [st Hs]; [apply (eo_valid e He); by left|]. exists st.
    split_and!; [done|by eapply eo_init|by eapply eo_owned|by eapply eo_id]. }
  destruct o; simpl in Hen.
  - by apply open_steps.
  - apply accept_steps; [done|]. intros H. by apply Ht.
  - destruct Hen as [Hp Hdl]. destruct (Hown p Hp) as (st & Hs & Hi & Hy & Hu). simpl in *.
    destruct (Read k tune reserve deadline deadline' p (ss e)) as [[[s' bs] er]|] eqn:E; [|by apply steps_refl].
    destruct (Read_acted _ _ _ _ _ _ st _ _ _ _ (eo_sess e He) Hs Hi Hu E) as [[-> ->]|(st' & out & Ha)].
    { apply quiet_steps; [done|done|]. split; try done. intros q. apply bump_nil. }
    eapply (call_steps e _ p st' [] bs out (announces (ss e) deadline')); try done; [by exists st|intros q; by rewrite bump_nil|].
    intros HT Hsh w Hw. destruct (Ht HT) as [Hl Hd]. split_and!; auto.
  - destruct (Hown p Hen) as (st & Hs & Hi & Hy & Hu). simpl in *.
    destruct (write b deadline deadline' p (ss e)) as [[[s' n] er]|] eqn:E; [|by apply steps_refl].
    destruct (write_acted p st (ss e) (eo_sess e He) Hs Hi Hy Hu _ _ _ _ _ _ E) as [[-> ->]|(st' & out & Ha)].
    { apply quiet_steps; [done|done|]. split; try done. intros q. apply bump_nil. }
    eapply (call_steps e _ p st' (take n b) [] out (fun _ => True)); try done; [by exists st|intros q; by rewrite bump_nil].
  - destruct (Hown p Hen) as (st & Hs & Hi & Hy & Hu). simpl in *.
    destruct (CloseWrite_acted p st (ss e) (eo_sess e He) Hs Hi Hy Hu) as [Eq|(st' & out & Ha)].
    { rewrite Eq. destruct e. by apply steps_refl. }
    eapply (call_steps e _ p st' [] [] out (fun _ => True)); try done; [by exists st|intros q; by rewrite bump_nil..].
  - destruct (Hown p Hen) as (st & Hs & Hi & Hy & Hu). simpl in *.
    destruct (CloseRead_acted p st (ss e) (eo_sess e He) Hs Hi Hy) as [Eq|(st' & out & Ha)].
    { rewrite Eq. destruct e. by apply steps_refl. }
    eapply (call_steps e _ p st' [] [] out (fun _ => True)); try done; [by exists st|intros q; by rewrite bump_nil..].
  - destruct (Hown p Hen) as (st & Hs & Hi & Hy & Hu). simpl in *.
    destruct (Reset_acted p st (ss e) (eo_sess e He) Hs Hi Hy Hu) as [Eq|(st' & out & Ha)].
    { rewrite Eq. destruct e. by apply steps_refl. }
    eapply (call_steps e _ p st' [] [] out (fun _ => True)); try done; [by exists st|intros q; by rewrite bump_nil..].
  - apply quiet_steps; [done|done|]. apply goaway_quiet.
  - by apply close_steps.
  - by apply exit_steps.
  - apply quiet_steps; [done|done|]. simpl. unfold Ping_start. destruct (activePing (ping (ss e))); by split.
  - apply quiet_steps; [done|done|]. by split.
  - simpl in *. unfold sendLoop_step in *. destruct (shutdown (ss e)) eqn:Hsh; [by apply steps_refl|].
    destruct c; [destruct (pingCh (ping (ss e)))|destruct (pongCh (ping (ss e)))|destruct (sendCh (ss e)) eqn:Es];
      try (by apply steps_refl); (apply quiet_steps; [done|done|]);
      (split; try done; unfold flight; simpl; rewrite <- ?app_assoc; simpl; rewrite ?Es; try done).
    + intros id. by rewrite other_frame_quiet.
    + rewrite !Forall_app, Forall_cons. intros [? ?]. by split_and!; try done.
    + intros id. by rewrite other_frame_quiet.
    + rewrite !Forall_app, Forall_cons. intros [? ?]. by split_and!; try done.
  - done.
Qed.
End calls.
