(* ===== verification/YamuxRecv.v ===== *)
(** * yamux: receiving a frame of the peer

    A frame that arrives on a connection between two sessions, seen as the effect [arecv] of
    YamuxNet.v on the view of its ID. *)

From stdpp Require Import base gmap list numbers relations.
From Stdlib Require Import ZArith Lia.
From S2P Require Import Prelude Transcoders Yamux YamuxSession YamuxBounds YamuxNet YamuxPeers YamuxConn.

(** ** Flags *)

Lemma establishStream_fields id s :
  let s' := establishStream id s in
  objs s' = objs s /\ streams s' = streams s /\ nextStreamID s' = nextStreamID s /\ shutdown s' = shutdown s /\
  sendCh s' = sendCh s /\ acceptCh s' = acceptCh s.
Proof. unfold establishStream, releaseSyn. by case_match. Qed.

Lemma processFlags_fields flags p st s :
  objs s !! p = Some st ->
  let s' := processFlags flags p s in
  objs s' = <[p := flagged flags st]> (objs s) /\
  (streams s' = delete (sid st) (streams s) \/ streams s' = streams s /\ state (flagged flags st) = state (ackState flags st)) /\
  nextStreamID s' = nextStreamID s /\ shutdown s' = shutdown s /\ sendCh s' = sendCh s /\ acceptCh s' = acceptCh s.
Proof.
  intros Hp. pose proof (flagged_fields flags st) as (Hid & _). unfold processFlags. rewrite Hp. unfold flagged in *.
  assert (sid (ackState flags st) = sid st) as -> by (unfold ackState; by case_match).
  assert (snd (finState flags (ackState flags st)) = false -> state (fst (finState flags (ackState flags st))) = state (ackState flags st)) as Hfin.
  { unfold finState. by repeat case_match. }
  destruct (finState flags (ackState flags st)) as [st1 c1]. simpl in *.
  assert (snd (rstState flags st1) = false -> state (fst (rstState flags st1)) = state st1) as Hrst by (unfold rstState; by case_match).
  destruct (rstState flags st1) as [st2 c2]. simpl in *. rewrite Hid.
  destruct (establishStream_fields (sid st) s) as (F1 & F2 & F3 & F4 & F5 & F6).
  set (s1 := if has_flag flags flagACK then establishStream (sid st) s else s).
  assert (objs s1 = objs s /\ streams s1 = streams s /\ nextStreamID s1 = nextStreamID s /\ shutdown s1 = shutdown s /\
          sendCh s1 = sendCh s /\ acceptCh s1 = acceptCh s) as (G1 & G2 & G3 & G4 & G5 & G6) by (unfold s1; by case_match).
  clearbody s1.
  destruct (c1 || c2) eqn:E.
  - destruct (closeStream_fields (sid st) (put p st2 s1)) as (-> & -> & -> & -> & -> & ->). simpl. rewrite G1, G2. split_and!; auto.
  - apply orb_false_elim in E as [-> ->]. simpl. rewrite G1. split_and!; try done. right. split; [done|]. rewrite Hrst, Hfin by done. done.
Qed.

Lemma ackState_states flags st :
  (state st <> streamInit -> state (ackState flags st) <> streamInit) /\
  (state (ackState flags st) = streamSYNReceived <-> state st = streamSYNReceived) /\
  writeState (ackState flags st) = writeState st /\ readState (ackState flags st) = readState st.
Proof.
  unfold ackState. destruct (has_flag flags flagACK && bool_decide (state st = streamSYNSent)) eqn:E; [|done].
  apply andb_prop in E as [_ E%bool_decide_eq_true]. simpl. split_and!; try done. split; [done|congruence].
Qed.

Lemma flagged_states flags st :
  (state st <> streamInit -> state (flagged flags st) <> streamInit) /\
  (state st <> streamSYNReceived -> state (flagged flags st) <> streamSYNReceived) /\
  (writeState (flagged flags st) = halfOpen -> writeState st = halfOpen) /\
  (readState (flagged flags st) = halfClosed -> readState st = halfClosed \/ has_flag flags flagFIN = true).
Proof.
  destruct (ackState_states flags st) as (H1 & H2 & H3 & H4). unfold flagged, rstState, finState.
  destruct (has_flag flags flagFIN && bool_decide (readState (ackState flags st) = halfOpen)) eqn:E.
  - apply andb_prop in E as [E1 E2%bool_decide_eq_true].
    destruct (bool_decide _); simpl; case_match; simpl; split_and!; try done; try tauto; try congruence; auto;
      intros Hw; by apply reset_half_open in Hw.
  - case_match; simpl; split_and!; try done; try tauto; try congruence; auto.
    + intros Hw. by apply reset_half_open in Hw.
    + rewrite <- H4. intros Hw%reset_half_closed. by left.
    + rewrite <- H4. by left.
Qed.

(** ** A frame for a registered stream *)

Section registered.
Variables (f : frame) (p : nat) (st : Stream) (s : Session).
Hypothesis Hs : sess_ok s.
Hypothesis Hp : objs s !! p = Some st.
Hypothesis Hinit : state st <> streamInit.
Hypothesis Hf : frame_ok f.
Hypothesis Hcredit : sendWindow st + delta1 f <= MaxUint32.
Hypothesis Hfits : Z.of_nat (length (data1 f)) <= b_cap (recvBuf st).

(** A stream after the flags of [f], with a new window or buffer. *)
Lemma flagged_changed s' st' :
  objs s' = <[p := st']> (objs (processFlags (fr_flags f) p s)) ->
  streams s' = streams (processFlags (fr_flags f) p s) -> nextStreamID s' = nextStreamID (processFlags (fr_flags f) p s) ->
  shutdown s' = shutdown (processFlags (fr_flags f) p s) -> sendCh s' = sendCh (processFlags (fr_flags f) p s) ->
  acceptCh s' = acceptCh (processFlags (fr_flags f) p s) ->
  state st' = state (flagged (fr_flags f) st) -> sid st' = sid st -> recvWindow st' = recvWindow st ->
  b_cap (recvBuf st') + b_len (recvBuf st') = b_cap (recvBuf st) + b_len (recvBuf st) ->
  changed (config s) s s' p st st' [].
Proof.
  intros E1 E2 E3 E4 E5 E6 Hst Hid Hrw Hwin.
  destruct (processFlags_fields (fr_flags f) p st s Hp) as (P1 & P2 & P3 & P4 & P5 & P6).
  destruct (flagged_states (fr_flags f) st) as (F1 & F2 & _). destruct (ackState_states (fr_flags f) st) as (_ & G2 & _).
  split; try done; try congruence.
  - by rewrite E1, P1, list_insert_insert_eq.
  - rewrite E5, P5. by rewrite app_nil_r.
  - rewrite E2. tauto.
  - rewrite Hst. auto.
  - rewrite Hst. auto.
  - rewrite Hst, E2. intros Hns Hreg. right. destruct P2 as [P2|[_ P2]]; [rewrite P2, lookup_delete_eq in Hreg; done|].
    rewrite P2, G2 in Hns. split; [done|]. unfold settled. by rewrite Hrw, Hwin.
Qed.

Lemma received_flagged st' :
  sid st' = sid st -> writeState st' = writeState (flagged (fr_flags f) st) -> readState st' = readState (flagged (fr_flags f) st) ->
  recvWindow st' = recvWindow st -> sendWindow st' = sendWindow st + delta1 f ->
  unread (recvBuf st') = unread (recvBuf st) ++ data1 f ->
  b_cap (recvBuf st') = b_cap (recvBuf st) - Z.of_nat (length (data1 f)) -> received f st st'.
Proof.
  intros E1 E2 E3 E4 E5 E6 E7. destruct (flagged_states (fr_flags f) st) as (_ & _ & F3 & F4). split; try done; by rewrite ?E2, ?E3.
Qed.

Lemma incrSendWindow_changed :
  fr_type f = typeWindowUpdate ->
  exists st', changed (config s) s (incrSendWindow f p s) p st st' [] /\ received f st st'.
Proof.
  intros Ht. assert (delta1 f = fr_length f) as Hd by (unfold delta1; by rewrite Ht).
  assert (data1 f = []) as Hb by (unfold data1; by rewrite Ht).
  destruct (flagged_fields (fr_flags f) st) as (F1 & F2 & F3 & F4). pose proof (objs_ok p st s Hs Hp) as [_ _ _ Hsw].
  destruct Hf as (_ & _ & _ & Hl & _). unfold incrSendWindow. rewrite (processFlags_lookup (fr_flags f) p st s Hp).
  exists (set_sendWindow (wrap32 (sendWindow (flagged (fr_flags f) st) + fr_length f)) (flagged (fr_flags f) st)).
  split; [apply flagged_changed|apply received_flagged]; simpl; rewrite ?F2, ?F3, ?F4, ?Hb, ?app_nil_r; simpl; try done; [|lia].
  rewrite Hd in *. apply wrap32_id. unfold uint32, MaxUint32 in *. lia.
Qed.

Lemma readData_changed g :
  fr_type f = typeData ->
  exists st', changed (config s) s (fst (readData g f p s)) p st st' [] /\ received f st st' /\ snd (readData g f p s) = None.
Proof.
  intros Ht. assert (data1 f = fr_body f) as Hb by (unfold data1; by rewrite Ht).
  assert (delta1 f = 0) as Hd by (unfold delta1; by rewrite Ht).
  destruct (flagged_fields (fr_flags f) st) as (F1 & F2 & F3 & F4). pose proof (objs_ok p st s Hs Hp) as [Hbuf _ _ _].
  destruct Hf as (_ & _ & _ & Hl & Hbody). rewrite Ht in Hbody. simpl in Hbody. unfold readData.
  rewrite (processFlags_lookup (fr_flags f) p st s Hp). rewrite F3. rewrite Hb in *.
  destruct (fr_length f =? 0) eqn:E0; bool_props.
  - assert (fr_body f = []) as Hn by (apply length_zero_iff_nil; lia).
    exists (flagged (fr_flags f) st). split_and!; [apply flagged_changed|apply received_flagged|done]; rewrite ?F2, ?F3, ?F4, ?Hb, ?Hn, ?app_nil_r, ?Hd; simpl; try done; try lia.
    destruct (processFlags_fields (fr_flags f) p st s Hp) as (-> & _). by rewrite list_insert_insert_eq.
  - destruct (Append_spec g (fr_body f) (fr_length f) (recvBuf st) Hbuf) as (b' & Ea & Hb' & Hu & Hc); [unfold uint32 in *; lia|lia|].
    rewrite Ea. rewrite take_ge in Hu by lia. destruct Hbuf as (Hl1 & _). destruct Hb' as (Hl2 & _). rewrite Hu, length_app in Hl2.
    exists (set_recv (recvWindow (flagged (fr_flags f) st)) b' (flagged (fr_flags f) st)).
    split_and!; [apply flagged_changed|apply received_flagged|done]; simpl; rewrite ?F2, ?F3, ?F4, ?Hb; try done; try lia.
Qed.
End registered.

(** ** Any frame *)

Lemma sees_total e id : exists v, sees e id v.
Proof.
  destruct (decide (Exists (fun st => sid st = id) (objs (ss e)))) as [H|H].
  - apply Exists_exists in H as (st & [p Hp]%list_elem_of_lookup & Hs).
    by exists (Some (mkView st (wrote e p) (got e p) (bool_decide (streams (ss e) !! id = Some p)))), p.
  - exists None. intros p st Hp Hs. apply H, Exists_exists. exists st. split; [by eapply list_elem_of_lookup_2|done].
Qed.

(** What a frame must be for the view it meets. *)
Definition ready (e : endpoint) (f : frame) : Prop :=
  stream_frame f = true -> forall v, sees e (fr_id f) v ->
  (isSYN f = true -> v = None /\ incoming (ss e) (fr_id f) = true /\ fr_type f = typeWindowUpdate /\
     initialStreamWindow + fr_length f <= MaxUint32) /\
  (forall V, v = Some V -> v_reg V = true ->
     sendWindow (v_st V) + delta1 f <= MaxUint32 /\ Z.of_nat (length (data1 f)) <= b_cap (recvBuf (v_st V))).

Definition rsteps (f : frame) (e e' : endpoint) : Prop :=
  eok e' /\ statics (ss e') = statics (ss e) /\ shutdown (ss e') = shutdown (ss e) /\
  forall id v, sees e id v ->
    if of_id id f
    then exists v' out, sees e' id v' /\ fl id (flight e') = fl id (flight e) ++ out /\ arecv (config (ss e)) id f v v' out
    else sees e' id v /\ fl id (flight e') = fl id (flight e).

Lemma of_id_eq id f : of_id id f = true -> stream_frame f = true /\ id = fr_id f.
Proof. unfold of_id. intros [? ?]%andb_prop. bool_props. done. Qed.
Lemma of_id_self f : stream_frame f = true -> of_id (fr_id f) f = true.
Proof. unfold of_id. intros ->. simpl. apply Z.eqb_refl. Qed.

Lemma set_ss_id e : set_ss (ss e) e = e.
Proof. by destruct e. Qed.

(** A frame that changes nothing of a stream. *)
Lemma quiet_rsteps f e e' :
  eok e -> sess_ok (ss e') -> quiet e e' -> stream_frame f = false -> rsteps f e e'.
Proof.
  intros He Hok Hq Hsf. pose proof Hq as []. split_and!; [by eapply quiet_eok|done|done|]. intros id v Hv.
  unfold of_id. rewrite Hsf. simpl. split; [by eapply quiet_sees|done].
Qed.

(** A frame for a stream that is not registered. *)
Lemma drop_rsteps f e :
  eok e -> isSYN f = false -> streams (ss e) !! fr_id f = None -> rsteps f e e.
Proof.
  intros He Hs Hn. split_and!; [done..|]. intros id v Hv. case_match eqn:E; [|done]. apply of_id_eq in E as [_ ->].
  exists v, []. split_and!; [done|by rewrite app_nil_r|]. apply R_drop; [|done]. destruct v as [V|]; [|done].
  destruct Hv as (p & _ & _ & _ & _ & ->). by rewrite Hn.
Qed.

(** A frame for a registered stream. *)
Lemma changed_rsteps f e s' p st st' :
  eok e -> sess_ok s' -> statics s' = statics (ss e) -> stream_frame f = true -> isSYN f = false ->
  streams (ss e) !! fr_id f = Some p -> sid st = fr_id f ->
  changed (config (ss e)) (ss e) s' p st st' [] -> received f st st' -> rsteps f e (set_ss s' e).
Proof.
  intros He Hok Hst Hsf Hsyn Hreg Hid Hch Hrc.
  assert (forall q, wrote e q = bump p [] (wrote e) q) as Hw by (intros; by rewrite bump_nil).
  assert (forall q, got e q = bump p [] (got e) q) as Hg by (intros; by rewrite bump_nil).
  split_and!; [by eapply (changed_eok e (set_ss s' e)); eauto|done|apply Hch|]. intros id v Hv.
  rewrite (changed_flight e (set_ss s' e) p st st' [] id Hch) by done.
  assert ((if decide (id = sid st) then [] else []) = ([] : list frame)) as -> by by case_decide. case_match eqn:E.
  - apply of_id_eq in E as [_ ->]. rewrite <- Hid in *.
    destruct (changed_sees e (set_ss s' e) p st st' [] [] [] He Hch Hw Hg v Hv) as (V & -> & HV & Hr & Hv').
    eexists _, []. split_and!; [exact Hv'|done|]. apply R_recv; [done|]. split_and!; simpl; [by rewrite HV|by rewrite app_nil_r..|].
    rewrite Hr. by apply bool_decide_eq_true.
  - rewrite app_nil_r. split; [|done]. eapply changed_other; [exact Hch| |exact Hw|exact Hg|done].
    intros ->. rewrite Hid, of_id_self in E; done.
Qed.

(** ** A SYN *)

Section syn.
Variables (f : frame) (e : endpoint).
Hypothesis He : eok e.
Hypothesis Hopen : shutdown (ss e) = None.
Hypothesis Hf : conform f.
Hypothesis Ht : fr_type f = typeWindowUpdate.
Hypothesis Hsyn : isSYN f = true.
Hypothesis Hin : incoming (ss e) (fr_id f) = true.
Hypothesis Hnew : sees e (fr_id f) None.
Let c := config (ss e).
Let st := newStream c (fr_id f) streamSYNReceived initialStreamWindow.
Let s1 := set_streams (<[fr_id f := length (objs (ss e))]> (streams (ss e))) (wrap32 (numIncomingStreams (ss e) + 1))
            (set_objs (objs (ss e) ++ [st]) (ss e)).

Lemma syn_frame_ok : frame_ok f.
Proof. destruct Hf as (_ & H & _). apply H. unfold stream_frame. by rewrite Ht. Qed.

Lemma syn_unregistered : streams (ss e) !! fr_id f = None.
Proof.
  destruct (streams (ss e) !! fr_id f) as [p|] eqn:E; [|done].
  destruct (se_streams _ (eo_sess e He) _ _ E) as (x & Hp & Hx). by destruct (Hnew p x).
Qed.

Lemma rst_conform id : uint32 id -> conform (rstFrame id) /\ of_id id (rstFrame id) = true.
Proof. intros H. destruct (close_conform flagRST id) as (? & ? & _); [set_solver|done|done]. Qed.

(** The new stream's view. *)
Lemma sees_only v : sees e (fr_id f) v -> v = None.
Proof. destruct v as [V|]; [|done]. intros (p & Hp & Hs & _). by destruct (Hnew p (v_st V)). Qed.

(** The endpoint after a SYN, with what was answered. *)
Lemma syn_rsteps s' out (V : option view) :
  eok (set_ss s' e) -> statics s' = statics (ss e) -> shutdown s' = None ->
  (forall id v, id <> fr_id f -> sees e id v -> sees (set_ss s' e) id v) ->
  sendCh s' = sendCh (ss e) ++ out -> (out = [] \/ out = [rstFrame (fr_id f)]) ->
  sees (set_ss s' e) (fr_id f) V -> arecv c (fr_id f) f None V out -> rsteps f e (set_ss s' e).
Proof.
  intros He' Hst Hsh Hoth Hc Hout HV Ha. destruct syn_frame_ok as (_ & _ & Hid & _). destruct (rst_conform _ Hid) as [_ Hof].
  split_and!; [done|done|by rewrite Hopen|]. intros id v Hv.
  assert (flight (set_ss s' e) = flight e ++ out) as Hfl by (unfold flight; simpl; by rewrite Hc, app_assoc).
  rewrite Hfl, fl_app. case_match eqn:E.
  - apply of_id_eq in E as [_ ->]. rewrite (sees_only v Hv). exists V, out. split_and!; [done| |done]. f_equal.
    destruct Hout as [-> | ->]; [done|by apply fl_id].
  - assert (id <> fr_id f) as Hne by (intros ->; rewrite of_id_self in E; [done|unfold stream_frame; by rewrite Ht]).
    split; [by apply Hoth|]. destruct Hout as [-> | ->]; [by rewrite app_nil_r|]. rewrite fl_skip; [by rewrite app_nil_r|].
    by eapply of_id_other.
Qed.

Lemma rst_out out : out = [] \/ out = [rstFrame (fr_id f)] -> no_syn out /\ no_fin out /\ dataOf out = [] /\ deltas out = 0.
Proof. intros [-> | ->]; split_and!; try done; by repeat constructor. Qed.

(** A refused stream. *)
Lemma refuse_rsteps s' out :
  sess_ok s' -> objs s' = objs (ss e) -> streams s' = streams (ss e) -> nextStreamID s' = nextStreamID (ss e) ->
  shutdown s' = None -> statics s' = statics (ss e) -> acceptCh s' = acceptCh (ss e) ->
  sendCh s' = sendCh (ss e) ++ out -> (out = [] \/ out = [rstFrame (fr_id f)]) -> rsteps f e (set_ss s' e).
Proof.
  intros Hok E1 E2 E3 E4 E5 E6 E7 Hout. destruct (rst_out out Hout) as (O1 & O2 & O3 & O4).
  assert (forall id v, sees e id v -> sees (set_ss s' e) id v) as Hv by (intros id v; unfold sees; simpl; by rewrite E1, E2).
  destruct syn_frame_ok as (_ & _ & Hid & _). destruct (rst_conform _ Hid) as [Hcf _].
  apply (syn_rsteps s' out None); auto; [|by apply R_refuse].
  destruct He as [F1 F2 F3 F4 F5 F6 F7 F8 F9 F10 F11 F12]. injection E5 as Ec Ecl.
  split; unfold incoming in *; simpl; rewrite ?E1, ?E2, ?E3, ?E4, ?Ec, ?Ecl, ?E6; auto.
  unfold flight. simpl. rewrite E7, app_assoc. apply Forall_app. split; [done|]. by apply (out_Forall _ (rstFrame (fr_id f))).
Qed.

(** A stream pushed, registered or not. *)
Lemma pushed_sees s' (reg : bool) :
  objs s' = objs (ss e) ++ [st] ->
  streams s' = (if reg then <[fr_id f := length (objs (ss e))]> (streams (ss e)) else streams (ss e)) ->
  sees (set_ss s' e) (fr_id f) (Some (mkView st [] [] reg)) /\
  (forall id v, id <> fr_id f -> sees e id v -> sees (set_ss s' e) id v).
Proof.
  intros Ho Hs. split.
  - exists (length (objs (ss e))). simpl. rewrite Ho, Hs. destruct (eo_hist e He (length (objs (ss e))) ltac:(lia)) as [-> ->].
    split_and!; try done; [by apply list_lookup_middle|]. destruct reg; [by rewrite lookup_insert_eq, bool_decide_eq_true_2|].
    by rewrite syn_unregistered.
  - intros id v Hne. apply (push_sees e (set_ss s' e) st id v); try done. simpl. rewrite Hs. destruct reg; [|done].
    by rewrite lookup_insert_ne by done.
Qed.

Lemma pushed_eok s' (reg : bool) out :
  sess_ok s' -> objs s' = objs (ss e) ++ [st] ->
  streams s' = (if reg then <[fr_id f := length (objs (ss e))]> (streams (ss e)) else streams (ss e)) ->
  nextStreamID s' = nextStreamID (ss e) -> shutdown s' = None -> statics s' = statics (ss e) ->
  (forall p, p ∈ acceptCh s' -> p ∈ acceptCh (ss e) \/ p = length (objs (ss e))) ->
  sendCh s' = sendCh (ss e) ++ out -> (out = [] \/ out = [rstFrame (fr_id f)]) -> eok (set_ss s' e).
Proof.
  intros Hok Ho Hs Hn Hsh Hst Ha Hc Hout. destruct syn_frame_ok as (_ & _ & Hid & _). destruct (rst_conform _ Hid) as [Hcf _].
  eapply (push_eok e (set_ss s' e) st out); simpl; auto; try done; try congruence; try lia.
  - destruct reg; [by right|by left].
  - apply (eo_sess e He).
  - unfold flight. simpl. by rewrite Hc, app_assoc.
  - by apply (out_Forall _ (rstFrame (fr_id f))).
Qed.

(** The SYN flag comes alone. *)
Lemma syn_flags : fr_flags f = flagSYN.
Proof.
  destruct Hf as (_ & _ & _ & H & _). unfold isSYN in Hsyn.
  destruct (H Ht) as [Hl|[Hl _]]; repeat (apply elem_of_cons in Hl as [Hl|Hl]; [by rewrite Hl in *|]); by apply elem_of_nil in Hl.
Qed.

(** The accepted stream takes in the credit of the SYN. *)
Lemma accepted_rsteps s2 :
  Z.le (initialStreamWindow + fr_length f) MaxUint32 -> sess_ok s2 ->
  objs s2 = objs (ss e) ++ [st] -> streams s2 = <[fr_id f := length (objs (ss e))]> (streams (ss e)) ->
  nextStreamID s2 = nextStreamID (ss e) -> shutdown s2 = None -> statics s2 = statics (ss e) ->
  acceptCh s2 = acceptCh (ss e) ++ [length (objs (ss e))] -> sendCh s2 = sendCh (ss e) ->
  rsteps f e (set_ss (incrSendWindow f (length (objs (ss e))) s2) e).
Proof.
  intros Hcr Hok Ho Hs Hn Hsh Hst Ha Hc. set (p := length (objs (ss e))) in *. set (e2 := set_ss s2 e).
  assert (eok e2) as He2.
  { eapply (pushed_eok s2 true []); auto; [|by rewrite app_nil_r]. intros q. rewrite Ha, elem_of_app, list_elem_of_singleton. tauto. }
  destruct (pushed_sees s2 true Ho Hs) as [Hv2 Hoth]. fold e2 in Hv2, Hoth.
  assert (objs s2 !! p = Some st) as Hp by (rewrite Ho; by apply list_lookup_middle).
  assert (delta1 f = fr_length f) as Hd by (unfold delta1; by rewrite Ht).
  assert (data1 f = []) as Hb by (unfold data1; by rewrite Ht).
  destruct (incrSendWindow_changed f p st s2 Hok Hp) as (st' & Hch & Hrc); [done|exact syn_frame_ok|simpl; by rewrite Hd|done|].
  assert (config s2 = config (ss e)) as Hcf by by injection Hst as -> _.
  assert (forall q, wrote e q = bump p [] (wrote e) q) as Hw by (intros; by rewrite bump_nil).
  assert (forall q, got e q = bump p [] (got e) q) as Hg by (intros; by rewrite bump_nil).
  set (s3 := incrSendWindow f p s2) in *.
  destruct (changed_sees e2 (set_ss s3 e) p st st' [] [] [] He2 Hch Hw Hg _ Hv2) as (V & [= <-] & _ & _ & Hv3).
  eapply (syn_rsteps s3 []); [| | | |by rewrite app_nil_r, (cg_sendCh _ _ _ _ _ _ _ Hch), app_nil_r|by left|exact Hv3|].
  - eapply (changed_eok e2 (set_ss s3 e)); [done|by apply incrSendWindow_ok|by apply statics_incrSendWindow|exact Hch|done|by left|exact Hw|exact Hg].
  - unfold s3. by rewrite statics_incrSendWindow.
  - by rewrite (cg_shut _ _ _ _ _ _ _ Hch).
  - intros id v Hne Hv. eapply (changed_other e2 (set_ss s3 e)); [exact Hch|done|exact Hw|exact Hg|by apply Hoth].
  - apply R_new; [done|]. split_and!; done.
Qed.

Definition handled (err : option yerror) (m r : bool) : Prop := err = None \/ err = Some ErrMemory /\ m && r = false.

(** What [incomingStream] does: it fails for want of memory, refuses the stream, or queues it. *)
Lemma incomingStream_spec m r :
  let x := incomingStream m r (fr_id f) (ss e) in
  let s2 := fst x in
  snd x = Some ErrMemory /\ m && r = false /\ s2 = ss e \/
  snd x = None /\ streams s2 !! fr_id f = None /\ rsteps f e (set_ss s2 e) \/
  snd x = None /\ objs s2 = objs (ss e) ++ [st] /\ streams s2 = <[fr_id f := length (objs (ss e))]> (streams (ss e)) /\
    nextStreamID s2 = nextStreamID (ss e) /\ shutdown s2 = None /\ acceptCh s2 = acceptCh (ss e) ++ [length (objs (ss e))] /\
    sendCh s2 = sendCh (ss e).
Proof.
  pose proof (incomingStream_ok m r (fr_id f) (ss e) (eo_sess e He) Hopen) as Hok.
  pose proof (statics_incomingStream m r (fr_id f) (ss e)) as Hst. pose proof syn_unregistered as Hun. revert Hok Hst.
  assert (forall s', s' = fst (sendMsg false (rstFrame (fr_id f)) (ss e)) -> sess_ok s' -> statics s' = statics (ss e) ->
            streams s' !! fr_id f = None /\ rsteps f e (set_ss s' e)) as Hrefuse.
  { unfold sendMsg. rewrite Hopen. intros s' -> Hok Hst. split; [done|]. apply (refuse_rsteps _ [rstFrame (fr_id f)]); auto. }
  assert (snd (sendMsg false (rstFrame (fr_id f)) (ss e)) = None) as Hnone by (unfold sendMsg; by rewrite Hopen).
  unfold incomingStream. unfold incoming in Hin. rewrite Hin. simpl negb. cbv iota zeta.
  destruct (localGoAway (ss e)); [intros; right; left; auto|].
  destruct m; [|intros; by left]. destruct r; [|intros; by left]. simpl negb. cbv iota. rewrite Hun.
  destruct (MaxIncomingStreams (config (ss e)) <=? numIncomingStreams (ss e)); [intros; right; left; auto|]. fold c st s1.
  destruct (Z.of_nat (length (acceptCh s1)) <? AcceptBacklog (config s1)); [intros; right; right; by split_and!|].
  assert (deleteStream (fr_id f) s1 = set_streams (delete (fr_id f) (streams s1)) (numIncomingStreams (deleteStream (fr_id f) s1)) s1) as ->.
  { unfold deleteStream. assert (streams s1 !! fr_id f = Some (length (objs (ss e)))) as -> by (simpl; apply lookup_insert_eq). done. }
  set (n := numIncomingStreams (deleteStream (fr_id f) s1)).
  assert (delete (fr_id f) (streams s1) = streams (ss e)) as -> by (simpl; by apply delete_insert_id).
  unfold sendMsg. simpl shutdown. rewrite Hopen. intros Hok Hst. right. left. split_and!; [done|done|].
  match goal with |- rsteps f e (set_ss ?s e) => set (s2 := s) in * end. destruct (pushed_sees s2 false eq_refl eq_refl) as [Hv Hoth].
  destruct (rst_out [rstFrame (fr_id f)]) as (O1 & O2 & O3 & O4); [by right|].
  apply (syn_rsteps s2 [rstFrame (fr_id f)] (Some (mkView st [] [] false))); auto; [|by apply R_full].
  apply (pushed_eok s2 false [rstFrame (fr_id f)]); auto.
Qed.

Lemma syn_handled g m r :
  initialStreamWindow + fr_length f <= MaxUint32 ->
  let x := handleStreamMessage g m r f (ss e) in rsteps f e (set_ss (fst x) e) /\ handled (snd x) m r.
Proof.
  intros Hcr. unfold handleStreamMessage. change (has_flag (fr_flags f) flagSYN) with (isSYN f). rewrite Hsyn.
  pose proof (incomingStream_ok m r (fr_id f) (ss e) (eo_sess e He) Hopen) as Hok.
  pose proof (statics_incomingStream m r (fr_id f) (ss e)) as Hst. pose proof (incomingStream_spec m r) as Hsp.
  destruct (incomingStream m r (fr_id f) (ss e)) as [s2 err]. simpl in *.
  destruct Hsp as [(-> & Hmr & ->)|[(-> & Hn & Hr)|(-> & H1 & H2 & H3 & H4 & H5 & H6)]]; simpl.
  - split; [|by right]. apply (refuse_rsteps (ss e) []); auto; by rewrite app_nil_r.
  - rewrite Hn. split; [done|by left].
  - rewrite H2, lookup_insert_eq, Ht. simpl. split; [|by left]. by apply accepted_rsteps.
Qed.
End syn.

(** Every frame. *)
Lemma handle_rsteps g m r f e :
  eok e -> shutdown (ss e) = None -> conform f -> ready e f ->
  let x := handle g m r f (ss e) in rsteps f e (set_ss (fst x) e) /\ handled (snd x) m r.
Proof.
  intros He Hsh Hcf Hrd. cbv zeta. pose proof (eo_sess e He) as Hok. unfold handle.
  fold (stream_frame f). destruct (stream_frame f) eqn:Hsf.
  - destruct (sees_total e (fr_id f)) as [v Hv]. destruct (Hrd Hsf v Hv) as [Hsy Hreg].
    pose proof Hcf as (Hty & Hfo & Hcf'). destruct (isSYN f) eqn:Hsyn.
    { destruct (Hsy eq_refl) as (-> & Hin & Ht & Hcr). apply syn_handled; auto. }
    unfold handleStreamMessage. change (has_flag (fr_flags f) flagSYN) with (isSYN f). rewrite Hsyn.
    destruct (streams (ss e) !! fr_id f) as [p|] eqn:Hp; [|simpl; split; [rewrite set_ss_id; by apply drop_rsteps|by left]].
    destruct (se_streams _ Hok _ _ Hp) as (st & Hst & Hid). destruct v as [V|]; [|by destruct (Hv p st)].
    destruct Hv as (q & Hq & Hqs & _ & _ & Hqr). assert (q = p) as -> by (eapply (eo_uniq e He); [done|done|congruence]).
    assert (v_st V = st) as HV by congruence. destruct (Hreg V eq_refl) as [Hc1 Hc2]; [rewrite Hqr; by apply bool_decide_eq_true|].
    rewrite HV in *. pose proof (eo_init e He p st Hst) as Hni. destruct (fr_type f =? typeWindowUpdate) eqn:Ht; bool_props.
    + destruct (incrSendWindow_changed f p st (ss e) Hok Hst Hni (Hfo Hsf) Hc1) as (st' & Hch & Hrc); [done|].
      split; [|by left]. eapply changed_rsteps; [done|by apply incrSendWindow_ok|apply statics_incrSendWindow|done|done|done|done|exact Hch|done].
    + assert (fr_type f = typeData) as Htd by (unfold stream_frame in Hsf; apply orb_prop in Hsf as [?|?]; bool_props; [done|done]).
      destruct (readData_changed f p st (ss e) Hok Hst Hni (Hfo Hsf) Hc2 g Htd) as (st' & Hch & Hrc & Hnone).
      pose proof (readData_ok g f p (ss e) Hok (Hfo Hsf) Htd) as Hok'. pose proof (statics_readData g f p (ss e)) as Hst'.
      destruct (readData g f p (ss e)) as [s2 err]. simpl in *. subst err. split; [|by left]. by eapply changed_rsteps.
  - assert (sess_ok (fst (handle g m r f (ss e)))) as Hok1.
    { apply handle_ok; [done|done|]. unfold stream_frame in Hsf. bool_props. tauto. }
    revert Hok1. unfold handle. fold (stream_frame f). rewrite Hsf. destruct Hcf as (Hty & _ & _ & _ & Hga).
    unfold stream_frame in Hsf. bool_props. destruct (fr_type f =? typePing) eqn:Hp; bool_props.
    + unfold handlePing. intros Hok1. split; [apply quiet_rsteps; [done|done| |unfold stream_frame; apply orb_false_intro; zbool]|].
      * case_match; [case_match; by split|]. case_match; [|by split]. case_match. case_match; by split.
      * repeat case_match; by left.
    + assert (fr_type f = typeGoAway) as Hg by (unfold typeData, typeWindowUpdate, typePing, typeGoAway in *; lia).
      rewrite Hg in *. unfold handleGoAway. rewrite (Hga eq_refl). simpl. intros Hok1. split; [|by left].
      apply quiet_rsteps; [done|done|by split|]. unfold stream_frame. by rewrite Hg.
Qed.
