(* ===== verification/YamuxTheorems.v ===== *)
(** * yamux: theorems about two connected sessions

    Any run of two sessions over one connection, with any calls of their users in any order and any
    failures of the memory manager.  The calls of a session and the handling of a frame run one at a
    time, each as one step; in particular no two calls of [write] on a stream overlap.  Where they do,
    the code can exceed the window of the peer (lemma [two_writers]). *)

From stdpp Require Import base gmap list numbers relations.
From Stdlib Require Import ZArith Lia.
From S2P Require Import Prelude Transcoders Yamux YamuxSession YamuxBounds YamuxNet YamuxPeers YamuxConn YamuxRecv.

(** ** The invariant of a connection *)

Section connection.
Variable tight : Prop.
Variable lossy : bool.

(** Every ID the first endpoint opens is linked. *)
Definition linked (x y : endpoint) : Prop :=
  forall id, incoming (ss x) id = false -> exists vx vy, sees x id vx /\ sees y id vy /\
    idlink tight (config (ss y)) id vx vy (fl id (flight x)) (fl id (flight y)).

Record conn (x y : endpoint) : Prop := {
  cn_x : eok x;
  cn_y : eok y;
  cn_roles : client (ss x) = negb (client (ss y));
  cn_xy : linked x y;
  cn_yx : linked y x;
  cn_tight : tight -> lossy = false /\ doubling (config (ss x)) /\ doubling (config (ss y))
}.

Lemma conn_sym x y : conn x y -> conn y x.
Proof. intros []. split; try done; [rewrite cn_roles0; by destruct (client (ss y))|]. intros H. by destruct (cn_tight0 H) as (? & ? & ?). Qed.

Lemma roles x y id : client (ss x) = negb (client (ss y)) -> incoming (ss x) id = negb (incoming (ss y) id).
Proof. unfold incoming. intros ->. by destruct (client (ss y)), (id mod 2 =? 0). Qed.

Lemma incoming_statics s s' id : statics s' = statics s -> incoming s' id = incoming s id.
Proof. unfold incoming. by intros [= _ ->]. Qed.

Lemma sees_ok e id v : eok e -> sees e id v -> view_ok v.
Proof.
  intros He. destruct v as [V|]; [|done]. intros (p & Hp & _). simpl.
  pose proof (objs_ok p _ _ (eo_sess e He) Hp) as [_ _ _ H]. unfold uint32 in H. lia.
Qed.

Lemma config_initial e : eok e -> 0 <= InitialStreamWindowSize (config (ss e)).
Proof. intros He. pose proof (cfg_initial _ (se_config _ (eo_sess e He))) as H. unfold uint32 in H. lia. Qed.

Lemma flight_ok e id : eok e -> Forall conform (fl id (flight e)).
Proof. intros He. apply fl_conform, He. Qed.

(** A step of one endpoint. *)
Lemma conn_steps x x' y : conn x y -> steps tight x x' -> conn x' y.
Proof.
  intros [Hx Hy Hr Hxy Hyx Ht] (Hx' & Hst & Hs). pose proof Hst as Hst'. injection Hst' as Hcf Hcl.
  split; try done; [by rewrite Hcl| | |by rewrite Hcf].
  - intros id Hi. rewrite (incoming_statics _ _ id Hst) in Hi. destruct (Hxy id Hi) as (vx & vy & Hvx & Hvy & Hl).
    destruct (Hs id vx Hvx) as (vx' & out & Hvx' & Hfl & Ha). exists vx', vy. split_and!; [done|done|]. rewrite Hfl. rewrite Hi in Ha.
    eapply idlink_opener; [by apply config_initial|exact (sees_ok x id vx Hx Hvx)|exact (sees_ok y id vy Hy Hvy)|by apply flight_ok|by apply flight_ok|exact Hl|exact Ha].
  - intros id Hi. destruct (Hyx id Hi) as (vy & vx & Hvy & Hvx & Hl). destruct (Hs id vx Hvx) as (vx' & out & Hvx' & Hfl & Ha).
    exists vy, vx'. split_and!; [done|done|]. rewrite Hfl, Hcf. rewrite (roles x y id Hr), Hi in Ha.
    eapply idlink_acceptor; [exact (sees_ok y id vy Hy Hvy)|exact (sees_ok x id vx Hx Hvx)|by apply flight_ok|by apply flight_ok|exact Hl|exact Ha].
Qed.

Lemma conn_call o x y : conn x y -> enabled lossy o x -> conn (estep o x) y.
Proof.
  intros Hc Hen. eapply conn_steps; [done|]. eapply estep_steps; [|apply Hc|done].
  intros H. by destruct (cn_tight _ _ Hc H) as (? & ? & _).
Qed.

(** ** Delivery *)

Section deliver.
Variables (x y : endpoint) (f : frame) (w : list frame).
Hypothesis Hc : conn x y.
Hypothesis Hw : wire x = f :: w.

Lemma deliver_flight : flight x = f :: flight (take_wire w x).
Proof. unfold flight. rewrite Hw. done. Qed.

Lemma deliver_conform : conform f.
Proof. pose proof (eo_conf x (cn_x _ _ Hc)) as H. rewrite deliver_flight in H. by inversion H. Qed.

Lemma deliver_fl id : fl id (flight x) = if of_id id f then f :: fl id (flight (take_wire w x)) else fl id (flight (take_wire w x)).
Proof. rewrite deliver_flight. destruct (of_id id f) eqn:E; [by rewrite fl_keep|by rewrite fl_skip]. Qed.

Lemma take_wire_eok : eok (take_wire w x).
Proof.
  pose proof (eo_conf x (cn_x _ _ Hc)) as H. rewrite deliver_flight in H. inversion H; subst.
  destruct (cn_x _ _ Hc). by split.
Qed.

(** The credit of both sides fits a machine word. *)
Lemma cap_fits e id V : eok e -> sees e id (Some V) -> b_cap (recvBuf (v_st V)) <= MaxUint32.
Proof. intros He (p & Hp & _). pose proof (objs_ok p _ _ (eo_sess e He) Hp) as [(H1 & H2 & H3 & _) _ _ _]. lia. Qed.

Lemma sees_unique e id v v' : eok e -> sees e id v -> sees e id v' -> v = v'.
Proof.
  intros He. destruct v as [V|], v' as [V'|]; [| | |done].
  - intros (p & Hp & Hs & Hw1 & Hg & Hr) (q & Hq & Hs' & Hw2 & Hg' & Hr').
    assert (p = q) as <- by (eapply (eo_uniq e He); [done|done|congruence]). destruct V, V'. simpl in *. congruence.
  - intros (p & Hp & Hs & _) H. by destruct (H p _ Hp).
  - intros H (p & Hp & Hs & _). by destruct (H p _ Hp).
Qed.

Lemma deliver_ready : ready y f.
Proof.
  intros Hsf v Hv. set (id := fr_id f) in *. pose proof Hc as [Hx Hy Hr Hxy Hyx _].
  pose proof (deliver_fl id) as Hfl. unfold id in Hfl at 2. rewrite (of_id_self f Hsf) in Hfl.
  pose proof (flight_ok x id Hx) as Hcx. pose proof (flight_ok y id Hy) as Hcy. rewrite Hfl in Hcx.
  set (l := fl id (flight (take_wire w x))) in *. inversion Hcx as [|? ? Hcf Hcl]; subst.
  pose proof (deltas_nonneg _ Hcl) as Hd. pose proof (deltas_nonneg _ Hcy) as Hdy. pose proof (conform_delta f Hcf) as Hdf.
  destruct (incoming (ss y) id) eqn:Hi.
  - assert (incoming (ss x) id = false) as Hix by by rewrite (roles x y id Hr), Hi.
    destruct (Hxy id Hix) as (vx & vy & Hvx & Hvy & Hl). rewrite (sees_unique y id v vy Hy Hv Hvy) in *.
    pose proof (sees_ok x id vx Hx Hvx) as Hox. pose proof (sees_ok y id vy Hy Hvy) as Hoy. rewrite Hfl in Hl.
    inversion Hl as [|X f' l' Hs Hfin Ht Hns Hc1 Hc2|X Y ? ? Hns Hns' Hc1 Hc2|X ? ? Hns Hns' Hdd Hdz]; subst.
    + split; [|done]. intros _. split_and!; [done|done|done|]. pose proof (ch_credit _ _ _ _ _ Hc2) as Hcr. unfold credit in Hcr. simpl in *.
      unfold delta1 in Hcr at 1. rewrite Ht in Hcr. simpl in Hcr. pose proof (cap_fits x id X Hx Hvx). lia.
    + inversion Hns as [|? ? Hsf' _]; subst. split; [congruence|]. intros V [= <-] _. simpl in Hox, Hoy.
      pose proof (ch_credit _ _ _ _ _ Hc1) as H1. pose proof (ch_credit _ _ _ _ _ Hc2) as H2. unfold credit in *. simpl in *.
      rewrite length_app in H1. pose proof (cap_fits x id X Hx Hvx). lia.
    + inversion Hns as [|? ? Hsf' _]; subst. split; [congruence|done].
  - destruct (Hyx id Hi) as (vy & vx & Hvy & Hvx & Hl). rewrite (sees_unique y id v vy Hy Hv Hvy) in *.
    pose proof (sees_ok x id vx Hx Hvx) as Hox. pose proof (sees_ok y id vy Hy Hvy) as Hoy. rewrite Hfl in Hl.
    inversion Hl as [| |Y X ? ? Hns Hns' Hc1 Hc2|Y ? ? Hns Hns' Hdd Hdz]; subst; inversion Hns' as [|? ? Hsf' _]; subst;
      (split; [congruence|]); intros V [= <-] _; simpl in Hox, Hoy.
    + pose proof (ch_credit _ _ _ _ _ Hc1) as H1. pose proof (ch_credit _ _ _ _ _ Hc2) as H2. unfold credit in *. simpl in *.
      rewrite length_app in H2. pose proof (cap_fits x id X Hx Hvx). lia.
    + simpl in Hdd, Hdz. apply app_eq_nil in Hdd as [-> _]. simpl.
      destruct Hvy as (p & Hp & _). pose proof (objs_ok p _ _ (eo_sess y Hy) Hp) as [(_ & H2 & _) _ _ H4]. unfold uint32, MaxUint32 in *. lia.
Qed.

(** The frame is handled without an error, unless memory is refused. *)
Lemma deliver_handled g m r :
  shutdown (ss y) = None -> rsteps f y (set_ss (fst (handle g m r f (ss y))) y) /\ handled (snd (handle g m r f (ss y))) m r.
Proof. intros Hsh. apply handle_rsteps; [apply Hc|done|apply deliver_conform|apply deliver_ready]. Qed.

Lemma conn_rsteps y' : rsteps f y y' -> conn (take_wire w x) y'.
Proof.
  intros (Hy' & Hst & _ & Hs). pose proof Hc as [Hx Hy Hr Hxy Hyx Ht]. pose proof Hst as Hst'. injection Hst' as Hcf Hcl.
  split; [apply take_wire_eok|done|by rewrite Hcl| | |by rewrite Hcf].
  - intros id Hi. destruct (Hxy id Hi) as (vx & vy & Hvx & Hvy & Hl). specialize (Hs id vy Hvy). rewrite Hcf. exists vx.
    pose proof (flight_ok x id Hx) as Hcx. rewrite (deliver_fl id) in Hl, Hcx. destruct (of_id id f).
    + destruct Hs as (vy' & out & Hvy' & -> & Ha). exists vy'. split_and!; [done|done|]. eapply idlink_accept; [exact Hcx|exact Hl|exact Ha].
    + destruct Hs as [Hvy' ->]. by exists vy.
  - intros id Hi. rewrite (incoming_statics _ _ id Hst) in Hi. destruct (Hyx id Hi) as (vy & vx & Hvy & Hvx & Hl). specialize (Hs id vy Hvy).
    pose proof (flight_ok x id Hx) as Hcx. rewrite (deliver_fl id) in Hl, Hcx. destruct (of_id id f).
    + destruct Hs as (vy' & out & Hvy' & -> & Ha). exists vy', vx. split_and!; [done|done|]. eapply idlink_answer; [exact Hcx|exact Hl|exact Ha].
    + destruct Hs as [Hvy' ->]. by exists vy, vx.
Qed.

Lemma conn_deliver g m r : shutdown (ss y) = None -> conn (take_wire w x) (set_ss (recv g m r f (ss y)) y).
Proof.
  intros Hsh. destruct (deliver_handled g m r Hsh) as [Hs _]. pose proof (conn_rsteps _ Hs) as H1. unfold recv.
  destruct Hs as (_ & _ & Hsh' & _). destruct (handle g m r f (ss y)) as [s1 [e|]]; [|done]. simpl in *.
  unfold exitErr. rewrite Hsh', Hsh. apply conn_sym. eapply (conn_steps (set_ss s1 y)); [by apply conn_sym|].
  apply (shut_steps tight e (set_ss s1 y)), H1.
Qed.
End deliver.

Lemma conn_step a b a' b' : conn a b -> nstep lossy (a, b) (a', b') -> conn a' b'.
Proof.
  intros Hc Hn. inversion Hn; subst.
  - by apply conn_call.
  - apply conn_sym, conn_call; [by apply conn_sym|done].
  - by eapply conn_deliver.
  - apply conn_sym. eapply conn_deliver; [by apply conn_sym|done|done].
Qed.

Lemma new_eok c cl : config_ok c -> eok (newEnd c cl).
Proof. intros H. split; simpl; try done; [by apply newSession_ok|intros p [H1|H1]; by apply elem_of_nil in H1]. Qed.

Lemma connected_conn ca cb a b :
  config_ok ca -> config_ok cb -> (tight -> lossy = false /\ doubling ca /\ doubling cb) -> connected lossy ca cb (a, b) -> conn a b.
Proof.
  intros Ha Hb Ht Hr. change (conn (fst (a, b)) (snd (a, b))). generalize dependent (a, b). clear a b.
  apply (rtc_ind_r (fun n => conn (fst n) (snd n))).
  - simpl. split; simpl; [by apply new_eok|by apply new_eok|done| | |done]; intros id Hi; exists None, None;
      (split_and!; [done|done|constructor]).
  - intros [a b] [a' b'] _ Hs Hc. by eapply conn_step.
Qed.
End connection.

(** ** The two ends of a stream *)

Definition registered (e : endpoint) (p : nat) (st : Stream) : bool := bool_decide (streams (ss e) !! sid st = Some p).
Definition end_view (e : endpoint) (p : nat) (st : Stream) : view := mkView st (wrote e p) (got e p) (registered e p st).

Lemma end_view_sees e p st : objs (ss e) !! p = Some st -> sees e (sid st) (Some (end_view e p st)).
Proof. intros H. by exists p. Qed.

Lemma conn_chan tight lossy x y p q st st' :
  conn tight lossy x y -> objs (ss x) !! p = Some st -> objs (ss y) !! q = Some st' -> sid st = sid st' ->
  chan tight (end_view x p st) (end_view y q st') (fl (sid st) (flight x)) (fl (sid st) (flight y)).
Proof.
  intros [Hx Hy Hr Hxy Hyx _] Hp Hq Hid. pose proof (end_view_sees x p st Hp) as Hvx. pose proof (end_view_sees y q st' Hq) as Hvy.
  rewrite <- Hid in Hvy. destruct (incoming (ss x) (sid st)) eqn:Hi.
  - assert (incoming (ss y) (sid st) = false) as Hiy by (rewrite (roles x y _ Hr) in Hi; by destruct (incoming (ss y) (sid st))).
    destruct (Hyx _ Hiy) as (vy & vx & Hvy' & Hvx' & Hl).
    rewrite (sees_unique x _ _ _ Hx Hvx' Hvx), (sees_unique y _ _ _ Hy Hvy' Hvy) in Hl. by inversion Hl; subst.
  - destruct (Hxy _ Hi) as (vx & vy & Hvx' & Hvy' & Hl).
    rewrite (sees_unique x _ _ _ Hx Hvx' Hvx), (sees_unique y _ _ _ Hy Hvy' Hvy) in Hl. by inversion Hl; subst.
Qed.

(** An end of file without bytes is that of the stream. *)
Lemma Read_eof k t r d d' q st s s' :
  sess_ok s -> objs s !! q = Some st -> (0 < k)%nat -> Read k t r d d' q s = Some (s', [], Some ErrEOF) ->
  readState st = halfClosed /\ unread (recvBuf st) = [].
Proof.
  intros Hok Hq Hk. pose proof (objs_ok q st s Hok Hq) as [Hb _ _ _]. unfold Read. rewrite Hq.
  destruct (readState st) eqn:Er; [| |done]; (destruct (b_len (recvBuf st) =? 0) eqn:E0; bool_props;
    [|destruct (buf_Read_spec k _ Hb (buf_nonempty _ Hb E0)) as (n & b' & -> & _ & Hn & Hnl & _);
      destruct (sendWindowUpdate _ _ _ _ _) as [s1 err]; intros [= _ Hbs _]; exfalso; apply (f_equal length) in Hbs;
      rewrite length_take in Hbs; simpl in Hbs; specialize (Hn Hk); lia]).
  - simpl. by case_match.
  - intros _. split; [done|]. destruct Hb as (Hl & _). apply length_zero_iff_nil. lia.
Qed.

Section theorems.
Context (ca cb : Config).

Lemma conn_of (tight : Prop) lossy a b :
  config_ok ca -> config_ok cb -> connected lossy ca cb (a, b) -> (tight -> lossy = false /\ doubling ca /\ doubling cb) ->
  conn tight lossy a b.
Proof. intros Ha Hb Hr Ht. exact (connected_conn tight lossy ca cb a b Ha Hb Ht Hr). Qed.

(** C8: Two sessions whose calls run one at a time (each call and each reception of a frame is one step,
    in any order) never break the protocol: a frame one of them wrote is handled by the other without
    an error, unless its memory manager refuses a new stream.  So no receive window is exceeded, no
    stream is declared twice, no ID has the wrong parity.  Two calls of [write] on one stream that
    overlap are not such a run (lemma [two_writers]). *)
Theorem peers_conform lossy a b :
  config_ok ca -> config_ok cb -> connected lossy ca cb (a, b) ->
  (forall g m r f w, wire a = f :: w -> shutdown (ss b) = None -> handled (snd (handle g m r f (ss b))) m r) /\
  (forall g m r f w, wire b = f :: w -> shutdown (ss a) = None -> handled (snd (handle g m r f (ss a))) m r).
Proof.
  intros Ha Hb Hr. pose proof (conn_of False lossy a b Ha Hb Hr ltac:(done)) as Hc. split; intros g m r f w Hw Hsh.
  - by apply (deliver_handled _ _ a b f w Hc Hw g m r Hsh).
  - by apply (deliver_handled _ _ b a f w (conn_sym _ _ _ _ Hc) Hw g m r Hsh).
Qed.

(** C9: The bytes got from a stream are a prefix of the bytes written to its other end; while the stream
    is registered at the reader, the rest is in its buffer or under way, in order. *)
Theorem bytes_delivered lossy a b p q st st' :
  config_ok ca -> config_ok cb -> connected lossy ca cb (a, b) ->
  objs (ss a) !! p = Some st -> objs (ss b) !! q = Some st' -> sid st = sid st' ->
  got b q `prefix_of` wrote a p /\ got a p `prefix_of` wrote b q /\
  (streams (ss b) !! sid st' = Some q ->
     wrote a p = got b q ++ unread (recvBuf st') ++ dataOf (fl (sid st) (flight a))) /\
  (streams (ss a) !! sid st = Some p ->
     wrote b q = got a p ++ unread (recvBuf st) ++ dataOf (fl (sid st) (flight b))).
Proof.
  intros Ha Hb Hr Hp Hq Hid. pose proof (conn_of False lossy a b Ha Hb Hr ltac:(done)) as Hc.
  pose proof (conn_chan _ _ _ _ _ _ _ _ Hc Hp Hq Hid) as [_ (r1 & D1 & E1 & _) _ _ _].
  pose proof (conn_chan _ _ _ _ _ _ _ _ (conn_sym _ _ _ _ Hc) Hq Hp (eq_sym Hid)) as [_ (r2 & D2 & E2 & _) _ _ _].
  simpl in *. unfold registered in *. rewrite Hid in *. split_and!; [by eexists|by eexists|..]; intros Hreg; rewrite ?D1, ?D2;
    [rewrite E1|rewrite E2]; try done; by apply bool_decide_eq_true.
Qed.

(** C10: When a read of some bytes returns none and reports the end of the stream, every byte written to
    its other end has been got, and no more can be written. *)
Theorem eof_complete lossy a b p q st st' k t r d d' s' :
  config_ok ca -> config_ok cb -> connected lossy ca cb (a, b) ->
  objs (ss a) !! p = Some st -> objs (ss b) !! q = Some st' -> sid st = sid st' ->
  (0 < k)%nat -> Read k t r d d' q (ss b) = Some (s', [], Some ErrEOF) ->
  got b q = wrote a p /\ writeState st <> halfOpen.
Proof.
  intros Ha Hb Hr Hp Hq Hid Hk HR. pose proof (conn_of False lossy a b Ha Hb Hr ltac:(done)) as Hc.
  pose proof (conn_chan _ _ _ _ _ _ _ _ Hc Hp Hq Hid) as [_ (r1 & D1 & _ & E1) Ho _ _]. simpl in *.
  destruct (Read_eof k t r d d' q st' (ss b) s' (eo_sess b (cn_y _ _ _ _ Hc)) Hq Hk HR) as [Hrs Hu].
  rewrite D1, Hu, (E1 Hrs), app_nil_r. split; [done|]. intros Hw. by destruct (Ho Hw).
Qed.

(** C11: With deadlines that end no window update and windows that only double, a stream never waits for
    credit that nobody will send: when the reader has taken all bytes and nothing is under way, the
    writer has credit. *)
Theorem no_stall a b p q st st' :
  config_ok ca -> config_ok cb -> doubling ca -> doubling cb -> connected false ca cb (a, b) ->
  objs (ss a) !! p = Some st -> objs (ss b) !! q = Some st' -> sid st = sid st' ->
  streams (ss a) !! sid st = Some p -> streams (ss b) !! sid st' = Some q -> state st' <> streamSYNReceived ->
  unread (recvBuf st') = [] -> fl (sid st) (flight a) = [] -> fl (sid st) (flight b) = [] ->
  0 < sendWindow st /\ forall bs d d', write bs d d' p (ss a) <> None.
Proof.
  intros Ha Hb Hda Hdb Hr Hp Hq Hid Hra Hrb Hs Hu Hfa Hfb.
  pose proof (conn_of True false a b Ha Hb Hr ltac:(done)) as Hc.
  pose proof (conn_chan _ _ _ _ _ _ _ _ Hc Hp Hq Hid) as [_ _ _ _ Ht].
  rewrite Hfa, Hfb in Ht. unfold credit in Ht. simpl in Ht. unfold registered in Ht.
  specialize (Ht I (bool_decide_eq_true_2 _ Hra) (bool_decide_eq_true_2 _ Hrb)).
  pose proof (eo_settled b (cn_y _ _ _ _ Hc) q st' Hq Hs Hrb) as Hset. unfold settled in Hset.
  pose proof (objs_ok q st' _ (eo_sess b (cn_y _ _ _ _ Hc)) Hq) as [(Hl & _) _ _ _]. rewrite Hu in Hl. simpl in Hl.
  assert (0 < sendWindow st) as Hw by dlia. split; [done|]. intros bs d d'. unfold write. rewrite Hp.
  destruct (writeState st); try done. assert ((sendWindow st =? 0) = false) as -> by zbool.
  destruct (sendFlags st). cbv zeta. by destruct (sendMsg _ _ _) as [? [?|]].
Qed.
End theorems.

(** ** Runs that can be computed *)

Inductive label := LCall (o : sop) | RCall (o : sop) | ToRight | ToLeft.

Definition growth (n : nat) : nat := (2 * n)%nat.

Definition play1 (n : endpoint * endpoint) (l : label) : endpoint * endpoint :=
  let '(a, b) := n in
  match l with
  | LCall o => (estep o a, b)
  | RCall o => (a, estep o b)
  | ToRight => match wire a with f :: w => (take_wire w a, set_ss (recv growth true true f (ss b)) b) | [] => n end
  | ToLeft => match wire b with f :: w => (set_ss (recv growth true true f (ss a)) a, take_wire w b) | [] => n end
  end.

Definition enabledb (o : sop) (e : endpoint) : bool :=
  match o with
  | SRead _ _ _ _ d' p => bool_decide (p ∈ owned e) && negb d'
  | SWrite _ _ _ p | SCloseWrite p | SCloseRead p | SReset p => bool_decide (p ∈ owned e)
  | SRecv _ _ _ _ => false
  | _ => true
  end.
Definition can_play (n : endpoint * endpoint) (l : label) : bool :=
  match l with
  | LCall o => enabledb o (fst n)
  | RCall o => enabledb o (snd n)
  | ToRight => match shutdown (ss (snd n)) with None => true | Some _ => false end
  | ToLeft => match shutdown (ss (fst n)) with None => true | Some _ => false end
  end.
Fixpoint playable (n : endpoint * endpoint) (ls : list label) : bool :=
  match ls with [] => true | l :: ls => can_play n l && playable (play1 n l) ls end.

Lemma enabledb_enabled o e : enabledb o e = true -> enabled false o e.
Proof.
  destruct o; simpl; try done; try (by intros ?%bool_decide_eq_true).
  intros [?%bool_decide_eq_true ?]%andb_prop. bool_props. done.
Qed.

Lemma playable_connected ca cb n ls :
  connected false ca cb n -> playable n ls = true -> connected false ca cb (foldl play1 n ls).
Proof.
  revert n. induction ls as [|l ls IH]; intros [a b] Hc Hp; [done|]. simpl in *. apply andb_prop in Hp as [H1 H2]. apply IH; [|done].
  destruct l; simpl in *.
  - eapply rtc_r; [exact Hc|]. by apply N_left, enabledb_enabled.
  - eapply rtc_r; [exact Hc|]. by apply N_right, enabledb_enabled.
  - destruct (wire a) as [|f w] eqn:Ew; [done|]. eapply rtc_r; [exact Hc|]. apply N_to_right; [done|]. by destruct (shutdown (ss b)).
  - destruct (wire b) as [|f w] eqn:Ew; [done|]. eapply rtc_r; [exact Hc|]. apply N_to_left; [done|]. by destruct (shutdown (ss a)).
Qed.

Module Demo.
Definition start : endpoint * endpoint := (newEnd DefaultConfig true, newEnd DefaultConfig false).
Definition open_accept : list label :=
  [LCall (SOpen false true true false); LCall (SSend SendData); ToRight;
   RCall (SAccept false true); RCall (SSend SendData); ToLeft].
Definition transfer : list label :=
  [LCall (SWrite [1; 2; 3] false false 0); LCall (SSend SendData); ToRight;
   RCall (SRead 2 false true false false 0); RCall (SRead 9 false true false false 0)].
Definition finish : list label := [LCall (SCloseWrite 0); LCall (SSend SendData); ToRight].

Definition written : endpoint * endpoint := foldl play1 start (open_accept ++ take 2 transfer).
Definition drained : endpoint * endpoint := foldl play1 start (open_accept ++ transfer).
Definition closed : endpoint * endpoint := foldl play1 start (open_accept ++ transfer ++ finish).

Lemma default_ok : config_ok DefaultConfig.
Proof. split; vm_compute; try done; by split. Qed.
Lemma default_doubling : doubling DefaultConfig.
Proof. exists 6%nat. reflexivity. Qed.

Lemma start_connected ls :
  playable start ls = true -> connected false DefaultConfig DefaultConfig (fst (foldl play1 start ls), snd (foldl play1 start ls)).
Proof. intros H. rewrite <- surjective_pairing. apply playable_connected; [apply rtc_refl|done]. Qed.

Lemma written_connected : connected false DefaultConfig DefaultConfig (fst written, snd written).
Proof. apply start_connected. vm_compute. reflexivity. Qed.
Lemma drained_connected : connected false DefaultConfig DefaultConfig (fst drained, snd drained).
Proof. apply start_connected. vm_compute. reflexivity. Qed.
Lemma closed_connected : connected false DefaultConfig DefaultConfig (fst closed, snd closed).
Proof. apply start_connected. vm_compute. reflexivity. Qed.
End Demo.

Lemma peers_conform_witness :
  wire (fst Demo.written) = [mkFrame typeData 0 1 3 [1; 2; 3]] /\
  handled (snd (handle growth true true (mkFrame typeData 0 1 3 [1; 2; 3]) (ss (snd Demo.written)))) true true.
Proof.
  split; [vm_compute; reflexivity|].
  destruct (peers_conform DefaultConfig DefaultConfig false (fst Demo.written) (snd Demo.written)
              Demo.default_ok Demo.default_ok Demo.written_connected) as [H _].
  apply (H growth true true _ []); vm_compute; reflexivity.
Defined.

Lemma bytes_delivered_witness :
  exists st st', objs (ss (fst Demo.drained)) !! 0%nat = Some st /\ objs (ss (snd Demo.drained)) !! 0%nat = Some st' /\
    got (snd Demo.drained) 0 = [1; 2; 3] /\ got (snd Demo.drained) 0 `prefix_of` wrote (fst Demo.drained) 0.
Proof.
  eexists _, _. split; [vm_compute; reflexivity|]. split; [vm_compute; reflexivity|]. split; [vm_compute; reflexivity|].
  edestruct (bytes_delivered DefaultConfig DefaultConfig false (fst Demo.drained) (snd Demo.drained) 0 0) as [H _];
    [exact Demo.default_ok|exact Demo.default_ok|exact Demo.drained_connected|vm_compute; reflexivity|vm_compute; reflexivity|reflexivity|exact H].
Defined.

Lemma eof_complete_witness :
  exists s', Read 9 false true false false 0 (ss (snd Demo.closed)) = Some (s', [], Some ErrEOF) /\
    got (snd Demo.closed) 0 = wrote (fst Demo.closed) 0.
Proof.
  eexists. split; [vm_compute; reflexivity|].
  eapply proj1, (eof_complete DefaultConfig DefaultConfig false (fst Demo.closed) (snd Demo.closed) 0 0 _ _ 9 false true false false);
    [exact Demo.default_ok|exact Demo.default_ok|exact Demo.closed_connected|vm_compute; reflexivity|vm_compute; reflexivity|reflexivity|
     lia|vm_compute; reflexivity].
Defined.

Lemma no_stall_witness :
  exists st, objs (ss (fst Demo.drained)) !! 0%nat = Some st /\ 0 < sendWindow st.
Proof.
  eexists. split; [vm_compute; reflexivity|].
  edestruct (no_stall DefaultConfig DefaultConfig (fst Demo.drained) (snd Demo.drained) 0 0) as [H _];
    [exact Demo.default_ok|exact Demo.default_ok|exact Demo.default_doubling|exact Demo.default_doubling|exact Demo.drained_connected|
     vm_compute; reflexivity|vm_compute; reflexivity|reflexivity|vm_compute; reflexivity|vm_compute; reflexivity|done|
     vm_compute; reflexivity|vm_compute; reflexivity|vm_compute; reflexivity|exact H].
Defined.

(** ** Overlapping writes *)

(** [write] in the two parts between which other goroutines run: the window is loaded and the frame
    sent, then the window is lowered. *)
Definition write_send (b : list Z) (p : nat) (s : Session) : option (Session * Z) :=
  match objs s !! p with
  | None => None
  | Some st =>
      if bool_decide (writeState st = halfOpen) && negb (sendWindow st =? 0) then
        let max := Z.min (Z.min (sendWindow st) (wrap32 (MaxMessageSize (config s) - headerSize))) (wrap32 (Z.of_nat (length b))) in
        let '(flags, st) := sendFlags st in
        match sendMsg false (mkFrame typeData flags (sid st) max (take (Z.to_nat max) b)) (put p st s) with
        | (s, None) => Some (s, max)
        | (_, Some _) => None
        end
      else None
  end.
Definition write_settle (max : Z) (p : nat) (s : Session) : Session :=
  match objs s !! p with
  | None => s
  | Some st => put p (set_sendWindow (wrap32 (sendWindow st + (2 ^ 32 - max))) st) s
  end.

(** One after the other they are a call that sends. *)
Lemma write_parts b p s s1 max :
  write_send b p s = Some (s1, max) -> write b false false p s = Some (write_settle max p s1, Z.to_nat max, None).
Proof.
  unfold write_send, write. destruct (objs s !! p) as [st|] eqn:Hp; [|done].
  destruct (writeState st) eqn:Hw; try done. rewrite bool_decide_eq_true_2 by done.
  destruct (sendWindow st =? 0); [done|]. cbn [negb andb]. cbv zeta. destruct (sendFlags st) as [flags st1].
  unfold sendMsg. destruct (shutdown (put p st1 s)); [done|]. intros [= <- <-]. unfold write_settle.
  cbn [objs set_sendCh]. by rewrite (put_lookup p st st1 s Hp).
Qed.

Module Overlap.
Definition bytes (n : Z) : list Z := replicate (Z.to_nat n) 7.
(** Four writes of the largest message leave 48 bytes of the window. *)
Definition nearly : endpoint * endpoint :=
  foldl play1 Demo.start (Demo.open_accept ++ concat (replicate 4 [LCall (SWrite (bytes 65524) false false 0); LCall (SSend SendData); ToRight])).
(** Two writers send 48 bytes each before either of them lowers the window. *)
Definition both : option Session :=
  '(s1, m1) ← write_send (bytes 48) 0 (ss (fst nearly));
  '(s2, m2) ← write_send (bytes 48) 0 s1;
  Some (write_settle m2 0 (write_settle m1 0 s2)).
Definition receive (fs : list frame) (s : Session) : Session * option yerror :=
  foldl (fun x f => match x with (s, None) => handle growth true true f s | _ => x end) (s, None) fs.
End Overlap.

(** The sender's window wraps around, and the receiver ends the session. *)
Lemma two_writers :
  (sendWindow <$> objs (ss (fst Overlap.nearly)) !! 0%nat) = Some 48 /\
  match Overlap.both with
  | None => False
  | Some s => (sendWindow <$> objs s !! 0%nat) = Some (2 ^ 32 - 48) /\
      snd (Overlap.receive (sendCh s) (ss (snd Overlap.nearly))) = Some ErrRecvWindowExceeded
  end.
Proof. vm_compute. repeat split. Qed.

(** ** Where credit and tokens are lost *)

(** An update that enlarges the window announces the growth alone: the credit for the bytes read
    since the last update is counted by the buffer and never sent. *)
Lemma unannounced_credit c st flags delta st' :
  config_ok c -> stream_ok c st -> state st = streamEstablished -> recvWindow st < tunedWindow c (recvWindow st) ->
  recvWindow st / 2 <= recvWindow st - (b_cap (recvBuf st) + b_len (recvBuf st)) ->
  windowUpdate c true true st = (flags, true, delta, st') ->
  delta = tunedWindow c (recvWindow st) - recvWindow st /\
  b_cap (recvBuf st') = b_cap (recvBuf st) + delta + (recvWindow st - (b_cap (recvBuf st) + b_len (recvBuf st))).
Proof.
  intros Hc [Hb Hw Hr _] Hst Ht Hhalf. pose proof (config_windows c Hc) as (_ & Hi & _). unfold initialStreamWindow in Hi.
  destruct (tunedWindow_le c (recvWindow st) Hc ltac:(lia) Ht) as (Hmax & _).
  assert (uint32 (recvWindow st) /\ uint32 (tunedWindow c (recvWindow st))) as [Hu1 Hu2] by (destruct Hc; unfold uint32 in *; lia).
  assert (0 < recvWindow st / 2) by (apply Z.div_str_pos; lia).
  unfold windowUpdate, sendFlags. rewrite Hst. simpl.
  destruct (GrowTo (recvWindow st) false (recvBuf st)) as [[n1 d1] b1] eqn:E1.
  destruct (GrowTo_spec _ _ _ _ _ _ Hb Hu1 E1) as (Hb1 & _ & L1 & C1 & D1 & M1 & N1 & _ & S1).
  assert (d1 = recvWindow st - (b_cap (recvBuf st) + b_len (recvBuf st))) as Hd1.
  { destruct (Z.eq_dec d1 0) as [-> |]; [|destruct M1; lia]. destruct S1; lia. }
  destruct n1; simpl; [|done]. assert ((recvWindow st <? tunedWindow c (recvWindow st)) = true) as -> by zbool. simpl.
  destruct (GrowTo (tunedWindow c (recvWindow st)) true b1) as [[n2 d2] b2] eqn:E2.
  destruct (GrowTo_spec _ _ _ _ _ _ Hb1 Hu2 E2) as (_ & _ & L2 & C2 & D2 & M2 & _ & F2 & _).
  intros [= <- <- <-]. simpl. destruct (F2 eq_refl) as [_ F2']. destruct (Z.eq_dec d2 0); [lia|]. destruct M2; lia.
Qed.

(** So a verified configuration whose maximum is no power of two times the initial window can stall:
    the writer used its 256 KiB, all was read and the window grew to 384 KiB, of which 128 KiB were
    announced; when those are used and read too, the writer has no credit and no update is due. *)
Module Stall.
Definition config : Config := mkConfig 256 32 1 1 1000 initialStreamWindow (384 * 1024) 0 (64 * 1024).
Definition reader (w cap : Z) : Stream :=
  mkStream 1 initialStreamWindow w streamEstablished halfOpen halfOpen (mkBuf cap 0 0 0 [] 16).
End Stall.

Lemma growth_can_stall :
  config_ok Stall.config /\
  windowUpdate Stall.config true true (Stall.reader initialStreamWindow 0) =
    (0, true, 128 * 1024, Stall.reader (384 * 1024) (384 * 1024)) /\
  forall t r, windowUpdate Stall.config t r (Stall.reader (384 * 1024) (384 * 1024 - 128 * 1024)) =
    (0, false, 0, Stall.reader (384 * 1024) (256 * 1024)).
Proof. split_and!; [split; vm_compute; try done; by split|vm_compute; reflexivity|intros t r; vm_compute; reflexivity]. Qed.

(** A window update that a deadline ends is lost: the buffer counts the credit, the peer never
    hears of it. *)
Lemma deadline_loses_credit t r p st s :
  sess_ok s -> objs s !! p = Some st -> state st = streamEstablished ->
  recvWindow st / 2 <= recvWindow st - (b_cap (recvBuf st) + b_len (recvBuf st)) ->
  let s' := fst (sendWindowUpdate t r true p s) in
  sendCh s' = sendCh s /\ exists st', objs s' !! p = Some st' /\ b_cap (recvBuf st) < b_cap (recvBuf st').
Proof.
  intros H Hp Hst Hhalf. pose proof (objs_ok p st s H Hp) as Hok. pose proof Hok as [Hb Hw Hr _]. pose proof (se_config s H) as Hc.
  pose proof (config_windows _ Hc) as (_ & Hi & _). unfold initialStreamWindow in Hi.
  assert (0 < recvWindow st / 2) as Hh by (apply Z.div_str_pos; lia).
  unfold sendWindowUpdate. rewrite Hp. destruct (windowUpdate (config s) t r st) as [[[fl need] de] st'] eqn:E.
  destruct (windowUpdate_spec _ _ _ _ _ _ _ _ Hc Hok E) as (lost & [_ Hok' Hu Hcap Hd _ _ Hl Hwin Hset]).
  assert (b_len (recvBuf st') = b_len (recvBuf st)) as Hlen.
  { destruct Hb as (L1 & _). destruct Hok' as [(L2 & _) _ _ _]. rewrite Hu in L2. lia. }
  assert (recvWindow st <= recvWindow st') as Hle by (destruct Hl; lia).
  assert (b_cap (recvBuf st) < b_cap (recvBuf st')) as Hlt.
  { pose proof (Z.div_mod (recvWindow st) 2). pose proof (Z.div_mod (recvWindow st') 2). pose proof (Z.mod_pos_bound (recvWindow st') 2).
    pose proof (Z.mod_pos_bound (recvWindow st) 2). lia. }
  destruct need; simpl; [unfold sendMsg; destruct (shutdown (put p st' s))|]; simpl; (split; [done|]); exists st';
    (split; [apply list_lookup_insert_eq; by eapply lookup_lt_Some|done]).
Qed.

(** An end of file that comes with bytes is that of the connection: more bytes can be waiting. *)
Lemma early_eof k t r d p st s :
  sess_ok s -> objs s !! p = Some st -> shutdown s = Some ErrEOF -> readState st = halfClosed -> state st = streamFinished ->
  (0 < k < length (unread (recvBuf st)))%nat ->
  recvWindow st / 2 <= recvWindow st - (b_cap (recvBuf st) + b_len (recvBuf st)) ->
  exists s' bs st', Read k t r d false p s = Some (s', bs, Some ErrEOF) /\ objs s' !! p = Some st' /\ unread (recvBuf st') <> [].
Proof.
  intros H Hp Hsh Hrs Hst Hk Hhalf. pose proof (objs_ok p st s H Hp) as Hok. pose proof Hok as [Hb Hw Hr Hs].
  pose proof (se_config s H) as Hc. pose proof Hb as (Hl & _). unfold Read. rewrite Hp, Hrs.
  assert ((b_len (recvBuf st) =? 0) = false) as -> by zbool.
  destruct (buf_Read_spec k _ Hb) as (n & b' & -> & Hn & Hn0 & Hnl & Hb' & Hu & Hcap); [by destruct (unread (recvBuf st)); simpl in *; [lia|]|].
  pose proof Hb' as (Hl' & _). rewrite Hu, length_drop in Hl'.
  set (st1 := set_recv (recvWindow st) b' st). assert (stream_ok (config s) st1) as Hok1 by (split; simpl; try done; lia).
  unfold sendWindowUpdate. rewrite (put_lookup p st st1 s Hp). change (config (put p st1 s)) with (config s).
  destruct (windowUpdate (config s) t r st1) as [[[fl need] de] st2] eqn:E.
  destruct (windowUpdate_spec _ _ _ _ _ _ _ _ Hc Hok1 E) as (lost & [_ Hok2 Hu2 Hcap2 Hd2 Hq _ Hl2 Hwin Hset]). simpl in *.
  assert (need = true) as ->.
  { destruct need; [done|]. destruct (Hq eq_refl) as (_ & -> & ->). destruct Hok2 as [(L2 & _) _ _ _]. rewrite Hu2, Hu, length_drop in L2.
    assert (recvWindow st <= recvWindow st2) by (destruct Hwin as [Hwin|[Hlt Hwin]]; lia). dlia. }
  simpl. unfold sendMsg. simpl. rewrite Hsh. eexists _, _, st2. split; [done|]. split; [|].
  - simpl. rewrite list_lookup_insert_eq; [done|]. rewrite length_insert. by eapply lookup_lt_Some.
  - rewrite Hu2, Hu. intros Hnil. apply (f_equal length) in Hnil. rewrite length_drop in Hnil. simpl in Hnil. lia.
Qed.

(** [OpenStream] that fails for want of memory keeps its token of the SYN semaphore. *)
Definition failed_open (s : Session) : Session := match OpenStream false false false false s with Some (s', _) => s' | None => s end.

Lemma failed_open_leaks s :
  shutdown s = None -> remoteGoAway s = false -> synCh s < AcceptBacklog (config s) ->
  OpenStream false false false false s = Some (set_syn (inflight s) (synCh s + 1) s, Err ErrMemory).
Proof. intros H1 H2 H3. unfold OpenStream. rewrite H1, H2. by assert ((AcceptBacklog (config s) <=? synCh s) = false) as -> by zbool. Qed.

(** After [AcceptBacklog] opens that fail for want of memory, every open waits, although no stream
    was ever opened. *)
Theorem failed_opens_block c cl :
  config_ok c ->
  let s := Nat.iter (Z.to_nat (AcceptBacklog c)) failed_open (newSession c cl) in
  streams s = ∅ /\ inflight s = ∅ /\ forall mm reserve d, OpenStream false mm reserve d s = None.
Proof.
  intros Hc. pose proof (config_windows c Hc) as (Hb & _).
  assert (forall n, Z.of_nat n <= AcceptBacklog c ->
    Nat.iter n failed_open (newSession c cl) = set_syn ∅ (Z.of_nat n) (newSession c cl)) as Hn.
  { induction n as [|n IH]; intros Hle; [done|]. cbn [Nat.iter nat_rect]. change (nat_rect _ _ _ n) with (Nat.iter n failed_open (newSession c cl)).
    rewrite IH by lia. unfold failed_open. rewrite failed_open_leaks; [|done|done|simpl; lia]. rewrite Nat2Z.inj_succ. done. }
  cbv zeta. rewrite Hn by lia. rewrite Z2Nat.id by lia. split_and!; [done|done|]. intros mm reserve d. unfold OpenStream. simpl.
  by assert ((AcceptBacklog c <=? AcceptBacklog c) = true) as -> by (apply Z.leb_le; lia).
Qed.

Lemma failed_opens_block_witness :
  let c := mkConfig 2 1 1 1 10 initialStreamWindow maxStreamWindow 0 1024 in
  let s := Nat.iter 2 failed_open (newSession c true) in
  streams s = ∅ /\ inflight s = ∅ /\ forall mm reserve d, OpenStream false mm reserve d s = None.
Proof.
  apply (failed_opens_block (mkConfig 2 1 1 1 10 initialStreamWindow maxStreamWindow 0 1024) true).
  split; vm_compute; try done; by split.
Defined.
