(* ===== verification/ConnMgr.v ===== *)
(** * The connection manager (src/p2p/net/connmgr, src/core/connmgr)

    The manager tracks the connections of every peer, the tags that value a peer, tags whose value
    decays, and protections; when there are too many connections it chooses those to close.

    Each call is a function on the manager that runs alone, as under the locks of the code; a trim
    is one step, though the code releases the lock of a segment between collecting and closing.
    Connections and decaying tags are pointers in the code and numbers here.  What a connection
    reports ([stat]) is an argument of the calls that read it, as is the time.  An outer [None] is
    a panic.

    Not modelled: [DecayLinear] (floating point), the watchdog that calls [memoryEmergency], and
    the goroutines' life cycle ([Close]). *)

From stdpp Require Import base gmap list numbers sorting.
From Stdlib Require Import ZArith Lia.
From S2P Require Import Prelude GoSort Limits.

Notation ID := (list Z) (only parsing).
Notation Conn := nat (only parsing).
Notation TagRef := nat (only parsing).

Definition wrapi32 (z : Z) : Z := (z + 2 ^ 31) mod 2 ^ 32 - 2 ^ 31.

(** ** Decaying values (core/connmgr/decay.go, presets.go) *)

Record DecayingValue := mkDecaying {
  dv_Tag : TagRef;
  dv_Peer : ID;
  dv_Added : Z;
  dv_LastVisit : Z;
  dv_Value : Z
}.

(** A decay function may read the clock: its first argument is the time of the call. *)
Definition DecayFn := Z -> DecayingValue -> Z * bool.
Definition BumpFn := DecayingValue -> Z -> Z.

Definition DecayNone : DecayFn := fun _ v => (dv_Value v, false).
Definition DecayFixed (minuend : Z) : DecayFn := fun _ v =>
  let r := wrap64 (dv_Value v - minuend) in (r, r <=? 0).

(** [time.Until], which saturates. *)
Definition time_Until (now t : Z) : Z := Z.max MinInt64 (Z.min MaxInt64 (t - now)).
Definition DecayExpireWhenInactive (after : Z) : DecayFn := fun now v =>
  (0, time_Until now (dv_LastVisit v) >=? after).

Definition BumpSumUnbounded : BumpFn := fun v delta => wrap64 (dv_Value v + delta).
Definition BumpSumBounded (min max : Z) : BumpFn := fun v delta =>
  let r := wrap64 (dv_Value v + delta) in
  if r >=? max then max else if r <=? min then min else r.
Definition BumpOverwrite : BumpFn := fun _ delta => delta.

Record decayingTag := mkTag {
  dt_name : list Z;
  dt_interval : Z;
  dt_nextTick : Z;
  dt_decayFn : DecayFn;
  dt_bumpFn : BumpFn;
  dt_closed : bool
}.

(** ** Peers and the manager's state *)

Record peerInfo := mkPeer {
  pi_id : ID;
  pi_tags : gmap (list Z) Z;
  pi_decaying : gmap TagRef DecayingValue;
  pi_value : Z;
  pi_temp : bool;
  pi_conns : gmap Conn Z;
  pi_firstSeen : Z
}.

Record config := mkConfig {
  highWater : Z;
  lowWater : Z;
  gracePeriod : Z;
  silencePeriod : Z;
  cfg_decayer : option Z;
  emergencyTrim : bool
}.

Inductive cmerror := ErrGracePeriod | ErrSilencePeriod | ErrTagExists | ErrTagClosed | ErrQueueFull | ErrConnLimit.

Record bumpCmd := mkBump { bc_peer : ID; bc_tag : TagRef; bc_delta : Z }.
Record removeCmd := mkRemove { rc_peer : ID; rc_tag : TagRef }.

(** [tagStore] holds the tags that were ever registered, by reference; [Resolution] is the only
    field of the configuration besides the clock. *)
Record decayer := mkDecayer {
  Resolution : Z;
  tagStore : list decayingTag;
  knownTags : gmap (list Z) TagRef;
  lastTick : Z;
  bumpTagCh : list bumpCmd;
  removeTagCh : list removeCmd;
  closeTagCh : list TagRef
}.

Notation segment := (gmap ID peerInfo).

Record BasicConnMgr := mkMgr {
  cm_cfg : config;
  cm_decayer : decayer;
  buckets : list segment;
  protected : gmap ID (gset (list Z));
  connCount : Z;
  trimCount : Z;
  lastTrim : Z
}.

Definition set_decayer (d : decayer) (cm : BasicConnMgr) : BasicConnMgr :=
  mkMgr (cm_cfg cm) d (buckets cm) (protected cm) (connCount cm) (trimCount cm) (lastTrim cm).
Definition set_buckets (b : list segment) (cm : BasicConnMgr) : BasicConnMgr :=
  mkMgr (cm_cfg cm) (cm_decayer cm) b (protected cm) (connCount cm) (trimCount cm) (lastTrim cm).
Definition set_protected (p : gmap ID (gset (list Z))) (cm : BasicConnMgr) : BasicConnMgr :=
  mkMgr (cm_cfg cm) (cm_decayer cm) (buckets cm) p (connCount cm) (trimCount cm) (lastTrim cm).
Definition add_connCount (n : Z) (cm : BasicConnMgr) : BasicConnMgr :=
  mkMgr (cm_cfg cm) (cm_decayer cm) (buckets cm) (protected cm) (wrapi32 (connCount cm + n)) (trimCount cm) (lastTrim cm).
Definition trimmed (now : Z) (cm : BasicConnMgr) : BasicConnMgr :=
  mkMgr (cm_cfg cm) (cm_decayer cm) (buckets cm) (protected cm) (connCount cm) (wrapu64 (trimCount cm + 1)) now.

(** ** Options and construction *)

Definition second : Z := 1000000000.
Definition minute : Z := 60 * second.

Definition Option := config -> result cmerror config.

Definition DecayerConfig (res : Z) : Option := fun c =>
  Ok (mkConfig (highWater c) (lowWater c) (gracePeriod c) (silencePeriod c) (Some res) (emergencyTrim c)).
Definition WithGracePeriod (p : Z) : Option := fun c =>
  if p <? 0 then Err ErrGracePeriod
  else Ok (mkConfig (highWater c) (lowWater c) p (silencePeriod c) (cfg_decayer c) (emergencyTrim c)).
Definition WithSilencePeriod (p : Z) : Option := fun c =>
  if p <=? 0 then Err ErrSilencePeriod
  else Ok (mkConfig (highWater c) (lowWater c) (gracePeriod c) p (cfg_decayer c) (emergencyTrim c)).
Definition WithEmergencyTrim (enable : bool) : Option := fun c =>
  Ok (mkConfig (highWater c) (lowWater c) (gracePeriod c) (silencePeriod c) (cfg_decayer c) enable).

Fixpoint apply_options (opts : list Option) (c : config) : result cmerror config :=
  match opts with
  | [] => Ok c
  | o :: opts => match o c with Ok c => apply_options opts c | Err e => Err e end
  end.

Definition DefaultResolution : Z := minute.

Definition NewDecayer (res now : Z) : decayer := mkDecayer res [] ∅ now [] [] [].

Definition emptySegments : list segment := replicate 256 ∅.

Definition NewConnManager (low hi : Z) (opts : list Option) (now : Z) : result cmerror BasicConnMgr :=
  match apply_options opts (mkConfig hi low minute (10 * second) None false) with
  | Err e => Err e
  | Ok cfg =>
      let res := default DefaultResolution (cfg_decayer cfg) in
      Ok (mkMgr cfg (NewDecayer res now) emptySegments ∅ 0 0 0)
  end.

(** ** Segments *)

(** [p[len(p)-1]]. *)
Definition seg_index (p : ID) : option nat := Z.to_nat <$> last p.

(** The segment of a peer; the array has 256 entries, one for every byte. *)
Definition get (p : ID) (cm : BasicConnMgr) : option segment :=
  i ← seg_index p; buckets cm !! i.
Definition put (p : ID) (s : segment) (cm : BasicConnMgr) : BasicConnMgr :=
  match seg_index p with Some i => set_buckets (<[i := s]> (buckets cm)) cm | None => cm end.

Definition countPeers (cm : BasicConnMgr) : Z :=
  foldr (fun s n => Z.of_nat (size s) + n) 0 (buckets cm).

Definition newPeer (p : ID) (now : Z) (temp : bool) : peerInfo := mkPeer p ∅ ∅ 0 temp ∅ now.

Definition tagInfoFor (p : ID) (now : Z) (s : segment) : peerInfo :=
  match s !! p with Some pi => pi | None => newPeer p now true end.

(** ** Protection *)

Definition Protect (id : ID) (tag : list Z) (cm : BasicConnMgr) : BasicConnMgr :=
  let tags := default ∅ (protected cm !! id) in
  set_protected (<[id := {[tag]} ∪ tags]> (protected cm)) cm.

Definition Unprotect (id : ID) (tag : list Z) (cm : BasicConnMgr) : BasicConnMgr * bool :=
  match protected cm !! id with
  | None => (cm, false)
  | Some tags =>
      let tags := tags ∖ {[tag]} in
      if bool_decide (tags = ∅) then (set_protected (delete id (protected cm)) cm, false)
      else (set_protected (<[id := tags]> (protected cm)) cm, true)
  end.

Definition IsProtected (id : ID) (tag : list Z) (cm : BasicConnMgr) : bool :=
  match protected cm !! id with
  | None => false
  | Some tags => if bool_decide (tag = []) then true else bool_decide (tag ∈ tags)
  end.

Definition CheckLimit (systemLimit : Z) (cm : BasicConnMgr) : option cmerror :=
  if highWater (cm_cfg cm) >? systemLimit then Some ErrConnLimit else None.

(** ** Tags *)

Definition set_tags (tags : gmap (list Z) Z) (value : Z) (pi : peerInfo) : peerInfo :=
  mkPeer (pi_id pi) tags (pi_decaying pi) value (pi_temp pi) (pi_conns pi) (pi_firstSeen pi).
Definition set_decaying (d : gmap TagRef DecayingValue) (value : Z) (pi : peerInfo) : peerInfo :=
  mkPeer (pi_id pi) (pi_tags pi) d value (pi_temp pi) (pi_conns pi) (pi_firstSeen pi).

(** An absent tag reads as zero. *)
Definition tag_of (tag : list Z) (pi : peerInfo) : Z := default 0 (pi_tags pi !! tag).

Definition TagPeer (p : ID) (tag : list Z) (val now : Z) (cm : BasicConnMgr) : option BasicConnMgr :=
  s ← get p cm;
  let pi := tagInfoFor p now s in
  let pi' := set_tags (<[tag := val]> (pi_tags pi)) (wrap64 (pi_value pi + wrap64 (val - tag_of tag pi))) pi in
  Some (put p (<[p := pi']> s) cm).

Definition UntagPeer (p : ID) (tag : list Z) (cm : BasicConnMgr) : option BasicConnMgr :=
  s ← get p cm;
  match s !! p with
  | None => Some cm
  | Some pi =>
      let pi' := set_tags (delete tag (pi_tags pi)) (wrap64 (pi_value pi - tag_of tag pi)) pi in
      Some (put p (<[p := pi']> s) cm)
  end.

Definition UpsertTag (p : ID) (tag : list Z) (upsert : Z -> Z) (now : Z) (cm : BasicConnMgr) : option BasicConnMgr :=
  s ← get p cm;
  let pi := tagInfoFor p now s in
  let oldval := tag_of tag pi in
  let newval := upsert oldval in
  let pi' := set_tags (<[tag := newval]> (pi_tags pi)) (wrap64 (pi_value pi + wrap64 (newval - oldval))) pi in
  Some (put p (<[p := pi']> s) cm).

Record TagInfo := mkTagInfo {
  ti_FirstSeen : Z;
  ti_Value : Z;
  ti_Tags : gmap (list Z) Z;
  ti_Conns : gmap (list Z) Z
}.

(** The name of a registered tag. *)
Definition tag_name (t : TagRef) (d : decayer) : list Z := default [] (dt_name <$> tagStore d !! t).

(** [addr] is the text of a connection's remote address. *)
Definition GetTagInfo (addr : Conn -> list Z) (p : ID) (cm : BasicConnMgr) : option (option TagInfo) :=
  s ← get p cm;
  Some (pi ← s !! p;
        Some (mkTagInfo (pi_firstSeen pi) (pi_value pi)
                (foldl (fun m '(t, v) => <[tag_name t (cm_decayer cm) := dv_Value v]> m)
                   (pi_tags pi) (map_to_list (pi_decaying pi)))
                (foldl (fun m '(c, t) => <[addr c := t]> m) ∅ (map_to_list (pi_conns pi))))).

Record CMInfo := mkInfo { LowWater : Z; HighWater : Z; LastTrim : Z; GracePeriod : Z; ConnCount : Z }.

Definition GetInfo (cm : BasicConnMgr) : CMInfo :=
  mkInfo (lowWater (cm_cfg cm)) (highWater (cm_cfg cm)) (lastTrim cm) (gracePeriod (cm_cfg cm)) (connCount cm).

(** ** Connections *)

Section notifee.
Context (RemotePeer : Conn -> ID).

Definition set_conns (conns : gmap Conn Z) (pi : peerInfo) : peerInfo :=
  mkPeer (pi_id pi) (pi_tags pi) (pi_decaying pi) (pi_value pi) (pi_temp pi) conns (pi_firstSeen pi).

Definition Connected (c : Conn) (now : Z) (cm : BasicConnMgr) : option BasicConnMgr :=
  let id := RemotePeer c in
  s ← get id cm;
  let pinfo :=
    match s !! id with
    | None => newPeer id now false
    | Some pi =>
        if pi_temp pi then mkPeer (pi_id pi) (pi_tags pi) (pi_decaying pi) (pi_value pi) false (pi_conns pi) now
        else pi
    end in
  match pi_conns pinfo !! c with
  | Some _ => Some (put id (<[id := pinfo]> s) cm)
  | None => Some (add_connCount 1 (put id (<[id := set_conns (<[c := now]> (pi_conns pinfo)) pinfo]> s) cm))
  end.

Definition Disconnected (c : Conn) (cm : BasicConnMgr) : option BasicConnMgr :=
  let p := RemotePeer c in
  s ← get p cm;
  match s !! p with
  | None => Some cm
  | Some cinf =>
      match pi_conns cinf !! c with
      | None => Some cm
      | Some _ =>
          let conns := delete c (pi_conns cinf) in
          let s' := if bool_decide (conns = ∅) then delete p s else <[p := set_conns conns cinf]> s in
          Some (add_connCount (-1) (put p s' cm))
      end
  end.
End notifee.

(** ** Trimming *)

Record ConnStats := mkStats { Dir : Direction; NumStreams : Z }.

Section trim.
Context `{!SortSlice} (stat : Conn -> ConnStats).

Definition incomingAndStreams (m : gmap Conn Z) : bool * Z :=
  foldl (fun '(incoming, numStreams) '(c, _) =>
           (incoming || bool_decide (Dir (stat c) = DirInbound), wrap64 (numStreams + NumStreams (stat c))))
        (false, 0) (map_to_list m).

(** The comparison of [SortByValueAndStreams]. *)
Definition peerLess (sortByMoreStreams : bool) (left right : peerInfo) : bool :=
  if negb (eqb (pi_temp left) (pi_temp right)) then pi_temp left
  else if negb (pi_value left =? pi_value right) then pi_value left <? pi_value right
  else
    let '(leftIncoming, leftStreams) := incomingAndStreams (pi_conns left) in
    let '(rightIncoming, rightStreams) := incomingAndStreams (pi_conns right) in
    if negb (rightStreams =? leftStreams) && ((leftStreams =? 0) || (rightStreams =? 0)) then leftStreams <? rightStreams
    else if negb (eqb leftIncoming rightIncoming) then leftIncoming
    else if sortByMoreStreams then rightStreams <? leftStreams
    else leftStreams <? rightStreams.

Definition SortByValueAndStreams (sortByMoreStreams : bool) (p : list peerInfo) : list peerInfo :=
  sortSlice (peerLess sortByMoreStreams) p.

(** The peers of every segment that pass a test on their key and entry. *)
Definition collect (keep : ID -> peerInfo -> bool) (cm : BasicConnMgr) : list peerInfo :=
  map snd (filter (fun e => keep (fst e) (snd e) = true) (concat (map map_to_list (buckets cm)))).

Definition conns_of (inf : peerInfo) : list Conn := map fst (map_to_list (pi_conns inf)).
Definition nconns (inf : peerInfo) : Z := Z.of_nat (size (pi_conns inf)).
Definition nconns_all (l : list peerInfo) : Z := foldr (fun inf n => nconns inf + n) 0 l.

Definition unprotected (cm : BasicConnMgr) (id : ID) (_ : peerInfo) : bool :=
  match protected cm !! id with Some _ => false | None => true end.

(** A loop of [getConnsToCloseEmergency]: what is left of the target, and the selection. *)
Fixpoint selectEmergency (target : Z) (l : list peerInfo) (selected : list Conn) : Z * list Conn :=
  match l with
  | [] => (target, selected)
  | inf :: l =>
      if target <=? 0 then (target, selected)
      else selectEmergency (target - nconns inf) l (selected ++ conns_of inf)
  end.

Definition getConnsToCloseEmergency (target : Z) (cm : BasicConnMgr) : list Conn :=
  let candidates := SortByValueAndStreams true (collect (unprotected cm) cm) in
  let '(target, selected) := selectEmergency target candidates [] in
  if Z.of_nat (length selected) >=? target then selected
  else
    let candidates := SortByValueAndStreams true (collect (fun _ _ => true) cm) in
    snd (selectEmergency target candidates selected).

Definition memoryEmergency (now : Z) (cm : BasicConnMgr) : BasicConnMgr * list Conn :=
  let target := connCount cm - lowWater (cm_cfg cm) in
  if target <? 0 then (cm, [])
  else (trimmed now cm, getConnsToCloseEmergency target cm).

(** The last loop of [getConnsToClose]. *)
Fixpoint selectConns (target : Z) (l : list peerInfo) (cm : BasicConnMgr) (selected : list Conn)
  : option (BasicConnMgr * list Conn) :=
  match l with
  | [] => Some (cm, selected)
  | inf :: l =>
      if target <=? 0 then Some (cm, selected)
      else
        s ← get (pi_id inf) cm;
        if (nconns inf =? 0) && pi_temp inf then selectConns target l (put (pi_id inf) (delete (pi_id inf) s) cm) selected
        else selectConns (target - nconns inf) l cm (selected ++ conns_of inf)
  end.

Definition outOfGrace (now : Z) (cm : BasicConnMgr) (id : ID) (inf : peerInfo) : bool :=
  unprotected cm id inf && negb (pi_firstSeen inf >? now - gracePeriod (cm_cfg cm)).

Definition getConnsToClose (now : Z) (cm : BasicConnMgr) : option (BasicConnMgr * list Conn) :=
  if (lowWater (cm_cfg cm) =? 0) || (highWater (cm_cfg cm) =? 0) then Some (cm, [])
  else if connCount cm <=? lowWater (cm_cfg cm) then Some (cm, [])
  else
    let candidates := collect (outOfGrace now cm) cm in
    let ncandidates := nconns_all candidates in
    if ncandidates <? lowWater (cm_cfg cm) then Some (cm, [])
    else selectConns (ncandidates - lowWater (cm_cfg cm)) (SortByValueAndStreams false candidates) cm [].

(** The connections a trim closes; their [Disconnected] notifications follow. *)
Definition trim (now : Z) (cm : BasicConnMgr) : option (BasicConnMgr * list Conn) := getConnsToClose now cm.

(** [count] is what [trimCount] was when the call began. *)
Definition doTrim (count now : Z) (cm : BasicConnMgr) : option (BasicConnMgr * list Conn) :=
  if count =? trimCount cm then '(cm, cs) ← trim now cm; Some (trimmed now cm, cs)
  else Some (cm, []).

(** A tick of [background]. *)
Definition background (now : Z) (cm : BasicConnMgr) : option (BasicConnMgr * list Conn) :=
  if connCount cm <? wrapi32 (highWater (cm_cfg cm)) then Some (cm, []) else trim now cm.
End trim.

(** ** The decayer (decay.go) *)

Definition set_store (st : list decayingTag) (d : decayer) : decayer :=
  mkDecayer (Resolution d) st (knownTags d) (lastTick d) (bumpTagCh d) (removeTagCh d) (closeTagCh d).
Definition set_known (k : gmap (list Z) TagRef) (d : decayer) : decayer :=
  mkDecayer (Resolution d) (tagStore d) k (lastTick d) (bumpTagCh d) (removeTagCh d) (closeTagCh d).
Definition set_lastTick (t : Z) (d : decayer) : decayer :=
  mkDecayer (Resolution d) (tagStore d) (knownTags d) t (bumpTagCh d) (removeTagCh d) (closeTagCh d).
Definition set_bumps (q : list bumpCmd) (d : decayer) : decayer :=
  mkDecayer (Resolution d) (tagStore d) (knownTags d) (lastTick d) q (removeTagCh d) (closeTagCh d).
Definition set_removes (q : list removeCmd) (d : decayer) : decayer :=
  mkDecayer (Resolution d) (tagStore d) (knownTags d) (lastTick d) (bumpTagCh d) q (closeTagCh d).
Definition set_closes (q : list TagRef) (d : decayer) : decayer :=
  mkDecayer (Resolution d) (tagStore d) (knownTags d) (lastTick d) (bumpTagCh d) (removeTagCh d) q.

(** The remainder by a zero resolution panics. *)
Definition RegisterDecayingTag (name : list Z) (interval : Z) (decayFn : DecayFn) (bumpFn : BumpFn) (d : decayer)
  : option (decayer * result cmerror TagRef) :=
  match knownTags d !! name with
  | Some _ => Some (d, Err ErrTagExists)
  | None =>
      let interval := if interval <? Resolution d then Resolution d else interval in
      if Resolution d =? 0 then None
      else
        let tag := mkTag name interval (lastTick d + interval) decayFn bumpFn false in
        let t := length (tagStore d) in
        Some (set_known (<[name := t]> (knownTags d)) (set_store (tagStore d ++ [tag]) d), Ok t)
  end.

(** The capacity of the three queues. *)
Definition queueCap : nat := 128.

(** The methods of a tag; a reference that was never returned is [None]. *)
Definition Bump (t : TagRef) (p : ID) (delta : Z) (d : decayer) : option (decayer * option cmerror) :=
  tag ← tagStore d !! t;
  Some (if dt_closed tag then (d, Some ErrTagClosed)
        else if bool_decide (length (bumpTagCh d) < queueCap)%nat then (set_bumps (bumpTagCh d ++ [mkBump p t delta]) d, None)
        else (d, Some ErrQueueFull)).

Definition Remove (t : TagRef) (p : ID) (d : decayer) : option (decayer * option cmerror) :=
  tag ← tagStore d !! t;
  Some (if dt_closed tag then (d, Some ErrTagClosed)
        else if bool_decide (length (removeTagCh d) < queueCap)%nat then (set_removes (removeTagCh d ++ [mkRemove p t]) d, None)
        else (d, Some ErrQueueFull)).

Definition close_tag (tag : decayingTag) : decayingTag :=
  mkTag (dt_name tag) (dt_interval tag) (dt_nextTick tag) (dt_decayFn tag) (dt_bumpFn tag) true.

Definition Tag_Close (t : TagRef) (d : decayer) : option (decayer * option cmerror) :=
  tag ← tagStore d !! t;
  Some (if dt_closed tag then (d, None)
        else
          let d := set_store (<[t := close_tag tag]> (tagStore d)) d in
          if bool_decide (length (closeTagCh d) < queueCap)%nat then (set_closes (closeTagCh d ++ [t]) d, None)
          else (d, Some ErrQueueFull)).

(** *** The steps of [process] *)

(** The tags that are due. *)
Definition is_due (now : Z) (d : decayer) (t : TagRef) : bool :=
  match tagStore d !! t with Some tag => negb (dt_nextTick tag >? now) | None => false end.
Definition visit (now : Z) (d : decayer) : gset TagRef :=
  list_to_set (filter (fun t => is_due now d t = true) (map snd (map_to_list (knownTags d)))).

(** One decaying value of a peer. *)
Definition decayValue (now : Z) (st : list decayingTag) (due : gset TagRef) (p : peerInfo) (e : TagRef * DecayingValue) : peerInfo :=
  let '(t, v) := e in
  match st !! t with
  | Some tag =>
      if bool_decide (t ∈ due) then
        let '(after, rm) := dt_decayFn tag now v in
        if rm then set_decaying (delete t (pi_decaying p)) (wrap64 (pi_value p + wrap64 (- dv_Value v))) p
        else set_decaying (<[t := mkDecaying (dv_Tag v) (dv_Peer v) (dv_Added v) now after]> (pi_decaying p))
               (wrap64 (pi_value p + wrap64 (after - dv_Value v))) p
      else p
  | None => p
  end.

Definition decayPeer (now : Z) (st : list decayingTag) (due : gset TagRef) (p : peerInfo) : peerInfo :=
  foldl (decayValue now st due) p (map_to_list (pi_decaying p)).

Definition nextRound (tag : decayingTag) : decayingTag :=
  mkTag (dt_name tag) (dt_interval tag) (dt_nextTick tag + dt_interval tag) (dt_decayFn tag) (dt_bumpFn tag) (dt_closed tag).

Definition process_tick (now : Z) (cm : BasicConnMgr) : BasicConnMgr :=
  let d := set_lastTick now (cm_decayer cm) in
  let due := visit now d in
  let cm := set_buckets (map (fmap (decayPeer now (tagStore d) due)) (buckets cm)) cm in
  set_decayer (set_store (imap (fun t tag => if bool_decide (t ∈ due) then nextRound tag else tag) (tagStore d)) d) cm.

Definition process_bump (now : Z) (cm : BasicConnMgr) : option BasicConnMgr :=
  match bumpTagCh (cm_decayer cm) with
  | [] => Some cm
  | bmp :: q =>
      let cm := set_decayer (set_bumps q (cm_decayer cm)) cm in
      let peer := bc_peer bmp in
      let t := bc_tag bmp in
      s ← get peer cm;
      let p := tagInfoFor peer now s in
      let v := default (mkDecaying t peer now now 0) (pi_decaying p !! t) in
      tag ← tagStore (cm_decayer cm) !! dv_Tag v;
      let after := dt_bumpFn tag v (bc_delta bmp) in
      let v' := mkDecaying (dv_Tag v) (dv_Peer v) (dv_Added v) now after in
      let p' := set_decaying (<[t := v']> (pi_decaying p)) (wrap64 (pi_value p + wrap64 (after - dv_Value v))) p in
      Some (put peer (<[peer := p']> s) cm)
  end.

Definition process_remove (now : Z) (cm : BasicConnMgr) : option BasicConnMgr :=
  match removeTagCh (cm_decayer cm) with
  | [] => Some cm
  | rm :: q =>
      let cm := set_decayer (set_removes q (cm_decayer cm)) cm in
      s ← get (rc_peer rm) cm;
      let p := tagInfoFor (rc_peer rm) now s in
      let p' :=
        match pi_decaying p !! rc_tag rm with
        | None => p
        | Some v => set_decaying (delete (rc_tag rm) (pi_decaying p)) (wrap64 (pi_value p - dv_Value v)) p
        end in
      Some (put (rc_peer rm) (<[rc_peer rm := p']> s) cm)
  end.

(** One peer of the loop that drops a closed tag. *)
Definition dropTag (t : TagRef) (p : peerInfo) : peerInfo :=
  match pi_decaying p !! t with
  | Some dt => set_decaying (delete t (pi_decaying p)) (wrap64 (pi_value p - dv_Value dt)) p
  | None => p
  end.

Definition process_close (cm : BasicConnMgr) : BasicConnMgr :=
  match closeTagCh (cm_decayer cm) with
  | [] => cm
  | t :: q =>
      let d := set_closes q (cm_decayer cm) in
      let d := set_known (delete (tag_name t d) (knownTags d)) d in
      set_buckets (map (fmap (dropTag t)) (buckets cm)) (set_decayer d cm)
  end.
