(* ===== verification/ConnMgrInv.v ===== *)
(** * The connection manager: its invariant

    The calls of the manager as one type of operations, the states they reach, and what holds in all
    of them: the tracked connections are the live ones, a peer's value is the sum of its tags, and no
    call panics. *)

From stdpp Require Import base gmap list numbers sorting.
From Stdlib Require Import ZArith Lia.
From S2P Require Import Prelude GoSort Limits ConnMgr.

(** ** Wrap-around *)

Lemma wrapi32_add a b : wrapi32 (wrapi32 a + b) = wrapi32 (a + b).
Proof.
  unfold wrapi32. f_equal. replace ((a + 2 ^ 31) mod 2 ^ 32 - 2 ^ 31 + b + 2 ^ 31) with ((a + 2 ^ 31) mod 2 ^ 32 + b) by lia.
  rewrite Zplus_mod_idemp_l. f_equal. lia.
Qed.

Lemma wrap64_add_l a b : wrap64 (wrap64 a + b) = wrap64 (a + b).
Proof.
  unfold wrap64. f_equal. replace ((a + 2 ^ 63) mod 2 ^ 64 - 2 ^ 63 + b + 2 ^ 63) with ((a + 2 ^ 63) mod 2 ^ 64 + b) by lia.
  rewrite Zplus_mod_idemp_l. f_equal. lia.
Qed.
Lemma wrap64_add_r a b : wrap64 (a + wrap64 b) = wrap64 (a + b).
Proof. by rewrite Z.add_comm, wrap64_add_l, Z.add_comm. Qed.
Lemma wrap64_sub_l a b : wrap64 (wrap64 a - b) = wrap64 (a - b).
Proof. unfold Z.sub. apply wrap64_add_l. Qed.

(** ** The peers of all segments as one map *)

Definition peer_at (cm : BasicConnMgr) (p : ID) : option peerInfo := s ← get p cm; s !! p.

(** Every peer is in the segment of its last byte. *)
Definition placed (bs : list segment) : Prop :=
  forall i s p pi, bs !! i = Some s -> s !! p = Some pi -> seg_index p = Some i.

Definition id_ok (p : ID) : Prop := p <> [] /\ bytes_ok p.

#[export] Instance id_ok_dec p : Decision (id_ok p).
Proof. unfold id_ok. apply _. Defined.

Lemma get_total p cm : id_ok p -> length (buckets cm) = 256%nat -> exists s, get p cm = Some s.
Proof.
  intros [Hne Hb] Hl. unfold get, seg_index. destruct (last p) as [b|] eqn:Hp; [|by apply last_None in Hp]. simpl.
  apply lookup_lt_is_Some. rewrite Hl. apply last_Some in Hp as [l' ->].
  apply Forall_app in Hb as [_ Hb]. apply Forall_inv in Hb. unfold is_byte in Hb. lia.
Qed.

Lemma get_Some p cm s : get p cm = Some s -> exists i, seg_index p = Some i /\ buckets cm !! i = Some s.
Proof. unfold get. intros (i & Hi & Hs)%bind_Some. eauto. Qed.

Lemma buckets_put p s cm i : seg_index p = Some i -> buckets (put p s cm) = <[i := s]> (buckets cm).
Proof. unfold put. by intros ->. Qed.

Lemma get_put p s s' q cm :
  get p cm = Some s -> get q (put p s' cm) = if decide (seg_index q = seg_index p) then Some s' else get q cm.
Proof.
  intros (i & Hi & Hs)%get_Some. unfold get. rewrite (buckets_put p s' cm i Hi), Hi.
  destruct (seg_index q) as [j|] eqn:Hj; simpl; [|done]. case_decide as Hd.
  - injection Hd as ->. by rewrite list_lookup_insert_eq by (by eapply lookup_lt_Some).
  - by rewrite list_lookup_insert_ne by congruence.
Qed.

(** What [put] does to the peers: the new segment agrees with the old one but for one peer. *)
Lemma peer_at_put p s s' cm q :
  get p cm = Some s -> (forall r, r <> p -> s' !! r = s !! r) ->
  peer_at (put p s' cm) q = if decide (q = p) then s' !! p else peer_at cm q.
Proof.
  intros Hs Ho. unfold peer_at. rewrite (get_put p s s' q cm Hs). case_decide as Hd; case_decide as Hq; subst; try done.
  - simpl. rewrite Ho by done. unfold get in *. by rewrite Hd, Hs.
Qed.

Lemma peer_at_insert p s pi cm q :
  get p cm = Some s -> peer_at (put p (<[p := pi]> s) cm) q = if decide (q = p) then Some pi else peer_at cm q.
Proof.
  intros Hs. rewrite (peer_at_put p s); [by rewrite lookup_insert_eq|done|]. intros. by rewrite lookup_insert_ne.
Qed.

Lemma peer_at_delete p s cm q :
  get p cm = Some s -> peer_at (put p (delete p s) cm) q = if decide (q = p) then None else peer_at cm q.
Proof.
  intros Hs. rewrite (peer_at_put p s); [by rewrite lookup_delete_eq|done|]. intros. by rewrite lookup_delete_ne.
Qed.

Lemma placed_put p s s' cm :
  placed (buckets cm) -> get p cm = Some s -> (forall r, r <> p -> s' !! r = s !! r) -> placed (buckets (put p s' cm)).
Proof.
  intros Hp (i & Hi & Hs)%get_Some Ho j r q pi. rewrite (buckets_put p s' cm i Hi), list_lookup_insert_Some.
  intros [(<- & -> & _)|[_ Hr]] Hq; [|by eapply Hp]. destruct (decide (q = p)) as [->|Hne]; [done|].
  rewrite Ho in Hq by done. by eapply Hp.
Qed.

Lemma placed_insert p s pi cm : placed (buckets cm) -> get p cm = Some s -> placed (buckets (put p (<[p := pi]> s) cm)).
Proof. intros ? Hs. apply (placed_put p s); [done|done|]. intros. by rewrite lookup_insert_ne. Qed.
Lemma placed_delete p s cm : placed (buckets cm) -> get p cm = Some s -> placed (buckets (put p (delete p s) cm)).
Proof. intros ? Hs. apply (placed_put p s); [done|done|]. intros. by rewrite lookup_delete_ne. Qed.

Lemma length_put p s cm : length (buckets (put p s cm)) = length (buckets cm).
Proof. unfold put. destruct (seg_index p); [|done]. apply length_insert. Qed.

Lemma put_fields p s cm :
  cm_cfg (put p s cm) = cm_cfg cm /\ cm_decayer (put p s cm) = cm_decayer cm /\ protected (put p s cm) = protected cm /\
  connCount (put p s cm) = connCount cm.
Proof. unfold put. by destruct (seg_index p). Qed.

(** A function on every peer. *)
Lemma peer_at_map f cm q : peer_at (set_buckets (map (fmap f) (buckets cm)) cm) q = f <$> peer_at cm q.
Proof.
  unfold peer_at, get. simpl. destruct (seg_index q) as [i|]; [|done]. simpl. rewrite list_lookup_fmap.
  destruct (buckets cm !! i) as [s|]; [|done]. simpl. apply lookup_fmap.
Qed.

Lemma placed_map f bs : placed bs -> placed (map (fmap f) bs).
Proof.
  intros Hp i s p pi. rewrite list_lookup_fmap, fmap_Some. intros (s0 & Hs & ->). rewrite lookup_fmap, fmap_Some.
  intros (pi0 & Hpi & ->). by eapply Hp.
Qed.

Lemma peer_at_buckets cm q cm' : buckets cm' = buckets cm -> peer_at cm' q = peer_at cm q.
Proof. unfold peer_at, get. by intros ->. Qed.

(** ** Operations *)

Inductive cop :=
| OConnected (c : Conn) (now : Z)
| ODisconnected (c : Conn)
| OTagPeer (p : ID) (tag : list Z) (val now : Z)
| OUntagPeer (p : ID) (tag : list Z)
| OUpsertTag (p : ID) (tag : list Z) (upsert : Z -> Z) (now : Z)
| OProtect (id : ID) (tag : list Z)
| OUnprotect (id : ID) (tag : list Z)
| ODoTrim (stat : Conn -> ConnStats) (count now : Z)
| OBackground (stat : Conn -> ConnStats) (now : Z)
| OEmergency (stat : Conn -> ConnStats) (now : Z)
| ORegister (name : list Z) (interval : Z) (decayFn : DecayFn) (bumpFn : BumpFn)
| OBump (t : TagRef) (p : ID) (delta : Z)
| ORemove (t : TagRef) (p : ID)
| OCloseTag (t : TagRef)
| OTick (now : Z)
| OProcessBump (now : Z)
| OProcessRemove (now : Z)
| OProcessClose.

Section runs.
Context `{!SortSlice} (RemotePeer : Conn -> ID).

Definition on_decayer {A} (f : decayer -> option (decayer * A)) (cm : BasicConnMgr) : option BasicConnMgr :=
  '(d, _) ← f (cm_decayer cm); Some (set_decayer d cm).

Definition apply_op (op : cop) (cm : BasicConnMgr) : option BasicConnMgr :=
  match op with
  | OConnected c now => Connected RemotePeer c now cm
  | ODisconnected c => Disconnected RemotePeer c cm
  | OTagPeer p tag val now => TagPeer p tag val now cm
  | OUntagPeer p tag => UntagPeer p tag cm
  | OUpsertTag p tag upsert now => UpsertTag p tag upsert now cm
  | OProtect id tag => Some (Protect id tag cm)
  | OUnprotect id tag => Some (fst (Unprotect id tag cm))
  | ODoTrim stat count now => fst <$> doTrim stat count now cm
  | OBackground stat now => fst <$> background stat now cm
  | OEmergency stat now => Some (fst (memoryEmergency stat now cm))
  | ORegister name interval decayFn bumpFn => on_decayer (RegisterDecayingTag name interval decayFn bumpFn) cm
  | OBump t p delta => on_decayer (Bump t p delta) cm
  | ORemove t p => on_decayer (Remove t p) cm
  | OCloseTag t => on_decayer (Tag_Close t) cm
  | OTick now => Some (process_tick now cm)
  | OProcessBump now => process_bump now cm
  | OProcessRemove now => process_remove now cm
  | OProcessClose => Some (process_close cm)
  end.

(** The connections that are open, by the notifications so far. *)
Definition live_after (op : cop) (live : gset Conn) : gset Conn :=
  match op with
  | OConnected c _ => {[c]} ∪ live
  | ODisconnected c => live ∖ {[c]}
  | _ => live
  end.

(** Peers have an ID, and only registered tags are used. *)
Definition op_ok (cm : BasicConnMgr) (op : cop) : Prop :=
  match op with
  | OConnected c _ | ODisconnected c => id_ok (RemotePeer c)
  | OTagPeer p _ _ _ | OUntagPeer p _ | OUpsertTag p _ _ _ => id_ok p
  | OBump t p _ | ORemove t p => id_ok p /\ (t < length (tagStore (cm_decayer cm)))%nat
  | OCloseTag t => (t < length (tagStore (cm_decayer cm)))%nat
  | _ => True
  end.

Inductive reach : BasicConnMgr -> gset Conn -> Prop :=
| reach_new low hi opts now cm :
    NewConnManager low hi opts now = Ok cm -> Resolution (cm_decayer cm) <> 0 -> reach cm ∅
| reach_op cm live op cm' :
    reach cm live -> op_ok cm op -> apply_op op cm = Some cm' -> reach cm' (live_after op live).

(** ** The invariant *)

Definition tag_sum (pi : peerInfo) : Z :=
  msum (fun _ v => v) (pi_tags pi) + msum (fun _ v => dv_Value v) (pi_decaying pi).

Record peer_ok (ntags : nat) (live : gset Conn) (p : ID) (pi : peerInfo) : Prop := {
  po_id : pi_id pi = p;
  po_value : pi_value pi = wrap64 (tag_sum pi);
  po_temp : pi_temp pi = bool_decide (pi_conns pi = ∅);
  po_conns : forall c, is_Some (pi_conns pi !! c) <-> c ∈ live /\ RemotePeer c = p;
  po_decaying : forall t v, pi_decaying pi !! t = Some v -> dv_Tag v = t /\ dv_Peer v = p /\ (t < ntags)%nat
}.

Record decayer_ok (d : decayer) : Prop := {
  do_resolution : Resolution d <> 0;
  do_bumps : Forall (fun b => id_ok (bc_peer b) /\ (bc_tag b < length (tagStore d))%nat) (bumpTagCh d);
  do_removes : Forall (fun r => id_ok (rc_peer r)) (removeTagCh d)
}.

Record cm_ok (cm : BasicConnMgr) (live : gset Conn) : Prop := {
  ok_len : length (buckets cm) = 256%nat;
  ok_placed : placed (buckets cm);
  ok_peers : forall p pi, peer_at cm p = Some pi -> peer_ok (length (tagStore (cm_decayer cm))) live p pi;
  ok_live : forall c, c ∈ live -> is_Some (peer_at cm (RemotePeer c));
  ok_count : connCount cm = wrapi32 (Z.of_nat (size live));
  ok_protected : forall id ts, protected cm !! id = Some ts -> ts <> ∅;
  ok_decayer : decayer_ok (cm_decayer cm)
}.

Lemma peer_ok_new n live p now :
  (forall c, c ∈ live -> RemotePeer c <> p) -> peer_ok n live p (newPeer p now true).
Proof.
  intros Hc. split; simpl; [done|done|by rewrite bool_decide_true| |done].
  intros c. rewrite lookup_empty. split; [by intros []|]. intros [Hl Hp]. by destruct (Hc c).
Qed.

(** The entry an operation on tags works on. *)
Lemma tagInfoFor_ok cm live p s now :
  cm_ok cm live -> get p cm = Some s ->
  peer_ok (length (tagStore (cm_decayer cm))) live p (tagInfoFor p now s).
Proof.
  intros Ok Hs. assert (peer_at cm p = s !! p) as Hp by (unfold peer_at; by rewrite Hs).
  unfold tagInfoFor. destruct (s !! p) as [pi|] eqn:Hpi; [by apply Ok|].
  apply peer_ok_new. intros c Hc <-. destruct (ok_live _ _ Ok c Hc) as [? Hsome]. congruence.
Qed.

(** An operation that changes the entry of one peer, and neither its connections nor the tags. *)
Lemma ok_put_insert cm live p s pi :
  cm_ok cm live -> get p cm = Some s -> peer_ok (length (tagStore (cm_decayer cm))) live p pi ->
  cm_ok (put p (<[p := pi]> s) cm) live.
Proof.
  intros Ok Hs Hpi. destruct (put_fields p (<[p := pi]> s) cm) as (_ & Hd & Hpr & Hc).
  split; rewrite ?Hd, ?Hpr, ?Hc; try apply Ok.
  - rewrite length_put. apply Ok.
  - apply placed_insert; [apply Ok|done].
  - intros q pi'. rewrite (peer_at_insert p s) by done. case_decide; [subst; congruence|apply Ok].
  - intros c Hl. rewrite (peer_at_insert p s) by done. case_decide; [done|by apply Ok].
Qed.

(** ** Tags *)

Lemma msum_set `{Countable K} {A} (f : K -> A -> Z) m k v :
  msum f (<[k := v]> m) = msum f m - default 0 (f k <$> m !! k) + f k v.
Proof.
  destruct (m !! k) as [w|] eqn:Hk; simpl; [by apply msum_update|]. rewrite msum_insert by done. lia.
Qed.
Lemma msum_unset `{Countable K} {A} (f : K -> A -> Z) m k :
  msum f (delete k m) = msum f m - default 0 (f k <$> m !! k).
Proof.
  destruct (m !! k) as [w|] eqn:Hk; simpl; [rewrite (msum_delete f m k w Hk); lia|]. rewrite delete_id by done. lia.
Qed.

Lemma tag_of_eq tag pi : tag_of tag pi = default 0 ((fun v => v) <$> pi_tags pi !! tag).
Proof. unfold tag_of. by destruct (pi_tags pi !! tag). Qed.

Lemma peer_ok_tags n live p pi tags value :
  peer_ok n live p pi -> value = wrap64 (tag_sum (set_tags tags value pi)) -> peer_ok n live p (set_tags tags value pi).
Proof. intros Hp Hv. split; simpl; [apply Hp|done|apply Hp|apply Hp|apply Hp]. Qed.

Lemma peer_ok_decaying n live p pi d value :
  peer_ok n live p pi -> value = wrap64 (tag_sum (set_decaying d value pi)) ->
  (forall t v, d !! t = Some v -> dv_Tag v = t /\ dv_Peer v = p /\ (t < n)%nat) ->
  peer_ok n live p (set_decaying d value pi).
Proof. intros Hp Hv Hd. split; simpl; [apply Hp|done|apply Hp|apply Hp|done]. Qed.

(** Both arithmetic steps of the code give the wrapped sum. *)
Ltac wrap_sum := rewrite ?wrap64_add_r, ?wrap64_add_l, ?wrap64_sub_l; f_equal; unfold tag_sum; simpl.

Lemma peer_ok_settag n live p pi tag val :
  peer_ok n live p pi ->
  peer_ok n live p (set_tags (<[tag := val]> (pi_tags pi)) (wrap64 (pi_value pi + wrap64 (val - tag_of tag pi))) pi).
Proof.
  intros Hp. apply peer_ok_tags; [done|]. rewrite (po_value _ _ _ _ Hp). wrap_sum. rewrite msum_set, tag_of_eq. lia.
Qed.

Lemma peer_ok_untag n live p pi tag :
  peer_ok n live p pi -> peer_ok n live p (set_tags (delete tag (pi_tags pi)) (wrap64 (pi_value pi - tag_of tag pi)) pi).
Proof.
  intros Hp. apply peer_ok_tags; [done|]. rewrite (po_value _ _ _ _ Hp). wrap_sum. rewrite msum_unset, tag_of_eq. lia.
Qed.

Lemma peer_ok_setdecay n live p pi t v a :
  peer_ok n live p pi -> dv_Tag v = t -> dv_Peer v = p -> (t < n)%nat -> a = default 0 (dv_Value <$> pi_decaying pi !! t) ->
  peer_ok n live p (set_decaying (<[t := v]> (pi_decaying pi)) (wrap64 (pi_value pi + wrap64 (dv_Value v - a))) pi).
Proof.
  intros Hp Ht Hpr Hn ->. apply peer_ok_decaying; [done| |].
  - rewrite (po_value _ _ _ _ Hp). wrap_sum. rewrite (msum_set (fun _ v => dv_Value v)).
    destruct (pi_decaying pi !! t); simpl; lia.
  - intros u w [[<- <-]|[_ Hw]]%lookup_insert_Some; [done|]. by apply Hp.
Qed.

Lemma peer_ok_undecay n live p pi t v b :
  peer_ok n live p pi -> pi_decaying pi !! t = Some v -> wrap64 b = wrap64 (pi_value pi - dv_Value v) ->
  peer_ok n live p (set_decaying (delete t (pi_decaying pi)) (wrap64 b) pi).
Proof.
  intros Hp Ht Hb. apply peer_ok_decaying; [done| |].
  - rewrite Hb, (po_value _ _ _ _ Hp). wrap_sum. rewrite (msum_unset (fun _ v => dv_Value v)), Ht. simpl. lia.
  - intros u w [_ Hw]%lookup_delete_Some. by apply Hp.
Qed.

Lemma TagPeer_ok cm live p tag val now :
  cm_ok cm live -> id_ok p -> exists cm', TagPeer p tag val now cm = Some cm' /\ cm_ok cm' live.
Proof.
  intros Ok Hp. destruct (get_total p cm Hp (ok_len _ _ Ok)) as [s Hs]. unfold TagPeer. rewrite Hs. simpl.
  eexists. split; [done|]. by apply ok_put_insert, peer_ok_settag, tagInfoFor_ok.
Qed.

Lemma UpsertTag_ok cm live p tag f now :
  cm_ok cm live -> id_ok p -> exists cm', UpsertTag p tag f now cm = Some cm' /\ cm_ok cm' live.
Proof.
  intros Ok Hp. destruct (get_total p cm Hp (ok_len _ _ Ok)) as [s Hs]. unfold UpsertTag. rewrite Hs. simpl.
  eexists. split; [done|]. by apply ok_put_insert, peer_ok_settag, tagInfoFor_ok.
Qed.

Lemma UntagPeer_ok cm live p tag :
  cm_ok cm live -> id_ok p -> exists cm', UntagPeer p tag cm = Some cm' /\ cm_ok cm' live.
Proof.
  intros Ok Hp. destruct (get_total p cm Hp (ok_len _ _ Ok)) as [s Hs]. unfold UntagPeer. rewrite Hs. simpl.
  destruct (s !! p) as [pi|] eqn:Hpi; eexists; (split; [done|]); [|done].
  apply ok_put_insert; [done|done|]. apply peer_ok_untag, (ok_peers _ _ Ok). unfold peer_at. by rewrite Hs.
Qed.

(** ** Connections *)

(** A notification about a connection of peer [p]. *)
Lemma ok_put_conns cm live live' p s s' k :
  cm_ok cm live -> get p cm = Some s -> (forall r, r <> p -> s' !! r = s !! r) ->
  (forall pi, s' !! p = Some pi -> peer_ok (length (tagStore (cm_decayer cm))) live' p pi) ->
  (forall c, RemotePeer c <> p -> c ∈ live' <-> c ∈ live) ->
  (forall c, c ∈ live' -> RemotePeer c = p -> is_Some (s' !! p)) ->
  Z.of_nat (size live') = Z.of_nat (size live) + k ->
  cm_ok (add_connCount k (put p s' cm)) live'.
Proof.
  intros Ok Hs Ho Hpi Hl Hp Hk. destruct (put_fields p s' cm) as (_ & Hd & Hpr & Hc).
  split; simpl; rewrite ?Hd, ?Hpr, ?Hc; try apply Ok.
  - rewrite length_put. apply Ok.
  - apply (placed_put p s); [apply Ok|done|done].
  - intros q pi Hq. rewrite (peer_at_buckets (put p s' cm)) in Hq by done. rewrite (peer_at_put p s) in Hq by done.
    case_decide as Hd'; [subst; by apply Hpi|]. destruct (ok_peers _ _ Ok q pi Hq) as [H1 H2 H3 H4 H5].
    split; [done|done|done| |done]. intros c. rewrite H4. split; intros [Hc1 Hc2]; (split; [|done]); apply Hl; congruence.
  - intros c Hlc. rewrite (peer_at_buckets (put p s' cm)), (peer_at_put p s) by done.
    case_decide as Hd'; [by eapply Hp|]. by apply (ok_live _ _ Ok), Hl.
  - by rewrite (ok_count _ _ Ok), wrapi32_add, Hk.
Qed.

(** The entry [Connected] adds a connection to. *)
Lemma Connected_entry cm live id s now pi :
  cm_ok cm live -> get id cm = Some s ->
  pi = match s !! id with
       | None => newPeer id now false
       | Some pi =>
           if pi_temp pi then mkPeer (pi_id pi) (pi_tags pi) (pi_decaying pi) (pi_value pi) false (pi_conns pi) now
           else pi
       end ->
  exists pi0, peer_ok (length (tagStore (cm_decayer cm))) live id pi0 /\
    pi_id pi = pi_id pi0 /\ pi_tags pi = pi_tags pi0 /\ pi_decaying pi = pi_decaying pi0 /\ pi_value pi = pi_value pi0 /\
    pi_conns pi = pi_conns pi0 /\ pi_temp pi = false /\ (forall c, is_Some (pi_conns pi !! c) -> s !! id = Some pi).
Proof.
  intros Ok Hs ->. pose proof (tagInfoFor_ok cm live id s now Ok Hs) as Hok. exists (tagInfoFor id now s). split; [done|].
  unfold tagInfoFor in *. destruct (s !! id) as [pi|] eqn:Hpi.
  - destruct (pi_temp pi) eqn:Ht; repeat split; try done. simpl. intros c [t Hc].
    rewrite (po_temp _ _ _ _ Hok) in Ht. apply bool_decide_eq_true in Ht. by rewrite Ht in Hc.
  - repeat split. simpl. intros c [t Hc]. by rewrite lookup_empty in Hc.
Qed.

Lemma Connected_ok cm live c now :
  cm_ok cm live -> id_ok (RemotePeer c) ->
  exists cm', Connected RemotePeer c now cm = Some cm' /\ cm_ok cm' ({[c]} ∪ live).
Proof.
  intros Ok Hid. set (id := RemotePeer c) in *. destruct (get_total id cm Hid (ok_len _ _ Ok)) as [s Hs].
  unfold Connected. fold id. rewrite Hs. cbn [mbind option_bind]. match goal with |- context [pi_conns ?x !! c] => remember x as pi eqn:Epi end.
  destruct (Connected_entry cm live id s now pi Ok Hs Epi) as (pi0 & Hok & E1 & E2 & E3 & E4 & E5 & E6 & E7). clear Epi.
  pose proof (po_conns _ _ _ _ Hok c) as Hc. rewrite <- E5 in Hc.
  destruct (pi_conns pi !! c) as [t|] eqn:Hcc; eexists; (split; [done|]).
  - assert ({[c]} ∪ live = live) as -> by (destruct Hc as [[??] _]; [done|set_solver]).
    rewrite insert_id by (eapply E7; by rewrite Hcc). destruct (get_Some _ _ _ Hs) as (i & Hi & Hb).
    unfold put. rewrite Hi, list_insert_id by done. by destruct cm.
  - assert (c ∉ live) as Hnl by (intros Hl; destruct Hc as [_ [? Hx]]; done).
    apply (ok_put_conns cm live _ id s); [done|done| | | | |].
    + intros. by rewrite lookup_insert_ne.
    + intros pi'. rewrite lookup_insert_eq. intros [= <-]. split; simpl.
      * rewrite E1. apply Hok.
      * rewrite E4, (po_value _ _ _ _ Hok). unfold tag_sum. simpl. by rewrite E2, E3.
      * rewrite E6. symmetry. apply bool_decide_eq_false. apply insert_non_empty.
      * intros c'. destruct (decide (c' = c)) as [->|Hne].
        { rewrite lookup_insert_eq. split; [set_solver|done]. }
        rewrite lookup_insert_ne, E5, (po_conns _ _ _ _ Hok) by done. set_solver.
      * rewrite E3. apply Hok.
    + intros c' Hc'. assert (c' <> c) by (intros ->; done). set_solver.
    + intros. by rewrite lookup_insert_eq.
    + rewrite size_union, size_singleton by set_solver. lia.
Qed.

Lemma Disconnected_ok cm live c :
  cm_ok cm live -> id_ok (RemotePeer c) ->
  exists cm', Disconnected RemotePeer c cm = Some cm' /\ cm_ok cm' (live ∖ {[c]}).
Proof.
  intros Ok Hid. set (p := RemotePeer c) in *. destruct (get_total p cm Hid (ok_len _ _ Ok)) as [s Hs].
  unfold Disconnected. fold p. rewrite Hs. simpl. assert (peer_at cm p = s !! p) as Hat by (unfold peer_at; by rewrite Hs).
  destruct (s !! p) as [pi|] eqn:Hpi.
  2:{ eexists; split; [done|]. assert (live ∖ {[c]} = live) as ->; [|done]. assert (c ∉ live); [|set_solver].
      intros Hl. destruct (ok_live _ _ Ok c Hl) as [? Hx]. fold p in Hx. congruence. }
  pose proof (ok_peers _ _ Ok p pi Hat) as Hok. pose proof (po_conns _ _ _ _ Hok) as Hc.
  destruct (pi_conns pi !! c) as [t|] eqn:Hcc.
  2:{ eexists; split; [done|]. assert (live ∖ {[c]} = live) as ->; [|done]. assert (c ∉ live); [|set_solver].
      intros Hl. destruct (proj2 (Hc c)) as [? Hx]; [done|congruence]. }
  eexists. split; [done|]. assert (c ∈ live) as Hl by (apply (Hc c); by rewrite Hcc).
  assert (forall c', is_Some (delete c (pi_conns pi) !! c') <-> c' ∈ live ∖ {[c]} /\ RemotePeer c' = p) as Hd.
  { intros c'. destruct (decide (c' = c)) as [->|Hne].
    - rewrite lookup_delete_eq. split; [by intros []|set_solver].
    - rewrite lookup_delete_ne, Hc by done. set_solver. }
  apply (ok_put_conns cm live _ p s); [done|done| | | | |].
  - intros r Hr. case_bool_decide; [by rewrite lookup_delete_ne|by rewrite lookup_insert_ne].
  - intros pi'. case_bool_decide as He; [by rewrite lookup_delete_eq|]. rewrite lookup_insert_eq. intros [= <-].
    split; simpl; [apply Hok|apply Hok| |done|apply Hok]. rewrite (po_temp _ _ _ _ Hok).
    rewrite !bool_decide_false; [done|done|]. intros Hx. by rewrite Hx, lookup_empty in Hcc.
  - intros c' Hc'. assert (c' <> c) by (intros ->; done). set_solver.
  - intros c' Hc' Hp'. case_bool_decide as He; [|by rewrite lookup_insert_eq]. exfalso.
    destruct (proj2 (Hd c')) as [? Hx]; [done|]. by rewrite He, lookup_empty in Hx.
  - rewrite size_difference, size_singleton by set_solver. assert (size live <> 0)%nat; [|lia].
    intros Hz%size_empty_inv. set_solver.
Qed.

(** ** Trimming *)

(** The entry of a peer without connections is removed. *)
Lemma ok_put_delete cm live p s :
  cm_ok cm live -> get p cm = Some s -> (forall c, c ∈ live -> RemotePeer c <> p) -> cm_ok (put p (delete p s) cm) live.
Proof.
  intros Ok Hs Hl. destruct (put_fields p (delete p s) cm) as (_ & Hd & Hpr & Hc).
  split; rewrite ?Hd, ?Hpr, ?Hc; try apply Ok.
  - rewrite length_put. apply Ok.
  - apply placed_delete; [apply Ok|done].
  - intros q pi'. rewrite (peer_at_delete p s) by done. case_decide; [done|apply Ok].
  - intros c Hlc. rewrite (peer_at_delete p s) by done. case_decide as He; [by destruct (Hl c)|by apply Ok].
Qed.

Lemma elem_of_entries (bs : list segment) p pi :
  (p, pi) ∈ concat (map map_to_list bs) <-> exists i s, bs !! i = Some s /\ s !! p = Some pi.
Proof.
  rewrite list_elem_of_In, in_concat. split.
  - intros (l & (s & <- & Hs)%in_map_iff & Hin%list_elem_of_In%elem_of_map_to_list).
    apply list_elem_of_In, list_elem_of_lookup in Hs as [i Hi]. eauto.
  - intros (i & s & Hi & Hp). exists (map_to_list s). split.
    + apply in_map, list_elem_of_In. by apply list_elem_of_lookup_2 in Hi.
    + by apply list_elem_of_In, elem_of_map_to_list.
Qed.

Lemma elem_of_collect keep cm inf :
  placed (buckets cm) -> inf ∈ collect keep cm <-> exists p, peer_at cm p = Some inf /\ keep p inf = true.
Proof.
  intros Hpl. unfold collect. rewrite list_elem_of_fmap. split.
  - intros ([p pi] & -> & [Hk Hin]%list_elem_of_filter). simpl in *. exists p. split; [|done].
    apply elem_of_entries in Hin as (i & s & Hi & Hin). unfold peer_at, get. rewrite (Hpl i s p pi Hi Hin). simpl. by rewrite Hi.
  - intros (p & Hp & Hk). exists (p, inf). split; [done|]. apply list_elem_of_filter. split; [done|].
    unfold peer_at in Hp. apply bind_Some in Hp as (s & (i & Hi & Hs)%get_Some & Hp).
    apply elem_of_entries. eauto.
Qed.

Lemma NoDup_keys (bs : list segment) :
  (forall i j s t p, bs !! i = Some s -> bs !! j = Some t -> is_Some (s !! p) -> is_Some (t !! p) -> i = j) ->
  NoDup (map fst (concat (map map_to_list bs))).
Proof.
  induction bs as [|s bs IH]; intros Hd; [constructor|]. simpl. rewrite map_app. apply NoDup_app. split_and!.
  - apply NoDup_fst_map_to_list.
  - intros p ([q pi] & -> & Hq%elem_of_map_to_list)%list_elem_of_fmap ([q' pi'] & Heq & Hin)%list_elem_of_fmap.
    simpl in *. subst q'. apply elem_of_entries in Hin as (j & t & Hj & Hin).
    by specialize (Hd 0%nat (S j) s t q eq_refl Hj (mk_is_Some _ _ Hq) (mk_is_Some _ _ Hin)).
  - apply IH. intros i j s' t' p Hi Hj Hs Ht. by injection (Hd (S i) (S j) s' t' p Hi Hj Hs Ht).
Qed.

Lemma collect_ids keep cm live : cm_ok cm live -> NoDup (map pi_id (collect keep cm)).
Proof.
  intros Ok. assert (Hpl := ok_placed _ _ Ok). unfold collect. rewrite map_map.
  assert (NoDup (map fst (filter (fun e => keep (fst e) (snd e) = true) (concat (map map_to_list (buckets cm)))))) as Hnd.
  { eapply sublist_NoDup; [|apply (fmap_sublist fst), sublist_filter]. apply NoDup_keys.
    intros i j s t p Hi Hj [? Hs] [? Ht]. pose proof (Hpl i s p _ Hi Hs). pose proof (Hpl j t p _ Hj Ht). congruence. }
  erewrite map_ext_Forall; [exact Hnd|]. apply Forall_forall. intros [p pi] Hin. simpl.
  apply list_elem_of_filter in Hin as [_ Hin]. apply elem_of_entries in Hin as (i & s & Hi & Hin).
  eapply (po_id _ _ _ pi), (ok_peers _ _ Ok). unfold peer_at, get. rewrite (Hpl i s p pi Hi Hin). simpl. by rewrite Hi.
Qed.

Lemma collect_at keep cm live inf : cm_ok cm live -> inf ∈ collect keep cm -> peer_at cm (pi_id inf) = Some inf.
Proof.
  intros Ok (p & Hp & _)%(elem_of_collect keep cm inf (ok_placed _ _ Ok)). by rewrite (po_id _ _ _ _ (ok_peers _ _ Ok p inf Hp)).
Qed.

Definition untouched (cm cm' : BasicConnMgr) : Prop :=
  cm_cfg cm' = cm_cfg cm /\ cm_decayer cm' = cm_decayer cm /\ protected cm' = protected cm /\ connCount cm' = connCount cm.

(** The loop closes all connections of the first peers, as many as the target needs, and forgets the
    temporary entries among them. *)
Lemma selectConns_spec live l : forall target cm sel,
  cm_ok cm live -> (forall inf, inf ∈ l -> peer_at cm (pi_id inf) = Some inf) -> NoDup (map pi_id l) ->
  exists cm' ps ks, selectConns target l cm sel = Some (cm', sel ++ concat (map conns_of ps)) /\ l = ps ++ ks /\
    (ks = [] \/ target <= nconns_all ps) /\ (forall qs x, ps = qs ++ [x] -> nconns_all qs < target) /\
    cm_ok cm' live /\ untouched cm cm' /\
    (forall q pi, peer_at cm' q = Some pi <-> peer_at cm q = Some pi /\ ~ (pi ∈ ps /\ pi_temp pi = true)).
Proof.
  induction l as [|inf l IH]; intros target cm sel Ok Hat Hnd; simpl.
  - exists cm, [], []. split_and!; try done; [by rewrite app_nil_r|by left| |set_solver]. by intros [] ?.
  - destruct (target <=? 0) eqn:Ht; bool_props.
    { exists cm, [], (inf :: l). split_and!; try done; [by rewrite app_nil_r|right; simpl; lia| |set_solver]. by intros [] ?. }
    pose proof (Hat inf ltac:(left)) as Hinf. assert (Hs := Hinf). apply bind_Some in Hs as (s & Hs & Hsi). rewrite Hs. simpl.
    apply NoDup_cons in Hnd as [Hni Hnd]. pose proof (ok_peers _ _ Ok _ _ Hinf) as Hok.
    assert (forall x, x ∈ l -> pi_id x <> pi_id inf) as Hne by (intros x Hx Heq; apply Hni, list_elem_of_fmap; eauto).
    assert (0 <= nconns inf) by (unfold nconns; lia).
    destruct ((nconns inf =? 0) && pi_temp inf) eqn:He; bool_props.
    + destruct (IH target (put (pi_id inf) (delete (pi_id inf) s) cm) sel) as (cm' & ps & ks & -> & -> & G1 & G2 & G3 & G4 & G5); [| |done|].
      { apply ok_put_delete; [done|done|]. intros c Hc Hp. assert (is_Some (pi_conns inf !! c)) as [? Hx] by by apply Hok.
        assert (pi_conns inf = ∅) as Hemp by (apply map_size_empty_inv; unfold nconns in *; lia). by rewrite Hemp, lookup_empty in Hx. }
      { intros x Hx. rewrite (peer_at_delete _ s) by done. rewrite decide_False by auto. apply Hat. by right. }
      exists cm', (inf :: ps), ks. split_and!; try done.
      * simpl. assert (conns_of inf = []) as ->; [|done]. unfold conns_of. apply nil_length_inv.
        rewrite length_map, length_map_to_list. unfold nconns in *. lia.
      * destruct G1; [by left|right; simpl; lia].
      * intros [|y qs] x [= <- Heq]; [simpl; lia|]. specialize (G2 _ _ Heq). simpl. lia.
      * destruct (put_fields (pi_id inf) (delete (pi_id inf) s) cm) as (E1 & E2 & E3 & E4). unfold untouched in *.
        by rewrite E1, E2, E3, E4 in G4.
      * intros q pi. rewrite G5, (peer_at_delete _ s) by done. case_decide as Hq.
        { subst q. split; [by intros []|]. intros [Hp Hn]. rewrite Hinf in Hp. injection Hp as <-. destruct Hn. split; [left|done]. }
        assert (peer_at cm q = Some pi -> pi <> inf) as Hpi.
        { intros Hp ->. apply Hq. symmetry. apply (ok_peers _ _ Ok _ _ Hp). }
        split; intros [Hp Hn]; (split; [done|]); intros [Hin Htm]; apply Hn; (split; [|done]); [|by right].
        apply elem_of_cons in Hin as [->|]; [by destruct Hpi|done].
    + destruct (IH (target - nconns inf) cm (sel ++ conns_of inf)) as (cm' & ps & ks & -> & -> & G1 & G2 & G3 & G4 & G5); [done| |done|].
      { intros x Hx. apply Hat. by right. }
      exists cm', (inf :: ps), ks. split_and!; try done.
      * simpl. by rewrite app_assoc.
      * destruct G1; [by left|right; simpl; lia].
      * intros [|y qs] x [= <- Heq]; [simpl; lia|]. specialize (G2 _ _ Heq). simpl. lia.
      * intros q pi. rewrite G5. split; intros [Hp Hn]; (split; [done|]); intros [Hin Htm]; apply Hn; (split; [|done]); [|by right].
        apply elem_of_cons in Hin as [->|]; [|done]. exfalso. rewrite (po_temp _ _ _ _ Hok) in Htm.
        apply bool_decide_eq_true in Htm. apply andb_false_iff in He as [He|He]; bool_props.
        { unfold nconns in He. by rewrite Htm, map_size_empty in He. }
        by rewrite (po_temp _ _ _ _ Hok), bool_decide_true in He.
Qed.

Ltac stays_idle := eexists _, []; do 3 (split; [done|]); left; do 2 (split; [done|]); tauto.

Lemma getConnsToClose_spec stat now cm live :
  cm_ok cm live ->
  exists cm' sel, getConnsToClose stat now cm = Some (cm', sel) /\ cm_ok cm' live /\ untouched cm cm' /\
    let cands := collect (outOfGrace now cm) cm in
    let low := lowWater (cm_cfg cm) in
    (cm' = cm /\ sel = [] /\
      (low = 0 \/ highWater (cm_cfg cm) = 0 \/ connCount cm <= low \/ nconns_all cands < low)) \/
    (connCount cm > low /\ exists ps ks, SortByValueAndStreams stat false cands = ps ++ ks /\
      sel = concat (map conns_of ps) /\
      (ks = [] \/ nconns_all cands - low <= nconns_all ps) /\
      (forall qs x, ps = qs ++ [x] -> nconns_all qs < nconns_all cands - low) /\
      (forall q pi, peer_at cm' q = Some pi <-> peer_at cm q = Some pi /\ ~ (pi ∈ ps /\ pi_temp pi = true))).
Proof.
  intros Ok. unfold getConnsToClose. set (low := lowWater (cm_cfg cm)). set (cands := collect (outOfGrace now cm) cm).
  destruct (low =? 0) eqn:E1; simpl; bool_props; [stays_idle|].
  destruct (highWater (cm_cfg cm) =? 0) eqn:E2; bool_props; [stays_idle|].
  destruct (connCount cm <=? low) eqn:E3; bool_props; [stays_idle|].
  destruct (nconns_all cands <? low) eqn:E4; bool_props; [stays_idle|].
  assert (SortByValueAndStreams stat false cands ≡ₚ cands) as Hperm by apply sortSlice_perm.
  destruct (selectConns_spec live (SortByValueAndStreams stat false cands) (nconns_all cands - low) cm [])
    as (cm' & ps & ks & -> & Hl & G1 & G2 & G3 & G4 & G5); [done| | |].
  - intros inf Hin. rewrite Hperm in Hin. by eapply collect_at.
  - rewrite Hperm. by eapply collect_ids.
  - exists cm', (concat (map conns_of ps)). split_and!; [done|done|done|]. right. split; [lia|]. by exists ps, ks.
Qed.

(** Changes outside the peers. *)
Lemma ok_same cm cm' live :
  cm_ok cm live -> buckets cm' = buckets cm -> cm_decayer cm' = cm_decayer cm -> connCount cm' = connCount cm ->
  (forall id ts, protected cm' !! id = Some ts -> ts <> ∅) -> cm_ok cm' live.
Proof.
  intros Ok Hb Hd Hc Hp. split; rewrite ?Hb, ?Hd, ?Hc; try apply Ok; [| |done].
  - intros p pi. rewrite (peer_at_buckets cm) by done. apply Ok.
  - intros c Hl. rewrite (peer_at_buckets cm) by done. by apply Ok.
Qed.

Lemma trimmed_ok now cm live : cm_ok cm live -> cm_ok (trimmed now cm) live.
Proof. intros Ok. by apply (ok_same cm); try apply Ok. Qed.

Lemma Protect_ok id tag cm live : cm_ok cm live -> cm_ok (Protect id tag cm) live.
Proof.
  intros Ok. apply (ok_same cm); [done..|]. simpl. intros id' ts [[<- <-]|[_ Ht]]%lookup_insert_Some; [set_solver|by eapply Ok].
Qed.

Lemma Unprotect_ok id tag cm live : cm_ok cm live -> cm_ok (fst (Unprotect id tag cm)) live.
Proof.
  intros Ok. unfold Unprotect. destruct (protected cm !! id) as [ts|] eqn:Hi; [|done]. case_bool_decide as He; simpl.
  - apply (ok_same cm); [done..|]. simpl. intros id' ts' [_ Ht]%lookup_delete_Some. by eapply Ok.
  - apply (ok_same cm); [done..|]. simpl. intros id' ts' [[<- <-]|[_ Ht]]%lookup_insert_Some; [done|by eapply Ok].
Qed.

(** ** The decayer *)

Lemma peer_ok_mono n n' live p pi : (n <= n')%nat -> peer_ok n live p pi -> peer_ok n' live p pi.
Proof. intros Hn [G1 G2 G3 G4 G5]. split; [done..|]. intros t v Ht. destruct (G5 t v Ht) as (? & ? & ?). split_and!; [done|done|lia]. Qed.

Lemma ok_set_decayer cm live d :
  cm_ok cm live -> decayer_ok d -> (length (tagStore (cm_decayer cm)) <= length (tagStore d))%nat -> cm_ok (set_decayer d cm) live.
Proof.
  intros Ok Hd Hn. split; simpl; try apply Ok; [|done]. intros p pi Hp. eapply peer_ok_mono; [done|]. by apply Ok.
Qed.

(** A peer of which every entry is changed in the same way. *)
Lemma ok_map cm live f :
  cm_ok cm live ->
  (forall p pi, peer_ok (length (tagStore (cm_decayer cm))) live p pi -> peer_ok (length (tagStore (cm_decayer cm))) live p (f pi)) ->
  cm_ok (set_buckets (map (fmap f) (buckets cm)) cm) live.
Proof.
  intros Ok Hf. split; simpl; try apply Ok.
  - rewrite length_map. apply Ok.
  - apply placed_map, Ok.
  - intros p pi. rewrite peer_at_map. intros (pi0 & Hp & ->)%fmap_Some. by apply Hf, Ok.
  - intros c Hc. rewrite peer_at_map. apply fmap_is_Some. by apply Ok.
Qed.

(** What a tick makes of one value. *)
Definition decayed (now : Z) (st : list decayingTag) (due : gset TagRef) (t : TagRef) (v : DecayingValue) : option DecayingValue :=
  match st !! t with
  | Some tag =>
      if bool_decide (t ∈ due) then
        let '(after, rm) := dt_decayFn tag now v in
        if rm then None else Some (mkDecaying (dv_Tag v) (dv_Peer v) (dv_Added v) now after)
      else Some v
  | None => Some v
  end.

Lemma decayValue_ok now st due n live q p t v :
  peer_ok n live q p -> pi_decaying p !! t = Some v ->
  let p' := decayValue now st due p (t, v) in
  peer_ok n live q p' /\ pi_decaying p' !! t = decayed now st due t v /\
  (forall u, u <> t -> pi_decaying p' !! u = pi_decaying p !! u) /\ pi_conns p' = pi_conns p /\ pi_tags p' = pi_tags p.
Proof.
  intros Hp Ht. unfold decayValue, decayed. destruct (st !! t) as [tag|]; [|done]. case_bool_decide; [|done].
  destruct (dt_decayFn tag now v) as [after rm]. destruct rm; simpl.
  - split_and!; [|apply lookup_delete_eq|intros; by apply lookup_delete_ne|done|done].
    apply (peer_ok_undecay _ _ _ _ _ v); [done|done|]. by rewrite wrap64_add_r.
  - split_and!; [|apply lookup_insert_eq|intros; by apply lookup_insert_ne|done|done]. destruct (po_decaying _ _ _ _ Hp t v Ht) as (? & ? & ?).
    apply (peer_ok_setdecay n live q p t (mkDecaying (dv_Tag v) (dv_Peer v) (dv_Added v) now after)); [done..|]. by rewrite Ht.
Qed.

Lemma decayPeer_ok now st due n live q p :
  peer_ok n live q p ->
  let p' := decayPeer now st due p in
  peer_ok n live q p' /\ (forall t, pi_decaying p' !! t = v ← pi_decaying p !! t; decayed now st due t v) /\
  pi_conns p' = pi_conns p /\ pi_tags p' = pi_tags p.
Proof.
  intros Hp. unfold decayPeer.
  assert (forall l p0, NoDup (map fst l) -> peer_ok n live q p0 -> (forall t v, (t, v) ∈ l -> pi_decaying p0 !! t = Some v) ->
    let p' := foldl (decayValue now st due) p0 l in
    peer_ok n live q p' /\
    (forall t, pi_decaying p' !! t = if decide (t ∈ map fst l) then v ← pi_decaying p0 !! t; decayed now st due t v else pi_decaying p0 !! t) /\
    pi_conns p' = pi_conns p0 /\ pi_tags p' = pi_tags p0) as Hfold.
  { induction l as [|[t v] l IH]; intros p0 Hnd Hp0 Hl; [done|]. apply NoDup_cons in Hnd as [Hni Hnd].
    assert (pi_decaying p0 !! t = Some v) as Htv by (apply Hl; left).
    destruct (decayValue_ok now st due n live q p0 t v Hp0 Htv) as (G1 & G2 & G3 & G4 & G5).
    destruct (IH (decayValue now st due p0 (t, v)) Hnd G1) as (K1 & K2 & K3 & K4).
    { intros u w Hu. rewrite G3; [apply Hl; by right|]. intros ->. apply Hni, list_elem_of_fmap. by exists (t, w). }
    cbn [foldl]. split_and!; [done| |by rewrite K3|by rewrite K4]. intros u. rewrite K2. cbn [map fst].
    destruct (decide (u = t)) as [->|Hne].
    - rewrite (decide_False (P := t ∈ map fst l)) by done. rewrite (decide_True (P := t ∈ t :: _)) by left. by rewrite G2, Htv.
    - rewrite G3 by done. destruct (decide (u ∈ map fst l)); [rewrite decide_True by (by right); done|].
      rewrite decide_False; [done|]. by intros [?|?]%elem_of_cons. }
  destruct (Hfold (map_to_list (pi_decaying p)) p) as (K1 & K2 & K3); [apply NoDup_fst_map_to_list|done|by intros t v ?%elem_of_map_to_list|].
  split; [done|]. split; [|done]. intros t. rewrite K2. case_decide as Hd; [done|]. destruct (pi_decaying p !! t) as [v|] eqn:Hv; [|done].
  destruct Hd. apply list_elem_of_fmap. exists (t, v). split; [done|]. by apply elem_of_map_to_list.
Qed.

Lemma process_tick_ok now cm live : cm_ok cm live -> cm_ok (process_tick now cm) live.
Proof.
  intros Ok. unfold process_tick. simpl. apply ok_set_decayer.
  - apply ok_map; [done|]. intros p pi Hp. by apply decayPeer_ok.
  - destruct (ok_decayer _ _ Ok) as [D1 D2 D3]. split; simpl; [done| |done]. by rewrite length_imap.
  - simpl. by rewrite length_imap.
Qed.

Lemma ok_pop cm live d :
  cm_ok cm live -> Resolution d = Resolution (cm_decayer cm) -> tagStore d = tagStore (cm_decayer cm) ->
  (forall b, b ∈ bumpTagCh d -> b ∈ bumpTagCh (cm_decayer cm)) -> (forall r, r ∈ removeTagCh d -> r ∈ removeTagCh (cm_decayer cm)) ->
  cm_ok (set_decayer d cm) live.
Proof.
  intros Ok Hr Hst Hb Hm. destruct (ok_decayer _ _ Ok) as [D1 D2 D3]. apply ok_set_decayer; [done| |by rewrite Hst].
  split; rewrite ?Hr, ?Hst; [done| |].
  - apply Forall_forall. intros b Hin. rewrite Forall_forall in D2. auto.
  - apply Forall_forall. intros r Hin. rewrite Forall_forall in D3. auto.
Qed.

Lemma process_bump_ok now cm live : cm_ok cm live -> exists cm', process_bump now cm = Some cm' /\ cm_ok cm' live.
Proof.
  intros Ok. unfold process_bump. destruct (bumpTagCh (cm_decayer cm)) as [|b q] eqn:Hq; [eauto|]. cbv zeta.
  set (cm1 := set_decayer (set_bumps q (cm_decayer cm)) cm).
  assert (cm_ok cm1 live) as Ok1 by (apply ok_pop; simpl; [done..|rewrite Hq; set_solver|done]).
  pose proof (do_bumps _ (ok_decayer _ _ Ok)) as Hb. rewrite Hq in Hb. apply Forall_inv in Hb as [Hid Ht].
  destruct (get_total (bc_peer b) cm1 Hid (ok_len _ _ Ok1)) as [s Hs]. rewrite Hs. cbn [mbind option_bind].
  pose proof (tagInfoFor_ok cm1 live (bc_peer b) s now Ok1 Hs) as Hp. set (p := tagInfoFor (bc_peer b) now s) in *.
  set (v := default (mkDecaying (bc_tag b) (bc_peer b) now now 0) (pi_decaying p !! bc_tag b)).
  assert (dv_Tag v = bc_tag b /\ dv_Peer v = bc_peer b /\ dv_Value v = default 0 (dv_Value <$> pi_decaying p !! bc_tag b)) as (Hv1 & Hv2 & Hv3).
  { unfold v. destruct (pi_decaying p !! bc_tag b) as [w|] eqn:Hw; [|done]. simpl. destruct (po_decaying _ _ _ _ Hp _ w Hw) as (? & ? & ?). done. }
  destruct (lookup_lt_is_Some_2 (tagStore (cm_decayer cm1)) (dv_Tag v)) as [tag Htag]; [by rewrite Hv1|]. rewrite Htag. simpl.
  eexists. split; [done|]. apply ok_put_insert; [done|done|].
  apply (peer_ok_setdecay _ _ _ _ _ (mkDecaying (dv_Tag v) (dv_Peer v) (dv_Added v) now (dt_bumpFn tag v (bc_delta b)))); done.
Qed.

Lemma process_remove_ok now cm live : cm_ok cm live -> exists cm', process_remove now cm = Some cm' /\ cm_ok cm' live.
Proof.
  intros Ok. unfold process_remove. destruct (removeTagCh (cm_decayer cm)) as [|r q] eqn:Hq; [eauto|]. cbv zeta.
  set (cm1 := set_decayer (set_removes q (cm_decayer cm)) cm).
  assert (cm_ok cm1 live) as Ok1 by (apply ok_pop; simpl; [done..|rewrite Hq; set_solver]).
  pose proof (do_removes _ (ok_decayer _ _ Ok)) as Hb. rewrite Hq in Hb. apply Forall_inv in Hb.
  destruct (get_total (rc_peer r) cm1 Hb (ok_len _ _ Ok1)) as [s Hs]. rewrite Hs. simpl. eexists. split; [done|].
  pose proof (tagInfoFor_ok cm1 live (rc_peer r) s now Ok1 Hs) as Hp. apply ok_put_insert; [done|done|].
  destruct (pi_decaying _ !! _) as [v|] eqn:Hv; [|done]. by apply (peer_ok_undecay _ _ _ _ _ v).
Qed.

Lemma process_close_ok cm live : cm_ok cm live -> cm_ok (process_close cm) live.
Proof.
  intros Ok. unfold process_close. destruct (closeTagCh (cm_decayer cm)) as [|t q]; [done|]. cbv zeta.
  set (cm1 := set_decayer _ cm). assert (cm_ok cm1 live) as Ok1 by (by apply ok_pop).
  apply (ok_map cm1); [done|]. intros p pi Hp. unfold dropTag. destruct (pi_decaying pi !! t) as [v|] eqn:Hv; [|done].
  by apply (peer_ok_undecay _ _ _ _ _ v).
Qed.

Lemma on_decayer_ok {A} (f : decayer -> option (decayer * A)) cm live :
  cm_ok cm live ->
  (exists d a, f (cm_decayer cm) = Some (d, a) /\ decayer_ok d /\ (length (tagStore (cm_decayer cm)) <= length (tagStore d))%nat) ->
  exists cm', on_decayer f cm = Some cm' /\ cm_ok cm' live.
Proof. intros Ok (d & a & Hf & Hd & Hn). unfold on_decayer. rewrite Hf. eexists. split; [done|]. by apply ok_set_decayer. Qed.

Lemma Register_ok name interval df bf d :
  decayer_ok d ->
  exists d' r, RegisterDecayingTag name interval df bf d = Some (d', r) /\ decayer_ok d' /\ (length (tagStore d) <= length (tagStore d'))%nat.
Proof.
  intros Hd. unfold RegisterDecayingTag. destruct (knownTags d !! name); [eauto|]. destruct Hd as [D1 D2 D3].
  destruct (Resolution d =? 0) eqn:E; bool_props; [done|]. eexists _, _. split; [done|]. split; [split; simpl|]; [done| |done|].
  - eapply Forall_impl; [done|]. simpl. intros b [? ?]. split; [done|]. rewrite length_app. lia.
  - simpl. rewrite length_app. lia.
Qed.

Lemma queue_ok t p delta d :
  decayer_ok d -> id_ok p -> (t < length (tagStore d))%nat ->
  (exists d' r, Bump t p delta d = Some (d', r) /\ decayer_ok d' /\ (length (tagStore d) <= length (tagStore d'))%nat) /\
  (exists d' r, Remove t p d = Some (d', r) /\ decayer_ok d' /\ (length (tagStore d) <= length (tagStore d'))%nat).
Proof.
  intros Hd Hp Ht. destruct (lookup_lt_is_Some_2 (tagStore d) t Ht) as [tag Htag]. unfold Bump, Remove. rewrite Htag. simpl.
  assert (Hd0 := Hd). destruct Hd0 as [D1 D2 D3].
  destruct (dt_closed tag); [eauto 10|]. split; case_bool_decide; eexists _, _; (split; [done|]); try done.
  - split; [split|]; simpl; [done| |done|lia]. apply Forall_app. split; [done|]. by apply Forall_singleton.
  - split; [split|]; simpl; [done|done| |lia]. apply Forall_app. split; [done|]. by apply Forall_singleton.
Qed.

Lemma Tag_Close_ok t d :
  decayer_ok d -> (t < length (tagStore d))%nat ->
  exists d' r, Tag_Close t d = Some (d', r) /\ decayer_ok d' /\ (length (tagStore d) <= length (tagStore d'))%nat.
Proof.
  intros Hd Ht. destruct (lookup_lt_is_Some_2 (tagStore d) t Ht) as [tag Htag]. unfold Tag_Close. rewrite Htag. simpl.
  assert (Hd0 := Hd). destruct Hd0 as [D1 D2 D3].
  destruct (dt_closed tag); [eauto 10|]. case_bool_decide; eexists _, _; (split; [done|]); simpl;
    rewrite length_insert; (split; [|done]); split; simpl; rewrite ?length_insert; done.
Qed.

(** ** Every operation succeeds and keeps the invariant *)

Lemma apply_op_ok cm live op :
  cm_ok cm live -> op_ok cm op -> exists cm', apply_op op cm = Some cm' /\ cm_ok cm' (live_after op live).
Proof.
  intros Ok Hop. destruct op; simpl in *.
  - by apply Connected_ok.
  - by apply Disconnected_ok.
  - by apply TagPeer_ok.
  - by apply UntagPeer_ok.
  - by apply UpsertTag_ok.
  - eexists. split; [done|]. by apply Protect_ok.
  - eexists. split; [done|]. by apply Unprotect_ok.
  - unfold doTrim, trim. case_bool; [|eauto]. destruct (getConnsToClose_spec stat now cm live Ok) as (cm' & sel & -> & Ok' & _).
    eexists. split; [done|]. by apply trimmed_ok.
  - unfold background, trim. case_bool; [eauto|]. destruct (getConnsToClose_spec stat now cm live Ok) as (cm' & sel & -> & Ok' & _). eauto.
  - eexists. split; [done|]. unfold memoryEmergency. case_bool; [done|]. by apply trimmed_ok.
  - apply on_decayer_ok; [done|]. apply Register_ok, Ok.
  - apply on_decayer_ok; [done|]. destruct Hop. apply (queue_ok t p delta); [apply Ok|done..].
  - apply on_decayer_ok; [done|]. destruct Hop. apply (queue_ok t p 0); [apply Ok|done..].
  - apply on_decayer_ok; [done|]. apply Tag_Close_ok; [apply Ok|done].
  - eexists. split; [done|]. by apply process_tick_ok.
  - by apply process_bump_ok.
  - by apply process_remove_ok.
  - eexists. split; [done|]. by apply process_close_ok.
Qed.

Lemma emptySegments_lookup i s : emptySegments !! i = Some s -> s = ∅.
Proof. unfold emptySegments. by intros [-> _]%lookup_replicate. Qed.

Lemma NewConnManager_ok low hi opts now cm :
  NewConnManager low hi opts now = Ok cm -> Resolution (cm_decayer cm) <> 0 -> cm_ok cm ∅.
Proof.
  unfold NewConnManager. destruct (apply_options _ _) as [cfg|]; [|done]. intros [= <-] Hr.
  split; simpl; try done.
  - intros i s p pi ->%emptySegments_lookup. by rewrite lookup_empty.
  - intros p pi (s & (i & _ & ->%emptySegments_lookup)%get_Some & Hs)%bind_Some. by rewrite lookup_empty in Hs.
Qed.

Lemma reach_ok cm live : reach cm live -> cm_ok cm live.
Proof.
  induction 1 as [low hi opts now cm Hn Hr|cm live op cm' _ IH Hop Ha]; [by eapply NewConnManager_ok|].
  destruct (apply_op_ok cm live op IH Hop) as (cm'' & Ha' & Ok). congruence.
Qed.
End runs.
