(* ===== verification/ConnMgrTheorems.v ===== *)
(** * The connection manager: theorems

    What the manager tracks, what a trim closes and what it spares, and how values decay; and where
    the code does not do what its comments say. *)

From stdpp Require Import base gmap list numbers sorting.
From Stdlib Require Import ZArith Lia.
From S2P Require Import Prelude GoText GoSort Limits ConnMgr ConnMgrInv.

(** ** The order of peers *)

Definition streams_of (stat : Conn -> ConnStats) (inf : peerInfo) : Z := snd (incomingAndStreams stat (pi_conns inf)).

(** No peer has so many streams that their number overflows. *)
Definition counts_ok (stat : Conn -> ConnStats) (l : list peerInfo) : Prop := forall inf, inf ∈ l -> 0 <= streams_of stat inf.

(** The comparison as a function of what it reads. *)
Definition rankLess (more : bool) (a b : bool * Z * bool * Z) : bool :=
  let '(lt, lv, li, ls) := a in
  let '(rt, rv, ri, rs) := b in
  if negb (eqb lt rt) then lt
  else if negb (lv =? rv) then lv <? rv
  else if negb (rs =? ls) && ((ls =? 0) || (rs =? 0)) then ls <? rs
  else if negb (eqb li ri) then li
  else if more then rs <? ls else ls <? rs.

Definition rank (stat : Conn -> ConnStats) (inf : peerInfo) : bool * Z * bool * Z :=
  (pi_temp inf, pi_value inf, fst (incomingAndStreams stat (pi_conns inf)), streams_of stat inf).

Lemma peerLess_rank stat more a b : peerLess stat more a b = rankLess more (rank stat a) (rank stat b).
Proof.
  unfold peerLess, rankLess, rank, streams_of. destruct (incomingAndStreams stat (pi_conns a)), (incomingAndStreams stat (pi_conns b)).
  done.
Qed.

(** Temporary entries, then the value, then idle peers, then incoming ones, then the number of
    streams: the order of the tuples is lexicographic in a signed encoding. *)
Definition rankKey (more : bool) (a : bool * Z * bool * Z) : list Z :=
  let '(t, v, i, s) := a in
  [if t then 0 else 1; v; if s =? 0 then 0 else 1; if i then 0 else 1; if more then - s else s].

Lemma rankLess_lex more a b :
  0 <= snd a -> 0 <= snd b -> rankLess more a b = lexLess (rankKey more a) (rankKey more b).
Proof.
  destruct a as [[[lt lv] li] ls], b as [[[rt rv] ri] rs]. simpl. intros Ha Hb.
  destruct more, lt, rt; simpl; try done.
  all: destruct (Z.eqb_spec lv rv), (Z.ltb_spec lv rv); simpl; try lia; try done.
  all: destruct (Z.eqb_spec rs ls), (Z.eqb_spec ls 0), (Z.eqb_spec rs 0), (Z.ltb_spec ls rs), (Z.ltb_spec rs ls); simpl; try lia; try done.
  all: destruct li, ri; simpl; try done; repeat case_bool; try lia; try done.
Qed.

Lemma peerLess_orders stat more l : counts_ok stat l -> orders (peerLess stat more) l.
Proof.
  intros Hc. assert (forall a b, a ∈ l -> b ∈ l -> peerLess stat more a b = lexLess (rankKey more (rank stat a)) (rankKey more (rank stat b))) as Hl.
  { intros a b Ha Hb. rewrite peerLess_rank. apply rankLess_lex; by apply Hc. }
  split.
  - intros a b Ha Hb. rewrite !Hl by done. apply lexLess_asym.
  - intros a b c Ha Hb Hcc. rewrite !Hl by done. apply lexLess_trans.
Qed.

(** ** Counting *)

Lemma nconns_all_app l k : nconns_all (l ++ k) = nconns_all l + nconns_all k.
Proof. unfold nconns_all. induction l as [|x l IH]; simpl; [done|]. rewrite IH. lia. Qed.

#[export] Instance nconns_all_perm : Proper ((≡ₚ) ==> (=)) nconns_all.
Proof. unfold nconns_all. induction 1; simpl; lia. Qed.

Lemma nconns_all_nonneg l : 0 <= nconns_all l.
Proof. unfold nconns_all, nconns. induction l as [|x l IH]; simpl; lia. Qed.

Lemma length_conns l : Z.of_nat (length (concat (map conns_of l))) = nconns_all l.
Proof.
  induction l as [|x l IH]; simpl; [done|]. rewrite length_app, Nat2Z.inj_add, IH. unfold conns_of at 1, nconns.
  by rewrite length_map, length_map_to_list.
Qed.

Lemma elem_of_conns c l : c ∈ concat (map conns_of l) <-> exists inf, inf ∈ l /\ is_Some (pi_conns inf !! c).
Proof.
  induction l as [|x l IH]; simpl; [set_solver|]. rewrite elem_of_app, IH.
  assert (c ∈ conns_of x <-> is_Some (pi_conns x !! c)) as ->; [|set_solver]. unfold conns_of. rewrite list_elem_of_fmap. split.
  - intros ([c' t] & Heq & Ht%elem_of_map_to_list). simpl in Heq. subst c'. by rewrite Ht.
  - intros [t Ht]. exists (c, t). split; [done|]. by apply elem_of_map_to_list.
Qed.

Section theorems.
Context `{!SortSlice} (RemotePeer : Conn -> ID).
Notation cm_ok := (cm_ok RemotePeer).
Notation reach := (reach RemotePeer).
Notation apply_op := (apply_op RemotePeer).

Lemma conns_NoDup cm live l :
  cm_ok cm live -> (forall inf, inf ∈ l -> peer_at cm (pi_id inf) = Some inf) -> NoDup (map pi_id l) ->
  NoDup (concat (map conns_of l)).
Proof.
  intros Ok. induction l as [|x l IH]; intros Hat Hnd; simpl; [constructor|]. apply NoDup_cons in Hnd as [Hni Hnd]. apply NoDup_app. split_and!.
  - apply NoDup_fst_map_to_list.
  - intros c Hc Hin%elem_of_conns. destruct Hin as (y & Hy & Hcy). apply Hni, list_elem_of_fmap. exists y. split; [|done].
    apply (po_conns _ _ _ _ _ (ok_peers _ _ _ Ok _ y (Hat y ltac:(by right))) c) in Hcy as [_ <-].
    assert (is_Some (pi_conns x !! c)) as Hcx.
    { destruct (proj1 (elem_of_conns c [x])) as (z & Hz%list_elem_of_singleton & Hcz); [simpl; by rewrite app_nil_r|by subst]. }
    symmetry. by apply (po_conns _ _ _ _ _ (ok_peers _ _ _ Ok _ x (Hat x ltac:(left))) c).
  - apply IH; [|done]. intros inf Hin. apply Hat. by right.
Qed.

(** The live connections are those of all peers. *)
Lemma live_conns cm live : cm_ok cm live -> live = list_to_set (concat (map conns_of (collect (fun _ _ => true) cm))).
Proof.
  intros Ok. apply set_eq. intros c. rewrite elem_of_list_to_set, elem_of_conns. split.
  - intros Hl. destruct (ok_live _ _ _ Ok c Hl) as [pi Hpi]. exists pi. split.
    + apply elem_of_collect; [apply Ok|]. eauto.
    + by apply (po_conns _ _ _ _ _ (ok_peers _ _ _ Ok _ pi Hpi) c).
  - intros (inf & Hin & Hc). apply elem_of_collect in Hin as (p & Hp & _); [|apply Ok].
    by apply (po_conns _ _ _ _ _ (ok_peers _ _ _ Ok _ inf Hp) c) in Hc as [? _].
Qed.

Lemma live_count cm live : cm_ok cm live -> Z.of_nat (size live) = nconns_all (collect (fun _ _ => true) cm).
Proof.
  intros Ok. rewrite (live_conns cm live Ok), <- length_conns. rewrite size_list_to_set; [done|].
  eapply conns_NoDup; [done|intros; by eapply collect_at|by eapply collect_ids].
Qed.

(** ** What the manager tracks *)

(** C15: In every state the manager reaches, a peer's entry lists exactly the open connections to it, by
    the notifications so far, the count of [GetInfo] is their number as an int32, and every operation
    on peers with an ID succeeds. *)
Theorem conns_tracked cm live :
  reach cm live ->
  ConnCount (GetInfo cm) = wrapi32 (Z.of_nat (size live)) /\
  (forall p c, (exists pi, peer_at cm p = Some pi /\ is_Some (pi_conns pi !! c)) <-> c ∈ live /\ RemotePeer c = p) /\
  (forall op, op_ok RemotePeer cm op -> exists cm', apply_op op cm = Some cm').
Proof.
  intros Ok%reach_ok. split_and!; [apply Ok| |].
  - intros p c. split.
    + intros (pi & Hp & Hc). by apply (po_conns _ _ _ _ _ (ok_peers _ _ _ Ok p pi Hp)).
    + intros [Hl <-]. destruct (ok_live _ _ _ Ok c Hl) as [pi Hp]. exists pi. split; [done|].
      by apply (po_conns _ _ _ _ _ (ok_peers _ _ _ Ok _ pi Hp)).
  - intros op Hop. destruct (apply_op_ok RemotePeer cm live op Ok Hop) as (cm' & Ha & _). eauto.
Qed.

(** C16: The cached value of a peer is always the sum of its tags and of its decaying tags, with the
    wrap-around of the additions; an entry is temporary just when the peer has no connection; and
    there is an entry for every open connection. *)
Theorem value_is_sum cm live p pi :
  reach cm live -> peer_at cm p = Some pi ->
  pi_value pi = wrap64 (msum (fun _ v => v) (pi_tags pi) + msum (fun _ v => dv_Value v) (pi_decaying pi)) /\
  (pi_temp pi = true <-> forall c, c ∈ live -> RemotePeer c <> p).
Proof.
  intros Ok%reach_ok Hp. destruct (ok_peers _ _ _ Ok p pi Hp) as [_ Hv Ht Hc _]. split; [done|].
  rewrite Ht, bool_decide_eq_true. split.
  - intros He c Hl <-. destruct (proj2 (Hc c)) as [t Hx]; [done|]. by rewrite He, lookup_empty in Hx.
  - intros Hn. apply map_eq. intros c. rewrite lookup_empty. apply eq_None_not_Some. intros [Hl <-]%Hc. by eapply Hn.
Qed.

(** ** What a trim closes *)

Lemma trim_run stat now cm live cm' sel :
  cm_ok cm live -> getConnsToClose stat now cm = Some (cm', sel) ->
  cm_ok cm' live /\
  ((sel = [] /\ (lowWater (cm_cfg cm) = 0 \/ highWater (cm_cfg cm) = 0 \/ connCount cm <= lowWater (cm_cfg cm) \/
      nconns_all (collect (outOfGrace now cm) cm) < lowWater (cm_cfg cm))) \/
   (connCount cm > lowWater (cm_cfg cm) /\ exists ps ks,
      SortByValueAndStreams stat false (collect (outOfGrace now cm) cm) = ps ++ ks /\ sel = concat (map conns_of ps) /\
      (ks = [] \/ nconns_all (collect (outOfGrace now cm) cm) - lowWater (cm_cfg cm) <= nconns_all ps) /\
      (forall qs x, ps = qs ++ [x] -> nconns_all qs < nconns_all (collect (outOfGrace now cm) cm) - lowWater (cm_cfg cm)))).
Proof.
  intros Ok Hg. destruct (getConnsToClose_spec RemotePeer stat now cm live Ok) as (cm1 & sel1 & Hg' & Ok' & _ & Hc).
  rewrite Hg in Hg'. injection Hg' as <- <-. split; [done|]. cbv zeta in Hc.
  destruct Hc as [(_ & ? & ?)|(? & ps & ks & ? & ? & ? & ? & _)]; [by left|right]. split; [done|]. by exists ps, ks.
Qed.

Lemma selected_candidates stat keep cm live ps ks :
  cm_ok cm live -> SortByValueAndStreams stat false (collect keep cm) = ps ++ ks ->
  (ps ++ ks ≡ₚ collect keep cm) /\
  (forall inf, inf ∈ ps ++ ks -> peer_at cm (pi_id inf) = Some inf /\ keep (pi_id inf) inf = true) /\ NoDup (map pi_id (ps ++ ks)).
Proof.
  intros Ok Hl. assert (ps ++ ks ≡ₚ collect keep cm) as Hp by (rewrite <- Hl; apply sortSlice_perm). split_and!; [done| |].
  - intros inf Hin. rewrite Hp in Hin. split; [by eapply collect_at|]. apply elem_of_collect in Hin as (p & Hat & Hk); [|apply Ok].
    by rewrite (po_id _ _ _ _ _ (ok_peers _ _ _ Ok p inf Hat)).
  - rewrite Hp. by eapply collect_ids.
Qed.

Lemma trim_spares_sub stat now cm live cm' sel :
  cm_ok cm live -> getConnsToClose stat now cm = Some (cm', sel) -> NoDup sel /\ forall c, c ∈ sel -> c ∈ live.
Proof.
  intros Ok Hg. destruct (trim_run stat now cm live cm' sel Ok Hg) as [_ [[-> _]|(_ & ps & ks & Hs & -> & _)]]; [split; [constructor|set_solver]|].
  destruct (selected_candidates stat _ cm live ps ks Ok Hs) as (_ & Hk & Hnd). rewrite map_app in Hnd. apply NoDup_app in Hnd as (Hnd & _ & _).
  assert (forall inf, inf ∈ ps -> peer_at cm (pi_id inf) = Some inf) as Hat by (intros; apply Hk; set_solver).
  split; [by eapply conns_NoDup|]. intros c (inf & Hin & Hc)%elem_of_conns.
  by apply (po_conns _ _ _ _ _ (ok_peers _ _ _ Ok _ inf (Hat inf Hin)) c) in Hc as [? _].
Qed.

(** C17: A trim closes only open connections, each once, and only when there are more than the low
    watermark; never one of a protected peer, nor of a peer in its grace period; and it closes
    all the connections of a peer or none. *)
Theorem trim_spares stat now cm live cm' sel :
  reach cm live -> getConnsToClose stat now cm = Some (cm', sel) ->
  NoDup sel /\ (sel <> [] -> lowWater (cm_cfg cm) < connCount cm) /\
  forall c, c ∈ sel ->
    c ∈ live /\ protected cm !! RemotePeer c = None /\
    (exists pi, peer_at cm (RemotePeer c) = Some pi /\ pi_firstSeen pi <= now - gracePeriod (cm_cfg cm)) /\
    (forall c', c' ∈ live -> RemotePeer c' = RemotePeer c -> c' ∈ sel).
Proof.
  intros Ok%reach_ok Hg. destruct (trim_run stat now cm live cm' sel Ok Hg) as [_ [[-> _]|(Hcc & ps & ks & Hs & -> & _)]].
  { split_and!; [constructor|done|set_solver]. }
  destruct (selected_candidates stat _ cm live ps ks Ok Hs) as (_ & Hk & Hnd). rewrite map_app in Hnd. apply NoDup_app in Hnd as (Hnd & _ & _).
  assert (forall inf, inf ∈ ps -> peer_at cm (pi_id inf) = Some inf) as Hat by (intros; apply Hk; set_solver).
  split_and!; [by eapply conns_NoDup|intros _; lia|]. intros c (inf & Hin & Hc)%elem_of_conns.
  pose proof (ok_peers _ _ _ Ok _ inf (Hat inf Hin)) as Hpo. apply (po_conns _ _ _ _ _ Hpo c) in Hc as [Hl Hrp]. rewrite Hrp.
  destruct (Hk inf ltac:(set_solver)) as [_ Hg']. unfold outOfGrace, unprotected in Hg'. bool_props.
  split_and!; [done|by destruct (protected cm !! pi_id inf)|eauto|].
  intros c' Hl' Hrp'. apply elem_of_conns. exists inf. split; [done|]. by apply (po_conns _ _ _ _ _ Hpo c').
Qed.

(** C18: A trim that is needed and possible leaves at most the low watermark of the connections it may
    close; it closes no more peers than that takes; and every peer it closes ranks at or below
    every peer it keeps, by [SortByValueAndStreams]. *)
Theorem trim_reaches_low_water stat now cm live cm' sel :
  reach cm live -> getConnsToClose stat now cm = Some (cm', sel) ->
  counts_ok stat (collect (outOfGrace now cm) cm) ->
  0 < lowWater (cm_cfg cm) < connCount cm -> highWater (cm_cfg cm) <> 0 ->
  lowWater (cm_cfg cm) <= nconns_all (collect (outOfGrace now cm) cm) ->
  exists closed kept,
    closed ++ kept ≡ₚ collect (outOfGrace now cm) cm /\ sel = concat (map conns_of closed) /\
    nconns_all kept <= lowWater (cm_cfg cm) /\
    (forall most x, closed = most ++ [x] -> lowWater (cm_cfg cm) < nconns_all kept + nconns x) /\
    (forall a b, a ∈ closed -> b ∈ kept -> peerLess stat false b a = false).
Proof.
  intros Ok%reach_ok Hg Hct Hlow Hhigh Hen. destruct (trim_run stat now cm live cm' sel Ok Hg) as [_ [[_ ?]|(_ & ps & ks & Hs & -> & Hdone & Hmin)]]; [lia|].
  destruct (selected_candidates stat _ cm live ps ks Ok Hs) as (Hp & _). exists ps, ks.
  assert (nconns_all (collect (outOfGrace now cm) cm) = nconns_all ps + nconns_all ks) as Hsum by (rewrite <- Hp; apply nconns_all_app).
  split_and!; [done|done| | |].
  - destruct Hdone as [->|Hd]; [simpl|]; lia.
  - intros most x ->. specialize (Hmin _ _ eq_refl). rewrite nconns_all_app in Hsum. simpl in Hsum. lia.
  - intros a b Ha Hb. pose proof (sortSlice_sorted (peerLess stat false) _ (peerLess_orders stat false _ Hct)) as Hsrt.
    unfold SortByValueAndStreams in Hs. rewrite Hs in Hsrt. by apply (StronglySorted_app_1_elem_of _ ps ks a b Hsrt).
Qed.

(** ** A trim and its notifications *)

(** The notifications that follow the closing of connections. *)
Definition disconnectAll (sel : list Conn) : BasicConnMgr -> option BasicConnMgr :=
  foldr (fun c k cm => cm ← Disconnected RemotePeer c cm; k cm) Some sel.

Lemma reach_disconnects sel : forall cm live,
  (forall c, id_ok (RemotePeer c)) -> reach cm live ->
  exists cm', disconnectAll sel cm = Some cm' /\ reach cm' (live ∖ list_to_set sel).
Proof.
  induction sel as [|c sel IH]; intros cm live Hid Hr; simpl.
  - exists cm. split; [done|]. by rewrite difference_empty_L.
  - assert (Ok := Hr). apply reach_ok in Ok. destruct (apply_op_ok RemotePeer cm live (ODisconnected c) Ok (Hid c)) as (cm1 & Ha & _).
    simpl in Ha. rewrite Ha. simpl. pose proof (reach_op RemotePeer cm live (ODisconnected c) cm1 Hr (Hid c) Ha) as Hr1.
    destruct (IH cm1 _ Hid Hr1) as (cm' & -> & Hr'). exists cm'. split; [done|]. simpl in Hr'.
    by replace (live ∖ ({[c]} ∪ list_to_set sel)) with (live ∖ {[c]} ∖ list_to_set sel) by set_solver.
Qed.

Lemma filter_all {A} (P : A -> Prop) `{forall x, Decision (P x)} (l : list A) : (forall x, x ∈ l -> P x) -> filter P l = l.
Proof.
  induction l as [|x l IH]; intros Hl; [done|]. rewrite filter_cons_True by (apply Hl; left). f_equal. apply IH. set_solver.
Qed.

Lemma collect_all keep cm live :
  cm_ok cm live -> (forall p pi, peer_at cm p = Some pi -> keep p pi = true) -> collect keep cm = collect (fun _ _ => true) cm.
Proof.
  intros Ok Hk. unfold collect. rewrite !filter_all; [done|done|]. intros [p pi] (i & s & Hi & Hp)%elem_of_entries. simpl.
  apply Hk. unfold peer_at, get. rewrite (ok_placed _ _ _ Ok i s p pi Hi Hp). simpl. by rewrite Hi.
Qed.

Lemma wrapi32_id z : - 2 ^ 31 <= z < 2 ^ 31 -> wrapi32 z = z.
Proof. intros. unfold wrapi32. rewrite Z.mod_small; lia. Qed.

(** C19: A trim reaches the low watermark, which counts connections: when no peer is protected or in its
    grace period and there are more connections than the low watermark, then after the trim and the
    notifications of the closed connections at most the low watermark of them is open.  (The comment of
    [TrimOpenConns] speaks of the number of peers instead, which can become smaller: lemma
    [trim_counts_connections].) *)
Theorem trim_settles stat now cm live :
  reach cm live -> (forall c, id_ok (RemotePeer c)) ->
  (forall p pi, peer_at cm p = Some pi -> outOfGrace now cm p pi = true) ->
  0 < lowWater (cm_cfg cm) < Z.of_nat (size live) -> Z.of_nat (size live) < 2 ^ 31 -> highWater (cm_cfg cm) <> 0 ->
  exists cm1 sel cm2,
    doTrim stat (trimCount cm) now cm = Some (cm1, sel) /\ disconnectAll sel cm1 = Some cm2 /\
    reach cm2 (live ∖ list_to_set sel) /\ ConnCount (GetInfo cm2) = Z.of_nat (size live) - Z.of_nat (length sel) /\ ConnCount (GetInfo cm2) <= lowWater (cm_cfg cm).
Proof.
  intros Hr Hid Hall Hlow Hmax Hhigh. assert (Ok := Hr). apply reach_ok in Ok. pose proof (ok_count _ _ _ Ok) as Hcc.
  rewrite wrapi32_id in Hcc by lia. pose proof (live_count cm live Ok) as Hlc.
  rewrite <- (collect_all (outOfGrace now cm) cm live Ok Hall) in Hlc.
  destruct (getConnsToClose_spec RemotePeer stat now cm live Ok) as (cm' & sel & Hg & _).
  assert (doTrim stat (trimCount cm) now cm = Some (trimmed now cm', sel)) as Htrim by (unfold doTrim, trim; by rewrite Z.eqb_refl, Hg).
  assert (reach (trimmed now cm') live) as Hr1.
  { apply (reach_op RemotePeer cm live (ODoTrim stat (trimCount cm) now)); [done|done|]. simpl. by rewrite Htrim. }
  destruct (reach_disconnects sel (trimmed now cm') live Hid Hr1) as (cm2 & Hd & Hr2).
  assert (Z.of_nat (length sel) >= Z.of_nat (size live) - lowWater (cm_cfg cm)) as Henough.
  { destruct (trim_run stat now cm live cm' sel Ok Hg) as [_ [[_ ?]|(_ & ps & ks & Hs & -> & Hdone & _)]]; [lia|].
    destruct (selected_candidates stat _ cm live ps ks Ok Hs) as (Hp & _). rewrite length_conns.
    assert (nconns_all (collect (outOfGrace now cm) cm) = nconns_all ps + nconns_all ks) as Hsum by (rewrite <- Hp; apply nconns_all_app).
    destruct Hdone as [->|?]; [simpl in Hsum|]; lia. }
  assert (ConnCount (GetInfo cm2) = Z.of_nat (size live) - Z.of_nat (length sel)) as Hcount.
  { pose proof (trim_spares_sub stat now cm live cm' sel Ok Hg) as [Hnd Hsub]. assert (Hr3 := Hr2). apply reach_ok in Hr3.
    assert (list_to_set (C := gset Conn) sel ⊆ live) as Hss by set_solver. pose proof (subseteq_size _ _ Hss) as Hsz.
    unfold GetInfo. simpl. rewrite (ok_count _ _ _ Hr3), size_difference by done. rewrite size_list_to_set in * by done.
    rewrite wrapi32_id; lia. }
  exists (trimmed now cm'), sel, cm2. split_and!; try done. lia.
Qed.

(** ** Memory emergencies *)

Lemma selectEmergency_spec l : forall target sel,
  exists ps ks, l = ps ++ ks /\ selectEmergency target l sel = (target - nconns_all ps, sel ++ concat (map conns_of ps)) /\
    (ks = [] \/ target <= nconns_all ps).
Proof.
  induction l as [|inf l IH]; intros target sel; simpl.
  - exists [], []. split; [done|]. split; [simpl; by rewrite app_nil_r, Z.sub_0_r|]. by left.
  - destruct (target <=? 0) eqn:Ht; bool_props.
    { exists [], (inf :: l). split; [done|]. split; [simpl; by rewrite app_nil_r, Z.sub_0_r|]. right. simpl. lia. }
    destruct (IH (target - nconns inf) (sel ++ conns_of inf)) as (ps & ks & -> & -> & Hd). exists (inf :: ps), ks. split; [done|]. split.
    + simpl. rewrite <- app_assoc. f_equal. lia.
    + destruct Hd; [by left|right; simpl; lia].
Qed.

(** C20: In a memory emergency with [target] connections to close, of which [u] are of unprotected peers:
    while [target] is at most twice [u], only connections of unprotected peers are closed, each once;
    enough of them when there are enough, but else just these [u], which is fewer than [target]. *)
Theorem emergency_closes stat target cm live :
  reach cm live ->
  let u := nconns_all (collect (unprotected cm) cm) in
  let sel := getConnsToCloseEmergency stat target cm in
  target <= 2 * u ->
  NoDup sel /\ (forall c, c ∈ sel -> c ∈ live /\ protected cm !! RemotePeer c = None) /\
  (target <= u -> target <= Z.of_nat (length sel)) /\ (u < target -> Z.of_nat (length sel) = u).
Proof.
  intros Ok%reach_ok u sel Ht. set (cands := SortByValueAndStreams stat true (collect (unprotected cm) cm)).
  destruct (selectEmergency_spec cands target []) as (ps & ks & Hl & He & Hd).
  assert (ps ++ ks ≡ₚ collect (unprotected cm) cm) as Hp by (rewrite <- Hl; apply sortSlice_perm).
  assert (nconns_all ps + nconns_all ks = u) as Hu by (unfold u; by rewrite <- Hp, nconns_all_app).
  pose proof (nconns_all_nonneg ps). pose proof (nconns_all_nonneg ks).
  assert (sel = concat (map conns_of ps)) as ->.
  { unfold sel, getConnsToCloseEmergency. fold cands. rewrite He. simpl. rewrite length_conns.
    assert (nconns_all ps >=? target - nconns_all ps = true) as ->; [|done]. rewrite Z.geb_leb. apply Z.leb_le.
    destruct Hd as [->|]; [simpl in Hu|]; lia. }
  assert (forall inf, inf ∈ ps -> peer_at cm (pi_id inf) = Some inf /\ unprotected cm (pi_id inf) inf = true) as Hat.
  { intros inf Hin. assert (inf ∈ collect (unprotected cm) cm) as Hc by (rewrite <- Hp; set_solver). split; [by eapply collect_at|].
    apply elem_of_collect in Hc as (p & Hpa & Hk); [|apply Ok]. by rewrite (po_id _ _ _ _ _ (ok_peers _ _ _ Ok p inf Hpa)). }
  assert (NoDup (map pi_id ps)) as Hnd.
  { assert (NoDup (map pi_id (ps ++ ks))) as Hn by (rewrite Hp; by eapply collect_ids). rewrite map_app in Hn. by apply NoDup_app in Hn as (? & _). }
  rewrite length_conns. split_and!.
  - eapply conns_NoDup; [done| |done]. intros. by apply Hat.
  - intros c (inf & Hin & Hc)%elem_of_conns. destruct (Hat inf Hin) as [Ha Hun].
    apply (po_conns _ _ _ _ _ (ok_peers _ _ _ Ok _ inf Ha) c) in Hc as [? ->]. split; [done|]. unfold unprotected in Hun. by destruct (protected cm !! pi_id inf).
  - intros. destruct Hd as [->|]; [simpl in Hu|]; lia.
  - intros. destruct Hd as [->|]; [simpl in Hu|]; lia.
Qed.

(** ** Decay *)

Lemma peer_at_tick now cm live p pi :
  cm_ok cm live -> peer_at cm p = Some pi ->
  exists pi', peer_at (process_tick now cm) p = Some pi' /\
    forall t, pi_decaying pi' !! t = v ← pi_decaying pi !! t; decayed now (tagStore (cm_decayer cm)) (visit now (set_lastTick now (cm_decayer cm))) t v.
Proof.
  intros Ok Hp. set (d := set_lastTick now (cm_decayer cm)). exists (decayPeer now (tagStore d) (visit now d) pi). split.
  - unfold process_tick. fold d. rewrite (peer_at_buckets (set_buckets (map (fmap (decayPeer now (tagStore d) (visit now d))) (buckets cm)) cm)) by done.
    by rewrite peer_at_map, Hp.
  - by apply (decayPeer_ok RemotePeer now (tagStore d) (visit now d) _ live p pi (ok_peers _ _ _ Ok p pi Hp)).
Qed.

Lemma elem_of_visit now d name t tag :
  knownTags d !! name = Some t -> tagStore d !! t = Some tag -> dt_nextTick tag <= now -> t ∈ visit now d.
Proof.
  intros Hk Ht Hn. unfold visit. apply elem_of_list_to_set, list_elem_of_filter. split.
  - unfold is_due. rewrite Ht. apply negb_true_iff. zbool.
  - apply list_elem_of_fmap. exists (name, t). split; [done|]. by apply elem_of_map_to_list.
Qed.

Fixpoint ticks (nows : list Z) (cm : BasicConnMgr) : BasicConnMgr :=
  match nows with [] => cm | now :: nows => ticks nows (process_tick now cm) end.

(** Ticks at which a tag that is due next at [next] is due again and again. *)
Fixpoint due_each (next interval : Z) (nows : list Z) : Prop :=
  match nows with [] => True | now :: nows => next <= now /\ due_each (next + interval) interval nows end.

Lemma tick_tag now cm name t tag :
  knownTags (cm_decayer cm) !! name = Some t -> tagStore (cm_decayer cm) !! t = Some tag -> dt_nextTick tag <= now ->
  knownTags (cm_decayer (process_tick now cm)) !! name = Some t /\
  tagStore (cm_decayer (process_tick now cm)) !! t = Some (nextRound tag).
Proof.
  intros Hk Ht Hn. unfold process_tick. simpl. split; [done|]. rewrite list_lookup_imap, Ht. simpl.
  rewrite bool_decide_true; [done|]. by apply (elem_of_visit now (set_lastTick now (cm_decayer cm)) name t tag).
Qed.

Lemma ticks_absent nows : forall cm live p pi t,
  cm_ok cm live -> peer_at cm p = Some pi -> pi_decaying pi !! t = None ->
  exists pi', peer_at (ticks nows cm) p = Some pi' /\ pi_decaying pi' !! t = None.
Proof.
  induction nows as [|now nows IH]; intros cm live p pi t Ok Hp Ht; simpl; [eauto|].
  destruct (peer_at_tick now cm live p pi Ok Hp) as (pi' & Hp' & Hd). eapply IH; [by apply process_tick_ok|done|]. by rewrite Hd, Ht.
Qed.

Lemma fixed_decays m nows : forall cm live p pi name t tag v,
  cm_ok cm live -> knownTags (cm_decayer cm) !! name = Some t -> tagStore (cm_decayer cm) !! t = Some tag ->
  dt_decayFn tag = DecayFixed m -> 0 < m <= MaxInt64 -> due_each (dt_nextTick tag) (dt_interval tag) nows ->
  peer_at cm p = Some pi -> pi_decaying pi !! t = Some v -> 0 <= dv_Value v <= MaxInt64 -> nows <> [] ->
  dv_Value v <= Z.of_nat (length nows) * m ->
  exists pi', peer_at (ticks nows cm) p = Some pi' /\ pi_decaying pi' !! t = None.
Proof.
  induction nows as [|now nows IH]; intros cm live p pi name t tag v Ok Hk Htag Hfn Hm Hdue Hp Hv Hval Hne Hlen; [done|]. clear Hne.
  destruct Hdue as [Hnow Hdue]. simpl. destruct (peer_at_tick now cm live p pi Ok Hp) as (pi' & Hp' & Hd). specialize (Hd t).
  pose proof (elem_of_visit now (set_lastTick now (cm_decayer cm)) name t tag Hk Htag Hnow) as Hvis.
  rewrite Hv in Hd. simpl in Hd. unfold decayed in Hd. rewrite Htag, bool_decide_true, Hfn in Hd by done. unfold DecayFixed in Hd.
  rewrite wrap64_id in Hd by (unfold int64, MinInt64, MaxInt64 in *; lia).
  pose proof (process_tick_ok RemotePeer now cm live Ok) as Ok'. destruct (dv_Value v - m <=? 0) eqn:E; bool_props.
  - by apply (ticks_absent nows _ live p pi').
  - destruct (tick_tag now cm name t tag Hk Htag Hnow) as [Hk' Htag'].
    apply (IH _ live p pi' name t (nextRound tag) _ Ok' Hk' Htag' Hfn Hm Hdue Hp' Hd); simpl; [lia| |simpl in Hlen; lia].
    intros ->. simpl in Hlen. lia.
Qed.

(** A value of a tag that decays by a fixed amount is gone after as many rounds as it takes to count
    it down, if it is not bumped meanwhile: the tag is removed from the peer. *)
Theorem fixed_decay_expires cm live p pi name t tag v m nows :
  reach cm live -> knownTags (cm_decayer cm) !! name = Some t -> tagStore (cm_decayer cm) !! t = Some tag ->
  dt_decayFn tag = DecayFixed m -> 0 < m <= MaxInt64 -> due_each (dt_nextTick tag) (dt_interval tag) nows ->
  peer_at cm p = Some pi -> pi_decaying pi !! t = Some v -> 0 <= dv_Value v <= MaxInt64 -> nows <> [] ->
  dv_Value v <= Z.of_nat (length nows) * m ->
  exists pi', peer_at (ticks nows cm) p = Some pi' /\ pi_decaying pi' !! t = None /\
    pi_value pi' = wrap64 (msum (fun _ v => v) (pi_tags pi') + msum (fun _ v => dv_Value v) (pi_decaying pi')).
Proof.
  intros Ok%reach_ok Hk Ht Hfn Hm Hdue Hp Hv Hval Hne Hlen.
  destruct (fixed_decays m nows cm live p pi name t tag v) as (pi' & Hp' & Hnone); [done..|]. exists pi'. split_and!; [done|done|].
  assert (forall nows cm, cm_ok cm live -> cm_ok (ticks nows cm) live) as Hticks.
  { clear. induction nows as [|now nows IH]; intros cm Ok; simpl; [done|]. by apply IH, process_tick_ok. }
  apply (po_value _ _ _ _ _ (ok_peers _ _ _ (Hticks nows cm Ok) p pi' Hp')).
Qed.

(** A tag registered with [DecayExpireWhenInactive] does not expire: whenever it is due, however long
    ago the last visit was, the entry stays, with value 0. *)
Theorem inactive_never_expires cm live p pi name t tag v after now :
  reach cm live -> knownTags (cm_decayer cm) !! name = Some t -> tagStore (cm_decayer cm) !! t = Some tag ->
  dt_decayFn tag = DecayExpireWhenInactive after -> 0 < after -> dt_nextTick tag <= now ->
  peer_at cm p = Some pi -> pi_decaying pi !! t = Some v -> dv_LastVisit v <= now ->
  exists pi' v', peer_at (process_tick now cm) p = Some pi' /\ pi_decaying pi' !! t = Some v' /\
    dv_Value v' = 0 /\ dv_LastVisit v' = now.
Proof.
  intros Ok%reach_ok Hk Htag Hfn Ha Hn Hp Hv Hl. destruct (peer_at_tick now cm live p pi Ok Hp) as (pi' & Hp' & Hd). specialize (Hd t).
  pose proof (elem_of_visit now (set_lastTick now (cm_decayer cm)) name t tag Hk Htag Hn) as Hvis.
  rewrite Hv in Hd. simpl in Hd. unfold decayed in Hd. rewrite Htag, bool_decide_true, Hfn in Hd by done. unfold DecayExpireWhenInactive in Hd.
  assert (time_Until now (dv_LastVisit v) >=? after = false) as Hu by (rewrite Z.geb_leb; apply Z.leb_gt; unfold time_Until, MinInt64, MaxInt64; lia).
  rewrite Hu in Hd. by eexists pi', _.
Qed.

(** A tag the decayer does not know any more never decays. *)
Lemma ticks_unknown nows : forall cm live p pi t v,
  cm_ok cm live -> (forall name, knownTags (cm_decayer cm) !! name <> Some t) ->
  peer_at cm p = Some pi -> pi_decaying pi !! t = Some v ->
  exists pi', peer_at (ticks nows cm) p = Some pi' /\ pi_decaying pi' !! t = Some v.
Proof.
  induction nows as [|now nows IH]; intros cm live p pi t v Ok Hk Hp Hv; simpl; [eauto|].
  destruct (peer_at_tick now cm live p pi Ok Hp) as (pi' & Hp' & Hd). eapply IH; [by apply process_tick_ok|done|done|].
  rewrite Hd, Hv. simpl. unfold decayed. destruct (tagStore (cm_decayer cm) !! t); [|done]. rewrite bool_decide_false; [done|].
  unfold visit. intros [_ Hin]%elem_of_list_to_set%list_elem_of_filter. apply list_elem_of_fmap in Hin as ([name t'] & Heq & Hin).
  simpl in Heq. subst t'. apply elem_of_map_to_list in Hin. by apply (Hk name).
Qed.
End theorems.

(** ** Runs *)

#[export] Instance op_ok_dec RemotePeer cm op : Decision (op_ok RemotePeer cm op).
Proof. destruct op; simpl; apply _. Defined.

Module Demo.

#[local] Existing Instance insertionSort.

(** One connection per peer, but for connections 3 and 4. *)
Definition peerOf (c : Conn) : ID := [if (c =? 4)%nat then 3 else Z.of_nat c mod 256].
Definition reports (c : Conn) : ConnStats := mkStats (if Nat.even c then DirInbound else DirOutbound) (Z.of_nat c mod 2).

Fixpoint play (ops : list cop) (cm : BasicConnMgr) (live : gset Conn) : option (BasicConnMgr * gset Conn) :=
  match ops with
  | [] => Some (cm, live)
  | op :: ops =>
      if decide (op_ok peerOf cm op) then cm ← apply_op peerOf op cm; play ops cm (live_after op live) else None
  end.

Lemma play_reach ops : forall cm live x,
  reach peerOf cm live -> play ops cm live = Some x -> reach peerOf (fst x) (snd x).
Proof.
  induction ops as [|op ops IH]; intros cm live x Hr; simpl; [by intros [= <-]|]. case_decide as Hop; [|done].
  intros (cm' & Ha & Hx)%bind_Some. eapply IH; [|done]. by eapply reach_op.
Qed.

(** The low watermark is 1, the high one 2, the grace period 10. *)
Definition from_new (ops : list cop) : option (BasicConnMgr * gset Conn) :=
  match NewConnManager 1 2 [WithGracePeriod 10; DecayerConfig 5] 0 with Ok cm => play ops cm ∅ | Err _ => None end.
Definition state (ops : list cop) : BasicConnMgr * gset Conn :=
  default (mkMgr (mkConfig 0 0 0 0 None false) (NewDecayer 0 0) [] ∅ 0 0 0, ∅) (from_new ops).

Lemma state_reach ops : is_Some (from_new ops) -> reach peerOf (fst (state ops)) (snd (state ops)).
Proof.
  unfold state. intros [x Hx]. rewrite Hx. unfold from_new in Hx.
  destruct (NewConnManager 1 2 [WithGracePeriod 10; DecayerConfig 5] 0) as [cm|] eqn:Hn; [|done]. eapply play_reach; [|done].
  apply (reach_new peerOf _ _ _ _ cm Hn). by injection Hn as <-.
Qed.

Lemma peerOf_ok c : id_ok (peerOf c).
Proof.
  split; [done|]. constructor; [|constructor]. unfold is_byte. destruct (c =? 4)%nat; [lia|].
  apply Z.mod_pos_bound. lia.
Qed.

(** Four connections to three peers, of which the second is valued. *)
Definition opens : list cop :=
  [OConnected 1 0; OTagPeer [2] [65] 7 1; OConnected 2 1; OConnected 3 2; OConnected 4 2; OConnected 4 3; OTagPeer [1] [65] 3 3].
Definition cm4 : BasicConnMgr := fst (state opens).
Definition live4 : gset Conn := snd (state opens).

Lemma reach4 : reach peerOf cm4 live4.
Proof. apply state_reach. vm_compute. eauto. Qed.

Lemma conns_tracked_witness :
  ConnCount (GetInfo cm4) = 4 /\ exists cm', apply_op peerOf (ODisconnected 3) cm4 = Some cm'.
Proof.
  destruct (conns_tracked peerOf cm4 live4 reach4) as (Hc & _ & Ht). split.
  - rewrite Hc. vm_compute. reflexivity.
  - apply Ht. apply peerOf_ok.
Defined.

Lemma value_is_sum_witness :
  exists pi, peer_at cm4 [2] = Some pi /\ pi_value pi = wrap64 7 /\ pi_temp pi = false.
Proof.
  destruct (peer_at cm4 [2]) as [pi|] eqn:Hp; [|vm_compute in Hp; done]. exists pi. split; [done|].
  destruct (value_is_sum peerOf cm4 live4 [2] pi reach4 Hp) as [Hv Ht]. split.
  - rewrite Hv. vm_compute in Hp. injection Hp as <-. vm_compute. reflexivity.
  - vm_compute in Hp. by injection Hp as <-.
Defined.

Lemma trim_spares_witness :
  exists cm' sel, getConnsToClose reports 100 cm4 = Some (cm', sel) /\ NoDup sel /\ 3%nat ∈ sel /\ 4%nat ∈ sel.
Proof.
  destruct (getConnsToClose reports 100 cm4) as [[cm' sel]|] eqn:Hg; [|vm_compute in Hg; done].
  exists cm', sel. split; [done|]. destruct (trim_spares peerOf reports 100 cm4 live4 cm' sel reach4 Hg) as (Hnd & _ & Hall).
  assert (3%nat ∈ sel) as H3 by (vm_compute in Hg; injection Hg as _ <-; set_solver).
  split; [done|]. split; [done|]. destruct (Hall 3%nat H3) as (_ & _ & _ & Hpeer). apply Hpeer; [|done].
  vm_compute. done.
Defined.

Lemma trim_reaches_low_water_witness :
  exists cm' sel, getConnsToClose reports 100 cm4 = Some (cm', sel) /\
    exists closed kept, sel = concat (map conns_of closed) /\ nconns_all kept <= 1.
Proof.
  destruct (getConnsToClose reports 100 cm4) as [[cm' sel]|] eqn:Hg; [|vm_compute in Hg; done].
  exists cm', sel. split; [done|].
  destruct (trim_reaches_low_water peerOf reports 100 cm4 live4 cm' sel reach4 Hg) as (closed & kept & _ & Hs & Hk & _).
  - intros inf Hin. assert (Forall (fun inf => 0 <= streams_of reports inf) (collect (outOfGrace 100 cm4) cm4)) as Hall by (apply (bool_decide_unpack _); vm_compute; exact I).
    rewrite Forall_forall in Hall. by apply Hall.
  - vm_compute. split; reflexivity.
  - vm_compute. discriminate.
  - vm_compute. discriminate.
  - exists closed, kept. exact (conj Hs Hk).
Defined.

Lemma trim_settles_witness :
  exists cm1 sel cm2, doTrim reports (trimCount cm4) 100 cm4 = Some (cm1, sel) /\ disconnectAll peerOf sel cm1 = Some cm2 /\
    ConnCount (GetInfo cm2) <= 1.
Proof.
  destruct (trim_settles peerOf reports 100 cm4 live4 reach4 peerOf_ok) as (cm1 & sel & cm2 & Ht & Hd & _ & _ & Hc).
  - intros p pi (s & (i & Hi & Hs)%get_Some & Hp)%bind_Some.
    assert (Forall (fun e => outOfGrace 100 cm4 (fst e) (snd e) = true) (concat (map map_to_list (buckets cm4)))) as Hall by (apply (bool_decide_unpack _); vm_compute; exact I).
    rewrite Forall_forall in Hall. apply (Hall (p, pi)). apply elem_of_entries. eauto.
  - vm_compute. split; reflexivity.
  - vm_compute. reflexivity.
  - vm_compute. discriminate.
  - exists cm1, sel, cm2. exact (conj Ht (conj Hd Hc)).
Defined.

(** The watermarks count connections, not peers: with 20 peers of two connections each and a low
    watermark of 10, a trim leaves five peers. *)
Definition pairOf (c : Conn) : ID := [Z.of_nat c / 2].
Definition pairs : option BasicConnMgr :=
  match NewConnManager 10 20 [WithGracePeriod 10; DecayerConfig 5] 0 with
  | Ok cm => foldl (fun cm c => cm ← cm; Connected pairOf c 0 cm) (Some cm) (seq 0 40)
  | Err _ => None
  end.
Definition peersOf (cm : BasicConnMgr) : nat := length (collect (fun _ _ => true) cm).

Lemma trim_counts_connections :
  (cm ← pairs; Some (ConnCount (GetInfo cm), peersOf cm)) = Some (40, 20%nat) /\
  (cm ← pairs; '(cm1, sel) ← doTrim reports (trimCount cm) 100 cm; cm2 ← disconnectAll pairOf sel cm1;
   Some (ConnCount (GetInfo cm2), peersOf cm2)) = Some (10, 5%nat).
Proof. split; vm_compute; reflexivity. Qed.

(** Peers 1 and 3 are protected: one connection is not. *)
Definition guarded : list cop := opens ++ [OProtect [1] [66]; OProtect [3] [66]].

Lemma emergency_closes_witness :
  NoDup (getConnsToCloseEmergency reports 2 (fst (state guarded))) /\
  Z.of_nat (length (getConnsToCloseEmergency reports 2 (fst (state guarded)))) = 1.
Proof.
  assert (is_Some (from_new guarded)) as Hs by (vm_compute; eauto).
  destruct (emergency_closes peerOf reports 2 _ _ (state_reach guarded Hs)) as (Hnd & _ & _ & Hl).
  - vm_compute. discriminate.
  - split; [exact Hnd|]. rewrite Hl by (vm_compute; reflexivity). vm_compute. reflexivity.
Defined.

(** A tag of peer 1 with value 5. *)
Definition bumped (f : DecayFn) : list cop := [OConnected 1 0; ORegister [68] 5 f BumpOverwrite; OBump 0 [1] 5; OProcessBump 1].

Lemma bumped_state f :
  let cm := fst (state (bumped f)) in
  reach peerOf cm (snd (state (bumped f))) /\ knownTags (cm_decayer cm) !! [68] = Some 0%nat /\
  tagStore (cm_decayer cm) !! 0%nat = Some (mkTag [68] 5 5 f BumpOverwrite false) /\
  exists pi, peer_at cm [1] = Some pi /\ pi_decaying pi !! 0%nat = Some (mkDecaying 0 [1] 1 1 5).
Proof.
  split; [apply state_reach; vm_compute; eauto|]. split; [vm_compute; reflexivity|]. split; [vm_compute; reflexivity|].
  eexists. split; vm_compute; reflexivity.
Qed.

Lemma fixed_decay_expires_witness :
  exists pi', peer_at (ticks [5; 12; 15] (fst (state (bumped (DecayFixed 2))))) [1] = Some pi' /\ pi_decaying pi' !! 0%nat = None.
Proof.
  destruct (bumped_state (DecayFixed 2)) as (Hr & Hk & Ht & pi & Hp & Hv).
  destruct (fixed_decay_expires peerOf _ _ [1] pi [68] 0 _ (mkDecaying 0 [1] 1 1 5) 2 [5; 12; 15] Hr Hk Ht) as (pi' & H1 & H2 & _).
  - reflexivity.
  - vm_compute. split; [reflexivity|discriminate].
  - vm_compute. repeat split; discriminate.
  - exact Hp.
  - exact Hv.
  - vm_compute. split; discriminate.
  - discriminate.
  - vm_compute. discriminate.
  - exists pi'. exact (conj H1 H2).
Defined.

Lemma inactive_never_expires_witness :
  exists pi' v', peer_at (process_tick 1000 (fst (state (bumped (DecayExpireWhenInactive 10))))) [1] = Some pi' /\
    pi_decaying pi' !! 0%nat = Some v' /\ dv_Value v' = 0.
Proof.
  destruct (bumped_state (DecayExpireWhenInactive 10)) as (Hr & Hk & Ht & pi & Hp & Hv).
  destruct (inactive_never_expires peerOf _ _ [1] pi [68] 0 _ (mkDecaying 0 [1] 1 1 5) 10 1000 Hr Hk Ht) as (pi' & v' & H1 & H2 & H3 & _).
  - reflexivity.
  - reflexivity.
  - vm_compute. discriminate.
  - exact Hp.
  - exact Hv.
  - vm_compute. discriminate.
  - exists pi', v'. exact (conj H1 (conj H2 H3)).
Defined.

(** The decayer may take the closing of a tag before a bump that was queued earlier: the bump then
    gives the peer a value of the closed tag, which nothing decays and nothing removes. *)
Definition orphaned (f : DecayFn) : list cop :=
  [OConnected 1 0; ORegister [68] 5 f BumpOverwrite; OBump 0 [1] 5; OCloseTag 0; OProcessClose; OProcessBump 1].

Lemma bump_outlives_tag f :
  let cm := fst (state (orphaned f)) in
  reach peerOf cm (snd (state (orphaned f))) /\ knownTags (cm_decayer cm) = ∅ /\ bumpTagCh (cm_decayer cm) = [] /\
  closeTagCh (cm_decayer cm) = [] /\ (dt_closed <$> tagStore (cm_decayer cm) !! 0%nat) = Some true /\
  forall nows, exists pi v, peer_at (ticks nows cm) [1] = Some pi /\ pi_decaying pi !! 0%nat = Some v /\ dv_Value v = 5.
Proof.
  intros cm. assert (reach peerOf cm (snd (state (orphaned f)))) as Hr by (apply state_reach; vm_compute; eauto).
  split; [exact Hr|]. split; [vm_compute; reflexivity|]. do 3 (split; [vm_compute; reflexivity|]). intros nows.
  destruct (peer_at cm [1]) as [pi|] eqn:Hp; [|vm_compute in Hp; discriminate].
  destruct (ticks_unknown peerOf nows cm _ [1] pi 0 (mkDecaying 0 [1] 1 1 5) (reach_ok _ _ _ Hr)) as (pi' & H1 & H2).
  - intros name. assert (knownTags (cm_decayer cm) = ∅) as -> by (vm_compute; reflexivity). by rewrite lookup_empty.
  - exact Hp.
  - vm_compute in Hp. injection Hp as <-. vm_compute. reflexivity.
  - exists pi', (mkDecaying 0 [1] 1 1 5). split; [exact H1|]. split; [exact H2|reflexivity].
Qed.

(** A decaying tag hides a tag of the same name from [GetTagInfo]: the value it reports is not the sum
    of the tags it reports. *)
Lemma tag_info_hides f :
  let cm := fst (state (bumped f ++ [OTagPeer [1] [68] 3 2])) in
  exists ti, GetTagInfo (fun _ => []) [1] cm = Some (Some ti) /\ ti_Value ti = 8 /\ ti_Tags ti = {[ [68] := 5 ]}.
Proof. vm_compute. eexists. split; [reflexivity|]. split; reflexivity. Qed.

End Demo.
