(* ===== verification/DsKey.v ===== *)
(** * Datastore keys (src/datastore/key.go)

    A key is a string that [NewKey] cleaned.  The file shows that cleaned keys are paths: sequences
    of words, with [Child], [Parent], [IsAncestorOf] and [Less] as the operations on sequences.

    A key that was never cleaned (the zero value) makes some operations panic, which is [None].
    The JSON and the random keys are not modelled. *)

From stdpp Require Import base list numbers strings.
From Stdlib Require Import ZArith Lia.
From S2P Require Import Prelude GoText.

Notation Key := (list Z) (only parsing).

(** ** Cleaning *)

(** [path.Clean] of a rooted path, by the rules of its documentation: empty and [.] elements are
    dropped, and [..] with the element before it. *)
Definition clean_step (acc : list (list Z)) (w : list Z) : list (list Z) :=
  if bool_decide (w = [] \/ w = [dot]) then acc
  else if bool_decide (w = [dot; dot]) then take (length acc - 1) acc
  else acc ++ [w].
Definition path_Clean (s : list Z) : list Z := slash :: Join (foldl clean_step [] (Split slash s)) [slash].

Definition Clean (k : Key) : Key :=
  match k with
  | [] => [slash]
  | c :: _ => if c =? slash then path_Clean k else path_Clean (slash :: k)
  end.

Definition NewKey (s : list Z) : Key := Clean s.

Definition RawKey (s : list Z) : option Key :=
  match s with
  | [] => Some [slash]
  | c :: t =>
      if negb (c =? slash) || (bool_decide (t <> []) && bool_decide (last s = Some slash)) then None
      else Some s
  end.

Definition KeyWithNamespaces (ns : list (list Z)) : Key := NewKey (Join ns [slash]).

(** ** Operations *)

Definition key_List (k : Key) : list (list Z) := tail (Split slash k).

Fixpoint words_less (l1 l2 : list (list Z)) : bool :=
  match l1, l2 with
  | [], [] => false
  | [], _ :: _ => true
  | _ :: _, [] => false
  | c1 :: l1, c2 :: l2 => if lexLess c1 c2 then true else if lexLess c2 c1 then false else words_less l1 l2
  end.
Definition key_Less (k k2 : Key) : bool := words_less (key_List k) (key_List k2).

Definition Reverse (k : Key) : Key := KeyWithNamespaces (rev (key_List k)).
Definition Namespaces (k : Key) : list (list Z) := key_List k.
Definition BaseNamespace (k : Key) : option (list Z) := last (Namespaces k).

Definition NamespaceType (namespace : list Z) : list Z :=
  let parts := Split colon namespace in
  if bool_decide (length parts < 2)%nat then [] else Join (take (length parts - 1) parts) [colon].
Definition NamespaceValue (namespace : list Z) : list Z := default [] (last (Split colon namespace)).

Definition key_Type (k : Key) : option (list Z) := NamespaceType <$> BaseNamespace k.
Definition key_Name (k : Key) : option (list Z) := NamespaceValue <$> BaseNamespace k.
Definition Instance_ (k : Key) (s : list Z) : Key := NewKey (k ++ [colon] ++ s).

Definition Parent (k : Key) : option Key :=
  let n := key_List k in
  match length n with
  | 1%nat => RawKey [slash]
  | O => None
  | _ => Some (NewKey (Join (take (length n - 1) n) [slash]))
  end.

Definition Path (k : Key) : option Key :=
  p ← Parent k; b ← BaseNamespace k; Some (NewKey (p ++ [slash] ++ NamespaceType b)).

Definition Child (k k2 : Key) : option Key :=
  if bool_decide (k = [slash]) then Some k2
  else if bool_decide (k2 = [slash]) then Some k
  else RawKey (k ++ k2).

Definition ChildString (k : Key) (s : list Z) : Key := NewKey (k ++ [slash] ++ s).

Definition IsAncestorOf (k other : Key) : bool :=
  if bool_decide (length other <= length k)%nat then false
  else if bool_decide (k = [slash]) then true
  else bool_decide (other !! length k = Some slash) && bool_decide (take (length k) other = k).
Definition IsDescendantOf (k other : Key) : bool := IsAncestorOf other k.
Definition IsTopLevel (k : Key) : bool := (length (key_List k) =? 1)%nat.

(** ** Keys as paths *)

Definition word_ok (w : list Z) : Prop := w <> [] /\ slash ∉ w /\ w <> [dot] /\ w <> [dot; dot].

#[export] Instance word_ok_dec w : Decision (word_ok w).
Proof. unfold word_ok. apply _. Defined.

Definition key_of (ws : list (list Z)) : Key := slash :: Join ws [slash].
Definition clean_key (k : Key) : Prop := exists ws, Forall word_ok ws /\ k = key_of ws.

Lemma key_of_slashed ws : ws <> [] -> key_of ws = slashed ws.
Proof. intros. by rewrite slashed_Join. Qed.

Lemma key_of_cons w ws : key_of (w :: ws) = slash :: w ++ (if decide (ws = []) then [] else key_of ws).
Proof.
  unfold key_of. case_decide as Hd; [subst; simpl; by rewrite app_nil_r|]. by rewrite Join_cons.
Qed.

Lemma Split_key ws : Forall word_ok ws -> Split slash (key_of ws) = if decide (ws = []) then [[]; []] else [] :: ws.
Proof.
  intros Hws. case_decide as Hd; [by subst|]. rewrite key_of_slashed by done. apply Split_slashed.
  eapply Forall_impl; [done|]. by intros w (? & ? & ?).
Qed.

Lemma key_List_of ws : Forall word_ok ws -> key_List (key_of ws) = if decide (ws = []) then [[]] else ws.
Proof. intros Hws. unfold key_List. rewrite Split_key by done. by case_decide. Qed.

Lemma clean_step_ok acc w : word_ok w -> clean_step acc w = acc ++ [w].
Proof.
  intros (H1 & H2 & H3 & H4). unfold clean_step. rewrite bool_decide_false by naive_solver. by rewrite bool_decide_false.
Qed.

Lemma clean_words ws : forall acc, Forall word_ok ws -> foldl clean_step acc ws = acc ++ ws.
Proof.
  induction ws as [|w ws IH]; intros acc Hws; simpl; [by rewrite app_nil_r|]. apply Forall_cons in Hws as [Hw Hws].
  rewrite clean_step_ok, IH by done. by rewrite <- app_assoc.
Qed.

Lemma clean_total l : forall acc, Forall (fun w => slash ∉ w) l -> Forall word_ok acc -> Forall word_ok (foldl clean_step acc l).
Proof.
  induction l as [|w l IH]; intros acc Hl Ha; simpl; [done|]. apply Forall_cons in Hl as [Hw Hl]. apply IH; [done|].
  unfold clean_step. case_bool_decide as H1; [done|]. case_bool_decide as H2; [by apply Forall_take|].
  apply Forall_app. split; [done|]. apply Forall_singleton. unfold word_ok. naive_solver.
Qed.

Lemma path_Clean_clean s : clean_key (path_Clean s).
Proof. exists (foldl clean_step [] (Split slash s)). split; [|done]. apply clean_total; [apply Split_free|constructor]. Qed.

Lemma NewKey_clean s : clean_key (NewKey s).
Proof.
  unfold NewKey, Clean. destruct s as [|c s]; [by exists []|]. destruct (c =? slash); apply path_Clean_clean.
Qed.

Lemma NewKey_of ws : Forall word_ok ws -> NewKey (key_of ws) = key_of ws.
Proof.
  intros Hws. unfold NewKey, Clean. unfold key_of at 1. rewrite Z.eqb_refl. fold (key_of ws). unfold path_Clean. rewrite Split_key by done.
  case_decide as Hd; [by subst|]. cbn [foldl]. unfold key_of. f_equal. f_equal. by rewrite (clean_words ws).
Qed.

Lemma key_of_inj ws ws' : Forall word_ok ws -> Forall word_ok ws' -> key_of ws = key_of ws' -> ws = ws'.
Proof.
  intros H1 H2 Heq. assert (Split slash (key_of ws) = Split slash (key_of ws')) as Hs by by rewrite Heq.
  rewrite !Split_key in Hs by done. case_decide as D1; case_decide as D2; subst; try done.
  - injection Hs as <-. apply Forall_cons in H2 as [(? & _) _]. done.
  - injection Hs as ->. apply Forall_cons in H1 as [(? & _) _]. done.
  - congruence.
Qed.

(** ** Operations on paths *)

Lemma key_of_root ws : Forall word_ok ws -> key_of ws = [slash] <-> ws = [].
Proof.
  intros Hws. split; [|by intros ->]. intros Heq. apply (key_of_inj ws []); [done|constructor|done].
Qed.

Lemma key_of_app a b : a <> [] -> b <> [] -> key_of (a ++ b) = key_of a ++ key_of b.
Proof.
  intros Ha Hb. rewrite !key_of_slashed by (try done; by destruct a). apply slashed_app.
Qed.

Lemma key_of_last ws : Forall word_ok ws -> ws <> [] -> last (key_of ws) <> Some slash.
Proof.
  intros Hws Hne. destruct ws as [|w ws _] using rev_ind; [done|]. apply Forall_app in Hws as [_ Hw]. apply Forall_singleton in Hw as (H1 & H2 & _).
  rewrite key_of_slashed by (by destruct ws). rewrite slashed_app. unfold slashed at 2. simpl. rewrite app_nil_r.
  change (slash :: w) with ([slash] ++ w). rewrite app_assoc, last_app_ne by done. by apply last_no_slash.
Qed.

Lemma RawKey_of ws : Forall word_ok ws -> RawKey (key_of ws) = Some (key_of ws).
Proof.
  intros Hws. unfold RawKey. unfold key_of at 1. rewrite Z.eqb_refl. simpl. destruct (decide (ws = [])) as [->|Hne]; [done|].
  rewrite (bool_decide_false (last _ = _)); [by rewrite andb_false_r|]. by apply key_of_last.
Qed.

Lemma Child_of a b : Forall word_ok a -> Forall word_ok b -> Child (key_of a) (key_of b) = Some (key_of (a ++ b)).
Proof.
  intros Ha Hb. unfold Child. case_bool_decide as D1; [apply key_of_root in D1; [by subst|done]|].
  case_bool_decide as D2; [apply key_of_root in D2; [subst; by rewrite app_nil_r|done]|].
  rewrite key_of_root in D1, D2 by done. rewrite <- key_of_app by done. by apply RawKey_of, Forall_app.
Qed.

Lemma NewKey_Join ws : Forall word_ok ws -> NewKey (Join ws [slash]) = key_of ws.
Proof.
  intros Hws. destruct ws as [|w ws]; [done|]. assert (Hw := Hws). apply Forall_cons in Hw as [(Hw & Hs & _) _].
  assert (exists c t, Join (w :: ws) [slash] = c :: t /\ c <> slash) as (c & t & HJ & Hc).
  { destruct w as [|c w]; [done|]. destruct ws as [|w' ws].
    - exists c, w. split; [done|]. intros ->. apply Hs. left.
    - rewrite Join_cons by done. eexists c, _. split; [done|]. intros ->. apply Hs. left. }
  rewrite <- (NewKey_of (w :: ws)) by done. unfold key_of. rewrite HJ. unfold NewKey, Clean. rewrite Z.eqb_refl.
  by rewrite (proj2 (Z.eqb_neq c slash)).
Qed.

Lemma Parent_of a w : Forall word_ok (a ++ [w]) -> Parent (key_of (a ++ [w])) = Some (key_of a).
Proof.
  intros Hws. unfold Parent. rewrite key_List_of, decide_False by (done || by destruct a). rewrite length_app. cbn [length].
  apply Forall_app in Hws as [Ha _]. destruct a as [|w' a]; [done|]. replace (length (w' :: a) + 1)%nat with (S (S (length a))) by (simpl; lia).
  replace (S (S (length a)) - 1)%nat with (length (w' :: a)) by (simpl; lia). rewrite take_app_length. f_equal. by apply NewKey_Join.
Qed.

Lemma Split_slashed_app ws t : Forall (fun w => slash ∉ w) ws -> Split slash (slashed ws ++ slash :: t) = [] :: ws ++ Split slash t.
Proof.
  intros Hws. destruct Hws as [|w ws Hw Hws]; [done|]. change (slashed (w :: ws)) with (slash :: w ++ slashed ws).
  cbn [Split app]. rewrite Z.eqb_refl. f_equal. revert w Hw.
  induction Hws as [|w' ws Hw' _ IH]; intros w Hw; [simpl; rewrite app_nil_r; by apply Split_sep|].
  change (slashed (w' :: ws)) with (slash :: w' ++ slashed ws). rewrite <- app_assoc. cbn [app]. rewrite Split_sep by done. by rewrite IH.
Qed.

(** An ancestor is a proper prefix of the path. *)
Lemma IsAncestorOf_of a b :
  Forall word_ok a -> Forall word_ok b -> IsAncestorOf (key_of a) (key_of b) = true <-> exists c, c <> [] /\ b = a ++ c.
Proof.
  intros Ha Hb. unfold IsAncestorOf. split.
  - case_bool_decide as Hlen; [done|]. case_bool_decide as Hroot.
    { apply key_of_root in Hroot; [|done]. subst a. intros _. exists b. split; [|done]. intros ->. simpl in Hlen. lia. }
    rewrite andb_true_iff, !bool_decide_eq_true. intros [Hs Ht]. rewrite key_of_root in Hroot by done.
    assert (key_of b = slashed a ++ slash :: drop (S (length (key_of a))) (key_of b)) as Hk.
    { rewrite <- key_of_slashed by done. rewrite <- (take_drop (length (key_of a)) (key_of b)) at 1. rewrite Ht. f_equal.
      by apply drop_S. }
    assert (b <> []) as Hbne by (intros ->; destruct a; simpl in Hlen; [done|]; unfold key_of in Hlen; simpl in Hlen; lia).
    assert (Split slash (key_of b) = [] :: a ++ Split slash (drop (S (length (key_of a))) (key_of b))) as Hsp.
    { rewrite Hk at 1. apply Split_slashed_app. eapply Forall_impl; [done|]. by intros w (? & ? & ?). }
    rewrite Split_key, decide_False in Hsp by done. injection Hsp as Hsp. eexists. split; [apply Split_nonempty|exact Hsp].
  - intros (c & Hc & ->). apply Forall_app in Hb as [_ Hcok]. destruct (decide (a = [])) as [->|Hne].
    { assert (1 < length (key_of c))%nat as Hl.
      { destruct c as [|w c]; [done|]. apply Forall_cons in Hcok as [(? & _) _]. rewrite key_of_cons. destruct w; [done|]. simpl. lia. }
      rewrite bool_decide_false by (cbn [app]; unfold key_of at 2; simpl; simpl in Hl; lia). done. }
    rewrite key_of_app by done. rewrite length_app. rewrite bool_decide_false by (unfold key_of; simpl; lia).
    rewrite bool_decide_false by (by rewrite key_of_root). rewrite andb_true_iff, !bool_decide_eq_true. split.
    + rewrite lookup_app_r, Nat.sub_diag by lia. done.
    + by rewrite take_app_length.
Qed.

Lemma words_less_irrefl a : words_less a a = false.
Proof. induction a as [|w a IH]; simpl; [done|]. by rewrite lexLess_irrefl. Qed.

Lemma words_less_total a : forall b, words_less a b = false -> words_less b a = false -> a = b.
Proof.
  induction a as [|w a IH]; intros [|w' b]; simpl; try done.
  destruct (lexLess w w') eqn:E1; [done|]. destruct (lexLess w' w) eqn:E2; [done|]. intros. f_equal; [by apply lexLess_total|auto].
Qed.

Lemma words_less_trans a : forall b c, words_less a b = true -> words_less b c = true -> words_less a c = true.
Proof.
  induction a as [|w a IH]; intros [|w' b] [|w'' c]; simpl; try done.
  destruct (lexLess w w') eqn:E1; [|destruct (lexLess w' w) eqn:E1'; [done|]; pose proof (lexLess_total _ _ E1 E1'); subst w'].
  - intros _. destruct (lexLess w' w'') eqn:E2; [by rewrite (lexLess_strict _ _ _ E1 E2)|].
    destruct (lexLess w'' w') eqn:E2'; [done|]. pose proof (lexLess_total _ _ E2 E2'). subst w''. by rewrite E1.
  - destruct (lexLess w w'') eqn:E2; [done|]. destruct (lexLess w'' w); [done|]. apply IH.
Qed.

Lemma key_Less_of a b : Forall word_ok a -> Forall word_ok b -> key_Less (key_of a) (key_of b) = words_less a b.
Proof.
  intros Ha Hb. unfold key_Less. rewrite !key_List_of by done. case_decide as D1; case_decide as D2; subst; try done.
  - destruct Hb as [|w b (Hw & _) _]; [done|]. simpl. by destruct w.
  - destruct Ha as [|w a (Hw & _) _]; [done|]. simpl. by destruct w.
Qed.

(** In the order of strings a key comes before the keys below it. *)
Lemma key_of_below a c : c <> [] -> Forall word_ok (a ++ c) -> lexLess (key_of a) (key_of (a ++ c)) = true.
Proof.
  intros Hc Hok. destruct (decide (a = [])) as [->|Ha].
  - cbn [app] in *. destruct c as [|w c]; [done|]. apply Forall_cons in Hok as [(Hw & _) _]. rewrite key_of_cons. by destruct w.
  - rewrite key_of_app by done. by apply lexLess_prefix.
Qed.

(** C37: Every string makes a key that is a path of words; paths and keys determine each other, and the
    operations on keys are those on paths: appending, dropping the last word, being a proper prefix,
    and the order of the words. *)
Theorem keys_are_paths :
  (forall s, exists ws, Forall word_ok ws /\ NewKey s = key_of ws) /\
  (forall ws ws', Forall word_ok ws -> Forall word_ok ws' ->
    NewKey (key_of ws) = key_of ws /\ (key_of ws = key_of ws' -> ws = ws') /\
    Child (key_of ws) (key_of ws') = Some (key_of (ws ++ ws')) /\
    Parent (key_of ws) = Some (key_of (take (length ws - 1) ws)) /\
    (IsAncestorOf (key_of ws) (key_of ws') = true <-> exists c, c <> [] /\ ws' = ws ++ c) /\
    key_Less (key_of ws) (key_of ws') = words_less ws ws').
Proof.
  split; [apply NewKey_clean|]. intros ws ws' H1 H2. split_and!.
  - by apply NewKey_of.
  - by apply key_of_inj.
  - by apply Child_of.
  - destruct ws as [|w ws _] using rev_ind; [done|]. rewrite Parent_of by done. by rewrite length_app, Nat.add_sub, take_app_length.
  - by apply IsAncestorOf_of.
  - by apply key_Less_of.
Qed.

Lemma keys_are_paths_witness :
  Child (key_of [str "a"]) (key_of [str "b"; str "c"]) = Some (str "/a/b/c") /\ Parent (key_of [str "a"]) = Some (str "/").
Proof.
  destruct keys_are_paths as [_ H].
  destruct (H [str "a"] [str "b"; str "c"]) as (_ & _ & Hc & Hp & _); [apply (bool_decide_unpack _); vm_compute; exact I..|].
  exact (conj Hc Hp).
Defined.
