(* ===== verification/DsQuery.v ===== *)
(** * Datastore queries and the datastore interface (src/datastore/query, datastore.go, basic_ds.go, batch.go)

    The results of a query are a stream of entries and errors, here the list of what [NextSync]
    returns; an early [Close] and the goroutine behind [Next] are not modelled.  The package's filters
    and orders are constructors, any other implementation of the two interfaces is a function.

    [Datastore] is the interface of the package, with the state passed along; [DatastoreLaws] is what an
    implementation promises: it behaves as a map from keys to values, and answers a query with the
    entries of the map. *)

From stdpp Require Import base gmap list numbers sorting.
From Stdlib Require Import ZArith Lia.
From S2P Require Import Prelude GoText GoSort DsKey.

(** ** Entries, filters, orders (query.go, filter.go, order.go) *)

Record Entry := mkEntry { e_Key : list Z; e_Value : list Z; e_Expiration : Z; e_Size : Z }.

Inductive dserror := ErrNotFound | ErrNoMount | ErrBatchUnsupported | ErrOther (n : nat).
Definition Result := result dserror Entry.

Definition bytes_Compare (a b : list Z) : Z := if lexLess a b then -1 else if lexLess b a then 1 else 0.

Inductive Op := Equal | NotEqual | GreaterThan | GreaterThanOrEqual | LessThan | LessThanOrEqual.

Inductive Filter :=
| FilterValueCompare (op : Op) (value : list Z)
| FilterKeyCompare (op : Op) (key : list Z)
| FilterKeyPrefix (prefix : list Z)
| FilterFunction (f : Entry -> bool).

Definition op_holds (op : Op) (cmp : Z) : bool :=
  match op with
  | Equal => cmp =? 0
  | NotEqual => negb (cmp =? 0)
  | LessThan => cmp <? 0
  | LessThanOrEqual => cmp <=? 0
  | GreaterThan => cmp >? 0
  | GreaterThanOrEqual => cmp >=? 0
  end.

Definition HasPrefix (s prefix : list Z) : bool := bool_decide (take (length prefix) s = prefix).

Definition filter_Filter (f : Filter) (e : Entry) : bool :=
  match f with
  | FilterValueCompare op v => op_holds op (bytes_Compare (e_Value e) v)
  | FilterKeyCompare op k => op_holds op (bytes_Compare (e_Key e) k)
  | FilterKeyPrefix p => HasPrefix (e_Key e) p
  | FilterFunction f => f e
  end.

Inductive Order :=
| OrderByFunction (f : Entry -> Entry -> Z)
| OrderByValue
| OrderByValueDescending
| OrderByKey
| OrderByKeyDescending.

Definition order_Compare (o : Order) (a b : Entry) : Z :=
  match o with
  | OrderByFunction f => f a b
  | OrderByValue => bytes_Compare (e_Value a) (e_Value b)
  | OrderByValueDescending => - bytes_Compare (e_Value a) (e_Value b)
  | OrderByKey => bytes_Compare (e_Key a) (e_Key b)
  | OrderByKeyDescending => - bytes_Compare (e_Key a) (e_Key b)
  end.

Fixpoint query_Less (orders : list Order) (a b : Entry) : bool :=
  match orders with
  | [] => lexLess (e_Key a) (e_Key b)
  | cmp :: orders =>
      let c := order_Compare cmp a b in
      if c =? -1 then true else if c =? 1 then false else query_Less orders a b
  end.

Record Query := mkQuery {
  q_Prefix : list Z;
  q_Filters : list Filter;
  q_Orders : list Order;
  q_Limit : Z;
  q_Offset : Z;
  q_KeysOnly : bool;
  q_ReturnExpirations : bool;
  q_ReturnsSizes : bool
}.

(** ** Naive processing of results (query_impl.go) *)

Definition keeps (f : Filter) (r : Result) : bool := match r with Ok e => filter_Filter f e | Err _ => true end.
Definition NaiveFilter (qr : list Result) (f : Filter) : list Result := filter (fun r => keeps f r = true) qr.

Definition NaiveLimit {A} (qr : list A) (limit : Z) : list A := if limit <=? 0 then qr else take (Z.to_nat limit) qr.

Fixpoint skip (n : nat) (qr : list Result) : list Result :=
  match n, qr with
  | O, _ => qr
  | _, [] => []
  | S n, Ok _ :: qr => skip n qr
  | S n, Err e :: qr => Err e :: skip (S n) qr
  end.
Definition NaiveOffset (qr : list Result) (offset : Z) : list Result := skip (Z.to_nat offset) qr.

Section sorting.
Context `{!SortSlice}.

Definition query_Sort (orders : list Order) (entries : list Entry) : list Entry := sortSlice (query_Less orders) entries.

Definition entries_of (qr : list Result) : list Entry := omap (fun r => match r with Ok e => Some e | Err _ => None end) qr.
Definition is_error (r : Result) : bool := match r with Ok _ => false | Err _ => true end.
Definition errors_of (qr : list Result) : list Result := filter (fun r => is_error r = true) qr.

(** Errors are passed on as they come, the entries when all are there. *)
Definition NaiveOrder (qr : list Result) (orders : list Order) : list Result :=
  match orders with
  | [] => qr
  | _ => errors_of qr ++ map Ok (query_Sort orders (entries_of qr))
  end.

(** The first step of [NaiveQueryApply]. *)
Definition NaivePrefix (prefix : list Z) (qr : list Result) : list Result :=
  match prefix with
  | [] => qr
  | c :: _ =>
      let prefix := path_Clean (if c =? slash then prefix else slash :: prefix) in
      if bool_decide (prefix = [slash]) then qr else NaiveFilter qr (FilterKeyPrefix (prefix ++ [slash]))
  end.

Definition NaiveQueryApply (q : Query) (qr : list Result) : list Result :=
  let qr := NaivePrefix (q_Prefix q) qr in
  let qr := foldl NaiveFilter qr (q_Filters q) in
  let qr := NaiveOrder qr (q_Orders q) in
  let qr := if q_Offset q =? 0 then qr else NaiveOffset qr (q_Offset q) in
  if q_Limit q =? 0 then qr else NaiveLimit qr (q_Limit q).
End sorting.

(** ** The interface *)

(** A call on a datastore of state [D]; [None] is a panic. *)
Definition dsM (D A : Type) : Type := D -> option (result dserror A * D).

Class Datastore (D : Type) := {
  ds_Put : list Z -> list Z -> dsM D unit;
  ds_Get : list Z -> dsM D (list Z);
  ds_Has : list Z -> dsM D bool;
  ds_GetSize : list Z -> dsM D Z;
  ds_Delete : list Z -> dsM D unit;
  ds_Query : Query -> dsM D (list Result)
}.

(** The keys and queries of the contract: keys are clean and not the root, the keys in filters are
    clean, and orders are those of the package. *)
Definition key_ok (k : list Z) : Prop := clean_key k /\ k <> [slash].
Definition filter_ok (f : Filter) : Prop :=
  match f with FilterKeyCompare _ k => clean_key k | FilterKeyPrefix k => clean_key k | _ => True end.
Definition order_ok (o : Order) : Prop := match o with OrderByFunction _ => False | _ => True end.
Definition query_ok (q : Query) : Prop := Forall filter_ok (q_Filters q) /\ Forall order_ok (q_Orders q).

Definition entry_of (q : Query) (kv : list Z * list Z) : Entry :=
  mkEntry (fst kv) (if q_KeysOnly q then [] else snd kv) 0 (Z.of_nat (length (snd kv))).

(** The keys strictly below a prefix. *)
Definition under (prefix k : list Z) : bool := IsAncestorOf (NewKey prefix) k.

(** The entries of a map below the prefix, and those the filters pass. *)
Definition entries_under (q : Query) (m : gmap (list Z) (list Z)) : list Entry :=
  map (entry_of q) (filter (fun kv => under (q_Prefix q) (fst kv) = true) (map_to_list m)).
Definition passes (q : Query) (e : Entry) : Prop := Forall (fun f => filter_Filter f e = true) (q_Filters q).

#[export] Instance passes_dec q e : Decision (passes q e).
Proof. unfold passes. apply _. Defined.

Definition in_order (orders : list Order) (es : list Entry) : Prop :=
  orders = [] \/ StronglySorted (fun a b => query_Less orders b a = false) es.

(** [es] answers the query on the map [m]. *)
Definition answers (q : Query) (m : gmap (list Z) (list Z)) (es : list Entry) : Prop :=
  exists all, all ≡ₚ filter (passes q) (entries_under q m) /\ in_order (q_Orders q) all /\
    es = NaiveLimit (drop (Z.to_nat (q_Offset q)) all) (q_Limit q).

Class DatastoreLaws (D : Type) `{Datastore D} (ok : D -> Prop) (view : D -> gmap (list Z) (list Z)) : Prop := {
  law_keys d k : ok d -> is_Some (view d !! k) -> key_ok k;
  law_Put d k v : ok d -> key_ok k -> exists d', ds_Put k v d = Some (Ok tt, d') /\ ok d' /\ view d' = <[k := v]> (view d);
  law_Delete d k : ok d -> key_ok k -> exists d', ds_Delete k d = Some (Ok tt, d') /\ ok d' /\ view d' = delete k (view d);
  law_Get d k : ok d -> key_ok k ->
    exists d', ds_Get k d = Some (match view d !! k with Some v => Ok v | None => Err ErrNotFound end, d') /\ ok d' /\ view d' = view d;
  law_Has d k : ok d -> key_ok k ->
    exists d', ds_Has k d = Some (Ok (bool_decide (is_Some (view d !! k))), d') /\ ok d' /\ view d' = view d;
  law_GetSize d k : ok d -> key_ok k ->
    exists d', ds_GetSize k d = Some (match view d !! k with Some v => Ok (Z.of_nat (length v)) | None => Err ErrNotFound end, d') /\
      ok d' /\ view d' = view d;
  law_Query d q : ok d -> query_ok q ->
    exists es d', ds_Query q d = Some (Ok (map Ok es), d') /\ ok d' /\ view d' = view d /\ answers q (view d) es
}.

(** ** The order of entries *)

(** A comparison with a sign for every pair. *)
Record cmp_ok (f : Entry -> Entry -> Z) : Prop := {
  cmp_range a b : f a b = -1 \/ f a b = 0 \/ f a b = 1;
  cmp_anti a b : f b a = - f a b;
  cmp_trans a b c : f a b <= 0 -> f b c <= 0 -> f a c <= 0
}.

Lemma bytes_Compare_cases a b :
  (bytes_Compare a b = -1 /\ lexLess a b = true) \/ (bytes_Compare a b = 1 /\ lexLess b a = true) \/ (bytes_Compare a b = 0 /\ a = b).
Proof.
  unfold bytes_Compare. destruct (lexLess a b) eqn:E1; [tauto|]. destruct (lexLess b a) eqn:E2; [tauto|]. right. right. split; [done|by apply lexLess_total].
Qed.

Lemma bytes_Compare_anti a b : bytes_Compare b a = - bytes_Compare a b.
Proof.
  unfold bytes_Compare. destruct (lexLess a b) eqn:E1; [by rewrite (lexLess_asym _ _ E1)|]. by destruct (lexLess b a).
Qed.

Lemma bytes_Compare_le a b : bytes_Compare a b <= 0 <-> lexLess b a = false.
Proof.
  unfold bytes_Compare. destruct (lexLess a b) eqn:E1; [rewrite (lexLess_asym _ _ E1); split; [done|lia]|]. destruct (lexLess b a); split; (done || lia).
Qed.

Lemma bytes_Compare_trans a b c : bytes_Compare a b <= 0 -> bytes_Compare b c <= 0 -> bytes_Compare a c <= 0.
Proof. rewrite !bytes_Compare_le. apply lexLess_trans. Qed.

Lemma cmp_ok_bytes (g : Entry -> list Z) : cmp_ok (fun a b => bytes_Compare (g a) (g b)) /\ cmp_ok (fun a b => - bytes_Compare (g a) (g b)).
Proof.
  assert (forall a b, bytes_Compare a b = -1 \/ bytes_Compare a b = 0 \/ bytes_Compare a b = 1) as Hr
    by (intros a b; destruct (bytes_Compare_cases a b) as [[-> _] | [[-> _] | [-> _]]]; tauto).
  split; split; intros.
  - apply Hr.
  - apply bytes_Compare_anti.
  - by eapply bytes_Compare_trans.
  - destruct (Hr (g a) (g b)) as [-> | [-> | ->]]; lia.
  - rewrite (bytes_Compare_anti (g a)). lia.
  - pose proof (bytes_Compare_anti (g a) (g b)). pose proof (bytes_Compare_anti (g b) (g c)). pose proof (bytes_Compare_anti (g a) (g c)).
    assert (bytes_Compare (g c) (g a) <= 0) by (apply (bytes_Compare_trans _ (g b)); lia). lia.
Qed.

Lemma order_cmp o : order_ok o -> cmp_ok (order_Compare o).
Proof. destruct o; [done|..]; intros _; apply cmp_ok_bytes. Qed.

Lemma query_Less_asym os a b : Forall order_ok os -> query_Less os a b = true -> query_Less os b a = false.
Proof.
  induction 1 as [|o os Ho _ IH]; simpl; [apply lexLess_asym|]. apply order_cmp in Ho as Hc. rewrite (cmp_anti _ Hc a b).
  destruct (cmp_range _ Hc a b) as [-> | [-> | ->]]; simpl; done.
Qed.

Lemma query_Less_trans os a b c :
  Forall order_ok os -> query_Less os b a = false -> query_Less os c b = false -> query_Less os c a = false.
Proof.
  induction 1 as [|o os Ho _ IH]; simpl; [apply lexLess_trans|]. apply order_cmp in Ho as Hc.
  pose proof (cmp_trans _ Hc a b c). pose proof (cmp_trans _ Hc b c a). pose proof (cmp_trans _ Hc c a b).
  pose proof (cmp_anti _ Hc a b) as A1. pose proof (cmp_anti _ Hc b c) as A2. pose proof (cmp_anti _ Hc a c) as A3.
  destruct (cmp_range _ Hc b a) as [E1|[E1|E1]], (cmp_range _ Hc c b) as [E2|[E2|E2]], (cmp_range _ Hc c a) as [E3|[E3|E3]];
    rewrite E1, E2, E3; simpl; try done; try lia; auto.
Qed.

Lemma query_Less_orders os l : Forall order_ok os -> orders (query_Less os) l.
Proof. intros Hos. split; intros *; [intros _ _; by apply query_Less_asym|intros _ _ _; by apply query_Less_trans]. Qed.

(** Entries with different keys are ordered. *)
Lemma query_Less_total os a b : Forall order_ok os -> query_Less os a b = false -> query_Less os b a = false -> e_Key a = e_Key b.
Proof.
  induction 1 as [|o os Ho _ IH]; simpl; [apply lexLess_total|]. apply order_cmp in Ho as Hc. rewrite (cmp_anti _ Hc a b).
  destruct (cmp_range _ Hc a b) as [-> | [-> | ->]]; simpl; done.
Qed.

(** ** Results without errors *)

Lemma NaiveFilter_ok es f : NaiveFilter (map Ok es) f = map Ok (filter (fun e => filter_Filter f e = true) es).
Proof.
  unfold NaiveFilter. induction es as [|e es IH]; [done|]. simpl. rewrite !filter_cons. simpl.
  destruct (decide (filter_Filter f e = true)); simpl; by rewrite IH.
Qed.

Lemma NaiveFilters_ok fs : forall es,
  foldl NaiveFilter (map Ok es) fs = map Ok (filter (fun e => Forall (fun f => filter_Filter f e = true) fs) es).
Proof.
  induction fs as [|f fs IH]; intros es; simpl.
  - f_equal. symmetry. induction es as [|e es IHe]; [done|]. rewrite filter_cons, decide_True by constructor. by rewrite IHe.
  - rewrite NaiveFilter_ok, IH. f_equal. rewrite list_filter_filter. apply list_filter_iff. intros e. rewrite Forall_cons. tauto.
Qed.

Lemma skip_ok n : forall es, skip n (map Ok es) = map Ok (drop n es).
Proof. induction n as [|n IH]; intros [|e es]; simpl; [done..|]. apply IH. Qed.

Lemma NaiveLimit_map {A B} (f : A -> B) l n : NaiveLimit (map f l) n = map f (NaiveLimit l n).
Proof. unfold NaiveLimit. case_bool; [done|]. by rewrite fmap_take. Qed.

Lemma entries_ok es : entries_of (map Ok es) = es.
Proof. unfold entries_of. induction es as [|e es IH]; [done|]. simpl. by f_equal. Qed.
Lemma errors_ok es : errors_of (map Ok es) = [].
Proof. unfold errors_of. induction es as [|e es IH]; [done|]. simpl. by rewrite filter_cons. Qed.

(** ** Runs *)

Inductive dop :=
| DPut (k v : list Z)
| DGet (k : list Z)
| DHas (k : list Z)
| DGetSize (k : list Z)
| DDelete (k : list Z)
| DQuery (q : Query).

Inductive dans :=
| ADone (r : result dserror unit)
| AValue (r : result dserror (list Z))
| AHas (r : result dserror bool)
| ASize (r : result dserror Z)
| AResults (r : result dserror (list Result)).

Definition dop_ok (op : dop) : Prop :=
  match op with
  | DPut k _ | DGet k | DHas k | DGetSize k | DDelete k => key_ok k
  | DQuery q => query_ok q
  end.

Definition with_answer {D A} (f : A -> dans) (x : option (A * D)) : option (dans * D) := '(a, d) ← x; Some (f a, d).

Definition store_step `{Datastore D} (op : dop) (d : D) : option (dans * D) :=
  match op with
  | DPut k v => with_answer ADone (ds_Put k v d)
  | DGet k => with_answer AValue (ds_Get k d)
  | DHas k => with_answer AHas (ds_Has k d)
  | DGetSize k => with_answer ASize (ds_GetSize k d)
  | DDelete k => with_answer ADone (ds_Delete k d)
  | DQuery q => with_answer AResults (ds_Query q d)
  end.

Fixpoint store_run `{Datastore D} (ops : list dop) (d : D) : option (list dans * D) :=
  match ops with
  | [] => Some ([], d)
  | op :: ops => '(a, d) ← store_step op d; '(l, d) ← store_run ops d; Some (a :: l, d)
  end.

(** What a map of keys and values answers. *)
Inductive map_step : dop -> gmap (list Z) (list Z) -> dans -> gmap (list Z) (list Z) -> Prop :=
| map_step_put k v m : map_step (DPut k v) m (ADone (Ok tt)) (<[k := v]> m)
| map_step_get k m : map_step (DGet k) m (AValue (match m !! k with Some v => Ok v | None => Err ErrNotFound end)) m
| map_step_has k m : map_step (DHas k) m (AHas (Ok (bool_decide (is_Some (m !! k))))) m
| map_step_size k m :
    map_step (DGetSize k) m (ASize (match m !! k with Some v => Ok (Z.of_nat (length v)) | None => Err ErrNotFound end)) m
| map_step_delete k m : map_step (DDelete k) m (ADone (Ok tt)) (delete k m)
| map_step_query q m es : answers q m es -> map_step (DQuery q) m (AResults (Ok (map Ok es))) m.

Inductive map_run : list dop -> gmap (list Z) (list Z) -> list dans -> gmap (list Z) (list Z) -> Prop :=
| map_run_nil m : map_run [] m [] m
| map_run_cons op ops m a m1 l m2 : map_step op m a m1 -> map_run ops m1 l m2 -> map_run (op :: ops) m (a :: l) m2.

Section lawful.
Context {D : Type} `{Datastore D} (ok : D -> Prop) (view : D -> gmap (list Z) (list Z)) {laws : DatastoreLaws D ok view}.

Lemma lawful_step op d :
  ok d -> dop_ok op -> exists a d', store_step op d = Some (a, d') /\ ok d' /\ map_step op (view d) a (view d').
Proof.
  intros Hd Hop. destruct op as [k v|k|k|k|k|q]; simpl in *.
  - destruct (law_Put d k v Hd Hop) as (d' & -> & Hd' & Hv). eexists _, d'. split; [done|]. split; [done|]. rewrite Hv. constructor.
  - destruct (law_Get d k Hd Hop) as (d' & -> & Hd' & Hv). eexists _, d'. split; [done|]. split; [done|]. rewrite Hv. constructor.
  - destruct (law_Has d k Hd Hop) as (d' & -> & Hd' & Hv). eexists _, d'. split; [done|]. split; [done|]. rewrite Hv. constructor.
  - destruct (law_GetSize d k Hd Hop) as (d' & -> & Hd' & Hv). eexists _, d'. split; [done|]. split; [done|]. rewrite Hv. constructor.
  - destruct (law_Delete d k Hd Hop) as (d' & -> & Hd' & Hv). eexists _, d'. split; [done|]. split; [done|]. rewrite Hv. constructor.
  - destruct (law_Query d q Hd Hop) as (es & d' & -> & Hd' & Hv & Ha). eexists _, d'. split; [done|]. split; [done|]. rewrite Hv. by constructor.
Qed.

(** Any calls on a lawful datastore are answered as a map answers them. *)
Lemma lawful_run ops : forall d,
  ok d -> Forall dop_ok ops -> exists l d', store_run ops d = Some (l, d') /\ ok d' /\ map_run ops (view d) l (view d').
Proof.
  induction ops as [|op ops IH]; intros d Hd Hops; simpl.
  - eexists _, d. split; [done|]. split; [done|constructor].
  - apply Forall_cons in Hops as [Hop Hops]. destruct (lawful_step op d Hd Hop) as (a & d1 & -> & Hd1 & Hs). simpl.
    destruct (IH d1 Hd1 Hops) as (l & d2 & -> & Hd2 & Hr). eexists _, d2. split; [done|]. split; [done|]. by econstructor.
Qed.
End lawful.
