(* ===== verification/DsMap.v ===== *)
(** * The map datastore, batches and the batching datastore (src/datastore/basic_ds.go, batch.go, autobatch)

    [MapDatastore] answers queries with the naive functions of the query package; [autobatch] holds
    writes in a buffer until there are too many.  Both are shown to keep the contract of DsQuery.v,
    the second over any child that keeps it. *)

From stdpp Require Import base gmap list numbers sorting strings.
From Stdlib Require Import ZArith Lia.
From S2P Require Import Prelude GoText GoSort DsKey DsQuery.

(** ** Keys *)

Lemma key_ok_of k : key_ok k <-> exists ws, Forall word_ok ws /\ ws <> [] /\ k = key_of ws.
Proof.
  split.
  - intros [(ws & Hws & ->) Hr]. exists ws. by rewrite key_of_root in Hr.
  - intros (ws & Hws & Hne & ->). split; [by exists ws|]. by rewrite key_of_root.
Qed.

Lemma key_of_ok k ws : k = key_of ws -> Forall word_ok ws -> ws <> [] -> key_ok k.
Proof. intros -> Hws Hne. apply key_ok_of. eauto. Qed.

(** ** Naive queries *)

Lemma HasPrefix_ancestor p k : p <> [slash] -> HasPrefix k (p ++ [slash]) = IsAncestorOf p k.
Proof.
  intros Hp. unfold HasPrefix, IsAncestorOf. rewrite length_app. simpl. rewrite Nat.add_1_r. case_bool_decide as H1.
  - assert (length (take (S (length p)) k) = S (length p)) as Hl by (rewrite H1, length_app; simpl; lia). rewrite length_take in Hl.
    rewrite bool_decide_false by lia. rewrite bool_decide_false by done. symmetry. apply andb_true_iff. rewrite !bool_decide_eq_true. split.
    + rewrite <- (lookup_take_lt k (S (length p))) by lia. rewrite H1. by rewrite lookup_app_r, Nat.sub_diag.
    + rewrite <- (take_app_length p [slash]) at 2. rewrite <- H1. by rewrite take_take, Nat.min_l by lia.
  - case_bool_decide as H2; [done|]. rewrite bool_decide_false by done. symmetry. apply andb_false_iff. rewrite !bool_decide_eq_false.
    destruct (decide (k !! length p = Some slash)) as [H3|]; [|by left]. right. intros H4. apply H1. erewrite take_S_r by done. by rewrite H4.
Qed.

Lemma under_root k : key_ok k -> under [] k = true /\ IsAncestorOf [slash] k = true.
Proof.
  intros [(ws & Hws & ->) Hr]. assert (IsAncestorOf (key_of []) (key_of ws) = true) as Ha.
  { apply IsAncestorOf_of; [constructor|done|]. exists ws. split; [|done]. by rewrite <- key_of_root. }
  done.
Qed.

Section naive.
Context `{!SortSlice}.

Definition in_sort (orders : list Order) (es : list Entry) : list Entry := match orders with [] => es | _ => query_Sort orders es end.

Lemma in_sort_perm os es : in_sort os es ≡ₚ es.
Proof. unfold in_sort. destruct os; [done|]. apply sortSlice_perm. Qed.

Lemma in_sort_order os es : Forall order_ok os -> in_order os (in_sort os es).
Proof. intros Hos. unfold in_sort, in_order. destruct os; [by left|right]. by apply sortSlice_sorted, query_Less_orders. Qed.

Lemma offset_ok es off : (if off =? 0 then map Ok es else NaiveOffset (map Ok es) off) = map (@Ok dserror Entry) (drop (Z.to_nat off) es).
Proof. destruct (Z.eqb_spec off 0) as [->|]; [done|]. unfold NaiveOffset. apply skip_ok. Qed.

Lemma limit_ok (es : list Entry) l : (if l =? 0 then map Ok es else NaiveLimit (map Ok es) l) = map (@Ok dserror Entry) (NaiveLimit es l).
Proof. destruct (Z.eqb_spec l 0) as [->|]; [done|]. apply NaiveLimit_map. Qed.

Lemma filter_id (P : Entry -> Prop) `{forall e, Decision (P e)} es : Forall P es -> filter P es = es.
Proof. induction 1 as [|e es He _ IH]; [done|]. by rewrite filter_cons, decide_True, IH. Qed.

Lemma NaivePrefix_ok p es :
  Forall (fun e => key_ok (e_Key e)) es -> NaivePrefix p (map Ok es) = map Ok (filter (fun e => under p (e_Key e) = true) es).
Proof.
  intros Hes. unfold NaivePrefix. destruct p as [|c t].
  { rewrite filter_id; [done|]. eapply Forall_impl; [done|]. intros e He. by apply under_root. }
  assert (path_Clean (if c =? slash then c :: t else slash :: c :: t) = NewKey (c :: t)) as -> by (unfold NewKey, Clean; by destruct (c =? slash)).
  cbv zeta. unfold under. case_bool_decide as Hr.
  - rewrite Hr, filter_id; [done|]. eapply Forall_impl; [done|]. intros e He. by apply under_root.
  - rewrite NaiveFilter_ok. f_equal. apply list_filter_iff. intros e. simpl. by rewrite HasPrefix_ancestor.
Qed.

Lemma NaiveOrder_ok os es : NaiveOrder (map Ok es) os = map Ok (in_sort os es).
Proof. unfold NaiveOrder, in_sort. destruct os; [done|]. by rewrite errors_ok, entries_ok. Qed.

Lemma NaiveQueryApply_ok q es :
  Forall (fun e => key_ok (e_Key e)) es ->
  NaiveQueryApply q (map Ok es) =
  map Ok (NaiveLimit (drop (Z.to_nat (q_Offset q))
    (in_sort (q_Orders q) (filter (passes q) (filter (fun e => under (q_Prefix q) (e_Key e) = true) es)))) (q_Limit q)).
Proof.
  intros Hes. unfold NaiveQueryApply. rewrite NaivePrefix_ok, NaiveFilters_ok, NaiveOrder_ok by done. by rewrite offset_ok, limit_ok.
Qed.

(** ** The map datastore *)

Notation MapDatastore := (gmap (list Z) (list Z)) (only parsing).

Definition NewMapDatastore : MapDatastore := ∅.
Definition map_Put (key value : list Z) : dsM MapDatastore unit := fun d => Some (Ok tt, <[key := value]> d).
Definition map_Get (key : list Z) : dsM MapDatastore (list Z) := fun d =>
  Some (match d !! key with Some v => Ok v | None => Err ErrNotFound end, d).
Definition map_Has (key : list Z) : dsM MapDatastore bool := fun d => Some (Ok (bool_decide (is_Some (d !! key))), d).
Definition map_GetSize (key : list Z) : dsM MapDatastore Z := fun d =>
  Some (match d !! key with Some v => Ok (Z.of_nat (length v)) | None => Err ErrNotFound end, d).
Definition map_Delete (key : list Z) : dsM MapDatastore unit := fun d => Some (Ok tt, delete key d).
Definition map_Query (q : Query) : dsM MapDatastore (list Result) := fun d =>
  Some (Ok (NaiveQueryApply q (map Ok (map (entry_of q) (map_to_list d)))), d).

#[export] Instance map_datastore : Datastore MapDatastore := {|
  ds_Put := map_Put; ds_Get := map_Get; ds_Has := map_Has; ds_GetSize := map_GetSize; ds_Delete := map_Delete; ds_Query := map_Query
|}.

Definition map_ok (d : MapDatastore) : Prop := forall k, is_Some (d !! k) -> key_ok k.

Lemma filter_entries q (P : list Z -> bool) (l : list (list Z * list Z)) :
  filter (fun e => P (e_Key e) = true) (map (entry_of q) l) = map (entry_of q) (filter (fun kv => P (fst kv) = true) l).
Proof.
  induction l as [|[k v] l IH]; [done|]. simpl. rewrite !filter_cons. simpl. destruct (decide (P k = true)); simpl; by rewrite IH.
Qed.

#[export] Instance map_laws : DatastoreLaws MapDatastore map_ok id.
Proof.
  split; unfold id.
  - intros d k Hd. apply Hd.
  - intros d k v Hd Hk. eexists. split; [done|]. split; [|done]. intros k' [v' [[<- _]|[_ Hv]]%lookup_insert_Some]; [done|]. apply Hd. eauto.
  - intros d k Hd Hk. eexists. split; [done|]. split; [|done]. intros k' [v' [_ Hv]%lookup_delete_Some]. apply Hd. eauto.
  - intros d k Hd Hk. by eexists.
  - intros d k Hd Hk. by eexists.
  - intros d k Hd Hk. by eexists.
  - intros d q Hd [Hf Ho]. simpl. unfold map_Query. rewrite NaiveQueryApply_ok.
    + eexists _, d. split; [done|]. split; [done|]. split; [done|]. rewrite filter_entries. eexists. split; [apply in_sort_perm|].
      split; [by apply in_sort_order|]. done.
    + apply Forall_forall. intros e ([k v] & -> & Hin%elem_of_map_to_list)%list_elem_of_fmap. apply Hd. eauto.
Qed.
End naive.

(** ** Batches (batch.go) *)

Record batchOp := mkOp { op_delete : bool; op_value : list Z }.

Class Batching (D B : Type) := {
  ds_Batch : dsM D B;
  b_Put : list Z -> list Z -> B -> result dserror B;
  b_Delete : list Z -> B -> result dserror B;
  b_Commit : B -> dsM D unit
}.

(** What a batch does to a map. *)
Definition batched (o : option batchOp) (v : option (list Z)) : option (list Z) :=
  match o with Some o => if op_delete o then None else Some (op_value o) | None => v end.
Definition apply_batch (ops : gmap (list Z) batchOp) (m : gmap (list Z) (list Z)) : gmap (list Z) (list Z) := merge batched ops m.

Lemma lookup_batch ops m k : apply_batch ops m !! k = batched (ops !! k) (m !! k).
Proof. unfold apply_batch. rewrite lookup_merge. unfold diag_None, batched. by destruct (ops !! k), (m !! k). Qed.

Class BatchingLaws (D B : Type) `{Datastore D} `{!Batching D B} (ok : D -> Prop) (view : D -> gmap (list Z) (list Z))
    (content : B -> gmap (list Z) batchOp) : Prop := {
  law_Batch d : ok d -> exists b d', ds_Batch d = Some (Ok b, d') /\ content b = ∅ /\ ok d' /\ view d' = view d;
  law_bPut b k v : exists b', b_Put k v b = Ok b' /\ content b' = <[k := mkOp false v]> (content b);
  law_bDelete b k : exists b', b_Delete k b = Ok b' /\ content b' = <[k := mkOp true []]> (content b);
  law_Commit b d : ok d -> (forall k, is_Some (content b !! k) -> key_ok k) ->
    exists d', b_Commit b d = Some (Ok tt, d') /\ ok d' /\ view d' = apply_batch (content b) (view d)
}.

Section basicBatch.
Context {D : Type} `{Datastore D}.

(** A batch remembers the last operation on each key. *)
Notation basicBatch := (gmap (list Z) batchOp) (only parsing).

Definition NewBasicBatch : dsM D basicBatch := fun d => Some (Ok ∅, d).
Definition batch_Put (key val : list Z) (bt : basicBatch) : result dserror basicBatch := Ok (<[key := mkOp false val]> bt).
Definition batch_Delete (key : list Z) (bt : basicBatch) : result dserror basicBatch := Ok (<[key := mkOp true []]> bt).

Fixpoint commit_ops (l : list (list Z * batchOp)) : dsM D unit := fun d =>
  match l with
  | [] => Some (Ok tt, d)
  | (k, op) :: l =>
      '(r, d) ← (if op_delete op then ds_Delete k d else ds_Put k (op_value op) d);
      match r with Ok _ => commit_ops l d | Err e => Some (Err e, d) end
  end.
Definition batch_Commit (bt : basicBatch) : dsM D unit := commit_ops (map_to_list bt).

#[export] Instance basic_batching : Batching D basicBatch :=
  {| ds_Batch := NewBasicBatch; b_Put := batch_Put; b_Delete := batch_Delete; b_Commit := batch_Commit |}.

Context (ok : D -> Prop) (view : D -> gmap (list Z) (list Z)) {laws : DatastoreLaws D ok view}.

Lemma commit_ops_ok l : forall d,
  ok d -> NoDup (map fst l) -> Forall (fun e => key_ok (fst e)) l ->
  exists d', commit_ops l d = Some (Ok tt, d') /\ ok d' /\
    (forall k o, (k, o) ∈ l -> view d' !! k = batched (Some o) None) /\ (forall k, k ∉ map fst l -> view d' !! k = view d !! k).
Proof.
  induction l as [|[k o] l IH]; intros d Hd Hnd Hk; simpl.
  - exists d. split_and!; try done. intros. set_solver.
  - apply NoDup_cons in Hnd as [Hni Hnd]. apply Forall_cons in Hk as [Hk Hks].
    assert (exists d1, (if op_delete o then ds_Delete k d else ds_Put k (op_value o) d) = Some (Ok tt, d1) /\ ok d1 /\
      view d1 !! k = batched (Some o) None /\ forall k', k' <> k -> view d1 !! k' = view d !! k') as (d1 & -> & Hd1 & Hv & Ho).
    { simpl. destruct (op_delete o).
      - destruct (law_Delete d k Hd Hk) as (d1 & -> & Hd1 & Hv). exists d1. rewrite Hv. split_and!; [done|done|apply lookup_delete_eq|]. intros. by apply lookup_delete_ne.
      - destruct (law_Put d k (op_value o) Hd Hk) as (d1 & -> & Hd1 & Hv). exists d1. rewrite Hv. split_and!; [done|done|apply lookup_insert_eq|]. intros. by apply lookup_insert_ne. }
    simpl. destruct (IH d1 Hd1 Hnd Hks) as (d' & Hc & Hd' & G1 & G2). exists d'. split_and!; [done|done| |].
    + intros k' o' [[= -> ->]|Hin]%elem_of_cons; [|by apply G1]. rewrite G2 by done. done.
    + intros k' Hk'. apply not_elem_of_cons in Hk' as [Hne Hn]. rewrite G2 by done. by apply Ho.
Qed.

#[export] Instance basic_batching_laws : BatchingLaws D basicBatch ok view id.
Proof.
  split; unfold id.
  - intros d Hd. by eexists ∅, d.
  - intros b k v. by eexists.
  - intros b k. by eexists.
  - intros b d Hd Hk. destruct (commit_ops_ok (map_to_list b) d) as (d' & Hc & Hd' & G1 & G2); [done|apply NoDup_fst_map_to_list| |].
    + apply Forall_forall. intros [k o] Hin%elem_of_map_to_list. apply Hk. eauto.
    + exists d'. split_and!; [done|done|]. apply map_eq. intros k. rewrite lookup_batch. destruct (b !! k) as [o|] eqn:Hb.
      * rewrite (G1 k o) by (by apply elem_of_map_to_list). done.
      * rewrite G2; [done|]. intros ([k' o'] & -> & Hin%elem_of_map_to_list)%list_elem_of_fmap. simpl in Hb. congruence.
Qed.
End basicBatch.

(** ** The batching datastore (autobatch/autobatch.go) *)

Section autobatch.
Context {D B : Type} `{Datastore D} `{!Batching D B}.

Record autoDatastore := mkAuto { ab_child : D; ab_buffer : gmap (list Z) batchOp; maxBufferEntries : Z }.

Definition NewAutoBatching (d : D) (size : Z) : autoDatastore := mkAuto d ∅ size.

(** One operation of the buffer into the batch. *)
Definition batch_op (b : B) (k : list Z) (o : batchOp) : result dserror B :=
  if op_delete o then b_Delete k b else b_Put k (op_value o) b.

Fixpoint fill (l : list (list Z * batchOp)) (b : B) : result dserror B :=
  match l with
  | [] => Ok b
  | (k, o) :: l => match batch_op b k o with Ok b => fill l b | Err e => Err e end
  end.

Definition Flush : dsM autoDatastore unit := fun d =>
  '(r, c) ← ds_Batch (ab_child d);
  match r with
  | Err e => Some (Err e, mkAuto c (ab_buffer d) (maxBufferEntries d))
  | Ok b =>
      match fill (map_to_list (ab_buffer d)) b with
      | Err e => Some (Err e, mkAuto c (ab_buffer d) (maxBufferEntries d))
      | Ok b => '(r, c) ← b_Commit b c; Some (r, mkAuto c ∅ (maxBufferEntries d))
      end
  end.

Definition buffered (k : list Z) (o : batchOp) : dsM autoDatastore unit := fun d =>
  let d := mkAuto (ab_child d) (<[k := o]> (ab_buffer d)) (maxBufferEntries d) in
  if Z.of_nat (size (ab_buffer d)) >? maxBufferEntries d then Flush d else Some (Ok tt, d).
Definition auto_Delete (k : list Z) : dsM autoDatastore unit := buffered k (mkOp true []).
Definition auto_Put (k val : list Z) : dsM autoDatastore unit := buffered k (mkOp false val).

(** A call of the child. *)
Definition on_child {A} (f : dsM D A) : dsM autoDatastore A := fun d =>
  '(r, c) ← f (ab_child d); Some (r, mkAuto c (ab_buffer d) (maxBufferEntries d)).

Definition auto_Get (k : list Z) : dsM autoDatastore (list Z) := fun d =>
  match ab_buffer d !! k with
  | Some o => Some (if op_delete o then Err ErrNotFound else Ok (op_value o), d)
  | None => on_child (ds_Get k) d
  end.
Definition auto_Has (k : list Z) : dsM autoDatastore bool := fun d =>
  match ab_buffer d !! k with
  | Some o => Some (Ok (negb (op_delete o)), d)
  | None => on_child (ds_Has k) d
  end.
Definition auto_GetSize (k : list Z) : dsM autoDatastore Z := fun d =>
  match ab_buffer d !! k with
  | Some o => Some (if op_delete o then Err ErrNotFound else Ok (Z.of_nat (length (op_value o))), d)
  | None => on_child (ds_GetSize k) d
  end.
Definition auto_Query (q : Query) : dsM autoDatastore (list Result) := fun d =>
  '(r, d) ← Flush d;
  match r with Err e => Some (Err e, d) | Ok _ => on_child (ds_Query q) d end.

(** The loop of [Sync]: operations leave the buffer as they enter the batch. *)
Fixpoint sync_ops (prefix : list Z) (l : list (list Z * batchOp)) (b : B) (buffer : gmap (list Z) batchOp)
  : result dserror B * gmap (list Z) batchOp :=
  match l with
  | [] => (Ok b, buffer)
  | (k, o) :: l =>
      if bool_decide (k = prefix) || IsDescendantOf k prefix then
        match batch_op b k o with Ok b => sync_ops prefix l b (delete k buffer) | Err e => (Err e, buffer) end
      else sync_ops prefix l b buffer
  end.
Definition auto_Sync (prefix : list Z) : dsM autoDatastore unit := fun d =>
  '(r, c) ← ds_Batch (ab_child d);
  match r with
  | Err e => Some (Err e, mkAuto c (ab_buffer d) (maxBufferEntries d))
  | Ok b =>
      let '(r, buffer) := sync_ops prefix (map_to_list (ab_buffer d)) b (ab_buffer d) in
      match r with
      | Err e => Some (Err e, mkAuto c buffer (maxBufferEntries d))
      | Ok b => '(r, c) ← b_Commit b c; Some (r, mkAuto c buffer (maxBufferEntries d))
      end
  end.

#[export] Instance auto_datastore : Datastore autoDatastore := {|
  ds_Put := auto_Put; ds_Get := auto_Get; ds_Has := auto_Has; ds_GetSize := auto_GetSize; ds_Delete := auto_Delete; ds_Query := auto_Query
|}.

Context (ok : D -> Prop) (view : D -> gmap (list Z) (list Z)) (content : B -> gmap (list Z) batchOp).
Context {laws : DatastoreLaws D ok view} {blaws : BatchingLaws D B ok view content}.

Definition auto_keys (d : autoDatastore) : Prop :=
  ok (ab_child d) /\ forall k, is_Some (ab_buffer d !! k) -> key_ok k.
Definition auto_ok (d : autoDatastore) : Prop :=
  auto_keys d /\ Z.of_nat (size (ab_buffer d)) <= Z.max 0 (maxBufferEntries d).
Definition auto_view (d : autoDatastore) : gmap (list Z) (list Z) := apply_batch (ab_buffer d) (view (ab_child d)).

Lemma batch_op_ok b k o :
  exists b', batch_op b k o = Ok b' /\ (forall x, batched (content b' !! k) x = batched (Some o) x) /\ is_Some (content b' !! k) /\
    forall k', k' <> k -> content b' !! k' = content b !! k'.
Proof.
  unfold batch_op. destruct (op_delete o) eqn:Ho.
  - destruct (law_bDelete b k) as (b' & -> & Hc). exists b'. rewrite Hc, lookup_insert_eq. split_and!; [done| |done|].
    + intros x. simpl. by rewrite Ho.
    + intros. by rewrite lookup_insert_ne.
  - destruct (law_bPut b k (op_value o)) as (b' & -> & Hc). exists b'. rewrite Hc, lookup_insert_eq. split_and!; [done| |done|].
    + intros x. simpl. by rewrite Ho.
    + intros. by rewrite lookup_insert_ne.
Qed.

(** The operations of [Sync] that are at or below a prefix; [Flush] is the case of all. *)
Definition at_or_under (prefix k : list Z) : bool := bool_decide (k = prefix) || IsDescendantOf k prefix.

Lemma sync_ops_ok prefix l : forall b buffer,
  NoDup (map fst l) ->
  exists b' buffer', sync_ops prefix l b buffer = (Ok b', buffer') /\
    (forall k o, (k, o) ∈ l -> at_or_under prefix k = true ->
      (forall x, batched (content b' !! k) x = batched (Some o) x) /\ is_Some (content b' !! k) /\ buffer' !! k = None) /\
    (forall k, k ∉ map fst l \/ at_or_under prefix k = false -> content b' !! k = content b !! k /\ buffer' !! k = buffer !! k).
Proof.
  induction l as [|[k o] l IH]; intros b buffer Hnd; simpl.
  - exists b, buffer. split_and!; [done|set_solver|done].
  - apply NoDup_cons in Hnd as [Hni Hnd]. fold (at_or_under prefix k). destruct (at_or_under prefix k) eqn:Hau.
    + destruct (batch_op_ok b k o) as (b1 & -> & Hb1 & Hb2 & Hb3). destruct (IH b1 (delete k buffer) Hnd) as (b' & buffer' & -> & G1 & G2).
      exists b', buffer'. split_and!; [done| |].
      * intros k' o' [[= -> ->]|Hin]%elem_of_cons Hk'; [|by apply (G1 k' o')]. destruct (G2 k) as [E1 E2]; [by left|]. rewrite E1, E2, lookup_delete_eq. done.
      * intros k' Hk'. assert (k' <> k) as Hne by (intros ->; destruct Hk' as [Hk'|?]; [set_solver|congruence]).
        destruct (G2 k') as [-> ->]; [set_solver|]. by rewrite Hb3, lookup_delete_ne.
    + destruct (IH b buffer Hnd) as (b' & buffer' & -> & G1 & G2). exists b', buffer'. split_and!; [done| |].
      * intros k' o' [[= -> ->]|Hin]%elem_of_cons Hk'; [congruence|by apply (G1 k' o')].
      * intros k' Hk'. apply G2. set_solver.
Qed.

Lemma fill_ok l : forall b,
  NoDup (map fst l) ->
  exists b', fill l b = Ok b' /\
    (forall k o, (k, o) ∈ l -> (forall x, batched (content b' !! k) x = batched (Some o) x) /\ is_Some (content b' !! k)) /\
    (forall k, k ∉ map fst l -> content b' !! k = content b !! k).
Proof.
  induction l as [|[k o] l IH]; intros b Hnd; simpl.
  - exists b. split_and!; [done|set_solver|done].
  - apply NoDup_cons in Hnd as [Hni Hnd]. destruct (batch_op_ok b k o) as (b1 & -> & Hb1 & Hb2 & Hb3).
    destruct (IH b1 Hnd) as (b' & -> & G1 & G2). exists b'. split_and!; [done| |].
    + intros k' o' [[= -> ->]|Hin]%elem_of_cons; [|by apply G1]. rewrite G2 by done. done.
    + intros k' Hk'. apply not_elem_of_cons in Hk' as [Hne Hn]. rewrite G2 by done. by apply Hb3.
Qed.

Lemma Flush_ok d :
  auto_keys d -> exists d', Flush d = Some (Ok tt, d') /\ auto_ok d' /\ auto_view d' = auto_view d /\ ab_buffer d' = ∅ /\ view (ab_child d') = auto_view d.
Proof.
  intros [Hc Hk]. unfold Flush. destruct (law_Batch (ab_child d) Hc) as (b & c & -> & Hb & Hc1 & Hv1). simpl.
  destruct (fill_ok (map_to_list (ab_buffer d)) b (NoDup_fst_map_to_list _)) as (b' & -> & G1 & G2).
  assert (forall k, is_Some (content b' !! k) -> is_Some (ab_buffer d !! k)) as Hsub.
  { intros k Hs. destruct (ab_buffer d !! k) eqn:He; [done|]. rewrite G2, Hb, lookup_empty in Hs; [by destruct Hs|].
    intros ([k' o'] & -> & Hin%elem_of_map_to_list)%list_elem_of_fmap. simpl in He. congruence. }
  destruct (law_Commit b' c Hc1) as (c2 & -> & Hc2 & Hv2); [intros k Hs; by apply Hk, Hsub|]. simpl.
  assert (view c2 = auto_view d) as Hv.
  { rewrite Hv2, Hv1. unfold auto_view. apply map_eq. intros k. rewrite !lookup_batch. destruct (ab_buffer d !! k) as [o|] eqn:He.
    - apply (G1 k o). by apply elem_of_map_to_list.
    - destruct (content b' !! k) eqn:Hcb; [|done]. destruct (Hsub k) as [? Hx]; [by rewrite Hcb|congruence]. }
  eexists. split; [done|]. split_and!; simpl; [split; [split; [done|]|]|..]; try done.
  - simpl. intros k [? Hx]. by rewrite lookup_empty in Hx.
  - simpl. rewrite map_size_empty. lia.
  - unfold auto_view at 1. simpl. rewrite Hv. apply map_eq. intros k. by rewrite lookup_batch, lookup_empty.
Qed.

Lemma buffered_ok d k o :
  auto_ok d -> key_ok k ->
  exists d', buffered k o d = Some (Ok tt, d') /\ auto_ok d' /\ forall k', auto_view d' !! k' = if decide (k' = k) then batched (Some o) None else auto_view d !! k'.
Proof.
  intros [[Hc Hb] _] Hk. unfold buffered. set (d1 := mkAuto _ _ _).
  assert (auto_keys d1) as Hd1. { split; [done|]. simpl. intros k' [o' [[<- _]|[_ Ho]]%lookup_insert_Some]; [done|]. apply Hb. eauto. }
  assert (forall k', auto_view d1 !! k' = if decide (k' = k) then batched (Some o) None else auto_view d !! k') as Hv1.
  { intros k'. unfold auto_view. rewrite !lookup_batch. simpl. case_decide; [subst; by rewrite lookup_insert_eq|by rewrite lookup_insert_ne]. }
  case_bool; [|exists d1; split; [done|]; split; [split; [done|lia]|done]]. destruct (Flush_ok d1 Hd1) as (d' & -> & Hd' & Hv & _). exists d'. split; [done|]. split; [done|]. intros k'. by rewrite Hv.
Qed.

Lemma on_child_ok {A} (f : dsM D A) d r c :
  auto_ok d -> f (ab_child d) = Some (r, c) -> ok c -> view c = view (ab_child d) ->
  exists d', on_child f d = Some (r, d') /\ auto_ok d' /\ auto_view d' = auto_view d.
Proof.
  intros [[Hc Hb] Hs] Hf Hok Hv. unfold on_child. rewrite Hf. simpl. eexists. split; [done|]. split; [done|]. unfold auto_view. simpl. by rewrite Hv.
Qed.

#[export] Instance auto_laws : DatastoreLaws autoDatastore auto_ok auto_view.
Proof.
  split.
  - intros d k [[Hc Hb] _]. unfold auto_view. rewrite lookup_batch. destruct (ab_buffer d !! k) eqn:He; [intros _; apply Hb; eauto|]. by apply law_keys.
  - intros d k v Hd Hk. destruct (buffered_ok d k (mkOp false v) Hd Hk) as (d' & Hb & Hd' & Hv). exists d'. split_and!; [done|done|].
    apply map_eq. intros k'. rewrite Hv, lookup_insert. by repeat case_decide.
  - intros d k Hd Hk. destruct (buffered_ok d k (mkOp true []) Hd Hk) as (d' & Hb & Hd' & Hv). exists d'. split_and!; [done|done|].
    apply map_eq. intros k'. rewrite Hv, lookup_delete. by repeat case_decide.
  - intros d k Hd Hk. simpl. unfold auto_Get, auto_view at 1. rewrite lookup_batch. destruct (ab_buffer d !! k) as [o|]; simpl.
    + exists d. split; [by destruct (op_delete o)|done].
    + destruct (law_Get (ab_child d) k (proj1 (proj1 Hd)) Hk) as (c & Hg & Hc & Hv). by eapply on_child_ok.
  - intros d k Hd Hk. simpl. unfold auto_Has.
    rewrite (bool_decide_ext _ (is_Some (batched (ab_buffer d !! k) (view (ab_child d) !! k)))) by (unfold auto_view; by rewrite lookup_batch).
    destruct (ab_buffer d !! k) as [o|]; simpl.
    + exists d. split; [|done]. destruct (op_delete o); [by rewrite bool_decide_false by (intros []; done)|by rewrite bool_decide_true].
    + destruct (law_Has (ab_child d) k (proj1 (proj1 Hd)) Hk) as (c & Hg & Hc & Hv). by eapply on_child_ok.
  - intros d k Hd Hk. simpl. unfold auto_GetSize, auto_view at 1. rewrite lookup_batch. destruct (ab_buffer d !! k) as [o|]; simpl.
    + exists d. split; [by destruct (op_delete o)|done].
    + destruct (law_GetSize (ab_child d) k (proj1 (proj1 Hd)) Hk) as (c & Hg & Hc & Hv). by eapply on_child_ok.
  - intros d q Hd Hq. simpl. unfold auto_Query. destruct (Flush_ok d (proj1 Hd)) as (d1 & -> & Hd1 & Hv1 & _ & Hv2). simpl.
    destruct (law_Query (ab_child d1) q (proj1 (proj1 Hd1)) Hq) as (es & c & Hqr & Hc & Hv & Ha). rewrite Hv2 in Ha.
    destruct (on_child_ok (ds_Query q) d1 _ c Hd1 Hqr Hc Hv) as (d' & Ho & Hd' & Hv'). exists es, d'. split_and!; [done|done| |done]. by rewrite Hv'.
Qed.

(** [Sync] keeps the contents, and writes what is at or below the prefix to the child. *)
Lemma Sync_ok prefix d :
  auto_ok d ->
  exists d', auto_Sync prefix d = Some (Ok tt, d') /\ auto_ok d' /\ auto_view d' = auto_view d /\
    forall k, at_or_under prefix k = true -> view (ab_child d') !! k = auto_view d !! k.
Proof.
  intros [[Hc Hk] Hs]. unfold auto_Sync. destruct (law_Batch (ab_child d) Hc) as (b & c & -> & Hb & Hc1 & Hv1). simpl.
  destruct (sync_ops_ok prefix (map_to_list (ab_buffer d)) b (ab_buffer d) (NoDup_fst_map_to_list _)) as (b' & buffer' & -> & G1 & G2).
  assert (forall k, at_or_under prefix k = false \/ ab_buffer d !! k = None -> content b' !! k = None /\ buffer' !! k = ab_buffer d !! k) as G3.
  { intros k Hor. destruct (G2 k) as [-> ->]; [|by rewrite Hb, lookup_empty]. destruct Hor as [|He]; [by right|left].
    intros ([k' o'] & -> & Hin%elem_of_map_to_list)%list_elem_of_fmap. simpl in He. congruence. }
  assert (forall k o, ab_buffer d !! k = Some o -> at_or_under prefix k = true ->
    (forall x, batched (content b' !! k) x = batched (Some o) x) /\ is_Some (content b' !! k) /\ buffer' !! k = None) as G4.
  { intros k o Ho. apply G1. by apply elem_of_map_to_list. }
  clear G1 G2. destruct (law_Commit b' c Hc1) as (c2 & -> & Hc2 & Hv2).
  { intros k Hx. apply Hk. destruct (ab_buffer d !! k) eqn:He; [done|]. destruct (G3 k) as [E _]; [by right|]. rewrite E in Hx. by destruct Hx. }
  simpl. eexists. split; [done|]. split; [|split].
  - assert (buffer' ⊆ ab_buffer d) as Hsub.
    { apply map_subseteq_spec. intros k o Ho. destruct (ab_buffer d !! k) as [o'|] eqn:He.
      - destruct (at_or_under prefix k) eqn:Hau; [by destruct (G4 k o' He Hau) as (_ & _ & ?); congruence|]. destruct (G3 k) as [_ E]; [by left|]. congruence.
      - destruct (G3 k) as [_ E]; [by right|]. congruence. }
    split; [split; [done|]|]; simpl.
    + intros k [o Ho]. apply Hk. exists o. by eapply lookup_weaken.
    + apply map_subseteq_size in Hsub. lia.
  - apply map_eq. intros k. unfold auto_view. simpl. rewrite !lookup_batch, Hv2, lookup_batch, Hv1.
    destruct (ab_buffer d !! k) as [o|] eqn:He; [destruct (at_or_under prefix k) eqn:Hau|].
    + destruct (G4 k o He Hau) as (E & _ & ->). apply E.
    + destruct (G3 k) as [-> ->]; [by left|]. by rewrite He.
    + destruct (G3 k) as [-> ->]; [by right|]. by rewrite He.
  - intros k Hau. unfold auto_view. simpl. rewrite lookup_batch, Hv2, lookup_batch, Hv1. destruct (ab_buffer d !! k) as [o|] eqn:He.
    + destruct (G4 k o He Hau) as (E & _). apply E.
    + destruct (G3 k) as [-> _]; [by right|]. done.
Qed.

(** C24: Over any child that is a map, the batching datastore is a map: every run of calls is answered from
    the writes before it, buffered or not; the buffer never outgrows its limit; and [Sync] makes the
    child agree with what was written at or below the prefix. *)
Theorem autobatch_is_map ops prefix d :
  auto_ok d -> Forall dop_ok ops ->
  exists l d1 d2, store_run ops d = Some (l, d1) /\ map_run ops (auto_view d) l (auto_view d1) /\
    Z.of_nat (size (ab_buffer d1)) <= Z.max 0 (maxBufferEntries d1) /\
    auto_Sync prefix d1 = Some (Ok tt, d2) /\ auto_view d2 = auto_view d1 /\
    forall k, at_or_under prefix k = true -> view (ab_child d2) !! k = auto_view d1 !! k.
Proof.
  intros Hd Hops. destruct (lawful_run auto_ok auto_view ops d Hd Hops) as (l & d1 & Hr & Hd1 & Hm).
  destruct (Sync_ok prefix d1 Hd1) as (d2 & Hs & _ & Hv & Hk). exists l, d1, d2. split_and!; try done. apply Hd1.
Qed.
End autobatch.

Section witness.
#[local] Existing Instance insertionSort.

Definition autoOps : list dop := [DPut (str "/a") [1]; DPut (str "/b") [2]; DDelete (str "/a"); DGet (str "/a"); DHas (str "/b")].

Lemma autobatch_is_map_witness :
  exists l d1 d2, store_run autoOps (NewAutoBatching (NewMapDatastore) 1) = Some (l, d1) /\ auto_Sync (str "/a") d1 = Some (Ok tt, d2) /\
    ab_child d2 !! str "/a" = auto_view id d1 !! str "/a" /\
    l = [ADone (Ok tt); ADone (Ok tt); ADone (Ok tt); AValue (Err ErrNotFound); AHas (Ok true)].
Proof.
  destruct (autobatch_is_map map_ok id id autoOps (str "/a") (NewAutoBatching NewMapDatastore 1)) as (l & d1 & d2 & Hr & _ & _ & Hs & _ & Hk).
  - split; [split|]; [intros k [v Hv]; discriminate|intros k [v Hv]; discriminate|vm_compute; discriminate].
  - assert (key_ok (str "/a")) by (apply (key_of_ok _ [str "a"]); [done| |done]; apply (bool_decide_unpack _); vm_compute; exact I).
    assert (key_ok (str "/b")) by (apply (key_of_ok _ [str "b"]); [done| |done]; apply (bool_decide_unpack _); vm_compute; exact I).
    unfold autoOps. by repeat (apply Forall_cons; split).
  - exists l, d1, d2. refine (conj Hr (conj Hs (conj (Hk _ _) _))); [reflexivity|].
    apply (f_equal (option_map fst)) in Hr. vm_compute in Hr. injection Hr as <-. reflexivity.
Defined.

(** The buffer is cleared before the batch is committed: when a commit fails, writes that were
    acknowledged before it are gone. *)
Definition failingBatching : Batching (gmap (list Z) (list Z)) (gmap (list Z) batchOp) := {|
  ds_Batch := fun d => Some (Ok ∅, d);
  b_Put := fun k v b => Ok (<[k := mkOp false v]> b);
  b_Delete := fun k b => Ok (<[k := mkOp true []]> b);
  b_Commit := fun b d => Some (Err (ErrOther 0), d)
|}.
Lemma failed_commit_loses :
  option_map fst (@store_run _ (@auto_datastore _ _ _ failingBatching) [DPut (str "/a") [1]; DGet (str "/a"); DPut (str "/b") [2]; DGet (str "/a")]
    (NewAutoBatching NewMapDatastore 1)) =
  Some [ADone (Ok tt); AValue (Ok [1]); ADone (Err (ErrOther 0)); AValue (Err ErrNotFound)].
Proof. vm_compute. reflexivity. Qed.

(** With [KeysOnly] the values are gone before the filters see them. *)
Lemma keysonly_filter :
  let run keysOnly := option_map fst (store_run [DPut (str "/a") [1]; DQuery (mkQuery [] [FilterValueCompare Equal [1]] [] 0 0 keysOnly false false)] NewMapDatastore) in
  run false = Some [ADone (Ok tt); AResults (Ok [Ok (mkEntry (str "/a") [1] 0 1)])] /\ run true = Some [ADone (Ok tt); AResults (Ok [])].
Proof. split; vm_compute; reflexivity. Qed.
End witness.
