(* ===== verification/DsLift.v ===== *)
(** * Keys and entries below a prefix

    A mount and a key transform both put a datastore below a prefix.  [below p k] is the key [k] moved
    below [p], what [Child] returns for clean keys; moving keys keeps their order and what is below what. *)

From stdpp Require Import base gmap list numbers sorting.
From Stdlib Require Import ZArith Lia.
From S2P Require Import Prelude GoText GoSort DsKey DsQuery DsMap.

(** [strings.TrimPrefix]. *)
Definition TrimPrefix (s prefix : list Z) : list Z := if HasPrefix s prefix then drop (length prefix) s else s.

Definition below (p k : list Z) : list Z := if bool_decide (p = [slash]) then k else p ++ k.

Lemma below_of a b : Forall word_ok a -> b <> [] -> below (key_of a) (key_of b) = key_of (a ++ b).
Proof.
  intros Ha Hb. unfold below. case_bool_decide as Hr; rewrite key_of_root in Hr by done; [by subst|]. by rewrite key_of_app.
Qed.

Lemma below_inj p k k' : below p k = below p k' -> k = k'.
Proof. unfold below. case_bool_decide; [done|]. apply app_inv_head. Qed.

Lemma lexLess_below p a b : lexLess (below p a) (below p b) = lexLess a b.
Proof. unfold below. case_bool_decide; [done|]. apply lexLess_app. Qed.

Lemma bytes_Compare_below p a b : bytes_Compare (below p a) (below p b) = bytes_Compare a b.
Proof. unfold bytes_Compare. by rewrite !lexLess_below. Qed.

Lemma key_ok_raw k : key_ok k -> RawKey k = Some k /\ NewKey k = k.
Proof. intros [(ws & Hws & ->) _]. split; [by apply RawKey_of|by apply NewKey_of]. Qed.

Lemma Child_below p k : clean_key p -> key_ok k -> Child p k = Some (below p k) /\ key_ok (below p k).
Proof.
  intros (a & Ha & ->) (b & Hb & Hne & ->)%key_ok_of. rewrite Child_of, below_of by done. split; [done|]. apply key_ok_of.
  exists (a ++ b). split_and!; [by apply Forall_app|by destruct a|done].
Qed.

Lemma ancestor_of_below p k : clean_key p -> key_ok k -> IsAncestorOf p (below p k) = true.
Proof.
  intros (a & Ha & ->) (b & Hb & Hne & ->)%key_ok_of. rewrite below_of by done. apply IsAncestorOf_of; [done|by apply Forall_app|eauto].
Qed.

Lemma TrimPrefix_app p s : TrimPrefix (p ++ s) p = s.
Proof. unfold TrimPrefix, HasPrefix. by rewrite take_app_length, bool_decide_true, drop_app_length by done. Qed.

(** What follows an ancestor. *)
Lemma trim_of a b : Forall word_ok a -> Forall word_ok b -> NewKey (TrimPrefix (key_of (a ++ b)) (key_of a)) = key_of b.
Proof.
  intros Ha Hb. destruct (decide (a = [])) as [->|Hne].
  - cbn [app]. change (key_of b) with (key_of [] ++ Join b [slash]) at 1. rewrite TrimPrefix_app. by apply NewKey_Join.
  - destruct (decide (b = [])) as [->|Hnb].
    + rewrite app_nil_r. rewrite <- (app_nil_r (key_of a)) at 1. by rewrite TrimPrefix_app.
    + rewrite key_of_app, TrimPrefix_app by done. by apply NewKey_of.
Qed.

Lemma ancestor_below p k :
  clean_key p -> key_ok k -> IsAncestorOf p k = true -> exists r, NewKey (TrimPrefix k p) = r /\ key_ok r /\ k = below p r.
Proof.
  intros (a & Ha & ->) (b & Hb & Hne & ->)%key_ok_of (c & Hc & ->)%IsAncestorOf_of; [|done..]. apply Forall_app in Hb as [_ Hb].
  exists (key_of c). rewrite trim_of, below_of by done. split; [done|]. split; [|done]. apply key_ok_of. eauto.
Qed.

Lemma trim_below p k : clean_key p -> key_ok k -> NewKey (TrimPrefix (below p k) p) = k.
Proof. intros (a & Ha & ->) (b & Hb & Hne & ->)%key_ok_of. rewrite below_of by done. by apply trim_of. Qed.

(** Being below a key of the datastore, seen from outside. *)
Lemma ancestor_shift p q k pq :
  clean_key p -> clean_key q -> key_ok k -> Child p q = Some pq -> clean_key pq /\ IsAncestorOf pq (below p k) = IsAncestorOf q k.
Proof.
  intros (a & Ha & ->) (b & Hb & ->) (c & Hc & Hne & ->)%key_ok_of. rewrite Child_of, below_of by done. intros [= <-].
  split; [exists (a ++ b); by rewrite Forall_app|]. apply eq_bool_prop_intro. rewrite !Is_true_true, !IsAncestorOf_of by (by rewrite ?Forall_app). split.
  - intros (d & Hd & He). rewrite <- app_assoc in He. apply app_inv_head in He. eauto.
  - intros (d & Hd & ->). exists d. by rewrite app_assoc.
Qed.

(** The ways two prefixes can lie to each other. *)
Lemma below_descendant P p k : clean_key P -> clean_key p -> key_ok k -> IsAncestorOf P p = true -> IsAncestorOf P (below p k) = true.
Proof.
  intros (a & Ha & ->) (b & Hb & ->) (c & Hc & Hne & ->)%key_ok_of (d & Hd & ->)%IsAncestorOf_of; [|done..].
  rewrite below_of by done. apply IsAncestorOf_of; [done|by apply Forall_app|]. exists (d ++ c). rewrite app_assoc. split; [by destruct d|done].
Qed.

Lemma below_ancestor P p k :
  clean_key P -> clean_key p -> key_ok k -> p = P \/ IsAncestorOf p P = true ->
  clean_key (NewKey (TrimPrefix P p)) /\ IsAncestorOf P (below p k) = under (NewKey (TrimPrefix P p)) k.
Proof.
  intros HP (a & Ha & ->) Hk Hor. assert (exists b, Forall word_ok b /\ P = key_of (a ++ b)) as (b & Hb & ->).
  { destruct Hor as [<-|Hanc]; [exists []; split; [constructor|by rewrite app_nil_r]|]. destruct HP as (c & Hc & ->).
    apply IsAncestorOf_of in Hanc as (d & _ & ->); [|done..]. apply Forall_app in Hc as [_ Hd]. by exists d. }
  rewrite trim_of by done. split; [by exists b|]. unfold under. rewrite NewKey_of by done.
  apply (ancestor_shift (key_of a) (key_of b)); [by exists a|by exists b|done|by apply Child_of].
Qed.

Lemma below_apart P p k :
  clean_key P -> clean_key p -> key_ok k -> IsAncestorOf P p = false -> p <> P -> IsAncestorOf p P = false -> IsAncestorOf P (below p k) = false.
Proof.
  intros (a & Ha & ->) (b & Hb & ->) (c & Hc & Hne & ->)%key_ok_of H1 H2 H3. rewrite below_of by done.
  apply not_true_iff_false; intros E. apply IsAncestorOf_of in E as (d & Hd & E); [|done|by apply Forall_app].
  apply app_eq_inv in E as [(e & -> & ->)|(e & -> & ->)].
  - apply not_true_iff_false in H1. destruct (decide (e = [])) as [->|He]; [by rewrite app_nil_r in H2|]. destruct H1. apply IsAncestorOf_of; [done..|eauto].
  - apply not_true_iff_false in H3. destruct (decide (e = [])) as [->|He]; [by rewrite app_nil_r in H2|]. destruct H3. apply IsAncestorOf_of; [done..|eauto].
Qed.

Lemma ancestor_trans p P k : clean_key p -> clean_key P -> key_ok k -> p = P \/ IsAncestorOf p P = true -> IsAncestorOf P k = true -> IsAncestorOf p k = true.
Proof.
  intros Hp HP Hk [->|Ha] Hb; [done|]. destruct (ancestor_below P k HP Hk Hb) as (r & _ & Hr & ->). by apply below_descendant.
Qed.

(** ** Keys with values *)

Definition at_mount (p : list Z) (l : list (list Z * list Z)) : list (list Z * list Z) := map (fun kv => (below p (fst kv), snd kv)) l.

Lemma filter_at_mount (P Q : list Z -> bool) p l :
  Forall (fun kv => P (below p (fst kv)) = Q (fst kv)) l ->
  filter (fun kv => P (fst kv) = true) (at_mount p l) = at_mount p (filter (fun kv => Q (fst kv) = true) l).
Proof.
  induction 1 as [|[k v] l Hk _ IH]; [done|]. simpl in *. unfold at_mount in *. rewrite !filter_cons. simpl. rewrite Hk.
  destruct (decide (Q k = true)); simpl; by rewrite IH.
Qed.

(** ** Entries *)

Definition lift (p : list Z) (e : Entry) : Entry := mkEntry (below p (e_Key e)) (e_Value e) (e_Expiration e) (e_Size e).

Lemma order_Compare_lift o p a b : order_ok o -> order_Compare o (lift p a) (lift p b) = order_Compare o a b.
Proof. destruct o; simpl; [done|..]; intros _; by rewrite ?bytes_Compare_below. Qed.

Lemma query_Less_lift os p a b : Forall order_ok os -> query_Less os (lift p a) (lift p b) = query_Less os a b.
Proof. induction 1 as [|o os Ho _ IH]; simpl; [apply lexLess_below|]. rewrite order_Compare_lift by done. by rewrite IH. Qed.

Lemma StronglySorted_map {A B} (f : A -> B) (R : B -> B -> Prop) l :
  StronglySorted (fun a b => R (f a) (f b)) l -> StronglySorted R (map f l).
Proof. induction 1 as [|x l Hl IH Hx]; simpl; constructor; [done|]. by apply Forall_fmap. Qed.

Lemma in_order_lift os p es : Forall order_ok os -> in_order os es -> in_order os (map (lift p) es).
Proof.
  intros Hos [->|Hs]; [by left|right]. apply StronglySorted_map. eapply StronglySorted_ind with (P := fun l => StronglySorted _ l); [constructor| |done].
  intros a l _ IH Ha. constructor; [done|]. eapply Forall_impl; [done|]. intros b. simpl. by rewrite query_Less_lift.
Qed.

Lemma entry_lift q p k v : entry_of q (below p k, v) = lift p (entry_of q (k, v)).
Proof. done. Qed.
