(* ===== verification/DsMount.v ===== *)
(** * The mount datastore (src/datastore/mount/mount.go)

    Datastores mounted at prefixes, a key going to the most specific mount above it.  A query goes to
    every mount below or above its prefix, and the answers are merged with a heap of the streams
    (container/heap, Heap.v).

    The mounted datastores are values of one type [D], which may be a sum of several.  The results of a
    child are the list of what [NextSync] returns, and closing them returns no error.  [Batch] and the
    maintenance calls ([Close], [DiskUsage], [Check], [Scrub], [CollectGarbage]) are not modelled. *)

From stdpp Require Import base gmap list numbers sorting strings.
From Stdlib Require Import ZArith Lia.
From S2P Require Import Prelude GoText GoSort Heap DsKey DsQuery DsMap DsLift.

(** ** Merging results *)

Record queryResults := mkResults { qr_mount : list Z; qr_results : option (list Result); qr_next : Result }.

#[export] Instance queryResults_inhabited : Inhabited queryResults := populate (mkResults [] None (Ok (mkEntry [] [] 0 0))).

(** Whether there is a next result, and the new state; a child's key that is no raw key panics. *)
Definition advance (qr : queryResults) : option (bool * queryResults) :=
  match qr_results qr with
  | None => Some (false, qr)
  | Some [] => Some (false, mkResults (qr_mount qr) None (Ok (mkEntry [] [] 0 0)))
  | Some (Ok r :: rs) =>
      k ← RawKey (e_Key r);
      k ← Child (qr_mount qr) k;
      Some (true, mkResults (qr_mount qr) (Some rs) (Ok (mkEntry k (e_Value r) (e_Expiration r) (e_Size r))))
  | Some (Err e :: rs) => Some (true, mkResults (qr_mount qr) (Some rs) (Err e))
  end.

(** The entry of the next result: an error comes with an entry whose key is the mount. *)
Definition next_entry (qr : queryResults) : Entry :=
  match qr_next qr with Ok e => e | Err _ => mkEntry (qr_mount qr) [] 0 0 end.

Section querySet.
Context (orders : list Order).

Definition set_Less (a b : queryResults) : bool := query_Less orders (next_entry a) (next_entry b).
#[local] Instance querySet_heap : HeapInterface (list queryResults) queryResults := list_heap set_Less.

Definition addResults (mount : list Z) (results : list Result) (heads : list queryResults) : option (list queryResults) :=
  '(more, r) ← advance (mkResults mount (Some results) (Ok (mkEntry [] [] 0 0)));
  Some (if more : bool then heap_Push r heads else heads).

(** The next result of the set, if any. *)
Definition set_next (heads : list queryResults) : option (option Result * list queryResults) :=
  match heads with
  | [] => Some (None, [])
  | head :: _ =>
      let next := qr_next head in
      '(more, head) ← advance head;
      let heads := <[0%nat := head]> heads in
      if more : bool then Some (Some next, heap_Fix 0 heads)
      else '(_, heads) ← heap_Remove 0 heads; Some (Some next, heads)
  end.

(** All the results, one call of [next] after the other. *)
Fixpoint drain (fuel : nat) (heads : list queryResults) : option (list Result) :=
  match fuel with
  | O => None
  | S fuel =>
      '(r, heads) ← set_next heads;
      match r with None => Some [] | Some r => rs ← drain fuel heads; Some (r :: rs) end
  end.

(** The results a stream, or all streams, have left. *)
Definition left_in (qr : queryResults) : nat := S (match qr_results qr with Some rs => length rs | None => 0 end).
Definition left_all (heads : list queryResults) : nat := sum_list_with left_in heads.

(** *** The merge is a merge *)

Context (Hos : Forall order_ok orders).

#[local] Instance set_order : WeakOrder set_Less.
Proof. split; unfold set_Less; intros *; [by apply query_Less_asym|by apply query_Less_trans]. Qed.

Definition entry_le (a b : Entry) : Prop := query_Less orders b a = false.

(** A stream of entries, and the entries it still has. *)
Definition stream_ok (qr : queryResults) : Prop :=
  clean_key (qr_mount qr) /\ (exists e, qr_next qr = Ok e) /\
  exists es, qr_results qr = Some (map Ok es) /\ Forall (fun e => key_ok (e_Key e)) es.
Definition stream_of (qr : queryResults) : list Entry :=
  next_entry qr :: map (lift (qr_mount qr)) (entries_of (default [] (qr_results qr))).

Definition streams (heads : list queryResults) : list Entry := heads ≫= stream_of.

#[local] Instance streams_perm : Proper ((≡ₚ) ==> (≡ₚ)) streams.
Proof. intros l l' Hl. unfold streams. by rewrite Hl. Qed.
Lemma streams_cons qr heads : streams (qr :: heads) = stream_of qr ++ streams heads.
Proof. done. Qed.

Lemma advance_entry mount e rs nx :
  clean_key mount -> key_ok (e_Key e) ->
  advance (mkResults mount (Some (Ok e :: rs)) nx) = Some (true, mkResults mount (Some rs) (Ok (lift mount e))).
Proof.
  intros Hm He. unfold advance. simpl. destruct (key_ok_raw _ He) as [-> _]. simpl. by destruct (Child_below mount (e_Key e) Hm He) as [-> _].
Qed.

Lemma advance_ok qr :
  stream_ok qr ->
  (stream_of qr = [next_entry qr] /\ left_in qr = 1%nat /\ exists qr', advance qr = Some (false, qr')) \/
  (exists qr', advance qr = Some (true, qr') /\ stream_ok qr' /\ stream_of qr = next_entry qr :: stream_of qr' /\ left_in qr = S (left_in qr')).
Proof.
  intros (Hm & [e He] & es & Hr & Hes). destruct qr as [m r nx]. simpl in *. subst. destruct es as [|e' es]; [left|right].
  - split_and!; [done..|]. by eexists.
  - apply Forall_cons in Hes as [He' Hes]. cbn [map]. rewrite advance_entry by done. eexists. split_and!; [done| |done|done].
    split; [done|]. split; [by eexists|]. by exists es.
Qed.

Lemma stream_sorted_tail qr l : stream_of qr = next_entry qr :: l -> StronglySorted entry_le (stream_of qr) -> StronglySorted entry_le l.
Proof. intros -> Hs. by inversion Hs. Qed.

Lemma left_perm heads heads' : heads ≡ₚ heads' -> left_all heads = left_all heads'.
Proof. unfold left_all. induction 1; simpl; lia. Qed.

Lemma left_cons qr heads : left_all (qr :: heads) = (left_in qr + left_all heads)%nat.
Proof. done. Qed.

Lemma set_next_ok head tl :
  let heads := head :: tl in
  heap_ok set_Less heads -> Forall stream_ok heads ->
  exists heads', set_next heads = Some (Some (Ok (next_entry head)), heads') /\ heap_ok set_Less heads' /\ Forall stream_ok heads' /\
    streams heads ≡ₚ next_entry head :: streams heads' /\ left_all heads = S (left_all heads') /\
    (Forall (fun qr => StronglySorted entry_le (stream_of qr)) heads -> Forall (fun qr => StronglySorted entry_le (stream_of qr)) heads').
Proof.
  intros heads Hh Hok. unfold set_next, heads in *. apply Forall_cons in Hok as [Hhd Htl].
  assert (qr_next head = Ok (next_entry head)) as Hnx by (destruct Hhd as (_ & [e He] & _); unfold next_entry; by rewrite He). rewrite Hnx. cbv zeta.
  destruct (advance_ok head Hhd) as [(Hst & Hl & qr' & ->)|(qr' & -> & Hok' & Hst & Hl)]; cbn [mbind option_bind].
  - assert (near_heap set_Less (length (head :: tl)) 0 (<[0%nat := qr']> (head :: tl))) as Hnear by (apply (heap_near set_Less); [lia|simpl; lia|done]).
    cbn [insert list_insert] in *. destruct (Remove_heap set_Less 0 (qr' :: tl)) as (heads' & Hr & Hh' & Hp); [simpl; lia|done|].
    unfold querySet_heap. rewrite Hr. cbn [mbind option_bind]. apply Permutation_cons_inv in Hp.
    exists heads'. split_and!; [done|done|by rewrite <- Hp| | |].
    + rewrite streams_cons, Hst. cbn [app]. by rewrite Hp.
    + rewrite left_cons, (left_perm _ _ Hp). lia.
    + intros [_ Hs]%Forall_cons. by rewrite <- Hp.
  - destruct (Fix_heap set_Less 0 qr' (head :: tl)) as [Hh' Hp]; [simpl; lia|done|]. cbn [insert list_insert] in *. unfold querySet_heap.
    eexists. split; [done|]. split; [done|]. split; [rewrite Hp; by constructor|]. split; [|split].
    + rewrite Hp, !streams_cons. by rewrite Hst.
    + rewrite (left_perm _ _ Hp), !left_cons. lia.
    + intros [Hs1 Hs2]%Forall_cons. rewrite Hp. constructor; [|done]. by eapply stream_sorted_tail.
Qed.

(** The first entry of the heap is the least of all streams that are sorted. *)
Lemma root_least head tl :
  heap_ok set_Less (head :: tl) -> Forall (fun qr => StronglySorted entry_le (stream_of qr)) (head :: tl) ->
  Forall (entry_le (next_entry head)) (streams (head :: tl)).
Proof.
  intros Hh Hs. unfold streams. apply Forall_bind. apply Forall_lookup. intros i qr Hi. rewrite Forall_lookup in Hs.
  assert (entry_le (next_entry head) (next_entry qr)) as Hle.
  { pose proof (heap_root set_Less (length (head :: tl)) (head :: tl) i Hh (lookup_lt_Some _ _ _ Hi)) as Hr.
    by rewrite (list_lookup_total_correct _ _ _ Hi) in Hr. }
  specialize (Hs i qr Hi). unfold stream_of in *. inversion Hs as [|x l Hl Hx]; subst. constructor; [done|].
  eapply Forall_impl; [done|]. intros e. unfold entry_le in *. by apply query_Less_trans.
Qed.

Lemma drain_ok fuel : forall heads,
  (left_all heads < fuel)%nat -> heap_ok set_Less heads -> Forall stream_ok heads ->
  exists es, drain fuel heads = Some (map Ok es) /\ es ≡ₚ streams heads /\
    (Forall (fun qr => StronglySorted entry_le (stream_of qr)) heads -> StronglySorted entry_le es).
Proof.
  induction fuel as [|fuel IH]; intros heads Hf Hh Hok; [lia|]. destruct heads as [|head tl].
  - exists []. split_and!; [done|done|]. intros _. constructor.
  - destruct (set_next_ok head tl Hh Hok) as (heads' & E & Hh' & Hok' & Hp & Hl & Hs). cbn [drain]. rewrite E. cbn [mbind option_bind].
    destruct (IH heads' ltac:(lia) Hh' Hok') as (es & -> & Hpe & Hse). cbn [mbind option_bind]. exists (next_entry head :: es). split_and!; [done| |].
    + by rewrite Hp, Hpe.
    + intros Hsorted. constructor; [by apply Hse, Hs|]. pose proof (root_least head tl Hh Hsorted) as Hr. rewrite Hp in Hr.
      apply Forall_cons in Hr as [_ Hr]. by rewrite Hpe.
Qed.

Lemma addResults_ok mount es heads :
  clean_key mount -> Forall (fun e => key_ok (e_Key e)) es -> in_order orders es -> heap_ok set_Less heads -> Forall stream_ok heads ->
  exists heads', addResults mount (map Ok es) heads = Some heads' /\ heap_ok set_Less heads' /\ Forall stream_ok heads' /\
    streams heads' ≡ₚ map (lift mount) es ++ streams heads /\
    (orders <> [] -> Forall (fun qr => StronglySorted entry_le (stream_of qr)) heads -> Forall (fun qr => StronglySorted entry_le (stream_of qr)) heads').
Proof.
  intros Hm Hes Hio Hh Hok. unfold addResults. destruct es as [|e es]; [by exists heads|]. assert (Hes' := Hes). apply Forall_cons in Hes' as [He Hes'].
  cbn [map]. rewrite advance_entry by done. cbn [mbind option_bind]. set (qr := mkResults mount _ _).
  destruct (Push_heap set_Less qr heads Hh) as [Hh' Hp]. assert (stream_of qr = map (lift mount) (e :: es)) as Hst.
  { unfold stream_of, qr. simpl. by rewrite entries_ok. }
  exists (heap_Push qr heads). split; [done|]. split; [done|]. split; [|split].
  - rewrite Hp. constructor; [|done]. split; [done|]. split; [by eexists|]. by exists es.
  - rewrite Hp, streams_cons. by rewrite Hst.
  - intros Hne Hs. rewrite Hp. constructor; [|done]. rewrite Hst. by destruct (in_order_lift orders mount _ Hos Hio).
Qed.
End querySet.

(** ** Mounts *)

Section lookup.
Context {D : Type} `{!SortSlice}.

Notation mounts := (list (list Z * D)) (only parsing).

Definition mount_New (ms : mounts) : mounts := sortSlice (fun a b => lexLess (fst b) (fst a)) ms.

(** The position of the mount of the key, and the key within it. *)
Fixpoint mount_lookup (ms : mounts) (key : list Z) : option (nat * list Z) :=
  match ms with
  | [] => None
  | (prefix, _) :: ms =>
      if IsAncestorOf prefix key then Some (O, NewKey (TrimPrefix key prefix))
      else '(i, k) ← mount_lookup ms key; Some (S i, k)
  end.

(** The mounts with keys below the key: position, prefix, and the rest of the key. *)
Fixpoint lookupAll (i : nat) (ms : mounts) (key : list Z) : list (nat * list Z * list Z) :=
  match ms with
  | [] => []
  | (prefix, _) :: ms =>
      if IsDescendantOf prefix key then (i, prefix, NewKey [slash]) :: lookupAll (S i) ms key
      else if bool_decide (prefix = key) || IsAncestorOf prefix key then [(i, prefix, NewKey (TrimPrefix key prefix))]
      else lookupAll (S i) ms key
  end.

Lemma lookup_found ms k i r :
  Forall (fun m => clean_key (fst m)) ms -> key_ok k -> mount_lookup ms k = Some (i, r) ->
  exists p c, ms !! i = Some (p, c) /\ key_ok r /\ k = below p r.
Proof.
  intros Hms Hk. revert i r. induction Hms as [|[p c] ms Hp _ IH]; intros i r; simpl; [done|]. destruct (IsAncestorOf p k) eqn:Ha.
  - intros [= <- <-]. destruct (ancestor_below p k Hp Hk Ha) as (r & -> & Hr & ->). by exists p, c.
  - intros ([i' r'] & Hl & [= <- <-])%bind_Some. by apply IH.
Qed.

(** The first mount above the key is taken. *)
Lemma lookup_first ms k : forall i p c,
  ms !! i = Some (p, c) -> IsAncestorOf p k = true -> exists j r, mount_lookup ms k = Some (j, r) /\ (j <= i)%nat.
Proof.
  induction ms as [|[p0 c0] ms IH]; intros i p c Hi Ha; [done|]. simpl. destruct (IsAncestorOf p0 k) eqn:Ha0.
  - eexists _, _. split; [done|lia].
  - destruct i as [|i]; [simplify_eq/=; congruence|]. destruct (IH i p c Hi Ha) as (j & r & -> & Hj). eexists _, _. split; [done|lia].
Qed.
Lemma lookup_before ms k : forall i r j p c,
  mount_lookup ms k = Some (i, r) -> (j < i)%nat -> ms !! j = Some (p, c) -> IsAncestorOf p k = false.
Proof.
  intros i r j p c Hl Hj Hp. destruct (IsAncestorOf p k) eqn:Ha; [|done]. destruct (lookup_first ms k j p c Hp Ha) as (j' & r' & Hl' & Hle).
  rewrite Hl in Hl'. simplify_eq. lia.
Qed.
End lookup.

Lemma mount_lookup_fst {D D'} (ms : list (list Z * D)) : forall (ms' : list (list Z * D')) k,
  map fst ms = map fst ms' -> mount_lookup ms k = mount_lookup ms' k.
Proof. induction ms as [|[p c] ms IH]; intros [|[p' c'] ms'] k [=]; [done|]. subst. simpl. by erewrite IH. Qed.
Lemma lookupAll_fst {D D'} (ms : list (list Z * D)) : forall i (ms' : list (list Z * D')) k,
  map fst ms = map fst ms' -> lookupAll i ms k = lookupAll i ms' k.
Proof. induction ms as [|[p c] ms IH]; intros i [|[p' c'] ms'] k [=]; [done|]. subst. simpl. by erewrite IH. Qed.

(** ** The contents of mounts *)

(** Maps at prefixes: each key is in the map it would be looked up in. *)
Notation mviews := (list (list Z * gmap (list Z) (list Z))) (only parsing).

Record views_ok (vs : mviews) : Prop := {
  v_prefixes : NoDup (map fst vs) /\ Forall (fun m => clean_key (fst m)) vs;
  v_root : [slash] ∈ map fst vs;
  v_keys i p m k : vs !! i = Some (p, m) -> is_Some (m !! k) -> key_ok k;
  v_unmasked i p m k : vs !! i = Some (p, m) -> is_Some (m !! k) -> mount_lookup vs (below p k) = Some (i, k)
}.

Definition mount_list (vs : mviews) : list (list Z * list Z) := vs ≫= fun m => at_mount (fst m) (map_to_list (snd m)).
Definition mount_map (vs : mviews) : gmap (list Z) (list Z) := list_to_map (mount_list vs).

Lemma mount_list_elem vs k v :
  (k, v) ∈ mount_list vs <-> exists i p m r, vs !! i = Some (p, m) /\ m !! r = Some v /\ k = below p r.
Proof.
  unfold mount_list, at_mount. rewrite list_elem_of_bind. split.
  - intros ([p m] & Hin & Hvs). apply list_elem_of_fmap in Hin as ([r v'] & [= -> ->] & Hr%elem_of_map_to_list).
    apply list_elem_of_lookup in Hvs as [i Hi]. simpl in *. by exists i, p, m, r.
  - intros (i & p & m & r & Hi & Hr & ->). exists (p, m). split; [|by eapply list_elem_of_lookup_2]. apply list_elem_of_fmap.
    exists (r, v). split; [done|]. by apply elem_of_map_to_list.
Qed.

Lemma mount_list_nodup vs : views_ok vs -> NoDup (map fst (mount_list vs)).
Proof.
  intros Hv. assert (forall k v v' i p m r i' p' m' r', vs !! i = Some (p, m) -> m !! r = Some v -> k = below p r ->
      vs !! i' = Some (p', m') -> m' !! r' = Some v' -> k = below p' r' -> i = i' /\ r = r') as Hu.
  { intros * Hi Hr -> Hi' Hr' Hk. pose proof (v_unmasked _ Hv i p m r Hi ltac:(eauto)) as E. rewrite Hk in E.
    rewrite (v_unmasked _ Hv i' p' m' r' Hi' ltac:(eauto)) in E. by simplify_eq. }
  apply NoDup_fmap_fst.
  - intros k v1 v2 (i & p & m & r & Hi & Hr & Hk)%mount_list_elem (i' & p' & m' & r' & Hi' & Hr' & Hk')%mount_list_elem.
    destruct (Hu k v1 v2 i p m r i' p' m' r') as [-> ->]; [done..|]. simplify_eq. congruence.
  - apply NoDup_bind.
    + intros [p m] [p' m'] [k v] [i Hi]%list_elem_of_lookup [i' Hi']%list_elem_of_lookup Hin Hin'.
      apply list_elem_of_fmap in Hin as ([r v1] & [= -> ->] & Hr%elem_of_map_to_list). apply list_elem_of_fmap in Hin' as ([r' v2] & [= Hk ->] & Hr'%elem_of_map_to_list).
      simpl in *. destruct (Hu (below p r) v2 v2 i p m r i' p' m' r') as [-> ->]; [done..|]. congruence.
    + intros [p m] _. apply (NoDup_fmap_2_strong _); [|apply NoDup_map_to_list].
      intros [k v] [k' v'] _ _ [= Hk ->]. simpl in Hk. by apply below_inj in Hk as ->.
    + destruct (v_prefixes _ Hv) as [Hnd _]. by apply NoDup_fmap_1 in Hnd.
Qed.

Lemma mount_map_Some vs k v : views_ok vs -> mount_map vs !! k = Some v <-> exists i p m r, vs !! i = Some (p, m) /\ m !! r = Some v /\ k = below p r.
Proof. intros Hv. unfold mount_map. rewrite <- elem_of_list_to_map by (by apply mount_list_nodup). apply mount_list_elem. Qed.

Lemma mount_map_list vs : views_ok vs -> map_to_list (mount_map vs) ≡ₚ mount_list vs.
Proof. intros Hv. by apply map_to_list_to_map, mount_list_nodup. Qed.

Lemma mount_map_keys vs k : views_ok vs -> is_Some (mount_map vs !! k) -> key_ok k.
Proof.
  intros Hv [v (i & p & m & r & Hi & Hr & ->)%mount_map_Some]; [|done]. destruct (v_prefixes _ Hv) as [_ Hc]. rewrite Forall_lookup in Hc.
  apply Child_below; [by apply (Hc _ _ Hi)|]. by eapply v_keys.
Qed.

(** A key is in the map of the mount it is looked up in. *)
Lemma mount_map_lookup vs k : views_ok vs -> key_ok k ->
  exists i r p m, mount_lookup vs k = Some (i, r) /\ vs !! i = Some (p, m) /\ key_ok r /\ k = below p r /\ mount_map vs !! k = m !! r.
Proof.
  intros Hv Hk. assert (exists i r, mount_lookup vs k = Some (i, r)) as (i & r & Hl).
  { pose proof (v_root _ Hv) as ([p m] & Hp & [i Hi]%list_elem_of_lookup)%list_elem_of_fmap. simpl in Hp. subst p.
    destruct (lookup_first vs k i [slash] m Hi) as (j & r & ? & _); [by apply under_root|]. by exists j, r. }
  destruct (lookup_found vs k i r) as (p & m & Hi & Hr & Hb); [by apply v_prefixes|done|done|].
  exists i, r, p, m. split_and!; [done..|]. apply option_eq. intros v. rewrite mount_map_Some by done. split; [|by exists i, p, m, r].
  intros (i' & p' & m' & r' & Hi' & Hr' & Hb'). pose proof (v_unmasked _ Hv i' p' m' r' Hi' ltac:(eauto)) as E. rewrite <- Hb' in E. by simplify_eq.
Qed.

(** A change of the map a key is looked up in, at that key. *)
Lemma views_update vs k i r p m m' :
  views_ok vs -> key_ok k -> mount_lookup vs k = Some (i, r) -> vs !! i = Some (p, m) -> (forall k', k' <> r -> m' !! k' = m !! k') ->
  views_ok (<[i := (p, m')]> vs) /\ forall k', mount_map (<[i := (p, m')]> vs) !! k' = if decide (k' = k) then m' !! r else mount_map vs !! k'.
Proof.
  intros Hv Hk Hl Hi Hm. destruct (lookup_found vs k i r) as (p0 & m0 & Hi0 & Hr & Hb); [by apply v_prefixes|done|done|].
  rewrite Hi in Hi0. injection Hi0 as <- <-.
  assert (map fst (<[i := (p, m')]> vs) = map fst vs) as Hfst.
  { change (map fst (<[i := (p, m')]> vs)) with (fst <$> <[i := (p, m')]> vs). rewrite list_fmap_insert. apply list_insert_id. simpl. by rewrite list_lookup_fmap, Hi. }
  assert (views_ok (<[i := (p, m')]> vs)) as Hv'.
  { destruct (v_prefixes _ Hv) as [Hnd Hc]. split.
    - rewrite Hfst. split; [done|]. apply Forall_insert; [done|]. simpl. rewrite Forall_lookup in Hc. by apply (Hc _ _ Hi).
    - rewrite Hfst. apply Hv.
    - intros j q m1 k' Hj Hs. apply list_lookup_insert_Some in Hj as [(<- & [= <- <-] & _)|(_ & Hj)]; [|by eapply v_keys].
      destruct (decide (k' = r)) as [->|Hne]; [done|]. rewrite Hm in Hs by done. by eapply v_keys.
    - intros j q m1 k' Hj Hs. rewrite (mount_lookup_fst _ vs) by done. apply list_lookup_insert_Some in Hj as [(<- & [= <- <-] & _)|(_ & Hj)]; [|by eapply v_unmasked].
      destruct (decide (k' = r)) as [->|Hne]; [by rewrite <- Hb|]. rewrite Hm in Hs by done. by eapply v_unmasked. }
  split; [done|]. intros k'. assert (key_ok k' -> mount_map (<[i := (p, m')]> vs) !! k' = if decide (k' = k) then m' !! r else mount_map vs !! k') as Hkey.
  { intros Hk'. destruct (mount_map_lookup vs k' Hv Hk') as (j & s & p1 & m1 & Hl1 & Hj1 & _ & Hb1 & E1).
    destruct (mount_map_lookup _ k' Hv' Hk') as (j' & s' & p2 & m2 & Hl2 & Hj2 & _ & Hb2 & E2).
    rewrite (mount_lookup_fst _ vs), Hl1 in Hl2 by done. simplify_eq. rewrite E1, E2.
    apply list_lookup_insert_Some in Hj2 as [(<- & [= <- <-] & _)|(Hne & Hj2)].
    + rewrite Hj1 in Hi. simplify_eq. case_decide as Hd; [by apply below_inj in Hd as ->|]. apply Hm. congruence.
    + rewrite decide_False by congruence. by simplify_eq. }
  destruct (decide (k' = k)) as [->|Hne]; [by apply Hkey|].
  destruct (mount_map (<[i := (p, m')]> vs) !! k') eqn:E2; [apply Hkey, (mount_map_keys _ _ Hv'); eauto|].
  destruct (mount_map vs !! k') eqn:E1; [|done]. apply Hkey, (mount_map_keys _ _ Hv). eauto.
Qed.

(** ** The mounts of a query *)

(** The keys and values of a mount below the rest of the prefix. *)
Definition target_list (vs : mviews) (t : nat * list Z * list Z) : list (list Z * list Z) :=
  let '(i, p, rest) := t in
  match vs !! i with
  | Some (_, m) => at_mount p (filter (fun kv => under rest (fst kv) = true) (map_to_list m))
  | None => []
  end.

Lemma filter_const {A} (P : A -> bool) l b : Forall (fun x => P x = b) l -> filter (fun x => P x = true) l = if b then l else [].
Proof. induction 1 as [|x l Hx _ IH]; [by destruct b|]. rewrite filter_cons, Hx, IH. by destruct b. Qed.

(** The mounts that [lookupAll] leaves out have nothing below the prefix. *)
Lemma lookupAll_complete vs P : views_ok vs -> clean_key P -> forall pre suf,
  vs = pre ++ suf ->
  filter (fun kv => IsAncestorOf P (fst kv) = true) (mount_list suf) = (lookupAll (length pre) suf P ≫= target_list vs).
Proof.
  intros Hv HP pre suf. revert pre. induction suf as [|[p m] suf IH]; intros pre Hvs; [done|]. specialize (IH (pre ++ [(p, m)])).
  rewrite length_app, Nat.add_1_r, <- app_assoc in IH. specialize (IH Hvs).
  assert (vs !! length pre = Some (p, m)) as Hi by (rewrite Hvs; by apply list_lookup_middle).
  assert (clean_key p) as Hp by (destruct (v_prefixes _ Hv) as [_ Hc]; rewrite Forall_lookup in Hc; by apply (Hc _ _ Hi)).
  assert (Forall (fun kv => key_ok (fst kv)) (map_to_list m)) as Hm
    by (apply Forall_forall; intros [k v] Hin%elem_of_map_to_list; simpl; by eapply v_keys; [..|eauto]).
  unfold mount_list. cbn [mbind list_bind fst snd]. rewrite filter_app. fold (mount_list suf). cbn [lookupAll].
  unfold IsDescendantOf. destruct (IsAncestorOf P p) eqn:H1.
  - cbn [mbind list_bind]. rewrite IH. f_equal. unfold target_list. rewrite Hi. apply filter_at_mount.
    eapply Forall_impl; [done|]. intros [k v] Hk. simpl in *. rewrite below_descendant by done. symmetry. by apply under_root.
  - destruct (bool_decide (p = P) || IsAncestorOf p P) eqn:H2.
    + assert (p = P \/ IsAncestorOf p P = true) as Hor by (apply orb_true_iff in H2 as [?%bool_decide_eq_true|]; tauto). cbn [mbind list_bind]. f_equal.
      * unfold target_list. rewrite Hi. apply filter_at_mount. eapply Forall_impl; [done|]. intros [k v] Hk. simpl in *. by apply below_ancestor.
      * rewrite (filter_const (fun kv => IsAncestorOf P (fst kv)) _ false); [done|]. apply Forall_forall.
        intros [k v] (j & p' & m' & r & Hj & Hr & ->)%mount_list_elem. simpl. destruct (IsAncestorOf P (below p' r)) eqn:Ha; [|done].
        assert (vs !! (length pre + S j)%nat = Some (p', m')) as Hj' by (rewrite Hvs, lookup_app_r, Nat.add_comm, Nat.add_sub by lia; done).
        assert (key_ok (below p' r)) as Hk by (eapply mount_map_keys; [done|]; eexists; apply mount_map_Some; [done|]; by eexists _, _, _, _).
        destruct (lookup_first vs (below p' r) (length pre) p m Hi) as (j' & r' & Hl & Hle); [by apply (ancestor_trans p P)|].
        rewrite (v_unmasked _ Hv _ _ _ r Hj' ltac:(eauto)) in Hl. simplify_eq. lia.
    + apply orb_false_iff in H2 as [H2%bool_decide_eq_false H3]. rewrite IH. rewrite (filter_const (fun kv => IsAncestorOf P (fst kv)) _ false); [done|].
      apply Forall_fmap. eapply Forall_impl; [done|]. intros [k v] Hk. simpl in *. by apply below_apart.
Qed.

Lemma lookupAll_targets {D} (ms : list (list Z * D)) P : clean_key P -> Forall (fun m => clean_key (fst m)) ms -> forall i,
  Forall (fun t => (exists j c, fst (fst t) = (i + j)%nat /\ ms !! j = Some (snd (fst t), c))) (lookupAll i ms P).
Proof.
  intros HP. induction 1 as [|[p c] ms Hp _ IH]; intros i; simpl; [constructor|].
  assert (Forall (fun t => exists j c0, fst (fst t) = (i + j)%nat /\ ((p, c) :: ms) !! j = Some (snd (fst t), c0)) (lookupAll (S i) ms P)) as IH'.
  { eapply Forall_impl; [apply IH|]. intros t (j & c0 & -> & Hj). exists (S j), c0. split; [lia|done]. }
  assert (forall r : list Z, exists j c0, fst (fst (i, p, r)) = (i + j)%nat /\ ((p, c) :: ms) !! j = Some (snd (fst (i, p, r)), c0)) as Hhead
    by (intros r; exists O, c; simpl; split; [lia|done]).
  destruct (IsDescendantOf p P); [constructor; [exact (Hhead [])|done]|]. destruct (_ || _); [|done]. constructor; [exact (Hhead [])|constructor].
Qed.

Section mount.
Context {D : Type} `{Datastore D} `{!SortSlice}.

Notation mounts := (list (list Z * D)) (only parsing).

(** A call of the datastore mounted at a position. *)
Definition on_mount {A} (i : nat) (f : dsM D A) : dsM mounts A := fun d =>
  '(p, c) ← d !! i; '(r, c) ← f c; Some (r, <[i := (p, c)]> d).

Definition mount_Put (key value : list Z) : dsM mounts unit := fun d =>
  match mount_lookup d key with None => Some (Err ErrNoMount, d) | Some (i, k) => on_mount i (ds_Put k value) d end.
Definition mount_Get (key : list Z) : dsM mounts (list Z) := fun d =>
  match mount_lookup d key with None => Some (Err ErrNotFound, d) | Some (i, k) => on_mount i (ds_Get k) d end.
Definition mount_Has (key : list Z) : dsM mounts bool := fun d =>
  match mount_lookup d key with None => Some (Ok false, d) | Some (i, k) => on_mount i (ds_Has k) d end.
Definition mount_GetSize (key : list Z) : dsM mounts Z := fun d =>
  match mount_lookup d key with None => Some (Err ErrNotFound, d) | Some (i, k) => on_mount i (ds_GetSize k) d end.
Definition mount_Delete (key : list Z) : dsM mounts unit := fun d =>
  match mount_lookup d key with None => Some (Ok tt, d) | Some (i, k) => on_mount i (ds_Delete k) d end.

(** The query of the children. *)
Definition childQuery (master : Query) (prefix : list Z) : Query :=
  mkQuery prefix [] (q_Orders master) 0 0 (q_KeysOnly master) (q_ReturnExpirations master) (q_ReturnsSizes master).

Fixpoint query_mounts (master : Query) (targets : list (nat * list Z * list Z)) (heads : list queryResults)
  : dsM mounts (list queryResults) := fun d =>
  match targets with
  | [] => Some (Ok heads, d)
  | (i, mount, rest) :: targets =>
      '(r, d) ← on_mount i (ds_Query (childQuery master rest)) d;
      match r with
      | Err e => Some (Err e, d)
      | Ok results => heads ← addResults (q_Orders master) mount results heads; query_mounts master targets heads d
      end
  end.

Definition mount_Query (master : Query) : dsM mounts (list Result) := fun d =>
  '(r, d) ← query_mounts master (lookupAll 0 d (NewKey (q_Prefix master))) [] d;
  match r with
  | Err e => Some (Err e, d)
  | Ok heads =>
      qr ← drain (q_Orders master) (S (left_all heads)) heads;
      let qr := foldl NaiveFilter qr (q_Filters master) in
      let qr := if q_Offset master >? 0 then NaiveOffset qr (q_Offset master) else qr in
      let qr := if q_Limit master >? 0 then NaiveLimit qr (q_Limit master) else qr in
      Some (Ok qr, d)
  end.

#[export] Instance mount_datastore : Datastore mounts := {|
  ds_Put := mount_Put; ds_Get := mount_Get; ds_Has := mount_Has; ds_GetSize := mount_GetSize; ds_Delete := mount_Delete; ds_Query := mount_Query
|}.

(** ** A mount datastore over maps is a map *)

Context (ok : D -> Prop) (view : D -> gmap (list Z) (list Z)) {laws : DatastoreLaws D ok view}.

Definition views (d : mounts) : list (list Z * gmap (list Z) (list Z)) := map (fun m => (fst m, view (snd m))) d.
Definition mount_ok (d : mounts) : Prop := Forall (fun m => ok (snd m)) d /\ views_ok (views d).
Definition mount_view (d : mounts) : gmap (list Z) (list Z) := mount_map (views d).

Lemma views_fst d : map fst (views d) = map fst d.
Proof. unfold views. rewrite map_map. done. Qed.

Lemma views_lookup d i p m : views d !! i = Some (p, m) -> exists c, d !! i = Some (p, c) /\ view c = m.
Proof. unfold views. rewrite list_lookup_fmap. intros ([p' c] & Hi & [= -> ->])%fmap_Some. by exists c. Qed.

Lemma views_insert d i p c : views (<[i := (p, c)]> d) = <[i := (p, view c)]> (views d).
Proof. unfold views. apply (list_fmap_insert (fun m => (fst m, view (snd m)))). Qed.

(** Where a key is looked up. *)
Lemma lookup_mount d k :
  mount_ok d -> key_ok k ->
  exists i r p c, mount_lookup d k = Some (i, r) /\ d !! i = Some (p, c) /\ ok c /\ key_ok r /\ mount_view d !! k = view c !! r.
Proof.
  intros [Hok Hv] Hk. destruct (mount_map_lookup (views d) k Hv Hk) as (i & r & p & m & Hl & Hi & Hr & _ & E).
  destruct (views_lookup d i p m Hi) as (c & Hc & <-). rewrite Forall_lookup in Hok. pose proof (Hok _ _ Hc).
  exists i, r, p, c. rewrite <- Hl. split_and!; [|done..]. apply mount_lookup_fst. by rewrite views_fst.
Qed.

(** A call of the datastore of a key that changes at most that key. *)
Lemma on_mount_ok {A} (f : dsM D A) d k i r p c x c' :
  mount_ok d -> key_ok k -> mount_lookup d k = Some (i, r) -> d !! i = Some (p, c) -> f c = Some (x, c') -> ok c' ->
  (forall k', k' <> r -> view c' !! k' = view c !! k') ->
  exists d', on_mount i f d = Some (x, d') /\ mount_ok d' /\
    forall k', mount_view d' !! k' = if decide (k' = k) then view c' !! r else mount_view d !! k'.
Proof.
  intros [Hok Hv] Hk Hl Hi Hf Hc' Hvw. unfold on_mount. rewrite Hi. simpl. rewrite Hf. simpl. eexists. split; [done|].
  destruct (views_update (views d) k i r p (view c) (view c')) as [Hv' E]; [done|done| | |done|].
  - rewrite <- Hl. apply mount_lookup_fst. by rewrite views_fst.
  - unfold views. by rewrite list_lookup_fmap, Hi.
  - unfold mount_ok, mount_view. rewrite views_insert. split; [split; [|done]|done]. by apply Forall_insert.
Qed.

Lemma on_mount_read {A} (f : dsM D A) d k i r p c x c' :
  mount_ok d -> key_ok k -> mount_lookup d k = Some (i, r) -> d !! i = Some (p, c) -> f c = Some (x, c') -> ok c' -> view c' = view c ->
  mount_view d !! k = view c !! r ->
  exists d', on_mount i f d = Some (x, d') /\ mount_ok d' /\ mount_view d' = mount_view d.
Proof.
  intros Hd Hk Hl Hi Hf Hc Hv Hkv. destruct (on_mount_ok f d k i r p c x c') as (d' & Ho & Hd' & E); [done..|by rewrite Hv|].
  exists d'. split_and!; [done..|]. apply map_eq. intros k'. rewrite E. case_decide; [subst; by rewrite Hv|done].
Qed.

(** *** Queries *)

Lemma child_answers q rest m es : answers (childQuery q rest) m es ->
  es ≡ₚ map (entry_of q) (filter (fun kv => under rest (fst kv) = true) (map_to_list m)) /\ in_order (q_Orders q) es.
Proof.
  intros (all & Hp & Ho & ->). unfold NaiveLimit. simpl in *. rewrite drop_0. split; [|done]. rewrite Hp.
  rewrite filter_id; [done|]. apply Forall_forall. intros e _. constructor.
Qed.

Lemma query_mounts_ok q ts : Forall order_ok (q_Orders q) -> forall d heads,
  mount_ok d -> Forall (fun t => exists c, d !! fst (fst t) = Some (snd (fst t), c)) ts ->
  heap_ok (set_Less (q_Orders q)) heads -> Forall stream_ok heads ->
  exists heads' d', query_mounts q ts heads d = Some (Ok heads', d') /\ mount_ok d' /\ views d' = views d /\
    heap_ok (set_Less (q_Orders q)) heads' /\ Forall stream_ok heads' /\
    streams heads' ≡ₚ map (entry_of q) (ts ≫= target_list (views d)) ++ streams heads /\
    (q_Orders q <> [] -> Forall (fun qr => StronglySorted (entry_le (q_Orders q)) (stream_of qr)) heads ->
      Forall (fun qr => StronglySorted (entry_le (q_Orders q)) (stream_of qr)) heads').
Proof.
  intros Hos. induction ts as [|[[i p] rest] ts IH]; intros d heads Hd Hts Hh Hok.
  { exists heads, d. by split_and!. }
  apply Forall_cons in Hts as [[c Hi] Hts]. simpl in Hi. cbn [query_mounts]. unfold on_mount at 1. rewrite Hi. cbn [mbind option_bind].
  assert (Hd0 := Hd). destruct Hd0 as [Hc Hv]. pose proof (proj1 (Forall_lookup _ _) Hc _ _ Hi) as Hci. simpl in Hci.
  assert (views d !! i = Some (p, view c)) as Hvi by (unfold views; by rewrite list_lookup_fmap, Hi).
  destruct (law_Query c (childQuery q rest) Hci) as (es & c' & -> & Hc' & Hvc & Ha); [by split; [constructor|]|]. cbn [mbind option_bind].
  apply child_answers in Ha as [Hes Hio].
  assert (views (<[i := (p, c')]> d) = views d) as Hvd by (rewrite views_insert, Hvc; by apply list_insert_id).
  assert (clean_key p) as Hp by (destruct (v_prefixes _ Hv) as [_ Hcl]; rewrite Forall_lookup in Hcl; by apply (Hcl _ _ Hvi)).
  destruct (addResults_ok (q_Orders q) Hos p es heads) as (heads1 & -> & Hh1 & Hok1 & Hst1 & Hs1); [done| |done|done|done|].
  { rewrite Hes. apply Forall_fmap, Forall_forall. intros [k v] [_ Hin%elem_of_map_to_list]%list_elem_of_filter. simpl. by eapply law_keys; [|eauto]. }
  cbn [mbind option_bind]. destruct (IH (<[i := (p, c')]> d) heads1) as (heads' & d' & Hq & Hd' & Hv' & Hh' & Hok' & Hst' & Hs').
  { split; [by apply Forall_insert|by rewrite Hvd]. }
  { eapply Forall_impl; [done|]. intros [[j p'] rest'] [c0 Hj]. simpl in *. destruct (decide (i = j)) as [->|Hne].
    - rewrite list_lookup_insert_eq by (by eapply lookup_lt_Some). simplify_eq. eauto.
    - rewrite list_lookup_insert_ne by done. eauto. }
  { done. } { done. }
  exists heads', d'. rewrite Hvd in Hv', Hst'. split_and!; [done..| |].
  - rewrite Hst', Hst1. cbn [mbind list_bind]. rewrite map_app. cbn [target_list]. rewrite Hvi. unfold at_mount at 1. rewrite map_map.
    rewrite Hes, map_map. rewrite !app_assoc. f_equiv. rewrite Permutation_app_comm. done.
  - intros Hne Hs. by apply Hs', Hs1.
Qed.

Lemma entry_le_filter os (P : Entry -> Prop) `{forall e, Decision (P e)} es :
  StronglySorted (entry_le os) es -> StronglySorted (entry_le os) (filter P es).
Proof.
  induction 1 as [|e es Hs IH He]; [constructor|]. rewrite filter_cons. case_decide; [|done]. constructor; [done|].
  apply Forall_forall. intros x [_ Hx]%list_elem_of_filter. rewrite Forall_forall in He. by apply He.
Qed.

Lemma offset_gt es off : (if off >? 0 then NaiveOffset (map Ok es) off else map Ok es) = map (@Ok dserror Entry) (drop (Z.to_nat off) es).
Proof. unfold NaiveOffset. rewrite Z.gtb_ltb. destruct (Z.ltb_spec 0 off); [apply skip_ok|]. by replace (Z.to_nat off) with O by lia. Qed.
Lemma limit_gt (es : list Entry) l : (if l >? 0 then NaiveLimit (map Ok es) l else map Ok es) = map (@Ok dserror Entry) (NaiveLimit es l).
Proof. rewrite Z.gtb_ltb. destruct (Z.ltb_spec 0 l); [apply NaiveLimit_map|]. unfold NaiveLimit. by rewrite (proj2 (Z.leb_le _ _)) by lia. Qed.

Lemma mount_Query_ok q d :
  mount_ok d -> query_ok q ->
  exists es d', mount_Query q d = Some (Ok (map Ok es), d') /\ mount_ok d' /\ mount_view d' = mount_view d /\ answers q (mount_view d) es.
Proof.
  intros Hd [_ Hos]. assert (Hd0 := Hd). destruct Hd0 as [Hok Hv]. unfold mount_Query. rewrite (lookupAll_fst d 0 (views d)) by (by rewrite views_fst).
  pose proof (NewKey_clean (q_Prefix q)) as HP.
  destruct (query_mounts_ok q (lookupAll 0 (views d) (NewKey (q_Prefix q))) Hos d []) as (heads & d' & -> & Hd' & Hvd & Hh & Hst & Hp & Hs).
  { done. }
  { eapply Forall_impl; [apply lookupAll_targets; [done|by apply v_prefixes]|]. intros [[i p] rest] (j & m & Hij & Hj). simpl in *. subst i.
    apply views_lookup in Hj as (c & Hc & _). eauto. }
  { intros j Hj. simpl in Hj. lia. } { constructor. }
  cbn [mbind option_bind]. destruct (drain_ok (q_Orders q) Hos (S (left_all heads)) heads) as (es & -> & Hpe & Hse); [lia|done..|].
  cbn [mbind option_bind]. rewrite NaiveFilters_ok.
  change (map Ok (filter _ es)) with (map (@Ok dserror Entry) (filter (passes q) es)).
  set (all := filter (passes q) es). exists (NaiveLimit (drop (Z.to_nat (q_Offset q)) all) (q_Limit q)), d'. split_and!; [|done| |].
  - by rewrite offset_gt, limit_gt.
  - unfold mount_view. by rewrite Hvd.
  - exists all. split_and!; [| |done].
    + unfold all. f_equiv. rewrite Hpe, Hp. unfold streams. simpl. rewrite app_nil_r. unfold entries_under, mount_view. apply fmap_Permutation.
      rewrite (mount_map_list _ Hv). pose proof (lookupAll_complete (views d) _ Hv HP [] (views d) eq_refl) as Hc. simpl in Hc. by rewrite <- Hc.
    + destruct (decide (q_Orders q = [])) as [->|Hne]; [by left|right]. apply (entry_le_filter (q_Orders q)). apply Hse, Hs; [done|constructor].
Qed.

#[export] Instance mount_laws : DatastoreLaws mounts mount_ok mount_view.
Proof.
  split.
  - intros d k [_ Hv]. by apply mount_map_keys.
  - intros d k v Hd Hk. destruct (lookup_mount d k Hd Hk) as (i & r & p & c & Hl & Hi & Hc & Hr & _). destruct (law_Put c r v Hc Hr) as (c' & Hf & Hc' & Hv).
    simpl. unfold mount_Put. rewrite Hl. destruct (on_mount_ok (ds_Put r v) d k i r p c (Ok tt) c') as (d' & Ho & Hd' & E); [done..| |].
    { intros k' Hne. by rewrite Hv, lookup_insert_ne. }
    exists d'. split_and!; [done..|]. apply map_eq. intros k'. rewrite E, lookup_insert, Hv, lookup_insert_eq. by repeat case_decide.
  - intros d k Hd Hk. destruct (lookup_mount d k Hd Hk) as (i & r & p & c & Hl & Hi & Hc & Hr & _). destruct (law_Delete c r Hc Hr) as (c' & Hf & Hc' & Hv).
    simpl. unfold mount_Delete. rewrite Hl. destruct (on_mount_ok (ds_Delete r) d k i r p c (Ok tt) c') as (d' & Ho & Hd' & E); [done..| |].
    { intros k' Hne. by rewrite Hv, lookup_delete_ne. }
    exists d'. split_and!; [done..|]. apply map_eq. intros k'. rewrite E, lookup_delete, Hv, lookup_delete_eq. by repeat case_decide.
  - intros d k Hd Hk. destruct (lookup_mount d k Hd Hk) as (i & r & p & c & Hl & Hi & Hc & Hr & Hkv). destruct (law_Get c r Hc Hr) as (c' & Hf & Hc' & Hv).
    simpl. unfold mount_Get. rewrite Hl, Hkv. by eapply (on_mount_read _ d k i r p c _ c').
  - intros d k Hd Hk. destruct (lookup_mount d k Hd Hk) as (i & r & p & c & Hl & Hi & Hc & Hr & Hkv). destruct (law_Has c r Hc Hr) as (c' & Hf & Hc' & Hv).
    simpl. unfold mount_Has. rewrite Hl. rewrite (bool_decide_ext _ (is_Some (view c !! r))) by (by rewrite Hkv). by eapply (on_mount_read _ d k i r p c _ c').
  - intros d k Hd Hk. destruct (lookup_mount d k Hd Hk) as (i & r & p & c & Hl & Hi & Hc & Hr & Hkv). destruct (law_GetSize c r Hc Hr) as (c' & Hf & Hc' & Hv).
    simpl. unfold mount_GetSize. rewrite Hl, Hkv. by eapply (on_mount_read _ d k i r p c _ c').
  - intros d q Hd Hq. by apply mount_Query_ok.
Qed.

(** ** The most specific mount *)

Lemma New_sorted (ms : mounts) : StronglySorted (fun a b => lexLess (fst a) (fst b) = false) (mount_New ms).
Proof.
  apply (sortSlice_sorted (fun a b => lexLess (fst b) (fst a))). split; intros *; [intros _ _; apply lexLess_asym|intros _ _ _ H1 H2; by eapply lexLess_trans].
Qed.

Lemma ancestors_comparable p p' k :
  clean_key p -> clean_key p' -> key_ok k -> IsAncestorOf p k = true -> IsAncestorOf p' k = true ->
  p' = p \/ IsAncestorOf p' p = true \/ (IsAncestorOf p p' = true /\ lexLess p p' = true).
Proof.
  intros (a & Ha & ->) (b & Hb & ->) (c & Hc & Hne & ->)%key_ok_of (x & Hx & ->)%IsAncestorOf_of (y & Hy & E)%IsAncestorOf_of; [|done..].
  apply app_eq_inv in E as [(e & -> & _)|(e & -> & _)]; (destruct (decide (e = [])) as [->|He]; [left; by rewrite app_nil_r|right]).
  - left. apply IsAncestorOf_of; [done..|eauto].
  - right. split; [apply IsAncestorOf_of; [done..|eauto]|by apply key_of_below].
Qed.

Lemma New_specific (ms : mounts) k i r p c p' :
  Forall (fun m => clean_key (fst m)) ms -> key_ok k -> mount_lookup (mount_New ms) k = Some (i, r) -> mount_New ms !! i = Some (p, c) ->
  p' ∈ map fst ms -> IsAncestorOf p' k = true -> p' = p \/ IsAncestorOf p' p = true.
Proof.
  intros Hcl Hk Hl Hi Hp' Ha'. assert (mount_New ms ≡ₚ ms) as Hperm by apply sortSlice_perm. rewrite <- Hperm in Hcl, Hp'.
  apply list_elem_of_fmap in Hp' as ([p1 c1] & -> & [j Hj]%list_elem_of_lookup). simpl in *. assert (Hcl' := Hcl). rewrite Forall_lookup in Hcl'.
  destruct (lookup_found _ k i r Hcl Hk Hl) as (p0 & c0 & Hi0 & Hr & ->). simplify_eq.
  pose proof (Hcl' _ _ Hi) as Hp. pose proof (Hcl' _ _ Hj) as Hp1. simpl in Hp, Hp1.
  destruct (ancestors_comparable p p1 (below p r) Hp Hp1 Hk (ancestor_of_below _ _ Hp Hr) Ha') as [|[|[Hbelow Hlt]]]; [tauto..|exfalso].
  destruct (decide (j < i)%nat) as [Hlt'|Hge]; [pose proof (lookup_before _ _ _ _ _ _ _ Hl Hlt' Hj); congruence|].
  destruct (decide (i = j)) as [->|Hne]; [simplify_eq; by rewrite lexLess_irrefl in Hlt|].
  pose proof (New_sorted ms) as Hs. rewrite <- (take_drop_middle _ _ _ Hi) in Hs.
  assert ((p1, c1) ∈ drop (S i) (mount_New ms)) as Hin.
  { apply list_elem_of_lookup. exists (j - S i)%nat. rewrite lookup_drop. by replace (S i + (j - S i))%nat with j by lia. }
  change (?l ++ ?x :: ?l') with (l ++ [x] ++ l') in Hs. rewrite app_assoc in Hs.
  pose proof (StronglySorted_app_1_elem_of _ _ _ (p, c) (p1, c1) Hs ltac:(set_solver) Hin) as Hle. simpl in Hle. congruence.
Qed.

(** Mounts with different prefixes, one of them the root, with no key in a mount that a more specific
    one is above. *)
Record mounts_ok (ms : mounts) : Prop := {
  m_prefixes : NoDup (map fst ms) /\ Forall (fun m => clean_key (fst m)) ms;
  m_root : [slash] ∈ map fst ms;
  m_children : Forall (fun m => ok (snd m)) ms;
  m_specific p c r p' : (p, c) ∈ ms -> is_Some (view c !! r) -> p' ∈ map fst ms -> IsAncestorOf p' (below p r) = true -> p' = p \/ IsAncestorOf p' p = true
}.

Lemma ancestor_asym p p' : clean_key p -> clean_key p' -> IsAncestorOf p p' = true -> IsAncestorOf p' p = false.
Proof.
  intros (a & Ha & ->) (b & Hb & ->) (c & Hc & ->)%IsAncestorOf_of; [|done..]. apply not_true_iff_false.
  intros (d & Hd & E)%IsAncestorOf_of; [|done..]. rewrite <- app_assoc in E. apply (f_equal length) in E. rewrite !length_app in E.
  destruct c; [done|]. simpl in E. lia.
Qed.

Lemma mounts_ok_perm ms ms' : ms ≡ₚ ms' -> mounts_ok ms -> mounts_ok ms'.
Proof.
  intros Hp [[H1 H2] H3 H4 H5]. assert (map fst ms ≡ₚ map fst ms') as Hf by (by apply fmap_Permutation). split.
  - by rewrite <- Hp.
  - by rewrite <- Hp.
  - by rewrite <- Hp.
  - intros p c r p'. rewrite <- Hf, <- Hp. apply H5.
Qed.

Lemma New_ok ms : mounts_ok ms -> mount_ok (mount_New ms).
Proof.
  intros Hms. assert (mount_New ms ≡ₚ ms) as Hperm by apply sortSlice_perm.
  pose proof (mounts_ok_perm _ _ (symmetry Hperm) Hms) as [[Hnd Hcl] Hroot Hok Hsp]. split; [done|].
  assert (forall i p m, views (mount_New ms) !! i = Some (p, m) -> exists c, mount_New ms !! i = Some (p, c) /\ view c = m /\ ok c /\ clean_key p) as Hat.
  { intros i p m Hi. destruct (views_lookup _ _ _ _ Hi) as (c & Hc & <-). rewrite Forall_lookup in Hok, Hcl. exists c. split_and!; [done..|by apply (Hok _ _ Hc)|by apply (Hcl _ _ Hc)]. }
  split.
  - rewrite views_fst. split; [done|]. apply Forall_lookup. intros i [p m] Hi. by destruct (Hat i p m Hi) as (? & ? & ? & ? & ?).
  - by rewrite views_fst.
  - intros i p m k Hi Hk. destruct (Hat i p m Hi) as (c & Hc & <- & Hokc & _). exact (law_keys c k Hokc Hk).
  - intros i p m k Hi Hk. destruct (Hat i p m Hi) as (c & Hc & <- & Hokc & Hp). pose proof (law_keys c k Hokc Hk) as Hkk.
    destruct (Child_below p k Hp Hkk) as [_ Hbk]. rewrite (mount_lookup_fst _ (mount_New ms)) by (by rewrite views_fst).
    destruct (lookup_first (mount_New ms) (below p k) i p c Hc (ancestor_of_below _ _ Hp Hkk)) as (j & r & Hl & _).
    destruct (lookup_found _ _ j r Hcl Hbk Hl) as (p1 & c1 & Hj & Hr & Hb). assert (clean_key p1) as Hp1 by (rewrite Forall_lookup in Hcl; by apply (Hcl _ _ Hj)).
    assert (forall q c i, mount_New ms !! i = Some (q, c) -> q ∈ map fst (mount_New ms)) as Hin
      by (intros q c2 i2 Hq; apply list_elem_of_fmap; exists (q, c2); split; [done|by eapply list_elem_of_lookup_2]).
    assert (p = p1) as <-.
    { destruct (New_specific ms (below p k) j r p1 c1 p) as [|Ha]; [by apply Hms|done|done|done|rewrite <- Hperm; by eapply Hin|by apply ancestor_of_below|done|].
      destruct (Hsp p c k p1) as [|Ha']; [by eapply list_elem_of_lookup_2|done|by eapply Hin|rewrite Hb; by apply ancestor_of_below|done|].
      apply ancestor_asym in Ha; [congruence|done..]. }
    apply below_inj in Hb as <-. rewrite Hl. f_equal. f_equal.
    apply (NoDup_lookup (map fst (mount_New ms)) j i p); [done|by rewrite list_lookup_fmap, Hj|by rewrite list_lookup_fmap, Hc].
Qed.

(** Outside of all mounts. *)
Lemma mount_outside d k v :
  mount_lookup d k = None ->
  ds_Put k v d = Some (Err ErrNoMount, d) /\ ds_Get k d = Some (Err ErrNotFound, d) /\ ds_Has k d = Some (Ok false, d) /\
  ds_GetSize k d = Some (Err ErrNotFound, d) /\ ds_Delete k d = Some (Ok tt, d).
Proof. intros Hl. simpl. unfold mount_Put, mount_Get, mount_Has, mount_GetSize, mount_Delete. by rewrite Hl. Qed.

(** C21: Datastores that are maps, mounted at different prefixes with one at the root, are together a map:
    every run of calls is answered as one map answers it, the merged queries with filters, orders,
    offset and limit included; keys are looked up in the most specific mount above them; and no run
    leaves a key in a mount where it would not be looked up. *)
Theorem mount_is_map ops ms :
  mounts_ok ms -> Forall dop_ok ops ->
  (exists l d, store_run ops (mount_New ms) = Some (l, d) /\ map_run ops (mount_view (mount_New ms)) l (mount_view d) /\
    forall i p c r, d !! i = Some (p, c) -> is_Some (view c !! r) -> mount_lookup d (below p r) = Some (i, r) /\ mount_view d !! below p r = view c !! r) /\
  (forall k i r p c, key_ok k -> mount_lookup (mount_New ms) k = Some (i, r) -> mount_New ms !! i = Some (p, c) ->
    k = below p r /\ forall p', p' ∈ map fst ms -> IsAncestorOf p' k = true -> p' = p \/ IsAncestorOf p' p = true).
Proof.
  intros Hms Hops. split.
  - destruct (lawful_run mount_ok mount_view ops (mount_New ms) (New_ok ms Hms) Hops) as (l & d & Hr & [_ Hv] & Hm). exists l, d. split_and!; [done..|].
    intros i p c r Hi Hs. assert (views d !! i = Some (p, view c)) as Hvi by (unfold views; by rewrite list_lookup_fmap, Hi).
    rewrite (mount_lookup_fst d (views d)) by (by rewrite views_fst). split; [by apply (v_unmasked _ Hv i p (view c))|].
    destruct Hs as [v Hs]. rewrite Hs. apply mount_map_Some; [done|]. by exists i, p, (view c), r.
  - intros k i r p c Hk Hl Hi. destruct (m_prefixes _ Hms) as [_ Hcl]. split.
    + assert (mount_New ms ≡ₚ ms) as Hperm by apply sortSlice_perm. rewrite <- Hperm in Hcl.
      destruct (lookup_found _ k i r Hcl Hk Hl) as (p0 & c0 & Hi0 & _ & ->). by simplify_eq.
    + intros p'. by eapply New_specific.
Qed.
End mount.

Section witness.
#[local] Existing Instance insertionSort.

Definition exampleMounts : list (list Z * gmap (list Z) (list Z)) := [(str "/", ∅); (str "/foo", ∅)].
Definition exampleOps : list dop :=
  [DPut (str "/foo/a") [1]; DPut (str "/b") [2]; DGet (str "/foo/a"); DQuery (mkQuery [] [] [OrderByKey] 0 0 false false false)].

Lemma mount_is_map_witness :
  exists l d, store_run exampleOps (mount_New exampleMounts) = Some (l, d) /\ map_run exampleOps (mount_view id (mount_New exampleMounts)) l (mount_view id d) /\
    l = [ADone (Ok tt); ADone (Ok tt); AValue (Ok [1]); AResults (Ok [Ok (mkEntry (str "/b") [2] 0 1); Ok (mkEntry (str "/foo/a") [1] 0 1)])].
Proof.
  destruct (mount_is_map map_ok id exampleOps exampleMounts) as [(l & d & Hr & Hm & _) _].
  - split.
    + split; [apply (bool_decide_unpack _); vm_compute; exact I|]. repeat constructor; [by exists []|exists [str "foo"]; split; [|done]].
      apply (bool_decide_unpack _). vm_compute. exact I.
    + apply (bool_decide_unpack _). vm_compute. exact I.
    + apply Forall_forall. intros [p m] [[= -> ->]|[[= -> ->]|[]%elem_of_nil]%elem_of_cons]%elem_of_cons k [v Hk]; discriminate.
    + intros p c r p' [[= -> ->]|[[= -> ->]|[]%elem_of_nil]%elem_of_cons]%elem_of_cons [v Hv]; discriminate.
  - unfold exampleOps. apply Forall_cons; split; [|apply Forall_cons; split; [|apply Forall_cons; split; [|by repeat constructor]]]; simpl.
    + eapply (key_of_ok _ [str "foo"; str "a"]); [done| |done]. apply (bool_decide_unpack _). vm_compute. exact I.
    + eapply (key_of_ok _ [str "b"]); [done| |done]. apply (bool_decide_unpack _). vm_compute. exact I.
    + eapply (key_of_ok _ [str "foo"; str "a"]); [done| |done]. apply (bool_decide_unpack _). vm_compute. exact I.
  - exists l, d. refine (conj Hr (conj Hm _)). apply (f_equal (option_map fst)) in Hr. vm_compute in Hr. injection Hr as <-. reflexivity.
Defined.

(** A key in a mount where it is not looked up is masked for [Get], but not in the results of a query. *)
Lemma masked_in_query :
  let mounts := mount_New [(str "/", {[ str "/foo/a" := [7] ]} : gmap (list Z) (list Z)); (str "/foo", {[ str "/a" := [1] ]})] in
  option_map fst (store_run [DGet (str "/foo/a"); DQuery (mkQuery [] [] [] 0 0 false false false)] mounts) =
  Some [AValue (Ok [1]); AResults (Ok [Ok (mkEntry (str "/foo/a") [1] 0 1); Ok (mkEntry (str "/foo/a") [7] 0 1)])].
Proof. vm_compute. reflexivity. Qed.
End witness.
