(* ===== verification/DsTransform.v ===== *)
(** * The key-transforming datastore (src/datastore/keytransform, namespace)

    A datastore that changes keys on the way to its child and back.  [prepareQuery] splits a query into
    what the child can answer and what is left for the naive functions.  [PrefixTransform], which
    namespace.Wrap uses, is shown to make a map of the part of the child below the prefix.

    The results are read to the end.  A key that no transform accepts panics, which is [None].
    [Batch], [Sync] and the maintenance calls, which only pass on, are not modelled. *)

From stdpp Require Import base gmap list numbers sorting strings.
From Stdlib Require Import ZArith Lia.
From S2P Require Import Prelude GoText GoSort DsKey DsQuery DsMap DsLift.

(** ** Transforms (transforms.go) *)

Inductive KeyTransform :=
| Pair (Convert Invert : list Z -> list Z)
| PrefixTransform (Prefix : list Z).

Definition ConvertKey (t : KeyTransform) (k : list Z) : option (list Z) :=
  match t with Pair Convert _ => Some (Convert k) | PrefixTransform p => Child p k end.

Definition InvertKey (t : KeyTransform) (k : list Z) : option (list Z) :=
  match t with
  | Pair _ Invert => Some (Invert k)
  | PrefixTransform p =>
      if bool_decide (p = [slash]) then Some k
      else if negb (IsAncestorOf p k) then None
      else RawKey (drop (length p) k)
  end.

(** ** Splitting a query (keytransform.go) *)

Definition orderPreserving (t : KeyTransform) : bool := match t with PrefixTransform _ => true | Pair _ _ => false end.

(** The orders the child can handle, [None] if it cannot. *)
Fixpoint childOrders (preserving : bool) (orders : list Order) : option (list Order) :=
  match orders with
  | [] => Some []
  | o :: orders =>
      match o with
      | OrderByValue | OrderByValueDescending => option_map (cons o) (childOrders preserving orders)
      | OrderByKey | OrderByKeyDescending => if preserving then Some [o] else None
      | OrderByFunction _ => None
      end
  end.

(** The filters the child can handle, with their keys converted. *)
Fixpoint childFilters (t : KeyTransform) (filters : list Filter) : option (option (list Filter)) :=
  match filters with
  | [] => Some (Some [])
  | f :: filters =>
      match f with
      | FilterValueCompare _ _ => fs ← childFilters t filters; Some (option_map (cons f) fs)
      | FilterKeyCompare op k => k ← ConvertKey t (NewKey k); fs ← childFilters t filters; Some (option_map (cons (FilterKeyCompare op k)) fs)
      | FilterKeyPrefix p => p ← ConvertKey t (NewKey p); fs ← childFilters t filters; Some (option_map (cons (FilterKeyPrefix p)) fs)
      | FilterFunction _ => Some None
      end
  end.

(** Whether the orders or filters are left to the naive functions. *)
Definition punted {A} (o : option A) : bool := match o with Some _ => false | None => true end.

Definition prepareQuery (t : KeyTransform) (q : Query) : option (Query * Query) :=
  prefix ← ConvertKey t (NewKey (q_Prefix q));
  fs ← childFilters t (q_Filters q);
  let os := childOrders (orderPreserving t) (q_Orders q) in
  let punt := punted os || punted fs in
  Some (mkQuery [] (if punted fs then q_Filters q else []) (if punted os then q_Orders q else [])
          (if punt then q_Limit q else 0) (if punt then q_Offset q else 0) false false false,
        mkQuery prefix (default [] fs) (default [] os)
          (if punt then 0 else q_Limit q) (if punt then 0 else q_Offset q) (q_KeysOnly q) (q_ReturnExpirations q) (q_ReturnsSizes q)).

Section transform.
Context {D : Type} `{Datastore D} `{!SortSlice}.

Record transformDatastore := mkTransform { t_child : D; t_transform : KeyTransform }.

Definition Wrap (child : D) (t : KeyTransform) : transformDatastore := mkTransform child t.
Definition namespace_Wrap (child : D) (prefix : list Z) : transformDatastore := Wrap child (PrefixTransform prefix).

(** A call of the child. *)
Definition on_inner {A} (f : dsM D A) : dsM transformDatastore A := fun d =>
  '(r, c) ← f (t_child d); Some (r, mkTransform c (t_transform d)).

Definition transform_Put (key value : list Z) : dsM transformDatastore unit := fun d =>
  k ← ConvertKey (t_transform d) key; on_inner (ds_Put k value) d.
Definition transform_Get (key : list Z) : dsM transformDatastore (list Z) := fun d =>
  k ← ConvertKey (t_transform d) key; on_inner (ds_Get k) d.
Definition transform_Has (key : list Z) : dsM transformDatastore bool := fun d =>
  k ← ConvertKey (t_transform d) key; on_inner (ds_Has k) d.
Definition transform_GetSize (key : list Z) : dsM transformDatastore Z := fun d =>
  k ← ConvertKey (t_transform d) key; on_inner (ds_GetSize k) d.
Definition transform_Delete (key : list Z) : dsM transformDatastore unit := fun d =>
  k ← ConvertKey (t_transform d) key; on_inner (ds_Delete k) d.

(** The key of a result back in the keys of the caller. *)
Definition invertResult (t : KeyTransform) (r : Result) : option Result :=
  match r with
  | Ok e => k ← RawKey (e_Key e); k ← InvertKey t k; Some (Ok (mkEntry k (e_Value e) (e_Expiration e) (e_Size e)))
  | Err e => Some (Err e)
  end.

Definition transform_Query (q : Query) : dsM transformDatastore (list Result) := fun d =>
  '(nq, cq) ← prepareQuery (t_transform d) q;
  '(r, d) ← on_inner (ds_Query cq) d;
  match r with
  | Err e => Some (Err e, d)
  | Ok cqr => qr ← mapM (invertResult (t_transform d)) cqr; Some (Ok (NaiveQueryApply nq qr), d)
  end.

#[export] Instance transform_datastore : Datastore transformDatastore := {|
  ds_Put := transform_Put; ds_Get := transform_Get; ds_Has := transform_Has; ds_GetSize := transform_GetSize;
  ds_Delete := transform_Delete; ds_Query := transform_Query
|}.

(** ** Orders and filters under a prefix *)

(** Keys are unique, so that nothing is compared after them. *)
Lemma childOrders_Less os : forall os' a b,
  childOrders true os = Some os' -> e_Key a <> e_Key b -> query_Less os' a b = query_Less os a b.
Proof.
  induction os as [|o os IH]; intros os' a b Hos Hne; simpl in Hos; [by simplify_eq|].
  destruct o; try done; try (destruct (childOrders true os) as [os1|] eqn:E; [|done]; simpl in Hos; injection Hos as <-; simpl; by rewrite (IH os1));
    injection Hos as <-; simpl; by destruct (bytes_Compare_cases (e_Key a) (e_Key b)) as [[-> _] | [[-> _] | [_ ?]]].
Qed.

Lemma childOrders_ok b os os' : Forall order_ok os -> childOrders b os = Some os' -> Forall order_ok os' /\ (os' = [] -> os = []).
Proof.
  intros Hos. revert os'. induction Hos as [|o os Ho _ IH]; intros os' E; simpl in E; [by simplify_eq|].
  destruct o; try done; try (destruct (childOrders b os) as [os1|]; [|done]; simpl in E; injection E as <-; destruct (IH os1) as [? _]; [done|by split; [constructor|]]);
    destruct b; [|done|..|done]; injection E as <-; by repeat constructor.
Qed.

Lemma childOrders_in_order os os' es :
  childOrders true os = Some os' -> Forall order_ok os -> NoDup (map e_Key es) -> in_order os' es -> in_order os es.
Proof.
  intros E Hos Hnd [->|Hs]; [left; by apply (childOrders_ok true os [])|]. right. revert Hnd. induction Hs as [|e es Hs IH He]; intros Hnd; [constructor|].
  apply NoDup_cons in Hnd as [Hni Hnd]. constructor; [by apply IH|]. rewrite Forall_forall in *. intros x Hx.
  rewrite <- (childOrders_Less os os') by (done || intros Heq; apply Hni; rewrite <- Heq; by apply list_elem_of_fmap_2). by apply He.
Qed.

Section prefix.
Context (p : list Z) (Hp : clean_key p).

(** The root moved below the prefix is the prefix. *)
Lemma Child_prefix k : clean_key k -> exists pk, Child p k = Some pk /\ clean_key pk /\ ((k = [slash] /\ pk = p) \/ (key_ok k /\ pk = below p k)).
Proof.
  intros Hk. destruct (decide (k = [slash])) as [->|Hne].
  - exists p. split_and!; [|done|by left]. unfold Child. case_bool_decide; [by f_equal|done].
  - destruct (Child_below p k Hp) as [E Hb]; [done|]. exists (below p k). split_and!; [done|apply Hb|by right].
Qed.

Lemma below_greater k : key_ok k -> lexLess p (below p k) = true.
Proof.
  intros (b & Hb & Hne & ->)%key_ok_of. destruct Hp as (a & Ha & ->). rewrite below_of by done. apply key_of_below; [done|by apply Forall_app].
Qed.

Lemma HasPrefix_below k pre : HasPrefix (below p k) (below p pre) = HasPrefix k pre.
Proof.
  unfold below. case_bool_decide; [done|]. unfold HasPrefix. apply bool_decide_ext. rewrite length_app, take_app_add. split; [apply app_inv_head|by intros ->].
Qed.

Lemma HasPrefix_app a b : HasPrefix (a ++ b) a = true.
Proof. unfold HasPrefix. apply bool_decide_eq_true. apply take_app_length. Qed.

Lemma HasPrefix_root k : key_ok k -> HasPrefix (below p k) p = true /\ HasPrefix k [slash] = true.
Proof.
  intros Hk. assert (HasPrefix k [slash] = true) as Hr by (destruct Hk as [(ws & _ & ->) _]; done). split; [|done].
  unfold below. case_bool_decide as E; [by rewrite E|apply HasPrefix_app].
Qed.

(** Converted filters pass the moved entries that the filters pass. *)
Lemma childFilters_ok fs : Forall filter_ok fs ->
  exists ofs, childFilters (PrefixTransform p) fs = Some ofs /\
    forall fs', ofs = Some fs' -> Forall filter_ok fs' /\ forall e, key_ok (e_Key e) ->
      Forall (fun f => filter_Filter f (lift p e) = true) fs' <-> Forall (fun f => filter_Filter f e = true) fs.
Proof.
  induction 1 as [|f fs Hf _ IH].
  { exists (Some []). split; [done|]. intros fs' [= <-]. split; [constructor|]. intros e _. by rewrite !Forall_nil. }
  assert (forall f', filter_ok f' -> (forall e, key_ok (e_Key e) -> filter_Filter f' (lift p e) = filter_Filter f e) -> forall ofs,
    (forall fs', ofs = Some fs' -> Forall filter_ok fs' /\ forall e, key_ok (e_Key e) ->
      Forall (fun f => filter_Filter f (lift p e) = true) fs' <-> Forall (fun f => filter_Filter f e = true) fs) ->
    forall fs', option_map (cons f') ofs = Some fs' -> Forall filter_ok fs' /\ forall e, key_ok (e_Key e) ->
      Forall (fun f => filter_Filter f (lift p e) = true) fs' <-> Forall (fun f => filter_Filter f e = true) (f :: fs)) as Hcons.
  { intros f' Hf' Heq ofs Hofs fs'. destruct ofs as [fs1|]; [|done]. simpl. intros [= <-]. destruct (Hofs fs1 eq_refl) as [H1 H2]. split; [by constructor|].
    intros e He. rewrite !Forall_cons, H2, Heq by done. done. }
  destruct IH as (ofs & E & Hofs). simpl. rewrite E. destruct f as [op v|op k|k|g]; simpl in *.
  - eexists. split; [done|]. by apply Hcons.
  - destruct Hf as (ws & Hws & ->). rewrite NewKey_of by done. destruct (Child_prefix (key_of ws)) as (pk & -> & Hpk & Hcase); [by exists ws|].
    simpl. eexists. split; [done|]. apply Hcons; [done| |done]. intros e He. simpl. f_equal. destruct Hcase as [[-> ->]|[Hk ->]]; [|apply bytes_Compare_below].
    unfold bytes_Compare. rewrite (lexLess_asym _ _ (below_greater _ He)), (below_greater _ He).
    assert (lexLess [slash] (e_Key e) = true) as Hl by (apply key_ok_of in He as (b & Hb & Hne & ->); by apply (key_of_below [] b)).
    by rewrite (lexLess_asym _ _ Hl), Hl.
  - destruct Hf as (ws & Hws & ->). rewrite NewKey_of by done. destruct (Child_prefix (key_of ws)) as (pk & -> & Hpk & Hcase); [by exists ws|].
    simpl. eexists. split; [done|]. apply Hcons; [done| |done]. intros e He. simpl. destruct Hcase as [[-> ->]|[Hk ->]]; [|apply HasPrefix_below].
    destruct (HasPrefix_root _ He) as [-> ->]. done.
  - by exists None.
Qed.

Lemma invert_lift e : key_ok (e_Key e) -> invertResult (PrefixTransform p) (Ok (lift p e)) = Some (Ok e).
Proof.
  intros He. destruct (Child_below p (e_Key e) Hp He) as [_ Hb]. simpl. destruct (key_ok_raw _ Hb) as [-> _]. simpl.
  assert (Hbe := ancestor_of_below p (e_Key e) Hp He). destruct (key_ok_raw _ He) as [Hr _]. unfold below in *. case_bool_decide; simpl; [by destruct e|].
  rewrite Hbe. simpl. rewrite drop_app_length, Hr. simpl. by destruct e.
Qed.

Lemma invert_lifts es : Forall (fun e => key_ok (e_Key e)) es -> mapM (invertResult (PrefixTransform p)) (map Ok (map (lift p) es)) = Some (map Ok es).
Proof.
  induction 1 as [|e es He _ IH]; [done|]. cbn [map mapM]. rewrite invert_lift by done. cbn [mbind option_bind]. by rewrite IH.
Qed.
End prefix.

(** ** The part of a map below a prefix *)

Definition strip_list (p : list Z) (m : gmap (list Z) (list Z)) : list (list Z * list Z) :=
  map (fun kv => (NewKey (TrimPrefix (fst kv) p), snd kv)) (filter (fun kv => IsAncestorOf p (fst kv) = true) (map_to_list m)).
Definition strip_map (p : list Z) (m : gmap (list Z) (list Z)) : gmap (list Z) (list Z) := list_to_map (strip_list p m).

Section strip.
Context (p : list Z) (Hp : clean_key p) (m : gmap (list Z) (list Z)) (Hm : forall k, is_Some (m !! k) -> key_ok k).

Lemma strip_list_elem k v : (k, v) ∈ strip_list p m <-> key_ok k /\ m !! below p k = Some v.
Proof.
  unfold strip_list. rewrite list_elem_of_fmap. split.
  - intros ([k' v'] & [= -> ->] & [Ha Hin%elem_of_map_to_list]%list_elem_of_filter). simpl in *.
    destruct (ancestor_below p k' Hp (Hm k' ltac:(eauto)) Ha) as (r & -> & Hr & E). split; [done|]. by rewrite <- E.
  - intros [Hk Hv]. exists (below p k, v). simpl. rewrite trim_below by done. split; [done|]. apply list_elem_of_filter. simpl.
    split; [by apply ancestor_of_below|by apply elem_of_map_to_list].
Qed.

(** Moved below the prefix, the keys are those of the map there. *)
Lemma strip_list_lift : at_mount p (strip_list p m) = filter (fun kv => IsAncestorOf p (fst kv) = true) (map_to_list m).
Proof.
  unfold strip_list, at_mount. rewrite map_map. rewrite <- (list_fmap_id (filter _ _)) at 2. apply list_fmap_ext. intros i [k v] Hi%list_elem_of_lookup_2.
  apply list_elem_of_filter in Hi as [Ha Hin%elem_of_map_to_list]. simpl in *. destruct (ancestor_below p k Hp (Hm k ltac:(eauto)) Ha) as (r & -> & _ & <-). done.
Qed.

Lemma strip_list_nodup : NoDup (map fst (strip_list p m)).
Proof.
  apply NoDup_fmap_fst.
  - intros k v1 v2 [_ H1]%strip_list_elem [_ H2]%strip_list_elem. congruence.
  - assert (NoDup (at_mount p (strip_list p m))) as Hnd by (rewrite strip_list_lift; apply NoDup_filter, NoDup_map_to_list).
    exact (NoDup_fmap_1 _ _ Hnd).
Qed.

Lemma strip_map_Some k v : strip_map p m !! k = Some v <-> key_ok k /\ m !! below p k = Some v.
Proof. unfold strip_map. rewrite <- elem_of_list_to_map by apply strip_list_nodup. apply strip_list_elem. Qed.

Lemma strip_map_key k : key_ok k -> strip_map p m !! k = m !! below p k.
Proof. intros Hk. apply option_eq. intros v. rewrite strip_map_Some. tauto. Qed.

Lemma strip_map_list : map_to_list (strip_map p m) ≡ₚ strip_list p m.
Proof. apply map_to_list_to_map, strip_list_nodup. Qed.

(** What a query of the child finds below the converted prefix. *)
Lemma strip_under pre pk :
  Child p (NewKey pre) = Some pk ->
  filter (fun kv => under pk (fst kv) = true) (map_to_list m) =
  at_mount p (filter (fun kv => under pre (fst kv) = true) (strip_list p m)).
Proof.
  intros Hpk. pose proof (NewKey_clean pre) as Hpre.
  assert (clean_key pk /\ (p = pk \/ IsAncestorOf p pk = true)) as [Hcl Hor].
  { destruct (Child_prefix p Hp _ Hpre) as (pk' & E & Hcl & Hcase). rewrite Hpk in E. injection E as <-. split; [done|].
    destruct Hcase as [[_ ->]|[Hk ->]]; [by left|right; by apply ancestor_of_below]. }
  assert (NewKey pk = pk) as Hnk by (destruct Hcl as (ws & Hws & ->); by apply NewKey_of).
  assert (filter (fun kv => under pk (fst kv) = true) (map_to_list m) =
    filter (fun kv => under pk (fst kv) = true) (filter (fun kv => IsAncestorOf p (fst kv) = true) (map_to_list m))) as ->.
  { rewrite list_filter_filter. assert (Forall (fun kv => key_ok (fst kv)) (map_to_list m)) as Hks.
    { apply Forall_forall. intros [k v] Hin%elem_of_map_to_list. apply Hm. eauto. }
    induction Hks as [|[k v] l Hk _ IH]; [done|]. rewrite !filter_cons. simpl in *. unfold under in *. rewrite Hnk in *. rewrite IH.
    destruct (decide (IsAncestorOf pk k = true)) as [Ha|]; [rewrite decide_True; [done|]; split; [done|by apply (ancestor_trans p pk)]|by rewrite decide_False by tauto]. }
  rewrite <- strip_list_lift. assert (Forall (fun kv => key_ok (fst kv)) (strip_list p m)) as Hks.
  { apply Forall_forall. intros [k v] Hin%strip_list_elem. apply Hin. }
  apply filter_at_mount. eapply Forall_impl; [done|]. intros [k v] Hk. simpl in *. unfold under. rewrite Hnk. by apply (ancestor_shift p (NewKey pre) k pk).
Qed.
End strip.

(** ** A prefix of a map is a map *)

Context (ok : D -> Prop) (view : D -> gmap (list Z) (list Z)) {laws : DatastoreLaws D ok view}.

(** The child holds [rest] outside of the prefix. *)
Context (p : list Z) (Hp : clean_key p) (rest : gmap (list Z) (list Z)).

Definition outside (c : D) : Prop := forall k, IsAncestorOf p k = false -> view c !! k = rest !! k.
Definition transform_ok (d : transformDatastore) : Prop :=
  ok (t_child d) /\ t_transform d = PrefixTransform p /\ outside (t_child d).
Definition transform_view (d : transformDatastore) : gmap (list Z) (list Z) :=
  match t_transform d with PrefixTransform p => strip_map p (view (t_child d)) | Pair _ _ => ∅ end.

Lemma view_keys d k : ok d -> is_Some (view d !! k) -> key_ok k.
Proof. apply law_keys. Qed.
#[local] Hint Resolve view_keys : core.

(** A call of the child with a converted key. *)
Lemma on_inner_ok {A} (f : dsM D A) c k x c' m :
  ok c -> key_ok k -> outside c' -> f c = Some (x, c') -> ok c' ->
  (forall k', key_ok k' -> m !! k' = view c' !! below p k') -> (forall k', is_Some (m !! k') -> key_ok k') ->
  on_inner f (mkTransform c (PrefixTransform p)) = Some (x, mkTransform c' (PrefixTransform p)) /\
  transform_ok (mkTransform c' (PrefixTransform p)) /\ transform_view (mkTransform c' (PrefixTransform p)) = m.
Proof.
  intros Hc Hk Hout Hf Hc' Hm Hmk. unfold on_inner. simpl. rewrite Hf. split_and!; [done|done|]. unfold transform_view. simpl.
  apply map_eq. intros k'. apply option_eq. intros v. rewrite strip_map_Some by eauto. split.
  - intros [Hk' Hv]. by rewrite Hm.
  - intros Hv. assert (key_ok k') as Hk' by eauto. split; [done|]. by rewrite <- Hm.
Qed.

Lemma transform_read {A} (f : dsM D A) c k x c' :
  ok c -> outside c -> key_ok k -> f c = Some (x, c') -> ok c' -> view c' = view c ->
  exists d', on_inner f (mkTransform c (PrefixTransform p)) = Some (x, d') /\ transform_ok d' /\ transform_view d' = strip_map p (view c).
Proof.
  intros Hc Hout Hk Hf Hc' Hv. eexists. eapply (on_inner_ok f c k); [done|done| |done|done| |].
  - intros k' Hk'. rewrite Hv. by apply Hout.
  - intros k' Hk'. rewrite Hv. apply strip_map_key; eauto.
  - intros k' [v Hs]. apply strip_map_Some in Hs; [by destruct Hs|eauto..].
Qed.

(** The child's answer to its part of the query, with the keys inverted. *)
Lemma child_part c cq q pk fs' :
  ok c -> Child p (NewKey (q_Prefix q)) = Some pk ->
  q_Prefix cq = pk -> q_KeysOnly cq = q_KeysOnly q -> query_ok cq ->
  (forall e, key_ok (e_Key e) -> passes cq (lift p e) <-> Forall (fun f => filter_Filter f e = true) fs') ->
  exists all c', ds_Query cq c = Some (Ok (map Ok (map (lift p) (NaiveLimit (drop (Z.to_nat (q_Offset cq)) all) (q_Limit cq)))), c') /\
    ok c' /\ view c' = view c /\ all ≡ₚ filter (fun e => Forall (fun f => filter_Filter f e = true) fs') (entries_under q (strip_map p (view c))) /\
    in_order (q_Orders cq) all /\ Forall (fun e => key_ok (e_Key e)) all /\ NoDup (map e_Key all).
Proof.
  intros Hc Hpk Hpre Hko Hcq Hpass. assert (forall k, is_Some (view c !! k) -> key_ok k) as Hm by eauto.
  destruct (law_Query c cq Hc Hcq) as (es & c' & -> & Hc' & Hv & allc & Hperm & Hord & ->).
  set (E := map (entry_of q) (filter (fun kv => under (q_Prefix q) (fst kv) = true) (strip_list p (view c)))).
  assert (Forall (fun e => key_ok (e_Key e)) E) as HE.
  { apply Forall_fmap, Forall_forall. intros [k v] [_ Hin]%list_elem_of_filter. simpl. by apply strip_list_elem in Hin as [? _]. }
  assert (entries_under cq (view c) = map (lift p) E) as Hu.
  { unfold entries_under. rewrite Hpre, (strip_under p Hp _ Hm _ _ Hpk). unfold E, at_mount. rewrite !map_map. apply map_ext.
    intros [k v]. unfold entry_of, lift. simpl. by rewrite Hko. }
  assert (filter (passes cq) (map (lift p) E) = map (lift p) (filter (fun e => Forall (fun f => filter_Filter f e = true) fs') E)) as Hfil.
  { clear Hu. induction HE as [|e E' He _ IH]; [done|]. cbn [map]. rewrite !filter_cons, IH. specialize (Hpass e He). by repeat case_decide; try tauto. }
  rewrite Hu, Hfil in Hperm. apply Permutation_map_inv in Hperm as (all & -> & Hall).
  assert (E ≡ₚ entries_under q (strip_map p (view c))) as HEu.
  { unfold E, entries_under. apply fmap_Permutation. f_equiv. symmetry. by apply strip_map_list. }
  exists all, c'. split_and!; [by rewrite <- (NaiveLimit_map (lift p)), (fmap_drop (lift p))|done|done|by rewrite <- Hall, HEu| | |].
  - destruct Hord as [|Hs]; [by left|right]. clear -Hs Hcq. destruct Hcq as [_ Hos]. remember (map (lift p) all) as l eqn:El. revert all El.
    induction Hs as [|x l Hs IH Hx]; intros [|e all] [=]; [constructor|]. subst. constructor; [by apply IH|]. apply Forall_fmap in Hx.
    eapply Forall_impl; [done|]. intros e'. simpl. by rewrite query_Less_lift.
  - rewrite <- Hall. apply Forall_forall. intros e [_ He]%list_elem_of_filter. rewrite Forall_forall in HE. by apply HE.
  - rewrite <- Hall. eapply sublist_NoDup; [|apply fmap_sublist, sublist_filter]. unfold E. change (map ?f ?l) with (f <$> l). rewrite <- list_fmap_compose.
    eapply sublist_NoDup; [exact (strip_list_nodup p Hp _ Hm)|]. apply (fmap_sublist fst), sublist_filter.
Qed.

Lemma in_order_filter os (P : Entry -> Prop) `{forall e, Decision (P e)} es : in_order os es -> in_order os (filter P es).
Proof.
  intros [->|Hs]; [by left|right]. induction Hs as [|e es Hs IH He]; [constructor|]. rewrite filter_cons. case_decide; [|done]. constructor; [done|].
  apply Forall_forall. intros x [_ Hx]%list_elem_of_filter. rewrite Forall_forall in He. by apply He.
Qed.

Lemma passes_nil q e : q_Filters q = [] -> passes q e.
Proof. unfold passes. intros ->. constructor. Qed.

Lemma transform_Query_ok q d :
  transform_ok d -> query_ok q ->
  exists es d', transform_Query q d = Some (Ok (map Ok es), d') /\ transform_ok d' /\ transform_view d' = transform_view d /\ answers q (transform_view d) es.
Proof.
  intros (Hc & Ht & Hout) [Hfs Hos]. destruct d as [c t]. simpl in *. subst t. unfold transform_Query, prepareQuery, on_inner, transform_view. simpl.
  destruct (Child_prefix p Hp (NewKey (q_Prefix q)) (NewKey_clean _)) as (pk & Hpk & _). rewrite Hpk. simpl.
  destruct (childFilters_ok p Hp (q_Filters q) Hfs) as (ofs & -> & Hofs). simpl. set (oos := childOrders true (q_Orders q)).
  set (punt := punted oos || punted ofs). set (nq := mkQuery [] _ _ _ _ _ _ _). set (cq := mkQuery pk _ _ _ _ _ _ _).
  assert (Forall order_ok (default [] oos)) as Hcos.
  { destruct oos as [os'|] eqn:E; [|constructor]. by apply (childOrders_ok true (q_Orders q)). }
  destruct (child_part c cq q pk (if punted ofs then [] else q_Filters q)) as (all & c' & -> & Hc' & Hv & Hall & Hord & Hkeys & Hnd); try done.
  { split; [|done]. destruct ofs as [fs'|]; [by apply Hofs|constructor]. }
  { intros e He. unfold passes. simpl. destruct ofs as [fs'|]; simpl; [by apply Hofs|]. by rewrite !Forall_nil. }
  cbn [mbind option_bind]. assert (Forall (fun e => key_ok (e_Key e)) (NaiveLimit (drop (Z.to_nat (q_Offset cq)) all) (q_Limit cq))) as Hk2.
  { unfold NaiveLimit. case_bool; [by apply Forall_drop|by apply Forall_take, Forall_drop]. }
  rewrite (invert_lifts p Hp) by done. cbn [mbind option_bind]. rewrite NaiveQueryApply_ok by done.
  rewrite (filter_id (fun e => under (q_Prefix nq) (e_Key e) = true)) by (eapply Forall_impl; [done|]; intros e He; by apply under_root).
  set (ALL := in_sort (q_Orders nq) (filter (passes nq) all)). exists (NaiveLimit (drop (Z.to_nat (q_Offset q)) ALL) (q_Limit q)), (mkTransform c' (PrefixTransform p)).
  split; [|split; [split; [exact Hc'|split; [done|intros k Hk; simpl; rewrite Hv; by apply Hout]]|split; [simpl; by rewrite Hv|exists ALL; split_and!; [| |done]]]].
  - f_equal. f_equal. f_equal. f_equal. destruct punt eqn:Hpunt; [done|]. unfold ALL.
    apply orb_false_iff in Hpunt as [H1 H2]. unfold nq. simpl. rewrite H1, H2. rewrite !filter_id by (apply Forall_forall; intros; by apply passes_nil). done.
  - unfold ALL. rewrite in_sort_perm, Hall. unfold nq. destruct (punted ofs) eqn:Hpo.
    + f_equiv. rewrite filter_id; [done|]. apply Forall_forall. intros. constructor.
    + rewrite (filter_id (passes _)); [done|]. apply Forall_forall. intros. by apply passes_nil.
  - unfold ALL, nq. simpl. destruct oos as [os'|] eqn:E; simpl; [|by apply in_sort_order].
    apply in_order_filter. by apply (childOrders_in_order _ os').
Qed.

#[export] Instance transform_laws : DatastoreLaws transformDatastore transform_ok transform_view.
Proof.
  split.
  - intros d k (Hc & Ht & Hout). unfold transform_view. rewrite Ht. intros [v Hv]. apply strip_map_Some in Hv; [by destruct Hv|eauto..].
  - intros [c t] k v (Hc & Ht & Hout) Hk. simpl in *. subst t. unfold transform_Put. simpl. destruct (Child_below p k Hp Hk) as [-> Hbk]. simpl.
    destruct (law_Put c (below p k) v Hc Hbk) as (c' & Hf & Hc' & Hv). eexists. eapply (on_inner_ok _ c k); [done|done| |done|done| |].
    + intros k' Hk'. rewrite Hv. rewrite lookup_insert_ne by (intros <-; by rewrite ancestor_of_below in Hk'). by apply Hout.
    + intros k' Hk'. rewrite Hv. unfold transform_view. simpl. destruct (decide (k' = k)) as [->|Hne]; [by rewrite !lookup_insert_eq|].
      rewrite (lookup_insert_ne _ k k'), (lookup_insert_ne _ (below p k)) by (congruence || intros E%below_inj; congruence). apply strip_map_key; eauto.
    + intros k' [v' [[<- _]|[_ Hs]]%lookup_insert_Some]; [done|]. apply strip_map_Some in Hs; [by destruct Hs|eauto..].
  - intros [c t] k (Hc & Ht & Hout) Hk. simpl in *. subst t. unfold transform_Delete. simpl. destruct (Child_below p k Hp Hk) as [-> Hbk]. simpl.
    destruct (law_Delete c (below p k) Hc Hbk) as (c' & Hf & Hc' & Hv). eexists. eapply (on_inner_ok _ c k); [done|done| |done|done| |].
    + intros k' Hk'. rewrite Hv. rewrite lookup_delete_ne by (intros <-; by rewrite ancestor_of_below in Hk'). by apply Hout.
    + intros k' Hk'. rewrite Hv. unfold transform_view. simpl. destruct (decide (k' = k)) as [->|Hne]; [by rewrite !lookup_delete_eq|].
      rewrite (lookup_delete_ne _ k k'), (lookup_delete_ne _ (below p k)) by (congruence || intros E%below_inj; congruence). apply strip_map_key; eauto.
    + intros k' [v' [_ Hs]%lookup_delete_Some]. apply strip_map_Some in Hs; [by destruct Hs|eauto..].
  - intros [c t] k (Hc & Ht & Hout) Hk. simpl in *. subst t. unfold transform_Get, transform_view at 1. simpl. destruct (Child_below p k Hp Hk) as [-> Hbk].
    simpl. destruct (law_Get c (below p k) Hc Hbk) as (c' & Hf & Hc' & Hv). rewrite strip_map_key by eauto. by apply (transform_read _ c k _ c').
  - intros [c t] k (Hc & Ht & Hout) Hk. simpl in *. subst t. unfold transform_Has. simpl. destruct (Child_below p k Hp Hk) as [-> Hbk].
    simpl. destruct (law_Has c (below p k) Hc Hbk) as (c' & Hf & Hc' & Hv).
    rewrite (bool_decide_ext _ (is_Some (view c !! below p k))) by (unfold transform_view; simpl; rewrite strip_map_key by eauto; done).
    by apply (transform_read _ c k _ c').
  - intros [c t] k (Hc & Ht & Hout) Hk. simpl in *. subst t. unfold transform_GetSize, transform_view at 1. simpl. destruct (Child_below p k Hp Hk) as [-> Hbk].
    simpl. destruct (law_GetSize c (below p k) Hc Hbk) as (c' & Hf & Hc' & Hv). rewrite strip_map_key by eauto. by apply (transform_read _ c k _ c').
  - intros d q Hd Hq. by apply transform_Query_ok.
Qed.

(** C23: A namespace of a datastore that is a map is a map: every run of calls is answered from the part of
    the child below the prefix, queries included, whether their filters and orders are left to the child
    or not; and the keys of the child outside of the prefix stay as they are. *)
Theorem namespace_is_map ops c :
  ok c -> (forall k, IsAncestorOf p k = false -> view c !! k = rest !! k) -> Forall dop_ok ops ->
  exists l d, store_run ops (namespace_Wrap c p) = Some (l, d) /\ map_run ops (transform_view (namespace_Wrap c p)) l (transform_view d) /\
    (forall k, key_ok k -> transform_view d !! k = view (t_child d) !! below p k) /\
    forall k, IsAncestorOf p k = false -> view (t_child d) !! k = rest !! k.
Proof.
  intros Hc Hrest Hops. destruct (lawful_run transform_ok transform_view ops (namespace_Wrap c p)) as (l & d & Hr & (Hcd & Ht & Hout) & Hm); [done|done|].
  exists l, d. split_and!; [done..| |done]. intros k Hk. unfold transform_view. rewrite Ht. apply strip_map_key; eauto.
Qed.
End transform.

Section witness.
#[local] Existing Instance insertionSort.

(** The keys of the child below [/ns], and one that is not. *)
Definition exampleChild : gmap (list Z) (list Z) := {[ str "/ns/a" := [1]; str "/other" := [7] ]}.
Definition exampleQuery : Query := mkQuery [] [FilterKeyCompare GreaterThan (str "/a"); FilterFunction (fun e => e_Size e =? 1)] [OrderByKeyDescending] 1 0 false false false.
Definition namespaceOps : list dop := [DPut (str "/b") [2]; DGet (str "/a"); DQuery exampleQuery].

Lemma namespace_is_map_witness :
  exists l d, store_run namespaceOps (namespace_Wrap exampleChild (str "/ns")) = Some (l, d) /\
    (forall k, IsAncestorOf (str "/ns") k = false -> t_child d !! k = exampleChild !! k) /\
    l = [ADone (Ok tt); AValue (Ok [1]); AResults (Ok [Ok (mkEntry (str "/b") [2] 0 1)])].
Proof.
  destruct (namespace_is_map map_ok id (str "/ns") ltac:(exists [str "ns"]; split; [apply (bool_decide_unpack _); vm_compute; exact I|reflexivity]) exampleChild namespaceOps exampleChild)
    as (l & d & Hr & _ & _ & Hout).
  - unfold exampleChild. intros k [v [[<- _]|[_ [<- _]%lookup_singleton_Some]]%lookup_insert_Some].
    + apply (key_of_ok _ [str "ns"; str "a"]); [done| |done]. apply (bool_decide_unpack _). vm_compute. exact I.
    + apply (key_of_ok _ [str "other"]); [done| |done]. apply (bool_decide_unpack _). vm_compute. exact I.
  - done.
  - unfold namespaceOps. apply Forall_cons; split; [|apply Forall_cons; split; [|apply Forall_cons; split; [|constructor]]]; simpl.
    + apply (key_of_ok _ [str "b"]); [done| |done]. apply (bool_decide_unpack _). vm_compute. exact I.
    + apply (key_of_ok _ [str "a"]); [done| |done]. apply (bool_decide_unpack _). vm_compute. exact I.
    + split; [|by repeat constructor]. constructor; [|by repeat constructor]. exists [str "a"]. split; [|done]. apply (bool_decide_unpack _). vm_compute. exact I.
  - exists l, d. refine (conj Hr (conj Hout _)). apply (f_equal (option_map fst)) in Hr. vm_compute in Hr. injection Hr as <-. reflexivity.
Defined.

(** The prefix of a query is converted even by a transform under which it is no prefix: with the keys
    reversed, the example of the package, a query below [/a] does not find [/a/b]. *)
Definition reversed : transformDatastore := Wrap (∅ : gmap (list Z) (list Z)) (Pair Reverse Reverse).
Lemma reversed_query :
  option_map fst (store_run [DPut (str "/a/b") [1]; DGet (str "/a/b"); DQuery (mkQuery (str "/a") [] [] 0 0 false false false)] reversed) =
  Some [ADone (Ok tt); AValue (Ok [1]); AResults (Ok [])].
Proof. vm_compute. reflexivity. Qed.

(** A prefix filter loses its slash on the way: [/foo/] passes what is below [/foo] and also [/foobar]. *)
Lemma prefix_filter_slash :
  let ops := [DPut (str "/foobar") [1]; DQuery (mkQuery [] [FilterKeyPrefix (str "/foo/")] [] 0 0 true false false)] in
  option_map fst (store_run ops (∅ : gmap (list Z) (list Z))) = Some [ADone (Ok tt); AResults (Ok [])] /\
  option_map fst (store_run ops (namespace_Wrap (∅ : gmap (list Z) (list Z)) (str "/ns"))) =
    Some [ADone (Ok tt); AResults (Ok [Ok (mkEntry (str "/foobar") [] 0 1)])].
Proof. split; vm_compute; reflexivity. Qed.
End witness.
