(* ===== verification/ConnGater.v ===== *)
(** * The connection gater (src/p2p/net/conngater/conngater.go)

    Rules that block peers, IP addresses and subnets, kept in memory and in a namespace of a datastore
    from which a new gater loads them.  The datastore is any implementation of the interface of
    DsQuery.v; the parts of [net] are those of Allowlist.v with the texts of networks.

    The file shows that a gater decides by the rules that were added and not removed, with restarts
    anywhere between the calls.  Each call is one step, although the datastore is written before the
    lock is taken ([interleaved_calls]); logging is left out. *)

From stdpp Require Import base gmap list numbers sorting strings.
From Stdlib Require Import ZArith Lia.
From S2P Require Import Prelude Varint GoText GoSort Base58 Multihash PeerID Transcoders Multiaddr Limits Allowlist DsKey DsQuery DsMap DsLift DsTransform.

(** ** Texts of addresses and networks (net) *)

Definition hexString (b : list Z) : list Z := concat (map (fun x => [hex_digit (x / 16); hex_digit (x mod 16)]) b).

(** [IP.String] for a slice of any length. *)
Definition net_IP_String (ip : list Z) : list Z :=
  match length ip with
  | O => str "<nil>"
  | 4%nat | 16%nat => IP_String ip
  | _ => str "?" ++ hexString ip
  end.

Definition IPMask_String (m : list Z) : list Z := match m with [] => str "<nil>" | _ => hexString m end.

Definition IPNet_String (n : IPNet) : list Z :=
  match networkNumberAndMask n with
  | None => str "<nil>"
  | Some (nn, m) =>
      match simpleMaskLength m with
      | None => net_IP_String nn ++ [slash] ++ IPMask_String m
      | Some l => net_IP_String nn ++ [slash] ++ FormatUint l
      end
  end.

(** [net.ParseCIDR]; only the network is used. *)
Definition net_ParseCIDR (s : list Z) : option IPNet :=
  match GoText.Split slash s with [addr; mask] => ParseCIDR addr mask | _ => None end.

(** ** Texts are read back *)

Definition ip_len (ip : list Z) : Prop := length ip = 4%nat \/ length ip = 16%nat.

Lemma net_IP_String_ok ip : ip_len ip -> net_IP_String ip = IP_String ip.
Proof. unfold net_IP_String. by intros [-> | ->]. Qed.

Lemma ParseIP_String ip : ip_len ip -> bytes_ok ip -> ParseIP (IP_String ip) = To16 ip.
Proof.
  intros Hl Hb. unfold IP_String. destruct (To4 ip) as [ip4|] eqn:E; unfold To4 in E; destruct Hl as [Hl|Hl]; rewrite Hl in E; simpl in E.
  - injection E as <-. rewrite ParseIP_format_v4 by done. unfold To16. by rewrite Hl.
  - case_bool_decide as Ht; [|done]. injection E as <-. rewrite ParseIP_format_v4 by (try apply Forall_drop; rewrite ?length_drop, ?Hl; done).
    rewrite <- Ht, take_drop. unfold To16. by rewrite Hl.
  - done.
  - rewrite ParseIP_format_v6 by done. unfold To16. by rewrite Hl.
Qed.

Lemma To16_len ip : ip_len ip -> bytes_ok ip -> exists a, To16 ip = Some a /\ length a = 16%nat /\ bytes_ok a /\ IP_String a = IP_String ip.
Proof.
  intros [Hl|Hl] Hb; unfold To16; rewrite Hl; cbn [Nat.eqb]; eexists; (split; [done|]).
  - rewrite length_app, Hl. split_and!; [done|by apply Forall_app; split; [repeat constructor; unfold is_byte; lia|]|].
    unfold IP_String, To4. rewrite length_app, Hl. cbn [length v4InV6Prefix Nat.add Nat.eqb andb]. rewrite bool_decide_true by done. done.
  - done.
Qed.

(** Texts of addresses are words, and addresses with the same text are the same. *)
Lemma IP_String_word ip : ip_len ip -> bytes_ok ip -> word_ok (IP_String ip).
Proof.
  intros Hl Hb. pose proof (ParseIP_String ip Hl Hb) as Hp. destruct (To16_len ip Hl Hb) as (a & E & _). rewrite E in Hp. split_and!.
  - intros Hs. by rewrite Hs in Hp.
  - assert (Forall (fun c => plain c \/ c = dot \/ c = colon) (IP_String ip)) as Hc.
    { unfold IP_String. destruct (To4 ip) as [ip4|] eqn:E4; unfold To4 in E4.
      - assert (length ip4 = 4%nat /\ bytes_ok ip4) as [H4 H4b].
        { destruct Hl as [Hl|Hl]; rewrite Hl in E4; simpl in E4; [by simplify_eq|]. case_bool_decide; [|done]. injection E4 as <-. rewrite length_drop, Hl. split; [done|by apply Forall_drop]. }
        eapply Forall_impl; [by apply format_v4_chars|]. naive_solver.
      - destruct Hl as [Hl|Hl]; rewrite Hl in E4; [done|]. eapply Forall_impl; [by apply format_v6_chars|]. naive_solver. }
    intros Hin. rewrite Forall_forall in Hc. destruct (Hc slash Hin) as [(_ & _ & _ & ?)|[?|?]]; done.
  - intros Hs. by rewrite Hs in Hp.
  - intros Hs. by rewrite Hs in Hp.
Qed.

Lemma IP_String_inj a b : length a = 16%nat -> bytes_ok a -> length b = 16%nat -> bytes_ok b -> IP_String a = IP_String b -> a = b.
Proof.
  intros Ha Hab Hb Hbb E. pose proof (ParseIP_String a ltac:(by right) Hab) as Hpa. rewrite E, ParseIP_String in Hpa by (done || by right).
  unfold To16 in Hpa. rewrite Ha, Hb in Hpa. simpl in Hpa. congruence.
Qed.

Lemma FormatUint_word l : 0 <= l <= 128 -> word_ok (FormatUint l) /\ dtoi (FormatUint l) = Some l.
Proof.
  intros Hl. pose proof (forall_below 129 (fun l => bool_decide (word_ok (FormatUint l)) && bool_decide (dtoi (FormatUint l) = Some l)) ltac:(by vm_compute) l ltac:(lia)) as H.
  apply andb_true_iff in H. by rewrite !bool_decide_eq_true in H.
Qed.

(** *** Networks *)

(** The network number and the length of the mask, as [networkNumberAndMask] returns them. *)
Definition net_ok_id (nn : list Z) (l : Z) : Prop :=
  bytes_ok nn /\ (length nn = 4%nat \/ (length nn = 16%nat /\ To4 nn = None)) /\ 0 <= l <= 8 * Z.of_nat (length nn).
Definition net_text (nn : list Z) (l : Z) : list Z := IP_String nn ++ [slash] ++ FormatUint l.

Lemma net_id_len nn l : net_ok_id nn l -> ip_len nn /\ 0 <= l <= 128.
Proof. intros (_ & [Hl|[Hl _]] & Hr); rewrite Hl in Hr; (split; [by (left + right)|lia]). Qed.

Lemma cidr_id n : cidr_net n -> exists nn l, networkNumberAndMask n = Some (nn, CIDRMask l (length nn)) /\ net_ok_id nn l /\ IPNet_String n = net_text nn l.
Proof.
  intros (nn & l & Hn & Hb & Hlen & Hl). exists nn, l. split; [done|]. unfold IPNet_String. rewrite Hn, simpleMaskLength_CIDRMask by done.
  rewrite net_IP_String_ok by done. split; [|done]. split; [done|]. split; [|done]. destruct Hlen as [Hlen|Hlen]; [by left|right]. split; [done|].
  destruct (To4 nn) eqn:E; [|done]. unfold networkNumberAndMask in Hn. destruct (To4 (n_IP n)) as [x|] eqn:Ex.
  - assert (length x = 4%nat) as Hx.
    { unfold To4 in Ex. destruct (Nat.eqb_spec (length (n_IP n)) 4); [by simplify_eq|]. destruct (Nat.eqb_spec (length (n_IP n)) 16) as [H16|]; [|done].
      simpl in Ex. case_bool_decide; [|done]. injection Ex as <-. by rewrite length_drop, H16. }
    repeat case_match; simplify_eq; congruence.
  - repeat case_match; simplify_eq; congruence.
Qed.

Lemma net_text_inj nn l nn' l' : net_ok_id nn l -> net_ok_id nn' l' -> net_text nn l = net_text nn' l' -> nn = nn' /\ l = l'.
Proof.
  intros H1 H2 E. destruct (net_id_len _ _ H1) as [Hl1 Hr1], (net_id_len _ _ H2) as [Hl2 Hr2].
  destruct (IP_String_word nn Hl1 (proj1 H1)) as (_ & Hs1 & _), (IP_String_word nn' Hl2 (proj1 H2)) as (_ & Hs2 & _).
  destruct (FormatUint_word l Hr1) as [(_ & Hf1 & _) Hd1], (FormatUint_word l' Hr2) as [(_ & Hf2 & _) Hd2].
  apply (f_equal (GoText.Split slash)) in E. unfold net_text in E. simpl in E. rewrite !Split_sep, !Split_word in E by done. injection E as E1 E2.
  split; [|rewrite E2 in Hd1; congruence].
  pose proof (ParseIP_String nn Hl1 (proj1 H1)) as P1. pose proof (ParseIP_String nn' Hl2 (proj1 H2)) as P2. rewrite E1, P2 in P1.
  assert (forall x, length x = 4%nat -> To4 (v4InV6Prefix ++ x) <> None) as Hmap by (intros x Hx; unfold To4; rewrite length_app, Hx; cbn [length v4InV6Prefix Nat.add Nat.eqb andb]; by rewrite bool_decide_true).
  destruct H1 as (_ & [L1|[L1 N1]] & _), H2 as (_ & [L2|[L2 N2]] & _); unfold To16 in P1; rewrite L1, L2 in P1; cbn [Nat.eqb] in P1; apply (inj Some) in P1.
  - by apply app_inv_head in P1.
  - subst nn'. by destruct (Hmap nn).
  - subst nn. by destruct (Hmap nn').
  - done.
Qed.

Lemma masked_masked xs ms : masked (masked xs ms) ms = masked xs ms.
Proof.
  unfold masked. revert ms. induction xs as [|x xs IH]; intros [|m ms]; simpl; [done..|]. rewrite IH. f_equal.
  by rewrite <- Z.land_assoc, Z.land_diag.
Qed.

Lemma masked_full xs n : bytes_ok xs -> length xs = n -> zip_with Z.land xs (replicate n 255) = xs.
Proof. intros Hb <-. induction Hb as [|x xs Hx _ IH]; simpl; [done|]. by rewrite byte_full, IH. Qed.

Lemma mask_keeps_v6 nn l : length nn = 16%nat -> bytes_ok nn -> 0 <= l <= 128 -> To4 nn = None -> To4 (masked nn (CIDRMask l 16)) = None.
Proof.
  intros Hl Hb Hr H4. unfold To4 in *. rewrite masked_length by (by rewrite CIDRMask_length). rewrite Hl in *. cbn [Nat.eqb andb] in *.
  rewrite bool_decide_false; [done|]. intros Hm. destruct (mapped_mask nn l Hl Hb Hr Hm) as [H96 _]. rewrite bool_decide_true in H4; [done|].
  rewrite <- Hm. unfold masked. rewrite zip_with_take.
  pose proof (forall_below 129 (fun l => if 96 <=? l then bool_decide (take 12 (CIDRMask l 16) = replicate 12 255) else true) ltac:(by vm_compute) l ltac:(lia)) as Ht.
  cbv beta in Ht. rewrite (proj2 (Z.leb_le _ _)) in Ht by done. apply bool_decide_eq_true in Ht. rewrite Ht.
  symmetry. apply masked_full; [by apply Forall_take|]. rewrite length_take. lia.
Qed.

(** What [ParseCIDR] reads from the text of a network contains the same addresses. *)
Lemma net_text_parses nn l : net_ok_id nn l ->
  exists n, net_ParseCIDR (net_text nn l) = Some n /\ forall ip, IPNet_Contains n ip = IPNet_Contains (mkIPNet nn (CIDRMask l (length nn))) ip.
Proof.
  intros Hid. destruct (net_id_len _ _ Hid) as [Hl Hr]. destruct Hid as (Hb & Hlen & Hrange).
  destruct (IP_String_word nn Hl Hb) as (_ & Hs & _). destruct (FormatUint_word l Hr) as [(_ & Hf & _) Hd].
  assert (ParseAddr (IP_String nn) = Some nn) as Hpa.
  { unfold ParseAddr, IP_String. destruct Hlen as [H4|[H16 H4]].
    - unfold To4. rewrite H4. cbn [Nat.eqb]. destruct (format_v4_chars nn H4 Hb) as [Hc Hin].
      rewrite (family_char_first dot) by (done || by left). simpl. by apply parseIPv4_format.
    - rewrite H4. destruct (format_v6_chars nn H16 Hb) as [Hc Hin]. rewrite (family_char_first colon) by (done || by right). simpl.
      rewrite bool_decide_false; [by apply parseIPv6_format|]. intros Hp. rewrite Forall_forall in Hc. destruct (Hc percent Hp) as [(_ & _ & ? & _)|?]; done. }
  unfold net_ParseCIDR, net_text. simpl. rewrite Split_sep, Split_word by done. unfold ParseCIDR. rewrite Hpa, Hd.
  rewrite Z.gtb_ltb, (proj2 (Z.ltb_ge _ _)) by lia. pose proof (CIDRMask_length l (length nn)) as HM.
  assert (exists ip16, To16 nn = Some ip16 /\ IP_Mask ip16 (CIDRMask l (length nn)) = Some (masked nn (CIDRMask l (length nn)))) as (ip16 & -> & ->).
  { destruct Hlen as [H4|[H16 _]]; unfold To16; [rewrite H4|rewrite H16]; cbn [Nat.eqb]; eexists; (split; [done|]).
    - apply IP_Mask_mapped; [done|by rewrite CIDRMask_length].
    - apply IP_Mask_same. by rewrite CIDRMask_length. }
  exists (mkIPNet (masked nn (CIDRMask l (length nn))) (CIDRMask l (length nn))). split; [reflexivity|]. intros ip. unfold IPNet_Contains.
  assert (networkNumberAndMask (mkIPNet (masked nn (CIDRMask l (length nn))) (CIDRMask l (length nn))) = Some (masked nn (CIDRMask l (length nn)), CIDRMask l (length nn)) /\
    networkNumberAndMask (mkIPNet nn (CIDRMask l (length nn))) = Some (nn, CIDRMask l (length nn))) as [-> ->].
  { destruct Hlen as [H4|[H16 HN]].
    - rewrite !networkNumber_4; (done || rewrite ?masked_length; by rewrite ?CIDRMask_length, ?H4).
    - pose proof (mask_keeps_v6 nn l H16 Hb Hr HN) as HM4. rewrite H16. unfold networkNumberAndMask. cbn [n_IP n_Mask]. rewrite HN, HM4.
      rewrite masked_length by (by rewrite CIDRMask_length). rewrite CIDRMask_length, H16. cbn [Nat.eqb].
      rewrite masked_length by (by rewrite CIDRMask_length). by rewrite H16. }
  rewrite masked_length by done. by rewrite masked_masked.
Qed.

(** ** The gater *)

Definition ns : list Z := str "/dep2p/net/conngater".
Definition keyPeer : list Z := str "/peer/".
Definition keyAddr : list Z := str "/addr/".
Definition keySubnet : list Z := str "/subnet/".

Section gater.
Context `{!Base58} {D : Type} `{Datastore D} `{!SortSlice} (reg : registry).

Record BasicConnectionGater := mkGater {
  blockedPeers : gset (list Z);
  blockedAddrs : gset (list Z);
  blockedSubnets : gmap (list Z) IPNet;
  cg_ds : option (@transformDatastore D)
}.

Definition emptyGater (d : option transformDatastore) : BasicConnectionGater := mkGater ∅ ∅ ∅ d.
Definition addPeer (p : list Z) (cg : BasicConnectionGater) : BasicConnectionGater :=
  mkGater ({[p]} ∪ blockedPeers cg) (blockedAddrs cg) (blockedSubnets cg) (cg_ds cg).
Definition addAddr (s : list Z) (cg : BasicConnectionGater) : BasicConnectionGater :=
  mkGater (blockedPeers cg) ({[s]} ∪ blockedAddrs cg) (blockedSubnets cg) (cg_ds cg).
Definition addSubnet (s : list Z) (n : IPNet) (cg : BasicConnectionGater) : BasicConnectionGater :=
  mkGater (blockedPeers cg) (blockedAddrs cg) (<[s := n]> (blockedSubnets cg)) (cg_ds cg).

(** *** Loading *)

(** The end of a loop over results: all read, the return at a result with an error (which returns the
    error of the query, nil), or the return at a value that does not parse. *)
Inductive loaded := AllRead (cg : BasicConnectionGater) | ReturnNil (cg : BasicConnectionGater) | ReturnErr.

Fixpoint load_results (f : list Z -> BasicConnectionGater -> option BasicConnectionGater) (rs : list Result) (cg : BasicConnectionGater) : loaded :=
  match rs with
  | [] => AllRead cg
  | Err _ :: _ => ReturnNil cg
  | Ok e :: rs => match f (e_Value e) cg with Some cg => load_results f rs cg | None => ReturnErr end
  end.

Definition prefix_query (prefix : list Z) : Query := mkQuery prefix [] [] 0 0 false false false.

Definition loadPeer (v : list Z) (cg : BasicConnectionGater) : option BasicConnectionGater := Some (addPeer v cg).
Definition loadAddr (v : list Z) (cg : BasicConnectionGater) : option BasicConnectionGater := Some (addAddr (net_IP_String v) cg).
Definition loadSubnet (v : list Z) (cg : BasicConnectionGater) : option BasicConnectionGater :=
  match net_ParseCIDR v with Some n => Some (addSubnet v n cg) | None => None end.

Fixpoint load_queries (l : list (list Z * (list Z -> BasicConnectionGater -> option BasicConnectionGater))) (d : transformDatastore) (cg : BasicConnectionGater)
  : option (result dserror BasicConnectionGater) :=
  match l with
  | [] => Some (Ok (mkGater (blockedPeers cg) (blockedAddrs cg) (blockedSubnets cg) (Some d)))
  | (prefix, f) :: l =>
      '(r, d) ← ds_Query (prefix_query prefix) d;
      match r with
      | Err e => Some (Err e)
      | Ok rs =>
          match load_results f rs cg with
          | AllRead cg => load_queries l d cg
          | ReturnNil cg => Some (Ok (mkGater (blockedPeers cg) (blockedAddrs cg) (blockedSubnets cg) (Some d)))
          | ReturnErr => Some (Err (ErrOther 0))
          end
      end
  end.
Definition loadRules (d : transformDatastore) : option (result dserror BasicConnectionGater) :=
  load_queries [(keyPeer, loadPeer); (keyAddr, loadAddr); (keySubnet, loadSubnet)] d (emptyGater (Some d)).

Definition NewBasicConnectionGater (ds : option D) : option (result dserror BasicConnectionGater) :=
  match ds with
  | None => Some (Ok (emptyGater None))
  | Some ds => loadRules (namespace_Wrap ds (NewKey ns))
  end.

(** *** Rules *)

(** A rule goes to the datastore first, and to memory only if that succeeded. *)
Definition with_ds (f : dsM transformDatastore unit) (update : BasicConnectionGater -> BasicConnectionGater) (cg : BasicConnectionGater)
  : option (result dserror unit * BasicConnectionGater) :=
  match cg_ds cg with
  | None => Some (Ok tt, update cg)
  | Some d =>
      '(r, d) ← f d;
      let cg := mkGater (blockedPeers cg) (blockedAddrs cg) (blockedSubnets cg) (Some d) in
      match r with Err e => Some (Err e, cg) | Ok _ => Some (Ok tt, update cg) end
  end.

Definition BlockPeer (p : list Z) := with_ds (ds_Put (NewKey (keyPeer ++ peer_String p)) p) (addPeer p).
Definition UnblockPeer (p : list Z) := with_ds (ds_Delete (NewKey (keyPeer ++ peer_String p)))
  (fun cg => mkGater (blockedPeers cg ∖ {[p]}) (blockedAddrs cg) (blockedSubnets cg) (cg_ds cg)).
Definition ListBlockedPeers (cg : BasicConnectionGater) : list (list Z) := elements (blockedPeers cg).

Definition BlockAddr (ip : list Z) := with_ds (ds_Put (NewKey (keyAddr ++ net_IP_String ip)) ip) (addAddr (net_IP_String ip)).
Definition UnblockAddr (ip : list Z) := with_ds (ds_Delete (NewKey (keyAddr ++ net_IP_String ip)))
  (fun cg => mkGater (blockedPeers cg) (blockedAddrs cg ∖ {[net_IP_String ip]}) (blockedSubnets cg) (cg_ds cg)).
Definition ListBlockedAddrs (cg : BasicConnectionGater) : list (option (list Z)) := map ParseIP (elements (blockedAddrs cg)).

Definition BlockSubnet (n : IPNet) := with_ds (ds_Put (NewKey (keySubnet ++ IPNet_String n)) (IPNet_String n)) (addSubnet (IPNet_String n) n).
Definition UnblockSubnet (n : IPNet) := with_ds (ds_Delete (NewKey (keySubnet ++ IPNet_String n)))
  (fun cg => mkGater (blockedPeers cg) (blockedAddrs cg) (delete (IPNet_String n) (blockedSubnets cg)) (cg_ds cg)).
Definition ListBlockedSubnets (cg : BasicConnectionGater) : list IPNet := map snd (map_to_list (blockedSubnets cg)).

(** *** Decisions *)

Definition InterceptPeerDial (cg : BasicConnectionGater) (p : list Z) : bool := negb (bool_decide (p ∈ blockedPeers cg)).

Definition allow_addr (cg : BasicConnectionGater) (a : Multiaddr) : bool :=
  match ip_of reg a with
  | None => true
  | Some ip => negb (bool_decide (net_IP_String ip ∈ blockedAddrs cg)) && negb (any_contains (ListBlockedSubnets cg) ip)
  end.
Definition InterceptAddrDial (cg : BasicConnectionGater) (p : list Z) (a : Multiaddr) : bool := allow_addr cg a.
Definition InterceptAccept (cg : BasicConnectionGater) (remote : Multiaddr) : bool := allow_addr cg remote.
Definition InterceptSecured (cg : BasicConnectionGater) (dir : Direction) (p : list Z) : bool :=
  match dir with DirOutbound => true | _ => negb (bool_decide (p ∈ blockedPeers cg)) end.

(** *** Runs *)

Inductive gop :=
| GBlockPeer (p : list Z)
| GUnblockPeer (p : list Z)
| GBlockAddr (ip : list Z)
| GUnblockAddr (ip : list Z)
| GBlockSubnet (n : IPNet)
| GUnblockSubnet (n : IPNet)
| GRestart.

(** A restart makes a new gater on the datastore of the old one. *)
Definition gater_step (op : gop) (cg : BasicConnectionGater) : option (result dserror unit * BasicConnectionGater) :=
  match op with
  | GBlockPeer p => BlockPeer p cg
  | GUnblockPeer p => UnblockPeer p cg
  | GBlockAddr ip => BlockAddr ip cg
  | GUnblockAddr ip => UnblockAddr ip cg
  | GBlockSubnet n => BlockSubnet n cg
  | GUnblockSubnet n => UnblockSubnet n cg
  | GRestart =>
      r ← NewBasicConnectionGater (t_child <$> cg_ds cg);
      match r with Ok cg => Some (Ok tt, cg) | Err e => Some (Err e, cg) end
  end.

Fixpoint gater_run (ops : list gop) (cg : BasicConnectionGater) : option (list (result dserror unit) * BasicConnectionGater) :=
  match ops with
  | [] => Some ([], cg)
  | op :: ops => '(r, cg) ← gater_step op cg; '(rs, cg) ← gater_run ops cg; Some (r :: rs, cg)
  end.
End gater.

(** ** Rules *)

(** Addresses in the 16-byte form; networks by number and length. *)
Inductive rule := RPeer (p : list Z) | RAddr (a : list Z) | RNet (nn : list Z) (l : Z).

#[export] Instance rule_eq_dec : EqDecision rule.
Proof. solve_decision. Defined.
#[export] Instance rule_countable : Countable rule.
Proof.
  apply (inj_countable' (fun r => match r with RPeer p => inl p | RAddr a => inr (inl a) | RNet nn l => inr (inr (nn, l)) end)
    (fun x => match x with inl p => RPeer p | inr (inl a) => RAddr a | inr (inr (nn, l)) => RNet nn l end)). by intros [].
Defined.

Definition rule_ok (r : rule) : Prop :=
  match r with
  | RPeer p => bytes_ok p /\ p <> []
  | RAddr a => length a = 16%nat /\ bytes_ok a
  | RNet nn l => net_ok_id nn l
  end.

(** What a call adds ([true]) or removes. *)
Definition gop_rule (op : gop) : option (bool * rule) :=
  match op with
  | GBlockPeer p => Some (true, RPeer p)
  | GUnblockPeer p => Some (false, RPeer p)
  | GBlockAddr ip => Some (true, RAddr (default [] (To16 ip)))
  | GUnblockAddr ip => Some (false, RAddr (default [] (To16 ip)))
  | GBlockSubnet n => match networkNumberAndMask n with Some (nn, m) => Some (true, RNet nn (default 0 (simpleMaskLength m))) | None => None end
  | GUnblockSubnet n => match networkNumberAndMask n with Some (nn, m) => Some (false, RNet nn (default 0 (simpleMaskLength m))) | None => None end
  | GRestart => None
  end.
Definition rules_after (R : gset rule) (op : gop) : gset rule :=
  match gop_rule op with Some (true, r) => {[r]} ∪ R | Some (false, r) => R ∖ {[r]} | None => R end.

(** Peers with an ID, addresses of either length, networks with a prefix mask. *)
Definition gop_ok (op : gop) : Prop :=
  match op with
  | GBlockPeer p | GUnblockPeer p => bytes_ok p /\ p <> []
  | GBlockAddr ip | GUnblockAddr ip => ip_len ip /\ bytes_ok ip
  | GBlockSubnet n | GUnblockSubnet n => cidr_net n
  | GRestart => True
  end.

Section rules.
Context `{!Base58} `{!Base58Laws}.

Definition rule_words (r : rule) : list (list Z) :=
  match r with
  | RPeer p => [str "peer"; peer_String p]
  | RAddr a => [str "addr"; IP_String a]
  | RNet nn l => [str "subnet"; IP_String nn; FormatUint l]
  end.
Definition rule_key (r : rule) : list Z := key_of (rule_words r).

(** The values stored for a rule. *)
Definition rule_value (r : rule) (x : list Z) : Prop :=
  match r with
  | RPeer p => x = p
  | RAddr a => ip_len x /\ bytes_ok x /\ To16 x = Some a
  | RNet nn l => x = net_text nn l
  end.

Lemma peer_word p : bytes_ok p -> p <> [] -> word_ok (peer_String p).
Proof.
  intros Hb Hne. pose proof (b58_alphanumeric BTCAlphabet p Hb) as Ha. split_and!; [by apply b58_nonempty|by apply b58_chars|..];
    intros E; unfold peer_String, b58_Encode in E; rewrite E in Ha; repeat (apply Forall_cons in Ha as [Hx Ha]); unfold alphanumeric, dot in *; lia.
Qed.

Lemma rule_words_ok r : rule_ok r -> Forall word_ok (rule_words r) /\ rule_words r <> [].
Proof.
  intros Hr. split; [|by destruct r]. assert (word_ok (str "peer") /\ word_ok (str "addr") /\ word_ok (str "subnet")) as (W1 & W2 & W3)
    by (split_and!; apply (bool_decide_unpack _); vm_compute; exact I).
  destruct r as [p|a|nn l]; simpl in *; repeat apply Forall_cons_2; try apply Forall_nil_2; try done.
  - destruct Hr. by apply peer_word.
  - destruct Hr. apply IP_String_word; [by right|done].
  - destruct (net_id_len _ _ Hr). destruct Hr. by apply IP_String_word.
  - destruct (net_id_len _ _ Hr). by apply FormatUint_word.
Qed.

Lemma rule_key_ok r : rule_ok r -> key_ok (rule_key r).
Proof. intros [H1 H2]%rule_words_ok. by apply (key_of_ok _ (rule_words r)). Qed.

Lemma rule_key_inj r r' : rule_ok r -> rule_ok r' -> rule_key r = rule_key r' -> r = r'.
Proof.
  intros Hr Hr' E. apply key_of_inj in E; [|by apply rule_words_ok..]. destruct r as [p|a|nn l], r' as [p'|a'|nn' l']; simpl in *; try discriminate.
  - injection E as E. f_equal. destruct Hr, Hr'. assert (b58_Decode (peer_String p) = b58_Decode (peer_String p')) as Hd by (by rewrite E).
    unfold peer_String in Hd. rewrite !b58_inv in Hd by done. congruence.
  - injection E as E. f_equal. destruct Hr, Hr'. by apply IP_String_inj.
  - injection E as E1 E2. destruct (net_text_inj nn l nn' l') as [-> ->]; [done..| |done]. unfold net_text. by rewrite E1, E2.
Qed.

(** The keys the code builds are those of the rules. *)
Lemma peer_key p : bytes_ok p -> p <> [] -> NewKey (keyPeer ++ peer_String p) = rule_key (RPeer p).
Proof. intros Hb Hne. change (keyPeer ++ peer_String p) with (rule_key (RPeer p)). by apply NewKey_of, rule_words_ok. Qed.
Lemma addr_key ip a : ip_len ip -> bytes_ok ip -> To16 ip = Some a -> NewKey (keyAddr ++ net_IP_String ip) = rule_key (RAddr a) /\ rule_ok (RAddr a).
Proof.
  intros Hl Hb Ha. destruct (To16_len ip Hl Hb) as (a' & E & Hl' & Hb' & Hs). rewrite Ha in E. injection E as <-. split; [|done].
  rewrite net_IP_String_ok, <- Hs by done. change (keyAddr ++ IP_String a) with (rule_key (RAddr a)). by apply NewKey_of, (rule_words_ok (RAddr a)).
Qed.
Lemma net_key nn l : net_ok_id nn l -> NewKey (keySubnet ++ net_text nn l) = rule_key (RNet nn l).
Proof. intros Hn. change (keySubnet ++ net_text nn l) with (rule_key (RNet nn l)). by apply NewKey_of, (rule_words_ok (RNet nn l)). Qed.

(** A map that holds the rules of a set. *)
Definition stored (v : gmap (list Z) (list Z)) (R : gset rule) : Prop :=
  (forall k x, v !! k = Some x -> exists r, r ∈ R /\ k = rule_key r /\ rule_value r x) /\
  (forall r, r ∈ R -> is_Some (v !! rule_key r)).
Definition rules_ok (R : gset rule) : Prop := forall r, r ∈ R -> rule_ok r.

Lemma stored_value v R r x : stored v R -> rules_ok R -> r ∈ R -> v !! rule_key r = Some x -> rule_value r x.
Proof.
  intros [H1 _] Hok Hr Hx. destruct (H1 _ _ Hx) as (r' & Hr' & E & Hv). apply rule_key_inj in E as ->; [done|by apply Hok..].
Qed.

Lemma stored_insert v R r x : stored v R -> rule_ok r -> rule_value r x -> stored (<[rule_key r := x]> v) ({[r]} ∪ R).
Proof.
  intros [H1 H2] Hr Hx. split.
  - intros k y [[<- <-]|[_ Hy]]%lookup_insert_Some; [exists r; set_solver|]. destruct (H1 k y Hy) as (r' & ? & ? & ?). exists r'. set_solver.
  - intros r' Hin. rewrite lookup_insert. case_decide; [done|]. apply H2. set_solver.
Qed.

Lemma stored_delete v R r : stored v R -> rules_ok R -> rule_ok r -> stored (delete (rule_key r) v) (R ∖ {[r]}).
Proof.
  intros [H1 H2] Hok Hr. split.
  - intros k y [Hne Hy]%lookup_delete_Some. destruct (H1 k y Hy) as (r' & Hin & -> & ?). exists r'. split; [|done]. apply elem_of_difference. split; [done|].
    intros ->%elem_of_singleton. done.
  - intros r' [Hin Hne]%elem_of_difference. rewrite lookup_delete_ne; [by apply H2|]. intros E%rule_key_inj; [|done|by apply Hok]. set_solver.
Qed.

(** The rules of a kind are what is below the kind. *)
Definition kind (r : rule) : list Z := match r with RPeer _ => keyPeer | RAddr _ => keyAddr | RNet _ _ => keySubnet end.

Lemma under_kind pre r : pre ∈ [keyPeer; keyAddr; keySubnet] -> rule_ok r -> under pre (rule_key r) = true <-> kind r = pre.
Proof.
  intros Hpre Hr. assert (exists w, word_ok w /\ NewKey pre = key_of [w] /\ forall r, head (rule_words r) = Some w <-> kind r = pre) as (w & Hw & E & Hhd).
  { assert (word_ok (str "peer") /\ word_ok (str "addr") /\ word_ok (str "subnet")) as (W1 & W2 & W3) by (split_and!; apply (bool_decide_unpack _); vm_compute; exact I).
    apply elem_of_cons in Hpre as [->|[->|[->|[]%elem_of_nil]%elem_of_cons]%elem_of_cons];
      [exists (str "peer")|exists (str "addr")|exists (str "subnet")]; (split; [done|split; [by vm_compute|intros []; split; done]]). }
  unfold under. rewrite E. unfold rule_key. destruct (rule_words_ok r Hr) as [Hok _]. rewrite IsAncestorOf_of by (done || by apply Forall_singleton). rewrite <- Hhd. split.
  - by intros (c & _ & ->).
  - destruct r; simpl; intros [= ->]; eexists; (split; [|reflexivity]); done.
Qed.
End rules.

(** ** The gater decides by its rules *)

Section refinement.
Context `{!Base58} `{!Base58Laws} {D : Type} `{Datastore D} `{!SortSlice} (reg : registry).
Context (ok : D -> Prop) (view : D -> gmap (list Z) (list Z)) {laws : DatastoreLaws D ok view} (rest : gmap (list Z) (list Z)).

Notation gater := (@BasicConnectionGater D).
Notation ds_ok := (transform_ok ok view (NewKey ns) rest).
Notation ds_view := (transform_view view).

#[local] Instance ds_laws : DatastoreLaws transformDatastore ds_ok ds_view.
Proof. exact (transform_laws ok view (NewKey ns) (NewKey_clean ns) rest). Qed.

(** The rules in memory. *)
Record mem_ok (cg : gater) (R : gset rule) : Prop := {
  mem_peers p : p ∈ blockedPeers cg <-> RPeer p ∈ R;
  mem_addrs s : s ∈ blockedAddrs cg <-> exists a, RAddr a ∈ R /\ s = IP_String a;
  mem_nets s n : blockedSubnets cg !! s = Some n -> exists nn l, RNet nn l ∈ R /\ s = net_text nn l /\
    forall ip, IPNet_Contains n ip = IPNet_Contains (mkIPNet nn (CIDRMask l (length nn))) ip;
  mem_all_nets nn l : RNet nn l ∈ R -> is_Some (blockedSubnets cg !! net_text nn l)
}.

Definition gater_ok (cg : gater) (R : gset rule) : Prop :=
  rules_ok R /\ mem_ok cg R /\ exists d, cg_ds cg = Some d /\ ds_ok d /\ stored (ds_view d) R.

(** *** Loading *)

Lemma load_peers es : forall cg : gater,
  load_results loadPeer (map Ok es) cg = AllRead (mkGater (list_to_set (map e_Value es) ∪ blockedPeers cg) (blockedAddrs cg) (blockedSubnets cg) (cg_ds cg)).
Proof.
  induction es as [|e es IH]; intros cg; simpl; [f_equal; destruct cg; simpl; f_equal; set_solver|]. rewrite IH. simpl. f_equal. f_equal. set_solver.
Qed.

Lemma load_addrs es : forall cg : gater,
  load_results loadAddr (map Ok es) cg =
  AllRead (mkGater (blockedPeers cg) (list_to_set (map (fun e => net_IP_String (e_Value e)) es) ∪ blockedAddrs cg) (blockedSubnets cg) (cg_ds cg)).
Proof.
  induction es as [|e es IH]; intros cg; simpl; [f_equal; destruct cg; simpl; f_equal; set_solver|]. rewrite IH. simpl. f_equal. f_equal. set_solver.
Qed.

Lemma load_subnets es : forall cg : gater,
  Forall (fun e => is_Some (net_ParseCIDR (e_Value e))) es ->
  exists nets, load_results loadSubnet (map Ok es) cg = AllRead (mkGater (blockedPeers cg) (blockedAddrs cg) nets (cg_ds cg)) /\
    (forall s n, nets !! s = Some n -> blockedSubnets cg !! s = Some n \/ (net_ParseCIDR s = Some n /\ exists e, e ∈ es /\ e_Value e = s)) /\
    (forall s, is_Some (blockedSubnets cg !! s) \/ (exists e, e ∈ es /\ e_Value e = s) -> is_Some (nets !! s)).
Proof.
  induction es as [|e es IH]; intros cg Hes; simpl.
  - exists (blockedSubnets cg). split; [by destruct cg|]. split; [tauto|]. intros s [?|(e & []%elem_of_nil & _)]. done.
  - apply Forall_cons in Hes as [[n Hn] Hes]. unfold loadSubnet at 1. rewrite Hn. destruct (IH (addSubnet (e_Value e) n cg) Hes) as (nets & -> & K1 & K2).
    exists nets. split; [done|]. split.
    + intros s m Hm. destruct (K1 s m Hm) as [Hs|(? & e' & ? & ?)]; [|right; split; [done|]; exists e'; by split; [right|]].
      simpl in Hs. apply lookup_insert_Some in Hs as [[<- <-]|[_ Hs]]; [|by left]. right. split; [done|]. exists e. by split; [left|].
    + intros s Hs. apply K2. simpl. rewrite lookup_insert. case_decide; [by left|]. destruct Hs as [?|(e' & [->|?]%elem_of_cons & ?)]; [by left|done|right; eauto].
Qed.

(** What a query of a kind returns. *)
Lemma kind_entries pre v R es :
  pre ∈ [keyPeer; keyAddr; keySubnet] -> stored v R -> rules_ok R -> answers (prefix_query pre) v es ->
  (forall e, e ∈ es -> exists r, r ∈ R /\ kind r = pre /\ rule_value r (e_Value e)) /\
  (forall r, r ∈ R -> kind r = pre -> exists e, e ∈ es /\ rule_value r (e_Value e)).
Proof.
  intros Hpre Hst Hok (all & Hp & _ & ->). unfold NaiveLimit. simpl. rewrite drop_0.
  rewrite (filter_id (passes (prefix_query pre))) in Hp by (apply Forall_forall; intros; by apply passes_nil). unfold entries_under in Hp. simpl in Hp.
  assert (forall e, e ∈ all <-> exists k x, v !! k = Some x /\ under pre k = true /\ e = entry_of (prefix_query pre) (k, x)) as Hall.
  { intros e. rewrite Hp, list_elem_of_fmap. split.
    - intros ([k x] & -> & [Hu Hin%elem_of_map_to_list]%list_elem_of_filter). by exists k, x.
    - intros (k & x & Hv & Hu & ->). exists (k, x). split; [done|]. apply list_elem_of_filter. split; [done|by apply elem_of_map_to_list]. }
  split.
  - intros e (k & x & Hv & Hu & ->)%Hall. destruct (proj1 Hst k x Hv) as (r & Hr & -> & Hx). exists r. split_and!; [done| |done]. by apply under_kind in Hu; [|done|apply Hok].
  - intros r Hr Hk. destruct (proj2 Hst r Hr) as [x Hx]. exists (entry_of (prefix_query pre) (rule_key r, x)). split.
    + apply Hall. exists (rule_key r), x. split_and!; [done| |done]. apply under_kind; [done|by apply Hok|done].
    + simpl. by eapply stored_value.
Qed.

(** A new gater has the rules of the datastore. *)
Lemma New_loads c R :
  ok c -> outside view (NewKey ns) rest c -> rules_ok R -> stored (strip_map (NewKey ns) (view c)) R ->
  exists cg, NewBasicConnectionGater (Some c) = Some (Ok cg) /\ gater_ok cg R.
Proof.
  intros Hc Hout HR Hst. unfold NewBasicConnectionGater, loadRules. set (d0 := namespace_Wrap c (NewKey ns)).
  assert (ds_ok d0) as Hd0 by done. assert (stored (ds_view d0) R) as Hst0 by done.
  assert (forall pre, query_ok (prefix_query pre)) as Hq by (intros; by split; constructor).
  cbn [load_queries]. destruct (law_Query d0 (prefix_query keyPeer) Hd0 (Hq _)) as (es1 & d1 & -> & Hd1 & Hv1 & Ha1). cbn [mbind option_bind]. rewrite load_peers.
  destruct (law_Query d1 (prefix_query keyAddr) Hd1 (Hq _)) as (es2 & d2 & -> & Hd2 & Hv2 & Ha2). cbn [mbind option_bind]. rewrite load_addrs.
  destruct (law_Query d2 (prefix_query keySubnet) Hd2 (Hq _)) as (es3 & d3 & -> & Hd3 & Hv3 & Ha3). cbn [mbind option_bind]. rewrite ?Hv2, ?Hv1 in *.
  destruct (kind_entries keyPeer _ R es1 ltac:(set_solver) Hst0 HR Ha1) as [P1 P2]. destruct (kind_entries keyAddr _ R es2 ltac:(set_solver) Hst0 HR Ha2) as [A1 A2].
  destruct (kind_entries keySubnet _ R es3 ltac:(set_solver) Hst0 HR Ha3) as [N1 N2].
  set (cg := mkGater _ _ _ _). destruct (load_subnets es3 cg) as (nets & -> & L1 & L2).
  { apply Forall_forall. intros e He. destruct (N1 e He) as ([] & Hr & Hk & Hx); try done. simpl in Hx. rewrite Hx.
    destruct (net_text_parses nn l (HR _ Hr)) as (n & -> & _). done. }
  eexists. split; [done|]. split; [done|]. split; [|exists d3; by rewrite Hv3]. split; simpl.
  - intros p. rewrite union_empty_r_L, elem_of_list_to_set, list_elem_of_fmap. split.
    + intros (e & -> & He). destruct (P1 e He) as ([] & Hr & Hk & Hx); try done. simpl in Hx. by subst.
    + intros Hr. destruct (P2 _ Hr eq_refl) as (e & He & Hx). simpl in Hx. by exists e.
  - intros s. rewrite union_empty_r_L, elem_of_list_to_set, list_elem_of_fmap. split.
    + intros (e & -> & He). destruct (A1 e He) as ([] & Hr & Hk & Hx); try done. destruct Hx as (Hl & Hb & Ha). exists a. split; [done|].
      rewrite net_IP_String_ok by done. destruct (To16_len _ Hl Hb) as (a' & E & _ & _ & Hs). by simplify_eq.
    + intros (a & Hr & ->). destruct (A2 _ Hr eq_refl) as (e & He & Hl & Hb & Ha). exists e. split; [|done].
      rewrite net_IP_String_ok by done. destruct (To16_len _ Hl Hb) as (a' & E & _ & _ & Hs). by simplify_eq.
  - intros s n Hn. destruct (L1 s n Hn) as [Hx|(Hp & e & He & <-)]; [simpl in Hx; by rewrite lookup_empty in Hx|]. destruct (N1 e He) as ([] & Hr & Hk & Hx); try done.
    simpl in Hx. exists nn, l. split_and!; [done..|]. destruct (net_text_parses nn l (HR _ Hr)) as (n' & E & Hc'). rewrite Hx, E in Hp. by simplify_eq.
  - intros nn l Hr. apply L2. right. destruct (N2 _ Hr eq_refl) as (e & He & Hx). eauto.
Qed.

(** *** Calls *)

Lemma mem_ok_ds (cg : gater) R d : mem_ok cg R -> mem_ok (mkGater (blockedPeers cg) (blockedAddrs cg) (blockedSubnets cg) d) R.
Proof. intros [M1 M2 M3 M4]. by split. Qed.

(** A rule written to the datastore and to memory. *)
Lemma add_rule_ok (cg : gater) R r x update :
  gater_ok cg R -> rule_ok r -> rule_value r x ->
  (forall cg', mem_ok cg' R -> mem_ok (update cg') ({[r]} ∪ R) /\ cg_ds (update cg') = cg_ds cg') ->
  exists cg', with_ds (ds_Put (rule_key r) x) update cg = Some (Ok tt, cg') /\ gater_ok cg' ({[r]} ∪ R).
Proof.
  intros (HR & Hm & d & Hd & Hok & Hst) Hr Hx Hup. unfold with_ds. rewrite Hd.
  destruct (law_Put d (rule_key r) x Hok (rule_key_ok r Hr)) as (d' & -> & Hok' & Hv). cbn [mbind option_bind]. eexists. split; [done|].
  destruct (Hup _ (mem_ok_ds _ _ (Some d') Hm)) as [Hm' Hds]. split; [intros r'; set_solver|]. split; [done|]. exists d'. split; [done|]. split; [done|].
  rewrite Hv. by apply stored_insert.
Qed.

Lemma remove_rule_ok (cg : gater) R r update :
  gater_ok cg R -> rule_ok r ->
  (forall cg', mem_ok cg' R -> mem_ok (update cg') (R ∖ {[r]}) /\ cg_ds (update cg') = cg_ds cg') ->
  exists cg', with_ds (ds_Delete (rule_key r)) update cg = Some (Ok tt, cg') /\ gater_ok cg' (R ∖ {[r]}).
Proof.
  intros (HR & Hm & d & Hd & Hok & Hst) Hr Hup. unfold with_ds. rewrite Hd.
  destruct (law_Delete d (rule_key r) Hok (rule_key_ok r Hr)) as (d' & -> & Hok' & Hv). cbn [mbind option_bind]. eexists. split; [done|].
  destruct (Hup _ (mem_ok_ds _ _ (Some d') Hm)) as [Hm' Hds]. split; [intros r'; set_solver|]. split; [done|]. exists d'. split; [done|]. split; [done|].
  rewrite Hv. by apply stored_delete.
Qed.

Lemma add_peer_ok (cg : gater) R p : mem_ok cg R -> mem_ok (addPeer p cg) ({[RPeer p]} ∪ R).
Proof. intros [M1 M2 M3 M4]. split; simpl; [intros q; specialize (M1 q)|intros s; specialize (M2 s)|intros s n Hn; destruct (M3 s n Hn) as (nn & l & ?)|intros nn l]; set_solver. Qed.
Lemma remove_peer_ok (cg : gater) R p : mem_ok cg R -> mem_ok (mkGater (blockedPeers cg ∖ {[p]}) (blockedAddrs cg) (blockedSubnets cg) (cg_ds cg)) (R ∖ {[RPeer p]}).
Proof. intros [M1 M2 M3 M4]. split; simpl; [intros q; specialize (M1 q)|intros s; specialize (M2 s)|intros s n Hn; destruct (M3 s n Hn) as (nn & l & ?)|intros nn l]; set_solver. Qed.

Lemma add_addr_ok (cg : gater) R a : mem_ok cg R -> mem_ok (addAddr (IP_String a) cg) ({[RAddr a]} ∪ R).
Proof. intros [M1 M2 M3 M4]. split; simpl; [intros q; specialize (M1 q)|intros s; specialize (M2 s)|intros s n Hn; destruct (M3 s n Hn) as (nn & l & ?)|intros nn l]; set_solver. Qed.
Lemma remove_addr_ok (cg : gater) R a :
  rules_ok R -> rule_ok (RAddr a) -> mem_ok cg R -> mem_ok (mkGater (blockedPeers cg) (blockedAddrs cg ∖ {[IP_String a]}) (blockedSubnets cg) (cg_ds cg)) (R ∖ {[RAddr a]}).
Proof.
  intros HR Ha [M1 M2 M3 M4]. split; simpl; [intros q; specialize (M1 q); set_solver| |intros s n Hn; destruct (M3 s n Hn) as (nn & l & ?); set_solver|set_solver].
  intros s. rewrite elem_of_difference, M2, elem_of_singleton. split.
  - intros [(b & Hb & ->) Hne]. exists b. split; [|done]. apply elem_of_difference. split; [done|]. intros [= ->]%elem_of_singleton. done.
  - intros (b & [Hb Hne]%elem_of_difference & ->). split; [by exists b|]. intros E. apply Hne. destruct (HR _ Hb), Ha. apply IP_String_inj in E as ->; [|done..]. by apply elem_of_singleton.
Qed.

Lemma add_net_ok (cg : gater) R n nn l :
  mem_ok cg R -> networkNumberAndMask n = Some (nn, CIDRMask l (length nn)) -> net_ok_id nn l -> mem_ok (addSubnet (net_text nn l) n cg) ({[RNet nn l]} ∪ R).
Proof.
  intros [M1 M2 M3 M4] Hn Hid. split; simpl; [intros q; specialize (M1 q); set_solver|intros s; specialize (M2 s); set_solver|..].
  - intros s m [[<- <-]|[_ Hm]]%lookup_insert_Some; [|destruct (M3 s m Hm) as (nn' & l' & ?); set_solver]. exists nn, l. split; [set_solver|]. split; [done|].
    intros ip. unfold IPNet_Contains. rewrite Hn. assert (networkNumberAndMask (mkIPNet nn (CIDRMask l (length nn))) = Some (nn, CIDRMask l (length nn))) as ->; [|done].
    destruct Hid as (_ & [H4|[H16 HN]] & _); [by rewrite networkNumber_4 by (by rewrite ?CIDRMask_length)|]. unfold networkNumberAndMask. cbn [n_IP n_Mask].
    rewrite HN, CIDRMask_length, H16. cbn [Nat.eqb]. by rewrite H16.
  - intros nn' l' [[= -> ->]%elem_of_singleton|Hin]%elem_of_union; [by rewrite lookup_insert_eq|]. rewrite lookup_insert. case_decide; [done|by apply M4].
Qed.
Lemma remove_net_ok (cg : gater) R nn l :
  rules_ok R -> net_ok_id nn l -> mem_ok cg R ->
  mem_ok (mkGater (blockedPeers cg) (blockedAddrs cg) (delete (net_text nn l) (blockedSubnets cg)) (cg_ds cg)) (R ∖ {[RNet nn l]}).
Proof.
  intros HR Hid [M1 M2 M3 M4]. split; simpl; [intros q; specialize (M1 q); set_solver|intros s; specialize (M2 s); set_solver|..].
  - intros s m [Hne Hm]%lookup_delete_Some. destruct (M3 s m Hm) as (nn' & l' & Hin & -> & Hc). exists nn', l'. split; [|done]. apply elem_of_difference. split; [done|].
    intros [= -> ->]%elem_of_singleton. done.
  - intros nn' l' [Hin Hne]%elem_of_difference. rewrite lookup_delete_ne; [by apply M4|]. intros E. apply Hne.
    destruct (net_text_inj nn l nn' l' Hid (HR _ Hin) E) as [-> ->]. by apply elem_of_singleton.
Qed.

Lemma gater_step_ok op (cg : gater) R :
  gater_ok cg R -> gop_ok op -> exists cg', gater_step op cg = Some (Ok tt, cg') /\ gater_ok cg' (rules_after R op).
Proof.
  intros Hcg Hop. assert (HR := proj1 Hcg). destruct op as [p|p|ip|ip|n|n|]; cbn [gater_step gop_ok] in *; unfold rules_after; cbn [gop_rule].
  - unfold BlockPeer. rewrite peer_key by apply Hop. apply add_rule_ok; [done|done|done|]. intros cg' Hm. split; [by apply add_peer_ok|done].
  - unfold UnblockPeer. rewrite peer_key by apply Hop. apply remove_rule_ok; [done|done|]. intros cg' Hm. split; [by apply remove_peer_ok|done].
  - destruct Hop as [Hl Hb]. destruct (To16_len ip Hl Hb) as (a & Ha & _ & _ & Hs). rewrite Ha. unfold BlockAddr. destruct (addr_key ip a Hl Hb Ha) as [-> Hr].
    rewrite net_IP_String_ok, <- Hs by done. apply add_rule_ok; [done|done|done|]. intros cg' Hm. split; [by apply add_addr_ok|done].
  - destruct Hop as [Hl Hb]. destruct (To16_len ip Hl Hb) as (a & Ha & _ & _ & Hs). rewrite Ha. unfold UnblockAddr. destruct (addr_key ip a Hl Hb Ha) as [-> Hr].
    rewrite net_IP_String_ok, <- Hs by done. apply remove_rule_ok; [done|done|]. intros cg' Hm. split; [by apply remove_addr_ok|done].
  - destruct (cidr_id n Hop) as (nn & l & Hn & Hid & Ht). rewrite Hn. rewrite simpleMaskLength_CIDRMask by apply Hid. unfold BlockSubnet. rewrite Ht, net_key by done.
    apply (add_rule_ok _ _ (RNet nn l)); [done|done|done|]. intros cg' Hm. split; [by apply add_net_ok|done].
  - destruct (cidr_id n Hop) as (nn & l & Hn & Hid & Ht). rewrite Hn. rewrite simpleMaskLength_CIDRMask by apply Hid. unfold UnblockSubnet. rewrite Ht, net_key by done.
    apply (remove_rule_ok _ _ (RNet nn l)); [done|done|]. intros cg' Hm. split; [by apply remove_net_ok|done].
  - destruct Hcg as (_ & _ & [c t] & -> & (Hc & Ht & Hout) & Hst). cbn [t_child t_transform] in *. subst t.
    destruct (New_loads c R Hc Hout HR Hst) as (cg' & E & Hcg'). exists cg'. change (t_child <$> Some ?d) with (Some (t_child d)). cbn [t_child]. by rewrite E.
Qed.

Lemma gater_run_ok ops : forall (cg : gater) R,
  gater_ok cg R -> Forall gop_ok ops ->
  exists cg', gater_run ops cg = Some (replicate (length ops) (Ok tt), cg') /\ gater_ok cg' (foldl rules_after R ops).
Proof.
  induction ops as [|op ops IH]; intros cg R Hcg Hops; [by exists cg|]. apply Forall_cons in Hops as [Hop Hops].
  destruct (gater_step_ok op cg R Hcg Hop) as (cg1 & E1 & Hcg1). destruct (IH cg1 _ Hcg1 Hops) as (cg' & E & Hcg'). exists cg'. split; [|done].
  cbn [gater_run]. rewrite E1. cbn [mbind option_bind]. by rewrite E.
Qed.

(** *** Decisions *)

Lemma allow_peer_ok (cg : gater) R p : mem_ok cg R -> InterceptPeerDial cg p = negb (bool_decide (RPeer p ∈ R)).
Proof. intros Hm. unfold InterceptPeerDial. f_equal. apply bool_decide_ext, Hm. Qed.

Lemma allow_addr_ok (cg : gater) R a ip ip16 :
  rules_ok R -> mem_ok cg R -> ip_of reg a = Some ip -> ip_len ip -> bytes_ok ip -> To16 ip = Some ip16 ->
  allow_addr reg cg a = true <->
  RAddr ip16 ∉ R /\ forall nn l, RNet nn l ∈ R -> IPNet_Contains (mkIPNet nn (CIDRMask l (length nn))) ip = false.
Proof.
  intros HR Hm Ha Hl Hb H16. unfold allow_addr. rewrite Ha, andb_true_iff, !negb_true_iff, bool_decide_eq_false. f_equiv.
  - rewrite net_IP_String_ok, (mem_addrs _ _ Hm) by done. destruct (To16_len ip Hl Hb) as (x & E & L16 & B16 & Hs). rewrite H16 in E. injection E as <-. split.
    + intros Hno Hin. apply Hno. exists ip16. by rewrite Hs.
    + intros Hno (y & Hin & Hy). apply Hno. rewrite <- Hs in Hy. destruct (HR _ Hin). by apply IP_String_inj in Hy as ->.
  - unfold any_contains, ListBlockedSubnets. split.
    + intros Hno nn l Hin. destruct (mem_all_nets _ _ Hm nn l Hin) as [n Hn]. destruct (mem_nets _ _ Hm _ _ Hn) as (nn' & l' & Hin' & Ht & Hc).
      destruct (net_text_inj nn l nn' l' (HR _ Hin) (HR _ Hin') Ht) as [-> ->]. rewrite <- Hc. apply not_true_iff_false. intros Hct.
      rewrite (proj2 (existsb_exists _ _)) in Hno; [done|]. exists n. split; [|done]. apply list_elem_of_In, list_elem_of_fmap. exists (net_text nn' l', n). split; [done|by apply elem_of_map_to_list].
    + intros Hall. apply not_true_iff_false. intros (n & Hin & Hc)%existsb_exists. apply list_elem_of_In, list_elem_of_fmap in Hin as ([s n'] & -> & Hin%elem_of_map_to_list).
      simpl in Hc. destruct (mem_nets _ _ Hm _ _ Hin) as (nn & l & Hr & _ & Hct). rewrite Hct, (Hall nn l Hr) in Hc. done.
Qed.

(** C22: Over any datastore that is a map, from a new gater on, no call fails, and whatever rules were
    stored, added and removed, with restarts anywhere between, the gater blocks just the peers with a
    rule and the addresses with a rule or in a network with one; the rules of its last state are
    stored, and the datastore outside of the namespace is not changed. *)
Theorem gater_rules_persist ops c R0 :
  ok c -> outside view (NewKey ns) rest c -> stored (strip_map (NewKey ns) (view c)) R0 -> rules_ok R0 -> Forall gop_ok ops ->
  exists cg0 cg d, NewBasicConnectionGater (Some c) = Some (Ok cg0) /\ gater_run ops cg0 = Some (replicate (length ops) (Ok tt), cg) /\
    let R := foldl rules_after R0 ops in
    (forall p, InterceptPeerDial cg p = negb (bool_decide (RPeer p ∈ R))) /\
    (forall dir p, InterceptSecured cg dir p = bool_decide (dir = DirOutbound) || InterceptPeerDial cg p) /\
    (forall p a ip ip16, ip_of reg a = Some ip -> ip_len ip -> bytes_ok ip -> To16 ip = Some ip16 ->
      InterceptAddrDial reg cg p a = InterceptAccept reg cg a /\
      (InterceptAccept reg cg a = true <->
        RAddr ip16 ∉ R /\ forall nn l, RNet nn l ∈ R -> IPNet_Contains (mkIPNet nn (CIDRMask l (length nn))) ip = false)) /\
    cg_ds cg = Some d /\ stored (strip_map (NewKey ns) (view (t_child d))) R /\ outside view (NewKey ns) rest (t_child d).
Proof.
  intros Hc Hout Hst HR Hops. destruct (New_loads c R0 Hc Hout HR Hst) as (cg0 & E0 & Hcg0).
  destruct (gater_run_ok ops cg0 R0 Hcg0 Hops) as (cg & E & HR' & Hm & d & Hd & (_ & Ht & Hout') & Hst'). exists cg0, cg, d. split; [done|]. split; [done|]. cbv zeta. split; [|split; [|split; [|split; [exact Hd|split; [|exact Hout']]]]].
  - intros p. by apply allow_peer_ok.
  - by intros [] p.
  - intros p a ip ip16 Ha Hl Hb H16. split; [done|]. by apply allow_addr_ok.
  - unfold transform_view in Hst'. by rewrite Ht in Hst'.
Qed.
End refinement.

(** ** A concrete gater *)

Module GaterDemo.
#[export] Existing Instance insertionSort.
Import Base58.Reference.

Definition store : gmap (list Z) (list Z) := {[ str "/other" := [7] ]}.
Definition peer : list Z := [0; 2; 104; 105].
Definition net : IPNet := mkIPNet [10; 1; 0; 0] [255; 255; 0; 0].
Definition ops : list gop := [GBlockPeer peer; GBlockSubnet net; GRestart; GUnblockPeer peer; GRestart].

Lemma gater_rules_persist_witness :
  exists cg0 cg, NewBasicConnectionGater (Some store) = Some (Ok cg0) /\ gater_run ops cg0 = Some (replicate 5 (Ok tt), cg) /\
    InterceptPeerDial cg peer = true /\ InterceptAccept AllowDemo.reg cg AllowDemo.inside = false.
Proof.
  destruct (gater_rules_persist AllowDemo.reg map_ok id store ops store ∅) as (cg0 & cg & d & E0 & E & Hpeer & _ & Haddr & _).
  - unfold store. intros k [v [<- _]%lookup_singleton_Some]. apply (key_of_ok _ [str "other"]); [done| |done]. apply (bool_decide_unpack _). vm_compute. exact I.
  - done.
  - assert (strip_map (NewKey ns) (id store) = ∅) as -> by (vm_compute; reflexivity). split; [intros k x Hx; discriminate Hx|set_solver].
  - intros r Hr. set_solver.
  - assert (bytes_ok peer /\ peer <> []) as Hp by (split; [repeat constructor; unfold is_byte; lia|done]).
    assert (cidr_net net) as Hn by (exists [10; 1; 0; 0], 16; split_and!; [reflexivity|repeat constructor; unfold is_byte; lia|by left|lia|simpl; lia]).
    unfold ops. repeat (apply Forall_cons; split); done.
  - exists cg0, cg. refine (conj E0 (conj E (conj _ _))).
    + rewrite (Hpeer peer). vm_compute. reflexivity.
    + destruct (Haddr [] AllowDemo.inside [10; 1; 2; 3] (v4InV6Prefix ++ [10; 1; 2; 3])) as [_ Hdec].
      * vm_compute. reflexivity.
      * by left.
      * repeat constructor; unfold is_byte; lia.
      * reflexivity.
      * apply not_true_iff_false. intros Ht. apply Hdec in Ht as [_ Hn].
        specialize (Hn [10; 1; 0; 0] 16 ltac:(apply (bool_decide_unpack _); vm_compute; exact I)). vm_compute in Hn. discriminate.
Defined.

(** A network with a mask that is no prefix is stored as a text that [ParseCIDR] refuses: from then on
    no gater can be made on the datastore. *)
Lemma bad_mask_locks_out :
  match NewBasicConnectionGater (Some store) with
  | Some (Ok cg) => option_map fst (gater_run [GBlockSubnet (mkIPNet [10; 1; 0; 0] [255; 0; 255; 0]); GRestart] cg)
  | _ => None
  end = Some [Ok tt; Err (ErrOther 0)].
Proof. vm_compute. reflexivity. Qed.

(** Blocking a peer writes the datastore first and takes the lock for the memory later; a call that
    unblocks the peer in between leaves a rule that the next gater does not have. *)
Lemma interleaved_calls :
  match NewBasicConnectionGater (Some store) with
  | Some (Ok cg) =>
      '(_, d) ← ds_Put (NewKey (keyPeer ++ peer_String peer)) peer (namespace_Wrap store (NewKey ns));
      '(_, cg) ← UnblockPeer peer (mkGater (blockedPeers cg) (blockedAddrs cg) (blockedSubnets cg) (Some d));
      let cg := addPeer peer cg in
      '(_, cg') ← gater_step GRestart cg;
      Some (InterceptPeerDial cg peer, InterceptPeerDial cg' peer)
  | _ => None
  end = Some (false, true).
Proof. vm_compute. reflexivity. Qed.
End GaterDemo.
