(* ===== verification/RcmgrInv.v ===== *)
(** * Invariants of the resource manager

    Every operation of the manager keeps the books of [ScopeLedger] balanced and
    the connection limiter in step with the open connections.  The proof carries
    a ghost [role] for every DAG scope: which of the manager's scopes it is. *)

From stdpp Require Import base gmap list strings fin_maps relations.
From Stdlib Require Import ZArith Lia.
From S2P Require Import Prelude Limits Resources Scope ScopeFacts ScopeInv ScopeAccount ScopeLedger ScopeSpans ConnLimiter Rcmgr.

Inductive role :=
| RSystem | RTransient | RAllowSystem | RAllowTransient
| RPeer (p : string) | RProto (n : string) | RSvc (n : string)
| RProtoPeer (n p : string) | RSvcPeer (n p : string)
| RConn | RStream.

Definition upd {A} (f : nat -> A) (x : nat) (v : A) : nat -> A := fun y => if decide (y = x) then v else f y.

Lemma upd_eq {A} (f : nat -> A) x v : upd f x v x = v.
Proof. unfold upd. by rewrite decide_True. Qed.
Lemma upd_ne {A} (f : nat -> A) x v y : y <> x -> upd f x v y = f y.
Proof. intros. unfold upd. by rewrite decide_False. Qed.

Lemma alter_comm {A} (f g : A -> A) (x y : nat) (h : gmap nat A) :
  (forall a, f (g a) = g (f a)) -> alter f x (alter g y h) = alter g y (alter f x h).
Proof.
  intros Hfg. destruct (decide (x = y)) as [->|Hne]; [|by rewrite alter_alter_ne].
  rewrite !alter_alter_eq. apply map_eq. intros z. rewrite !lookup_alter. case_decide; [|done].
  destruct (h !! _); simpl; [by rewrite Hfg|done].
Qed.

(** What was reserved on each of the manager's own scopes itself (not on a connection
    or a stream, and not through a span) and is not released yet: the book its users
    keep. *)
Class Book := booked : nat -> counter -> Z.

Section inv.
Context {users : Book}.
Context {L : Type} `{!Limit L} {R : Type} `{!Limiter R L}.
Context {MA AL : Type} `{!AllowlistI AL MA} `{!EndpointI MA}.
Context (show_peer : string -> string).
Abbreviation mgr := (resourceManager L R MA AL).
Implicit Types (r : mgr) (h : heap L) (sc : resourceScope L) (own : nat -> counter -> Z) (ext : nat -> Z).

(** ** The DAG scopes of a heap: [Some None] is closed, [Some (Some es)] open with
    ancestors [es]; spans are invisible. *)
Definition dag_map := nat -> option (option (list nat)).
Definition dag h : dag_map := fun x =>
  match h !! x with
  | Some sc => match owner sc with
               | None => Some (if done sc then None else Some (edges sc))
               | Some _ => None
               end
  | None => None
  end.
Implicit Types (D : dag_map) (ro : nat -> option role).

Lemma dag_same_shape h h' : same_shape h h' -> forall x, dag h' x = dag h x.
Proof.
  intros Hsh x. specialize (Hsh x). unfold dag.
  destruct (h !! x), (h' !! x); try done. injection Hsh as -> -> ->. done.
Qed.

Lemma dag_insert_new h x lim ow es nm :
  h !! x = None ->
  forall y, dag (<[x := new_scope lim ow es nm]> h) y =
            match ow with None => upd (dag h) x (Some (Some es)) y | Some _ => dag h y end.
Proof.
  intros Hx y. unfold dag, upd. rewrite lookup_insert. destruct (decide (x = y)) as [->|Hne].
  - rewrite Hx. destruct ow; simpl; [done|]. by rewrite decide_True.
  - destruct ow; [done|]. by rewrite decide_False.
Qed.

Lemma dag_alter f s h sc :
  h !! s = Some sc -> owner sc = None -> owner (f sc) = None ->
  forall y, dag (alter f s h) y = upd (dag h) s (Some (if done (f sc) then None else Some (edges (f sc)))) y.
Proof.
  intros Hs Ho Hf y. unfold dag, upd. rewrite lookup_alter. destruct (decide (s = y)) as [<-|Hne].
  - by rewrite Hs, decide_True; simpl; [rewrite Hf|].
  - by rewrite decide_False.
Qed.

Lemma dag_alter_span f s h sc o o' :
  h !! s = Some sc -> owner sc = Some o -> owner (f sc) = Some o' -> forall y, dag (alter f s h) y = dag h y.
Proof.
  intros Hs Ho Hf y. unfold dag. rewrite lookup_alter. case_decide; [subst|done].
  by rewrite Hs; simpl; rewrite Ho, Hf.
Qed.

Lemma dag_open h x es :
  dag h x = Some (Some es) <->
  exists sc, h !! x = Some sc /\ owner sc = None /\ done sc = false /\ edges sc = es.
Proof.
  unfold dag. split.
  - destruct (h !! x) as [sc|]; [|done]. destruct (owner sc) eqn:Ho, (done sc) eqn:Hl; try done.
    intros [= <-]. by exists sc.
  - by intros (sc & -> & -> & -> & <-).
Qed.

Lemma dag_some h x v :
  dag h x = Some v -> exists sc, h !! x = Some sc /\ owner sc = None.
Proof.
  unfold dag. destruct (h !! x) as [sc|]; [|done]. destruct (owner sc) eqn:Ho; [done|]. by exists sc.
Qed.

(** ** Roles and edges *)

Definition conn_edges r ro (cs : connectionScope MA) (es : list nat) : Prop :=
  match cn_peer cs with
  | None =>
      if cn_isAllowlisted cs then es ≡ₚ [rm_allowlistedTransient r; rm_allowlistedSystem r]
      else es ≡ₚ [rm_transient r; rm_system r] \/ es = []
  | Some (p, s) =>
      ro s = Some (RPeer p) /\
      es = [s; if cn_isAllowlisted cs then rm_allowlistedSystem r else rm_system r]
  end.

Definition stream_edges r ro (ss : streamScope) (es : list nat) : Prop :=
  let '(p, s) := st_peer ss in
  ro s = Some (RPeer p) /\
  match st_proto ss, st_peerProtoScope ss, st_svc ss, st_peerSvcScope ss with
  | None, None, None, None => es = [s; rm_transient r; rm_system r]
  | Some (n, a), Some pp, None, None =>
      ro a = Some (RProto n) /\ ro pp = Some (RProtoPeer n p) /\ es = [s; pp; a; rm_system r]
  | Some (n, a), Some pp, Some (m, b), Some ps =>
      ro a = Some (RProto n) /\ ro pp = Some (RProtoPeer n p) /\
      ro b = Some (RSvc m) /\ ro ps = Some (RSvcPeer m p) /\ es = [s; pp; ps; a; b; rm_system r]
  | _, _, _, _ => False
  end.

(** What an ancestor of an open scope may be. *)
Definition edge_ok r ro (es : list nat) (e : nat) : Prop :=
  match ro e with
  | None | Some RConn | Some RStream => False
  | Some (RPeer p) => rm_peer r !! p = Some e
  | Some (RProtoPeer _ p) | Some (RSvcPeer _ p) => exists s, s ∈ es /\ ro s = Some (RPeer p)
  | Some _ => True
  end.

(** The addresses of the open connections the limiter knows about. *)
Definition open_ip D (x : nat * connectionScope MA) : option Addr :=
  match D x.1 with
  | Some (Some _) => if IsValid (cn_ip x.2) then Some (cn_ip x.2) else None
  | _ => None
  end.
Definition open_ips D (conns : gmap nat (connectionScope MA)) : list Addr :=
  omap (open_ip D) (map_to_list conns).

Record roots_ok r ro : Prop := {
  rt_system : ro (rm_system r) = Some RSystem;
  rt_transient : ro (rm_transient r) = Some RTransient;
  rt_asystem : ro (rm_allowlistedSystem r) = Some RAllowSystem;
  rt_atransient : ro (rm_allowlistedTransient r) = Some RAllowTransient;
}.

Record mgr_ok r D ro : Prop := {
  mo_roles : forall x, is_Some (ro x) <-> is_Some (D x);
  mo_roots : roots_ok r ro;
  mo_peer : forall p s, rm_peer r !! p = Some s -> ro s = Some (RPeer p) /\ exists es, D s = Some (Some es);
  mo_proto : forall n g, rm_proto r !! n = Some g -> ro (g_scope g) = Some (RProto n) /\
    forall p ps, g_peers g !! p = Some ps -> ro ps = Some (RProtoPeer n p);
  mo_svc : forall n g, rm_svc r !! n = Some g -> ro (g_scope g) = Some (RSvc n) /\
    forall p ps, g_peers g !! p = Some ps -> ro ps = Some (RSvcPeer n p);
  mo_edges : forall x es e, D x = Some (Some es) -> e ∈ es -> edge_ok r ro es e;
  mo_conns : forall c cs, rm_conns r !! c = Some cs -> ro c = Some RConn /\
    forall es, D c = Some (Some es) -> conn_edges r ro cs es;
  mo_streams : forall s ss, rm_streams r !! s = Some ss -> ro s = Some RStream /\
    forall es, D s = Some (Some es) -> stream_edges r ro ss es;
}.

(** The limits the manager hands out are sane. *)
Record lims_ok (lims : R) : Prop := {
  lk_system : lim_ok (GetSystemLimits lims : L);
  lk_transient : lim_ok (GetTransientLimits lims : L);
  lk_asystem : lim_ok (GetAllowlistedSystemLimits lims : L);
  lk_atransient : lim_ok (GetAllowlistedTransientLimits lims : L);
  lk_service : forall n, lim_ok (GetServiceLimits lims n : L);
  lk_service_peer : forall n, lim_ok (GetServicePeerLimits lims n : L);
  lk_protocol : forall n, lim_ok (GetProtocolLimits lims n : L);
  lk_protocol_peer : forall n, lim_ok (GetProtocolPeerLimits lims n : L);
  lk_peer : forall p, lim_ok (GetPeerLimits lims p : L);
  lk_stream : forall p, lim_ok (GetStreamLimits lims p : L);
  lk_conn : lim_ok (GetConnLimits lims : L);
}.

Definition limiter_ok (cl : connLimiter) (live : list Addr) : Prop :=
  limiter_inv cl live /\ Z.of_nat (length live) < MaxInt64.

(** The scopes handed out as connections and streams. *)
Definition is_handle r (x : nat) : Prop := is_Some (rm_conns r !! x) \/ is_Some (rm_streams r !! x).

#[export] Instance is_handle_dec r x : Decision (is_handle r x).
Proof. unfold is_handle. apply _. Defined.

(** Beyond what its open spans hold, an open scope of the manager carries what is booked. *)
Definition own_ok r (own : nat -> counter -> Z) : Prop :=
  (forall x c, dag (rm_heap r) x = None -> booked x c = 0) /\
  (forall x es c, dag (rm_heap r) x = Some (Some es) -> ~ is_handle r x -> free own c (rm_heap r) x = booked x c).

(** [pend] are connections the limiter counts that have no scope yet. *)
Record mgr_inv r own ext ro (pend : list Addr) : Prop := {
  mi_bal : balanced (mkLedger (rm_heap r) own ext);
  mi_ok : mgr_ok r (dag (rm_heap r)) ro;
  mi_lims : lims_ok (rm_limits r);
  mi_limiter : limiter_ok (rm_connLimiter r) (pend ++ open_ips (dag (rm_heap r)) (rm_conns r));
  mi_own : own_ok r own;
}.

Lemma open_ips_ext D D' conns :
  (forall c, is_Some (conns !! c) -> D c = D' c) -> open_ips D conns = open_ips D' conns.
Proof.
  intros HD. unfold open_ips. assert (forall x, x ∈ map_to_list conns -> D x.1 = D' x.1) as H.
  { intros [c cs] Hin%elem_of_map_to_list. apply HD. by eexists. }
  induction (map_to_list conns) as [|x l IH]; [done|].
  assert (open_ip D x = open_ip D' x) as E by (unfold open_ip; by rewrite (H x) by by left).
  assert (omap (open_ip D) l = omap (open_ip D') l) as E' by (apply IH; intros y Hy; apply H; by right).
  cbn. by rewrite E, E'.
Qed.

(** Changing the ancestors of an open scope does not open or close it. *)
Lemma open_ips_open D D' conns s es :
  (exists es0, D s = Some (Some es0)) -> (forall y, D' y = upd D s (Some (Some es)) y) ->
  open_ips D' conns = open_ips D conns.
Proof.
  intros [es0 Hs] HD. unfold open_ips. induction (map_to_list conns) as [|x l IH]; [done|].
  assert (open_ip D' x = open_ip D x) as E.
  { unfold open_ip. rewrite HD. unfold upd. case_decide as Hx; [rewrite Hx, Hs|]; done. }
  cbn. rewrite E. destruct (open_ip D x); [f_equal|]; exact IH.
Qed.

Lemma open_ips_split D conns c cs :
  conns !! c = Some cs ->
  open_ips D conns ≡ₚ match open_ip D (c, cs) with Some ip => [ip] | None => [] end ++ open_ips D (delete c conns).
Proof.
  intros Hc. unfold open_ips. rewrite <- (insert_delete_id conns c cs Hc) at 1.
  rewrite map_to_list_insert by apply lookup_delete_eq. simpl. by destruct (open_ip D (c, cs)).
Qed.

Lemma limiter_ok_perm cl l l' : l ≡ₚ l' -> limiter_ok cl l -> limiter_ok cl l'.
Proof.
  intros Hp [Hi Hl]. split; [intros b; by eapply fam_inv_perm|]. by rewrite <- (Permutation_length Hp).
Qed.

Lemma mgr_ok_dag_ext r D D' ro : (forall x, D x = D' x) -> mgr_ok r D ro -> mgr_ok r D' ro.
Proof.
  intros HD [H1 H2 H3 H4 H5 H6 H7 H8]. constructor; try done.
  - intros x. by rewrite <- HD.
  - intros p s Hp. rewrite <- HD. auto.
  - intros x es e Hx. rewrite <- HD in Hx. eauto.
  - intros c cs Hc. destruct (H7 c cs Hc) as [? H]. split; [done|]. intros es Hx. rewrite <- HD in Hx. auto.
  - intros c cs Hc. destruct (H8 c cs Hc) as [? H]. split; [done|]. intros es Hx. rewrite <- HD in Hx. auto.
Qed.

(** Only the heap changes. *)
Lemma mgr_ok_set_heap r D ro h : mgr_ok r D ro -> mgr_ok (set_heap h r) D ro.
Proof. intros [H1 [] H3 H4 H5 H6 H7 H8]. by constructor. Qed.

Lemma inv_set_heap_own r own ext own' ext' ro pend h :
  mgr_inv r own ext ro pend -> balanced (mkLedger h own' ext') -> (forall x, dag h x = dag (rm_heap r) x) ->
  own_ok (set_heap h r) own' -> mgr_inv (set_heap h r) own' ext' ro pend.
Proof.
  intros [H1 H2 H3 H4 H5] Hb Hd Ho. constructor; [done| |done| |done].
  - apply mgr_ok_set_heap. eapply mgr_ok_dag_ext; [|exact H2]. intros x. by rewrite Hd.
  - cbn [set_heap rm_connLimiter rm_heap rm_conns]. by rewrite (open_ips_ext _ (dag (rm_heap r))) by auto.
Qed.

(** The book stays right where neither the scopes nor what is free on them changes. *)
Lemma own_ok_free r own own' h :
  own_ok r own -> (forall x, dag h x = dag (rm_heap r) x) ->
  (forall x es c, dag (rm_heap r) x = Some (Some es) -> free own' c h x = free own c (rm_heap r) x) ->
  own_ok (set_heap h r) own'.
Proof.
  intros [O1 O2] Hd Hf. split; cbn [rm_heap set_heap].
  - intros x c. rewrite Hd. apply O1.
  - intros x es c. rewrite Hd. intros Hx Hn. rewrite (Hf x es c Hx). by apply (O2 x es c).
Qed.

Lemma inv_set_heap r own ext ext' ro pend h :
  mgr_inv r own ext ro pend -> balanced (mkLedger h own ext') -> (forall x, dag h x = dag (rm_heap r) x) ->
  (forall c x, span_sum c h x = span_sum c (rm_heap r) x) ->
  mgr_inv (set_heap h r) own ext' ro pend.
Proof.
  intros Hi Hb Hd Hs. eapply inv_set_heap_own; [done..|]. eapply own_ok_free; [apply Hi|done|].
  intros x es c _. unfold free. by rewrite Hs.
Qed.

Lemma inv_same_heap r own ext ro pend : mgr_inv r own ext ro pend -> mgr_inv (set_heap (rm_heap r) r) own ext ro pend.
Proof. intros Hi. eapply inv_set_heap; [done|apply Hi|done..]. Qed.

(** More scopes are connections or streams. *)
Lemma own_ok_handles r r' own :
  own_ok r own -> rm_heap r' = rm_heap r -> (forall x, is_handle r x -> is_handle r' x) -> own_ok r' own.
Proof. intros [O1 O2] Hh Hx. split; rewrite Hh; [done|]. intros x es c Hd Hn. apply (O2 x es c Hd). auto. Qed.

(** A new scope, or one that closes. *)
Lemma own_ok_upd r own own' h x v :
  own_ok r own -> (forall y, dag h y = upd (dag (rm_heap r)) x (Some v) y) -> same_spans (rm_heap r) h ->
  (forall y c, y <> x -> own' y c = own y c) ->
  (forall es c, v = Some es -> ~ is_handle r x -> free own' c (rm_heap r) x = booked x c) ->
  own_ok (set_heap h r) own'.
Proof.
  intros [O1 O2] Hd Hs Ho Hx. split; cbn [rm_heap set_heap].
  - intros y c. rewrite Hd. unfold upd. case_decide; [done|apply O1].
  - intros y es c. rewrite Hd, (free_same own' c (rm_heap r) h) by done. unfold upd. case_decide as Hy.
    + subst y. intros [= ->]. by apply (Hx es).
    + intros Hdy Hn. rewrite <- (O2 y es c Hdy Hn). unfold free. by rewrite Ho.
Qed.

(** ** Steps of the ledger *)

Lemma balanced_ext h own ext ext' :
  (forall x, ext x = ext' x) -> balanced (mkLedger h own ext) -> balanced (mkLedger h own ext').
Proof.
  intros E [Hi [A1 A2 A3 A4 A5 A6]]. split; [done|]. constructor; simpl in *; try done.
  - intros s Hs. rewrite <- E. auto.
  - intros e. rewrite <- E. auto.
  - intros e ec He. rewrite <- E. auto.
Qed.

Lemma bal_incref h own ext s sc :
  balanced (mkLedger h own ext) -> h !! s = Some sc -> owner sc = None ->
  balanced (mkLedger (alter (add_refCnt 1) s h) own (bump ext s 1)).
Proof. intros Hb Hs Ho. eapply gstep_balanced; [|exact Hb]. by eapply g_incref. Qed.

Lemma bal_decref h own ext s sc :
  balanced (mkLedger h own ext) -> h !! s = Some sc -> owner sc = None -> 0 < ext s ->
  balanced (mkLedger (alter (add_refCnt (-1)) s h) own (bump ext s (-1))).
Proof. intros Hb Hs Ho He. eapply gstep_balanced; [|exact Hb]. by eapply g_decref. Qed.

Lemma bump_undo ext s x : bump (bump ext s 1) s (-1) x = ext x.
Proof. unfold bump. case_decide; lia. Qed.

Lemma bal_heap_inv h own ext : balanced (mkLedger h own ext) -> heap_inv h.
Proof. by intros [H _]. Qed.

(** ** New scopes *)

Lemma edge_ok_extend r ro x rl es e :
  ro x = None -> edge_ok r ro es e -> edge_ok r (upd ro x (Some rl)) es e.
Proof.
  intros Hx. unfold edge_ok. destruct (decide (e = x)) as [->|Hne]; [by rewrite Hx|].
  rewrite upd_ne by done. destruct (ro e) as [[]|]; try done;
    intros (s & Hs & Hr); exists s; (split; [done|]); rewrite upd_ne; congruence.
Qed.

Lemma conn_edges_extend r ro x rl cs es :
  ro x = None -> conn_edges r ro cs es -> conn_edges r (upd ro x (Some rl)) cs es.
Proof.
  intros Hx. unfold conn_edges. destruct (cn_peer cs) as [[p s]|]; [|done].
  intros [Hs ?]. rewrite upd_ne by congruence. done.
Qed.

Lemma stream_edges_extend r ro x rl ss es :
  ro x = None -> stream_edges r ro ss es -> stream_edges r (upd ro x (Some rl)) ss es.
Proof.
  intros Hx. unfold stream_edges. destruct (st_peer ss) as [p s].
  intros [Hs H]. rewrite upd_ne by congruence. split; [done|]. revert H.
  destruct (st_proto ss) as [[n a]|], (st_peerProtoScope ss) as [pp|], (st_svc ss) as [[m b]|],
    (st_peerSvcScope ss) as [ps|]; try done.
  - intros (? & ? & ? & ? & ?). rewrite !upd_ne by congruence. done.
  - intros (? & ? & ?). rewrite !upd_ne by congruence. done.
Qed.

Lemma mgr_ok_new r D ro x rl es :
  mgr_ok r D ro -> D x = None -> (forall e, e ∈ es -> edge_ok r ro es e) ->
  mgr_ok r (upd D x (Some (Some es))) (upd ro x (Some rl)).
Proof.
  intros [H1 [R1 R2 R3 R4] H3 H4 H5 H6 H7 H8] Hx Hes.
  assert (ro x = None) as Hr.
  { destruct (ro x) eqn:E; [|done]. destruct (proj1 (H1 x)) as [? ?]; [by eexists|congruence]. }
  assert (forall y v, ro y = Some v -> upd ro x (Some rl) y = Some v) as Hup.
  { intros y v Hy. rewrite upd_ne; congruence. }
  constructor.
  - intros y. unfold upd. case_decide; [by split; eexists|apply H1].
  - by constructor; apply Hup.
  - intros p s Hp. destruct (H3 p s Hp) as [Hs Ho]. split; [by apply Hup|]. rewrite upd_ne; [done|congruence].
  - intros n g Hg. destruct (H4 n g Hg) as [? Hps]. split; [by apply Hup|]. intros p ps Hp. by apply Hup, Hps.
  - intros n g Hg. destruct (H5 n g Hg) as [? Hps]. split; [by apply Hup|]. intros p ps Hp. by apply Hup, Hps.
  - intros y es' e. unfold upd at 1. case_decide; intros Hy He; apply edge_ok_extend; try done; [|eauto].
    injection Hy as <-. auto.
  - intros c cs Hc. destruct (H7 c cs Hc) as [Hcr Hce]. split; [by apply Hup|]. intros es'.
    rewrite upd_ne by congruence. intros He. apply conn_edges_extend; auto.
  - intros c cs Hc. destruct (H8 c cs Hc) as [Hcr Hce]. split; [by apply Hup|]. intros es'.
    rewrite upd_ne by congruence. intros He. apply stream_edges_extend; auto.
Qed.

Lemma role_scope r own ext ro pend x rl :
  mgr_inv r own ext ro pend -> ro x = Some rl -> exists sc, rm_heap r !! x = Some sc /\ owner sc = None.
Proof.
  intros Hi Hx. destruct (proj1 (mo_roles _ _ _ (mi_ok _ _ _ _ _ Hi) x)) as [v Hv]; [by eexists|].
  by eapply dag_some.
Qed.

Definition keeps h h' : Prop := forall x sc, h !! x = Some sc ->
  exists sc', h' !! x = Some sc' /\ rc sc' = rc sc /\ shape sc' = shape sc.

Lemma keeps_refl h : keeps h h.
Proof. intros x sc Hx. by exists sc. Qed.
Lemma keeps_trans h1 h2 h3 : keeps h1 h2 -> keeps h2 h3 -> keeps h1 h3.
Proof.
  intros K1 K2 x sc Hx. destruct (K1 x sc Hx) as (sc2 & H2 & E1 & E2).
  destruct (K2 x sc2 H2) as (sc3 & H3 & E3 & E4). exists sc3. split_and!; congruence.
Qed.
Lemma keeps_alter_ref n s h : keeps h (alter (add_refCnt n) s h).
Proof.
  intros x sc Hx. rewrite lookup_alter. case_decide; [subst; rewrite Hx|by exists sc].
  by exists (add_refCnt n sc).
Qed.
Lemma keeps_alter_refs n ts h : NoDup ts -> keeps h (alter_all (add_refCnt n) ts h).
Proof.
  intros Hnd x sc Hx. rewrite alter_all_lookup, Hx by done. case_decide; [|by exists sc].
  by exists (add_refCnt n sc).
Qed.
Lemma keeps_insert h x sc : h !! x = None -> keeps h (<[x := sc]> h).
Proof. intros Hx y yc Hy. exists yc. rewrite lookup_insert_ne; [done|congruence]. Qed.

Lemma newResourceScope_inv r own ext ro pend lim es nm rl :
  mgr_inv r own ext ro pend -> lim_ok lim -> NoDup es ->
  (forall e, e ∈ es -> edge_ok r ro es e) ->
  exists x h', newResourceScope lim es nm (rm_heap r) = Some (x, h') /\
    rm_heap r !! x = None /\ ro x = None /\ dag h' x = Some (Some es) /\ keeps (rm_heap r) h' /\
    mgr_inv (set_heap h' r) own ext (upd ro x (Some rl)) pend.
Proof.
  intros [Hb Hok Hl Hlim Hown] Hlm Hnd Hes. set (h := rm_heap r) in *.
  assert (edges_valid h es) as Hval.
  { split; [done|]. intros e He. specialize (Hes e He). unfold edge_ok in Hes.
    destruct (proj1 (mo_roles _ _ _ Hok e)) as [v Hv]; [by destruct (ro e); [eexists|]|].
    by eapply dag_some. }
  pose proof (newResourceScope_spec lim es nm h) as Hspec. cbv zeta in Hspec.
  set (h1 := alter_all (add_refCnt 1) es h) in *. set (x := fresh_addr h1) in *.
  assert (h1 !! x = None) as Hx1 by apply fresh_addr_None.
  assert (same_shape h h1) as Hsh by by apply same_shape_alter_all.
  assert (h !! x = None) as Hx.
  { specialize (Hsh x). rewrite Hx1 in Hsh. by destruct (h !! x). }
  assert (dag h x = None) as Hdx by (unfold dag; by rewrite Hx).
  assert (forall y, dag (<[x:=new_scope lim None es nm]> h1) y = upd (dag h) x (Some (Some es)) y) as Hdag.
  { intros y. rewrite (dag_insert_new h1 x) by done. unfold upd. case_decide; [done|].
    by apply dag_same_shape. }
  exists x, (<[x := new_scope lim None es nm]> h1). split_and!; [done|done| | | |].
  - destruct (ro x) eqn:E; [|done]. destruct (proj1 (mo_roles _ _ _ Hok x)) as [? ?]; [by eexists|congruence].
  - by rewrite Hdag, upd_eq.
  - eapply keeps_trans; [by apply (keeps_alter_refs 1 es)|by apply keeps_insert].
  - constructor.
    + eapply gstep_balanced; [|exact Hb]. by eapply g_new.
    + apply mgr_ok_set_heap. eapply mgr_ok_dag_ext; [intros y; symmetry; apply Hdag|]. by apply mgr_ok_new.
    + done.
    + cbn [set_heap rm_connLimiter rm_heap rm_conns].
      rewrite (open_ips_ext _ (dag h)); [done|]. intros c [cs Hc]. rewrite Hdag, upd_ne; [done|].
      intros ->. destruct (mo_conns _ _ _ Hok x cs Hc) as [Hr _].
      destruct (proj1 (mo_roles _ _ _ Hok x)) as [? ?]; [by eexists|congruence].
    + eapply own_ok_upd; [exact Hown|exact Hdag|by apply (same_spans_new h lim es nm x)|done|].
      intros es' c _ _. rewrite (proj1 Hown x c Hdx). destruct Hb as [Hinv Ha]. cbn in Ha, Hinv.
      destruct (ac_fresh _ _ _ Ha x Hx) as [Ho _]. unfold free. rewrite Ho, (span_sum_dangling h x); [done|apply Hinv|done].
Qed.

Lemma IncRef_inv r own ext ro pend s rl :
  mgr_inv r own ext ro pend -> ro s = Some rl ->
  mgr_inv (set_heap (alter (add_refCnt 1) s (rm_heap r)) r) own (bump ext s 1) ro pend.
Proof.
  intros Hi Hs. destruct (role_scope r own ext ro pend s rl Hi Hs) as (sc & Hsc & Ho).
  eapply inv_set_heap; [done| | |].
  - eapply bal_incref; [apply Hi|done..].
  - apply dag_same_shape. by apply same_shape_alter.
  - intros c x. by apply span_sum_same, same_spans_alter.
Qed.

Lemma DecRef_inv r own ext ro pend s rl :
  mgr_inv r own ext ro pend -> ro s = Some rl -> 0 < ext s ->
  mgr_inv (set_heap (alter (add_refCnt (-1)) s (rm_heap r)) r) own (bump ext s (-1)) ro pend.
Proof.
  intros Hi Hs He. destruct (role_scope r own ext ro pend s rl Hi Hs) as (sc & Hsc & Ho).
  eapply inv_set_heap; [done| | |].
  - eapply bal_decref; [apply Hi|done..].
  - apply dag_same_shape. by apply same_shape_alter.
  - intros c x. by apply span_sum_same, same_spans_alter.
Qed.

Lemma inv_ext r own ext ext' ro pend :
  (forall x, ext x = ext' x) -> mgr_inv r own ext ro pend -> mgr_inv r own ext' ro pend.
Proof. intros E [H1 H2 H3 H4 H5]. constructor; try done. by eapply balanced_ext. Qed.

(** ** Looking up scopes *)

Definition extends ro ro' : Prop := forall x v, ro x = Some v -> ro' x = Some v.

Lemma extends_refl ro : extends ro ro.
Proof. by intros x v. Qed.
Lemma extends_upd ro x rl : ro x = None -> extends ro (upd ro x (Some rl)).
Proof. intros Hx y v Hy. rewrite upd_ne; congruence. Qed.
Lemma extends_trans ro1 ro2 ro3 : extends ro1 ro2 -> extends ro2 ro3 -> extends ro1 ro3.
Proof. intros H1 H2 x v Hx. auto. Qed.

Definition group_ok ro (mk : string -> role) (mkp : string -> string -> role) (m : gmap string groupScope) : Prop :=
  forall n g, m !! n = Some g -> ro (g_scope g) = Some (mk n) /\
    forall p ps, g_peers g !! p = Some ps -> ro ps = Some (mkp n p).

Lemma group_ok_insert ro mk mkp m n g :
  group_ok ro mk mkp m -> ro (g_scope g) = Some (mk n) ->
  (forall p ps, g_peers g !! p = Some ps -> ro ps = Some (mkp n p)) -> group_ok ro mk mkp (<[n := g]> m).
Proof. intros Hm Hg Hp n' g' [[<- <-]|[_ Hg']]%lookup_insert_Some; [done|by apply Hm]. Qed.

Lemma mgr_ok_scopes r D ro svc proto peer :
  mgr_ok r D ro -> group_ok ro RSvc RSvcPeer svc -> group_ok ro RProto RProtoPeer proto ->
  (forall p s, peer !! p = Some s -> ro s = Some (RPeer p) /\ exists es, D s = Some (Some es)) ->
  (forall x es e p, D x = Some (Some es) -> e ∈ es -> ro e = Some (RPeer p) -> peer !! p = Some e) ->
  mgr_ok (set_scopes svc proto peer r) D ro.
Proof.
  intros [H1 [] H3 H4 H5 H6 H7 H8] Hsvc Hproto Hpeer Hedge. constructor; try done.
  intros x es e Hx He. specialize (H6 x es e Hx He). unfold edge_ok in *.
  destruct (ro e) as [[]|] eqn:Hr; try done. by eapply Hedge.
Qed.

Lemma inv_scopes r own ext ro pend svc proto peer :
  mgr_inv r own ext ro pend -> group_ok ro RSvc RSvcPeer svc -> group_ok ro RProto RProtoPeer proto ->
  (forall p s, peer !! p = Some s ->
     ro s = Some (RPeer p) /\ exists es, dag (rm_heap r) s = Some (Some es)) ->
  (forall x es e p, dag (rm_heap r) x = Some (Some es) -> e ∈ es -> ro e = Some (RPeer p) -> peer !! p = Some e) ->
  mgr_inv (set_scopes svc proto peer r) own ext ro pend.
Proof. intros [H1 H2 H3 H4 H5] ? ? ? ?. constructor; try done. by apply mgr_ok_scopes. Qed.

Lemma peer_edges r D ro x es e p :
  mgr_ok r D ro -> D x = Some (Some es) -> e ∈ es -> ro e = Some (RPeer p) -> rm_peer r !! p = Some e.
Proof. intros Hok Hx He Hr. pose proof (mo_edges _ _ _ Hok x es e Hx He) as H. unfold edge_ok in H. by rewrite Hr in H. Qed.

Lemma system_edge_ok r ro own ext pend :
  mgr_inv r own ext ro pend -> forall e, e ∈ [rm_system r] -> edge_ok r ro [rm_system r] e.
Proof.
  intros Hi e ->%list_elem_of_singleton. unfold edge_ok.
  by rewrite (rt_system _ _ (mo_roots _ _ _ (mi_ok _ _ _ _ _ Hi))).
Qed.

Lemma getPeerScope_inv p r own ext ro pend :
  mgr_inv r own ext ro pend ->
  exists s h' m' ro',
    getPeerScope show_peer p r = Some (s, set_scopes (rm_svc r) (rm_proto r) m' (set_heap h' r)) /\
    mgr_inv (set_scopes (rm_svc r) (rm_proto r) m' (set_heap h' r)) own (bump ext s 1) ro' pend /\
    extends ro ro' /\ ro' s = Some (RPeer p) /\ m' !! p = Some s /\ keeps (rm_heap r) h'.
Proof.
  intros Hi. pose proof (mi_ok _ _ _ _ _ Hi) as Hok. unfold getPeerScope, rbind, gets.
  destruct (rm_peer r !! p) as [s|] eqn:Hp.
  - destruct (mo_peer _ _ _ Hok p s Hp) as [Hs _].
    exists s, (alter (add_refCnt 1) s (rm_heap r)), (rm_peer r), ro. split_and!; [done| |apply extends_refl|done|done|].
    + exact (IncRef_inv r own ext ro pend s _ Hi Hs).
    + apply keeps_alter_ref.
  - destruct (newResourceScope_inv r own ext ro pend (GetPeerLimits (rm_limits r) p) [rm_system r]
               (peerScopeName show_peer p) (RPeer p)) as (s & h1 & Hnew & Hfr & Hnone & Hdag & Hk & Hi1);
      [done|apply Hi|apply NoDup_singleton|by eapply system_edge_ok|].
    unfold newPeerScope, rbind, gets, lift. cbn [rm_heap set_heap rm_system rret]. rewrite Hnew.
    set (ro1 := upd ro s (Some (RPeer p))) in *. set (r1 := set_heap h1 r) in *.
    pose proof (mi_ok _ _ _ _ _ Hi1) as Hok1.
    assert (mgr_inv (set_scopes (rm_svc r1) (rm_proto r1) (<[p := s]> (rm_peer r1)) r1) own ext ro1 pend) as Hi2.
    { apply inv_scopes; [done|exact (mo_svc _ _ _ Hok1)|exact (mo_proto _ _ _ Hok1)| |].
      - intros q t [[<- <-]|[_ Ht]]%lookup_insert_Some; [|by apply Hok1].
        split; [apply upd_eq|by eexists].
      - intros x es e q Hx He Hr. pose proof (peer_edges _ _ _ _ _ _ _ Hok1 Hx He Hr) as Hq.
        rewrite lookup_insert_ne; [done|]. intros <-. cbn in Hq. congruence. }
    exists s, (alter (add_refCnt 1) s h1), (<[p := s]> (rm_peer r)), ro1. split_and!; [done| | | | |].
    + refine (IncRef_inv _ own ext ro1 pend s (RPeer p) Hi2 _). apply upd_eq.
    + by apply extends_upd.
    + apply upd_eq.
    + by rewrite lookup_insert_eq.
    + eapply keeps_trans; [exact Hk|apply keeps_alter_ref].
Qed.

Lemma getProtocolScope_inv n r own ext ro pend :
  mgr_inv r own ext ro pend ->
  exists s h' m' ro',
    getProtocolScope n r = Some (s, set_scopes (rm_svc r) m' (rm_peer r) (set_heap h' r)) /\
    mgr_inv (set_scopes (rm_svc r) m' (rm_peer r) (set_heap h' r)) own (bump ext s 1) ro' pend /\
    extends ro ro' /\ ro' s = Some (RProto n) /\
    (exists g, m' !! n = Some g /\ g_scope g = s) /\ keeps (rm_heap r) h'.
Proof.
  intros Hi. pose proof (mi_ok _ _ _ _ _ Hi) as Hok. unfold getProtocolScope, rbind, gets.
  destruct (rm_proto r !! n) as [g|] eqn:Hp.
  - destruct (mo_proto _ _ _ Hok n g Hp) as [Hs _].
    exists (g_scope g), (alter (add_refCnt 1) (g_scope g) (rm_heap r)), (rm_proto r), ro. split_and!; [done| |apply extends_refl|done| |].
    + exact (IncRef_inv r own ext ro pend (g_scope g) _ Hi Hs).
    + by exists g.
    + apply keeps_alter_ref.
  - destruct (newResourceScope_inv r own ext ro pend (GetProtocolLimits (rm_limits r) n) [rm_system r]
               ("protocol:" +:+ n) (RProto n)) as (s & h1 & Hnew & Hfr & Hnone & Hdag & Hk & Hi1);
      [done|apply Hi|apply NoDup_singleton|by eapply system_edge_ok|].
    unfold newProtocolScope, rbind, gets, lift. cbn [rm_heap set_heap rm_system rret]. rewrite Hnew.
    set (ro1 := upd ro s (Some (RProto n))) in *. set (r1 := set_heap h1 r) in *.
    pose proof (mi_ok _ _ _ _ _ Hi1) as Hok1.
    assert (mgr_inv (set_scopes (rm_svc r1) (<[n := mkGroup s ∅]> (rm_proto r1)) (rm_peer r1) r1) own ext ro1 pend) as Hi2.
    { apply inv_scopes; [done|exact (mo_svc _ _ _ Hok1)| |apply Hok1|].
      - apply group_ok_insert; [exact (mo_proto _ _ _ Hok1)|apply upd_eq|]. intros q ps. cbn [g_peers]. by rewrite lookup_empty.
      - intros x es e q. apply peer_edges, Hok1. }
    exists s, (alter (add_refCnt 1) s h1), (<[n := mkGroup s ∅]> (rm_proto r)), ro1. split_and!; [done| | | | |].
    + refine (IncRef_inv _ own ext ro1 pend s (RProto n) Hi2 _). apply upd_eq.
    + by apply extends_upd.
    + apply upd_eq.
    + exists (mkGroup s ∅). by rewrite lookup_insert_eq.
    + eapply keeps_trans; [exact Hk|apply keeps_alter_ref].
Qed.

Lemma getServiceScope_inv n r own ext ro pend :
  mgr_inv r own ext ro pend ->
  exists s h' m' ro',
    getServiceScope n r = Some (s, set_scopes m' (rm_proto r) (rm_peer r) (set_heap h' r)) /\
    mgr_inv (set_scopes m' (rm_proto r) (rm_peer r) (set_heap h' r)) own (bump ext s 1) ro' pend /\
    extends ro ro' /\ ro' s = Some (RSvc n) /\
    (exists g, m' !! n = Some g /\ g_scope g = s) /\ keeps (rm_heap r) h'.
Proof.
  intros Hi. pose proof (mi_ok _ _ _ _ _ Hi) as Hok. unfold getServiceScope, rbind, gets.
  destruct (rm_svc r !! n) as [g|] eqn:Hp.
  - destruct (mo_svc _ _ _ Hok n g Hp) as [Hs _].
    exists (g_scope g), (alter (add_refCnt 1) (g_scope g) (rm_heap r)), (rm_svc r), ro. split_and!; [done| |apply extends_refl|done| |].
    + exact (IncRef_inv r own ext ro pend (g_scope g) _ Hi Hs).
    + by exists g.
    + apply keeps_alter_ref.
  - destruct (newResourceScope_inv r own ext ro pend (GetServiceLimits (rm_limits r) n) [rm_system r]
               ("service:" +:+ n) (RSvc n)) as (s & h1 & Hnew & Hfr & Hnone & Hdag & Hk & Hi1);
      [done|apply Hi|apply NoDup_singleton|by eapply system_edge_ok|].
    unfold newServiceScope, rbind, gets, lift. cbn [rm_heap set_heap rm_system rret]. rewrite Hnew.
    set (ro1 := upd ro s (Some (RSvc n))) in *. set (r1 := set_heap h1 r) in *.
    pose proof (mi_ok _ _ _ _ _ Hi1) as Hok1.
    assert (mgr_inv (set_scopes (<[n := mkGroup s ∅]> (rm_svc r1)) (rm_proto r1) (rm_peer r1) r1) own ext ro1 pend) as Hi2.
    { apply inv_scopes; [done| |exact (mo_proto _ _ _ Hok1)|apply Hok1|].
      - apply group_ok_insert; [exact (mo_svc _ _ _ Hok1)|apply upd_eq|]. intros q ps. cbn [g_peers]. by rewrite lookup_empty.
      - intros x es e q. apply peer_edges, Hok1. }
    exists s, (alter (add_refCnt 1) s h1), (<[n := mkGroup s ∅]> (rm_svc r)), ro1. split_and!; [done| | | | |].
    + refine (IncRef_inv _ own ext ro1 pend s (RSvc n) Hi2 _). apply upd_eq.
    + by apply extends_upd.
    + apply upd_eq.
    + exists (mkGroup s ∅). by rewrite lookup_insert_eq.
    + eapply keeps_trans; [exact Hk|apply keeps_alter_ref].
Qed.

(** *** Per-peer scopes of protocols and services *)

Lemma fresh_addr_le h n : (forall k, is_Some (h !! k) -> (k < n)%nat) -> (fresh_addr h <= n)%nat.
Proof.
  unfold fresh_addr. induction h as [|k v m Hk IH] using map_ind; intros H; [rewrite map_fold_empty; lia|].
  rewrite map_fold_insert_L; [|intros; lia|done].
  assert (k < n)%nat by (apply H; rewrite lookup_insert_eq; by eexists).
  assert (map_fold (fun k _ acc => Nat.max (S k) acc) 0%nat m <= n)%nat; [|lia].
  apply IH. intros j Hj. apply H. destruct (decide (j = k)) as [->|]; [rewrite lookup_insert_eq; by eexists|].
  by rewrite lookup_insert_ne.
Qed.

Lemma fresh_addr_alter f s h : fresh_addr (alter f s h) = fresh_addr h.
Proof.
  apply Nat.le_antisymm; apply fresh_addr_le; intros k.
  - rewrite alter_is_some. intros [sc Hk]. by eapply fresh_addr_gt.
  - rewrite <- (alter_is_some f h s). intros [sc Hk]. by eapply fresh_addr_gt.
Qed.

Lemma insert_alter_comm {A} (f : A -> A) a x v (h : gmap nat A) :
  a <> x -> <[x := v]> (alter f a h) = alter f a (<[x := v]> h).
Proof.
  intros Hne. apply map_eq. intros y. destruct (decide (y = x)) as [->|Hx].
  - by rewrite lookup_insert_eq, lookup_alter_ne, lookup_insert_eq.
  - rewrite lookup_insert_ne by done. destruct (decide (y = a)) as [->|Ha].
    + by rewrite !lookup_alter_eq, lookup_insert_ne.
    + by rewrite !lookup_alter_ne, lookup_insert_ne.
Qed.

Lemma newResourceScope_orphan lim nm h :
  newResourceScope lim [] nm h = Some (fresh_addr h, <[fresh_addr h := new_scope lim None [] nm]> h).
Proof. apply newResourceScope_spec. Qed.

(** The lookup commutes with a reservation made on another scope in between. *)
Lemma protocol_getPeerScope_inv n p r own ext ro pend g :
  mgr_inv r own ext ro pend -> rm_proto r !! n = Some g ->
  exists ps h' m' ro',
    (forall f a S, is_Some (rm_heap r !! a) ->
       protocol_getPeerScope show_peer n p (set_streams S (set_heap (alter (map_rc f) a (rm_heap r)) r)) =
       Some (ps, set_streams S (set_scopes (rm_svc r) m' (rm_peer r) (set_heap (alter (map_rc f) a h') r)))) /\
    mgr_inv (set_scopes (rm_svc r) m' (rm_peer r) (set_heap h' r)) own (bump ext ps 1) ro' pend /\
    extends ro ro' /\ ro' ps = Some (RProtoPeer n p) /\ keeps (rm_heap r) h'.
Proof.
  intros Hi Hg. pose proof (mi_ok _ _ _ _ _ Hi) as Hok. destruct (mo_proto _ _ _ Hok n g Hg) as [Hgs Hgp].
  destruct (role_scope r own ext ro pend _ _ Hi Hgs) as (gsc & Hgsc & _).
  destruct (g_peers g !! p) as [ps|] eqn:Hp.
  - exists ps, (alter (add_refCnt 1) ps (rm_heap r)), (rm_proto r), ro. split_and!.
    + intros f a S Ha. unfold protocol_getPeerScope, rbind, gets, need. cbn. rewrite Hg, Hp.
      unfold lift, IncRef, modify. cbn. by rewrite (alter_comm (add_refCnt 1) (map_rc f)).
    + exact (IncRef_inv r own ext ro pend ps _ Hi (Hgp p ps Hp)).
    + apply extends_refl.
    + auto.
    + apply keeps_alter_ref.
  - destruct (newResourceScope_inv r own ext ro pend (GetProtocolPeerLimits (rm_limits r) n) []
               (name gsc +:+ ".peer:" +:+ show_peer p) (RProtoPeer n p))
      as (ps & h1 & Hnew & Hfr & Hnone & Hdag & Hk & Hi1);
      [done|apply Hi|apply NoDup_nil_2|by intros e ?%elem_of_nil|].
    set (ro1 := upd ro ps (Some (RProtoPeer n p))) in *. set (r1 := set_heap h1 r) in *.
    pose proof (mi_ok _ _ _ _ _ Hi1) as Hok1. pose proof (extends_upd ro ps (RProtoPeer n p) Hnone) as Hext.
    set (m' := <[n := mkGroup (g_scope g) (<[p := ps]> (g_peers g))]> (rm_proto r)).
    exists ps, (alter (add_refCnt 1) ps h1), m', ro1. split_and!; [| |done|apply upd_eq|].
    + intros f a S Ha. unfold protocol_getPeerScope, rbind, gets, need. cbn [rm_proto rm_svc set_streams set_heap].
      rewrite Hg. cbn [g_peers]. rewrite Hp. unfold lift, get_scope. cbn [rm_heap set_heap set_streams].
      assert (exists sc, alter (map_rc f) a (rm_heap r) !! g_scope g = Some sc /\ name sc = name gsc) as (sc & -> & Hnm).
      { rewrite lookup_alter. case_decide; [subst|by eauto]. rewrite Hgsc. by eexists. }
      cbn [rm_heap set_heap set_streams rm_limits]. rewrite Hnm, newResourceScope_orphan, fresh_addr_alter.
      rewrite newResourceScope_orphan in Hnew. injection Hnew as <- <-.
      unfold IncRef, modify. cbn.
      rewrite insert_alter_comm by (intros ->; destruct Ha; congruence).
      by rewrite (alter_comm (add_refCnt 1) (map_rc f)).
    + assert (mgr_inv (set_scopes (rm_svc r1) m' (rm_peer r1) r1) own ext ro1 pend) as Hi2.
      { apply inv_scopes; [done|exact (mo_svc _ _ _ Hok1)| |apply Hok1|].
        - apply group_ok_insert; [exact (mo_proto _ _ _ Hok1)|by apply Hext|].
          intros q t. cbn [g_peers]. intros [[<- <-]|[_ Ht]]%lookup_insert_Some; [apply upd_eq|]. by apply Hext, Hgp.
        - intros x es e q. apply peer_edges, Hok1. }
      refine (IncRef_inv _ own ext ro1 pend ps (RProtoPeer n p) Hi2 _). apply upd_eq.
    + eapply keeps_trans; [exact Hk|apply keeps_alter_ref].
Qed.

Lemma service_getPeerScope_inv n p r own ext ro pend g :
  mgr_inv r own ext ro pend -> rm_svc r !! n = Some g ->
  exists ps h' m' ro',
    (forall f a S, is_Some (rm_heap r !! a) ->
       service_getPeerScope show_peer n p (set_streams S (set_heap (alter (map_rc f) a (rm_heap r)) r)) =
       Some (ps, set_streams S (set_scopes m' (rm_proto r) (rm_peer r) (set_heap (alter (map_rc f) a h') r)))) /\
    mgr_inv (set_scopes m' (rm_proto r) (rm_peer r) (set_heap h' r)) own (bump ext ps 1) ro' pend /\
    extends ro ro' /\ ro' ps = Some (RSvcPeer n p) /\ keeps (rm_heap r) h'.
Proof.
  intros Hi Hg. pose proof (mi_ok _ _ _ _ _ Hi) as Hok. destruct (mo_svc _ _ _ Hok n g Hg) as [Hgs Hgp].
  destruct (role_scope r own ext ro pend _ _ Hi Hgs) as (gsc & Hgsc & _).
  destruct (g_peers g !! p) as [ps|] eqn:Hp.
  - exists ps, (alter (add_refCnt 1) ps (rm_heap r)), (rm_svc r), ro. split_and!.
    + intros f a S Ha. unfold service_getPeerScope, rbind, gets, need. cbn. rewrite Hg, Hp.
      unfold lift, IncRef, modify. cbn. by rewrite (alter_comm (add_refCnt 1) (map_rc f)).
    + exact (IncRef_inv r own ext ro pend ps _ Hi (Hgp p ps Hp)).
    + apply extends_refl.
    + auto.
    + apply keeps_alter_ref.
  - destruct (newResourceScope_inv r own ext ro pend (GetServicePeerLimits (rm_limits r) n) []
               (name gsc +:+ ".peer:" +:+ show_peer p) (RSvcPeer n p))
      as (ps & h1 & Hnew & Hfr & Hnone & Hdag & Hk & Hi1);
      [done|apply Hi|apply NoDup_nil_2|by intros e ?%elem_of_nil|].
    set (ro1 := upd ro ps (Some (RSvcPeer n p))) in *. set (r1 := set_heap h1 r) in *.
    pose proof (mi_ok _ _ _ _ _ Hi1) as Hok1. pose proof (extends_upd ro ps (RSvcPeer n p) Hnone) as Hext.
    set (m' := <[n := mkGroup (g_scope g) (<[p := ps]> (g_peers g))]> (rm_svc r)).
    exists ps, (alter (add_refCnt 1) ps h1), m', ro1. split_and!; [| |done|apply upd_eq|].
    + intros f a S Ha. unfold service_getPeerScope, rbind, gets, need. cbn [rm_proto rm_svc set_streams set_heap].
      rewrite Hg. cbn [g_peers]. rewrite Hp. unfold lift, get_scope. cbn [rm_heap set_heap set_streams].
      assert (exists sc, alter (map_rc f) a (rm_heap r) !! g_scope g = Some sc /\ name sc = name gsc) as (sc & -> & Hnm).
      { rewrite lookup_alter. case_decide; [subst|by eauto]. rewrite Hgsc. by eexists. }
      cbn [rm_heap set_heap set_streams rm_limits]. rewrite Hnm, newResourceScope_orphan, fresh_addr_alter.
      rewrite newResourceScope_orphan in Hnew. injection Hnew as <- <-.
      unfold IncRef, modify. cbn.
      rewrite insert_alter_comm by (intros ->; destruct Ha; congruence).
      by rewrite (alter_comm (add_refCnt 1) (map_rc f)).
    + assert (mgr_inv (set_scopes m' (rm_proto r1) (rm_peer r1) r1) own ext ro1 pend) as Hi2.
      { apply inv_scopes; [done| |exact (mo_proto _ _ _ Hok1)|apply Hok1|].
        - apply group_ok_insert; [exact (mo_svc _ _ _ Hok1)|by apply Hext|].
          intros q t. cbn [g_peers]. intros [[<- <-]|[_ Ht]]%lookup_insert_Some; [apply upd_eq|]. by apply Hext, Hgp.
        - intros x es e q. apply peer_edges, Hok1. }
      refine (IncRef_inv _ own ext ro1 pend ps (RSvcPeer n p) Hi2 _). apply upd_eq.
    + eapply keeps_trans; [exact Hk|apply keeps_alter_ref].
Qed.
End inv.
