(* ===== verification/RcmgrOps.v ===== *)
(** * Operations of the resource manager keep its invariant

    For every operation of [Rcmgr]: it returns (no panic), and it takes a state
    that satisfies [RcmgrInv.mgr_inv] to one that does. *)

From stdpp Require Import base gmap list strings fin_maps relations.
From Stdlib Require Import ZArith Lia.
From S2P Require Import Prelude Limits Resources Scope ScopeFacts ScopeInv ScopeAccount ScopeLedger ScopeSpans ConnLimiter Rcmgr RcmgrInv.

Section ops_inv.
Context {users : Book}.
Context {L : Type} `{!Limit L} {R : Type} `{!Limiter R L}.
Context {MA AL : Type} `{!AllowlistI AL MA} `{!EndpointI MA}.
Context (show_peer : string -> string).
Abbreviation mgr := (resourceManager L R MA AL).
Abbreviation act := (MR L R MA AL).
Implicit Types (r : mgr) (h : heap L) (sc : resourceScope L) (own : nat -> counter -> Z) (ext : nat -> Z).
Implicit Types (ro : nat -> option role).

(** ** Running the monad *)

Lemma rbind_eq {A B} (m : act A) (k : A -> act B) r a r' : m r = Some (a, r') -> rbind m k r = k a r'.
Proof. intros H. unfold rbind. by rewrite H. Qed.
Lemma lift_eq {A} (m : M L A) r a h : m (rm_heap r) = Some (a, h) -> lift m r = Some (a, set_heap h r).
Proof. intros H. unfold lift. by rewrite H. Qed.
Lemma rbind_lift {A B} (m : M L A) (k : A -> act B) r a h :
  m (rm_heap r) = Some (a, h) -> rbind (lift m) k r = k a (set_heap h r).
Proof. intros H. by apply rbind_eq, lift_eq. Qed.
Lemma rbind_gets {A B} (f : mgr -> A) (k : A -> act B) r : rbind (gets f) k r = k (f r) r.
Proof. done. Qed.
Lemma rbind_update {B} f (k : unit -> act B) r : rbind (update f) k r = k tt (f r).
Proof. done. Qed.

Lemma conn_at_eq {B} r c cs (k : connectionScope MA -> act B) :
  rm_conns r !! c = Some cs -> rbind (conn_at c) k r = k cs r.
Proof. intros Hc. unfold conn_at, rbind, gets, need. by rewrite Hc. Qed.

(** ** Handles have no children *)

Lemma handle_childless r own ext ro pend c :
  mgr_inv r own ext ro pend -> ro c = Some RConn \/ ro c = Some RStream -> childless (rm_heap r) c.
Proof.
  intros Hi Hc k kc Hk. destruct (child_of c kc) eqn:Hch; [|done]. exfalso.
  unfold child_of in Hch. apply andb_prop in Hch as [Hch He%bool_decide_eq_true].
  apply andb_prop in Hch as [Hl%negb_true_iff Ho%bool_decide_eq_true].
  assert (dag (rm_heap r) k = Some (Some (edges kc))) as Hd by (apply dag_open; by exists kc).
  pose proof (mo_edges _ _ _ (mi_ok _ _ _ _ _ Hi) k _ c Hd He) as Hok. unfold edge_ok in Hok.
  destruct Hc as [Hc|Hc]; by rewrite Hc in Hok.
Qed.

Lemma dag_move h s sc add drop es :
  h !! s = Some sc -> owner sc = None -> done sc = false -> s ∉ add -> s ∉ drop ->
  forall y, dag (move_heap h s sc add drop es) y = upd (dag h) s (Some (Some es)) y.
Proof.
  intros Hs Ho Hl Ha Hd y. unfold move_heap. set (h2 := alter_all (detach _) drop _).
  assert (same_shape h h2) as Hsh.
  { unfold h2. transitivity (alter_all (charge (DStat (stat (rc sc)))) add h);
      [by apply same_shape_alter_all|apply same_shape_alter_all, shape_detach]. }
  assert (h2 !! s = Some sc) as Hs2 by (unfold h2; by rewrite !alter_all_ne).
  rewrite (dag_alter (set_edges es) s h2 sc) by done. simpl. rewrite Hl. unfold upd.
  case_decide; [done|]. by apply dag_same_shape.
Qed.

(** New records for the handle that moves. *)
Definition set_handles (C : gmap nat (connectionScope MA)) (S : gmap nat streamScope) r : mgr := set_streams S (set_conns C r).

Lemma move_inv r own ext ro pend s sc add drop es
    (C : gmap nat (connectionScope MA)) (S : gmap nat streamScope) :
  mgr_inv r own ext ro pend -> rm_heap r !! s = Some sc -> done sc = false ->
  ro s = Some RConn \/ ro s = Some RStream ->
  moves (rm_heap r) s sc add drop es -> (forall e, e ∈ add -> 0 < ext e) ->
  forallb (accepts_at (DStat (stat (rc sc))) (rm_heap r)) add = true ->
  (forall e, e ∈ es -> edge_ok r ro es e) ->
  (forall c cs, C !! c = Some cs -> ro c = Some RConn /\
     forall es', upd (dag (rm_heap r)) s (Some (Some es)) c = Some (Some es') -> conn_edges r ro cs es') ->
  (forall c ss, S !! c = Some ss -> ro c = Some RStream /\
     forall es', upd (dag (rm_heap r)) s (Some (Some es)) c = Some (Some es') -> stream_edges r ro ss es') ->
  open_ips (dag (rm_heap r)) C ≡ₚ open_ips (dag (rm_heap r)) (rm_conns r) ->
  (forall x, is_Some (rm_conns r !! x) -> is_Some (C !! x)) -> (forall x, is_Some (rm_streams r !! x) -> is_Some (S !! x)) ->
  mgr_inv (set_handles C S (set_heap (move_heap (rm_heap r) s sc add drop es) r)) own (take_refs ext add) ro pend.
Proof.
  intros Hi Hs Hl Hro Hm Hext Hacc Hes HC HS Hips HC' HS'. pose proof (mi_ok _ _ _ _ _ Hi) as Hok.
  assert (exists rl, ro s = Some rl) as [rl Hrl] by (destruct Hro; eauto).
  destruct (role_scope r own ext ro pend s rl Hi Hrl) as (sc' & Hs' & Ho).
  rewrite Hs in Hs'. injection Hs' as <-.
  pose proof (handle_childless r own ext ro pend s Hi Hro) as Hch.
  set (h := rm_heap r) in *.
  assert (forall y, dag (move_heap h s sc add drop es) y = upd (dag h) s (Some (Some es)) y) as Hdag.
  { pose proof (bal_heap_inv _ _ _ (mi_bal _ _ _ _ _ Hi)) as Hinv. apply dag_move; [done..| |].
    - intros Hin. by destruct (mv_new _ _ _ _ _ _ Hm s Hin) as (_ & ? & _).
    - intros Hin%(mv_sub _ _ _ _ _ _ Hm). by apply (not_own_edge h s sc (hi_wf h Hinv)). }
  assert (dag h s = Some (Some (edges sc))) as Hds by (apply dag_open; by exists sc).
  destruct Hi as [Hb _ Hlm Hlim Hown]. constructor.
  - eapply gstep_balanced; [|exact Hb]. by apply g_move.
  - eapply mgr_ok_dag_ext; [intros y; symmetry; apply Hdag|]. cbn [rm_heap set_heap set_handles set_streams set_conns].
    destruct Hok as [H1 [] H3 H4 H5 H6 H7 H8]. constructor; try done.
    + intros x. unfold upd. case_decide; [subst x|apply H1]. split; intros _; by eexists.
    + intros p x Hp. destruct (H3 p x Hp) as [? ?]. split; [done|]. unfold upd. case_decide; [by eexists|done].
    + intros x es' e. unfold upd. case_decide; [intros [= <-]; apply Hes|]. apply H6.
  - done.
  - cbn [rm_heap set_heap set_handles set_streams set_conns rm_connLimiter rm_conns].
    eapply limiter_ok_perm; [|exact Hlim]. apply Permutation_app_head.
    rewrite (open_ips_open (dag h) _ C s es); [by symmetry|by rewrite Hds; eexists|done].
  - apply (own_ok_handles (set_heap (move_heap h s sc add drop es) r)); [|done|intros x [?|?]; [left; by apply HC'|right; by apply HS']].
    eapply own_ok_upd; [exact Hown|exact Hdag| |done|].
    + destruct Hb as [Hinv _]. by apply same_spans_move; [apply Hinv|..].
    + intros es' c _ Hn. exact (proj2 Hown s _ c Hds Hn).
Qed.

(** ** Parents on behalf of a handle *)

Lemma ReserveForChild_run st s h sc :
  heap_inv h -> h !! s = Some sc ->
  exists err, ReserveForChild s st h =
      Some (err, if accepts (DStat st) sc then alter (charge (DStat st)) s h else h) /\
    (err = None <-> accepts (DStat st) sc = true).
Proof. intros Hi Hs. apply child_reserve_spec; [done|]. apply ro_range, (hi_ok h Hi s sc Hs). Qed.

Lemma ReleaseForChild_run st s h :
  is_Some (h !! s) -> ReleaseForChild s st h = Some (tt, alter (unload (DStat st)) s h).
Proof. apply child_release_spec. Qed.

Lemma detach_run st s h :
  alter (add_refCnt (-1)) s (alter (unload (DStat st)) s h) = alter (detach st) s h.
Proof. by rewrite alter_alter_eq. Qed.

Lemma ext_nonneg r own ext ro pend x : mgr_inv r own ext ro pend -> 0 <= ext x.
Proof. intros [[_ Ha] _ _ _ _]. apply Ha. Qed.

Lemma bump_pos r own ext ro pend s : mgr_inv r own ext ro pend -> 0 < bump ext s 1 s.
Proof. intros Hi. pose proof (ext_nonneg _ _ _ _ _ s Hi). unfold bump. rewrite decide_True by done. lia. Qed.

Lemma conn_unchanged (conns : gmap nat (connectionScope MA)) c cs p s :
  conns !! c = Some cs -> cn_peer cs = None ->
  alter (with_peer None) c (alter (with_peer (Some (p, s))) c conns) = conns.
Proof.
  intros Hc Hp. rewrite alter_alter_eq. apply (alter_id' _ conns c cs Hc).
  destruct cs. simpl in *. by subst.
Qed.

Lemma open_ips_alter D (conns : gmap nat (connectionScope MA)) c f :
  (forall cs, cn_ip (f cs) = cn_ip cs) -> open_ips D (alter f c conns) ≡ₚ open_ips D conns.
Proof.
  intros Hf. destruct (conns !! c) as [cs|] eqn:Hc.
  - rewrite (open_ips_split D conns c cs Hc).
    rewrite (open_ips_split D (alter f c conns) c (f cs)) by by rewrite lookup_alter_eq, Hc.
    assert (delete c (alter f c conns) = delete c conns) as ->.
    { apply map_eq. intros x. rewrite !lookup_delete. case_decide; [done|]. by rewrite lookup_alter_ne. }
    unfold open_ip. simpl. by rewrite Hf.
  - assert (alter f c conns = conns) as ->; [|done]. apply map_eq. intros x. rewrite lookup_alter.
    case_decide; [subst; by rewrite Hc|done].
Qed.

Lemma conns_alter (conns : gmap nat (connectionScope MA)) c f x :
  is_Some (conns !! x) -> is_Some (alter f c conns !! x).
Proof. rewrite lookup_alter. case_decide; [subst; by rewrite fmap_is_Some|done]. Qed.

(** The pair of parents a connection without a peer hangs on. *)
Definition conn_system r (al : bool) := if al then rm_allowlistedSystem r else rm_system r.
Definition conn_transient r (al : bool) := if al then rm_allowlistedTransient r else rm_transient r.

Lemma conn_roots r own ext ro pend al :
  mgr_inv r own ext ro pend ->
  (exists v, ro (conn_system r al) = Some v /\ (v = RSystem \/ v = RAllowSystem)) /\
  (exists v, ro (conn_transient r al) = Some v /\ (v = RTransient \/ v = RAllowTransient)).
Proof.
  intros Hi. destruct (mo_roots _ _ _ (mi_ok _ _ _ _ _ Hi)) as [? ? ? ?].
  unfold conn_system, conn_transient. destruct al; eauto 10.
Qed.

Lemma attach_peer_inv r own ext ro pend c cs sc p :
  mgr_inv r own ext ro pend -> rm_conns r !! c = Some cs -> cn_peer cs = None ->
  rm_heap r !! c = Some sc -> done sc = false ->
  edges sc ≡ₚ [conn_transient r (cn_isAllowlisted cs); conn_system r (cn_isAllowlisted cs)] ->
  exists res r' ro',
    attach_peer show_peer c p (conn_system r (cn_isAllowlisted cs)) (conn_transient r (cn_isAllowlisted cs)) r
      = Some (res, r') /\ mgr_inv r' own ext ro' pend.
Proof.
  intros Hi Hc Hpn Hsc Hl He. set (al := cn_isAllowlisted cs) in *.
  destruct (mo_conns _ _ _ (mi_ok _ _ _ _ _ Hi) c cs Hc) as [Hro _].
  destruct (getPeerScope_inv show_peer p r own ext ro pend Hi) as
    (s & h1 & m1 & ro1 & Hget & Hi1 & Hext & Hs & Hm1 & Hk).
  unfold attach_peer. rewrite (rbind_eq _ _ _ _ _ Hget). unfold set_conn. rewrite rbind_update.
  set (r1 := set_scopes (rm_svc r) (rm_proto r) m1 (set_heap h1 r)) in *.
  destruct (Hk c sc Hsc) as (sc1 & Hsc1 & Hrc1 & Hsh1).
  erewrite rbind_lift; [|cbn; unfold get_scope; rewrite Hsc1; reflexivity].
  destruct (role_scope _ _ _ _ _ _ _ Hi1 Hs) as (ssc & Hssc & Hos). cbn in Hssc.
  pose proof (bal_heap_inv _ _ _ (mi_bal _ _ _ _ _ Hi1)) as Hinv1. cbn in Hinv1.
  destruct (ReserveForChild_run (stat (rc sc1)) s h1 ssc Hinv1 Hssc) as (err & Hres & Herr).
  erewrite rbind_lift; [|exact Hres].
  assert (ro1 c = Some RConn) as Hro1 by by apply Hext.
  destruct (conn_roots r1 _ _ _ _ al Hi1) as ((v1 & Hv1 & Hv1') & (v2 & Hv2 & Hv2')).
  change (conn_system r1 al) with (conn_system r al) in Hv1.
  change (conn_transient r1 al) with (conn_transient r al) in Hv2.
  set (sys := conn_system r al) in *. set (tr := conn_transient r al) in *.
  assert (s <> c /\ s <> sys /\ s <> tr /\ sys <> tr /\ c <> sys /\ c <> tr) as (N1 & N2 & N3 & N4 & N5 & N6).
  { split_and!; intros E; destruct Hv1' as [-> | ->], Hv2' as [-> | ->]; congruence. }
  destruct err as [err|].
  - assert (accepts (DStat (stat (rc sc1))) ssc = false) as ->.
    { apply not_true_is_false. intros E. by apply Herr in E. }
    erewrite rbind_lift by reflexivity. rewrite rbind_update.
    cbn [rm_heap set_heap set_conns rm_conns set_scopes].
    rewrite (conn_unchanged (rm_conns r) c cs) by done.
    eexists _, _, ro1. split; [reflexivity|].
    eapply inv_ext; [apply bump_undo|].
    exact (DecRef_inv r1 own _ ro1 pend s _ Hi1 Hs (bump_pos _ _ _ _ _ s Hi)).
  - assert (accepts (DStat (stat (rc sc1))) ssc = true) as Hacc by by apply Herr. rewrite Hacc.
    destruct (role_scope _ _ _ _ _ _ _ Hi1 Hv2) as (tsc & Htsc & Hot). cbn in Htsc.
    erewrite rbind_lift; [|apply ReleaseForChild_run; cbn; apply alter_is_some; by eexists].
    erewrite rbind_lift by reflexivity. erewrite rbind_lift by reflexivity.
    cbn [rm_heap set_heap set_conns set_scopes]. rewrite detach_run.
    eexists _, _, ro1. split; [reflexivity|].
    assert (edges sc1 ≡ₚ [tr; sys]) as He1 by (by rewrite (shape_edges _ _ Hsh1)).
    assert (done sc1 = false) as Hl1 by (by rewrite (shape_done _ _ Hsh1)).
    assert (mgr_inv (set_handles (alter (with_peer (Some (p, s))) c (rm_conns r1)) (rm_streams r1)
              (set_heap (move_heap (rm_heap r1) c sc1 [s] [tr] [s; sys]) r1))
              own (take_refs (bump ext s 1) [s]) ro1 pend) as Hfin.
    2:{ eapply inv_ext; [|exact Hfin]. intros x. unfold take_refs, bump. case_decide as Hx.
        - apply list_elem_of_singleton in Hx as ->. rewrite decide_True by done. lia.
        - rewrite decide_False; [done|]. intros ->. by apply Hx, list_elem_of_singleton. }
    apply move_inv; [done..|by left| | | | | | | | |done].
    + constructor.
      * apply NoDup_singleton.
      * apply NoDup_singleton.
      * intros e ->%list_elem_of_singleton. rewrite He1. by left.
      * intros e ->%list_elem_of_singleton. split_and!; [|done|by exists ssc].
        rewrite He1, !elem_of_cons, elem_of_nil. intuition congruence.
      * intros e. rewrite He1, !elem_of_cons, elem_of_nil. intuition congruence.
      * repeat constructor; rewrite ?elem_of_cons, ?elem_of_nil; intuition congruence.
    + intros e ->%list_elem_of_singleton. by eapply bump_pos.
    + cbn. unfold accepts_at. by rewrite Hssc, Hacc.
    + intros e. rewrite !elem_of_cons, elem_of_nil. unfold edge_ok.
      intros [->|[->|[]]]; [by rewrite Hs|]. rewrite Hv1. by destruct Hv1' as [-> | ->].
    + intros c' cs'. rewrite lookup_alter. case_decide as Hcc.
      * subst c'. cbn [rm_conns r1 set_scopes set_heap]. rewrite Hc. intros [= <-]. split; [done|]. rewrite upd_eq. intros es' [= <-].
        by unfold conn_edges.
      * intros Hc'. rewrite upd_ne by done. by apply (mo_conns _ _ _ (mi_ok _ _ _ _ _ Hi1)).
    + intros c' ss Hc'. destruct (mo_streams _ _ _ (mi_ok _ _ _ _ _ Hi1) c' ss Hc') as [Hr Hse].
      split; [done|]. rewrite upd_ne by congruence. done.
    + by apply open_ips_alter.
    + intros x. apply conns_alter.
Qed.

Lemma move_heap_self h s sc add drop es :
  h !! s = Some sc -> s ∉ add -> s ∉ drop -> move_heap h s sc add drop es !! s = Some (set_edges es sc).
Proof. intros Hs Ha Hd. unfold move_heap. by rewrite lookup_alter_eq, !alter_all_ne, Hs. Qed.

(** A connection gives up all its parents. *)
Lemma orphan_inv r own ext ro pend c cs sc :
  mgr_inv r own ext ro pend -> rm_conns r !! c = Some cs -> cn_peer cs = None ->
  rm_heap r !! c = Some sc -> done sc = false ->
  mgr_inv (set_handles (alter not_allowlisted c (rm_conns r)) (rm_streams r)
             (set_heap (move_heap (rm_heap r) c sc [] (edges sc) []) r)) own ext ro pend.
Proof.
  intros Hi Hc Hp Hsc Hl. pose proof (mi_ok _ _ _ _ _ Hi) as Hok.
  destruct (mo_conns _ _ _ Hok c cs Hc) as [Hro _].
  pose proof (bal_heap_inv _ _ _ (mi_bal _ _ _ _ _ Hi)) as Hinv.
  eapply inv_ext; [|apply (move_inv r own ext ro pend c sc [] (edges sc) []); [done..|by left| | | | | | | | |done]].
  - intros x. unfold take_refs. by rewrite decide_False by apply not_elem_of_nil.
  - constructor.
    + apply NoDup_nil_2.
    + exact (hw_nodup _ (hi_wf _ Hinv) c sc Hsc).
    + done.
    + by intros e ?%elem_of_nil.
    + intros e. rewrite elem_of_nil. tauto.
    + apply NoDup_nil_2.
  - by intros e ?%elem_of_nil.
  - done.
  - by intros e ?%elem_of_nil.
  - intros c' cs'. rewrite lookup_alter. case_decide as Hcc.
    + subst c'. rewrite Hc. intros [= <-]. split; [done|]. rewrite upd_eq. intros es' [= <-].
      unfold conn_edges. simpl. rewrite Hp. by right.
    + intros Hc'. rewrite upd_ne by done. by apply (mo_conns _ _ _ Hok).
  - intros c' ss Hc'. destruct (mo_streams _ _ _ Hok c' ss Hc') as [Hr Hse].
    split; [done|]. rewrite upd_ne by congruence. done.
  - by apply open_ips_alter.
  - intros x. apply conns_alter.
Qed.

Lemma add_refCnt_undo sc : add_refCnt (-1) (add_refCnt 1 sc) = sc.
Proof. destruct sc. unfold add_refCnt. simpl. f_equal. lia. Qed.

(** An undone reservation on a parent leaves no trace. *)
Lemma parent_rollback d s h sc :
  h !! s = Some sc -> in_range (rc sc) -> accepts d sc = true ->
  alter (add_refCnt (-1)) s (alter (unload d) s (alter (add_refCnt 1) s (alter (charge d) s h))) = h.
Proof.
  intros Hs Hr Ha. rewrite !alter_alter_eq. apply (alter_id' _ h s sc Hs). simpl.
  rewrite <- add_refCnt_unload, unload_charge by done. apply add_refCnt_undo.
Qed.

Lemma transfer_inv r own ext ro pend c cs sc :
  mgr_inv r own ext ro pend -> rm_conns r !! c = Some cs -> cn_peer cs = None ->
  rm_heap r !! c = Some sc -> done sc = false ->
  let r0 := set_conns (alter not_allowlisted c (rm_conns r)) r in
  exists res h',
    transferAllowedToStandard c r0 = Some (res, set_heap h' r0) /\ mgr_inv (set_heap h' r0) own ext ro pend /\
    (res = None -> exists sc', h' !! c = Some sc' /\ done sc' = false /\ edges sc' = [rm_system r; rm_transient r]).
Proof.
  intros Hi Hc Hp Hsc Hl r0. pose proof (orphan_inv r own ext ro pend c cs sc Hi Hc Hp Hsc Hl) as Hi0.
  destruct (mo_conns _ _ _ (mi_ok _ _ _ _ _ Hi) c cs Hc) as [Hro _].
  destruct (mo_roots _ _ _ (mi_ok _ _ _ _ _ Hi)) as [Hrs Hrt _ _].
  pose proof (bal_heap_inv _ _ _ (mi_bal _ _ _ _ _ Hi)) as Hinv. pose proof (hi_wf _ Hinv) as Hwf.
  set (st := stat (rc sc)). set (sys := rm_system r) in *. set (tr := rm_transient r) in *.
  assert (sys <> tr /\ c <> sys /\ c <> tr) as (N1 & N2 & N3) by (split_and!; congruence).
  unfold transferAllowedToStandard. rewrite !rbind_gets.
  change (rm_system r0) with sys. change (rm_transient r0) with tr.
  erewrite rbind_lift; [|cbn; unfold get_scope; rewrite Hsc; reflexivity]. cbv zeta. fold st.
  erewrite rbind_lift; [|apply release_and_decref_spec; exact (edges_is_some _ c sc Hwf Hsc)].
  erewrite rbind_lift by reflexivity.
  set (h0 := move_heap (rm_heap r) c sc [] (edges sc) []) in *.
  change (alter (set_edges []) c _) with h0. change (set_heap h0 (set_heap _ (set_heap _ r0))) with (set_heap h0 r0).
  change (set_handles _ _ _) with (set_heap h0 r0) in Hi0.
  pose proof (bal_heap_inv _ _ _ (mi_bal _ _ _ _ _ Hi0)) as Hinv0. cbn in Hinv0.
  destruct (role_scope _ _ _ _ _ _ _ Hi0 Hrs) as (ssc & Hssc & Hos). cbn in Hssc.
  destruct (role_scope _ _ _ _ _ _ _ Hi0 Hrt) as (tsc & Htsc & Hot). cbn in Htsc.
  assert (h0 !! c = Some (set_edges [] sc)) as Hc0.
  { apply move_heap_self; [done|apply not_elem_of_nil|by apply not_own_edge with (rm_heap r)]. }
  destruct (ReserveForChild_run st sys h0 ssc Hinv0 Hssc) as (err & Hres & Herr).
  erewrite rbind_lift; [|exact Hres]. destruct err as [err|].
  { assert (accepts (DStat st) ssc = false) as -> by (apply not_true_is_false; intros E; by apply Herr in E).
    by exists (Some err), h0. }
  assert (accepts (DStat st) ssc = true) as Hacc by by apply Herr. rewrite Hacc.
  assert (demand_ok (DStat st)) as Hst by (apply stat_demand_ok, (hi_ok _ Hinv c sc Hsc)).
  erewrite rbind_lift by reflexivity. cbn [rm_heap set_heap].
  set (h1 := alter (add_refCnt 1) sys (alter (charge (DStat st)) sys h0)).
  assert (h1 !! tr = Some tsc) as Htsc1 by (unfold h1; by rewrite !lookup_alter_ne).
  destruct (child_reserve_spec (DStat st) tr h1 tsc Htsc1) as (err & Hres1 & Herr1).
  { apply ro_range, (hi_ok h0 Hinv0 tr tsc Htsc). }
  erewrite rbind_lift; [|exact Hres1]. destruct err as [err|].
  - assert (accepts (DStat st) tsc = false) as -> by (apply not_true_is_false; intros E; by apply Herr1 in E).
    erewrite rbind_lift; [|apply ReleaseForChild_run; cbn; unfold h1; rewrite !lookup_alter_eq, Hssc; by eexists].
    erewrite rbind_lift by reflexivity. cbn [rm_heap set_heap]. unfold h1.
    rewrite (parent_rollback (DStat st) sys h0 ssc) by (done || apply ro_range, (hi_ok h0 Hinv0 sys ssc Hssc)).
    by exists (Some err), h0.
  - assert (accepts (DStat st) tsc = true) as Hacc1 by by apply Herr1. rewrite Hacc1.
    erewrite rbind_lift by reflexivity. erewrite rbind_lift by reflexivity. cbn [rm_heap set_heap].
    pose proof (IncRef_inv _ _ _ _ _ _ _ Hi0 Hrs) as Hi1. cbn [rm_heap set_heap] in Hi1.
    pose proof (IncRef_inv _ _ _ _ _ _ _ Hi1 Hrt) as Hi2. cbn [rm_heap set_heap] in Hi2.
    set (h2 := alter (add_refCnt 1) tr (alter (add_refCnt 1) sys h0)) in *.
    set (r2 := set_heap h2 r0).
    change (set_heap h2 (set_heap _ (set_heap h0 r0))) with r2 in Hi2.
    assert (h2 !! c = Some (set_edges [] sc)) as Hc2 by (unfold h2; by rewrite !lookup_alter_ne).
    assert (alter (add_refCnt 1) tr (alter (charge (DStat st)) tr h1) =
            alter (charge (DStat st)) tr (alter (charge (DStat st)) sys h2)) as Hcomm.
    { unfold h1, h2. rewrite (alter_comm (add_refCnt 1) (charge (DStat st)) tr tr) by done. f_equal.
      rewrite (alter_comm (charge (DStat st)) (add_refCnt 1) sys tr) by done. f_equal.
      by apply alter_comm. }
    rewrite Hcomm. exists None, (move_heap h2 c (set_edges [] sc) [sys; tr] [] [sys; tr]).
    split; [done|]. split.
    + assert (mgr_inv (set_handles (rm_conns r2) (rm_streams r2)
                (set_heap (move_heap (rm_heap r2) c (set_edges [] sc) [sys; tr] [] [sys; tr]) r2)) own
                (take_refs (bump (bump ext sys 1) tr 1) [sys; tr]) ro pend) as Hfin.
      2:{ eapply inv_ext; [|exact Hfin]. intros x. unfold take_refs, bump. case_decide as Hx.
          - rewrite !elem_of_cons, elem_of_nil in Hx. destruct Hx as [->|[->|[]]].
            + rewrite decide_False, decide_True by done. lia.
            + rewrite decide_True, decide_False by done. lia.
          - rewrite !elem_of_cons, elem_of_nil in Hx. rewrite !decide_False by tauto. done. }
      apply move_inv; [done|done|done|by left| | | | | | |done|done|done].
      * constructor.
        -- repeat constructor; rewrite ?elem_of_cons, ?elem_of_nil; intuition congruence.
        -- apply NoDup_nil_2.
        -- by intros e ?%elem_of_nil.
        -- intros e. rewrite !elem_of_cons, elem_of_nil. intros [->|[->|[]]].
           ++ split_and!; [apply not_elem_of_nil|done|]. exact (role_scope _ _ _ _ _ _ _ Hi2 Hrs).
           ++ split_and!; [apply not_elem_of_nil|done|]. exact (role_scope _ _ _ _ _ _ _ Hi2 Hrt).
        -- intros e. cbn [edges set_edges]. rewrite elem_of_nil. tauto.
        -- repeat constructor; rewrite ?elem_of_cons, ?elem_of_nil; intuition congruence.
      * pose proof (ext_nonneg _ _ _ _ _ sys Hi). pose proof (ext_nonneg _ _ _ _ _ tr Hi).
        intros e. rewrite !elem_of_cons, elem_of_nil. unfold bump. intros [->|[->|[]]].
        -- rewrite decide_False, decide_True by done. lia.
        -- rewrite decide_True, decide_False by done. lia.
      * cbn. unfold accepts_at, h2. rewrite lookup_alter_ne, lookup_alter_eq, Hssc by done. cbn.
        rewrite lookup_alter_eq, lookup_alter_ne, Htsc by done. cbn.
        change (accepts (DStat st) ssc && (accepts (DStat st) tsc && true) = true). by rewrite Hacc, Hacc1.
      * intros e. rewrite !elem_of_cons, elem_of_nil. unfold edge_ok.
        intros [->|[->|[]]]; [by rewrite Hrs|by rewrite Hrt].
      * intros c' cs'. cbn [rm_conns r2 set_heap r0 set_conns]. rewrite lookup_alter. case_decide as Hcc.
        -- subst c'. rewrite Hc. intros [= <-]. split; [done|]. rewrite upd_eq. intros es' [= <-].
           unfold conn_edges. simpl. rewrite Hp. left. apply perm_swap.
        -- intros Hc'. rewrite upd_ne by done. apply (mo_conns _ _ _ (mi_ok _ _ _ _ _ Hi2)).
           cbn [rm_conns r2 set_heap r0 set_conns]. by rewrite lookup_alter_ne.
      * intros c' ss Hc'. destruct (mo_streams _ _ _ (mi_ok _ _ _ _ _ Hi2) c' ss Hc') as [Hr Hse].
        split; [done|]. rewrite upd_ne by congruence. done.
    + intros _. exists (set_edges [sys; tr] (set_edges [] sc)). split; [|done].
      apply move_heap_self; [done| |apply not_elem_of_nil].
      rewrite !elem_of_cons, elem_of_nil. intuition congruence.
Qed.

(** [SetPeer] on an open connection that still has parents. *)
Lemma SetPeer_inv r own ext ro pend c cs sc p :
  mgr_inv r own ext ro pend -> rm_conns r !! c = Some cs ->
  rm_heap r !! c = Some sc -> done sc = false -> edges sc <> [] ->
  exists res r' ro', SetPeer show_peer c p r = Some (res, r') /\ mgr_inv r' own ext ro' pend.
Proof.
  intros Hi Hc Hsc Hl Hne. unfold SetPeer. rewrite (conn_at_eq r c cs) by done.
  destruct (mo_conns _ _ _ (mi_ok _ _ _ _ _ Hi) c cs Hc) as [Hro Hed].
  destruct (role_scope _ _ _ _ _ _ _ Hi Hro) as (sc' & Hsc' & Ho). rewrite Hsc in Hsc'. injection Hsc' as <-.
  specialize (Hed (edges sc)). unfold conn_edges in Hed.
  destruct (cn_peer cs) as [x|] eqn:Hp; [by eexists _, r, ro; split; [reflexivity|]|].
  rewrite !rbind_gets. pose proof (attach_peer_inv r own ext ro pend c cs sc p Hi Hc Hp Hsc Hl) as Hatt.
  assert (dag (rm_heap r) c = Some (Some (edges sc))) as Hd by (apply dag_open; by exists sc).
  specialize (Hed Hd). destruct (cn_isAllowlisted cs) eqn:Hal.
  - destruct (AllowedPeerAndMultiaddr _ _ _); [by apply Hatt|].
    destruct (transfer_inv r own ext ro pend c cs sc Hi Hc Hp Hsc Hl) as (res & h' & Htr & Hi' & Hok).
    unfold set_conn. rewrite rbind_update, (rbind_eq _ _ _ _ _ Htr).
    destruct res as [err|]; [by eexists _, _, ro|].
    destruct (Hok eq_refl) as (sc' & Hsc' & Hl' & He').
    set (r1 := set_heap h' _) in *.
    apply (attach_peer_inv r1 own ext ro pend c (not_allowlisted cs) sc' p Hi'); [|done|done|done|].
    + cbn. by rewrite lookup_alter_eq, Hc.
    + rewrite He'. apply perm_swap.
  - destruct Hed as [Hed|Hed]; [|done]. by apply Hatt.
Qed.

(** ** Reservations and destruction *)

(** A reservation on one of the manager's own scopes is entered in the book. *)
Definition own_scope r (s : nat) : bool := negb (is_span (rm_heap r) s) && negb (bool_decide (is_handle r s)).
Definition book_add r (s : nat) (d : demand) (b : Book) : Book := if own_scope r s then add_own b s (amount d) else b.
Definition book_reserve r (s : nat) (d : demand) (err : option rc_error) (b : Book) : Book :=
  match err with None => book_add r s d b | Some _ => b end.

Lemma handle_not_own r x : is_handle r x -> own_scope r x = false.
Proof. intros Hx. unfold own_scope. by rewrite (bool_decide_eq_true_2 (is_handle r x)), andb_false_r. Qed.

(** The invariant with another book. *)
Lemma inv_rebook (b b' : Book) r own ext own' ext' ro pend h :
  mgr_inv (users := b) r own ext ro pend -> balanced (mkLedger h own' ext') -> (forall x, dag h x = dag (rm_heap r) x) ->
  own_ok (users := b') (set_heap h r) own' -> mgr_inv (users := b') (set_heap h r) own' ext' ro pend.
Proof.
  intros [H1 H2 H3 H4 H5] Hb Hd Ho. constructor; [done| |done| |done].
  - apply mgr_ok_set_heap. eapply mgr_ok_dag_ext; [|exact H2]. intros x. by rewrite Hd.
  - cbn [set_heap rm_connLimiter rm_heap rm_conns]. by rewrite (open_ips_ext _ (dag (rm_heap r))) by auto.
Qed.

Lemma own_scope_dag r x es : dag (rm_heap r) x = Some es -> own_scope r x = negb (bool_decide (is_handle r x)).
Proof. intros (sc & Hs & Ho)%dag_some. unfold own_scope, is_span. by rewrite Hs, Ho. Qed.

(** The book follows what is free on the scopes of the manager. *)
Lemma own_ok_rebook (b b' : Book) r own own' h :
  own_ok (users := b) r own -> (forall x, dag h x = dag (rm_heap r) x) ->
  (forall x c, dag (rm_heap r) x = None -> b' x c = b x c) ->
  (forall x es c, dag (rm_heap r) x = Some (Some es) -> ~ is_handle r x ->
     free own' c h x - free own c (rm_heap r) x = b' x c - b x c) ->
  own_ok (users := b') (set_heap h r) own'.
Proof.
  intros [O1 O2] Hd Hb Hf. split; cbn [rm_heap set_heap].
  - intros x c. rewrite Hd. intros Hx. unfold booked. rewrite Hb by done. by apply O1.
  - intros x es c. rewrite Hd. intros Hx Hn. specialize (Hf x es c Hx Hn). specialize (O2 x es c Hx Hn).
    unfold booked in *. lia.
Qed.

Lemma scope_reserve_inv r own ext ro pend s d :
  mgr_inv r own ext ro pend -> is_Some (rm_heap r !! s) -> demand_ok d ->
  exists err h' own', scope_reserve (S s) d s (rm_heap r) = Some (err, h') /\
    mgr_inv (users := book_reserve r s d err users) (set_heap h' r) own' ext ro pend.
Proof.
  intros Hi Hs Hd. pose proof (bal_heap_inv _ _ _ (mi_bal _ _ _ _ _ Hi)) as Hinv. pose proof (hi_wf _ Hinv) as Hwf.
  destruct (scope_reserve_spec d (S s) s (rm_heap r)) as (err & Heq & Herr);
    [lia|done|done|by apply targets_ranged; [|apply heap_ok_in_range, Hinv]|].
  destruct err as [err|].
  - assert (forallb (accepts_at d (rm_heap r)) (targets (S s) (rm_heap r) s) = false) as E.
    { apply not_true_is_false. intros E. by apply Herr in E. }
    rewrite E in Heq. exists (Some err), (rm_heap r), own. split; [done|]. by apply inv_same_heap.
  - match type of Heq with _ = Some (_, ?x) => set (h' := x) in Heq end. exists None, h'.
    assert (forall x, dag h' x = dag (rm_heap r) x) as Hdag.
    { unfold h'. destruct (forallb _ _); [|done]. apply dag_same_shape. by apply same_shape_alter_all. }
    eexists. split; [done|]. eapply (inv_rebook users); [done| |done|].
    + eapply gstep_balanced; [|apply Hi]. by eapply g_reserve.
    + eapply own_ok_rebook; [apply Hi|done|..]; cbn [book_reserve]; unfold book_add.
      * intros x c Hx. destruct (own_scope r s) eqn:Hos; [|done]. unfold add_own. rewrite decide_False; [lia|].
        intros ->. unfold own_scope, is_span in Hos. unfold dag in Hx. destruct Hs as [sc Hs]. rewrite Hs in *.
        by destruct (owner sc).
      * intros x es c Hx Hn. pose proof (dag_some _ _ _ Hx) as (xc & Hxc & Ho).
        rewrite (free_reserve (rm_heap r) own s d h' c x xc) by done.
        unfold add_own. case_decide as Hxs; [subst s|destruct (own_scope r s); [rewrite ?decide_False by done|]; lia].
        rewrite (own_scope_dag r x _ Hx), (bool_decide_eq_false_2 (is_handle r x)) by done. cbn [negb].
        rewrite decide_True by done. lia.
Qed.

Lemma mgr_ok_close r D ro x :
  mgr_ok r D ro -> is_Some (D x) -> (forall p, rm_peer r !! p <> Some x) ->
  mgr_ok r (upd D x (Some None)) ro.
Proof.
  intros [H1 H2 H3 H4 H5 H6 H7 H8] Hx Hp. constructor; try done.
  - intros y. unfold upd. case_decide; [subst|apply H1]. split; [by eexists|]. intros _. by apply H1.
  - intros p s Hs. rewrite upd_ne; [by apply H3|]. intros ->. by apply (Hp p).
  - intros y es e. unfold upd. case_decide; [done|]. apply H6.
  - intros c cs Hc. destruct (H7 c cs Hc) as [? He]. split; [done|]. intros es. unfold upd. case_decide; [done|]. apply He.
  - intros c cs Hc. destruct (H8 c cs Hc) as [? He]. split; [done|]. intros es. unfold upd. case_decide; [done|]. apply He.
Qed.

(** Closing a childless DAG scope. *)
Lemma Done_run r own ext ro pend x sc :
  mgr_inv r own ext ro pend -> rm_heap r !! x = Some sc -> owner sc = None -> done sc = false ->
  childless (rm_heap r) x ->
  exists h', Done x (rm_heap r) = Some (tt, h') /\
    balanced (mkLedger h' (done_own (rm_heap r) own x sc) ext) /\
    (forall y, dag h' y = upd (dag (rm_heap r)) x (Some None) y) /\ same_spans (rm_heap r) h'.
Proof.
  intros Hi Hs Ho Hl Hc. pose proof (bal_heap_inv _ _ _ (mi_bal _ _ _ _ _ Hi)) as Hinv.
  pose proof (Done_spec x (rm_heap r) sc (hi_wf _ Hinv) Hs) as Hd. eexists. split; [exact Hd|]. split_and!.
  - eapply gstep_balanced; [|apply Hi]. by eapply g_done.
  - intros y. unfold done_heap. rewrite Hl, Ho. set (h1 := alter_all _ _ _).
    assert (same_shape (rm_heap r) h1) as Hsh by apply same_shape_alter_all, shape_detach.
    assert (h1 !! x = Some sc) as Hx.
    { unfold h1. rewrite alter_all_ne; [done|]. by apply not_own_edge with (rm_heap r); [apply Hinv|]. }
    rewrite (dag_alter mark_done x h1 sc) by done. unfold upd. simpl.
    case_decide; [done|]. by apply dag_same_shape.
  - by apply same_spans_done; [apply Hinv|..].
Qed.

Lemma own_ok_done r own x sc h' :
  own_ok r own -> owner sc = None -> (forall y, dag h' y = upd (dag (rm_heap r)) x (Some None) y) ->
  same_spans (rm_heap r) h' -> own_ok (set_heap h' r) (done_own (rm_heap r) own x sc).
Proof.
  intros Ho Hx Hd Hs. eapply own_ok_upd; [done..| |done]. intros y c Hy. unfold done_own. rewrite Hx.
  destruct (done sc); [done|]. unfold drop_own, add_own. rewrite decide_False by done. lia.
Qed.

(** Closing a scope that is neither a connection nor in the map of peers. *)
Lemma Done_inv r own ext ro pend x rl :
  mgr_inv r own ext ro pend -> ro x = Some rl -> rl <> RConn -> (forall p, rm_peer r !! p <> Some x) ->
  (forall sc, rm_heap r !! x = Some sc -> done sc = false -> childless (rm_heap r) x) ->
  exists h' own', Done x (rm_heap r) = Some (tt, h') /\ mgr_inv (set_heap h' r) own' ext ro pend /\
    forall y, dag h' y = upd (dag (rm_heap r)) x (Some None) y.
Proof.
  intros Hi Hr Hne Hp Hc. destruct (role_scope _ _ _ _ _ _ _ Hi Hr) as (sc & Hs & Ho).
  destruct (done sc) eqn:Hl.
  - exists (rm_heap r), own. split_and!.
    + unfold Done, bind, get_scope. by rewrite Hs, Hl.
    + by apply inv_same_heap.
    + intros y. unfold upd. case_decide; [subst y|done]. unfold dag. by rewrite Hs, Ho, Hl.
  - destruct (Done_run r own ext ro pend x sc Hi Hs Ho Hl (Hc sc Hs Hl)) as (h' & Hd & Hb & Hdag & Hsame).
    eexists h', _. split_and!; [done| |done]. destruct Hi as [H1 H2 H3 H4 H5]. constructor; [exact Hb| |done| |].
    + apply mgr_ok_set_heap. eapply mgr_ok_dag_ext; [intros y; symmetry; apply Hdag|].
      apply mgr_ok_close; [done| |done]. unfold dag. rewrite Hs, Ho. by eexists.
    + cbn [set_heap rm_heap rm_conns rm_connLimiter]. rewrite (open_ips_ext _ (dag (rm_heap r))); [done|].
      intros c [cs Hcs]. rewrite Hdag, upd_ne; [done|]. intros ->.
      destruct (mo_conns _ _ _ H2 x cs Hcs) as [? _]. congruence.
    + by apply own_ok_done.
Qed.

Lemma not_peer r own ext ro pend x rl :
  mgr_inv r own ext ro pend -> ro x = Some rl -> (forall p, rl <> RPeer p) -> forall p, rm_peer r !! p <> Some x.
Proof.
  intros Hi Hr Hne p Hp. destruct (mo_peer _ _ _ (mi_ok _ _ _ _ _ Hi) p x Hp) as [H _].
  rewrite Hr in H. injection H as ->. by apply (Hne p).
Qed.

Lemma conn_Done_inv r own ext ro pend c cs :
  mgr_inv r own ext ro pend -> rm_conns r !! c = Some cs ->
  exists h' cl' own', conn_Done c r = Some (tt, set_heap h' (set_connLimiter cl' r)) /\
    mgr_inv (set_heap h' (set_connLimiter cl' r)) own' ext ro pend.
Proof.
  intros Hi Hc. pose proof (mi_ok _ _ _ _ _ Hi) as Hok.
  destruct (mo_conns _ _ _ Hok c cs Hc) as [Hro _].
  destruct (role_scope _ _ _ _ _ _ _ Hi Hro) as (sc & Hs & Ho).
  unfold conn_Done. rewrite (conn_at_eq r c cs) by done.
  erewrite rbind_lift; [|unfold get_scope; rewrite Hs; reflexivity].
  destruct (done sc) eqn:Hl.
  { exists (rm_heap r), (rm_connLimiter r), own. split; [done|].
    exact (inv_same_heap r own ext ro pend Hi). }
  pose proof (handle_childless _ _ _ _ _ c Hi (or_introl Hro)) as Hch.
  destruct (Done_run r own ext ro pend c sc Hi Hs Ho Hl Hch) as (h' & Hd & Hb & Hdag & Hsame).
  set (ips' := open_ips (dag h') (rm_conns r)).
  assert (open_ips (dag (rm_heap r)) (rm_conns r) ≡ₚ
          (if IsValid (cn_ip cs) then [cn_ip cs] else []) ++ ips') as Hips.
  { unfold ips'. rewrite (open_ips_split (dag (rm_heap r)) _ c cs Hc), (open_ips_split (dag h') _ c cs Hc).
    rewrite (open_ips_ext (dag h') (dag (rm_heap r)) (delete c (rm_conns r))).
    - unfold open_ip. simpl. rewrite Hdag, upd_eq. unfold dag at 1. rewrite Hs, Ho, Hl. by destruct (IsValid _).
    - intros c' [cs' [Hne _]%lookup_delete_Some]. by rewrite Hdag, upd_ne. }
  destruct Hi as [H1 H2 H3 H4 H5].
  assert (exists cl', (if IsValid (cn_ip cs) then limiter_rmConn (cn_ip cs) else rret tt) (set_heap (rm_heap r) r) =
            Some (tt, set_connLimiter cl' (set_heap (rm_heap r) r)) /\ limiter_ok cl' (pend ++ ips')) as (cl' & Hrm & Hcl').
  { destruct (IsValid (cn_ip cs)) eqn:Hv.
    - assert (limiter_ok (rm_connLimiter r) (cn_ip cs :: pend ++ ips')) as [Hli Hlen].
      { eapply limiter_ok_perm; [|exact H4]. rewrite Hips. simpl. symmetry. apply Permutation_middle. }
      destruct (rmConn_spec (cn_ip cs) (rm_connLimiter r) (pend ++ ips') Hli Hlen) as (cl' & Heq & _ & Hi').
      exists cl'. split; [|split; [done|simpl in Hlen; lia]].
      unfold limiter_rmConn, rbind, gets, need. cbn. by rewrite Heq.
    - exists (rm_connLimiter r). split; [done|]. eapply limiter_ok_perm; [|exact H4]. by rewrite Hips. }
  rewrite (rbind_eq _ _ _ _ _ Hrm). exists h', cl', (done_own (rm_heap r) own c sc). split.
  - apply lift_eq. exact Hd.
  - constructor; [exact Hb| |done|exact Hcl'|exact (own_ok_done r own c sc h' H5 Ho Hdag Hsame)].
    apply mgr_ok_set_heap. eapply mgr_ok_dag_ext; [intros y; symmetry; apply Hdag|].
    assert (mgr_ok r (upd (dag (rm_heap r)) c (Some None)) ro) as [? [] ? ? ? ? ? ?].
    { apply mgr_ok_close; [done| |].
      - unfold dag. rewrite Hs, Ho. by eexists.
      - intros q Hq. destruct (mo_peer _ _ _ H2 q c Hq) as [? _]. congruence. }
    by constructor.
Qed.

(** ** Opening connections *)

Lemma inv_set_ids r own ext ro pend a b :
  mgr_inv r own ext ro pend -> mgr_inv (set_ids a b r) own ext ro pend.
Proof. intros [H1 [? [] ? ? ? ? ? ?] H3 H4 H5]. by constructor. Qed.

Lemma inv_set_limiter r own ext ro pend pend' cl :
  mgr_inv r own ext ro pend -> limiter_ok cl (pend' ++ open_ips (dag (rm_heap r)) (rm_conns r)) ->
  mgr_inv (set_connLimiter cl r) own ext ro pend'.
Proof. intros [H1 [? [] ? ? ? ? ? ?] H3 H4 H5] Hcl. by constructor. Qed.

Definition ip_list (ip : Addr) : list Addr := if IsValid ip then [ip] else [].

Lemma conn_parents_ok r own ext ro pend al :
  mgr_inv r own ext ro pend ->
  NoDup [conn_transient r al; conn_system r al] /\
  forall e, e ∈ [conn_transient r al; conn_system r al] ->
    edge_ok r ro [conn_transient r al; conn_system r al] e.
Proof.
  intros Hi. destruct (conn_roots r own ext ro pend al Hi) as ((v1 & H1 & Hv1) & (v2 & H2 & Hv2)). split.
  - repeat constructor; rewrite ?elem_of_cons, ?elem_of_nil; destruct Hv1 as [-> | ->], Hv2 as [-> | ->];
      intuition congruence.
  - intros e. rewrite !elem_of_cons, elem_of_nil. unfold edge_ok. intros [->|[->|[]]].
    + rewrite H2. by destruct Hv2 as [-> | ->].
    + rewrite H1. by destruct Hv1 as [-> | ->].
Qed.

Lemma new_conn_inv r own ext ro pend dir usefd al ip endpoint nm :
  mgr_inv r own ext ro (ip_list ip ++ pend) ->
  exists x h',
    newResourceScope (GetConnLimits (rm_limits r)) [conn_transient r al; conn_system r al] nm (rm_heap r) = Some (x, h') /\
    (exists xc, h' !! x = Some xc /\ owner xc = None) /\
    mgr_inv (set_conns (<[x := mkConn dir usefd al None endpoint ip]> (rm_conns r)) (set_heap h' r))
            own ext (upd ro x (Some RConn)) pend.
Proof.
  intros Hi. destruct (conn_parents_ok r _ _ _ _ al Hi) as [Hnd Hok].
  destruct (newResourceScope_inv r own ext ro _ (GetConnLimits (rm_limits r)) _ nm RConn Hi
    (lk_conn _ (mi_lims _ _ _ _ _ Hi)) Hnd Hok) as (x & h' & Hnew & Hfr & Hnone & Hdag & Hk & Hi1).
  exists x, h'. split; [done|]. split.
  { apply dag_open in Hdag as (sc & ? & ? & _). by exists sc. }
  assert (rm_conns r !! x = None) as Hcx.
  { destruct (rm_conns r !! x) as [cs|] eqn:E; [|done].
    destruct (mo_conns _ _ _ (mi_ok _ _ _ _ _ Hi) x cs E) as [? _]. congruence. }
  destruct Hi1 as [B1 [O1 [R1 R2 R3 R4] O3 O4 O5 O6 O7 O8] B3 B4 B5]. constructor; [done| |done| |].
  - constructor; try done. intros c cs. cbn [rm_conns set_conns].
    intros [[<- <-]|[_ Hc]]%lookup_insert_Some; [|by apply O7].
    split; [apply upd_eq|]. intros es. cbn [rm_heap set_heap set_conns]. rewrite Hdag. intros [= <-].
    unfold conn_edges. cbn. by destruct al; [|left].
  - cbn [rm_conns set_conns set_heap rm_heap rm_connLimiter] in *. eapply limiter_ok_perm; [|exact B4].
    rewrite (open_ips_split (dag h') (<[x := _]> _) x (mkConn dir usefd al None endpoint ip)) by by rewrite lookup_insert_eq.
    rewrite delete_insert_id by done. unfold open_ip. simpl. rewrite Hdag. unfold ip_list.
    destruct (IsValid ip); [|done]. simpl. by rewrite <- Permutation_middle.
  - apply (own_ok_handles (set_heap h' r)); [exact B5|done|]. intros y [Hy|Hy]; [left|by right].
    cbn. by apply lookup_insert_is_Some'; right.
Qed.

Lemma newConnectionScope_inv r own ext ro pend dir usefd endpoint ip :
  mgr_inv r own ext ro (ip_list ip ++ pend) ->
  exists x r', newConnectionScope dir usefd (GetConnLimits (rm_limits r)) endpoint ip r = Some (x, r') /\
    is_handle r' x /\ is_Some (rm_heap r' !! x) /\ is_Some (rm_conns r' !! x) /\ rm_limits r' = rm_limits r /\
    rm_allowlist r' = rm_allowlist r /\ exists ro', mgr_inv r' own ext ro' pend.
Proof.
  intros Hi. set (r1 := set_ids (rm_connId r + 1) (rm_streamId r) r).
  pose proof (inv_set_ids _ _ _ _ _ (rm_connId r + 1) (rm_streamId r) Hi) as Hi1. fold r1 in Hi1.
  destruct (new_conn_inv r1 own ext ro pend dir usefd false ip endpoint (connScopeName (rm_connId r1)) Hi1)
    as (x & h' & Hnew & Hx & Hi2).
  set (r' := set_conns (<[x := mkConn dir usefd false None endpoint ip]> (rm_conns r1)) (set_heap h' r1)) in *.
  exists x, r'. assert (is_handle r' x) as Hmay.
  { left. cbn. rewrite lookup_insert_eq. by eexists. }
  split_and!; [|exact Hmay|destruct Hx as (? & ? & _); by eexists|cbn; rewrite lookup_insert_eq; by eexists|done|done|by eexists].
  unfold newConnectionScope, nextConnId. rewrite !rbind_gets. unfold rbind at 1 2. cbn [update gets].
  erewrite rbind_lift by exact Hnew. done.
Qed.

Lemma newAllowListedConnectionScope_inv r own ext ro pend dir usefd endpoint :
  mgr_inv r own ext ro pend ->
  exists x r', newAllowListedConnectionScope dir usefd (GetConnLimits (rm_limits r)) endpoint r = Some (x, r') /\
    is_handle r' x /\ is_Some (rm_heap r' !! x) /\ is_Some (rm_conns r' !! x) /\ exists ro', mgr_inv r' own ext ro' pend.
Proof.
  intros Hi. set (r1 := set_ids (rm_connId r + 1) (rm_streamId r) r).
  pose proof (inv_set_ids _ _ _ _ _ (rm_connId r + 1) (rm_streamId r) Hi) as Hi1. fold r1 in Hi1.
  destruct (new_conn_inv r1 own ext ro pend dir usefd true AddrZero endpoint (connScopeName (rm_connId r1)) Hi1)
    as (x & h' & Hnew & Hx & Hi2).
  set (r' := set_conns (<[x := mkConn dir usefd true None endpoint AddrZero]> (rm_conns r1)) (set_heap h' r1)) in *.
  exists x, r'. assert (is_handle r' x) as Hmay.
  { left. cbn. rewrite lookup_insert_eq. by eexists. }
  split_and!; [|exact Hmay|destruct Hx as (? & ? & _); by eexists|cbn; rewrite lookup_insert_eq; by eexists|by eexists].
  unfold newAllowListedConnectionScope, nextConnId. rewrite !rbind_gets. unfold rbind at 1 2. cbn [update gets].
  erewrite rbind_lift by exact Hnew. done.
Qed.

(** [AddConn] and [AddStream] on the scope of a connection or stream. *)
Lemma lift_reserve_inv r own ext ro pend s d :
  mgr_inv r own ext ro pend -> is_Some (rm_heap r !! s) -> demand_ok d -> is_handle r s ->
  exists err h' own', lift (scope_reserve (S s) d s) r = Some (err, set_heap h' r) /\
    mgr_inv (set_heap h' r) own' ext ro pend.
Proof.
  intros Hi Hs Hd Hmay. destruct (scope_reserve_inv r own ext ro pend s d Hi Hs Hd) as (err & h' & own' & Heq & Hi').
  exists err, h', own'. split; [by apply lift_eq|].
  assert (book_reserve r s d err users = users) as E; [|by rewrite E in Hi'].
  unfold book_reserve, book_add. rewrite (handle_not_own r s Hmay). by destruct err.
Qed.

(** A connection is closed again when its reservation failed. *)
Definition finish_conn (x : nat * option rc_error) : act (result mgr_error nat) :=
  match x.2 with
  | Some err => run conn_Done x.1 then rret (Err (ErrScope err))
  | None => rret (Ok x.1)
  end.

Lemma finish_conn_inv r own ext ro pend x :
  mgr_inv r own ext ro pend -> is_Some (rm_conns r !! x.1) ->
  exists res r' own', finish_conn x r = Some (res, r') /\ mgr_inv r' own' ext ro pend.
Proof.
  intros Hi [cs Hc]. destruct x as [c [err|]]; unfold finish_conn; cbn [fst snd].
  - destruct (conn_Done_inv r own ext ro pend c cs Hi Hc) as (h' & cl' & own' & Hd & Hi').
    rewrite (rbind_eq _ _ _ _ _ Hd). by eexists _, _, own'.
  - by eexists _, _, own.
Qed.

Lemma openConnection_inv r own ext ro dir usefd endpoint ip :
  mgr_inv r own ext ro [] ->
  Z.of_nat (length (open_ips (dag (rm_heap r)) (rm_conns r))) < MaxInt64 - 1 ->
  exists res r' own' ro',
    openConnection dir usefd endpoint ip r = Some (res, r') /\ mgr_inv r' own' ext ro' [].
Proof.
  intros Hi Hlen. unfold openConnection.
  assert (exists ok cl, (if IsValid ip then limiter_addConn ip else rret true) r = Some (ok, set_connLimiter cl r) /\
            mgr_inv (set_connLimiter cl r) own ext ro (if (ok : bool) then ip_list ip ++ [] else [])) as (ok & cl & Hadd & Hi1).
  { destruct (IsValid ip) eqn:Hv.
    - destruct (mi_limiter _ _ _ _ _ Hi) as [Hli Hlt].
      destruct (addConn_spec ip (rm_connLimiter r) _ Hli Hlt) as (cl & Heq & _ & Hcl).
      eexists _, cl. split; [unfold limiter_addConn, rbind, gets, need; by rewrite Heq|].
      apply (inv_set_limiter _ _ _ _ []); [done|]. destruct (admits _ _ _); [|done].
      unfold ip_list. rewrite Hv. split; [done|]. cbn [app length fst] in *. lia.
    - exists true, (rm_connLimiter r). split; [by destruct r|]. apply (inv_set_limiter _ _ _ _ []); [done|].
      unfold ip_list. rewrite Hv. apply Hi. }
  rewrite (rbind_eq _ _ _ _ _ Hadd). destruct ok; [|by eexists _, _, own, ro].
  set (r1 := set_connLimiter cl r) in *. cbn [negb]. rewrite rbind_gets.
  destruct (newConnectionScope_inv r1 own ext ro [] dir usefd endpoint ip Hi1)
    as (c & r2 & Hnew & Hmay & Hc & Hcc & Hlim2 & Hal2 & ro2 & Hi2).
  rewrite (rbind_eq _ _ _ _ _ Hnew).
  destruct (lift_reserve_inv r2 own ext ro2 [] c (DConn dir usefd) Hi2 Hc I Hmay) as (err & h3 & own3 & Hres & Hi3).
  change (lift (AddConn c dir usefd)) with (lift (scope_reserve (S c) (DConn dir usefd) c) : act _).
  rewrite (rbind_eq _ _ _ _ _ Hres), rbind_gets. set (r3 := set_heap h3 r2) in *.
  assert (forall x r4 own4 ro4, mgr_inv r4 own4 ext ro4 [] -> is_Some (rm_conns r4 !! x.1) ->
            exists res r' own' ro', finish_conn x r4 = Some (res, r') /\ mgr_inv r' own' ext ro' []) as Hfin.
  { intros x r4 own4 ro4 Hi4 Hx. destruct (finish_conn_inv r4 own4 ext ro4 [] x Hi4 Hx) as (res & r' & own' & Heq & Hi').
    by exists res, r', own', ro4. }
  fold finish_conn. change (fun x : nat * option rc_error => match x.2 with
    | Some err => run conn_Done x.1 then rret (Err (ErrScope err)) | None => rret (Ok x.1) end) with finish_conn.
  destruct err as [err|]; [|by apply (Hfin _ r3 own3 ro2)].
  destruct (IsValid ip && Allowed (rm_allowlist r3) endpoint); [|by apply (Hfin _ r3 own3 ro2)].
  destruct Hcc as [cs Hcs].
  destruct (conn_Done_inv r3 own3 ext ro2 [] c cs Hi3 Hcs) as (h4 & cl4 & own4 & Hd4 & Hi4).
  set (r4 := set_heap h4 (set_connLimiter cl4 r3)) in *.
  destruct (newAllowListedConnectionScope_inv r4 own4 ext ro2 [] dir usefd endpoint Hi4)
    as (c' & r5 & Hnew5 & Hmay5 & Hc5 & Hcc5 & ro5 & Hi5).
  destruct (lift_reserve_inv r5 own4 ext ro5 [] c' (DConn dir usefd) Hi5 Hc5 I Hmay5) as (err' & h6 & own6 & Hres6 & Hi6).
  assert ((run conn_Done c then
           do c' := newAllowListedConnectionScope dir usefd (GetConnLimits (rm_limits r1)) endpoint in
           do err' := lift (AddConn c' dir usefd) in rret (c', err')) r3 = Some ((c', err'), set_heap h6 r5)) as Heq.
  { rewrite (rbind_eq _ _ _ _ _ Hd4).
    replace (rm_limits r1) with (rm_limits r4) by exact Hlim2. rewrite (rbind_eq _ _ _ _ _ Hnew5).
    change (lift (AddConn c' dir usefd)) with (lift (scope_reserve (S c') (DConn dir usefd) c') : act _).
    by rewrite (rbind_eq _ _ _ _ _ Hres6). }
  rewrite (rbind_eq _ _ _ _ _ Heq). by apply (Hfin _ _ own6 ro5).
Qed.
End ops_inv.
