(* ===== verification/RcmgrStreams.v ===== *)
(** * Streams and garbage collection of the resource manager keep its invariant *)

From stdpp Require Import base gmap list strings fin_maps relations.
From Stdlib Require Import ZArith Lia.
From S2P Require Import Prelude Limits Resources Scope ScopeFacts ScopeInv ScopeAccount ScopeLedger ScopeSpans ConnLimiter Rcmgr RcmgrInv RcmgrOps.

Section streams.
Context {users : Book}.
Context {L : Type} `{!Limit L} {R : Type} `{!Limiter R L}.
Context {MA AL : Type} `{!AllowlistI AL MA} `{!EndpointI MA}.
Context (show_peer : string -> string).
Abbreviation mgr := (resourceManager L R MA AL).
Abbreviation act := (MR L R MA AL).
Implicit Types (r : mgr) (h : heap L) (sc : resourceScope L) (own : nat -> counter -> Z) (ext : nat -> Z).
Implicit Types (ro : nat -> option role).

Ltac distinct := repeat constructor; rewrite ?elem_of_cons, ?elem_of_nil; intuition congruence.

Lemma stream_at_eq {B} r s ss (k : streamScope -> act B) :
  rm_streams r !! s = Some ss -> rbind (stream_at s) k r = k ss r.
Proof. intros Hs. unfold stream_at, rbind, gets, need. by rewrite Hs. Qed.

Lemma bump_keeps r own ext ro pend s x :
  mgr_inv r own ext ro pend -> 0 < ext x -> 0 < bump ext s 1 x.
Proof. intros Hi Hx. unfold bump. case_decide; lia. Qed.

(** ** Opening streams *)

Lemma register_stream_inv r own ext ro pend x ss es :
  mgr_inv r own ext ro pend -> ro x = Some RStream -> dag (rm_heap r) x = Some (Some es) ->
  stream_edges r ro ss es ->
  mgr_inv (set_streams (<[x := ss]> (rm_streams r)) r) own ext ro pend.
Proof.
  intros [H1 [O1 [R1 R2 R3 R4] O3 O4 O5 O6 O7 O8] H3 H4 H5] Hx Hd He. constructor; try done.
  2:{ apply (own_ok_handles r); [done..|]. intros y [Hy|Hy]; [by left|right].
      cbn. by apply lookup_insert_is_Some'; right. }
  constructor; try done.
  intros s ss'. cbn [rm_streams set_streams]. intros [[<- <-]|[_ Hs]]%lookup_insert_Some; [|by apply O8].
  split; [done|]. intros es'. cbn [rm_heap set_streams]. rewrite Hd. by intros [= <-].
Qed.

Lemma newStreamScope_inv r own ext ro pend dir p s :
  mgr_inv r own ext ro pend -> ro s = Some (RPeer p) -> rm_peer r !! p = Some s ->
  exists x r' ro', newStreamScope dir (GetStreamLimits (rm_limits r) p) (p, s) r = Some (x, r') /\
    is_Some (rm_heap r' !! x) /\ is_Some (rm_streams r' !! x) /\ ro' x = Some RStream /\ ro' s = Some (RPeer p) /\
    mgr_inv r' own ext ro' pend.
Proof.
  intros Hi Hs Hp. set (r1 := set_ids (rm_connId r) (rm_streamId r + 1) r).
  pose proof (inv_set_ids _ _ _ _ _ (rm_connId r) (rm_streamId r + 1) Hi) as Hi1. fold r1 in Hi1.
  destruct (mo_roots _ _ _ (mi_ok _ _ _ _ _ Hi)) as [Hrs Hrt _ _].
  destruct (newResourceScope_inv r1 own ext ro pend (GetStreamLimits (rm_limits r) p)
    [s; rm_transient r; rm_system r] (streamScopeName (rm_streamId r1)) RStream Hi1)
    as (x & h' & Hnew & Hfr & Hnone & Hdag & Hk & Hi2).
  { apply Hi. }
  { distinct. }
  { intros e. rewrite !elem_of_cons, elem_of_nil. unfold edge_ok.
    intros [->|[->|[->|[]]]]; [by rewrite Hs|by rewrite Hrt|by rewrite Hrs]. }
  set (r2 := set_heap h' r1) in *. set (ro2 := upd ro x (Some RStream)) in *.
  assert (ro2 s = Some (RPeer p)) as Hs2 by (unfold ro2; rewrite upd_ne; congruence).
  exists x, (set_streams (<[x := mkStream dir (p, s) None None None None]> (rm_streams r2)) r2), ro2.
  split_and!; [| |cbn; rewrite lookup_insert_eq; by eexists|apply upd_eq|done|].
  - unfold newStreamScope, nextStreamId. rewrite !rbind_gets. unfold rbind at 1 2. cbn [update gets].
    erewrite rbind_lift by exact Hnew. done.
  - apply dag_open in Hdag as (sc & ? & _). by eexists.
  - eapply register_stream_inv; [done|apply upd_eq|exact Hdag|]. unfold stream_edges. by cbn.
Qed.

Lemma OpenStream_inv r own ext ro pend p dir :
  mgr_inv r own ext ro pend ->
  exists res r' own' ro', OpenStream show_peer p dir r = Some (res, r') /\ mgr_inv r' own' ext ro' pend.
Proof.
  intros Hi. unfold OpenStream.
  destruct (getPeerScope_inv show_peer p r own ext ro pend Hi) as (s & h1 & m1 & ro1 & Hget & Hi1 & _ & Hs & Hm1 & _).
  rewrite (rbind_eq _ _ _ _ _ Hget), rbind_gets. set (r1 := set_scopes _ _ _ _) in *.
  destruct (newStreamScope_inv r1 own _ ro1 pend dir p s Hi1 Hs Hm1) as (x & r2 & ro2 & Hnew & Hx & Hst & Hrx & Hs2 & Hi2).
  rewrite (rbind_eq _ _ _ _ _ Hnew). erewrite rbind_lift by reflexivity.
  assert (mgr_inv (set_heap (alter (add_refCnt (-1)) s (rm_heap r2)) r2) own ext ro2 pend) as Hi3.
  { eapply inv_ext; [apply bump_undo|]. eapply DecRef_inv; [done..|]. by eapply bump_pos. }
  set (r3 := set_heap _ r2) in *.
  destruct (lift_reserve_inv r3 own ext ro2 pend x (DStream dir) Hi3) as (err & h4 & own4 & Hres & Hi4);
    [by apply alter_is_some|done|by right|].
  change (lift (AddStream x dir)) with (lift (scope_reserve (S x) (DStream dir) x) : act _).
  rewrite (rbind_eq _ _ _ _ _ Hres). set (r4 := set_heap h4 r3) in *.
  destruct err as [err|]; [|by eexists _, _, own4, ro2].
  destruct (Done_inv r4 own4 ext ro2 pend x RStream Hi4 Hrx) as (h5 & own5 & Hd & Hi5 & _);
    [done|by eapply not_peer|intros _ _ _; by eapply handle_childless; [|right]|].
  erewrite rbind_lift by exact Hd. by eexists _, _, own5, ro2.
Qed.

(** ** Protocols and services of a stream *)

Lemma stream_restore (streams : gmap nat streamScope) s ss f :
  streams !! s = Some ss -> f ss = ss -> alter f s streams = streams.
Proof. intros Hs Hf. by apply (alter_id' _ streams s ss). Qed.

(** Charging [a] in advance and giving it back. *)
Lemma charge_rollback d a h sc :
  h !! a = Some sc -> in_range (rc sc) -> accepts d sc = true ->
  alter (unload d) a (alter (charge d) a h) = h.
Proof.
  intros Ha Hr Hacc. rewrite alter_alter_eq. apply (alter_id' _ h a sc Ha). by apply unload_charge.
Qed.

Lemma accepts_rc d (sc sc' : resourceScope L) :
  rc sc' = rc sc -> done sc' = done sc -> accepts d sc' = accepts d sc.
Proof. intros E1 E2. unfold accepts. by rewrite E1, E2. Qed.

Lemma stream_move_inv r own ext ro pend s sc add drop es ss :
  mgr_inv r own ext ro pend -> rm_heap r !! s = Some sc -> done sc = false -> ro s = Some RStream ->
  moves (rm_heap r) s sc add drop es -> (forall e, e ∈ add -> 0 < ext e) ->
  forallb (accepts_at (DStat (stat (rc sc))) (rm_heap r)) add = true ->
  (forall e, e ∈ es -> edge_ok r ro es e) -> stream_edges r ro ss es ->
  mgr_inv (set_streams (<[s := ss]> (rm_streams r)) (set_heap (move_heap (rm_heap r) s sc add drop es) r))
          own (take_refs ext add) ro pend.
Proof.
  intros Hi Hs Hl Hro Hm Hext Hacc Hes Hss. pose proof (mi_ok _ _ _ _ _ Hi) as Hok.
  pose proof (move_inv r own ext ro pend s sc add drop es (rm_conns r) (<[s := ss]> (rm_streams r))
    Hi Hs Hl (or_intror Hro) Hm Hext Hacc Hes) as H. apply H; [| |done|done|]; clear H.
  - intros c cs Hc. destruct (mo_conns _ _ _ Hok c cs Hc) as [Hr He]. split; [done|].
    rewrite upd_ne by congruence. done.
  - intros c ss'. intros [[<- <-]|[Hne Hc]]%lookup_insert_Some.
    + split; [done|]. rewrite upd_eq. by intros es' [= <-].
    + rewrite upd_ne by done. by apply (mo_streams _ _ _ Hok).
  - intros x Hx. by apply lookup_insert_is_Some'; right.
Qed.

Lemma take_two ext a b x :
  a <> b -> take_refs (bump (bump ext a 1) b 1) [a; b] x = ext x.
Proof.
  intros Hne. unfold take_refs, bump. case_decide as Hx.
  - rewrite !elem_of_cons, elem_of_nil in Hx. destruct Hx as [->|[->|[]]].
    + rewrite decide_False, decide_True by done. lia.
    + rewrite decide_True, decide_False by done. lia.
  - rewrite !elem_of_cons, elem_of_nil in Hx. rewrite !decide_False by tauto. done.
Qed.

(** What is known about the scope of an open stream. *)
Lemma open_stream r own ext ro pend s ss sc :
  mgr_inv r own ext ro pend -> rm_streams r !! s = Some ss -> rm_heap r !! s = Some sc -> done sc = false ->
  ro s = Some RStream /\ owner sc = None /\ stream_edges r ro ss (edges sc) /\
  forall e, e ∈ edges sc -> edge_ok r ro (edges sc) e.
Proof.
  intros Hi Hss Hsc Hl. pose proof (mi_ok _ _ _ _ _ Hi) as Hok.
  destruct (mo_streams _ _ _ Hok s ss Hss) as [Hro Hed].
  destruct (role_scope _ _ _ _ _ _ _ Hi Hro) as (sc' & Hsc' & Ho). rewrite Hsc in Hsc'. injection Hsc' as <-.
  assert (dag (rm_heap r) s = Some (Some (edges sc))) as Hd by (apply dag_open; by exists sc).
  split_and!; [done|done|by apply Hed|]. intros e. by apply (mo_edges _ _ _ Hok s).
Qed.

(** Dropping the two references taken on a protocol (or service) and its per-peer
    scope. *)
Lemma drop_two r own ext ro pend a b ra rb :
  mgr_inv r own (bump (bump ext a 1) b 1) ro pend -> (forall x, 0 <= ext x) ->
  ro a = Some ra -> ro b = Some rb -> a <> b ->
  mgr_inv (set_heap (alter (add_refCnt (-1)) b (alter (add_refCnt (-1)) a (rm_heap r))) r) own ext ro pend.
Proof.
  intros Hi Hpos Ha Hb Hne. pose proof (Hpos a). pose proof (Hpos b).
  assert (0 < bump (bump ext a 1) b 1 a) as H1 by (unfold bump; repeat case_decide; congruence || lia).
  pose proof (DecRef_inv r own _ ro pend a ra Hi Ha H1) as Hi1.
  assert (0 < bump (bump (bump ext a 1) b 1) a (-1) b) as H2 by (unfold bump; repeat case_decide; congruence || lia).
  pose proof (DecRef_inv _ own _ ro pend b rb Hi1 Hb H2) as Hi2.
  eapply inv_ext; [|exact Hi2]. intros x. unfold bump. repeat case_decide; lia.
Qed.

(** A stream gets the two new parents [a] and [b] and gives up [drop]. *)
Lemma join_two r own ext ro pend s sc ss a b drop es :
  mgr_inv r own (bump (bump ext a 1) b 1) ro pend -> (forall x, 0 <= ext x) ->
  rm_heap r !! s = Some sc -> done sc = false -> ro s = Some RStream ->
  (forall e, e = a \/ e = b -> (e ∉ edges sc) /\ e <> s /\ exists ec, rm_heap r !! e = Some ec /\
     owner ec = None /\ accepts (DStat (stat (rc sc))) ec = true) -> a <> b ->
  NoDup drop -> (forall e, e ∈ drop -> e ∈ edges sc) ->
  NoDup es -> (forall e, e ∈ es <-> (e ∈ edges sc /\ e ∉ drop) \/ e = a \/ e = b) ->
  (forall e, e ∈ es -> edge_ok r ro es e) -> stream_edges r ro ss es ->
  mgr_inv (set_streams (<[s := ss]> (rm_streams r))
             (set_heap (move_heap (rm_heap r) s sc [a; b] drop es) r)) own ext ro pend.
Proof.
  intros Hi Hpos Hs Hl Hro Hnew Hne Hnd Hsub Hnd' Hes Hok Hss.
  assert (forall e, e ∈ [a; b] <-> e = a \/ e = b) as Hin by (intros e; rewrite !elem_of_cons, elem_of_nil; tauto).
  apply (inv_ext _ _ (take_refs (bump (bump ext a 1) b 1) [a; b])); [intros x; by apply take_two|].
  apply stream_move_inv; [done..| | | |done|done].
  - constructor; [distinct|done|done| | |done].
    + intros e He%Hin. destruct (Hnew e He) as (? & ? & ec & ? & ? & _). eauto.
    + intros e. by rewrite Hin.
  - intros e He%Hin. pose proof (Hpos a). pose proof (Hpos b). unfold bump.
    destruct He as [-> | ->]; repeat case_decide; congruence || lia.
  - cbn. unfold accepts_at. destruct (Hnew a) as (_ & _ & ac & -> & _ & ->); [by left|].
    destruct (Hnew b) as (_ & _ & bc & -> & _ & ->); [by right|]. done.
Qed.

Lemma SetProtocol_inv r own ext ro pend s ss sc n :
  mgr_inv r own ext ro pend -> rm_streams r !! s = Some ss -> rm_heap r !! s = Some sc -> done sc = false ->
  exists res r' ro', SetProtocol show_peer s n r = Some (res, r') /\ mgr_inv r' own ext ro' pend.
Proof.
  intros Hi Hss Hsc Hl. unfold SetProtocol. rewrite (stream_at_eq r s ss) by done.
  destruct (st_proto ss) as [x|] eqn:Hpr0; [by eexists _, r, ro; split; [reflexivity|]|].
  assert (forall x, 0 <= ext x) as Hpos by (intros x; by eapply ext_nonneg).
  destruct (getProtocolScope_inv n r own ext ro pend Hi)
    as (pr & h1 & m1 & ro1 & Hget & Hi1 & Hext & Hpr & (g & Hg & Hgs) & Hk1).
  rewrite (rbind_eq _ _ _ _ _ Hget). unfold set_stream. rewrite rbind_update.
  set (r1 := set_scopes _ _ _ _) in *. destruct (Hk1 s sc Hsc) as (sc1 & Hsc1 & Hrc1 & Hsh1).
  erewrite rbind_lift; [|cbn; unfold get_scope; rewrite Hsc1; reflexivity]. cbv zeta.
  pose proof (open_stream r1 own _ ro1 pend s ss sc1 Hi1 Hss Hsc1 ltac:(by rewrite (shape_done _ _ Hsh1)))
    as (Hrs1 & Ho1 & Hse1 & _).
  destruct (role_scope _ _ _ _ _ _ _ Hi1 Hpr) as (prsc & Hprsc & _). cbn in Hprsc.
  pose proof (bal_heap_inv _ _ _ (mi_bal _ _ _ _ _ Hi1)) as Hinv1. cbn in Hinv1.
  set (st := stat (rc sc1)). destruct (ReserveForChild_run st pr h1 prsc Hinv1 Hprsc) as (err & Hres & Herr).
  erewrite rbind_lift; [|exact Hres].
  destruct (st_peer ss) as [p peer] eqn:Hpeer. cbn [fst snd].
  unfold stream_edges in Hse1. rewrite Hpeer, Hpr0 in Hse1. destruct Hse1 as [Hrp1 Hse1].
  destruct (st_peerProtoScope ss) as [?|] eqn:Hpp0; [done|].
  destruct (st_svc ss) as [?|] eqn:Hsv0; [done|]. destruct (st_peerSvcScope ss) as [?|] eqn:Hps0; [done|].
  assert (forall pp pp', with_proto None None (with_proto pp' pp ss) = ss) as Hback.
  { intros pp pp'. destruct ss. cbn in *. by subst. }
  destruct err as [err|].
  { assert (accepts (DStat st) prsc = false) as -> by (apply not_true_is_false; intros E; by apply Herr in E).
    erewrite rbind_lift by reflexivity. rewrite rbind_update.
    cbn [rm_streams set_streams set_heap rm_heap r1 set_scopes].
    rewrite alter_alter_eq, (stream_restore (rm_streams r) s ss) by (done || apply Hback).
    eexists _, _, ro1. split; [reflexivity|]. eapply inv_ext; [apply bump_undo|].
    exact (DecRef_inv r1 own _ ro1 pend pr _ Hi1 Hpr (bump_pos _ _ _ _ _ pr Hi)). }
  assert (accepts (DStat st) prsc = true) as Hacc by by apply Herr. rewrite Hacc.
  destruct (protocol_getPeerScope_inv show_peer n p r1 own _ ro1 pend g Hi1 Hg)
    as (pp & h3 & m3 & ro3 & Hcomm & Hi3 & Hext3 & Hpp & Hk3).
  set (S1 := alter (with_proto (Some (n, pr)) None) s (rm_streams r1)).
  change (set_heap (alter (charge (DStat st)) pr h1) _) with
    (set_streams S1 (set_heap (alter (map_rc (fun x => (reserve (DStat st) x).1)) pr (rm_heap r1)) r1)).
  rewrite (rbind_eq _ _ _ _ _ (Hcomm _ pr S1 ltac:(by eexists))). rewrite rbind_update.
  set (r3 := set_scopes (rm_svc r1) m3 (rm_peer r1) (set_heap h3 r1)) in *.
  change (alter (map_rc (fun x => (reserve (DStat st) x).1)) pr h3) with (alter (charge (DStat st)) pr h3).
  destruct (Hk3 pr prsc Hprsc) as (prsc3 & Hprsc3 & Eprc & Eprsh).
  destruct (Hk3 s sc1 Hsc1) as (sc3 & Hsc3 & Erc3 & Esh3).
  pose proof (bal_heap_inv _ _ _ (mi_bal _ _ _ _ _ Hi3)) as Hinv3. cbn in Hinv3.
  destruct (role_scope _ _ _ _ _ _ _ Hi3 Hpp) as (ppsc & Hppsc & Hopp). cbn in Hppsc.
  pose proof (Hext3 _ _ Hpr) as Hpr3. pose proof (Hext3 _ _ Hrs1) as Hrs3. pose proof (Hext3 _ _ Hrp1) as Hrp3.
  destruct (mo_roots _ _ _ (mi_ok _ _ _ _ _ Hi3)) as [Rs Rt _ _].
  set (sys := rm_system r3) in *. set (tr := rm_transient r3) in *.
  assert (accepts (DStat st) prsc3 = true) as Hacc3.
  { rewrite <- Hacc. apply accepts_rc; [done|by apply shape_done]. }
  assert (pp <> pr) as Npp by congruence.
  set (h4 := alter (charge (DStat st)) pr h3).
  assert (h4 !! pp = Some ppsc) as Hpp4 by (unfold h4; by rewrite lookup_alter_ne).
  destruct (child_reserve_spec (DStat st) pp h4 ppsc Hpp4) as (err & Hres4 & Herr4).
  { apply ro_range, (hi_ok h3 Hinv3 pp ppsc Hppsc). }
  erewrite rbind_lift; [|exact Hres4]. destruct err as [err|].
  { assert (accepts (DStat st) ppsc = false) as -> by (apply not_true_is_false; intros E; by apply Herr4 in E).
    erewrite rbind_lift; [|apply ReleaseForChild_run; cbn; unfold h4; rewrite lookup_alter_eq, Hprsc3; by eexists].
    do 2 erewrite rbind_lift by reflexivity. rewrite rbind_update.
    cbn [rm_streams set_streams set_heap rm_heap]. unfold h4, S1.
    rewrite (charge_rollback (DStat st) pr h3 prsc3) by (done || apply ro_range, (hi_ok h3 Hinv3 pr prsc3 Hprsc3)).
    rewrite !alter_alter_eq, (stream_restore (rm_streams r1) s ss) by (done || cbn; by destruct ss; cbn in *; subst).
    eexists _, _, ro3. split; [reflexivity|].
    by apply (drop_two r3 own ext ro3 pend pr pp _ _ Hi3 Hpos Hpr3 Hpp). }
  assert (accepts (DStat st) ppsc = true) as Hacc4 by by apply Herr4. rewrite Hacc4, !rbind_gets.
  destruct (role_scope _ _ _ _ _ _ _ Hi3 Rt) as (tsc & Htsc & _). cbn in Htsc.
  erewrite rbind_lift; [|apply ReleaseForChild_run; cbn; apply alter_is_some, alter_is_some; by eexists].
  do 2 erewrite rbind_lift by reflexivity. cbn [rm_heap set_heap set_streams rm_transient rm_system]. rewrite detach_run.
  eexists _, _, ro3. split; [reflexivity|].
  assert (edges sc3 = [peer; tr; sys]) as He3.
  { rewrite (shape_edges _ _ Esh3), Hse1. done. }
  pose proof (open_stream r3 own _ ro3 pend s ss sc3 Hi3 Hss Hsc3
    ltac:(by rewrite (shape_done _ _ Esh3), (shape_done _ _ Hsh1))) as (_ & Ho3 & _ & Hed3).
  assert (stat (rc sc3) = st) as Est by (unfold st; by rewrite Erc3).
  assert (peer <> tr /\ peer <> sys /\ peer <> pr /\ peer <> pp /\ tr <> sys /\ tr <> pr /\ tr <> pp /\
          sys <> pr /\ sys <> pp /\ pr <> s /\ pp <> s) as Hdist by (split_and!; congruence).
  assert (mgr_inv (set_streams (<[s := with_proto (Some (n, pr)) (Some pp) ss]> (rm_streams r3))
            (set_heap (move_heap (rm_heap r3) s sc3 [pr; pp] [tr] [peer; pp; pr; sys]) r3)) own ext ro3 pend) as Hfin.
  { apply join_two; [done|done|done|by rewrite (shape_done _ _ Esh3), (shape_done _ _ Hsh1)|done| |done| | | | | |].
    - rewrite He3, Est. intros e He. rewrite !elem_of_cons, elem_of_nil. destruct He as [-> | ->].
      + split_and!; [intuition congruence|tauto|]. exists prsc3. split_and!; [done| |done].
        destruct (role_scope _ _ _ _ _ _ _ Hi3 Hpr3) as (? & ? & ?). cbn in *. congruence.
      + split_and!; [intuition congruence|tauto|]. by exists ppsc.
    - apply NoDup_singleton.
    - intros e ->%list_elem_of_singleton. rewrite He3. right. by left.
    - distinct.
    - intros e. rewrite He3, !elem_of_cons, elem_of_nil. intuition congruence.
    - intros e. rewrite !elem_of_cons, elem_of_nil. unfold edge_ok. intros [->|[->|[->|[->|[]]]]].
      + specialize (Hed3 peer ltac:(rewrite He3; by left)). unfold edge_ok in Hed3. by rewrite Hrp3 in *.
      + rewrite Hpp. exists peer. split; [by left|done].
      + by rewrite Hpr3.
      + by rewrite Rs.
    - unfold stream_edges, with_proto. cbn. rewrite Hpeer, Hsv0, Hps0. done. }
  assert (alter (with_proto (Some (n, pr)) (Some pp)) s S1 =
          <[s := with_proto (Some (n, pr)) (Some pp) ss]> (rm_streams r3)) as ES.
  { unfold S1. rewrite alter_alter_eq. apply map_eq. intros x. rewrite lookup_insert, lookup_alter.
    case_decide; [subst x|done]. cbn [rm_streams r1 r3 set_scopes set_heap]. rewrite Hss. by destruct ss. }
  cbn [rm_streams set_streams set_heap]. rewrite ES.
  unfold h4. rewrite <- Est. exact Hfin.
Qed.

Lemma SetService_inv r own ext ro pend s ss sc n :
  mgr_inv r own ext ro pend -> rm_streams r !! s = Some ss -> rm_heap r !! s = Some sc -> done sc = false ->
  exists res r' ro', SetService show_peer s n r = Some (res, r') /\ mgr_inv r' own ext ro' pend.
Proof.
  intros Hi Hss Hsc Hl. unfold SetService. rewrite (stream_at_eq r s ss) by done.
  destruct (st_svc ss) as [x|] eqn:Hsv0; [by eexists _, r, ro; split; [reflexivity|]|].
  destruct (st_proto ss) as [[pn pr]|] eqn:Hpr0; [|by eexists _, r, ro; split; [reflexivity|]].
  assert (forall x, 0 <= ext x) as Hpos by (intros x; by eapply ext_nonneg).
  destruct (getServiceScope_inv n r own ext ro pend Hi)
    as (sv & h1 & m1 & ro1 & Hget & Hi1 & Hext & Hsv & (g & Hg & Hgs) & Hk1).
  rewrite (rbind_eq _ _ _ _ _ Hget). unfold set_stream. rewrite rbind_update.
  set (r1 := set_scopes _ _ _ _) in *. destruct (Hk1 s sc Hsc) as (sc1 & Hsc1 & Hrc1 & Hsh1).
  erewrite rbind_lift; [|cbn; unfold get_scope; rewrite Hsc1; reflexivity]. cbv zeta.
  pose proof (open_stream r1 own _ ro1 pend s ss sc1 Hi1 Hss Hsc1 ltac:(by rewrite (shape_done _ _ Hsh1)))
    as (Hrs1 & Ho1 & Hse1 & _).
  destruct (role_scope _ _ _ _ _ _ _ Hi1 Hsv) as (svsc & Hsvsc & _). cbn in Hsvsc.
  pose proof (bal_heap_inv _ _ _ (mi_bal _ _ _ _ _ Hi1)) as Hinv1. cbn in Hinv1.
  set (st := stat (rc sc1)). destruct (ReserveForChild_run st sv h1 svsc Hinv1 Hsvsc) as (err & Hres & Herr).
  erewrite rbind_lift; [|exact Hres].
  destruct (st_peer ss) as [p peer] eqn:Hpeer. cbn [fst snd].
  unfold stream_edges in Hse1. rewrite Hpeer, Hpr0, Hsv0 in Hse1. destruct Hse1 as [Hrp1 Hse1].
  destruct (st_peerProtoScope ss) as [pp|] eqn:Hpp0; [|done].
  destruct (st_peerSvcScope ss) as [?|] eqn:Hps0; [done|]. destruct Hse1 as (Hrpr1 & Hrpp1 & Hse1).
  assert (forall ps ps', with_svc None None (with_svc ps' ps ss) = ss) as Hback.
  { intros ps ps'. destruct ss. cbn in *. by subst. }
  destruct err as [err|].
  { assert (accepts (DStat st) svsc = false) as -> by (apply not_true_is_false; intros E; by apply Herr in E).
    erewrite rbind_lift by reflexivity. rewrite rbind_update.
    cbn [rm_streams set_streams set_heap rm_heap r1 set_scopes].
    rewrite alter_alter_eq, (stream_restore (rm_streams r) s ss) by (done || apply Hback).
    eexists _, _, ro1. split; [reflexivity|]. eapply inv_ext; [apply bump_undo|].
    exact (DecRef_inv r1 own _ ro1 pend sv _ Hi1 Hsv (bump_pos _ _ _ _ _ sv Hi)). }
  assert (accepts (DStat st) svsc = true) as Hacc by by apply Herr. rewrite Hacc.
  destruct (service_getPeerScope_inv show_peer n p r1 own _ ro1 pend g Hi1 Hg)
    as (ps & h3 & m3 & ro3 & Hcomm & Hi3 & Hext3 & Hps & Hk3).
  set (S1 := alter (with_svc (Some (n, sv)) None) s (rm_streams r1)).
  change (set_heap (alter (charge (DStat st)) sv h1) _) with
    (set_streams S1 (set_heap (alter (map_rc (fun x => (reserve (DStat st) x).1)) sv (rm_heap r1)) r1)).
  rewrite (rbind_eq _ _ _ _ _ (Hcomm _ sv S1 ltac:(by eexists))). rewrite rbind_update.
  set (r3 := set_scopes m3 (rm_proto r1) (rm_peer r1) (set_heap h3 r1)) in *.
  change (alter (map_rc (fun x => (reserve (DStat st) x).1)) sv h3) with (alter (charge (DStat st)) sv h3).
  destruct (Hk3 sv svsc Hsvsc) as (svsc3 & Hsvsc3 & Esvc & Esvsh).
  destruct (Hk3 s sc1 Hsc1) as (sc3 & Hsc3 & Erc3 & Esh3).
  pose proof (bal_heap_inv _ _ _ (mi_bal _ _ _ _ _ Hi3)) as Hinv3. cbn in Hinv3.
  destruct (role_scope _ _ _ _ _ _ _ Hi3 Hps) as (pssc & Hpssc & Hops). cbn in Hpssc.
  pose proof (Hext3 _ _ Hsv) as Hsv3. pose proof (Hext3 _ _ Hrs1) as Hrs3. pose proof (Hext3 _ _ Hrp1) as Hrp3.
  pose proof (Hext3 _ _ Hrpr1) as Hrpr3. pose proof (Hext3 _ _ Hrpp1) as Hrpp3.
  destruct (mo_roots _ _ _ (mi_ok _ _ _ _ _ Hi3)) as [Rs _ _ _]. set (sys := rm_system r3) in *.
  assert (accepts (DStat st) svsc3 = true) as Hacc3.
  { rewrite <- Hacc. apply accepts_rc; [done|by apply shape_done]. }
  assert (sv <> ps) as Nps by congruence.
  set (h4 := alter (charge (DStat st)) sv h3).
  assert (h4 !! ps = Some pssc) as Hps4 by (unfold h4; by rewrite lookup_alter_ne).
  destruct (child_reserve_spec (DStat st) ps h4 pssc Hps4) as (err & Hres4 & Herr4).
  { apply ro_range, (hi_ok h3 Hinv3 ps pssc Hpssc). }
  erewrite rbind_lift; [|exact Hres4]. destruct err as [err|].
  { assert (accepts (DStat st) pssc = false) as -> by (apply not_true_is_false; intros E; by apply Herr4 in E).
    erewrite rbind_lift; [|apply ReleaseForChild_run; cbn; unfold h4; rewrite lookup_alter_eq, Hsvsc3; by eexists].
    do 2 erewrite rbind_lift by reflexivity. rewrite rbind_update.
    cbn [rm_streams set_streams set_heap rm_heap]. unfold h4, S1.
    rewrite (charge_rollback (DStat st) sv h3 svsc3) by (done || apply ro_range, (hi_ok h3 Hinv3 sv svsc3 Hsvsc3)).
    rewrite !alter_alter_eq, (stream_restore (rm_streams r1) s ss) by (done || cbn; by destruct ss; cbn in *; subst).
    eexists _, _, ro3. split; [reflexivity|].
    by apply (drop_two r3 own ext ro3 pend sv ps _ _ Hi3 Hpos Hsv3 Hps). }
  assert (accepts (DStat st) pssc = true) as Hacc4 by by apply Herr4. rewrite Hacc4, !rbind_gets.
  unfold need at 1. rewrite (rbind_eq _ _ _ _ _ eq_refl). erewrite rbind_lift by reflexivity.
  cbn [rm_heap set_heap set_streams rm_system]. eexists _, _, ro3. split; [reflexivity|].
  assert (edges sc3 = [peer; pp; pr; sys]) as He3 by (by rewrite (shape_edges _ _ Esh3), Hse1).
  pose proof (open_stream r3 own _ ro3 pend s ss sc3 Hi3 Hss Hsc3
    ltac:(by rewrite (shape_done _ _ Esh3), (shape_done _ _ Hsh1))) as (_ & Ho3 & _ & Hed3).
  assert (stat (rc sc3) = st) as Est by (unfold st; by rewrite Erc3).
  assert (peer <> pp /\ peer <> sys /\ peer <> pr /\ peer <> sv /\ peer <> ps /\ pp <> sys /\ pp <> pr /\ pp <> sv /\
          pp <> ps /\ pr <> sys /\ pr <> sv /\ pr <> ps /\ sv <> sys /\ ps <> sys /\ sv <> s /\ ps <> s)
    as Hdist by (split_and!; congruence).
  assert (mgr_inv (set_streams (<[s := with_svc (Some (n, sv)) (Some ps) ss]> (rm_streams r3))
            (set_heap (move_heap (rm_heap r3) s sc3 [sv; ps] [] [peer; pp; ps; pr; sv; sys]) r3)) own ext ro3 pend) as Hfin.
  { apply join_two; [done|done|done|by rewrite (shape_done _ _ Esh3), (shape_done _ _ Hsh1)|done| |done| | | | | |].
    - rewrite He3, Est. intros e He. rewrite !elem_of_cons, elem_of_nil. destruct He as [-> | ->].
      + split_and!; [intuition congruence|tauto|]. exists svsc3. split_and!; [done| |done].
        destruct (role_scope _ _ _ _ _ _ _ Hi3 Hsv3) as (? & ? & ?). cbn in *. congruence.
      + split_and!; [intuition congruence|tauto|]. by exists pssc.
    - apply NoDup_nil_2.
    - by intros e ?%elem_of_nil.
    - distinct.
    - intros e. rewrite He3, !elem_of_cons, elem_of_nil. intuition congruence.
    - intros e. rewrite !elem_of_cons, elem_of_nil. unfold edge_ok. intros [->|[->|[->|[->|[->|[->|[]]]]]]].
      + specialize (Hed3 peer ltac:(rewrite He3; by left)). unfold edge_ok in Hed3. by rewrite Hrp3 in *.
      + rewrite Hrpp3. exists peer. split; [by left|done].
      + rewrite Hps. exists peer. split; [by left|done].
      + by rewrite Hrpr3.
      + by rewrite Hsv3.
      + by rewrite Rs.
    - unfold stream_edges, with_svc. cbn. rewrite Hpeer, Hpr0, Hpp0. done. }
  assert (alter (with_svc (Some (n, sv)) (Some ps)) s S1 =
          <[s := with_svc (Some (n, sv)) (Some ps) ss]> (rm_streams r3)) as ES.
  { unfold S1. rewrite alter_alter_eq. apply map_eq. intros x. rewrite lookup_insert, lookup_alter.
    case_decide; [subst x|done]. cbn [rm_streams r1 r3 set_scopes set_heap]. rewrite Hss. by destruct ss. }
  cbn [rm_streams set_streams set_heap]. rewrite ES.
  unfold h4. rewrite <- Est. exact Hfin.
Qed.
End streams.
