(* ===== verification/RcmgrSafety.v ===== *)
(** * Safety of the resource manager

    Garbage collection and construction keep the manager's invariant; with the
    other operations this gives the theorems about every run of the manager. *)

From stdpp Require Import base gmap list strings fin_maps relations.
From Stdlib Require Import ZArith Lia.
From S2P Require Import Prelude Limits Resources Scope ScopeFacts ScopeInv ScopeAccount ScopeLedger ScopeSpans ConnLimiter Rcmgr RcmgrInv RcmgrOps RcmgrStreams.

Section gc.
Context {users : Book}.
Context {L : Type} `{!Limit L} {R : Type} `{!Limiter R L}.
Context {MA AL : Type} `{!AllowlistI AL MA} `{!EndpointI MA}.
Context (show_peer : string -> string).
Abbreviation mgr := (resourceManager L R MA AL).
Abbreviation act := (MR L R MA AL).
Implicit Types (r : mgr) (h : heap L) (sc : resourceScope L) (own : nat -> counter -> Z) (ext : nat -> Z).
Implicit Types (ro : nat -> option role).

(** An unused open scope has no open children. *)
Lemma IsUnused_run r own ext ro pend x rl :
  mgr_inv r own ext ro pend -> ro x = Some rl ->
  exists b, IsUnused x (rm_heap r) = Some (b, rm_heap r) /\
    (b = true -> forall sc, rm_heap r !! x = Some sc -> done sc = false -> childless (rm_heap r) x).
Proof.
  intros Hi Hr. destruct (role_scope _ _ _ _ _ _ _ Hi Hr) as (sc & Hs & Ho).
  destruct (mi_bal _ _ _ _ _ Hi) as [_ Ha]. cbn in Ha.
  unfold IsUnused, bind, get_scope. rewrite Hs. destruct (done sc) eqn:Hl.
  { exists true. split; [done|]. intros _ sc' ? ?. congruence. }
  destruct (refCnt sc >? 0) eqn:Href; [by exists false|].
  eexists. split; [reflexivity|]. intros _ _ _ _ k kc Hk.
  pose proof (ac_refs _ _ _ Ha x sc Hs). pose proof (ac_ext _ _ _ Ha x). pose proof (ref_sum_nonneg (rm_heap r) x).
  by apply (ref_sum_zero (rm_heap r) x ltac:(lia) k kc).
Qed.

Lemma group_ok_delete ro mk mkp m n : group_ok ro mk mkp m -> group_ok ro mk mkp (delete n m).
Proof. intros Hm n' g' [_ Hg']%lookup_delete_Some. by apply Hm. Qed.

Lemma gc_protocols_inv l r own ext ro pend :
  mgr_inv r own ext ro pend -> (forall n g, (n, g) ∈ l -> ro (g_scope g) = Some (RProto n)) ->
  exists r' own', gc_protocols l r = Some (tt, r') /\ mgr_inv r' own' ext ro pend.
Proof.
  revert r own. induction l as [|[n g] l IH]; intros r own Hi Hl; [by exists r, own|].
  assert (ro (g_scope g) = Some (RProto n)) as Hg by (apply Hl; by left).
  assert (forall n g, (n, g) ∈ l -> ro (g_scope g) = Some (RProto n)) as Hl' by (intros; apply Hl; by right).
  cbn [gc_protocols]. rewrite rbind_gets. case_bool_decide; [by eapply IH|].
  destruct (IsUnused_run r own ext ro pend (g_scope g) _ Hi Hg) as (b & Hun & Hch).
  erewrite rbind_lift by exact Hun.
  assert (mgr_inv (set_heap (rm_heap r) r) own ext ro pend) as Hi' by by apply inv_same_heap.
  destruct b; [|by apply (IH _ own Hi' Hl')].
  destruct (Done_inv r own ext ro pend (g_scope g) _ Hi Hg) as (h' & own' & Hd & Hi1 & _);
    [done|by eapply not_peer|by apply Hch|].
  erewrite rbind_eq; [|erewrite rbind_lift by exact Hd; reflexivity].
  set (r1 := set_heap h' r) in *. pose proof (mi_ok _ _ _ _ _ Hi1) as Hok1.
  eapply IH; [|done]. apply (inv_scopes r1); [done|exact (mo_svc _ _ _ Hok1)| |exact (mo_peer _ _ _ Hok1)|].
  - apply group_ok_delete. exact (mo_proto _ _ _ Hok1).
  - intros x es e q. apply (peer_edges _ _ _ _ _ _ _ Hok1).
Qed.

(** A peer whose scope has no children is taken off the map and closed. *)
Lemma remove_peer_inv r own ext ro pend p s :
  mgr_inv r own ext ro pend -> rm_peer r !! p = Some s -> childless (rm_heap r) s ->
  exists h' own', Done s (rm_heap r) = Some (tt, h') /\
    mgr_inv (set_scopes (rm_svc r) (rm_proto r) (delete p (rm_peer r)) (set_heap h' r)) own' ext ro pend.
Proof.
  intros Hi Hp Hch. pose proof (mi_ok _ _ _ _ _ Hi) as Hok. destruct (mo_peer _ _ _ Hok p s Hp) as [Hs _].
  assert (mgr_inv (set_scopes (rm_svc r) (rm_proto r) (delete p (rm_peer r)) r) own ext ro pend) as Hi1.
  { apply inv_scopes; [done|exact (mo_svc _ _ _ Hok)|exact (mo_proto _ _ _ Hok)| |].
    - intros q t [_ Ht]%lookup_delete_Some. by apply Hok.
    - intros x es e q Hx He Hr. pose proof (peer_edges _ _ _ _ _ _ _ Hok Hx He Hr) as Hq.
      rewrite lookup_delete_ne; [done|]. intros <-. rewrite Hp in Hq. injection Hq as <-.
      apply dag_open in Hx as (xc & Hxc & Hox & Hlx & <-).
      specialize (Hch x xc Hxc). unfold child_of in Hch.
      rewrite Hlx, Hox, !bool_decide_eq_true_2 in Hch by done. done. }
  destruct (Done_inv _ own ext ro pend s _ Hi1 Hs) as (h' & own' & Hd & Hi2 & _); [done| |done|].
  - cbn. intros q [Hne Hq]%lookup_delete_Some. destruct (mo_peer _ _ _ Hok q s Hq) as [? _]. congruence.
  - by exists h', own'.
Qed.

Lemma gc_peers_inv l dead r own ext ro pend :
  mgr_inv r own ext ro pend -> NoDup l.*1 -> (forall p s, (p, s) ∈ l -> rm_peer r !! p = Some s) ->
  (forall p, p ∈ dead -> rm_peer r !! p = None) ->
  exists dead' r' own', gc_peers l dead r = Some (dead', r') /\ mgr_inv r' own' ext ro pend /\
    (forall p, p ∈ dead' -> rm_peer r' !! p = None).
Proof.
  revert dead r own. induction l as [|[p s] l IH]; intros dead r own Hi Hnd Hl Hdead.
  { by exists dead, r, own. }
  cbn in Hnd. apply NoDup_cons in Hnd as [Hpl Hnd].
  assert (rm_peer r !! p = Some s) as Hp by (apply Hl; by left).
  assert (forall p s, (p, s) ∈ l -> rm_peer r !! p = Some s) as Hl' by (intros; apply Hl; by right).
  cbn [gc_peers]. rewrite rbind_gets. case_bool_decide; [by eapply IH|].
  destruct (mo_peer _ _ _ (mi_ok _ _ _ _ _ Hi) p s Hp) as [Hs [es Hes]].
  destruct (IsUnused_run r own ext ro pend s _ Hi Hs) as (b & Hun & Hch). erewrite rbind_lift by exact Hun.
  destruct b; [|by apply (IH dead (set_heap (rm_heap r) r) own); [apply inv_same_heap|..]].
  apply dag_open in Hes as (sc & Hsc & _ & Hlive & _).
  destruct (remove_peer_inv r own ext ro pend p s Hi Hp (Hch eq_refl sc Hsc Hlive)) as (h' & own' & Hd & Hi1).
  erewrite rbind_lift by exact Hd. rewrite rbind_update. apply (IH _ _ own'); [done|done| |].
  - intros q t Hq. cbn. rewrite lookup_delete_ne; [by apply Hl'|]. intros <-.
    apply Hpl. by apply (list_elem_of_fmap_2 fst _ (p, t)).
  - cbn. intros q [Hq| ->%list_elem_of_singleton]%elem_of_app; [|apply lookup_delete_eq].
    apply lookup_delete_None. right. by apply Hdead.
Qed.

(** Closing the per-peer scopes of dead peers. *)
Lemma gc_group_inv dead peers r own ext ro pend (mk : string -> role) :
  (forall p, mk p = RProtoPeer (match mk p with RProtoPeer n _ => n | _ => "" end) p \/
             mk p = RSvcPeer (match mk p with RSvcPeer n _ => n | _ => "" end) p) ->
  mgr_inv r own ext ro pend -> (forall p, p ∈ dead -> rm_peer r !! p = None) ->
  (forall p ps, peers !! p = Some ps -> ro ps = Some (mk p)) ->
  exists peers' h' own', gc_group dead peers r = Some (peers', set_heap h' r) /\
    mgr_inv (set_heap h' r) own' ext ro pend /\ peers' ⊆ peers.
Proof.
  intros Hmk. revert peers r own. induction dead as [|p dead IH]; intros peers r own Hi Hdead Hpeers.
  { exists peers, (rm_heap r), own. split_and!; [by destruct r|by apply inv_same_heap|done]. }
  cbn [gc_group]. assert (forall q, q ∈ dead -> rm_peer r !! q = None) as Hdead' by (intros; apply Hdead; by right).
  destruct (peers !! p) as [ps|] eqn:Hps; [|by apply (IH peers r own)].
  pose proof (Hpeers p ps Hps) as Hr.
  destruct (Done_inv r own ext ro pend ps _ Hi Hr) as (h1 & own1 & Hd & Hi1 & _).
  { by destruct (Hmk p) as [-> | ->]. }
  { eapply not_peer; [done..|]. intros q. by destruct (Hmk p) as [-> | ->]. }
  { intros sc Hsc Hl k kc Hk. apply not_true_is_false. intros Hch. unfold child_of in Hch.
    apply andb_prop in Hch as [Hch He%bool_decide_eq_true].
    apply andb_prop in Hch as [Hlk%negb_true_iff Hok%bool_decide_eq_true].
    assert (dag (rm_heap r) k = Some (Some (edges kc))) as Hdk by (apply dag_open; by exists kc).
    pose proof (mi_ok _ _ _ _ _ Hi) as Hmo.
    pose proof (mo_edges _ _ _ Hmo k _ ps Hdk He) as Hed. unfold edge_ok in Hed. rewrite Hr in Hed.
    assert (exists s, s ∈ edges kc /\ ro s = Some (RPeer p)) as (s & Hs & Hrs).
    { destruct (Hmk p) as [E|E]; rewrite E in Hed; exact Hed. }
    pose proof (peer_edges _ _ _ _ _ _ _ Hmo Hdk Hs Hrs) as Hq. rewrite Hdead in Hq by by left. done. }
  erewrite rbind_lift by exact Hd.
  destruct (IH (delete p peers) (set_heap h1 r) own1 Hi1) as (peers' & h' & own' & Heq & Hi' & Hsub).
  { done. }
  { intros q t [_ Hq]%lookup_delete_Some. auto. }
  exists peers', h', own'. split_and!; [done|done|]. etransitivity; [done|apply delete_subseteq].
Qed.

Lemma gc_service_peers_inv l dead r own ext ro pend :
  mgr_inv r own ext ro pend -> (forall p, p ∈ dead -> rm_peer r !! p = None) ->
  (forall n g, (n, g) ∈ l -> ro (g_scope g) = Some (RSvc n) /\
     forall p ps, g_peers g !! p = Some ps -> ro ps = Some (RSvcPeer n p)) ->
  exists r' own', gc_service_peers l dead r = Some (tt, r') /\ mgr_inv r' own' ext ro pend /\ rm_peer r' = rm_peer r.
Proof.
  intros Hi. revert r own Hi. induction l as [|[n g] l IH]; intros r own Hi Hdead Hl; [by exists r, own|].
  destruct (Hl n g ltac:(by left)) as [Hg Hgp]. cbn [gc_service_peers].
  destruct (gc_group_inv dead (g_peers g) r own ext ro pend (RSvcPeer n)) as (peers' & h1 & own1 & Heq & Hi1 & Hsub);
    [by right|done..|].
  rewrite (rbind_eq _ _ _ _ _ Heq), rbind_update. set (r1 := set_heap h1 r) in *.
  pose proof (mi_ok _ _ _ _ _ Hi1) as Hok1.
  destruct (IH (set_scopes (<[n := mkGroup (g_scope g) peers']> (rm_svc r1)) (rm_proto r1) (rm_peer r1) r1) own1)
    as (r' & own' & Heq' & Hi' & Hp'); [|done|intros; apply Hl; by right|by exists r', own'].
  apply inv_scopes; [done| |exact (mo_proto _ _ _ Hok1)|exact (mo_peer _ _ _ Hok1)|].
  - apply group_ok_insert; [exact (mo_svc _ _ _ Hok1)|done|]. cbn. intros p ps Hp. apply Hgp.
    by eapply lookup_weaken.
  - intros x es e q. apply (peer_edges _ _ _ _ _ _ _ Hok1).
Qed.

Lemma gc_protocol_peers_inv l dead r own ext ro pend :
  mgr_inv r own ext ro pend -> (forall p, p ∈ dead -> rm_peer r !! p = None) ->
  (forall n g, (n, g) ∈ l -> ro (g_scope g) = Some (RProto n) /\
     forall p ps, g_peers g !! p = Some ps -> ro ps = Some (RProtoPeer n p)) ->
  exists r' own', gc_protocol_peers l dead r = Some (tt, r') /\ mgr_inv r' own' ext ro pend.
Proof.
  intros Hi. revert r own Hi. induction l as [|[n g] l IH]; intros r own Hi Hdead Hl; [by exists r, own|].
  destruct (Hl n g ltac:(by left)) as [Hg Hgp]. cbn [gc_protocol_peers].
  destruct (gc_group_inv dead (g_peers g) r own ext ro pend (RProtoPeer n)) as (peers' & h1 & own1 & Heq & Hi1 & Hsub);
    [by left|done..|].
  rewrite (rbind_eq _ _ _ _ _ Heq), rbind_update. set (r1 := set_heap h1 r) in *.
  pose proof (mi_ok _ _ _ _ _ Hi1) as Hok1.
  eapply IH; [|done|intros; apply Hl; by right].
  apply (inv_scopes r1); [done|exact (mo_svc _ _ _ Hok1)| |exact (mo_peer _ _ _ Hok1)|].
  - apply group_ok_insert; [exact (mo_proto _ _ _ Hok1)|done|]. cbn. intros p ps Hp. apply Hgp.
    by eapply lookup_weaken.
  - intros x es e q. apply (peer_edges _ _ _ _ _ _ _ Hok1).
Qed.

Lemma gc_inv r own ext ro pend :
  mgr_inv r own ext ro pend -> exists r' own', gc r = Some (tt, r') /\ mgr_inv r' own' ext ro pend.
Proof.
  intros Hi. unfold gc. rewrite rbind_gets.
  destruct (gc_protocols_inv (map_to_list (rm_proto r)) r own ext ro pend Hi) as (r1 & own1 & H1 & Hi1).
  { intros n g Hg%elem_of_map_to_list. by apply (mo_proto _ _ _ (mi_ok _ _ _ _ _ Hi)). }
  rewrite (rbind_eq _ _ _ _ _ H1), rbind_gets.
  destruct (gc_peers_inv (map_to_list (rm_peer r1)) [] r1 own1 ext ro pend Hi1) as (dead & r2 & own2 & H2 & Hi2 & Hd).
  { apply NoDup_fst_map_to_list. }
  { intros p s Hp%elem_of_map_to_list. done. }
  { by intros p ?%elem_of_nil. }
  rewrite (rbind_eq _ _ _ _ _ H2), rbind_gets.
  destruct (gc_service_peers_inv (map_to_list (rm_svc r2)) dead r2 own2 ext ro pend Hi2 Hd) as (r3 & own3 & H3 & Hi3 & Hp3).
  { intros n g Hg%elem_of_map_to_list. by apply (mo_svc _ _ _ (mi_ok _ _ _ _ _ Hi2)). }
  rewrite (rbind_eq _ _ _ _ _ H3), rbind_gets.
  apply (gc_protocol_peers_inv _ dead r3 own3 ext ro pend Hi3).
  - by rewrite Hp3.
  - intros n g Hg%elem_of_map_to_list. by apply (mo_proto _ _ _ (mi_ok _ _ _ _ _ Hi3)).
Qed.
End gc.

(** ** Construction *)

(** Nothing is booked on a new manager. *)
Definition empty_book : Book := fun _ _ => 0.

Section new.
Context {L : Type} `{!Limit L} {R : Type} `{!Limiter R L}.
Context {MA AL : Type} `{!AllowlistI AL MA} `{!EndpointI MA}.
Abbreviation mgr := (resourceManager L R MA AL).
Implicit Types (r : mgr) (h : heap L) (own : nat -> counter -> Z) (ext : nat -> Z).

Lemma fresh_addNetworkPrefixLimit b lim cl : fresh cl -> fresh (addNetworkPrefixLimit b lim cl).
Proof.
  intros Hf b'. unfold addNetworkPrefixLimit. destruct (decide (b' = b)) as [->|Hne].
  - rewrite view_put. apply (Hf b).
  - assert (b' = negb b) as -> by (by destruct b, b'). rewrite view_put_other. apply (Hf (negb b)).
Qed.

Lemma fresh_register (lims : R) (al : AL) cl : fresh cl -> fresh (register_allowlist (L:=L) (MA:=MA) lims al cl).
Proof.
  unfold register_allowlist. generalize (map Network (networkPrefixLimitV4 cl) ++ map Network (networkPrefixLimitV6 cl)).
  intros registered. revert cl. induction (allowed_prefixes al) as [|p l IH]; intros cl Hf; [done|].
  cbn. apply IH. case_bool_decide; [done|]. by apply fresh_addNetworkPrefixLimit.
Qed.

(** A root scope and the manager's reference to it. *)
Lemma new_root h own ext (lim : L) es nm :
  balanced (mkLedger h own ext) -> lim_ok lim -> NoDup es -> (forall e, e ∈ es -> is_Some (dag h e)) ->
  exists x h', newResourceScope lim es nm h = Some (x, h') /\ dag h x = None /\
    balanced (mkLedger (alter (add_refCnt 1) x h') own (bump ext x 1)) /\
    forall y, dag (alter (add_refCnt 1) x h') y = upd (dag h) x (Some (Some es)) y.
Proof.
  intros Hb Hl Hnd Hes. assert (edges_valid h es) as Hval.
  { split; [done|]. intros e He. destruct (Hes e He) as [v Hv]. by eapply dag_some. }
  pose proof (newResourceScope_spec lim es nm h) as Hspec. cbv zeta in Hspec.
  set (h1 := alter_all (add_refCnt 1) es h) in *. set (x := fresh_addr h1) in *.
  assert (h1 !! x = None) as Hx1 by apply fresh_addr_None.
  assert (same_shape h h1) as Hsh by by apply same_shape_alter_all.
  exists x, (<[x := new_scope lim None es nm]> h1).
  assert (forall y, dag (<[x := new_scope lim None es nm]> h1) y = upd (dag h) x (Some (Some es)) y) as Hdag.
  { intros y. rewrite (dag_insert_new h1 x) by done. unfold upd. case_decide; [done|]. by apply dag_same_shape. }
  split_and!; [done| | |].
  - rewrite <- (dag_same_shape h h1 Hsh). unfold dag. by rewrite Hx1.
  - eapply bal_incref; [|by rewrite lookup_insert_eq|done].
    eapply gstep_balanced; [|exact Hb]. by eapply g_new.
  - intros y. rewrite <- Hdag. apply dag_same_shape. by apply same_shape_alter.
Qed.

Lemma NewResourceManager_inv (lims : R) opts cl (al : AL) :
  lims_ok (L:=L) lims -> apply_options opts (newConnLimiter, newAllowlist) = Ok (cl, al) -> fresh cl ->
  exists r ext ro, NewResourceManager (L:=L) (MA:=MA) lims opts = Some (Ok r) /\
    mgr_inv (users := empty_book) r (fun _ _ => 0) ext ro [] /\ rm_conns r = ∅ /\ rm_streams r = ∅.
Proof.
  intros Hl Hopts Hfr. unfold NewResourceManager. rewrite Hopts. set (r0 := mkManager _ _ _ _ _ _ _ _ _ _ _ _ _ _ _ _ _).
  destruct (new_root ∅ (fun _ _ => 0) (fun _ => 0) (GetSystemLimits lims) [] "system")
    as (s & h1 & H1 & Hn1 & Hb1 & Hd1); [apply empty_balanced|apply Hl|apply NoDup_nil_2|by intros e ?%elem_of_nil|].
  set (h1' := alter (add_refCnt 1) s h1) in *.
  destruct (new_root h1' _ _ (GetTransientLimits lims) [s] "transient" Hb1)
    as (t & h2 & H2 & Hn2 & Hb2 & Hd2); [apply Hl|apply NoDup_singleton| |].
  { intros e ->%list_elem_of_singleton. rewrite Hd1, upd_eq. by eexists. }
  set (h2' := alter (add_refCnt 1) t h2) in *.
  destruct (new_root h2' _ _ (GetAllowlistedSystemLimits lims) [] "allowlistedSystem" Hb2)
    as (als & h3 & H3 & Hn3 & Hb3 & Hd3); [apply Hl|apply NoDup_nil_2|by intros e ?%elem_of_nil|].
  set (h3' := alter (add_refCnt 1) als h3) in *.
  destruct (new_root h3' _ _ (GetAllowlistedTransientLimits lims) [als] "allowlistedTransient" Hb3)
    as (alt & h4 & H4 & Hn4 & Hb4 & Hd4); [apply Hl|apply NoDup_singleton| |].
  { intros e ->%list_elem_of_singleton. rewrite Hd3, upd_eq. by eexists. }
  set (h4' := alter (add_refCnt 1) alt h4) in *.
  assert (t <> s /\ als <> s /\ als <> t /\ alt <> s /\ alt <> t /\ alt <> als) as (N1 & N2 & N3 & N4 & N5 & N6).
  { assert (forall x, dag h1' x = if decide (x = s) then Some (Some []) else None) as D1.
    { intros x. rewrite Hd1. unfold upd. case_decide; [done|]. unfold dag. by rewrite lookup_empty. }
    split_and!; intros ->.
    - by rewrite D1, decide_True in Hn2.
    - rewrite Hd2 in Hn3. unfold upd in Hn3. rewrite D1 in Hn3. repeat case_decide; done.
    - by rewrite Hd2, upd_eq in Hn3.
    - rewrite Hd3 in Hn4. unfold upd in Hn4. rewrite Hd2 in Hn4. unfold upd in Hn4. rewrite D1 in Hn4.
      repeat case_decide; done.
    - rewrite Hd3 in Hn4. unfold upd in Hn4. rewrite Hd2, upd_eq in Hn4. repeat case_decide; done.
    - by rewrite Hd3, upd_eq in Hn4. }
  pose (ro := fun x => if decide (x = s) then Some RSystem else if decide (x = t) then Some RTransient
              else if decide (x = als) then Some RAllowSystem else if decide (x = alt) then Some RAllowTransient else None).
  pose (r := mkManager lims (register_allowlist (L:=L) (MA:=MA) lims al cl) al s t als alt ∅ ∅ ∅ ∅ ∅ 0 0 h4' ∅ ∅ : mgr).
  exists r, (bump (bump (bump (bump (fun _ => 0) s 1) t 1) als 1) alt 1), ro.
  assert (forall x, dag h4' x = if decide (x = s) then Some (Some []) else if decide (x = t) then Some (Some [s])
            else if decide (x = als) then Some (Some []) else if decide (x = alt) then Some (Some [als]) else None) as D4.
  { intros x. rewrite Hd4. unfold upd. rewrite Hd3. unfold upd. rewrite Hd2. unfold upd. rewrite Hd1. unfold upd.
    repeat case_decide; subst; try done; unfold dag; by rewrite lookup_empty. }
  split_and!; [|constructor|done|done].
  - unfold newSystemScope, newTransientScope, rbind, lift. cbn [rm_heap r0 set_heap].
    rewrite H1. cbn [rm_heap set_heap IncRef modify]. fold h1'. rewrite H2. cbn [rm_heap set_heap IncRef modify]. fold h2'.
    rewrite H3. cbn [rm_heap set_heap IncRef modify]. fold h3'. rewrite H4. cbn [rm_heap set_heap IncRef modify]. fold h4'. done.
  - exact Hb4.
  - constructor; try (by cbn; intros ? ?; rewrite lookup_empty).
    + intros x. cbn [rm_heap r]. rewrite D4. unfold ro. repeat case_decide; split; intros [? ?]; done || by eexists.
    + constructor; cbn; unfold ro; repeat case_decide; congruence.
    + intros x es e. cbn [rm_heap r]. rewrite D4. unfold edge_ok, ro.
      repeat (case_decide; [intros [= <-]|]); try done; try (by intros ?%elem_of_nil);
        intros ->%list_elem_of_singleton; repeat case_decide; congruence || done.
  - done.
  - cbn. split; [|done]. apply fresh_inv. by apply fresh_register.
  - split; [done|]. intros x es c (sc & Hs & Ho & Hlx & _)%dag_open _. cbn [rm_heap r] in *. destruct Hb4 as [Hinv Ha].
    cbn in Hinv, Ha. pose proof (ac_spans _ _ _ Ha x sc c Hs Hlx) as Hle. unfold held in Hle. rewrite Ho in Hle.
    pose proof (span_sum_nonneg c h4' x (hi_ok _ Hinv)). unfold free, booked, empty_book. lia.
Qed.
End new.

(** ** Runs of the manager *)
Section runs.
Context {L : Type} `{!Limit L} {R : Type} `{!Limiter R L}.
Context {MA AL : Type} `{!AllowlistI AL MA} `{!EndpointI MA}.
Context (show_peer : string -> string).
Abbreviation mgr := (resourceManager L R MA AL).
Implicit Types (r : mgr) (h : heap L) (sc : resourceScope L) (d : demand) (b : Book).

(** The number of open connections with an address. *)
Definition open_conns r : list Addr := open_ips (dag (rm_heap r)) (rm_conns r).

(** What may be released on [s]: on one of the manager's own scopes at most what is
    booked there, elsewhere at most what the scope shows beyond its own open spans. *)
Definition may_release r b (s : nat) sc d : Prop :=
  forall c, if own_scope r s then amount d c <= b s c else span_sum c (rm_heap r) s + amount d c <= usage c (rc sc).

Definition book_release r (s : nat) d b : Book :=
  if own_scope r s then add_own b s (fun c => - amount d c) else b.

(** One call by a user of the manager, on the state and the book.  Resources are
    reserved on any scope: connections, streams, the manager's own scopes, and spans of
    all of these.  The setters are called on open connections and streams, and [SetPeer]
    not on a connection that lost its parents in a failed transfer (there it releases
    what was never reserved, see [orphan_setpeer] in [RcmgrTheorems]). *)
Inductive mstep : mgr * Book -> mgr * Book -> Prop :=
| m_open r r' b dir usefd endpoint res :
    Z.of_nat (length (open_conns r)) < MaxInt64 - 1 ->
    OpenConnection dir usefd endpoint r = Some (res, r') -> mstep (r, b) (r', b)
| m_open_noip r r' b dir usefd endpoint res :
    Z.of_nat (length (open_conns r)) < MaxInt64 - 1 ->
    OpenConnectionNoIP dir usefd endpoint r = Some (res, r') -> mstep (r, b) (r', b)
| m_setpeer r r' b c cs sc p res :
    rm_conns r !! c = Some cs -> rm_heap r !! c = Some sc -> done sc = false -> edges sc <> [] ->
    SetPeer show_peer c p r = Some (res, r') -> mstep (r, b) (r', b)
| m_conn_done r r' b c :
    is_Some (rm_conns r !! c) -> conn_Done c r = Some (tt, r') -> mstep (r, b) (r', b)
| m_stream r r' b p dir res :
    OpenStream show_peer p dir r = Some (res, r') -> mstep (r, b) (r', b)
| m_setproto r r' b s ss sc n res :
    rm_streams r !! s = Some ss -> rm_heap r !! s = Some sc -> done sc = false ->
    SetProtocol show_peer s n r = Some (res, r') -> mstep (r, b) (r', b)
| m_setsvc r r' b s ss sc n res :
    rm_streams r !! s = Some ss -> rm_heap r !! s = Some sc -> done sc = false ->
    SetService show_peer s n r = Some (res, r') -> mstep (r, b) (r', b)
| m_stream_done r r' b s :
    is_Some (rm_streams r !! s) -> lift (Done s) r = Some (tt, r') -> mstep (r, b) (r', b)
| m_view_peer r r' b p s : ViewPeer show_peer p rret r = Some (s, r') -> mstep (r, b) (r', b)
| m_view_protocol r r' b n s : ViewProtocol n rret r = Some (s, r') -> mstep (r, b) (r', b)
| m_view_service r r' b n s : ViewService n rret r = Some (s, r') -> mstep (r, b) (r', b)
| m_sticky_peer r r' b p : setStickyPeer p r = Some (tt, r') -> mstep (r, b) (r', b)
| m_sticky_protocol r r' b n : setStickyProtocol n r = Some (tt, r') -> mstep (r, b) (r', b)
| m_gc r r' b : gc r = Some (tt, r') -> mstep (r, b) (r', b)
| m_reserve r r' b s d err :
    is_Some (rm_heap r !! s) -> demand_ok d -> lift (scope_reserve (S s) d s) r = Some (err, r') ->
    mstep (r, b) (r', book_reserve r s d err b)
| m_release r r' b s sc d :
    rm_heap r !! s = Some sc -> demand_ok d -> may_release r b s sc d ->
    lift (scope_release (S s) d s) r = Some (tt, r') -> mstep (r, b) (r', book_release r s d b)
| m_span r r' b s x :
    is_Some (rm_heap r !! s) -> lift (BeginSpan s) r = Some (x, r') -> mstep (r, b) (r', b)
| m_span_done r r' b s sc o :
    rm_heap r !! s = Some sc -> owner sc = Some o -> lift (Done s) r = Some (tt, r') -> mstep (r, b) (r', b).

Definition safe (x : mgr * Book) : Prop := exists own ext ro, mgr_inv (users := x.2) x.1 own ext ro [].

Lemma lift_inv {A} (m : M L A) r a r' :
  lift m r = Some (a, r') -> exists h, m (rm_heap r) = Some (a, h) /\ r' = set_heap h r.
Proof. unfold lift. destruct (m (rm_heap r)) as [[a0 h]|]; [|done]. intros [= <- <-]. eauto. Qed.

Lemma handle_role {b} r own ext ro pend x :
  mgr_inv (users := b) r own ext ro pend -> is_handle r x -> ro x = Some RConn \/ ro x = Some RStream.
Proof.
  intros Hi [[cs Hc]|[ss Hc]]; [left; by apply (mo_conns _ _ _ (mi_ok _ _ _ _ _ Hi) x cs)|].
  right. by apply (mo_streams _ _ _ (mi_ok _ _ _ _ _ Hi) x ss).
Qed.

Lemma handle_own {b} r own ext ro pend s sc c :
  mgr_inv (users := b) r own ext ro pend -> rm_heap r !! s = Some sc -> done sc = false ->
  is_handle r s -> owner sc = None -> own s c = usage c (rc sc).
Proof.
  intros Hi Hs Hl Hr Ho. destruct (mi_bal _ _ _ _ _ Hi) as [_ Ha]. cbn in Ha.
  rewrite (ac_usage _ _ _ Ha s sc c Hs Hl Ho).
  rewrite childless_edge_sum by (eapply handle_childless; [done|by eapply handle_role]). lia.
Qed.

(** Within [may_release], the ledger has what is released. *)
Lemma may_release_available {b} r own ext ro s sc d :
  mgr_inv (users := b) r own ext ro [] -> rm_heap r !! s = Some sc -> may_release r b s sc d ->
  available own (rm_heap r) s d.
Proof.
  intros Hi Hs Hmay sc' c Hs' Hl. rewrite Hs in Hs'. injection Hs' as <-. specialize (Hmay c). revert Hmay.
  unfold own_scope, is_span, held. rewrite Hs. destruct (owner sc) as [o|] eqn:Ho; [done|].
  rewrite (bool_decide_eq_false_2 (is_Some None)) by by intros [? ?]. cbn [negb andb].
  case_bool_decide as Hh; cbn [negb]; intros Hmay; [by rewrite (handle_own r own ext ro [] s sc c Hi Hs Hl Hh Ho)|].
  assert (dag (rm_heap r) s = Some (Some (edges sc))) as Hd by (apply dag_open; by exists sc).
  pose proof (proj2 (mi_own _ _ _ _ _ Hi) s _ c Hd Hh) as Hf. unfold free, booked in Hf. lia.
Qed.

Lemma scope_release_safe r b s sc d r' :
  safe (r, b) -> rm_heap r !! s = Some sc -> demand_ok d -> may_release r b s sc d ->
  lift (scope_release (S s) d s) r = Some (tt, r') -> safe (r', book_release r s d b).
Proof.
  intros (own & ext & ro & Hi) Hs Hd Hmay (h & Heq & ->)%lift_inv. cbn [fst snd] in Hi.
  destruct (mi_bal _ _ _ _ _ Hi) as [Hinv Ha]. cbn in Hinv, Ha.
  pose proof (may_release_available r own ext ro s sc d Hi Hs Hmay) as Hav.
  assert (is_Some (rm_heap r !! s)) as Hsome by by eexists.
  assert (forall x, dag h x = dag (rm_heap r) x) as Hdag.
  { rewrite scope_release_spec in Heq by (lia || done || apply Hinv). injection Heq as <-.
    apply dag_same_shape, same_shape_alter_all, shape_unload. }
  eexists _, ext, ro. eapply (inv_rebook b); [done| |done|].
  - eapply gstep_balanced; [|apply Hi]. by eapply g_release.
  - eapply own_ok_rebook; [apply Hi|done|..]; unfold book_release; cbn [snd].
    + intros x c Hx. destruct (own_scope r s) eqn:Hos; [|done]. unfold add_own. rewrite decide_False; [lia|].
      intros ->. unfold own_scope, is_span in Hos. unfold dag in Hx. rewrite Hs in *. by destruct (owner sc).
    + intros x es c Hx Hn. pose proof (proj1 (dag_open _ _ _) Hx) as (xc & Hxc & Ho & Hl & _).
      rewrite (free_release (rm_heap r) own ext s d h c x xc) by done.
      unfold add_own. case_decide as Hxs; [subst s|destruct (own_scope r s); [rewrite ?decide_False by done|]; lia].
      rewrite (own_scope_dag r x _ Hx), (bool_decide_eq_false_2 (is_handle r x)) by done. cbn [negb].
      rewrite decide_True by done. lia.
Qed.

Lemma BeginSpan_safe r b s x r' :
  safe (r, b) -> is_Some (rm_heap r !! s) -> lift (BeginSpan s) r = Some (x, r') -> safe (r', b).
Proof.
  intros (own & ext & ro & Hi) [sc Hs] (h & Heq & ->)%lift_inv. exists own, ext, ro.
  eapply inv_set_heap; [exact Hi| | |].
  - eapply gstep_balanced; [|apply Hi]. eapply g_span; [by eexists|done].
  - cbn [fst]. rewrite (BeginSpan_spec s (rm_heap r) sc Hs) in Heq. destruct (done sc); injection Heq as <- <-; [done|].
    intros y. rewrite dag_insert_new by apply fresh_addr_None.
    apply dag_same_shape. by apply same_shape_alter.
  - intros c y. by eapply span_sum_begin.
Qed.

Lemma span_Done_safe r b s sc o r' :
  safe (r, b) -> rm_heap r !! s = Some sc -> owner sc = Some o -> lift (Done s) r = Some (tt, r') -> safe (r', b).
Proof.
  intros (own & ext & ro & Hi) Hs Ho (h & Heq & ->)%lift_inv. cbn [fst snd] in Hi.
  destruct (mi_bal _ _ _ _ _ Hi) as [Hinv Ha]. cbn in Hinv, Ha. pose proof (hi_wf _ Hinv) as Hwf.
  assert (balanced (mkLedger h (done_own (rm_heap r) own s sc) ext)) as Hb.
  { eapply gstep_balanced; [|apply Hi]. eapply g_done; [done|congruence|done]. }
  rewrite (Done_spec s (rm_heap r) sc Hwf Hs) in Heq. injection Heq as <-.
  assert (forall y, dag (done_heap (rm_heap r) s sc) y = dag (rm_heap r) y) as Hdag.
  { unfold done_heap. destruct (done sc) eqn:Hl; [done|]. rewrite Ho. set (h1 := alter_all _ _ _).
    assert (same_shape (rm_heap r) (alter (add_refCnt (-1)) o h1)) as Hsh.
    { transitivity h1; [apply same_shape_alter_all, shape_unload|by apply same_shape_alter]. }
    assert (exists sc', alter (add_refCnt (-1)) o h1 !! s = Some sc' /\ owner sc' = Some o) as (sc' & Hs' & Ho').
    { symmetry in Hsh. destruct (same_shape_lookup _ _ s sc Hsh Hs) as (sc' & ? & ? & _). exists sc'. split; [done|congruence]. }
    intros y. erewrite dag_alter_span; [|exact Hs'|exact Ho'|exact Ho']. by apply dag_same_shape. }
  eexists _, ext, ro. eapply inv_set_heap_own; [exact Hi|exact Hb|exact Hdag|].
  eapply own_ok_free; [apply Hi|exact Hdag|]. intros x es c Hx.
  pose proof (proj1 (dag_open _ _ _) Hx) as (xc & Hxc & Hox & Hlx & _). by eapply free_done_span.
Qed.

Lemma view_safe (get : MR L R MA AL nat) r b x r' :
  (forall own ext ro, mgr_inv (users := b) r own ext ro [] -> exists s r1 ro1, get r = Some (s, r1) /\
     mgr_inv (users := b) r1 own (bump ext s 1) ro1 [] /\ exists rl, ro1 s = Some rl) ->
  safe (r, b) -> rbind get (fun s => rbind (rret s) (fun x => rbind (lift (DecRef s)) (fun _ => rret x))) r = Some (x, r') -> safe (r', b).
Proof.
  intros Hget (own & ext & ro & Hi) Heq. destruct (Hget own ext ro Hi) as (s & r1 & ro1 & Hs & Hi1 & rl & Hrl).
  rewrite (rbind_eq _ _ _ _ _ Hs) in Heq. injection Heq as <- <-. exists own, ext, ro1.
  eapply inv_ext; [apply bump_undo|]. eapply DecRef_inv; [done..|]. by eapply bump_pos.
Qed.

Lemma sticky_safe r b sp sq : safe (r, b) -> safe (set_sticky sp sq r, b).
Proof.
  intros (own & ext & ro & [H1 [? [] ? ? ? ? ? ?] H3 H4 H5]). exists own, ext, ro. by constructor.
Qed.

Lemma OpenConnection_inv {b} r own ext ro dir usefd endpoint :
  mgr_inv (users := b) r own ext ro [] -> Z.of_nat (length (open_conns r)) < MaxInt64 - 1 ->
  exists res r' own' ro', OpenConnection dir usefd endpoint r = Some (res, r') /\ mgr_inv (users := b) r' own' ext ro' [].
Proof.
  intros Hi Hlen. unfold OpenConnection. destruct (ToIP endpoint) as [bs|]; [|by eapply openConnection_inv].
  destruct (AddrFromSlice bs); [by eapply openConnection_inv|]. by eexists _, r, own, ro.
Qed.

Lemma mstep_safe x y : mstep x y -> safe x -> safe y.
Proof.
  intros Hstep Hsafe. pose proof Hsafe as (own & ext & ro & Hi). revert Hsafe Hi.
  destruct Hstep as [r r' b dir usefd ep res Hlen Heq|r r' b dir usefd ep res Hlen Heq|r r' b c cs sc p res Hc Hsc Hl Hne Heq
    |r r' b c [cs Hc] Heq|r r' b p dir res Heq|r r' b s ss sc n res Hs Hsc Hl Heq|r r' b s ss sc n res Hs Hsc Hl Heq
    |r r' b s [ss Hs] Heq|r r' b p s Heq|r r' b n s Heq|r r' b n s Heq|r r' b p Heq|r r' b n Heq|r r' b Heq
    |r r' b s d err Hs Hd Heq|r r' b s sc d Hs Hd Hav Heq|r r' b s x Hs Heq|r r' b s sc o Hs Ho Heq];
    cbn [fst snd]; intros Hsafe Hi.
  - destruct (OpenConnection_inv r own ext ro dir usefd ep Hi Hlen) as (? & r2 & own' & ro' & E & Hi').
    rewrite Heq in E. injection E as -> ->. by exists own', ext, ro'.
  - destruct (openConnection_inv r own ext ro dir usefd ep AddrZero Hi Hlen) as (? & r2 & own' & ro' & E & Hi').
    unfold OpenConnectionNoIP in Heq. rewrite Heq in E. injection E as -> ->. by exists own', ext, ro'.
  - destruct (SetPeer_inv show_peer r own ext ro [] c cs sc p Hi Hc Hsc Hl Hne) as (? & r2 & ro' & E & Hi').
    rewrite Heq in E. injection E as -> ->. by exists own, ext, ro'.
  - destruct (conn_Done_inv r own ext ro [] c cs Hi Hc) as (h' & cl' & own' & E & Hi').
    rewrite Heq in E. injection E as ->. by exists own', ext, ro.
  - destruct (OpenStream_inv show_peer r own ext ro [] p dir Hi) as (? & r2 & own' & ro' & E & Hi').
    rewrite Heq in E. injection E as -> ->. by exists own', ext, ro'.
  - destruct (SetProtocol_inv show_peer r own ext ro [] s ss sc n Hi Hs Hsc Hl) as (? & r2 & ro' & E & Hi').
    rewrite Heq in E. injection E as -> ->. by exists own, ext, ro'.
  - destruct (SetService_inv show_peer r own ext ro [] s ss sc n Hi Hs Hsc Hl) as (? & r2 & ro' & E & Hi').
    rewrite Heq in E. injection E as -> ->. by exists own, ext, ro'.
  - destruct (mo_streams _ _ _ (mi_ok _ _ _ _ _ Hi) s ss Hs) as [Hr _].
    destruct (Done_inv r own ext ro [] s _ Hi Hr) as (h' & own' & E & Hi' & _);
      [done|by eapply not_peer|intros _ _ _; by eapply handle_childless; [|right]|].
    rewrite (lift_eq _ _ _ _ E) in Heq. injection Heq as <-. by exists own', ext, ro.
  - apply (view_safe (getPeerScope show_peer p) r b s r'); [|done|exact Heq]. clear. intros own ext ro Hi.
    destruct (getPeerScope_inv show_peer p r own ext ro [] Hi) as (s & h & m & ro' & E & Hi' & _ & Hr & _). eauto 10.
  - apply (view_safe (getProtocolScope n) r b s r'); [|done|exact Heq]. clear. intros own ext ro Hi.
    destruct (getProtocolScope_inv n r own ext ro [] Hi) as (s & h & m & ro' & E & Hi' & _ & Hr & _). eauto 10.
  - apply (view_safe (getServiceScope n) r b s r'); [|done|exact Heq]. clear. intros own ext ro Hi.
    destruct (getServiceScope_inv n r own ext ro [] Hi) as (s & h & m & ro' & E & Hi' & _ & Hr & _). eauto 10.
  - injection Heq as <-. by apply sticky_safe.
  - injection Heq as <-. by apply sticky_safe.
  - destruct (gc_inv r own ext ro [] Hi) as (r2 & own' & E & Hi'). rewrite Heq in E. injection E as ->.
    by exists own', ext, ro.
  - destruct (scope_reserve_inv r own ext ro [] s d Hi Hs Hd) as (? & h' & own' & E & Hi').
    rewrite (lift_eq _ _ _ _ E) in Heq. injection Heq as <- <-. by exists own', ext, ro.
  - by eapply scope_release_safe.
  - by eapply BeginSpan_safe.
  - by eapply span_Done_safe.
Qed.

Lemma run_safe x y : safe x -> rtc mstep x y -> safe y.
Proof. intros Hs Hr. induction Hr; eauto using mstep_safe. Qed.
End runs.
