(* ===== verification/RcmgrTheorems.v ===== *)
(** * What the resource manager guarantees

    The theorems about whole runs of the manager: from [NewResourceManager], through
    any sequence of calls ([mstep] of [RcmgrSafety]).  Resources are reserved on
    connections and streams, on spans of any scope (yamux reserves the windows of its
    streams on a span of the peer's scope, the relay on a span of its service's scope),
    and directly on the manager's own scopes; a book records the last kind. *)

From stdpp Require Import base gmap list strings fin_maps relations.
From Stdlib Require Import ZArith Lia.
From S2P Require Import Prelude Varint GoText Transcoders Multiaddr MultiaddrSpec Limits Resources Scope ScopeFacts ScopeInv ScopeAccount ScopeLedger ScopeSpans ConnLimiter Rcmgr RcmgrInv RcmgrOps RcmgrStreams RcmgrSafety Allowlist.

Section theorems.
Context {L : Type} `{!Limit L} {R : Type} `{!Limiter R L}.
Context {MA AL : Type} `{!AllowlistI AL MA} `{!EndpointI MA}.
Context (show_peer : string -> string).
Abbreviation mgr := (resourceManager L R MA AL).
Implicit Types (r : mgr) (sc : resourceScope L) (bk : Book).

(** A new manager with sane limits whose options leave the limiter without
    connections. *)
Definition starts (lims : R) (opts : list (@Option AL)) r : Prop :=
  lims_ok (L:=L) lims /\
  (exists cl al, apply_options opts (newConnLimiter, newAllowlist) = Ok (cl, al) /\ fresh cl) /\
  NewResourceManager (L:=L) (MA:=MA) lims opts = Some (Ok r).

(** A run of calls, from a new manager and an empty book. *)
Definition runs_to (lims : R) (opts : list (@Option AL)) r bk : Prop :=
  exists r0, starts lims opts r0 /\ rtc (mstep show_peer) (r0, empty_book) (r, bk).

(** What is drawn on the scope [x] itself: all that a connection or stream shows; for
    one of the manager's scopes, what its open spans show and what is booked on it. *)
Definition drawn r bk (c : counter) (x : nat) (xc : resourceScope L) : Z :=
  if bool_decide (is_handle r x) then usage c (rc xc) else span_sum c (rm_heap r) x + bk x c.

(** What is drawn on the open scopes directly below [e]. *)
Definition drawn_below r bk (c : counter) (e : nat) : Z :=
  msum (fun x xc => if child_of e xc then drawn r bk c x xc else 0) (rm_heap r).

Lemma run_from lims opts r bk : runs_to lims opts r bk -> safe (r, bk).
Proof.
  intros (r0 & (Hl & (cl & al & Ho & Hf) & Hn) & Hr). eapply run_safe; [|exact Hr].
  destruct (NewResourceManager_inv lims opts cl al Hl Ho Hf) as (r1 & ext & ro & E & Hi & _).
  rewrite E in Hn. injection Hn as <-. by exists (fun _ _ => 0), ext, ro.
Qed.

Lemma own_drawn r bk own ext ro x xc c :
  mgr_inv (users := bk) r own ext ro [] -> rm_heap r !! x = Some xc -> owner xc = None -> done xc = false ->
  own x c = drawn r bk c x xc.
Proof.
  intros Hi Hx Ho Hl. unfold drawn. case_bool_decide as Hh; [by eapply handle_own|].
  assert (dag (rm_heap r) x = Some (Some (edges xc))) as Hd by (apply dag_open; by exists xc).
  pose proof (proj2 (mi_own _ _ _ _ _ Hi) x _ c Hd Hh) as Hf. unfold free, booked in Hf. lia.
Qed.

Lemma group_usage r bk e ec c :
  safe (r, bk) -> rm_heap r !! e = Some ec -> owner ec = None -> done ec = false ->
  usage c (rc ec) = drawn r bk c e ec + drawn_below r bk c e.
Proof.
  intros (own & ext & ro & Hi) He Ho Hl. cbn [fst snd] in Hi. destruct (mi_bal _ _ _ _ _ Hi) as [_ Ha]. cbn in Ha.
  rewrite (ac_usage _ _ _ Ha e ec c He Hl Ho), (own_drawn r bk own ext ro e ec c Hi He Ho Hl). f_equal.
  apply msum_ext. intros x xc Hx. destruct (child_of e xc) eqn:Hc; [|done]. unfold child_of in Hc.
  apply andb_true_iff in Hc as [[Hxl%negb_true_iff Hxo%bool_decide_eq_true]%andb_true_iff _].
  by apply (own_drawn r bk own ext ro x xc c Hi).
Qed.

(** C1: The books of the manager balance.  After any run, every open scope of the
    manager (system, transient, services, protocols, peers, and the per-peer scopes of
    services and protocols) shows, for every counter, exactly what its own open spans
    show, plus what users reserved on it directly and did not release, plus what is
    drawn in the same way on the open scopes below it, where an open connection or
    stream counts with all it shows: nothing is leaked, nothing is counted twice,
    whatever reservations failed, peers were set or scopes were collected on the way.
    The calls of a run are those of [mstep]: the setters on open connections and
    streams, [SetPeer] not on a connection left without parents by a failed transfer,
    and releases of at most what was reserved. *)
Theorem manager_conserves lims opts r bk :
  runs_to lims opts r bk ->
  forall e ec c, rm_heap r !! e = Some ec -> owner ec = None -> done ec = false -> ~ is_handle r e ->
  usage c (rc ec) = span_sum c (rm_heap r) e + bk e c + drawn_below r bk c e.
Proof.
  intros Hr e ec c He Ho Hl Hn. rewrite (group_usage r bk e ec c) by (done || by eapply run_from).
  unfold drawn. by rewrite bool_decide_eq_false_2.
Qed.

(** C2: After any run every scope is within its limits, and no counter is negative. *)
Theorem manager_within_limits lims opts r bk :
  runs_to lims opts r bk ->
  forall s sc, rm_heap r !! s = Some sc -> within (rc sc) /\ forall c, 0 <= usage c (rc sc).
Proof.
  intros Hr s sc Hsc. destruct (run_from lims opts r bk Hr) as (own & ext & ro & Hi).
  pose proof (hi_ok _ (bal_heap_inv _ _ _ (mi_bal _ _ _ _ _ Hi)) s sc Hsc) as Hok.
  split; [apply Hok|]. intros c. apply (ro_range _ Hok).
Qed.



(** ** Calls return

    The steps of a run are calls that return.  This leaves no call out: after any run,
    every call [mstep] allows does return, that is, no operation follows a reference
    that is not in the heap and no chain of owners is longer than its fuel. *)
Definition returns {A} (m : MR L R MA AL A) r : Prop := is_Some (m r).

Lemma returns_intro {A} (m : MR L R MA AL A) r a r' : m r = Some (a, r') -> returns m r.
Proof. intros E. unfold returns. rewrite E. by eexists. Qed.

Lemma connections_return lims opts r bk :
  runs_to lims opts r bk ->
  (forall dir usefd ep, Z.of_nat (length (open_conns r)) < MaxInt64 - 1 ->
     returns (OpenConnection dir usefd ep) r /\ returns (OpenConnectionNoIP dir usefd ep) r) /\
  (forall c cs sc p, rm_conns r !! c = Some cs -> rm_heap r !! c = Some sc -> done sc = false -> edges sc <> [] ->
     returns (SetPeer show_peer c p) r) /\
  (forall c, is_Some (rm_conns r !! c) -> returns (conn_Done c) r).
Proof.
  intros Hr. destruct (run_from lims opts r bk Hr) as (own & ext & ro & Hi). cbn [fst snd] in Hi. split_and!.
  - intros dir usefd ep Hlen. split.
    + destruct (OpenConnection_inv r own ext ro dir usefd ep Hi Hlen) as (? & ? & ? & ? & E & _). by eapply returns_intro.
    + destruct (openConnection_inv r own ext ro dir usefd ep AddrZero Hi Hlen) as (? & ? & ? & ? & E & _). by eapply returns_intro.
  - intros c cs sc p Hc Hsc Hl Hne.
    destruct (SetPeer_inv show_peer r own ext ro [] c cs sc p Hi Hc Hsc Hl Hne) as (? & ? & ? & E & _). by eapply returns_intro.
  - intros c [cs Hc]. destruct (conn_Done_inv r own ext ro [] c cs Hi Hc) as (? & ? & ? & E & _). by eapply returns_intro.
Qed.

Lemma streams_return lims opts r bk :
  runs_to lims opts r bk ->
  (forall p dir, returns (OpenStream show_peer p dir) r) /\
  (forall s sc n, is_Some (rm_streams r !! s) -> rm_heap r !! s = Some sc -> done sc = false ->
     returns (SetProtocol show_peer s n) r /\ returns (SetService show_peer s n) r) /\
  (forall s, is_Some (rm_streams r !! s) -> returns (lift (Done s)) r).
Proof.
  intros Hr. destruct (run_from lims opts r bk Hr) as (own & ext & ro & Hi). cbn [fst snd] in Hi. split_and!.
  - intros p dir. destruct (OpenStream_inv show_peer r own ext ro [] p dir Hi) as (? & ? & ? & ? & E & _). by eapply returns_intro.
  - intros s sc n [ss Hss] Hsc Hl. split.
    + destruct (SetProtocol_inv show_peer r own ext ro [] s ss sc n Hi Hss Hsc Hl) as (? & ? & ? & E & _). by eapply returns_intro.
    + destruct (SetService_inv show_peer r own ext ro [] s ss sc n Hi Hss Hsc Hl) as (? & ? & ? & E & _). by eapply returns_intro.
  - intros s [ss Hss]. destruct (mo_streams _ _ _ (mi_ok _ _ _ _ _ Hi) s ss Hss) as [Hrl _].
    destruct (Done_inv r own ext ro [] s _ Hi Hrl) as (h' & own' & E & _);
      [done|by eapply not_peer|intros _ _ _; by eapply handle_childless; [|right]|].
    eapply returns_intro, lift_eq, E.
Qed.

Lemma scopes_return lims opts r bk :
  runs_to lims opts r bk ->
  (forall p n, returns (getPeerScope show_peer p) r /\ returns (getProtocolScope n) r /\ returns (getServiceScope n) r) /\
  (forall p n, returns (setStickyPeer p) r /\ returns (setStickyProtocol n) r) /\ returns gc r /\
  (forall s, is_Some (rm_heap r !! s) -> returns (lift (BeginSpan s)) r /\ returns (lift (Done s)) r /\
     forall d, demand_ok d -> returns (lift (scope_reserve (S s) d s)) r /\ returns (lift (scope_release (S s) d s)) r).
Proof.
  intros Hr. destruct (run_from lims opts r bk Hr) as (own & ext & ro & Hi). cbn [fst snd] in Hi.
  pose proof (bal_heap_inv _ _ _ (mi_bal _ _ _ _ _ Hi)) as Hinv. split_and!.
  - intros p n. split_and!.
    + destruct (getPeerScope_inv show_peer p r own ext ro [] Hi) as (? & ? & ? & ? & E & _). by eapply returns_intro.
    + destruct (getProtocolScope_inv n r own ext ro [] Hi) as (? & ? & ? & ? & E & _). by eapply returns_intro.
    + destruct (getServiceScope_inv n r own ext ro [] Hi) as (? & ? & ? & ? & E & _). by eapply returns_intro.
  - intros p n. by split; eexists.
  - destruct (gc_inv r own ext ro [] Hi) as (? & ? & E & _). by eapply returns_intro.
  - intros s [sc Hs]. split_and!.
    + unfold returns, lift. rewrite (BeginSpan_spec s (rm_heap r) sc Hs). by destruct (done sc); eexists.
    + eapply returns_intro, lift_eq, (Done_spec s (rm_heap r) sc); [apply Hinv|done].
    + intros d Hd. split.
      * destruct (scope_reserve_inv r own ext ro [] s d Hi) as (? & ? & ? & E & _); [by eexists|done|]. by eapply returns_intro, lift_eq.
      * eapply returns_intro, lift_eq, scope_release_spec; [lia|apply Hinv|by eexists].
Qed.
End theorems.

(** ** A concrete run *)

Import Sample.
Module ManagerDemo.
#[local] Existing Instance Limiter_fixedLimiter.
#[export] Instance allowlist : AllowlistI Allowlist Multiaddr := Allowlist_AllowlistI AllowDemo.reg.
#[export] Instance endpoints : EndpointI Multiaddr := Multiaddr_EndpointI AllowDemo.reg.
Definition show (p : string) : string := p.
Definition lims : ConcreteLimitConfig :=
  let l := Demo.lim in
  {| system := l; transient := l; allowlistedSystem := l; allowlistedTransient := l; serviceDefault := l; service := ∅;
     servicePeerDefault := l; servicePeer := ∅; protocolDefault := l; protocol := ∅; protocolPeerDefault := l;
     protocolPeer := ∅; peerDefault := l; peer := ∅; conn := l; stream := l |}.
Definition allow (x : connLimiter * Allowlist) : result mgr_error (connLimiter * Allowlist) :=
  match WithAllowlistedMultiaddrs AllowDemo.reg [AllowDemo.subnet; AllowDemo.of_peer] x.2 with
  | Some (Ok al) => Ok (x.1, al)
  | _ => Err ErrOption
  end.
Abbreviation mgr := (resourceManager BaseLimit ConcreteLimitConfig Multiaddr Allowlist).
Definition after {A} (m : MR BaseLimit ConcreteLimitConfig Multiaddr Allowlist A) (r : mgr) : mgr :=
  match m r with Some (_, r') => r' | None => r end.
Definition empty : mgr := mkManager lims newConnLimiter empty_allowlist 0 0 0 0 ∅ ∅ ∅ ∅ ∅ 0 0 ∅ ∅ ∅.
Definition r0 : mgr := match NewResourceManager lims [allow] with Some (Ok r) => r | _ => empty end.

Definition outside : Multiaddr := AllowDemo.addr "/ip4/1.2.3.4/tcp/80".

(** A connection from outside, then a stream to a peer, memory on it, and its protocol. *)
Definition r1 : mgr := after (OpenConnection DirInbound true outside) r0.
Definition r2 : mgr := after (OpenStream show "QmPeer" DirOutbound) r1.
Definition r3 : mgr := after (lift (scope_reserve 7 (DMemory 1000 255) 6)) r2.
Definition r4 : mgr := after (SetProtocol show 6 "/ping") r3.
(** A span of the peer's scope with memory on it, as yamux has for its session, and
    memory on the system scope itself. *)
Definition r5 : mgr := after (lift (BeginSpan 5)) r4.
Definition r6 : mgr := after (lift (scope_reserve 10 (DMemory 500 255) 9)) r5.
Definition r7 : mgr := after (lift (scope_reserve 1 (DMemory 30 255) 0)) r6.
Definition b7 : Book := book_reserve r6 0 (DMemory 30 255) None empty_book.

Lemma started : starts (L:=BaseLimit) (MA:=Multiaddr) lims [allow] r0.
Proof.
  split_and!; [|eexists _, _; split; [vm_compute; reflexivity|intros []; by vm_compute]|vm_compute; reflexivity].
  pose proof Demo.lim_is_ok. constructor; intros; try done.
Qed.

Lemma after_eq {A} (m : MR BaseLimit ConcreteLimitConfig Multiaddr Allowlist A) r a :
  (fst <$> m r) = Some a -> m r = Some (a, after m r).
Proof. unfold after. destruct (m r) as [[b r']|]; [|done]. by intros [= <-]. Qed.

Tactic Notation "by_run" uconstr(m) uconstr(r) uconstr(a) := refine (after_eq m r a _); vm_compute; reflexivity.

Definition is_open (r : mgr) (s : nat) : bool := match rm_heap r !! s with Some sc => negb (done sc) | None => false end.

(** A reservation on a connection, a stream or a span is not booked. *)
Lemma step_reserve r r' b s d :
  is_Some (rm_heap r !! s) -> demand_ok d -> own_scope r s = false -> lift (scope_reserve (S s) d s) r = Some (None, r') ->
  mstep show (r, b) (r', b).
Proof.
  intros Hs Hd Ho Heq. assert (book_reserve r s d None b = b) as E by (cbn; unfold book_add; by rewrite Ho).
  rewrite <- E at 2. by apply m_reserve.
Qed.



Lemma step_setproto r b s n res :
  is_Some (rm_streams r !! s) -> is_open r s = true -> SetProtocol show s n r = Some (res, after (SetProtocol show s n) r) ->
  mstep show (r, b) (after (SetProtocol show s n) r, b).
Proof.
  intros [ss Hss] Ho Heq. unfold is_open in Ho. destruct (rm_heap r !! s) as [sc|] eqn:Hsc; [|done].
  by eapply m_setproto; [..|apply negb_true_iff|].
Qed.

Lemma run_r4 : rtc (mstep show) (r0, empty_book) (r4, empty_book).
Proof.
  apply (rtc_l _ _ (r1, empty_book)).
  { refine (m_open show r0 r1 _ DirInbound true outside (Ok 4%nat) _ _); [by vm_compute|].
    by_run (OpenConnection DirInbound true outside) r0 (Ok 4%nat). }
  apply (rtc_l _ _ (r2, empty_book)).
  { refine (m_stream show r1 r2 _ "QmPeer" DirOutbound (Ok 6%nat) _).
    by_run (OpenStream show "QmPeer" DirOutbound) r1 (Ok 6%nat). }
  apply (rtc_l _ _ (r3, empty_book)).
  { refine (step_reserve r2 r3 _ 6 (DMemory 1000 255) _ _ _ _).
    - apply (bool_decide_unpack _). by vm_compute.
    - split; by vm_compute.
    - by vm_compute.
    - by_run (lift (scope_reserve 7 (DMemory 1000 255) 6)) r2 None. }
  apply rtc_once. eapply (step_setproto r3 _ 6 "/ping" None); [apply (bool_decide_unpack _); by vm_compute|by vm_compute|].
  by_run (SetProtocol show 6 "/ping") r3 None.
Qed.

Lemma run_r7 : rtc (mstep show) (r0, empty_book) (r7, b7).
Proof.
  etransitivity; [apply run_r4|]. apply (rtc_l _ _ (r5, empty_book)).
  { refine (m_span show r4 r5 _ 5 (Ok 9%nat) _ _); [apply (bool_decide_unpack _); by vm_compute|].
    by_run (lift (BeginSpan 5)) r4 (Ok 9%nat). }
  apply (rtc_l _ _ (r6, empty_book)).
  { refine (step_reserve r5 r6 _ 9 (DMemory 500 255) _ _ _ _).
    - apply (bool_decide_unpack _). by vm_compute.
    - split; by vm_compute.
    - by vm_compute.
    - by_run (lift (scope_reserve 10 (DMemory 500 255) 9)) r5 None. }
  apply rtc_once. refine (m_reserve show r6 r7 _ 0 (DMemory 30 255) None _ _ _).
  - apply (bool_decide_unpack _). by vm_compute.
  - split; by vm_compute.
  - by_run (lift (scope_reserve 1 (DMemory 30 255) 0)) r6 None.
Qed.


Lemma runs_r7 : runs_to (L:=BaseLimit) (MA:=Multiaddr) show lims [allow] r7 b7.
Proof. exists r0. exact (conj started run_r7). Qed.

(** A connection from a network whose only allowed peer is another one: two
    connections fill the system scope, so that the third is opened on the allowlisted
    scopes; setting its peer fails, the standard scopes being full. *)
Definition q1 : mgr := after (OpenConnection DirInbound false outside) (after (OpenConnection DirInbound false outside) r0).
Definition q2 : mgr := after (OpenConnection DirInbound false AllowDemo.home) q1.
Definition q3 : mgr := after (SetPeer show 7 "x") q2.
Definition shows (r : mgr) (s : nat) (c : counter) : option Z := usage c ∘ rc <$> rm_heap r !! s.
(** After a failed transfer to the standard scopes the connection has no parents.
    Setting its peer once more then succeeds, and releases on the transient scope a
    connection that was never reserved there: the scope shows one connection although
    two are attached to it. *)
Example orphan_setpeer :
  let q4 := after (SetPeer show 7 "x") q3 in
  edges <$> rm_heap q3 !! 7%nat = Some [] /\
  fst <$> SetPeer show 7 "x" q3 = Some None /\
  shows q3 1 CConnsIn = Some 2 /\
  shows q4 1 CConnsIn = Some 1 /\ drawn_below q4 empty_book CConnsIn 1 = 2.
Proof. vm_compute. repeat split. Qed.
End ManagerDemo.

(** The system scope shows the memory of the stream, of the span of the peer's scope,
    and what was reserved on it directly. *)
Lemma manager_conserves_witness :
  exists sc, rm_heap ManagerDemo.r7 !! O = Some sc /\ usage CMemory (rc sc) = 1530 /\
    ManagerDemo.b7 O CMemory = 30 /\ span_sum CMemory (rm_heap ManagerDemo.r7) 5 = 500 /\
    usage CMemory (rc sc) = span_sum CMemory (rm_heap ManagerDemo.r7) O + ManagerDemo.b7 O CMemory
      + drawn_below ManagerDemo.r7 ManagerDemo.b7 CMemory 0.
Proof.
  eexists. split; [vm_compute; reflexivity|]. split; [vm_compute; reflexivity|].
  split; [vm_compute; reflexivity|]. split; [vm_compute; reflexivity|].
  apply (manager_conserves ManagerDemo.show ManagerDemo.lims [ManagerDemo.allow] ManagerDemo.r7 ManagerDemo.b7
    ManagerDemo.runs_r7); [vm_compute; reflexivity..|].
  apply (bool_decide_eq_false _). vm_compute. reflexivity.
Defined.

Lemma manager_within_limits_witness :
  exists sc, rm_heap ManagerDemo.r7 !! 6%nat = Some sc /\ within (rc sc) /\ forall c, 0 <= usage c (rc sc).
Proof.
  eexists. split; [vm_compute; reflexivity|].
  apply (manager_within_limits ManagerDemo.show ManagerDemo.lims [ManagerDemo.allow] ManagerDemo.r7 ManagerDemo.b7
    ManagerDemo.runs_r7 6). vm_compute. reflexivity.
Defined.


